(* ===== verification/_CoqProject ===== *)
-Q . S2P
Prelude.v
Clock.v
Locator.v
SumTree.v
SumTreeSpec.v
SumTreeFind.v
Cursor.v
CursorSpec.v
CursorFacts.v
Keyed.v
TreeMap.v
TreeMapFacts.v
SumTreeTheorems.v
TreeMapTheorems.v
Bits.v
SelectBit.v
Utf8.v
TextSummary.v
Chunk.v
ChunkFacts.v
ChunkConvert.v
Rope.v
RopeFacts.v
RopeConvert.v
RopeClip.v
RopeEdit.v
RopeSlice.v
RopeChunks.v
RopeTheorems.v
RopeChunksTheorems.v
UndoMap.v
OperationQueue.v
Patch.v
PatchFacts.v
PatchTheorems.v
Subscription.v
Selection.v
History.v
HistoryTheorems.v
LineEnding.v
Fragment.v
RopeBuilder.v
Buffer.v
BufferFacts.v
BufferSteps.v
BufferLocal.v
BufferSeen.v
BufferInv.v
BufferCommit.v
BufferUndo.v
BufferRemote.v
BufferNew.v
BufferTheorems.v
BufferReplicas.v
BufferRestores.v
BufferSync.v
BufferFollow.v
BufferDelivery.v
Anchor.v
AnchorFacts.v
AnchorTheorems.v
EditsSince.v
EditsFacts.v
EditsLoop.v
VersionTheorems.v
StoreData.v
Store.v
StoreLoad.v
StoreFacts.v
StoreOps.v
StoreTheorems.v
Os.v
GitText.v
Git.v
GitDelete.v
GitCreate.v
GitTheorems.v
StreamingDiff.v
StreamingDiffTheorems.v
LineDiff.v
