(* ===== verification/Prelude.v ===== *)
(** * A verification development of the Superzent core

    Superzent is a fork of the Zed editor with a store of projects, worktrees and
    coding agents on top.  This library models the data structures that the editor's
    collaborative buffer rests on, the store, and the crate that makes and deletes worktrees,
    and proves what makes them correct.

    ** The parts and where they are modelled

    - _Logical time_: [crates/clock/src/clock.rs] in [Clock] ([Module Lamport], the
      timestamps; [Module Global], the version vectors).
    - _Positions_: [crates/text/src/locator.rs] in [Locator] ([between] makes a
      locator strictly between two others).
    - _The summarised B+ tree_: [crates/sum_tree/src/sum_tree.rs] in [SumTree]
      (structure, building, [append], [push], [find], updates of the ends) and [Keyed]
      ([insert_or_replace], [remove], [edit], [get]);
      [crates/sum_tree/src/cursor.rs] in [Cursor] (cursors, filter cursors, iterators);
      [crates/sum_tree/src/tree_map.rs] in [TreeMap] ([Module TreeMap], [Module TreeSet]).
      The traits are type classes ([Summary], [Item], [Dimension], [KeyedItem]), and the
      laws that the code relies on are classes of their own ([SummaryLaws],
      [DimensionLaws], [KeyedLaws], [OrdLaws]): the theorems hold for every instance,
      and the parts below discharge the laws for theirs.
    - _The rope_: the text of a buffer, a [SumTree] of chunks of at most 128 bytes, each
      with four bitmaps (boundaries of characters, UTF-16 units, newlines, tabs).
      [Bits] and [SelectBit] hold the bit operations of [crates/rope/src/chunk.rs],
      [Utf8] the part of the standard library's strings that the code uses, [TextSummary]
      the measures ([point.rs], [point_utf16.rs], [offset_utf16.rs], [unclipped.rs] and
      [TextSummary] of [rope.rs]), [Chunk] the chunks and their slices, and [Rope] the
      rope: pushes, appends, [replace], conversions between offsets and points, clipping,
      the rope's [Cursor], [slice] and [slice_rows]; [RopeChunks] its iterators.
    - _Parts of the text buffer_: [crates/text/src/undo_map.rs] in [UndoMap] and
      [crates/text/src/operation_queue.rs] in [OperationQueue], both on keyed trees;
      [crates/text/src/patch.rs] in [Patch]; [crates/text/src/subscription.rs] in
      [Subscription], which composes patches; [crates/text/src/selection.rs] in
      [Selection]; the undo history of [crates/text/src/text.rs] in [History].
    - _The text buffer_ itself, the rest of [text.rs]: [LineEnding] (detection and
      normalisation of line endings), [Fragment] (fragments, insertion fragments and slices with
      their summaries and dimensions), [RopeBuilder] (the visible and the deleted text
      put together from pieces of the old ones), [Buffer] (construction, local and
      remote edits, undo and redo, transactions, deferral of operations), [Anchor]
      ([crates/text/src/anchor.rs], with the functions of [text.rs] that make, resolve and
      compare anchors and convert positions) and [EditsSince] (the iterator [Edits] behind
      [edits_since], and the rope and the offsets of an older version).
    - _The Superzent store_: [crates/superzent_model/src/lib.rs] in [StoreData] (types and
      text functions), [Store] (queries, operations, [normalize]) and [StoreLoad] (loading
      and the migrations from two older formats).
    - _Git and worktrees_: [crates/superzent_git/src/lib.rs] in [GitText] (strings, paths,
      slugs, the parsers of what [git] prints) and [Git] (projects, creation and deletion of
      worktrees, base branches, summaries, the configuration of a repository), over the
      programs of [Os], which ask the system and go on with any answer.

    - _Streaming differences_: [StreamingDiff] of [crates/streaming_diff/src/streaming_diff.rs] in
      [StreamingDiff], with scores in IEEE numbers of 64 bits, and [LineDiff], which follows its operations
      on a rope of the old text.

    A buffer holds its text in a rope, names its operations with [Clock], keeps its fragments in a [SumTree] in the
    order of their [Locator]s, defers what it cannot apply in an [OperationQueue], counts undos in an
    [UndoMap], groups edits in a [History] and tells observers by [Patch]es through
    [Subscription]s.  The entries that [Git] makes are those that [Store] keeps.

    ** How code is modelled

    An operation on [&mut self] is a function that returns the new value; [Arc] and
    clone-on-write do not show.  [None] is a panic (a failed [unwrap] or [assert!], an
    index out of range, an [ArrayVec] that overflows, an unsigned subtraction that
    underflows), so a theorem that gives [Some] says that the code does not panic.
    Machine integers are [N] with the wrap-around of the release profile where the
    code computes with them ([Clock], [Locator]).  A function of [Git] that returns a [Result] is a
    [prog] with a [result]: a tree of the processes it runs and the files it touches, whose
    answers are not determined, so that a theorem on its [runs] holds whatever the system
    answers; [still] gives the result when the system answers a question always
    alike.  [TREE_BASE] is 6, its value outside tests.

    ** Bounds and fuel

    - A loop of a cursor is a step function run for at most [cost] rounds, a bound
      computed from the tree; [CursorSpec] shows that the loops end within it.
    - The stack of a cursor is an [ArrayVec] of 16 entries: theorems on cursors ask for
      trees of height below 16; a taller one from [from_iter] would hold more than 12^15 items.
    - Rows, columns and the counts of a line are [u32].  The definitions that the trees are built with add
      unbounded numbers; those of [TextSummary] whose names end in [_u32] wrap around, and agree with the others for a text below
      2^32 bytes ([RopeTheorems.point_order_lexicographic]).  Theorems on ropes ask for that
      bound.  The height of a tree node is a [u8]; a tree with a height of 255 would hold some 6^254 items.  Appending and slicing ask for ropes whose height the cursor's stack can hold
      ([shallow], [slice_shallow], [replace_shallow]).
    - Theorems on a buffer ask for room ([roomy]): its trees below height 16, ropes
      that can be sliced, inserted text below 2^32 bytes, clocks and undo counts that do not
      reach the end of [u32].  [BufferFollow] and [BufferDelivery] ask for it along a run
      ([all_able], [all_accepted], [all_storable]) and have functions that compute it.
    - [Locator.between] runs at most one round more than the longer locator has
      digits, [Patch.compose] at most as many as its measure of the remaining edits
      allows, [unique_slug] at most one for each used identifier; each is
      proved enough ([Locator.between_shape], [PatchTheorems], [StoreFacts.unique_loop_spec]).

    ** The theorems

    - [Clock]: timestamps extend causality; version vectors are pointwise maxima in a
      canonical form; the comparisons decide the order of versions.
    - [Locator]: [between] is strict and yields a locator usable in the next call;
      appending needs no second digit for 65,535 rounds.
    - [SumTreeSpec], [SumTreeFind], [CursorSpec], [CursorFacts],
      [TreeMapFacts] carry the proofs; [SumTreeTheorems] and [TreeMapTheorems] state what
      they come to: a well-formed tree is its sequence of items, and every
      operation acts on that sequence as its name says, without panic and keeping the
      invariant [wf] (cached summaries right, nodes within capacity, uniform height).
    - [ChunkFacts], [ChunkConvert], [RopeFacts], [RopeConvert], [RopeClip], [RopeEdit] and
      [RopeSlice] carry the proofs of [RopeTheorems]: bitmaps describe the text of a chunk,
      a rope is its text ([rope_inv]), summaries are what counting characters gives,
      conversions agree with each other and with the text, clipping ends at a boundary,
      edits and slices are those of strings.
    - [RopeChunksTheorems]: read through its iterators a rope is its text, in both directions; an iterator
      stands at a boundary of its range after every move.
    - [UndoMap], [OperationQueue]: counts are maxima and commute; the queue is sorted and
      free of duplicates.
    - [PatchTheorems], [Subscription]: composing patches composes the changes they
      describe; a subscriber's patch leads from the text it last saw to the current one.
    - [HistoryTheorems]: transactions bracket, group, undo and redo, and lose no edit.
    - The buffer.  [BufferFacts] says what a list of pieces, fragments with their texts, stands for;
      [BufferInv] the invariant [snapshot_ok] that ties the trees and the two ropes to such
      a list; [BufferSteps], [BufferLocal] follow the loops of a local edit,
      [BufferSeen], [BufferRemote] those of a remote one, [BufferUndo] those of an
      undo, and [BufferCommit] what is stored at their end; [BufferNew] does construction.
      [BufferTheorems]: [Buffer::new] and [edit] do to the text what they say.
      [BufferReplicas]: a remote edit does, in the text that its author saw, what its author
      did.  [BufferRestores]: [undo] and [redo] take away and bring back what they name.
      [BufferSync], [BufferFollow]: a replica that applies the operations of another
      one stays in step with it, byte for byte.  [BufferDelivery]: it gets there whatever
      the order in which the operations arrive.
    - Anchors.  [BufferSeen]: the fragments of an insertion lie side by side, so that its bytes can be
      counted.  [AnchorFacts]: an anchor is found by counting.  [AnchorTheorems]: it resolves to the offset it
      was made at, moves with its byte in an edit, is the same place to every replica
      in step, and compares as it resolves.
    - Older versions.  [EditsFacts]: what a version saw of the fragments, and that the ones it has seen all of did
      not change.  What a version saw stays, whatever happens to the buffer.  [EditsLoop]: the rounds of
      [Edits].  [VersionTheorems] puts them together, for a snapshot and for a buffer and what became of it: the edits since a version lead from the text of
      then to the text of now, and its rope and offsets are those of then.
    - [StoreFacts], [StoreOps] carry the proofs of [StoreTheorems]: every
      operation keeps the store's invariant and ends; what reaches the state file; slugs;
      presets; reordering; loading.
    - [GitDelete] has the weakest preconditions of the programs that run [git] and the shell, and says that nothing is removed before the teardown has succeeded, and what is reported is
      what happened.  [GitCreate]: a creation adds one worktree, after its guards, and reports what it did;
      when it fails later it cleans up, and what is left is what the clean-up failed to remove.
      [GitTheorems]: the base branch against a list of candidates, the counts of a summary
      against the lines of [git], and the way of a teardown script from its form to the deletion.
    - [StreamingDiffTheorems]: the operations of a streaming difference make the new text of the old one,
      and its scores do not depend on the pieces in which the new text arrives.

    ** Not modelled

    Of the text buffer: the channels on which tasks wait for edits, the indentation of lines;
    the edits in a range ([edits_since_in_range]) are modelled, and shown only for the whole text.  Convergence is shown for operations
    that were made one after the other, by any authors, and for undos; concurrent edits
    are covered by what each does to the text its author saw, not by a proof that all orders
    of application give the same fragments.  Also left out are the crates that need a display, a network or a process: the editor view, GPUI,
    language servers, terminals, collaboration, settings.  Formatting, [Debug] and
    serialisation are left out; the boundaries of grapheme clusters, which a third-party
    crate finds, are a parameter of [clip_point].  [LineDiff] is modelled and run on examples, without theorems: it has cases in which it is wrong.
    [fuzzy] is left out.

    ** This file

    The prelude: [Ord] and its laws after the Rust trait, with notations, hints and
    instances for numbers, pairs, options and lists. *)

From stdpp Require Export base option numbers list sorting.

#[global] Set Default Goal Selector "!".

(** ** Total orders, the Rust trait [Ord]

    [cmp] is the method [Ord::cmp]; [OrdLaws] are the laws the standard
    library documents for it and that every client below relies on. *)

Class Ord (A : Type) : Type := cmp : A → A → comparison.
#[global] Hint Mode Ord ! : typeclass_instances.

Class OrdLaws (A : Type) `{Ord A} : Prop := {
  cmp_eq_iff (x y : A) : cmp x y = Eq ↔ x = y;
  cmp_opp (x y : A) : cmp y x = CompOpp (cmp x y);
  cmp_lt_trans (x y z : A) : cmp x y = Lt → cmp y z = Lt → cmp x z = Lt
}.

(** [Ordering::then_with]. *)
Definition then_with (c d : comparison) : comparison :=
  match c with Eq => d | _ => c end.

Definition olt {A} `{Ord A} (x y : A) : Prop := cmp x y = Lt.
Definition ole {A} `{Ord A} (x y : A) : Prop := cmp x y ≠ Gt.

(** The derived operators [<], [<=], [==] and [cmp::max] of an [Ord] type. *)
Definition ltb_ord {A} `{Ord A} (x y : A) : bool :=
  match cmp x y with Lt => true | _ => false end.
Definition leb_ord {A} `{Ord A} (x y : A) : bool :=
  match cmp x y with Gt => false | _ => true end.
Definition eqb_ord {A} `{Ord A} (x y : A) : bool :=
  match cmp x y with Eq => true | _ => false end.
Definition max_ord {A} `{Ord A} (x y : A) : A :=
  match cmp x y with Gt => x | _ => y end.

Declare Scope ord_scope.
Delimit Scope ord_scope with ord.
Infix "≺" := olt (at level 70) : ord_scope.
Infix "≼" := ole (at level 70) : ord_scope.
Open Scope ord_scope.

Create HintDb order discriminated.

Section ord_facts.
Context {A : Type} `{OrdLaws A}.
Implicit Types x y z : A.

Lemma cmp_refl x : cmp x x = Eq.
Proof. by apply cmp_eq_iff. Qed.

Lemma cmp_gt_lt x y : cmp x y = Gt ↔ cmp y x = Lt.
Proof. rewrite (cmp_opp x y). by destruct (cmp x y). Qed.

Lemma olt_irrefl x : ¬ x ≺ x.
Proof. unfold olt. by rewrite cmp_refl. Qed.

Lemma olt_trans x y z : x ≺ y → y ≺ z → x ≺ z.
Proof. apply cmp_lt_trans. Qed.

Lemma ole_iff x y : x ≼ y ↔ x ≺ y ∨ x = y.
Proof.
  unfold ole, olt. rewrite <- cmp_eq_iff.
  destruct (cmp x y); intuition congruence.
Qed.

Lemma ole_refl x : x ≼ x.
Proof. apply ole_iff. by right. Qed.

Lemma olt_le x y : x ≺ y → x ≼ y.
Proof. rewrite ole_iff. by left. Qed.

Lemma ole_lt_trans x y z : x ≼ y → y ≺ z → x ≺ z.
Proof. rewrite ole_iff. intros [?| ->]; eauto using olt_trans. Qed.

Lemma olt_le_trans x y z : x ≺ y → y ≼ z → x ≺ z.
Proof. rewrite ole_iff. intros ? [?| <-]; eauto using olt_trans. Qed.

Lemma ole_trans x y z : x ≼ y → y ≼ z → x ≼ z.
Proof.
  rewrite (ole_iff x y). intros [?| ->] ?; [|done].
  apply olt_le. eauto using olt_le_trans.
Qed.

Lemma not_olt x y : ¬ x ≺ y ↔ y ≼ x.
Proof.
  unfold olt, ole. rewrite (cmp_opp x y). destruct (cmp x y); naive_solver.
Qed.

Lemma not_ole x y : ¬ x ≼ y ↔ y ≺ x.
Proof.
  unfold olt, ole. rewrite (cmp_opp x y). destruct (cmp x y); naive_solver.
Qed.

Lemma ole_antisym x y : x ≼ y → y ≼ x → x = y.
Proof.
  rewrite !ole_iff. intros [?|?] [?|?]; try done.
  destruct (olt_irrefl x). eauto using olt_trans.
Qed.

Lemma ole_total x y : x ≼ y ∨ y ≼ x.
Proof. unfold ole. rewrite (cmp_opp x y). destruct (cmp x y); naive_solver. Qed.

Lemma ltb_ord_spec x y : ltb_ord x y = true ↔ x ≺ y.
Proof. unfold ltb_ord, olt. destruct (cmp x y); naive_solver. Qed.

Lemma leb_ord_spec x y : leb_ord x y = true ↔ x ≼ y.
Proof. unfold leb_ord, ole. destruct (cmp x y); naive_solver. Qed.

Lemma eqb_ord_spec x y : eqb_ord x y = true ↔ x = y.
Proof. rewrite <- cmp_eq_iff. unfold eqb_ord. destruct (cmp x y); naive_solver. Qed.

Lemma max_ord_ge_l x y : x ≼ max_ord x y.
Proof.
  unfold max_ord. destruct (cmp x y) eqn:E; [unfold ole; congruence..|].
  apply ole_refl.
Qed.

Lemma max_ord_ge_r x y : y ≼ max_ord x y.
Proof.
  unfold max_ord. destruct (cmp x y) eqn:E; [apply ole_refl..|].
  apply olt_le, cmp_gt_lt, E.
Qed.

Lemma max_ord_right x y : x ≼ y → max_ord x y = y.
Proof. unfold ole, max_ord. by destruct (cmp x y). Qed.

Lemma max_ord_cases x y : max_ord x y = x ∨ max_ord x y = y.
Proof. unfold max_ord. destruct (cmp x y); auto. Qed.

Lemma max_ord_assoc x y z : max_ord (max_ord x y) z = max_ord x (max_ord y z).
Proof.
  apply ole_antisym.
  - destruct (max_ord_cases (max_ord x y) z) as [-> | ->].
    + destruct (max_ord_cases x y) as [-> | ->]; [apply max_ord_ge_l|].
      eapply ole_trans; [apply max_ord_ge_l | apply max_ord_ge_r].
    + eapply ole_trans; [apply max_ord_ge_r | apply max_ord_ge_r].
  - destruct (max_ord_cases x (max_ord y z)) as [-> | ->].
    + eapply ole_trans; [apply max_ord_ge_l | apply max_ord_ge_l].
    + destruct (max_ord_cases y z) as [-> | ->]; [|apply max_ord_ge_r].
      eapply ole_trans; [apply max_ord_ge_r | apply max_ord_ge_l].
Qed.
End ord_facts.

#[export] Hint Resolve cmp_refl ole_refl olt_le max_ord_ge_l max_ord_ge_r : order.

(** Case analysis on a comparison, turning it into the order relation. *)
Ltac ord_cases x y :=
  let E := fresh "E" in
  destruct (cmp x y) eqn:E;
  [ apply cmp_eq_iff in E | fold (olt x y) in E | apply cmp_gt_lt in E; fold (olt y x) in E ].

(** *** Instances *)

#[export] Instance ord_N : Ord N := N.compare.
#[export] Instance ord_laws_N : OrdLaws N.
Proof.
  unfold cmp, ord_N. split; intros *.
  - apply N.compare_eq_iff.
  - apply N.compare_antisym.
  - rewrite !N.compare_lt_iff. lia.
Qed.

#[export] Instance ord_nat : Ord nat := Nat.compare.
#[export] Instance ord_laws_nat : OrdLaws nat.
Proof.
  unfold cmp, ord_nat. split; intros *.
  - apply Nat.compare_eq_iff.
  - apply Nat.compare_antisym.
  - rewrite !Nat.compare_lt_iff. lia.
Qed.

Lemma then_with_opp c d : CompOpp (then_with c d) = then_with (CompOpp c) (CompOpp d).
Proof. by destruct c. Qed.

(** Two comparisons chained with [then_with] order pairs lexicographically. *)
#[export] Instance ord_prod {A B} `{Ord A, Ord B} : Ord (A * B) :=
  λ p q, then_with (cmp p.1 q.1) (cmp p.2 q.2).

Lemma cmp_pair {A B} `{Ord A, Ord B} (a a' : A) (b b' : B) :
  cmp (a, b) (a', b') = then_with (cmp a a') (cmp b b').
Proof. done. Qed.

#[export] Instance ord_laws_prod {A B} `{OrdLaws A, OrdLaws B} : OrdLaws (A * B).
Proof.
  split.
  - intros [a b] [a' b']. rewrite cmp_pair, pair_eq.
    pose proof (cmp_eq_iff a a') as Ha. pose proof (cmp_eq_iff b b') as Hb.
    destruct (cmp a a'); simpl; intuition congruence.
  - intros [a b] [a' b']. by rewrite !cmp_pair, then_with_opp, <- !cmp_opp.
  - intros [a b] [a' b'] [a'' b'']. rewrite !cmp_pair.
    destruct (cmp a a') eqn:E1; simpl; [|intros _|done].
    + apply cmp_eq_iff in E1 as ->. destruct (cmp a' a''); simpl; eauto using cmp_lt_trans.
    + destruct (cmp a' a'') eqn:E2; simpl; [intros _|intros _|done].
      * apply cmp_eq_iff in E2 as <-. by rewrite E1.
      * by rewrite (cmp_lt_trans _ _ _ E1 E2).
Qed.

(** An order that compares images under an injection, such as a derived order of a record. *)
Lemma ord_laws_map {A B} `{Ord A, OrdLaws B} (f : A → B) :
  (∀ x y, cmp x y = cmp (f x) (f y)) → (∀ x y, f x = f y → x = y) → OrdLaws A.
Proof.
  intros Hcmp Hinj. split.
  - intros x y. rewrite Hcmp, cmp_eq_iff. split; [apply Hinj|by intros ->].
  - intros x y. rewrite !Hcmp. apply cmp_opp.
  - intros x y z. rewrite !Hcmp. apply cmp_lt_trans.
Qed.

(** The derived order of [Option]: [None] is below every [Some]. *)
#[export] Instance ord_option {A} `{Ord A} : Ord (option A) :=
  λ p q, match p, q with
         | None, None => Eq | None, Some _ => Lt
         | Some _, None => Gt | Some a, Some b => cmp a b
         end.
#[export] Instance ord_laws_option {A} `{OrdLaws A} : OrdLaws (option A).
Proof.
  split.
  - intros [a|] [b|]; unfold cmp; simpl; try naive_solver.
    rewrite cmp_eq_iff. naive_solver.
  - intros [a|] [b|]; unfold cmp; simpl; try done. apply cmp_opp.
  - intros [a|] [b|] [c|]; unfold cmp; simpl; try done. apply cmp_lt_trans.
Qed.

(** The lexicographic order of slices. *)
#[export] Instance ord_list {A} `{Ord A} : Ord (list A) :=
  fix go (l k : list A) : comparison :=
    match l, k with
    | [], [] => Eq | [], _ :: _ => Lt | _ :: _, [] => Gt
    | x :: l, y :: k => then_with (cmp x y) (go l k)
    end.

Lemma cmp_list_cons {A} `{Ord A} (x y : A) l k :
  cmp (x :: l) (y :: k) = then_with (cmp x y) (cmp l k).
Proof. done. Qed.

#[export] Instance ord_laws_list {A} `{OrdLaws A} : OrdLaws (list A).
Proof.
  split.
  - induction x as [|a x IH]; intros [|b y]; try done.
    rewrite cmp_list_cons. specialize (IH y).
    pose proof (cmp_eq_iff a b). destruct (cmp a b); naive_solver.
  - induction x as [|a x IH]; intros [|b y]; try done.
    by rewrite !cmp_list_cons, then_with_opp, <- cmp_opp, <- IH.
  - induction x as [|a x IH]; intros [|b y] [|c z]; try done.
    rewrite !cmp_list_cons.
    destruct (cmp a b) eqn:E1; simpl; [|intros _|done].
    + apply cmp_eq_iff in E1 as ->. destruct (cmp b c); simpl; eauto.
    + destruct (cmp b c) eqn:E2; simpl; [intros _|intros _|done].
      * apply cmp_eq_iff in E2 as <-. by rewrite E1.
      * by rewrite (cmp_lt_trans _ _ _ E1 E2).
Qed.
