(* ===== verification/Clock.v ===== *)
(** * Clock: replica identifiers, Lamport timestamps and version vectors

    Models [crates/clock/src/clock.rs].  Sequence numbers are [u32] and replica
    identifiers [u16], kept as [N] with the wrap-around of the release profile
    written out; [debug_assert!]s are not part of that profile.  [Module Global]
    is the version vector: a vector of sequence numbers indexed by replica. *)

From S2P Require Import Prelude.
Open Scope N_scope.
#[local] Arguments N.of_nat : simpl never.

Definition U16 : N := 2 ^ 16.
Definition U32 : N := 2 ^ 32.
Definition wrap32 (n : N) : N := n mod U32.

(** ** Replica identifiers *)

Record ReplicaId := MkReplicaId { replica_u16 : N }.

#[export] Instance replica_id_eq_dec : EqDecision ReplicaId.
Proof. solve_decision. Defined.

#[export] Instance ord_replica_id : Ord ReplicaId :=
  λ a b, cmp (replica_u16 a) (replica_u16 b).

#[export] Instance ord_laws_replica_id : OrdLaws ReplicaId.
Proof. apply (ord_laws_map replica_u16); [done|]. intros [] [] [=]. by subst. Qed.

Definition LOCAL : ReplicaId := MkReplicaId 0.
Definition REMOTE_SERVER : ReplicaId := MkReplicaId 1.
Definition AGENT : ReplicaId := MkReplicaId 2.
Definition LOCAL_BRANCH : ReplicaId := MkReplicaId 3.
Definition FIRST_COLLAB_ID : ReplicaId := MkReplicaId 8.

Definition is_remote (r : ReplicaId) : bool :=
  bool_decide (r = REMOTE_SERVER) || leb_ord FIRST_COLLAB_ID r.

(** ** Lamport timestamps *)

Abbreviation Seq := N (only parsing).

Module Lamport.

Record t := Mk { value : Seq; replica_id : ReplicaId }.

#[export] Instance eq_dec : EqDecision t.
Proof. solve_decision. Defined.

(** [impl Ord for Lamport]: the replica id breaks ties. *)
#[export] Instance ord : Ord t :=
  λ a b, then_with (cmp (value a) (value b)) (cmp (replica_id a) (replica_id b)).

Definition MIN : t := Mk 0 (MkReplicaId 0).
Definition MAX : t := Mk (U32 - 1) (MkReplicaId (U16 - 1)).

Definition new (r : ReplicaId) : t := Mk 1 r.

Definition as_u64 (a : t) : N :=
  N.lor (N.shiftl (value a) 32) (replica_u16 (replica_id a)).

(** [tick] returns the old timestamp and the advanced clock. *)
Definition tick (clock : t) : t * t :=
  (clock, Mk (wrap32 (value clock + 1)) (replica_id clock)).

Definition observe (clock timestamp : t) : t :=
  Mk (wrap32 (N.max (value clock) (value timestamp) + 1)) (replica_id clock).

(** The values that fit the machine types. *)
Definition wf (a : t) : Prop := value a < U32 ∧ replica_u16 (replica_id a) < U16.

Definition to_pair (a : t) : N * N := (value a, replica_u16 (replica_id a)).

Lemma cmp_to_pair a b : cmp a b = cmp (to_pair a) (to_pair b).
Proof. done. Qed.

#[export] Instance ord_laws : OrdLaws t.
Proof. apply (ord_laws_map to_pair); [done|]. intros [? []] [? []] [=]. by subst. Qed.

Lemma olt_iff a b :
  a ≺ b ↔ value a < value b ∨ value a = value b ∧
    replica_u16 (replica_id a) < replica_u16 (replica_id b).
Proof.
  unfold olt. rewrite cmp_to_pair. unfold to_pair. rewrite cmp_pair.
  unfold cmp, ord_N. destruct (N.compare_spec (value a) (value b)) as [E|E|E]; simpl;
    [rewrite N.compare_lt_iff|..]; intuition (try lia; try congruence).
Qed.

Lemma MIN_le a : MIN ≼ a.
Proof. apply not_olt. rewrite olt_iff. simpl. lia. Qed.

Lemma le_MAX a : wf a → a ≼ MAX.
Proof. intros [? ?]. apply not_olt. rewrite olt_iff. unfold MAX, U16, U32 in *; simpl in *. lia. Qed.

(** [value << 32 | replica] is the base-2^32 number with these two digits. *)
Lemma as_u64_sum a : wf a → as_u64 a = value a * U32 + replica_u16 (replica_id a).
Proof.
  intros [_ Hr]. unfold as_u64. rewrite N.shiftl_mul_pow2.
  rewrite <- N.lxor_lor, <- N.add_nocarry_lxor; [done|..].
  all: apply N.bits_inj_0; intros n; rewrite N.land_spec.
  all: destruct (N.lt_ge_cases n 32) as [Hn|Hn].
  1,3: by rewrite N.mul_pow2_bits_low by done.
  all: rewrite (N.bits_above_log2 (replica_u16 _)), andb_false_r; [done|].
  all: destruct (N.eq_0_gt_0_cases (replica_u16 (replica_id a))) as [->|Hp]; [simpl; lia|].
  all: apply N.log2_lt_pow2; [done|].
  all: eapply N.lt_le_trans; [exact Hr|]; unfold U16; apply N.pow_le_mono_r; lia.
Qed.

(** Numeric order of the packed form is the order of timestamps. *)
Lemma cmp_as_u64 a b : wf a → wf b → cmp (as_u64 a) (as_u64 b) = cmp a b.
Proof.
  intros Ha Hb. rewrite !as_u64_sum by done. destruct Ha as [_ Ha], Hb as [_ Hb].
  unfold U16, U32 in *. destruct (cmp a b) eqn:E.
  - apply cmp_eq_iff in E as ->. apply cmp_refl.
  - fold (olt a b) in E. apply olt_iff in E. apply N.compare_lt_iff. nia.
  - apply cmp_gt_lt in E. fold (olt b a) in E. apply olt_iff in E.
    apply N.compare_gt_iff. nia.
Qed.

(** *** A replica's clock over time

    A replica ticks its clock for each local operation and observes the
    timestamp of each remote operation it applies. *)
Inductive event := Tick | Observe (timestamp : t).

(** The clock after the events and the timestamps it issued, oldest first. *)
Fixpoint run (clock : t) (evs : list event) : t * list t :=
  match evs with
  | [] => (clock, [])
  | Tick :: evs => let '(issued, clock) := tick clock in
                   let '(clock, later) := run clock evs in (clock, issued :: later)
  | Observe ts :: evs => run (observe clock ts) evs
  end.

Lemma value_tick clock : value clock + 1 < U32 → value (tick clock).2 = value clock + 1.
Proof. intros. simpl. by apply N.mod_small. Qed.

Lemma value_observe clock ts :
  N.max (value clock) (value ts) + 1 < U32 →
  value (observe clock ts) = N.max (value clock) (value ts) + 1.
Proof. intros. simpl. by apply N.mod_small. Qed.

(** No event list of this shape overflows the 32-bit counter. *)
Definition fits (bound : N) (clock : t) (evs : list event) : Prop :=
  value clock ≤ bound ∧ Forall (λ e, match e with Tick => True | Observe ts => value ts ≤ bound end) evs ∧
  bound + N.of_nat (length evs) < U32.

Lemma fits_tick b clock evs : fits b clock (Tick :: evs) → fits (b + 1) (tick clock).2 evs.
Proof.
  intros (Hc & He & Hb). simpl length in Hb. apply Forall_cons in He as [_ He].
  split_and!; [rewrite value_tick; lia| |lia].
  eapply Forall_impl; [exact He|]. intros []; simpl; lia.
Qed.

Lemma fits_observe b clock ts evs :
  fits b clock (Observe ts :: evs) → fits (b + 1) (observe clock ts) evs.
Proof.
  intros (Hc & He & Hb). simpl length in Hb. apply Forall_cons in He as [? He].
  split_and!; [rewrite value_observe; lia| |lia].
  eapply Forall_impl; [exact He|]. intros []; simpl; lia.
Qed.

Lemma run_issued_ge b clock evs :
  fits b clock evs → Forall (λ ts, value clock ≤ value ts) (run clock evs).2.
Proof.
  revert b clock. induction evs as [|[|ts] evs IH]; intros b clock Hf; simpl; [done|..].
  - pose proof (fits_tick _ _ _ Hf) as Hf'. specialize (IH _ _ Hf').
    destruct Hf as (? & ? & ?). simpl length in *. rewrite value_tick in IH by lia.
    simpl in IH. destruct (run _ evs); simpl in *. constructor; [lia|].
    eapply Forall_impl; [exact IH|]. simpl; lia.
  - pose proof (fits_observe _ _ _ _ Hf) as Hf'. specialize (IH _ _ Hf').
    destruct Hf as (? & He & ?). apply Forall_cons in He as [? ?].
    simpl length in *. rewrite value_observe in IH by lia.
    eapply Forall_impl; [exact IH|]. simpl; lia.
Qed.

(** A timestamp is known after [pre] when it was issued or observed in it. *)
Definition known (clock : t) (pre : list event) (ts : t) : Prop :=
  ts ∈ (run clock pre).2 ∨ Observe ts ∈ pre.

Lemma run_known b clock pre post :
  fits b clock (pre ++ post) →
  fits (b + N.of_nat (length pre)) (run clock pre).1 post ∧
  value clock ≤ value (run clock pre).1 ∧
  ∀ ts, known clock pre ts → value ts < value (run clock pre).1.
Proof.
  unfold known. revert b clock. induction pre as [|e pre IH]; intros b clock Hf; simpl.
  - rewrite N.add_0_r. split_and!; [done|lia|]. intros ts [Hts|Hts]; by apply elem_of_nil in Hts.
  - replace (b + N.of_nat (S (length pre))) with (b + 1 + N.of_nat (length pre)) by lia. destruct e as [|ts0].
    + destruct (IH _ _ (fits_tick _ _ _ Hf)) as (IH1 & IH2 & IH3).
      destruct Hf as (? & _ & ?). simpl length in *. rewrite value_tick in IH2 by lia.
      simpl in *. destruct (run _ pre); simpl in *. split_and!; [done|lia|].
      intros ts [[-> | Hts]%elem_of_cons|[Hts|Hts]%elem_of_cons]; [lia|auto|done|auto].
    + destruct (IH _ _ (fits_observe _ _ _ _ Hf)) as (IH1 & IH2 & IH3).
      destruct Hf as (? & He & ?). apply Forall_cons in He as [? _]. simpl length in *.
      rewrite value_observe in IH2 by lia. split_and!; [done|lia|].
      intros ts [Hts|[[= ->]|Hts]%elem_of_cons]; [auto|lia|auto].
Qed.

End Lamport.
Export (hints) Lamport.

(** ** Version vectors *)

Module Global.

Record t := Mk { values : list N }.

#[export] Instance eq_dec : EqDecision t.
Proof. solve_decision. Defined.

Definition new : t := Mk [].

Definition index (r : ReplicaId) : nat := N.to_nat (replica_u16 r).

(** [values.get(i).copied().unwrap_or(0)] *)
Definition get_at (l : list N) (i : nat) : N := default 0 (l !! i).

Definition get (g : t) (r : ReplicaId) : Seq := get_at (values g) (index r).

(** [SmallVec::resize(n, 0)] when [n] exceeds the length. *)
Definition grow (n : nat) (l : list N) : list N :=
  if decide (length l < n)%nat then l ++ replicate (n - length l) 0 else l.

Definition observe (g : t) (ts : Lamport.t) : t :=
  if 0 <? Lamport.value ts then
    let i := index (Lamport.replica_id ts) in
    let vs := grow (i + 1) (values g) in
    Mk (<[i := N.max (get_at vs i) (Lamport.value ts)]> vs)
  else g.

(** The loop [for (left, right) in self.values.iter_mut().zip(&other.values)]:
    the tail of [left] past the shorter list is untouched. *)
Fixpoint zip_assign (f : N → N → N) (ls rs : list N) : list N :=
  match ls, rs with
  | l :: ls', r :: rs' => f l r :: zip_assign f ls' rs'
  | _, _ => ls
  end.

Definition join (g other : t) : t :=
  Mk (zip_assign N.max (grow (length (values other)) (values g)) (values other)).

Definition meet_entry (l r : N) : N :=
  if l =? 0 then r else if r =? 0 then l else N.min l r.

(** [new_len]: one past the last visited index left non-zero. *)
Fixpoint meet_len (ix : nat) (ls rs : list N) (new_len : nat) : nat :=
  match ls, rs with
  | l :: ls', r :: rs' =>
      meet_len (S ix) ls' rs' (if meet_entry l r =? 0 then new_len else S ix)
  | _, _ => new_len
  end.

Definition meet (g other : t) : t :=
  let vs := grow (length (values other)) (values g) in
  let new_len := meet_len 0 vs (values other) 0 in
  let vs' := zip_assign meet_entry vs (values other) in
  Mk (if decide (length (values other) = length vs') then take new_len vs' else vs').

Definition observed (g : t) (ts : Lamport.t) : bool :=
  Lamport.value ts <=? get g (Lamport.replica_id ts).

(** All entries as timestamps, unobserved replicas included. *)
Definition iter (g : t) : list Lamport.t :=
  imap (λ i v, Lamport.Mk v (MkReplicaId (N.of_nat i mod U16))) (values g).

Definition observed_any (g other : t) : bool :=
  existsb (λ '(l, r), (0 <? Lamport.value r) && (Lamport.value r <=? Lamport.value l))
    (zip (iter g) (iter other)).

Definition observed_all (g other : t) : bool :=
  if decide (length (values g) < length (values other))%nat then false
  else forallb (λ '(l, r), Lamport.value r <=? Lamport.value l)
         (zip (iter g) (iter other)).

Definition changed_since (g other : t) : bool :=
  bool_decide (length (values other) < length (values g))%nat ||
  existsb (λ '(l, r), r <? l) (zip (values g) (values other)).

(** [Iterator::max_by_key] keeps the last of the greatest elements. *)
Definition most_recent (g : t) : option Lamport.t :=
  foldl (λ best ts,
    match best with
    | None => Some ts
    | Some b => if Lamport.value ts <? Lamport.value b then Some b else Some ts
    end) None (iter g).

Definition from_iter (locals : list Lamport.t) : t := foldl observe new locals.

(** *** Entries of grown and zipped vectors *)

Lemma grow_length n l : length (grow n l) = max n (length l).
Proof. unfold grow. case_decide; [rewrite length_app, length_replicate|]; lia. Qed.

Lemma get_at_ge l i : (length l ≤ i)%nat → get_at l i = 0.
Proof. intros. unfold get_at. by rewrite lookup_ge_None_2. Qed.

Lemma get_at_app_l l k i : (i < length l)%nat → get_at (l ++ k) i = get_at l i.
Proof. intros. unfold get_at. by rewrite lookup_app_l. Qed.

Lemma grow_get n l i : get_at (grow n l) i = get_at l i.
Proof.
  unfold grow. case_decide; [|done].
  destruct (decide (i < length l)%nat); [by apply get_at_app_l|].
  rewrite (get_at_ge l) by lia. unfold get_at. rewrite lookup_app_r by lia.
  by destruct (replicate _ _ !! _) eqn:E; [apply lookup_replicate in E as [-> _]|].
Qed.

Lemma zip_assign_length f l k : length (zip_assign f l k) = length l.
Proof. revert k. induction l; intros [|]; simpl; auto. Qed.

Lemma zip_assign_get f l k i :
  f 0 0 = 0 → (length k ≤ length l)%nat → (∀ a, f a 0 = a) →
  get_at (zip_assign f l k) i = f (get_at l i) (get_at k i).
Proof.
  intros H0 Hl Hr. revert k i Hl. induction l as [|a l IH]; intros [|b k] [|i] Hl; simpl in *;
    try lia; try (by rewrite Hr); try done.
  apply (IH k i). lia.
Qed.

Lemma zip_assign_get' f l k i :
  (i < length k)%nat → (i < length l)%nat →
  get_at (zip_assign f l k) i = f (get_at l i) (get_at k i).
Proof.
  revert k i. induction l as [|a l IH]; intros [|b k] [|i]; simpl; try lia; try done.
  intros. apply (IH k i); lia.
Qed.

(** *** The canonical form: no trailing zero

    Every version vector is built by [observe], [join] and [meet] from the
    empty one, and the derived [PartialEq] compares the stored vectors: it is
    equality of versions because these operations keep the vectors free of
    trailing zeros. *)
Definition canonical (g : t) : Prop :=
  ∀ n, length (values g) = S n → get_at (values g) n ≠ 0.

Lemma get_index g i : get_at (values g) i = get g (MkReplicaId (N.of_nat i)).
Proof. unfold get, index; simpl. by rewrite Nat2N.id. Qed.

Lemma canonical_ext_at g h :
  canonical g → canonical h → (∀ i, get_at (values g) i = get_at (values h) i) → g = h.
Proof.
  destruct g as [l], h as [k]; unfold canonical; simpl. intros Hl Hk Heq. f_equal.
  assert (length l = length k) as Hlen.
  { destruct (Nat.lt_trichotomy (length l) (length k)) as [?|[?|?]]; [|done|]; exfalso.
    - destruct (length k) as [|n] eqn:E; [lia|]. apply (Hk n); [done|].
      rewrite <- Heq. apply get_at_ge. lia.
    - destruct (length l) as [|n] eqn:E; [lia|]. apply (Hl n); [done|].
      rewrite Heq. apply get_at_ge. lia. }
  apply list_eq. intros i. specialize (Heq i). unfold get_at in Heq.
  destruct (l !! i) eqn:E1, (k !! i) eqn:E2; simpl in *; subst; try done.
  - apply lookup_lt_Some in E1. apply lookup_ge_None in E2. lia.
  - apply lookup_lt_Some in E2. apply lookup_ge_None in E1. lia.
Qed.

Lemma canonical_ext g h :
  canonical g → canonical h → (∀ r, get g r = get h r) → g = h.
Proof.
  intros Hg Hh Heq. apply canonical_ext_at; [done..|]. intros i. by rewrite !get_index, Heq.
Qed.

Lemma canonical_new : canonical new.
Proof. by intros n. Qed.

Lemma get_new r : get new r = 0.
Proof. done. Qed.

Lemma get_at_insert l i j v :
  (i < length l)%nat → get_at (<[i := v]> l) j = if decide (i = j) then v else get_at l j.
Proof.
  intros. unfold get_at. case_decide; subst.
  - by rewrite list_lookup_insert_eq.
  - by rewrite list_lookup_insert_ne.
Qed.

Lemma index_inj r r' : index r = index r' ↔ r = r'.
Proof.
  destruct r as [a], r' as [b]; unfold index; simpl. rewrite N2Nat.inj_iff. naive_solver.
Qed.

Lemma get_observe g ts r :
  get (observe g ts) r =
  if decide (r = Lamport.replica_id ts) then N.max (get g r) (Lamport.value ts) else get g r.
Proof.
  unfold observe, get. destruct (N.ltb_spec 0 (Lamport.value ts)) as [Hp|Hz]; simpl.
  - rewrite get_at_insert, !grow_get by (rewrite grow_length; lia).
    destruct (decide (r = _)) as [->|Hne]; [by rewrite decide_True|].
    rewrite decide_False; [done|]. by rewrite index_inj.
  - case_decide; [|done]. lia.
Qed.

Lemma canonical_observe g ts : canonical g → canonical (observe g ts).
Proof.
  unfold observe. destruct (N.ltb_spec 0 (Lamport.value ts)) as [Hp|Hz]; [|done].
  intros Hg n. simpl. rewrite length_insert, grow_length. intros Hn.
  rewrite get_at_insert, !grow_get by (rewrite grow_length; lia).
  case_decide as Hi; [lia|]. apply Hg. lia.
Qed.

Lemma get_at_join g h i :
  get_at (values (join g h)) i = N.max (get_at (values g) i) (get_at (values h) i).
Proof.
  unfold join; simpl. rewrite zip_assign_get, grow_get; [done..| |intros; lia].
  rewrite grow_length. lia.
Qed.

Lemma get_join g h r : get (join g h) r = N.max (get g r) (get h r).
Proof. apply get_at_join. Qed.

Lemma canonical_join g h : canonical g → canonical h → canonical (join g h).
Proof.
  intros Hg Hh n. rewrite get_at_join. unfold join; simpl.
  rewrite zip_assign_length, grow_length. intros Hn.
  destruct (Nat.max_spec (length (values h)) (length (values g))) as [[? E]|[? E]].
  - assert (get_at (values g) n ≠ 0) by (apply Hg; lia). lia.
  - assert (get_at (values h) n ≠ 0) by (apply Hh; lia). lia.
Qed.

Lemma meet_entry_0_r a : meet_entry a 0 = a.
Proof. unfold meet_entry. destruct (N.eqb_spec a 0); by subst. Qed.

Lemma meet_entry_nz a b : a ≠ 0 → b ≠ 0 → meet_entry a b = N.min a b.
Proof. intros. unfold meet_entry. by destruct (N.eqb_spec a 0), (N.eqb_spec b 0). Qed.

Lemma meet_entry_assoc a b c :
  meet_entry (meet_entry a b) c = meet_entry a (meet_entry b c).
Proof.
  destruct (decide (a = 0)) as [->|]; [done|].
  destruct (decide (b = 0)) as [->|]; [by rewrite meet_entry_0_r|].
  destruct (decide (c = 0)) as [->|]; [by rewrite !meet_entry_0_r|].
  rewrite (meet_entry_nz a b), (meet_entry_nz b c), !meet_entry_nz by lia. lia.
Qed.

Lemma meet_entry_eq_0 a b : meet_entry a b = 0 ↔ a = 0 ∧ b = 0.
Proof. unfold meet_entry. destruct (N.eqb_spec a 0), (N.eqb_spec b 0); lia. Qed.

Lemma meet_len_spec ix ls rs nl n :
  meet_len ix ls rs nl = n → (nl ≤ ix)%nat →
  (∀ i, (i < length ls)%nat → (i < length rs)%nat →
     meet_entry (get_at ls i) (get_at rs i) ≠ 0 → (ix + i < n)%nat) ∧
  (n = nl ∨ ∃ i, n = S (ix + i) ∧ (i < length ls)%nat ∧ (i < length rs)%nat ∧
     meet_entry (get_at ls i) (get_at rs i) ≠ 0).
Proof.
  revert ix rs nl. induction ls as [|a ls IH]; intros ix [|b rs] nl Hn Hle; simpl in *;
    try (split; [intros; lia | by left]).
  destruct (IH _ _ _ Hn) as [IH1 IH2]; [destruct (_ =? 0); lia|].
  destruct (N.eqb_spec (meet_entry a b) 0) as [Hz|Hz].
  - split.
    + intros [|i] ? ? Hi; [done|]. specialize (IH1 i). rewrite Nat.add_succ_r. apply IH1; [lia..|done].
    + destruct IH2 as [?|(i & -> & ? & ? & Hi)]; [by left|].
      right. exists (S i). split_and!; [lia..|done].
  - split.
    + intros [|i] ? ? Hi.
      * destruct IH2 as [?|(i & -> & _)]; lia.
      * specialize (IH1 i). rewrite Nat.add_succ_r. apply IH1; [lia..|done].
    + destruct IH2 as [->|(i & -> & ? & ? & Hi)]; right.
      * exists 0%nat. split_and!; [lia..|done].
      * exists (S i). split_and!; [lia..|done].
Qed.

Lemma get_at_take l n i : get_at (take n l) i = if decide (i < n)%nat then get_at l i else 0.
Proof.
  unfold get_at. case_decide; [by rewrite lookup_take_lt|]. by rewrite lookup_take_ge by lia.
Qed.

Lemma get_at_meet g h i :
  get_at (values (meet g h)) i = meet_entry (get_at (values g) i) (get_at (values h) i).
Proof.
  unfold meet; simpl. set (vs := grow _ _).
  assert (∀ i, get_at vs i = get_at (values g) i) as Hvs by (intros; apply grow_get).
  assert (length (values h) ≤ length vs)%nat by (unfold vs; rewrite grow_length; lia).
  assert (∀ i, get_at (zip_assign meet_entry vs (values h)) i =
               meet_entry (get_at (values g) i) (get_at (values h) i)) as Hz.
  { intros j. rewrite zip_assign_get, Hvs; [done..|]. apply meet_entry_0_r. }
  rewrite zip_assign_length. case_decide as Hlen; [|by rewrite Hz].
  rewrite get_at_take, Hz. case_decide as Hi; [done|].
  destruct (decide (i < length vs)%nat) as [Hi'|Hi'].
  - destruct (meet_len_spec 0 vs (values h) 0 _ eq_refl) as [Hl _]; [lia|].
    specialize (Hl i). rewrite Hvs in Hl.
    destruct (decide (meet_entry (get_at (values g) i) (get_at (values h) i) = 0)) as [E|E]; [done|].
    exfalso. apply Hi. apply Hl; [lia..|done].
  - rewrite <- Hvs, !get_at_ge by lia. done.
Qed.

Lemma get_meet g h r : get (meet g h) r = meet_entry (get g r) (get h r).
Proof. apply get_at_meet. Qed.

Lemma canonical_meet g h : canonical g → canonical h → canonical (meet g h).
Proof.
  intros Hg Hh n Hn. rewrite get_at_meet, meet_entry_eq_0.
  revert Hn. unfold meet; simpl. set (vs := grow _ _).
  assert (∀ i, get_at vs i = get_at (values g) i) as Hvs by (intros; apply grow_get).
  assert (length vs = max (length (values h)) (length (values g))) by (unfold vs; rewrite grow_length; lia).
  rewrite zip_assign_length. case_decide as Hlen; simpl.
  - rewrite length_take, zip_assign_length. intros Hn.
    destruct (meet_len_spec 0 vs (values h) 0 _ eq_refl) as [_ [Hl|(i & Hl & ? & ? & Hi)]]; [lia| |].
    + rewrite Hl in Hn. simpl in Hn. lia.
    + rewrite Hl in Hn. assert (n = i) as -> by lia. rewrite Hvs, meet_entry_eq_0 in Hi. done.
  - rewrite zip_assign_length. intros Hn [Hn' _]. revert Hn'. apply Hg. lia.
Qed.

(** *** The comparisons *)

(** [existsb] over the zip of the timestamps visits the common indices. *)
Lemma lookup_iter g i :
  iter g !! i = (λ v, Lamport.Mk v (MkReplicaId (N.of_nat i mod U16))) <$> (values g !! i).
Proof. apply list_lookup_imap. Qed.

Lemma length_iter g : length (iter g) = length (values g).
Proof. apply length_imap. Qed.

Lemma get_at_lookup l i : (i < length l)%nat → l !! i = Some (get_at l i).
Proof. intros [x Hx]%lookup_lt_is_Some. unfold get_at. by rewrite Hx. Qed.

Lemma in_zip_iter g h a b :
  In (a, b) (zip (iter g) (iter h)) ↔
  ∃ i, (i < length (values g))%nat ∧ (i < length (values h))%nat ∧
       a = Lamport.Mk (get_at (values g) i) (MkReplicaId (N.of_nat i mod U16)) ∧
       b = Lamport.Mk (get_at (values h) i) (MkReplicaId (N.of_nat i mod U16)).
Proof.
  rewrite <- list_elem_of_In, list_elem_of_lookup. split.
  - intros [i Hi]. exists i. apply lookup_zip_with_Some in Hi as (x & y & [= -> ->] & Hx & Hy).
    rewrite lookup_iter in Hx, Hy.
    apply fmap_Some in Hx as (v & Hv & ->), Hy as (w & Hw & ->).
    unfold get_at. rewrite Hv, Hw. split_and!; eauto using lookup_lt_Some.
  - intros (i & Hg & Hh & -> & ->). exists i. apply lookup_zip_with_Some.
    rewrite !lookup_iter, !get_at_lookup by done. simpl. eauto 10.
Qed.

Lemma observed_any_iff g h :
  observed_any g h = true ↔ ∃ r, 0 < get h r ≤ get g r.
Proof.
  unfold observed_any. rewrite existsb_exists. split.
  - intros ([a b] & (i & _ & _ & -> & ->)%in_zip_iter & Hab). simpl in Hab.
    apply andb_true_iff in Hab as [?%N.ltb_lt ?%N.leb_le].
    exists (MkReplicaId (N.of_nat i)). rewrite <- !get_index. lia.
  - intros [r Hr]. unfold get in Hr.
    assert (index r < length (values h))%nat.
    { destruct (decide (index r < length (values h))%nat); [done|]. rewrite (get_at_ge (values h)) in Hr by lia. lia. }
    assert (index r < length (values g))%nat.
    { destruct (decide (index r < length (values g))%nat); [done|]. rewrite (get_at_ge (values g)) in Hr by lia. lia. }
    eexists (_, _). split; [apply in_zip_iter; eauto 10|]. simpl.
    apply andb_true_iff. rewrite N.ltb_lt, N.leb_le. lia.
Qed.

Lemma observed_all_iff g h :
  canonical h → observed_all g h = true ↔ ∀ r, get h r ≤ get g r.
Proof.
  intros Hh. unfold observed_all. case_decide as Hlen.
  - split; [done|]. intros Hall. destruct (length (values h)) as [|n] eqn:En; [lia|].
    specialize (Hall (MkReplicaId (N.of_nat n))). rewrite <- !get_index in Hall.
    rewrite (get_at_ge (values g)) in Hall by lia. specialize (Hh n En). lia.
  - rewrite forallb_forall. split.
    + intros Hall r. unfold get. destruct (decide (index r < length (values h))%nat) as [Hi|Hi];
        [|rewrite (get_at_ge (values h)) by lia; lia].
      specialize (Hall (_, _) (proj2 (in_zip_iter g h _ _)
        (ex_intro _ (index r) (conj (Nat.lt_le_trans _ _ _ Hi (proj1 (Nat.nlt_ge _ _) Hlen))
          (conj Hi (conj eq_refl eq_refl)))))).
      by apply N.leb_le in Hall.
    + intros Hall [a b] (i & _ & _ & -> & ->)%in_zip_iter. simpl.
      apply N.leb_le. rewrite !get_index. apply Hall.
Qed.

Lemma observed_all_refl g : canonical g → observed_all g g = true.
Proof. intros. by apply observed_all_iff. Qed.

Lemma zip_lookup (l k : list N) i :
  (i < length l)%nat → (i < length k)%nat → zip l k !! i = Some (get_at l i, get_at k i).
Proof. intros. apply lookup_zip_with_Some. rewrite !get_at_lookup by done. eauto. Qed.

Lemma changed_since_iff g h :
  canonical g → changed_since g h = true ↔ ∃ r, get h r < get g r.
Proof.
  intros Hg. unfold changed_since. rewrite orb_true_iff, bool_decide_eq_true, existsb_exists. split.
  - intros [Hlen|([a b] & Hin & Hab)].
    + destruct (length (values g)) as [|n] eqn:En; [lia|]. exists (MkReplicaId (N.of_nat n)).
      rewrite <- !get_index, (get_at_ge (values h)) by lia. specialize (Hg n En). lia.
    + apply list_elem_of_In, list_elem_of_lookup in Hin as [i Hi].
      apply lookup_zip_with_Some in Hi as (x & y & [= -> ->] & Hx & Hy).
      apply N.ltb_lt in Hab. exists (MkReplicaId (N.of_nat i)).
      rewrite <- !get_index. unfold get_at. by rewrite Hx, Hy.
  - intros [r Hr]. unfold get in Hr.
    destruct (decide (length (values h) < length (values g))%nat); [by left|right].
    destruct (decide (index r < length (values g))%nat).
    + exists (get_at (values g) (index r), get_at (values h) (index r)). split; [|by apply N.ltb_lt].
      apply list_elem_of_In, list_elem_of_lookup. exists (index r). apply zip_lookup; lia.
    + rewrite (get_at_ge (values g)) in Hr by lia. lia.
Qed.

Lemma observed_observe g ts : observed (observe g ts) ts = true.
Proof. unfold observed. rewrite get_observe, decide_True by done. apply N.leb_le. lia. Qed.

Lemma observed_iff g ts : observed g ts = true ↔ Lamport.value ts ≤ get g (Lamport.replica_id ts).
Proof. apply N.leb_le. Qed.

Lemma canonical_from_iter_acc g locals : canonical g → canonical (foldl observe g locals).
Proof. revert g. induction locals; simpl; auto using canonical_observe. Qed.

Lemma canonical_from_iter locals : canonical (from_iter locals).
Proof. apply canonical_from_iter_acc, canonical_new. Qed.

Lemma foldl_observe_mono g locals r : get g r ≤ get (foldl observe g locals) r.
Proof.
  revert g. induction locals as [|ts locals IH]; intros g; simpl; [lia|].
  etrans; [|apply IH]. rewrite get_observe. case_decide; lia.
Qed.

Lemma from_iter_observed locals ts : ts ∈ locals → observed (from_iter locals) ts = true.
Proof.
  rewrite observed_iff. unfold from_iter. generalize new.
  induction locals as [|ts' locals IH]; intros g Hin; [by apply elem_of_nil in Hin|].
  apply elem_of_cons in Hin as [<-|Hin]; simpl; [|by apply IH].
  etrans; [apply N.leb_le, (observed_observe g ts)|apply foldl_observe_mono].
Qed.

(** The version with the greatest sequence number, the last such. *)
Lemma most_recent_spec g :
  match most_recent g with
  | None => values g = []
  | Some ts => ts ∈ iter g ∧ ∀ ts', ts' ∈ iter g → Lamport.value ts' ≤ Lamport.value ts
  end.
Proof.
  unfold most_recent.
  assert (∀ l best,
    (match foldl (λ best ts, match best with None => Some ts
       | Some b => if Lamport.value ts <? Lamport.value b then Some b else Some ts end) best l with
     | None => best = None ∧ l = []
     | Some ts => (best = Some ts ∨ ts ∈ l) ∧
         (∀ b, best = Some b → Lamport.value b ≤ Lamport.value ts) ∧
         ∀ ts', ts' ∈ l → Lamport.value ts' ≤ Lamport.value ts
     end)) as Hf.
  { induction l as [|x l IH]; intros best; simpl.
    - destruct best; [|done]. split_and!; [by left|by intros ? [= ->]|by intros ? ?%elem_of_nil].
    - match goal with |- context [foldl _ ?b l] => specialize (IH b) end.
      destruct (foldl _ _ l) as [ts|].
      + destruct IH as (IH1 & IH2 & IH3). destruct best as [b|].
        * destruct (N.ltb_spec (Lamport.value x) (Lamport.value b)).
          -- specialize (IH2 _ eq_refl). split_and!.
             ++ destruct IH1; [by left|right; by right].
             ++ by intros ? [= <-].
             ++ intros ? [->|]%elem_of_cons; [lia|auto].
          -- specialize (IH2 _ eq_refl). split_and!.
             ++ right. destruct IH1 as [[= ->]|]; [left|by right].
             ++ intros ? [= <-]. lia.
             ++ intros ? [->|]%elem_of_cons; [lia|auto].
        * specialize (IH2 _ eq_refl). split_and!; [|done|].
          -- right. destruct IH1 as [[= ->]|]; [left|by right].
          -- intros ? [->|]%elem_of_cons; [lia|auto].
      + destruct IH as [IH _]. destruct best; [destruct (_ <? _)|]; done. }
  specialize (Hf (iter g) None). destruct (foldl _ _ _) as [ts|].
  - destruct Hf as ([|] & _ & ?); done.
  - destruct Hf as [_ Hf]. apply length_zero_iff_nil. by rewrite <- length_iter, Hf.
Qed.

End Global.
Export (hints) Global.

(** ** Algebra of versions *)

Section version_algebra.
Import Global.
Implicit Types a b c : Global.t.

Lemma join_assoc a b c :
  canonical a → canonical b → canonical c → join (join a b) c = join a (join b c).
Proof.
  intros. apply canonical_ext; [auto using canonical_join..|].
  intros r. rewrite !get_join. lia.
Qed.

Lemma join_new_l a : canonical a → join new a = a.
Proof.
  intros. apply canonical_ext; [auto using canonical_join, canonical_new..|].
  intros r. rewrite get_join, get_new. lia.
Qed.

Lemma meet_assoc a b c :
  canonical a → canonical b → canonical c → meet (meet a b) c = meet a (meet b c).
Proof.
  intros. apply canonical_ext; [auto using canonical_meet..|].
  intros r. by rewrite !get_meet, meet_entry_assoc.
Qed.

Lemma meet_new_l a : canonical a → meet new a = a.
Proof.
  intros. apply canonical_ext; [auto using canonical_meet, canonical_new..|].
  intros r. by rewrite get_meet, get_new.
Qed.
End version_algebra.

(** ** Properties *)

(** C33: Every timestamp that a replica's clock issues is strictly greater, in
    the total order of timestamps, than every timestamp the replica issued or
    observed before: the order of timestamps extends causality, as long as the
    32-bit counter does not overflow. *)
Theorem lamport_issued_after_known b clock pre post ts ts' :
  Lamport.fits b clock (pre ++ post) →
  Lamport.known clock pre ts →
  ts' ∈ (Lamport.run (Lamport.run clock pre).1 post).2 →
  ts ≺ ts'.
Proof.
  intros Hf Hk Hin. destruct (Lamport.run_known _ _ _ _ Hf) as (Hf' & _ & Hlt).
  apply Lamport.olt_iff. left. eapply N.lt_le_trans; [by apply Hlt|].
  pose proof (Lamport.run_issued_ge _ _ _ Hf') as Hge.
  rewrite Forall_forall in Hge. by apply Hge.
Qed.

Lemma lamport_issued_after_known_witness :
  Lamport.Mk 9 AGENT ≺ Lamport.Mk 10 LOCAL.
Proof.
  apply (lamport_issued_after_known 9 (Lamport.new LOCAL)
    [Lamport.Tick; Lamport.Observe (Lamport.Mk 9 AGENT)] [Lamport.Tick]).
  - split_and!; [vm_compute; discriminate| |vm_compute; reflexivity].
    repeat constructor; vm_compute; discriminate.
  - right. right. left.
  - left.
Defined.

(** [as_u64] is an order isomorphism onto its image: comparing the packed
    64-bit values compares the timestamps. *)
Theorem lamport_as_u64_order a b :
  Lamport.wf a → Lamport.wf b → cmp (Lamport.as_u64 a) (Lamport.as_u64 b) = cmp a b.
Proof. apply Lamport.cmp_as_u64. Qed.

Lemma lamport_as_u64_order_witness :
  cmp (Lamport.as_u64 (Lamport.Mk 7 AGENT)) (Lamport.as_u64 (Lamport.Mk 7 LOCAL)) = Gt.
Proof.
  rewrite (lamport_as_u64_order (Lamport.Mk 7 AGENT) (Lamport.Mk 7 LOCAL)).
  - reflexivity.
  - split; reflexivity.
  - split; reflexivity.
Defined.

(** [observe], [join] and [meet] compute the pointwise operation on
    sequence numbers that their comments describe ([meet] takes the other
    side's number for a replica one side has not observed) and keep the vector
    free of trailing zeros, so that the derived equality of [Global] is equality
    of the observed sequence numbers. *)
Theorem global_operations_pointwise g h ts :
  Global.canonical g → Global.canonical h →
  (∀ r, Global.get (Global.observe g ts) r =
        if decide (r = Lamport.replica_id ts) then N.max (Global.get g r) (Lamport.value ts)
        else Global.get g r) ∧
  (∀ r, Global.get (Global.join g h) r = N.max (Global.get g r) (Global.get h r)) ∧
  (∀ r, Global.get (Global.meet g h) r =
        if Global.get g r =? 0 then Global.get h r
        else if Global.get h r =? 0 then Global.get g r
        else N.min (Global.get g r) (Global.get h r)) ∧
  Global.canonical (Global.observe g ts) ∧ Global.canonical (Global.join g h) ∧
  Global.canonical (Global.meet g h) ∧
  ((∀ r, Global.get g r = Global.get h r) → g = h).
Proof.
  intros Hg Hh. split_and!.
  - apply Global.get_observe.
  - apply Global.get_join.
  - apply Global.get_meet.
  - by apply Global.canonical_observe.
  - by apply Global.canonical_join.
  - by apply Global.canonical_meet.
  - by apply Global.canonical_ext.
Qed.

Lemma global_operations_pointwise_witness :
  Global.canonical (Global.meet (Global.Mk [0; 3]) (Global.Mk [2; 5])) ∧
  Global.get (Global.meet (Global.Mk [0; 3]) (Global.Mk [2; 5])) REMOTE_SERVER = 3.
Proof.
  destruct (global_operations_pointwise (Global.Mk [0; 3]) (Global.Mk [2; 5])
    (Lamport.new LOCAL)) as (_ & _ & Hm & _ & _ & Hc & _).
  - intros n [= <-]. vm_compute. discriminate.
  - intros n [= <-]. vm_compute. discriminate.
  - split; [exact Hc|]. rewrite Hm. reflexivity.
Defined.

(** The three comparisons of versions decide the relations on sequence
    numbers they stand for: [observed_all] the pointwise order (the causal
    order of versions), [changed_since] its negation with the arguments
    exchanged, [observed_any] that some operation of the other version was
    observed. *)
Theorem global_comparisons_decide g h :
  Global.canonical g → Global.canonical h →
  (Global.observed_all g h = true ↔ ∀ r, Global.get h r <= Global.get g r) ∧
  (Global.changed_since g h = negb (Global.observed_all h g)) ∧
  (Global.observed_any g h = true ↔ ∃ r, 0 < Global.get h r <= Global.get g r).
Proof.
  intros Hg Hh. split_and!.
  - by apply Global.observed_all_iff.
  - apply eq_true_iff_eq. rewrite negb_true_iff, <- not_true_iff_false.
    rewrite Global.observed_all_iff, Global.changed_since_iff by done. split.
    + intros [r Hr] Hall. specialize (Hall r). lia.
    + intros Hnot. destruct (Global.changed_since g h) eqn:E;
        [by apply Global.changed_since_iff|].
      exfalso. apply Hnot. intros r. apply not_true_iff_false in E.
      rewrite Global.changed_since_iff in E by done.
      destruct (N.le_gt_cases (Global.get g r) (Global.get h r)); [done|]. naive_solver.
  - apply Global.observed_any_iff.
Qed.

Lemma global_comparisons_decide_witness :
  Global.changed_since (Global.Mk [1; 3]) (Global.Mk [2]) =
  negb (Global.observed_all (Global.Mk [2]) (Global.Mk [1; 3])).
Proof.
  apply (global_comparisons_decide (Global.Mk [1; 3]) (Global.Mk [2])).
  - intros n [= <-]. vm_compute. discriminate.
  - intros n [= <-]. vm_compute. discriminate.
Defined.
