(* ===== verification/Locator.v ===== *)
(** * Locator: dense identifiers of positions in an ordered collection

    Models [crates/text/src/locator.rs].  A locator is a sequence of [u64]
    digits compared lexicographically; [between] finds a locator strictly
    between two others by walking both digit sequences, padded with [u64::MIN]
    on the left-hand side and [u64::MAX] on the right-hand side. *)

From S2P Require Import Prelude.
Open Scope N_scope.

Definition U64_MAX : N := 2 ^ 64 - 1.

Module Locator.

Record t := Mk { digits : list N }.

#[export] Instance eq_dec : EqDecision t.
Proof. solve_decision. Defined.

(** The derived order is the lexicographic order of the digits. *)
#[export] Instance ord : Ord t := λ a b, cmp (digits a) (digits b).

#[export] Instance ord_laws : OrdLaws t.
Proof. apply (ord_laws_map digits); [done|]. intros [] [] [=]. by subst. Qed.

Definition min : t := Mk [0].
Definition max : t := Mk [U64_MAX].
Definition default_ : t := min.

(** [resize] then [copy_from_slice]: afterwards [self] holds the other's digits. *)
Definition assign (self other : t) : t :=
  let resized := take (length (digits other)) (digits self) ++
                 replicate (length (digits other) - length (digits self)) 0 in
  Mk (zip_with (λ _ d, d) resized (digits other)).

Definition lhs_digit (lhs : t) (i : nat) : N := default 0 (digits lhs !! i).
Definition rhs_digit (rhs : t) (i : nat) : N := default U64_MAX (digits rhs !! i).

(** [lhs + (rhs.saturating_sub(lhs) >> 48)] *)
Definition mid_digit (l r : N) : N := l + N.shiftr (r - l) 48.

(** The loop of [between] from digit [i] on; both padded sequences are
    infinite, the loop ends at the first digit with [mid > lhs]. *)
Fixpoint between_loop (fuel i : nat) (lhs rhs : t) : list N :=
  match fuel with
  | O => []
  | S fuel =>
      let l := lhs_digit lhs i in
      let mid := mid_digit l (rhs_digit rhs i) in
      mid :: (if l <? mid then [] else between_loop fuel (S i) lhs rhs)
  end.

(** Past the ends of both locators the digits are [0] and [u64::MAX], whose
    [mid] breaks the loop: one step more than the longer length is enough. *)
Definition between_fuel (lhs rhs : t) : nat :=
  S (Nat.max (length (digits lhs)) (length (digits rhs))).

Definition between (lhs rhs : t) : t := Mk (between_loop (between_fuel lhs rhs) 0 lhs rhs).

Definition len (a : t) : nat := length (digits a).
Definition is_empty (a : t) : bool := bool_decide (len a = 0%nat).

(** ** Well-formed locators

    Every digit is a [u64] and the last one is not zero.  [between] only
    produces such locators; [min] is the one locator with a zero last digit and
    is used as a left-hand side only. *)
Definition bounded (a : t) : Prop := Forall (λ d, d <= U64_MAX) (digits a).
Definition ends_nonzero (a : t) : Prop := ∃ d, last (digits a) = Some d ∧ d ≠ 0.
Definition wf (a : t) : Prop := bounded a ∧ ends_nonzero a.

Lemma assign_eq self other : assign self other = other.
Proof.
  destruct self as [s], other as [o]. unfold assign; simpl. f_equal.
  set (r := take _ _ ++ _).
  assert (length r = length o) as Hr.
  { unfold r. rewrite length_app, length_take, length_replicate. lia. }
  clearbody r. revert o Hr. induction r; intros [|]; simpl; try done; intros; f_equal; auto.
Qed.

Lemma mid_digit_le l r : mid_digit l r <= N.max l r.
Proof.
  unfold mid_digit. rewrite N.shiftr_div_pow2.
  assert ((r - l) / 2 ^ 48 <= r - l) by (apply N.Div0.div_le_upper_bound; lia). lia.
Qed.

Lemma mid_digit_ge l r : l <= mid_digit l r.
Proof. unfold mid_digit. lia. Qed.

Lemma mid_digit_lt l r : l < mid_digit l r → mid_digit l r < r.
Proof.
  unfold mid_digit. rewrite N.shiftr_div_pow2. intros Hlt.
  assert ((r - l) / 2 ^ 48 < r - l); [|lia].
  apply N.div_lt; [|done]. destruct (decide (r - l = 0)) as [E|]; [|lia].
  rewrite E in Hlt. rewrite N.Div0.div_0_l in Hlt. lia.
Qed.

Lemma mid_digit_past : mid_digit 0 U64_MAX = 65535.
Proof. reflexivity. Qed.

Lemma digits_past (a : t) i d : (length (digits a) <= i)%nat → default d (digits a !! i) = d.
Proof. intros. by rewrite lookup_ge_None_2. Qed.

(** The loop stops at digit [k]: below [k] the middle is the left-hand digit,
    at [k] it is strictly above. *)
Definition stops_at (lhs rhs : t) (k : nat) : Prop :=
  (∀ j, (j < k)%nat → mid_digit (lhs_digit lhs j) (rhs_digit rhs j) = lhs_digit lhs j) ∧
  lhs_digit lhs k < mid_digit (lhs_digit lhs k) (rhs_digit rhs k).

Definition max_len (lhs rhs : t) : nat := Nat.max (length (digits lhs)) (length (digits rhs)).

Lemma between_loop_shape fuel i lhs rhs :
  (0 < fuel)%nat → (max_len lhs rhs < i + fuel)%nat →
  (∀ j, (j < i)%nat → mid_digit (lhs_digit lhs j) (rhs_digit rhs j) = lhs_digit lhs j) →
  ∃ k, (i <= k)%nat ∧ (k = i ∨ k <= max_len lhs rhs)%nat ∧ stops_at lhs rhs k ∧
    between_loop fuel i lhs rhs =
      (lhs_digit lhs <$> seq i (k - i)) ++ [mid_digit (lhs_digit lhs k) (rhs_digit rhs k)].
Proof.
  revert i. induction fuel as [|fuel IH]; intros i H0 Hf Hpre; [lia|]. simpl.
  set (m := mid_digit (lhs_digit lhs i) (rhs_digit rhs i)).
  destruct (N.ltb_spec (lhs_digit lhs i) m) as [Hlt|Hge].
  - exists i. rewrite Nat.sub_diag. split_and!; [lia|by left|done|done].
  - assert (m = lhs_digit lhs i) as Hm by (pose proof (mid_digit_ge (lhs_digit lhs i) (rhs_digit rhs i)); lia).
    assert (i < max_len lhs rhs)%nat as Hi.
    { destruct (decide (i < max_len lhs rhs)%nat) as [|Hi]; [done|exfalso].
      unfold max_len in Hi. revert Hge. unfold m, lhs_digit, rhs_digit.
      rewrite !digits_past by lia. rewrite mid_digit_past. lia. }
    destruct (IH (S i)) as (k & Hk & Hkm & Hs & ->); [lia|lia| |].
    + intros j Hj. destruct (decide (j = i)) as [->|]; [done|apply Hpre; lia].
    + exists k. split_and!; [lia|lia|done|]. rewrite Hm.
      replace (k - i)%nat with (S (k - S i)) by lia. done.
Qed.

(** Termination: the fuel of [between] suffices, the loop ends by its [break]. *)
Lemma between_shape lhs rhs :
  ∃ k, (k <= max_len lhs rhs)%nat ∧ stops_at lhs rhs k ∧
    digits (between lhs rhs) =
      (lhs_digit lhs <$> seq 0 k) ++ [mid_digit (lhs_digit lhs k) (rhs_digit rhs k)].
Proof.
  destruct (between_loop_shape (between_fuel lhs rhs) 0 lhs rhs) as (k & _ & Hk & Hs & Heq).
  - unfold between_fuel. lia.
  - unfold between_fuel, max_len. lia.
  - lia.
  - rewrite Nat.sub_0_r in Heq. exists k. split_and!; [lia|done|done].
Qed.

(** ** Lexicographic comparison through padded digits *)

Lemma cmp_cons_lt (a b : N) l k : a < b → cmp (a :: l) (b :: k) = Lt.
Proof. intros H. rewrite cmp_list_cons. unfold cmp, ord_N. by rewrite (proj2 (N.compare_lt_iff _ _) H). Qed.

Lemma cmp_cons_same (a : N) l k : cmp (a :: l) (a :: k) = cmp l k.
Proof. rewrite cmp_list_cons, cmp_refl. done. Qed.

(** A list is below another when they agree, padded by [0], below [k] and the
    second is greater at [k] (and has that digit). *)
Lemma lt_of_digits (l r : list N) k :
  (∀ j, (j < k)%nat → default 0 (l !! j) = default 0 (r !! j)) →
  (k < length r)%nat → default 0 (l !! k) < default 0 (r !! k) → cmp l r = Lt.
Proof.
  revert l r. induction k as [|k IH]; intros l [|b r] Hpre Hk Hlt; simpl in Hk; try lia.
  - destruct l as [|a l]; [done|]. by apply cmp_cons_lt.
  - destruct l as [|a l]; [done|]. assert (a = b) as -> by (apply (Hpre 0%nat); lia).
    rewrite cmp_cons_same. apply IH; [|lia|done]. intros j Hj. apply (Hpre (S j)). lia.
Qed.

Lemma digits_of_lt (l r : list N) :
  cmp l r = Lt → (∃ d, last r = Some d ∧ d ≠ 0) →
  ∃ k, (∀ j, (j < k)%nat → default 0 (l !! j) = default 0 (r !! j)) ∧
       (k < length r)%nat ∧ default 0 (l !! k) < default 0 (r !! k).
Proof.
  revert l. induction r as [|b r IH]; intros l Hlt (d & Hd & Hd0); [by destruct l|].
  destruct r as [|b' r].
  { injection Hd as ->. exists 0%nat. split; [intros; lia|]. simpl. split; [lia|].
    destruct l as [|a l]; simpl; [lia|]. rewrite cmp_list_cons in Hlt.
    unfold cmp, ord_N in Hlt. destruct (N.compare_spec a d) as [->| |]; simpl in *;
      [by destruct l|done|done]. }
  destruct (N.lt_trichotomy (default 0 (l !! 0%nat)) b) as [Hb|[Hb|Hb]].
  - exists 0%nat. split_and!; [intros; lia|simpl; lia|done].
  - destruct (IH (tail l)) as (k & Hpre & Hk & Hk').
    + destruct l as [|a l]; simpl in *; [done|]. subst. by rewrite cmp_cons_same in Hlt.
    + by exists d.
    + assert (∀ j, l !! S j = tail l !! j) as Ht by (by destruct l).
      exists (S k). split_and!.
      * intros [|j] Hj; [done|]. rewrite Ht. simpl. apply Hpre. lia.
      * simpl in *. lia.
      * by rewrite Ht.
  - destruct l as [|a l]; simpl in Hb; [lia|]. rewrite cmp_list_cons in Hlt.
    unfold cmp, ord_N in Hlt. by rewrite (proj2 (N.compare_gt_iff _ _) Hb) in Hlt.
Qed.

Lemma between_digit lhs rhs k j :
  digits (between lhs rhs) =
    (lhs_digit lhs <$> seq 0 k) ++ [mid_digit (lhs_digit lhs k) (rhs_digit rhs k)] →
  (j <= k)%nat →
  default 0 (digits (between lhs rhs) !! j) =
    if decide (j < k)%nat then lhs_digit lhs j else mid_digit (lhs_digit lhs k) (rhs_digit rhs k).
Proof.
  intros -> Hj. case_decide.
  - rewrite lookup_app_l by (rewrite length_fmap, length_seq; lia).
    rewrite list_lookup_fmap, lookup_seq_lt by lia. done.
  - rewrite lookup_app_r by (rewrite length_fmap, length_seq; lia).
    rewrite length_fmap, length_seq. replace (j - k)%nat with 0%nat by lia. done.
Qed.

Lemma between_gt lhs rhs : lhs ≺ between lhs rhs.
Proof.
  destruct (between_shape lhs rhs) as (k & _ & [_ Hs] & Heq).
  apply (lt_of_digits _ _ k).
  - intros j Hj. rewrite (between_digit _ _ _ _ Heq), decide_True by lia. done.
  - rewrite Heq, length_app, length_fmap, length_seq. simpl. lia.
  - rewrite (between_digit _ _ _ _ Heq), decide_False by lia. done.
Qed.

Lemma between_lt lhs rhs : ends_nonzero rhs → lhs ≺ rhs → between lhs rhs ≺ rhs.
Proof.
  intros Hnz Hlt. destruct (between_shape lhs rhs) as (k & _ & [Hpre Hs] & Heq).
  destruct (digits_of_lt _ _ Hlt Hnz) as (m & Hmpre & Hm & Hmlt).
  assert (∀ j, (j < length (digits rhs))%nat → rhs_digit rhs j = default 0 (digits rhs !! j)) as Hr.
  { intros j Hj. unfold rhs_digit. by destruct (lookup_lt_is_Some_2 _ _ Hj) as [? ->]. }
  assert (m <= k)%nat as Hmk.
  { destruct (decide (m <= k)%nat) as [|Hmk]; [done|exfalso].
    pose proof (mid_digit_lt _ _ Hs) as Hs'. rewrite (Hr k) in Hs, Hs' by lia.
    specialize (Hmpre k). unfold lhs_digit in *. lia. }
  apply (lt_of_digits _ _ m).
  - intros j Hj. rewrite (between_digit _ _ _ _ Heq), decide_True by lia. by apply Hmpre.
  - done.
  - rewrite (between_digit _ _ _ _ Heq) by lia. case_decide.
    + done.
    + assert (m = k) as -> by lia. rewrite <- Hr by lia. by apply mid_digit_lt.
Qed.

Lemma between_bounded lhs rhs : bounded lhs → bounded rhs → bounded (between lhs rhs).
Proof.
  intros Hl Hr. destruct (between_shape lhs rhs) as (k & _ & _ & Heq).
  assert (∀ j, lhs_digit lhs j <= U64_MAX) as Hl'.
  { intros j. unfold lhs_digit. destruct (digits lhs !! j) eqn:E; simpl; [|done].
    by eapply (Forall_lookup_1 _ _ _ _ Hl). }
  assert (∀ j, rhs_digit rhs j <= U64_MAX) as Hr'.
  { intros j. unfold rhs_digit. destruct (digits rhs !! j) eqn:E; simpl; [|done].
    by eapply (Forall_lookup_1 _ _ _ _ Hr). }
  unfold bounded. rewrite Heq. apply Forall_app_2.
  - apply Forall_fmap, Forall_forall. intros j _. apply Hl'.
  - apply Forall_singleton. etrans; [apply mid_digit_le|]. by apply N.max_lub.
Qed.

Lemma between_ends_nonzero lhs rhs : ends_nonzero (between lhs rhs).
Proof.
  destruct (between_shape lhs rhs) as (k & _ & [_ Hs] & Heq). unfold ends_nonzero.
  rewrite Heq, last_snoc. eexists. split; [done|]. lia.
Qed.

(** *** Depth of locators under repeated appends *)

(** One digit is enough as long as the left-hand digit leaves a gap of 2^48. *)
Lemma between_max_one_digit d :
  d + 2 ^ 48 <= U64_MAX → between (Mk [d]) max = Mk [d + (U64_MAX - d) / 2 ^ 48].
Proof.
  intros Hd. unfold between, between_fuel; simpl.
  unfold lhs_digit, rhs_digit, mid_digit, max; simpl. rewrite N.shiftr_div_pow2.
  assert (1 <= (U64_MAX - d) / 2 ^ 48) by (apply N.div_le_lower_bound; lia).
  destruct (N.ltb_spec d (d + (U64_MAX - d) / 2 ^ 48)); [done|lia].
Qed.

(** The [n]-th locator of a chain of appends that starts at [min]. *)
Definition append_chain (n : nat) : t := Nat.iter n (λ prev, between prev max) min.

Lemma append_chain_digit n :
  N.of_nat n < 65536 → ∃ d, append_chain n = Mk [d] ∧ d <= N.of_nat n * 2 ^ 16.
Proof.
  induction n as [|n IH]; intros Hn.
  - exists 0. split; [done|lia].
  - destruct IH as (d & E & Hd); [lia|]. exists (d + (U64_MAX - d) / 2 ^ 48).
    unfold append_chain in *. rewrite Nat.iter_succ, E. split.
    + apply between_max_one_digit. unfold U64_MAX. lia.
    + assert ((U64_MAX - d) / 2 ^ 48 <= 2 ^ 16) by (apply N.Div0.div_le_upper_bound; unfold U64_MAX; lia).
      lia.
Qed.

End Locator.
Export (hints) Locator.

(** ** Properties *)

(** C34: [Locator::between] terminates and, for any [lhs] below an [rhs] whose
    last digit is not zero, returns a locator strictly between the two; the
    result is made of 64-bit digits and again has a non-zero last digit, so it
    can serve as either side of the next call. *)
Theorem locator_between_strict lhs rhs :
  Locator.bounded lhs → Locator.wf rhs → lhs ≺ rhs →
  lhs ≺ Locator.between lhs rhs ∧ Locator.between lhs rhs ≺ rhs ∧
  Locator.wf (Locator.between lhs rhs).
Proof.
  intros Hl [Hr Hnz] Hlt. split_and!.
  - apply Locator.between_gt.
  - by apply Locator.between_lt.
  - split; [by apply Locator.between_bounded|apply Locator.between_ends_nonzero].
Qed.

Lemma locator_between_strict_witness :
  Locator.Mk [5; 9] ≺ Locator.between (Locator.Mk [5; 9]) (Locator.Mk [6]) ∧
  Locator.between (Locator.Mk [5; 9]) (Locator.Mk [6]) ≺ Locator.Mk [6].
Proof.
  destruct (locator_between_strict (Locator.Mk [5; 9]) (Locator.Mk [6])) as (H1 & H2 & _).
  - repeat constructor; vm_compute; discriminate.
  - split; [repeat constructor; vm_compute; discriminate|].
    exists 6. split; [reflexivity|discriminate].
  - reflexivity.
  - exact (conj H1 H2).
Defined.

(** The documented purpose of the 48-bit shift: appending at the end of the
    collection again and again (each new locator placed between the previous
    one and [max]) never needs a second digit in the first 65,535 appends, and
    the locators of the chain strictly increase. *)
Theorem locator_append_chain_depth n :
  N.of_nat n < 65536 →
  Locator.len (Locator.append_chain n) = 1%nat ∧
  Locator.append_chain n ≺ Locator.append_chain (S n) ∧
  Locator.append_chain (S n) ≺ Locator.max.
Proof.
  intros Hn. destruct (Locator.append_chain_digit n Hn) as (d & E & Hd).
  assert (Locator.append_chain (S n) = Locator.between (Locator.append_chain n) Locator.max) as -> by done.
  rewrite E. split_and!.
  - done.
  - apply Locator.between_gt.
  - apply Locator.between_lt; [by exists U64_MAX|]. apply Locator.cmp_cons_lt.
    unfold U64_MAX. lia.
Qed.

Lemma locator_append_chain_depth_witness : Locator.len (Locator.append_chain 1000) = 1%nat.
Proof. apply (locator_append_chain_depth 1000). reflexivity. Defined.
