(* ===== verification/SumTree.v ===== *)
(** * SumTree: the summarised B+ tree

    Models [crates/sum_tree/src/sum_tree.rs]: the traits [Summary], [Item],
    [Dimension] and [SeekTarget] as type classes, the tree and its structural
    operations.  A [Context] argument of the traits is fixed by the instance.
    [Arc] sharing and clone-on-write ([Arc::make_mut]) are invisible to a
    functional model: an operation on [&mut self] returns the new tree.

    Operations that can panic ([unwrap] on an empty child list, a full
    [ArrayVec], the accessors [items] and [child_trees] of the wrong kind of
    node) return [option], with [None] for the panic.  [SumTreeSpec]
    shows that no operation panics on a well-formed tree and that every
    operation does to the sequence of items what its name says. *)

From S2P Require Import Prelude.

(** ** The traits *)

Class Summary (S : Type) : Type := { summary_zero : S; add_summary : S → S → S }.

(** What the tree needs of a summary.  [valid] restricts the laws to the
    summaries that occur; there is no right identity, since for a summary like
    "the greatest key" adding [zero] forgets everything. *)
Class SummaryLaws (S : Type) `{Summary S} : Type := {
  valid : S → Prop;
  valid_zero : valid summary_zero;
  valid_add a b : valid a → valid b → valid (add_summary a b);
  add_zero_l a : valid a → add_summary summary_zero a = a;
  add_assoc a b c : valid a → valid b → valid c →
    add_summary (add_summary a b) c = add_summary a (add_summary b c)
}.

Class Item (T S : Type) : Type := item_summary : T → S.

Class Dimension (D S : Type) : Type := { dim_zero : D; dim_add : D → S → D }.

(** [dvalid] are the values a dimension takes along a tree. *)
Class DimensionLaws (D S : Type) `{Dimension D S, SummaryLaws S} : Type := {
  dvalid : D → Prop;
  dvalid_zero : dvalid dim_zero;
  dvalid_add (d : D) (a : S) : dvalid d → valid a → dvalid (dim_add d a);
  dim_add_add (d : D) (a b : S) : dvalid d → valid a → valid b →
    dim_add d (add_summary a b) = dim_add (dim_add d a) b
}.

(** [impl Dimension for T where T: Summary]. *)
#[export] Instance dim_summary {S} `{Summary S} : Dimension S S :=
  {| dim_zero := summary_zero; dim_add := add_summary |}.

(** [impl Dimension for ()]. *)
#[export] Instance dim_unit {S} : Dimension unit S :=
  {| dim_zero := tt; dim_add _ _ := tt |}.

(** [Dimensions(D1, D2, ())]. *)
#[export] Instance dim_pair {D1 D2 S} `{Dimension D1 S, Dimension D2 S} : Dimension (D1 * D2) S :=
  {| dim_zero := (dim_zero, dim_zero); dim_add d s := (dim_add d.1 s, dim_add d.2 s) |}.

#[export] Instance dim_laws_unit {S} `{SummaryLaws S} : DimensionLaws unit S :=
  {| dvalid _ := True; dvalid_zero := I; dvalid_add _ _ _ _ := I; dim_add_add _ _ _ _ _ _ := eq_refl |}.

#[export] Instance dim_laws_summary {S} `{SummaryLaws S} : DimensionLaws S S :=
  {| dvalid := valid; dvalid_zero := valid_zero; dvalid_add := valid_add;
     dim_add_add d a b Hd Ha Hb := eq_sym (add_assoc d a b Hd Ha Hb) |}.

#[export] Program Instance dim_laws_pair {D1 D2 S}
    `{DimensionLaws D1 S, !Dimension D2 S, !DimensionLaws D2 S} : DimensionLaws (D1 * D2) S :=
  {| dvalid d := dvalid d.1 ∧ dvalid d.2 |}.
Next Obligation. intros. split; apply dvalid_zero. Qed.
Next Obligation. intros * [? ?] ?. split; by apply dvalid_add. Qed.
Next Obligation. intros * [? ?] ??. unfold dim_add; simpl. by rewrite !dim_add_add. Qed.

(** [SeekTarget::cmp]: the target compared with a location of the cursor. *)
Definition SeekTarget (D : Type) : Type := D → comparison.

(** A dimension that is [Ord] is a target for itself, and for the first
    component of [Dimensions]; [End] lies behind every location. *)
Definition seek_key {D} `{Ord D} (k : D) : SeekTarget D := λ d, cmp k d.
Definition seek_fst {D1 D2} (t : SeekTarget D1) : SeekTarget (D1 * D2) := λ d, t d.1.
Definition seek_end {D} : SeekTarget D := λ _, Gt.

Inductive Bias := Left | Right.

#[export] Instance bias_eq_dec : EqDecision Bias.
Proof. solve_decision. Defined.

#[export] Instance ord_bias : Ord Bias :=
  λ a b, match a, b with Left, Right => Lt | Right, Left => Gt | _, _ => Eq end.

Definition invert (b : Bias) : Bias := match b with Left => Right | Right => Left end.

(** The test both directions of seeking share: the target lies behind a
    location, or at it with a bias to the right. *)
Definition skips (c : comparison) (bias : Bias) : bool :=
  match c, bias with Gt, _ => true | Eq, Right => true | _, _ => false end.

(** Its complement, as [find] writes it. *)
Definition target_in_child (c : comparison) (bias : Bias) : bool :=
  match c, bias with Lt, _ => true | Eq, Left => true | _, _ => false end.

Lemma target_in_child_skips c bias : target_in_child c bias = negb (skips c bias).
Proof. by destruct c, bias. Qed.

(** ** The tree *)

Definition TREE_BASE : nat := 6.

(** [ArrayVec<_, { 2 * TREE_BASE }>]: exceeding the capacity panics. *)
Definition arrayvec {A} (l : list A) : option (list A) :=
  if decide (length l ≤ 2 * TREE_BASE) then Some l else None.

(** [last_mut().unwrap()], replacing the last element by what [f] computes. *)
Definition update_last_with {A B} (f : A → option (A * B)) : list A → option (list A * B) :=
  fix go l := match l with
              | [] => None
              | [x] => '(y, b) ← f x; Some ([y], b)
              | x :: l => '(l, b) ← go l; Some (x :: l, b)
              end.

Definition update_first_with {A B} (f : A → option (A * B)) (l : list A) : option (list A * B) :=
  match l with
  | [] => None
  | x :: l => '(y, b) ← f x; Some (y :: l, b)
  end.

(** Recursion into the last or first child. *)
Definition last_with {A B} (f : A → option B) : list A → option B :=
  fix go l := match l with [] => None | [x] => f x | _ :: l => go l end.

Definition first_with {A B} (f : A → option B) (l : list A) : option B :=
  match l with [] => None | x :: _ => f x end.

Section tree.
Context {T S : Type} `{Summary S, !Item T S}.

#[warnings="-register-all"]
Inductive SumTree : Type :=
| Leaf (summary : S) (items : list T) (item_summaries : list S)
| Internal (height : nat) (summary : S) (child_summaries : list S) (child_trees : list SumTree).

(** *** [impl Node] *)

Definition is_leaf (t : SumTree) : bool :=
  match t with Leaf _ _ _ => true | Internal _ _ _ _ => false end.

Definition node_height (t : SumTree) : nat :=
  match t with Internal height _ _ _ => height | Leaf _ _ _ => 0 end.

Definition tree_summary (t : SumTree) : S :=
  match t with Internal _ summary _ _ => summary | Leaf summary _ _ => summary end.

Definition node_child_summaries (t : SumTree) : list S :=
  match t with
  | Internal _ _ child_summaries _ => child_summaries
  | Leaf _ _ item_summaries => item_summaries
  end.

Definition node_child_trees (t : SumTree) : option (list SumTree) :=
  match t with
  | Internal _ _ _ child_trees => Some child_trees
  | Leaf _ _ _ => None (* panic!("Leaf nodes have no child trees") *)
  end.

Definition node_items (t : SumTree) : option (list T) :=
  match t with
  | Leaf _ items _ => Some items
  | Internal _ _ _ _ => None (* panic!("Internal nodes have no items") *)
  end.

Definition is_underflowing (t : SumTree) : bool :=
  match t with
  | Internal _ _ _ child_trees => bool_decide (length child_trees < TREE_BASE)
  | Leaf _ items _ => bool_decide (length items < TREE_BASE)
  end.

(** [fn sum]. *)
Definition sum (l : list S) : S := foldl add_summary summary_zero l.

(** *** Construction *)

Definition tree_new : SumTree := Leaf summary_zero [] [].

Definition from_summary (s : S) : SumTree := Leaf s [] [].

(** The leaf that [from_iter] and [from_par_iter] make of one chunk; indexing
    the first summary panics on an empty chunk. *)
Definition leaf_of_items (items : list T) : option SumTree :=
  items ← arrayvec items;
  match item_summary <$> items with
  | s :: rest => Some (Leaf (foldl add_summary s rest) items (s :: rest))
  | [] => None
  end.

(** [while iter.peek().is_some()]: leaves of up to [2 * TREE_BASE] items. *)
Fixpoint from_iter_leaves (fuel : nat) (l : list T) : option (list SumTree) :=
  match fuel, l with
  | _, [] => Some []
  | O, _ :: _ => None
  | Datatypes.S fuel, _ :: _ =>
      leaf ← leaf_of_items (take (2 * TREE_BASE) l);
      rest ← from_iter_leaves fuel (drop (2 * TREE_BASE) l);
      Some (leaf :: rest)
  end.

(** One iteration of [for child_node in nodes.drain(..)]: the state is
    [current_parent_node] and [parent_nodes]. *)
Definition add_to_parent (height : nat) (st : option SumTree * list SumTree)
    (child_node : SumTree) : option (option SumTree * list SumTree) :=
  match default (Internal height summary_zero [] []) st.1 with
  | Internal h summary child_summaries child_trees =>
      let child_summary := tree_summary child_node in
      child_summaries ← arrayvec (child_summaries ++ [child_summary]);
      child_trees ← arrayvec (child_trees ++ [child_node]);
      let parent := Internal h (add_summary summary child_summary) child_summaries child_trees in
      if decide (length child_trees = 2 * TREE_BASE)
      then Some (None, st.2 ++ [parent])
      else Some (Some parent, st.2)
  | Leaf _ _ _ => None (* unreachable!() *)
  end.

Fixpoint foldl_opt {A B} (f : B → A → option B) (b : B) (l : list A) : option B :=
  match l with [] => Some b | a :: l => b ← f b a; foldl_opt f b l end.

(** [while nodes.len() > 1]. *)
Fixpoint from_iter_levels (fuel height : nat) (nodes : list SumTree) : option (list SumTree) :=
  match nodes, fuel with
  | _ :: _ :: _, Datatypes.S fuel =>
      let height := Datatypes.S height in
      '(current, parents) ← foldl_opt (add_to_parent height) (None, []) nodes;
      from_iter_levels fuel height (parents ++ option_list current)
  | _ :: _ :: _, O => None
  | _, _ => Some nodes
  end.

Definition from_iter (l : list T) : option SumTree :=
  leaves ← from_iter_leaves (length l) l;
  nodes ← from_iter_levels (length leaves) 0 leaves;
  match nodes with
  | [] => Some tree_new
  | _ => last nodes (* nodes.pop().unwrap() *)
  end.

(** [chunks(n)] of an indexed parallel iterator, whose [map] keeps the order. *)
Fixpoint chunks {A} (fuel n : nat) (l : list A) : list (list A) :=
  match fuel, l with
  | Datatypes.S fuel, _ :: _ => take n l :: chunks fuel n (drop n l)
  | _, _ => []
  end.

(** The parent that [from_par_iter] makes of one chunk of nodes. *)
Definition node_of_children (height : nat) (child_nodes : list SumTree) : option SumTree :=
  child_trees ← arrayvec child_nodes;
  match tree_summary <$> child_trees with
  | s :: rest => Some (Internal height (foldl add_summary s rest) (s :: rest) child_trees)
  | [] => None
  end.

Fixpoint from_par_iter_levels (fuel height : nat) (nodes : list SumTree) : option (list SumTree) :=
  match nodes, fuel with
  | _ :: _ :: _, Datatypes.S fuel =>
      let height := Datatypes.S height in
      nodes ← mapM (node_of_children height) (chunks (length nodes) (2 * TREE_BASE) nodes);
      from_par_iter_levels fuel height nodes
  | _ :: _ :: _, O => None
  | _, _ => Some nodes
  end.

Definition from_par_iter (l : list T) : option SumTree :=
  leaves ← mapM leaf_of_items (chunks (length l) (2 * TREE_BASE) l);
  nodes ← from_par_iter_levels (length leaves) 0 leaves;
  match nodes with
  | [] => Some tree_new
  | _ => last nodes
  end.

(** *** Lookup *)

Fixpoint leftmost_leaf (t : SumTree) : option SumTree :=
  match t with
  | Leaf _ _ _ => Some t
  | Internal _ _ _ child_trees => first_with leftmost_leaf child_trees
  end.

Fixpoint rightmost_leaf (t : SumTree) : option SumTree :=
  match t with
  | Leaf _ _ _ => Some t
  | Internal _ _ _ child_trees => last_with rightmost_leaf child_trees
  end.

(** [self.leftmost_leaf().0.items().first()], the outer [option] for a panic. *)
Definition tree_first (t : SumTree) : option (option T) :=
  leaf ← leftmost_leaf t; items ← node_items leaf; Some (head items).

Definition tree_last (t : SumTree) : option (option T) :=
  leaf ← rightmost_leaf t; items ← node_items leaf; Some (last items).

Definition last_summary (t : SumTree) : option (option S) :=
  leaf ← rightmost_leaf t; Some (last (node_child_summaries leaf)).

Definition is_empty (t : SumTree) : bool :=
  match t with
  | Internal _ _ _ _ => false
  | Leaf _ items _ => match items with [] => true | _ => false end
  end.

Section dimension.
Context {D : Type} `{!Dimension D S}.

Definition extent (t : SumTree) : D := dim_add dim_zero (tree_summary t).

(** [entry_found] of [find_iterate], for the two values of [EXACT]. *)
Definition entry_found (exact : bool) (c : comparison) (bias : Bias) : bool :=
  if exact then match c with Eq => true | _ => false end else target_in_child c bias.

(** [find_iterate]: the item with its end, and the final [position]. *)
Fixpoint find_iterate (exact : bool) (target : SeekTarget D) (bias : Bias) (position : D)
    (this : SumTree) : option (T * D) * D :=
  match this with
  | Internal _ _ child_summaries child_trees =>
      (fix go (trees : list SumTree) (sums : list S) (position : D) :=
         match trees, sums with
         | child_tree :: trees, child_summary :: sums =>
             let child_end := dim_add position child_summary in
             if target_in_child (target child_end) bias
             then find_iterate exact target bias position child_tree
             else go trees sums child_end
         | _, _ => (None, position)
         end) child_trees child_summaries position
  | Leaf _ items item_summaries =>
      (fix go (items : list T) (sums : list S) (position : D) :=
         match items, sums with
         | item :: items, item_summary :: sums =>
             let child_end := dim_add position item_summary in
             if entry_found exact (target child_end) bias
             then (Some (item, child_end), position)
             else go items sums child_end
         | _, _ => (None, position)
         end) items item_summaries position
  end.

(** [find] and [find_exact]: start, end and item. *)
Definition find_gen (exact : bool) (t : SumTree) (target : SeekTarget D) (bias : Bias) :
    D * D * option T :=
  let tree_end := dim_add dim_zero (tree_summary t) in
  if skips (target tree_end) bias then (tree_end, tree_end, None)
  else match find_iterate exact target bias dim_zero t with
       | (Some (item, end_), pos) => (pos, end_, Some item)
       | (None, pos) => (pos, pos, None)
       end.

Definition find_exact : SumTree → SeekTarget D → Bias → D * D * option T := find_gen true.
Definition find : SumTree → SeekTarget D → Bias → D * D * option T := find_gen false.

(** [find_with_prev_iterate]; [prev = child_tree.last()] can panic. *)
Fixpoint find_with_prev_iterate (exact : bool) (target : SeekTarget D) (bias : Bias)
    (prev : option T) (position : D) (this : SumTree) :
    option (option (option T * T * D) * D) :=
  match this with
  | Internal _ _ child_summaries child_trees =>
      (fix go (trees : list SumTree) (sums : list S) (prev : option T) (position : D) :=
         match trees, sums with
         | child_tree :: trees, child_summary :: sums =>
             let child_end := dim_add position child_summary in
             if target_in_child (target child_end) bias
             then find_with_prev_iterate exact target bias prev position child_tree
             else prev ← tree_last child_tree; go trees sums prev child_end
         | _, _ => Some (None, position)
         end) child_trees child_summaries prev position
  | Leaf _ items item_summaries =>
      (fix go (items : list T) (sums : list S) (prev : option T) (position : D) :=
         match items, sums with
         | item :: items, item_summary :: sums =>
             let child_end := dim_add position item_summary in
             if entry_found exact (target child_end) bias
             then Some (Some (prev, item, child_end), position)
             else go items sums (Some item) child_end
         | _, _ => Some (None, position)
         end) items item_summaries prev position
  end.

Definition find_with_prev (t : SumTree) (target : SeekTarget D) (bias : Bias) :
    option (D * D * option (option T * T)) :=
  let tree_end := dim_add dim_zero (tree_summary t) in
  if skips (target tree_end) bias then Some (tree_end, tree_end, None)
  else r ← find_with_prev_iterate false target bias None dim_zero t;
       match r with
       | (Some (prev, item, end_), pos) => Some (pos, end_, Some (prev, item))
       | (None, pos) => Some (pos, pos, None)
       end.

End dimension.

(** *** Update of the first and last item

    The closure is an [FnOnce(&mut T)]: it can panic, and what it leaves in the
    variables it captures is its result [R], absent when it was not called. *)

Fixpoint update_last_recursive {R} (f : T → option (T * R)) (t : SumTree) :
    option (SumTree * option (S * R)) :=
  match t with
  | Internal height _ child_summaries child_trees =>
      '(child_trees, (last_summary, r)) ←
        update_last_with (λ c, '(c, s) ← update_last_recursive f c; s ← s; Some (c, s)) child_trees;
      '(child_summaries, _) ← update_last_with (λ _, Some (last_summary, ())) child_summaries;
      let summary := sum child_summaries in
      Some (Internal height summary child_summaries child_trees, Some (summary, r))
  | Leaf summary items item_summaries =>
      match last items, last item_summaries with
      | Some _, Some _ =>
          '(items, (item, r)) ← update_last_with (λ x, '(x, r) ← f x; Some (x, (x, r))) items;
          '(item_summaries, _) ← update_last_with (λ _, Some (item_summary item, ())) item_summaries;
          let summary := sum item_summaries in
          Some (Leaf summary items item_summaries, Some (summary, r))
      | _, _ => Some (t, None)
      end
  end.

Definition update_last {R} (f : T → option (T * R)) (t : SumTree) : option (SumTree * option R) :=
  '(t, r) ← update_last_recursive f t; Some (t, option_map snd r).

Fixpoint update_first_recursive {R} (f : T → option (T * R)) (t : SumTree) :
    option (SumTree * option (S * R)) :=
  match t with
  | Internal height _ child_summaries child_trees =>
      '(child_trees, (first_summary, r)) ←
        update_first_with (λ c, '(c, s) ← update_first_recursive f c; s ← s; Some (c, s)) child_trees;
      '(child_summaries, _) ← update_first_with (λ _, Some (first_summary, ())) child_summaries;
      let summary := sum child_summaries in
      Some (Internal height summary child_summaries child_trees, Some (summary, r))
  | Leaf summary items item_summaries =>
      match head items, head item_summaries with
      | Some _, Some _ =>
          '(items, (item, r)) ← update_first_with (λ x, '(x, r) ← f x; Some (x, (x, r))) items;
          '(item_summaries, _) ← update_first_with (λ _, Some (item_summary item, ())) item_summaries;
          let summary := sum item_summaries in
          Some (Leaf summary items item_summaries, Some (summary, r))
      | _, _ => Some (t, None)
      end
  end.

Definition update_first {R} (f : T → option (T * R)) (t : SumTree) : option (SumTree * option R) :=
  '(t, r) ← update_first_recursive f t; Some (t, option_map snd r).

(** *** Appending *)

Definition from_child_trees (left right : SumTree) : option SumTree :=
  let child_summaries := [tree_summary left; tree_summary right] in
  Some (Internal (Datatypes.S (node_height left)) (sum child_summaries) child_summaries [left; right]).

(** [(child_count + child_count % 2) / 2] and [child_count.div_ceil(2)]. *)
Definition midpoint (child_count : nat) : nat := (child_count + child_count mod 2) / 2.
Definition div_ceil2 (child_count : nat) : nat :=
  child_count / 2 + (if child_count mod 2 =? 0 then 0 else 1).

(** The second half of the [Internal] arm of [push_tree_recursive]: the new
    children are appended, or all children are split between two nodes. *)
Definition push_children (height : nat) (summary : S) (child_summaries : list S)
    (child_trees : list SumTree) (summaries_to_append : list S) (trees_to_append : list SumTree) :
    option (SumTree * option SumTree) :=
  let child_count := length child_trees + length trees_to_append in
  if decide (2 * TREE_BASE < child_count) then
    let midpoint := midpoint child_count in
    let all_summaries := child_summaries ++ summaries_to_append in
    let all_trees := child_trees ++ trees_to_append in
    left_summaries ← arrayvec (take midpoint all_summaries);
    right_summaries ← arrayvec (drop midpoint all_summaries);
    left_trees ← arrayvec (take midpoint all_trees);
    right_trees ← arrayvec (drop midpoint all_trees);
    Some (Internal height (sum left_summaries) left_summaries left_trees,
          Some (Internal height (sum right_summaries) right_summaries right_trees))
  else
    child_summaries ← arrayvec (child_summaries ++ summaries_to_append);
    child_trees ← arrayvec (child_trees ++ trees_to_append);
    Some (Internal height summary child_summaries child_trees, None).

Fixpoint push_tree_recursive (self other : SumTree) : option (SumTree * option SumTree) :=
  match self with
  | Internal height summary child_summaries child_trees =>
      let summary := add_summary summary (tree_summary other) in
      (* u8 subtraction *)
      if decide (height < node_height other) then None else
      let height_delta := height - node_height other in
      '(child_summaries, child_trees, summaries_to_append, trees_to_append) ←
        (if decide (height_delta = 0) then
           summaries ← arrayvec (node_child_summaries other);
           trees ← node_child_trees other;
           trees ← arrayvec trees;
           Some (child_summaries, child_trees, summaries, trees)
         else if bool_decide (height_delta = 1) && negb (is_underflowing other) then
           Some (child_summaries, child_trees, [tree_summary other], [other])
         else
           '(child_trees, (last_summary, tree_to_append)) ←
             update_last_with (λ c, '(c, r) ← push_tree_recursive c other;
                                    Some (c, (tree_summary c, r))) child_trees;
           '(child_summaries, _) ← update_last_with (λ _, Some (last_summary, ())) child_summaries;
           match tree_to_append with
           | Some split_tree =>
               Some (child_summaries, child_trees, [tree_summary split_tree], [split_tree])
           | None => Some (child_summaries, child_trees, [], [])
           end);
      push_children height summary child_summaries child_trees summaries_to_append trees_to_append
  | Leaf summary items item_summaries =>
      other_items ← node_items other;
      let child_count := length items + length other_items in
      if decide (2 * TREE_BASE < child_count) then
        let midpoint := midpoint child_count in
        let all_items := items ++ other_items in
        let all_summaries := item_summaries ++ node_child_summaries other in
        left_items ← arrayvec (take midpoint all_items);
        right_items ← arrayvec (drop midpoint all_items);
        left_summaries ← arrayvec (take midpoint all_summaries);
        right_summaries ← arrayvec (drop midpoint all_summaries);
        Some (Leaf (sum left_summaries) left_items left_summaries,
              Some (Leaf (sum right_summaries) right_items right_summaries))
      else
        let summary := add_summary summary (tree_summary other) in
        items ← arrayvec (items ++ other_items);
        item_summaries ← arrayvec (item_summaries ++ node_child_summaries other);
        Some (Leaf summary items item_summaries, None)
  end.

(** [merge_into_right] returns the new [large] and the optional left half. *)
Definition merge_into_right (small large : SumTree) : option (SumTree * option SumTree) :=
  match small, large with
  | Internal _ small_summary small_child_summaries small_child_trees,
    Internal height summary child_summaries child_trees =>
      let total_child_count := length child_trees + length small_child_trees in
      if decide (total_child_count ≤ 2 * TREE_BASE) then
        child_trees ← arrayvec (small_child_trees ++ child_trees);
        child_summaries ← arrayvec (small_child_summaries ++ child_summaries);
        Some (Internal height (add_summary small_summary summary) child_summaries child_trees, None)
      else
        let midpoint := div_ceil2 total_child_count in
        let all_trees := small_child_trees ++ child_trees in
        let all_summaries := small_child_summaries ++ child_summaries in
        left_trees ← arrayvec (take midpoint all_trees);
        child_trees ← arrayvec (drop midpoint all_trees);
        left_summaries ← arrayvec (take midpoint all_summaries);
        child_summaries ← arrayvec (drop midpoint all_summaries);
        Some (Internal height (sum child_summaries) child_summaries child_trees,
              Some (Internal height (sum left_summaries) left_summaries left_trees))
  | Leaf small_summary small_items small_item_summaries, Leaf summary items item_summaries =>
      let total_child_count := length small_items + length items in
      if decide (total_child_count ≤ 2 * TREE_BASE) then
        items ← arrayvec (small_items ++ items);
        item_summaries ← arrayvec (small_item_summaries ++ item_summaries);
        Some (Leaf (add_summary small_summary summary) items item_summaries, None)
      else
        let midpoint := div_ceil2 total_child_count in
        let all_items := small_items ++ items in
        let all_summaries := small_item_summaries ++ item_summaries in
        left_items ← arrayvec (take midpoint all_items);
        items ← arrayvec (drop midpoint all_items);
        left_summaries ← arrayvec (take midpoint all_summaries);
        item_summaries ← arrayvec (drop midpoint all_summaries);
        Some (Leaf (sum item_summaries) items item_summaries,
              Some (Leaf (sum left_summaries) left_items left_summaries))
  | _, _ => None (* unreachable!() *)
  end.

(** [append_large] returns the new [large] and the optional left sibling. *)
Fixpoint append_large (small large : SumTree) : option (SumTree * option SumTree) :=
  if decide (node_height small = node_height large) then
    if is_underflowing small then merge_into_right small large else Some (large, Some small)
  else
    match large with
    | Internal height summary child_summaries child_trees =>
        let full_summary := add_summary (tree_summary small) summary in
        '(child_trees, (first_summary, res)) ←
          update_first_with (λ c, '(c, r) ← append_large small c;
                                  Some (c, (tree_summary c, r))) child_trees;
        '(child_summaries, _) ← update_first_with (λ _, Some (first_summary, ())) child_summaries;
        match res with
        | Some tree =>
            if decide (length child_trees < 2 * TREE_BASE) then
              child_summaries ← arrayvec (tree_summary tree :: child_summaries);
              child_trees ← arrayvec (tree :: child_trees);
              Some (Internal height full_summary child_summaries child_trees, None)
            else
              new_child_summaries ← arrayvec (tree_summary tree :: take TREE_BASE child_summaries);
              new_child_trees ← arrayvec (tree :: take TREE_BASE child_trees);
              let child_summaries := drop TREE_BASE child_summaries in
              let child_trees := drop TREE_BASE child_trees in
              Some (Internal height (sum child_summaries) child_summaries child_trees,
                    Some (Internal height (sum new_child_summaries) new_child_summaries new_child_trees))
        | None => Some (Internal height full_summary child_summaries child_trees, None)
        end
    | Leaf _ _ _ => None (* unreachable!() *)
    end.

Definition append (self other : SumTree) : option SumTree :=
  if is_empty self then Some other
  else
    nonempty ← (if is_leaf other then items ← node_items other; Some (bool_decide (items ≠ []))
                else Some true);
    if nonempty : bool then
      if decide (node_height self < node_height other) then
        '(other, res) ← append_large self other;
        match res with
        | Some tree => from_child_trees tree other
        | None => Some other
        end
      else
        '(self, res) ← push_tree_recursive self other;
        match res with
        | Some split_tree => from_child_trees self split_tree
        | None => Some self
        end
    else Some self.

Definition push (t : SumTree) (item : T) : option SumTree :=
  let summary := item_summary item in
  append t (Leaf summary [item] [summary]).

Definition from_item (item : T) : option SumTree := push tree_new item.

Definition extend (t : SumTree) (l : list T) : option SumTree :=
  other ← from_iter l; append t other.

Definition par_extend (t : SumTree) (l : list T) : option SumTree :=
  other ← from_par_iter l; append t other.

End tree.
Arguments SumTree : clear implicits.
