(* ===== verification/SumTreeSpec.v ===== *)
(** * SumTreeSpec: the summarised B+ tree implements a sequence

    The well-formedness invariant [wf] of [SumTree] trees, the sequence
    [to_list] they stand for, and the proofs that every structural operation
    of [SumTree] neither panics nor breaks the invariant and acts on the
    sequence as the list operation of the same name.

    Then building a tree from a sequence of items: [from_iter], [from_par_iter], [extend] and [par_extend] of
    [crates/sum_tree/src/sum_tree.rs]: both builders terminate, never overflow
    a node, and produce a well-formed tree of exactly the given items. *)

From S2P Require Import Prelude SumTree.

#[local] Arguments Nat.mul : simpl never.
#[local] Arguments TREE_BASE : simpl never.
#[local] Arguments take : simpl never.
#[local] Arguments drop : simpl never.

Section spec.
Context {T S : Type} `{SummaryLaws S, !Item T S}.
Abbreviation tree := (SumTree T S).
Implicit Types (t : tree) (ts : list tree) (l : list T).

Fixpoint to_list (t : tree) : list T :=
  match t with
  | Leaf _ items _ => items
  | Internal _ _ _ child_trees => concat (map to_list child_trees)
  end.

Definition valid_items (l : list T) : Prop := Forall (λ x, valid (item_summary x)) l.

(** The summary of a sequence of items. *)
Definition sum_items (l : list T) : S := sum (item_summary <$> l).

(** A tree of height [h] whose cached summaries are right, whose nodes respect
    the capacity, and whose proper subtrees are not empty. *)
Fixpoint wf (h : nat) (t : tree) : Prop :=
  match h, t with
  | 0, Leaf summary items item_summaries =>
      item_summaries = item_summary <$> items ∧ summary = sum_items items ∧
      length items ≤ 2 * TREE_BASE ∧ valid_items items
  | Datatypes.S h, Internal height summary child_summaries child_trees =>
      height = Datatypes.S h ∧ child_summaries = tree_summary <$> child_trees ∧
      summary = sum_items (to_list t) ∧
      length child_trees ≤ 2 * TREE_BASE ∧ child_trees ≠ [] ∧
      Forall (λ c, wf h c ∧ to_list c ≠ []) child_trees
  | _, _ => False
  end.

(** ** Sums *)

Lemma sum_valid (sums : list S) : Forall valid sums → valid (sum sums).
Proof.
  intros Hv. unfold sum. revert Hv. generalize (valid_zero (S:=S)). generalize (summary_zero (S:=S)).
  induction sums as [|s sums IH]; intros acc Hacc Hv; simpl; [done|].
  apply Forall_cons in Hv as [??]. auto using valid_add.
Qed.

Lemma foldl_add_from (acc s : S) sums :
  valid acc → valid s → Forall valid sums →
  foldl add_summary (add_summary acc s) sums = add_summary acc (foldl add_summary s sums).
Proof.
  revert s. induction sums as [|s' sums IH]; intros s Ha Hs Hv; simpl; [done|].
  apply Forall_cons in Hv as [??]. rewrite add_assoc by done. auto using valid_add.
Qed.

Lemma sum_cons s sums : valid s → Forall valid sums → sum (s :: sums) = foldl add_summary s sums.
Proof. intros. unfold sum; simpl. by rewrite add_zero_l. Qed.

Lemma sum_app sums1 sums2 :
  Forall valid sums1 → Forall valid sums2 → sums2 ≠ [] →
  sum (sums1 ++ sums2) = add_summary (sum sums1) (sum sums2).
Proof.
  intros Hv1 Hv2 Hne. destruct sums2 as [|s sums2]; [done|].
  apply Forall_cons in Hv2 as [??]. rewrite sum_cons by done.
  unfold sum at 1. rewrite foldl_app. simpl. fold (sum sums1).
  apply foldl_add_from; auto using sum_valid.
Qed.

Lemma sum_items_app l1 l2 :
  valid_items l1 → valid_items l2 → l2 ≠ [] →
  sum_items (l1 ++ l2) = add_summary (sum_items l1) (sum_items l2).
Proof.
  intros. unfold sum_items. rewrite fmap_app. apply sum_app; [by apply Forall_fmap..|].
  by destruct l2.
Qed.

Lemma sum_items_valid l : valid_items l → valid (sum_items l).
Proof. intros. by apply sum_valid, Forall_fmap. Qed.

Lemma valid_items_app l1 l2 : valid_items (l1 ++ l2) ↔ valid_items l1 ∧ valid_items l2.
Proof. apply Forall_app. Qed.

Lemma valid_items_singleton x : valid_items [x] ↔ valid (item_summary x).
Proof. unfold valid_items. by rewrite Forall_singleton. Qed.

Lemma sum_items_singleton x : valid (item_summary x) → sum_items [x] = item_summary x.
Proof. intros. unfold sum_items, sum. simpl. by apply add_zero_l. Qed.

(** The sum of the sums of non-empty pieces is the sum of their concatenation. *)
Lemma sum_concat (ls : list (list T)) :
  Forall (λ l, valid_items l ∧ l ≠ []) ls →
  sum (sum_items <$> ls) = sum_items (concat ls).
Proof.
  induction ls as [|l ls IH] using rev_ind; intros Hls; [done|].
  apply Forall_app in Hls as [Hls Hl]. apply Forall_singleton in Hl as [Hv Hne].
  rewrite fmap_app. simpl. rewrite concat_app. simpl. rewrite app_nil_r.
  assert (valid_items (concat ls)) as Hc.
  { clear IH Hv Hne. induction Hls as [|? ? [? ?]]; simpl; [constructor|]. by apply valid_items_app. }
  rewrite sum_app, IH; [|done| |by apply Forall_singleton, sum_items_valid|done].
  - unfold sum at 1; simpl. rewrite add_zero_l by auto using sum_items_valid.
    by rewrite <- sum_items_app.
  - apply Forall_fmap. eapply Forall_impl; [exact Hls|]. intros ? [? ?]. by apply sum_items_valid.
Qed.

(** ** Consequences of well-formedness *)

Definition wf_child (h : nat) (c : tree) : Prop := wf h c ∧ to_list c ≠ [].

Lemma wf_height h t : wf h t → node_height t = h.
Proof. destruct h, t; simpl; naive_solver. Qed.

Lemma wf_valid h t : wf h t → valid_items (to_list t).
Proof.
  revert t. induction h as [|h IH]; intros [] Hwf; simpl in *; try done; [naive_solver|].
  destruct Hwf as (_ & _ & _ & _ & _ & Hc). induction Hc as [|c cs [Hc _] _ IHc]; simpl; [constructor|].
  apply valid_items_app. auto.
Qed.

Lemma wf_summary h t : wf h t → tree_summary t = sum_items (to_list t).
Proof. destruct h, t; simpl; naive_solver. Qed.

Lemma wf_is_leaf h t : wf h t → is_leaf t = bool_decide (h = 0).
Proof. destruct h, t; simpl; naive_solver. Qed.

Lemma concat_nonempty h ts :
  ts ≠ [] → Forall (wf_child h) ts → concat (map to_list ts) ≠ [].
Proof. destruct ts as [|t ts]; [done|]. intros _ [[_ Ht] _]%Forall_cons. simpl. by destruct (to_list t). Qed.

Lemma wf_is_empty h t : wf h t → is_empty t = bool_decide (to_list t = []).
Proof.
  destruct h, t; simpl; try done.
  - intros _. by destruct items.
  - intros (_ & _ & _ & _ & Hne & Hc). rewrite bool_decide_eq_false_2; [done|].
    by eapply concat_nonempty.
Qed.

Lemma wf_children_sums h ts :
  Forall (wf_child h) ts → sum (tree_summary <$> ts) = sum_items (concat (map to_list ts)).
Proof.
  intros Hts. rewrite <- sum_concat.
  - f_equal. rewrite <- list_fmap_compose. apply list_fmap_ext. intros i c Hc.
    destruct (Forall_lookup_1 _ _ _ _ Hts Hc) as [Hwf _]. by apply (wf_summary h).
  - apply Forall_fmap. eapply Forall_impl; [exact Hts|]. intros c [? ?]. split; [|done].
    by eapply wf_valid.
Qed.

Lemma wf_children_valid h ts : Forall (wf_child h) ts → valid_items (concat (map to_list ts)).
Proof.
  intros Hts. induction Hts as [|c cs [Hc _] _ IH]; simpl; [constructor|].
  apply valid_items_app. eauto using wf_valid.
Qed.

(** Building a node from well-formed children. *)
Lemma wf_internal h summary sums ts :
  sums = tree_summary <$> ts → summary = sum_items (concat (map to_list ts)) →
  length ts ≤ 2 * TREE_BASE → ts ≠ [] → Forall (wf_child h) ts →
  wf_child (Datatypes.S h) (Internal (Datatypes.S h) summary sums ts).
Proof.
  intros. split; [simpl; naive_solver|]. simpl. by eapply concat_nonempty.
Qed.

Lemma wf_internal_sum h sums ts :
  sums = tree_summary <$> ts → length ts ≤ 2 * TREE_BASE → ts ≠ [] → Forall (wf_child h) ts →
  wf_child (Datatypes.S h) (Internal (Datatypes.S h) (sum sums) sums ts).
Proof. intros -> ???. apply wf_internal; [done| |done..]. by apply (wf_children_sums h). Qed.

Lemma wf_leaf_sum sums l :
  sums = item_summary <$> l → length l ≤ 2 * TREE_BASE → l ≠ [] → valid_items l →
  wf_child 0 (Leaf (sum sums) l sums).
Proof. intros -> ???. split; [simpl; naive_solver|done]. Qed.

Lemma wf_child_leaf t :
  wf_child 0 t → ∃ l, t = Leaf (sum_items l) l (item_summary <$> l) ∧
    length l ≤ 2 * TREE_BASE ∧ l ≠ [] ∧ valid_items l.
Proof. intros [Hwf Hne]. destruct t; simpl in *; [|done]. naive_solver. Qed.

Lemma wf_internal_inv h t :
  wf (Datatypes.S h) t → ∃ ts,
    t = Internal (Datatypes.S h) (sum_items (concat (map to_list ts))) (tree_summary <$> ts) ts ∧
    length ts ≤ 2 * TREE_BASE ∧ ts ≠ [] ∧ Forall (wf_child h) ts.
Proof. intros Hwf. destruct t; simpl in *; [done|]. naive_solver. Qed.

(** ** Capacity *)

Lemma arrayvec_ok {A} (l : list A) : length l ≤ 2 * TREE_BASE → arrayvec l = Some l.
Proof. intros. unfold arrayvec. by rewrite decide_True. Qed.

Lemma midpoint_spec n : 2 * TREE_BASE < n → n ≤ 4 * TREE_BASE →
  0 < midpoint n < n ∧ midpoint n ≤ 2 * TREE_BASE ∧ n - midpoint n ≤ 2 * TREE_BASE.
Proof.
  unfold midpoint, TREE_BASE. intros.
  pose proof (Nat.div_mod_eq n 2). pose proof (Nat.mod_upper_bound n 2).
  pose proof (Nat.div_mod_eq (n + n `mod` 2) 2). pose proof (Nat.mod_upper_bound (n + n `mod` 2) 2). lia.
Qed.

Lemma div_ceil2_midpoint n : div_ceil2 n = midpoint n.
Proof.
  unfold midpoint, div_ceil2. pose proof (Nat.div_mod_eq n 2). pose proof (Nat.mod_upper_bound n 2).
  pose proof (Nat.div_mod_eq (n + n `mod` 2) 2). pose proof (Nat.mod_upper_bound (n + n `mod` 2) 2).
  destruct (Nat.eqb_spec (n `mod` 2) 0); lia.
Qed.

Lemma update_last_with_snoc {A B} (f : A → option (A * B)) (k : list A) (x : A) :
  update_last_with f (k ++ [x]) = '(y, b) ← f x; Some (k ++ [y], b).
Proof.
  induction k as [|z k IH]; [done|].
  transitivity ('(k, b) ← update_last_with f (k ++ [x]); Some (z :: k, b)).
  - simpl. destruct (k ++ [x]) eqn:E; [by destruct k|done].
  - rewrite IH. by destruct (f x) as [[]|].
Qed.

Lemma nonempty_snoc {A} (l : list A) : l ≠ [] → ∃ k x, l = k ++ [x].
Proof. intros. destruct (exists_last (l:=l)) as (k & x & ->); eauto. Qed.

Lemma concat_snoc ts t : concat (map to_list (ts ++ [t])) = concat (map to_list ts) ++ to_list t.
Proof. rewrite map_app, concat_app. simpl. by rewrite app_nil_r. Qed.

(** ** The two halves of a split *)

Definition opt_list (r : option tree) : list T := from_option to_list [] r.
Definition opt_wf (h : nat) (r : option tree) : Prop := from_option (wf_child h) True r.

(** [l] is the sequence of the pair of trees a splitting operation returns. *)
Definition pushed (h : nat) (l : list T) (res : option (tree * option tree)) : Prop :=
  ∃ t r, res = Some (t, r) ∧ wf_child h t ∧ opt_wf h r ∧ to_list t ++ opt_list r = l.

Lemma push_children_spec h summary ts app :
  ts ≠ [] → length ts ≤ 2 * TREE_BASE → length app ≤ 2 * TREE_BASE →
  Forall (wf_child h) ts → Forall (wf_child h) app →
  summary = sum_items (concat (map to_list (ts ++ app))) →
  pushed (Datatypes.S h) (concat (map to_list (ts ++ app)))
    (push_children (Datatypes.S h) summary (tree_summary <$> ts) ts (tree_summary <$> app) app).
Proof.
  intros Hne Hts Happ Hwts Hwapp ->. unfold push_children, pushed.
  assert (Forall (wf_child h) (ts ++ app)) as Hall by (by apply Forall_app).
  rewrite <- fmap_app. case_decide as Hc.
  - destruct (midpoint_spec _ Hc) as (? & ? & ?); [lia|].
    set (m := midpoint _) in *. rewrite <- fmap_take, <- fmap_drop.
    rewrite !arrayvec_ok
      by (rewrite ?length_fmap, ?length_take, ?length_drop, ?length_app; lia).
    simpl. eexists _, _. split_and!; [done|..].
    + apply wf_internal_sum; [done|rewrite length_take; lia| |by apply Forall_take].
      destruct (ts ++ app) eqn:E; [by destruct ts|]. by destruct m; [lia|].
    + apply wf_internal_sum; [done|rewrite length_drop, length_app; lia| |by apply Forall_drop].
      intros Hd%(f_equal length). rewrite length_drop, length_app in Hd. simpl in Hd. lia.
    + simpl. by rewrite <- concat_app, <- map_app, take_drop.
  - rewrite !arrayvec_ok by (rewrite ?length_fmap, ?length_app; lia). simpl.
    eexists _, _. split_and!; [done| |done|by simpl; rewrite app_nil_r].
    apply wf_internal; [done|done|rewrite length_app; lia|by destruct ts|done].
Qed.

Lemma push_leaf_spec (l l' : list T) :
  l ≠ [] → length l ≤ 2 * TREE_BASE → length l' ≤ 2 * TREE_BASE → l' ≠ [] →
  valid_items l → valid_items l' →
  pushed 0 (l ++ l') (push_tree_recursive (Leaf (sum_items l) l (item_summary <$> l))
    (Leaf (sum_items l') l' (item_summary <$> l'))).
Proof.
  intros Hne Hl Hl' Hne' Hv Hv'. simpl. unfold pushed.
  assert (valid_items (l ++ l')) as Hall by (by apply valid_items_app).
  rewrite <- fmap_app. case_decide as Hc.
  - destruct (midpoint_spec _ Hc) as (? & ? & ?); [lia|].
    set (m := midpoint _) in *. rewrite <- fmap_take, <- fmap_drop.
    rewrite !arrayvec_ok
      by (rewrite ?length_fmap, ?length_take, ?length_drop, ?length_app; lia).
    simpl. eexists _, _. split_and!; [done|..].
    + apply wf_leaf_sum; [done|rewrite length_take; lia| |by apply Forall_take].
      destruct (l ++ l') eqn:E; [by destruct l|]. by destruct m; [lia|].
    + apply wf_leaf_sum; [done|rewrite length_drop, length_app; lia| |by apply Forall_drop].
      intros Hd%(f_equal length). rewrite length_drop, length_app in Hd. simpl in Hd. lia.
    + simpl. by rewrite take_drop.
  - rewrite !arrayvec_ok by (rewrite ?length_fmap, ?length_app; lia). simpl.
    eexists _, _. split_and!; [done| |done|by simpl; rewrite app_nil_r].
    split; [|simpl; by destruct l].
    simpl. split_and!; [done|by rewrite sum_items_app|rewrite length_app; lia|done].
Qed.

Lemma push_tree_recursive_spec h t h' o :
  wf_child h t → wf_child h' o → h' ≤ h →
  pushed h (to_list t ++ to_list o) (push_tree_recursive t o).
Proof.
  revert t. induction h as [|h IH]; intros t Ht Ho Hle.
  { assert (h' = 0) as -> by lia.
    apply wf_child_leaf in Ht as (l & -> & ? & ? & ?), Ho as (l' & -> & ? & ? & ?).
    by apply push_leaf_spec. }
  destruct Ht as [Ht _], (Ho) as [Hwo Hneo].
  apply wf_internal_inv in Ht as (ts & -> & Hlen & Hne & Hts).
  pose proof (wf_children_valid _ _ Hts). pose proof (wf_valid _ _ Hwo).
  assert (∀ l, l = to_list o → add_summary (sum_items (concat (map to_list ts))) (tree_summary o) =
    sum_items (concat (map to_list ts) ++ l)) as Hsum.
  { intros l ->. rewrite (wf_summary _ _ Hwo). by rewrite sum_items_app. }
  simpl push_tree_recursive. rewrite (wf_height _ _ Hwo).
  rewrite decide_False by lia. case_decide as Hd0.
  { assert (h' = Datatypes.S h) as -> by lia.
    apply wf_internal_inv in Hwo as (os & -> & ? & ? & ?). simpl.
    rewrite !arrayvec_ok by (rewrite ?length_fmap; lia). simpl.
    rewrite <- concat_app, <- map_app. apply push_children_spec; try done.
    rewrite map_app, concat_app. by apply Hsum. }
  destruct (bool_decide _ && _) eqn:Hd1.
  { apply andb_true_iff in Hd1 as [Hd1%bool_decide_eq_true _]. assert (h' = h) as -> by lia.
    simpl. rewrite <- concat_snoc. apply (push_children_spec h _ ts [o]); try done.
    - unfold TREE_BASE; simpl; lia.
    - by apply Forall_singleton.
    - rewrite concat_snoc. by apply Hsum. }
  destruct (nonempty_snoc ts Hne) as (ts' & t' & ->).
  apply Forall_app in Hts as [Hts' Ht']. rewrite Forall_singleton in Ht'.
  destruct (IH t' Ht' Ho) as (u & r & Hpush & Hu & Hr & Happ); [lia|].
  rewrite update_last_with_snoc, Hpush. simpl.
  rewrite (fmap_app tree_summary). simpl. rewrite update_last_with_snoc. simpl. rewrite length_app in Hlen. simpl in Hlen.
  assert (to_list (Internal (Datatypes.S h) (sum_items (concat (map to_list (ts' ++ [t']))))
    (tree_summary <$> (ts' ++ [t'])) (ts' ++ [t'])) ++ to_list o =
    concat (map to_list ((ts' ++ [u]) ++ option_list r))) as Hl.
  { simpl. rewrite !concat_snoc, map_app, concat_app, concat_snoc, <- !app_assoc.
    f_equal. rewrite <- Happ. destruct r; simpl; by rewrite ?app_nil_r. }
  simpl in Hl. rewrite Hl.
  change [tree_summary u] with (tree_summary <$> [u]). rewrite <- fmap_app.
  assert (add_summary (sum_items (concat (map to_list (ts' ++ [t'])))) (tree_summary o) =
    sum_items (concat (map to_list ((ts' ++ [u]) ++ option_list r)))) as Hs.
  { rewrite <- Hl. by apply Hsum. }
  assert (length (ts' ++ [u]) ≤ 2 * TREE_BASE) by (rewrite length_app; simpl; lia).
  assert (Forall (wf_child h) (ts' ++ [u])) by (by apply Forall_app; rewrite Forall_singleton).
  assert (0 < 2 * TREE_BASE) by (unfold TREE_BASE; lia).
  assert (ts' ++ [u] ≠ []) by (by destruct ts').
  destruct r as [s|]; simpl.
  - apply (push_children_spec h _ (ts' ++ [u]) [s]); simpl; try done; try lia.
    by rewrite Forall_singleton.
  - apply (push_children_spec h _ (ts' ++ [u]) []); simpl; done || lia.
Qed.

(** [merge_into_right] and [append_large] return the right part first. *)
Definition appended (h : nat) (l : list T) (res : option (tree * option tree)) : Prop :=
  ∃ t r, res = Some (t, r) ∧ wf_child h t ∧ opt_wf h r ∧ opt_list r ++ to_list t = l.

Lemma split_children h ts :
  Forall (wf_child h) ts → 2 * TREE_BASE < length ts → length ts ≤ 4 * TREE_BASE →
  let m := midpoint (length ts) in
  wf_child (Datatypes.S h) (Internal (Datatypes.S h) (sum (tree_summary <$> take m ts))
    (tree_summary <$> take m ts) (take m ts)) ∧
  wf_child (Datatypes.S h) (Internal (Datatypes.S h) (sum (tree_summary <$> drop m ts))
    (tree_summary <$> drop m ts) (drop m ts)).
Proof.
  intros Hts Hgt Hle m. destruct (midpoint_spec _ Hgt Hle) as (? & ? & ?).
  split; apply wf_internal_sum; rewrite ?length_take, ?length_drop; try done;
    try lia; try (by apply Forall_take || by apply Forall_drop).
  - intros E%(f_equal length). rewrite length_take in E. simpl in E. lia.
  - intros E%(f_equal length). rewrite length_drop in E. simpl in E. lia.
Qed.

Lemma split_leaf l :
  valid_items l → 2 * TREE_BASE < length l → length l ≤ 4 * TREE_BASE →
  let m := midpoint (length l) in
  wf_child 0 (Leaf (sum (item_summary <$> take m l)) (take m l) (item_summary <$> take m l)) ∧
  wf_child 0 (Leaf (sum (item_summary <$> drop m l)) (drop m l) (item_summary <$> drop m l)).
Proof.
  intros Hv Hgt Hle m. destruct (midpoint_spec _ Hgt Hle) as (? & ? & ?).
  split; apply wf_leaf_sum; rewrite ?length_take, ?length_drop; try done;
    try lia; try (by apply Forall_take || by apply Forall_drop).
  - intros E%(f_equal length). rewrite length_take in E. simpl in E. lia.
  - intros E%(f_equal length). rewrite length_drop in E. simpl in E. lia.
Qed.

Lemma merge_into_right_spec h s t :
  wf_child h s → wf_child h t →
  appended h (to_list s ++ to_list t) (merge_into_right s t).
Proof.
  intros Hs Ht. unfold appended. destruct h as [|h].
  - apply wf_child_leaf in Hs as (l & -> & ? & ? & ?), Ht as (l' & -> & ? & ? & ?). simpl.
    assert (valid_items (l ++ l')) as Hall by (by apply valid_items_app).
    rewrite <- fmap_app, div_ceil2_midpoint. case_decide as Hc.
    + rewrite !arrayvec_ok by (rewrite ?length_fmap, ?length_app; lia). simpl.
      eexists _, _. split_and!; [done| |done|done]. split; [|simpl; by destruct l].
      simpl. split_and!; [done|by rewrite sum_items_app|rewrite length_app; lia|done].
    + rewrite <- length_app, <- fmap_take, <- fmap_drop.
      destruct (split_leaf (l ++ l')) as [? ?]; [done|rewrite length_app; lia..|].
      destruct (midpoint_spec (length (l ++ l'))) as (? & ? & ?); [rewrite length_app; lia..|].
      rewrite !arrayvec_ok by (rewrite ?length_fmap, ?length_take, ?length_drop; lia). simpl.
      eexists _, _. split_and!; [done..|]. simpl. by rewrite take_drop.
  - destruct Hs as [Hs _], Ht as [Ht _].
    apply wf_internal_inv in Hs as (ls & -> & ? & ? & Hls), Ht as (lt & -> & ? & ? & Hlt). simpl.
    assert (Forall (wf_child h) (ls ++ lt)) as Hall by (by apply Forall_app).
    rewrite <- fmap_app, div_ceil2_midpoint. case_decide as Hc.
    + rewrite !arrayvec_ok by (rewrite ?length_fmap, ?length_app; lia). simpl.
      eexists _, _. split_and!; [done| |done|].
      * apply wf_internal; [done| |rewrite length_app; lia|by destruct ls|done].
        rewrite map_app, concat_app, sum_items_app; eauto using wf_children_valid.
        by eapply concat_nonempty.
      * simpl. by rewrite map_app, concat_app.
    + rewrite Nat.add_comm, <- length_app, <- fmap_take, <- fmap_drop.
      destruct (split_children h (ls ++ lt)) as [? ?]; [done|rewrite length_app; lia..|].
      destruct (midpoint_spec (length (ls ++ lt))) as (? & ? & ?); [rewrite length_app; lia..|].
      rewrite !arrayvec_ok by (rewrite ?length_fmap, ?length_take, ?length_drop; lia). simpl.
      eexists _, _. split_and!; [done..|]. simpl.
      by rewrite <- concat_app, <- map_app, take_drop, map_app, concat_app.
Qed.

Lemma append_large_spec h' s h t :
  wf_child h' s → wf_child h t → h' ≤ h →
  appended h (to_list s ++ to_list t) (append_large s t).
Proof.
  revert t. induction h as [|h IH]; intros t Hs Ht Hle; (destruct (Hs) as [Hws Hnes]).
  { assert (h' = 0) as -> by lia. destruct (Ht) as [Hwt _]. destruct t; [|done].
    simpl append_large. rewrite (wf_height _ _ Hws). simpl node_height.
    destruct (is_underflowing s).
    - by apply merge_into_right_spec.
    - by eexists _, _. }
  destruct (Ht) as [Hwt _]. apply wf_internal_inv in Hwt as (ts & -> & Hlen & Hne & Hts).
  simpl append_large. rewrite (wf_height _ _ Hws). case_decide as Hh.
  { subst. destruct (is_underflowing s); [by apply merge_into_right_spec|by eexists _, _]. }
  destruct ts as [|t ts]; [done|]. apply Forall_cons in Hts as [Ht1 Hts].
  destruct (IH t Hs Ht1) as (u & r & Happ & Hu & Hr & Hl); [lia|].
  simpl. rewrite Happ. simpl.
  assert (add_summary (tree_summary s) (sum_items (to_list t ++ concat (map to_list ts))) =
    sum_items (to_list s ++ to_list t ++ concat (map to_list ts))) as Hsum.
  { rewrite (wf_summary _ _ Hws), <- sum_items_app; [done|by eapply wf_valid| |].
    - apply valid_items_app. split; [eapply wf_valid, Ht1|by eapply wf_children_valid].
    - destruct Ht1 as [_ Ht1]. by destruct (to_list t). }
  rewrite Hsum. clear Hsum. simpl in Hlen.
  assert (Forall (wf_child h) (u :: ts)) as Hall by (by apply Forall_cons).
  destruct r as [v|]; simpl in Hl, Hr; unfold appended.
  - assert (Forall (wf_child h) (v :: u :: ts)) as Hall' by (by apply Forall_cons).
    case_decide as Hc.
    + rewrite !arrayvec_ok by (simpl; rewrite ?length_fmap; simpl in *; lia). simpl.
      eexists _, _. split_and!; [done| |done|].
      * apply wf_internal; [done| |simpl in *; lia|done|done].
        simpl. by rewrite !(assoc_L (++)), Hl.
      * simpl. by rewrite !(assoc_L (++)), Hl.
    + simpl length in Hc. assert (length (u :: ts) = 2 * TREE_BASE) as Hlen' by (simpl; lia).
      change (tree_summary u :: list_fmap _ _ tree_summary ts) with (tree_summary <$> (u :: ts)).
      rewrite <- fmap_take, <- fmap_drop.
      rewrite !arrayvec_ok by
        (cbn [length]; rewrite ?length_fmap, ?length_take; unfold TREE_BASE; lia).
      simpl. eexists _, _. split_and!; [done|..].
      * apply wf_internal_sum; [done|rewrite length_drop; lia| |by apply Forall_drop].
        intros E%(f_equal length). rewrite length_drop, Hlen' in E. unfold TREE_BASE in E. simpl in E. lia.
      * apply (wf_internal_sum h _ (v :: take TREE_BASE (u :: ts))); [done| |done|].
        { simpl length. rewrite length_take. unfold TREE_BASE. lia. }
        apply Forall_cons. split; [done|]. by apply Forall_take.
      * transitivity (to_list v ++ concat (map to_list (take TREE_BASE (u :: ts))) ++
          concat (map to_list (drop TREE_BASE (u :: ts)))); [by simpl; rewrite ?(assoc_L (++))|].
        rewrite <- concat_app, <- map_app, take_drop. simpl. by rewrite !(assoc_L (++)), Hl.
  - eexists _, _. split_and!; [done| |done|].
    + apply wf_internal; [done| |simpl in *; lia|done|done]. simpl.
      by rewrite (assoc_L (++)), <- Hl.
    + simpl. by rewrite (assoc_L (++)), <- Hl.
Qed.

(** ** Top-level operations *)

(** The result of an operation: no panic, a well-formed tree, these items. *)
Definition yields (l : list T) (res : option tree) : Prop :=
  ∃ t h, res = Some t ∧ wf h t ∧ to_list t = l.

Lemma from_child_trees_spec h s t :
  wf_child h s → wf_child h t → yields (to_list s ++ to_list t) (from_child_trees s t).
Proof.
  intros Hs Ht. unfold from_child_trees. rewrite (wf_height h s) by apply Hs.
  eexists _, (Datatypes.S h). split_and!; [done| |simpl; by rewrite app_nil_r].
  apply (wf_internal_sum h _ [s; t]); [done|unfold TREE_BASE; simpl; lia|done|].
  by apply Forall_cons; rewrite Forall_singleton.
Qed.

Lemma wf_new : wf 0 tree_new.
Proof. simpl. split_and!; [done|done|lia|constructor]. Qed.

Lemma append_spec h s h' t :
  wf h s → wf h' t → yields (to_list s ++ to_list t) (append s t).
Proof.
  intros Hs Ht. unfold append. rewrite (wf_is_empty _ _ Hs).
  case_bool_decide as Hes; [rewrite Hes; by eexists _, _|].
  assert ((if is_leaf t then items ← node_items t; Some (bool_decide (items ≠ [])) else Some true)
    = Some (bool_decide (to_list t ≠ []))) as ->.
  { pose proof (wf_is_empty _ _ Ht) as He. destruct t; simpl; [done|].
    simpl in He. symmetry in He. apply bool_decide_eq_false in He. by rewrite bool_decide_eq_true_2. }
  simpl. case_bool_decide as Het; [|rewrite Het, app_nil_r; by eexists _, _].
  rewrite (wf_height _ _ Hs), (wf_height _ _ Ht). case_decide as Hlt.
  - destruct (append_large_spec h s h' t) as (u & r & -> & Hu & Hr & <-); [done..|lia|].
    simpl. destruct r as [v|]; simpl.
    + by eapply from_child_trees_spec.
    + eexists _, _. split_and!; [done|apply Hu|done].
  - destruct (push_tree_recursive_spec h s h' t) as (u & r & -> & Hu & Hr & <-); [done..|lia|].
    simpl. destruct r as [v|]; simpl.
    + by eapply from_child_trees_spec.
    + rewrite app_nil_r. eexists _, _. split_and!; [done|apply Hu|done].
Qed.

Lemma push_spec h t x :
  wf h t → valid (item_summary x) → yields (to_list t ++ [x]) (push t x).
Proof.
  intros Ht Hx. unfold push. eapply (append_spec h t 0); [done|].
  simpl. unfold sum_items, sum; simpl. rewrite add_zero_l by done.
  split_and!; [done|done|unfold TREE_BASE; lia|by apply Forall_singleton].
Qed.

End spec.

#[local] Arguments Nat.mul : simpl never.
#[local] Arguments TREE_BASE : simpl never.
#[local] Arguments take : simpl never.
#[local] Arguments drop : simpl never.

Section build.
Context {T S : Type} `{SummaryLaws S, !Item T S}.
Abbreviation tree := (SumTree T S).
Implicit Types (t : tree) (ts : list tree) (l : list T).

(** A row of nodes of one level holding the items [l]. *)
Definition level_row (h : nat) (l : list T) (ts : list tree) : Prop :=
  Forall (wf_child h) ts ∧ concat (map to_list ts) = l.

Lemma level_row_nil h : level_row h [] [].
Proof. by split. Qed.

Lemma level_row_app h l1 l2 ts1 ts2 : level_row h l1 ts1 → level_row h l2 ts2 → level_row h (l1 ++ l2) (ts1 ++ ts2).
Proof.
  intros [? <-] [? <-]. split; [by apply Forall_app|]. by rewrite map_app, concat_app.
Qed.

Lemma level_row_cons h l t ts : wf_child h t → level_row h l ts → level_row h (to_list t ++ l) (t :: ts).
Proof. intros ? [? <-]. split; [by constructor|done]. Qed.

Lemma leaf_of_items_spec l :
  l ≠ [] → length l ≤ 2 * TREE_BASE → valid_items l →
  ∃ t, leaf_of_items l = Some t ∧ wf_child 0 t ∧ to_list t = l.
Proof.
  intros Hne Hlen Hv. unfold leaf_of_items. rewrite arrayvec_ok by done. simpl.
  destruct l as [|x l]; [done|]. simpl. eexists. split_and!; [done| |done].
  apply Forall_cons in Hv as [Hx Hv]. change (list_fmap _ _ item_summary l) with (item_summary <$> l).
  rewrite <- (sum_cons (item_summary x) (item_summary <$> l)); [|done|by apply Forall_fmap].
  apply wf_leaf_sum; [done|done|done|]. by constructor.
Qed.

(** ** [from_iter] *)

Lemma from_iter_leaves_spec fuel l :
  length l ≤ fuel → valid_items l →
  ∃ ts, from_iter_leaves fuel l = Some ts ∧ level_row 0 l ts ∧ length ts ≤ length l.
Proof.
  revert l. induction fuel as [|fuel IH]; intros [|x l] Hf Hv; try (simpl in Hf; lia);
    [by exists []; auto using level_row_nil..|].
  pose proof (take_drop (2 * TREE_BASE) (x :: l)) as Htd.
  rewrite <- Htd in Hv. apply valid_items_app in Hv as [Hv1 Hv2].
  destruct (leaf_of_items_spec (take (2 * TREE_BASE) (x :: l))) as (t & Ht & Hwt & Hlt);
    [done|rewrite length_take; lia|done|].
  destruct (IH (drop (2 * TREE_BASE) (x :: l))) as (ts & Hts & Hrow & Hlen); [|done|].
  { rewrite length_drop. unfold TREE_BASE. simpl in *. lia. }
  exists (t :: ts). simpl from_iter_leaves. rewrite Ht, Hts. split_and!; [done| |].
  - rewrite <- Htd, <- Hlt. by apply level_row_cons.
  - rewrite length_drop in Hlen. unfold TREE_BASE in Hlen. simpl in *. lia.
Qed.

(** The state of the loop that fills the parents: all finished parents are
    full, the current one is neither empty nor full. *)
Definition filling (h : nat) (l : list T) (n : nat) (st : option tree * list tree) : Prop :=
  level_row (Datatypes.S h) l (st.2 ++ option_list st.1) ∧
  match st.1 with
  | None => n = length st.2 * (2 * TREE_BASE)
  | Some t => ∃ ts, node_child_trees t = Some ts ∧ 0 < length ts < 2 * TREE_BASE ∧
      n = length st.2 * (2 * TREE_BASE) + length ts
  end.

Lemma add_to_parent_spec h l n st c :
  filling h l n st → wf_child h c →
  ∃ st', add_to_parent (Datatypes.S h) st c = Some st' ∧ filling h (l ++ to_list c) (Datatypes.S n) st'.
Proof.
  destruct st as [cur ps]. intros [Hrow Hcur] Hc. unfold add_to_parent. simpl in *.
  assert (∃ ts, default (Internal (Datatypes.S h) summary_zero [] []) cur =
      Internal (Datatypes.S h) (sum (tree_summary <$> ts)) (tree_summary <$> ts) ts ∧
      length ts < 2 * TREE_BASE ∧ Forall (wf_child h) ts ∧
      n = length ps * (2 * TREE_BASE) + length ts ∧
      level_row (Datatypes.S h) (concat (map to_list ps)) ps ∧ l = concat (map to_list (ps)) ++ concat (map to_list ts))
    as (ts & -> & Hlen & Hts & -> & Hps & ->).
  { destruct cur as [t|]; simpl in *.
    - destruct Hcur as (ts & Hts & ? & ->). destruct Hrow as [Hrow <-].
      apply Forall_app in Hrow as [Hps Ht]. rewrite Forall_singleton in Ht. destruct Ht as [Ht _].
      apply wf_internal_inv in Ht as (ts' & -> & ? & ? & Hts'). simplify_eq/=.
      exists ts. split_and!; try done; try lia.
      + by rewrite (wf_children_sums h).
      + by rewrite map_app, concat_app; simpl; rewrite app_nil_r.
    - exists []. rewrite app_nil_r in Hrow. destruct Hrow as [Hps <-]. simpl. split_and!; try done.
      all: rewrite ?app_nil_r; first [done | lia | unfold TREE_BASE; lia]. }
  simpl.
  rewrite !arrayvec_ok by (rewrite length_app, ?length_fmap; simpl; lia). simpl.
  assert (wf_child (Datatypes.S h) (Internal (Datatypes.S h)
    (add_summary (sum (tree_summary <$> ts)) (tree_summary c))
    ((tree_summary <$> ts) ++ [tree_summary c]) (ts ++ [c]))) as Hwf.
  { assert (Forall (wf_child h) (ts ++ [c])) by (by apply Forall_app; rewrite Forall_singleton).
    apply wf_internal; try done.
    - by rewrite fmap_app.
    - rewrite (wf_children_sums h), concat_snoc by done. destruct Hc as [Hc Hne].
      by rewrite (wf_summary _ _ Hc), sum_items_app by eauto using wf_children_valid, wf_valid.
    - rewrite length_app; simpl; lia.
    - by destruct ts. }
  assert (level_row (Datatypes.S h) ((concat (map to_list ps) ++ concat (map to_list ts)) ++ to_list c)
    (ps ++ [Internal (Datatypes.S h) (add_summary (sum (tree_summary <$> ts)) (tree_summary c))
      ((tree_summary <$> ts) ++ [tree_summary c]) (ts ++ [c])])) as Hrow'.
  { rewrite <- (assoc_L (++)). apply level_row_app; [done|]. split; [by rewrite Forall_singleton|].
    simpl. by rewrite app_nil_r, map_app, concat_app; simpl; rewrite app_nil_r. }
  rewrite length_app. simpl length.
  case_decide as Hd; (eexists; split; [done|split; simpl]).
  - by rewrite app_nil_r.
  - rewrite length_app. simpl. lia.
  - done.
  - eexists. split; [done|]. rewrite length_app. simpl. lia.
Qed.

Lemma fill_spec h nodes : ∀ l n st,
  filling h l n st → Forall (wf_child h) nodes →
  ∃ st', foldl_opt (add_to_parent (Datatypes.S h)) st nodes = Some st' ∧
    filling h (l ++ concat (map to_list nodes)) (n + length nodes) st'.
Proof.
  induction nodes as [|c nodes IH]; intros l n st Hst Hn; simpl.
  - exists st. by rewrite app_nil_r, Nat.add_0_r.
  - apply Forall_cons in Hn as [Hc Hn].
    destruct (add_to_parent_spec h l n st c) as (st1 & -> & Hst1); [done..|]. simpl.
    destruct (IH _ _ _ Hst1 Hn) as (st2 & -> & Hst2). exists st2. split; [done|].
    by rewrite (assoc_L (++)), <- Nat.add_succ_comm.
Qed.

(** [nodes] shrinks as long as there are two of them. *)
Definition single (l : list T) (res : option (list tree)) : Prop :=
  match res with
  | Some [] => l = []
  | Some [t] => ∃ h, wf h t ∧ to_list t = l
  | _ => False
  end.

Lemma single_row h l ts : level_row h l ts → length ts ≤ 1 → single l (Some ts).
Proof.
  intros [Hwf <-] Hlen. destruct ts as [|t [|]]; simpl in *; [done| |lia].
  rewrite app_nil_r. rewrite Forall_singleton in Hwf. exists h. by destruct Hwf.
Qed.

Lemma from_iter_levels_spec fuel : ∀ h l nodes,
  length nodes ≤ fuel → level_row h l nodes → single l (from_iter_levels fuel h nodes).
Proof.
  induction fuel as [|fuel IH]; intros h l [|n1 [|n2 nodes]] Hf Hrow; simpl in Hf; try lia;
    try (apply (single_row h); [done|simpl; lia]).
  cbn [from_iter_levels]. destruct Hrow as [Hwf Hl].
  destruct (fill_spec h (n1 :: n2 :: nodes) [] 0 (None, [])) as ([cur ps] & -> & Hrow & Hcnt).
  { split; [apply level_row_nil|done]. }
  { done. }
  rewrite app_nil_l, Hl in Hrow. apply (IH (Datatypes.S h)); [|done].
  rewrite length_app. simpl in *. destruct cur as [t|]; simpl in *.
  - destruct Hcnt as (ts & _ & ? & ?). unfold TREE_BASE in *. lia.
  - unfold TREE_BASE in *. lia.
Qed.

Lemma single_yields l res :
  single l res → yields l (nodes ← res; match nodes with [] => Some tree_new | _ => last nodes end).
Proof.
  unfold single, yields. destruct res as [[|t [|]]|]; simpl; try done.
  - intros ->. exists tree_new, 0. split_and!; [done|apply wf_new|done].
  - intros (h & ? & ?). by exists t, h.
Qed.

Lemma from_iter_yields l : valid_items l → yields l (from_iter l).
Proof.
  intros Hv. unfold from_iter.
  destruct (from_iter_leaves_spec (length l) l) as (ts & -> & Hrow & _); [done..|]. simpl.
  by eapply single_yields, from_iter_levels_spec.
Qed.

(** ** [from_par_iter] *)

Lemma chunks_spec {A} n fuel (l : list A) :
  0 < n → length l ≤ fuel →
  concat (chunks fuel n l) = l ∧
  Forall (λ c, c ≠ [] ∧ length c ≤ n) (chunks fuel n l) ∧
  length (chunks fuel n l) * n < length l + n.
Proof.
  intros Hn. revert l. induction fuel as [|fuel IH]; intros [|x l] Hf; try (simpl in Hf; lia);
    [simpl; split_and!; done || lia..|].
  destruct (IH (drop n (x :: l))) as (IH1 & IH2 & IH3).
  { rewrite length_drop. simpl in *. lia. }
  cbn [chunks]. split_and!.
  - simpl. by rewrite IH1, take_drop.
  - constructor; [|done]. split; [destruct n; [lia|done]|]. rewrite length_take. lia.
  - rewrite length_drop in IH3. cbn [length] in *. rewrite Nat.mul_succ_l.
    destruct (length (chunks fuel n (drop n (x :: l)))); nia.
Qed.

Lemma mapM_leaves ls :
  Forall (λ c, c ≠ [] ∧ length c ≤ 2 * TREE_BASE) ls → valid_items (concat ls) →
  ∃ ts, mapM leaf_of_items ls = Some ts ∧ level_row 0 (concat ls) ts ∧ length ts = length ls.
Proof.
  induction 1 as [|c ls [Hne Hlen] _ IH]; intros Hv; simpl in *; [by eexists; auto using level_row_nil|].
  apply valid_items_app in Hv as [Hc Hv]. destruct (IH Hv) as (ts & -> & Hts & <-).
  destruct (leaf_of_items_spec c) as (t & -> & Ht & <-); [done..|]. simpl.
  exists (t :: ts). auto using level_row_cons.
Qed.

Lemma node_of_children_spec h ts :
  ts ≠ [] → length ts ≤ 2 * TREE_BASE → Forall (wf_child h) ts →
  ∃ t, node_of_children (Datatypes.S h) ts = Some t ∧ wf_child (Datatypes.S h) t ∧
    to_list t = concat (map to_list ts).
Proof.
  intros Hne Hlen Hts. unfold node_of_children. rewrite arrayvec_ok by done. simpl.
  destruct ts as [|t ts]; [done|]. simpl. eexists. split_and!; [done| |done].
  change (list_fmap _ _ tree_summary ts) with (tree_summary <$> ts).
  rewrite <- sum_cons.
  - by apply wf_internal_sum.
  - apply Forall_cons in Hts as [[Ht _] _]. rewrite (wf_summary _ _ Ht).
    eauto using sum_items_valid, wf_valid.
  - apply Forall_cons in Hts as [_ Hts]. apply Forall_fmap. eapply Forall_impl; [exact Hts|].
    intros c [Hc _]. simpl. rewrite (wf_summary _ _ Hc). eauto using sum_items_valid, wf_valid.
Qed.

Lemma mapM_nodes h tss :
  Forall (λ c, c ≠ [] ∧ length c ≤ 2 * TREE_BASE) tss → Forall (wf_child h) (concat tss) →
  ∃ ts, mapM (node_of_children (Datatypes.S h)) tss = Some ts ∧
    level_row (Datatypes.S h) (concat (map to_list (concat tss))) ts ∧ length ts = length tss.
Proof.
  induction 1 as [|c ls [Hne Hlen] _ IH]; intros Hv; simpl in *; [by eexists; auto using level_row_nil|].
  apply Forall_app in Hv as [Hc Hv]. destruct (IH Hv) as (ts & -> & Hts & <-).
  destruct (node_of_children_spec h c) as (t & -> & Ht & Hl); [done..|]. simpl.
  exists (t :: ts). split_and!; [done| |done]. rewrite map_app, concat_app, <- Hl. by apply level_row_cons.
Qed.

Lemma from_par_iter_levels_spec fuel : ∀ h l nodes,
  length nodes ≤ fuel → level_row h l nodes → single l (from_par_iter_levels fuel h nodes).
Proof.
  induction fuel as [|fuel IH]; intros h l [|n1 [|n2 nodes]] Hf Hrow; try (simpl in Hf; lia);
    try (apply (single_row h); [done|simpl; lia]).
  cbn [from_par_iter_levels]. destruct Hrow as [Hwf Hl].
  set (all := n1 :: n2 :: nodes) in *.
  destruct (chunks_spec (2 * TREE_BASE) (length all) all) as (Hc1 & Hc2 & Hc3);
    [unfold TREE_BASE; lia|done|].
  destruct (mapM_nodes h (chunks (length all) (2 * TREE_BASE) all)) as (ts & -> & Hts & Hlen);
    [done|by rewrite Hc1|].
  simpl. rewrite Hc1, Hl in Hts. apply (IH (Datatypes.S h)); [|done].
  unfold TREE_BASE in *. rewrite Hlen. subst all. simpl length in *. lia.
Qed.

Lemma from_par_iter_yields l : valid_items l → yields l (from_par_iter l).
Proof.
  intros Hv. unfold from_par_iter.
  destruct (chunks_spec (2 * TREE_BASE) (length l) l) as (Hc1 & Hc2 & _);
    [unfold TREE_BASE; lia|done|].
  destruct (mapM_leaves (chunks (length l) (2 * TREE_BASE) l)) as (ts & -> & Hrow & _);
    [done|by rewrite Hc1|].
  simpl. rewrite Hc1 in Hrow. by eapply single_yields, from_par_iter_levels_spec.
Qed.

Lemma extend_yields h t l : wf h t → valid_items l → yields (to_list t ++ l) (extend t l).
Proof.
  intros Ht Hl. unfold extend. destruct (from_iter_yields l Hl) as (o & h' & -> & Ho & <-).
  by eapply append_spec.
Qed.

Lemma par_extend_yields h t l : wf h t → valid_items l → yields (to_list t ++ l) (par_extend t l).
Proof.
  intros Ht Hl. unfold par_extend. destruct (from_par_iter_yields l Hl) as (o & h' & -> & Ho & <-).
  by eapply append_spec.
Qed.

End build.
