(* ===== verification/SumTreeFind.v ===== *)
(** * SumTreeFind: looking up and editing single items of a tree

    [find], [find_exact], [find_with_prev], [first], [last], [last_summary],
    [update_first] and [update_last] of [crates/sum_tree/src/sum_tree.rs]
    against the sequence of items.  A search is described by the positions
    reached after each item ([ends]); the search of the tree agrees with the
    search of the sequence when the target does not go back along them. *)

From S2P Require Import Prelude SumTree SumTreeSpec.

#[local] Arguments Nat.mul : simpl never.
#[local] Arguments TREE_BASE : simpl never.

(** Comparisons ordered by how far the target lies ahead. *)
Definition rank (c : comparison) : nat := match c with Lt => 0 | Eq => 1 | Gt => 2 end.

Lemma skips_rank c c' bias : rank c ≤ rank c' → skips c bias = true → skips c' bias = true.
Proof. destruct c, c', bias; simpl; lia || done. Qed.

Lemma rank_lt c : rank c = 0 ↔ c = Lt.
Proof. by destruct c. Qed.

(** ** Positions along a sequence of items *)

Section positions.
Context {T S D : Type} `{SummaryLaws S, !Item T S, !Dimension D S, !DimensionLaws D S}.
Implicit Types (l : list T) (d : D).

Fixpoint ends d l : list D :=
  match l with [] => [] | x :: l => let e := dim_add d (item_summary x) in e :: ends e l end.

Definition pos d l : D := foldl (λ d x, dim_add d (item_summary x)) d l.

Lemma pos_app d l1 l2 : pos d (l1 ++ l2) = pos (pos d l1) l2.
Proof. apply foldl_app. Qed.

Lemma pos_snoc d l x : pos d (l ++ [x]) = dim_add (pos d l) (item_summary x).
Proof. apply pos_app. Qed.

Lemma ends_app d l1 l2 : ends d (l1 ++ l2) = ends d l1 ++ ends (pos d l1) l2.
Proof. revert d. induction l1 as [|x l1 IH]; intros d; simpl; [done|]. by rewrite IH. Qed.

Lemma ends_last d l : l ≠ [] → ∃ es, ends d l = es ++ [pos d l].
Proof.
  intros (k & x & ->)%nonempty_snoc. exists (ends d k). by rewrite ends_app, pos_snoc.
Qed.

Lemma pos_valid d l : dvalid d → valid_items l → dvalid (pos d l).
Proof.
  revert d. induction l as [|x l IH]; intros d Hd Hv; simpl; [done|].
  apply Forall_cons in Hv as [??]. apply IH; [|done]. by apply dvalid_add.
Qed.

Lemma dim_add_sum d l :
  dvalid d → valid_items l → l ≠ [] → dim_add d (sum_items l) = pos d l.
Proof.
  induction l as [|x l IH] using rev_ind; intros Hd Hv Hne; [done|].
  apply valid_items_app in Hv as [Hv Hx]. apply valid_items_singleton in Hx as Hx'.
  destruct (decide (l = [])) as [->|Hl].
  - simpl. by rewrite sum_items_singleton.
  - rewrite sum_items_app, pos_snoc, dim_add_add, IH by (done || by apply sum_items_valid).
    by rewrite sum_items_singleton.
Qed.

Lemma dim_add_tree h (t : SumTree T S) d :
  wf h t → to_list t ≠ [] → dvalid d → dim_add d (tree_summary t) = pos d (to_list t).
Proof. intros Hwf Hne Hd. rewrite (wf_summary _ _ Hwf). eapply dim_add_sum; eauto using wf_valid. Qed.

(** The target stays where it is or falls behind as the position advances. *)
Definition ascending (target : SeekTarget D) d l : Prop :=
  StronglySorted (λ a b, rank (target b) ≤ rank (target a)) (ends d l).

Lemma ascending_app target d l1 l2 :
  ascending target d (l1 ++ l2) ↔
  (∀ a b, a ∈ ends d l1 → b ∈ ends (pos d l1) l2 → rank (target b) ≤ rank (target a)) ∧
  ascending target d l1 ∧ ascending target (pos d l1) l2.
Proof. unfold ascending. by rewrite ends_app, StronglySorted_app. Qed.

Lemma ascending_last target d l e :
  ascending target d l → e ∈ ends d l → rank (target (pos d l)) ≤ rank (target e).
Proof.
  intros Hs He. destruct (decide (l = [])) as [->|Hne]; [by apply elem_of_nil in He|].
  destruct (ends_last d l Hne) as [es Hes]. unfold ascending in Hs. rewrite Hes in *.
  apply elem_of_app in He as [He|He%list_elem_of_singleton]; [|by subst].
  apply StronglySorted_app in Hs as [Hs _]. apply Hs; [done|by apply list_elem_of_singleton].
Qed.

(** If the end of a sequence is skipped, so are all its items. *)
Lemma ascending_skips target bias d l :
  ascending target d l → skips (target (pos d l)) bias = true →
  Forall (λ e, skips (target e) bias = true) (ends d l).
Proof.
  intros Hs Hsk. apply Forall_forall. intros e He.
  eapply skips_rank; [|exact Hsk]. by apply ascending_last.
Qed.

(** ** Searching a sequence *)

(** The first item whose end is [found], with the item before it, its end and
    its start; otherwise the position after all items. *)
Fixpoint scan (found : D → bool) (prev : option T) d l : option (option T * T * D) * D :=
  match l with
  | [] => (None, d)
  | x :: l =>
      let e := dim_add d (item_summary x) in
      if found e then (Some (prev, x, e), d) else scan found (Some x) e l
  end.

Definition last_or (prev : option T) l : option T :=
  match last l with Some x => Some x | None => prev end.

Lemma last_or_snoc prev l x : last_or prev (l ++ [x]) = Some x.
Proof. unfold last_or. by rewrite last_snoc. Qed.

Lemma scan_skip found prev d l1 l2 :
  Forall (λ e, found e = false) (ends d l1) →
  scan found prev d (l1 ++ l2) = scan found (last_or prev l1) (pos d l1) l2.
Proof.
  revert prev d. induction l1 as [|x l1 IH]; intros prev d Hf; [done|]. simpl in *.
  apply Forall_cons in Hf as [-> Hf]. rewrite IH by done. f_equal.
  unfold last_or. simpl. destruct l1; [done|]. by destruct (last _) eqn:E; [|apply last_None in E].
Qed.

Lemma scan_found found prev d l1 l2 r p :
  scan found prev d l1 = (Some r, p) → scan found prev d (l1 ++ l2) = (Some r, p).
Proof.
  revert prev d. induction l1 as [|x l1 IH]; intros prev d; simpl; [done|].
  destruct (found _); [done|]. apply IH.
Qed.

Lemma scan_None found prev d l p :
  scan found prev d l = (None, p) ↔ Forall (λ e, found e = false) (ends d l) ∧ p = pos d l.
Proof.
  revert prev d. induction l as [|x l IH]; intros prev d; simpl.
  - rewrite Forall_nil. naive_solver.
  - rewrite Forall_cons. destruct (found _); [naive_solver|]. rewrite IH. naive_solver.
Qed.

Lemma scan_Some found prev d l pv x e p :
  scan found prev d l = (Some (pv, x, e), p) ↔
  ∃ l1 l2, l = l1 ++ x :: l2 ∧ pv = last_or prev l1 ∧ p = pos d l1 ∧
    e = dim_add p (item_summary x) ∧ Forall (λ e, found e = false) (ends d l1) ∧ found e = true.
Proof.
  split.
  - revert prev d. induction l as [|y l IH]; intros prev d; simpl; [done|].
    destruct (found (dim_add d (item_summary y))) eqn:Hf.
    + intros [= <- <- <- <-]. exists [], l. by repeat constructor.
    + intros (l1 & l2 & -> & -> & -> & -> & Hn & He)%IH. exists (y :: l1), l2.
      split_and!; try done; [|by constructor]. unfold last_or. simpl. destruct l1; [done|].
      by destruct (last _) eqn:E; [|apply last_None in E].
  - intros (l1 & l2 & -> & -> & -> & -> & Hn & He). rewrite scan_skip by done. simpl. by rewrite He.
Qed.

(** The position of a search does not depend on the item before. *)
Lemma scan_prev found prev prev' d l :
  (scan found prev d l).2 = (scan found prev' d l).2 ∧
  (λ r, (r.1.2, r.2)) <$> (scan found prev d l).1 = (λ r, (r.1.2, r.2)) <$> (scan found prev' d l).1.
Proof. destruct l; simpl; [done|]. by destruct (found _). Qed.

(** The outcome of a search as a triple of start, end and item. *)
Definition located (found : D → bool) l (p e : D) (r : option (option T * T)) : Prop :=
  match r with
  | Some (prev, x) => ∃ l1 l2, l = l1 ++ x :: l2 ∧ prev = last l1 ∧ p = pos dim_zero l1 ∧
      e = dim_add p (item_summary x) ∧
      Forall (λ e, found e = false) (ends dim_zero l1) ∧ found e = true
  | None => Forall (λ e, found e = false) (ends dim_zero l) ∧
      (l ≠ [] → p = pos dim_zero l ∧ e = pos dim_zero l)
  end.

End positions.

(** ** Searching the tree *)

Section find.
Context {T S D : Type} `{SummaryLaws S, !Item T S, !Dimension D S, !DimensionLaws D S}.
Abbreviation tree := (SumTree T S).
Implicit Types (t : tree) (d : D) (target : SeekTarget D).

Lemma rightmost_leaf_spec h t :
  wf h t → ∃ l k, rightmost_leaf t = Some (Leaf (sum_items l) l (item_summary <$> l)) ∧
    to_list t = k ++ l ∧ (l = [] → to_list t = []).
Proof.
  revert t. induction h as [|h IH]; intros t Hwf.
  - destruct t as [s items sums|]; simpl in Hwf; [|done]. destruct Hwf as (-> & -> & _).
    by exists items, [].
  - apply wf_internal_inv in Hwf as (ts & -> & _ & (k & c & ->)%nonempty_snoc & Hts).
    apply Forall_app in Hts as [_ Hc]. rewrite Forall_singleton in Hc. destruct Hc as [Hc Hne].
    destruct (IH c Hc) as (l & k' & Hl & Hk & He).
    exists l, (concat (map to_list k) ++ k'). split_and!.
    + simpl. clear -Hl. induction k as [|x k IHk]; simpl; [done|]. rewrite <- IHk.
      destruct (k ++ [c]) eqn:E; [by destruct k|done].
    + simpl. rewrite concat_snoc, Hk. by rewrite (assoc_L (++)).
    + intros Hl0. by destruct (Hne (He Hl0)).
Qed.

Lemma leftmost_leaf_spec h t :
  wf h t → ∃ l k, leftmost_leaf t = Some (Leaf (sum_items l) l (item_summary <$> l)) ∧
    to_list t = l ++ k ∧ (l = [] → to_list t = []).
Proof.
  revert t. induction h as [|h IH]; intros t Hwf.
  - destruct t as [s items sums|]; simpl in Hwf; [|done]. destruct Hwf as (-> & -> & _).
    exists items, []. by rewrite app_nil_r.
  - apply wf_internal_inv in Hwf as ([|c k] & -> & _ & ? & Hts); [done|].
    apply Forall_cons in Hts as [[Hc Hne] _]. destruct (IH c Hc) as (l & k' & Hl & Hk & He).
    exists l, (k' ++ concat (map to_list k)). split_and!; [done| |].
    + simpl. rewrite Hk. by rewrite (assoc_L (++)).
    + intros Hl0. by destruct (Hne (He Hl0)).
Qed.

Lemma tree_last_spec h t : wf h t → tree_last t = Some (last (to_list t)).
Proof.
  intros Hwf. destruct (rightmost_leaf_spec _ _ Hwf) as (l & k & Hl & -> & He).
  unfold tree_last. rewrite Hl. simpl. f_equal. rewrite last_app. destruct (last l) eqn:E; [done|].
  apply last_None in E as ->. specialize (He eq_refl). by apply app_eq_nil in He as [-> _].
Qed.

Lemma tree_first_spec h t : wf h t → tree_first t = Some (head (to_list t)).
Proof.
  intros Hwf. destruct (leftmost_leaf_spec _ _ Hwf) as (l & k & Hl & -> & He).
  unfold tree_first. rewrite Hl. simpl. destruct l; [|done].
  specialize (He eq_refl). simpl in He. by rewrite He.
Qed.

Lemma last_summary_spec h t :
  wf h t → last_summary t = Some (item_summary <$> last (to_list t)).
Proof.
  intros Hwf. destruct (rightmost_leaf_spec _ _ Hwf) as (l & k & Hl & -> & He).
  unfold last_summary. rewrite Hl. simpl. change (list_fmap _ _ item_summary l) with (item_summary <$> l).
  rewrite fmap_last, last_app. f_equal. destruct (last l) eqn:E; [done|].
  apply last_None in E as ->. specialize (He eq_refl). by apply app_eq_nil in He as [-> _].
Qed.

(** The search of a leaf is the search of its items. *)
Lemma find_with_prev_leaf exact target bias prev d s items :
  find_with_prev_iterate exact target bias prev d (Leaf s items (item_summary <$> items)) =
  Some (scan (λ e, entry_found exact (target e) bias) prev d items).
Proof.
  simpl. revert prev d. induction items as [|x items IH]; intros prev d; simpl; [done|].
  destruct (entry_found _ _ _); [done|apply IH].
Qed.

Lemma find_leaf exact target bias d s items :
  find_iterate exact target bias d (Leaf s items (item_summary <$> items)) =
  prod_map (fmap (λ r, (r.1.2, r.2))) id (scan (λ e, entry_found exact (target e) bias) None d items).
Proof.
  simpl. revert d. generalize (@None T).
  induction items as [|x items IH]; intros prev d; simpl; [done|].
  destruct (entry_found _ _ _); [done|apply IH].
Qed.

Definition not_skipped target bias d : bool := negb (skips (target d) bias).

(** The target lies behind a position, or at it with a bias to the right. *)
Definition behind (target : SeekTarget D) (bias : Bias) (e : D) : Prop :=
  target e = Gt ∨ target e = Eq ∧ bias = Right.

#[export] Instance behind_dec target bias e : Decision (behind target bias e).
Proof. unfold behind. apply _. Defined.

Lemma not_skipped_behind target bias d : not_skipped target bias d = bool_decide (¬ behind target bias d).
Proof.
  unfold not_skipped. destruct (decide (behind target bias d)) as [Hb|Hb].
  - rewrite bool_decide_eq_false_2 by auto. by destruct Hb as [->|[-> ->]].
  - rewrite bool_decide_eq_true_2 by done. unfold behind in Hb. destruct (target d), bias; naive_solver.
Qed.

Lemma located_ext (f g : D → bool) l p e r : (∀ d, f d = g d) → located f l p e r → located g l p e r.
Proof.
  intros Hfg. unfold located. destruct r as [[prev x]|].
  - intros (l1 & l2 & ? & ? & ? & ? & Hf & He). exists l1, l2. split_and!; try done; [|by rewrite <- Hfg].
    eapply Forall_impl; [exact Hf|]. intros y. simpl. by rewrite Hfg.
  - intros [Hf ?]. split; [|done]. eapply Forall_impl; [exact Hf|]. intros y. simpl. by rewrite Hfg.
Qed.


(** What the search of a subtree has to agree with.  For an exact search only
    the outcome is fixed, and the position when there is one. *)
Definition agrees (exact : bool) target bias prev d (l : list T)
    (res : option (option T * T * D) * D) : Prop :=
  if exact then
    match scan (λ e, entry_found true (target e) bias) prev d l with
    | (Some r, p) => res = (Some r, p)
    | (None, _) => res.1 = None
    end
  else res = scan (not_skipped target bias) prev d l.

Definition allowed (exact : bool) (bias : Bias) : Prop := exact = true → bias = Left.

Lemma agrees_skip exact target bias prev d l1 l2 res :
  ascending target d l1 → allowed exact bias → skips (target (pos d l1)) bias = true →
  agrees exact target bias (last_or prev l1) (pos d l1) l2 res →
  agrees exact target bias prev d (l1 ++ l2) res.
Proof.
  intros Hs Ha Hsk. pose proof (ascending_skips _ _ _ _ Hs Hsk) as Hall.
  unfold agrees. destruct exact.
  - rewrite (Ha eq_refl) in *. rewrite scan_skip; [done|]. eapply Forall_impl; [exact Hall|].
    intros e. simpl. by destruct (target e).
  - rewrite scan_skip; [done|]. eapply Forall_impl; [exact Hall|].
    intros e. unfold not_skipped. simpl. by intros ->.
Qed.

Lemma agrees_descend exact target bias prev d l1 l2 res :
  ascending target d (l1 ++ l2) → l1 ≠ [] → allowed exact bias →
  skips (target (pos d l1)) bias = false →
  agrees exact target bias prev d l1 res → agrees exact target bias prev d (l1 ++ l2) res.
Proof.
  intros Hs Hne Ha Hsk. apply ascending_app in Hs as (Hs12 & _ & _).
  destruct (ends_last d l1 Hne) as [es Hes].
  assert (pos d l1 ∈ ends d l1) as Hin.
  { rewrite Hes. apply elem_of_app. right. by apply list_elem_of_singleton. }
  unfold agrees. destruct exact.
  - rewrite (Ha eq_refl) in *. destruct (scan _ prev d l1) as [[r|] p] eqn:Hsc.
    { by rewrite (scan_found _ _ _ _ _ _ _ Hsc). }
    intros Hres. apply scan_None in Hsc as [Hall ->]. rewrite scan_skip by done.
    assert (target (pos d l1) = Lt) as Hlt.
    { rewrite Forall_forall in Hall. specialize (Hall _ Hin). simpl in *. by destruct (target _). }
    assert (Forall (λ e, entry_found true (target e) Left = false) (ends (pos d l1) l2)) as Hno.
    { apply Forall_forall. intros e He. specialize (Hs12 _ _ Hin He). rewrite Hlt in Hs12.
      simpl. destruct (target e); simpl in *; [lia|done|done]. }
    destruct (scan _ _ _ l2) as [[r|] q] eqn:E; [|done].
    assert (scan (λ e, entry_found true (target e) Left) (last_or prev l1) (pos d l1) l2 =
      (None, pos (pos d l1) l2)) as E' by (by apply scan_None). congruence.
  - intros ->. destruct (scan _ prev d l1) as [[r|] p] eqn:Hsc.
    { by rewrite (scan_found _ _ _ _ _ _ _ Hsc). }
    apply scan_None in Hsc as [Hall _]. rewrite Forall_forall in Hall. specialize (Hall _ Hin).
    unfold not_skipped in Hall. rewrite Hsk in Hall. done.
Qed.

Lemma agrees_nil exact target bias prev d : agrees exact target bias prev d [] (None, d).
Proof. by destruct exact. Qed.

Lemma agrees_scan exact target bias prev d l :
  agrees exact target bias prev d l (scan (λ e, entry_found exact (target e) bias) prev d l).
Proof.
  unfold agrees. destruct exact; [by destruct (scan _ _ _ _) as [[]]|].
  revert prev d. induction l as [|x l IH]; intros prev d; simpl; [done|].
  unfold not_skipped at 1. rewrite target_in_child_skips. destruct (negb _); [done|apply IH].
Qed.

Lemma find_with_prev_iterate_spec exact target bias h t : ∀ prev d,
  allowed exact bias → wf h t → dvalid d → ascending target d (to_list t) →
  ∃ res, find_with_prev_iterate exact target bias prev d t = Some res ∧
    agrees exact target bias prev d (to_list t) res.
Proof.
  revert t. induction h as [|h IH]; intros t prev d Ha Hwf Hd Hs.
  { destruct t as [s items sums|]; simpl in Hwf; [|done]. destruct Hwf as (-> & -> & _).
    rewrite find_with_prev_leaf. eexists. split; [done|]. apply agrees_scan. }
  apply wf_internal_inv in Hwf as (ts & -> & _ & _ & Hts). simpl in Hs |- *.
  revert prev d Hd Hs. induction Hts as [|c ts [Hc Hne] Hts IHts]; intros prev d Hd Hs; simpl in Hs |- *.
  { eexists. split; [done|]. apply agrees_nil. }
  rewrite (dim_add_tree h) by done. rewrite target_in_child_skips.
  destruct (skips _ _) eqn:Hsk; simpl.
  - rewrite (tree_last_spec h) by done. simpl.
    apply ascending_app in Hs as (_ & Hs1 & Hs2).
    destruct (IHts (last (to_list c)) (pos d (to_list c))) as (res & Hres & Hagr);
      [by eapply pos_valid, wf_valid|done|].
    exists res. split; [done|]. apply agrees_skip; try done. unfold last_or.
    destruct (last _) eqn:E; [done|]. by apply last_None in E.
  - destruct (IH c prev d Ha Hc Hd) as (res & Hres & Hagr);
      [apply ascending_app in Hs as (_ & Hs1 & _); exact Hs1|].
    exists res. split; [done|]. by apply agrees_descend.
Qed.

(** [find_iterate] is [find_with_prev_iterate] without the previous item. *)
Lemma find_iterate_with_prev exact target bias h t : ∀ prev d res,
  wf h t → find_with_prev_iterate exact target bias prev d t = Some res →
  find_iterate exact target bias d t = prod_map (fmap (λ r, (r.1.2, r.2))) id res.
Proof.
  revert t. induction h as [|h IH]; intros t prev d res Hwf.
  { destruct t as [s items sums|]; simpl in Hwf; [|done]. destruct Hwf as (-> & -> & _).
    rewrite find_with_prev_leaf, find_leaf. intros [= <-].
    destruct (scan_prev (λ e, entry_found exact (target e) bias) None prev d items) as [E1 E2].
    destruct (scan _ None d items), (scan _ prev d items). unfold prod_map. simpl in *. by rewrite E1, E2. }
  apply wf_internal_inv in Hwf as (ts & -> & _ & _ & Hts). simpl.
  revert prev d. induction Hts as [|c ts [Hc Hne] Hts IHts]; intros prev d; simpl; [naive_solver|].
  destruct (target_in_child _ _); [by apply IH|]. rewrite (tree_last_spec h) by done. apply IHts.
Qed.

Lemma find_gen_spec exact target bias h t :
  allowed exact bias → wf h t → ascending target dim_zero (to_list t) → to_list t ≠ [] →
  ∃ res, agrees exact target bias None dim_zero (to_list t) res ∧
    find_gen exact t target bias =
      match res with
      | (Some (prev, x, e), p) => (p, e, Some x)
      | (None, p) => (p, p, None)
      end ∧
    (exact = false → find_with_prev t target bias = Some
      match res with
      | (Some (prev, x, e), p) => (p, e, Some (prev, x))
      | (None, p) => (p, p, None)
      end).
Proof.
  intros Ha Hwf Hs Hne. unfold find_gen, find_with_prev.
  rewrite (dim_add_tree h) by (done || apply dvalid_zero).
  destruct (skips _ _) eqn:Hsk.
  - exists (None, pos dim_zero (to_list t)). split; [|done].
    rewrite <- (app_nil_r (to_list t)) at 1. apply agrees_skip; try done. apply agrees_nil.
  - destruct (find_with_prev_iterate_spec exact target bias h t None dim_zero) as (res & Hres & Hagr);
      [done|done|apply dvalid_zero|done|].
    exists res. split; [done|]. rewrite (find_iterate_with_prev _ _ _ _ _ _ _ _ Hwf Hres).
    split; [by destruct res as [[[[]]|]]|]. intros ->. rewrite Hres. simpl.
    by destruct res as [[[[]]|]].
Qed.

Lemma located_scan found (l : list T) :
  l ≠ [] →
  match scan found None dim_zero l with
  | (Some (prev, x, e), p) => located found l p e (Some (prev, x))
  | (None, p) => located found l p p None
  end.
Proof.
  intros Hne. destruct (scan _ _ _ _) as [[[[prev x] e]|] p] eqn:E; simpl.
  - apply scan_Some in E as (l1 & l2 & -> & -> & -> & -> & ? & ?).
    exists l1, l2. split_and!; try done. unfold last_or. by destruct (last l1).
  - by apply scan_None in E as [? ->].
Qed.

End find.

(** ** Updating the last and the first item *)

Section update.
Context {T S : Type} `{SummaryLaws S, !Item T S}.
Abbreviation tree := (SumTree T S).
Implicit Types (t : tree) (l : list T).

Lemma update_last_recursive_spec {R} (f : T → option (T * R)) h t k x y r :
  wf h t → to_list t = k ++ [x] → f x = Some (y, r) → valid (item_summary y) →
  ∃ t', update_last_recursive f t = Some (t', Some (tree_summary t', r)) ∧
    wf h t' ∧ to_list t' = k ++ [y].
Proof.
  intros Hwf Hl Hf Hx. revert t k Hwf Hl. induction h as [|h IH]; intros t k Hwf Hl.
  - destruct t as [s items sums|]; simpl in Hwf; [|done]. destruct Hwf as (-> & -> & Hlen & Hv).
    simpl in Hl. subst items. rewrite fmap_app. simpl. rewrite !last_snoc, update_last_with_snoc, Hf. simpl.
    rewrite update_last_with_snoc. simpl. apply valid_items_app in Hv as [Hv _].
    eexists (Leaf _ _ _). split; [reflexivity|]. simpl. split_and!; [by rewrite fmap_app| |rewrite length_app in *; simpl in *; lia| |done].
    + unfold sum_items. by rewrite fmap_app.
    + apply valid_items_app. split; [done|]. by apply valid_items_singleton.
  - apply wf_internal_inv in Hwf as (ts & -> & Hlen & (cs & c & ->)%nonempty_snoc & Hts).
    apply Forall_app in Hts as [Hcs Hc]. rewrite Forall_singleton in Hc. destruct Hc as [Hc Hne].
    simpl in Hl. rewrite concat_snoc in Hl.
    destruct (nonempty_snoc _ Hne) as (kc & z & Hy). rewrite Hy, (assoc_L (++)) in Hl.
    apply app_inj_tail in Hl as [Hk ->].
    destruct (IH c kc Hc Hy) as (c' & Hc' & Hwf' & Hl').
    simpl. rewrite update_last_with_snoc, Hc'. simpl.
    rewrite (fmap_app tree_summary). simpl. rewrite update_last_with_snoc. simpl.
    assert (wf_child (Datatypes.S h) (Internal (Datatypes.S h)
      (sum ((tree_summary <$> cs) ++ [tree_summary c'])) ((tree_summary <$> cs) ++ [tree_summary c'])
      (cs ++ [c']))) as [Hw _].
    { apply wf_internal_sum; [by rewrite fmap_app|rewrite length_app in *; simpl in *; lia|by destruct cs|].
      apply Forall_app. rewrite Forall_singleton. split; [done|]. split; [done|].
      rewrite Hl'. by destruct kc. }
    eexists (Internal _ _ _ _). split; [reflexivity|]. split; [exact Hw|]. simpl. rewrite concat_snoc, Hl', <- Hk.
    by rewrite !(assoc_L (++)).
Qed.

Lemma update_first_recursive_spec {R} (f : T → option (T * R)) h t x k y r :
  wf h t → to_list t = x :: k → f x = Some (y, r) → valid (item_summary y) →
  ∃ t', update_first_recursive f t = Some (t', Some (tree_summary t', r)) ∧
    wf h t' ∧ to_list t' = y :: k.
Proof.
  intros Hwf Hl Hf Hx. revert t k Hwf Hl. induction h as [|h IH]; intros t k Hwf Hl.
  - destruct t as [s items sums|]; simpl in Hwf; [|done]. destruct Hwf as (-> & -> & Hlen & Hv).
    simpl in Hl. subst items. simpl. rewrite Hf. apply Forall_cons in Hv as [_ Hv].
    eexists (Leaf _ _ _). split; [reflexivity|]. simpl. split_and!; [done|done|done| |done]. by constructor.
  - apply wf_internal_inv in Hwf as ([|c cs] & -> & Hlen & ? & Hts); [done|].
    apply Forall_cons in Hts as [[Hc Hne] Hcs]. simpl in Hl.
    destruct (to_list c) as [|z kc] eqn:Hy; [done|]. injection Hl as -> Hk.
    destruct (IH c kc Hc Hy) as (c' & Hc' & Hwf' & Hl'). simpl. rewrite Hc'. simpl.
    assert (wf_child (Datatypes.S h) (Internal (Datatypes.S h)
      (sum (tree_summary <$> c' :: cs)) (tree_summary <$> c' :: cs) (c' :: cs))) as [Hw _].
    { apply wf_internal_sum; [done..|]. constructor; [|done]. split; [done|]. by rewrite Hl'. }
    eexists (Internal _ _ _ _). split; [reflexivity|]. split; [exact Hw|]. simpl. by rewrite Hl', <- Hk.
Qed.

Lemma update_last_spec {R} (f : T → option (T * R)) h t k x y r :
  wf h t → to_list t = k ++ [x] → f x = Some (y, r) → valid (item_summary y) →
  ∃ t', update_last f t = Some (t', Some r) ∧ wf h t' ∧ to_list t' = k ++ [y].
Proof.
  intros. destruct (update_last_recursive_spec f h t k x y r) as (u & Hu & ? & ?); [done..|].
  unfold update_last. rewrite Hu. by exists u.
Qed.

Lemma update_first_spec {R} (f : T → option (T * R)) h t k x y r :
  wf h t → to_list t = x :: k → f x = Some (y, r) → valid (item_summary y) →
  ∃ t', update_first f t = Some (t', Some r) ∧ wf h t' ∧ to_list t' = y :: k.
Proof.
  intros. destruct (update_first_recursive_spec f h t x k y r) as (u & Hu & ? & ?); [done..|].
  unfold update_first. rewrite Hu. by exists u.
Qed.

Lemma update_empty {R} (f : T → option (T * R)) h t :
  wf h t → to_list t = [] → update_last f t = Some (t, None) ∧ update_first f t = Some (t, None).
Proof.
  intros Hwf Hl. pose proof (wf_is_empty _ _ Hwf) as He. rewrite bool_decide_eq_true_2 in He by done.
  destruct t; [|done]. simpl in Hl. subst items. destruct h; [|done]. by destruct Hwf as (-> & _).
Qed.

End update.
