(* ===== verification/Cursor.v ===== *)
(** * Cursor: moving through a tree

    Models [crates/sum_tree/src/cursor.rs]: [Cursor] with its seeks and
    searches, [FilterCursor], [Iter], the trait [SeekAggregate] with its three
    implementations, and [SumTree::items].  The stack is a list whose head is
    its top; pushing beyond the capacity of 16 panics, and every panic is a
    result [None].  A loop of the code is a step function on its state run by
    [run] with a bound on the number of its rounds, [cost] of the tree, which
    [CursorSpec] shows to be enough. *)

From S2P Require Import Prelude SumTree.

(** ** [trait SeekAggregate] *)

Class SeekAggregate (A T S : Type) : Type := {
  begin_leaf : A → A;
  end_leaf : A → option A;
  push_item : A → T → S → option A;
  push_tree : A → SumTree T S → S → option A
}.

#[export] Instance unit_seek_aggregate {T S} : SeekAggregate unit T S :=
  {| begin_leaf a := a; end_leaf a := Some a; push_item a _ _ := Some a; push_tree a _ _ := Some a |}.

Record SliceSeekAggregate (T S : Type) : Type := {
  slice_tree : SumTree T S;
  leaf_items : list T;
  leaf_item_summaries : list S;
  leaf_summary : S
}.
Arguments slice_tree {T S}. Arguments leaf_items {T S}.
Arguments leaf_item_summaries {T S}. Arguments leaf_summary {T S}.

#[export] Instance slice_seek_aggregate {T S} `{Summary S} :
    SeekAggregate (SliceSeekAggregate T S) T S :=
  {| begin_leaf a := a;
     end_leaf a :=
       tree ← append (slice_tree a)
                (Leaf (leaf_summary a) (leaf_items a) (leaf_item_summaries a));
       Some {| slice_tree := tree; leaf_items := []; leaf_item_summaries := [];
               leaf_summary := summary_zero |};
     push_item a item summary :=
       items ← arrayvec (leaf_items a ++ [item]);
       summaries ← arrayvec (leaf_item_summaries a ++ [summary]);
       Some {| slice_tree := slice_tree a; leaf_items := items; leaf_item_summaries := summaries;
               leaf_summary := add_summary (leaf_summary a) summary |};
     push_tree a tree _ :=
       tree ← append (slice_tree a) tree;
       Some {| slice_tree := tree; leaf_items := leaf_items a;
               leaf_item_summaries := leaf_item_summaries a; leaf_summary := leaf_summary a |} |}.

Record SummarySeekAggregate (D : Type) : Type := { aggregate : D }.
Arguments aggregate {D}.

#[export] Instance summary_seek_aggregate {D T S} `{Dimension D S} :
    SeekAggregate (SummarySeekAggregate D) T S :=
  {| begin_leaf a := a;
     end_leaf a := Some a;
     push_item a _ summary := Some {| aggregate := dim_add (aggregate a) summary |};
     push_tree a _ summary := Some {| aggregate := dim_add (aggregate a) summary |} |}.

(** ** Loops *)

Inductive outcome (X : Type) := Continue (x : X) | Break (x : X).
Arguments Continue {X}. Arguments Break {X}.

(** [while live { step }]: [None] when a step panics or [fuel] runs out. *)
Fixpoint run {X} (live : X → bool) (step : X → option (outcome X)) (fuel : nat) (x : X) : option X :=
  if live x then
    match fuel with
    | O => None
    | Datatypes.S fuel =>
        o ← step x;
        match o with Continue x => run live step fuel x | Break x => Some x end
    end
  else Some x.

Section cursor.
Context {T S D : Type} `{Summary S, !Item T S, !Dimension D S}.
Abbreviation tree := (SumTree T S).

(** The number of rounds a loop over a whole tree takes at most. *)
Fixpoint cost (t : tree) : nat :=
  match t with
  | Leaf _ items _ => Datatypes.S (length items)
  | Internal _ _ _ child_trees => Datatypes.S (list_sum (map (λ c, Datatypes.S (cost c)) child_trees))
  end.

Record StackEntry : Type := mk_entry {
  entry_tree : tree;
  entry_index : nat;
  entry_position : D
}.

Record Cursor : Type := mk_cursor {
  cursor_tree : tree;
  stack : list StackEntry;
  position : D;
  did_seek : bool;
  at_end : bool
}.
Implicit Types c : Cursor.

(** [ArrayVec<StackEntry, 16>::push]. *)
Definition push_entry (e : StackEntry) (stack : list StackEntry) : option (list StackEntry) :=
  if decide (length stack < 16) then Some (e :: stack) else None.

Definition cursor_new (t : tree) : Cursor :=
  {| cursor_tree := t; stack := []; position := dim_zero; did_seek := false; at_end := is_empty t |}.

Definition reset c : Cursor :=
  {| cursor_tree := cursor_tree c; stack := []; position := dim_zero; did_seek := false;
     at_end := is_empty (cursor_tree c) |}.

Definition start c : D := position c.

Definition assert_did_seek c : option unit := if did_seek c then Some () else None.

(** The outer [option] is the panic, the inner one the result. *)
Definition item c : option (option T) :=
  _ ← assert_did_seek c;
  match stack c with
  | entry :: _ =>
      items ← node_items (entry_tree entry);
      if decide (entry_index entry = length items) then Some None
      else x ← items !! entry_index entry; Some (Some x)
  | [] => Some None
  end.

Definition item_summary_at c : option (option S) :=
  _ ← assert_did_seek c;
  match stack c with
  | entry :: _ =>
      match entry_tree entry with
      | Leaf _ _ item_summaries =>
          if decide (entry_index entry = length item_summaries) then Some None
          else x ← item_summaries !! entry_index entry; Some (Some x)
      | Internal _ _ _ _ => None (* unreachable!() *)
      end
  | [] => Some None
  end.

(** [Cursor::end]. *)
Definition end_ c : option D :=
  s ← item_summary_at c;
  Some (match s with Some item_summary => dim_add (start c) item_summary | None => start c end).

(** [len() - 1]: a [usize] that panics or indexes out of range below zero. *)
Definition pred_len {A} (l : list A) : option nat :=
  match l with [] => None | _ => Some (length l - 1) end.

(** [for entry in self.stack.iter().rev().skip(1)] is a recursion over the tail
    of the stack. *)
Fixpoint next_leaf_from (entries : list StackEntry) : option (option tree) :=
  match entries with
  | [] => Some None
  | entry :: entries =>
      child_trees ← node_child_trees (entry_tree entry);
      n ← pred_len child_trees;
      if decide (entry_index entry < n)
      then child ← child_trees !! Datatypes.S (entry_index entry); leaf ← leftmost_leaf child; Some (Some leaf)
      else next_leaf_from entries
  end.

Definition next_leaf c : option (option tree) := next_leaf_from (tail (stack c)).

Definition next_item c : option (option T) :=
  _ ← assert_did_seek c;
  match stack c with
  | entry :: _ =>
      items ← node_items (entry_tree entry);
      n ← pred_len items;
      if decide (entry_index entry = n) then
        leaf ← next_leaf c;
        match leaf with
        | Some leaf => items ← node_items leaf; x ← head items; Some (Some x)
        | None => Some None
        end
      else x ← items !! Datatypes.S (entry_index entry); Some (Some x)
  | [] => if at_end c then Some None else tree_first (cursor_tree c)
  end.

Fixpoint prev_leaf_from (entries : list StackEntry) : option (option tree) :=
  match entries with
  | [] => Some None
  | entry :: entries =>
      match entry_index entry with
      | O => prev_leaf_from entries
      | Datatypes.S i =>
          child_trees ← node_child_trees (entry_tree entry);
          child ← child_trees !! i; leaf ← rightmost_leaf child; Some (Some leaf)
      end
  end.

Definition prev_leaf c : option (option tree) := prev_leaf_from (tail (stack c)).

Definition prev_item c : option (option T) :=
  _ ← assert_did_seek c;
  match stack c with
  | entry :: _ =>
      match entry_index entry with
      | O =>
          leaf ← prev_leaf c;
          match leaf with
          | Some leaf => items ← node_items leaf; x ← last items; Some (Some x)
          | None => Some None
          end
      | Datatypes.S i => items ← node_items (entry_tree entry); x ← items !! i; Some (Some x)
      end
  | [] => if at_end c then tree_last (cursor_tree c) else Some None
  end.

(** ** Moving forward *)

(** The loops over the children (or items) of one node that are left behind:
    from [index], [position] and [aggregate], as long as there is one that is
    not to be entered. *)
Fixpoint skip_run {X A} (enter : D → S → bool) (push : A → X → S → option A)
    (children : list (X * S)) (index : nat) (position : D) (agg : A) : option (nat * D * A) :=
  match children with
  | [] => Some (index, position, agg)
  | (x, s) :: children =>
      if enter position s then Some (index, position, agg)
      else agg ← push agg x s;
           skip_run enter push children (Datatypes.S index) (dim_add position s) agg
  end.

(** The state of the loops: the stack, [self.position], the aggregate, and
    whether the loop has just descended to the top of the stack. *)
Record walk (A : Type) : Type := mk_walk {
  walk_stack : list StackEntry;
  walk_position : D;
  walk_agg : A;
  walk_descend : bool
}.
#[global] Arguments mk_walk {A}. #[global] Arguments walk_stack {A}. #[global] Arguments walk_position {A}.
#[global] Arguments walk_agg {A}. #[global] Arguments walk_descend {A}.

Definition walk_live {A} (w : walk A) : bool := match walk_stack w with [] => false | _ => true end.

(** [items[index..].iter().zip(&summaries[index..])]; slicing beyond the end panics. *)
Definition zip_from {X} (index : nat) (xs : list X) (ss : list S) : option (list (X * S)) :=
  if decide (index ≤ length xs ∧ index ≤ length ss) then Some (zip (drop index xs) (drop index ss)) else None.

Section seek.
Context {A : Type} `{!SeekAggregate A T S}.

(** One round of ['outer] in [seek_internal]; [ascending] is [¬ walk_descend]. *)
Definition seek_step (enter : D → S → bool) (w : walk A) : option (outcome (walk A)) :=
  match walk_stack w with
  | [] => None
  | entry :: rest =>
      match entry_tree entry with
      | Internal _ _ child_summaries child_trees =>
          let entry := if walk_descend w then entry
                       else mk_entry (entry_tree entry) (Datatypes.S (entry_index entry)) (walk_position w) in
          children ← zip_from (entry_index entry) child_trees child_summaries;
          '(index, position, agg) ←
            skip_run enter push_tree children (entry_index entry) (walk_position w) (walk_agg w);
          match children !! (index - entry_index entry) with
          | Some (child_tree, _) =>
              let entry := if decide (index = entry_index entry) then entry
                           else mk_entry (entry_tree entry) index position in
              stack ← push_entry (mk_entry child_tree 0 position) (entry :: rest);
              Some (Continue (mk_walk stack position agg true))
          | None => Some (Continue (mk_walk rest position agg false))
          end
      | Leaf _ items item_summaries =>
          children ← zip_from (entry_index entry) items item_summaries;
          '(index, position, agg) ←
            skip_run enter push_item children (entry_index entry) (walk_position w) (begin_leaf (walk_agg w));
          agg ← end_leaf agg;
          match children !! (index - entry_index entry) with
          | Some _ =>
              let entry := mk_entry (entry_tree entry) index (entry_position entry) in
              Some (Break (mk_walk (entry :: rest) position agg false))
          | None => Some (Continue (mk_walk rest position agg false))
          end
      end
  end.

Definition seek_enter (target : SeekTarget D) (bias : Bias) (position : D) (s : S) : bool :=
  negb (skips (target (dim_add position s)) bias).

(** [seek_internal]: the cursor and the aggregate after it, and whether the
    end reached is the target. *)
Definition seek_internal (target : SeekTarget D) (bias : Bias) (agg : A) (c : Cursor) :
    option (Cursor * A * bool) :=
  match target (position c) with
  | Lt => None (* cannot seek backward *)
  | _ =>
      stack ← (if did_seek c then Some (stack c)
               else push_entry (mk_entry (cursor_tree c) 0 dim_zero) (stack c));
      w ← run walk_live (seek_step (seek_enter target bias)) (cost (cursor_tree c))
            (mk_walk stack (position c) agg true);
      let c := {| cursor_tree := cursor_tree c; stack := walk_stack w; position := walk_position w;
                  did_seek := true;
                  at_end := match walk_stack w with [] => true | _ => false end |} in
      end_ ← (if decide (bias = Left) then end_ c else Some (position c));
      Some (c, walk_agg w, match target end_ with Eq => true | _ => false end)
  end.
End seek.

Definition seek (target : SeekTarget D) (bias : Bias) c : option (Cursor * bool) :=
  '(c, _, found) ← seek_internal target bias () (reset c); Some (c, found).

Definition seek_forward (target : SeekTarget D) (bias : Bias) c : option (Cursor * bool) :=
  '(c, _, found) ← seek_internal target bias () c; Some (c, found).

Definition slice (target : SeekTarget D) (bias : Bias) c : option (Cursor * tree) :=
  '(c, agg, _) ← seek_internal target bias
     {| slice_tree := tree_new; leaf_items := []; leaf_item_summaries := []; leaf_summary := summary_zero |} c;
  Some (c, slice_tree agg).

Definition suffix c : option (Cursor * tree) := slice seek_end Right c.

(** [Cursor::summary]. *)
Definition summary_to {Output} `{!Dimension Output S} (target : SeekTarget D) (bias : Bias) c :
    option (Cursor * Output) :=
  '(c, agg, _) ← seek_internal target bias {| aggregate := dim_zero |} c;
  Some (c, aggregate agg).

(** One round of the loop of [search_forward]; the early [return] is [Break]. *)
Definition forward_step (filter_node : S → bool) (w : walk unit) : option (outcome (walk unit)) :=
  let enter (_ : D) := filter_node in
  match walk_stack w with
  | [] => None
  | entry :: rest =>
      match entry_tree entry with
      | Internal _ _ child_summaries child_trees =>
          let entry := if walk_descend w then entry
                       else mk_entry (entry_tree entry) (Datatypes.S (entry_index entry)) (walk_position w) in
          let children := drop (entry_index entry) child_summaries in
          let push (p : D) (_ s : S) := Some (dim_add p s) in
          (* [entry.position] and [self.position] advance together *)
          '(index, position, entry_position) ←
            skip_run enter push (zip children children) (entry_index entry) (walk_position w)
              (entry_position entry);
          match child_trees !! index with
          | Some subtree =>
              stack ← push_entry (mk_entry subtree 0 position)
                        (mk_entry (entry_tree entry) index entry_position :: rest);
              Some (Continue (mk_walk stack position () true))
          | None => Some (Continue (mk_walk rest position () false))
          end
      | Leaf _ items item_summaries =>
          '(index, position, entry_position) ←
            (if walk_descend w then Some (entry_index entry, walk_position w, entry_position entry)
             else item_summary ← item_summaries !! entry_index entry;
                  Some (Datatypes.S (entry_index entry), dim_add (walk_position w) item_summary,
                        dim_add (entry_position entry) item_summary));
          let children := drop index item_summaries in
          let push (p : D) (_ s : S) := Some (dim_add p s) in
          '(index, position, entry_position) ←
            skip_run enter push (zip children children) index position entry_position;
          match item_summaries !! index with
          | Some _ =>
              Some (Break (mk_walk (mk_entry (entry_tree entry) index entry_position :: rest)
                             position () false))
          | None => Some (Continue (mk_walk rest position () false))
          end
      end
  end.

Definition search_forward (filter_node : S → bool) c : option Cursor :=
  '(stack, descend, did_seek) ←
    (match stack c with
     | [] => if at_end c then Some ([], false, true)
             else stack ← push_entry (mk_entry (cursor_tree c) 0 dim_zero) []; Some (stack, true, true)
     | stack => Some (stack, false, did_seek c)
     end);
  w ← run walk_live (forward_step filter_node) (cost (cursor_tree c)) (mk_walk stack (position c) () descend);
  Some {| cursor_tree := cursor_tree c; stack := walk_stack w; position := walk_position w;
          did_seek := did_seek;
          at_end := match walk_stack w with
                    | [] => true
                    | _ => at_end c (* the early return leaves it *)
                    end |}.

Definition next c : option Cursor := search_forward (λ _, true) c.

(** ** Moving backward *)

(** One round of the loop of [search_backward]; [walk_descend] is [descending]. *)
Definition backward_step (filter_node : S → bool) (w : walk unit) : option (outcome (walk unit)) :=
  match walk_stack w with
  | [] => None
  | entry :: rest =>
      let position := match rest with below :: _ => entry_position below | [] => dim_zero end in
      if negb (walk_descend w) && (entry_index entry =? 0) then
        Some (Continue (mk_walk rest position () false))
      else
        let index := if walk_descend w then entry_index entry else entry_index entry - 1 in
        let child_summaries := node_child_summaries (entry_tree entry) in
        if decide (index ≤ length child_summaries) then
          let position := foldl dim_add position (take index child_summaries) in
          let entry := mk_entry (entry_tree entry) index position in
          s ← child_summaries !! index;
          let descending := filter_node s in
          match entry_tree entry with
          | Internal _ _ _ child_trees =>
              if descending then
                tree ← child_trees !! index;
                n ← pred_len (node_child_summaries tree);
                stack ← push_entry (mk_entry tree n dim_zero) (entry :: rest);
                Some (Continue (mk_walk stack position () true))
              else Some (Continue (mk_walk (entry :: rest) position () false))
          | Leaf _ _ _ =>
              let w := mk_walk (entry :: rest) position () descending in
              Some (if descending then Break w else Continue w)
          end
        else None
  end.

Definition search_backward (filter_node : S → bool) c : option Cursor :=
  let at_end := if did_seek c then at_end c else true in
  let t := cursor_tree c in
  '(stack, position, at_end) ←
    (if at_end then
       if is_empty t then Some (stack c, dim_zero, true)
       else stack ← push_entry (mk_entry t (length (node_child_summaries t)) (dim_add dim_zero (tree_summary t)))
                      (stack c);
            Some (stack, dim_zero, false)
     else Some (stack c, position c, false));
  w ← run walk_live (backward_step filter_node) (cost t) (mk_walk stack position () false);
  Some {| cursor_tree := t; stack := walk_stack w; position := walk_position w;
          did_seek := true; at_end := at_end |}.

Definition prev c : option Cursor := search_backward (λ _, true) c.

(** ** Iteration *)

(** [impl Iterator for Cursor]. *)
Definition cursor_iterate c : option (Cursor * option T) :=
  c ← (if did_seek c then Some c else next c);
  x ← item c;
  match x with
  | Some x => c ← next c; Some (c, Some x)
  | None => Some (c, None)
  end.

Fixpoint cursor_collect (fuel : nat) c : option (list T) :=
  match fuel with
  | O => None
  | Datatypes.S fuel =>
      '(c, x) ← cursor_iterate c;
      match x with
      | Some x => l ← cursor_collect fuel c; Some (x :: l)
      | None => Some []
      end
  end.

End cursor.
Arguments StackEntry : clear implicits.
Arguments Cursor : clear implicits.
Arguments walk : clear implicits.

(** [FilterCursor]. *)
Section filter_cursor.
Context {T S D : Type} `{Summary S, !Item T S, !Dimension D S}.

Record FilterCursor : Type := { filter_cursor : Cursor T S D; filter_node : S → bool }.

Definition filter_new (t : SumTree T S) (f : S → bool) : FilterCursor :=
  {| filter_cursor := cursor_new t; filter_node := f |}.
Definition filter_start (c : FilterCursor) : D := start (filter_cursor c).
Definition filter_end (c : FilterCursor) : option D := end_ (filter_cursor c).
Definition filter_item (c : FilterCursor) : option (option T) := item (filter_cursor c).
Definition filter_item_summary (c : FilterCursor) : option (option S) := item_summary_at (filter_cursor c).
Definition filter_next (c : FilterCursor) : option FilterCursor :=
  c' ← search_forward (filter_node c) (filter_cursor c);
  Some {| filter_cursor := c'; filter_node := filter_node c |}.
Definition filter_prev (c : FilterCursor) : option FilterCursor :=
  c' ← search_backward (filter_node c) (filter_cursor c);
  Some {| filter_cursor := c'; filter_node := filter_node c |}.

(** [impl Iterator for FilterCursor]. *)
Definition filter_iterate (c : FilterCursor) : option (FilterCursor * option T) :=
  c ← (if did_seek (filter_cursor c) then Some c else filter_next c);
  x ← filter_item c;
  match x with
  | Some x => c ← filter_next c; Some (c, Some x)
  | None => Some (c, None)
  end.

Fixpoint filter_collect (fuel : nat) (c : FilterCursor) : option (list T) :=
  match fuel with
  | O => None
  | Datatypes.S fuel =>
      '(c, x) ← filter_iterate c;
      match x with
      | Some x => l ← filter_collect fuel c; Some (x :: l)
      | None => Some []
      end
  end.

End filter_cursor.
Arguments FilterCursor : clear implicits.

(** [Iter], whose entries have the position [()]. *)
Section iter.
Context {T S : Type}.

Record Iter : Type := { iter_tree : SumTree T S; iter_stack : list (StackEntry T S unit) }.

Definition iter_new (t : SumTree T S) : Iter := {| iter_tree := t; iter_stack := [] |}.

(** One round of the loop of [Iter::next]. *)
Definition iter_step (w : walk T S unit unit) : option (outcome (walk T S unit unit)) :=
  match walk_stack w with
  | [] => None
  | entry :: rest =>
      let index := if walk_descend w then entry_index entry else Datatypes.S (entry_index entry) in
      let entry := mk_entry (entry_tree entry) index () in
      match entry_tree entry with
      | Internal _ _ _ child_trees =>
          match child_trees !! index with
          | Some subtree =>
              stack ← push_entry (mk_entry subtree 0 ()) (entry :: rest);
              Some (Continue (mk_walk stack () () true))
          | None => Some (Continue (mk_walk rest () () false))
          end
      | Leaf _ items _ =>
          match items !! index with
          | Some _ => Some (Break (mk_walk (entry :: rest) () () false))
          | None => Some (Continue (mk_walk rest () () false))
          end
      end
  end.

Definition iter_next (i : Iter) : option (Iter * option T) :=
  let '(stack, descend) := match iter_stack i with
                           | [] => ([mk_entry (iter_tree i) 0 ()], true)
                           | stack => (stack, false)
                           end in
  w ← run walk_live iter_step (cost (iter_tree i)) (mk_walk stack () () descend);
  let i := {| iter_tree := iter_tree i; iter_stack := walk_stack w |} in
  match walk_stack w with
  | entry :: _ => items ← node_items (entry_tree entry); x ← items !! entry_index entry; Some (i, Some x)
  | [] => Some (i, None)
  end.

(** [Iter::last]. *)
Definition iter_last (i : Iter) : option (option T) :=
  leaf ← rightmost_leaf (iter_tree i); items ← node_items leaf; Some (last items).

Fixpoint iter_collect (fuel : nat) (i : Iter) : option (list T) :=
  match fuel with
  | O => None
  | Datatypes.S fuel =>
      '(i, x) ← iter_next i;
      match x with
      | Some x => l ← iter_collect fuel i; Some (x :: l)
      | None => Some []
      end
  end.

End iter.
Arguments Iter : clear implicits.

(** [SumTree::items]: [cursor.next()], then [while let Some(item)]. *)
Fixpoint items_from {T S} `{Summary S, !Item T S} (fuel : nat) (c : Cursor T S unit) : option (list T) :=
  match fuel with
  | O => None
  | Datatypes.S fuel =>
      x ← item c;
      match x with
      | Some x => c ← next c; l ← items_from fuel c; Some (x :: l)
      | None => Some []
      end
  end.

Definition items {T S} `{Summary S, !Item T S} (t : SumTree T S) : option (list T) :=
  c ← next (cursor_new t : Cursor T S unit); items_from (Datatypes.S (cost t)) c.
