(* ===== verification/CursorSpec.v ===== *)
(** * CursorSpec: a cursor is a split of the sequence of items

    The invariant of [Cursor]: the items before and after it, the position
    reached, and a stack that is a path of the tree ([path], [settled]).  The
    forward loops ([seek_internal], [search_forward], [Iter::next]) are
    instances of one [Walker], proved once to stop at the first item that is
    to be entered, within [cost] rounds. *)

From S2P Require Import Prelude SumTree SumTreeSpec SumTreeFind Cursor.

#[local] Arguments Nat.mul : simpl never.
#[local] Arguments TREE_BASE : simpl never.
#[local] Arguments take : simpl never.
#[local] Arguments drop : simpl never.

(** ** Lists *)

Lemma drop_lookup_cons {A} (l : list A) i x : l !! i = Some x → drop i l = x :: drop (Datatypes.S i) l.
Proof. apply drop_S. Qed.

Lemma drop_cons_lookup {A} (l : list A) i x k :
  drop i l = x :: k → l !! i = Some x ∧ drop (Datatypes.S i) l = k.
Proof.
  intros E. assert (l !! i = Some x) as Hx.
  { rewrite <- (Nat.add_0_r i), <- lookup_drop, E. done. }
  split; [done|]. rewrite (drop_lookup_cons _ _ _ Hx) in E. by injection E.
Qed.

Lemma take_S_concat {A B} (f : A → list B) l i x :
  l !! i = Some x → concat (map f (take (Datatypes.S i) l)) = concat (map f (take i l)) ++ f x.
Proof.
  intros Hx. rewrite (take_S_r _ _ _ Hx), map_app, concat_app. simpl. by rewrite app_nil_r.
Qed.

Lemma concat_split {A B} (f : A → list B) l i x :
  l !! i = Some x →
  concat (map f l) = concat (map f (take i l)) ++ f x ++ concat (map f (drop (Datatypes.S i) l)).
Proof.
  intros Hx. rewrite <- (take_drop i l) at 1. rewrite map_app, concat_app. f_equal.
  by rewrite (drop_lookup_cons _ _ _ Hx).
Qed.

(** ** Classes: what an aggregate promises *)

Class SeekAggregateLaws (A T S : Type) `{SummaryLaws S, !Item T S, !SeekAggregate A T S} : Type := {
  (** the aggregate holds these items, and those of the leaf it is in *)
  holds : A → list T → list T → Prop;
  begin_holds a l : holds a l [] → holds (begin_leaf a) l [];
  push_item_holds a l k x :
    holds a l k → length k < 2 * TREE_BASE → valid (item_summary x) →
    ∃ a', push_item a x (item_summary x) = Some a' ∧ holds a' l (k ++ [x]);
  end_holds a l k : holds a l k → ∃ a', end_leaf a = Some a' ∧ holds a' (l ++ k) [];
  push_tree_holds a l h t :
    holds a l [] → wf h t → to_list t ≠ [] →
    ∃ a', push_tree a t (tree_summary t) = Some a' ∧ holds a' (l ++ to_list t) []
}.

#[export] Program Instance unit_seek_aggregate_laws {T S} `{SummaryLaws S, !Item T S} :
    SeekAggregateLaws unit T S := {| holds _ _ _ := True |}.
Solve Obligations with (intros; simpl; eauto).

#[export] Program Instance slice_seek_aggregate_laws {T S} `{SummaryLaws S, !Item T S} :
    SeekAggregateLaws (SliceSeekAggregate T S) T S :=
  {| holds a l k := (∃ h, wf h (slice_tree a)) ∧ to_list (slice_tree a) = l ∧
       leaf_items a = k ∧ leaf_item_summaries a = item_summary <$> k ∧ leaf_summary a = sum_items k ∧
       length k ≤ 2 * TREE_BASE ∧ valid_items k |}.
Next Obligation. done. Qed.
Next Obligation.
  intros T S ??? a l k x (? & <- & Hk & Hs & Hsum & Hlen & Hv) ??. simpl. rewrite Hk, Hs.
  rewrite !arrayvec_ok by (rewrite length_app, ?length_fmap; simpl; lia). simpl.
  eexists. split; [done|]. simpl. rewrite length_app, fmap_app, Hsum. simpl.
  split_and!; try done; try lia.
  - unfold sum_items, sum. by rewrite fmap_app, foldl_app.
  - apply valid_items_app. by rewrite valid_items_singleton.
Qed.
Next Obligation.
  intros T S ??? a l k ([h Hwf] & <- & Hk & Hs & Hsum & Hlen & Hv).
  simpl. rewrite Hk, Hs, Hsum.
  destruct (append_spec h (slice_tree a) 0 (Leaf (sum_items k) k (item_summary <$> k)) Hwf)
    as (t & h' & -> & Ht & Hl); [by simpl|].
  simpl in *. eexists. split; [done|]. simpl. split_and!; [by eexists|done|done|done|done|lia|constructor].
Qed.
Next Obligation.
  intros T S ??? a l h t ([h' Hwf] & <- & Hk & Hs & Hsum & Hlen & Hv) Ht _.
  simpl.
  destruct (append_spec h' (slice_tree a) h t Hwf Ht) as (u & h'' & -> & Hu & Hl). simpl in *.
  eexists. split; [done|]. simpl. split_and!; try done. by eexists.
Qed.

#[export] Program Instance summary_seek_aggregate_laws {D T S}
    `{SummaryLaws S, !Item T S, !Dimension D S, !DimensionLaws D S} :
    SeekAggregateLaws (SummarySeekAggregate D) T S :=
  {| holds a l k := aggregate a = pos dim_zero (l ++ k) ∧ valid_items (l ++ k) |}.
Next Obligation. done. Qed.
Next Obligation.
  intros D T S ????? a l k x [Ha Hv] _ Hx. simpl. eexists. split; [done|]. simpl.
  by rewrite (assoc_L (++)), pos_snoc, Ha, valid_items_app, valid_items_singleton.
Qed.
Next Obligation. intros. simpl. eexists. split; [done|]. by rewrite app_nil_r. Qed.
Next Obligation.
  intros D T S ????? a l h t [Ha Hv] Ht Hne. simpl. eexists. split; [done|]. simpl.
  rewrite app_nil_r in *. rewrite pos_app, Ha, valid_items_app. split; [|eauto using wf_valid].
  eapply dim_add_tree; [done..|]. apply pos_valid; [apply dvalid_zero|done].
Qed.

Section spec.
Context {T S D : Type} `{SummaryLaws S, !Item T S, !Dimension D S, !DimensionLaws D S}.
Abbreviation tree := (SumTree T S).
Abbreviation entry := (StackEntry T S D).
Implicit Types (t : tree) (l b r : list T) (p : D).

(** ** Where a walk stops *)

(** The items before the first one to be entered, and the rest. *)
Fixpoint split_at (enter : D → S → bool) p l : list T * list T :=
  match l with
  | [] => ([], [])
  | x :: l' =>
      if enter p (item_summary x) then ([], l)
      else prod_map (cons x) id (split_at enter (dim_add p (item_summary x)) l')
  end.

Lemma split_at_app enter p l sk rest : split_at enter p l = (sk, rest) → l = sk ++ rest.
Proof.
  revert p sk. induction l as [|x l IH]; intros p sk; simpl; [by intros [= <- <-]|].
  destruct (enter _ _); [by intros [= <- <-]|].
  destruct (split_at _ _ l) as [sk' rest'] eqn:E. simpl. intros [= <- <-]. simpl. by erewrite IH.
Qed.

Lemma split_at_skip enter p l1 l2 :
  split_at enter p l1 = (l1, []) →
  split_at enter p (l1 ++ l2) = prod_map (app l1) id (split_at enter (pos p l1) l2).
Proof.
  revert p. induction l1 as [|x l1 IH]; intros p Hs; simpl in *; [by destruct (split_at _ _ l2)|].
  destruct (enter _ _); [done|]. destruct (split_at enter _ l1) eqn:E. simpl in Hs.
  injection Hs as -> ->. rewrite IH by done. by destruct (split_at _ _ l2).
Qed.

Lemma split_at_stop enter p l1 l2 sk rest :
  split_at enter p l1 = (sk, rest) → rest ≠ [] → split_at enter p (l1 ++ l2) = (sk, rest ++ l2).
Proof.
  revert p sk. induction l1 as [|x l1 IH]; intros p sk; simpl; [naive_solver|].
  destruct (enter _ _); [naive_solver|].
  destruct (split_at _ _ l1) as [sk' rest'] eqn:E. simpl. intros [= <- <-] Hne. by rewrite (IH _ _ E).
Qed.

(** A sequence that is not entered as a whole holds no item to be entered, and adding
    its sum leads to where its items lead. *)
Definition coherent (enter : D → S → bool) p l : Prop :=
  ∀ l1 l2 l3, l = l1 ++ l2 ++ l3 → l2 ≠ [] → enter (pos p l1) (sum_items l2) = false →
    dim_add (pos p l1) (sum_items l2) = pos (pos p l1) l2 ∧ split_at enter (pos p l1) l2 = (l2, []).

Lemma coherent_l enter p l1 l2 : coherent enter p (l1 ++ l2) → coherent enter p l1.
Proof. intros Hc k1 k2 k3 ->. apply (Hc _ _ (k3 ++ l2)). by rewrite !(assoc_L (++)). Qed.

Lemma coherent_r enter p l1 l2 : coherent enter p (l1 ++ l2) → coherent enter (pos p l1) l2.
Proof.
  intros Hc k1 k2 k3 ->. rewrite <- pos_app. apply (Hc _ _ k3). by rewrite !(assoc_L (++)).
Qed.

(** ** Paths of the tree *)

(** The stack above which the subtree [t] hangs, with the items before and
    after [t]. *)
Inductive path (root : tree) (hr : nat) : list entry → nat → tree → list T → list T → Prop :=
| path_root : path root hr [] hr root [] []
| path_child stk h summary cs i c b r :
    path root hr stk (Datatypes.S h) (Internal (Datatypes.S h) summary (tree_summary <$> cs) cs) b r →
    cs !! i = Some c →
    path root hr
      (mk_entry (Internal (Datatypes.S h) summary (tree_summary <$> cs) cs) i
         (pos dim_zero (b ++ concat (map to_list (take i cs)))) :: stk)
      h c
      (b ++ concat (map to_list (take i cs))) (concat (map to_list (drop (Datatypes.S i) cs)) ++ r).

Lemma path_items root hr stk h t b r :
  path root hr stk h t b r → to_list root = b ++ to_list t ++ r.
Proof.
  induction 1 as [|stk h s cs i c b r _ IH Hc]; [by rewrite app_nil_r|].
  rewrite IH. simpl. rewrite (concat_split to_list cs i c Hc). by rewrite !(assoc_L (++)).
Qed.

Lemma path_wf root hr stk h t b r :
  wf hr root → path root hr stk h t b r → wf h t ∧ length stk + h = hr.
Proof.
  intros Hwf. induction 1 as [|stk h s cs i c b r Hp [IH Hlen] Hc]; [done|].
  split; [|simpl; lia]. simpl in IH. destruct IH as (_ & _ & _ & _ & _ & Hcs).
  by apply (Forall_lookup_1 _ _ _ _ Hcs Hc).
Qed.

Lemma path_child_wf root hr stk h s cs b r :
  wf hr root → path root hr stk (Datatypes.S h) (Internal (Datatypes.S h) s (tree_summary <$> cs) cs) b r →
  Forall (wf_child h) cs.
Proof.
  intros Hwf Hp. destruct (path_wf _ _ _ _ _ _ _ Hwf Hp) as [Hn _].
  by apply wf_internal_inv in Hn as (cs' & [= _ _ ->] & _ & _ & ?).
Qed.

(** The cursor stands on an item of a leaf. *)
Definition at_item (root : tree) (hr : nat) (stk : list entry) b r : Prop :=
  ∃ s items sums i q stk' b' r',
    stk = mk_entry (Leaf s items sums) i q :: stk' ∧
    path root hr stk' 0 (Leaf s items sums) b' r' ∧ i < length items ∧
    b = b' ++ take i items ∧ r = drop i items ++ r'.

Definition settled (root : tree) (hr : nat) (stk : list entry) b r : Prop :=
  (r = [] ∧ stk = []) ∨ (r ≠ [] ∧ at_item root hr stk b r).

(** ** Rounds *)

Lemma cost_pos t : 0 < cost t.
Proof. destruct t; simpl; lia. Qed.

Definition costs (ts : list tree) : nat := list_sum (map (λ c, Datatypes.S (cost c)) ts).

(** The rounds left when the loop comes back to the top of this stack. *)
Fixpoint up_cost (stk : list entry) : nat :=
  match stk with
  | [] => 0
  | e :: stk =>
      match entry_tree e with
      | Internal _ _ _ cs => Datatypes.S (costs (drop (Datatypes.S (entry_index e)) cs)) + up_cost stk
      | Leaf _ _ _ => up_cost stk
      end
  end.

Lemma costs_app ts1 ts2 : costs (ts1 ++ ts2) = costs ts1 + costs ts2.
Proof. unfold costs. by rewrite map_app, list_sum_app. Qed.

Lemma costs_lookup cs i c :
  cs !! i = Some c → costs (drop i cs) = Datatypes.S (cost c) + costs (drop (Datatypes.S i) cs).
Proof. intros Hc. by rewrite (drop_lookup_cons _ _ _ Hc). Qed.

Lemma path_cost root hr stk h t b r : path root hr stk h t b r → up_cost stk + cost t ≤ cost root.
Proof.
  induction 1 as [|stk h s cs i c b r _ IH Hc]; simpl in *; [done|].
  fold (costs cs) in IH. rewrite <- (take_drop i cs), costs_app, (costs_lookup _ _ _ Hc) in IH. lia.
Qed.

Lemma run_Continue {X} (live : X → bool) step f x y :
  live x = true → step x = Some (Continue y) → run live step (Datatypes.S f) x = run live step f y.
Proof. intros Hl Hs. simpl. by rewrite Hl, Hs. Qed.

Lemma run_Break {X} (live : X → bool) step f x y :
  live x = true → step x = Some (Break y) → run live step (Datatypes.S f) x = Some y.
Proof. intros Hl Hs. simpl. by rewrite Hl, Hs. Qed.

Lemma run_same {X} (live : X → bool) step f x y :
  live x = true → live y = true → step x = step y → run live step f x = run live step f y.
Proof. intros Hx Hy Hs. destruct f; simpl; by rewrite Hx, Hy, ?Hs. Qed.

(** ** Forward walks *)

Section walk.
Context {A : Type} `{!SeekAggregate A T S, !SeekAggregateLaws A T S}.
Abbreviation wstate := (walk T S D A).

(** A step function that leaves behind what is not to be entered, descends
    into what is, and stops at an item. *)
Record Walker (enter : D → S → bool) (step : wstate → option (outcome wstate)) : Prop := {
  walker_up s h ss (cs : list tree) i q stk p a :
    step (mk_walk (mk_entry (Internal h s ss cs) i q :: stk) p a false) =
    step (mk_walk (mk_entry (Internal h s ss cs) (Datatypes.S i) p :: stk) p a true);
  walker_skip s h cs i c stk p a a' :
    cs !! i = Some c → enter p (tree_summary c) = false → push_tree a c (tree_summary c) = Some a' →
    let p' := dim_add p (tree_summary c) in
    step (mk_walk (mk_entry (Internal h s (tree_summary <$> cs) cs) i p :: stk) p a true) =
    step (mk_walk (mk_entry (Internal h s (tree_summary <$> cs) cs) (Datatypes.S i) p' :: stk) p' a' true);
  walker_enter s h cs i c stk p a :
    cs !! i = Some c → enter p (tree_summary c) = true → length stk < 15 →
    let e := mk_entry (Internal h s (tree_summary <$> cs) cs) i p in
    step (mk_walk (e :: stk) p a true) = Some (Continue (mk_walk (mk_entry c 0 p :: e :: stk) p a true));
  walker_end s h (cs : list tree) stk p a :
    step (mk_walk (mk_entry (Internal h s (tree_summary <$> cs) cs) (length cs) p :: stk) p a true) =
    Some (Continue (mk_walk stk p a false));
  walker_leaf s l j q stk p a acc sk rest :
    j ≤ length l → length l ≤ 2 * TREE_BASE → valid_items l → holds a acc [] →
    split_at enter p (drop j l) = (sk, rest) →
    ∃ a', holds a' (acc ++ sk) [] ∧
      match rest with
      | [] => step (mk_walk (mk_entry (Leaf s l (item_summary <$> l)) j q :: stk) p a true) =
          Some (Continue (mk_walk stk (pos p sk) a' false))
      | _ => ∃ q' d, step (mk_walk (mk_entry (Leaf s l (item_summary <$> l)) j q :: stk) p a true) =
          Some (Break (mk_walk
            (mk_entry (Leaf s l (item_summary <$> l)) (j + length sk) q' :: stk) (pos p sk) a' d))
      end
}.

Context (enter : D → S → bool) (step : wstate → option (outcome wstate)) (HW : Walker enter step).
Context (root : tree) (hr : nat) (Hroot : wf hr root) (Hhr : hr < 16).

(** From [w0], within [n] rounds, the loop walks over [l], which starts after
    [b] and is followed by [r]: it stops at an item of [l], or leaves [l] and
    is back at the stack [stk]. *)
Definition arrives (n : nat) (w0 : wstate) stk b l r p (acc : list T) : Prop :=
  ∃ sk rest w m, split_at enter p l = (sk, rest) ∧ m ≤ n ∧ holds (walk_agg w) (acc ++ sk) [] ∧
    walk_position w = pos p sk ∧
    match rest with
    | [] => walk_stack w = stk ∧ walk_descend w = false ∧
        ∀ f, run walk_live step (m + f) w0 = run walk_live step f w
    | _ => at_item root hr (walk_stack w) (b ++ sk) (rest ++ r) ∧
        ∀ f, run walk_live step (m + f) w0 = Some w
    end.

Lemma arrives_le n n' w0 stk b l r p acc :
  n ≤ n' → arrives n w0 stk b l r p acc → arrives n' w0 stk b l r p acc.
Proof.
  intros Hn (sk & rest & w & m & ? & ? & ?). exists sk, rest, w, m. split; [done|]. split; [lia|done].
Qed.

Lemma arrives_same n w0 w1 stk b l r p acc :
  walk_live w0 = true → walk_live w1 = true → step w0 = step w1 →
  arrives n w1 stk b l r p acc → arrives n w0 stk b l r p acc.
Proof.
  intros Hl0 Hl1 Hs (sk & rest & w & m & ? & ? & ? & ? & Hw).
  exists sk, rest, w, m. split_and!; try done.
  destruct rest; [destruct Hw as (? & ? & Hw)|destruct Hw as (? & Hw)]; split_and!; try done;
    intros f; rewrite <- (Hw f); by apply run_same.
Qed.

(** One round, then the walk. *)
Lemma arrives_step n w0 w1 stk b l r p acc :
  walk_live w0 = true → step w0 = Some (Continue w1) →
  arrives n w1 stk b l r p acc → arrives (Datatypes.S n) w0 stk b l r p acc.
Proof.
  intros Hl0 Hs (sk & rest & w & m & ? & ? & ? & ? & Hw).
  exists sk, rest, w, (Datatypes.S m). split_and!; try done; [lia|].
  destruct rest; [destruct Hw as (? & ? & Hw)|destruct Hw as (? & Hw)]; split_and!; try done;
    intros f; rewrite <- (Hw f); by apply run_Continue.
Qed.

(** Leaving [l1] behind without a round. *)
Lemma arrives_skip n w0 stk b l1 l2 r p acc :
  split_at enter p l1 = (l1, []) →
  arrives n w0 stk (b ++ l1) l2 r (pos p l1) (acc ++ l1) →
  arrives n w0 stk b (l1 ++ l2) r p acc.
Proof.
  intros Hsk (sk & rest & w & m & Hs & ? & Hh & Hp & Hw). exists (l1 ++ sk), rest, w, m.
  rewrite split_at_skip, Hs, pos_app, !(assoc_L (++)) by done. by split_and!.
Qed.

(** A walk over [l1], then from where it left [l1] over [l2]. *)
Lemma arrives_app n1 n2 w0 stk1 stk2 b l1 l2 r p acc :
  arrives n1 w0 stk1 b l1 (l2 ++ r) p acc →
  (∀ a, split_at enter p l1 = (l1, []) → holds a (acc ++ l1) [] →
    arrives n2 (mk_walk stk1 (pos p l1) a false) stk2 (b ++ l1) l2 r (pos p l1) (acc ++ l1)) →
  arrives (n1 + n2) w0 stk2 b (l1 ++ l2) r p acc.
Proof.
  intros (sk & rest & w & m & Hs & ? & Hh & Hp & Hw) Hk. destruct rest as [|x rest].
  - apply split_at_app in Hs as E. rewrite app_nil_r in E. subst sk.
    destruct w as [ws wp wa wd]. simpl in *. destruct Hw as (-> & -> & Hw). subst wp.
    destruct (arrives_skip _ _ _ _ _ _ _ _ _ Hs (Hk _ Hs Hh))
      as (sk2 & rest2 & w2 & m2 & ? & ? & ? & ? & Hw2).
    exists sk2, rest2, w2, (m + m2). split_and!; try done; [lia|].
    destruct rest2; [destruct Hw2 as (? & ? & Hw2)|destruct Hw2 as (? & Hw2)]; split_and!; try done;
      intros f; rewrite <- Nat.add_assoc, Hw; apply Hw2.
  - exists sk, ((x :: rest) ++ l2), w, m. rewrite (split_at_stop _ _ _ _ _ _ Hs) by done.
    destruct Hw as [Hw1 Hw2]. split_and!; try done; [lia|]. simpl. simpl in Hw1.
    by rewrite <- (assoc_L (++)).
Qed.

(** A leaf, from an item of it. *)
Lemma walk_leaf s sums l j q stk b r p a acc :
  path root hr stk 0 (Leaf s l sums) b r → j ≤ length l → holds a acc [] →
  arrives 1 (mk_walk (mk_entry (Leaf s l sums) j q :: stk) p a true) stk (b ++ take j l) (drop j l) r p acc.
Proof.
  intros Hp Hj Ha. destruct (path_wf _ _ _ _ _ _ _ Hroot Hp) as [Hwf _].
  simpl in Hwf. destruct Hwf as (-> & -> & Hlen & Hv).
  destruct (split_at enter p (drop j l)) as [sk rest] eqn:Hs.
  destruct (walker_leaf _ _ HW (sum_items l) l j q stk p a acc sk rest Hj Hlen Hv Ha Hs) as (a' & Ha' & Hst).
  destruct rest as [|x rest].
  - exists sk, [], (mk_walk stk (pos p sk) a' false), 1. split_and!; try done.
    intros f. by apply run_Continue.
  - destruct Hst as (q' & d & Hst). exists sk, (x :: rest), (mk_walk
      (mk_entry (Leaf (sum_items l) l (item_summary <$> l)) (j + length sk) q' :: stk) (pos p sk) a' d), 1.
    split_and!; try done; [|intros f; by apply run_Break].
    apply split_at_app in Hs. pose proof (take_drop j l) as Htd. rewrite Hs in Htd.
    assert (take (j + length sk) l = take j l ++ sk ∧ drop (j + length sk) l = x :: rest) as [Ht Hd].
    { rewrite <- drop_drop, Hs, drop_app_length. split; [|done].
      rewrite <- Htd at 1. rewrite (assoc_L (++)), take_app_length'; [done|].
      rewrite length_app, length_take. lia. }
    exists (sum_items l), l, (item_summary <$> l), (j + length sk), q', stk, b, r. simpl.
    split_and!; [done|done| |by rewrite Ht, (assoc_L (++))|by rewrite Hd].
    apply (f_equal length) in Htd. rewrite !length_app, length_take in Htd. simpl in Htd. lia.
Qed.

Lemma step_live stk p a d : stk ≠ [] → walk_live (mk_walk (A:=A) stk p a d : wstate) = true.
Proof. by destruct stk. Qed.

(** The children of an inner node, given the walk into one of them. *)
Lemma walk_children h s cs stk b r :
  path root hr stk (Datatypes.S h) (Internal (Datatypes.S h) s (tree_summary <$> cs) cs) b r →
  (∀ c stk b r p a acc, path root hr stk h c b r → p = pos dim_zero b → holds a acc [] →
    coherent enter p (to_list c) →
    arrives (cost c) (mk_walk (mk_entry c 0 p :: stk) p a true) stk b (to_list c) r p acc) →
  ∀ rem i p a acc, drop i cs = rem → i ≤ length cs →
    p = pos dim_zero (b ++ concat (map to_list (take i cs))) → holds a acc [] →
    coherent enter p (concat (map to_list rem)) →
    arrives (Datatypes.S (costs rem))
      (mk_walk (mk_entry (Internal (Datatypes.S h) s (tree_summary <$> cs) cs) i p :: stk) p a true)
      stk (b ++ concat (map to_list (take i cs))) (concat (map to_list rem)) r p acc.
Proof.
  intros Hpath Hdown rem. induction rem as [|c rem IH]; intros i p a acc Hrem Hi Hp Ha Hco.
  { assert (i = length cs) as ->.
    { apply (f_equal length) in Hrem. rewrite length_drop in Hrem. simpl in Hrem. lia. }
    exists [], [], (mk_walk stk p a false), 1. split_and!; try done; [by rewrite app_nil_r|].
    intros f. apply run_Continue; [done|]. apply (walker_end _ _ HW). }
  apply drop_cons_lookup in Hrem as [Hc Hrem].
  pose proof (path_child _ _ _ _ _ _ _ _ _ _ Hpath Hc) as Hpc.
  destruct (path_wf _ _ _ _ _ _ _ Hroot Hpc) as [Hwc Hlen].
  pose proof (path_child_wf _ _ _ _ _ _ _ _ Hroot Hpath) as Hcs.
  destruct (Forall_lookup_1 _ _ _ _ Hcs Hc) as [_ Hne].
  pose proof (coherent_l _ _ _ _ Hco) as Hco1. pose proof (coherent_r _ _ _ _ Hco) as Hco2.
  assert (Datatypes.S i ≤ length cs) as Hi' by (apply lookup_lt_Some in Hc; lia).
  assert (∀ a' acc', holds a' acc' [] → arrives (Datatypes.S (costs rem))
    (mk_walk (mk_entry (Internal (Datatypes.S h) s (tree_summary <$> cs) cs) (Datatypes.S i)
      (pos p (to_list c)) :: stk) (pos p (to_list c)) a' true) stk
    ((b ++ concat (map to_list (take i cs))) ++ to_list c) (concat (map to_list rem)) r
    (pos p (to_list c)) acc') as Hnext.
  { intros a' acc' Ha'. rewrite <- (assoc_L (++)), <- (take_S_concat to_list cs i c Hc).
    apply IH; try done. by rewrite (take_S_concat to_list cs i c Hc), (assoc_L (++)), pos_app, <- Hp. }
  destruct (enter p (tree_summary c)) eqn:Hen.
  - eapply arrives_le; [|eapply arrives_step; [|apply (walker_enter _ _ HW); [done..|simpl in Hlen; lia]|]];
      [|done|].
    + instantiate (1 := cost c + Datatypes.S (costs rem)). unfold costs. simpl. lia.
    + apply arrives_app with (stk1 := mk_entry (Internal (Datatypes.S h) s
        (tree_summary <$> cs) cs) i p :: stk).
      * apply Hdown; [by subst|done..].
      * intros a' _ Ha'. eapply arrives_same; [..|by apply Hnext]; [done|done|]. apply (walker_up _ _ HW).
  - destruct (push_tree_holds a acc h c Ha Hwc Hne) as (a' & Hpush & Ha').
    destruct (Hco [] (to_list c) (concat (map to_list rem))) as [Hend Hskip]; [done..| |].
    { by rewrite <- (wf_summary _ _ Hwc). }
    simpl in Hend. rewrite <- (wf_summary _ _ Hwc) in Hend.
    eapply arrives_le with (n := Datatypes.S (costs rem)); [unfold costs; simpl; lia|].
    eapply arrives_same; [..|eapply arrives_skip; [|by apply Hnext]]; [done|done| |done].
    rewrite <- Hend. by apply (walker_skip _ _ HW).
Qed.

Lemma walk_down h : ∀ c stk b r p a acc,
  path root hr stk h c b r → p = pos dim_zero b → holds a acc [] → coherent enter p (to_list c) →
  arrives (cost c) (mk_walk (mk_entry c 0 p :: stk) p a true) stk b (to_list c) r p acc.
Proof.
  induction h as [|h IH]; intros c stk b r p a acc Hpath Hp Ha Hco;
    destruct (path_wf _ _ _ _ _ _ _ Hroot Hpath) as [Hwf _].
  - destruct c as [s l sums|]; [|done]. apply (arrives_le 1); [simpl; lia|].
    pose proof (walk_leaf s sums l 0 p stk b r p a acc Hpath) as Hl. rewrite take_0, app_nil_r, drop_0 in Hl.
    apply Hl; [lia|done].
  - apply wf_internal_inv in Hwf as (cs & -> & _).
    pose proof (walk_children h _ cs stk b r Hpath IH cs 0 p a acc) as Hl.
    rewrite take_0, drop_0 in Hl. simpl in Hl. rewrite app_nil_r in Hl. apply Hl; [done|lia|done..].
Qed.

(** From a stack whose top was left behind, to the end of the tree. *)
Lemma walk_up stk h c b r : ∀ p a acc,
  path root hr stk h c b r → p = pos dim_zero (b ++ to_list c) → holds a acc [] → coherent enter p r →
  arrives (up_cost stk) (mk_walk stk p a false) [] (b ++ to_list c) r [] p acc.
Proof.
  intros p a acc Hpath. revert p a acc.
  induction Hpath as [|stk h s cs i c b r Hpath IH Hc]; intros p a acc Hp Ha Hco.
  { exists [], [], (mk_walk [] p a false), 0. simpl. rewrite app_nil_r. by split_and!. }
  rewrite <- (assoc_L (++)), <- (take_S_concat to_list cs i c Hc) in *.
  assert (Datatypes.S i ≤ length cs) as Hi by (apply lookup_lt_Some in Hc; lia).
  pose proof (coherent_l _ _ _ _ Hco) as Hco1. pose proof (coherent_r _ _ _ _ Hco) as Hco2.
  simpl up_cost. eapply arrives_same; [done| |apply (walker_up _ _ HW)|]; [done|].
  apply (arrives_app (Datatypes.S (costs (drop (Datatypes.S i) cs))) (up_cost stk) _ stk).
  - rewrite app_nil_r. eapply (walk_children h); [done|apply walk_down|done..].
  - intros a' _ Ha'. rewrite <- (assoc_L (++)).
    assert (concat (map to_list (take (Datatypes.S i) cs)) ++ concat (map to_list (drop (Datatypes.S i) cs)) =
      concat (map to_list cs)) as Hcat by (by rewrite <- concat_app, <- map_app, take_drop).
    rewrite Hcat. apply IH; [|done|done]. simpl.
    by rewrite <- Hcat, Hp, <- pos_app, (assoc_L (++)).
Qed.

(** The whole walk, from a leaf or from the root: it ends at the first item to
    be entered. *)
Definition ends_at (fuel : nat) (w0 : wstate) b l p (acc : list T) : Prop :=
  ∃ sk rest w, split_at enter p l = (sk, rest) ∧ run walk_live step fuel w0 = Some w ∧
    holds (walk_agg w) (acc ++ sk) [] ∧ walk_position w = pos p sk ∧
    settled root hr (walk_stack w) (b ++ sk) rest.

Lemma arrives_ends n fuel w0 b l p acc :
  n ≤ fuel → arrives n w0 [] b l [] p acc → ends_at fuel w0 b l p acc.
Proof.
  intros Hn (sk & rest & w & m & Hs & ? & Hh & Hp & Hw). exists sk, rest, w. split_and!; try done.
  - replace fuel with (m + (fuel - m)) by lia. destruct rest; [|by destruct Hw as [_ ->]].
    destruct Hw as (Hst & _ & ->). destruct (fuel - m), w; simpl in *; by subst.
  - destruct rest; [left; by destruct Hw|right]. destruct Hw as [Hw _]. by rewrite app_nil_r in Hw.
Qed.

Lemma walk_root a :
  holds a [] [] → coherent enter dim_zero (to_list root) →
  ends_at (cost root) (mk_walk [mk_entry root 0 dim_zero] dim_zero a true) [] (to_list root) dim_zero [].
Proof.
  intros Ha Hco. eapply arrives_ends; [done|]. apply (walk_down hr); try done. constructor.
Qed.

Lemma walk_item stk b r a :
  at_item root hr stk b r → holds a [] [] → coherent enter (pos dim_zero b) r →
  ends_at (cost root) (mk_walk stk (pos dim_zero b) a true) b r (pos dim_zero b) [].
Proof.
  intros (s & l & sums & i & q & stk' & b' & r' & -> & Hpath & Hi & -> & ->) Ha Hco.
  pose proof (path_cost _ _ _ _ _ _ _ Hpath) as Hcost.
  eapply (arrives_ends (1 + up_cost stk')); [simpl in Hcost; lia|].
  eapply arrives_app.
  - rewrite app_nil_r. apply (walk_leaf s sums l i q stk' b' r'); [done|lia|done].
  - intros a' _ Ha'. rewrite <- (assoc_L (++)), take_drop.
    apply (walk_up stk' 0 (Leaf s l sums) b' r'); [done| |done|by apply coherent_r].
    simpl. by rewrite <- pos_app, <- (assoc_L (++)), take_drop.
Qed.

End walk.

(** ** The walkers of the code *)

Lemma skip_run_ge {X A'} enter (push : A' → X → S → option A') children i p a i' p' a' :
  skip_run enter push children i p a = Some (i', p', a') → i ≤ i' ∧ (i' = i → p' = p).
Proof.
  revert i p a. induction children as [|[x s] children IH]; intros i p a; simpl; [naive_solver|].
  destruct (enter p s); [naive_solver|]. destruct (push a x s) as [a1|]; simpl; [|done].
  intros [? ?]%IH. lia.
Qed.

Lemma zip_from_ok {X} i (xs : list X) (ss : list S) :
  length ss = length xs → i ≤ length xs → zip_from i xs ss = Some (zip (drop i xs) (drop i ss)).
Proof. intros Hl Hi. unfold zip_from. by rewrite decide_True by lia. Qed.

Lemma zip_drop_cons {X} i (xs : list X) (f : X → S) x :
  xs !! i = Some x →
  zip (drop i xs) (drop i (f <$> xs)) =
  (x, f x) :: zip (drop (Datatypes.S i) xs) (drop (Datatypes.S i) (f <$> xs)).
Proof.
  intros Hx. rewrite (drop_lookup_cons _ _ _ Hx), (drop_lookup_cons (f <$> xs) i (f x)); [done|].
  by rewrite list_lookup_fmap, Hx.
Qed.

Lemma zip_fmap_lookup {X} (f : X → S) (l : list X) i :
  zip l (f <$> l) !! i = (λ x, (x, f x)) <$> l !! i.
Proof. revert i. induction l as [|x l IH]; intros [|i]; simpl; done. Qed.

Lemma lookup_split {X} (l sk rest : list X) : l = sk ++ rest → l !! length sk = head rest.
Proof. intros ->. rewrite lookup_app_r, Nat.sub_diag by done. by destruct rest. Qed.

Section seek_walker.
Context {A : Type} `{!SeekAggregate A T S, !SeekAggregateLaws A T S}.

Lemma skip_run_items enter l i p a acc k sk rest :
  holds a acc k → length k + length l ≤ 2 * TREE_BASE → valid_items l → split_at enter p l = (sk, rest) →
  ∃ a', skip_run enter push_item (zip l (item_summary <$> l)) i p a = Some (i + length sk, pos p sk, a') ∧
    holds a' acc (k ++ sk).
Proof.
  revert i p a k sk. induction l as [|x l IH]; intros i p a k sk Ha Hlen Hv; simpl in *;
    try change (list_fmap _ _ item_summary l) with (item_summary <$> l).
  { intros [= <- <-]. exists a. simpl. by rewrite Nat.add_0_r, app_nil_r. }
  apply Forall_cons in Hv as [Hx Hv]. destruct (enter p (item_summary x)).
  { intros [= <- <-]. exists a. simpl. by rewrite Nat.add_0_r, app_nil_r. }
  destruct (split_at enter _ l) as [sk' rest'] eqn:E. simpl. intros [= <- <-].
  destruct (push_item_holds a acc k x Ha) as (a1 & -> & Ha1); [lia|done|]. simpl.
  destruct (IH (Datatypes.S i) (dim_add p (item_summary x)) a1 (k ++ [x]) sk' Ha1) as (a2 & -> & Ha2);
    [rewrite length_app; simpl; lia|done|done|].
  exists a2. simpl. rewrite Nat.add_succ_r. split; [done|]. by rewrite <- (assoc_L (++)) in Ha2.
Qed.

Lemma seek_walker enter : Walker enter (seek_step (A:=A) enter).
Proof.
  split.
  - done.
  - intros s h cs i c stk p a a' Hc Hen Hpush p'. unfold seek_step. simpl.
    pose proof (lookup_lt_Some _ _ _ Hc).
    rewrite !zip_from_ok by (rewrite ?length_fmap; lia). simpl.
    rewrite (zip_drop_cons _ _ _ _ Hc). simpl. rewrite Hen, Hpush. simpl. fold p'.
    destruct (skip_run _ _ _ _ _ _) as [[[j q] a2]|] eqn:E; simpl; [|done].
    apply skip_run_ge in E as [Hj Hq].
    replace (j - i) with (Datatypes.S (j - Datatypes.S i)) by lia. simpl.
    destruct (_ !! (j - _)) as [[]|]; [|done]. rewrite decide_False by lia.
    case_decide as Hd; [|done]. by rewrite Hq, Hd.
  - intros s h cs i c stk p a Hc Hen Hlen e. unfold seek_step. simpl.
    pose proof (lookup_lt_Some _ _ _ Hc).
    rewrite zip_from_ok by (rewrite ?length_fmap; lia). simpl.
    rewrite (zip_drop_cons _ _ _ _ Hc). simpl. rewrite Hen. simpl. rewrite Nat.sub_diag. simpl.
    rewrite decide_True by done. unfold push_entry. rewrite decide_True by (simpl; lia). done.
  - intros s h cs stk p a. unfold seek_step. simpl.
    rewrite zip_from_ok by (rewrite ?length_fmap; lia). simpl.
    by rewrite !drop_ge by (rewrite ?length_fmap; lia).
  - intros s l j q stk p a acc sk rest Hj Hlen Hv Ha Hs. unfold seek_step. simpl.
    rewrite zip_from_ok by (rewrite ?length_fmap; lia). simpl. rewrite <- fmap_drop.
    destruct (skip_run_items enter (drop j l) j p (begin_leaf a) acc [] sk rest) as (a1 & -> & Ha1);
      [by apply begin_holds|rewrite length_drop; simpl; lia|by apply Forall_drop|done|].
    destruct (end_holds a1 acc sk Ha1) as (a2 & Hend & Ha2). simpl. rewrite Hend. simpl.
    exists a2. split; [done|]. apply split_at_app in Hs.
    replace (j + length sk - j) with (length sk) by lia.
    rewrite zip_fmap_lookup, (lookup_split _ _ _ Hs). destruct rest; simpl; [done|]. by eexists _, _.
Qed.
End seek_walker.

Lemma skip_run_sums enter l i p q sk rest :
  split_at enter p l = (sk, rest) →
  skip_run enter (λ (q : D) (_ s : S), Some (dim_add q s)) (zip (item_summary <$> l) (item_summary <$> l)) i p q =
  Some (i + length sk, pos p sk, pos q sk).
Proof.
  revert i p q sk. induction l as [|x l IH]; intros i p q sk; simpl;
    try change (list_fmap _ _ item_summary l) with (item_summary <$> l).
  { intros [= <- <-]. by rewrite Nat.add_0_r. }
  destruct (enter p (item_summary x)); [intros [= <- <-]; by rewrite Nat.add_0_r|].
  destruct (split_at enter _ l) as [sk' rest'] eqn:E. simpl. intros [= <- <-]. simpl.
  by rewrite (IH _ _ _ _ E), Nat.add_succ_r.
Qed.

Lemma forward_walker (filter_node : S → bool) :
  Walker (λ _, filter_node) (forward_step filter_node : walk T S D unit → _).
Proof.
  split.
  - done.
  - intros s h cs i c stk p a a' Hc Hen _ p'. unfold forward_step. simpl.
    assert ((tree_summary <$> cs) !! i = Some (tree_summary c)) as Hs by (by rewrite list_lookup_fmap, Hc).
    rewrite (drop_lookup_cons _ _ _ Hs). simpl. by rewrite Hen.
  - intros s h cs i c stk p [] Hc Hen Hlen e. unfold forward_step. simpl.
    assert ((tree_summary <$> cs) !! i = Some (tree_summary c)) as Hs by (by rewrite list_lookup_fmap, Hc).
    rewrite (drop_lookup_cons _ _ _ Hs). simpl. rewrite Hen. simpl. rewrite Hc. simpl.
    unfold push_entry. by rewrite decide_True by (simpl; lia).
  - intros s h cs stk p []. unfold forward_step. simpl.
    rewrite drop_ge by (by rewrite length_fmap). simpl. by rewrite lookup_ge_None_2.
  - intros s l j q stk p [] acc sk rest Hj Hlen Hv _ Hs. unfold forward_step. simpl.
    rewrite <- fmap_drop, (skip_run_sums _ _ _ _ _ _ _ Hs). simpl. exists (). split; [done|].
    apply split_at_app in Hs. rewrite list_lookup_fmap, <- lookup_drop, (lookup_split _ _ _ Hs).
    destruct rest; simpl; [done|]. by eexists _, _.
Qed.

End spec.
