(* ===== verification/CursorFacts.v ===== *)
(** * CursorFacts: the operations of a cursor

    Every operation of [Cursor] in terms of the items before and after it
    ([cursor_at]): accessors, seeks, slices, forward and backward searches,
    and the three iterators.

    At the end, cursors over a dimension that is not additive.  Adding the summary of a node to a position may tell
    less than adding those of its items one by one ([VersionedFullOffset] of [crates/text/src/text.rs] becomes
    [Invalid] when a node mixes what a version has and has not observed).  A seek works
    all the same when it enters such nodes ([coherent]), and [suffix], which enters
    nothing, does not depend on positions at all: it agrees with the [suffix] of the cursor
    whose positions are forgotten ([erase]). *)

From S2P Require Import Prelude SumTree SumTreeSpec SumTreeFind Cursor CursorSpec.

#[local] Arguments Nat.mul : simpl never.
#[local] Arguments TREE_BASE : simpl never.
#[local] Arguments take : simpl never.
#[local] Arguments drop : simpl never.

Section facts.
Context {T S D : Type} `{SummaryLaws S, !Item T S, !Dimension D S, !DimensionLaws D S}.
Abbreviation tree := (SumTree T S).
Abbreviation entry := (StackEntry T S D).
Abbreviation cursor := (Cursor T S D).
Implicit Types (t : tree) (l b r : list T) (p : D) (c : cursor).

(** ** The invariant *)

(** The cursor stands between the items [b] and [r]. *)
Record cursor_at (c : cursor) (b r : list T) : Prop := {
  at_tree : ∃ h, wf h (cursor_tree c) ∧ h < 16 ∧ settled (cursor_tree c) h (stack c) b r;
  at_items : to_list (cursor_tree c) = b ++ r;
  at_position : position c = pos dim_zero b;
  at_did_seek : did_seek c = true;
  at_at_end : at_end c = bool_decide (r = [])
}.

(** A cursor that has not moved yet, or was moved back beyond the first item. *)
Record cursor_start (c : cursor) : Prop := {
  start_tree : ∃ h, wf h (cursor_tree c) ∧ h < 16;
  start_stack : stack c = [];
  start_position : position c = dim_zero;
  start_at_end : at_end c = is_empty (cursor_tree c)
}.

Lemma cursor_new_start h t : wf h t → h < 16 → cursor_start (cursor_new t).
Proof. intros. split; simpl; eauto. Qed.

Lemma cursor_reset_start c b r : cursor_at c b r → cursor_start (reset c).
Proof. intros [(h & ? & ? & _) _ _ _ _]. split; simpl; eauto. Qed.

Lemma settled_head root h stk b r :
  settled root h stk b r →
  match stk with
  | [] => r = []
  | e :: _ => ∃ s items sums x, entry_tree e = Leaf s items sums ∧ items !! entry_index e = Some x ∧ head r = Some x
  end.
Proof.
  intros [[-> ->]|[Hr (s & l & sums & i & q & stk' & b' & r' & -> & _ & Hi & _ & ->)]]; [done|].
  simpl. destruct (lookup_lt_is_Some_2 _ _ Hi) as [x Hx]. exists s, l, sums, x. split_and!; [done|done|].
  by rewrite (drop_lookup_cons _ _ _ Hx).
Qed.

Lemma item_at c b r : cursor_at c b r → item c = Some (head r).
Proof.
  intros [(h & _ & _ & Hs) _ _ Hd _]. unfold item, assert_did_seek. rewrite Hd. simpl.
  apply settled_head in Hs. destruct (stack c) as [|e stk]; [by subst|].
  destruct Hs as (s & l & sums & x & -> & Hx & ->). simpl. rewrite decide_False, Hx; [done|].
  apply lookup_lt_Some in Hx. lia.
Qed.

Lemma item_summary_at_at c b r : cursor_at c b r → item_summary_at c = Some (item_summary <$> head r).
Proof.
  intros [(h & Hwf & _ & Hs) _ _ Hd _]. unfold item_summary_at, assert_did_seek. rewrite Hd. simpl.
  destruct Hs as [[-> ->]|[Hr (s & l & sums & i & q & stk' & b' & r' & -> & Hp & Hi & _ & ->)]]; [done|].
  destruct (path_wf _ _ _ _ _ _ _ Hwf Hp) as [Hl _]. simpl in Hl. destruct Hl as (-> & _). simpl.
  rewrite length_fmap, decide_False, list_lookup_fmap by lia.
  destruct (lookup_lt_is_Some_2 _ _ Hi) as [x Hx]. rewrite Hx. simpl.
  by rewrite (drop_lookup_cons _ _ _ Hx).
Qed.

Lemma end_at c b r : cursor_at c b r →
  end_ c = Some (match r with x :: _ => pos dim_zero (b ++ [x]) | [] => pos dim_zero b end).
Proof.
  intros Hc. unfold end_. rewrite (item_summary_at_at _ _ _ Hc). unfold start.
  rewrite (at_position _ _ _ Hc). destruct r; simpl; [done|]. by rewrite pos_snoc.
Qed.

(** ** The neighbours of the item *)

Lemma first_leaf_spec h t :
  wf h t → to_list t ≠ [] →
  ∃ leaf items x, leftmost_leaf t = Some leaf ∧ node_items leaf = Some items ∧
    head items = Some x ∧ head (to_list t) = Some x.
Proof.
  intros Hwf Hne. destruct (leftmost_leaf_spec _ _ Hwf) as (l & k & Hl & Hk & He).
  destruct l as [|x l]; [by destruct (Hne (He eq_refl))|].
  eexists _, (x :: l), x. rewrite Hl, Hk. by split_and!.
Qed.

Lemma last_leaf_spec h t :
  wf h t → to_list t ≠ [] →
  ∃ leaf items x, rightmost_leaf t = Some leaf ∧ node_items leaf = Some items ∧
    last items = Some x ∧ last (to_list t) = Some x.
Proof.
  intros Hwf Hne. destruct (rightmost_leaf_spec _ _ Hwf) as (l & k & Hl & Hk & He).
  destruct (decide (l = [])) as [->|Hl0]; [by destruct (Hne (He eq_refl))|].
  destruct (nonempty_snoc _ Hl0) as (l' & x & ->).
  eexists _, (l' ++ [x]), x. rewrite Hl, Hk, (assoc_L (++)), !last_snoc. by split_and!.
Qed.

(** What [next_leaf] and [prev_leaf] find beside a subtree. *)
Definition side_leaf (f : list T → option T) (res : option (option tree)) l : Prop :=
  match f l with
  | None => res = Some None
  | Some x => ∃ leaf items, res = Some (Some leaf) ∧ node_items leaf = Some items ∧ f items = Some x
  end.

Lemma next_leaf_spec root hr stk h t b r :
  wf hr root → path root hr stk h t b r → side_leaf head (next_leaf_from stk) r.
Proof.
  intros Hwf. induction 1 as [|stk h s cs i c b r Hp IH Hc]; [done|]. simpl.
  pose proof (path_child_wf _ _ _ _ _ _ _ _ Hwf Hp) as Hcs.
  pose proof (lookup_lt_Some _ _ _ Hc) as Hi.
  assert (pred_len cs = Some (length cs - 1)) as -> by (destruct cs; done). simpl.
  case_decide as Hlt.
  - destruct (lookup_lt_is_Some_2 cs (Datatypes.S i)) as [c' Hc']; [lia|].
    rewrite Hc'. simpl. destruct (Forall_lookup_1 _ _ _ _ Hcs Hc') as [Hwc Hne].
    destruct (first_leaf_spec _ _ Hwc Hne) as (leaf & items & x & -> & Hit & Hx & Hhd). simpl.
    unfold side_leaf. rewrite (drop_lookup_cons _ _ _ Hc'). simpl.
    destruct (to_list c'); [done|]. simpl in *. injection Hhd as ->. by exists leaf, items.
  - rewrite drop_ge by lia. done.
Qed.

Lemma prev_leaf_spec root hr stk h t b r :
  wf hr root → path root hr stk h t b r → side_leaf last (prev_leaf_from stk) b.
Proof.
  intros Hwf. induction 1 as [|stk h s cs i c b r Hp IH Hc]; [done|]. simpl.
  pose proof (path_child_wf _ _ _ _ _ _ _ _ Hwf Hp) as Hcs.
  pose proof (lookup_lt_Some _ _ _ Hc) as Hi. destruct i as [|i].
  - by rewrite take_0, app_nil_r.
  - destruct (lookup_lt_is_Some_2 cs i) as [c' Hc']; [lia|].
    rewrite Hc'. simpl. destruct (Forall_lookup_1 _ _ _ _ Hcs Hc') as [Hwc Hne].
    destruct (last_leaf_spec _ _ Hwc Hne) as (leaf & items & x & -> & Hit & Hx & Hhd). simpl.
    unfold side_leaf. rewrite (take_S_concat to_list cs i c' Hc'), (assoc_L (++)), last_app, Hhd.
    by exists leaf, items.
Qed.

Lemma next_item_at c b r : cursor_at c b r → next_item c = Some (head (tail r)).
Proof.
  intros [(h & Hwf & _ & Hs) _ _ Hd He]. unfold next_item, assert_did_seek. rewrite Hd. simpl.
  destruct Hs as [[-> ->]|[Hr (s & l & sums & i & q & stk' & b' & r' & Hst & Hp & Hi & _ & ->)]];
    [by rewrite He|].
  rewrite Hst. simpl. assert (pred_len l = Some (length l - 1)) as -> by (destruct l; simpl in *; lia || done).
  simpl. destruct (lookup_lt_is_Some_2 _ _ Hi) as [x Hx]. rewrite (drop_lookup_cons _ _ _ Hx). simpl.
  case_decide as Hd1.
  - unfold next_leaf. rewrite Hst. simpl. rewrite drop_ge by lia. simpl.
    pose proof (next_leaf_spec _ _ _ _ _ _ _ Hwf Hp) as Hl. unfold side_leaf in Hl.
    destruct (head r'); [|by rewrite Hl]. destruct Hl as (leaf & items & -> & Hit & Hhd). simpl.
    rewrite Hit. simpl. by rewrite Hhd.
  - destruct (lookup_lt_is_Some_2 l (Datatypes.S i)) as [y Hy]; [lia|]. rewrite Hy. simpl.
    by rewrite (drop_lookup_cons _ _ _ Hy).
Qed.

Lemma prev_item_at c b r : cursor_at c b r → prev_item c = Some (last b).
Proof.
  intros [(h & Hwf & _ & Hs) Hl _ Hd He]. unfold prev_item, assert_did_seek. rewrite Hd. simpl.
  destruct Hs as [[-> ->]|[Hr (s & l & sums & i & q & stk' & b' & r' & Hst & Hp & Hi & -> & ->)]].
  { rewrite He. simpl. by rewrite (tree_last_spec _ _ Hwf), Hl, app_nil_r. }
  rewrite Hst. simpl. destruct i as [|i].
  - unfold prev_leaf. rewrite Hst. simpl. rewrite take_0, app_nil_r.
    pose proof (prev_leaf_spec _ _ _ _ _ _ _ Hwf Hp) as Hl'. unfold side_leaf in Hl'.
    destruct (last b'); [|by rewrite Hl']. destruct Hl' as (leaf & items & -> & Hit & Hhd). simpl.
    rewrite Hit. simpl. by rewrite Hhd.
  - destruct (lookup_lt_is_Some_2 l i) as [y Hy]; [lia|]. rewrite Hy. simpl.
    by rewrite (take_S_r _ _ _ Hy), (assoc_L (++)), last_snoc.
Qed.

(** ** Seeking *)

Lemma split_at_none (enter : D → S → bool) p l :
  (∀ l1 x l2, l = l1 ++ x :: l2 → enter (pos p l1) (item_summary x) = false) →
  split_at enter p l = (l, []).
Proof.
  revert p. induction l as [|x l IH]; intros p Hn; [done|]. simpl.
  pose proof (Hn [] x l eq_refl) as Hx. simpl in Hx. rewrite Hx, IH; [done|]. intros l1 y l2 ->. apply (Hn (x :: l1) y l2). done.
Qed.

Lemma ends_elem p l1 x l2 : pos p (l1 ++ [x]) ∈ ends p (l1 ++ x :: l2).
Proof.
  rewrite ends_app. apply elem_of_app. right. rewrite pos_snoc. simpl. apply elem_of_cons. by left.
Qed.

Lemma seek_coherent target bias p l :
  dvalid p → valid_items l → ascending target p l → coherent (seek_enter target bias) p l.
Proof.
  intros Hp Hv Ha l1 l2 l3 -> Hne. apply valid_items_app in Hv as [Hv1 Hv2].
  apply valid_items_app in Hv2 as [Hv2 _]. apply ascending_app in Ha as (_ & _ & Ha).
  apply ascending_app in Ha as (_ & Ha & _). unfold seek_enter.
  rewrite dim_add_sum by (done || by apply pos_valid). intros Hsk%negb_false_iff. split; [done|].
  pose proof (ascending_skips _ _ _ _ Ha Hsk) as Hall. rewrite Forall_forall in Hall.
  apply split_at_none. intros k1 x k2 ->. apply negb_false_iff. rewrite <- pos_snoc.
  apply Hall, ends_elem.
Qed.

(** Where a seek parts the items: the target lies behind the end of each item
    before, and not behind the end of the first item after. *)
Definition parts target bias p l (before after : list T) : Prop :=
  l = before ++ after ∧ Forall (behind target bias) (ends p before) ∧
  match after with x :: _ => ¬ behind target bias (pos p (before ++ [x])) | [] => True end.

Lemma seek_enter_behind target bias p x :
  seek_enter target bias p (item_summary x) = false ↔ behind target bias (dim_add p (item_summary x)).
Proof. unfold seek_enter, behind. destruct (target _), bias; naive_solver. Qed.

Lemma split_at_parts target bias l : ∀ p before after,
  split_at (seek_enter target bias) p l = (before, after) ↔ parts target bias p l before after.
Proof.
  induction l as [|x l IH]; intros p before after; simpl; unfold parts.
  - split; [by intros [= <- <-]|]. by intros ([-> ->]%symmetry%app_eq_nil & _).
  - destruct (seek_enter target bias p (item_summary x)) eqn:He.
    + assert (¬ behind target bias (dim_add p (item_summary x))) as Hb by (rewrite <- seek_enter_behind; congruence).
      split; [by intros [= <- <-]|]. intros (Heq & Hf & _). destruct before as [|y before]; [by rewrite Heq|].
      injection Heq as -> _. by apply Forall_cons in Hf as [? _].
    + apply seek_enter_behind in He. destruct (split_at _ _ l) as [k r] eqn:E. apply IH in E as (-> & Hf & Hr). simpl.
      split; [intros [= <- <-]; split_and!; [done|by constructor|by destruct r]|].
      intros (Heq & Hf' & Hr'). destruct before as [|y before]; [simpl in Heq; subst after; by destruct Hr'|].
      injection Heq as <- Heq. apply Forall_cons in Hf' as [_ Hf'].
      assert (split_at (seek_enter target bias) (dim_add p (item_summary x)) (k ++ r) = (before, after)) as E1.
      { apply IH. split_and!; [done|done|by destruct after]. }
      assert (split_at (seek_enter target bias) (dim_add p (item_summary x)) (k ++ r) = (k, r)) as E2 by (by apply IH).
      rewrite E1 in E2. by injection E2 as -> ->.
Qed.

(** The position a seek compares with the target when it is done. *)
Definition reached (bias : Bias) p (sk rest : list T) : D :=
  match bias, rest with
  | Left, x :: _ => pos p (sk ++ [x])
  | _, _ => pos p sk
  end.

Section seek.
Context {A : Type} `{!SeekAggregate A T S, !SeekAggregateLaws A T S}.

(** A seek forward over the items [r] that lie ahead. *)
Definition seeks target bias b r (res : option (cursor * A * bool)) t : Prop :=
  ∃ sk rest c' a found, split_at (seek_enter target bias) (pos dim_zero b) r = (sk, rest) ∧
    res = Some (c', a, found) ∧ cursor_tree c' = t ∧ cursor_at c' (b ++ sk) rest ∧ holds a sk [] ∧
    found = bool_decide (target (reached bias (pos dim_zero b) sk rest) = Eq).

Lemma seek_result target bias t h b r (w0 : walk T S D A) :
  wf h t → h < 16 → to_list t = b ++ r →
  ends_at (seek_enter target bias) (seek_step (seek_enter target bias)) t h (cost t) w0
    b r (pos dim_zero b) [] →
  seeks target bias b r
    (w ← run walk_live (seek_step (seek_enter target bias)) (cost t) w0;
     let c := {| cursor_tree := t; stack := walk_stack w; position := walk_position w;
                 did_seek := true; at_end := match walk_stack w with [] => true | _ => false end |} in
     end0 ← (if decide (bias = Left) then end_ c else Some (position c));
     Some (c, walk_agg w, match target end0 with Eq => true | _ => false end)) t.
Proof.
  intros Hwf Hh Hl (sk & rest & w & Hs & -> & Ha & Hp & Hset). cbn [mbind option_bind].
  set (c := {| cursor_tree := t; stack := walk_stack w; position := walk_position w;
               did_seek := true; at_end := match walk_stack w with [] => true | _ => false end |}).
  assert (cursor_at c (b ++ sk) rest) as Hc.
  { apply split_at_app in Hs as Hr. subst r. split; simpl; [eauto|by rewrite <- (assoc_L (++))| |done|].
    - by rewrite Hp, pos_app.
    - destruct Hset as [[-> ->]|[Hne Hset]]; [done|]. rewrite bool_decide_eq_false_2 by done.
      by destruct Hset as (? & ? & ? & ? & ? & ? & ? & ? & -> & _). }
  unfold seeks. exists sk, rest, c, (walk_agg w). eexists. split; [done|].
  assert ((if decide (bias = Left) then end_ c else Some (position c)) =
    Some (reached bias (pos dim_zero b) sk rest)) as ->.
  { unfold reached. case_decide as Hb.
    - subst bias. rewrite (end_at _ _ _ Hc). destruct rest; by rewrite <- ?(assoc_L (++)), <- pos_app.
    - destruct bias; [done|]. simpl. by rewrite Hp. }
  simpl. split_and!; try done. by destruct (target _).
Qed.

Lemma seek_internal_coherent target bias c b r a :
  cursor_at c b r → holds a [] [] → target (pos dim_zero b) ≠ Lt →
  coherent (seek_enter target bias) (pos dim_zero b) r →
  seeks target bias b r (seek_internal target bias a c) (cursor_tree c).
Proof.
  intros Hc Ha Ht Hco. pose proof Hc as [(h & Hwf & Hh & Hs) Hl Hp Hd He].
  unfold seek_internal. rewrite Hp, Hd. simpl.
  destruct (target _) eqn:Htg; [|done|]; simpl; (eapply (seek_result _ _ _ h); [done..|]).
  all: destruct Hs as [[-> ->]|[Hne Hs]];
    [exists [], [], (mk_walk [] (pos dim_zero b) a true); destruct (cost _); simpl; split_and!;
       try done; by left|].
  all: apply walk_item; auto using seek_walker.
Qed.

Lemma seek_internal_at target bias c b r a :
  cursor_at c b r → holds a [] [] → target (pos dim_zero b) ≠ Lt → ascending target (pos dim_zero b) r →
  seeks target bias b r (seek_internal target bias a c) (cursor_tree c).
Proof.
  intros Hc Ha Ht Has. apply seek_internal_coherent; [done..|].
  pose proof Hc as [(h & Hwf & Hh & Hs) Hl _ _ _].
  apply (wf_valid h) in Hwf as Hv; rewrite Hl in Hv; apply valid_items_app in Hv as [? ?].
  apply seek_coherent; [apply pos_valid; [apply dvalid_zero|done]|done..].
Qed.

Lemma seek_internal_start_coherent target bias c a :
  cursor_start c → did_seek c = false → holds a [] [] → target dim_zero ≠ Lt →
  coherent (seek_enter target bias) dim_zero (to_list (cursor_tree c)) →
  seeks target bias [] (to_list (cursor_tree c)) (seek_internal target bias a c) (cursor_tree c).
Proof.
  intros [(h & Hwf & Hh) Hst Hp _] Hd Ha Ht Hco. unfold seek_internal. rewrite Hp, Hd, Hst. simpl.
  destruct (target _) eqn:Htg; [|done|]; (eapply (seek_result _ _ _ h); [done..|]).
  all: apply walk_root; auto using seek_walker.
Qed.

Lemma seek_internal_start target bias c a :
  cursor_start c → did_seek c = false → holds a [] [] → target dim_zero ≠ Lt →
  ascending target dim_zero (to_list (cursor_tree c)) →
  seeks target bias [] (to_list (cursor_tree c)) (seek_internal target bias a c) (cursor_tree c).
Proof.
  intros Hc Hd Ha Ht Has. apply seek_internal_start_coherent; [done..|].
  destruct Hc as [(h & Hwf & Hh) _ _ _]. apply seek_coherent; [apply dvalid_zero|by eapply wf_valid|done].
Qed.

End seek.

(** ** Searching forward *)

(** The items before the first one whose summary matches, and the rest. *)
Fixpoint break_at (f : S → bool) l : list T * list T :=
  match l with
  | [] => ([], [])
  | x :: l' => if f (item_summary x) then ([], l) else prod_map (cons x) id (break_at f l')
  end.

Lemma split_at_break f p l : split_at (λ _, f) p l = break_at f l.
Proof. revert p. induction l as [|x l IH]; intros p; simpl; [done|]. by rewrite IH. Qed.

(** A filter is sound for a sequence when the summary of a piece that holds a
    matching item matches too. *)
Definition sound_filter (f : S → bool) l : Prop :=
  ∀ l1 l2 l3, l = l1 ++ l2 ++ l3 → l2 ≠ [] → f (sum_items l2) = false →
    Forall (λ x, f (item_summary x) = false) l2.

Lemma sound_true l : sound_filter (λ _, true) l.
Proof. done. Qed.

Lemma sound_app f l1 l2 : sound_filter f (l1 ++ l2) → sound_filter f l1 ∧ sound_filter f l2.
Proof.
  intros Hs. split; intros k1 k2 k3 ->.
  - apply (Hs k1 k2 (k3 ++ l2)). by rewrite !(assoc_L (++)).
  - apply (Hs (l1 ++ k1) k2 k3). by rewrite !(assoc_L (++)).
Qed.

Lemma coherent_true p l : coherent (λ _, λ _ : S, true) p l.
Proof. done. Qed.

Lemma sound_coherent f p l : dvalid p → valid_items l → sound_filter f l → coherent (λ _, f) p l.
Proof.
  intros Hp Hv Hs l1 l2 l3 -> Hne Hf. apply (Hs _ _ _ eq_refl Hne) in Hf.
  apply valid_items_app in Hv as [? Hv]. apply valid_items_app in Hv as [? _]. split.
  { apply dim_add_sum; [by apply pos_valid|done..]. }
  apply split_at_none. intros k1 x k2 ->. apply Forall_app in Hf as [_ Hf].
  by apply Forall_cons in Hf as [??].
Qed.

Definition forwards f (c : cursor) b l (res : option cursor) : Prop :=
  ∃ c', res = Some c' ∧ cursor_tree c' = cursor_tree c ∧
    cursor_at c' (b ++ (break_at f l).1) (break_at f l).2.

Lemma ends_forwards f c h b l (w0 : walk T S D unit) did e :
  wf h (cursor_tree c) → h < 16 → to_list (cursor_tree c) = b ++ l → did = true → e = false →
  ends_at (λ _, f) (forward_step f) (cursor_tree c) h (cost (cursor_tree c)) w0 b l (pos dim_zero b) [] →
  forwards f c b l
    (w ← run walk_live (forward_step f) (cost (cursor_tree c)) w0;
     Some {| cursor_tree := cursor_tree c; stack := walk_stack w; position := walk_position w;
             did_seek := did; at_end := match walk_stack w with [] => true | _ => e end |}).
Proof.
  intros Hwf Hh Hl -> -> (sk & rest & w & Hs & -> & _ & Hp & Hset). simpl.
  pose proof Hs as Hr. apply split_at_app in Hr. rewrite split_at_break in Hs.
  eexists. split; [done|]. split; [done|]. rewrite Hs. simpl. subst l.
  split; simpl; [eauto|by rewrite <- (assoc_L (++))|by rewrite Hp, pos_app|done|].
  destruct Hset as [[-> ->]|[Hne Hset]]; [done|]. rewrite bool_decide_eq_false_2 by done.
  by destruct Hset as (? & ? & ? & ? & ? & ? & ? & ? & -> & _).
Qed.

Lemma search_forward_start_coherent f c :
  cursor_start c → coherent (λ _, f) dim_zero (to_list (cursor_tree c)) →
  forwards f c [] (to_list (cursor_tree c)) (search_forward f c).
Proof.
  intros [(h & Hwf & Hh) Hst Hp He] Hf. unfold search_forward. rewrite Hst, He, Hp.
  rewrite (wf_is_empty _ _ Hwf). case_bool_decide as Hemp.
  - rewrite Hemp. unfold forwards. simpl. destruct (cost _); simpl.
    all: eexists; (split; [done|]); (split; [done|]); split; simpl; try done.
    all: exists h; split_and!; [done|done|by left].
  - simpl. eapply (ends_forwards f c h []); try done.
    apply walk_root; [apply forward_walker|done..].
Qed.

Lemma search_forward_start f c :
  cursor_start c → sound_filter f (to_list (cursor_tree c)) →
  forwards f c [] (to_list (cursor_tree c)) (search_forward f c).
Proof.
  intros Hc Hf. apply search_forward_start_coherent; [done|]. destruct Hc as [(h & Hwf & _) _ _ _].
  apply sound_coherent; [apply dvalid_zero|by eapply wf_valid|done].
Qed.

Lemma search_forward_end f c b : cursor_at c b [] → search_forward f c = Some c.
Proof.
  intros [(h & Hwf & Hh & Hs) Hl Hp Hd He]. unfold search_forward. destruct c as [t stk q d e]. simpl in *.
  destruct Hs as [[_ ->]|[? _]]; [|done]. subst. destruct (cost t); done.
Qed.

Lemma search_forward_at_coherent f c b x r :
  cursor_at c b (x :: r) → coherent (λ _, f) (pos dim_zero (b ++ [x])) r →
  forwards f c (b ++ [x]) r (search_forward f c).
Proof.
  intros [(h & Hwf & Hh & Hs) Hl Hp Hd He] Hf. unfold search_forward.
  destruct Hs as [[? _]|[_ (s & l & sums & i & q & stk & b' & r' & Hst & Hpath & Hi & -> & Hx)]]; [done|].
  rewrite Hst, Hp, Hd. cbn [mbind option_bind].
  destruct (lookup_lt_is_Some_2 _ _ Hi) as [y Hy]. rewrite (drop_lookup_cons _ _ _ Hy) in Hx.
  simpl in Hx. injection Hx as -> ->. rewrite <- (assoc_L (++)), <- (take_S_r _ _ _ Hy).
  rewrite <- (assoc_L (++)) in Hl.
  rewrite <- (assoc_L (++)), <- (take_S_r _ _ _ Hy) in Hf. rename Hf into Hco.
  apply (ends_forwards f c h); try done.
  { by rewrite (take_S_r _ _ _ Hy), Hl, <- !(assoc_L (++)). }
  pose proof (path_cost _ _ _ _ _ _ _ Hpath) as Hcost.
  apply arrives_ends with (n := 1 + up_cost stk); [done|simpl in Hcost; lia|].
  destruct (path_wf _ _ _ _ _ _ _ Hwf Hpath) as [Hleaf _]. simpl in Hleaf. destruct Hleaf as (-> & -> & _).
  apply arrives_same with (w1 := mk_walk (mk_entry (Leaf (sum_items l) l (item_summary <$> l)) (Datatypes.S i)
    (dim_add q (item_summary y)) :: stk) (pos dim_zero (b' ++ take (Datatypes.S i) l)) () true); [done|done| |].
  { unfold forward_step. simpl. rewrite list_lookup_fmap, Hy. simpl.
    by rewrite (take_S_r _ _ _ Hy), (assoc_L (++)), pos_snoc. }
  apply arrives_app with (stk1 := stk); [done| |].
  - rewrite app_nil_r. eapply walk_leaf; first [apply forward_walker|exact Hwf|done|lia].
  - intros a' _ _. rewrite <- (assoc_L (++)), take_drop.
    eapply (walk_up (λ _, f) (forward_step f) (forward_walker f) (cursor_tree c) h Hwf Hh stk 0
      (Leaf (sum_items l) l (item_summary <$> l)) b' r'); [done| |done|by apply coherent_r].
    simpl. by rewrite <- pos_app, <- (assoc_L (++)), take_drop.
Qed.

Lemma search_forward_at f c b x r :
  cursor_at c b (x :: r) → sound_filter f r → forwards f c (b ++ [x]) r (search_forward f c).
Proof.
  intros Hc Hf. apply search_forward_at_coherent; [done|].
  destruct Hc as [(h & Hwf & _) Hl _ _ _]. apply (wf_valid h) in Hwf as Hv. rewrite Hl in Hv.
  rewrite cons_middle, (assoc_L (++)) in Hv. apply valid_items_app in Hv as [? ?].
  apply sound_coherent; [apply pos_valid; [apply dvalid_zero|done]|done..].
Qed.

(** ** Searching backward *)

(** Where the loop of [search_backward] is after the items [l], behind [b] and
    before [r]: on the last matching item of [l], or back at [stk]. *)
Definition below (stk : list entry) : D := match stk with e :: _ => entry_position e | [] => dim_zero end.

Definition retreats (f : S → bool) (root : tree) (hr n : nat) (w0 : walk T S D unit) stk b l r : Prop :=
  ∃ w m, m ≤ n ∧
    ((∃ l1 x l2, l = l1 ++ x :: l2 ∧ f (item_summary x) = true ∧
       Forall (λ x, f (item_summary x) = false) l2 ∧
       at_item root hr (walk_stack w) (b ++ l1) (x :: l2 ++ r) ∧
       walk_position w = pos dim_zero (b ++ l1) ∧
       ∀ k, run walk_live (backward_step f) (m + k) w0 = Some w) ∨
     (Forall (λ x, f (item_summary x) = false) l ∧ w = mk_walk stk (below stk) () false ∧
       ∀ k, run walk_live (backward_step f) (m + k) w0 = run walk_live (backward_step f) k w)).

Lemma path_below root hr stk h t b r : path root hr stk h t b r → below stk = pos dim_zero b.
Proof. by destruct 1. Qed.

Lemma retreats_le f root hr n n' w0 stk b l r :
  n ≤ n' → retreats f root hr n w0 stk b l r → retreats f root hr n' w0 stk b l r.
Proof. intros Hn (w & m & ? & Hw). exists w, m. split; [lia|done]. Qed.

Lemma retreats_same f root hr n w0 w1 stk b l r :
  walk_live w0 = true → walk_live w1 = true → backward_step f w0 = backward_step f w1 →
  retreats f root hr n w1 stk b l r → retreats f root hr n w0 stk b l r.
Proof.
  intros Hl0 Hl1 Hs (w & m & Hm & Hw). exists w, m. split; [done|].
  destruct Hw as [(l1 & x & l2 & ? & ? & ? & ? & ? & Hk)|(? & ? & Hk)]; [left; exists l1, x, l2|right];
    split_and!; try done; intros k; rewrite <- (Hk k); by apply run_same.
Qed.

Lemma retreats_step f root hr n w0 w1 stk b l r :
  walk_live w0 = true → backward_step f w0 = Some (Continue w1) →
  retreats f root hr n w1 stk b l r → retreats f root hr (Datatypes.S n) w0 stk b l r.
Proof.
  intros Hl0 Hs (w & m & Hm & Hw). exists w, (Datatypes.S m). split; [lia|].
  destruct Hw as [(l1 & x & l2 & ? & ? & ? & ? & ? & Hk)|(? & ? & Hk)]; [left; exists l1, x, l2|right];
    split_and!; try done; intros k; rewrite <- (Hk k); by apply run_Continue.
Qed.

Lemma retreats_skip f root hr n w0 stk b l1 l2 r :
  Forall (λ x, f (item_summary x) = false) l2 →
  retreats f root hr n w0 stk b l1 (l2 ++ r) → retreats f root hr n w0 stk b (l1 ++ l2) r.
Proof.
  intros Hl2 (w & m & Hm & Hw). exists w, m. split; [done|].
  destruct Hw as [(k1 & x & k2 & -> & ? & ? & Hat & ? & ?)|(? & ? & ?)]; [left; exists k1, x, (k2 ++ l2)|right].
  - rewrite <- !(assoc_L (++)) in *. split_and!; try done. by apply Forall_app.
  - split_and!; try done. by apply Forall_app.
Qed.

(** First over [l2], then over [l1]. *)
Lemma retreats_app f root hr n1 n2 w0 stk1 stk2 b l1 l2 r :
  retreats f root hr n1 w0 stk1 (b ++ l1) l2 r →
  (Forall (λ x, f (item_summary x) = false) l2 →
    retreats f root hr n2 (mk_walk stk1 (below stk1) () false) stk2 b l1 (l2 ++ r)) →
  retreats f root hr (n1 + n2) w0 stk2 b (l1 ++ l2) r.
Proof.
  intros (w & m & Hm & [(k1 & x & k2 & -> & ? & ? & Hat & ? & Hk)|(Hl2 & -> & Hk)]) Hnext.
  - exists w, m. split; [lia|]. left. exists (l1 ++ k1), x, k2. rewrite <- !(assoc_L (++)) in *. by split_and!.
  - destruct (retreats_skip _ _ _ _ _ _ _ _ _ _ Hl2 (Hnext Hl2)) as (w2 & m2 & Hm2 & Hw2).
    exists w2, (m + m2). split; [lia|].
    destruct Hw2 as [(k1 & x & k2 & ? & ? & ? & ? & ? & Hk2)|(? & ? & Hk2)]; [left; exists k1, x, k2|right];
      split_and!; try done; intros k; rewrite <- Nat.add_assoc, Hk; apply Hk2.
Qed.

Section backward.
Context (f : S → bool) (root : tree) (hr : nat) (Hroot : wf hr root) (Hhr : hr < 16).

Lemma back_zero node stk q p b r :
  retreats f root hr 1 (mk_walk (mk_entry node 0 q :: stk) p () false) stk b [] r.
Proof.
  exists (mk_walk stk (below stk) () false), 1. split; [done|]. right. split_and!; [constructor|done|].
  intros k. apply run_Continue; [done|]. by destruct stk.
Qed.

Lemma foldl_items p (l : list T) : foldl dim_add p (item_summary <$> l) = pos p l.
Proof. revert p. induction l as [|x l IH]; intros p; simpl; [done|apply IH]. Qed.

Lemma foldl_trees h p (ts : list tree) :
  dvalid p → Forall (wf_child h) ts → foldl dim_add p (tree_summary <$> ts) = pos p (concat (map to_list ts)).
Proof.
  revert p. induction ts as [|t ts IH]; intros p Hp Hts; simpl; [done|].
  apply Forall_cons in Hts as [[Hwf Hne] Hts]. rewrite (dim_add_tree h) by done.
  rewrite pos_app. apply IH; [|done]. by eapply pos_valid, wf_valid.
Qed.

Lemma back_leaf s l sums stk b r :
  path root hr stk 0 (Leaf s l sums) b r → ∀ i q p,
  i ≤ length l → sound_filter f (take i l) →
  retreats f root hr (Datatypes.S i) (mk_walk (mk_entry (Leaf s l sums) i q :: stk) p () false) stk
    b (take i l) (drop i l ++ r).
Proof.
  intros Hpath. destruct (path_wf _ _ _ _ _ _ _ Hroot Hpath) as [Hwf _].
  simpl in Hwf. destruct Hwf as (-> & -> & Hlen & Hv).
  induction i as [|i IH]; intros q p Hi Hf; [rewrite take_0; apply back_zero|].
  destruct (lookup_lt_is_Some_2 l i) as [x Hx]; [lia|]. rewrite (take_S_r _ _ _ Hx) in *.
  assert (backward_step f (mk_walk (mk_entry (Leaf (sum_items l) l (item_summary <$> l)) (Datatypes.S i) q :: stk) p () false)
    = Some (if f (item_summary x)
            then Break (mk_walk (mk_entry (Leaf (sum_items l) l (item_summary <$> l)) i
                   (pos dim_zero (b ++ take i l)) :: stk) (pos dim_zero (b ++ take i l)) () true)
            else Continue (mk_walk (mk_entry (Leaf (sum_items l) l (item_summary <$> l)) i
                   (pos dim_zero (b ++ take i l)) :: stk) (pos dim_zero (b ++ take i l)) () false))) as Hst.
  { unfold backward_step. simpl. rewrite Nat.sub_0_r. fold (below stk).
    rewrite (path_below _ _ _ _ _ _ _ Hpath), decide_True by (rewrite length_fmap; lia).
    rewrite <- fmap_take, foldl_items, <- pos_app, list_lookup_fmap, Hx. simpl. by destruct (f _). }
  destruct (f (item_summary x)) eqn:Hfx.
  - eexists _, 1. split; [lia|]. left. exists (take i l), x, []. split_and!; try done;
      [| |intros k; by apply run_Break]; [|done]. simpl.
    eexists (sum_items l), l, (item_summary <$> l), i, _, stk, b, r. split_and!; [done|done|lia|done|].
    by rewrite (drop_lookup_cons _ _ _ Hx).
  - eapply retreats_step; [done|apply Hst|]. apply retreats_skip; [by constructor|].
    apply sound_app in Hf as [Hf _]. simpl.
    change (x :: drop (Datatypes.S i) l ++ r) with ((x :: drop (Datatypes.S i) l) ++ r).
    rewrite <- (drop_lookup_cons _ _ _ Hx). apply IH; [lia|done].
Qed.

Definition full_entry (t : tree) q : entry := mk_entry t (length (node_child_summaries t)) q.

Lemma wf_child_sums h (c : tree) :
  wf_child h c → ∃ k, length (node_child_summaries c) = Datatypes.S k ∧
    pred_len (node_child_summaries c) = Some k.
Proof.
  intros Hc. destruct h as [|h].
  - apply wf_child_leaf in Hc as (l & -> & _ & Hne & _). destruct l as [|x l]; [done|].
    exists (length l). simpl. by rewrite length_fmap, Nat.sub_0_r.
  - destruct Hc as [Hc _]. apply wf_internal_inv in Hc as ([|t ts] & -> & _ & ? & _); [done|].
    exists (length ts). simpl. by rewrite length_fmap, Nat.sub_0_r.
Qed.

(** The children of a node before the [i]-th, given the walk into one. *)
Lemma back_children h s cs stk b r :
  path root hr stk (Datatypes.S h) (Internal (Datatypes.S h) s (tree_summary <$> cs) cs) b r →
  (∀ (c : tree) stk b r q p, path root hr stk h c b r → sound_filter f (to_list c) →
    retreats f root hr (cost c) (mk_walk (full_entry c q :: stk) p () false) stk b (to_list c) r) →
  ∀ i q p, i ≤ length cs → sound_filter f (concat (map to_list (take i cs))) →
  retreats f root hr (Datatypes.S (costs (take i cs)))
    (mk_walk (mk_entry (Internal (Datatypes.S h) s (tree_summary <$> cs) cs) i q :: stk) p () false)
    stk b (concat (map to_list (take i cs))) (concat (map to_list (drop i cs)) ++ r).
Proof.
  intros Hpath Hdown. pose proof (path_child_wf _ _ _ _ _ _ _ _ Hroot Hpath) as Hcs.
  destruct (path_wf _ _ _ _ _ _ _ Hroot Hpath) as [Hnode Hlen].
  assert (dvalid (pos dim_zero b)) as Hdb.
  { apply pos_valid; [apply dvalid_zero|]. apply path_items in Hpath. apply wf_valid in Hroot.
    rewrite Hpath in Hroot. by apply valid_items_app in Hroot as [? _]. }
  induction i as [|i IH]; intros q p Hi Hf; [rewrite take_0; apply back_zero|].
  destruct (lookup_lt_is_Some_2 cs i) as [c Hc]; [lia|].
  pose proof (path_child _ _ _ _ _ _ _ _ _ _ Hpath Hc) as Hpc.
  destruct (Forall_lookup_1 _ _ _ _ Hcs Hc) as [Hwc Hne].
  rewrite (take_S_concat to_list cs i c Hc) in *. rewrite (take_S_r _ _ _ Hc), costs_app.
  apply sound_app in Hf as [Hf1 Hf2].
  set (e := mk_entry (Internal (Datatypes.S h) s (tree_summary <$> cs) cs) i
    (pos dim_zero (b ++ concat (map to_list (take i cs))))) in *.
  assert (concat (map to_list (drop i cs)) ++ r = to_list c ++ concat (map to_list (drop (Datatypes.S i) cs)) ++ r)
    as Hdrop by (rewrite (drop_lookup_cons _ _ _ Hc); simpl; by rewrite <- (assoc_L (++))).
  assert (∃ n, n < cost c + 1 ∧ retreats f root hr (Datatypes.S n)
    (mk_walk (mk_entry (Internal (Datatypes.S h) s (tree_summary <$> cs) cs) (Datatypes.S i) q :: stk) p () false)
    (e :: stk) (b ++ concat (map to_list (take i cs))) (to_list c)
    (concat (map to_list (drop (Datatypes.S i) cs)) ++ r)) as (n & Hn & Hr).
  { assert (∀ o, (if f (tree_summary c) then
        n ← pred_len (node_child_summaries c);
        stack ← push_entry (mk_entry c n dim_zero) (e :: stk);
        Some (Continue (mk_walk stack (entry_position e) () true))
      else Some (Continue (mk_walk (e :: stk) (entry_position e) () false))) = o →
      backward_step f (mk_walk (mk_entry (Internal (Datatypes.S h) s (tree_summary <$> cs) cs)
        (Datatypes.S i) q :: stk) p () false) = o) as Hst.
    { intros o <-. unfold backward_step. simpl. rewrite Nat.sub_0_r. fold (below stk).
      rewrite (path_below _ _ _ _ _ _ _ Hpath), decide_True by (rewrite length_fmap; lia).
      rewrite <- fmap_take, (foldl_trees h) by (done || by apply Forall_take).
      rewrite <- pos_app, list_lookup_fmap, Hc. simpl. by destruct (f _). }
    destruct (f (tree_summary c)) eqn:Hfc.
    - exists (cost c). split; [lia|].
      destruct (wf_child_sums h c (conj Hwc Hne)) as (k & Hk & Hpk).
      destruct (path_wf _ _ _ _ _ _ _ Hroot Hpc) as [_ Hlc]. simpl in Hlc.
      eapply retreats_step; [done|apply Hst; rewrite Hpk; simpl; unfold push_entry;
        rewrite decide_True by (simpl; lia); reflexivity|].
      eapply retreats_same; [done| | |apply (Hdown c (e :: stk) _ _ dim_zero dim_zero); [exact Hpc|done]]; [done|].
      unfold backward_step, full_entry. simpl. rewrite Hk. simpl. by rewrite Nat.sub_0_r.
    - exists 0. split; [lia|]. eapply retreats_step; [done|by apply Hst|].
      exists (mk_walk (e :: stk) (entry_position e) () false), 0. split; [done|]. right. split_and!; [|done|done].
      apply (Hf2 [] (to_list c) []); [by rewrite app_nil_r|done|]. by rewrite <- (wf_summary _ _ Hwc). }
  eapply retreats_le; [|eapply retreats_app; [exact Hr|intros _]].
  2:{ rewrite <- Hdrop. apply IH; [lia|done]. }
  unfold costs at 3. simpl. lia.
Qed.

Lemma back_down h : ∀ (c : tree) stk b r q p, path root hr stk h c b r → sound_filter f (to_list c) →
  retreats f root hr (cost c) (mk_walk (full_entry c q :: stk) p () false) stk b (to_list c) r.
Proof.
  induction h as [|h IH]; intros c stk b r q p Hpath Hf;
    destruct (path_wf _ _ _ _ _ _ _ Hroot Hpath) as [Hwf _].
  - destruct c as [s l sums|]; [|done]. simpl in Hwf. destruct Hwf as (-> & -> & _).
    pose proof (back_leaf _ _ _ _ _ _ Hpath (length l) q p) as Hb.
    rewrite firstn_all, drop_ge in Hb by done. unfold full_entry. simpl. rewrite length_fmap. by apply Hb.
  - apply wf_internal_inv in Hwf as (cs & -> & _).
    pose proof (back_children h _ cs stk b r Hpath IH (length cs) q p) as Hb.
    rewrite firstn_all, drop_ge in Hb by done. unfold full_entry. simpl. rewrite length_fmap. by apply Hb.
Qed.

(** The rounds left when the loop comes back to the top of this stack. *)
Fixpoint back_cost (stk : list entry) : nat :=
  match stk with
  | [] => 0
  | e :: stk =>
      match entry_tree e with
      | Internal _ _ _ cs => Datatypes.S (costs (take (entry_index e) cs)) + back_cost stk
      | Leaf _ _ _ => back_cost stk
      end
  end.

Lemma path_back_cost stk h t b r : path root hr stk h t b r → back_cost stk + cost t ≤ cost root.
Proof.
  induction 1 as [|stk h s cs i c b r _ IH Hc]; simpl in *; [done|].
  fold (costs cs) in IH. rewrite <- (take_drop i cs), costs_app, (costs_lookup _ _ _ Hc) in IH. lia.
Qed.

Lemma back_up stk h (c : tree) b r p : path root hr stk h c b r → below stk = p → sound_filter f b →
  retreats f root hr (back_cost stk) (mk_walk stk p () false) [] [] b (to_list c ++ r).
Proof.
  intros Hpath. revert p. induction Hpath as [|stk h s cs i c b r Hpath IH Hc]; intros p <- Hf.
  { exists (mk_walk [] dim_zero () false), 0. split; [done|]. right. by split_and!. }
  simpl back_cost. apply sound_app in Hf as [Hf1 Hf2].
  apply (retreats_app _ _ _ (Datatypes.S (costs (take i cs))) (back_cost stk) _ stk).
  - assert (to_list c ++ concat (map to_list (drop (Datatypes.S i) cs)) ++ r =
      concat (map to_list (drop i cs)) ++ r) as ->
      by (rewrite (drop_lookup_cons _ _ _ Hc); simpl; by rewrite <- (assoc_L (++))).
    apply (back_children h); [done|apply back_down| |done]. apply lookup_lt_Some in Hc. lia.
  - intros _. replace (concat (map to_list (take i cs)) ++ to_list c ++
      concat (map to_list (drop (Datatypes.S i) cs)) ++ r) with
      (to_list (Internal (Datatypes.S h) s (tree_summary <$> cs) cs) ++ r); [by apply IH|].
    simpl. rewrite (concat_split to_list cs i c Hc). by rewrite <- !(assoc_L (++)).
Qed.

End backward.

(** The outcome of a backward search over the items [l] before the cursor. *)
Definition backwards f (c : cursor) l r (res : option cursor) : Prop :=
  ∃ c', res = Some c' ∧ cursor_tree c' = cursor_tree c ∧
    ((∃ l1 x l2, l = l1 ++ x :: l2 ∧ f (item_summary x) = true ∧
        Forall (λ x, f (item_summary x) = false) l2 ∧ cursor_at c' l1 (x :: l2 ++ r)) ∨
     (Forall (λ x, f (item_summary x) = false) l ∧ cursor_start c' ∧ did_seek c' = true)).

Lemma retreats_backwards f (c : cursor) h n (w0 : walk T S D unit) l r :
  wf h (cursor_tree c) → h < 16 → to_list (cursor_tree c) = l ++ r → to_list (cursor_tree c) ≠ [] →
  n ≤ cost (cursor_tree c) →
  retreats f (cursor_tree c) h n w0 [] [] l r →
  backwards f c l r
    (w ← run walk_live (backward_step f) (cost (cursor_tree c)) w0;
     Some {| cursor_tree := cursor_tree c; stack := walk_stack w; position := walk_position w;
             did_seek := true; at_end := false |}).
Proof.
  intros Hwf Hh Hl Hne Hn (w & m & Hm & Hw).
  replace (cost (cursor_tree c)) with (m + (cost (cursor_tree c) - m)) by lia.
  destruct Hw as [(l1 & x & l2 & -> & Hx & Hl2 & Hat & Hp & Hk)|(Hall & -> & Hk)].
  - rewrite Hk. simpl. eexists. split; [done|]. split; [done|]. left. exists l1, x, l2.
    split_and!; try done. split; simpl; try done; [|by rewrite Hl, <- (assoc_L (++))].
    exists h. split_and!; [done|done|]. by right.
  - rewrite Hk. eexists. split; [by destruct (_ - _)|]. split; [done|]. right.
    split_and!; [done| |done]. split; simpl; [eauto|done|done|].
    by rewrite (wf_is_empty _ _ Hwf), bool_decide_eq_false_2.
Qed.

(** With nothing to the left of the cursor but its start, all items lie before it. *)
Lemma search_backward_all f (c : cursor) h :
  wf h (cursor_tree c) → h < 16 → stack c = [] → (did_seek c = true → at_end c = true) →
  sound_filter f (to_list (cursor_tree c)) →
  backwards f c (to_list (cursor_tree c)) [] (search_backward f c).
Proof.
  intros Hwf Hh Hst Hd Hf. unfold search_backward.
  assert ((if did_seek c then at_end c else true) = true) as -> by (destruct (did_seek c); auto).
  rewrite (wf_is_empty _ _ Hwf), Hst. case_bool_decide as Hemp.
  - cbn [mbind option_bind]. rewrite Hemp. pose proof (wf_is_empty _ _ Hwf) as He.
    rewrite bool_decide_eq_true_2 in He by done.
    eexists. split; [by destruct (cost _)|]. split; [done|]. right. split_and!; [constructor| |done].
    split; simpl; [eauto|done|done|done].
  - cbn [mbind option_bind]. unfold push_entry. rewrite decide_True by (simpl; lia).
    eapply (retreats_backwards f c h); try done; [by rewrite app_nil_r|].
    eapply (back_down f (cursor_tree c) h Hwf Hh h); [constructor|done].
Qed.

Lemma search_backward_at f c b x r :
  cursor_at c b (x :: r) → sound_filter f b → backwards f c b (x :: r) (search_backward f c).
Proof.
  intros [(h & Hwf & Hh & Hs) Hl Hp Hd He] Hf. unfold search_backward. rewrite Hd, He.
  destruct Hs as [[? _]|[Hne Hs]]; [done|].
  destruct Hs as (s & l & sums & i & q & stk & b' & r' & Hst & Hpath & Hi & -> & Hx).
  rewrite bool_decide_eq_false_2 by done. cbn [mbind option_bind].
  apply sound_app in Hf as [Hf1 Hf2]. pose proof (path_back_cost _ _ Hh _ _ _ _ _ Hpath) as Hcost.
  eapply (retreats_backwards f c h (Datatypes.S i + back_cost stk)); try done.
  { rewrite Hl. by destruct (b' ++ _). }
  { simpl in Hcost. lia. }
  rewrite Hst, Hx. apply (retreats_app _ _ _ _ _ _ stk).
  - apply (back_leaf f (cursor_tree c) h Hwf); try done; lia.
  - intros _. rewrite (assoc_L (++)), take_drop.
    eapply (back_up f (cursor_tree c) h Hwf Hh stk 0 (Leaf s l sums)); [done|done|done].
Qed.

(** ** Iteration *)

Lemma next_at c b x r : cursor_at c b (x :: r) →
  ∃ c', next c = Some c' ∧ cursor_tree c' = cursor_tree c ∧ cursor_at c' (b ++ [x]) r.
Proof.
  intros Hc. destruct (search_forward_at_coherent (λ _, true) _ _ _ _ Hc) as (c' & ? & ? & Hc'); [apply coherent_true|].
  exists c'. split_and!; [done|done|]. destruct r; by rewrite app_nil_r in Hc'.
Qed.

Lemma next_start c : cursor_start c →
  ∃ c', next c = Some c' ∧ cursor_tree c' = cursor_tree c ∧ cursor_at c' [] (to_list (cursor_tree c)).
Proof.
  intros Hc. destruct (search_forward_start_coherent (λ _, true) _ Hc) as (c' & ? & ? & Hc'); [apply coherent_true|].
  exists c'. split_and!; [done|done|]. by destruct (to_list (cursor_tree c)).
Qed.

Lemma cursor_collect_at fuel : ∀ c b r,
  length r < fuel → cursor_at c b r → cursor_collect fuel c = Some r.
Proof.
  induction fuel as [|fuel IH]; intros c b r Hf Hc; [lia|]. simpl. unfold cursor_iterate.
  rewrite (at_did_seek _ _ _ Hc). simpl. rewrite (item_at _ _ _ Hc). simpl.
  destruct r as [|x r]; [done|]. destruct (next_at _ _ _ _ Hc) as (c' & -> & _ & Hc'). simpl.
  by rewrite (IH _ _ _ (proj2 (Nat.succ_lt_mono _ _) Hf) Hc').
Qed.

Lemma cursor_collect_start fuel c :
  length (to_list (cursor_tree c)) < fuel → cursor_start c → did_seek c = false →
  cursor_collect fuel c = Some (to_list (cursor_tree c)).
Proof.
  intros Hf Hc Hd. destruct (next_start _ Hc) as (c' & Hn & Ht & Hc').
  destruct fuel as [|fuel]; [lia|].
  rewrite <- (cursor_collect_at (Datatypes.S fuel) c' [] (to_list (cursor_tree c)) Hf Hc').
  simpl. unfold cursor_iterate. by rewrite Hd, Hn, (at_did_seek _ _ _ Hc').
Qed.

(** The items that match, one after the other. *)
Lemma break_filter f l :
  filter (λ x, f (item_summary x) = true) l =
  match (break_at f l).2 with [] => [] | x :: l' => x :: filter (λ x, f (item_summary x) = true) l' end.
Proof.
  induction l as [|x l IH]; [done|]. simpl. destruct (f (item_summary x)) eqn:Hf.
  - by rewrite filter_cons_True.
  - rewrite filter_cons_False by (by rewrite Hf). by rewrite IH.
Qed.

Lemma break_length f l : length (break_at f l).2 ≤ length l.
Proof. induction l as [|x l IH]; simpl; [done|]. destruct (f _); simpl; lia. Qed.

Lemma break_suffix f l : ∃ k, l = k ++ (break_at f l).2.
Proof.
  induction l as [|x l [k Hk]]; [by exists []|]. simpl. destruct (f _); [by exists []|].
  exists (x :: k). simpl. by rewrite <- Hk.
Qed.

Lemma filter_collect_at f fuel : ∀ c b r,
  length r < fuel → cursor_at c b r → sound_filter f (tail r) →
  filter_collect fuel {| filter_cursor := c; filter_node := f |} =
  Some match r with [] => [] | x :: r => x :: filter (λ x, f (item_summary x) = true) r end.
Proof.
  induction fuel as [|fuel IH]; intros c b r Hl Hc Hf; [lia|]. simpl. unfold filter_iterate, filter_item.
  simpl. rewrite (at_did_seek _ _ _ Hc). simpl. rewrite (item_at _ _ _ Hc). simpl.
  destruct r as [|x r]; [done|]. unfold filter_next. simpl in *.
  destruct (search_forward_at f _ _ _ _ Hc Hf) as (c' & -> & _ & Hc'). simpl.
  assert (length (break_at f r).2 < fuel) as Hlen by (pose proof (break_length f r); lia).
  rewrite (IH _ _ _ Hlen Hc'), <- break_filter; [done|].
  destruct (break_suffix f r) as [k Hk]. rewrite Hk in Hf. apply sound_app in Hf as [_ Hf].
  destruct (break_at f r).2 as [|y r2]; [done|]. by apply (sound_app f [y]) in Hf as [_ ?].
Qed.

Lemma filter_collect_start f fuel c :
  length (to_list (cursor_tree c)) < fuel → cursor_start c → did_seek c = false →
  sound_filter f (to_list (cursor_tree c)) →
  filter_collect fuel {| filter_cursor := c; filter_node := f |} =
  Some (filter (λ x, f (item_summary x) = true) (to_list (cursor_tree c))).
Proof.
  intros Hl Hc Hd Hf. destruct fuel as [|fuel]; [lia|].
  destruct (search_forward_start f _ Hc Hf) as (c' & Hn & _ & Hc').
  rewrite break_filter, <- (filter_collect_at f (Datatypes.S fuel) c' (break_at f (to_list (cursor_tree c))).1).
  - simpl. unfold filter_iterate, filter_next. simpl. rewrite Hd, Hn. simpl.
    by rewrite (at_did_seek _ _ _ Hc').
  - pose proof (break_length f (to_list (cursor_tree c))). lia.
  - done.
  - destruct (break_suffix f (to_list (cursor_tree c))) as [k Hk]. rewrite Hk in Hf.
    apply sound_app in Hf as [_ Hf]. destruct (break_at f _).2 as [|y r2]; [done|].
    by apply (sound_app f [y]) in Hf as [_ ?].
Qed.

(** ** Slices *)

Lemma ascending_end d l : ascending (seek_end (D:=D)) d l.
Proof. unfold ascending. induction (ends d l); constructor; [done|]. by apply Forall_forall. Qed.

Lemma split_end d l : split_at (seek_enter (seek_end (D:=D)) Right) d l = (l, []).
Proof. revert d. induction l as [|x l IH]; intros d; simpl; [done|]. by rewrite IH. Qed.

Lemma slice_seeks target bias b r c t :
  seeks (A:=SliceSeekAggregate T S) target bias b r
    (seek_internal target bias
       {| slice_tree := tree_new; leaf_items := []; leaf_item_summaries := []; leaf_summary := summary_zero |} c) t →
  ∃ sk rest c' u h, split_at (seek_enter target bias) (pos dim_zero b) r = (sk, rest) ∧
    slice target bias c = Some (c', u) ∧ cursor_tree c' = t ∧ cursor_at c' (b ++ sk) rest ∧
    wf h u ∧ to_list u = sk.
Proof.
  intros (sk & rest & c' & a & found & Hs & Hres & Ht & Hc & Ha & _).
  simpl in Ha. destruct Ha as ([h Hu] & Hl & _). exists sk, rest, c', (slice_tree a), h.
  unfold slice. rewrite Hres. by split_and!.
Qed.

Definition empty_slice_holds :
  holds (A:=SliceSeekAggregate T S)
    {| slice_tree := tree_new; leaf_items := []; leaf_item_summaries := []; leaf_summary := summary_zero |} [] [].
Proof. simpl. split_and!; try done; [by exists 0; apply wf_new|lia|constructor]. Qed.

Lemma slice_at target bias (c : Cursor T S D) b r :
  cursor_at c b r → target (pos dim_zero b) ≠ Lt → ascending target (pos dim_zero b) r →
  ∃ sk rest c' u h, split_at (seek_enter target bias) (pos dim_zero b) r = (sk, rest) ∧
    slice target bias c = Some (c', u) ∧ cursor_tree c' = cursor_tree c ∧ cursor_at c' (b ++ sk) rest ∧
    wf h u ∧ to_list u = sk.
Proof. intros. apply slice_seeks, seek_internal_at; [done|apply empty_slice_holds|done..]. Qed.

Lemma slice_new target bias h t :
  wf h t → h < 16 → target dim_zero ≠ Lt → ascending target dim_zero (to_list t) →
  ∃ sk rest c' u h, split_at (seek_enter target bias) dim_zero (to_list t) = (sk, rest) ∧
    slice target bias (cursor_new t : Cursor T S D) = Some (c', u) ∧ cursor_tree c' = t ∧
    cursor_at c' sk rest ∧ wf h u ∧ to_list u = sk.
Proof.
  intros Hwf Hh Ht Ha. apply (slice_seeks target bias [] (to_list t)).
  apply (seek_internal_start (A:=SliceSeekAggregate T S) target bias (cursor_new t));
    [by eapply cursor_new_start|done|apply empty_slice_holds|done|done].
Qed.

Lemma suffix_at (c : Cursor T S D) b r :
  cursor_at c b r → ∃ c' u h, suffix c = Some (c', u) ∧ wf h u ∧ to_list u = r.
Proof.
  intros Hc. destruct (slice_at seek_end Right c b r Hc) as (sk & rest & c' & u & h & Hs & Hsl & _ & _ & Hu & Hl);
    [done|apply ascending_end|].
  rewrite split_end in Hs. injection Hs as <- <-. by exists c', u, h.
Qed.

End facts.

(** ** [SumTree::items] and [Iter], whose positions are [()] *)

Section unit_facts.
Context {T S : Type} `{SummaryLaws S, !Item T S}.
Abbreviation tree := (SumTree T S).
Implicit Types (t : tree) (l b r : list T).

Lemma length_items_cost t : length (to_list t) < cost t.
Proof.
  revert t. fix IH 1. intros [s l sums|h s sums ts]; simpl; [lia|].
  apply Nat.lt_succ_r. induction ts as [|t ts IHts]; simpl; [done|].
  rewrite length_app. pose proof (IH t). lia.
Qed.

Lemma items_from_at fuel : ∀ (c : Cursor T S unit) b r,
  length r < fuel → cursor_at c b r → items_from fuel c = Some r.
Proof.
  induction fuel as [|fuel IH]; intros c b r Hf Hc; [lia|]. simpl. rewrite (item_at _ _ _ Hc). simpl.
  destruct r as [|x r]; [done|]. destruct (next_at _ _ _ _ Hc) as (c' & -> & _ & Hc'). simpl.
  by rewrite (IH _ _ _ (proj2 (Nat.succ_lt_mono _ _) Hf) Hc').
Qed.

Lemma items_spec h t : wf h t → h < 16 → items t = Some (to_list t).
Proof.
  intros Hwf Hh. unfold items. pose proof (cursor_new_start (D:=unit) _ _ Hwf Hh) as Hc.
  destruct (next_start _ Hc) as (c' & -> & _ & Hc'). simpl cursor_tree in Hc'.
  apply (items_from_at _ c' []); [|done]. pose proof (length_items_cost t). simpl. lia.
Qed.

Lemma iter_walker : Walker (T:=T) (S:=S) (λ _, λ _, true) iter_step.
Proof.
  split.
  - done.
  - done.
  - intros s h cs i c stk [] [] Hc _ Hlen e. unfold iter_step. simpl. rewrite Hc. simpl.
    unfold push_entry. by rewrite decide_True by (simpl; lia).
  - intros s h cs stk [] []. unfold iter_step. simpl. by rewrite lookup_ge_None_2.
  - intros s l j [] stk [] [] acc sk rest Hj _ _ _ Hs. exists (). split; [done|].
    assert (sk = [] ∧ rest = drop j l) as [-> ->] by (by destruct (drop j l); simpl in Hs; simplify_eq).
    unfold iter_step. simpl. destruct (drop j l) as [|x k] eqn:E.
    + rewrite lookup_ge_None_2; [done|]. apply (f_equal length) in E. rewrite length_drop in E. simpl in E. lia.
    + apply drop_cons_lookup in E as [-> _]. rewrite Nat.add_0_r. by eexists (), _.
Qed.

(** The iterator stands before the items [r], or has not started yet. *)
Definition iter_at (i : Iter T S) b r : Prop :=
  ∃ h, wf h (iter_tree i) ∧ h < 16 ∧ to_list (iter_tree i) = b ++ r ∧
    settled (iter_tree i) h (iter_stack i) b r.

Lemma ends_iter t h b l (w0 : walk T S unit unit) :
  wf h t → h < 16 → to_list t = b ++ l →
  ends_at (λ _, λ _, true) iter_step t h (cost t) w0 b l () [] →
  ∃ i, (w ← run walk_live iter_step (cost t) w0;
    let i := {| iter_tree := t; iter_stack := walk_stack w |} in
    match walk_stack w with
    | entry :: _ => items ← node_items (entry_tree entry); x ← items !! entry_index entry; Some (i, Some x)
    | [] => Some (i, None)
    end) = Some (i, head l) ∧ iter_tree i = t ∧ iter_at i b l.
Proof.
  intros Hwf Hh Hl (sk & rest & w & Hs & -> & _ & _ & Hset). simpl.
  assert (sk = [] ∧ rest = l) as [-> ->] by (by destruct l; simpl in Hs; simplify_eq).
  rewrite app_nil_r in Hset.
  exists {| iter_tree := t; iter_stack := walk_stack w |}.
  split; [|split; [done|by exists h]]. apply settled_head in Hset.
  destruct (walk_stack w) as [|e stk]; [by subst|].
  destruct Hset as (? & ? & ? & x & -> & Hx & ->). simpl. by rewrite Hx.
Qed.

Lemma iter_next_start t h : wf h t → h < 16 → 
  ∃ i, iter_next (iter_new t) = Some (i, head (to_list t)) ∧ iter_tree i = t ∧ iter_at i [] (to_list t).
Proof.
  intros Hwf Hh. unfold iter_next. simpl. apply (ends_iter t h []); [done..|].
  apply (walk_root _ _ iter_walker t h Hwf Hh ()); [done|].
  intros l1 l2 l3 _ _ Hf. done.
Qed.

Lemma iter_next_at i b x r : iter_at i b (x :: r) →
  ∃ i', iter_next i = Some (i', head r) ∧ iter_tree i' = iter_tree i ∧ iter_at i' (b ++ [x]) r.
Proof.
  intros (h & Hwf & Hh & Hl & [[? _]|[_ Hs]]); [done|].
  destruct Hs as (s & l & sums & j & [] & stk & b' & r' & Hst & Hpath & Hj & -> & Hx).
  unfold iter_next. rewrite Hst. destruct (lookup_lt_is_Some_2 _ _ Hj) as [y Hy].
  rewrite (drop_lookup_cons _ _ _ Hy) in Hx. simpl in Hx. injection Hx as -> ->.
  rewrite <- (assoc_L (++)), <- (take_S_r _ _ _ Hy).
  apply (ends_iter (iter_tree i) h); [done|done| |].
  { by rewrite (take_S_r _ _ _ Hy), Hl, <- !(assoc_L (++)). }
  pose proof (path_cost _ _ _ _ _ _ _ Hpath) as Hcost.
  apply arrives_ends with (n := 1 + up_cost stk); [done|simpl in Hcost; lia|].
  apply arrives_same with (w1 := mk_walk (mk_entry (Leaf s l sums) (Datatypes.S j) () :: stk)
    () () true); [done|done|done|].
  apply arrives_app with (stk1 := stk); [done| |].
  - rewrite app_nil_r. eapply walk_leaf; first [apply iter_walker|exact Hwf|done|lia].
  - intros a' _ _. rewrite <- (assoc_L (++)), take_drop.
    eapply (walk_up _ _ iter_walker (iter_tree i) h Hwf Hh stk 0 (Leaf s l sums) b' r'); [done| |done|].
    + by destruct (pos () _), (pos dim_zero _).
    + by intros ??????.
Qed.

Lemma iter_collect_at fuel : ∀ i b x r,
  length r < fuel → iter_at i b (x :: r) → iter_collect fuel i = Some r.
Proof.
  induction fuel as [|fuel IH]; intros i b x r Hf Hi; [lia|]. simpl.
  destruct (iter_next_at _ _ _ _ Hi) as (i' & -> & _ & Hi'). simpl.
  destruct r as [|y r]; simpl in *; [done|]. by rewrite (IH _ _ _ _ (proj2 (Nat.succ_lt_mono _ _) Hf) Hi').
Qed.

Lemma iter_collect_spec fuel h t :
  wf h t → h < 16 → length (to_list t) < fuel → iter_collect fuel (iter_new t) = Some (to_list t).
Proof.
  intros Hwf Hh Hf. destruct fuel as [|fuel]; [lia|]. simpl.
  destruct (iter_next_start _ _ Hwf Hh) as (i & -> & _ & Hi). simpl.
  destruct (to_list t) as [|x r]; [done|]. simpl in *. by rewrite (iter_collect_at fuel i [] x r); [|lia|].
Qed.

End unit_facts.

Section lossy.
Context {T S D : Type} `{SummaryLaws S, !Item T S, !Dimension D S}.
Implicit Types (b r : list T).

Lemma slice_coherent target bias (c : Cursor T S D) b r :
  cursor_at c b r → target (pos dim_zero b) ≠ Lt → coherent (seek_enter target bias) (pos dim_zero b) r →
  ∃ sk rest c' u h, split_at (seek_enter target bias) (pos dim_zero b) r = (sk, rest) ∧
    slice target bias c = Some (c', u) ∧ cursor_tree c' = cursor_tree c ∧ cursor_at c' (b ++ sk) rest ∧
    wf h u ∧ to_list u = sk.
Proof. intros. apply slice_seeks, seek_internal_coherent; [done|apply empty_slice_holds|done..]. Qed.

Lemma slice_new_coherent target bias h t :
  wf h t → h < 16 → target dim_zero ≠ Lt → coherent (seek_enter target bias) dim_zero (to_list t) →
  ∃ sk rest c' u h, split_at (seek_enter target bias) dim_zero (to_list t) = (sk, rest) ∧
    slice target bias (cursor_new t : Cursor T S D) = Some (c', u) ∧ cursor_tree c' = t ∧
    cursor_at c' sk rest ∧ wf h u ∧ to_list u = sk.
Proof.
  intros Hwf Hh Ht Ha. apply (slice_seeks target bias [] (to_list t)).
  apply (seek_internal_start_coherent (A:=SliceSeekAggregate T S) target bias (cursor_new t));
    [by eapply cursor_new_start|done|apply empty_slice_holds|done|done].
Qed.

(** ** Forgetting positions *)

Definition erase_entry (e : StackEntry T S D) : StackEntry T S unit :=
  mk_entry (entry_tree e) (entry_index e) ().

Definition erase_walk {A} (w : walk T S D A) : walk T S unit A :=
  mk_walk (erase_entry <$> walk_stack w) () (walk_agg w) (walk_descend w).

Definition erase (c : Cursor T S D) : Cursor T S unit :=
  {| cursor_tree := cursor_tree c; stack := erase_entry <$> stack c; position := ();
     did_seek := did_seek c; at_end := at_end c |}.

Definition outcome_map {X Y} (f : X → Y) (o : outcome X) : outcome Y :=
  match o with Continue x => Continue (f x) | Break x => Break (f x) end.

Lemma path_erase root hr stk h t b r :
  path (D:=D) root hr stk h t b r → path (D:=unit) root hr (erase_entry <$> stk) h t b r.
Proof.
  induction 1 as [|stk h summary cs i c b r Hp IH Hc]; [constructor|]. cbn.
  pose proof (path_child _ _ _ _ _ _ _ _ _ _ IH Hc) as Hpath.
  by destruct (pos (D:=unit) _ _) in Hpath.
Qed.

Lemma cursor_at_erase c b r : cursor_at c b r → cursor_at (erase c) b r.
Proof.
  intros [(h & Hwf & Hh & Hs) Hl Hp Hd He]. split; [|done| |done|done].
  - exists h. split_and!; [done..|]. destruct Hs as [[-> Hs]|[Hne (s & items & sums & i & q & stk & b' & r' & Hst & Hpath & Hi & -> & ->)]].
    + left. cbn. by rewrite Hs.
    + right. split; [done|]. exists s, items, sums, i, (), (erase_entry <$> stk), b', r'. cbn. rewrite Hst.
      split_and!; try done. by apply path_erase.
  - cbn. by destruct (pos (D:=unit) _ _).
Qed.

(** A walk that enters nothing. *)
Abbreviation never := (λ _, λ _ : S, false).

Lemma skip_run_erase {X A} (push : A → X → S → option A) children i (p : D) a :
  (λ '(i, _, a), (i, (), a)) <$> skip_run never push children i p a = skip_run never push children i () a.
Proof.
  revert i p a. induction children as [|[x s] children IH]; intros i p a; [done|]. cbn.
  destruct (push a x s) as [a'|]; cbn; [apply IH|reflexivity].
Qed.

Section erase.
Context {A : Type} `{!SeekAggregate A T S}.

Lemma seek_step_erase (w : walk T S D A) :
  outcome_map erase_walk <$> seek_step never w = seek_step never (erase_walk w).
Proof.
  destruct w as [[|[t i q] stk] p a d]; [done|].
  change (erase_walk (mk_walk (mk_entry t i q :: stk) p a d))
    with (mk_walk (mk_entry t i () :: (erase_entry <$> stk)) () a d).
  cbn [seek_step walk_stack entry_tree].
  destruct t as [s items sums|h s sums cs]; cbn [entry_index entry_tree walk_descend walk_agg walk_position].
  - destruct (zip_from i items sums) as [children|]; [|done]. cbn [mbind option_bind].
    pose proof (skip_run_erase push_item children i p (begin_leaf a)) as <-.
    destruct (skip_run _ _ _ _ p _) as [[[i' p'] a']|]; [|done]. cbn.
    destruct (end_leaf a'); [|done]. cbn. by destruct (children !! _).
  - set (e := if d then _ else _). set (e' := if d then mk_entry _ i () else _).
    assert (entry_index e' = entry_index e ∧ e' = erase_entry e) as [-> He] by (subst e e'; by destruct d).
    destruct (zip_from _ cs sums) as [children|]; [|done]. cbn [mbind option_bind].
    pose proof (skip_run_erase push_tree children (entry_index e) p a) as <-.
    destruct (skip_run _ _ _ _ p _) as [[[i' p'] a']|]; [|done]. cbn [fmap option_fmap option_map mbind option_bind].
    destruct (children !! (i' - entry_index e)) as [[child x]|]; [|done].
    unfold push_entry. cbn [length]. rewrite length_fmap.
    destruct (decide _); [|done]. cbn. repeat f_equal. rewrite He. by destruct (decide _).
Qed.

Lemma run_erase f (w : walk T S D A) :
  erase_walk <$> run walk_live (seek_step never) f w = run walk_live (seek_step never) f (erase_walk w).
Proof.
  revert w. induction f as [|f IH]; intros w; cbn.
  - by destruct w as [[] ? ? ?].
  - replace (walk_live (erase_walk w)) with (walk_live w) by (by destruct w as [[] ? ? ?]).
    destruct (walk_live w); [|done]. rewrite <- seek_step_erase.
    destruct (seek_step never w) as [[]|]; cbn; [apply IH|done..].
Qed.
End erase.

(** [suffix] hands out what remains, whatever the dimension. *)
Lemma suffix_any c b r :
  cursor_at c b r → ∃ c' u h, suffix c = Some (c', u) ∧ wf h u ∧ to_list u = r.
Proof.
  intros Hc. destruct (suffix_at _ _ _ (cursor_at_erase _ _ _ Hc)) as (c' & u & h & Hs & Hu & Hl).
  unfold suffix, slice, seek_internal in *. cbn in Hs |- *. rewrite (at_did_seek _ _ _ Hc) in Hs |- *.
  cbn in Hs |- *.
  match type of Hs with context [run ?live ?step ?f ?w] =>
    match goal with |- context [run ?live' ?step' ?f' ?w'] =>
      pose proof (run_erase f' w') as He;
      change (run live step f w) with (run walk_live (seek_step never) f' (erase_walk w')) in Hs;
      change (run live' step' f' w') with (run walk_live (seek_step never) f' w')
    end
  end.
  rewrite <- He in Hs. destruct (run _ _ _ _) as [w|]; [|done]. cbn in Hs |- *.
  injection Hs as _ <-. eexists _, _, h. by split_and!.
Qed.
End lossy.
