(* ===== verification/Keyed.v ===== *)
(** * Keyed: trees of items with a key

    [KeyedItem], [Edit] and the operations [insert_or_replace], [remove],
    [edit] and [get] of [crates/sum_tree/src/sum_tree.rs], proved equal to the
    obvious operations on a sequence sorted by key ([list_insert],
    [list_remove], [list_edit], [list_get]). *)

From S2P Require Import Prelude SumTree SumTreeSpec SumTreeFind Cursor CursorSpec CursorFacts.

Class KeyedItem (T Key : Type) : Type := key : T → Key.

Inductive Edit (T Key : Type) : Type := Edit_Insert (item : T) | Edit_Remove (k : Key).
Arguments Edit_Insert {T Key}. Arguments Edit_Remove {T Key}.

Section keyed.
Context {T S Key : Type} `{Summary S, !Item T S, !Dimension Key S, !Ord Key, !KeyedItem T Key}.
Abbreviation tree := (SumTree T S).

Definition edit_key (e : Edit T Key) : Key :=
  match e with Edit_Insert item => key item | Edit_Remove k => k end.

(** The new tree and the result. *)
Definition insert_or_replace (t : tree) (x : T) : option (tree * option T) :=
  '(cursor, new_tree) ← slice (seek_key (key x)) Left (cursor_new t : Cursor T S Key);
  cursor_item ← item cursor;
  '(replaced, cursor) ←
    match cursor_item with
    | Some y => if eqb_ord (key y) (key x) then c ← next cursor; Some (Some y, c) else Some (None, cursor)
    | None => Some (None, cursor)
    end;
  new_tree ← push new_tree x;
  '(_, rest) ← suffix cursor;
  new_tree ← append new_tree rest;
  Some (new_tree, replaced).

Definition remove (t : tree) (k : Key) : option (tree * option T) :=
  '(cursor, new_tree) ← slice (seek_key k) Left (cursor_new t : Cursor T S Key);
  cursor_item ← item cursor;
  '(removed, cursor) ←
    match cursor_item with
    | Some y => if eqb_ord (key y) k then c ← next cursor; Some (Some y, c) else Some (None, cursor)
    | None => Some (None, cursor)
    end;
  '(_, rest) ← suffix cursor;
  new_tree ← append new_tree rest;
  Some (new_tree, removed).

Definition get (t : tree) (k : Key) : option T := (find_exact t (seek_key k) Left).2.

(** The loop of [edit]: the cursor, [new_tree], [buffered_items], [removed]. *)
Record edit_state : Type := {
  edit_cursor : Cursor T S Key;
  new_tree : tree;
  buffered_items : list T;
  removed : list T
}.

Definition edit_one (st : edit_state) (e : Edit T Key) : option edit_state :=
  let new_key := edit_key e in
  old_item ← item (edit_cursor st);
  '(cursor, tree, buffered, old_item) ←
    (if match old_item with Some old => ltb_ord (key old) new_key | None => false end then
       tree ← extend (new_tree st) (buffered_items st);
       '(cursor, slice) ← slice (seek_key new_key) Left (edit_cursor st);
       tree ← append tree slice;
       old_item ← item cursor;
       Some (cursor, tree, [], old_item)
     else Some (edit_cursor st, new_tree st, buffered_items st, old_item));
  '(cursor, removed) ←
    match old_item with
    | Some old =>
        if eqb_ord (key old) new_key
        then cursor ← next cursor; Some (cursor, removed st ++ [old])
        else Some (cursor, removed st)
    | None => Some (cursor, removed st)
    end;
  let buffered := match e with Edit_Insert item => buffered ++ [item] | Edit_Remove _ => buffered end in
  Some {| edit_cursor := cursor; new_tree := tree; buffered_items := buffered; removed := removed |}.

(** [edit] after [sort_unstable_by_key]. *)
Definition edit_sorted (t : tree) (edits : list (Edit T Key)) : option (tree * list T) :=
  '(cursor, _) ← seek (seek_key dim_zero) Left (cursor_new t : Cursor T S Key);
  st ← foldl_opt edit_one
         {| edit_cursor := cursor; new_tree := tree_new; buffered_items := []; removed := [] |} edits;
  tree ← extend (new_tree st) (buffered_items st);
  '(_, rest) ← suffix (edit_cursor st);
  tree ← append tree rest;
  Some (tree, removed st).

(** The order by key that the edits are sorted in. *)
Definition edit_le (a b : Edit T Key) : Prop := edit_key a ≼ edit_key b.

#[export] Instance edit_le_dec a b : Decision (edit_le a b).
Proof. unfold edit_le, ole. apply _. Defined.

(** The sort of the standard library may leave edits with equal keys in any
    order; this one keeps them as they were. *)
Definition edit (t : tree) (edits : list (Edit T Key)) : option (tree * list T) :=
  match edits with
  | [] => Some (t, [])
  | _ => edit_sorted t (merge_sort edit_le edits)
  end.

(** ** The same on sorted sequences *)

Fixpoint list_insert (x : T) (l : list T) : list T * option T :=
  match l with
  | [] => ([x], None)
  | y :: l' =>
      match cmp (key x) (key y) with
      | Lt => (x :: l, None)
      | Eq => (x :: l', Some y)
      | Gt => prod_map (cons y) id (list_insert x l')
      end
  end.

Fixpoint list_remove (k : Key) (l : list T) : list T * option T :=
  match l with
  | [] => ([], None)
  | y :: l' =>
      match cmp k (key y) with
      | Lt => (l, None)
      | Eq => (l', Some y)
      | Gt => prod_map (cons y) id (list_remove k l')
      end
  end.

Fixpoint list_get (k : Key) (l : list T) : option T :=
  match l with
  | [] => None
  | y :: l' => if eqb_ord (key y) k then Some y else list_get k l'
  end.

Definition list_edit_one (e : Edit T Key) (l : list T) : list T * option T :=
  match e with Edit_Insert x => list_insert x l | Edit_Remove k => list_remove k l end.

(** The edits one after the other, with what they replace or remove. *)
Fixpoint list_edit (edits : list (Edit T Key)) (l : list T) : list T * list T :=
  match edits with
  | [] => (l, [])
  | e :: edits =>
      let '(l, old) := list_edit_one e l in
      prod_map id (app (option_list old)) (list_edit edits l)
  end.

(** Strictly increasing keys. *)
Definition sorted_keys (l : list T) : Prop := StronglySorted (λ x y, key x ≺ key y) l.

End keyed.
Arguments edit_state T S Key : clear implicits.

(** What the trees of a keyed item rely on: the key as a dimension becomes the
    key of the item it passes (as long as keys grow), and its zero is not above
    any key. *)
Class KeyedLaws (T S Key : Type) `{SummaryLaws S, !Item T S, !Dimension Key S, !DimensionLaws Key S,
    !Ord Key, !OrdLaws Key, !KeyedItem T Key} : Prop := {
  dim_add_key (d : Key) (x : T) : d ≼ key x → dim_add d (item_summary x) = key x;
  dim_zero_le (k : Key) : dim_zero ≼ k
}.

Section facts.
Context {T S Key : Type}
  `{KeyedLaws T S Key}.
Abbreviation tree := (SumTree T S).
Implicit Types (t : tree) (l b r : list T) (k : Key).

(** ** Sorted sequences *)

Lemma sorted_app l1 l2 :
  sorted_keys (l1 ++ l2) ↔
  (∀ x y, x ∈ l1 → y ∈ l2 → key x ≺ key y) ∧ sorted_keys l1 ∧ sorted_keys l2.
Proof. apply StronglySorted_app. Qed.

Lemma sorted_cons x l : sorted_keys (x :: l) ↔ Forall (λ y, key x ≺ key y) l ∧ sorted_keys l.
Proof. unfold sorted_keys. rewrite StronglySorted_cons. naive_solver. Qed.

(** A position that lies below the keys ahead. *)
Definition key_below (d : Key) l : Prop := Forall (λ x, d ≼ key x) l.

Lemma zero_below l : key_below dim_zero l.
Proof. apply Forall_true. intros x. apply dim_zero_le. Qed.

Lemma below_sorted x l : sorted_keys (x :: l) → key_below (key x) l.
Proof.
  intros [Hx _]%sorted_cons. eapply Forall_impl; [exact Hx|]. intros y. simpl. apply olt_le.
Qed.

Lemma ends_key d l : sorted_keys l → key_below d l → ends d l = key <$> l.
Proof.
  revert d. induction l as [|x l IH]; intros d Hs Hb; simpl; [done|].
  apply Forall_cons in Hb as [Hx _]. rewrite dim_add_key by done. f_equal.
  apply IH; [by apply sorted_cons in Hs as [_ ?]|by apply below_sorted].
Qed.

Lemma pos_key l x : sorted_keys (l ++ [x]) → pos dim_zero (l ++ [x]) = key x.
Proof.
  intros Hs. assert (l ++ [x] ≠ []) as Hne by (by destruct l).
  destruct (ends_last dim_zero _ Hne) as [es Hes].
  rewrite ends_key, fmap_app in Hes by (done || apply zero_below). simpl in Hes.
  by apply app_inj_tail in Hes as [_ ->].
Qed.

(** The position between two parts of a sorted sequence. *)
Lemma pos_below b r : sorted_keys (b ++ r) → key_below (pos dim_zero b) r.
Proof.
  intros Hs. destruct (decide (b = [])) as [->|Hne]; [apply zero_below|].
  destruct (nonempty_snoc _ Hne) as (b' & x & ->). apply sorted_app in Hs as (Hbr & Hb & _).
  rewrite pos_key by done. apply Forall_forall. intros y Hy. apply olt_le, Hbr; [|done].
  apply elem_of_app. right. by apply list_elem_of_singleton.
Qed.

Lemma ascending_keys k d l : sorted_keys l → key_below d l → ascending (seek_key k) d l.
Proof.
  intros Hs Hb. unfold ascending. rewrite ends_key by done. clear Hb.
  induction Hs as [|x l _ IH Hx]; simpl; constructor; [done|].
  apply Forall_fmap. eapply Forall_impl; [exact Hx|]. intros y Hxy. unfold seek_key, compose.
  destruct (cmp k (key x)) eqn:E1, (cmp k (key y)) eqn:E2; simpl; try lia; exfalso.
  - apply cmp_eq_iff in E1 as ->. unfold olt in Hxy. congruence.
  - apply cmp_eq_iff in E2 as ->. by apply (olt_irrefl (key x)), olt_trans with (key y).
  - apply cmp_gt_lt in E2. apply (olt_irrefl (key y)). apply olt_trans with k; [done|].
    by apply olt_trans with (key x).
Qed.

(** Where a seek to [k] with a bias to the left stops. *)
Lemma split_seek k d l :
  sorted_keys l → key_below d l →
  ∃ sk rest, split_at (seek_enter (seek_key k) Left) d l = (sk, rest) ∧ l = sk ++ rest ∧
    Forall (λ x, key x ≺ k) sk ∧ match rest with [] => True | x :: _ => k ≼ key x end.
Proof.
  revert d. induction l as [|x l IH]; intros d Hs Hb; simpl; [by exists [], []|].
  pose proof (below_sorted _ _ Hs) as Hb'. apply Forall_cons in Hb as [Hx _].
  apply sorted_cons in Hs as [_ Hs]. unfold seek_enter at 1, seek_key at 1. rewrite dim_add_key by done.
  destruct (cmp k (key x)) eqn:E; simpl.
  - exists [], (x :: l). split_and!; try done. unfold ole. by rewrite E.
  - exists [], (x :: l). split_and!; try done. unfold ole. by rewrite E.
  - destruct (IH (key x) Hs Hb') as (sk & rest & -> & -> & Hsk & Hr). exists (x :: sk), rest.
    split_and!; try done. constructor; [|done]. by apply cmp_gt_lt.
Qed.

(** The target of a seek is not behind the items before the cursor. *)
Lemma target_ge k b : sorted_keys b → Forall (λ x, key x ≺ k) b → seek_key k (pos dim_zero b) ≠ Lt.
Proof.
  intros Hs Hb. destruct (decide (b = [])) as [->|Hne].
  - simpl. unfold seek_key. intros E. by apply (proj2 (not_ole dim_zero k) E), dim_zero_le.
  - destruct (nonempty_snoc _ Hne) as (b' & x & ->). rewrite pos_key by done.
    apply Forall_app in Hb as [_ Hb]. rewrite Forall_singleton in Hb.
    unfold seek_key. intros E. by apply (olt_irrefl k), olt_trans with (key x).
Qed.

(** ** The pieces of the operations *)

(** Taking the item with the key [k] off a cursor that stands before it. *)
Lemma take_item (c : Cursor T S Key) b r k :
  cursor_at c b r → sorted_keys r → match r with [] => True | x :: _ => k ≼ key x end →
  ∃ c' b', (cursor_item ← item c;
    match cursor_item with
    | Some y => if eqb_ord (key y) k then c ← next c; Some (Some y, c) else Some (None, c)
    | None => Some (None, c)
    end) = Some ((list_remove k r).2, c') ∧ cursor_at c' b' (list_remove k r).1 ∧ 
    cursor_tree c' = cursor_tree c.
Proof.
  intros Hc Hs Hk. rewrite (item_at _ _ _ Hc). simpl. destruct r as [|x r]; simpl.
  { by exists c, b. }
  unfold eqb_ord. rewrite (cmp_opp k (key x)). unfold ole in Hk. destruct (cmp k (key x)) eqn:E; simpl; [|by exists c, b|done].
  destruct (next_at _ _ _ _ Hc) as (c' & -> & Ht & Hc'). by exists c', (b ++ [x]).
Qed.

Lemma list_remove_skip k l1 l2 :
  Forall (λ x, key x ≺ k) l1 → list_remove k (l1 ++ l2) = prod_map (app l1) id (list_remove k l2).
Proof.
  induction 1 as [|x l1 Hx _ IH]; simpl; [by destruct (list_remove k l2)|].
  apply cmp_gt_lt in Hx. rewrite Hx, IH. by destruct (list_remove k l2).
Qed.

Lemma list_insert_skip x l1 l2 :
  Forall (λ y, key y ≺ key x) l1 → list_insert x (l1 ++ l2) = prod_map (app l1) id (list_insert x l2).
Proof.
  induction 1 as [|y l1 Hy _ IH]; simpl; [by destruct (list_insert x l2)|].
  apply cmp_gt_lt in Hy. rewrite Hy, IH. by destruct (list_insert x l2).
Qed.

(** Behind the smaller keys, inserting is putting in front of what remains
    without the key. *)
Lemma list_insert_remove x r :
  match r with [] => True | y :: _ => key x ≼ key y end →
  list_insert x r = prod_map (cons x) id (list_remove (key x) r).
Proof. destruct r as [|y r]; simpl; [done|]. unfold ole. by destruct (cmp _ _). Qed.

(** ** The operations *)

Lemma remove_spec h t k :
  wf h t → h < 16 → sorted_keys (to_list t) →
  ∃ u, remove t k = Some (u, (list_remove k (to_list t)).2) ∧ (∃ h', wf h' u) ∧
    to_list u = (list_remove k (to_list t)).1.
Proof.
  intros Hwf Hh Hs. unfold remove.
  destruct (slice_new (seek_key k) Left h t Hwf Hh) as (sk & rest & c & u & hu & Hsp & -> & Ht & Hc & Hu & <-);
    [by apply (target_ge k []); [constructor|]|apply ascending_keys; [done|apply zero_below]|]. simpl.
  destruct (split_seek k dim_zero _ Hs (zero_below _)) as (sk' & rest' & Hsp' & Hl & Hsk & Hr).
  rewrite Hsp in Hsp'. injection Hsp' as <- <-. rewrite Hl in *.
  apply sorted_app in Hs as (_ & _ & Hs).
  destruct (take_item c _ _ k Hc Hs Hr) as (c' & b' & Htk & Hc' & _).
  destruct (item c) as [ci|]; simpl in Htk |- *; [|done]. rewrite Htk. simpl.
  destruct (suffix_at _ _ _ Hc') as (c2 & v & hv & -> & Hv & Hlv). simpl.
  destruct (append_spec hu u hv v Hu Hv) as (w & hw & -> & Hw & Hlw). simpl.
  rewrite list_remove_skip by done. exists w. simpl. split_and!; [done|eauto|]. by rewrite Hlw, Hlv.
Qed.

Lemma insert_or_replace_spec h t x :
  wf h t → h < 16 → sorted_keys (to_list t) → valid (item_summary x) →
  ∃ u, insert_or_replace t x = Some (u, (list_insert x (to_list t)).2) ∧ (∃ h', wf h' u) ∧
    to_list u = (list_insert x (to_list t)).1.
Proof.
  intros Hwf Hh Hs Hx. unfold insert_or_replace.
  destruct (slice_new (seek_key (key x)) Left h t Hwf Hh) as (sk & rest & c & u & hu & Hsp & -> & Ht & Hc & Hu & <-);
    [by apply (target_ge (key x) []); [constructor|]|apply ascending_keys; [done|apply zero_below]|]. simpl.
  destruct (split_seek (key x) dim_zero _ Hs (zero_below _)) as (sk' & rest' & Hsp' & Hl & Hsk & Hr).
  rewrite Hsp in Hsp'. injection Hsp' as <- <-. rewrite Hl in *.
  apply sorted_app in Hs as (_ & _ & Hs).
  destruct (take_item c _ _ (key x) Hc Hs Hr) as (c' & b' & Htk & Hc' & _).
  destruct (item c) as [ci|]; simpl in Htk |- *; [|done]. rewrite Htk. simpl.
  destruct (push_spec hu u x Hu Hx) as (u1 & h1 & -> & Hu1 & Hl1). simpl.
  destruct (suffix_at _ _ _ Hc') as (c2 & v & hv & -> & Hv & Hlv). simpl.
  destruct (append_spec h1 u1 hv v Hu1 Hv) as (w & hw & -> & Hw & Hlw). simpl.
  rewrite list_insert_skip, list_insert_remove by done. exists w. simpl.
  split_and!; [done|eauto|]. by rewrite Hlw, Hl1, Hlv, <- (assoc_L (++)).
Qed.

Lemma get_spec h t k :
  wf h t → sorted_keys (to_list t) → get t k = list_get k (to_list t).
Proof.
  intros Hwf Hs. unfold get, find_exact.
  destruct (decide (to_list t = [])) as [Hnil|Hne].
  { rewrite Hnil. pose proof (wf_is_empty _ _ Hwf) as He. rewrite bool_decide_eq_true_2 in He by done.
    destruct t; [|done]. simpl in Hnil. subst items. unfold find_gen. simpl. destruct h; [|done].
    destruct Hwf as (-> & _). by destruct (skips _ _). }
  destruct (find_gen_spec true (seek_key k) Left h t) as (res & Hag & -> & _);
    [done|done|apply ascending_keys; [done|apply zero_below]|done|].
  assert (∀ l d pv, sorted_keys l → key_below d l →
    match (scan (λ e, entry_found true (seek_key k e) Left) pv d l).1 with
    | Some (_, x, _) => list_get k l = Some x | None => list_get k l = None end) as Hscan.
  { clear Hwf Hs Hne res Hag. intros l. induction l as [|x l IH]; intros d pv Hs Hb; simpl; [done|].
    pose proof (below_sorted _ _ Hs) as Hb'. apply Forall_cons in Hb as [Hx _].
    apply sorted_cons in Hs as [_ Hs]. rewrite dim_add_key by done.
    unfold seek_key, eqb_ord. rewrite (cmp_opp k (key x)).
    destruct (cmp k (key x)); simpl; [done|by apply IH..]. }
  specialize (Hscan (to_list t) dim_zero None Hs (zero_below _)). unfold agrees in Hag.
  destruct (scan _ _ _ _) as [[[[pv x] e]|] p]; simpl in *; [by subst res|].
  destruct res as [[|] ?]; simpl in *; [done|]. by rewrite Hscan.
Qed.

(** ** [edit] *)

Definition edit_items (e : Edit T Key) : list T :=
  match e with Edit_Insert x => [x] | Edit_Remove _ => [] end.

Definition valid_edit (e : Edit T Key) : Prop := valid_items (edit_items e).

Lemma list_edit_one_skip (e : Edit T Key) l1 l2 :
  Forall (λ x, key x ≺ edit_key e) l1 → list_edit_one e (l1 ++ l2) = prod_map (app l1) id (list_edit_one e l2).
Proof. destruct e; [apply list_insert_skip|apply list_remove_skip]. Qed.

Lemma list_edit_one_remove (e : Edit T Key) r :
  match r with [] => True | y :: _ => edit_key e ≼ key y end →
  list_edit_one e r = prod_map (app (edit_items e)) id (list_remove (edit_key e) r).
Proof. destruct e as [x|k]; simpl; [apply list_insert_remove|]. by destruct (list_remove k r). Qed.

(** The state between two edits: the cursor stands behind [b] and before [r],
    and [done] is finished; both hold only keys that satisfy [P]. *)
Record editing (P : Key → Prop) (st : edit_state T S Key) (done r : list T) : Prop := {
  editing_cursor : ∃ b, cursor_at (edit_cursor st) b r ∧ Forall (λ x, P (key x)) b ∧ sorted_keys (b ++ r);
  editing_tree : ∃ h, wf h (new_tree st);
  editing_done : done = to_list (new_tree st) ++ buffered_items st;
  editing_valid : valid_items (buffered_items st);
  editing_keys : Forall (λ x, P (key x)) done;
  editing_sorted : sorted_keys r
}.

Lemma editing_weaken (P Q : Key → Prop) st done r :
  (∀ k, P k → Q k) → editing P st done r → editing Q st done r.
Proof.
  intros HPQ [(b & ? & ? & ?) ? ? ? ? ?]. split; try done.
  - exists b. split_and!; try done. eapply Forall_impl; [done|]. simpl. auto.
  - eapply Forall_impl; [done|]. simpl. auto.
Qed.

(** Up to the edited key. *)
Lemma edit_advance k st done r :
  editing (λ j, j ≺ k) st done r →
  ∃ sk rest c t bf, r = sk ++ rest ∧ match rest with [] => True | x :: _ => k ≼ key x end ∧
    editing (λ j, j ≺ k)
      {| edit_cursor := c; new_tree := t; buffered_items := bf; removed := removed st |} (done ++ sk) rest ∧
    (old_item ← item (edit_cursor st);
     (if match old_item with Some old => ltb_ord (key old) k | None => false end then
        tree ← extend (new_tree st) (buffered_items st);
        '(cursor, slice) ← slice (seek_key k) Left (edit_cursor st);
        tree ← append tree slice;
        old_item ← item cursor;
        Some (cursor, tree, [], old_item)
      else Some (edit_cursor st, new_tree st, buffered_items st, old_item))) =
    Some (c, t, bf, head rest).
Proof.
  intros [(b & Hc & Hb & Hbr) [h Ht] Hd Hv Hk Hs]. rewrite (item_at _ _ _ Hc). simpl.
  pose proof (pos_below _ _ Hbr) as Hbelow.
  destruct (match head r with Some old => ltb_ord (key old) k | None => false end) eqn:Hlt.
  - destruct (extend_yields h (new_tree st) (buffered_items st) Ht Hv) as (t1 & h1 & -> & Ht1 & Hl1). simpl.
    destruct (slice_at (seek_key k) Left _ _ _ Hc) as (sk & rest & c & u & hu & Hsp & -> & _ & Hc' & Hu & Hlu);
      [apply target_ge; [by apply sorted_app in Hbr as (_ & ? & _)|done]|by apply ascending_keys|]. simpl.
    destruct (append_spec h1 t1 hu u Ht1 Hu) as (t2 & h2 & -> & Ht2 & Hl2). simpl.
    rewrite (item_at _ _ _ Hc'). simpl.
    destruct (split_seek k (pos dim_zero b) r Hs Hbelow) as (sk' & rest' & Hsp' & -> & Hsk & Hr).
    rewrite Hsp in Hsp'. injection Hsp' as <- <-. apply sorted_app in Hs as (_ & _ & Hs).
    exists sk, rest, c, t2, []. split_and!; [done|done| |done]. split; simpl.
    + exists (b ++ sk). split_and!; [done|by apply Forall_app|by rewrite <- (assoc_L (++))].
    + eauto.
    + by rewrite app_nil_r, Hl2, Hl1, Hlu, Hd.
    + constructor.
    + by apply Forall_app.
    + done.
  - exists [], r, (edit_cursor st), (new_tree st), (buffered_items st). rewrite app_nil_r.
    split_and!; [done| |split; simpl; eauto|done].
    destruct r as [|x r]; [done|]. simpl in Hlt. apply not_olt. intros Hx%ltb_ord_spec. congruence.
Qed.

Lemma edit_one_spec e st done r :
  valid_edit e → editing (λ j, j ≺ edit_key e) st done r →
  ∃ st' done' r' old, edit_one st e = Some st' ∧ editing (λ j, j ≼ edit_key e) st' done' r' ∧
    list_edit_one e (done ++ r) = (done' ++ r', old) ∧ removed st' = removed st ++ option_list old.
Proof.
  intros Hve Hst. destruct (edit_advance _ _ _ _ Hst) as (sk & rest & c & t & bf & -> & Hr & Hst1 & Hadv).
  unfold edit_one. destruct (item (edit_cursor st)) as [oi|]; [|done]. simpl in Hadv |- *. rewrite Hadv. simpl.
  pose proof Hst1 as [(b & Hc & Hb & Hbr) [h Ht] Hd Hv Hk Hs]. simpl in *.
  rewrite (assoc_L (++)), list_edit_one_skip, list_edit_one_remove by done.
  destruct (take_item c _ _ (edit_key e) Hc Hs Hr) as (c' & b' & Htk & Hc' & Htree).
  rewrite (item_at _ _ _ Hc) in Htk. simpl in Htk.
  assert (∃ r', list_remove (edit_key e) rest = (r', (list_remove (edit_key e) rest).2) ∧ sorted_keys r' ∧
    ∃ kk : list T, Forall (λ x, key x ≼ edit_key e) kk ∧ rest = kk ++ r') as (r' & Hrem & Hs' & kk & Hkk & Hrest).
  { destruct rest as [|x rest]; simpl; [exists []; split_and!; try done; by exists []|].
    unfold ole in Hr. destruct (cmp (edit_key e) (key x)) eqn:E; [| |done]; simpl.
    - exists rest. apply sorted_cons in Hs as [_ Hs]. split_and!; [done|done|]. exists [x].
      split; [|done]. rewrite Forall_singleton. apply cmp_eq_iff in E as ->. apply ole_refl.
    - exists (x :: rest). split_and!; [done|done|]. by exists []. }
  rewrite Hrem in Hc' |- *. simpl in *.
  exists {| edit_cursor := c'; new_tree := t; buffered_items := bf ++ edit_items e;
            removed := removed st ++ option_list (list_remove (edit_key e) rest).2 |},
    ((done ++ sk) ++ edit_items e), r', (list_remove (edit_key e) rest).2.
  split_and!.
  - destruct (head rest) as [old|] eqn:Hhd; simpl in *.
    + destruct (eqb_ord (key old) (edit_key e)); [destruct (next c) as [c1|]; simpl in *; [|done]|];
        injection Htk as <- ->; simpl; rewrite ?app_nil_r; destruct e; simpl; by rewrite ?app_nil_r.
    + injection Htk as <- ->. simpl. rewrite app_nil_r. destruct e; simpl; by rewrite ?app_nil_r.
  - split; simpl.
    + exists b'. assert (b' = b ++ kk) as ->.
      { pose proof (at_items _ _ _ Hc) as E1. pose proof (at_items _ _ _ Hc') as E2.
        rewrite Htree, E1, Hrest, (assoc_L (++)) in E2. by apply app_inv_tail in E2. }
      split_and!; [done| |by rewrite <- (assoc_L (++)), <- Hrest].
      apply Forall_app. split; [|done]. eapply Forall_impl; [exact Hb|]. intros ?; simpl. apply olt_le.
    + eauto.
    + by rewrite Hd, <- (assoc_L (++)).
    + apply valid_items_app. done.
    + apply Forall_app. split; [eapply Forall_impl; [exact Hk|]; intros ?; simpl; apply olt_le|].
      destruct e; simpl; constructor; [apply ole_refl|done].
    + done.
  - simpl. by rewrite !(assoc_L (++)).
  - done.
Qed.

Lemma edit_loop_spec edits : ∀ st done r,
  StronglySorted (λ e e' : Edit T Key, edit_key e ≺ edit_key e') edits → Forall valid_edit edits →
  editing (λ j, Forall (λ e, j ≺ edit_key e) edits) st done r →
  ∃ st' done' r', foldl_opt edit_one st edits = Some st' ∧ editing (λ _, True) st' done' r' ∧
    list_edit edits (done ++ r) = (done' ++ r', drop (length (removed st)) (removed st')) ∧
    take (length (removed st)) (removed st') = removed st.
Proof.
  induction edits as [|e edits IH]; intros st done r Hse Hv Hst.
  { exists st, done, r. simpl. rewrite drop_ge, firstn_all by done. split_and!; try done.
    by eapply editing_weaken; [|exact Hst]. }
  apply StronglySorted_cons in Hse as [He Hse]. apply Forall_cons in Hv as [Hve Hv].
  destruct (edit_one_spec e st done r Hve) as (st1 & done1 & r1 & old & Hst1 & Hed & Hl & Hrem).
  { eapply editing_weaken; [|exact Hst]. simpl. by intros k [? _]%Forall_cons. }
  destruct (IH st1 done1 r1 Hse Hv) as (st2 & done2 & r2 & Hst2 & Hed2 & Hl2 & Htk).
  { eapply editing_weaken; [|exact Hed]. intros k Hk. eapply Forall_impl; [exact He|].
    intros e' He'. by apply ole_lt_trans with (edit_key e). }
  exists st2, done2, r2. simpl foldl_opt. rewrite Hst1. simpl. rewrite Hst2. split_and!; [done|done| |].
  - rewrite Hl. simpl. rewrite Hl2. simpl. f_equal.
    rewrite <- (take_drop (length (removed st1)) (removed st2)) at 2.
    rewrite Htk, Hrem, <- (assoc_L (++)), drop_app_length. done.
  - rewrite Hrem, length_app in Htk. apply (f_equal (take (length (removed st)))) in Htk.
    by rewrite take_take, take_app_length, Nat.min_l in Htk by lia.
Qed.

(** Edits with increasing keys act one after the other. *)
Lemma edit_sorted_spec h t edits :
  wf h t → h < 16 → sorted_keys (to_list t) →
  StronglySorted (λ e e' : Edit T Key, edit_key e ≺ edit_key e') edits → Forall valid_edit edits →
  ∃ u, edit_sorted t edits = Some (u, (list_edit edits (to_list t)).2) ∧ (∃ h', wf h' u) ∧
    to_list u = (list_edit edits (to_list t)).1.
Proof.
  intros Hwf Hh Hs Hse Hv. unfold edit_sorted, seek.
  assert (seeks (A:=unit) (seek_key dim_zero) Left [] (to_list t)
    (seek_internal (seek_key dim_zero) Left () (reset (cursor_new t : Cursor T S Key))) t) as Hseek.
  { apply (seek_internal_start (seek_key dim_zero) Left (reset (cursor_new t))); simpl.
    - split; simpl; eauto.
    - done.
    - done.
    - by apply (target_ge dim_zero []); [constructor|].
    - apply ascending_keys; [done|apply zero_below]. }
  destruct Hseek as (sk & rest & c & [] & found & Hsp & -> & Ht & Hc & _). simpl in *.
  destruct (split_seek dim_zero dim_zero _ Hs (zero_below _)) as (sk' & rest' & Hsp' & Hl & Hsk & _).
  rewrite Hsp in Hsp'. injection Hsp' as <- <-.
  assert (sk = []) as ->.
  { destruct sk as [|x sk]; [done|]. apply Forall_cons in Hsk as [Hx _].
    destruct (proj2 (not_ole dim_zero (key x)) Hx). apply dim_zero_le. }
  simpl in *. subst rest.
  destruct (edit_loop_spec edits {| edit_cursor := c; new_tree := tree_new; buffered_items := [];
    removed := [] |} [] (to_list t) Hse Hv) as (st & done & r & -> & Hed & Hle & _).
  { split; simpl; try done; [by exists []|by exists 0; apply wf_new|constructor]. }
  simpl. destruct Hed as [(b & Hcb & _) [h1 Ht1] Hd Hv1 _ _].
  destruct (extend_yields h1 _ _ Ht1 Hv1) as (t2 & h2 & -> & Ht2 & Hl2). simpl.
  destruct (suffix_at _ _ _ Hcb) as (c' & v & hv & -> & Hv' & Hlv). simpl.
  destruct (append_spec h2 t2 hv v Ht2 Hv') as (u & hu & -> & Hu & Hlu). simpl.
  simpl in Hle. rewrite Hle. simpl. exists u. rewrite drop_0. split_and!; [done|eauto|].
  by rewrite Hlu, Hl2, Hlv, Hd.
Qed.

(** ** Sorted sequences as finite maps *)

Lemma list_get_elem k l : sorted_keys l → ∀ x, list_get k l = Some x ↔ x ∈ l ∧ key x = k.
Proof.
  induction l as [|y l IH]; intros Hs x; simpl.
  { split; [done|]. by intros [?%elem_of_nil _]. }
  apply sorted_cons in Hs as [Hy Hs]. rewrite elem_of_cons. unfold eqb_ord.
  destruct (cmp (key y) k) eqn:E.
  - apply cmp_eq_iff in E as <-. split; [intros [= ->]; auto|]. intros [[->|Hx] Hk]; [done|].
    rewrite Forall_forall in Hy. apply Hy in Hx. rewrite Hk in Hx. by apply olt_irrefl in Hx.
  - rewrite IH by done. split; [naive_solver|]. intros [[->|Hx] Hk]; [|done].
    apply cmp_eq_iff in Hk. congruence.
  - rewrite IH by done. split; [naive_solver|]. intros [[->|Hx] Hk]; [|done].
    apply cmp_eq_iff in Hk. congruence.
Qed.

Lemma list_get_None k l : list_get k l = None ↔ ∀ x, x ∈ l → key x ≠ k.
Proof.
  induction l as [|y l IH]; simpl.
  { split; [|done]. by intros _ x ?%elem_of_nil. }
  assert (key y ≠ k → list_get k l = None ↔ (∀ x, x ∈ y :: l → key x ≠ k)) as Hne.
  { intros Hy. rewrite IH. setoid_rewrite elem_of_cons. naive_solver. }
  unfold eqb_ord. pose proof (cmp_eq_iff (key y) k) as Hyk.
  destruct (cmp (key y) k); [|apply Hne; intuition congruence..].
  split; [done|]. intros Hall. destruct (Hall y); [by apply elem_of_cons; left|by apply Hyk].
Qed.

(** Splitting a sorted sequence at a key. *)
Lemma sorted_split k l :
  sorted_keys l →
  ∃ l1 l2, l = l1 ++ l2 ∧ Forall (λ x, key x ≺ k) l1 ∧ Forall (λ x, k ≼ key x) l2.
Proof.
  intros Hs. destruct (split_seek k dim_zero l Hs (zero_below _)) as (l1 & l2 & _ & -> & H1' & H2').
  exists l1, l2. split_and!; try done. apply sorted_app in Hs as (_ & _ & Hs).
  destruct l2 as [|x l2]; constructor; [done|]. apply sorted_cons in Hs as [Hx _].
  eapply Forall_impl; [exact Hx|]. intros y Hy. simpl. apply olt_le. by apply ole_lt_trans with (key x).
Qed.

(** The three parts around a key, and what removal and insertion make of them. *)
Lemma sorted_parts k l :
  sorted_keys l →
  ∃ l1 m l2, l = l1 ++ option_list m ++ l2 ∧ list_get k l = m ∧
    Forall (λ x, key x ≺ k) l1 ∧ Forall (λ x, key x = k) (option_list m) ∧ Forall (λ x, k ≺ key x) l2 ∧
    list_remove k l = (l1 ++ l2, m) ∧ (∀ x, key x = k → list_insert x l = (l1 ++ x :: l2, m)).
Proof.
  intros Hs. destruct (sorted_split k l Hs) as (l1 & l2 & -> & Hl1 & Hl2).
  apply sorted_app in Hs as (_ & Hs1 & Hs2).
  assert (∀ m, list_get k (l1 ++ m) = list_get k m) as Hget.
  { clear Hs1 Hs2. induction Hl1 as [|x l1 Hx _ IH]; intros m; simpl; [done|].
    unfold eqb_ord. unfold olt in Hx. by rewrite Hx. }
  destruct l2 as [|y l2].
  { exists l1, None, []. simpl. rewrite Hget, (list_remove_skip k l1 []) by done. split_and!; try done.
    intros x <-. by rewrite (list_insert_skip x l1 []). }
  apply Forall_cons in Hl2 as [Hy Hl2]. apply sorted_cons in Hs2 as [Hyl Hs2].
  destruct (cmp k (key y)) eqn:E.
  - apply cmp_eq_iff in E as ->. exists l1, (Some y), l2. simpl. rewrite Hget, list_remove_skip by done.
    simpl. unfold eqb_ord. rewrite cmp_refl. simpl. split_and!; try done; [by constructor|].
    intros x Hx. rewrite list_insert_skip by (by rewrite Hx). simpl. by rewrite Hx, cmp_refl.
  - exists l1, None, (y :: l2). simpl. rewrite Hget, list_remove_skip by done. simpl. rewrite E. simpl.
    split_and!; try done.
    + unfold eqb_ord. rewrite (cmp_opp k (key y)), E. simpl.
      apply list_get_None. intros x Hx <-. rewrite Forall_forall in Hyl. apply Hyl in Hx.
      apply (olt_irrefl (key x)). by apply olt_trans with (key y).
    + constructor; [done|]. eapply Forall_impl; [exact Hyl|]. intros x Hx. simpl.
      by apply olt_trans with (key y).
    + intros x <-. rewrite list_insert_skip by done. simpl. by rewrite E.
  - by destruct (Hy E).
Qed.

Lemma sorted_insert x l : sorted_keys l → sorted_keys (list_insert x l).1.
Proof.
  intros Hs. destruct (sorted_parts (key x) l Hs) as (l1 & m & l2 & -> & _ & Hl1 & _ & Hl2 & _ & Hi).
  rewrite Hi by done. simpl. apply sorted_app in Hs as (Hs12 & Hs1 & Hs2).
  apply sorted_app in Hs2 as (_ & _ & Hs2). rewrite Forall_forall in Hl1.
  apply sorted_app. split_and!; [|done|by apply sorted_cons].
  intros a b Ha [->|Hb]%elem_of_cons; [by apply Hl1|]. apply Hs12; [done|]. apply elem_of_app. by right.
Qed.

Lemma sorted_remove k l : sorted_keys l → sorted_keys (list_remove k l).1.
Proof.
  intros Hs. destruct (sorted_parts k l Hs) as (l1 & m & l2 & -> & _ & _ & _ & _ & -> & _). simpl.
  apply sorted_app in Hs as (Hs12 & Hs1 & Hs2). apply sorted_app in Hs2 as (_ & _ & Hs2).
  apply sorted_app. split_and!; [|done..]. intros a b Ha Hb. apply Hs12; [done|]. apply elem_of_app. by right.
Qed.

Lemma list_insert_old x l : sorted_keys l → (list_insert x l).2 = list_get (key x) l.
Proof.
  intros Hs. destruct (sorted_parts (key x) l Hs) as (l1 & m & l2 & _ & -> & _ & _ & _ & _ & Hi).
  by rewrite Hi.
Qed.

Lemma list_remove_old k l : sorted_keys l → (list_remove k l).2 = list_get k l.
Proof. intros Hs. by destruct (sorted_parts k l Hs) as (l1 & m & l2 & _ & -> & _ & _ & _ & -> & _). Qed.

Lemma option_eq_some {A} (a b : option A) : (∀ x, a = Some x ↔ b = Some x) → a = b.
Proof. intros Hab. destruct a as [x|]; [symmetry; by apply Hab|]. destruct b as [y|]; [|done]. by apply Hab. Qed.

Lemma list_get_insert x l k :
  sorted_keys l → list_get k (list_insert x l).1 = if eqb_ord (key x) k then Some x else list_get k l.
Proof.
  intros Hs. pose proof (sorted_insert x l Hs) as Hs'. unfold eqb_ord.
  destruct (sorted_parts (key x) l Hs) as (l1 & m & l2 & -> & _ & Hl1 & Hm & Hl2 & _ & Hi).
  rewrite Hi in Hs' |- * by done. simpl in *. apply option_eq_some. intros y.
  rewrite list_get_elem by done. rewrite elem_of_app, elem_of_cons. pose proof (cmp_eq_iff (key x) k) as Hc.
  rewrite Forall_forall in Hl1, Hl2, Hm.
  assert (cmp (key x) k ≠ Eq → list_get k (l1 ++ option_list m ++ l2) = Some y ↔ y ∈ l1 ++ x :: l2 ∧ key y = k) as Hne.
  { intros Hn. rewrite list_get_elem by done. rewrite !elem_of_app, elem_of_cons.
    specialize (Hm y). split; intros [Hy Hk]; split; try done; [|destruct Hy as [?|[->|?]]; auto; naive_solver].
    destruct Hy as [?|[Hy|?]]; auto. apply Hm in Hy. naive_solver. }
  rewrite elem_of_app, elem_of_cons in Hne.
  destruct (cmp (key x) k); [|symmetry; by apply Hne..].
  destruct Hc as [Hc _]. specialize (Hc eq_refl). subst k. split.
  - intros [[Hy|[->|Hy]] Hk]; [|done|].
    + apply Hl1 in Hy. rewrite Hk in Hy. by apply olt_irrefl in Hy.
    + apply Hl2 in Hy. rewrite Hk in Hy. by apply olt_irrefl in Hy.
  - intros [= ->]. auto.
Qed.

Lemma list_get_remove k l k' :
  sorted_keys l → list_get k' (list_remove k l).1 = if eqb_ord k k' then None else list_get k' l.
Proof.
  intros Hs. pose proof (sorted_remove k l Hs) as Hs'. unfold eqb_ord.
  destruct (sorted_parts k l Hs) as (l1 & m & l2 & -> & _ & Hl1 & Hm & Hl2 & Hr & _).
  rewrite Hr in Hs' |- *. simpl in *. pose proof (cmp_eq_iff k k') as Hc.
  rewrite Forall_forall in Hl1, Hl2, Hm. destruct (cmp k k') eqn:E.
  - apply list_get_None. destruct Hc as [Hc _]. specialize (Hc eq_refl). subst k'.
    intros x [Hx|Hx]%elem_of_app Hk; [apply Hl1 in Hx|apply Hl2 in Hx]; rewrite Hk in Hx;
      by apply olt_irrefl in Hx.
  - apply option_eq_some. intros y. rewrite !list_get_elem, !elem_of_app by done. naive_solver.
  - apply option_eq_some. intros y. rewrite !list_get_elem, !elem_of_app by done. naive_solver.
Qed.

(** ** Seeks and slices by key *)

Lemma split_at_skips target bias d l sk rest :
  sorted_keys l → key_below d l →
  ascending target d l → split_at (seek_enter target bias) d l = (sk, rest) →
  l = sk ++ rest ∧ Forall (λ x, skips (target (key x)) bias = true) sk ∧
  Forall (λ x, skips (target (key x)) bias = false) rest.
Proof.
  intros Hso Hb. unfold ascending. rewrite ends_key by done. revert d sk Hb.
  induction l as [|x l IH]; intros d sk Hb Hs; simpl.
  { by intros [= <- <-]. }
  pose proof (below_sorted _ _ Hso) as Hb'. apply Forall_cons in Hb as [Hdx _].
  apply sorted_cons in Hso as [_ Hso].
  apply StronglySorted_cons in Hs as [Hx Hs]. unfold seek_enter at 1. rewrite dim_add_key by done.
  destruct (skips (target (key x)) bias) eqn:E; simpl.
  - destruct (split_at _ _ l) as [sk' rest'] eqn:Hsp. simpl. intros [= <- <-].
    destruct (IH Hso (key x) sk' Hb' Hs Hsp) as (-> & ? & ?). split_and!; try done. by constructor.
  - intros [= <- <-]. split_and!; try done. constructor; [done|].
    apply Forall_fmap in Hx. eapply Forall_impl; [exact Hx|]. intros y Hy. simpl in Hy.
    destruct (skips (target (key y)) bias) eqn:Ey; [|done]. by rewrite (skips_rank _ _ _ Hy Ey) in E.
Qed.

(** The targets that can be sought in a sorted sequence. *)
Definition seekable target l : Prop :=
  sorted_keys l ∧ target dim_zero ≠ Lt ∧ ascending target dim_zero l.

Lemma seekable_key k l : sorted_keys l → seekable (seek_key k) l.
Proof.
  intros Hs. split; [done|]. split; [by apply (target_ge k []); [constructor|]|].
  apply ascending_keys; [done|apply zero_below].
Qed.

Lemma seek_split target bias h (c : Cursor T S Key) :
  wf h (cursor_tree c) → h < 16 → seekable target (to_list (cursor_tree c)) →
  ∃ c' found sk rest, seek target bias c = Some (c', found) ∧ cursor_tree c' = cursor_tree c ∧
    cursor_at c' sk rest ∧ to_list (cursor_tree c) = sk ++ rest ∧
    Forall (λ x, skips (target (key x)) bias = true) sk ∧
    Forall (λ x, skips (target (key x)) bias = false) rest.
Proof.
  intros Hwf Hh (Hs & Ht & Ha).
  destruct (seek_internal_start (A:=unit) target bias (reset c) ())
    as (sk & rest & c' & [] & found & Hsp & Hres & Htree & Hc & _); [|done|done|done|done|].
  { split; simpl; eauto. }
  destruct (split_at_skips _ _ _ _ _ _ Hs (zero_below _) Ha Hsp) as (Hl & ? & ?).
  exists c', found, sk, rest. unfold seek. rewrite Hres. by split_and!.
Qed.

Lemma slice_split target bias h t :
  wf h t → h < 16 → seekable target (to_list t) →
  ∃ c u hu sk rest, slice target bias (cursor_new t : Cursor T S Key) = Some (c, u) ∧ cursor_tree c = t ∧
    cursor_at c sk rest ∧ wf hu u ∧ to_list u = sk ∧ to_list t = sk ++ rest ∧
    Forall (λ x, skips (target (key x)) bias = true) sk ∧
    Forall (λ x, skips (target (key x)) bias = false) rest.
Proof.
  intros Hwf Hh (Hs & Ht & Ha).
  destruct (slice_new target bias h t Hwf Hh Ht Ha) as (sk & rest & c & u & hu & Hsp & ? & ? & ? & ? & ?).
  destruct (split_at_skips _ _ _ _ _ _ Hs (zero_below _) Ha Hsp) as (Hl & ? & ?).
  exists c, u, hu, sk, rest. by split_and!.
Qed.

Lemma seek_key_skips k x : skips (seek_key k (key x)) Left = true ↔ key x ≺ k.
Proof. unfold seek_key. unfold olt. rewrite (cmp_opp k (key x)). by destruct (cmp k (key x)). Qed.

Lemma seek_key_stays k x : skips (seek_key k (key x)) Left = false ↔ k ≼ key x.
Proof. unfold seek_key, ole. by destruct (cmp k (key x)). Qed.

Lemma seek_key_skips_right k x : skips (seek_key k (key x)) Right = true ↔ key x ≼ k.
Proof. unfold seek_key, ole. rewrite (cmp_opp k (key x)). by destruct (cmp k (key x)). Qed.

Lemma seek_key_stays_right k x : skips (seek_key k (key x)) Right = false ↔ k ≺ key x.
Proof. unfold seek_key, olt. by destruct (cmp k (key x)). Qed.

(** Slicing up to a key, and looking at what the slice stops at. *)
Lemma slice_key h t k :
  wf h t → h < 16 → sorted_keys (to_list t) →
  ∃ c u hu sk rest, slice (seek_key k) Left (cursor_new t : Cursor T S Key) = Some (c, u) ∧
    cursor_at c sk rest ∧ wf hu u ∧ to_list u = sk ∧ to_list t = sk ++ rest ∧
    Forall (λ x, key x ≺ k) sk ∧ Forall (λ x, k ≼ key x) rest ∧ sorted_keys rest ∧
    end_ c = Some (match rest with x :: _ => key x | [] => pos dim_zero sk end) ∧
    (∃ c' b', match rest with
       | [] => True
       | x :: r => next c = Some c' ∧ cursor_at c' b' r
       end).
Proof.
  intros Hwf Hh Hs.
  destruct (slice_split (seek_key k) Left h t Hwf Hh) as (c & u & hu & sk & rest & ? & Ht & Hc & ? & ? & Hl & Hsk & Hr);
    [by apply seekable_key|].
  exists c, u, hu, sk, rest. split_and!; try done.
  - eapply Forall_impl; [exact Hsk|]. intros x. apply seek_key_skips.
  - eapply Forall_impl; [exact Hr|]. intros x. apply seek_key_stays.
  - rewrite Hl in Hs. by apply sorted_app in Hs as (_ & _ & ?).
  - rewrite (end_at _ _ _ Hc). destruct rest as [|x r]; [done|]. rewrite pos_key; [done|].
    rewrite Hl in Hs. apply (sorted_app (sk ++ [x]) r). by rewrite <- (assoc_L (++)).
  - destruct rest as [|x r]; [by exists c, sk|].
    destruct (next_at _ _ _ _ Hc) as (c' & ? & _ & ?). by exists c', (sk ++ [x]).
Qed.

(** The position after smaller keys is not the key. *)
Lemma pos_ne k sk :
  sorted_keys sk → dim_zero ≠ k → Forall (λ x, key x ≺ k) sk → pos dim_zero sk ≠ k.
Proof.
  intros Hs Hz Hsk. destruct (decide (sk = [])) as [->|Hne]; [done|].
  destruct (nonempty_snoc _ Hne) as (sk' & x & ->). rewrite pos_key by done.
  apply Forall_app in Hsk as [_ Hx]. rewrite Forall_singleton in Hx. intros <-. by apply olt_irrefl in Hx.
Qed.

(** ** Edits in any order *)

Lemma sorted_edit_one (e : Edit T Key) l : sorted_keys l → sorted_keys (list_edit_one e l).1.
Proof. destruct e; [apply sorted_insert|apply sorted_remove]. Qed.

Lemma list_get_edit_one (e : Edit T Key) l k :
  sorted_keys l →
  list_get k (list_edit_one e l).1 =
    if eqb_ord (edit_key e) k then head (edit_items e) else list_get k l.
Proof. destruct e; [apply list_get_insert|apply list_get_remove]. Qed.

(** After edits with distinct keys, an edited key is what its edit says, and
    the others are as before. *)
Lemma list_edit_get edits : ∀ l,
  sorted_keys l → NoDup (edit_key <$> edits : list Key) →
  sorted_keys (list_edit edits l).1 ∧
  (∀ e, e ∈ edits → list_get (edit_key e) (list_edit edits l).1 = head (edit_items e)) ∧
  (∀ k, k ∉ edit_key <$> edits → list_get k (list_edit edits l).1 = list_get k l).
Proof.
  induction edits as [|e edits IH]; intros l Hs Hnd; simpl.
  { split_and!; try done. by intros e ?%elem_of_nil. }
  simpl in Hnd. apply NoDup_cons in Hnd as [Hn Hnd].
  pose proof (list_get_edit_one e l) as Hget. pose proof (sorted_edit_one e l Hs) as Hs1.
  destruct (list_edit_one e l) as [l1 old]. simpl in *. specialize (λ k, Hget k Hs).
  destruct (IH l1 Hs1 Hnd) as (Hs' & Hin & Hout). split_and!; [done| |].
  - intros e' [->|He]%elem_of_cons; [|by apply Hin]. rewrite Hout, Hget by done.
    unfold eqb_ord. by rewrite cmp_refl.
  - intros k Hk. apply not_elem_of_cons in Hk as [Hne Hk]. rewrite Hout, Hget by done.
    unfold eqb_ord. destruct (cmp (edit_key e) k) eqn:E; try done. apply cmp_eq_iff in E. by destruct Hne.
Qed.

(** What is replaced or removed is what was there, in the order of the edits. *)
Lemma list_edit_old edits : ∀ l,
  sorted_keys l → NoDup (edit_key <$> edits : list Key) →
  (list_edit edits l).2 = omap (λ e, list_get (edit_key e) l) edits.
Proof.
  induction edits as [|e edits IH]; intros l Hs Hnd; simpl; [done|].
  simpl in Hnd. apply NoDup_cons in Hnd as [Hn Hnd].
  pose proof (list_get_edit_one e l) as Hget. pose proof (sorted_edit_one e l Hs) as Hs1.
  assert ((list_edit_one e l).2 = list_get (edit_key e) l) as Hold
    by (destruct e; [by apply list_insert_old|by apply list_remove_old]).
  destruct (list_edit_one e l) as [l1 old]. simpl in *. rewrite (IH l1 Hs1 Hnd), <- Hold.
  assert (omap (λ e, list_get (edit_key e) l1) edits = omap (λ e, list_get (edit_key e) l) edits) as ->.
  { apply list_omap_ext, Forall2_same_length_lookup_2; [done|]. intros i e1 e2 H1' H2'.
    assert (e1 = e2) as -> by congruence. rewrite Hget by done. unfold eqb_ord.
    destruct (cmp (edit_key e) (edit_key e2)) eqn:E; try done. apply cmp_eq_iff in E.
    destruct Hn. rewrite E. by eapply list_elem_of_fmap_2, list_elem_of_lookup_2. }
  by destruct old.
Qed.

(** Sorted edits with distinct keys are in increasing order. *)
Lemma edits_increasing (edits : list (Edit T Key)) :
  StronglySorted edit_le edits → NoDup (edit_key <$> edits) →
  StronglySorted (λ e e' : Edit T Key, edit_key e ≺ edit_key e') edits.
Proof.
  intros Hs. induction Hs as [|e es Hs IH He]; intros Hnd; constructor; simpl in Hnd;
    apply NoDup_cons in Hnd as [Hn Hnd]; [by apply IH|].
  rewrite Forall_forall in He |- *. intros e' He'. specialize (He _ He'). unfold edit_le in He.
  apply ole_iff in He as [?|Heq]; [done|]. destruct Hn. rewrite Heq. by apply list_elem_of_fmap_2.
Qed.

Lemma merge_sorted (edits : list (Edit T Key)) : StronglySorted edit_le (merge_sort edit_le edits).
Proof.
  assert (Transitive (edit_le (T:=T) (Key:=Key))) as Htr.
  { intros e1 e2 e3 H12 H23. unfold edit_le in *. by apply ole_trans with (edit_key e2). }
  assert (Total (edit_le (T:=T) (Key:=Key))) as Htot by (intros e1 e2; apply ole_total).
  apply StronglySorted_merge_sort; done.
Qed.

(** However the standard library sorts the edits. *)
Lemma edit_sorted_get h t edits sorted :
  wf h t → h < 16 → sorted_keys (to_list t) → NoDup (edit_key <$> edits) → Forall valid_edit edits →
  sorted ≡ₚ edits → StronglySorted edit_le sorted →
  ∃ u, edit_sorted t sorted = Some (u, omap (λ e, list_get (edit_key e) (to_list t)) sorted) ∧
    (∃ h', wf h' u) ∧ sorted_keys (to_list u) ∧
    (∀ e, e ∈ edits → list_get (edit_key e) (to_list u) = head (edit_items e)) ∧
    (∀ k, k ∉ edit_key <$> edits → list_get k (to_list u) = list_get k (to_list t)).
Proof.
  intros Hwf Hh Hs Hnd Hv Hp Hso. rewrite <- Hp in Hnd, Hv.
  destruct (edit_sorted_spec h t sorted Hwf Hh Hs) as (u & -> & Hu & Hl); [by apply edits_increasing|done|].
  destruct (list_edit_get sorted (to_list t) Hs Hnd) as (Hs' & Hin & Hout).
  exists u. rewrite Hl, list_edit_old by done. split_and!; try done.
  - intros e He. apply Hin. by rewrite Hp.
  - intros k Hk. apply Hout. by rewrite Hp.
Qed.

Lemma edit_spec h t edits :
  wf h t → h < 16 → sorted_keys (to_list t) → NoDup (edit_key <$> edits) → Forall valid_edit edits →
  ∃ u old, edit t edits = Some (u, old) ∧ (∃ h', wf h' u) ∧ sorted_keys (to_list u) ∧
    (∀ e, e ∈ edits → list_get (edit_key e) (to_list u) = head (edit_items e)) ∧
    (∀ k, k ∉ edit_key <$> edits → list_get k (to_list u) = list_get k (to_list t)).
Proof.
  intros Hwf Hh Hs Hnd Hv. destruct edits as [|e0 edits0] eqn:Heq.
  { exists t, []. split_and!; eauto. by intros e ?%elem_of_nil. }
  rewrite <- Heq in *. assert (edit t edits = edit_sorted t (merge_sort edit_le edits)) as -> by (by subst).
  destruct (edit_sorted_get h t edits (merge_sort edit_le edits) Hwf Hh Hs Hnd Hv) as (u & -> & ?);
    [apply merge_sort_Permutation|apply merge_sorted|]. by eexists u, _.
Qed.

End facts.
