(* ===== verification/TreeMapFacts.v ===== *)
(** * TreeMapFacts: the operations of [TreeMap] on its entries

    A map is its entries in the order of their keys ([map_of]); every operation
    succeeds and acts on them as on a finite map. *)

From S2P Require Import Prelude SumTree SumTreeSpec SumTreeFind Cursor CursorSpec CursorFacts Keyed TreeMap.

Section facts.
Context {K V : Type} `{OrdLaws K}.
Abbreviation map := (map_tree K V).
Abbreviation E := (MapEntry K V).
Implicit Types (m : map) (l : list E) (k : K) (v : V).

Abbreviation mk k := {| map_key := Some k |} (only parsing).

(** The map [m], of height below the capacity of a cursor, holds the entries [l]. *)
Definition map_of m l : Prop := ∃ h, wf h m ∧ h < 16 ∧ to_list m = l ∧ sorted_keys (Key:=MapKey K) l.

(** The outcome of an operation that changes the map. *)
Definition becomes l (t : map) : Prop :=
  (∃ h, wf h t) ∧ to_list t = l ∧ sorted_keys (Key:=MapKey K) l.

Definition lookup k l : option V := option_map entry_value (list_get (mk k) l).

Lemma key_mk (e : E) : key e = mk (entry_key e).
Proof. done. Qed.

Lemma cmp_mk k k' : cmp (mk k) (mk k') = cmp k k'.
Proof. done. Qed.

Lemma get_becomes m l k : becomes l m → TreeMap.get m k = lookup k l.
Proof.
  intros ((h & Hwf) & <- & Hs). unfold TreeMap.get, lookup, find.
  destruct (decide (to_list m = [])) as [Hnil|Hne].
  { rewrite Hnil. pose proof (wf_is_empty _ _ Hwf) as He. rewrite bool_decide_eq_true_2 in He by done.
    destruct m; [|done]. simpl in Hnil. subst items. destruct h; [|done]. destruct Hwf as (-> & _).
    unfold find_gen. simpl. by destruct (skips _ _). }
  destruct (find_gen_spec false (seek_key (mk k)) Left h m) as (res & Hag & -> & _);
    [done|done|apply ascending_keys; [done|apply zero_below]|done|].
  simpl in Hag. subst res. pose proof (located_scan (not_skipped (seek_key (mk k)) Left) (to_list m) Hne) as Hloc.
  destruct (scan _ _ _ _) as [[[[pv x] e]|] p]; simpl in *.
  - destruct Hloc as (l1 & l2 & Hl & _ & _ & -> & Hl1 & Hx).
    unfold not_skipped in Hx. apply negb_true_iff, (seek_key_stays (mk k) x) in Hx.
    destruct (sorted_parts (mk k) _ Hs) as (l1' & mm & l2' & Hl' & Hget & Hl1' & Hm & Hl2' & _).
    unfold eqb_ord. change (cmp (Some k) (Some (entry_key x))) with (cmp (mk k) (key x)).
    destruct (cmp (mk k) (key x)) eqn:Ec.
    + apply cmp_eq_iff in Ec. 
      assert (list_get (mk k) (to_list m) = Some x) as ->; [|done].
      apply list_get_elem; [done|]. split; [|by rewrite Ec]. rewrite Hl. apply elem_of_app. right.
      apply elem_of_cons. by left.
    + assert (list_get (mk k) (to_list m) = None) as ->; [|done].
      apply list_get_None. intros y Hy Hk. rewrite Hl in Hy, Hs. apply sorted_app in Hs as (_ & Hs1 & Hs).
      apply sorted_cons in Hs as [Hxl _]. rewrite Forall_forall in Hxl.
      apply elem_of_app in Hy as [Hy|[->|Hy]%elem_of_cons].
      * rewrite ends_key, Forall_fmap, Forall_forall in Hl1 by first [done | exact (zero_below (S:=MapKey K) _)]. specialize (Hl1 _ Hy). simpl in Hl1.
        unfold not_skipped in Hl1. apply negb_false_iff, seek_key_skips in Hl1. rewrite Hk in Hl1.
        by apply olt_irrefl in Hl1.
      * rewrite Hk, cmp_refl in Ec. done.
      * specialize (Hxl _ Hy). rewrite Hk in Hxl. unfold olt in Hxl.
        rewrite (cmp_opp (mk k) (key x)), Ec in Hxl. done.
    + by destruct (Hx Ec).
  - destruct Hloc as [Hall _]. assert (list_get (mk k) (to_list m) = None) as ->; [|done].
    apply list_get_None. intros y Hy Hk. rewrite ends_key, Forall_fmap, Forall_forall in Hall by first [done | exact (zero_below (S:=MapKey K) _)].
    specialize (Hall _ Hy). simpl in Hall. unfold not_skipped in Hall.
    apply negb_false_iff, seek_key_skips in Hall. rewrite Hk in Hall. by apply olt_irrefl in Hall.
Qed.

Lemma get_spec_map m l k : map_of m l → TreeMap.get m k = lookup k l.
Proof. intros (h & ? & _ & ? & ?). apply get_becomes. split_and!; eauto. Qed.

Lemma insert_map m l k v :
  map_of m l →
  ∃ t l', TreeMap.insert_or_replace m k v = Some (t, lookup k l) ∧ TreeMap.insert m k v = Some t ∧
    becomes l' t ∧ (∀ k', lookup k' l' = if eqb_ord k k' then Some v else lookup k' l).
Proof.
  intros (h & Hwf & Hh & <- & Hs). unfold TreeMap.insert, TreeMap.insert_or_replace.
  destruct (insert_or_replace_spec (Key:=MapKey K) h m {| entry_key := k; entry_value := v |} Hwf Hh Hs I)
    as (t & -> & Ht & Hl). simpl. rewrite list_insert_old by done.
  exists t, (list_insert (Key:=MapKey K) {| entry_key := k; entry_value := v |} (to_list m)).1.
  split; [done|]. split; [done|]. split; [by split_and!; [| |apply sorted_insert]|].
  intros k'. unfold lookup.
  rewrite list_get_insert by done. unfold eqb_ord. rewrite key_mk, cmp_mk. simpl. by destruct (cmp k k').
Qed.

Lemma head_key k (rest : list E) :
  (∃ x r, rest = x :: r ∧ key x = mk k) ∨ ¬ (∃ x r, rest = x :: r ∧ key x = mk k).
Proof.
  destruct rest as [|x r]; [right; naive_solver|]. pose proof (cmp_eq_iff (key x) (mk k)) as Hc.
  destruct (cmp (key x) (mk k)); [left; exists x, r; naive_solver|right; naive_solver..].
Qed.

(** Beyond smaller keys, a cursor that does not stand on the key does not end at it. *)
Lemma not_reached k (sk rest : list E) :
  sorted_keys (Key:=MapKey K) sk → Forall (λ x, key x ≺ mk k) sk → ¬ (∃ x r, rest = x :: r ∧ key x = mk k) →
  eqb_ord (mk k) match rest with x :: _ => key x | [] => pos dim_zero sk end = false.
Proof.
  intros Hs Hsk Hno. unfold eqb_ord. destruct (cmp _ _) eqn:Ec; try done. apply cmp_eq_iff in Ec.
  destruct rest as [|x r]; [by destruct (pos_ne (mk k) sk)|]. destruct Hno. by exists x, r.
Qed.

Lemma remove_map m l k :
  map_of m l →
  ∃ t l', TreeMap.remove m k = Some (t, lookup k l) ∧ becomes l' t ∧
    (∀ k', lookup k' l' = if eqb_ord k k' then None else lookup k' l).
Proof.
  intros (h & Hwf & Hh & <- & Hs). unfold TreeMap.remove.
  destruct (slice_key h m (mk k) Hwf Hh Hs)
    as (c & u & hu & sk & rest & -> & Hc & Hu & Hlu & Hl & Hsk & Hr & Hsr & Hend & c' & b' & Hn).
  simpl. rewrite Hend. simpl.
  destruct (sorted_parts (mk k) _ Hs) as (l1 & mm & l2 & _ & Hget & _ & _ & _ & Hrem & _).
  pose proof (list_remove_skip (mk k) sk rest Hsk) as Hrem'. rewrite <- Hl, Hrem in Hrem'.
  assert (∀ (c1 : map_cursor K V) b1 r, cursor_at c1 b1 r → l1 ++ l2 = sk ++ r →
    ∃ c2 w t, suffix c1 = Some (c2, w) ∧ append u w = Some t ∧ becomes (l1 ++ l2) t) as Hfin.
  { intros c1 b1 r Hc1 Hr1. destruct (suffix_at _ _ _ Hc1) as (c2 & w & hw & Hsu & Hw & Hlw).
    destruct (append_spec hu u hw w Hu Hw) as (t & ht & Ht & Hwt & Hlt). exists c2, w, t.
    split_and!; [done|done|]. split; [eauto|]. split; [by rewrite Hlt, Hlu, Hlw|].
    pose proof (sorted_remove (mk k) _ Hs) as Hsr'. by rewrite Hrem in Hsr'. }
  assert (∀ k', lookup k' (l1 ++ l2) = if eqb_ord k k' then None else lookup k' (to_list m)) as Hlk.
  { intros k'. unfold lookup. pose proof (list_get_remove (mk k) (to_list m) (mk k') Hs) as Hg.
    rewrite Hrem in Hg. simpl in Hg. rewrite Hg. unfold eqb_ord. rewrite cmp_mk. by destruct (cmp k k'). }
  rewrite <- Hget in *. fold (lookup k (to_list m)).
  destruct (head_key k rest) as [(x & r & -> & Hk)|Hno].
  - rewrite Hk. unfold eqb_ord at 1. rewrite cmp_refl, (item_at _ _ _ Hc). simpl.
    destruct Hn as [-> Hc']. simpl in Hrem'. rewrite Hk, cmp_refl in Hrem'. simpl in Hrem'.
    injection Hrem' as Hl12 Hg. simpl.
    destruct (Hfin _ _ _ Hc' Hl12) as (c2 & w & t & -> & Hap & Hb). simpl. rewrite Hap. simpl.
    exists t, (l1 ++ l2). unfold lookup at 1. by rewrite Hg.
  - assert (list_remove (mk k) rest = (rest, None)) as Hrr.
    { destruct rest as [|x r]; [done|]. simpl. apply Forall_cons in Hr as [Hx _]. unfold ole in Hx.
      destruct (cmp (mk k) (key x)) eqn:Ec; [|done|done]. apply cmp_eq_iff in Ec.
      destruct Hno. by exists x, r. }
    rewrite Hrr in Hrem'. simpl in Hrem'. injection Hrem' as Hl12 Hg.
    rewrite not_reached by (done || by rewrite Hl in Hs; apply sorted_app in Hs as (_ & ? & _)). simpl.
    destruct (Hfin _ _ _ Hc Hl12) as (c2 & w & t & -> & Hap & Hb). simpl. rewrite Hap. simpl.
    exists t, (l1 ++ l2). unfold lookup at 1. by rewrite Hg.
Qed.

Lemma update_map {R} m l k (f : V → V * R) :
  map_of m l →
  ∃ t l', TreeMap.update m k f = Some (t, option_map (λ v, (f v).2) (lookup k l)) ∧ becomes l' t ∧
    (∀ k', lookup k' l' =
       if eqb_ord k k' then option_map (λ v, (f v).1) (lookup k l) else lookup k' l).
Proof.
  intros (h & Hwf & Hh & <- & Hs). unfold TreeMap.update.
  destruct (slice_key h m (mk k) Hwf Hh Hs)
    as (c & u & hu & sk & rest & -> & Hc & Hu & Hlu & Hl & Hsk & Hr & Hsr & Hend & c' & b' & Hn).
  simpl. rewrite Hend. simpl.
  destruct (sorted_parts (mk k) _ Hs) as (l1 & mm & l2 & _ & Hget & _ & _ & _ & Hrem & _).
  pose proof (list_remove_skip (mk k) sk rest Hsk) as Hrem'. rewrite <- Hl, Hrem in Hrem'.
  destruct (head_key k rest) as [(x & r & -> & Hk)|Hno].
  - rewrite Hk. unfold eqb_ord at 1. rewrite cmp_refl, (item_at _ _ _ Hc). simpl.
    destruct Hn as [-> Hc']. simpl in Hrem'. rewrite Hk, cmp_refl in Hrem'. simpl in Hrem'.
    injection Hrem' as _ ->. unfold lookup at 1. rewrite Hget. simpl.
    destruct (f (entry_value x)) as [v' res] eqn:Hf. simpl.
    set (y := {| entry_key := entry_key x; entry_value := v' |}).
    destruct (push_spec hu u y Hu I) as (u1 & h1 & -> & Hu1 & Hl1). simpl.
    destruct (suffix_at _ _ _ Hc') as (c2 & w & hw & -> & Hw & Hlw). simpl.
    destruct (append_spec h1 u1 hw w Hu1 Hw) as (t & ht & -> & Ht & Hlt). simpl.
    assert (key y = mk k) as Hy by done.
    assert (to_list t = (list_insert y (to_list m)).1) as Hins.
    { rewrite Hl, list_insert_skip by (by rewrite Hy). simpl. rewrite Hy, Hk, cmp_refl. simpl.
      by rewrite Hlt, Hl1, Hlw, Hlu, <- (assoc_L (++)). }
    exists t, (to_list t). split_and!; [done| |].
    + split; [eauto|]. split; [done|]. rewrite Hins. by apply sorted_insert.
    + intros k'. unfold lookup. rewrite Hins, list_get_insert, Hget by done. unfold eqb_ord.
      rewrite Hy, cmp_mk. simpl. rewrite Hf. by destruct (cmp k k').
  - rewrite not_reached by (done || by rewrite Hl in Hs; apply sorted_app in Hs as (_ & ? & _)). simpl. destruct (suffix_at _ _ _ Hc) as (c2 & w & hw & -> & Hw & Hlw). simpl.
    destruct (append_spec hu u hw w Hu Hw) as (t & ht & -> & Ht & Hlt). simpl.
    assert (to_list t = to_list m) as Hsame by (by rewrite Hlt, Hlu, Hlw).
    assert (mm = None) as ->.
    { destruct rest as [|x r]; simpl in Hrem'; [by injection Hrem'|].
      apply Forall_cons in Hr as [Hx _]. unfold ole in Hx.
      destruct (cmp (mk k) (key x)) eqn:Ec; simpl in Hrem'; [|by injection Hrem'|done].
      apply cmp_eq_iff in Ec. destruct Hno. by exists x, r. }
    exists t, (to_list m). split_and!; [unfold lookup; by rewrite Hget|by split_and!; eauto|].
    intros k'. unfold lookup. rewrite Hget. unfold eqb_ord. destruct (cmp k k') eqn:Ec; try done.
    apply cmp_eq_iff in Ec as <-. by rewrite Hget.
Qed.

(** ** Ranges, order and iteration *)

Lemma suffix_becomes (c : map_cursor K V) b r hu (u : map) l' :
  cursor_at c b r → wf hu u → l' = to_list u ++ r → sorted_keys (Key:=MapKey K) l' →
  ∃ t, ('(_, rest) ← suffix c; append u rest) = Some t ∧ becomes l' t.
Proof.
  intros Hc Hu -> Hs. destruct (suffix_at _ _ _ Hc) as (c2 & w & hw & -> & Hw & Hlw). simpl.
  destruct (append_spec hu u hw w Hu Hw) as (t & ht & -> & Ht & Hlt). exists t. split; [done|].
  split; [eauto|]. split; [|done]. by rewrite Hlt, Hlw.
Qed.

(** A target that does not go back as keys grow. *)
Definition antitone (f : K → comparison) : Prop := ∀ a b, a ≺ b → rank (f b) ≤ rank (f a).

Lemma adaptor_seekable f l : antitone f → sorted_keys (Key:=MapKey K) l → seekable (T:=E) (adaptor f) l.
Proof.
  intros Hf Hs. split; [done|]. split; [done|]. unfold ascending.
  rewrite ends_key by first [done | exact (zero_below (S:=MapKey K) _)]. induction Hs as [|x l _ IH Hx]; simpl; constructor; [done|]. apply Forall_fmap.
  eapply Forall_impl; [exact Hx|]. intros y Hy. apply Hf. exact Hy.
Qed.

Lemma filter_none {A} (P : A → Prop) `{!∀ x, Decision (P x)} (l : list A) :
  Forall (λ x, ¬ P x) l → filter P l = [].
Proof. induction 1; [done|]. by rewrite filter_cons_False. Qed.

Lemma filter_all {A} (P : A → Prop) `{!∀ x, Decision (P x)} (l : list A) :
  Forall P l → filter P l = l.
Proof. induction 1 as [|x l ? ? IH]; [done|]. by rewrite filter_cons_True, IH. Qed.

Lemma sorted_filter (P : E → Prop) `{!∀ x, Decision (P x)} l :
  sorted_keys (Key:=MapKey K) l → sorted_keys (Key:=MapKey K) (filter P l).
Proof.
  induction 1 as [|x l Hl IH Hx]; [constructor|]. rewrite filter_cons. case_decide; [|done].
  constructor; [done|]. rewrite Forall_forall in Hx |- *. intros y [_ Hy]%list_elem_of_filter. by apply Hx.
Qed.

(** The entries from [start] on and before [end_]. *)
Definition in_range (start end_ : K → comparison) (e : E) : Prop :=
  start (entry_key e) ≠ Gt ∧ end_ (entry_key e) = Gt.

#[export] Instance in_range_dec start end_ e : Decision (in_range start end_ e).
Proof. unfold in_range. apply _. Defined.

Lemma skips_left f (e : E) : skips (adaptor f (key e)) Left = true ↔ f (entry_key e) = Gt.
Proof. unfold adaptor. simpl. by destruct (f _). Qed.

Lemma remove_range_map m l start end_ :
  map_of m l → antitone start → antitone end_ → (∀ k, start k = Gt → end_ k = Gt) →
  ∃ t, TreeMap.remove_range m start end_ = Some t ∧ becomes (filter (λ e, ¬ in_range start end_ e) l) t.
Proof.
  intros (h & Hwf & Hh & <- & Hs) Hst Hen Hle. unfold TreeMap.remove_range.
  destruct (slice_split (adaptor start) Left h m Hwf Hh (adaptor_seekable _ _ Hst Hs))
    as (c & u & hu & sk & rest & -> & Ht & Hc & Hu & Hlu & Hl & Hsk & Hr). simpl.
  destruct (seek_split (adaptor end_) Left h c) as (c' & found & sk' & rest' & -> & _ & Hc' & Hl' & Hsk' & Hr');
    [by rewrite Ht|done|rewrite Ht; by apply adaptor_seekable|]. simpl. rewrite Ht in Hl'.
  apply (suffix_becomes c' sk' rest' hu u); [done|done| |by apply sorted_filter].
  rewrite Hlu. assert (∃ mid, sk' = sk ++ mid ∧ rest = mid ++ rest') as (mid & -> & ->).
  { rewrite Hl in Hl'. apply app_eq_app in Hl' as (k & [[-> ->]|[-> ->]]); [|by exists k].
    apply Forall_app in Hsk as [_ Hk]. apply Forall_app in Hr' as [Hk' _].
    destruct k as [|x k]; [exists []; by rewrite !app_nil_r|].
    apply Forall_cons in Hk as [Hx _], Hk' as [Hx' _]. apply skips_left, Hle in Hx.
    apply (skips_left end_) in Hx. congruence. }
  rewrite Hl, !filter_app, (filter_all _ sk), (filter_none _ mid), (filter_all _ rest'); [done|..].
  - eapply Forall_impl; [exact Hr'|]. intros x Hx [_ Hg]. simpl in Hx.
    apply (skips_left end_) in Hg. congruence.
  - apply Forall_app in Hsk' as [_ Hmid]. apply Forall_app in Hr as [Hmid' _].
    rewrite Forall_forall in Hmid, Hmid' |- *. intros x Hx Hn. apply Hn. split.
    + intros Hg%(skips_left start). specialize (Hmid' _ Hx). simpl in Hmid'. congruence.
    + apply skips_left. by apply Hmid.
  - eapply Forall_impl; [exact Hsk|]. intros x Hx%skips_left [Hn _]. done.
Qed.

Lemma closest_map m l k :
  map_of m l →
  TreeMap.closest m k = Some (option_map entry_pair (last (filter (λ e, entry_key e ≼ k) l))).
Proof.
  intros (h & Hwf & Hh & <- & Hs). unfold TreeMap.closest.
  destruct (seek_split (seek_key (mk k)) Right h (cursor_new m : map_cursor K V))
    as (c & found & sk & rest & -> & Ht & Hc & Hl & Hsk & Hr); [done|done|by apply seekable_key|].
  simpl in Ht, Hl |- *. rewrite Hl, filter_app, (filter_all _ sk), (filter_none _ rest), app_nil_r.
  2:{ eapply Forall_impl; [exact Hr|]. intros x Hx%seek_key_stays_right Hle. apply not_olt in Hle. by apply Hle. }
  2:{ eapply Forall_impl; [exact Hsk|]. intros x Hx%seek_key_skips_right. exact Hx. }
  assert (∃ c', prev c = Some c' ∧ item c' = Some (last sk)) as (c' & -> & Hi); [|simpl; by rewrite Hi].
  assert (∀ c0 : map_cursor K V, cursor_start c0 → did_seek c0 = true → item c0 = Some None) as Hstart.
  { intros c0 [_ Hst _ _] Hd. unfold item, assert_did_seek. by rewrite Hd, Hst. }
  destruct rest as [|x rest].
  - pose proof Hc as [(h' & Hwf' & Hh' & Hset) Hl' _ Hd He].
    destruct (search_backward_all (λ _, true) c h') as (c' & Hp & _ & Hres); [done|done| |done|done|].
    { by destruct Hset as [[_ ?]|[? _]]. }
    exists c'. split; [done|]. rewrite Hl', app_nil_r in Hres.
    destruct Hres as [(l1 & y & l2 & -> & _ & Hf & Hc')|(Hf & Hc' & Hd')].
    + rewrite (item_at _ _ _ Hc'). destruct l2; [|by apply Forall_cons in Hf as [? _]]. by rewrite last_snoc.
    + destruct sk; [by apply Hstart|by apply Forall_cons in Hf as [? _]].
  - destruct (search_backward_at (λ _, true) c sk x rest Hc) as (c' & Hp & _ & Hres); [done|].
    exists c'. split; [done|].
    destruct Hres as [(l1 & y & l2 & -> & _ & Hf & Hc')|(Hf & Hc' & Hd')].
    + rewrite (item_at _ _ _ Hc'). destruct l2; [|by apply Forall_cons in Hf as [? _]]. by rewrite last_snoc.
    + destruct sk; [by apply Hstart|by apply Forall_cons in Hf as [? _]].
Qed.

Lemma iter_from_map m l k :
  map_of m l →
  TreeMap.iter_from m k = Some (List.map entry_pair (filter (λ e, k ≼ entry_key e) l)).
Proof.
  intros (h & Hwf & Hh & <- & Hs). unfold TreeMap.iter_from.
  destruct (seek_split (seek_key (mk k)) Left h (cursor_new m : map_cursor K V))
    as (c & found & sk & rest & -> & Ht & Hc & Hl & Hsk & Hr); [done|done|by apply seekable_key|].
  simpl in Ht, Hl. pose proof (length_items_cost m) as Hlen. rewrite Hl, length_app in Hlen.
  assert (length rest < Datatypes.S (cost m)) as Hlt by lia.
  cbn [mbind option_bind]. rewrite (cursor_collect_at _ _ _ _ Hlt Hc). cbn [mbind option_bind].
  rewrite Hl, filter_app, (filter_none _ sk), (filter_all _ rest); [done|..].
  - eapply Forall_impl; [exact Hr|]. intros x Hx. apply (seek_key_stays (mk k) x) in Hx. exact Hx.
  - eapply Forall_impl; [exact Hsk|]. intros x Hx. apply (seek_key_skips (mk k) x) in Hx.
    by apply (not_ole k (entry_key x)).
Qed.

Lemma retain_loop_at p fuel : ∀ (c : map_cursor K V) b r hu (u : map),
  length r < fuel → cursor_at c b r → wf hu u →
  ∃ t, TreeMap.retain_loop fuel p c u = Some t ∧ (∃ h, wf h t) ∧
    to_list t = to_list u ++ filter (λ e, p (entry_key e) (entry_value e) = true) r.
Proof.
  induction fuel as [|fuel IH]; intros c b r hu u Hf Hc Hu; [lia|]. cbn [TreeMap.retain_loop].
  rewrite (item_at _ _ _ Hc). simpl. destruct r as [|x r]; simpl.
  { exists u. rewrite app_nil_r. eauto. }
  destruct (next_at _ _ _ _ Hc) as (c' & Hn & _ & Hc'). simpl in Hf.
  rewrite filter_cons. destruct (p (entry_key x) (entry_value x)) eqn:Hp.
  - destruct (push_spec hu u x Hu I) as (u1 & h1 & -> & Hu1 & Hl1). simpl. rewrite Hn. simpl.
    destruct (IH c' _ r h1 u1 ltac:(lia) Hc' Hu1) as (t & Ht & Hwt & Hlt). exists t.
    by rewrite Hlt, Hl1, <- (assoc_L (++)).
  - simpl. rewrite Hn. simpl. destruct (IH c' _ r hu u ltac:(lia) Hc' Hu) as (t & Ht & Hwt & Hlt).
    by exists t.
Qed.

Lemma retain_map m l p :
  map_of m l →
  ∃ t, TreeMap.retain m p = Some t ∧ becomes (filter (λ e, p (entry_key e) (entry_value e) = true) l) t.
Proof.
  intros (h & Hwf & Hh & <- & Hs). unfold TreeMap.retain.
  pose proof (cursor_new_start (D:=MapKey K) _ _ Hwf Hh) as Hst.
  destruct (next_start _ Hst) as (c & -> & _ & Hc). simpl in Hc |- *.
  pose proof (length_items_cost m) as Hlen. assert (length (to_list m) < Datatypes.S (cost m)) as Hlt by lia.
  destruct (retain_loop_at p _ c [] (to_list m) 0 tree_new Hlt Hc wf_new) as (t & Ht & Hwt & Hl).
  exists t. split; [exact Ht|]. split; [done|]. split; [exact Hl|]. by apply sorted_filter.
Qed.

Lemma iter_map m l : map_of m l →
  TreeMap.iter m = Some (List.map entry_pair l) ∧ TreeMap.values m = Some (List.map entry_value l) ∧
  TreeMap.first m = Some (option_map entry_pair (head l)) ∧
  TreeMap.last m = Some (option_map entry_pair (last l)) ∧
  TreeMap.is_empty m = bool_decide (l = []).
Proof.
  intros (h & Hwf & Hh & <- & Hs).
  unfold TreeMap.iter, TreeMap.values, TreeMap.first, TreeMap.last, TreeMap.is_empty.
  pose proof (length_items_cost m) as Hlen.
  rewrite (iter_collect_spec (Datatypes.S (cost m)) h) by (done || lia).
  rewrite (tree_first_spec h), (tree_last_spec h), (wf_is_empty h) by done. done.
Qed.

(** Entries given in the order of their keys. *)
Lemma from_ordered_entries_map (l : list (K * V)) :
  StronglySorted (λ p q, p.1 ≺ q.1) l →
  ∃ t, TreeMap.from_ordered_entries l = Some t ∧
    becomes ((λ '(k, v), {| entry_key := k; entry_value := v |}) <$> l) t.
Proof.
  intros Hs. unfold TreeMap.from_ordered_entries.
  destruct (from_iter_yields ((λ '(k, v), {| entry_key := k; entry_value := v |}) <$> l))
    as (t & h & -> & Ht & Hl); [by apply Forall_true|].
  exists t. split; [done|]. split; [eauto|]. split; [done|].
  unfold sorted_keys. eapply StronglySorted_fmap; [|exact Hs]. by intros [] [].
Qed.

(** Inserting many entries with distinct keys at once. *)
Lemma extend_map m l (kvs : list (K * V)) :
  map_of m l → NoDup kvs.*1 →
  ∃ t l', TreeMap.extend m kvs = Some t ∧ becomes l' t ∧
    (∀ k v, (k, v) ∈ kvs → lookup k l' = Some v) ∧
    (∀ k, k ∉ kvs.*1 → lookup k l' = lookup k l).
Proof.
  intros (h & Hwf & Hh & <- & Hs) Hnd. unfold TreeMap.extend.
  set (to_edit := λ '(k, v), Edit_Insert (Key:=MapKey K) {| entry_key := k; entry_value := v |} : Edit E (MapKey K)).
  assert (edit_key <$> (to_edit <$> kvs) = (λ k, mk k) <$> kvs.*1) as Hkeys.
  { clear. induction kvs as [|[k v] kvs IH]; simpl; [done|]. by f_equal. }
  destruct (edit_spec h m (to_edit <$> kvs) Hwf Hh Hs) as (u & old & -> & Hu & Hs' & Hin & Hout).
  { rewrite Hkeys. apply NoDup_fmap_2_strong; [|done]. by intros a b _ _ [= ->]. }
  { apply Forall_fmap, Forall_true. intros [k v]. by repeat constructor. }
  simpl. exists u, (to_list u). split_and!; [done|by split_and!| |].
  - intros k v Hkv. unfold lookup.
    pose proof (Hin (to_edit (k, v)) (list_elem_of_fmap_2 to_edit kvs (k, v) Hkv)) as Hg.
    exact (f_equal (option_map entry_value) Hg).
  - intros k Hk. unfold lookup. rewrite Hout; [done|]. rewrite Hkeys.
    intros (k' & [= <-] & Hk')%list_elem_of_fmap. done.
Qed.

Lemma insert_tree_map m l other lo :
  map_of m l → map_of other lo →
  ∃ t l', TreeMap.insert_tree m other = Some t ∧ becomes l' t ∧
    (∀ k, lookup k l' = match lookup k lo with Some v => Some v | None => lookup k l end).
Proof.
  intros Hm Ho. destruct (iter_map _ _ Ho) as (Hit & _).
  destruct Ho as (_ & _ & _ & _ & Hso).
  assert ((List.map entry_pair lo).*1 = entry_key <$> lo) as Hk1.
  { clear. induction lo as [|e lo IH]; simpl; [done|]. by f_equal. }
  destruct (extend_map m l (List.map entry_pair lo) Hm) as (t & l' & Ht & Hb & Hin & Hout).
  { rewrite Hk1. clear -H0 Hso. induction Hso as [|x lo _ IH Hx]; simpl; constructor; [|done].
    intros (y & Hxy & Hy)%list_elem_of_fmap. rewrite Forall_forall in Hx. apply Hx in Hy.
    assert (key x = key y) as Hk by (by unfold key, map_entry_keyed; rewrite Hxy).
    rewrite Hk in Hy. by apply olt_irrefl in Hy. }
  exists t, l'. split; [unfold TreeMap.insert_tree; rewrite Hit; exact Ht|]. split; [done|].
  intros k. unfold lookup at 2. destruct (list_get (mk k) lo) as [x|] eqn:Hg; simpl.
  - apply list_get_elem in Hg as [Hx Hkx]; [|done]. apply Hin.
    assert (entry_key x = k) as <- by (by injection Hkx). exact (list_elem_of_fmap_2 entry_pair lo x Hx).
  - apply Hout. rewrite Hk1. intros (y & -> & Hy)%list_elem_of_fmap.
    by apply (proj1 (list_get_None _ _) Hg y Hy).
Qed.

End facts.
