(* ===== verification/SumTreeTheorems.v ===== *)
(** * SumTreeTheorems: what the summarised B+ tree promises

    The properties of [crates/sum_tree] stated for any item and summary type
    that satisfies [SummaryLaws], each applied to a small concrete tree of
    numbers whose summary counts them. *)

From S2P Require Import Prelude SumTree SumTreeSpec SumTreeFind Cursor CursorSpec CursorFacts Keyed.

(** ** A concrete tree *)

Module Counted.

#[export] Instance count_summary : Summary nat := {| summary_zero := 0; add_summary := Nat.add |}.

#[export] Program Instance count_laws : SummaryLaws nat := {| valid _ := True |}.
Solve Obligations with (intros; simpl; lia || done).

#[export] Instance count_item : Item nat nat := λ _, 1.

#[export] Instance count_ord : Ord nat := Nat.compare.

Definition sample (n len : nat) : SumTree nat nat := default tree_new (from_iter (seq n len)).

Lemma valid_any (l : list nat) : valid_items l.
Proof. by apply Forall_true. Qed.

(** Well-formedness of a given tree, by evaluation. *)
Ltac check_wf :=
  vm_compute;
  repeat first [ split | reflexivity | discriminate | lia | constructor ].

Lemma sample_wf : wf 1 (sample 0 30).
Proof. check_wf. Qed.

Lemma sample_small_wf : wf 0 (sample 30 4).
Proof. check_wf. Qed.

Lemma sample_items : to_list (sample 0 30) = seq 0 30 ∧ to_list (sample 30 4) = seq 30 4.
Proof. by vm_compute. Qed.

End Counted.

Section theorems.
Context {T S D : Type} `{SummaryLaws S, !Item T S, !Dimension D S, !DimensionLaws D S}.
Implicit Types (t u : SumTree T S) (l : list T) (c : Cursor T S D).

(** C18: [append] of two well-formed trees never panics: no node overflows, the
    result is well formed (cached summaries right, capacities respected, no
    empty proper subtree) and holds the items of the first tree followed by
    those of the second; [push] is [append] of one item. *)
Theorem sumtree_append_concat h t h' u (x : T) :
  wf h t → wf h' u → valid (item_summary x) →
  yields (to_list t ++ to_list u) (append t u) ∧ yields (to_list t ++ [x]) (push t x).
Proof. eauto using append_spec, push_spec. Qed.

(** Building a tree from items, sequentially or by chunks in parallel,
    terminates and gives a well-formed tree of exactly these items; extending
    a tree appends them. *)
Theorem sumtree_build h t l :
  wf h t → valid_items l →
  yields l (from_iter l) ∧ yields l (from_par_iter l) ∧
  yields (to_list t ++ l) (extend t l) ∧ yields (to_list t ++ l) (par_extend t l).
Proof.
  intros. split_and!; [by apply from_iter_yields|by apply from_par_iter_yields|
    by eapply extend_yields|by eapply par_extend_yields].
Qed.

(** The cached summary of a tree is the sum of the summaries of its items,
    and [is_empty], [first], [last], [last_summary] and [items] tell the truth
    about the sequence. *)
Theorem sumtree_accessors h t :
  wf h t → h < 16 →
  tree_summary t = sum_items (to_list t) ∧ is_empty t = bool_decide (to_list t = []) ∧
  tree_first t = Some (head (to_list t)) ∧ tree_last t = Some (last (to_list t)) ∧
  last_summary t = Some (item_summary <$> last (to_list t)) ∧
  items t = Some (to_list t).
Proof.
  intros. split_and!; eauto using wf_summary, wf_is_empty, tree_first_spec, tree_last_spec,
    last_summary_spec, items_spec.
Qed.

(** [find_with_prev] and [find] agree with a linear scan: they return the
    first item whose end is not left behind by the target, with its start, its
    end and the item before it; without such an item both positions are the
    end of the tree. *)
Theorem sumtree_find h t (target : SeekTarget D) bias :
  wf h t → to_list t ≠ [] → ascending target dim_zero (to_list t) →
  ∃ p e r, find_with_prev t target bias = Some (p, e, r) ∧
    find t target bias = (p, e, snd <$> r) ∧
    located (λ e, bool_decide (¬ behind target bias e)) (to_list t) p e r.
Proof.
  intros Hwf Hne Has. unfold find.
  destruct (find_gen_spec false target bias h t) as (res & Hag & -> & Hp); [done..|].
  simpl in Hag. subst res. rewrite Hp by done. pose proof (located_scan (not_skipped target bias) _ Hne) as Hl.
  destruct (scan _ _ _ _) as [[[[pv x] e]|] p]; eauto 10 using located_ext, not_skipped_behind.
Qed.

(** Updating the last or the first item replaces exactly that item by what
    the closure makes of it, recomputes every summary on its path and keeps what
    the closure captured; on an empty tree the closure is not called. *)
Theorem sumtree_update_ends {R} h t (f : T → option (T * R)) (g : T → T * R) :
  wf h t → Forall (λ x, f x = Some (g x) ∧ valid (item_summary (g x).1)) (to_list t) →
  match to_list t with
  | [] => update_last f t = Some (t, None) ∧ update_first f t = Some (t, None)
  | x :: l =>
      (∃ u, update_first f t = Some (u, Some (g x).2) ∧ wf h u ∧ to_list u = (g x).1 :: l) ∧
      ∀ k y, to_list t = k ++ [y] →
        ∃ u, update_last f t = Some (u, Some (g y).2) ∧ wf h u ∧ to_list u = k ++ [(g y).1]
  end.
Proof.
  intros Hwf Hv. destruct (to_list t) as [|x l] eqn:Hl; [by eapply update_empty|]. split.
  - apply Forall_cons in Hv as [[Hx ?] _]. destruct (g x) as [y r] eqn:Hg.
    by eapply update_first_spec.
  - intros k y Hk. rewrite Hk in Hv. apply Forall_app in Hv as [_ Hy]. rewrite Forall_singleton in Hy.
    destruct Hy as [Hy ?]. destruct (g y) as [z r] eqn:Hg. eapply update_last_spec; [done|by rewrite Hl|done..].
Qed.

(** C30: a seek from a fresh cursor puts it at the first item whose end the
    target does not lie behind (or at it, with a bias to the right), at the
    position of that item's start; it answers whether the target was met. *)
Theorem cursor_seek_splits h t (target : SeekTarget D) bias :
  wf h t → h < 16 → target dim_zero ≠ Lt → ascending target dim_zero (to_list t) →
  ∃ c before rest,
    parts target bias dim_zero (to_list t) before rest ∧
    seek target bias (cursor_new t) =
      Some (c, bool_decide (target (reached bias dim_zero before rest) = Eq)) ∧
    cursor_at c before rest ∧
    item c = Some (head rest) ∧ next_item c = Some (head (tail rest)) ∧ prev_item c = Some (last before) ∧
    start c = pos dim_zero before ∧
    end_ c = Some (match rest with x :: _ => pos dim_zero (before ++ [x]) | [] => pos dim_zero before end).
Proof.
  intros Hwf Hh Ht Ha. unfold seek.
  destruct (seek_internal_start (A:=unit) target bias (reset (cursor_new t)) ())
    as (sk & rest & c & [] & found & Hsp & Hres & _ & Hc & _ & ->); [|done|done|done|done|].
  { split; simpl; eauto. }
  exists c, sk, rest. rewrite Hres. simpl in *.
  apply split_at_parts in Hsp.
  split_and!; eauto using item_at, next_item_at, prev_item_at, end_at. apply (at_position _ _ _ Hc).
Qed.

(** [slice] hands out, as a well-formed tree, exactly the items between the
    cursor and the target and leaves the cursor behind them; [suffix] then
    hands out all that remains; and [summary] measures the same items in any
    dimension. *)
Theorem cursor_slice_partition {Output} `{!Dimension Output S, !DimensionLaws Output S}
    c before rest (target : SeekTarget D) bias :
  cursor_at c before rest → target (pos dim_zero before) ≠ Lt →
  ascending target (pos dim_zero before) rest →
  ∃ taken left, parts target bias (pos dim_zero before) rest taken left ∧
    (∃ c' u h, slice target bias c = Some (c', u) ∧ cursor_at c' (before ++ taken) left ∧
       wf h u ∧ to_list u = taken ∧
       ∃ c'' v h', suffix c' = Some (c'', v) ∧ wf h' v ∧ to_list v = left) ∧
    (∃ c', summary_to (Output:=Output) target bias c = Some (c', pos dim_zero taken) ∧
       cursor_at c' (before ++ taken) left).
Proof.
  intros Hc Ht Ha.
  destruct (slice_at target bias c before rest Hc Ht Ha) as (sk & left & c' & u & h & Hsp & ? & _ & Hc' & ? & ?).
  destruct (seek_internal_at (A:=SummarySeekAggregate Output) target bias c before rest
      {| aggregate := dim_zero |} Hc)
    as (sk2 & left2 & c2 & a2 & found2 & Hsp2 & Hres2 & _ & Hc2 & [Ha2 _] & _);
    [by split; [|constructor]|done|done|].
  rewrite Hsp in Hsp2. injection Hsp2 as <- <-. exists sk, left. split; [by apply split_at_parts|].
  destruct (suffix_at _ _ _ Hc') as (c'' & v & h' & ? & ? & ?). split.
  - exists c', u, h. split_and!; try done. by exists c'', v, h'.
  - exists c2. unfold summary_to. rewrite Hres2. simpl. by rewrite Ha2, app_nil_r.
Qed.

(** [search_forward] from an item goes to the next item whose summary
    satisfies the filter, [search_backward] to the previous one, provided the
    filter accepts the summary of a node that holds such an item; running off
    either end leaves the cursor beyond it, at the position of that end. *)
Theorem cursor_search h (f : S → bool) c before x rest :
  cursor_at c before (x :: rest) → wf h (cursor_tree c) → sound_filter f (to_list (cursor_tree c)) →
  (∃ c', search_forward f c = Some c' ∧
     cursor_at c' ((before ++ [x]) ++ (break_at f rest).1) (break_at f rest).2) ∧
  (∃ c', search_backward f c = Some c' ∧
     ((∃ l1 y l2, before = l1 ++ y :: l2 ∧ f (item_summary y) = true ∧
         Forall (λ z, f (item_summary z) = false) l2 ∧ cursor_at c' l1 (y :: l2 ++ x :: rest)) ∨
      (Forall (λ z, f (item_summary z) = false) before ∧ cursor_start c' ∧ did_seek c' = true))).
Proof.
  intros Hc _ Hf. rewrite (at_items _ _ _ Hc) in Hf. apply sound_app in Hf as [Hb Hr].
  apply (sound_app f [x]) in Hr as [_ Hr].
  destruct (search_forward_at f _ _ _ _ Hc Hr) as (c1 & ? & _ & ?).
  destruct (search_backward_at f _ _ _ _ Hc Hb) as (c2 & ? & _ & ?). eauto 10.
Qed.

(** The three iterators visit the items in order, each once, and stop:
    [Cursor], [Iter], and [FilterCursor], which visits those that match. *)
Theorem cursor_iterators h t (f : S → bool) fuel :
  wf h t → h < 16 → sound_filter f (to_list t) → length (to_list t) < fuel →
  cursor_collect fuel (cursor_new t : Cursor T S D) = Some (to_list t) ∧
  iter_collect fuel (iter_new t) = Some (to_list t) ∧
  filter_collect fuel (filter_new t f : FilterCursor T S D) =
    Some (filter (λ x, f (item_summary x) = true) (to_list t)).
Proof.
  intros Hwf Hh Hf Hl. pose proof (cursor_new_start (D:=D) _ _ Hwf Hh) as Hs. split_and!.
  - by apply (cursor_collect_start fuel (cursor_new t)).
  - by eapply iter_collect_spec.
  - by apply (filter_collect_start f fuel (cursor_new t)).
Qed.

End theorems.

(** ** Witnesses *)

Section witnesses.
Import Counted.

Lemma sumtree_append_concat_witness :
  yields (seq 0 30 ++ seq 30 4) (append (sample 0 30) (sample 30 4)) ∧
  yields (seq 0 30 ++ [7]) (push (sample 0 30) 7).
Proof. exact (sumtree_append_concat 1 (sample 0 30) 0 (sample 30 4) 7 sample_wf sample_small_wf I). Defined.

Lemma sumtree_build_witness :
  yields (seq 0 40) (from_iter (seq 0 40)) ∧ yields (seq 0 40) (from_par_iter (seq 0 40)) ∧
  yields (seq 0 30 ++ seq 0 40) (extend (sample 0 30) (seq 0 40)) ∧
  yields (seq 0 30 ++ seq 0 40) (par_extend (sample 0 30) (seq 0 40)).
Proof. exact (sumtree_build 1 (sample 0 30) (seq 0 40) sample_wf (valid_any _)). Defined.

Lemma sumtree_accessors_witness :
  tree_summary (sample 0 30) = 30 ∧ tree_last (sample 0 30) = Some (Some 29) ∧
  items (sample 0 30) = Some (seq 0 30).
Proof.
  destruct (sumtree_accessors 1 (sample 0 30) sample_wf) as (? & _ & _ & ? & _ & ?); [lia|]. by split_and!.
Defined.

(** Seeking a number of items is monotone. *)
Lemma ascending_count n d l : ascending (T:=nat) (seek_key (n : nat)) d l.
Proof.
  unfold ascending. revert d. induction l as [|x l IH]; intros d; simpl; constructor; [apply IH|].
  assert (∀ d', d ≤ d' → Forall (λ b, rank (seek_key n b) ≤ rank (seek_key n (d' + 1))) (ends (d' + 1) l)) as Hall.
  { clear IH. induction l as [|y l IH]; intros d' Hd; simpl; constructor.
    - unfold seek_key, cmp, count_ord, dim_add, dim_summary, add_summary, count_summary, item_summary, count_item.
      destruct (Nat.compare_spec n (d' + 1 + 1)), (Nat.compare_spec n (d' + 1)); simpl; lia.
    - specialize (IH (d' + 1) ltac:(lia)). eapply Forall_impl; [exact IH|]. intros b Hb. simpl in Hb.
      etransitivity; [exact Hb|]. unfold seek_key, cmp, count_ord.
      destruct (Nat.compare_spec n (d' + 1 + 1)), (Nat.compare_spec n (d' + 1)); simpl; lia. }
  apply Hall. done.
Qed.

Lemma sumtree_find_witness :
  find_with_prev (sample 0 30) (seek_key 13) Left = Some (12, 13, Some (Some 11, 12)) ∧
  ∃ p e r, find_with_prev (sample 0 30) (seek_key 13) Left = Some (p, e, r) ∧
    find (sample 0 30) (seek_key 13) Left = (p, e, snd <$> r) ∧
    located (λ e, bool_decide (¬ behind (seek_key 13) Left e)) (to_list (sample 0 30)) p e r.
Proof.
  split; [by vm_compute|].
  exact (sumtree_find 1 (sample 0 30) (seek_key 13) Left sample_wf ltac:(by vm_compute) (ascending_count _ _ _)).
Defined.

Lemma sumtree_update_ends_witness :
  (∃ u, update_first (λ x, Some (7, x)) (sample 0 30) = Some (u, Some 0) ∧ wf 1 u ∧ to_list u = 7 :: seq 1 29) ∧
  ∃ u, update_last (λ x, Some (7, x)) (sample 0 30) = Some (u, Some 29) ∧ wf 1 u ∧ to_list u = seq 0 29 ++ [7].
Proof.
  destruct (sumtree_update_ends 1 (sample 0 30) (λ x, Some (7, x)) (λ x, (7, x)) sample_wf) as [H1 H2];
    [by apply Forall_true|].
  split; [exact H1|]. by apply (H2 (seq 0 29) 29).
Defined.

Lemma cursor_seek_splits_witness :
  ∃ c, seek (seek_key 13) Left (cursor_new (sample 0 30)) = Some (c, true) ∧ item c = Some (Some 12) ∧
    prev_item c = Some (Some 11).
Proof.
  destruct (cursor_seek_splits 1 (sample 0 30) (seek_key 13) Left sample_wf)
    as (c & b & r & Hsp & Hs & Hc & Hi & _ & Hp & _); [lia|done|apply ascending_count|].
  apply split_at_parts in Hsp. vm_compute in Hsp. injection Hsp as <- <-. exists c. by rewrite Hs, Hi, Hp.
Defined.

Lemma sample_at : ∃ c : Cursor nat nat nat, next (cursor_new (sample 0 30)) = Some c ∧
  cursor_tree c = sample 0 30 ∧ cursor_at c [] (seq 0 30).
Proof.
  destruct (next_start (cursor_new (sample 0 30) : Cursor nat nat nat)) as (c & ? & ? & ?);
    [apply (cursor_new_start 1); [apply sample_wf|lia]|]. by exists c.
Qed.

Lemma cursor_slice_partition_witness :
  ∃ (c c' : Cursor nat nat nat) u, cursor_at c [] (seq 0 30) ∧
    slice (seek_key 13) Right c = Some (c', u) ∧ to_list u = seq 0 13 ∧ cursor_at c' (seq 0 13) (seq 13 17).
Proof.
  destruct sample_at as (c & _ & _ & Hc).
  destruct (cursor_slice_partition (Output:=nat) c [] (seq 0 30) (seek_key 13) Right Hc)
    as (taken & left & Hsp & (c' & u & h & ? & ? & _ & ? & _) & _); [done|apply ascending_count|].
  apply split_at_parts in Hsp. vm_compute in Hsp. injection Hsp as <- <-. by exists c, c', u.
Defined.

Lemma cursor_search_witness :
  ∃ c c' : Cursor nat nat nat, cursor_at c [] (seq 0 30) ∧ search_forward (λ _, true) c = Some c' ∧
    cursor_at c' [0] (seq 1 29).
Proof.
  destruct sample_at as (c & _ & Ht & Hc).
  destruct (cursor_search 1 (λ _, true) c [] 0 (seq 1 29) Hc) as [(c' & ? & Hc') _];
    [rewrite Ht; apply sample_wf|apply sound_true|]. by exists c, c'.
Defined.

Lemma cursor_iterators_witness :
  cursor_collect 31 (cursor_new (sample 0 30) : Cursor nat nat nat) = Some (seq 0 30) ∧
  iter_collect 31 (iter_new (sample 0 30)) = Some (seq 0 30) ∧
  filter_collect 31 (filter_new (sample 0 30) (λ _, true) : FilterCursor nat nat nat) = Some (seq 0 30).
Proof.
  destruct (cursor_iterators (D:=nat) 1 (sample 0 30) (λ _, true) 31 sample_wf) as (H1 & H2 & H3);
    [lia|apply sound_true|by vm_compute; lia|]. by split_and!.
Defined.

End witnesses.
