(* ===== verification/TreeMapTheorems.v ===== *)
(** * TreeMapTheorems: what keyed trees, [TreeMap] and [TreeSet] promise *)

From S2P Require Import Prelude SumTree SumTreeSpec SumTreeFind Cursor CursorSpec CursorFacts Keyed TreeMap.
From S2P Require Import TreeMapFacts.

Section keyed.
Context {T S Key : Type} `{KeyedLaws T S Key}.
Implicit Types (t : SumTree T S).

(** In a tree sorted by key, [insert_or_replace], [remove] and [get] are
    insertion, deletion and lookup of a sorted sequence, answer with the item
    that had the key before, and keep the tree sorted; none of them panics. *)
Theorem keyed_point_operations h t (x : T) (k : Key) :
  wf h t → h < 16 → sorted_keys (to_list t) → valid (item_summary x) →
  get t k = list_get k (to_list t) ∧
  (∃ u, insert_or_replace t x = Some (u, get t (key x)) ∧ (∃ h', wf h' u) ∧ sorted_keys (to_list u) ∧
     ∀ k', get u k' = if eqb_ord (key x) k' then Some x else get t k') ∧
  (∃ u, remove t k = Some (u, get t k) ∧ (∃ h', wf h' u) ∧ sorted_keys (to_list u) ∧
     ∀ k', get u k' = if eqb_ord k k' then None else get t k').
Proof.
  intros Hwf Hh Hs Hx. split; [by apply (get_spec h)|]. split.
  - destruct (insert_or_replace_spec h t x Hwf Hh Hs Hx) as (u & -> & [h' Hu] & Hl).
    pose proof (sorted_insert x _ Hs) as Hs'. exists u.
    rewrite list_insert_old, (get_spec h), Hl by done. split_and!; [done|eauto|done|].
    intros k'. rewrite (get_spec h' u), (get_spec h t), Hl by (done || by rewrite Hl). by apply list_get_insert.
  - destruct (remove_spec h t k Hwf Hh Hs) as (u & -> & [h' Hu] & Hl).
    pose proof (sorted_remove k _ Hs) as Hs'. exists u.
    rewrite list_remove_old, (get_spec h), Hl by done. split_and!; [done|eauto|done|].
    intros k'. rewrite (get_spec h' u), (get_spec h t), Hl by (done || by rewrite Hl). by apply list_get_remove.
Qed.

(** A batch of edits with distinct keys, in whatever order the unstable
    sort leaves them among equals, acts as the edits one by one: inserted keys
    map to their new items, removed keys are gone, other keys are untouched,
    and the result lists the items that were there, in the order of the keys. *)
Theorem keyed_edit_batch h t edits sorted :
  wf h t → h < 16 → sorted_keys (to_list t) → NoDup (edit_key <$> edits) → Forall valid_edit edits →
  sorted ≡ₚ edits → StronglySorted edit_le sorted →
  ∃ u, edit_sorted t sorted = Some (u, omap (λ e, get t (edit_key e)) sorted) ∧
    (∃ h', wf h' u) ∧ sorted_keys (to_list u) ∧
    (∀ e, e ∈ edits → get u (edit_key e) = head (edit_items e)) ∧
    (∀ k, k ∉ edit_key <$> edits → get u k = get t k).
Proof.
  intros Hwf Hh Hs Hnd Hv Hp Hso.
  destruct (edit_sorted_get h t edits sorted Hwf Hh Hs Hnd Hv Hp Hso) as (u & -> & [h' Hu] & Hs' & Hin & Hout).
  exists u. split_and!; [|eauto|done| |].
  - f_equal. f_equal. apply list_omap_ext, Forall2_same_length_lookup_2; [done|].
    intros i e1 e2 E1 E2. assert (e1 = e2) as -> by congruence. by rewrite (get_spec h).
  - intros e He. rewrite (get_spec h') by done. by apply Hin.
  - intros k Hk. rewrite (get_spec h'), (get_spec h) by done. by apply Hout.
Qed.

End keyed.

Section treemap.
Context {K V : Type} `{OrdLaws K}.
Abbreviation map := (map_tree K V).
Implicit Types (m : map) (l : list (MapEntry K V)) (k : K) (v : V).

(** C32: [get], [insert], [insert_or_replace], [remove] and [update] are those
    of a finite map: they succeed, return the old value (or the result of the
    update), change the one key and nothing else, and keep the entries sorted. *)
Theorem treemap_point_operations m l k v {R} (f : V → V * R) :
  map_of m l →
  TreeMap.get m k = lookup k l ∧
  (∃ t l', TreeMap.insert_or_replace m k v = Some (t, lookup k l) ∧ TreeMap.insert m k v = Some t ∧
     becomes l' t ∧ ∀ k', lookup k' l' = if eqb_ord k k' then Some v else lookup k' l) ∧
  (∃ t l', TreeMap.remove m k = Some (t, lookup k l) ∧ becomes l' t ∧
     ∀ k', lookup k' l' = if eqb_ord k k' then None else lookup k' l) ∧
  (∃ t l', TreeMap.update m k f = Some (t, option_map (λ v, (f v).2) (lookup k l)) ∧ becomes l' t ∧
     ∀ k', lookup k' l' = if eqb_ord k k' then option_map (λ v, (f v).1) (lookup k l) else lookup k' l).
Proof.
  intros Hm. split_and!; [by apply get_spec_map|by apply insert_map|by apply remove_map|by apply update_map].
Qed.

(** The operations on many entries: [retain] keeps those that satisfy the
    predicate, [remove_range] drops those from the first target on and before
    the second (when the first does not lie behind it), [closest] finds the
    greatest key not above the given one, [iter_from] lists the entries from a
    key on, and the iterators and end accessors list the entries in order. *)
Theorem treemap_bulk_operations m l k (p : K → V → bool) (from to : K → comparison) :
  map_of m l → antitone from → antitone to → (∀ k, from k = Gt → to k = Gt) →
  (∃ t, TreeMap.retain m p = Some t ∧ becomes (filter (λ e, p (entry_key e) (entry_value e) = true) l) t) ∧
  (∃ t, TreeMap.remove_range m from to = Some t ∧ becomes (filter (λ e, ¬ in_range from to e) l) t) ∧
  TreeMap.closest m k = Some (option_map entry_pair (last (filter (λ e, entry_key e ≼ k) l))) ∧
  TreeMap.iter_from m k = Some (List.map entry_pair (filter (λ e, k ≼ entry_key e) l)) ∧
  TreeMap.iter m = Some (List.map entry_pair l) ∧
  TreeMap.first m = Some (option_map entry_pair (head l)) ∧
  TreeMap.last m = Some (option_map entry_pair (last l)).
Proof.
  intros Hm ???. destruct (iter_map m l Hm) as (? & _ & ? & ? & _).
  split_and!; eauto using retain_map, remove_range_map, closest_map, iter_from_map.
Qed.

(** A map built from entries in increasing order holds them; [extend] with
    distinct keys overrides exactly these keys; [insert_tree] overrides the
    entries of a map with those of another. *)
Theorem treemap_extend_overrides m l other lo (kvs sorted : list (K * V)) :
  map_of m l → map_of other lo → NoDup kvs.*1 → StronglySorted (λ p q, p.1 ≺ q.1) sorted →
  (∃ t, TreeMap.from_ordered_entries sorted = Some t ∧
     becomes ((λ '(k, v), {| entry_key := k; entry_value := v |}) <$> sorted) t) ∧
  (∃ t l', TreeMap.extend m kvs = Some t ∧ becomes l' t ∧
     (∀ k v, (k, v) ∈ kvs → lookup k l' = Some v) ∧ (∀ k, k ∉ kvs.*1 → lookup k l' = lookup k l)) ∧
  (∃ t l', TreeMap.insert_tree m other = Some t ∧ becomes l' t ∧
     ∀ k, lookup k l' = match lookup k lo with Some v => Some v | None => lookup k l end).
Proof. intros. split_and!; eauto using from_ordered_entries_map, extend_map, insert_tree_map. Qed.

End treemap.

(** ** Witnesses: a map from numbers to numbers *)

Definition evens : map_tree N N :=
  default tree_new (TreeMap.from_ordered_entries [(2, 20); (4, 40); (6, 60)]%N).

Lemma evens_of :
  map_of evens [{| entry_key := 2; entry_value := 20 |}; {| entry_key := 4; entry_value := 40 |};
                {| entry_key := 6; entry_value := 60 |}]%N.
Proof.
  exists 0. split_and!; [|lia|done|by repeat constructor].
  vm_compute. repeat first [split | reflexivity | lia | constructor].
Qed.

Lemma keyed_point_operations_witness :
  get evens {| map_key := Some 4%N |} = Some {| entry_key := 4%N; entry_value := 40%N |} ∧
  ∃ u, Keyed.remove evens {| map_key := Some 4%N |} =
      Some (u, Some {| entry_key := 4%N; entry_value := 40%N |}) ∧
    get u {| map_key := Some 4%N |} = None.
Proof.
  destruct evens_of as (h & Hwf & Hh & Hl & Hs). rewrite <- Hl in Hs.
  destruct (keyed_point_operations h evens {| entry_key := 4%N; entry_value := 40%N |}
    {| map_key := Some 4%N |} Hwf Hh Hs I) as (Hg & _ & u & Hr & _ & _ & Hu).
  split; [by vm_compute|]. exists u. split; [exact Hr|]. exact (Hu {| map_key := Some 4%N |}).
Defined.

Lemma keyed_edit_batch_witness :
  ∃ u, edit_sorted evens [Edit_Remove {| map_key := Some 2%N |};
      Edit_Insert {| entry_key := 5%N; entry_value := 50%N |}] =
      Some (u, [{| entry_key := 2%N; entry_value := 20%N |}]) ∧
    get u {| map_key := Some 6%N |} = Some {| entry_key := 6%N; entry_value := 60%N |}.
Proof.
  destruct evens_of as (h & Hwf & Hh & Hl & Hs). rewrite <- Hl in Hs.
  set (es := [Edit_Remove {| map_key := Some 2%N |};
    Edit_Insert {| entry_key := 5%N; entry_value := 50%N |}] : list (Edit (MapEntry N N) (MapKey N))).
  destruct (keyed_edit_batch h evens es es Hwf Hh Hs) as (u & He & _ & _ & _ & Hout).
  - apply NoDup_cons. split; [|apply NoDup_singleton]. by intros [= ]%list_elem_of_singleton.
  - by repeat constructor.
  - done.
  - repeat constructor. by vm_compute.
  - exists u. split; [exact He|]. rewrite Hout; [by vm_compute|].
    by intros [= ]%elem_of_cons%or_intror || (vm_compute; intros Hin;
      repeat (apply elem_of_cons in Hin as [Hin|Hin]; [discriminate Hin|]); by apply elem_of_nil in Hin).
Defined.

Lemma treemap_point_operations_witness :
  TreeMap.get evens 4%N = Some 40%N ∧
  ∃ t l', TreeMap.update evens 4%N (λ v, ((v + 1)%N, v)) = Some (t, Some 40%N) ∧ becomes l' t ∧
    lookup 4%N l' = Some 41%N.
Proof.
  destruct (treemap_point_operations evens _ 4%N 44%N (λ v, ((v + 1)%N, v)) evens_of)
    as (Hg & _ & _ & t & l' & Hu & Hb & Hl).
  split; [exact Hg|]. exists t, l'. split; [exact Hu|]. split; [done|]. exact (Hl 4%N).
Defined.

Lemma antitone_cmp (k : N) : antitone (cmp k).
Proof.
  intros a b Hab. unfold olt in Hab. unfold cmp, ord_N in *. rewrite N.compare_lt_iff in Hab.
  destruct (N.compare_spec k a), (N.compare_spec k b); simpl; lia.
Qed.

Lemma treemap_bulk_operations_witness :
  TreeMap.closest evens 5%N = Some (Some (4, 40)%N) ∧
  TreeMap.iter_from evens 3%N = Some [(4, 40); (6, 60)]%N ∧
  ∃ t, TreeMap.remove_range evens (cmp 3%N) (cmp 6%N) = Some t ∧
    becomes [{| entry_key := 2; entry_value := 20 |}; {| entry_key := 6; entry_value := 60 |}]%N t.
Proof.
  destruct (treemap_bulk_operations evens _ 5%N (λ _ _, true) (cmp 3%N) (cmp 6%N) evens_of)
    as (_ & (t & Ht & Hb) & Hc & _); [apply antitone_cmp..| |].
  { intros k Hk. unfold cmp, ord_N in *. rewrite N.compare_gt_iff in *. lia. }
  split; [exact Hc|]. split; [by vm_compute|]. exists t. split; [exact Ht|]. exact Hb.
Defined.

Lemma treemap_extend_overrides_witness :
  ∃ t l', TreeMap.extend evens [(6, 66); (1, 10)]%N = Some t ∧ becomes l' t ∧
    lookup 6%N l' = Some 66%N ∧ lookup 4%N l' = Some 40%N.
Proof.
  destruct (treemap_extend_overrides evens _ evens _ [(6, 66); (1, 10)]%N [(1, 10)]%N evens_of evens_of)
    as (_ & (t & l' & Ht & Hb & Hin & Hout) & _).
  - apply NoDup_cons. split; [|apply NoDup_singleton]. by intros [= ]%list_elem_of_singleton.
  - by repeat constructor.
  - exists t, l'. split_and!; [done|done| |].
    + apply Hin, elem_of_cons. by left.
    + rewrite Hout; [done|]. simpl. intros Hk.
      repeat (apply elem_of_cons in Hk as [Hk|Hk]; [discriminate Hk|]). by apply elem_of_nil in Hk.
Defined.

(** With equal keys [extend] keeps both entries, and the map lists a key twice. *)
Example extend_duplicates :
  (t ← TreeMap.extend (tree_new : map_tree N N) [(1, 10); (1, 20)]%N; TreeMap.iter t) =
  Some [(1, 10); (1, 20)]%N.
Proof. by vm_compute. Qed.
