(* ===== verification/Bits.v ===== *)
(** * Bits: machine words as bit strings

    The integer operations that [crates/rope/src/chunk.rs] uses on [u128], [u64] and
    [u32] values, written for any width [w]: shifts, masks, [count_ones],
    [leading_zeros] and [trailing_zeros].  A word is an [N]; [of_bits] reads it off
    a list of booleans, lowest bit first, and the lemmas turn operations on words
    into operations on lists.  List positions are in [N] as well. *)

From S2P Require Import Prelude.

Open Scope N_scope.

(** ** Positions of type [N] in lists *)

Definition len {A} (l : list A) : N := N.of_nat (length l).
Definition ltake {A} (k : N) (l : list A) : list A := take (N.to_nat k) l.
Definition ldrop {A} (k : N) (l : list A) : list A := drop (N.to_nat k) l.
Definition lget {A} (l : list A) (k : N) : option A := l !! N.to_nat k.

Create Rewrite HintDb len.

Section lists.
Context {A : Type}.
Implicit Types l : list A.

Lemma len_nil : len ([] : list A) = 0.
Proof. done. Qed.
Lemma len_cons x l : len (x :: l) = 1 + len l.
Proof. unfold len. simpl. lia. Qed.
Lemma len_app l1 l2 : len (l1 ++ l2) = len l1 + len l2.
Proof. unfold len. rewrite length_app. lia. Qed.
Lemma len_fmap {B} (f : A → B) l : len (f <$> l) = len l.
Proof. unfold len. by rewrite length_fmap. Qed.
Lemma len_replicate n (x : A) : len (replicate n x) = N.of_nat n.
Proof. unfold len. by rewrite length_replicate. Qed.
Lemma len_ltake k l : len (ltake k l) = N.min k (len l).
Proof. unfold len, ltake. rewrite length_take. lia. Qed.
Lemma len_ldrop k l : len (ldrop k l) = len l - k.
Proof. unfold len, ldrop. rewrite length_drop. lia. Qed.
Lemma len_rev l : len (rev l) = len l.
Proof. unfold len. by rewrite length_rev. Qed.
Lemma len_0 l : len l = 0 ↔ l = [].
Proof. destruct l; [done|]. rewrite len_cons. split; [lia|done]. Qed.

Lemma ltake_ldrop k l : ltake k l ++ ldrop k l = l.
Proof. apply take_drop. Qed.
Lemma ltake_0 l : ltake 0 l = [].
Proof. done. Qed.
Lemma ldrop_0 l : ldrop 0 l = l.
Proof. done. Qed.
Lemma ltake_ge k l : len l ≤ k → ltake k l = l.
Proof. unfold len, ltake. intros. apply take_ge. lia. Qed.
Lemma ldrop_ge k l : len l ≤ k → ldrop k l = [].
Proof. unfold len, ldrop. intros. apply drop_ge. lia. Qed.
Lemma ltake_app_l k l1 l2 : k ≤ len l1 → ltake k (l1 ++ l2) = ltake k l1.
Proof. unfold len, ltake. intros. apply take_app_le. lia. Qed.
Lemma ltake_app_r k l1 l2 : len l1 ≤ k → ltake k (l1 ++ l2) = l1 ++ ltake (k - len l1) l2.
Proof. unfold len, ltake. intros. rewrite take_app_ge by lia. do 2 f_equal. lia. Qed.
Lemma ldrop_app_l k l1 l2 : k ≤ len l1 → ldrop k (l1 ++ l2) = ldrop k l1 ++ l2.
Proof. unfold len, ldrop. intros. apply drop_app_le. lia. Qed.
Lemma ldrop_app_r k l1 l2 : len l1 ≤ k → ldrop k (l1 ++ l2) = ldrop (k - len l1) l2.
Proof. unfold len, ldrop. intros. rewrite drop_app_ge by lia. f_equal. lia. Qed.
Lemma ltake_app_len l1 l2 : ltake (len l1) (l1 ++ l2) = l1.
Proof. rewrite ltake_app_l by lia. by apply ltake_ge. Qed.
Lemma ldrop_app_len l1 l2 : ldrop (len l1) (l1 ++ l2) = l2.
Proof. rewrite ldrop_app_r by lia. by rewrite N.sub_diag. Qed.
Lemma ltake_cons k x l : 0 < k → ltake k (x :: l) = x :: ltake (k - 1) l.
Proof. unfold ltake. intros. by replace (N.to_nat k) with (S (N.to_nat (k - 1))) by lia. Qed.
Lemma ldrop_cons k x l : 0 < k → ldrop k (x :: l) = ldrop (k - 1) l.
Proof. unfold ldrop. intros. by replace (N.to_nat k) with (S (N.to_nat (k - 1))) by lia. Qed.
Lemma ltake_ltake j k l : ltake j (ltake k l) = ltake (N.min j k) l.
Proof. unfold ltake. rewrite take_take. f_equal. lia. Qed.
Lemma ldrop_ldrop j k l : ldrop j (ldrop k l) = ldrop (k + j) l.
Proof. unfold ldrop. rewrite drop_drop. f_equal. lia. Qed.
Lemma ldrop_ltake j k l : ldrop j (ltake k l) = ltake (k - j) (ldrop j l).
Proof. unfold ltake, ldrop. rewrite skipn_firstn_comm. f_equal. lia. Qed.
Lemma ltake_fmap {B} (f : A → B) k l : ltake k (f <$> l) = f <$> ltake k l.
Proof. unfold ltake. by rewrite fmap_take. Qed.
Lemma ldrop_fmap {B} (f : A → B) k l : ldrop k (f <$> l) = f <$> ldrop k l.
Proof. unfold ldrop. by rewrite fmap_drop. Qed.
Lemma lget_app_l l1 l2 k : k < len l1 → lget (l1 ++ l2) k = lget l1 k.
Proof. unfold lget, len. intros. apply lookup_app_l. lia. Qed.
Lemma lget_app_r l1 l2 k : len l1 ≤ k → lget (l1 ++ l2) k = lget l2 (k - len l1).
Proof. unfold lget, len. intros. rewrite lookup_app_r by lia. f_equal. lia. Qed.
Lemma lget_Some l k x : lget l k = Some x → ∃ l1 l2, l = l1 ++ x :: l2 ∧ len l1 = k.
Proof.
  unfold lget, len. intros Hx. exists (take (N.to_nat k) l), (drop (S (N.to_nat k)) l).
  split; [by rewrite take_drop_middle|]. apply lookup_lt_Some in Hx. rewrite length_take. lia.
Qed.
Lemma lget_lt l k : k < len l → ∃ x, lget l k = Some x.
Proof. unfold lget, len. intros. apply lookup_lt_is_Some_2. lia. Qed.
Lemma lget_ge l k : len l ≤ k → lget l k = None.
Proof. unfold lget, len. intros. apply lookup_ge_None_2. lia. Qed.
Lemma split_at_len k l : k ≤ len l → ∃ l1 l2, l = l1 ++ l2 ∧ len l1 = k.
Proof. intros. exists (ltake k l), (ldrop k l). rewrite ltake_ldrop, len_ltake. split; [done|lia]. Qed.
End lists.

#[export] Hint Rewrite @len_nil @len_cons @len_app @len_fmap @len_replicate @len_rev @len_ltake @len_ldrop : len.

(** [lia] with division and modulo by constants. *)
Ltac dlia := zify; Z.to_euclidean_division_equations; lia.

Ltac len := autorewrite with len in *; try lia.

(** ** Words *)

(** The word whose bits are [l], lowest first. *)
Fixpoint of_bits (l : list bool) : N :=
  match l with [] => 0 | b :: l => N.b2n b + 2 * of_bits l end.

(** The number of bits that are set. *)
Fixpoint ones (l : list bool) : N :=
  match l with [] => 0 | b :: l => N.b2n b + ones l end.

Section word.
Context (w : N).

(** [MAX]: all bits set. *)
Definition word_max : N := N.ones w.

(** [<<] and [>>] mask the shift amount in the release profile. *)
Definition shl (x k : N) : N := N.shiftl x (k mod w) mod 2 ^ w.
Definition shr (x k : N) : N := N.shiftr x (k mod w).

Definition unbounded_shl (x k : N) : N := if k <? w then N.shiftl x k mod 2 ^ w else 0.
Definition unbounded_shr (x k : N) : N := if k <? w then N.shiftr x k else 0.

Definition wrapping_sub (x y : N) : N := (x + (2 ^ w - y)) mod 2 ^ w.
Definition bit_not (x : N) : N := N.lnot x w.

Fixpoint pos_trailing_zeros (p : positive) : N :=
  match p with xO p => 1 + pos_trailing_zeros p | _ => 0 end.
Definition trailing_zeros (x : N) : N :=
  match x with 0 => w | Npos p => pos_trailing_zeros p end.

Definition leading_zeros (x : N) : N := w - N.size x.
End word.

Fixpoint pos_count_ones (p : positive) : N :=
  match p with xO p => pos_count_ones p | xI p => 1 + pos_count_ones p | xH => 1 end.
Definition count_ones (x : N) : N :=
  match x with 0 => 0 | Npos p => pos_count_ones p end.

(** ** Words as lists of bits *)

Lemma of_bits_cons b l : of_bits (b :: l) = N.b2n b + 2 * of_bits l.
Proof. done. Qed.

Lemma of_bits_lt l : of_bits l < 2 ^ len l.
Proof.
  induction l as [|b l IH]; [done|].
  rewrite of_bits_cons, len_cons, N.pow_add_r, N.pow_1_r. destruct b; simpl; lia.
Qed.

Lemma of_bits_app l1 l2 : of_bits (l1 ++ l2) = of_bits l1 + 2 ^ len l1 * of_bits l2.
Proof.
  induction l1 as [|b l1 IH]; cbn [app].
  - change (len []) with 0. rewrite N.pow_0_r. cbn [of_bits]. lia.
  - rewrite !of_bits_cons, len_cons, N.pow_add_r, N.pow_1_r, IH. lia.
Qed.

Lemma of_bits_replicate n : of_bits (replicate n false) = 0.
Proof. induction n; [done|]. cbn [replicate]. rewrite of_bits_cons, IHn. done. Qed.

Lemma testbit_of_bits l i : N.testbit (of_bits l) i = default false (lget l i).
Proof.
  revert i. induction l as [|b l IH]; intros i; [by rewrite N.bits_0|].
  rewrite of_bits_cons. unfold lget. destruct (decide (i = 0)) as [->|Hi].
  - rewrite N.add_comm. by rewrite N.testbit_0_r.
  - replace i with (N.succ (N.pred i)) by lia.
    rewrite N.add_comm, N.testbit_succ_r, IH, N2Nat.inj_succ. done.
Qed.

Lemma of_bits_land_ones l k : N.land (of_bits l) (N.ones k) = of_bits (ltake k l).
Proof.
  rewrite N.land_ones. destruct (decide (k ≤ len l)) as [Hk|Hk].
  - rewrite <- (ltake_ldrop k l) at 1. rewrite of_bits_app, len_ltake, (N.min_l k) by lia.
    rewrite N.mul_comm, N.Div0.mod_add. apply N.mod_small.
    eapply N.lt_le_trans; [apply of_bits_lt|]. rewrite len_ltake. apply N.pow_le_mono_r; lia.
  - rewrite ltake_ge by lia. apply N.mod_small.
    eapply N.lt_le_trans; [apply of_bits_lt|]. apply N.pow_le_mono_r; lia.
Qed.

Lemma of_bits_shiftr l k : N.shiftr (of_bits l) k = of_bits (ldrop k l).
Proof.
  rewrite N.shiftr_div_pow2. destruct (decide (k ≤ len l)) as [Hk|Hk].
  - rewrite <- (ltake_ldrop k l) at 1. pose proof (of_bits_lt (ltake k l)) as Hlt.
    rewrite of_bits_app, len_ltake, (N.min_l k) in * by lia.
    rewrite N.mul_comm, N.div_add by lia. by rewrite N.div_small.
  - rewrite ldrop_ge by lia. apply N.div_small.
    eapply N.lt_le_trans; [apply of_bits_lt|]. apply N.pow_le_mono_r; lia.
Qed.

Lemma of_bits_lor_shiftl l1 l2 :
  N.lor (of_bits l1) (N.shiftl (of_bits l2) (len l1)) = of_bits (l1 ++ l2).
Proof.
  apply N.bits_inj. intros i. rewrite N.lor_spec, !testbit_of_bits.
  destruct (decide (i < len l1)).
  - rewrite N.shiftl_spec_low, lget_app_l, orb_false_r by lia. done.
  - rewrite N.shiftl_spec_high', testbit_of_bits, lget_app_r, (lget_ge l1) by lia. done.
Qed.

Lemma of_bits_0 l : of_bits l = 0 ↔ true ∉ l.
Proof.
  induction l as [|[] l IH]; rewrite ?of_bits_cons, ?elem_of_cons; simpl.
  - split; [intros _ []%elem_of_nil|done].
  - split; [lia|]. naive_solver.
  - split; [|naive_solver lia]. intros H [?|?]; [done|]. apply IH; [lia|done].
Qed.

Lemma ones_app l1 l2 : ones (l1 ++ l2) = ones l1 + ones l2.
Proof. induction l1 as [|b l1 IH]; cbn [app ones]; [done|]. lia. Qed.

Lemma ones_replicate n : ones (replicate n false) = 0.
Proof. by induction n. Qed.

Lemma ones_le l : ones l ≤ len l.
Proof. induction l as [|[] l IH]; rewrite ?len_cons; simpl; lia. Qed.

Lemma count_ones_of_bits l : count_ones (of_bits l) = ones l.
Proof.
  induction l as [|b l IH]; [done|]. rewrite of_bits_cons. cbn [ones]. rewrite <- IH.
  by destruct b, (of_bits l).
Qed.

Lemma trailing_zeros_of_bits w n l :
  trailing_zeros w (of_bits (replicate n false ++ true :: l)) = N.of_nat n.
Proof.
  induction n as [|n IH]; cbn [replicate app].
  - rewrite of_bits_cons. by destruct (of_bits l).
  - rewrite of_bits_cons. revert IH. destruct (of_bits (replicate n false ++ _)) as [|p] eqn:E.
    + apply of_bits_0 in E. destruct E. rewrite elem_of_app, elem_of_cons. by right; left.
    + change (N.b2n false + 2 * N.pos p) with (N.pos p~0). cbn [trailing_zeros pos_trailing_zeros]. lia.
Qed.

Lemma trailing_zeros_0 w l : true ∉ l → trailing_zeros w (of_bits l) = w.
Proof. intros ->%of_bits_0. done. Qed.

Lemma size_of_bits l n : N.size (of_bits (l ++ true :: replicate n false)) = len l + 1.
Proof.
  rewrite of_bits_app, of_bits_cons, of_bits_replicate.
  pose proof (of_bits_lt l). rewrite N.size_log2 by (simpl; lia).
  rewrite (N.log2_unique _ (len l)); [lia|lia|]. rewrite N.pow_succ_r'. simpl. lia.
Qed.

Lemma leading_zeros_of_bits w l n :
  leading_zeros w (of_bits (l ++ true :: replicate n false)) = w - (len l + 1).
Proof. unfold leading_zeros. by rewrite size_of_bits. Qed.

Lemma leading_zeros_0 w l : true ∉ l → leading_zeros w (of_bits l) = w.
Proof. intros ->%of_bits_0. unfold leading_zeros. simpl. lia. Qed.

(** ** Masks *)

Lemma unbounded_shl_mask w k : 0 < w →
  wrapping_sub w (unbounded_shl w 1 k) 1 = N.ones (N.min k w).
Proof.
  intros Hw. unfold wrapping_sub, unbounded_shl. pose proof (N.pow_gt_lin_r 2 w ltac:(lia)) as Hp.
  rewrite !N.ones_equiv. destruct (N.ltb_spec k w) as [Hk|Hk].
  - assert (2 ^ k < 2 ^ w) by (apply N.pow_lt_mono_r; lia).
    pose proof (N.pow_nonzero 2 k ltac:(lia)).
    rewrite N.shiftl_1_l, (N.mod_small (2 ^ k)), N.min_l by lia.
    replace (2 ^ k + (2 ^ w - 1)) with (2 ^ k - 1 + 1 * 2 ^ w) by lia.
    rewrite N.Div0.mod_add, N.mod_small by lia. lia.
  - rewrite N.min_r, N.mod_small by lia. lia.
Qed.

Lemma testbit_bit_not_shr w k i :
  N.testbit (bit_not w (unbounded_shr w (word_max w) k)) i = bool_decide (i < w ∧ w ≤ i + k).
Proof.
  unfold bit_not, unbounded_shr, word_max. destruct (decide (i < w)) as [Hi|Hi].
  - rewrite N.lnot_spec_low by done. destruct (N.ltb_spec k w) as [Hk|Hk].
    + rewrite N.shiftr_spec'. destruct (decide (i + k < w)).
      * rewrite N.ones_spec_low, bool_decide_eq_false_2 by lia. done.
      * rewrite N.ones_spec_high, bool_decide_eq_true_2 by lia. done.
    + rewrite N.bits_0, bool_decide_eq_true_2 by lia. done.
  - rewrite N.lnot_spec_high by lia. rewrite bool_decide_eq_false_2 by lia.
    destruct (k <? w); [|apply N.bits_0]. rewrite N.shiftr_spec'. apply N.ones_spec_high. lia.
Qed.

(** Keeping the highest [k] of [w] bits. *)
Lemma of_bits_land_shr_mask w k l : len l ≤ w →
  N.land (of_bits l) (bit_not w (unbounded_shr w (word_max w) k)) =
  of_bits (replicate (N.to_nat (w - k)) false ++ ldrop (w - k) l).
Proof.
  intros Hl. apply N.bits_inj. intros i.
  rewrite N.land_spec, !testbit_of_bits, testbit_bit_not_shr.
  destruct (decide (i < w - k)).
  - rewrite bool_decide_eq_false_2 by lia. rewrite andb_false_r, lget_app_l by len.
    unfold lget. by rewrite lookup_replicate_2 by lia.
  - rewrite lget_app_r by len. len. unfold lget, ldrop. rewrite lookup_drop.
    replace (N.to_nat (w - k) + N.to_nat (i - N.of_nat (N.to_nat (w - k))))%nat with (N.to_nat i) by lia.
    destruct (decide (i < w)).
    + rewrite bool_decide_eq_true_2 by lia. apply andb_true_r.
    + rewrite bool_decide_eq_false_2 by lia. rewrite andb_false_r.
      rewrite lookup_ge_None_2; [done|]. unfold len in Hl. lia.
Qed.

Lemma wrapping_sub_small w x y : y ≤ x → x < 2 ^ w → wrapping_sub w x y = x - y.
Proof.
  intros. unfold wrapping_sub. replace (x + (2 ^ w - y)) with (x - y + 1 * 2 ^ w) by lia.
  rewrite N.Div0.mod_add. apply N.mod_small. lia.
Qed.

Lemma shl_small w x k : k < w → N.shiftl x k < 2 ^ w → shl w x k = N.shiftl x k.
Proof. intros. unfold shl. by rewrite (N.mod_small k), N.mod_small by lia. Qed.

Lemma shr_small w x k : k < w → shr w x k = N.shiftr x k.
Proof. intros. unfold shr. by rewrite N.mod_small by lia. Qed.

Lemma shl_of_bits w l k : k < w → len l + k ≤ w →
  shl w (of_bits l) k = of_bits (replicate (N.to_nat k) false ++ l).
Proof.
  intros Hk Hl. rewrite shl_small; [|done|].
  - rewrite <- of_bits_lor_shiftl, of_bits_replicate, len_replicate, N2Nat.id. by rewrite N.lor_0_l.
  - rewrite N.shiftl_mul_pow2. pose proof (of_bits_lt l). eapply N.lt_le_trans.
    + apply N.mul_lt_mono_pos_r; [|eassumption]. apply N.neq_0_lt_0, N.pow_nonzero. lia.
    + rewrite <- N.pow_add_r. apply N.pow_le_mono_r; lia.
Qed.
