(* ===== verification/SelectBit.v ===== *)
(** * SelectBit: finding the n-th set bit of a word

    Models [nth_set_bit] and [nth_set_bit_u64] of [crates/rope/src/chunk.rs], the
    branchless selection that converts UTF-16 offsets and rows to byte offsets.
    The routine counts bits in parallel (fields of 2, 4, 8 and 16 bits), then walks
    down a binary search whose comparisons are arithmetic on borrows.  The theorem
    [select_bit_correct] says that it finds what a scan from the lowest bit finds. *)

From S2P Require Import Prelude Bits.

(** ** The code *)

Definition MAX64 : N := N.ones 64.
Definition add64 (x y : N) : N := (x + y) mod 2 ^ 64.
Definition sub64 : N → N → N := wrapping_sub 64.

(** The lowest [w] bits of a word, lowest first. *)
Definition to_bits (w : N) (v : N) : list bool := (λ i, N.testbit v (N.of_nat i)) <$> seq 0 (N.to_nat w).

Definition reverse_bits (w v : N) : N := of_bits (rev (to_bits w v)).

(** The second half of each step of the branchless select: [s -= (t.wrapping_sub(n)
    & 256) >> k] and [n -= t & (t.wrapping_sub(n) >> 8)]. *)
Definition select_s (k t s n : N) : N := sub64 s (shr 64 (N.land (sub64 t n) 256) k).
Definition select_n (t n : N) : N := sub64 n (N.land t (shr 64 (sub64 t n) 8)).

(** The branchless select proper, from the counts in fields of 1, 2, 4, 8 and 16 bits. *)
Definition branchless_select (v a b c d n : N) : N :=
  let s := 64 in
  let t := add64 (shr 64 d 32) (shr 64 d 48) in
  let '(s, n) := (select_s 3 t s n, select_n t n) in
  let t := N.land (shr 64 d (sub64 s 16)) 255 in
  let '(s, n) := (select_s 4 t s n, select_n t n) in
  let t := N.land (shr 64 c (sub64 s 8)) 15 in
  let '(s, n) := (select_s 5 t s n, select_n t n) in
  let t := N.land (shr 64 b (sub64 s 4)) 7 in
  let '(s, n) := (select_s 6 t s n, select_n t n) in
  let t := N.land (shr 64 a (sub64 s 2)) 3 in
  let '(s, n) := (select_s 7 t s n, select_n t n) in
  let t := N.land (shr 64 v (sub64 s 1)) 1 in
  let s := select_s 8 t s n in
  sub64 (sub64 65 s) 1.

Definition nth_set_bit_u64 (v n : N) : N :=
  let v := reverse_bits 64 v in
  let a := sub64 v (N.land (shr 64 v 1) (MAX64 / 3)) in
  let b := add64 (N.land a (MAX64 / 5)) (N.land (shr 64 a 2) (MAX64 / 5)) in
  let c := N.land (add64 b (shr 64 b 4)) (MAX64 / 17) in
  let d := N.land (add64 c (shr 64 c 8)) (MAX64 / 257) in
  branchless_select v a b c d n.

Definition nth_set_bit (v n : N) : N :=
  let low := v mod 2 ^ 64 in
  let high := shr 128 v 64 in
  let low_count := count_ones low in
  if low_count <? n then 64 + nth_set_bit_u64 high (n - low_count)
  else nth_set_bit_u64 low n.

Example nth_set_bit_u64_ex : nth_set_bit_u64 0xf00f0 5 = 16 ∧ nth_set_bit (N.shiftl 5 126 + 2) 2 = 126.
Proof. by vm_compute. Qed.

(** ** Fields *)

(** The number whose digits in base [2^k] are [ds], lowest first. *)
Fixpoint val (k : N) (ds : list N) : N :=
  match ds with [] => 0 | d :: ds => d + 2 ^ k * val k ds end.

(** The sums of neighbours. *)
Fixpoint pairs (ds : list N) : list N :=
  match ds with x :: y :: ds => (x + y) :: pairs ds | _ => [] end.

Fixpoint evens (ds : list N) : list N :=
  match ds with x :: _ :: ds => x :: evens ds | _ => [] end.
Fixpoint odds (ds : list N) : list N :=
  match ds with _ :: y :: ds => y :: odds ds | _ => [] end.

(** Induction on lists of even length, two elements at a time. *)
Lemma even_ind {A} (P : nat → list A → Prop) :
  P 0%nat [] → (∀ m x y l, length l = (2 * m)%nat → P m l → P (S m) (x :: y :: l)) →
  ∀ m l, length l = (2 * m)%nat → P m l.
Proof.
  intros H0 HS m. induction m as [|m IH]; intros l Hl.
  - by apply nil_length_inv in Hl as ->.
  - destruct l as [|x [|y l]]; simpl in Hl; try lia. apply HS; [lia|]. apply IH. lia.
Qed.

Lemma land_digit k x y m n : x < 2 ^ k → m < 2 ^ k →
  N.land (x + 2 ^ k * y) (m + 2 ^ k * n) = N.land x m + 2 ^ k * N.land y n.
Proof.
  assert (Hsplit : ∀ x y i, x < 2 ^ k → N.testbit (x + 2 ^ k * y) i =
    if bool_decide (i < k) then N.testbit x i else N.testbit y (i - k)).
  { clear. intros x y i Hx. case_bool_decide.
    - rewrite <- (N.mod_pow2_bits_low _ k) by done.
      rewrite N.mul_comm, N.Div0.mod_add, N.mod_small by done. done.
    - replace i with (i - k + k) at 1 by lia. rewrite <- N.div_pow2_bits.
      rewrite N.mul_comm, N.div_add, N.div_small by lia. done. }
  intros Hx Hm. apply N.bits_inj. intros i.
  assert (N.land x m < 2 ^ k) by (eapply N.le_lt_trans; [apply N.land_le_l|done]).
  rewrite N.land_spec, !Hsplit by done.
  case_bool_decide; by rewrite N.land_spec.
Qed.

Lemma shiftr_digit k x y : x < 2 ^ k → N.shiftr (x + 2 ^ k * y) k = y.
Proof.
  intros. rewrite N.shiftr_div_pow2, N.mul_comm, N.div_add, N.div_small by lia. lia.
Qed.

Section fields.
Context (k : N).
Implicit Types (ds : list N) (m : nat).

(** The mask that keeps every other field. *)
Definition even_mask (m : nat) : N := val (2 * k) (replicate m (2 ^ k - 1)).

Lemma val_double x ds : val (2 * k) (x :: ds) = x + 2 ^ k * (2 ^ k * val (2 * k) ds).
Proof. cbn [val]. replace (2 * k) with (k + k) at 1 by lia. rewrite N.pow_add_r. lia. Qed.

Lemma even_mask_S m : even_mask (S m) = (2 ^ k - 1) + 2 ^ k * (0 + 2 ^ k * even_mask m).
Proof. unfold even_mask. cbn [replicate]. rewrite val_double. lia. Qed.

Lemma land_low x : x < 2 ^ k → N.land x (2 ^ k - 1) = x.
Proof.
  intros. replace (2 ^ k - 1) with (N.ones k) by (rewrite N.ones_equiv; lia).
  rewrite N.land_ones. by apply N.mod_small.
Qed.

Lemma land_low_pred : 2 ^ k - 1 < 2 ^ k.
Proof. pose proof (N.pow_nonzero 2 k). lia. Qed.

Lemma land_high x n : N.land x (0 + 2 ^ k * n) = 2 ^ k * N.land (N.shiftr x k) n.
Proof.
  rewrite N.shiftr_div_pow2. rewrite (N.div_mod x (2 ^ k)) at 1 by lia.
  rewrite N.add_comm, land_digit, N.land_0_r; [lia| |].
  - apply N.mod_lt. lia.
  - pose proof (N.pow_nonzero 2 k). lia.
Qed.

(** One level on wide enough fields: mask, then add. *)
Lemma mask_add m ds : length ds = (2 * m)%nat → Forall (λ d, d < 2 ^ k) ds →
  N.land (val k ds) (even_mask m) = val (2 * k) (evens ds) ∧
  N.land (N.shiftr (val k ds) k) (even_mask m) = val (2 * k) (odds ds).
Proof.
  revert m ds. refine (even_ind _ _ _); [cbn [val]; by rewrite N.shiftr_0_l|].
  intros m x y ds _ IH [Hx [Hy Hds]%Forall_cons]%Forall_cons.
  destruct (IH Hds) as [IH1 IH2]. cbn [evens odds]. rewrite even_mask_S, !val_double. cbn [val].
  pose proof land_low_pred. assert (0 < 2 ^ k) by lia. split.
  - rewrite !land_digit, N.land_0_r, IH1, land_low by done. lia.
  - rewrite shiftr_digit, land_digit, land_high, IH2, land_low by done. done.
Qed.

(** One level on fields with room for the sum: add, then mask. *)
Lemma add_mask c m ds : length ds = (2 * m)%nat → Forall (λ d, d ≤ c) ds → 2 * c < 2 ^ k →
  N.land (val k ds + N.shiftr (val k ds) k) (even_mask m) = val (2 * k) (pairs ds).
Proof.
  intros Hlen Hds Hc. revert m ds Hlen Hds.
  refine (even_ind _ _ _); [cbn [val]; by rewrite N.shiftr_0_l|].
  intros m x y ds _ IH [Hx [Hy Hds]%Forall_cons]%Forall_cons.
  specialize (IH Hds). cbn [pairs]. rewrite even_mask_S, val_double. cbn [val].
  pose proof land_low_pred. rewrite shiftr_digit by lia.
  replace (x + 2 ^ k * (y + 2 ^ k * val k ds) + (y + 2 ^ k * val k ds))
    with ((x + y) + 2 ^ k * (y + val k ds + 2 ^ k * val k ds)) by lia.
  rewrite land_digit, land_high, land_low by lia. do 3 f_equal.
  rewrite <- IH. f_equal. destruct ds as [|z ds]; cbn [val].
  - rewrite N.mul_0_r, N.add_0_r, !N.add_0_l. rewrite N.shiftr_0_l.
    rewrite N.shiftr_div_pow2. apply N.div_small. lia.
  - apply Forall_cons in Hds as [Hz _]. rewrite (shiftr_digit k z) by lia.
    replace (y + (z + 2 ^ k * val k ds) + 2 ^ k * (z + 2 ^ k * val k ds))
      with ((y + z) + 2 ^ k * ((z + 2 ^ k * val k ds) + val k ds)) by ring.
    by rewrite shiftr_digit by lia.
Qed.

Lemma val_lt ds : Forall (λ d, d < 2 ^ k) ds → val k ds < 2 ^ (k * len ds).
Proof.
  induction 1 as [|d ds Hd _ IH]; [by rewrite N.mul_0_r|].
  cbn [val]. rewrite len_cons, N.mul_add_distr_l, N.mul_1_r, N.pow_add_r. nia.
Qed.

(** Reading a field. *)
Lemma field_at ds i j d : j ≤ k → Forall (λ d, d < 2 ^ k) ds → ds !! i = Some d → d < 2 ^ j →
  N.land (N.shiftr (val k ds) (k * N.of_nat i)) (N.ones j) = d.
Proof.
  intros Hj Hds Hi Hd. revert ds Hds Hi. induction i as [|i IH]; intros [|x ds] Hds Hi; simplify_eq/=.
  - rewrite N.mul_0_r, N.shiftr_0_r, N.land_ones. replace k with (j + (k - j)) by lia.
    rewrite N.pow_add_r, <- N.mul_assoc, (N.mul_comm (2 ^ j)), N.Div0.mod_add. by apply N.mod_small.
  - apply Forall_cons in Hds as [Hx Hds]. rewrite Nat2N.inj_succ, N.mul_succ_r, (N.add_comm (k * _)). cbn [val].
    rewrite <- N.shiftr_shiftr, shiftr_digit by done. by apply IH.
Qed.
End fields.

(** ** Levels of the parallel count *)

Lemma val_split k m ds : length ds = (2 * m)%nat →
  val k ds = val (2 * k) (evens ds) + 2 ^ k * val (2 * k) (odds ds).
Proof.
  revert m ds. refine (even_ind _ _ _); [cbn; lia|].
  intros m x y ds _ IH. cbn [evens odds]. rewrite !val_double. cbn [val]. rewrite IH. ring.
Qed.

Lemma val_pairs k m ds : length ds = (2 * m)%nat →
  val k (evens ds) + val k (odds ds) = val k (pairs ds).
Proof.
  revert m ds. refine (even_ind _ _ _); [done|].
  intros m x y ds _ IH. cbn [evens odds pairs val]. rewrite <- IH. ring.
Qed.

Lemma pairs_seq (f : nat → N) m : ∀ s, pairs (f <$> seq s (2 * m)) =
  (λ i, f (s + 2 * i)%nat + f (s + 2 * i + 1)%nat) <$> seq 0 m.
Proof.
  induction m as [|m IH]; intros s; [done|].
  replace (2 * S m)%nat with (S (S (2 * m))) by lia. cbn [seq fmap list_fmap pairs].
  change (list_fmap _ _ f) with (fmap (M:=list) f). rewrite IH.
  rewrite <- fmap_S_seq, <- list_fmap_compose. f_equal.
  - f_equal; f_equal; lia.
  - apply list_fmap_ext. intros ? i _. simpl. f_equal; f_equal; lia.
Qed.

(** The counts of [m] consecutive blocks of [W] bits. *)
Definition blocks (m W : nat) (R : list bool) : list N :=
  (λ i, ones (take W (drop (W * i) R))) <$> seq 0 m.

Lemma pairs_blocks m W R : pairs (blocks (2 * m) W R) = blocks m (2 * W) R.
Proof.
  unfold blocks. rewrite pairs_seq. apply list_fmap_ext. intros ? i _. simpl.
  rewrite <- ones_app. f_equal.
  replace (W * (i + (i + 0) + 1))%nat with (W * (i + (i + 0)) + W)%nat by lia.
  rewrite <- drop_drop, take_take_drop.
  f_equal; [lia|]. f_equal. lia.
Qed.

Lemma blocks_le m W R : Forall (λ d, d ≤ N.of_nat W) (blocks m W R).
Proof.
  apply Forall_fmap, Forall_true. intros i. simpl.
  pose proof (ones_le (take W (drop (W * i) R))). unfold len in *. rewrite length_take in *. lia.
Qed.

Lemma blocks_1 R : val 1 (blocks (length R) 1 R) = of_bits R.
Proof.
  unfold blocks. induction R as [|b R IH]; [done|]. cbn [length seq].
  rewrite <- fmap_S_seq, fmap_cons, <- list_fmap_compose.
  cbn [val]. rewrite of_bits_cons, N.pow_1_r, <- IH. apply (f_equal2 N.add); [apply N.add_0_r|done].
Qed.

Section levels.
Context (R : list bool) (HR : length R = 64%nat).

Let v := of_bits R.
Let a := sub64 v (N.land (shr 64 v 1) (MAX64 / 3)).
Let b := add64 (N.land a (MAX64 / 5)) (N.land (shr 64 a 2) (MAX64 / 5)).
Let c := N.land (add64 b (shr 64 b 4)) (MAX64 / 17).
Let d := N.land (add64 c (shr 64 c 8)) (MAX64 / 257).

Lemma blocks_lt m W : (0 < W)%nat → Forall (λ x, x < 2 ^ N.of_nat W) (blocks m W R).
Proof.
  intros. eapply Forall_impl; [apply blocks_le|]. simpl. intros x Hx.
  pose proof (N.pow_gt_lin_r 2 (N.of_nat W)). lia.
Qed.

Lemma blocks_val_lt m W : (0 < W)%nat → (W * m = 64)%nat → val (N.of_nat W) (blocks m W R) < 2 ^ 64.
Proof.
  intros HW Hm. eapply N.lt_le_trans; [by apply val_lt, blocks_lt|].
  unfold len, blocks. rewrite length_fmap, length_seq. apply N.pow_le_mono_r; lia.
Qed.

Lemma length_blocks m W : length (blocks m W R) = m.
Proof. unfold blocks. by rewrite length_fmap, length_seq. Qed.

Lemma sub64_small x y : y ≤ x → x < 2 ^ 64 → sub64 x y = x - y.
Proof. apply wrapping_sub_small. Qed.

Lemma level_v : v = val 1 (blocks 64 1 R).
Proof. unfold v. rewrite <- blocks_1. by rewrite HR. Qed.

Lemma level_a : a = val 2 (blocks 32 2 R).
Proof.
  pose proof (blocks_val_lt 64 1 ltac:(lia) ltac:(lia)) as Hlt. change (N.of_nat 1) with 1 in Hlt.
  unfold a. rewrite level_v, shr_small by lia.
  change (MAX64 / 3) with (even_mask 1 32).
  destruct (mask_add 1 32 (blocks 64 1 R)) as [_ ->]; [apply length_blocks|by apply (blocks_lt 64 1); lia|].
  rewrite (val_split 1 32) by apply length_blocks. rewrite (val_split 1 32) in Hlt by apply length_blocks.
  change (2 * 1) with 2 in *. change (2 ^ 1) with 2 in *.
  rewrite sub64_small by lia.
  rewrite <- (pairs_blocks 32 1), <- (val_pairs 2 32) by apply length_blocks.
  change (2 * 32)%nat with 64%nat. lia.
Qed.

Lemma level_b : b = val 4 (blocks 16 4 R).
Proof.
  pose proof (blocks_val_lt 16 4 ltac:(lia) ltac:(lia)) as Hlt. change (N.of_nat 4) with 4 in Hlt.
  unfold b. rewrite level_a, shr_small by lia.
  change (MAX64 / 5) with (even_mask 2 16).
  destruct (mask_add 2 16 (blocks 32 2 R)) as [-> ->]; [apply length_blocks|by apply (blocks_lt 32 2); lia|].
  change (2 * 2) with 4.
  rewrite <- (pairs_blocks 16 2), <- (val_pairs 4 16) in * by apply length_blocks.
  by apply N.mod_small.
Qed.

Lemma val_le k x ds : Forall (λ y, y ≤ x) ds → val k ds ≤ val k (replicate (length ds) x).
Proof. induction 1; [done|]. cbn [val length replicate]. nia. Qed.

(** The levels that add before they mask. *)
Lemma level_add m W x : 2 * N.of_nat W < 2 ^ N.of_nat W →
  2 * val (N.of_nat W) (replicate (2 * m) (N.of_nat W)) < 2 ^ 64 →
  x = val (N.of_nat W) (blocks (2 * m) W R) →
  N.land (add64 x (N.shiftr x (N.of_nat W))) (even_mask (N.of_nat W) m) =
  val (2 * N.of_nat W) (blocks m (2 * W) R).
Proof.
  intros Hroom Hlt ->. unfold add64.
  pose proof (val_le (N.of_nat W) _ _ (blocks_le (2 * m) W R)) as Hle. rewrite length_blocks in Hle.
  set (x := val _ _) in Hle at 1. assert (N.shiftr x (N.of_nat W) ≤ x).
  { rewrite N.shiftr_div_pow2. apply N.Div0.div_le_upper_bound.
    pose proof (N.pow_nonzero 2 (N.of_nat W)). nia. }
  fold x. rewrite N.mod_small by lia. unfold x.
  rewrite (add_mask _ (N.of_nat W)); [by rewrite pairs_blocks|apply length_blocks|apply blocks_le|done].
Qed.

Lemma level_c : c = val 8 (blocks 8 8 R).
Proof.
  unfold c. rewrite shr_small by lia. change (MAX64 / 17) with (even_mask (N.of_nat 4) 8).
  exact (level_add 8 4 b eq_refl eq_refl level_b).
Qed.

Lemma level_d : d = val 16 (blocks 4 16 R).
Proof.
  unfold d. rewrite shr_small by lia. change (MAX64 / 257) with (even_mask (N.of_nat 8) 4).
  exact (level_add 4 8 c eq_refl eq_refl level_c).
Qed.

(** *** The binary search *)

(** The bits of [R] from [i] to [j]. *)
Definition cnt (i j : N) : N := ones (ltake (j - i) (ldrop i R)).

Lemma cnt_split i j k : i ≤ j ≤ k → cnt i k = cnt i j + cnt j k.
Proof.
  intros. unfold cnt. rewrite <- ones_app. f_equal.
  replace j with (i + (j - i)) at 3 by lia. rewrite <- ldrop_ldrop.
  unfold ltake, ldrop. rewrite take_take_drop. f_equal. lia.
Qed.

Lemma cnt_le i j : cnt i j ≤ j - i.
Proof. unfold cnt. pose proof (ones_le (ltake (j - i) (ldrop i R))). len. Qed.

Lemma blocks_field m W j i : (i < m)%nat → (0 < W)%nat → j ≤ N.of_nat W → N.of_nat W < 2 ^ j →
  N.land (N.shiftr (val (N.of_nat W) (blocks m W R)) (N.of_nat W * N.of_nat i)) (N.ones j) =
  cnt (N.of_nat W * N.of_nat i) (N.of_nat W * N.of_nat i + N.of_nat W).
Proof.
  intros Hi HW Hj HWj. apply field_at; [done|by apply blocks_lt| |].
  - unfold blocks, cnt, ltake, ldrop. rewrite list_lookup_fmap, lookup_seq_lt by done. simpl.
    do 2 f_equal. f_equal; [lia|]. f_equal. lia.
  - eapply N.le_lt_trans; [apply cnt_le|]. lia.
Qed.

(** The comparisons by borrows, checked on all values that occur. *)
Definition below (K : nat) (P : N → bool) : bool := forallb (λ i, P (N.of_nat i)) (seq 0 K).

Lemma below_spec K P x : below K P = true → x < N.of_nat K → P x = true.
Proof.
  unfold below. rewrite forallb_forall. intros H Hx. rewrite <- (N2Nat.id x). apply H, in_seq. lia.
Qed.

Definition select_ok (t t' n : N) : bool :=
  (select_n t n =? (if t' <? n then n - t' else n)) &&
  (N.land (sub64 t n) 256 =? (if t' <? n then 256 else 0)).

Lemma select_small t n : t ≤ 32 → n ≤ 64 → select_ok t t n = true.
Proof.
  intros. apply (below_spec 65 (λ n, select_ok t t n)); [|lia].
  apply (below_spec 33 (λ t, below 65 (λ n, select_ok t t n))); [by vm_compute|lia].
Qed.

Lemma select_first f f' n : f ≤ 16 → f' ≤ 16 → n ≤ 64 →
  select_ok (add64 (f + 2 ^ 16 * f') f') (f + f') n = true.
Proof.
  intros. apply (below_spec 65 (λ n, select_ok (add64 (f + 2 ^ 16 * f') f') (f + f') n)); [|lia].
  apply (below_spec 17 (λ f', below 65 (λ n, select_ok (add64 (f + 2 ^ 16 * f') f') (f + f') n))); [|lia].
  apply (below_spec 17 (λ f, below 17 (λ f', below 65 (λ n,
    select_ok (add64 (f + 2 ^ 16 * f') f') (f + f') n)))); [by vm_compute|lia].
Qed.

(** The searched bit is the [n]-th of the [W] bits below [s], counted from the top. *)
Definition search (n0 W s n : N) : Prop :=
  (∃ i : nat, s = W * N.of_nat i) ∧ W ≤ s ≤ 64 ∧ 1 ≤ n ≤ cnt (s - W) s ∧ n + cnt s 64 = n0.

Lemma search_step n0 W k t s n :
  search n0 (2 * W) s n → select_ok t (cnt (s - W) s) n = true → 1 ≤ W → shr 64 256 k = W → k < 64 →
  search n0 W (select_s k t s n) (select_n t n).
Proof.
  unfold search, select_ok. intros ((i & Hi) & [Hs Hs'] & [Hn Hn'] & Hn0) Hok HW Hk Hk64.
  apply andb_prop in Hok as [->%N.eqb_eq H2%N.eqb_eq]. unfold select_s. rewrite H2. clear H2.
  pose proof (cnt_split (s - 2 * W) (s - W) s ltac:(lia)) as Hcnt.
  destruct (N.ltb_spec (cnt (s - W) s) n) as [Hlt|Hge].
  - rewrite Hk, sub64_small by lia. pose proof (cnt_split (s - W) s 64 ltac:(lia)) as Hc2.
    split; [exists (2 * i - 1)%nat; nia|]. split; [lia|].
    replace (s - W - W) with (s - 2 * W) by lia. lia.
  - assert (shr 64 0 k = 0) as -> by (by rewrite shr_small, N.shiftr_0_l).
    rewrite sub64_small by lia. rewrite N.sub_0_r. split; [exists (2 * i)%nat; nia|]. lia.
Qed.

(** A step that reads its count from the fields of a level. *)
Lemma search_field n0 m (W : nat) j k x s n : (W * m = 64)%nat → (0 < W ≤ 32)%nat →
  j ≤ N.of_nat W → N.of_nat W < 2 ^ j → shr 64 256 k = N.of_nat W → k < 64 →
  x = val (N.of_nat W) (blocks m W R) → search n0 (2 * N.of_nat W) s n →
  let t := N.land (shr 64 x (sub64 s (N.of_nat W))) (N.ones j) in
  search n0 (N.of_nat W) (select_s k t s n) (select_n t n).
Proof.
  intros Hm HW Hj HWj Hk Hk64 -> Hs t.
  assert (t = cnt (s - N.of_nat W) s) as Ht.
  { destruct Hs as ((i & Hi) & Hs & _). unfold t. rewrite sub64_small, shr_small by lia.
    replace (s - N.of_nat W) with (N.of_nat W * N.of_nat (2 * i - 1)) by nia.
    rewrite blocks_field by nia. f_equal. nia. }
  apply search_step; [done| |lia|done|done]. rewrite Ht.
  assert (n ≤ 64).
  { destruct Hs as (_ & Hs & Hn & _). pose proof (cnt_le (s - 2 * N.of_nat W) s). lia. }
  apply select_small; [|done]. pose proof (cnt_le (s - N.of_nat W) s). lia.
Qed.

Lemma search_start n0 : 1 ≤ n0 ≤ ones R → search n0 64 64 n0.
Proof.
  intros Hn. assert (len R = 64) as Hl by (unfold len; lia).
  assert (cnt 0 64 = ones R ∧ cnt 64 64 = 0) as [H1 H2].
  { unfold cnt. rewrite ldrop_0, N.sub_diag, ltake_0. split; [|done]. by rewrite ltake_ge by len. }
  split; [by exists 1%nat|]. rewrite H2. change (64 - 64) with 0. rewrite H1. lia.
Qed.

(** The first step adds two fields and compares the low half of the sum. *)
Lemma search_half n0 n : search n0 64 64 n →
  let t := add64 (shr 64 d 32) (shr 64 d 48) in
  search n0 32 (select_s 3 t 64 n) (select_n t n).
Proof.
  intros Hs. apply search_step; [done| |lia|done|done].
  rewrite level_d, !shr_small by lia.
  assert (∃ f0 f1 f2 f3, blocks 4 16 R = [f0; f1; f2; f3]) as (f0 & f1 & f2 & f3 & Hf) by (by repeat eexists).
  pose proof (blocks_le 4 16 R) as Hle. rewrite Hf in Hle. rewrite Hf.
  pose proof (blocks_field 4 16 8 2 ltac:(lia) ltac:(lia) ltac:(done) ltac:(done)) as E2.
  pose proof (blocks_field 4 16 8 3 ltac:(lia) ltac:(lia) ltac:(done) ltac:(done)) as E3.
  rewrite Hf in E2, E3. repeat (apply Forall_cons in Hle as [? Hle]).
  rewrite (field_at 16 _ 2 8 f2) in E2; [|done|repeat constructor; lia|done|lia].
  rewrite (field_at 16 _ 3 8 f3) in E3; [|done|repeat constructor; lia|done|lia].
  assert (N.shiftr (val 16 [f0; f1; f2; f3]) 32 = f2 + 2 ^ 16 * f3) as ->.
  { change 32 with (16 + 16). cbn [val]. rewrite <- N.shiftr_shiftr, !shiftr_digit by lia. lia. }
  assert (N.shiftr (val 16 [f0; f1; f2; f3]) 48 = f3) as ->.
  { change 48 with (16 + 16 + 16). cbn [val]. rewrite <- !N.shiftr_shiftr, !shiftr_digit by lia. lia. }
  change (64 - 32) with 32. rewrite (cnt_split 32 48 64) by lia.
  assert (cnt 32 48 = f2) as -> by exact (eq_sym E2). assert (cnt 48 64 = f3) as -> by exact (eq_sym E3).
  apply select_first; [done|done|].
  destruct Hs as (_ & _ & Hn & _). pose proof (cnt_le (64 - 64) 64). lia.
Qed.

Lemma search_exit n0 W s n : search n0 W s n → sub64 (sub64 65 s) 1 = 64 - s.
Proof.
  intros (_ & Hs & _). rewrite (sub64_small 65) by lia. rewrite sub64_small by lia. lia.
Qed.

Lemma search_end n0 : 1 ≤ n0 ≤ ones R →
  ∃ s, branchless_select v a b c d n0 = 64 - s ∧ search n0 1 s 1.
Proof.
  intros Hs%search_start. unfold branchless_select. cbv zeta.
  apply search_half in Hs. cbv zeta in Hs. revert Hs.
  generalize (select_s 3 (add64 (shr 64 d 32) (shr 64 d 48)) 64 n0).
  generalize (select_n (add64 (shr 64 d 32) (shr 64 d 48)) n0). intros n s Hs.
  apply (search_field n0 4 16 8 4 d s n) in Hs; [|done|lia|done|done|done|done|exact level_d].
  apply (search_field n0 8 8 4 5 c _ _) in Hs; [|done|lia|done|done|done|done|exact level_c].
  apply (search_field n0 16 4 3 6 b _ _) in Hs; [|done|lia|done|done|done|done|exact level_b].
  apply (search_field n0 32 2 2 7 a _ _) in Hs; [|done|lia|done|done|done|done|exact level_a].
  apply (search_field n0 64 1 1 8 v _ _) in Hs; [|done|lia|done|done|done|done|exact level_v].
  cbv zeta in Hs.
  match type of Hs with search _ _ ?s' ?n' => exists s'; assert (n' = 1) as Hn;
    [destruct Hs as (_ & Hs & Hn & _); pose proof (cnt_le (s' - N.of_nat 1) s'); lia|] end.
  rewrite Hn in Hs. split; [|exact Hs].
  exact (search_exit _ _ _ _ Hs).
Qed.
End levels.

Lemma to_bits_of_bits (l : list bool) w : len l = w → to_bits w (of_bits l) = l.
Proof.
  intros <-. unfold to_bits, len. rewrite Nat2N.id. apply list_eq. intros i.
  rewrite list_lookup_fmap. destruct (decide (i < length l)%nat) as [Hi|Hi].
  - rewrite lookup_seq_lt by done. simpl. rewrite testbit_of_bits. unfold lget. rewrite Nat2N.id.
    destruct (lookup_lt_is_Some_2 l i Hi) as [b ->]. done.
  - rewrite lookup_seq_ge by lia. rewrite lookup_ge_None_2 by lia. done.
Qed.

Lemma ones_rev l : ones (rev l) = ones l.
Proof. induction l as [|b l IH]; [done|]. cbn [rev]. rewrite ones_app, IH. cbn [ones]. lia. Qed.

Lemma ldrop_rev {A} k (l : list A) : k ≤ len l → ldrop k (rev l) = rev (ltake (len l - k) l).
Proof.
  unfold ldrop, ltake, len. intros. rewrite skipn_rev. f_equal. f_equal. lia.
Qed.

(** The word-level select finds the [n]-th set bit. *)
Lemma select_u64 (L : list bool) (n : N) : length L = 64%nat → 1 ≤ n ≤ ones L →
  ∃ l1 l2, L = l1 ++ true :: l2 ∧ ones l1 = n - 1 ∧ nth_set_bit_u64 (of_bits L) n = len l1.
Proof.
  intros HL Hn. assert (HR : length (rev L) = 64%nat) by (by rewrite length_rev).
  destruct (search_end (rev L) HR n) as (s & Hsel & _ & Hs & Hone & Hrest); [by rewrite ones_rev|].
  unfold nth_set_bit_u64, reverse_bits. rewrite to_bits_of_bits by (unfold len; by rewrite HL).
  cbv zeta. rewrite Hsel. assert (Hlen : len L = 64) by (unfold len; lia).
  assert (∀ i, i ≤ 64 → cnt (rev L) i 64 = ones (ltake (64 - i) L)) as Hcnt.
  { intros i Hi. unfold cnt. rewrite ldrop_rev, ltake_ge, ones_rev, Hlen; [done|len|len]. }
  pose proof (cnt_split (rev L) HR (s - 1) s 64 ltac:(lia)) as Hsplit. rewrite !Hcnt in * by lia.
  replace (64 - (s - 1)) with (64 - s + 1) in Hsplit by lia.
  destruct (lget_lt L (64 - s) ltac:(lia)) as [x (l1 & l2 & -> & Hl1)%lget_Some].
  exists l1, l2. rewrite <- Hl1 in *. rewrite ltake_app_len in *.
  assert (ltake (len l1 + 1) (l1 ++ x :: l2) = l1 ++ [x]) as Ht.
  { rewrite ltake_app_r by lia. by replace (len l1 + 1 - len l1) with 1 by lia. }
  rewrite Ht, ones_app in Hsplit. cbn [ones] in Hsplit.
  split; [|split; [lia|done]]. f_equal. f_equal. destruct x; [done|]. cbn [N.b2n] in Hsplit. lia.
Qed.

Lemma unpad (l l1 l2 : list bool) k :
  l ++ replicate k false = l1 ++ true :: l2 → ∃ l2', l = l1 ++ true :: l2'.
Proof.
  revert l. induction l1 as [|b l1 IH]; intros [|x l] Heq.
  - destruct k; discriminate Heq.
  - injection Heq as -> _. by exists l.
  - exfalso. assert (true ∈ replicate k false) as Ht%elem_of_replicate; [|by destruct Ht].
    rewrite (Heq : replicate k false = _). apply elem_of_app. right. by left.
  - injection Heq as -> Heq. destruct (IH _ Heq) as [l2' ->]. by exists l2'.
Qed.

Lemma select_u64_short (l : list bool) (n : N) : len l ≤ 64 → 1 ≤ n ≤ ones l →
  ∃ l1 l2, l = l1 ++ true :: l2 ∧ ones l1 = n - 1 ∧ nth_set_bit_u64 (of_bits l) n = len l1.
Proof.
  intros Hl Hn. set (k := (64 - length l)%nat).
  destruct (select_u64 (l ++ replicate k false) n) as (l1 & l2 & [l2' ->]%unpad & Hones & Hsel).
  - rewrite length_app, length_replicate. unfold len in Hl. lia.
  - by rewrite ones_app, ones_replicate, N.add_0_r.
  - exists l1, l2'. split; [done|]. split; [done|]. rewrite <- Hsel.
    by rewrite (of_bits_app _ (replicate k _)), of_bits_replicate, N.mul_0_r, N.add_0_r.
Qed.

(** The word of 128 bits, in halves. *)
Lemma nth_set_bit_spec (l : list bool) (n : N) : len l ≤ 128 → 1 ≤ n ≤ ones l →
  ∃ l1 l2, l = l1 ++ true :: l2 ∧ ones l1 = n - 1 ∧ nth_set_bit (of_bits l) n = len l1.
Proof.
  intros Hl Hn. unfold nth_set_bit. cbv zeta.
  rewrite <- N.land_ones, of_bits_land_ones, shr_small, of_bits_shiftr, count_ones_of_bits by lia.
  pose proof (ltake_ldrop 64 l) as Hlow. pose proof (ones_app (ltake 64 l) (ldrop 64 l)) as Hones.
  rewrite Hlow in Hones. destruct (N.ltb_spec (ones (ltake 64 l)) n) as [Hlt|Hge].
  - destruct (select_u64_short (ldrop 64 l) (n - ones (ltake 64 l))) as (l1 & l2 & Hd & Ho & ->); [len|lia|].
    exists (ltake 64 l ++ l1), l2. rewrite <- (assoc_L (++)), <- Hd, ones_app, len_app, len_ltake.
    split; [done|]. split; [lia|]. assert (len (ldrop 64 l) ≠ 0) by (rewrite Hd; len). len.
  - destruct (select_u64_short (ltake 64 l) n) as (l1 & l2 & Ht & Ho & ->); [len|lia|].
    exists l1, (l2 ++ ldrop 64 l). split; [|done]. by rewrite <- Hlow at 1; rewrite Ht, <- (assoc_L (++)).
Qed.

(** The branchless selection finds the [n]-th set bit of a [u128], for every [n]
    from 1 to the number of set bits: that bit is set, and [n - 1] lower ones are. *)
Theorem select_bit_correct (v n : N) : v < 2 ^ 128 → 1 ≤ n ≤ count_ones v →
  let i := nth_set_bit v n in
  i < 128 ∧ N.testbit v i = true ∧ count_ones (v mod 2 ^ i) = n - 1.
Proof.
  intros Hv Hn.
  assert (∃ l, len l = 128 ∧ v = of_bits l) as (l & Hl & ->).
  { exists (to_bits 128 v). split; [done|]. apply N.bits_inj. intros i. rewrite testbit_of_bits.
    unfold to_bits, lget. rewrite list_lookup_fmap. destruct (decide (i < 128)).
    - rewrite lookup_seq_lt by lia. simpl. by rewrite N2Nat.id.
    - rewrite lookup_seq_ge by lia. simpl. rewrite <- (N.mod_small v (2 ^ 128)) by done.
      apply N.mod_pow2_bits_high. lia. }
  rewrite count_ones_of_bits in Hn.
  destruct (nth_set_bit_spec l n) as (l1 & l2 & -> & Hones & ->); [lia|done|]. cbv zeta.
  rewrite testbit_of_bits, lget_app_r, N.sub_diag by lia.
  rewrite <- N.land_ones, of_bits_land_ones, count_ones_of_bits, ltake_app_len.
  rewrite len_app, len_cons in Hl. split; [lia|]. done.
Qed.

Lemma select_bit_correct_witness :
  let v := 2 ^ 127 + 2 ^ 70 + 6 in let i := nth_set_bit v 4 in
  i = 127 ∧ N.testbit v i = true ∧ count_ones (v mod 2 ^ i) = 3.
Proof.
  destruct (select_bit_correct (2 ^ 127 + 2 ^ 70 + 6) 4) as (_ & H2 & H3); [done|by vm_compute|].
  split; [by vm_compute|]. split; [exact H2|exact H3].
Defined.
