(* ===== verification/Utf8.v ===== *)
(** * Utf8: strings as bytes

    A Rust [str] is a list of bytes ([N] below 256).  This file models what the rope
    uses of it: the test of [crates/util/src/util.rs] for the first byte of a character,
    and from the standard library the encoding of a [char], iteration over [chars],
    character boundaries, [split_at] and slicing (which panic off a boundary: [None]),
    and the rounding of an offset to a boundary.

    [utf8] is the invariant of the type [str]: the bytes encode a sequence of Unicode
    scalar values.  [utf8_split] says that cutting such a string at a character
    boundary yields two. *)

From S2P Require Import Prelude Bits.

Abbreviation str := (list N).

(** ** Characters *)

(** [(b as i8) >= -0x40] of [is_utf8_char_boundary]. *)
Definition as_i8 (b : N) : Z := if b <? 128 then Z.of_N b else (Z.of_N b - 256)%Z.
Definition is_utf8_char_boundary (b : N) : bool := (-0x40 <=? as_i8 b)%Z.

(** A [char] is a Unicode scalar value. *)
Definition is_scalar (c : N) : bool := (c <? 0xD800) || ((0xE000 <=? c) && (c <=? 0x10FFFF)).

Definition len_utf8 (c : N) : N :=
  if c <? 0x80 then 1 else if c <? 0x800 then 2 else if c <? 0x10000 then 3 else 4.
Definition len_utf16 (c : N) : N := if c <? 0x10000 then 1 else 2.

Definition encode (c : N) : str :=
  if c <? 0x80 then [c]
  else if c <? 0x800 then [0xC0 + c / 64; 0x80 + c mod 64]
  else if c <? 0x10000 then [0xE0 + c / 4096; 0x80 + c / 64 mod 64; 0x80 + c mod 64]
  else [0xF0 + c / 262144; 0x80 + c / 4096 mod 64; 0x80 + c / 64 mod 64; 0x80 + c mod 64].

Definition encode_all (cs : list N) : str := cs ≫= encode.

(** [str::chars]. *)
Fixpoint chars (t : str) : list N :=
  match t with
  | [] => []
  | b :: t =>
      if b <? 0x80 then b :: chars t
      else match t with
           | [] => []
           | b1 :: t =>
               if b <? 0xE0 then (b - 0xC0) * 64 + b1 mod 64 :: chars t
               else match t with
                    | [] => []
                    | b2 :: t =>
                        if b <? 0xF0 then (b - 0xE0) * 4096 + b1 mod 64 * 64 + b2 mod 64 :: chars t
                        else match t with
                             | [] => []
                             | b3 :: t =>
                                 (b - 0xF0) * 262144 + b1 mod 64 * 4096 + b2 mod 64 * 64 + b3 mod 64
                                   :: chars t
                             end
                    end
           end
  end.

Definition utf8 (t : str) : Prop := ∃ cs, Forall (λ c, is_scalar c = true) cs ∧ t = encode_all cs.

(** ** Boundaries *)

Definition str_is_char_boundary (t : str) (i : N) : bool :=
  (i =? 0) || match lget t i with Some b => is_utf8_char_boundary b | None => i =? len t end.

Definition str_split_at (t : str) (mid : N) : option (str * str) :=
  if str_is_char_boundary t mid then Some (ltake mid t, ldrop mid t) else None.

(** [&t[a..b]]. *)
Definition str_slice (t : str) (a b : N) : option str :=
  if (a <=? b) && str_is_char_boundary t a && str_is_char_boundary t b
  then Some (ltake (b - a) (ldrop a t)) else None.

(** Looking for a boundary downwards from [n], and upwards from [i]. *)
Fixpoint boundary_below (t : str) (n : nat) : N :=
  if str_is_char_boundary t (N.of_nat n) then N.of_nat n
  else match n with O => 0 | S n => boundary_below t n end.

Fixpoint boundary_above (t : str) (fuel : nat) (i : N) : N :=
  match fuel with
  | O => i
  | S fuel => if str_is_char_boundary t i then i else boundary_above t fuel (i + 1)
  end.

Definition str_floor_char_boundary (t : str) (i : N) : N :=
  if len t <=? i then len t else boundary_below t (N.to_nat i).
Definition str_ceil_char_boundary (t : str) (i : N) : N :=
  if len t <=? i then len t else boundary_above t (N.to_nat (len t - i)) i.

(** ** Facts *)

Definition is_cont (b : N) : Prop := 128 ≤ b < 192.

Lemma boundary_spec b : b < 256 → is_utf8_char_boundary b = bool_decide (b < 128 ∨ 192 ≤ b).
Proof.
  intros Hb. unfold is_utf8_char_boundary, as_i8.
  apply eq_true_iff_eq. rewrite Z.leb_le, bool_decide_eq_true. destruct (N.ltb_spec b 128); lia.
Qed.

Lemma cont_boundary b : is_cont b → is_utf8_char_boundary b = false.
Proof. unfold is_cont. intros. rewrite boundary_spec by lia. apply bool_decide_eq_false_2. lia. Qed.

Lemma scalar_lt c : is_scalar c = true → c < 0x110000.
Proof.
  unfold is_scalar. rewrite orb_true_iff, andb_true_iff, N.ltb_lt, !N.leb_le. lia.
Qed.

(** The first byte of a character and the others. *)
Lemma encode_shape c : c < 0x110000 →
  ∃ b r, encode c = b :: r ∧ b < 256 ∧ is_utf8_char_boundary b = true ∧ Forall is_cont r ∧
    len r = len_utf8 c - 1 ∧ (240 ≤ b ↔ len_utf16 c = 2) ∧ (240 ≤ b → r ≠ []) ∧ (b = 10 ↔ c = 10).
Proof.
  intros Hc. unfold encode, len_utf8, len_utf16.
  assert (Hcont : ∀ x, is_cont (128 + x mod 64)) by (unfold is_cont; dlia).
  destruct (N.ltb_spec c 128); [|destruct (N.ltb_spec c 2048); [|destruct (N.ltb_spec c 65536)]].
  - eexists _, _. split; [done|]. rewrite boundary_spec, (proj2 (N.ltb_lt c 65536)), bool_decide_eq_true by lia.
    split_and!; [lia|lia|done|done|lia|lia|lia].
  - eexists _, _. split; [done|]. rewrite boundary_spec, (proj2 (N.ltb_lt c 65536)), bool_decide_eq_true by dlia.
    split_and!; [dlia|dlia|rewrite !Forall_cons, Forall_nil; auto|done|dlia|done|dlia].
  - eexists _, _. split; [done|]. rewrite boundary_spec, bool_decide_eq_true by dlia.
    split_and!; [dlia|dlia|rewrite !Forall_cons, Forall_nil; auto|done|dlia|done|dlia].
  - eexists _, _. split; [done|]. rewrite boundary_spec, bool_decide_eq_true by dlia.
    split_and!; [dlia|dlia|rewrite !Forall_cons, Forall_nil; auto|done|dlia|done|dlia].
Qed.

Lemma encode_nonempty c : c < 0x110000 → encode c ≠ [].
Proof. intros Hc. by destruct (encode_shape c Hc) as (b & r & -> & _). Qed.

Lemma len_encode c : c < 0x110000 → len (encode c) = len_utf8 c.
Proof.
  intros Hc. destruct (encode_shape c Hc) as (b & r & -> & _ & _ & _ & Hr & _). rewrite len_cons, Hr.
  unfold len_utf8. repeat case_match; lia.
Qed.

Lemma encode_all_cons c cs : encode_all (c :: cs) = encode c ++ encode_all cs.
Proof. done. Qed.

Lemma encode_all_app cs1 cs2 : encode_all (cs1 ++ cs2) = encode_all cs1 ++ encode_all cs2.
Proof. apply bind_app. Qed.

(** Decoding undoes encoding. *)
Lemma chars_encode c t : c < 0x110000 → chars (encode c ++ t) = c :: chars t.
Proof.
  intros Hc. unfold encode.
  destruct (N.ltb_spec c 128); [|destruct (N.ltb_spec c 2048); [|destruct (N.ltb_spec c 65536)]]; cbn [app chars].
  - by rewrite (proj2 (N.ltb_lt c 128)) by done.
  - rewrite (proj2 (N.ltb_ge _ 128)), (proj2 (N.ltb_lt _ 224)) by dlia. f_equal. dlia.
  - rewrite (proj2 (N.ltb_ge _ 128)), (proj2 (N.ltb_ge _ 224)), (proj2 (N.ltb_lt _ 240)) by dlia. f_equal. dlia.
  - rewrite (proj2 (N.ltb_ge _ 128)), (proj2 (N.ltb_ge _ 224)), (proj2 (N.ltb_ge _ 240)) by dlia. f_equal. dlia.
Qed.

Lemma chars_encode_all cs : Forall (λ c, is_scalar c = true) cs → chars (encode_all cs) = cs.
Proof.
  induction 1 as [|c cs Hc%scalar_lt _ IH]; [done|].
  by rewrite encode_all_cons, chars_encode, IH.
Qed.

(** *** Cutting at boundaries *)

Lemma utf8_nil : utf8 [].
Proof. by exists []. Qed.

Lemma utf8_app t1 t2 : utf8 t1 → utf8 t2 → utf8 (t1 ++ t2).
Proof.
  intros (cs1 & H1 & ->) (cs2 & H2 & ->). exists (cs1 ++ cs2). rewrite encode_all_app, Forall_app. done.
Qed.

Lemma utf8_encode c : is_scalar c = true → utf8 (encode c).
Proof. intros Hc. exists [c]. split; [by repeat constructor|]. unfold encode_all. simpl. by rewrite app_nil_r. Qed.

Lemma utf8_ind (P : str → Prop) :
  P [] → (∀ c t, is_scalar c = true → utf8 t → P t → P (encode c ++ t)) → ∀ t, utf8 t → P t.
Proof.
  intros H0 HS t (cs & Hcs & ->). induction Hcs as [|c cs Hc Hcs IH]; [done|].
  rewrite encode_all_cons. apply HS; [done|by exists cs|done].
Qed.

(** Adding characters at the end. *)
Lemma utf8_rev_ind (P : str → Prop) :
  P [] → (∀ c t, is_scalar c = true → utf8 t → P t → P (t ++ encode c)) → ∀ t, utf8 t → P t.
Proof.
  intros H0 HS t (cs & Hcs & ->). induction cs as [|c cs IH] using rev_ind; [done|].
  apply Forall_app in Hcs as [Hcs Hc]. rewrite Forall_singleton in Hc.
  rewrite encode_all_app. unfold encode_all at 2. cbn [mbind list_bind]. rewrite app_nil_r.
  apply HS; [done|by exists cs|by apply IH].
Qed.

Lemma utf8_head b t : utf8 (b :: t) → is_utf8_char_boundary b = true.
Proof.
  intros (cs & Hcs & Heq). destruct Hcs as [|c cs Hc%scalar_lt Hcs]; [done|].
  rewrite encode_all_cons in Heq. destruct (encode_shape c Hc) as (b' & r & Hr & _ & Hb & _).
  rewrite Hr in Heq. injection Heq as -> _. done.
Qed.

Lemma utf8_byte t : utf8 t → Forall (λ b, b < 256) t.
Proof.
  revert t. apply utf8_ind; [done|]. intros c t Hc%scalar_lt _ IH. apply Forall_app. split; [|done].
  destruct (encode_shape c Hc) as (b & r & -> & ? & _ & Hr & _). constructor; [done|].
  eapply Forall_impl; [exact Hr|]. unfold is_cont. lia.
Qed.

(** A string does not end in the first byte of a longer character. *)
Lemma utf8_last t b : utf8 (t ++ [b]) → b < 240.
Proof.
  intros (cs & Hcs & Heq). destruct cs as [|c cs _] using rev_ind; [by destruct t|].
  apply Forall_app in Hcs as [_ Hc]. rewrite Forall_singleton in Hc. apply scalar_lt in Hc.
  rewrite encode_all_app in Heq. unfold encode_all at 2 in Heq. cbn [mbind list_bind] in Heq. rewrite app_nil_r in Heq.
  destruct (encode_shape c Hc) as (b' & r & Hr & _ & _ & Hcont & _ & _ & H240 & _).
  destruct r as [|b'' r _] using rev_ind.
  - rewrite Hr in Heq. apply app_inj_tail in Heq as [_ ->].
    destruct (decide (240 ≤ b')) as [H|]; [by destruct (H240 H)|lia].
  - rewrite Hr in Heq. change (b' :: r ++ [b'']) with ((b' :: r) ++ [b'']) in Heq.
    rewrite (assoc_L (++)) in Heq. apply app_inj_tail in Heq as [_ ->].
    apply Forall_app in Hcont as [_ Hb]. rewrite Forall_singleton in Hb. unfold is_cont in Hb. lia.
Qed.

Lemma boundary_0 t : str_is_char_boundary t 0 = true.
Proof. done. Qed.

Lemma boundary_len t : str_is_char_boundary t (len t) = true.
Proof. unfold str_is_char_boundary. rewrite lget_ge by lia. rewrite N.eqb_refl. apply orb_true_r. Qed.

Lemma boundary_gt t i : len t < i → str_is_char_boundary t i = false.
Proof. intros. unfold str_is_char_boundary. rewrite lget_ge by lia. apply orb_false_iff. rewrite !N.eqb_neq. lia. Qed.

Lemma boundary_le t i : str_is_char_boundary t i = true → i ≤ len t.
Proof. intros Hb. destruct (decide (i ≤ len t)) as [|]; [done|]. by rewrite boundary_gt in Hb by lia. Qed.

(** Inside a string, a boundary is the start of what follows. *)
Lemma boundary_app t1 t2 : utf8 t2 → str_is_char_boundary (t1 ++ t2) (len t1) = true.
Proof.
  intros Ht2. destruct t2 as [|b t2]; [rewrite app_nil_r; apply boundary_len|].
  unfold str_is_char_boundary. rewrite lget_app_r, N.sub_diag by lia. simpl.
  by rewrite (utf8_head _ _ Ht2), orb_true_r.
Qed.

Lemma boundary_app_r t1 t2 i : utf8 t2 →
  str_is_char_boundary (t1 ++ t2) (len t1 + i) = str_is_char_boundary t2 i.
Proof.
  intros Ht2. destruct (decide (i = 0)) as [->|Hi]; [rewrite N.add_0_r; by apply boundary_app|].
  unfold str_is_char_boundary. rewrite lget_app_r by lia. len.
  replace (len t1 + i - len t1) with i by lia.
  rewrite (proj2 (N.eqb_neq i 0)), (proj2 (N.eqb_neq (len t1 + i) 0)) by lia.
  destruct (lget t2 i); [done|]. destruct (N.eqb_spec i (len t2)); [apply N.eqb_eq|apply N.eqb_neq]; lia.
Qed.

Lemma boundary_app_l t1 t2 i : utf8 t2 → i ≤ len t1 →
  str_is_char_boundary (t1 ++ t2) i = str_is_char_boundary t1 i.
Proof.
  intros Ht2 Hi. destruct (decide (i = len t1)) as [->|]; [by rewrite boundary_app, boundary_len|].
  unfold str_is_char_boundary. rewrite lget_app_l by lia. destruct (lget_lt t1 i) as [b ->]; [lia|done].
Qed.

(** Cutting at a boundary leaves two strings. *)
Lemma utf8_split t i : utf8 t → str_is_char_boundary t i = true →
  ∃ t1 t2, t = t1 ++ t2 ∧ len t1 = i ∧ utf8 t1 ∧ utf8 t2.
Proof.
  intros Ht. revert t Ht i. refine (utf8_ind _ _ _).
  - intros i Hi%boundary_le. rewrite len_nil in Hi. exists [], []. split_and!; [done|simpl; unfold len; simpl; lia|apply utf8_nil..].
  - intros c t Hc Ht IH i Hi. destruct (decide (i = 0)) as [->|Hi0].
    { exists [], (encode c ++ t). split_and!; [done|done|apply utf8_nil|]. by apply utf8_app; [apply utf8_encode|]. }
    destruct (encode_shape c (scalar_lt _ Hc)) as (b & r & Hr & _ & _ & Hcont & _).
    destruct (decide (i < len (encode c))) as [Hlt|Hge].
    + exfalso. rewrite boundary_app_l in Hi by (done || lia). rewrite Hr in *. rewrite len_cons in *.
      unfold str_is_char_boundary in Hi. rewrite (proj2 (N.eqb_neq i 0)) in Hi by done. simpl in Hi.
      change (b :: r) with ([b] ++ r) in Hi. rewrite lget_app_r in Hi by (change (len [b]) with 1; lia).
      change (len [b]) with 1 in Hi. destruct (lget_lt r (i - 1)) as [b' Hb']; [lia|]. rewrite Hb' in Hi.
      rewrite cont_boundary in Hi; [done|]. eapply Forall_lookup_1; [exact Hcont|exact Hb'].
    + replace i with (len (encode c) + (i - len (encode c))) in Hi by lia.
      rewrite boundary_app_r in Hi by done. destruct (IH _ Hi) as (t1 & t2 & -> & Hl & H1 & H2).
      exists (encode c ++ t1), t2. split_and!; [by rewrite (assoc_L (++))|len| |done].
      by apply utf8_app; [apply utf8_encode|].
Qed.

Lemma utf8_ltake t i : utf8 t → str_is_char_boundary t i = true → utf8 (ltake i t).
Proof. intros Ht Hi. destruct (utf8_split t i Ht Hi) as (t1 & t2 & -> & <- & ? & _). by rewrite ltake_app_len. Qed.

Lemma utf8_ldrop t i : utf8 t → str_is_char_boundary t i = true → utf8 (ldrop i t).
Proof. intros Ht Hi. destruct (utf8_split t i Ht Hi) as (t1 & t2 & -> & <- & _ & ?). by rewrite ldrop_app_len. Qed.

(** The rest of a string after a prefix that is one is a string as well. *)
Lemma utf8_app_inv t1 t2 : utf8 t1 → utf8 (t1 ++ t2) → utf8 t2.
Proof.
  intros Ht1 Ht. revert t1 Ht1 t2 Ht. refine (utf8_ind _ _ _); [done|].
  intros c t1 Hc _ IH t2. rewrite <- (assoc_L (++)). intros (cs & Hcs & Heq). apply IH.
  destruct Hcs as [|c' cs Hc' Hcs].
  { destruct (encode_shape c (scalar_lt _ Hc)) as (b & r & Hr & _). by rewrite Hr in Heq. }
  exists cs. split; [done|]. rewrite encode_all_cons in Heq.
  assert (c = c') as <-.
  { apply (f_equal chars) in Heq. rewrite !chars_encode in Heq by by apply scalar_lt. by injection Heq. }
  by apply app_inv_head in Heq.
Qed.

(** *** Rounding to a boundary *)

Lemma boundary_below_spec t n :
  let j := boundary_below t n in
  j ≤ N.of_nat n ∧ str_is_char_boundary t j = true ∧
  ∀ k, j < k ≤ N.of_nat n → str_is_char_boundary t k = false.
Proof.
  cbv zeta. induction n as [|n IH]; cbn [boundary_below].
  - split_and!; [done|done|lia].
  - destruct (str_is_char_boundary t (N.of_nat (S n))) eqn:E; [split_and!; [lia|done|lia]|].
    destruct IH as (H1 & H2 & H3). split_and!; [lia|done|]. intros k Hk.
    destruct (decide (k = N.of_nat (S n))) as [->|]; [done|]. apply H3. lia.
Qed.

Lemma boundary_above_spec t fuel i : len t ≤ i + N.of_nat fuel → i ≤ len t →
  let j := boundary_above t fuel i in
  i ≤ j ≤ len t ∧ str_is_char_boundary t j = true ∧
  ∀ k, i ≤ k < j → str_is_char_boundary t k = false.
Proof.
  cbv zeta. revert i. induction fuel as [|fuel IH]; intros i Hf Hi; cbn [boundary_above].
  - replace i with (len t) by lia. split_and!; [lia|lia|apply boundary_len|lia].
  - destruct (str_is_char_boundary t i) eqn:E; [split_and!; [lia|lia|done|lia]|].
    assert (i ≠ len t) by (intros ->; by rewrite boundary_len in E).
    destruct (IH (i + 1)) as ([H1 H1'] & H2 & H3); [lia|lia|]. split_and!; [lia|lia|done|]. intros k Hk.
    destruct (decide (k = i)) as [->|]; [done|]. apply H3. lia.
Qed.

Lemma floor_spec t i :
  let j := str_floor_char_boundary t i in
  j ≤ i ∧ str_is_char_boundary t j = true ∧ ∀ k, j < k ≤ i → str_is_char_boundary t k = false.
Proof.
  cbv zeta. unfold str_floor_char_boundary. destruct (N.leb_spec (len t) i).
  - split_and!; [done|apply boundary_len|]. intros k Hk. apply boundary_gt. lia.
  - destruct (boundary_below_spec t (N.to_nat i)) as (H1 & H2 & H3). rewrite N2Nat.id in *. done.
Qed.

Lemma ceil_spec t i :
  let j := str_ceil_char_boundary t i in
  j ≤ len t ∧ str_is_char_boundary t j = true ∧
  (i ≤ len t → i ≤ j) ∧ ∀ k, i ≤ k < j → str_is_char_boundary t k = false.
Proof.
  cbv zeta. unfold str_ceil_char_boundary. destruct (N.leb_spec (len t) i).
  - split_and!; [done|apply boundary_len|done|lia].
  - destruct (boundary_above_spec t (N.to_nat (len t - i)) i) as (H1 & H2 & H3); [lia|lia|].
    split_and!; [lia|done|lia|done].
Qed.

Lemma floor_unique t i j :
  j ≤ i → str_is_char_boundary t j = true → (∀ k, j < k ≤ i → str_is_char_boundary t k = false) →
  str_floor_char_boundary t i = j.
Proof.
  intros Hj Hb Hk. destruct (floor_spec t i) as (H1 & H2 & H3).
  destruct (decide (str_floor_char_boundary t i < j)); [by rewrite (H3 j) in Hb by lia|].
  destruct (decide (j < str_floor_char_boundary t i)); [|lia]. by rewrite Hk in H2 by lia.
Qed.

Lemma ceil_unique t i j :
  i ≤ j → str_is_char_boundary t j = true → (∀ k, i ≤ k < j → str_is_char_boundary t k = false) →
  str_ceil_char_boundary t i = j.
Proof.
  intros Hj Hb Hk. destruct (ceil_spec t i) as (H1 & H2 & H3 & H4).
  pose proof (boundary_le _ _ Hb). specialize (H3 ltac:(lia)).
  destruct (decide (str_ceil_char_boundary t i < j)); [by rewrite Hk in H2 by lia|].
  destruct (decide (j < str_ceil_char_boundary t i)); [|lia]. by rewrite (H4 j) in Hb by lia.
Qed.

Lemma len_utf8_le c : 1 ≤ len_utf8 c ≤ 4.
Proof. unfold len_utf8. repeat case_match; lia. Qed.

(** Among four consecutive offsets there is a boundary. *)
Lemma boundary_near t i : utf8 t → i ≤ len t →
  ∃ j, i ≤ j ≤ i + 3 ∧ str_is_char_boundary t j = true.
Proof.
  intros Ht. revert t Ht i. refine (utf8_ind _ _ _).
  - intros i. rewrite len_nil. exists 0. split; [lia|done].
  - intros c t Hc Ht IH i. rewrite len_app. intros Hi.
    pose proof (len_encode c (scalar_lt _ Hc)) as Hl. pose proof (len_utf8_le c).
    destruct (decide (i = 0)) as [->|]; [by exists 0; split; [lia|]|].
    destruct (decide (i < len (encode c))).
    + exists (len (encode c)). split; [lia|]. by apply boundary_app.
    + destruct (IH (i - len (encode c))) as (j & Hj & Hb); [lia|].
      exists (len (encode c) + j). split; [lia|]. by rewrite boundary_app_r.
Qed.

Lemma ceil_near t i : utf8 t → i ≤ len t → str_ceil_char_boundary t i ≤ i + 3.
Proof.
  intros Ht Hi. destruct (boundary_near t i Ht Hi) as (j & Hj & Hb).
  destruct (ceil_spec t i) as (_ & _ & _ & Hk).
  destruct (decide (j < str_ceil_char_boundary t i)); [|lia]. by rewrite Hk in Hb by lia.
Qed.

Lemma floor_near t i : utf8 t → i ≤ len t → i ≤ str_floor_char_boundary t i + 3.
Proof.
  intros Ht Hi. destruct (decide (i ≤ 3)); [lia|].
  destruct (boundary_near t (i - 3) Ht ltac:(lia)) as (j & Hj & Hb).
  destruct (floor_spec t i) as (_ & _ & Hk).
  destruct (decide (str_floor_char_boundary t i < j)); [|lia]. by rewrite Hk in Hb by lia.
Qed.
