(* ===== verification/TextSummary.v ===== *)
(** * TextSummary: points and summaries of text

    Models [crates/rope/src/point.rs], [point_utf16.rs], [offset_utf16.rs],
    [unclipped.rs] and the [TextSummary] of [crates/rope/src/rope.rs].  Rows, columns and the
    counts of characters of a line are [u32] in the code.  [point_add], [point_utf16_add], [parse_str], [ts_add] and
    [ts_from_str], on which the sum trees are built, compute with unbounded numbers, for only these satisfy the laws of
    a monoid whatever the text;
    [point_add_u32], [point_utf16_add_u32], [parse_str_u32], [ts_add_u32] and [ts_from_str_u32] are the same with every
    [u32] wrapped around at every step, as in the release profile.  For a text of fewer than 2^32 bytes
    the two agree, which the last section proves: the theorems on ropes have that
    bound.  Subtraction wraps around.

    [summary_of] is the specification of a summary, read off the lines of the text;
    [summary_of_app] says that [+=] of summaries is concatenation of texts, so the
    summaries of texts satisfy the laws that a [SumTree] asks for. *)

From S2P Require Import Prelude Bits Utf8 SumTree.

(** ** Points and offsets *)

Record Point := point { row : N; column : N }.
Record PointUtf16 := point_utf16 { row16 : N; column16 : N }.
Record OffsetUtf16 := offset_utf16 { units : N }.

(** [Unclipped<T>] only marks a value. *)
Record Unclipped (T : Type) := unclipped { unclip : T }.
Arguments unclipped {T} _.
Arguments unclip {T} _.

#[export] Instance point_eq_dec : EqDecision Point.
Proof. solve_decision. Defined.
#[export] Instance point_utf16_eq_dec : EqDecision PointUtf16.
Proof. solve_decision. Defined.
#[export] Instance offset_utf16_eq_dec : EqDecision OffsetUtf16.
Proof. solve_decision. Defined.

Definition point_zero : Point := point 0 0.
Definition point_is_zero (p : Point) : bool := (row p =? 0) && (column p =? 0).
Definition point_add (p other : Point) : Point :=
  if row other =? 0 then point (row p) (column p + column other)
  else point (row p + row other) (column other).
(** Addition of [u32]. *)
Definition add32 (a b : N) : N := (a + b) mod 2 ^ 32.
Definition point_add_u32 (p other : Point) : Point :=
  if row other =? 0 then point (row p) (add32 (column p) (column other))
  else point (add32 (row p) (row other)) (column other).
Definition point_sub (p other : Point) : Point :=
  if row p =? row other then point 0 (wrapping_sub 32 (column p) (column other))
  else point (wrapping_sub 32 (row p) (row other)) (column p).

(** [(row << 32) | column] on a 64-bit [usize]. *)
#[export] Instance ord_point : Ord Point := λ p q,
  N.compare (N.lor (shl 64 (row p) 32) (column p)) (N.lor (shl 64 (row q) 32) (column q)).

Definition point_saturating_sub (p other : Point) : Point :=
  if ltb_ord p other then point_zero else point_sub p other.

Definition point_utf16_zero : PointUtf16 := point_utf16 0 0.
Definition point_utf16_is_zero (p : PointUtf16) : bool := (row16 p =? 0) && (column16 p =? 0).
Definition point_utf16_add (p other : PointUtf16) : PointUtf16 :=
  if row16 other =? 0 then point_utf16 (row16 p) (column16 p + column16 other)
  else point_utf16 (row16 p + row16 other) (column16 other).
Definition point_utf16_add_u32 (p other : PointUtf16) : PointUtf16 :=
  if row16 other =? 0 then point_utf16 (row16 p) (add32 (column16 p) (column16 other))
  else point_utf16 (add32 (row16 p) (row16 other)) (column16 other).
Definition point_utf16_sub (p other : PointUtf16) : PointUtf16 :=
  if row16 p =? row16 other then point_utf16 0 (wrapping_sub 32 (column16 p) (column16 other))
  else point_utf16 (wrapping_sub 32 (row16 p) (row16 other)) (column16 p).

#[export] Instance ord_point_utf16 : Ord PointUtf16 := λ p q,
  N.compare (N.lor (shl 64 (row16 p) 32) (column16 p)) (N.lor (shl 64 (row16 q) 32) (column16 q)).

Definition point_utf16_saturating_sub (p other : PointUtf16) : PointUtf16 :=
  if ltb_ord p other then point_utf16_zero else point_utf16_sub p other.

Definition offset_utf16_add (a b : OffsetUtf16) : OffsetUtf16 := offset_utf16 (units a + units b).
Definition offset_utf16_sub (a b : OffsetUtf16) : OffsetUtf16 :=
  offset_utf16 (wrapping_sub 64 (units a) (units b)).
#[export] Instance ord_offset_utf16 : Ord OffsetUtf16 := λ a b, N.compare (units a) (units b).

(** ** Lines *)

Definition newline : N := 10.
Definition is_newline (b : N) : bool := b =? newline.

(** [text.split('\n')]. *)
Fixpoint split_lines (t : str) : list str :=
  match t with
  | [] => [[]]
  | b :: t =>
      if is_newline b then [] :: split_lines t
      else match split_lines t with [] => [[b]] | l :: ls => (b :: l) :: ls end
  end.

(** [Point::parse_str]: the loop over the enumerated lines. *)
Fixpoint parse_lines (i : N) (p : Point) (ls : list str) : Point :=
  match ls with [] => p | l :: ls => parse_lines (i + 1) (point i (len l)) ls end.
Definition parse_str (s : str) : Point := parse_lines 0 point_zero (split_lines s).

(** With [row as u32] and [line.len() as u32]. *)
Fixpoint parse_lines_u32 (i : N) (p : Point) (ls : list str) : Point :=
  match ls with [] => p | l :: ls => parse_lines_u32 (i + 1) (point (i mod 2 ^ 32) (len l mod 2 ^ 32)) ls end.
Definition parse_str_u32 (s : str) : Point := parse_lines_u32 0 point_zero (split_lines s).

(** ** Summaries *)

Record TextSummary := text_summary {
  ts_len : N;
  ts_chars : N;
  ts_len_utf16 : OffsetUtf16;
  ts_lines : Point;
  first_line_chars : N;
  last_line_chars : N;
  last_line_len_utf16 : N;
  longest_row : N;
  longest_row_chars : N
}.

#[export] Instance text_summary_eq_dec : EqDecision TextSummary.
Proof. solve_decision. Defined.

(** [Default], the [zero] of the summary. *)
Definition ts_zero : TextSummary := text_summary 0 0 (offset_utf16 0) point_zero 0 0 0 0 0.

Definition lines_utf16 (s : TextSummary) : PointUtf16 :=
  point_utf16 (row (ts_lines s)) (last_line_len_utf16 s).

Definition ts_newline : TextSummary := text_summary 1 1 (offset_utf16 1) (point 1 0) 0 0 0 0 0.

Definition add_newline (s : TextSummary) : TextSummary :=
  text_summary (ts_len s + 1) (ts_chars s)
    (offset_utf16_add (ts_len_utf16 s) (offset_utf16 (units (ts_len_utf16 s) + 1)))
    (point_add (ts_lines s) (point 1 0)) (first_line_chars s) 0 0 (longest_row s) (longest_row_chars s).

(** [*self += other]. *)
Definition ts_add (s other : TextSummary) : TextSummary :=
  let joined_chars := last_line_chars s + first_line_chars other in
  let '(longest, longest_chars) :=
    if longest_row_chars s <? joined_chars then (row (ts_lines s), joined_chars)
    else (longest_row s, longest_row_chars s) in
  let '(longest, longest_chars) :=
    if longest_chars <? longest_row_chars other
    then (row (ts_lines s) + longest_row other, longest_row_chars other)
    else (longest, longest_chars) in
  text_summary (ts_len s + ts_len other) (ts_chars s + ts_chars other)
    (offset_utf16_add (ts_len_utf16 s) (ts_len_utf16 other))
    (point_add (ts_lines s) (ts_lines other))
    (if row (ts_lines s) =? 0 then first_line_chars s + first_line_chars other else first_line_chars s)
    (if row (ts_lines other) =? 0 then last_line_chars s + first_line_chars other else last_line_chars other)
    (if row (ts_lines other) =? 0 then last_line_len_utf16 s + last_line_len_utf16 other
     else last_line_len_utf16 other)
    longest longest_chars.

(** The same on [u32]; the lengths of the text and the number of its characters are [usize]. *)
Definition ts_add_u32 (s other : TextSummary) : TextSummary :=
  let joined_chars := add32 (last_line_chars s) (first_line_chars other) in
  let '(longest, longest_chars) :=
    if longest_row_chars s <? joined_chars then (row (ts_lines s), joined_chars)
    else (longest_row s, longest_row_chars s) in
  let '(longest, longest_chars) :=
    if longest_chars <? longest_row_chars other
    then (add32 (row (ts_lines s)) (longest_row other), longest_row_chars other)
    else (longest, longest_chars) in
  text_summary (ts_len s + ts_len other) (ts_chars s + ts_chars other)
    (offset_utf16_add (ts_len_utf16 s) (ts_len_utf16 other))
    (point_add_u32 (ts_lines s) (ts_lines other))
    (if row (ts_lines s) =? 0 then add32 (first_line_chars s) (first_line_chars other) else first_line_chars s)
    (if row (ts_lines other) =? 0 then add32 (last_line_chars s) (first_line_chars other) else last_line_chars other)
    (if row (ts_lines other) =? 0 then add32 (last_line_len_utf16 s) (last_line_len_utf16 other)
     else last_line_len_utf16 other)
    longest longest_chars.

(** One round of the loop of [From<&str>]; [ts_len] is set at the end. *)
Definition from_str_step (s : TextSummary) (c : N) : TextSummary :=
  let chars := ts_chars s + 1 in
  let len_utf16 := offset_utf16 (units (ts_len_utf16 s) + len_utf16 c) in
  let '(lines, last_len_utf16, last_chars) :=
    if c =? newline then (point_add (ts_lines s) (point 1 0), 0, 0)
    else (point (row (ts_lines s)) (column (ts_lines s) + len_utf8 c),
          last_line_len_utf16 s + Utf8.len_utf16 c, last_line_chars s + 1) in
  let first_chars := if row lines =? 0 then last_chars else first_line_chars s in
  let '(longest, longest_chars) :=
    if longest_row_chars s <? last_chars then (row lines, last_chars)
    else (longest_row s, longest_row_chars s) in
  text_summary (ts_len s) chars len_utf16 lines first_chars last_chars last_len_utf16 longest longest_chars.

(** [TextSummary::from]. *)
Definition ts_from_str (t : str) : TextSummary :=
  let s := foldl from_str_step ts_zero (chars t) in
  text_summary (len t) (ts_chars s) (ts_len_utf16 s) (ts_lines s) (first_line_chars s)
    (last_line_chars s) (last_line_len_utf16 s) (longest_row s) (longest_row_chars s).

Definition from_str_step_u32 (s : TextSummary) (c : N) : TextSummary :=
  let chars := ts_chars s + 1 in
  let len_utf16 := offset_utf16 (units (ts_len_utf16 s) + len_utf16 c) in
  let '(lines, last_len_utf16, last_chars) :=
    if c =? newline then (point_add_u32 (ts_lines s) (point 1 0), 0, 0)
    else (point (row (ts_lines s)) (add32 (column (ts_lines s)) (len_utf8 c)),
          add32 (last_line_len_utf16 s) (Utf8.len_utf16 c), add32 (last_line_chars s) 1) in
  let first_chars := if row lines =? 0 then last_chars else first_line_chars s in
  let '(longest, longest_chars) :=
    if longest_row_chars s <? last_chars then (row lines, last_chars)
    else (longest_row s, longest_row_chars s) in
  text_summary (ts_len s) chars len_utf16 lines first_chars last_chars last_len_utf16 longest longest_chars.

Definition ts_from_str_u32 (t : str) : TextSummary :=
  let s := foldl from_str_step_u32 ts_zero (chars t) in
  text_summary (len t) (ts_chars s) (ts_len_utf16 s) (ts_lines s) (first_line_chars s)
    (last_line_chars s) (last_line_len_utf16 s) (longest_row s) (longest_row_chars s).

(** ** What a text measures *)

Definition num_chars (t : str) : N := ones (is_utf8_char_boundary <$> t).
Definition rows (t : str) : N := ones (is_newline <$> t).

(** One flag for each UTF-16 unit: at the first byte of a character, and at the byte
    after the first byte of a character of two units. *)
Fixpoint utf16_flags (pending : bool) (t : str) : list bool :=
  match t with
  | [] => []
  | b :: t => (is_utf8_char_boundary b || pending) :: utf16_flags (240 <=? b) t
  end.
Definition utf16_len (t : str) : N := ones (utf16_flags false t).

Fixpoint first_line (t : str) : str :=
  match t with [] => [] | b :: t => if is_newline b then [] else b :: first_line t end.
Definition last_step (acc : str) (b : N) : str := if is_newline b then [] else acc ++ [b].
Definition last_line (t : str) : str := foldl last_step [] t.

Definition point_of (t : str) : Point := point (rows t) (len (last_line t)).
Definition point_utf16_of (t : str) : PointUtf16 := point_utf16 (rows t) (utf16_len (last_line t)).

(** The first of the longest rows, as a fold over the lengths of the rows from [k] on. *)
Definition bump (best : N * N) (k n : N) : N * N := if best.2 <? n then (k, n) else best.
Fixpoint longest_from (k : N) (best : N * N) (ns : list N) : N * N :=
  match ns with [] => best | n :: ns => longest_from (k + 1) (bump best k n) ns end.
Definition longest (t : str) : N * N := longest_from 0 (0, 0) (num_chars <$> split_lines t).

Definition summary_of (t : str) : TextSummary :=
  text_summary (len t) (num_chars t) (offset_utf16 (utf16_len t)) (point_of t)
    (num_chars (first_line t)) (num_chars (last_line t)) (utf16_len (last_line t))
    (longest t).1 (longest t).2.

(** *** Concatenation *)

Lemma num_chars_app a b : num_chars (a ++ b) = num_chars a + num_chars b.
Proof. unfold num_chars. by rewrite fmap_app, ones_app. Qed.

Lemma rows_app a b : rows (a ++ b) = rows a + rows b.
Proof. unfold rows. by rewrite fmap_app, ones_app. Qed.

Lemma rows_cons b t : rows (b :: t) = (if is_newline b then 1 else 0) + rows t.
Proof. done. Qed.

Lemma last_fold_0 acc t : rows t = 0 → foldl last_step acc t = acc ++ t.
Proof.
  revert acc. induction t as [|b t IH]; intros acc Hr; [by rewrite app_nil_r|].
  rewrite rows_cons in Hr. cbn [foldl]. unfold last_step at 2. destruct (is_newline b); [lia|].
  rewrite IH by lia. by rewrite <- (assoc_L (++)).
Qed.

Lemma last_fold_pos acc acc' t : rows t ≠ 0 → foldl last_step acc t = foldl last_step acc' t.
Proof.
  revert acc acc'. induction t as [|b t IH]; intros acc acc' Hr; [done|].
  rewrite rows_cons in Hr. cbn [foldl]. unfold last_step at 2 4. destruct (is_newline b); [done|].
  apply IH. lia.
Qed.

Lemma last_line_app a b :
  last_line (a ++ b) = if rows b =? 0 then last_line a ++ b else last_line b.
Proof.
  unfold last_line. rewrite foldl_app. destruct (N.eqb_spec (rows b) 0).
  - by apply last_fold_0.
  - by apply last_fold_pos.
Qed.

Lemma last_line_0 t : rows t = 0 → last_line t = t.
Proof. apply last_fold_0. Qed.

Lemma rows_last_line t : rows (last_line t) = 0.
Proof.
  induction t as [|b t IH] using rev_ind; [done|]. unfold last_line. rewrite foldl_snoc. fold (last_line t).
  unfold last_step. destruct (is_newline b) eqn:E; [done|]. rewrite rows_app, IH, rows_cons, E. done.
Qed.

Lemma first_line_0 t : rows t = 0 → first_line t = t.
Proof.
  induction t as [|b t IH]; [done|]. rewrite rows_cons. cbn [first_line]. destruct (is_newline b); [lia|].
  intros. by rewrite IH by lia.
Qed.

Lemma first_line_app a b :
  first_line (a ++ b) = if rows a =? 0 then a ++ first_line b else first_line a.
Proof.
  induction a as [|x a IH]; [done|]. cbn [first_line app]. rewrite rows_cons. destruct (is_newline x) eqn:E.
  - by rewrite (proj2 (N.eqb_neq _ 0)) by lia.
  - rewrite IH, N.add_0_l. by destruct (rows a =? 0).
Qed.

Lemma rows_first_line t : rows (first_line t) = 0.
Proof.
  induction t as [|b t IH]; [done|]. cbn [first_line]. destruct (is_newline b) eqn:E; [done|].
  by rewrite rows_cons, E, IH.
Qed.

Lemma utf16_flags_app p a b :
  utf16_flags p (a ++ b) =
  utf16_flags p a ++ utf16_flags (match last a with Some x => 240 <=? x | None => p end) b.
Proof.
  revert p. induction a as [|x a IH]; intros p; [done|]. cbn [app utf16_flags]. rewrite IH.
  f_equal. f_equal. destruct a as [|y a]; [done|]. rewrite last_cons_cons.
  destruct (last (y :: a)) eqn:E; [done|]. by apply last_None in E.
Qed.

Lemma utf16_flags_utf8_app a b : utf8 a →
  utf16_flags false (a ++ b) = utf16_flags false a ++ utf16_flags false b.
Proof.
  intros Ha. rewrite utf16_flags_app. do 2 f_equal. destruct (last a) as [x|] eqn:E; [|done].
  apply last_Some in E as [l ->]. apply N.leb_gt. eauto using utf8_last.
Qed.

Lemma len_utf16_flags p t : len (utf16_flags p t) = len t.
Proof. revert p. induction t as [|b t IH]; intros p; [done|]. cbn [utf16_flags]. by rewrite !len_cons, IH. Qed.

Lemma utf16_len_app a b : utf8 a → utf16_len (a ++ b) = utf16_len a + utf16_len b.
Proof. intros. unfold utf16_len. by rewrite utf16_flags_utf8_app, ones_app. Qed.

(** *** Characters *)

Lemma conts_measure r : Forall is_cont r → num_chars r = 0 ∧ rows r = 0 ∧ ones (utf16_flags false r) = 0.
Proof.
  induction 1 as [|b r Hb _ (IH1 & IH2 & IH3)]; [done|].
  unfold num_chars, rows in *. cbn [fmap list_fmap ones utf16_flags].
  rewrite cont_boundary by done. unfold is_cont in Hb.
  assert (is_newline b = false) as -> by (apply N.eqb_neq; unfold newline; lia).
  rewrite (proj2 (N.leb_gt 240 b)) by lia. cbn. done.
Qed.

(** What one character measures. *)
Lemma encode_measure c : is_scalar c = true →
  num_chars (encode c) = 1 ∧ utf16_len (encode c) = len_utf16 c ∧
  rows (encode c) = if c =? newline then 1 else 0.
Proof.
  intros Hc%scalar_lt. destruct (encode_shape c Hc) as (b & r & Hr & Hb & Hbd & Hcont & _ & H16 & Hne & Hnl).
  destruct (conts_measure r Hcont) as (H1 & H2 & H3). rewrite Hr.
  unfold num_chars, rows, utf16_len in *. cbn [fmap list_fmap ones utf16_flags]. rewrite Hbd.
  change (list_fmap _ _ ?f r) with (f <$> r). rewrite H1, H2. split_and!; [done| |].
  - destruct (N.leb_spec 240 b) as [H|H].
    + rewrite (proj1 H16) by done. specialize (Hne H). destruct r as [|b' r]; [done|].
      cbn [utf16_flags] in *. revert H3. rewrite orb_true_r. rewrite orb_false_r.
      apply Forall_cons in Hcont as [Hb' _]. rewrite cont_boundary by done. cbn. lia.
    + rewrite H3. unfold len_utf16 in *. destruct (c <? 65536); [done|]. lia.
  - unfold is_newline, newline. destruct (N.eqb_spec b 10), (N.eqb_spec c 10); naive_solver.
Qed.

Lemma newline_encode : encode newline = [newline].
Proof. done. Qed.

Lemma last_line_encode t c : is_scalar c = true →
  last_line (t ++ encode c) = if c =? newline then [] else last_line t ++ encode c.
Proof.
  intros Hc. rewrite last_line_app. destruct (encode_measure c Hc) as (_ & _ & ->).
  destruct (N.eqb_spec c newline) as [->|]; done.
Qed.

Lemma utf8_last_line t : utf8 t → utf8 (last_line t).
Proof.
  revert t. apply utf8_rev_ind; [apply utf8_nil|]. intros c t Hc _ IH. rewrite last_line_encode by done.
  destruct (c =? newline); [apply utf8_nil|]. by apply utf8_app; [|apply utf8_encode].
Qed.

Lemma utf8_first_line t : utf8 t → utf8 (first_line t).
Proof.
  revert t. apply utf8_ind; [apply utf8_nil|]. intros c t Hc _ IH. rewrite first_line_app.
  destruct (encode_measure c Hc) as (_ & _ & ->). destruct (N.eqb_spec c newline) as [->|].
  - apply utf8_nil.
  - by apply utf8_app; [apply utf8_encode|].
Qed.

Lemma point_of_app a b : point_of (a ++ b) = point_add (point_of a) (point_of b).
Proof.
  unfold point_of, point_add. cbn [row column]. rewrite rows_app, last_line_app.
  destruct (N.eqb_spec (rows b) 0) as [Hb|]; [|done].
  rewrite (last_line_0 b), len_app by done. f_equal. lia.
Qed.

Lemma point_utf16_of_app a b : utf8 a →
  point_utf16_of (a ++ b) = point_utf16_add (point_utf16_of a) (point_utf16_of b).
Proof.
  intros Ha. unfold point_utf16_of, point_utf16_add. cbn [row16 column16]. rewrite rows_app, last_line_app.
  destruct (N.eqb_spec (rows b) 0) as [Hb|]; [|done].
  rewrite (last_line_0 b), utf16_len_app by auto using utf8_last_line. f_equal. lia.
Qed.

(** *** The longest row *)

Lemma split_lines_shape t : ∃ init tl,
  split_lines t = init ++ [last_line t] ∧ len init = rows t ∧ split_lines t = first_line t :: tl.
Proof.
  induction t as [|b t (init & tl & Hi & Hl & Ht)]; [by exists [], []|].
  rewrite rows_cons. cbn [split_lines first_line]. change (b :: t) with ([b] ++ t).
  rewrite last_line_app. destruct (is_newline b) eqn:E.
  - exists ([] :: init), (split_lines t). split_and!; [|rewrite len_cons; lia|done].
    rewrite Hi at 1. cbn [app]. do 3 f_equal. unfold last_line. cbn [foldl]. unfold last_step at 2. rewrite E.
    destruct (N.eqb_spec (rows t) 0); [by rewrite last_fold_0|done].
  - assert (last_line [b] = [b]) as Hb by (apply last_line_0; rewrite rows_cons, E; done).
    rewrite Ht. destruct (N.eqb_spec (rows t) 0) as [Hr|Hr].
    + exists [], []. destruct init; [|rewrite len_cons in Hl; lia]. rewrite Hb.
      rewrite Ht in Hi. injection Hi as Hf ->. rewrite Hr, Hf, (last_line_0 t) by done. done.
    + destruct init as [|i init]; [rewrite len_nil in Hl; lia|]. rewrite Ht in Hi. injection Hi as Hf ->.
      exists ((b :: first_line t) :: init), (init ++ [last_line t]). split_and!; [done| |done].
      rewrite len_cons in *. lia.
Qed.

Lemma split_lines_app a b : ∃ init tl, len init = rows a ∧
  split_lines a = init ++ [last_line a] ∧ split_lines b = first_line b :: tl ∧
  split_lines (a ++ b) = init ++ (last_line a ++ first_line b) :: tl.
Proof.
  destruct (split_lines_shape b) as (_ & tl & _ & _ & Hb).
  induction a as [|x a (init & tl' & Hl & Ha & Hb' & Hab)]; [by exists [], tl|].
  rewrite Hb in Hb'. injection Hb' as <-.
  destruct (split_lines_shape (x :: a)) as (init' & _ & Ha' & Hl' & _).
  exists init', tl. split_and!; [done|done|done|]. revert Ha'. cbn [app split_lines].
  destruct (is_newline x) eqn:E.
  - rewrite Ha, Hab. intros Ha'. change ([] :: ?i ++ [?l]) with (([] :: i) ++ [l]) in Ha'.
    apply app_inj_tail in Ha' as [<- ->]. done.
  - destruct init as [|i init].
    + cbn [app] in Ha, Hab. rewrite Ha, Hab. intros Ha'. change [?l] with ([] ++ [l]) in Ha' at 1.
      apply app_inj_tail in Ha' as [<- <-]. done.
    + cbn [app] in Ha, Hab. rewrite Ha, Hab. intros Ha'.
      change (?y :: init ++ [?l]) with ((y :: init) ++ [l]) in Ha'.
      apply app_inj_tail in Ha' as [<- ->]. done.
Qed.

Lemma longest_from_app k best l1 l2 :
  longest_from k best (l1 ++ l2) = longest_from (k + len l1) (longest_from k best l1) l2.
Proof.
  revert k best. induction l1 as [|n l1 IH]; intros k best; cbn [app longest_from].
  - by rewrite len_nil, N.add_0_r.
  - rewrite IH, len_cons. f_equal. lia.
Qed.

Lemma longest_from_ge k best l : best.2 ≤ (longest_from k best l).2.
Proof.
  revert k best. induction l as [|n l IH]; intros k best; cbn [longest_from]; [done|].
  etrans; [|apply IH]. unfold bump. destruct (N.ltb_spec best.2 n); simpl; lia.
Qed.

Lemma longest_from_same k best l : (longest_from k best l).2 ≤ best.2 → longest_from k best l = best.
Proof.
  revert k best. induction l as [|n l IH]; intros k best; cbn [longest_from]; [done|].
  pose proof (longest_from_ge (k + 1) (bump best k n) l) as Hge. unfold bump in *.
  destruct (N.ltb_spec best.2 n); [cbn [snd] in Hge; lia|apply IH].
Qed.

(** Starting from a better row elsewhere. *)
Lemma longest_from_shift k j cur best l : best.2 ≤ cur.2 →
  longest_from (k + j) cur l =
  let o := longest_from j best l in if cur.2 <? o.2 then (k + o.1, o.2) else cur.
Proof.
  cbv zeta. revert j cur best. induction l as [|n l IH]; intros j cur best Hle; cbn [longest_from].
  - by rewrite (proj2 (N.ltb_ge _ _)) by done.
  - rewrite <- N.add_assoc. unfold bump. destruct (N.ltb_spec cur.2 n) as [Hn|Hn].
    + rewrite (proj2 (N.ltb_lt best.2 n)) by lia.
      rewrite (IH _ (k + j, n) (j, n)) by done. cbn [fst snd].
      pose proof (longest_from_ge (j + 1) (j, n) l) as Hge. cbn [snd] in Hge.
      rewrite (proj2 (N.ltb_lt cur.2 _)) by lia. destruct (N.ltb_spec n (longest_from (j + 1) (j, n) l).2); [done|].
      by rewrite longest_from_same.
    + apply IH. by destruct (best.2 <? n).
Qed.

(** ** Summaries add up *)

Lemma num_chars_last_le t : num_chars (last_line t) ≤ (longest t).2.
Proof.
  unfold longest. destruct (split_lines_shape t) as (init & _ & -> & _).
  rewrite fmap_app, longest_from_app. cbn [fmap list_fmap longest_from]. unfold bump.
  destruct (N.ltb_spec (longest_from 0 (0, 0) (num_chars <$> init)).2 (num_chars (last_line t))); done.
Qed.

Lemma longest_app a b :
  longest (a ++ b) =
  let joined := bump (longest a) (rows a) (num_chars (last_line a) + num_chars (first_line b)) in
  let o := longest b in if joined.2 <? o.2 then (rows a + o.1, o.2) else joined.
Proof.
  unfold longest. destruct (split_lines_app a b) as (init & tl & Hl & -> & -> & ->).
  rewrite !fmap_app, !longest_from_app, !len_fmap, Hl, N.add_0_l. cbn [fmap list_fmap longest_from].
  change (list_fmap _ _ ?f ?l) with (f <$> l). rewrite num_chars_app.
  set (m := longest_from 0 (0, 0) _). set (x := num_chars (last_line a)). set (y := num_chars (first_line b)).
  assert (bump (bump m (rows a) x) (rows a) (x + y) = bump m (rows a) (x + y)) as ->.
  { unfold bump. destruct (N.ltb_spec m.2 x); cbn [fst snd]; [|done].
    rewrite (proj2 (N.ltb_lt m.2 (x + y))) by lia. destruct (N.ltb_spec x (x + y)); [done|].
    by replace (x + y) with x by lia. }
  apply longest_from_shift. unfold bump. cbn [fst snd]. destruct (N.ltb_spec 0 y), (N.ltb_spec m.2 (x + y)); simpl; lia.
Qed.

Lemma num_chars_first_app a b : num_chars (first_line (a ++ b)) =
  if rows a =? 0 then num_chars (first_line a) + num_chars (first_line b) else num_chars (first_line a).
Proof.
  rewrite first_line_app. destruct (N.eqb_spec (rows a) 0); [|done].
  by rewrite num_chars_app, (first_line_0 a).
Qed.

Lemma num_chars_last_app a b : num_chars (last_line (a ++ b)) =
  if rows b =? 0 then num_chars (last_line a) + num_chars (first_line b) else num_chars (last_line b).
Proof.
  rewrite last_line_app. destruct (N.eqb_spec (rows b) 0); [|done].
  by rewrite num_chars_app, (first_line_0 b).
Qed.

Lemma utf16_len_last_app a b : utf8 a → utf16_len (last_line (a ++ b)) =
  if rows b =? 0 then utf16_len (last_line a) + utf16_len (last_line b) else utf16_len (last_line b).
Proof.
  intros Ha. rewrite last_line_app. destruct (N.eqb_spec (rows b) 0); [|done].
  by rewrite utf16_len_app, (last_line_0 b) by auto using utf8_last_line.
Qed.

Lemma summary_of_app a b : utf8 a → summary_of (a ++ b) = ts_add (summary_of a) (summary_of b).
Proof.
  intros Ha. unfold summary_of at 1. rewrite longest_app. unfold ts_add, bump. cbn -[N.ltb longest].
  rewrite len_app, num_chars_app, utf16_len_app, point_of_app by done.
  rewrite num_chars_first_app, num_chars_last_app, utf16_len_last_app by done.
  destruct (_ <? num_chars (last_line a) + _); cbn [fst snd];
    match goal with |- context [?x <? (longest b).2] => destruct (x <? (longest b).2) end; done.
Qed.

Lemma split_lines_0 t : rows t = 0 → split_lines t = [t].
Proof.
  intros Hr. destruct (split_lines_shape t) as (init & _ & -> & Hl & _). rewrite Hr in Hl.
  apply len_0 in Hl as ->. by rewrite last_line_0.
Qed.

Lemma summary_of_encode c : is_scalar c = true → summary_of (encode c) =
  if c =? newline then ts_newline
  else text_summary (len_utf8 c) 1 (offset_utf16 (len_utf16 c)) (point 0 (len_utf8 c)) 1 1 (len_utf16 c) 0 1.
Proof.
  intros Hc. destruct (encode_measure c Hc) as (H1 & H2 & H3).
  destruct (N.eqb_spec c newline) as [->|]; [done|].
  unfold summary_of, point_of, longest. rewrite H3, split_lines_0, first_line_0, last_line_0 by done.
  cbn [fmap list_fmap longest_from]. rewrite H1, H2, len_encode by by apply scalar_lt. done.
Qed.

(** In the first row, the first line is the last one. *)
Lemma first_last_0 t : rows t = 0 → first_line t = last_line t.
Proof. intros. by rewrite first_line_0, last_line_0. Qed.

Definition set_len (s : TextSummary) (n : N) : TextSummary :=
  text_summary n (ts_chars s) (ts_len_utf16 s) (ts_lines s) (first_line_chars s)
    (last_line_chars s) (last_line_len_utf16 s) (longest_row s) (longest_row_chars s).

(** A round of the loop of [TextSummary::from] adds the summary of one character. *)
Lemma from_str_step_add t c : is_scalar c = true → utf8 t →
  summary_of (t ++ encode c) = set_len (from_str_step (summary_of t) c) (len t + len_utf8 c).
Proof.
  intros Hc Ht. rewrite summary_of_app, summary_of_encode by done.
  pose proof (num_chars_last_le t) as Hle. pose proof (first_last_0 t) as Hfl.
  unfold set_len, ts_add, from_str_step, point_add. destruct (N.eqb_spec c newline) as [->|Hnl]; cbn -[N.ltb longest].
  - rewrite !N.add_0_r. rewrite (proj2 (N.ltb_ge _ (num_chars (last_line t)))) by done.
    rewrite (proj2 (N.ltb_ge _ 0)) by lia. cbn [fst snd].
    rewrite (proj2 (N.eqb_neq (rows t + 1) 0)) by lia.
    cbn. by destruct (rows t =? 0).
  - rewrite N.add_0_r.
    destruct (N.ltb_spec (longest t).2 (num_chars (last_line t) + 1)); cbn -[N.ltb longest];
      rewrite (proj2 (N.ltb_ge _ 1)) by lia; cbn -[longest];
      (destruct (N.eqb_spec (rows t) 0); [by rewrite Hfl|done]).
Qed.

Lemma from_str_step_set_len s n c : from_str_step (set_len s n) c = set_len (from_str_step s c) n.
Proof.
  unfold from_str_step, set_len; cbn -[N.ltb]. destruct (c =? newline); cbn -[N.ltb]; by destruct (_ <? _).
Qed.

Lemma set_len_set_len s m n : set_len (set_len s m) n = set_len s n.
Proof. done. Qed.

(** The loop of [TextSummary::from] computes the summary of a text. *)
Lemma ts_from_str_spec t : utf8 t → ts_from_str t = summary_of t.
Proof.
  intros (cs & Hcs & ->). unfold ts_from_str. rewrite chars_encode_all by done.
  fold (set_len (foldl from_str_step ts_zero cs) (len (encode_all cs))).
  induction cs as [|c cs IH] using rev_ind; [done|].
  apply Forall_app in Hcs as [Hcs Hc]. rewrite Forall_singleton in Hc. specialize (IH Hcs).
  rewrite foldl_snoc, encode_all_app. unfold encode_all at 2 4. cbn [mbind list_bind]. rewrite app_nil_r.
  rewrite from_str_step_add, <- IH, from_str_step_set_len, set_len_set_len by (done || by exists cs).
  by rewrite len_app, len_encode by by apply scalar_lt.
Qed.

(** [Point::parse_str] is the point at the end of a text. *)
Lemma parse_lines_snoc i p ls l : parse_lines i p (ls ++ [l]) = point (i + len ls) (len l).
Proof.
  revert i p. induction ls as [|l' ls IH]; intros i p; cbn [app parse_lines].
  - by rewrite len_nil, N.add_0_r.
  - rewrite IH, len_cons. f_equal. lia.
Qed.

Lemma parse_str_spec t : parse_str t = point_of t.
Proof.
  unfold parse_str, point_of. destruct (split_lines_shape t) as (init & _ & -> & <- & _).
  by rewrite parse_lines_snoc.
Qed.

(** ** The summary of a chunk, and dimensions *)

Record ChunkSummary := chunk_summary { cs_text : TextSummary }.

#[export] Instance summary_chunk_summary : Summary ChunkSummary :=
  {| summary_zero := chunk_summary ts_zero;
     add_summary a b := chunk_summary (ts_add (cs_text a) (cs_text b)) |}.
#[export] Instance summary_text_summary : Summary TextSummary :=
  {| summary_zero := ts_zero; add_summary := ts_add |}.

#[export] Instance dim_text_summary : Dimension TextSummary ChunkSummary :=
  {| dim_zero := ts_zero; dim_add d s := ts_add d (cs_text s) |}.
#[export] Instance dim_usize : Dimension N ChunkSummary :=
  {| dim_zero := 0; dim_add d s := d + ts_len (cs_text s) |}.
#[export] Instance dim_offset_utf16 : Dimension OffsetUtf16 ChunkSummary :=
  {| dim_zero := offset_utf16 0; dim_add d s := offset_utf16_add d (ts_len_utf16 (cs_text s)) |}.
#[export] Instance dim_point : Dimension Point ChunkSummary :=
  {| dim_zero := point_zero; dim_add d s := point_add d (ts_lines (cs_text s)) |}.
#[export] Instance dim_point_utf16 : Dimension PointUtf16 ChunkSummary :=
  {| dim_zero := point_utf16_zero; dim_add d s := point_utf16_add d (lines_utf16 (cs_text s)) |}.

(** The laws hold for summaries of texts. *)
Definition text_valid (s : ChunkSummary) : Prop := ∃ t, utf8 t ∧ s = chunk_summary (summary_of t).

Lemma add_summary_of a b : utf8 a →
  add_summary (chunk_summary (summary_of a)) (chunk_summary (summary_of b)) = chunk_summary (summary_of (a ++ b)).
Proof. intros. cbn. by rewrite summary_of_app. Qed.

#[export] Program Instance summary_laws_chunk : SummaryLaws ChunkSummary := {| valid := text_valid |}.
Next Obligation. exists []. by split; [apply utf8_nil|]. Qed.
Next Obligation.
  intros ?? (a & Ha & ->) (b & Hb & ->). exists (a ++ b). split; [by apply utf8_app|by apply add_summary_of].
Qed.
Next Obligation.
  intros ? (a & Ha & ->). change summary_zero with (chunk_summary (summary_of [])).
  by rewrite add_summary_of by apply utf8_nil.
Qed.
Next Obligation.
  intros ??? (a & Ha & ->) (b & Hb & ->) (c & Hc & ->).
  by rewrite !add_summary_of, (assoc_L (++)) by auto using utf8_app.
Qed.

Lemma point_add_assoc p q r : point_add p (point_add q r) = point_add (point_add p q) r.
Proof.
  unfold point_add. destruct p as [pr pc], q as [qr qc], r as [rr rc]; cbn [row column].
  destruct (N.eqb_spec rr 0) as [->|]; cbn [row column].
  - destruct (N.eqb_spec qr 0) as [->|]; cbn [row column]; f_equal; lia.
  - rewrite (proj2 (N.eqb_neq (qr + rr) 0)) by lia. destruct (N.eqb_spec qr 0); cbn [row column]; f_equal; lia.
Qed.

Lemma point_utf16_add_assoc p q r : point_utf16_add p (point_utf16_add q r) = point_utf16_add (point_utf16_add p q) r.
Proof.
  unfold point_utf16_add. destruct p as [pr pc], q as [qr qc], r as [rr rc]; cbn [row16 column16].
  destruct (N.eqb_spec rr 0) as [->|]; cbn [row16 column16].
  - destruct (N.eqb_spec qr 0) as [->|]; cbn [row16 column16]; f_equal; lia.
  - rewrite (proj2 (N.eqb_neq (qr + rr) 0)) by lia. destruct (N.eqb_spec qr 0); cbn [row16 column16]; f_equal; lia.
Qed.

Lemma lines_add a b : ts_lines (ts_add a b) = point_add (ts_lines a) (ts_lines b).
Proof. unfold ts_add. by repeat case_match. Qed.
Lemma lines_utf16_add a b : lines_utf16 (ts_add a b) = point_utf16_add (lines_utf16 a) (lines_utf16 b).
Proof.
  unfold lines_utf16, point_utf16_add. rewrite lines_add. cbn [row16 column16]. unfold point_add.
  unfold ts_add. destruct (_ <? _); cbn -[N.ltb]; destruct (_ <? _); cbn; destruct (row (ts_lines b) =? 0) eqn:E; cbn; try done;
    apply N.eqb_eq in E; f_equal; lia.
Qed.
Lemma ts_len_add a b : ts_len (ts_add a b) = ts_len a + ts_len b.
Proof. unfold ts_add. by repeat case_match. Qed.
Lemma ts_len_utf16_add a b : ts_len_utf16 (ts_add a b) = offset_utf16_add (ts_len_utf16 a) (ts_len_utf16 b).
Proof. unfold ts_add. by repeat case_match. Qed.

#[export] Program Instance dim_laws_usize : DimensionLaws N ChunkSummary := {| dvalid _ := True |}.
Next Obligation. done. Qed.
Next Obligation. done. Qed.
Next Obligation. intros d [a] [b] _ _ _. cbn -[ts_add]. rewrite ts_len_add. lia. Qed.

#[export] Program Instance dim_laws_offset_utf16 : DimensionLaws OffsetUtf16 ChunkSummary := {| dvalid _ := True |}.
Next Obligation. done. Qed.
Next Obligation. done. Qed.
Next Obligation.
  intros [d] [a] [b] _ _ _. cbn -[ts_add]. rewrite ts_len_utf16_add. unfold offset_utf16_add; cbn. f_equal. lia.
Qed.

#[export] Program Instance dim_laws_point : DimensionLaws Point ChunkSummary := {| dvalid _ := True |}.
Next Obligation. done. Qed.
Next Obligation. done. Qed.
Next Obligation. intros d [a] [b] _ _ _. cbn -[ts_add]. by rewrite lines_add, point_add_assoc. Qed.

#[export] Program Instance dim_laws_point_utf16 : DimensionLaws PointUtf16 ChunkSummary := {| dvalid _ := True |}.
Next Obligation. done. Qed.
Next Obligation. done. Qed.
Next Obligation. intros d [a] [b] _ _ _. cbn -[ts_add]. by rewrite lines_utf16_add, point_utf16_add_assoc. Qed.

#[export] Program Instance dim_laws_text_summary : DimensionLaws TextSummary ChunkSummary :=
  {| dvalid s := ∃ t, utf8 t ∧ s = summary_of t |}.
Next Obligation. exists []. by split; [apply utf8_nil|]. Qed.
Next Obligation.
  intros ?? (a & Ha & ->) (b & Hb & ->). exists (a ++ b). cbn -[ts_add]. by rewrite summary_of_app; [split; [apply utf8_app|]|].
Qed.
Next Obligation.
  intros ??? (a & Ha & ->) (b & Hb & ->) (c & Hc & ->). cbn -[ts_add].
  by rewrite <- !summary_of_app, (assoc_L (++)) by auto using utf8_app.
Qed.

(** ** The order of points *)

Definition point_u32 (p : Point) : Prop := row p < 2 ^ 32 ∧ column p < 2 ^ 32.
Definition point_utf16_u32 (p : PointUtf16) : Prop := row16 p < 2 ^ 32 ∧ column16 p < 2 ^ 32.

Lemma packed_point r c : r < 2 ^ 32 → c < 2 ^ 32 → N.lor (shl 64 r 32) c = r * 2 ^ 32 + c.
Proof.
  intros Hr Hc. rewrite shl_small; [|done|rewrite N.shiftl_mul_pow2; lia].
  assert (N.land (N.shiftl r 32) c = 0) as Hl.
  { apply N.bits_inj. intros i. rewrite N.land_spec, N.bits_0. destruct (decide (i < 32)).
    - by rewrite N.shiftl_spec_low.
    - rewrite <- (N.mod_small c (2 ^ 32)), N.mod_pow2_bits_high by lia. apply andb_false_r. }
  rewrite <- N.lxor_lor, <- N.add_nocarry_lxor, N.shiftl_mul_pow2 by done. done.
Qed.

Lemma packed_compare r c r' c' : r < 2 ^ 32 → c < 2 ^ 32 → r' < 2 ^ 32 → c' < 2 ^ 32 →
  N.compare (N.lor (shl 64 r 32) c) (N.lor (shl 64 r' 32) c') = cmp (r, c) (r', c').
Proof.
  intros. rewrite !packed_point by done. rewrite cmp_pair. unfold cmp, ord_N, then_with.
  destruct (N.compare_spec r r') as [->| |].
  - destruct (N.compare_spec c c') as [->| |]; [apply N.compare_refl|apply N.compare_lt_iff|apply N.compare_gt_iff]; lia.
  - apply N.compare_lt_iff. lia.
  - apply N.compare_gt_iff. lia.
Qed.

Lemma cmp_point p q : point_u32 p → point_u32 q → cmp p q = cmp (row p, column p) (row q, column q).
Proof. intros [??] [??]. by apply packed_compare. Qed.

Lemma cmp_point_utf16 p q : point_utf16_u32 p → point_utf16_u32 q →
  cmp p q = cmp (row16 p, column16 p) (row16 q, column16 q).
Proof. intros [??] [??]. by apply packed_compare. Qed.

(** ** Fields fit their machine integers *)

Lemma num_chars_le t : num_chars t ≤ len t.
Proof. unfold num_chars. rewrite <- (len_fmap is_utf8_char_boundary t). apply ones_le. Qed.
Lemma rows_le t : rows t ≤ len t.
Proof. unfold rows. rewrite <- (len_fmap is_newline t). apply ones_le. Qed.
Lemma utf16_len_le t : utf16_len t ≤ len t.
Proof. unfold utf16_len. rewrite <- (len_utf16_flags false t). apply ones_le. Qed.
Lemma len_last_line_le t : len (last_line t) ≤ len t.
Proof.
  induction t as [|b t IH] using rev_ind; [done|]. unfold last_line. rewrite foldl_snoc. fold (last_line t).
  unfold last_step. rewrite len_app. destruct (is_newline b); [rewrite len_nil; lia|]. rewrite len_app. lia.
Qed.
Lemma len_first_line_le t : len (first_line t) ≤ len t.
Proof.
  induction t as [|b t IH]; [done|]. cbn [first_line]. rewrite len_cons.
  destruct (is_newline b); [rewrite len_nil; lia|]. rewrite len_cons. lia.
Qed.

Lemma longest_le t : (longest t).1 ≤ rows t ∧ (longest t).2 ≤ len t.
Proof.
  induction t as [|b t IH] using rev_ind; [done|].
  rewrite longest_app, rows_app, len_app. cbv zeta. change (len [b]) with 1.
  assert (num_chars (last_line t) + num_chars (first_line [b]) ≤ len t + 1).
  { pose proof (num_chars_le (last_line t)). pose proof (len_last_line_le t).
    pose proof (num_chars_le (first_line [b])). pose proof (len_first_line_le [b]).
    change (len [b]) with 1 in *. lia. }
  assert ((longest [b]).1 = 0 ∨ rows [b] = 1 ∧ (longest [b]).1 ≤ 1) as Hb1.
  { unfold longest. cbn [split_lines]. rewrite rows_cons. destruct (is_newline b); cbn; [auto|].
    left. unfold bump. by destruct (_ <? _). }
  assert ((longest [b]).2 ≤ 1) as Hb2.
  { unfold longest. cbn [split_lines]. destruct (is_newline b); cbn; [done|].
    unfold bump. cbn. unfold num_chars. cbn. destruct (is_utf8_char_boundary b); done. }
  unfold bump. destruct (_ <? num_chars _ + _); cbn [fst snd]; destruct (_ <? _); cbn [fst snd]; lia.
Qed.

Lemma point_of_u32 t : len t < 2 ^ 32 → point_u32 (point_of t).
Proof. intros. pose proof (rows_le t). pose proof (len_last_line_le t). split; cbn; lia. Qed.

Lemma point_utf16_of_u32 t : len t < 2 ^ 32 → point_utf16_u32 (point_utf16_of t).
Proof.
  intros. pose proof (rows_le t). pose proof (len_last_line_le t). pose proof (utf16_len_le (last_line t)).
  split; cbn; lia.
Qed.

(** ** No overflow below 2^32 bytes *)

Lemma add32_small a b : a + b < 2 ^ 32 → add32 a b = a + b.
Proof. apply N.mod_small. Qed.

(** Sums of points whose components do not overflow. *)
Lemma point_add_u32_small p q : point_u32 (point_add p q) → point_add_u32 p q = point_add p q.
Proof. unfold point_add, point_add_u32. destruct (row q =? 0); intros [??]; cbn in *; by rewrite add32_small. Qed.

Lemma point_utf16_add_u32_small p q : point_utf16_u32 (point_utf16_add p q) → point_utf16_add_u32 p q = point_utf16_add p q.
Proof. unfold point_utf16_add, point_utf16_add_u32. destruct (row16 q =? 0); intros [??]; cbn in *; by rewrite add32_small. Qed.

Lemma point_of_add_u32 a b : len (a ++ b) < 2 ^ 32 → point_add_u32 (point_of a) (point_of b) = point_of (a ++ b).
Proof. intros H. rewrite point_of_app. apply point_add_u32_small. rewrite <- point_of_app. by apply point_of_u32. Qed.

Lemma point_utf16_of_add_u32 a b : utf8 a → len (a ++ b) < 2 ^ 32 →
  point_utf16_add_u32 (point_utf16_of a) (point_utf16_of b) = point_utf16_of (a ++ b).
Proof.
  intros Ha H. rewrite point_utf16_of_app by done. apply point_utf16_add_u32_small. rewrite <- point_utf16_of_app by done.
  by apply point_utf16_of_u32.
Qed.

Lemma parse_lines_u32_small i p ls : i + len ls ≤ 2 ^ 32 → Forall (λ l : str, len l < 2 ^ 32) ls →
  parse_lines_u32 i p ls = parse_lines i p ls.
Proof.
  intros Hi Hls. revert i p Hi. induction Hls as [|l ls Hl _ IH]; intros i p Hi; [done|]. rewrite len_cons in Hi.
  cbn [parse_lines parse_lines_u32]. rewrite !N.mod_small by lia. apply IH. lia.
Qed.

Lemma split_lines_len t : len (split_lines t) = rows t + 1 ∧ Forall (λ l, len l ≤ len t) (split_lines t).
Proof.
  split.
  - destruct (split_lines_shape t) as (init & _ & -> & <- & _). by rewrite len_app.
  - induction t as [|b t IH]; [by repeat constructor|]. cbn [split_lines].
    assert (Forall (λ l : str, len l ≤ len (b :: t)) (split_lines t)) as IH'.
    { eapply Forall_impl; [exact IH|]. intros l. cbn beta. rewrite len_cons. lia. }
    destruct (is_newline b); [by constructor; [len|]|]. destruct (split_lines t) as [|l ls]; [by repeat constructor; len|].
    apply Forall_cons in IH as [Hl _]. apply Forall_cons in IH' as [_ Hls]. constructor; [rewrite !len_cons; lia|done].
Qed.

Lemma parse_str_u32_spec t : len t < 2 ^ 32 → parse_str_u32 t = parse_str t.
Proof.
  intros H. destruct (split_lines_len t) as [H1 H2]. pose proof (rows_le t). apply parse_lines_u32_small; [lia|].
  eapply Forall_impl; [exact H2|]. intros l. cbn beta. lia.
Qed.

(** Every sum of a field in [+=] is at most the length of the two texts. *)
Lemma summary_of_add_u32 a b : utf8 a → len (a ++ b) < 2 ^ 32 →
  ts_add_u32 (summary_of a) (summary_of b) = summary_of (a ++ b).
Proof.
  intros Ha H. rewrite summary_of_app by done. unfold ts_add_u32, ts_add. cbn -[N.ltb longest add32 point_add_u32 point_add].
  rewrite point_of_add_u32, <- point_of_app by done. rewrite len_app in H.
  pose proof (rows_le a). pose proof (proj1 (longest_le b)). pose proof (rows_le b).
  pose proof (num_chars_le (last_line a)). pose proof (len_last_line_le a). pose proof (num_chars_le (first_line a)).
  pose proof (len_first_line_le a). pose proof (num_chars_le (first_line b)). pose proof (len_first_line_le b).
  pose proof (utf16_len_le (last_line a)). pose proof (utf16_len_le (last_line b)). pose proof (len_last_line_le b).
  by rewrite !add32_small by lia.
Qed.

Lemma from_str_step_u32_small s c : row (ts_lines s) + 1 < 2 ^ 32 → column (ts_lines s) + len_utf8 c < 2 ^ 32 →
  last_line_len_utf16 s + len_utf16 c < 2 ^ 32 → last_line_chars s + 1 < 2 ^ 32 → from_str_step_u32 s c = from_str_step s c.
Proof.
  intros H1 H2 H3 H4. unfold from_str_step_u32, from_str_step. rewrite !add32_small by done.
  by replace (point_add_u32 (ts_lines s) (point 1 0)) with (point_add (ts_lines s) (point 1 0))
    by (unfold point_add_u32, point_add; cbn [row column N.eqb]; by rewrite add32_small).
Qed.

Lemma ts_from_str_u32_spec t : utf8 t → len t < 2 ^ 32 → ts_from_str_u32 t = summary_of t.
Proof.
  intros (cs & Hcs & ->) Hlen. rewrite <- ts_from_str_spec by by exists cs. unfold ts_from_str_u32, ts_from_str.
  rewrite chars_encode_all by done. enough (foldl from_str_step_u32 ts_zero cs = foldl from_str_step ts_zero cs) as -> by done.
  induction cs as [|c cs IH] using rev_ind; [done|]. apply Forall_app in Hcs as [Hcs Hc]. rewrite Forall_singleton in Hc.
  rewrite encode_all_app, len_app in Hlen. unfold encode_all at 2 in Hlen. cbn [mbind list_bind] in Hlen.
  rewrite app_nil_r, len_encode in Hlen by by apply scalar_lt.
  rewrite !foldl_snoc, IH by (done || lia). pose proof (ts_from_str_spec (encode_all cs) ltac:(by exists cs)) as E.
  unfold ts_from_str in E. rewrite chars_encode_all in E by done. set (s := foldl from_str_step ts_zero cs) in *.
  unfold summary_of in E. injection E as _ _ E1 _ E2 E3 _ _. set (t := encode_all cs) in *.
  pose proof (rows_le t). pose proof (len_last_line_le t). pose proof (num_chars_le (last_line t)). pose proof (utf16_len_le (last_line t)).
  assert (1 ≤ len_utf8 c ∧ len_utf16 c ≤ len_utf8 c) as [??].
  { unfold len_utf8, len_utf16. repeat case_match; rewrite ?N.ltb_lt, ?N.ltb_ge in *; lia. }
  apply from_str_step_u32_small; rewrite ?E1, ?E2, ?E3; cbn [point_of row column]; lia.
Qed.
