(* ===== verification/Chunk.v ===== *)
(** * Chunk: the leaves of a rope

    Models [crates/rope/src/chunk.rs] for its [Bitmap] of 128 bits (the 16-bit one is
    for tests).  A chunk is a string of at most 128 bytes with four bitmaps: where
    characters start, the UTF-16 units, newlines and tabs.  Arithmetic on [u32] and
    [usize] wraps as in the release profile; [None] is a panic (an [ArrayString] that
    overflows, a string cut off a character boundary).  Messages to the log and
    [debug_panic!] are left out.  Grapheme clusters come from a third-party crate:
    [clip_point] takes their boundaries as a parameter. *)

From S2P Require Import Prelude Bits SelectBit Utf8 SumTree TextSummary.

Definition BITS : N := 128.
Definition MAX_BASE : N := BITS.
Definition MIN_BASE : N := MAX_BASE / 2.

Definition as_u32 (x : N) : N := x mod 2 ^ 32.
Definition usub (a b : N) : N := wrapping_sub 64 a b.
Definition usub32 (a b : N) : N := wrapping_sub 32 a b.

(** [ArrayString<MAX_BASE>]. *)
Definition array_string (t : str) : option str := if len t <=? MAX_BASE then Some t else None.

Record Chunk := mk_chunk {
  chunk_chars : N;
  chunk_chars_utf16 : N;
  chunk_newlines : N;
  chunk_tabs : N;
  chunk_text : str
}.

Record ChunkSlice := mk_slice {
  slice_chars : N;
  slice_chars_utf16 : N;
  slice_newlines : N;
  slice_tabs : N;
  slice_text : str
}.

Definition saturating_shl_mask (offset : N) : N := wrapping_sub BITS (unbounded_shl BITS 1 offset) 1.
Definition saturating_shr_mask (offset : N) : N := bit_not BITS (unbounded_shr BITS (word_max BITS) offset).

(** ** Construction *)

(** [for (ix, &b) in chunk.iter().enumerate()], for one of the four bytes. *)
Fixpoint group_byte (f : N → bool) (ix acc : N) (group : str) : N :=
  match group with
  | [] => acc
  | b :: group => group_byte f (ix + 1) (N.lor acc (shl 8 (N.b2n (f b)) ix)) group
  end.

(** [while !bytes.is_empty()]: groups of [CHUNK_SIZE = 8] bytes. *)
Fixpoint byte_groups (fuel : nat) (bytes : str) : list str :=
  match fuel, bytes with
  | S fuel, _ :: _ =>
      ltake (N.min (len bytes) 8) bytes :: byte_groups fuel (ldrop (N.min (len bytes) 8) bytes)
  | _, _ => []
  end.

Fixpoint from_le_bytes (bytes : list N) : N :=
  match bytes with [] => 0 | b :: bytes => b + 2 ^ 8 * from_le_bytes bytes end.

Definition bitmap (f : N → bool) (t : str) : N :=
  from_le_bytes (group_byte f 0 0 <$> byte_groups (length t) t).

Definition chunk_new (text : str) : option Chunk :=
  text ← array_string text;
  let chars := bitmap is_utf8_char_boundary text in
  Some (mk_chunk chars (N.lor (shl BITS (bitmap (λ b, 240 <=? b) text) 1) chars)
          (bitmap is_newline text) (bitmap (λ b, b =? 9) text) text).

(** [Default]. *)
Definition chunk_default : Chunk := mk_chunk 0 0 0 0 [].

Definition as_slice (c : Chunk) : ChunkSlice :=
  mk_slice (chunk_chars c) (chunk_chars_utf16 c) (chunk_newlines c) (chunk_tabs c) (chunk_text c).

(** [Into<Chunk>]. *)
Definition slice_into (s : ChunkSlice) : option Chunk :=
  text ← array_string (slice_text s);
  Some (mk_chunk (slice_chars s) (slice_chars_utf16 s) (slice_newlines s) (slice_tabs s) text).

Definition slice_is_empty (s : ChunkSlice) : bool := match slice_text s with [] => true | _ => false end.

Definition chunk_append (c : Chunk) (s : ChunkSlice) : option Chunk :=
  if slice_is_empty s then Some c
  else
    let base_ix := len (chunk_text c) in
    text ← array_string (chunk_text c ++ slice_text s);
    Some (mk_chunk (N.lor (chunk_chars c) (shl BITS (slice_chars s) base_ix))
            (N.lor (chunk_chars_utf16 c) (shl BITS (slice_chars_utf16 s) base_ix))
            (N.lor (chunk_newlines c) (shl BITS (slice_newlines s) base_ix))
            (N.lor (chunk_tabs c) (shl BITS (slice_tabs s) base_ix)) text).

Definition chunk_prepend (c : Chunk) (s : ChunkSlice) : option Chunk :=
  if slice_is_empty s then Some c
  else match chunk_text c with
       | [] => chunk_new (slice_text s)
       | _ =>
           let shift := len (slice_text s) in
           text ← array_string (slice_text s ++ chunk_text c);
           Some (mk_chunk (N.lor (slice_chars s) (shl BITS (chunk_chars c) shift))
                   (N.lor (slice_chars_utf16 s) (shl BITS (chunk_chars_utf16 c) shift))
                   (N.lor (slice_newlines s) (shl BITS (chunk_newlines c) shift))
                   (N.lor (slice_tabs s) (shl BITS (chunk_tabs c) shift)) text)
       end.

Definition chunk_push_str (c : Chunk) (text : str) : option Chunk :=
  d ← chunk_new text; chunk_append c (as_slice d).
Definition chunk_prepend_str (c : Chunk) (text : str) : option Chunk :=
  d ← chunk_new text; chunk_prepend c (as_slice d).

(** ** Boundaries and slices *)

(** [is_char_boundary] of chunks and of slices. *)
Definition bitmap_is_char_boundary (chars : N) (text : str) (offset : N) : bool :=
  negb (N.land (unbounded_shl BITS 1 (as_u32 offset)) chars =? 0) || (offset =? len text).
Definition chunk_is_char_boundary (c : Chunk) : N → bool :=
  bitmap_is_char_boundary (chunk_chars c) (chunk_text c).
Definition slice_is_char_boundary (s : ChunkSlice) : N → bool :=
  bitmap_is_char_boundary (slice_chars s) (slice_text s).

(** The loop of [Chunk::floor_char_boundary]. *)
Fixpoint chunk_floor_loop (text : str) (i : nat) : N :=
  match i with
  | O => 0
  | S j => match text !! i with
           | Some b => if is_utf8_char_boundary b then N.of_nat i else chunk_floor_loop text j
           | None => chunk_floor_loop text j (* not reached *)
           end
  end.
Definition chunk_floor_char_boundary (c : Chunk) (index : N) : N :=
  if len (chunk_text c) <=? index then len (chunk_text c)
  else chunk_floor_loop (chunk_text c) (N.to_nat index).

Definition slice_floor_char_boundary (s : ChunkSlice) (index : N) : N :=
  str_floor_char_boundary (slice_text s) index.

Definition slice_empty : ChunkSlice := mk_slice 0 0 0 0 [].

Definition slice_split_at (s : ChunkSlice) (mid : N) : option (ChunkSlice * ChunkSlice) :=
  if mid =? MAX_BASE then Some (s, slice_empty)
  else
    let mask := wrapping_sub BITS (shl BITS 1 mid) 1 in
    '(left_text, right_text) ← str_split_at (slice_text s) mid;
    Some (mk_slice (N.land (slice_chars s) mask) (N.land (slice_chars_utf16 s) mask)
            (N.land (slice_newlines s) mask) (N.land (slice_tabs s) mask) left_text,
          mk_slice (shr BITS (slice_chars s) mid) (shr BITS (slice_chars_utf16 s) mid)
            (shr BITS (slice_newlines s) mid) (shr BITS (slice_tabs s) mid) right_text).

(** [ChunkSlice::slice]: an offset off a boundary is logged and rounded. *)
Definition slice_slice (s : ChunkSlice) (start end_ : N) : option ChunkSlice :=
  if start =? MAX_BASE then Some slice_empty
  else
    let start := if slice_is_char_boundary s start then start
                 else str_ceil_char_boundary (slice_text s) start in
    let end_ := if slice_is_char_boundary s end_ then end_
                else if end_ <? start then start
                else str_floor_char_boundary (slice_text s) end_ in
    let mask := wrapping_sub BITS (unbounded_shl BITS 1 (as_u32 end_)) 1 in
    text ← str_slice (slice_text s) start end_;
    Some (mk_slice (shr BITS (N.land (slice_chars s) mask) start)
            (shr BITS (N.land (slice_chars_utf16 s) mask) start)
            (shr BITS (N.land (slice_newlines s) mask) start)
            (shr BITS (N.land (slice_tabs s) mask) start) text).

Definition chunk_slice_range (c : Chunk) (start end_ : N) : option ChunkSlice :=
  slice_slice (as_slice c) start end_.

(** ** Measuring *)

Definition slice_len (s : ChunkSlice) : N := len (slice_text s).
Definition slice_len_utf16 (s : ChunkSlice) : OffsetUtf16 := offset_utf16 (count_ones (slice_chars_utf16 s)).

Definition slice_lines (s : ChunkSlice) : Point :=
  point (count_ones (slice_newlines s))
    (usub32 (leading_zeros BITS (slice_newlines s)) (usub32 BITS (as_u32 (len (slice_text s))))).

Definition slice_first_line_chars (s : ChunkSlice) : N :=
  count_ones (N.land (slice_chars s) (saturating_shl_mask (trailing_zeros BITS (slice_newlines s)))).
Definition slice_last_line_chars (s : ChunkSlice) : N :=
  count_ones (N.land (slice_chars s) (saturating_shr_mask (leading_zeros BITS (slice_newlines s)))).
Definition slice_last_line_len_utf16 (s : ChunkSlice) : N :=
  count_ones (N.land (slice_chars_utf16 s) (saturating_shr_mask (leading_zeros BITS (slice_newlines s)))).

(** [as u8]. *)
Definition as_u8 (x : N) : N := x mod 2 ^ 8.

(** [while newlines > 0] of [longest_row]: the result holds the remaining [chars],
    the number of characters so far, the row, and the longest row with its length. *)
Fixpoint longest_row_loop (fuel : nat) (chars newlines total row longest longest_chars : N) :
    N * N * N * N * N :=
  match fuel with
  | O => (chars, total, row, longest, longest_chars)
  | S fuel =>
      if newlines =? 0 then (chars, total, row, longest, longest_chars)
      else
        let newline_ix := trailing_zeros BITS newlines in
        let row_chars := as_u8 (count_ones (N.land chars (wrapping_sub BITS (shl BITS 1 newline_ix) 1))) in
        let total := total + row_chars in
        let '(longest, longest_chars) :=
          if longest_chars <? row_chars then (row, row_chars) else (longest, longest_chars) in
        let newlines := shr BITS (shr BITS newlines newline_ix) 1 in
        let chars := shr BITS (shr BITS chars newline_ix) 1 in
        longest_row_loop fuel chars newlines (total + 1) (row + 1) longest longest_chars
  end.

(** [longest_row]: the longest row, its length, and [total_chars]. *)
Definition slice_longest_row (s : ChunkSlice) : N * N * N :=
  let '(chars, total, row, longest, longest_chars) :=
    longest_row_loop (S (N.to_nat BITS)) (slice_chars s) (slice_newlines s) 0 0 0 0 in
  let row_chars := as_u8 (count_ones chars) in
  let total := total + row_chars in
  if longest_chars <? row_chars then (row, row_chars, total) else (longest, longest_chars, total).

Definition slice_text_summary (s : ChunkSlice) : TextSummary :=
  let '(longest, longest_chars, chars) := slice_longest_row s in
  text_summary (slice_len s) chars (slice_len_utf16 s) (slice_lines s) (slice_first_line_chars s)
    (slice_last_line_chars s) (slice_last_line_len_utf16 s) longest longest_chars.

#[export] Instance item_chunk : Item Chunk ChunkSummary :=
  λ c, chunk_summary (slice_text_summary (as_slice c)).

(** ** Conversions *)

Definition slice_offset_to_point (s : ChunkSlice) (offset : N) : Point :=
  let mask := wrapping_sub BITS (unbounded_shl BITS 1 (as_u32 offset)) 1 in
  let row := count_ones (N.land (slice_newlines s) mask) in
  let newline_ix := usub32 BITS (leading_zeros BITS (N.land (slice_newlines s) mask)) in
  point row (as_u32 (usub offset newline_ix)).

(** [offset_range_for_row]. *)
Definition slice_offset_range_for_row (s : ChunkSlice) (row : N) : N * N :=
  let row_start := if 0 <? row then nth_set_bit (slice_newlines s) row + 1 else 0 in
  let row_len :=
    if row_start =? MAX_BASE then 0
    else N.min (trailing_zeros BITS (shr BITS (slice_newlines s) row_start))
               (as_u32 (usub (len (slice_text s)) row_start)) in
  (row_start, row_start + row_len).

Definition slice_point_to_offset (s : ChunkSlice) (p : Point) : N :=
  if row (slice_lines s) <? row p then slice_len s
  else
    let '(start, end_) := slice_offset_range_for_row s (row p) in
    if as_u32 (end_ - start) <? column p then end_ else start + column p.

Definition slice_offset_to_offset_utf16 (s : ChunkSlice) (offset : N) : OffsetUtf16 :=
  let mask := wrapping_sub BITS (unbounded_shl BITS 1 (as_u32 offset)) 1 in
  offset_utf16 (count_ones (N.land (slice_chars_utf16 s) mask)).

Definition slice_point_to_offset_utf16 (s : ChunkSlice) (p : Point) : OffsetUtf16 :=
  if row (slice_lines s) <? row p then slice_len_utf16 s
  else slice_offset_to_offset_utf16 s (slice_point_to_offset s p).

Definition slice_offset_utf16_to_offset (s : ChunkSlice) (target : OffsetUtf16) : N :=
  if units target =? 0 then 0
  else
    let ix := nth_set_bit (slice_chars_utf16 s) (units target) + 1 in
    if ix =? MAX_BASE then MAX_BASE
    else ix + N.min (trailing_zeros BITS (shr BITS (slice_chars_utf16 s) ix)) (usub (len (slice_text s)) ix).

Definition slice_offset_to_point_utf16 (s : ChunkSlice) (offset : N) : PointUtf16 :=
  let mask := saturating_shl_mask (as_u32 offset) in
  let row := count_ones (N.land (slice_newlines s) mask) in
  let newline_ix := usub32 BITS (leading_zeros BITS (N.land (slice_newlines s) mask)) in
  let column := if newline_ix =? MAX_BASE then 0
                else count_ones (shr BITS (N.land (slice_chars_utf16 s) mask) newline_ix) in
  point_utf16 row column.

Definition slice_point_to_point_utf16 (s : ChunkSlice) (p : Point) : PointUtf16 :=
  slice_offset_to_point_utf16 s (slice_point_to_offset s p).

(** With or without [clip], which only decides about [debug_panic!]. *)
Definition slice_point_utf16_to_offset (s : ChunkSlice) (p : PointUtf16) : option N :=
  if row (slice_lines s) <? row16 p then Some (slice_len s)
  else
    let '(start, end_) := slice_offset_range_for_row s (row16 p) in
    line ← slice_slice s start end_;
    if slice_last_line_len_utf16 line <? column16 p then Some end_
    else if 0 <? column16 p then
      let offset := start + slice_offset_utf16_to_offset line (offset_utf16 (column16 p)) in
      Some (boundary_below (slice_text s) (N.to_nat offset))
    else Some start.

Definition slice_unclipped_point_utf16_to_point (s : ChunkSlice) (p : Unclipped PointUtf16) : option Point :=
  let p := unclip p in
  let max_point := slice_lines s in
  if row max_point <? row16 p then Some max_point
  else
    let '(start, end_) := slice_offset_range_for_row s (row16 p) in
    line ← slice_slice s start end_;
    if column16 p =? 0 then Some (point (row16 p) 0)
    else if as_u32 (units (slice_len_utf16 line)) <=? column16 p
    then Some (point (row16 p) (as_u32 (slice_len line)))
    else
      let column := slice_offset_utf16_to_offset line (offset_utf16 (column16 p)) in
      Some (point (row16 p) (as_u32 (boundary_below (slice_text line) (N.to_nat column)))).

(** ** Clipping *)

Definition slice_clip_offset_utf16 (s : ChunkSlice) (target : OffsetUtf16) (bias : Bias) : OffsetUtf16 :=
  if units target =? 0 then offset_utf16 0
  else if leb_ord (slice_len_utf16 s) target then slice_len_utf16 s
  else
    let offset := slice_offset_utf16_to_offset s target in
    let offset := match bias with
                  | Left => boundary_below (slice_text s) (N.to_nat offset)
                  | Right => boundary_above (slice_text s) (N.to_nat (len (slice_text s) - offset)) offset
                  end in
    slice_offset_to_offset_utf16 s offset.

Definition slice_clip_point_utf16 (s : ChunkSlice) (p : Unclipped PointUtf16) (bias : Bias) :
    option PointUtf16 :=
  let p := unclip p in
  let max_point := slice_lines s in
  if row max_point <? row16 p
  then Some (point_utf16 (row max_point) (slice_last_line_len_utf16 s))
  else
    let '(start, end_) := slice_offset_range_for_row s (row16 p) in
    line ← slice_slice s start end_;
    let column := slice_clip_offset_utf16 line (offset_utf16 (column16 p)) bias in
    Some (point_utf16 (row16 p) (as_u32 (units column))).

Section grapheme.
(** [GraphemeCursor::is_boundary] of the crate [unicode_segmentation]. *)
Context (is_grapheme_boundary : str → N → bool).

(** [loop]: the column moves left or right until it is at a boundary. *)
Fixpoint clip_loop (fuel : nat) (line : ChunkSlice) (bias : Bias) (column : N) : option N :=
  if slice_is_char_boundary line column && is_grapheme_boundary (slice_text line) column
  then Some column
  else match fuel with
       | O => None
       | S fuel => clip_loop fuel line bias (match bias with Left => usub column 1 | Right => column + 1 end)
       end.

Definition slice_clip_point (s : ChunkSlice) (p : Point) (bias : Bias) : option Point :=
  let max_point := slice_lines s in
  if row max_point <? row p then Some max_point
  else
    let '(start, end_) := slice_offset_range_for_row s (row p) in
    line ← slice_slice s start end_;
    if column p =? 0 then Some p
    else if as_u32 (slice_len line) <=? column p then Some (point (row p) (as_u32 (slice_len line)))
    else
      b0 ← lget (slice_text line) (column p - 1);
      b1 ← lget (slice_text line) (column p);
      if (b0 <? 128) && (b1 <? 128) then Some (point (row p) (column p))
      else
        column ← clip_loop (length (slice_text line)) line bias (column p);
        Some (point (row p) (as_u32 column)).
End grapheme.

(** ** Tabs *)

Record Tabs := tabs_iter { tabs_tabs : N; tabs_chars : N }.
Record TabPosition := tab_position { byte_offset : N; char_offset : N }.

Definition slice_tabs_iter (s : ChunkSlice) : Tabs := tabs_iter (slice_tabs s) (slice_chars s).

Definition tabs_next (it : Tabs) : option (TabPosition * Tabs) :=
  if tabs_tabs it =? 0 then None
  else
    let tab_offset := trailing_zeros BITS (tabs_tabs it) in
    let chars_mask := wrapping_sub BITS (shl BITS 1 tab_offset) 1 in
    let char_offset := count_ones (N.land (tabs_chars it) chars_mask) in
    Some (tab_position tab_offset char_offset,
          tabs_iter (N.lxor (tabs_tabs it) (shl BITS 1 tab_offset)) (tabs_chars it)).
