(* ===== verification/ChunkFacts.v ===== *)
(** * ChunkFacts: chunks represent their text

    [slice_of] and [chunk_of] are the slice and the chunk whose bitmaps describe a
    given text.  The lemmas say that every operation of [Chunk] takes represented texts
    to represented texts, and compute each measure and conversion from the text. *)

From S2P Require Import Prelude Bits SelectBit Utf8 SumTree TextSummary Chunk.

Definition is_tab (b : N) : bool := b =? 9.

Definition slice_of (t : str) : ChunkSlice :=
  mk_slice (of_bits (is_utf8_char_boundary <$> t)) (of_bits (utf16_flags false t))
    (of_bits (is_newline <$> t)) (of_bits (is_tab <$> t)) t.
Definition chunk_of (t : str) : Chunk :=
  mk_chunk (of_bits (is_utf8_char_boundary <$> t)) (of_bits (utf16_flags false t))
    (of_bits (is_newline <$> t)) (of_bits (is_tab <$> t)) t.

(** What fits a chunk. *)
Definition fits (t : str) : Prop := utf8 t ∧ len t ≤ MAX_BASE.

Lemma as_slice_of t : as_slice (chunk_of t) = slice_of t.
Proof. done. Qed.

Lemma array_string_fits t : len t ≤ MAX_BASE → array_string t = Some t.
Proof. intros. unfold array_string. by rewrite (proj2 (N.leb_le _ _)). Qed.

(** ** Building bitmaps *)

Lemma group_byte_spec f l g : len l + len g ≤ 8 →
  group_byte f (len l) (of_bits l) g = of_bits (l ++ (f <$> g)).
Proof.
  revert l. induction g as [|b g IH]; intros l Hl; cbn [group_byte fmap list_fmap]; [by rewrite app_nil_r|].
  rewrite len_cons in Hl. change (list_fmap _ _ f g) with (f <$> g).
  assert (N.b2n (f b) = of_bits [f b]) as -> by (simpl; lia).
  rewrite shl_small; [|lia|].
  - rewrite of_bits_lor_shiftl. replace (len l + 1) with (len (l ++ [f b])) by len.
    rewrite IH by len. by rewrite <- (assoc_L (++)).
  - rewrite N.shiftl_mul_pow2. pose proof (of_bits_lt [f b]) as Hb. change (len [f b]) with 1 in Hb.
    assert (2 ^ len l ≤ 2 ^ 7) by (apply N.pow_le_mono_r; lia). nia.
Qed.

Lemma bitmap_spec f t : bitmap f t = of_bits (f <$> t).
Proof.
  unfold bitmap. assert (∀ fuel t, (length t ≤ fuel)%nat →
    from_le_bytes (group_byte f 0 0 <$> byte_groups fuel t) = of_bits (f <$> t)) as H; [|by apply H].
  induction fuel as [|fuel IH]; intros [|b u] Hf; try done; [simpl in Hf; lia|].
  cbn [byte_groups fmap list_fmap from_le_bytes]. change (list_fmap _ _ ?g ?l) with (g <$> l).
  set (v := b :: u) in *. rewrite IH.
  2: { unfold ldrop. rewrite length_drop. unfold len. simpl. simpl in Hf. lia. }
  change (group_byte f 0 0 ?g) with (group_byte f (len (@nil bool)) (of_bits []) g).
  rewrite group_byte_spec by (rewrite len_nil, len_ltake; lia). cbn [app].
  change (f b :: (f <$> u)) with (f <$> v). destruct (decide (8 ≤ len v)).
  - rewrite N.min_r by lia. rewrite <- (ltake_ldrop 8 v) at 3. rewrite fmap_app, of_bits_app.
    rewrite len_fmap, len_ltake, N.min_l by lia. done.
  - rewrite N.min_l by lia. rewrite ltake_ge, ldrop_ge by lia. simpl. lia.
Qed.

Lemma shl_of_bits_trunc w l k : k < w →
  shl w (of_bits l) k = of_bits (ltake w (replicate (N.to_nat k) false ++ l)).
Proof.
  intros. unfold shl. rewrite (N.mod_small k) by done.
  rewrite <- N.land_ones, <- of_bits_land_ones. f_equal.
  rewrite <- of_bits_lor_shiftl, of_bits_replicate, len_replicate, N2Nat.id. by rewrite N.lor_0_l.
Qed.

Lemma lget_utf16_flags p t i :
  i < len t → default false (lget (utf16_flags p t) i) =
  default false (lget (is_utf8_char_boundary <$> t) i) || default false (lget (p :: ((λ b, 240 <=? b) <$> t)) i).
Proof.
  revert p i. induction t as [|b t IH]; intros p i Hi; [rewrite len_nil in Hi; lia|].
  rewrite len_cons in Hi. unfold lget. cbn [utf16_flags fmap list_fmap].
  destruct (N.to_nat i) as [|n] eqn:Hn; [done|]. cbn [lookup list_lookup].
  specialize (IH (240 <=? b) (i - 1) ltac:(lia)). unfold lget in IH.
  replace (N.to_nat (i - 1)) with n in IH by lia. exact IH.
Qed.

Lemma utf16_bitmap t : fits t →
  N.lor (shl BITS (of_bits ((λ b, 240 <=? b) <$> t)) 1) (of_bits (is_utf8_char_boundary <$> t)) =
  of_bits (utf16_flags false t).
Proof.
  intros [Ht Hl]. unfold MAX_BASE in Hl. rewrite shl_of_bits_trunc by done. change (replicate (N.to_nat 1) false) with [false]. cbn [app].
  apply N.bits_inj. intros i. rewrite N.lor_spec, !testbit_of_bits.
  destruct (decide (i < len t)) as [Hi|Hi].
  - rewrite lget_utf16_flags by done. rewrite orb_comm. f_equal.
    unfold lget, ltake. rewrite lookup_take_lt by lia. done.
  - rewrite (lget_ge (utf16_flags false t)) by (rewrite len_utf16_flags; lia).
    rewrite (lget_ge (_ <$> t)) by (rewrite len_fmap; lia). rewrite orb_false_r.
    destruct (decide (i = len t)) as [->|].
    + destruct t as [|b t _] using rev_ind; [done|].
      rewrite len_app. change (len [b]) with 1. destruct (decide (len t + 1 < BITS)).
      * unfold lget, ltake. rewrite lookup_take_lt by lia. rewrite fmap_app.
        change (false :: ?l ++ ?k) with ((false :: l) ++ k). rewrite lookup_app_r by (rewrite length_cons, length_fmap; unfold len; lia).
        rewrite length_cons, length_fmap. replace (_ - _)%nat with 0%nat by (unfold len; lia). cbn.
        pose proof (utf8_last t b Ht). by apply N.leb_gt.
      * rewrite lget_ge; [done|]. rewrite len_ltake. lia.
    + rewrite lget_ge; [done|]. rewrite len_ltake, len_cons, len_fmap. lia.
Qed.

Lemma chunk_new_spec t : fits t → chunk_new t = Some (chunk_of t).
Proof.
  intros Ht. unfold chunk_new. destruct Ht as [Hu Hl]. rewrite array_string_fits by done. cbn.
  rewrite !bitmap_spec. by rewrite utf16_bitmap.
Qed.

(** ** Joining and cutting *)

Lemma lor_shl_of_bits la lb : len la < BITS → len la + len lb ≤ BITS →
  N.lor (of_bits la) (shl BITS (of_bits lb) (len la)) = of_bits (la ++ lb).
Proof.
  intros Ha Hb. rewrite shl_small; [apply of_bits_lor_shiftl|done|].
  rewrite N.shiftl_mul_pow2. pose proof (of_bits_lt lb). eapply N.lt_le_trans.
  - apply N.mul_lt_mono_pos_r; [|eassumption]. apply N.neq_0_lt_0, N.pow_nonzero. lia.
  - rewrite <- N.pow_add_r. apply N.pow_le_mono_r; lia.
Qed.

Lemma fits_app_l a b : utf8 a → fits (a ++ b) → fits a.
Proof. intros Ha [_ Hl]. rewrite len_app in Hl. split; [done|lia]. Qed.
Lemma fits_app_r a b : utf8 b → fits (a ++ b) → fits b.
Proof. intros Hb [_ Hl]. rewrite len_app in Hl. split; [done|lia]. Qed.
Lemma fits_nil : fits [].
Proof. split; [apply utf8_nil|done]. Qed.

Lemma chunk_append_spec a b : utf8 a → utf8 b → len a + len b ≤ MAX_BASE →
  chunk_append (chunk_of a) (slice_of b) = Some (chunk_of (a ++ b)).
Proof.
  intros Ha Hb Hl. unfold chunk_append. destruct b as [|x b].
  { change (Some (chunk_of a) = Some (chunk_of (a ++ []))). by rewrite app_nil_r. }
  cbn [slice_is_empty slice_of slice_text]. set (t := x :: b) in *.
  cbn [chunk_text chunk_of]. rewrite array_string_fits by (rewrite len_app; done). cbn -[of_bits shl utf16_flags].
  assert (0 < len t) by (unfold t; rewrite len_cons; lia). unfold MAX_BASE in *.
  unfold chunk_of. rewrite !fmap_app, utf16_flags_utf8_app by done.
  rewrite <- (lor_shl_of_bits (is_utf8_char_boundary <$> a)), <- (lor_shl_of_bits (utf16_flags false a)),
    <- (lor_shl_of_bits (is_newline <$> a)), <- (lor_shl_of_bits (is_tab <$> a)) by (rewrite ?len_fmap, ?len_utf16_flags; lia).
  by rewrite !len_fmap, len_utf16_flags.
Qed.

Lemma chunk_append_overflow c s : MAX_BASE < len (chunk_text c) + len (slice_text s) →
  slice_is_empty s = false → chunk_append c s = None.
Proof.
  intros Hl Hs. unfold chunk_append. rewrite Hs. unfold array_string. rewrite len_app.
  by rewrite (proj2 (N.leb_gt _ _)).
Qed.

Lemma chunk_push_str_spec a b : utf8 a → utf8 b → len a + len b ≤ MAX_BASE →
  chunk_push_str (chunk_of a) b = Some (chunk_of (a ++ b)).
Proof.
  intros. unfold chunk_push_str. rewrite chunk_new_spec by (split; [done|lia]). cbn [mbind option_bind].
  by apply chunk_append_spec.
Qed.

Lemma chunk_prepend_spec a b : utf8 a → utf8 b → len a + len b ≤ MAX_BASE →
  chunk_prepend (chunk_of b) (slice_of a) = Some (chunk_of (a ++ b)).
Proof.
  intros Ha Hb Hl. unfold chunk_prepend. destruct a as [|x a]; [done|].
  cbn [slice_is_empty slice_of slice_text]. set (t := x :: a) in *. cbn [chunk_text chunk_of].
  destruct b as [|y b]; [rewrite app_nil_r; apply chunk_new_spec; split; [done|lia]|].
  set (u := y :: b) in *. assert (0 < len u) by (unfold u; rewrite len_cons; lia). clearbody t u.
  rewrite array_string_fits by (rewrite len_app; done). cbn -[of_bits shl utf16_flags].
  unfold MAX_BASE in *. unfold chunk_of. rewrite !fmap_app, utf16_flags_utf8_app by done.
  rewrite <- (lor_shl_of_bits (is_utf8_char_boundary <$> t)), <- (lor_shl_of_bits (utf16_flags false t)),
    <- (lor_shl_of_bits (is_newline <$> t)), <- (lor_shl_of_bits (is_tab <$> t)) by (rewrite ?len_fmap, ?len_utf16_flags; lia).
  by rewrite !len_fmap, len_utf16_flags.
Qed.

Lemma chunk_prepend_str_spec a b : utf8 a → utf8 b → len a + len b ≤ MAX_BASE →
  chunk_prepend_str (chunk_of b) a = Some (chunk_of (a ++ b)).
Proof.
  intros. unfold chunk_prepend_str. rewrite chunk_new_spec by (split; [done|lia]). cbn [mbind option_bind].
  by apply chunk_prepend_spec.
Qed.

Lemma slice_into_spec t : fits t → slice_into (slice_of t) = Some (chunk_of t).
Proof. intros [? ?]. unfold slice_into. cbn [slice_text slice_of]. by rewrite array_string_fits. Qed.

(** *** Boundaries *)

Lemma land_pow2 x i : N.land (2 ^ i) x = 0 ↔ N.testbit x i = false.
Proof.
  split.
  - intros H. apply (f_equal (λ y, N.testbit y i)) in H. rewrite N.land_spec, N.pow2_bits_true, N.bits_0 in H. done.
  - intros H. apply N.bits_inj. intros j. rewrite N.land_spec, N.bits_0. destruct (decide (i = j)) as [->|].
    + by rewrite H, andb_false_r.
    + by rewrite N.pow2_bits_false.
Qed.

Lemma bitmap_boundary_spec t i : fits t → i < 2 ^ 32 →
  bitmap_is_char_boundary (of_bits (is_utf8_char_boundary <$> t)) t i = str_is_char_boundary t i.
Proof.
  intros [Ht Hl] Hi. unfold bitmap_is_char_boundary, str_is_char_boundary, as_u32, unbounded_shl.
  rewrite (N.mod_small i) by done. unfold MAX_BASE in Hl.
  destruct (decide (i < len t)) as [Hlt|Hge].
  - rewrite (proj2 (N.ltb_lt i BITS)), N.shiftl_1_l by lia.
    rewrite (N.mod_small (2 ^ i)) by (apply N.pow_lt_mono_r; lia).
    destruct (lget_lt t i Hlt) as [b Hb]. rewrite Hb, (proj2 (N.eqb_neq i (len t))), orb_false_r by lia.
    assert (N.testbit (of_bits (is_utf8_char_boundary <$> t)) i = is_utf8_char_boundary b) as Hbit.
    { rewrite testbit_of_bits. unfold lget in *. by rewrite list_lookup_fmap, Hb. }
    destruct (N.eqb_spec (N.land (2 ^ i) (of_bits (is_utf8_char_boundary <$> t))) 0) as [H0|H0]; cbn [negb].
    + rewrite land_pow2, Hbit in H0. rewrite H0. destruct (N.eqb_spec i 0) as [->|]; [|done].
      apply lget_Some in Hb as (l1 & l2 & -> & ->%len_0). by rewrite (utf8_head b l2 Ht) in H0.
    + rewrite land_pow2, Hbit in H0. by rewrite (not_false_is_true _ H0), orb_true_r.
  - rewrite (lget_ge t) by lia. assert (N.land (if i <? BITS then N.shiftl 1 i mod 2 ^ BITS else 0) (of_bits (is_utf8_char_boundary <$> t)) = 0) as ->.
    { destruct (N.ltb_spec i BITS); [|done].
      rewrite N.shiftl_1_l, (N.mod_small (2 ^ i)) by (apply N.pow_lt_mono_r; lia).
      apply land_pow2. rewrite testbit_of_bits, lget_ge; [done|]. rewrite len_fmap. lia. }
    cbn [N.eqb negb orb]. destruct (N.eqb_spec i 0) as [->|]; [|done]. apply N.eqb_eq. lia.
Qed.

Lemma slice_boundary_spec t i : fits t → i < 2 ^ 32 →
  slice_is_char_boundary (slice_of t) i = str_is_char_boundary t i.
Proof. apply bitmap_boundary_spec. Qed.

Lemma chunk_boundary_spec t i : fits t → i < 2 ^ 32 →
  chunk_is_char_boundary (chunk_of t) i = str_is_char_boundary t i.
Proof. apply bitmap_boundary_spec. Qed.

Lemma chunk_floor_spec t i : utf8 t →
  chunk_floor_char_boundary (chunk_of t) i = str_floor_char_boundary t i.
Proof.
  intros Ht. unfold chunk_floor_char_boundary, str_floor_char_boundary. cbn [chunk_text chunk_of].
  destruct (N.leb_spec (len t) i); [done|].
  assert (N.to_nat i < length t)%nat as Hi by (unfold len in *; lia). clear H. revert Hi.
  generalize (N.to_nat i). intros n. induction n as [|n IH]; intros Hn; [done|].
  cbn [chunk_floor_loop boundary_below]. unfold str_is_char_boundary at 1.
  rewrite (proj2 (N.eqb_neq _ 0)) by lia. unfold lget. rewrite Nat2N.id.
  destruct (lookup_lt_is_Some_2 t (S n) Hn) as [b ->]. cbn [orb]. rewrite IH by lia. done.
Qed.

Lemma ltake_utf16_flags p t k : ltake k (utf16_flags p t) = utf16_flags p (ltake k t).
Proof.
  unfold ltake. generalize (N.to_nat k). intros n. revert p t.
  induction n as [|n IH]; intros p [|b t]; [done..|]. cbn [utf16_flags take]. by rewrite IH.
Qed.

Lemma ldrop_utf16_flags t k : utf8 t → str_is_char_boundary t k = true →
  ldrop k (utf16_flags false t) = utf16_flags false (ldrop k t).
Proof.
  intros Ht Hk. destruct (utf8_split t k Ht Hk) as (t1 & t2 & -> & <- & H1 & H2).
  rewrite utf16_flags_utf8_app, ldrop_app_len by done.
  by rewrite <- (len_utf16_flags false t1), ldrop_app_len.
Qed.

Lemma mask_ones k : k ≤ BITS → wrapping_sub BITS (unbounded_shl BITS 1 k) 1 = N.ones k.
Proof. intros. rewrite unbounded_shl_mask by done. by rewrite N.min_l. Qed.

Lemma as_u32_small x : x < 2 ^ 32 → as_u32 x = x.
Proof. apply N.mod_small. Qed.

Lemma boundary_ltake t a b : utf8 t → str_is_char_boundary t b = true → a ≤ b →
  str_is_char_boundary (ltake b t) a = str_is_char_boundary t a.
Proof.
  intros Ht Hb Ha. destruct (utf8_split t b Ht Hb) as (t1 & t2 & -> & <- & H1 & H2).
  rewrite ltake_app_len. symmetry. by apply boundary_app_l.
Qed.

Lemma slice_slice_spec t a b : fits t → a ≤ b →
  str_is_char_boundary t a = true → str_is_char_boundary t b = true →
  slice_slice (slice_of t) a b = Some (slice_of (ltake (b - a) (ldrop a t))).
Proof.
  intros [Ht Hl] Hab Ha Hb. pose proof (boundary_le _ _ Hb) as Hbl. unfold MAX_BASE in *.
  unfold slice_slice, MAX_BASE. destruct (N.eqb_spec a BITS) as [->|Hne].
  { rewrite ldrop_ge by lia. unfold ltake. by rewrite take_nil. }
  unfold BITS in *. rewrite !slice_boundary_spec, Ha, Hb by first [done|lia].
  rewrite as_u32_small by lia. fold BITS. rewrite mask_ones by (unfold BITS; lia).
  cbn [slice_text slice_of]. unfold str_slice. rewrite (proj2 (N.leb_le a b)), Ha, Hb by done.
  cbn -[of_bits shr N.ones utf16_flags]. rewrite !of_bits_land_ones, !shr_small, !of_bits_shiftr by (unfold BITS; lia).
  rewrite ltake_utf16_flags, ldrop_utf16_flags by (by apply utf8_ltake) || (by rewrite boundary_ltake).
  unfold slice_of. by rewrite !ldrop_ltake, !ldrop_fmap, !ltake_fmap.
Qed.

Lemma slice_split_at_spec t mid : fits t → str_is_char_boundary t mid = true →
  slice_split_at (slice_of t) mid = Some (slice_of (ltake mid t), slice_of (ldrop mid t)).
Proof.
  intros [Ht Hl] Hm. pose proof (boundary_le _ _ Hm) as Hml. unfold slice_split_at, MAX_BASE in *.
  destruct (N.eqb_spec mid BITS) as [->|Hne].
  { by rewrite ltake_ge, ldrop_ge by lia. }
  assert (wrapping_sub BITS (shl BITS 1 mid) 1 = N.ones mid) as ->.
  { rewrite <- mask_ones by lia. f_equal. unfold shl, unbounded_shl.
    rewrite (N.mod_small mid) by lia. by rewrite (proj2 (N.ltb_lt _ _)) by lia. }
  cbn [slice_text slice_of]. unfold str_split_at. rewrite Hm. cbn -[of_bits shr N.ones utf16_flags BITS].
  rewrite !of_bits_land_ones, !shr_small, !of_bits_shiftr by lia. unfold slice_of.
  by rewrite !ltake_fmap, !ldrop_fmap, ltake_utf16_flags, ldrop_utf16_flags.
Qed.

(** Where [slice] starts and ends when asked for any two offsets: at the boundary after the start, and at
    the boundary before the end, but not before the start if the end was within a character. *)
Definition slice_start (t : str) (i : N) : N := if str_is_char_boundary t i then i else str_ceil_char_boundary t i.
Definition slice_end (t : str) (i j : N) : N :=
  if str_is_char_boundary t j then j else if j <? slice_start t i then slice_start t i else str_floor_char_boundary t j.

Lemma slice_start_boundary t i : str_is_char_boundary t (slice_start t i) = true.
Proof. unfold slice_start. destruct (str_is_char_boundary t i) eqn:E; [done|apply ceil_spec]. Qed.

Lemma slice_end_boundary t i j : str_is_char_boundary t (slice_end t i j) = true.
Proof.
  unfold slice_end. destruct (str_is_char_boundary t j) eqn:E; [done|].
  destruct (j <? _); [apply slice_start_boundary|apply floor_spec].
Qed.

(** A slice of any two offsets is the slice of these boundaries. *)
Lemma slice_slice_rounds t i j : fits t → i < 2 ^ 32 → j < 2 ^ 32 → i ≠ MAX_BASE → slice_start t i ≠ MAX_BASE →
  slice_slice (slice_of t) i j = slice_slice (slice_of t) (slice_start t i) (slice_end t i j).
Proof.
  intros Ht Hi Hj Hne Hs. unfold slice_slice. rewrite !(proj2 (N.eqb_neq _ _)) by done.
  assert (∀ k, str_is_char_boundary t k = true → slice_is_char_boundary (slice_of t) k = true) as Hb.
  { intros k Hk. pose proof (boundary_le _ _ Hk). destruct Ht as [Ht Hl]. rewrite slice_boundary_spec; [done|done|].
    unfold MAX_BASE, BITS in Hl. lia. }
  rewrite (Hb _ (slice_start_boundary t i)), (Hb _ (slice_end_boundary t i j)), !slice_boundary_spec by done. done.
Qed.

(** It panics when the end is a boundary before the start. *)
Lemma slice_slice_backwards t i j : fits t → i < 2 ^ 32 → j < 2 ^ 32 → i ≠ MAX_BASE → slice_end t i j < slice_start t i →
  slice_slice (slice_of t) i j = None.
Proof.
  intros Ht Hi Hj Hne Hlt. unfold slice_slice. rewrite (proj2 (N.eqb_neq _ _)) by done. rewrite !slice_boundary_spec by done.
  cbn [slice_text slice_of]. fold (slice_start t i). fold (slice_end t i j). unfold str_slice. by rewrite (proj2 (N.leb_gt _ _)).
Qed.

Lemma slice_slice_any t i j : fits t → i < 2 ^ 32 → j < 2 ^ 32 → i = MAX_BASE ∨ slice_start t i ≠ MAX_BASE →
  slice_slice (slice_of t) i j =
    if (i =? MAX_BASE) || (slice_start t i <=? slice_end t i j)
    then Some (slice_of (ltake (slice_end t i j - slice_start t i) (ldrop (slice_start t i) t))) else None.
Proof.
  intros Ht Hi Hj Hs. destruct (N.eqb_spec i MAX_BASE) as [->|Hne]; cbn [orb].
  - unfold slice_slice. rewrite N.eqb_refl. destruct Ht as [_ Hl]. rewrite ldrop_ge; [unfold ltake; by rewrite take_nil|].
    unfold slice_start. destruct (str_is_char_boundary t MAX_BASE) eqn:E; [done|].
    unfold str_ceil_char_boundary. by rewrite (proj2 (N.leb_le _ _)).
  - destruct Hs as [|Hs]; [done|]. destruct (N.leb_spec (slice_start t i) (slice_end t i j)) as [Hle|Hlt].
    + rewrite slice_slice_rounds by done. apply slice_slice_spec; [done|done|apply slice_start_boundary|apply slice_end_boundary].
    + by apply slice_slice_backwards.
Qed.

(** The exception: a start within the last character of a full chunk. *)
Lemma slice_slice_misaligned t i j : fits t → i < 2 ^ 32 → j < 2 ^ 32 → i ≠ MAX_BASE → slice_start t i = MAX_BASE → slice_end t i j = MAX_BASE →
  ∃ s, slice_slice (slice_of t) i j = Some s ∧ slice_text s = [] ∧ slice_chars s = slice_chars (slice_of t).
Proof.
  intros Ht Hi Hj Hne Hs He. unfold slice_slice. rewrite (proj2 (N.eqb_neq _ _)) by done. rewrite !slice_boundary_spec by done.
  cbn [slice_text slice_of]. fold (slice_start t i). fold (slice_end t i j). unfold str_slice.
  rewrite (slice_start_boundary t i), (slice_end_boundary t i j), Hs, He, N.leb_refl. cbn [andb mbind option_bind].
  eexists. split; [done|]. rewrite N.sub_diag, ltake_0. split; [done|]. cbn [slice_chars]. unfold slice_of. cbn [slice_chars].
  rewrite as_u32_small, mask_ones by done. rewrite of_bits_land_ones, ltake_ge by (rewrite len_fmap; apply Ht).
  unfold shr. change (MAX_BASE mod BITS) with 0. by rewrite N.shiftr_0_r.
Qed.

(** [split_at] panics at an offset within a character, but for the end of a full chunk. *)
Lemma slice_split_at_any t m : fits t → slice_split_at (slice_of t) m =
  if (m =? MAX_BASE) || str_is_char_boundary t m then Some (slice_of (ltake m t), slice_of (ldrop m t)) else None.
Proof.
  intros Ht. destruct (str_is_char_boundary t m) eqn:E; [rewrite orb_true_r; by apply slice_split_at_spec|]. rewrite orb_false_r.
  unfold slice_split_at. destruct (N.eqb_spec m MAX_BASE) as [->|Hne].
  - destruct Ht as [_ Hl]. by rewrite ltake_ge, ldrop_ge.
  - cbn [slice_text slice_of]. unfold str_split_at. by rewrite E.
Qed.

(** ** Lines in a text *)

Lemma first_newline_split t : rows t ≠ 0 → ∃ l u, t = l ++ newline :: u ∧ rows l = 0 ∧ first_line t = l.
Proof.
  induction t as [|b t IH]; [done|]. rewrite rows_cons. cbn [first_line].
  destruct (is_newline b) eqn:E; intros Hr.
  - exists [], t. apply N.eqb_eq in E as ->. done.
  - destruct (IH ltac:(lia)) as (l & u & -> & Hl & ->). exists (b :: l), u. by rewrite rows_cons, E, Hl.
Qed.

Lemma last_newline_split t : rows t ≠ 0 → ∃ a, t = a ++ newline :: last_line t.
Proof.
  induction t as [|b t IH] using rev_ind; [done|]. rewrite rows_app, rows_cons. change (rows []) with 0.
  unfold last_line. rewrite foldl_snoc. fold (last_line t). unfold last_step.
  destruct (is_newline b) eqn:E; intros Hr.
  - exists t. apply N.eqb_eq in E as ->. done.
  - destruct (IH ltac:(lia)) as (a & Ha). exists a. rewrite Ha at 1. by rewrite <- (assoc_L (++)).
Qed.

(** A newline cuts a string into two strings. *)
Lemma utf8_newline a b : utf8 (a ++ newline :: b) → utf8 a ∧ utf8 b.
Proof.
  intros Ht. destruct (utf8_split _ (len a) Ht) as (t1 & t2 & Heq & Hl & H1 & H2).
  { unfold str_is_char_boundary. rewrite lget_app_r, N.sub_diag by lia. simpl. apply orb_true_r. }
  assert (t1 = a) as ->.
  { apply (f_equal (ltake (len a))) in Heq. rewrite ltake_app_len, <- Hl, ltake_app_len in Heq. done. }
  apply app_inv_head in Heq as <-. split; [done|].
  apply (utf8_app_inv [newline]); [|done]. by apply (utf8_encode newline).
Qed.

(** Where the last line starts. *)
Definition last_start (t : str) : N := len t - len (last_line t).

Lemma last_start_split t : ∃ a, t = a ++ last_line t ∧ len a = last_start t ∧
  (utf8 t → utf8 a) ∧ (is_newline <$> t = (is_newline <$> a) ++ replicate (length (last_line t)) false) ∧
  (a = [] ∨ ∃ a', a = a' ++ [newline]).
Proof.
  assert (∀ u, rows u = 0 → is_newline <$> u = replicate (length u) false) as H0.
  { induction u as [|b u IH]; [done|]. rewrite rows_cons. cbn [fmap list_fmap length replicate].
    destruct (is_newline b); [lia|]. intros. f_equal. apply IH. lia. }
  unfold last_start. destruct (decide (rows t = 0)) as [Hr|Hr].
  - exists []. rewrite last_line_0 by done. split_and!; [done|rewrite len_nil; lia|intros; apply utf8_nil|by apply H0|by left].
  - destruct (last_newline_split t Hr) as (a & Ha). exists (a ++ [newline]).
    rewrite <- (assoc_L (++)). cbn [app]. rewrite <- Ha. split_and!; [done| | | |].
    + assert (len t = len a + (1 + len (last_line t))) by (rewrite Ha at 1; len). len.
    + intros Ht. rewrite Ha in Ht. apply utf8_newline in Ht as [? _]. apply utf8_app; [done|by apply (utf8_encode newline)].
    + rewrite Ha at 1. rewrite !fmap_app. rewrite <- (assoc_L (++)). f_equal. cbn [fmap list_fmap app]. f_equal.
      apply H0, rows_last_line.
    + right. by exists a.
Qed.

Lemma ldrop_last_start t : ldrop (last_start t) t = last_line t.
Proof. destruct (last_start_split t) as (a & Ha & <- & _). rewrite Ha at 1. apply ldrop_app_len. Qed.

Lemma last_start_boundary t : utf8 t → str_is_char_boundary t (last_start t) = true.
Proof.
  intros Ht. destruct (last_start_split t) as (a & Ha & <- & _). rewrite Ha at 1.
  apply boundary_app. by apply utf8_last_line.
Qed.

Lemma last_start_le t : last_start t ≤ len t.
Proof. unfold last_start. lia. Qed.

Lemma newlines_leading t : len t ≤ BITS →
  leading_zeros BITS (of_bits (is_newline <$> t)) = BITS - last_start t.
Proof.
  intros Hl. destruct (last_start_split t) as (a & Ha & <- & _ & -> & [->|(a' & ->)]).
  - rewrite leading_zeros_0; [rewrite len_nil; lia|]. cbn [app]. intros [Hf _]%elem_of_replicate. done.
  - rewrite fmap_app, <- (assoc_L (++)). cbn [fmap list_fmap app]. change (is_newline newline) with true.
    rewrite leading_zeros_of_bits. len.
Qed.

Lemma newlines_trailing t :
  trailing_zeros BITS (of_bits (is_newline <$> t)) = if rows t =? 0 then BITS else len (first_line t).
Proof.
  destruct (N.eqb_spec (rows t) 0) as [Hr|Hr].
  - apply trailing_zeros_0. intros (b & Hb & Ht)%list_elem_of_fmap. revert Hr. apply list_elem_of_split in Ht as (l1 & l2 & ->).
    rewrite rows_app, rows_cons, <- Hb. lia.
  - destruct (first_newline_split t Hr) as (l & u & -> & Hl & ->).
    assert (is_newline <$> l = replicate (length l) false) as Hf.
    { clear -Hl. induction l as [|b l IH]; [done|]. rewrite rows_cons in Hl. cbn [fmap list_fmap length replicate].
      destruct (is_newline b); [lia|]. f_equal. apply IH. lia. }
    rewrite fmap_app, Hf. cbn [fmap list_fmap]. change (is_newline newline) with true.
    by rewrite trailing_zeros_of_bits.
Qed.

(** ** Measures *)

Lemma usub32_small a b : b ≤ a → a < 2 ^ 32 → usub32 a b = a - b.
Proof. apply wrapping_sub_small. Qed.
Lemma usub_small a b : b ≤ a → a < 2 ^ 64 → usub a b = a - b.
Proof. apply wrapping_sub_small. Qed.

Lemma slice_len_utf16_spec t : slice_len_utf16 (slice_of t) = offset_utf16 (utf16_len t).
Proof. unfold slice_len_utf16. cbn [slice_of slice_chars_utf16]. by rewrite count_ones_of_bits. Qed.

Lemma slice_lines_spec t : len t ≤ MAX_BASE → slice_lines (slice_of t) = point_of t.
Proof.
  intros Hl. unfold slice_lines, point_of, MAX_BASE in *. cbn [slice_of slice_newlines slice_text].
  rewrite count_ones_of_bits, newlines_leading by done. f_equal. unfold BITS in *.
  pose proof (last_start_le t). pose proof (len_last_line_le t).
  rewrite as_u32_small, (usub32_small 128), usub32_small by (unfold last_start in *; lia).
  unfold last_start. lia.
Qed.

Lemma slice_first_line_chars_spec t : len t ≤ MAX_BASE →
  slice_first_line_chars (slice_of t) = num_chars (first_line t).
Proof.
  intros Hl. unfold slice_first_line_chars, saturating_shl_mask, MAX_BASE in *.
  cbn [slice_of slice_newlines slice_chars]. rewrite newlines_trailing.
  destruct (N.eqb_spec (rows t) 0) as [Hr|Hr].
  - rewrite mask_ones, of_bits_land_ones, count_ones_of_bits, ltake_ge by (rewrite ?len_fmap; done).
    by rewrite first_line_0.
  - pose proof (len_first_line_le t). rewrite mask_ones, of_bits_land_ones, count_ones_of_bits by lia.
    destruct (first_newline_split t Hr) as (l & u & -> & _ & ->).
    by rewrite ltake_fmap, ltake_app_len.
Qed.

Lemma shr_mask_last {A} (f : str → list A) t (bits : list bool) : len t ≤ BITS → len bits = len t →
  count_ones (N.land (of_bits bits) (saturating_shr_mask (leading_zeros BITS (of_bits (is_newline <$> t))))) =
  ones (ldrop (last_start t) bits).
Proof.
  intros Hl Hb. pose proof (last_start_le t). unfold saturating_shr_mask.
  rewrite newlines_leading, of_bits_land_shr_mask, count_ones_of_bits, ones_app, ones_replicate by lia.
  replace (BITS - (BITS - last_start t)) with (last_start t) by lia. lia.
Qed.

Lemma slice_last_line_chars_spec t : len t ≤ MAX_BASE →
  slice_last_line_chars (slice_of t) = num_chars (last_line t).
Proof.
  intros Hl. unfold slice_last_line_chars, MAX_BASE in *. cbn [slice_of slice_newlines slice_chars].
  rewrite (shr_mask_last (λ t, t)), ldrop_fmap, ldrop_last_start by (rewrite ?len_fmap; done). done.
Qed.

Lemma slice_last_line_len_utf16_spec t : fits t →
  slice_last_line_len_utf16 (slice_of t) = utf16_len (last_line t).
Proof.
  intros [Ht Hl]. unfold slice_last_line_len_utf16, MAX_BASE in *. cbn [slice_of slice_newlines slice_chars_utf16].
  rewrite (shr_mask_last (λ t, t)) by (rewrite ?len_utf16_flags; done).
  by rewrite ldrop_utf16_flags, ldrop_last_start by auto using last_start_boundary.
Qed.

(** *** The longest row *)

Lemma split_lines_newline l u : rows l = 0 → split_lines (l ++ newline :: u) = l :: split_lines u.
Proof.
  induction l as [|b l IH]; [done|]. rewrite rows_cons. cbn [app split_lines].
  destruct (is_newline b); [lia|]. intros. by rewrite IH by lia.
Qed.

Lemma rows_newline u : rows (newline :: u) = 1 + rows u.
Proof. done. Qed.

Lemma num_chars_newline l u : num_chars (l ++ newline :: u) = num_chars l + 1 + num_chars u.
Proof. change (newline :: u) with ([newline] ++ u). rewrite !num_chars_app. change (num_chars [newline]) with 1. lia. Qed.

Lemma last_line_newline l u : last_line (l ++ newline :: u) = last_line u.
Proof.
  change (newline :: u) with ([newline] ++ u). rewrite (assoc_L (++)), last_line_app.
  destruct (N.eqb_spec (rows u) 0); [|done]. rewrite (last_line_0 u), last_line_app by done. done.
Qed.

Lemma shr_shr_of_bits l k : k < BITS → shr BITS (shr BITS (of_bits l) k) 1 = of_bits (ldrop (k + 1) l).
Proof. intros. rewrite !shr_small, !of_bits_shiftr, ldrop_ldrop by (done || lia). done. Qed.

Lemma longest_row_loop_spec fuel t total r best : (N.to_nat (rows t) < fuel)%nat → len t ≤ BITS →
  ∃ init, split_lines t = init ++ [last_line t] ∧
  longest_row_loop fuel (of_bits (is_utf8_char_boundary <$> t)) (of_bits (is_newline <$> t)) total r best.1 best.2 =
  (of_bits (is_utf8_char_boundary <$> last_line t), total + num_chars t - num_chars (last_line t),
   r + rows t, (longest_from r best (num_chars <$> init)).1, (longest_from r best (num_chars <$> init)).2).
Proof.
  revert t total r best. induction fuel as [|fuel IH]; intros t total r best Hf Hl; [lia|].
  cbn [longest_row_loop]. destruct (decide (rows t = 0)) as [Hr|Hr].
  - exists []. assert (of_bits (is_newline <$> t) = 0) as ->.
    { apply of_bits_0. intros (b & Hb & Ht)%list_elem_of_fmap. revert Hr. apply list_elem_of_split in Ht as (l1 & l2 & ->).
      rewrite rows_app, rows_cons, <- Hb. lia. }
    cbn [N.eqb fmap list_fmap longest_from]. rewrite Hr, last_line_0, split_lines_0 by done.
    split; [done|]. repeat f_equal; lia.
  - rewrite (proj2 (N.eqb_neq (of_bits _) 0)).
    2: { intros H0. apply of_bits_0 in H0. destruct (first_newline_split t Hr) as (l & u & -> & _). apply H0.
         rewrite fmap_app. apply elem_of_app. right. by left. }
    rewrite newlines_trailing, (proj2 (N.eqb_neq (rows t) 0)) by done.
    destruct (first_newline_split t Hr) as (l & u & -> & Hl0 & ->).
    rewrite rows_app, rows_newline, Hl0 in *. rewrite len_app, len_cons in Hl.
    assert (wrapping_sub BITS (shl BITS 1 (len l)) 1 = N.ones (len l)) as ->.
    { rewrite <- mask_ones by lia. f_equal. unfold shl, unbounded_shl.
      rewrite (N.mod_small (len l)) by lia. by rewrite (proj2 (N.ltb_lt _ _)) by lia. }
    rewrite of_bits_land_ones, count_ones_of_bits, ltake_fmap, ltake_app_len, !shr_shr_of_bits by lia.
    fold (num_chars l). pose proof (num_chars_le l).
    assert (as_u8 (num_chars l) = num_chars l) as -> by (apply N.mod_small; unfold BITS in *; lia).
    rewrite !ldrop_fmap. assert (ldrop (len l + 1) (l ++ newline :: u) = u) as ->.
    { change (newline :: u) with ([newline] ++ u). rewrite (assoc_L (++)).
      replace (len l + 1) with (len (l ++ [newline])) by len. apply ldrop_app_len. }
    destruct (IH u (total + num_chars l + 1) (r + 1) (bump best r (num_chars l))) as (init & Hi & Heq); [lia|lia|].
    exists (l :: init). rewrite split_lines_newline, last_line_newline, Hi by done. split; [done|].
    cbn [fmap list_fmap longest_from]. change (list_fmap _ _ ?f ?l) with (f <$> l).
    transitivity (longest_row_loop fuel (of_bits (is_utf8_char_boundary <$> u)) (of_bits (is_newline <$> u))
      (total + num_chars l + 1) (r + 1) (bump best r (num_chars l)).1 (bump best r (num_chars l)).2).
    { unfold bump. by destruct (best.2 <? num_chars l). }
    rewrite Heq, num_chars_newline. replace (r + (0 + (1 + rows u))) with (r + 1 + rows u) by lia.
    by replace (total + (num_chars l + 1 + num_chars u)) with (total + num_chars l + 1 + num_chars u) by lia.
Qed.

Lemma slice_text_summary_spec t : fits t → slice_text_summary (slice_of t) = summary_of t.
Proof.
  intros [Ht Hl]. unfold slice_text_summary, slice_longest_row.
  pose proof (rows_le t). pose proof (num_chars_le (last_line t)). pose proof (len_last_line_le t).
  destruct (longest_row_loop_spec (S (N.to_nat BITS)) t 0 0 (0, 0)) as (init & Hi & Heq); [unfold MAX_BASE in *; lia|done|].
  cbn [slice_of slice_chars slice_newlines]. cbn [fst snd] in Heq. rewrite Heq.
  rewrite count_ones_of_bits. fold (num_chars (last_line t)).
  assert (as_u8 (num_chars (last_line t)) = num_chars (last_line t)) as -> by (apply N.mod_small; unfold MAX_BASE, BITS in *; lia).
  fold (slice_of t). rewrite slice_len_utf16_spec, slice_lines_spec, slice_first_line_chars_spec,
    slice_last_line_chars_spec, slice_last_line_len_utf16_spec by done.
  assert (longest t = bump (longest_from 0 (0, 0) (num_chars <$> init)) (rows t) (num_chars (last_line t))) as Hlong.
  { unfold longest. rewrite Hi, fmap_app, longest_from_app. cbn [fmap list_fmap longest_from].
    destruct (split_lines_shape t) as (init' & _ & Hi' & Hlen & _). rewrite Hi' in Hi.
    apply app_inj_tail in Hi as [<- _]. by rewrite len_fmap, Hlen. }
  assert (num_chars (last_line t) ≤ num_chars t).
  { destruct (last_start_split t) as (a & Ha & _). rewrite Ha at 2. rewrite num_chars_app. lia. }
  unfold summary_of. rewrite Hlong. unfold bump.
  destruct (_ <? num_chars (last_line t)); cbn [fst snd]; f_equal; unfold slice_len; cbn [slice_of slice_text]; lia.
Qed.
