(* ===== verification/ChunkConvert.v ===== *)
(** * ChunkConvert: conversions within a chunk

    What the conversions of [Chunk] between byte offsets, points and UTF-16 offsets
    compute on the slice of a text: each is described by a function on the text that
    does not mention bitmaps. *)

From S2P Require Import Prelude Bits SelectBit Utf8 SumTree TextSummary Chunk ChunkFacts.

(** ** Specifications on texts *)

(** What follows the first [r] newlines. *)
Fixpoint drop_rows (r : N) (t : str) : str :=
  match t with
  | [] => []
  | b :: u => if r =? 0 then t else drop_rows (if is_newline b then r - 1 else r) u
  end.
Definition row_start (t : str) (r : N) : N := len t - len (drop_rows r t).
Definition row_text (t : str) (r : N) : str := first_line (drop_rows r t).

(** The offset of a point; one beyond the text or its row is clipped. *)
Definition offset_of_point (t : str) (p : Point) : N :=
  if rows t <? row p then len t
  else row_start t (row p) + N.min (column p) (len (row_text t (row p))).

(** The longest prefix of the characters with at most [u] UTF-16 units, in bytes. *)
Fixpoint utf16_prefix (cs : list N) (u : N) : N :=
  match cs with
  | [] => 0
  | c :: cs => if len_utf16 c <=? u then len_utf8 c + utf16_prefix cs (u - len_utf16 c) else 0
  end.
Definition offset_of_utf16 (t : str) (u : N) : N := utf16_prefix (chars t) u.

Definition offset_of_point_utf16 (t : str) (p : PointUtf16) : N :=
  if rows t <? row16 p then len t
  else row_start t (row16 p) + offset_of_utf16 (row_text t (row16 p)) (column16 p).

(** ** Rows *)

Lemma drop_rows_0 t : drop_rows 0 t = t.
Proof. by destruct t. Qed.

Lemma drop_rows_split r t : r ≤ rows t → ∃ p, t = p ++ drop_rows r t ∧ rows p = r ∧
  last_line p = [].
Proof.
  revert r. induction t as [|b t IH]; intros r Hr.
  - change (rows []) with 0 in Hr. exists []. split_and!; [done|by rewrite (N.le_0_r r) in Hr|done].
  - cbn [drop_rows]. destruct (N.eqb_spec r 0) as [->|Hr0]; [by exists []|].
    rewrite rows_cons in Hr. destruct (is_newline b) eqn:E.
    + destruct (IH (r - 1)) as (p & Hp & Hpr & Hl); [lia|]. exists (b :: p). rewrite rows_cons, E, Hpr.
      split_and!; [by rewrite Hp at 1|lia|]. apply N.eqb_eq in E as ->.
      change (newline :: p) with ([] ++ newline :: p). by rewrite last_line_newline.
    + destruct (IH r) as (p & Hp & Hpr & Hl); [lia|]. exists (b :: p). rewrite rows_cons, E, Hpr.
      split_and!; [by rewrite Hp at 1|lia|]. change (b :: p) with ([b] ++ p). rewrite last_line_app.
      by rewrite (proj2 (N.eqb_neq (rows p) 0)), Hl by lia.
Qed.

Lemma drop_rows_app p t : last_line p = [] → drop_rows (rows p) (p ++ t) = t.
Proof.
  induction p as [|b p IH]; intros Hl; [apply drop_rows_0|].
  change (b :: p) with ([b] ++ p) in Hl. rewrite last_line_app in Hl. rewrite rows_cons. cbn [app drop_rows].
  destruct (is_newline b) eqn:E.
  - rewrite (proj2 (N.eqb_neq _ 0)) by lia. replace (1 + rows p - 1) with (rows p) by lia. apply IH.
    destruct (N.eqb_spec (rows p) 0); [|done]. by apply app_eq_nil in Hl as [_ ->].
  - destruct (N.eqb_spec (rows p) 0) as [Hp|Hp].
    + exfalso. apply app_eq_nil in Hl as [Hl _]. cbn in Hl. unfold last_step in Hl. by rewrite E in Hl.
    + rewrite (proj2 (N.eqb_neq _ 0)), N.add_0_l by lia. by apply IH.
Qed.

Lemma drop_rows_newline p t : drop_rows (rows p + 1) (p ++ newline :: t) = t.
Proof.
  change (newline :: t) with ([newline] ++ t). rewrite (assoc_L (++)).
  replace (rows p + 1) with (rows (p ++ [newline])) by (by rewrite rows_app).
  apply drop_rows_app. by rewrite last_line_newline.
Qed.

(** A row is the text between two newlines. *)
Lemma row_split r t : r ≤ rows t → ∃ p rest, t = p ++ row_text t r ++ rest ∧
  rows p = r ∧ last_line p = [] ∧ len p = row_start t r ∧ drop_rows r t = row_text t r ++ rest ∧
  rows (row_text t r) = 0 ∧ (rest = [] ∨ ∃ rest', rest = newline :: rest').
Proof.
  intros Hr. destruct (drop_rows_split r t Hr) as (p & Hp & Hpr & Hl). unfold row_start, row_text.
  set (u := drop_rows r t) in *. clearbody u. subst t.
  assert (∃ rest, u = first_line u ++ rest ∧ (rest = [] ∨ ∃ rest', rest = newline :: rest')) as (rest & Hu & Hrest).
  { destruct (decide (rows u = 0)) as [Hu|Hu].
    - exists []. rewrite first_line_0, app_nil_r by done. auto.
    - destruct (first_newline_split u Hu) as (l & v & -> & _ & ->). exists (newline :: v). eauto. }
  exists p, rest. split_and!; [by rewrite <- Hu|done|done|len|done|apply rows_first_line|done].
Qed.

(** ** Offset to point *)

Lemma slice_offset_to_point_spec t o : len t ≤ MAX_BASE → o ≤ len t →
  slice_offset_to_point (slice_of t) o = point_of (ltake o t).
Proof.
  intros Hl Ho. unfold slice_offset_to_point, point_of, MAX_BASE, BITS in *.
  pose proof (last_start_le (ltake o t)). pose proof (len_last_line_le (ltake o t)).
  assert (len (ltake o t) = o) as Hlen by (rewrite len_ltake; lia).
  rewrite as_u32_small by lia. fold BITS. rewrite mask_ones by (unfold BITS; lia). cbn [slice_of slice_newlines].
  rewrite of_bits_land_ones, count_ones_of_bits, ltake_fmap, newlines_leading by (unfold BITS; lia).
  unfold BITS in *. rewrite (usub32_small 128) by lia. unfold last_start in *.
  rewrite usub_small, as_u32_small by lia. f_equal. lia.
Qed.

Lemma slice_offset_to_offset_utf16_spec t o : o ≤ MAX_BASE →
  slice_offset_to_offset_utf16 (slice_of t) o = offset_utf16 (utf16_len (ltake o t)).
Proof.
  intros Ho. unfold slice_offset_to_offset_utf16, MAX_BASE in *.
  rewrite as_u32_small by (unfold BITS in *; lia). rewrite mask_ones by done. cbn [slice_of slice_chars_utf16].
  by rewrite of_bits_land_ones, count_ones_of_bits, ltake_utf16_flags.
Qed.

Lemma utf8_after_last_start t o : utf8 t → str_is_char_boundary t (last_start (ltake o t)) = true.
Proof.
  intros Ht. destruct (last_start_split (ltake o t)) as (a & Ha & <- & _ & _ & [->|(a' & ->)]); [done|].
  assert (t = a' ++ newline :: (last_line (ltake o t) ++ ldrop o t)) as Heq.
  { rewrite <- (ltake_ldrop o t) at 1. rewrite Ha at 1. by rewrite <- !(assoc_L (++)). }
  rewrite Heq in Ht. apply utf8_newline in Ht as [_ Ht]. rewrite Heq.
  change (newline :: ?l) with ([newline] ++ l). rewrite (assoc_L (++)). by apply boundary_app.
Qed.

Lemma slice_offset_to_point_utf16_spec t o : fits t → o ≤ len t →
  slice_offset_to_point_utf16 (slice_of t) o = point_utf16_of (ltake o t).
Proof.
  intros [Ht Hl] Ho. unfold slice_offset_to_point_utf16, saturating_shl_mask, point_utf16_of, MAX_BASE in *.
  pose proof (last_start_le (ltake o t)). assert (len (ltake o t) = o) as Hlen by (rewrite len_ltake; lia).
  rewrite as_u32_small by (unfold BITS in *; lia). rewrite mask_ones by lia. cbn [slice_of slice_newlines slice_chars_utf16].
  rewrite !of_bits_land_ones, count_ones_of_bits, ltake_fmap, newlines_leading by lia.
  rewrite usub32_small by (unfold BITS in *; lia).
  replace (BITS - (BITS - last_start (ltake o t))) with (last_start (ltake o t)) by lia.
  f_equal. destruct (N.eqb_spec (last_start (ltake o t)) BITS) as [E|E].
  - unfold last_start in *. assert (last_line (ltake o t) = []) as ->; [|done]. apply len_0. unfold BITS in *; lia.
  - rewrite shr_small, of_bits_shiftr, count_ones_of_bits, ldrop_ltake by lia.
    rewrite ldrop_utf16_flags, ltake_utf16_flags, <- ldrop_ltake, ldrop_last_start by auto using utf8_after_last_start.
    done.
Qed.

(** ** Point to offset *)

Lemma row_len_spec p u : len (p ++ u) ≤ BITS →
  (if len p =? MAX_BASE then 0
   else N.min (trailing_zeros BITS (shr BITS (of_bits (is_newline <$> p ++ u)) (len p)))
              (as_u32 (usub (len (p ++ u)) (len p)))) = len (first_line u).
Proof.
  intros Hl. rewrite len_app in *. unfold MAX_BASE. pose proof (len_first_line_le u).
  destruct (N.eqb_spec (len p) BITS); [lia|].
  rewrite shr_small, of_bits_shiftr, ldrop_fmap, ldrop_app_len, newlines_trailing by lia.
  rewrite usub_small, as_u32_small by (unfold BITS in *; lia).
  destruct (N.eqb_spec (rows u) 0); [rewrite first_line_0 by done; lia|lia].
Qed.

Lemma slice_offset_range_for_row_spec t r : len t ≤ MAX_BASE → r ≤ rows t →
  slice_offset_range_for_row (slice_of t) r = (row_start t r, row_start t r + len (row_text t r)).
Proof.
  intros Hl Hr. unfold slice_offset_range_for_row, row_start, row_text. cbn [slice_of slice_newlines slice_text].
  destruct (N.ltb_spec 0 r) as [Hpos|Hz].
  - destruct (nth_set_bit_spec (is_newline <$> t) r) as (l1 & l2 & Heq & Hones & ->); [by rewrite len_fmap|unfold rows in Hr; lia|].
    apply fmap_app_inv in Heq as (p & u' & -> & Hu & ->). symmetry in Hu. apply fmap_cons_inv in Hu as (b & u & Hb & -> & ->).
    symmetry in Hb. apply N.eqb_eq in Hb as ->. fold (rows p) in Hones.
    assert (drop_rows r (p ++ newline :: u) = u) as ->.
    { replace r with (rows p + 1) by lia. apply drop_rows_newline. }
    rewrite len_fmap. change (newline :: u) with ([newline] ++ u) in *. rewrite (assoc_L (++)) in *.
    replace (len p + 1) with (len (p ++ [newline])) by len.
    rewrite row_len_spec by done. f_equal; [|f_equal]; len.
  - replace r with 0 by lia. rewrite drop_rows_0, N.sub_diag, !N.add_0_l.
    pose proof (row_len_spec [] t Hl) as Hrow. rewrite len_nil in Hrow. cbn [app] in Hrow. by rewrite Hrow.
Qed.

Lemma row_start_le t r : row_start t r ≤ len t.
Proof. unfold row_start. lia. Qed.

Lemma slice_point_to_offset_spec t p : len t ≤ MAX_BASE →
  slice_point_to_offset (slice_of t) p = offset_of_point t p.
Proof.
  intros Hl. unfold slice_point_to_offset, offset_of_point. rewrite slice_lines_spec by done.
  cbn [point_of row]. destruct (N.ltb_spec (rows t) (row p)); [done|].
  rewrite slice_offset_range_for_row_spec by done.
  destruct (row_split (row p) t) as (q & rest & Heq & _ & _ & Hs & _); [done|].
  assert (len t = row_start t (row p) + len (row_text t (row p)) + len rest).
  { rewrite Heq at 1. rewrite <- Hs. len. }
  rewrite as_u32_small by (unfold MAX_BASE, BITS in *; lia).
  destruct (N.ltb_spec (row_start t (row p) + len (row_text t (row p)) - row_start t (row p)) (column p)); lia.
Qed.

Lemma offset_of_point_le t p : offset_of_point t p ≤ len t.
Proof.
  unfold offset_of_point. destruct (N.ltb_spec (rows t) (row p)); [done|].
  destruct (row_split (row p) t) as (q & rest & Heq & _ & _ & Hs & _); [done|].
  assert (len t = row_start t (row p) + len (row_text t (row p)) + len rest); [|lia].
  rewrite Heq at 1. rewrite <- Hs. len.
Qed.

(** Converting an offset to a point and back. *)
Lemma offset_of_point_of t o : o ≤ len t → offset_of_point t (point_of (ltake o t)) = o.
Proof.
  intros Ho. destruct (split_at_len o t Ho) as (a & b & -> & <-). rewrite ltake_app_len.
  unfold offset_of_point, point_of. cbn [row column]. rewrite rows_app, (proj2 (N.ltb_ge _ _)) by lia.
  destruct (last_start_split a) as (p & Ha & Hp & _). unfold row_start, row_text.
  assert (Hd : drop_rows (rows a) (a ++ b) = last_line a ++ b).
  { assert (rows a = rows p) as -> by (rewrite Ha, rows_app, rows_last_line; lia).
    rewrite Ha at 1. rewrite <- (assoc_L (++)). apply drop_rows_app.
    destruct (last_start_split a) as (p' & Ha' & Hp' & _ & _ & [->|(p'' & ->)]).
    - rewrite len_nil in Hp'. rewrite <- Hp' in Hp. by apply len_0 in Hp as ->.
    - assert (p = p'' ++ [newline]) as ->.
      { apply (f_equal (ltake (last_start a))) in Ha, Ha'. rewrite <- Hp, ltake_app_len in Ha.
        rewrite <- Hp', ltake_app_len in Ha'. rewrite Hp in Ha. rewrite Hp' in Ha'. congruence. }
      by rewrite last_line_newline. }
  rewrite Hd, first_line_app, rows_last_line. cbn. rewrite !len_app. unfold last_start in Hp.
  pose proof (len_last_line_le a). lia.
Qed.

(** ** UTF-16 offset to offset *)

Lemma bits_split (l : list bool) :
  ((true ∉ l) ∧ ones l = 0) ∨ ∃ k l', l = replicate k false ++ true :: l'.
Proof.
  induction l as [|[] l [[H1 H2]|(k & l' & ->)]].
  - left. split; [apply not_elem_of_nil|done].
  - right. by exists 0%nat, l.
  - right. by exists 0%nat, (replicate k false ++ true :: l').
  - left. rewrite elem_of_cons. split; [naive_solver|done].
  - right. by exists (S k), l'.
Qed.

(** The position of the [u]-th unit's successor: a flag or the end, after [u] flags. *)
Definition at_unit (fl : list bool) (u o : N) : Prop :=
  o ≤ len fl ∧ ones (ltake o fl) = u ∧ (o = len fl ∨ lget fl o = Some true).

Lemma at_unit_unique fl u o o' : at_unit fl u o → at_unit fl u o' → o = o'.
Proof.
  assert (∀ o o', at_unit fl u o → at_unit fl u o' → ¬ o < o') as H.
  { intros p p' (Hp & Hu & Hf) (Hp' & Hu' & _) Hlt. destruct Hf as [->|Hf]; [lia|].
    apply lget_Some in Hf as (l1 & l2 & -> & <-). rewrite ltake_app_len in Hu.
    rewrite ltake_app_r, ltake_cons, ones_app in Hu' by lia. cbn [ones] in Hu'. cbn in Hu'. lia. }
  intros H1 H2. pose proof (H _ _ H1 H2). pose proof (H _ _ H2 H1). lia.
Qed.

Lemma slice_offset_utf16_at_unit t u : fits t → u ≤ utf16_len t →
  at_unit (utf16_flags false t) u (slice_offset_utf16_to_offset (slice_of t) (offset_utf16 u)).
Proof.
  intros [Ht Hl] Hu. unfold slice_offset_utf16_to_offset. cbn [units slice_of slice_chars_utf16 slice_text].
  unfold MAX_BASE in *. destruct (N.eqb_spec u 0) as [->|Hu0].
  - split_and!; [lia|done|]. destruct t as [|b t]; [by left|right].
    cbn [utf16_flags]. by rewrite (utf8_head _ _ Ht).
  - pose proof (len_utf16_flags false t) as Hfl.
    destruct (nth_set_bit_spec (utf16_flags false t) u) as (l1 & l2 & Heq & Hones & ->); [by rewrite Hfl|unfold utf16_len in Hu; lia|].
    rewrite Heq in *. rewrite len_app, len_cons in Hfl.
    assert (∀ l3 l4, l2 = l3 ++ l4 → ones (ltake (len l1 + 1 + len l3) (l1 ++ true :: l2)) = u + ones l3) as Htake.
    { intros l3 l4 ->. rewrite ltake_app_r, ltake_cons by lia.
      replace (len l1 + 1 + len l3 - len l1 - 1) with (len l3) by lia. rewrite ltake_app_len, ones_app.
      cbn [ones N.b2n]. lia. }
    unfold at_unit. rewrite len_app, len_cons. destruct (N.eqb_spec (len l1 + 1) BITS) as [E|E].
    + assert (l2 = []) as -> by (apply len_0; lia). rewrite len_nil in *.
      pose proof (Htake [] [] eq_refl) as Hn. rewrite len_nil, N.add_0_r in Hn. rewrite <- E, Hn.
      cbn [ones]. split_and!; [lia|lia|left; lia].
    + assert (ldrop (len l1 + 1) (l1 ++ true :: l2) = l2) as Hd.
      { rewrite ldrop_app_r by lia. by replace (len l1 + 1 - len l1) with 1 by lia. }
      rewrite shr_small, of_bits_shiftr, Hd by lia.
      rewrite usub_small by (unfold BITS in *; lia).
      destruct (bits_split l2) as [[Hno H0]|(k & l3 & ->)].
      * rewrite trailing_zeros_0, N.min_r by (done || lia). specialize (Htake l2 []). rewrite app_nil_r in Htake.
        replace (len l1 + 1 + (len t - (len l1 + 1))) with (len l1 + 1 + len l2) by lia.
        rewrite Htake by done. split_and!; [lia|lia|left; lia].
      * rewrite trailing_zeros_of_bits. rewrite len_app, len_cons, len_replicate in *. rewrite N.min_l by lia.
        specialize (Htake (replicate k false) (true :: l3) eq_refl). rewrite len_replicate, ones_replicate in Htake.
        rewrite Htake. split_and!; [lia|lia|right]. change (true :: replicate k false ++ true :: l3) with ((true :: replicate k false) ++ true :: l3).
        rewrite lget_app_r, lget_app_r by (rewrite ?len_cons, ?len_replicate; lia).
        rewrite len_cons, len_replicate. replace (_ - _ - _) with 0 by lia. done.
Qed.

(** A number of units ends between two characters, or within one of two units. *)
Lemma utf16_split t u : utf8 t → u ≤ utf16_len t →
  (∃ a b, t = a ++ b ∧ utf8 a ∧ utf8 b ∧ utf16_len a = u) ∨
  (∃ a c b, t = a ++ encode c ++ b ∧ utf8 a ∧ utf8 b ∧ is_scalar c = true ∧ len_utf16 c = 2 ∧ u = utf16_len a + 1).
Proof.
  intros Ht. revert t Ht u. refine (utf8_ind _ _ _).
  - intros u Hu. left. exists [], []. split_and!; [done|apply utf8_nil..|]. change (utf16_len []) with 0 in *. lia.
  - intros c t Hc Ht IH u Hu. rewrite utf16_len_app in Hu by by apply utf8_encode.
    destruct (encode_measure c Hc) as (_ & H16 & _). rewrite H16 in Hu.
    destruct (decide (u = 0)) as [->|Hu0].
    { left. exists [], (encode c ++ t). split_and!; [done|apply utf8_nil| |done]. by apply utf8_app; [apply utf8_encode|]. }
    assert (1 ≤ len_utf16 c ≤ 2) as Hlen by (unfold len_utf16; case_match; lia).
    destruct (decide (u < len_utf16 c)).
    { right. exists [], c, t. change (utf16_len []) with 0. split_and!; [done|apply utf8_nil|done|done|lia|lia]. }
    destruct (IH (u - len_utf16 c)) as [(a & b & -> & Ha & Hb & Hua)|(a & c' & b & -> & Ha & Hb & Hc' & Hc2 & Hua)]; [lia|left|right].
    + exists (encode c ++ a), b. rewrite (assoc_L (++)), utf16_len_app, H16 by by apply utf8_encode.
      split_and!; [done|by apply utf8_app; [apply utf8_encode|]|done|lia].
    + exists (encode c ++ a), c', b. rewrite (assoc_L (++)), utf16_len_app, H16 by by apply utf8_encode.
      split_and!; [done|by apply utf8_app; [apply utf8_encode|]|done|done|done|lia].
Qed.

Lemma at_unit_boundary a b : utf8 a → utf8 b → at_unit (utf16_flags false (a ++ b)) (utf16_len a) (len a).
Proof.
  intros Ha Hb. unfold at_unit. rewrite len_utf16_flags, len_app, ltake_utf16_flags, ltake_app_len.
  split_and!; [lia|done|]. destruct b as [|x b]; [left; rewrite len_nil; lia|right].
  rewrite utf16_flags_utf8_app, lget_app_r by (rewrite ?len_utf16_flags; done || lia).
  rewrite len_utf16_flags, N.sub_diag. cbn [utf16_flags]. by rewrite (utf8_head _ _ Hb).
Qed.

Lemma at_unit_middle a c b : utf8 a → is_scalar c = true → len_utf16 c = 2 →
  at_unit (utf16_flags false (a ++ encode c ++ b)) (utf16_len a + 1) (len a + 1) ∧
  len (encode c) = 4.
Proof.
  intros Ha Hc%scalar_lt H2. pose proof (len_encode c Hc) as Hlen.
  assert (len (encode c) = 4) as H4.
  { rewrite Hlen. unfold len_utf8, len_utf16 in *. repeat case_match; try lia;
      repeat match goal with H : (_ <? _) = _ |- _ => first [apply N.ltb_lt in H|apply N.ltb_ge in H] end; lia. }
  split; [|done]. destruct (encode_shape c Hc) as (x & r & Hr & _ & Hx & Hcont & _ & H240 & Hne & _).
  rewrite Hr in *. destruct H240 as [_ H240]. specialize (H240 H2). specialize (Hne H240).
  destruct r as [|y r]; [done|]. unfold at_unit.
  rewrite utf16_flags_utf8_app by done. rewrite ltake_app_r, lget_app_r by (rewrite len_utf16_flags; lia).
  rewrite len_utf16_flags, len_app, !len_utf16_flags. cbn [app utf16_flags].
  replace (len a + 1 - len a) with 1 by lia. rewrite (proj2 (N.leb_le 240 x)), Hx, orb_true_r by done.
  rewrite !len_cons. split_and!; [lia| |by right]. rewrite ones_app. done.
Qed.

(** *** Rounding to whole characters *)

Lemma slice_offset_utf16_boundary a b : fits (a ++ b) → utf8 a → utf8 b →
  slice_offset_utf16_to_offset (slice_of (a ++ b)) (offset_utf16 (utf16_len a)) = len a.
Proof.
  intros Hf Ha Hb. eapply at_unit_unique; [|by apply at_unit_boundary].
  apply slice_offset_utf16_at_unit; [done|]. rewrite utf16_len_app by done. lia.
Qed.

Lemma slice_offset_utf16_middle a c b : fits (a ++ encode c ++ b) → utf8 a → is_scalar c = true → len_utf16 c = 2 →
  slice_offset_utf16_to_offset (slice_of (a ++ encode c ++ b)) (offset_utf16 (utf16_len a + 1)) = len a + 1.
Proof.
  intros Hf Ha Hc H2. eapply at_unit_unique; [|by apply at_unit_middle].
  apply slice_offset_utf16_at_unit; [done|]. rewrite !utf16_len_app by (done || by apply utf8_encode).
  destruct (encode_measure c Hc) as (_ & -> & _). lia.
Qed.

Lemma boundary_below_unique t n j :
  j ≤ N.of_nat n → str_is_char_boundary t j = true →
  (∀ k, j < k ≤ N.of_nat n → str_is_char_boundary t k = false) → boundary_below t n = j.
Proof.
  intros Hj Hb Hk. destruct (boundary_below_spec t n) as (H1 & H2 & H3).
  destruct (decide (boundary_below t n < j)); [by rewrite (H3 j) in Hb by lia|].
  destruct (decide (j < boundary_below t n)); [|lia]. by rewrite Hk in H2 by lia.
Qed.

Lemma boundary_above_unique t fuel i j : len t ≤ i + N.of_nat fuel → i ≤ j → j ≤ len t →
  str_is_char_boundary t j = true → (∀ k, i ≤ k < j → str_is_char_boundary t k = false) →
  boundary_above t fuel i = j.
Proof.
  intros Hf Hi Hj Hb Hk. destruct (boundary_above_spec t fuel i) as (H1 & H2 & H3); [lia|lia|].
  destruct (decide (boundary_above t fuel i < j)); [by rewrite Hk in H2 by lia|].
  destruct (decide (j < boundary_above t fuel i)); [|lia]. by rewrite (H3 j) in Hb by lia.
Qed.

(** No boundary within a character. *)
Lemma boundary_inside a c b k : utf8 b → is_scalar c = true → 0 < k < len (encode c) →
  str_is_char_boundary (a ++ encode c ++ b) (len a + k) = false.
Proof.
  intros Hb Hc Hk. rewrite boundary_app_r by by apply utf8_app; [apply utf8_encode|].
  rewrite boundary_app_l by (done || lia). apply scalar_lt in Hc.
  destruct (encode_shape c Hc) as (x & r & Hr & _ & _ & Hcont & _). rewrite Hr in *. rewrite len_cons in Hk.
  unfold str_is_char_boundary. rewrite (proj2 (N.eqb_neq k 0)) by lia. cbn [orb].
  change (x :: r) with ([x] ++ r). rewrite lget_app_r by (change (len [x]) with 1; lia). change (len [x]) with 1.
  destruct (lget_lt r (k - 1)) as [y Hy]; [lia|]. rewrite Hy. apply cont_boundary.
  eapply Forall_lookup_1; [exact Hcont|exact Hy].
Qed.

Lemma chars_app_encode c t : is_scalar c = true → chars (encode c ++ t) = c :: chars t.
Proof. intros. by apply chars_encode, scalar_lt. Qed.

Lemma offset_of_utf16_0 t : offset_of_utf16 t 0 = 0.
Proof.
  unfold offset_of_utf16. destruct (chars t) as [|c cs]; [done|]. cbn [utf16_prefix].
  rewrite (proj2 (N.leb_gt _ 0)); [done|]. unfold len_utf16. case_match; lia.
Qed.

Lemma offset_of_utf16_app a b v : utf8 a →
  offset_of_utf16 (a ++ b) (utf16_len a + v) = len a + offset_of_utf16 b v.
Proof.
  intros Ha. revert a Ha. refine (utf8_ind _ _ _); [done|]. intros c a Hc Ha IH.
  rewrite utf16_len_app by by apply utf8_encode. destruct (encode_measure c Hc) as (_ & -> & _).
  rewrite <- (assoc_L (++)). unfold offset_of_utf16 at 1. rewrite chars_app_encode by done. cbn [utf16_prefix].
  rewrite (proj2 (N.leb_le _ _)) by lia.
  replace (len_utf16 c + utf16_len a + v - len_utf16 c) with (utf16_len a + v) by lia.
  fold (offset_of_utf16 (a ++ b) (utf16_len a + v)). rewrite IH, len_app, len_encode by by apply scalar_lt. lia.
Qed.

Lemma offset_of_utf16_ge t u : utf8 t → utf16_len t ≤ u → offset_of_utf16 t u = len t.
Proof.
  intros Ht Hu. replace u with (utf16_len t + (u - utf16_len t)) by lia.
  rewrite <- (app_nil_r t) at 1. rewrite offset_of_utf16_app by done. unfold offset_of_utf16. cbn. lia.
Qed.

Lemma offset_of_utf16_middle a c b : utf8 a → is_scalar c = true → len_utf16 c = 2 →
  offset_of_utf16 (a ++ encode c ++ b) (utf16_len a + 1) = len a.
Proof.
  intros Ha Hc H2. rewrite offset_of_utf16_app by done. unfold offset_of_utf16.
  rewrite chars_app_encode by done. cbn [utf16_prefix]. rewrite H2. cbn. lia.
Qed.

Lemma boundary_below_utf16 pre t post u : utf8 post → fits t → u ≤ utf16_len t →
  boundary_below (pre ++ t ++ post)
    (N.to_nat (len pre + slice_offset_utf16_to_offset (slice_of t) (offset_utf16 u))) = len pre + offset_of_utf16 t u.
Proof.
  intros Hpost Ht Hu.
  destruct (utf16_split t u (proj1 Ht) Hu) as [(a & b & -> & Ha & Hb & <-)|(a & c & b & -> & Ha & Hb & Hc & H2 & ->)].
  - rewrite slice_offset_utf16_boundary by done. rewrite <- (N.add_0_r (utf16_len a)), offset_of_utf16_app, offset_of_utf16_0 by done.
    apply boundary_below_unique; [lia| |lia].
    rewrite <- (assoc_L (++) a), (assoc_L (++) pre). replace (len pre + (len a + 0)) with (len (pre ++ a)) by len.
    apply boundary_app. by apply utf8_app.
  - rewrite slice_offset_utf16_middle, offset_of_utf16_middle by done.
    pose proof (at_unit_middle a c b Ha Hc H2) as [_ H4].
    rewrite <- !(assoc_L (++)), (assoc_L (++) pre). replace (len pre + len a) with (len (pre ++ a)) by len.
    replace (len pre + (len a + 1)) with (len (pre ++ a) + 1) by len. apply boundary_below_unique; [lia| |].
    + apply boundary_app. repeat apply utf8_app; auto using utf8_encode.
    + intros k Hk. replace k with (len (pre ++ a) + 1) by lia. apply boundary_inside; [by apply utf8_app|done|lia].
Qed.

(** The rows of a string are strings. *)
Lemma utf8_rows t r : utf8 t → r ≤ rows t → ∃ q rest,
  t = q ++ row_text t r ++ rest ∧ len q = row_start t r ∧ rows q = r ∧ last_line q = [] ∧
  rows (row_text t r) = 0 ∧ utf8 q ∧ utf8 (row_text t r) ∧ utf8 rest ∧ drop_rows r t = row_text t r ++ rest ∧
  (rest = [] ∨ ∃ rest', rest = newline :: rest').
Proof.
  intros Ht Hr. destruct (row_split r t Hr) as (q & rest & Heq & Hq & Hl & Hlen & Hd & Hrow & Hrest).
  assert (str_is_char_boundary t (len q) = true) as Hb.
  { replace (len q) with (last_start (ltake (len q) t)); [by apply utf8_after_last_start|].
    rewrite Heq, ltake_app_len. unfold last_start. rewrite Hl, len_nil. lia. }
  pose proof (utf8_ltake _ _ Ht Hb) as Hq8. pose proof (utf8_ldrop _ _ Ht Hb) as Hd8.
  rewrite Heq, ltake_app_len in Hq8. rewrite Heq, ldrop_app_len in Hd8.
  assert (utf8 (row_text t r)) as Hrow8 by (unfold row_text; apply utf8_first_line; by rewrite Hd).
  exists q, rest. split_and!; try done. by apply utf8_app_inv in Hd8.
Qed.

Lemma slice_row t r : fits t → r ≤ rows t →
  slice_slice (slice_of t) (row_start t r) (row_start t r + len (row_text t r)) = Some (slice_of (row_text t r)) ∧
  fits (row_text t r).
Proof.
  intros [Ht Hl] Hr. destruct (utf8_rows t r Ht Hr) as (q & rest & Heq & Hq & _ & _ & _ & Hq8 & Hrow8 & Hrest8 & _).
  set (l := row_text t r) in *. clearbody l. rewrite <- Hq. subst t. split.
  - rewrite slice_slice_spec; [|done|lia|apply boundary_app; by apply utf8_app|].
    + rewrite ldrop_app_len. replace (len q + len l - len q) with (len l) by lia. by rewrite ltake_app_len.
    + rewrite (assoc_L (++)). replace (len q + len l) with (len (q ++ l)) by len. by apply boundary_app.
  - split; [done|]. rewrite !len_app in Hl. lia.
Qed.

Lemma slice_point_utf16_to_offset_spec t p : fits t →
  slice_point_utf16_to_offset (slice_of t) p = Some (offset_of_point_utf16 t p).
Proof.
  intros Ht. unfold slice_point_utf16_to_offset, offset_of_point_utf16. pose proof Ht as [Ht8 Hl].
  rewrite slice_lines_spec by done. cbn [point_of row]. destruct (N.ltb_spec (rows t) (row16 p)) as [|Hr]; [done|].
  rewrite slice_offset_range_for_row_spec by done. destruct (slice_row t (row16 p) Ht Hr) as [-> Hfr].
  cbn [mbind option_bind]. destruct (utf8_rows t (row16 p) Ht8 Hr) as (q & rest & Heq & Hq & _ & _ & Hrow & _ & Hrow8 & Hrest8 & _).
  rewrite slice_last_line_len_utf16_spec, last_line_0 by done.
  destruct (N.ltb_spec (utf16_len (row_text t (row16 p))) (column16 p)).
  { by rewrite offset_of_utf16_ge by (done || lia). }
  destruct (N.ltb_spec 0 (column16 p)) as [Hc|Hc].
  - f_equal. cbn [slice_of slice_text]. rewrite <- Hq. rewrite Heq at 1. by apply boundary_below_utf16.
  - replace (column16 p) with 0 by lia. by rewrite offset_of_utf16_0, N.add_0_r.
Qed.

Lemma slice_unclipped_point_utf16_to_point_spec t p : fits t →
  slice_unclipped_point_utf16_to_point (slice_of t) (unclipped p) =
  Some (if rows t <? row16 p then point_of t else point (row16 p) (offset_of_utf16 (row_text t (row16 p)) (column16 p))).
Proof.
  intros Ht. unfold slice_unclipped_point_utf16_to_point. pose proof Ht as [Ht8 Hl]. cbn [unclip].
  rewrite slice_lines_spec by done. cbn [point_of row]. destruct (N.ltb_spec (rows t) (row16 p)) as [|Hr]; [done|].
  rewrite slice_offset_range_for_row_spec by done. destruct (slice_row t (row16 p) Ht Hr) as [-> Hfr].
  cbn [mbind option_bind]. set (l := row_text t (row16 p)) in *. pose proof (utf16_len_le l).
  assert (len l ≤ 128) by (destruct Hfr as [_ H']; exact H').
  destruct (N.eqb_spec (column16 p) 0) as [->|Hc]; [by rewrite offset_of_utf16_0|].
  rewrite slice_len_utf16_spec. cbn [units]. rewrite as_u32_small by lia.
  unfold slice_len. cbn [slice_of slice_text]. destruct (N.leb_spec (utf16_len l) (column16 p)).
  - by rewrite offset_of_utf16_ge, as_u32_small by (lia || apply Hfr).
  - pose proof (boundary_below_utf16 [] l [] (column16 p) utf8_nil Hfr ltac:(lia)) as Hb.
    rewrite app_nil_r, len_nil, !N.add_0_l in Hb. cbn [app] in Hb. fold (slice_of l). rewrite Hb.
    do 2 f_equal. apply as_u32_small. pose proof (boundary_below_spec l (N.to_nat (slice_offset_utf16_to_offset (slice_of l) (offset_utf16 (column16 p))))) as (_ & Hbd & _).
    rewrite Hb in Hbd. apply boundary_le in Hbd. lia.
Qed.

(** ** Clipping *)

(** [u] units end between two characters. *)
Definition at_char (t : str) (u : N) : Prop :=
  ∃ a b, t = a ++ b ∧ utf8 a ∧ utf8 b ∧ utf16_len a = u.

(** What clipping a number of units has to return. *)
Definition clipped_utf16 (t : str) (u : N) (bias : Bias) (r : N) : Prop :=
  if utf16_len t <? u then r = utf16_len t
  else at_char t r ∧ (at_char t u → r = u) ∧
       match bias with Left => r ≤ u ≤ r + 1 | Right => u ≤ r ≤ u + 1 end.

Lemma at_char_not_middle a c b : utf8 a → is_scalar c = true → len_utf16 c = 2 → utf8 b →
  ¬ at_char (a ++ encode c ++ b) (utf16_len a + 1).
Proof.
  intros Ha Hc H2 Hb (x & y & Heq & Hx & Hy & Hu).
  destruct (at_unit_middle a c b Ha Hc H2) as [H1 H4]. rewrite <- Hu in H1.
  pose proof (at_unit_boundary x y Hx Hy) as H3. rewrite <- Heq in H3.
  pose proof (at_unit_unique _ _ _ _ H1 H3) as Hlen.
  assert (str_is_char_boundary (a ++ encode c ++ b) (len a + 1) = true) as Hbd.
  { rewrite Hlen, Heq. by apply boundary_app. }
  rewrite boundary_inside in Hbd by (done || lia). done.
Qed.

Lemma slice_clip_offset_utf16_spec t u bias : fits t →
  clipped_utf16 t u bias (units (slice_clip_offset_utf16 (slice_of t) (offset_utf16 u) bias)).
Proof.
  intros Ht. pose proof Ht as [Ht8 Hl]. unfold slice_clip_offset_utf16, clipped_utf16. rewrite slice_len_utf16_spec.
  unfold leb_ord, cmp, ord_offset_utf16. cbn [units].
  assert (Hend : at_char t (utf16_len t)) by (exists t, []; rewrite app_nil_r; split_and!; auto using utf8_nil).
  destruct (N.eqb_spec u 0) as [->|Hu].
  { cbn [units]. rewrite (proj2 (N.ltb_ge _ 0)) by lia. split; [exists [], t; split_and!; auto using utf8_nil|].
    split; [done|]. destruct bias; lia. }
  destruct (N.compare_spec (utf16_len t) u) as [<-|Hlt|Hgt]; cbn [units].
  - rewrite N.ltb_irrefl. split; [done|]. split; [done|]. destruct bias; lia.
  - by rewrite (proj2 (N.ltb_lt _ _)).
  - rewrite (proj2 (N.ltb_ge _ _)) by lia. cbn [slice_of slice_text].
    destruct (utf16_split t u Ht8 ltac:(lia)) as [(a & b & -> & Ha & Hb & <-)|(a & c & b & -> & Ha & Hb & Hc & H2 & ->)].
    + fold (slice_of (a ++ b)). rewrite slice_offset_utf16_boundary by done. rewrite len_app in *.
      assert (Hbd : str_is_char_boundary (a ++ b) (len a) = true) by by apply boundary_app.
      assert ((match bias with Left => boundary_below (a ++ b) (N.to_nat (len a))
               | Right => boundary_above (a ++ b) (N.to_nat (len a + len b - len a)) (len a) end) = len a) as ->.
      { destruct bias; [apply boundary_below_unique|apply boundary_above_unique]; rewrite ?len_app; (done || lia). }
      rewrite slice_offset_to_offset_utf16_spec, ltake_app_len by lia. cbn [units].
      split; [by exists a, b|]. split; [done|]. destruct bias; lia.
    + destruct (at_unit_middle a c b Ha Hc H2) as [_ H4]. fold (slice_of (a ++ encode c ++ b)).
      rewrite slice_offset_utf16_middle by done. rewrite !len_app in *.
      destruct (encode_measure c Hc) as (_ & Hu16 & _).
      assert (Hbl : str_is_char_boundary (a ++ encode c ++ b) (len a) = true).
      { apply boundary_app. by apply utf8_app; [apply utf8_encode|]. }
      assert (Hbr : str_is_char_boundary (a ++ encode c ++ b) (len a + 4) = true).
      { rewrite (assoc_L (++)). replace (len a + 4) with (len (a ++ encode c)) by len. by apply boundary_app. }
      assert (Hin : ∀ k, len a < k < len a + 4 → str_is_char_boundary (a ++ encode c ++ b) k = false).
      { intros k Hk. replace k with (len a + (k - len a)) by lia. apply boundary_inside; [done|done|lia]. }
      destruct bias.
      * rewrite (boundary_below_unique _ _ (len a)) by (done || lia || (intros; apply Hin; lia)).
        rewrite slice_offset_to_offset_utf16_spec, ltake_app_len by lia. cbn [units].
        split; [by exists a, (encode c ++ b); split_and!; auto using utf8_app, utf8_encode|].
        split; [by intros ?%at_char_not_middle|lia].
      * rewrite (boundary_above_unique _ _ _ (len a + 4)) by (rewrite ?len_app; done || lia || (intros; apply Hin; lia)).
        assert (ltake (len a + 4) (a ++ encode c ++ b) = a ++ encode c) as Htk.
        { rewrite (assoc_L (++)). replace (len a + 4) with (len (a ++ encode c)) by len. apply ltake_app_len. }
        rewrite slice_offset_to_offset_utf16_spec, Htk, utf16_len_app, Hu16, H2 by (done || lia). cbn [units].
        split; [exists (a ++ encode c), b; split_and!; auto using utf8_app, utf8_encode; [by rewrite (assoc_L (++))|]|].
        { by rewrite utf16_len_app, Hu16, H2. }
        split; [by intros ?%at_char_not_middle|lia].
Qed.

Section grapheme.
Context (gb : str → N → bool).

(** Documented of grapheme clusters: the ends of a text are boundaries. *)
Context (gb_start : ∀ t, gb t 0 = true) (gb_end : ∀ t, gb t (len t) = true).

Lemma clip_loop_left fuel t c : fits t → c ≤ len t → c ≤ N.of_nat fuel →
  ∃ c', clip_loop gb fuel (slice_of t) Left c = Some c' ∧ c' ≤ c ∧
    str_is_char_boundary t c' = true ∧ gb t c' = true ∧
    ∀ k, c' < k ≤ c → str_is_char_boundary t k && gb t k = false.
Proof.
  intros Ht. revert c. induction fuel as [|fuel IH]; intros c Hc Hf; cbn [clip_loop];
    rewrite slice_boundary_spec by (done || destruct Ht as [_ H']; unfold MAX_BASE, BITS in H'; lia);
    cbn [slice_of slice_text].
  - replace c with 0 by lia. rewrite boundary_0, gb_start. cbn [andb]. exists 0. split_and!; [done|lia|done|apply gb_start|lia].
  - destruct (str_is_char_boundary t c && gb t c) eqn:E.
    { apply andb_prop in E as [??]. exists c. split_and!; [done|lia|done|done|lia]. }
    assert (c ≠ 0) by (intros ->; by rewrite boundary_0, gb_start in E).
    rewrite usub_small by (destruct Ht as [_ H']; unfold MAX_BASE, BITS in H'; lia).
    destruct (IH (c - 1)) as (c' & -> & ? & ? & ? & Hk); [lia|lia|]. exists c'. split_and!; [done|lia|done|done|].
    intros k Hk'. destruct (decide (k = c)) as [->|]; [done|]. apply Hk. lia.
Qed.

Lemma clip_loop_right fuel t c : fits t → c ≤ len t → len t ≤ c + N.of_nat fuel →
  ∃ c', clip_loop gb fuel (slice_of t) Right c = Some c' ∧ c ≤ c' ≤ len t ∧
    str_is_char_boundary t c' = true ∧ gb t c' = true ∧
    ∀ k, c ≤ k < c' → str_is_char_boundary t k && gb t k = false.
Proof.
  intros Ht. revert c. induction fuel as [|fuel IH]; intros c Hc Hf; cbn [clip_loop];
    rewrite slice_boundary_spec by (done || destruct Ht as [_ H']; unfold MAX_BASE, BITS in H'; lia);
    cbn [slice_of slice_text].
  - replace c with (len t) by lia. rewrite boundary_len, gb_end. cbn [andb]. exists (len t). split_and!; [done|lia|lia|apply boundary_len|apply gb_end|lia].
  - destruct (str_is_char_boundary t c && gb t c) eqn:E.
    { apply andb_prop in E as [??]. exists c. split_and!; [done|lia|lia|done|done|lia]. }
    assert (c ≠ len t) by (intros ->; by rewrite boundary_len, gb_end in E).
    destruct (IH (c + 1)) as (c' & -> & ? & ? & ? & Hk); [lia|lia|]. exists c'. split_and!; [done|lia|lia|done|done|].
    intros k Hk'. destruct (decide (k = c)) as [->|]; [done|]. apply Hk. lia.
Qed.
End grapheme.
