(* ===== verification/Rope.v ===== *)
(** * Rope: text as a tree of chunks

    Models [crates/rope/src/rope.rs] outside its iterators: a rope is a [SumTree] of
    [Chunk]s.  Here are pushing, appending, replacing and slicing, the conversions
    between byte offsets, points and UTF-16 positions, clipping, the cursor, and the
    trait [TextDimension] as a class.  [None] is a panic, including a cursor whose stack
    of 16 entries overflows. *)

From S2P Require Import Prelude Bits Utf8 SumTree Cursor TextSummary Chunk.

Abbreviation Rope := (SumTree Chunk ChunkSummary).

Definition rope_new : Rope := tree_new.

(** [seek_key] on one of the dimensions of a rope. *)
Definition at_offset (offset : N) : SeekTarget N := seek_key offset.

(** ** Summaries *)

Definition rope_summary (r : Rope) : TextSummary := cs_text (tree_summary r).
Definition rope_len (r : Rope) : N := extent r.
Definition rope_is_empty (r : Rope) : bool := rope_len r =? 0.
Definition rope_max_point (r : Rope) : Point := extent r.
Definition rope_max_point_utf16 (r : Rope) : PointUtf16 := extent r.

(** ** Boundaries *)

Definition rope_is_char_boundary (r : Rope) (offset : N) : bool :=
  if is_empty r then offset =? 0
  else
    let '(start, _, item) := find r (at_offset offset) Left in
    let chunk_offset := usub offset start in
    match item with Some chunk => chunk_is_char_boundary chunk chunk_offset | None => false end.

Definition rope_floor_char_boundary (r : Rope) (index : N) : N :=
  if rope_len r <=? index then rope_len r
  else
    let '(start, _, item) := find r (at_offset index) Left in
    let chunk_offset := usub index start in
    match item with
    | Some chunk => start + str_floor_char_boundary (chunk_text chunk) chunk_offset
    | None => rope_len r
    end.

Definition rope_ceil_char_boundary (r : Rope) (index : N) : N :=
  if rope_len r <? index then rope_len r
  else
    let '(start, _, item) := find r (at_offset index) Left in
    let chunk_offset := usub index start in
    match item with
    | Some chunk => start + str_ceil_char_boundary (chunk_text chunk) chunk_offset
    | None => rope_len r
    end.

(** ** Pushing *)

(** [while !chunk.is_char_boundary(split_ix) { split_ix += 1 }]. *)
Fixpoint slice_boundary_above (s : ChunkSlice) (fuel : nat) (i : N) : N :=
  match fuel with
  | O => i
  | S fuel => if slice_is_char_boundary s i then i else slice_boundary_above s fuel (i + 1)
  end.

(** The closure of [push_chunk] leaves the remainder in [chunk]. *)
Definition push_chunk_closure (chunk : ChunkSlice) (last_chunk : Chunk) : option (Chunk * ChunkSlice) :=
  let split_ix :=
    if len (chunk_text last_chunk) + slice_len chunk <=? MAX_BASE then slice_len chunk
    else
      let split_ix := N.min (MIN_BASE - len (chunk_text last_chunk)) (slice_len chunk) in
      slice_boundary_above chunk (length (slice_text chunk)) split_ix in
  '(suffix, remainder) ← slice_split_at chunk split_ix;
  last_chunk ← chunk_append last_chunk suffix;
  Some (last_chunk, remainder).

Definition rope_push_chunk (r : Rope) (chunk : ChunkSlice) : option Rope :=
  '(r, remainder) ← update_last (push_chunk_closure chunk) r;
  let chunk := default chunk remainder in
  if slice_is_empty chunk then Some r
  else chunk ← slice_into chunk; push r chunk.

(** The closure of [push] leaves the remainder in [text]. *)
Definition push_closure (text : str) (last_chunk : Chunk) : option (Chunk * str) :=
  let split_ix :=
    if len (chunk_text last_chunk) + len text <=? MAX_BASE then len text
    else
      let split_ix := N.min (MIN_BASE - len (chunk_text last_chunk)) (len text) in
      boundary_above text (length text) split_ix in
  '(suffix, remainder) ← str_split_at text split_ix;
  last_chunk ← chunk_push_str last_chunk suffix;
  Some (last_chunk, remainder).

(** [while !text.is_empty()]: pieces of at most [MAX_BASE] bytes. *)
Fixpoint split_pieces (fuel : nat) (text : str) : option (list str) :=
  match text, fuel with
  | [], _ => Some []
  | _ :: _, O => None
  | _ :: _, S fuel =>
      let split_ix := boundary_below text (N.to_nat (N.min MAX_BASE (len text))) in
      '(piece, text) ← str_split_at text split_ix;
      pieces ← split_pieces fuel text;
      Some (piece :: pieces)
  end.

Definition NUM_CHUNKS : N := 4.
Definition PARALLEL_THRESHOLD : N := 84 * (2 * N.of_nat TREE_BASE).

Definition rope_push_large (r : Rope) (text : str) : option Rope :=
  new_chunks ← split_pieces (length text) text;
  chunks ← mapM chunk_new new_chunks;
  if PARALLEL_THRESHOLD <=? len new_chunks then par_extend r chunks else extend r chunks.

Definition rope_push (r : Rope) (text : str) : option Rope :=
  '(r, remainder) ← update_last (push_closure text) r;
  let text := default text remainder in
  match text with
  | [] => Some r
  | _ :: _ =>
      if NUM_CHUNKS * MAX_BASE - NUM_CHUNKS * 4 <? len text then rope_push_large r text
      else
        new_chunks ← split_pieces (length text) text;
        if NUM_CHUNKS <? len new_chunks then None (* ArrayVec::push *)
        else chunks ← mapM chunk_new new_chunks; extend r chunks
  end.

(** [Rope::from(&str)]. *)
Definition rope_from_str (text : str) : option Rope := rope_push rope_new text.

(** ** Appending *)

Definition rope_append (r rope : Rope) : option Rope :=
  first_chunk ← tree_first rope;
  match first_chunk with
  | Some chunk =>
      last_chunk ← tree_last r;
      if (match last_chunk with Some c => len (chunk_text c) <? MIN_BASE | None => false end)
         || (len (chunk_text chunk) <? MIN_BASE)
      then
        r ← rope_push_chunk r (as_slice chunk);
        let chunks : Cursor Chunk ChunkSummary unit := cursor_new rope in
        chunks ← next chunks;
        chunks ← next chunks;
        '(_, rest) ← suffix chunks;
        append r rest
      else append r rope
  | None => append r rope
  end.

Definition rope_push_front (r : Rope) (text : str) : option Rope :=
  match text with
  | [] => Some r
  | _ :: _ =>
      if rope_is_empty r then rope_push r text
      else
        first_chunk ← tree_first r;
        if match first_chunk with Some c => len (chunk_text c) + len text <=? MAX_BASE | None => false end
        then
          '(r, _) ← update_first (λ c, c ← chunk_prepend_str c text; Some (c, ())) r;
          Some r
        else
          new ← rope_from_str text;
          rope_append new r
  end.

(** ** The cursor *)

Record RopeCursor := rope_cursor {
  rc_rope : Rope;
  rc_chunks : Cursor Chunk ChunkSummary N;
  rc_offset : N
}.

Definition rope_cursor_at (r : Rope) (offset : N) : option RopeCursor :=
  '(chunks, _) ← seek (at_offset offset) Right (cursor_new r);
  Some (rope_cursor r chunks offset).

Definition rc_seek_forward (c : RopeCursor) (end_offset : N) : option RopeCursor :=
  if end_offset <? rc_offset c then None (* assert! *)
  else
    '(chunks, _) ← seek_forward (at_offset end_offset) Right (rc_chunks c);
    Some (rope_cursor (rc_rope c) chunks end_offset).

Definition rc_slice (c : RopeCursor) (end_offset : N) : option (RopeCursor * Rope) :=
  if end_offset <? rc_offset c then None (* assert! *)
  else
    let chunks := rc_chunks c in
    start_chunk ← item chunks;
    chunks_end ← end_ chunks;
    slice ← match start_chunk with
            | Some start_chunk =>
                let start_ix := usub (rc_offset c) (start chunks) in
                let end_ix := usub (N.min end_offset chunks_end) (start chunks) in
                s ← chunk_slice_range start_chunk start_ix end_ix;
                rope_push_chunk rope_new s
            | None => Some rope_new
            end;
    if chunks_end <? end_offset then
      chunks ← next chunks;
      '(chunks, middle) ← Cursor.slice (at_offset end_offset) Right chunks;
      slice ← rope_append slice middle;
      end_chunk ← item chunks;
      slice ← match end_chunk with
              | Some end_chunk =>
                  let end_ix := usub end_offset (start chunks) in
                  s ← chunk_slice_range end_chunk 0 end_ix;
                  rope_push_chunk slice s
              | None => Some slice
              end;
      Some (rope_cursor (rc_rope c) chunks end_offset, slice)
    else Some (rope_cursor (rc_rope c) chunks end_offset, slice).

Definition rc_suffix (c : RopeCursor) : option Rope :=
  '(_, slice) ← rc_slice c (rope_len (rc_rope c)); Some slice.

(** ** Slicing and replacing *)

Definition rope_slice (r : Rope) (a b : N) : option Rope :=
  c ← rope_cursor_at r 0;
  c ← rc_seek_forward c a;
  '(_, slice) ← rc_slice c b;
  Some slice.

Definition rope_replace (r : Rope) (a b : N) (text : str) : option Rope :=
  c ← rope_cursor_at r 0;
  '(c, before) ← rc_slice c a;
  new_rope ← rope_append rope_new before;
  c ← rc_seek_forward c b;
  new_rope ← rope_push new_rope text;
  after ← rc_suffix c;
  rope_append new_rope after.

(** ** Conversions

    Each looks up the chunk with [find] in a pair of dimensions, converts what
    remains within the chunk, and adds it to the value at the chunk's start. *)

Definition rope_offset_to_offset_utf16 (r : Rope) (offset : N) : OffsetUtf16 :=
  if ts_len (rope_summary r) <=? offset then ts_len_utf16 (rope_summary r)
  else
    let '(start, _, item) := find (D:=N * OffsetUtf16) r (seek_fst (seek_key offset)) Left in
    let overshoot := usub offset start.1 in
    offset_utf16_add start.2
      (match item with
       | Some chunk => slice_offset_to_offset_utf16 (as_slice chunk) overshoot
       | None => offset_utf16 0
       end).

Definition rope_offset_utf16_to_offset (r : Rope) (offset : OffsetUtf16) : N :=
  if leb_ord (ts_len_utf16 (rope_summary r)) offset then ts_len (rope_summary r)
  else
    let '(start, _, item) := find (D:=OffsetUtf16 * N) r (seek_fst (seek_key offset)) Left in
    let overshoot := offset_utf16_sub offset start.1 in
    start.2 +
      match item with
      | Some chunk => slice_offset_utf16_to_offset (as_slice chunk) overshoot
      | None => 0
      end.

Definition rope_offset_to_point (r : Rope) (offset : N) : Point :=
  if ts_len (rope_summary r) <=? offset then ts_lines (rope_summary r)
  else
    let '(start, _, item) := find (D:=N * Point) r (seek_fst (seek_key offset)) Left in
    let overshoot := usub offset start.1 in
    point_add start.2
      (match item with
       | Some chunk => slice_offset_to_point (as_slice chunk) overshoot
       | None => point_zero
       end).

Definition rope_offset_to_point_utf16 (r : Rope) (offset : N) : PointUtf16 :=
  if ts_len (rope_summary r) <=? offset then lines_utf16 (rope_summary r)
  else
    let '(start, _, item) := find (D:=N * PointUtf16) r (seek_fst (seek_key offset)) Left in
    let overshoot := usub offset start.1 in
    point_utf16_add start.2
      (match item with
       | Some chunk => slice_offset_to_point_utf16 (as_slice chunk) overshoot
       | None => point_utf16_zero
       end).

Definition rope_point_to_point_utf16 (r : Rope) (p : Point) : PointUtf16 :=
  if leb_ord (ts_lines (rope_summary r)) p then lines_utf16 (rope_summary r)
  else
    let '(start, _, item) := find (D:=Point * PointUtf16) r (seek_fst (seek_key p)) Left in
    let overshoot := point_sub p start.1 in
    point_utf16_add start.2
      (match item with
       | Some chunk => slice_point_to_point_utf16 (as_slice chunk) overshoot
       | None => point_utf16_zero
       end).

Definition rope_point_utf16_to_point (r : Rope) (p : PointUtf16) : option Point :=
  if leb_ord (lines_utf16 (rope_summary r)) p then Some (ts_lines (rope_summary r))
  else
    '(cursor, _) ← seek (seek_fst (seek_key p)) Left (cursor_new r : Cursor Chunk ChunkSummary (PointUtf16 * Point));
    let overshoot := point_utf16_sub p (start cursor).1 in
    item ← item cursor;
    rest ← match item with
           | Some chunk =>
               offset ← slice_point_utf16_to_offset (as_slice chunk) overshoot;
               Some (slice_offset_to_point (as_slice chunk) offset)
           | None => Some point_zero
           end;
    Some (point_add (start cursor).2 rest).

Definition rope_point_to_offset (r : Rope) (p : Point) : N :=
  if leb_ord (ts_lines (rope_summary r)) p then ts_len (rope_summary r)
  else
    let '(start, _, item) := find (D:=Point * N) r (seek_fst (seek_key p)) Left in
    let overshoot := point_sub p start.1 in
    start.2 +
      match item with
      | Some chunk => slice_point_to_offset (as_slice chunk) overshoot
      | None => 0
      end.

Definition rope_point_to_offset_utf16 (r : Rope) (p : Point) : option OffsetUtf16 :=
  if leb_ord (ts_lines (rope_summary r)) p then Some (ts_len_utf16 (rope_summary r))
  else
    '(cursor, _) ← seek (seek_fst (seek_key p)) Left (cursor_new r : Cursor Chunk ChunkSummary (Point * OffsetUtf16));
    let overshoot := point_sub p (start cursor).1 in
    item ← item cursor;
    let rest := match item with
                | Some chunk => slice_point_to_offset_utf16 (as_slice chunk) overshoot
                | None => offset_utf16 0
                end in
    Some (offset_utf16_add (start cursor).2 rest).

(** [point_utf16_to_offset_impl]; [point_utf16_to_offset] and
    [unclipped_point_utf16_to_offset] differ in [clip], which only guards [debug_panic!]. *)
Definition rope_point_utf16_to_offset (r : Rope) (p : PointUtf16) : option N :=
  if leb_ord (lines_utf16 (rope_summary r)) p then Some (ts_len (rope_summary r))
  else
    let '(start, _, item) := find (D:=PointUtf16 * N) r (seek_fst (seek_key p)) Left in
    let overshoot := point_utf16_sub p start.1 in
    rest ← match item with
           | Some chunk => slice_point_utf16_to_offset (as_slice chunk) overshoot
           | None => Some 0
           end;
    Some (start.2 + rest).

Definition rope_point_utf16_to_offset_utf16 (r : Rope) (p : PointUtf16) : option OffsetUtf16 :=
  if leb_ord (lines_utf16 (rope_summary r)) p then Some (ts_len_utf16 (rope_summary r))
  else
    '(cursor, _) ← seek (seek_fst (seek_key p)) Left
                     (cursor_new r : Cursor Chunk ChunkSummary (PointUtf16 * OffsetUtf16));
    let overshoot := point_utf16_sub p (start cursor).1 in
    item ← item cursor;
    rest ← match item with
           | Some chunk =>
               offset ← slice_point_utf16_to_offset (as_slice chunk) overshoot;
               Some (slice_offset_to_offset_utf16 (as_slice chunk) offset)
           | None => Some (offset_utf16 0)
           end;
    Some (offset_utf16_add (start cursor).2 rest).

Definition rope_unclipped_point_utf16_to_point (r : Rope) (p : Unclipped PointUtf16) : option Point :=
  if leb_ord (lines_utf16 (rope_summary r)) (unclip p) then Some (ts_lines (rope_summary r))
  else
    let '(start, _, item) := find (D:=PointUtf16 * Point) r (seek_fst (seek_key (unclip p))) Left in
    let overshoot := unclipped (point_utf16_sub (unclip p) start.1) in
    rest ← match item with
           | Some chunk => slice_unclipped_point_utf16_to_point (as_slice chunk) overshoot
           | None => Some point_zero
           end;
    Some (point_add start.2 rest).

Definition rope_slice_rows (r : Rope) (a b : N) : option Rope :=
  let start := rope_point_to_offset r (point a 0) in
  let end_ := rope_point_to_offset r (point b 0) in
  rope_slice r start end_.

(** ** Clipping *)

Definition rope_clip_offset (r : Rope) (offset : N) (bias : Bias) : N :=
  match bias with
  | Left => rope_floor_char_boundary r offset
  | Right => rope_ceil_char_boundary r offset
  end.

Definition rope_clip_offset_utf16 (r : Rope) (offset : OffsetUtf16) (bias : Bias) : OffsetUtf16 :=
  let '(start, _, item) := find (D:=OffsetUtf16) r (seek_key offset) Right in
  match item with
  | Some chunk =>
      let overshoot := offset_utf16_sub offset start in
      offset_utf16_add start (slice_clip_offset_utf16 (as_slice chunk) overshoot bias)
  | None => ts_len_utf16 (rope_summary r)
  end.

Definition rope_clip_point_utf16 (r : Rope) (p : Unclipped PointUtf16) (bias : Bias) : option PointUtf16 :=
  let '(start, _, item) := find (D:=PointUtf16) r (seek_key (unclip p)) Right in
  match item with
  | Some chunk =>
      let overshoot := unclipped (point_utf16_sub (unclip p) start) in
      q ← slice_clip_point_utf16 (as_slice chunk) overshoot bias;
      Some (point_utf16_add start q)
  | None => Some (lines_utf16 (rope_summary r))
  end.

Section grapheme.
Context (is_grapheme_boundary : str → N → bool).

Definition rope_clip_point (r : Rope) (p : Point) (bias : Bias) : option Point :=
  let '(start, _, item) := find (D:=Point) r (seek_key p) Right in
  match item with
  | Some chunk =>
      let overshoot := point_sub p start in
      q ← slice_clip_point is_grapheme_boundary (as_slice chunk) overshoot bias;
      Some (point_add start q)
  | None => Some (ts_lines (rope_summary r))
  end.

Definition rope_line_len (r : Rope) (row : N) : option N :=
  p ← rope_clip_point r (point row (2 ^ 32 - 1)) Left; Some (column p).
End grapheme.

(** ** Dimensions of text *)

Class TextDimension (D : Type) `{Dimension D ChunkSummary} : Type := {
  from_text_summary : TextSummary → D;
  from_chunk : ChunkSlice → D;
  add_assign : D → D → D
}.

#[export] Instance text_dim_pair {D1 D2} `{TextDimension D1, TextDimension D2} : TextDimension (D1 * D2) :=
  {| from_text_summary s := (from_text_summary s, from_text_summary s);
     from_chunk c := (from_chunk c, from_chunk c);
     add_assign a b := (add_assign a.1 b.1, add_assign a.2 b.2) |}.
#[export] Instance text_dim_summary : TextDimension TextSummary :=
  {| from_text_summary s := s; from_chunk := slice_text_summary; add_assign := ts_add |}.
#[export] Instance text_dim_usize : TextDimension N :=
  {| from_text_summary := ts_len; from_chunk := slice_len; add_assign := N.add |}.
#[export] Instance text_dim_offset_utf16 : TextDimension OffsetUtf16 :=
  {| from_text_summary := ts_len_utf16; from_chunk := slice_len_utf16; add_assign := offset_utf16_add |}.
#[export] Instance text_dim_point : TextDimension Point :=
  {| from_text_summary := ts_lines; from_chunk := slice_lines; add_assign := point_add |}.
#[export] Instance text_dim_point_utf16 : TextDimension PointUtf16 :=
  {| from_text_summary := lines_utf16;
     from_chunk c := point_utf16 (row (slice_lines c)) (slice_last_line_len_utf16 c);
     add_assign := point_utf16_add |}.

(** [Cursor::summary]. *)
Definition rc_summary {D} `{TextDimension D} (c : RopeCursor) (end_offset : N) : option (RopeCursor * D) :=
  if end_offset <? rc_offset c then None (* assert! *)
  else
    let chunks := rc_chunks c in
    start_chunk ← item chunks;
    chunks_end ← end_ chunks;
    summary ← match start_chunk with
              | Some start_chunk =>
                  let start_ix := usub (rc_offset c) (start chunks) in
                  let end_ix := usub (N.min end_offset chunks_end) (start chunks) in
                  s ← chunk_slice_range start_chunk start_ix end_ix;
                  Some (add_assign dim_zero (from_chunk s))
              | None => Some dim_zero
              end;
    if chunks_end <? end_offset then
      chunks ← next chunks;
      '(chunks, middle) ← summary_to (Output:=D) (at_offset end_offset) Right chunks;
      let summary := add_assign summary middle in
      end_chunk ← item chunks;
      summary ← match end_chunk with
                | Some end_chunk =>
                    let end_ix := usub end_offset (start chunks) in
                    s ← chunk_slice_range end_chunk 0 end_ix;
                    Some (add_assign summary (from_chunk s))
                | None => Some summary
                end;
      Some (rope_cursor (rc_rope c) chunks end_offset, summary)
    else Some (rope_cursor (rc_rope c) chunks end_offset, summary).
