(* ===== verification/RopeFacts.v ===== *)
(** * RopeFacts: a rope represents a text

    [repr r t] is the representation invariant of [Rope]: a well-formed tree of
    non-empty chunks whose texts join to [t].  Here are the measures of a represented
    text in every dimension ([TextMeasure]), the lookup of a chunk with [find], and the
    boundaries and conversions of [Rope] in terms of the text. *)

From S2P Require Import Prelude Bits Utf8 SumTree SumTreeSpec SumTreeFind Cursor TextSummary Chunk ChunkFacts.
From S2P Require Import ChunkConvert Rope.

(** ** The invariant *)

Definition chunk_ok (c : Chunk) : Prop :=
  fits (chunk_text c) ∧ chunk_text c ≠ [] ∧ c = chunk_of (chunk_text c).

Definition texts (l : list Chunk) : str := concat (chunk_text <$> l).

Definition repr (r : Rope) (t : str) : Prop :=
  (∃ h, wf h r) ∧ Forall chunk_ok (to_list r) ∧ texts (to_list r) = t.

Lemma chunk_ok_of t : fits t → t ≠ [] → chunk_ok (chunk_of t).
Proof. by intros. Qed.

Lemma item_summary_chunk c : chunk_ok c → item_summary c = chunk_summary (summary_of (chunk_text c)).
Proof.
  intros (Hf & _ & ->). unfold item_summary, item_chunk. by rewrite as_slice_of, slice_text_summary_spec.
Qed.

Lemma chunk_ok_valid c : chunk_ok c → valid (item_summary c).
Proof. intros H. rewrite item_summary_chunk by done. exists (chunk_text c). split; [apply H|done]. Qed.

Lemma chunks_valid l : Forall chunk_ok l → valid_items l.
Proof. intros H. eapply Forall_impl; [done|]. apply chunk_ok_valid. Qed.

Lemma texts_app l1 l2 : texts (l1 ++ l2) = texts l1 ++ texts l2.
Proof. unfold texts. by rewrite fmap_app, concat_app. Qed.

Lemma texts_cons c l : texts (c :: l) = chunk_text c ++ texts l.
Proof. done. Qed.

Lemma texts_utf8 l : Forall chunk_ok l → utf8 (texts l).
Proof.
  induction 1 as [|c l Hc _ IH]; [apply utf8_nil|]. rewrite texts_cons. apply utf8_app; [apply Hc|done].
Qed.

Lemma texts_nil l : Forall chunk_ok l → texts l = [] → l = [].
Proof. destruct 1 as [|c l Hc _]; [done|]. rewrite texts_cons. intros [? _]%app_nil. by destruct Hc as (_ & ? & _). Qed.

Lemma repr_utf8 r t : repr r t → utf8 t.
Proof. intros (_ & H & <-). by apply texts_utf8. Qed.

Lemma repr_new : repr rope_new [].
Proof. split; [exists 0%nat; apply wf_new|]. by split. Qed.

(** ** Measures

    A dimension measures a text, and adding a chunk's summary to the measure of a text
    measures the longer one. *)

Class TextMeasure (D : Type) `{Dimension D ChunkSummary} : Type := {
  measure : str → D;
  measure_nil : measure [] = dim_zero;
  measure_app a b : utf8 a → utf8 b → measure (a ++ b) = dim_add (measure a) (chunk_summary (summary_of b))
}.

#[export] Program Instance measure_usize : TextMeasure N := {| measure := len |}.
Next Obligation. done. Qed.
Next Obligation. intros. by rewrite len_app. Qed.

#[export] Program Instance measure_offset_utf16 : TextMeasure OffsetUtf16 :=
  {| measure t := offset_utf16 (utf16_len t) |}.
Next Obligation. done. Qed.
Next Obligation. intros. cbn. unfold offset_utf16_add; cbn. by rewrite utf16_len_app. Qed.

#[export] Program Instance measure_point : TextMeasure Point := {| measure := point_of |}.
Next Obligation. done. Qed.
Next Obligation. intros. by rewrite point_of_app. Qed.

#[export] Program Instance measure_point_utf16 : TextMeasure PointUtf16 := {| measure := point_utf16_of |}.
Next Obligation. done. Qed.
Next Obligation. intros. by rewrite point_utf16_of_app. Qed.

#[export] Program Instance measure_summary : TextMeasure TextSummary := {| measure := summary_of |}.
Next Obligation. done. Qed.
Next Obligation. intros. by rewrite summary_of_app. Qed.

#[export] Program Instance measure_unit : TextMeasure unit := {| measure _ := () |}.
Next Obligation. done. Qed.
Next Obligation. done. Qed.

#[export] Program Instance measure_pair {D1 D2} `{TextMeasure D1, TextMeasure D2} : TextMeasure (D1 * D2) :=
  {| measure t := (measure t, measure t) |}.
Next Obligation. intros. cbn. by rewrite !measure_nil. Qed.
Next Obligation. intros. cbn. by rewrite !measure_app. Qed.

Lemma chunks_sum l : Forall chunk_ok l → sum_items l = chunk_summary (summary_of (texts l)).
Proof.
  intros Hl. destruct (decide (l = [])) as [->|Hne]; [done|].
  pose proof (dim_add_sum (D:=ChunkSummary) summary_zero l valid_zero (chunks_valid l Hl) Hne) as Hs.
  change (dim_add summary_zero (sum_items l)) with (add_summary summary_zero (sum_items l)) in Hs.
  rewrite add_zero_l in Hs by (apply sum_items_valid; by apply chunks_valid).
  rewrite Hs. clear Hs Hne.
  change (summary_zero : ChunkSummary) with (chunk_summary (summary_of [])).
  assert (Hg : ∀ a, utf8 a → pos (chunk_summary (summary_of a)) l = chunk_summary (summary_of (a ++ texts l))).
  { clear -Hl. induction Hl as [|c l Hc Hl IH]; intros a Ha; [by rewrite app_nil_r|].
    cbn [pos foldl]. change (foldl _ ?d l) with (pos d l).
    rewrite item_summary_chunk by done. unfold dim_add, dim_summary. rewrite add_summary_of by done.
    rewrite IH by (apply utf8_app; [done|apply Hc]). by rewrite texts_cons, (assoc_L (++)). }
  by rewrite Hg by apply utf8_nil.
Qed.

Section measure.
Context {D : Type} `{TextMeasure D, !DimensionLaws D ChunkSummary}.

Lemma pos_texts a l : utf8 a → Forall chunk_ok l → pos (measure a) l = measure (a ++ texts l).
Proof.
  intros Ha Hl. revert a Ha. induction Hl as [|c l Hc Hl IH]; intros a Ha; [by rewrite app_nil_r|].
  cbn [pos foldl]. change (foldl _ ?d l) with (pos d l).
  rewrite item_summary_chunk by done. rewrite <- measure_app by (done || apply Hc).
  rewrite IH by (apply utf8_app; [done|apply Hc]). by rewrite texts_cons, (assoc_L (++)).
Qed.

Lemma pos_zero_texts l : Forall chunk_ok l → pos dim_zero l = measure (texts l).
Proof. intros Hl. rewrite <- measure_nil. rewrite pos_texts by (done || apply utf8_nil). done. Qed.

Lemma ends_texts a l e : utf8 a → Forall chunk_ok l → e ∈ ends (measure a) l →
  ∃ l1 l2, l = l1 ++ l2 ∧ l1 ≠ [] ∧ e = measure (a ++ texts l1).
Proof.
  intros Ha Hl. revert a Ha. induction Hl as [|c l Hc Hl IH]; intros a Ha; [by intros ?%elem_of_nil|].
  cbn [ends]. rewrite item_summary_chunk by done. rewrite <- measure_app by (done || apply Hc).
  intros [->|He]%elem_of_cons.
  - exists [c], l. split_and!; [done..|]. by rewrite texts_cons, app_nil_r.
  - apply IH in He as (l1 & l2 & -> & _ & ->); [|apply utf8_app; [done|apply Hc]].
    exists (c :: l1), l2. split_and!; [done..|]. by rewrite texts_cons, (assoc_L (++)).
Qed.

Lemma repr_summary r t : repr r t → tree_summary r = chunk_summary (summary_of t).
Proof. intros ((h & Hw) & Hc & <-). rewrite (wf_summary _ _ Hw). by apply chunks_sum. Qed.

Lemma repr_extent r t : repr r t → extent r = measure t.
Proof.
  intros Hr. unfold extent. rewrite (repr_summary _ _ Hr), <- measure_nil.
  rewrite <- measure_app by (apply utf8_nil || by eapply repr_utf8). done.
Qed.

Lemma repr_empty r t : repr r t → is_empty r = bool_decide (t = []).
Proof.
  intros ((h & Hw) & Hc & <-). rewrite (wf_is_empty _ _ Hw). apply bool_decide_ext.
  split; [by intros ->|by apply texts_nil].
Qed.
End measure.

Lemma rope_summary_spec r t : repr r t → rope_summary r = summary_of t.
Proof. intros Hr. unfold rope_summary. by rewrite (repr_summary _ _ Hr). Qed.

Lemma rope_len_spec r t : repr r t → rope_len r = len t.
Proof. intros Hr. exact (repr_extent (D:=N) r t Hr). Qed.

(** ** Finding a chunk *)

(** A target that does not go back along the prefixes of a text. *)
Definition target_mono {D} `{TextMeasure D} (target : SeekTarget D) (t : str) : Prop :=
  ∀ a b c, t = a ++ b ++ c → utf8 a → utf8 b →
    (rank (target (measure (a ++ b))) ≤ rank (target (measure a)))%nat.

(** What [find] returns: the chunk [c] behind the text [a] and before [b]. *)
Definition finds {D} `{TextMeasure D} (target : SeekTarget D) (bias : Bias) (t : str)
    (res : D * D * option Chunk) : Prop :=
  match res with
  | (start, end_, Some c) => ∃ a b, t = a ++ chunk_text c ++ b ∧ chunk_ok c ∧ utf8 a ∧ utf8 b ∧
      start = measure a ∧ end_ = measure (a ++ chunk_text c) ∧
      skips (target (measure (a ++ chunk_text c))) bias = false ∧
      (a = [] ∨ skips (target (measure a)) bias = true)
  | (start, end_, None) => start = measure t ∧ end_ = measure t ∧
      (t = [] ∨ skips (target (measure t)) bias = true)
  end.

Section find.
Context {D : Type} `{TextMeasure D, !DimensionLaws D ChunkSummary}.
Implicit Types target : SeekTarget D.

Lemma texts_ascending target a l : utf8 a → Forall chunk_ok l → target_mono target (a ++ texts l) →
  ascending target (measure a) l.
Proof.
  intros Ha Hl. revert a Ha. unfold ascending.
  induction Hl as [|c l Hc Hl IH]; intros a Ha Hm; cbn [ends]; [constructor|].
  assert (Hac : utf8 (a ++ chunk_text c)) by (apply utf8_app; [done|apply Hc]).
  rewrite item_summary_chunk by done. rewrite <- measure_app by (done || apply Hc).
  rewrite texts_cons, (assoc_L (++)) in Hm. constructor; [by apply IH|].
  apply Forall_forall. intros e (l1 & l2 & -> & _ & ->)%ends_texts; [|done..].
  apply (Hm _ _ (texts l2)); [by rewrite texts_app, (assoc_L (++) _ (texts l1))|done|].
  apply texts_utf8. by apply Forall_app in Hl as [? _].
Qed.

Lemma repr_ascending target r t : repr r t → target_mono target t → ascending target dim_zero (to_list r).
Proof.
  intros (_ & Hc & <-) Hm. rewrite <- measure_nil. by apply texts_ascending; [apply utf8_nil|..].
Qed.

Lemma find_spec target bias r t : repr r t → target_mono target t → finds target bias t (find r target bias).
Proof.
  intros Hr Hm. pose proof (repr_ascending _ _ _ Hr Hm) as Hasc.
  pose proof (repr_extent (D:=D) _ _ Hr) as Hext. destruct Hr as ((h & Hw) & Hc & <-).
  destruct (decide (to_list r = [])) as [He|He].
  { unfold find, find_gen. fold (extent (D:=D) r). rewrite Hext, He.
    destruct (skips _ _); [by cbn; auto|].
    destruct h, r as [s items sums|]; try done; [|by destruct (concat_nonempty _ _ (proj1 (proj2 (proj2 (proj2 (proj2 Hw)))))
      (proj2 (proj2 (proj2 (proj2 (proj2 Hw))))))].
    cbn in He, Hw. subst items. destruct Hw as (-> & _). cbn -[measure dim_zero]. rewrite measure_nil. auto. }
  destruct (find_gen_spec false target bias h r ltac:(done) Hw Hasc He) as (res & Hag & Hf & _).
  unfold find. rewrite Hf. cbn in Hag. subst res.
  pose proof (located_scan (not_skipped target bias) _ He) as Hloc.
  destruct (scan _ _ _ _) as [[[[prev c] e]|] p].
  - destruct Hloc as (l1 & l2 & Hl & _ & -> & -> & Hskip & Hfound).
    rewrite Hl in *. apply Forall_app in Hc as [Hc1 [Hcc Hc2]%Forall_cons].
    rewrite pos_zero_texts in * by done. rewrite item_summary_chunk in * by done.
    assert (utf8 (texts l1)) by by apply texts_utf8.
    rewrite <- measure_app in * by (done || apply Hcc).
    exists (texts l1), (texts l2). rewrite texts_app, texts_cons. split_and!; try done.
    + by apply texts_utf8.
    + by apply negb_true_iff in Hfound.
    + destruct (decide (l1 = [])) as [->|Hne]; [by left|right].
      destruct (ends_last dim_zero l1 Hne) as [es Hes]. rewrite Hes in Hskip.
      apply Forall_app in Hskip as [_ Hskip]. rewrite Forall_singleton in Hskip. rewrite pos_zero_texts in Hskip by done.
      by apply negb_false_iff in Hskip.
  - destruct Hloc as (Hskip & Hpe). destruct (Hpe He) as [-> _]. rewrite pos_zero_texts in * by done.
    split_and!; [done..|right].
    destruct (ends_last dim_zero (to_list r) He) as [es Hes]. rewrite Hes in Hskip.
    apply Forall_app in Hskip as [_ Hskip]. rewrite Forall_singleton in Hskip. rewrite pos_zero_texts in Hskip by done.
    by apply negb_false_iff in Hskip.
Qed.
End find.
