(* ===== verification/RopeConvert.v ===== *)
(** * RopeConvert: conversions of a rope against its text

    The boundaries of [Rope] and its conversions between byte offsets, points and
    UTF-16 positions, each equal to a function of the text: the chunk that [find] looks
    up holds the position, and the measures of the text before it and within it add up.
    Rows and columns are [u32], hence the bound of 2^32 bytes on a text. *)

From S2P Require Import Prelude Bits Utf8 SumTree SumTreeSpec SumTreeFind Cursor CursorSpec CursorFacts.
From S2P Require Import TextSummary Chunk ChunkFacts ChunkConvert Rope RopeFacts.

(** ** Keys

    What a text is searched by: a dimension that [cmp] orders like numbers, and that
    grows along a text. *)

Class TextKey (K : Type) `{TextMeasure K, Ord K} : Type := {
  order : K → N;
  order_cmp k k' : cmp k k' = N.compare (order k) (order k');
  order_nil : order (measure []) = 0;
  order_app a b : utf8 a → utf8 b → len (a ++ b) < 2 ^ 32 → order (measure a) ≤ order (measure (a ++ b))
}.

#[export] Program Instance key_usize : TextKey N := {| order k := k |}.
Next Obligation. done. Qed.
Next Obligation. done. Qed.
Next Obligation. intros. cbn. len. Qed.

#[export] Program Instance key_offset_utf16 : TextKey OffsetUtf16 := {| order := units |}.
Next Obligation. done. Qed.
Next Obligation. done. Qed.
Next Obligation. intros. cbn. rewrite utf16_len_app by done. lia. Qed.

#[export] Program Instance key_point : TextKey Point := {| order p := N.lor (shl 64 (row p) 32) (column p) |}.
Next Obligation. done. Qed.
Next Obligation. done. Qed.
Next Obligation.
  intros a b _ _ Hb. destruct (point_of_u32 (a ++ b) Hb). destruct (point_of_u32 a ltac:(len)).
  cbn [measure measure_point]. rewrite !packed_point by done. rewrite point_of_app in *.
  unfold point_add in *. destruct (N.eqb_spec (row (point_of b)) 0); cbn [row column] in *; nia.
Qed.

#[export] Program Instance key_point_utf16 : TextKey PointUtf16 :=
  {| order p := N.lor (shl 64 (row16 p) 32) (column16 p) |}.
Next Obligation. done. Qed.
Next Obligation. done. Qed.
Next Obligation.
  intros a b ? _ Hb. destruct (point_utf16_of_u32 (a ++ b) Hb). destruct (point_utf16_of_u32 a ltac:(len)).
  cbn [measure measure_point_utf16]. rewrite !packed_point by done. rewrite point_utf16_of_app in * by done.
  unfold point_utf16_add in *. destruct (N.eqb_spec (row16 (point_utf16_of b)) 0); cbn [row16 column16] in *; nia.
Qed.

(** The piece [c] behind [a] holds the key, at its end or at its start as [bias] says. *)
Definition holds_key {K} `{TextKey K} (bias : Bias) (k : K) (a c : str) : Prop :=
  order (measure a) ≤ order k ≤ order (measure (a ++ c)) ∧
  match bias with
  | Left => a = [] ∨ order (measure a) < order k
  | Right => order k < order (measure (a ++ c))
  end.

Section find_key.
Context {K D : Type} `{TextKey K, TextMeasure D, !DimensionLaws D ChunkSummary}.
Context (proj : D → K) (Hproj : ∀ a, proj (measure a) = measure a).

Definition finds_key (bias : Bias) (k : K) (t : str) (res : D * D * option Chunk) : Prop :=
  match res with
  | (start, _, Some c) => ∃ a b, t = a ++ chunk_text c ++ b ∧ fits (chunk_text c) ∧
      c = chunk_of (chunk_text c) ∧ utf8 a ∧ utf8 b ∧ start = measure a ∧ holds_key bias k a (chunk_text c)
  | (start, end_, None) => start = measure t ∧ end_ = measure t ∧
      (t = [] ∨ match bias with Left => order (measure t) < order k | Right => order (measure t) ≤ order k end)
  end.

Lemma find_key_spec r t k bias : repr r t → len t < 2 ^ 32 →
  finds_key bias k t (find r (λ d, cmp k (proj d)) bias).
Proof.
  intros Hr Hlen.
  assert (Hm : target_mono (λ d, cmp k (proj d)) t).
  { intros a b c -> Ha Hb. rewrite !Hproj, !order_cmp.
    pose proof (order_app a b Ha Hb ltac:(len)).
    destruct (N.compare_spec (order k) (order (measure (a ++ b)))),
      (N.compare_spec (order k) (order (measure a))); cbn; lia. }
  pose proof (find_spec _ bias _ _ Hr Hm) as Hf.
  destruct (find r (λ d, cmp k (proj d)) bias) as [[start end_] [c|]]; cbn in Hf |- *.
  - destruct Hf as (a & b & -> & Hc & Ha & Hb & -> & -> & Hns & Hs). exists a, b. destruct Hc as (Hfit & _ & Hc).
    unfold holds_key. split_and!; try done; rewrite !Hproj, ?order_cmp in *.
    + destruct Hs as [->|Hs]; [rewrite order_nil; lia|].
      destruct (N.compare_spec (order k) (order (measure a))), bias; done || lia.
    + destruct (N.compare_spec (order k) (order (measure (a ++ chunk_text c)))), bias; done || lia.
    + destruct bias.
      * destruct Hs as [->|Hs]; [by left|right].
        destruct (N.compare_spec (order k) (order (measure a))); done || lia.
      * destruct (N.compare_spec (order k) (order (measure (a ++ chunk_text c)))); done || lia.
  - destruct Hf as (-> & -> & Hs). split_and!; try done. destruct Hs as [->|Hs]; [by left|right].
    rewrite Hproj, order_cmp in Hs. destruct (N.compare_spec (order k) (order (measure t))), bias; done || lia.
Qed.
End find_key.

Lemma find_fst_spec {K D} `{TextKey K, !DimensionLaws K ChunkSummary, TextMeasure D, !DimensionLaws D ChunkSummary}
    r t (k : K) bias : repr r t → len t < 2 ^ 32 →
  finds_key (D:=K * D) bias k t (find r (seek_fst (seek_key k)) bias).
Proof. intros. by apply (find_key_spec (D:=K * D) fst). Qed.

Lemma find_self_spec {K} `{TextKey K, !DimensionLaws K ChunkSummary} r t (k : K) bias :
  repr r t → len t < 2 ^ 32 → finds_key (D:=K) bias k t (find r (seek_key k) bias).
Proof. intros. by apply (find_key_spec (D:=K) id). Qed.

(** Before the end of the text there is always a chunk. *)
Lemma find_inside {K D} `{TextKey K, !DimensionLaws K ChunkSummary, TextMeasure D, !DimensionLaws D ChunkSummary}
    r t (k : K) bias : repr r t → len t < 2 ^ 32 → order k < order (measure t) →
  ∃ a c b e, t = a ++ c ++ b ∧ fits c ∧ utf8 a ∧ utf8 b ∧ holds_key bias k a c ∧
    find (D:=K * D) r (seek_fst (seek_key k)) bias = ((measure a, measure a), e, Some (chunk_of c)).
Proof.
  intros Hr Hlen Hk. pose proof (find_fst_spec (D:=D) r t k bias Hr Hlen) as Hf.
  destruct (find _ _ _) as [[s e] [c|]]; cbn in Hf.
  - destruct Hf as (a & b & -> & Hfit & -> & Ha & Hb & -> & Hkey). by exists a, (chunk_text c), b, e.
  - destruct Hf as (_ & _ & [->|Hs]); [rewrite order_nil in Hk; lia|]. destruct bias; lia.
Qed.

Lemma usub_within a b : b ≤ a → a < 2 ^ 32 → usub a b = a - b.
Proof. intros. apply usub_small; lia. Qed.

Lemma ltake_piece (a c b : str) o : len a ≤ o → o ≤ len (a ++ c) →
  ltake o (a ++ c ++ b) = a ++ ltake (o - len a) c.
Proof. intros. rewrite len_app in *. by rewrite ltake_app_r, ltake_app_l by lia. Qed.

Lemma utf8_pieces a c b : utf8 a → fits c → utf8 b → utf8 (a ++ c ++ b).
Proof. intros ? [? _] ?. by repeat apply utf8_app. Qed.

(** ** Boundaries *)

Lemma rope_is_char_boundary_spec r t o : repr r t → len t < 2 ^ 32 → o < 2 ^ 32 → rope_is_char_boundary r o = str_is_char_boundary t o.
Proof.
  intros Hr Hlen Ho. unfold rope_is_char_boundary. rewrite (repr_empty r t Hr).
  destruct (bool_decide_reflect (t = [])) as [->|Hne].
  { unfold str_is_char_boundary. destruct (N.eqb_spec o 0) as [->|]; [done|]. rewrite lget_ge by len. cbn. symmetry. by apply N.eqb_neq. }
  pose proof (find_self_spec r t o Left Hr Hlen) as Hf. unfold at_offset.
  destruct (find _ _ _) as [[s e] [c|]]; cbn in Hf.
  - destruct Hf as (a & b & -> & Hfit & -> & Ha & Hb & -> & [Hge Hle] & _). cbn in *.
    rewrite usub_within, chunk_boundary_spec by (done || lia).
    replace o with (len a + (o - len a)) at 2 by lia.
    rewrite boundary_app_r by (by apply utf8_app; [apply Hfit|]).
    rewrite len_app in Hle. by rewrite boundary_app_l by (done || lia).
  - destruct Hf as (-> & -> & [|Hs]); [done|]. by rewrite boundary_gt.
Qed.

Lemma rope_floor_char_boundary_spec r t o : repr r t → len t < 2 ^ 32 → rope_floor_char_boundary r o = str_floor_char_boundary t o.
Proof.
  intros Hr Hlen. unfold rope_floor_char_boundary. rewrite (rope_len_spec r t Hr). unfold str_floor_char_boundary at 2.
  destruct (N.leb_spec (len t) o) as [|Ho]; [done|].
  transitivity (str_floor_char_boundary t o); [|unfold str_floor_char_boundary; by rewrite (proj2 (N.leb_gt _ _))].
  pose proof (find_self_spec r t o Left Hr Hlen) as Hf. unfold at_offset.
  destruct (find _ _ _) as [[s e] [c|]]; cbn in Hf.
  - destruct Hf as (a & b & -> & Hfit & -> & Ha & Hb & -> & [Hge Hle] & _). cbn in *.
    rewrite usub_within by lia. symmetry. rewrite len_app in Hle.
    destruct (floor_spec (chunk_text c) (o - len a)) as (H1 & H2 & H3).
    apply floor_unique; [lia|..].
    + rewrite boundary_app_r by (by apply utf8_app; [apply Hfit|]). rewrite boundary_app_l by (done || lia). done.
    + intros k Hk. replace k with (len a + (k - len a)) by lia.
      rewrite boundary_app_r by (by apply utf8_app; [apply Hfit|]). rewrite boundary_app_l by (done || lia).
      apply H3. lia.
  - destruct Hf as (-> & -> & [->|Hs]); [len|cbn in Hs; lia].
Qed.

Lemma rope_ceil_char_boundary_spec r t o : repr r t → len t < 2 ^ 32 → rope_ceil_char_boundary r o = str_ceil_char_boundary t o.
Proof.
  intros Hr Hlen. unfold rope_ceil_char_boundary. rewrite (rope_len_spec r t Hr).
  destruct (N.ltb_spec (len t) o) as [|Ho].
  { unfold str_ceil_char_boundary. by rewrite (proj2 (N.leb_le _ _)) by lia. }
  pose proof (find_self_spec r t o Left Hr Hlen) as Hf. unfold at_offset.
  destruct (find _ _ _) as [[s e] [c|]]; cbn in Hf.
  - destruct Hf as (a & b & -> & Hfit & -> & Ha & Hb & -> & [Hge Hle] & _). cbn in *.
    rewrite usub_within by lia. symmetry. rewrite len_app in Hle.
    destruct (ceil_spec (chunk_text c) (o - len a)) as (H1 & H2 & H3 & H4). specialize (H3 ltac:(lia)).
    apply ceil_unique; [lia|..].
    + rewrite boundary_app_r by (by apply utf8_app; [apply Hfit|]). rewrite boundary_app_l by (done || lia). done.
    + intros k Hk. replace k with (len a + (k - len a)) by lia.
      rewrite boundary_app_r by (by apply utf8_app; [apply Hfit|]). rewrite boundary_app_l by (done || lia).
      apply H4. lia.
  - destruct Hf as (-> & -> & [->|Hs]); [|cbn in Hs; lia].
    rewrite len_nil in *. by replace o with 0 by lia.
Qed.

(** ** From offsets *)

Lemma rope_offset_to_offset_utf16_spec r t o : repr r t → len t < 2 ^ 32 →
  rope_offset_to_offset_utf16 r o = offset_utf16 (utf16_len (ltake o t)).
Proof.
  intros Hr Hlen. unfold rope_offset_to_offset_utf16. rewrite (rope_summary_spec r t Hr). cbn [ts_len ts_len_utf16 summary_of].
  destruct (N.leb_spec (len t) o) as [|Ho]; [by rewrite ltake_ge|].
  change (order o < order (measure (D:=N) t)) in Ho.
  destruct (find_inside (D:=OffsetUtf16) r t o Left Hr Hlen Ho) as (a & c & b & e & -> & Hfit & Ha & Hb & [[Hge Hle] _] & ->).
  cbn in *. rewrite usub_within, as_slice_of by lia. rewrite ltake_piece by done. rewrite len_app in Hle.
    rewrite slice_offset_to_offset_utf16_spec by (destruct Hfit; lia).
    unfold offset_utf16_add; cbn. by rewrite utf16_len_app.
Qed.

Lemma rope_offset_to_point_spec r t o : repr r t → len t < 2 ^ 32 → rope_offset_to_point r o = point_of (ltake o t).
Proof.
  intros Hr Hlen. unfold rope_offset_to_point. rewrite (rope_summary_spec r t Hr). cbn [ts_len ts_lines summary_of].
  destruct (N.leb_spec (len t) o) as [|Ho]; [by rewrite ltake_ge|].
  change (order o < order (measure (D:=N) t)) in Ho.
  destruct (find_inside (D:=Point) r t o Left Hr Hlen Ho) as (a & c & b & e & -> & Hfit & Ha & Hb & [[Hge Hle] _] & ->).
  cbn in *. rewrite usub_within, as_slice_of by lia. rewrite ltake_piece by done. rewrite len_app in Hle.
    rewrite slice_offset_to_point_spec by (destruct Hfit; lia). by rewrite point_of_app.
Qed.

Lemma rope_offset_to_point_utf16_spec r t o : repr r t → len t < 2 ^ 32 → rope_offset_to_point_utf16 r o = point_utf16_of (ltake o t).
Proof.
  intros Hr Hlen. unfold rope_offset_to_point_utf16. rewrite (rope_summary_spec r t Hr). cbn [ts_len lines_utf16 summary_of].
  destruct (N.leb_spec (len t) o) as [|Ho]; [by rewrite ltake_ge|].
  change (order o < order (measure (D:=N) t)) in Ho.
  destruct (find_inside (D:=PointUtf16) r t o Left Hr Hlen Ho) as (a & c & b & e & -> & Hfit & Ha & Hb & [[Hge Hle] _] & ->).
  cbn in *. rewrite usub_within, as_slice_of by lia. rewrite ltake_piece by done. rewrite len_app in Hle.
    rewrite slice_offset_to_point_utf16_spec by (done || lia). by rewrite point_utf16_of_app.
Qed.

(** ** Positions of rows and columns

    A position is a row and a column in it, where [m] measures a line and [col] turns a
    column into bytes: bytes for points, UTF-16 units for [PointUtf16]. *)

Section rows.
Context (m : str → N) (col : str → N → N).
Context (m_app : ∀ x y, utf8 x → m (x ++ y) = m x + m y).
Context (col_app : ∀ x y k, utf8 x → col (x ++ y) (m x + k) = len x + col y k).
Context (col_within : ∀ x y k, utf8 x → k ≤ m x → col (x ++ y) k = col x k).
Context (col_end : ∀ x k, utf8 x → m x ≤ k → col x k = len x).

Definition offset_at (t : str) (R k : N) : N :=
  if rows t <? R then len t else row_start t R + col (row_text t R) k.

Lemma row_start_app p d : last_line p = [] → row_start (p ++ d) (rows p) = len p.
Proof. intros. unfold row_start. rewrite drop_rows_app by done. len. Qed.

Lemma row_text_app p d : last_line p = [] → row_text (p ++ d) (rows p) = first_line d.
Proof. intros. unfold row_text. by rewrite drop_rows_app. Qed.

(** The last line of a text and what is before it. *)
Lemma before_last t : utf8 t → ∃ p l, t = p ++ l ∧ last_line t = l ∧ rows l = 0 ∧ rows p = rows t ∧
  last_line p = [] ∧ utf8 p ∧ utf8 l.
Proof.
  intros Ht. destruct (last_start_split t) as (p & Hp & _ & Hu & _ & He). exists p, (last_line t).
  pose proof (f_equal rows Hp) as E. rewrite rows_app, rows_last_line in E.
  split_and!; [done..|apply rows_last_line|lia| |by apply Hu|by apply utf8_last_line].
  destruct He as [->|[p' ->]]; [done|]. by rewrite last_line_app.
Qed.

Lemma utf8_drop_rows r t : utf8 t → r ≤ rows t → utf8 (drop_rows r t).
Proof.
  intros Ht Hr. destruct (utf8_rows t r Ht Hr) as (q & rest & _ & _ & _ & _ & _ & _ & ? & ? & -> & _).
  by apply utf8_app.
Qed.

Lemma offset_at_end t R k : utf8 t → rows t < R ∨ R = rows t ∧ m (last_line t) ≤ k → offset_at t R k = len t.
Proof.
  intros Ht Hp. unfold offset_at. destruct (N.ltb_spec (rows t) R) as [|HR]; [done|].
  destruct Hp as [|[-> Hk]]; [lia|]. destruct (before_last t Ht) as (p & l & -> & Hl & Hl0 & Hrows & Hlp & Hp & Hlu).
  rewrite Hl in Hk. rewrite <- Hrows, row_start_app, row_text_app, first_line_0, col_end by done. len.
Qed.

Lemma offset_at_pieces a c b R k : utf8 a → utf8 c → utf8 b →
  rows a < R ∨ R = rows a ∧ m (last_line a) ≤ k →
  R < rows (a ++ c) ∨ R = rows (a ++ c) ∧ k ≤ m (last_line (a ++ c)) →
  offset_at (a ++ c ++ b) R k =
  len a + (if R =? rows a then offset_at c 0 (k - m (last_line a)) else offset_at c (R - rows a) k).
Proof.
  intros Ha Hc Hb Hge Hle. rewrite rows_app, last_line_app in Hle. unfold offset_at at 1.
  rewrite (proj2 (N.ltb_ge _ _)) by (rewrite !rows_app; lia).
  destruct (N.eqb_spec R (rows a)) as [->|HR].
  - destruct Hge as [|[_ Hk]]; [lia|].
    destruct (before_last a Ha) as (p & l & Ea & Hl & Hl0 & Hrows & Hlp & Hp & Hlu).
    rewrite Hl in *. rewrite <- Hrows. rewrite Ea. rewrite <- (assoc_L (++) p).
    rewrite row_start_app, row_text_app by done. rewrite first_line_app, Hl0. cbn [N.eqb].
    replace k with (m l + (k - m l)) at 1 by lia. rewrite col_app by done. rewrite len_app.
    unfold offset_at. rewrite (proj2 (N.ltb_ge _ _)) by lia. unfold row_start, row_text. rewrite drop_rows_0.
    assert (col (first_line (c ++ b)) (k - m l) = col (first_line c) (k - m l)); [|lia].
    rewrite first_line_app. destruct (N.eqb_spec (rows c) 0) as [Hc0|]; [|done].
    rewrite col_within; [by rewrite first_line_0|done|].
    destruct Hle as [|[_ Hk']]; [lia|]. rewrite m_app in Hk' by done. lia.
  - assert (Hq : R - rows a ≤ rows c) by lia.
    destruct (drop_rows_split (R - rows a) c Hq) as (p & Hp & Hrows & Hl).
    pose proof (utf8_drop_rows _ _ Hc Hq) as Hd.
    set (d := drop_rows (R - rows a) c) in *. clearbody d. subst c. rewrite rows_app in *.
    assert (Hal : last_line (a ++ p) = []).
    { rewrite last_line_app. by destruct (N.eqb_spec (rows p) 0); [lia|]. }
    rewrite <- !(assoc_L (++) p), (assoc_L (++) a).
    assert (HR' : rows (a ++ p) = R) by (rewrite rows_app; lia). rewrite <- HR' at 1 2.
    rewrite row_start_app, row_text_app by done. unfold offset_at. rewrite (proj2 (N.ltb_ge _ _)) by (rewrite rows_app; lia).
    rewrite <- Hrows, row_start_app, row_text_app, len_app by done.
    assert (col (first_line (d ++ b)) k = col (first_line d) k); [|lia].
    rewrite first_line_app. destruct (N.eqb_spec (rows d) 0) as [Hd0|]; [|done].
    rewrite col_within; [by rewrite first_line_0|done|].
    destruct Hle as [|[_ Hk]]; [lia|].
    rewrite (proj2 (N.eqb_neq _ _)), last_line_app, Hd0, Hl in Hk by lia. done.
Qed.
End rows.

Lemma packed_le r c r' c' : r < 2 ^ 32 → c < 2 ^ 32 → r' < 2 ^ 32 → c' < 2 ^ 32 →
  N.lor (shl 64 r 32) c ≤ N.lor (shl 64 r' 32) c' ↔ r < r' ∨ r' = r ∧ c ≤ c'.
Proof. intros. rewrite !packed_point by done. split; [|nia]. intros. destruct (N.lt_trichotomy r r') as [|[->|]]; nia. Qed.

Lemma offset_of_point_end t p : utf8 t → point_u32 p → len t < 2 ^ 32 → order (point_of t) ≤ order p →
  offset_of_point t p = len t.
Proof.
  intros Ht [] Hlen Hp. destruct (point_of_u32 t Hlen). apply packed_le in Hp; [|done..].
  apply (offset_at_end len (λ l k, N.min k (len l))); [|done..]. intros. lia.
Qed.

Lemma offset_of_point_pieces a c b p : utf8 a → utf8 c → utf8 b → len (a ++ c ++ b) < 2 ^ 32 → point_u32 p →
  order (point_of a) ≤ order p → order p ≤ order (point_of (a ++ c)) →
  offset_of_point (a ++ c ++ b) p = len a + offset_of_point c (point_sub p (point_of a)).
Proof.
  intros Ha Hc Hb Hlen [] Hge Hle. rewrite !len_app in Hlen.
  destruct (point_of_u32 a ltac:(lia)), (point_of_u32 (a ++ c) ltac:(len)).
  apply packed_le in Hge, Hle; [|done..]. cbn [point_of row column] in *.
  rewrite (eq_comm (rows _)) in Hle.
  unfold offset_of_point.
  pose proof (offset_at_pieces len (λ l k, N.min k (len l))) as Hp. unfold offset_at in Hp. rewrite Hp; try done.
  - unfold point_sub. cbn [row column point_of]. destruct (N.eqb_spec (row p) (rows a)) as [E|E]; cbn [row column].
    + rewrite wrapping_sub_small by lia. done.
    + rewrite wrapping_sub_small by lia. done.
  - intros. apply len_app.
  - intros. len.
  - intros. len.
Qed.

Lemma offset_of_utf16_within x y k : utf8 x → k ≤ utf16_len x → offset_of_utf16 (x ++ y) k = offset_of_utf16 x k.
Proof.
  intros Hx Hk. destruct (utf16_split x k Hx Hk) as [(a & b & -> & Ha & Hb & <-)|(a & c & b & -> & Ha & Hb & Hc & H2 & ->)].
  - rewrite <- (assoc_L (++)). pose proof (offset_of_utf16_app a (b ++ y) 0 Ha) as E1.
    pose proof (offset_of_utf16_app a b 0 Ha) as E2. rewrite N.add_0_r, !offset_of_utf16_0 in *. congruence.
  - rewrite <- !(assoc_L (++)). by rewrite !offset_of_utf16_middle.
Qed.

Lemma offset_of_point_utf16_end t p : utf8 t → point_utf16_u32 p → len t < 2 ^ 32 →
  order (point_utf16_of t) ≤ order p → offset_of_point_utf16 t p = len t.
Proof.
  intros Ht [] Hlen Hp. destruct (point_utf16_of_u32 t Hlen). apply packed_le in Hp; [|done..].
  apply (offset_at_end utf16_len offset_of_utf16); [|done..]. intros. by apply offset_of_utf16_ge.
Qed.

Lemma offset_of_point_utf16_pieces a c b p : utf8 a → utf8 c → utf8 b → len (a ++ c ++ b) < 2 ^ 32 →
  point_utf16_u32 p → order (point_utf16_of a) ≤ order p → order p ≤ order (point_utf16_of (a ++ c)) →
  offset_of_point_utf16 (a ++ c ++ b) p = len a + offset_of_point_utf16 c (point_utf16_sub p (point_utf16_of a)).
Proof.
  intros Ha Hc Hb Hlen [] Hge Hle. rewrite !len_app in Hlen.
  destruct (point_utf16_of_u32 a ltac:(lia)), (point_utf16_of_u32 (a ++ c) ltac:(len)).
  apply packed_le in Hge, Hle; [|done..]. cbn [point_utf16_of row16 column16] in *.
  rewrite (eq_comm (rows _)) in Hle.
  unfold offset_of_point_utf16.
  pose proof (offset_at_pieces utf16_len offset_of_utf16) as Hp. unfold offset_at in Hp. rewrite Hp; try done.
  - unfold point_utf16_sub. cbn [row16 column16 point_utf16_of].
    destruct (N.eqb_spec (row16 p) (rows a)) as [E|E]; cbn [row16 column16].
    + rewrite wrapping_sub_small by lia. done.
    + rewrite wrapping_sub_small by lia. done.
  - intros. by apply utf16_len_app.
  - intros. by apply offset_of_utf16_app.
  - intros. by apply offset_of_utf16_within.
Qed.

Lemma offset_of_utf16_le t u : utf8 t → offset_of_utf16 t u ≤ len t.
Proof.
  intros Ht.
  destruct (N.le_ge_cases (utf16_len t) u); [by rewrite offset_of_utf16_ge|].
  destruct (utf16_split t u Ht ltac:(done)) as [(a & b & -> & Ha & Hb & <-)|(a & c & b & -> & Ha & Hb & Hc & H2 & ->)].
  - pose proof (offset_of_utf16_app a b 0 Ha) as E. rewrite N.add_0_r, offset_of_utf16_0 in E. len.
  - rewrite offset_of_utf16_middle by done. len.
Qed.

Lemma offset_of_point_utf16_le t p : utf8 t → offset_of_point_utf16 t p ≤ len t.
Proof.
  intros Ht. unfold offset_of_point_utf16. destruct (N.ltb_spec (rows t) (row16 p)) as [|HR]; [lia|].
  destruct (utf8_rows t (row16 p) Ht HR) as (q & rest & Heq & Hq & _ & _ & _ & _ & Hl & _).
  pose proof (f_equal len Heq) as E. rewrite !len_app in E.
  pose proof (offset_of_utf16_le (row_text t (row16 p)) (column16 p) Hl). lia.
Qed.

(** ** From points *)

Lemma leb_order {K} `{TextKey K} (k k' : K) : leb_ord k k' = (order k <=? order k').
Proof. unfold leb_ord. rewrite order_cmp. unfold N.leb. by destruct (order k ?= order k'). Qed.

Lemma rope_point_to_offset_spec r t p : repr r t → len t < 2 ^ 32 → point_u32 p →
  rope_point_to_offset r p = offset_of_point t p.
Proof.
  intros Hr Hlen Hp. unfold rope_point_to_offset. rewrite (rope_summary_spec r t Hr), leb_order.
  cbn [ts_len ts_lines summary_of]. pose proof (repr_utf8 _ _ Hr) as Ht.
  destruct (N.leb_spec (order (point_of t)) (order p)) as [|Ho]; [by rewrite offset_of_point_end|].
  destruct (find_inside (K:=Point) (D:=N) r t p Left Hr Hlen Ho) as (a & c & b & e & -> & Hfit & Ha & Hb & [[Hge Hle] _] & ->).
  cbn [fst snd]. rewrite as_slice_of, slice_point_to_offset_spec by apply Hfit.
  symmetry. apply offset_of_point_pieces; try done. apply Hfit.
Qed.

Lemma rope_point_to_point_utf16_spec r t p : repr r t → len t < 2 ^ 32 → point_u32 p →
  rope_point_to_point_utf16 r p = point_utf16_of (ltake (offset_of_point t p) t).
Proof.
  intros Hr Hlen Hp. unfold rope_point_to_point_utf16. rewrite (rope_summary_spec r t Hr), leb_order.
  cbn [ts_len ts_lines summary_of]. pose proof (repr_utf8 _ _ Hr) as Ht.
  destruct (N.leb_spec (order (point_of t)) (order p)) as [|Ho].
  { by rewrite offset_of_point_end, ltake_ge by done. }
  destruct (find_inside (K:=Point) (D:=PointUtf16) r t p Left Hr Hlen Ho) as (a & c & b & e & -> & Hfit & Ha & Hb & [[Hge Hle] _] & ->).
  cbn [fst snd]. rewrite as_slice_of. unfold slice_point_to_point_utf16.
  rewrite slice_point_to_offset_spec by apply Hfit.
  rewrite offset_of_point_pieces by (done || apply Hfit).
  set (o := offset_of_point c _). assert (o ≤ len c) by apply offset_of_point_le.
  rewrite slice_offset_to_point_utf16_spec by done. rewrite ltake_piece by len.
  replace (len a + o - len a) with o by lia. by rewrite point_utf16_of_app.
Qed.

Lemma rope_point_utf16_to_offset_spec r t p : repr r t → len t < 2 ^ 32 → point_utf16_u32 p →
  rope_point_utf16_to_offset r p = Some (offset_of_point_utf16 t p).
Proof.
  intros Hr Hlen Hp. unfold rope_point_utf16_to_offset. rewrite (rope_summary_spec r t Hr), leb_order.
  change (lines_utf16 (summary_of t)) with (point_utf16_of t). cbn [ts_len summary_of].
  pose proof (repr_utf8 _ _ Hr) as Ht.
  destruct (N.leb_spec (order (point_utf16_of t)) (order p)) as [|Ho].
  { by rewrite offset_of_point_utf16_end. }
  destruct (find_inside (K:=PointUtf16) (D:=N) r t p Left Hr Hlen Ho) as (a & c & b & e & -> & Hfit & Ha & Hb & [[Hge Hle] _] & ->).
  cbn [fst snd]. rewrite as_slice_of, slice_point_utf16_to_offset_spec by done. cbn [mbind option_bind].
  f_equal. symmetry. apply offset_of_point_utf16_pieces; try done. apply Hfit.
Qed.

(** ** Seeking in a rope *)

(** The height of a rope is bounded by its cursors' stack of 16 entries. *)
Definition shallow (r : Rope) : Prop := (node_height r < 16)%nat.

Lemma behind_order {K} `{Hkey : TextKey K} (k k' : K) bias :
  behind (seek_key k) bias k' ↔ match bias with Left => order k' < order k | Right => order k' ≤ order k end.
Proof.
  unfold behind, seek_key. rewrite order_cmp. destruct (N.compare_spec (order k) (order k')), bias; (split; [intros [?|[? ?]]|intros]); try done; try lia; auto.
Qed.

Lemma key_ascending {K D} `{TextKey K, TextMeasure D, !DimensionLaws D ChunkSummary} (proj : D → K) r t k :
  (∀ a, proj (measure a) = measure a) → repr r t → len t < 2 ^ 32 →
  ascending (λ d, cmp k (proj d)) dim_zero (to_list r).
Proof.
  intros Hproj Hr Hlen. apply (repr_ascending _ r t Hr). intros a b c -> Ha Hb.
  rewrite !Hproj, !order_cmp. pose proof (order_app a b Ha Hb ltac:(len)).
  destruct (N.compare_spec (order k) (order (measure (a ++ b)))), (N.compare_spec (order k) (order (measure a))); cbn; lia.
Qed.

Section seek.
Context {K D : Type} `{TextKey K, TextMeasure D, !DimensionLaws D ChunkSummary}.
Context (proj : D → K) (Hproj : ∀ a, proj (measure a) = measure a).

(** How a seek for [k] parts the chunks [l] that lie behind the text [a]. *)
Lemma parts_key k bias a l before after : utf8 a → Forall chunk_ok l →
  parts (λ d, cmp k (proj d)) bias (measure a) l before after →
  l = before ++ after ∧ (before = [] ∨ behind (seek_key k) bias (measure (a ++ texts before))) ∧
  match after with
  | c :: _ => ¬ behind (seek_key k) bias (measure (a ++ texts before ++ chunk_text c))
  | [] => True
  end.
Proof.
  intros Ha Hl (-> & Hbe & Haf). apply Forall_app in Hl as [Hbok Haok]. split_and!; [done|..].
  - destruct (decide (before = [])) as [->|Hne]; [by left|right].
    destruct (ends_last (measure a) before Hne) as [es Hes]. rewrite Hes in Hbe.
    apply Forall_app in Hbe as [_ Hbe]. rewrite Forall_singleton, pos_texts in Hbe by done.
    unfold behind, seek_key in *. by rewrite Hproj in Hbe.
  - destruct after as [|c after]; [done|]. apply Forall_cons in Haok as [Hc _].
    rewrite pos_texts in Haf by (done || by rewrite Forall_app, Forall_singleton).
    rewrite texts_app, texts_cons in Haf. change (texts []) with (@nil N) in Haf. rewrite app_nil_r in Haf.
    unfold behind, seek_key in *. by rewrite Hproj in Haf.
Qed.
End seek.

Lemma seek_inside {K D} `{Hkey : TextKey K, !DimensionLaws K ChunkSummary, TextMeasure D, !DimensionLaws D ChunkSummary}
    r t (k : K) bias : repr r t → shallow r → len t < 2 ^ 32 → order k < order (measure t) →
  ∃ a c b cur found, t = a ++ c ++ b ∧ fits c ∧ utf8 a ∧ utf8 b ∧ holds_key bias k a c ∧
    seek (seek_fst (seek_key k)) bias (cursor_new r : Cursor Chunk ChunkSummary (K * D)) = Some (cur, found) ∧
    start cur = (measure a, measure a) ∧ item cur = Some (Some (chunk_of c)).
Proof.
  intros Hr Hh Hlen Hk. pose proof Hr as ((h & Hw) & Hc & Ht).
  assert (Hh' : (h < 16)%nat) by (by rewrite <- (wf_height _ _ Hw)).
  pose proof (key_ascending (D:=K * D) fst r t k ltac:(done) Hr Hlen) as Hasc.
  pose proof (cursor_new_start (D:=K * D) h r Hw Hh') as Hstart.
  assert (Hs : reset (cursor_new r : Cursor Chunk ChunkSummary (K * D)) = cursor_new r) by done.
  destruct (seek_internal_start (A:=unit) (D:=K * D) (seek_fst (seek_key k)) bias (cursor_new r) () Hstart)
    as (sk & rest & cur & u & found & Hsplit & Hres & _ & Hat & _); try done.
  { unfold seek_fst, seek_key. change (dim_zero.1) with (dim_zero : K). rewrite <- measure_nil, order_cmp, order_nil.
    by destruct (N.compare_spec (order k) 0); [done|lia|]. }
  unfold seek. rewrite Hs, Hres. cbn [mbind option_bind]. clear Hs.
  apply split_at_parts in Hsplit. change (pos dim_zero []) with (dim_zero : K * D) in Hsplit.
  rewrite <- measure_nil in Hsplit.
  apply (parts_key fst) in Hsplit as (Hl & Hbe & Haf); [|done|apply utf8_nil|done].
  cbn [cursor_tree cursor_new] in Hl. rewrite Hl in *. apply Forall_app in Hc as [Hc1 Hc2].
  change ([] ++ ?x) with x in *.
  destruct rest as [|c rest].
  { destruct Hbe as [->|Hbe]; rewrite app_nil_r in *.
    - subst t. change (texts []) with (@nil N) in Hk. rewrite order_nil in Hk. lia.
    - rewrite Ht in Hbe. exfalso. apply (behind_order (Hkey:=Hkey)) in Hbe. destruct bias; lia. }
  apply Forall_cons in Hc2 as [Hcc Hc2].
  rewrite texts_app, texts_cons in Ht. destruct Hcc as (Hfit & Hne & Hceq).
  assert (utf8 (texts sk)) by by apply texts_utf8.
  assert (utf8 (texts rest)) by by apply texts_utf8.
  exists (texts sk), (chunk_text c), (texts rest), cur, found. split_and!; try done.
  - rewrite (behind_order (Hkey:=Hkey)) in Haf, Hbe. unfold holds_key. subst t.
    pose proof (order_app (K:=K) (texts sk) (chunk_text c) ltac:(done) ltac:(apply Hfit) ltac:(len)).
    destruct Hbe as [->|Hbe].
    + change (texts []) with (@nil N) in *. rewrite order_nil. destruct bias; split_and!; try lia; by left.
    + destruct bias; split_and!; try lia; right; lia.
  - unfold start. rewrite (at_position _ _ _ Hat). by rewrite pos_zero_texts.
  - rewrite (item_at _ _ _ Hat). cbn. by rewrite <- Hceq.
Qed.

Lemma slice_point_to_offset_utf16_spec t p : len t ≤ MAX_BASE →
  slice_point_to_offset_utf16 (slice_of t) p = offset_utf16 (utf16_len (ltake (offset_of_point t p) t)).
Proof.
  intros Hl. unfold slice_point_to_offset_utf16. rewrite slice_lines_spec, slice_len_utf16_spec by done.
  cbn [row point_of]. destruct (N.ltb_spec (rows t) (row p)) as [Hlt|Hge].
  - unfold offset_of_point. rewrite (proj2 (N.ltb_lt _ _)) by done. by rewrite ltake_ge.
  - rewrite slice_point_to_offset_spec, slice_offset_to_offset_utf16_spec; try done.
    pose proof (offset_of_point_le t p). lia.
Qed.

Lemma rope_point_to_offset_utf16_spec r t p : repr r t → shallow r → len t < 2 ^ 32 → point_u32 p →
  rope_point_to_offset_utf16 r p = Some (offset_utf16 (utf16_len (ltake (offset_of_point t p) t))).
Proof.
  intros Hr Hsh Hlen Hp. unfold rope_point_to_offset_utf16. rewrite (rope_summary_spec r t Hr), leb_order.
  cbn [ts_len_utf16 ts_lines summary_of]. pose proof (repr_utf8 _ _ Hr) as Ht.
  destruct (N.leb_spec (order (point_of t)) (order p)) as [|Ho].
  { by rewrite offset_of_point_end, ltake_ge. }
  destruct (seek_inside (D:=OffsetUtf16) r t p Left Hr Hsh Hlen Ho)
    as (a & c & b & cur & found & -> & Hfit & Ha & Hb & [[Hge Hle] _] & -> & Hs & Hi).
  cbn [mbind option_bind]. rewrite Hs, Hi. cbn [fst snd mbind option_bind].
  rewrite as_slice_of, slice_point_to_offset_utf16_spec by apply Hfit. cbn.
  rewrite offset_of_point_pieces by (done || apply Hfit).
  set (o := offset_of_point c _). assert (o ≤ len c) by apply offset_of_point_le.
  rewrite ltake_piece by len. rewrite utf16_len_app by done. by replace (len a + o - len a) with o by lia.
Qed.

Lemma rope_point_utf16_to_point_spec r t p : repr r t → shallow r → len t < 2 ^ 32 → point_utf16_u32 p →
  rope_point_utf16_to_point r p = Some (point_of (ltake (offset_of_point_utf16 t p) t)).
Proof.
  intros Hr Hsh Hlen Hp. unfold rope_point_utf16_to_point. rewrite (rope_summary_spec r t Hr), leb_order.
  change (lines_utf16 (summary_of t)) with (point_utf16_of t). cbn [ts_lines summary_of].
  pose proof (repr_utf8 _ _ Hr) as Ht.
  destruct (N.leb_spec (order (point_utf16_of t)) (order p)) as [|Ho].
  { by rewrite offset_of_point_utf16_end, ltake_ge. }
  destruct (seek_inside (D:=Point) r t p Left Hr Hsh Hlen Ho)
    as (a & c & b & cur & found & -> & Hfit & Ha & Hb & [[Hge Hle] _] & -> & Hs & Hi).
  cbn [mbind option_bind]. rewrite Hs, Hi. cbn [fst snd mbind option_bind].
  rewrite as_slice_of, slice_point_utf16_to_offset_spec by done. cbn [mbind option_bind].
  rewrite offset_of_point_utf16_pieces by (done || apply Hfit). cbn [measure measure_point measure_point_utf16].
  set (o := offset_of_point_utf16 c _). assert (o ≤ len c) by (apply offset_of_point_utf16_le; apply Hfit).
  rewrite slice_offset_to_point_spec by (done || apply Hfit).
  rewrite ltake_piece by len. rewrite point_of_app. by replace (len a + o - len a) with o by lia.
Qed.

Lemma rope_point_utf16_to_offset_utf16_spec r t p : repr r t → shallow r → len t < 2 ^ 32 → point_utf16_u32 p →
  rope_point_utf16_to_offset_utf16 r p = Some (offset_utf16 (utf16_len (ltake (offset_of_point_utf16 t p) t))).
Proof.
  intros Hr Hsh Hlen Hp. unfold rope_point_utf16_to_offset_utf16. rewrite (rope_summary_spec r t Hr), leb_order.
  change (lines_utf16 (summary_of t)) with (point_utf16_of t). cbn [ts_len_utf16 summary_of].
  pose proof (repr_utf8 _ _ Hr) as Ht.
  destruct (N.leb_spec (order (point_utf16_of t)) (order p)) as [|Ho].
  { by rewrite offset_of_point_utf16_end, ltake_ge. }
  destruct (seek_inside (D:=OffsetUtf16) r t p Left Hr Hsh Hlen Ho)
    as (a & c & b & cur & found & -> & Hfit & Ha & Hb & [[Hge Hle] _] & -> & Hs & Hi).
  cbn [mbind option_bind]. rewrite Hs, Hi. cbn [fst snd mbind option_bind].
  rewrite as_slice_of, slice_point_utf16_to_offset_spec by done. cbn [mbind option_bind].
  rewrite offset_of_point_utf16_pieces by (done || apply Hfit). cbn [measure measure_offset_utf16 measure_point_utf16].
  set (o := offset_of_point_utf16 c _). assert (o ≤ len c) by (apply offset_of_point_utf16_le; apply Hfit).
  rewrite slice_offset_to_offset_utf16_spec by (destruct Hfit; lia).
  rewrite ltake_piece by len. rewrite utf16_len_app by done. by replace (len a + o - len a) with o by lia.
Qed.

(** The point of a position within a row. *)
Lemma point_of_row t R k : R ≤ rows t → k ≤ len (row_text t R) →
  point_of (ltake (row_start t R + k) t) = point R k.
Proof.
  intros HR Hk. destruct (row_split R t HR) as (p & rest & Heq & Hp & Hl & Hlen & _ & Hrow & _).
  set (l := row_text t R) in *. rewrite <- Hlen. clearbody l. subst t.
  rewrite ltake_piece by len. replace (len p + k - len p) with k by lia.
  pose proof (ltake_ldrop k l) as E. pose proof (f_equal rows E) as Er. rewrite rows_app, Hrow in Er.
  unfold point_of. rewrite rows_app, last_line_app, Hl.
  rewrite (proj2 (N.eqb_eq (rows (ltake k l)) 0)) by lia. cbn [app]. f_equal; [lia|len].
Qed.

Lemma unclipped_point t p : utf8 t →
  (if rows t <? row16 p then point_of t
   else point (row16 p) (offset_of_utf16 (row_text t (row16 p)) (column16 p))) =
  point_of (ltake (offset_of_point_utf16 t p) t).
Proof.
  intros Ht. unfold offset_of_point_utf16. destruct (N.ltb_spec (rows t) (row16 p)) as [|HR].
  - by rewrite ltake_ge.
  - rewrite point_of_row; [done..|]. apply offset_of_utf16_le.
    by destruct (utf8_rows t (row16 p) Ht HR) as (q & rest & _ & _ & _ & _ & _ & _ & Hl & _).
Qed.

Lemma rope_unclipped_point_utf16_to_point_spec r t p : repr r t → len t < 2 ^ 32 → point_utf16_u32 p →
  rope_unclipped_point_utf16_to_point r (unclipped p) = Some (point_of (ltake (offset_of_point_utf16 t p) t)).
Proof.
  intros Hr Hlen Hp. unfold rope_unclipped_point_utf16_to_point. cbn [unclip].
  rewrite (rope_summary_spec r t Hr), leb_order.
  change (lines_utf16 (summary_of t)) with (point_utf16_of t). cbn [ts_lines summary_of].
  pose proof (repr_utf8 _ _ Hr) as Ht.
  destruct (N.leb_spec (order (point_utf16_of t)) (order p)) as [|Ho].
  { by rewrite offset_of_point_utf16_end, ltake_ge. }
  destruct (find_inside (D:=Point) r t p Left Hr Hlen Ho) as (a & c & b & e & -> & Hfit & Ha & Hb & [[Hge Hle] _] & ->).
  cbn [fst snd]. rewrite as_slice_of, slice_unclipped_point_utf16_to_point_spec, unclipped_point by (done || apply Hfit).
  cbn [mbind option_bind]. rewrite offset_of_point_utf16_pieces by (done || apply Hfit).
  set (o := offset_of_point_utf16 c _). assert (o ≤ len c) by (apply offset_of_point_utf16_le; apply Hfit).
  rewrite ltake_piece by len. rewrite point_of_app. by replace (len a + o - len a) with o by lia.
Qed.
