(* ===== verification/RopeClip.v ===== *)
(** * RopeClip: UTF-16 offsets and clipping in a rope

    [offset_utf16_to_offset] of [Rope], and its four clipping operations: the result is
    a position between two characters, next to the one asked for. *)

From S2P Require Import Prelude Bits SelectBit Utf8 SumTree SumTreeSpec SumTreeFind Cursor TextSummary Chunk.
From S2P Require Import ChunkFacts ChunkConvert Rope RopeFacts RopeConvert.

(** ** UTF-16 offsets *)

Lemma at_unit_pieces a c b u o : utf8 a → utf8 c → utf8 b → at_unit (utf16_flags false c) u o →
  at_unit (utf16_flags false (a ++ c ++ b)) (utf16_len a + u) (len a + o).
Proof.
  intros Ha Hc Hb (Ho & Hu & Hat). rewrite !utf16_flags_utf8_app by done.
  assert (Hla : len (utf16_flags false a) = len a) by apply len_utf16_flags.
  assert (Hlc : len (utf16_flags false c) = len c) by apply len_utf16_flags.
  assert (Hlb : len (utf16_flags false b) = len b) by apply len_utf16_flags.
  unfold at_unit. rewrite Hlc in *. rewrite !len_app, Hla, Hlb, Hlc. split_and!; [lia|..].
  - rewrite ltake_app_r by lia. rewrite Hla. replace (len a + o - len a) with o by lia.
    rewrite ones_app, ltake_app_l by lia. by rewrite Hu.
  - rewrite lget_app_r by lia. rewrite Hla. replace (len a + o - len a) with o by lia.
    destruct Hat as [->|Hat].
    + rewrite lget_app_r by lia. rewrite Hlc, N.sub_diag.
      destruct b as [|x b]; [left; rewrite len_nil; lia|right]. cbn. apply utf8_head in Hb. by rewrite Hb.
    + right. rewrite lget_app_l; [done|]. destruct (N.lt_ge_cases o (len c)); [lia|].
      by rewrite lget_ge in Hat by lia.
Qed.

Lemma rope_offset_utf16_at_unit r t u : repr r t → len t < 2 ^ 32 → u ≤ utf16_len t →
  at_unit (utf16_flags false t) u (rope_offset_utf16_to_offset r (offset_utf16 u)).
Proof.
  intros Hr Hlen Hu. unfold rope_offset_utf16_to_offset. rewrite (rope_summary_spec r t Hr), leb_order.
  cbn [ts_len ts_len_utf16 summary_of order key_offset_utf16 units]. pose proof (repr_utf8 _ _ Hr) as Ht.
  destruct (N.leb_spec (utf16_len t) u) as [|Ho].
  { replace u with (utf16_len t) by lia. unfold at_unit. rewrite len_utf16_flags.
    split_and!; [done| |by left]. by rewrite ltake_ge by by rewrite len_utf16_flags. }
  change (order (offset_utf16 u) < order (measure (D:=OffsetUtf16) t)) in Ho.
  destruct (find_inside (D:=N) r t (offset_utf16 u) Left Hr Hlen Ho)
    as (a & c & b & e & -> & Hfit & Ha & Hb & [[Hge Hle] _] & ->).
  cbn in Hge, Hle |- *. rewrite as_slice_of. rewrite utf16_len_app in Hle by done.
  unfold offset_utf16_sub; cbn [units]. pose proof (utf16_len_le (a ++ c ++ b)).
  rewrite wrapping_sub_small by lia.
  replace u with (utf16_len a + (u - utf16_len a)) at 1 by lia.
  apply at_unit_pieces; [done|apply Hfit|done|]. apply slice_offset_utf16_at_unit; [done|lia].
Qed.

(** At a character boundary, UTF-16 offsets are converted exactly. *)
Lemma rope_offset_utf16_boundary r a b : repr r (a ++ b) → len (a ++ b) < 2 ^ 32 → utf8 a → utf8 b →
  rope_offset_utf16_to_offset r (offset_utf16 (utf16_len a)) = len a.
Proof.
  intros Hr Hlen Ha Hb. eapply at_unit_unique; [apply rope_offset_utf16_at_unit; [done..|]|by apply at_unit_boundary].
  rewrite utf16_len_app by done. lia.
Qed.

(** ** Clipping UTF-16 offsets *)

Lemma utf16_len_0 t : utf8 t → utf16_len t = 0 → t = [].
Proof.
  intros Ht. pattern t. revert t Ht. refine (utf8_ind _ _ _); [done|]. intros c t Hc _ _.
  rewrite utf16_len_app by by apply utf8_encode. destruct (encode_measure c Hc) as (_ & -> & _).
  unfold len_utf16. destruct (c <? 65536); lia.
Qed.

(** Two cuts of a text between characters: the one at fewer units comes first. *)
Lemma cut_order x y a d : x ++ y = a ++ d → utf8 x → utf8 y → utf8 a → utf8 d → utf16_len a ≤ utf16_len x →
  ∃ z, x = a ++ z ∧ d = z ++ y ∧ utf8 z.
Proof.
  intros E Hx Hy Ha Hd Hle. apply app_eq_inv in E as [(z & -> & ->)|(z & -> & ->)].
  - exists z. split_and!; [done..|]. by apply (utf8_app_inv a).
  - pose proof (utf8_app_inv x z Hx Ha) as Hz. rewrite utf16_len_app in Hle by done.
    rewrite (utf16_len_0 z) by (done || lia). exists []. rewrite !app_nil_r. split_and!; [done..|apply utf8_nil].
Qed.

Lemma at_char_pieces a c b u : utf8 a → utf8 c → utf8 b → u ≤ utf16_len c →
  at_char (a ++ c ++ b) (utf16_len a + u) ↔ at_char c u.
Proof.
  intros Ha Hc Hb Hu. split.
  - intros (x & y & E & Hx & Hy & Hxu).
    destruct (cut_order x y a (c ++ b)) as (z & -> & E2 & Hz); try done; [by apply utf8_app|lia|].
    rewrite utf16_len_app in Hxu by done.
    destruct (cut_order c b z y) as (w & -> & -> & Hw); try done; [lia|]. exists z, w. split_and!; try done. lia.
  - intros (x & y & -> & Hx & Hy & <-). exists (a ++ x), (y ++ b). rewrite <- !(assoc_L (++)).
    split_and!; [done|by apply utf8_app..|by apply utf16_len_app].
Qed.

(** Clipping within a piece is clipping within the text around it. *)
Lemma clipped_utf16_pieces a c b u bias q : utf8 a → utf8 c → utf8 b → u < utf16_len c ∨ b = [] →
  clipped_utf16 c u bias q → clipped_utf16 (a ++ c ++ b) (utf16_len a + u) bias (utf16_len a + q).
Proof.
  intros Ha Hc Hb Hu. unfold clipped_utf16. rewrite !utf16_len_app by done.
  destruct (N.ltb_spec (utf16_len c) u) as [Hlt|Hle].
  { intros ->. destruct Hu as [Hu| ->]; [lia|]. change (utf16_len []) with 0.
    rewrite (proj2 (N.ltb_lt _ _)) by lia. lia. }
  intros (Hq & Heq & Hbias). rewrite (proj2 (N.ltb_ge _ _)) by lia.
  assert (q ≤ utf16_len c) as Hqle.
  { destruct Hq as (x & y & -> & Hx & _ & <-). rewrite utf16_len_app by done. lia. }
  split_and!.
  - by apply at_char_pieces.
  - intros Hat. apply at_char_pieces in Hat; try done. by rewrite Heq.
  - destruct bias; lia.
Qed.

Lemma clipped_utf16_end t u bias : utf8 t → utf16_len t ≤ u → clipped_utf16 t u bias (utf16_len t).
Proof.
  intros Ht Hle. unfold clipped_utf16. destruct (N.ltb_spec (utf16_len t) u); [done|].
  assert (u = utf16_len t) as -> by lia. split_and!; [|done|destruct bias; lia].
  exists t, []. rewrite app_nil_r. split_and!; [done|done|apply utf8_nil|done].
Qed.

Lemma rope_clip_offset_utf16_spec r t u bias : repr r t → len t < 2 ^ 32 →
  clipped_utf16 t u bias (units (rope_clip_offset_utf16 r (offset_utf16 u) bias)).
Proof.
  intros Hr Hlen. unfold rope_clip_offset_utf16. pose proof (repr_utf8 _ _ Hr) as Ht.
  pose proof (find_self_spec (K:=OffsetUtf16) r t (offset_utf16 u) Right Hr Hlen) as Hf.
  destruct (find _ _ _) as [[s e] [c|]]; cbn in Hf.
  - destruct Hf as (a & b & -> & Hfit & -> & Ha & Hb & -> & [Hge Hle] & Hlt). cbn in *.
    rewrite utf16_len_app in Hle, Hlt by done. unfold offset_utf16_sub; cbn [units].
    pose proof (utf16_len_le (chunk_text c)); pose proof (utf16_len_le a).
    rewrite !len_app in Hlen. rewrite wrapping_sub_small, as_slice_of by lia.
    replace u with (utf16_len a + (u - utf16_len a)) at 1 by lia.
    apply clipped_utf16_pieces; [done|apply Hfit|done|left; lia|by apply slice_clip_offset_utf16_spec].
  - destruct Hf as (_ & _ & Hs). rewrite (rope_summary_spec r t Hr).
    apply clipped_utf16_end; [done|]. destruct Hs as [->|Hs]; [cbn; lia|done].
Qed.

(** ** Clipping points *)

(** The row [R] of a text in which [c] lies between [a] and [b]. *)
Lemma row_text_pieces a c b R : utf8 a → utf8 c → utf8 b → rows a ≤ R ≤ rows (a ++ c) →
  ∃ post, utf8 post ∧ (R < rows (a ++ c) → post = []) ∧
    row_text (a ++ c ++ b) R = (if R =? rows a then last_line a else []) ++ row_text c (R - rows a) ++ post.
Proof.
  intros Ha Hc Hb. rewrite rows_app. intros HR. assert (Hq : R - rows a ≤ rows c) by lia.
  exists (if rows c =? R - rows a then first_line b else []). split_and!.
  { destruct (_ =? _); [by apply utf8_first_line|apply utf8_nil]. }
  { intros. by rewrite (proj2 (N.eqb_neq _ _)) by lia. }
  destruct (N.eqb_spec R (rows a)) as [->|HRa].
  - rewrite N.sub_diag. destruct (before_last a Ha) as (p & l & Ea & Hl & Hl0 & Hrows & Hlp & Hp & Hlu).
    rewrite Hl, <- Hrows, Ea, <- (assoc_L (++) p), row_text_app by done.
    rewrite first_line_app, Hl0. cbn [N.eqb]. unfold row_text. rewrite drop_rows_0, first_line_app.
    destruct (N.eqb_spec (rows c) 0); [by rewrite (first_line_0 c)|by rewrite app_nil_r].
  - destruct (drop_rows_split (R - rows a) c Hq) as (p & Hp & Hrows & Hl). unfold row_text at 2.
    set (d := drop_rows (R - rows a) c) in *. clearbody d. subst c. rewrite rows_app in *.
    assert (Hal : last_line (a ++ p) = []).
    { rewrite last_line_app. by destruct (N.eqb_spec (rows p) 0); [lia|]. }
    rewrite <- !(assoc_L (++) p), (assoc_L (++) a).
    replace R with (rows (a ++ p)) at 1 by (rewrite rows_app; lia). rewrite row_text_app, first_line_app by done.
    cbn [app]. destruct (N.eqb_spec (rows d) 0) as [Hd0|Hd0].
    + rewrite (proj2 (N.eqb_eq _ _)) by lia. by rewrite (first_line_0 d).
    + rewrite (proj2 (N.eqb_neq _ _)) by lia. by rewrite app_nil_r.
Qed.

(** What clipping a point of row [R] and column [k] has to return, when [clipped] says
    what a column is clipped to and [m] measures a row: beyond the last row, the end. *)
Definition clipped_row (m : str → N) (clipped : str → N → N → Prop) (t : str) (R k R' k' : N) : Prop :=
  if rows t <? R then R' = rows t ∧ k' = m (last_line t) else R' = R ∧ clipped (row_text t R) k k'.

Section clip.
Context (m : str → N) (clipped : str → N → N → Prop).
Context (m_app : ∀ x y, utf8 x → m (x ++ y) = m x + m y).
Context (clipped_pieces : ∀ a c b k q, utf8 a → utf8 c → utf8 b → k < m c ∨ b = [] →
  clipped c k q → clipped (a ++ c ++ b) (m a + k) (m a + q)).

Lemma clipped_row_pieces a c b R k R' k' : utf8 a → utf8 c → utf8 b →
  rows a < R ∨ R = rows a ∧ m (last_line a) ≤ k →
  R < rows (a ++ c) ∨ R = rows (a ++ c) ∧ k < m (last_line (a ++ c)) →
  clipped_row m clipped c (R - rows a) (if R =? rows a then k - m (last_line a) else k) R' k' →
  clipped_row m clipped (a ++ c ++ b) R k (rows a + R') (if R' =? 0 then m (last_line a) + k' else k').
Proof.
  intros Ha Hc Hb Hge Hle. rewrite rows_app in Hle. unfold clipped_row.
  rewrite (proj2 (N.ltb_ge _ _)) by lia. rewrite (proj2 (N.ltb_ge _ _)) by (rewrite !rows_app; lia).
  intros [-> Hcl]. split; [lia|].
  destruct (row_text_pieces a c b R) as (post & Hpost & Hnil & ->); try done; [rewrite rows_app; lia|].
  rewrite rows_app in Hnil. assert (HRc : R - rows a ≤ rows c) by lia.
  destruct (utf8_rows c (R - rows a) Hc HRc) as (_ & _ & _ & _ & _ & _ & _ & _ & Hrow & _).
  assert (Hk : R - rows a = rows c → row_text c (R - rows a) = last_line c).
  { intros ->. destruct (before_last c Hc) as (p & l & -> & -> & Hl0 & <- & Hlp & _ & _).
    by rewrite row_text_app, first_line_0. }
  rewrite last_line_app in Hle.
  destruct (N.eqb_spec R (rows a)) as [->|HRa].
  - rewrite N.sub_diag in *. cbn [N.eqb]. destruct Hge as [|[_ Hge]]; [lia|].
    replace k with (m (last_line a) + (k - m (last_line a))) by lia.
    apply clipped_pieces; [by apply utf8_last_line|done|done| |done].
    destruct Hle as [Hle|[E Hle]]; [right; apply Hnil; lia|left].
    rewrite Hk by lia. rewrite (proj2 (N.eqb_eq (rows c) 0)) in Hle by lia.
    rewrite m_app in Hle by by apply utf8_last_line. rewrite (last_line_0 c) by lia. lia.
  - rewrite (proj2 (N.eqb_neq (R - rows a) 0)) by lia.
    apply (clipped_pieces [] _ post) in Hcl; [|apply utf8_nil|done|done|].
    + pose proof (m_app [] [] utf8_nil) as H0. change ([] ++ []) with (@nil N) in H0.
      by replace (m []) with 0 in Hcl by lia.
    + destruct Hle as [Hle|[E Hle]]; [right; apply Hnil; lia|left].
      rewrite Hk by lia. by rewrite (proj2 (N.eqb_neq (rows c) 0)) in Hle by lia.
Qed.
End clip.

(** *** UTF-16 *)

Abbreviation clipped_unit bias := (λ (l : str) (u q : N), clipped_utf16 l u bias q).

Lemma clipped_utf16_le t u bias q : clipped_utf16 t u bias q → q ≤ utf16_len t.
Proof.
  unfold clipped_utf16. destruct (_ <? _); [lia|]. intros ((a & b & -> & Ha & _ & <-) & _).
  rewrite utf16_len_app by done. lia.
Qed.

Lemma slice_clip_point_utf16_spec t p bias : fits t →
  ∃ q, slice_clip_point_utf16 (slice_of t) (unclipped p) bias = Some q ∧
    clipped_row utf16_len (clipped_unit bias) t (row16 p) (column16 p) (row16 q) (column16 q).
Proof.
  intros Ht. unfold slice_clip_point_utf16, clipped_row. cbn [unclip].
  rewrite slice_lines_spec, slice_last_line_len_utf16_spec by (done || apply Ht). cbn [row point_of].
  destruct (N.ltb_spec (rows t) (row16 p)) as [|HR]; [by eexists|].
  rewrite slice_offset_range_for_row_spec by (done || apply Ht).
  destruct (slice_row t (row16 p) Ht HR) as [-> Hl]. cbn [mbind option_bind]. eexists. split; [done|]. cbn [row16 column16].
  pose proof (slice_clip_offset_utf16_spec (row_text t (row16 p)) (column16 p) bias Hl) as Hc.
  split; [done|]. pose proof (clipped_utf16_le _ _ _ _ Hc). pose proof (utf16_len_le (row_text t (row16 p))).
  rewrite as_u32_small; [done|]. destruct Hl. unfold MAX_BASE, BITS in *. lia.
Qed.

Lemma lex_ge r c R k : r < 2 ^ 32 → c < 2 ^ 32 → R < 2 ^ 32 → k < 2 ^ 32 →
  N.lor (shl 64 r 32) c ≤ N.lor (shl 64 R 32) k → r < R ∨ R = r ∧ c ≤ k.
Proof. intros. by apply packed_le. Qed.

Lemma lex_lt R k r c : r < 2 ^ 32 → c < 2 ^ 32 → R < 2 ^ 32 → k < 2 ^ 32 →
  N.lor (shl 64 R 32) k < N.lor (shl 64 r 32) c → R < r ∨ R = r ∧ k < c.
Proof. intros ???? H. rewrite N.lt_nge, packed_le in H by done. lia. Qed.

Lemma rope_clip_point_utf16_spec r t p bias : repr r t → len t < 2 ^ 32 → point_utf16_u32 p →
  ∃ q, rope_clip_point_utf16 r (unclipped p) bias = Some q ∧
    clipped_row utf16_len (clipped_unit bias) t (row16 p) (column16 p) (row16 q) (column16 q).
Proof.
  intros Hr Hlen [Hp1 Hp2]. unfold rope_clip_point_utf16. cbn [unclip]. pose proof (repr_utf8 _ _ Hr) as Ht.
  pose proof (find_self_spec (K:=PointUtf16) r t p Right Hr Hlen) as Hf.
  destruct (find _ _ _) as [[s e] [c|]]; cbn [finds_key] in Hf.
  - destruct Hf as (a & b & -> & Hfit & -> & Ha & Hb & -> & [Hge _] & Hlt). pose proof Hfit as [Hcu _].
    rewrite !len_app in Hlen.
    destruct (point_utf16_of_u32 a ltac:(lia)), (point_utf16_of_u32 (a ++ chunk_text c) ltac:(len)).
    apply lex_ge in Hge; [|done..]. apply lex_lt in Hlt; [|done..].
    cbn [measure measure_point_utf16 point_utf16_of row16 column16] in *. rewrite as_slice_of.
    destruct (slice_clip_point_utf16_spec (chunk_text c) (point_utf16_sub p (point_utf16_of a)) bias Hfit) as (q & -> & Hq).
    cbn [mbind option_bind]. eexists. split; [done|].
    pose proof (clipped_row_pieces utf16_len (clipped_unit bias) utf16_len_app) as Hp.
    unfold point_utf16_sub in Hq. cbn [row16 column16 point_utf16_of] in Hq.
    specialize (Hp ltac:(intros; by apply clipped_utf16_pieces) a (chunk_text c) b (row16 p) (column16 p) (row16 q) (column16 q)
      Ha Hcu Hb Hge Hlt).
    unfold point_utf16_add. cbn [row16 column16 point_utf16_of].
    replace (row16 (if row16 q =? 0 then _ else _)) with (rows a + row16 q)
      by (destruct (N.eqb_spec (row16 q) 0) as [E|]; cbn [row16]; lia).
    replace (column16 (if row16 q =? 0 then _ else _)) with (if row16 q =? 0 then utf16_len (last_line a) + column16 q else column16 q)
      by (by destruct (row16 q =? 0)).
    apply Hp. destruct (N.eqb_spec (row16 p) (rows a)) as [E|]; cbn [row16 column16] in Hq.
    + rewrite E, N.sub_diag. by rewrite wrapping_sub_small in Hq by lia.
    + by rewrite wrapping_sub_small in Hq by lia.
  - destruct Hf as (_ & _ & Hs). rewrite (rope_summary_spec r t Hr). eexists. split; [done|].
    change (lines_utf16 (summary_of t)) with (point_utf16_of t). unfold clipped_row.
    assert (Hle : order (measure t) ≤ order p) by (destruct Hs as [->|Hs]; [rewrite order_nil; lia|done]). clear Hs.
    destruct (point_utf16_of_u32 t Hlen). apply lex_ge in Hle; [|done..]. cbn [measure measure_point_utf16 point_utf16_of row16 column16] in *.
    destruct (N.ltb_spec (rows t) (row16 p)); [done|]. destruct Hle as [|[E Hle]]; [lia|]. split; [done|].
    destruct (before_last t Ht) as (q & l & -> & Hl & Hl0 & Hrows & Hlp & _ & Hlu).
    rewrite E, <- Hrows, row_text_app, first_line_0 by done. rewrite Hl in *. by apply clipped_utf16_end.
Qed.

(** *** Bytes *)

(** What clipping a column to the characters of a line has to return. *)
Definition clipped_col (bias : Bias) (l : str) (k q : N) : Prop :=
  if len l <=? k then q = len l
  else q ≤ len l ∧ str_is_char_boundary l q = true ∧ match bias with Left => q ≤ k | Right => k ≤ q end.

Lemma clipped_col_pieces a c b k q bias : utf8 a → utf8 c → utf8 b → k < len c ∨ b = [] →
  clipped_col bias c k q → clipped_col bias (a ++ c ++ b) (len a + k) (len a + q).
Proof.
  intros Ha Hc Hb Hk. unfold clipped_col. rewrite !len_app. destruct (N.leb_spec (len c) k) as [Hle|Hlt].
  { intros ->. destruct Hk as [| ->]; [lia|]. rewrite len_nil, (proj2 (N.leb_le _ _)); lia. }
  intros (Hq & Hbd & Hbias). rewrite (proj2 (N.leb_gt _ _)) by lia. split_and!; [lia| |destruct bias; lia].
  rewrite boundary_app_r by by apply utf8_app. by rewrite boundary_app_l.
Qed.

Lemma clipped_col_end l k bias : len l ≤ k → clipped_col bias l k (len l).
Proof. intros. unfold clipped_col. by rewrite (proj2 (N.leb_le _ _)). Qed.

Section grapheme.
Context (gb : str → N → bool).
Context (gb_start : ∀ t, gb t 0 = true) (gb_end : ∀ t, gb t (len t) = true).

Lemma slice_clip_point_spec t p bias : fits t →
  ∃ q, slice_clip_point gb (slice_of t) p bias = Some q ∧
    clipped_row len (clipped_col bias) t (row p) (column p) (row q) (column q).
Proof.
  intros Ht. unfold slice_clip_point, clipped_row. rewrite slice_lines_spec by apply Ht. cbn [row point_of].
  destruct (N.ltb_spec (rows t) (row p)) as [|HR]; [by eexists|].
  rewrite slice_offset_range_for_row_spec by (done || apply Ht).
  destruct (slice_row t (row p) Ht HR) as [-> Hl]. cbn [mbind option_bind].
  set (l := row_text t (row p)) in *. clearbody l.
  assert (Hsmall : ∀ x, x ≤ len l → as_u32 x = x).
  { intros x ?. apply as_u32_small. destruct Hl. unfold MAX_BASE, BITS in *. lia. }
  change (slice_len (slice_of l)) with (len l). rewrite (Hsmall (len l)) by lia. change (slice_text (slice_of l)) with l.
  destruct (N.eqb_spec (column p) 0) as [E|Hp0].
  { exists p. split_and!; [done..|]. rewrite E. unfold clipped_col. destruct (N.leb_spec (len l) 0); [lia|].
    split_and!; [lia|apply boundary_0|by destruct bias]. }
  unfold clipped_col. destruct (N.leb_spec (len l) (column p)) as [|Hlt]; [by eexists|].
  destruct (lget_lt l (column p - 1) ltac:(lia)) as [b0 ->]. destruct (lget_lt l (column p) Hlt) as [b1 Hb1].
  rewrite Hb1. cbn [mbind option_bind].
  destruct ((b0 <? 128) && (b1 <? 128)) eqn:Hascii.
  { apply andb_true_iff in Hascii as [_ Hascii%N.ltb_lt]. eexists. split_and!; [done..|cbn; lia| |destruct bias; cbn; lia].
    cbn [column]. unfold str_is_char_boundary. rewrite Hb1, boundary_spec by lia.
    rewrite bool_decide_eq_true_2 by auto. apply orb_true_r. }
  assert (∃ q, clip_loop gb (length l) (slice_of l) bias (column p) = Some q ∧ q ≤ len l ∧
    str_is_char_boundary l q = true ∧ match bias with Left => q ≤ column p | Right => column p ≤ q end)
    as (q & -> & Hq & Hbd & Hbias).
  { destruct bias.
    - destruct (clip_loop_left gb gb_start (length l) l (column p)) as (q & ? & ? & ? & _); [done|lia|unfold len in *; lia|].
      exists q. split_and!; try done. lia.
    - destruct (clip_loop_right gb gb_end (length l) l (column p)) as (q & ? & [? ?] & ? & _); [done|lia|unfold len in *; lia|].
      by exists q. }
  cbn [mbind option_bind]. eexists. split_and!; [done..| | |]; cbn [column]; rewrite Hsmall; done.
Qed.

Lemma rope_clip_point_spec r t p bias : repr r t → len t < 2 ^ 32 → point_u32 p →
  ∃ q, rope_clip_point gb r p bias = Some q ∧
    clipped_row len (clipped_col bias) t (row p) (column p) (row q) (column q).
Proof.
  intros Hr Hlen [Hp1 Hp2]. unfold rope_clip_point. pose proof (repr_utf8 _ _ Hr) as Ht.
  pose proof (find_self_spec (K:=Point) r t p Right Hr Hlen) as Hf.
  destruct (find _ _ _) as [[s e] [c|]]; cbn [finds_key] in Hf.
  - destruct Hf as (a & b & -> & Hfit & -> & Ha & Hb & -> & [Hge _] & Hlt). pose proof Hfit as [Hcu _].
    rewrite !len_app in Hlen.
    destruct (point_of_u32 a ltac:(lia)), (point_of_u32 (a ++ chunk_text c) ltac:(len)).
    apply lex_ge in Hge; [|done..]. apply lex_lt in Hlt; [|done..].
    cbn [measure measure_point point_of row column] in *. rewrite as_slice_of.
    destruct (slice_clip_point_spec (chunk_text c) (point_sub p (point_of a)) bias Hfit) as (q & -> & Hq).
    cbn [mbind option_bind]. eexists. split; [done|].
    pose proof (clipped_row_pieces len (clipped_col bias)) as Hp.
    unfold point_sub in Hq. cbn [row column point_of] in Hq.
    specialize (Hp ltac:(intros; by apply len_app) ltac:(intros; by apply clipped_col_pieces)
      a (chunk_text c) b (row p) (column p) (row q) (column q) Ha Hcu Hb Hge Hlt).
    unfold point_add. cbn [row column point_of].
    replace (row (if row q =? 0 then _ else _)) with (rows a + row q)
      by (destruct (N.eqb_spec (row q) 0) as [E|]; cbn [row]; lia).
    replace (column (if row q =? 0 then _ else _)) with (if row q =? 0 then len (last_line a) + column q else column q)
      by (by destruct (row q =? 0)).
    apply Hp. destruct (N.eqb_spec (row p) (rows a)) as [E|]; cbn [row column] in Hq.
    + rewrite E, N.sub_diag. by rewrite wrapping_sub_small in Hq by lia.
    + by rewrite wrapping_sub_small in Hq by lia.
  - destruct Hf as (_ & _ & Hs). rewrite (rope_summary_spec r t Hr). eexists. split; [done|].
    change (ts_lines (summary_of t)) with (point_of t). unfold clipped_row.
    assert (Hle : order (measure (D:=Point) t) ≤ order p) by (destruct Hs as [->|Hs]; [rewrite order_nil; lia|done]). clear Hs.
    destruct (point_of_u32 t Hlen). apply lex_ge in Hle; [|done..]. cbn [measure measure_point point_of row column] in *.
    destruct (N.ltb_spec (rows t) (row p)); [done|]. destruct Hle as [|[E Hle]]; [lia|]. split; [done|].
    destruct (before_last t Ht) as (q & l & -> & Hl & Hl0 & Hrows & Hlp & _ & Hlu).
    rewrite E, <- Hrows, row_text_app, first_line_0 by done. rewrite Hl in *. by apply clipped_col_end.
Qed.

(** The length of a row; beyond the last row, of the last one. *)
Lemma rope_line_len_spec r t R : repr r t → len t < 2 ^ 32 → R < 2 ^ 32 →
  rope_line_len gb r R = Some (len (if rows t <? R then last_line t else row_text t R)).
Proof.
  intros Hr Hlen HR. unfold rope_line_len.
  destruct (rope_clip_point_spec r t (point R (2 ^ 32 - 1)) Left Hr Hlen) as (q & -> & Hq); [by split|].
  cbn [mbind option_bind]. f_equal. unfold clipped_row in Hq. cbn [row column] in Hq.
  destruct (N.ltb_spec (rows t) R) as [|Hle]; [by destruct Hq|]. destruct Hq as [_ Hq]. unfold clipped_col in Hq.
  destruct (N.leb_spec (len (row_text t R)) (2 ^ 32 - 1)); [done|].
  destruct (row_split R t Hle) as (x & rest & Heq & _). pose proof (f_equal len Heq) as E. rewrite !len_app in E. lia.
Qed.
End grapheme.
