(* ===== verification/RopeEdit.v ===== *)
(** * RopeEdit: editing a rope against its text

    [push], [append], [push_front], [slice] and [replace] of [Rope] do to the text what
    their names say, and keep its invariant: chunks fit their texts, and all of them but
    the last hold at least [MIN_BASE - 3] bytes ([check_invariants] in the code). *)

From S2P Require Import Prelude Bits Utf8 SumTree SumTreeSpec SumTreeFind Cursor CursorSpec CursorFacts.
From S2P Require Import TextSummary Chunk ChunkFacts ChunkConvert Rope RopeFacts RopeConvert.

(** ** The invariant *)

Definition full (c : Chunk) : Prop := MIN_BASE ≤ len (chunk_text c) + 3.

(** What [check_invariants] asserts. *)
Definition filled (l : list Chunk) : Prop := ∀ k c, l = k ++ [c] → Forall full k.

Definition rope_inv (r : Rope) (t : str) : Prop := repr r t ∧ filled (to_list r).

Lemma filled_nil : filled [].
Proof. by intros [|] ? ?. Qed.

Lemma filled_snoc k c : filled (k ++ [c]) ↔ Forall full k.
Proof.
  split; [intros H; by apply (H k c)|]. intros H k' c' E. by apply app_inj_tail in E as [<- _].
Qed.

Lemma filled_singleton c : filled [c].
Proof. apply (filled_snoc []). constructor. Qed.

Lemma filled_app l1 l2 : l2 ≠ [] → filled (l1 ++ l2) ↔ Forall full l1 ∧ filled l2.
Proof.
  intros Hne. apply nonempty_snoc in Hne as (k & c & ->). rewrite (assoc_L (++)), !filled_snoc. by rewrite Forall_app.
Qed.

Lemma filled_l l1 l2 : filled (l1 ++ l2) → filled l1.
Proof.
  destruct (decide (l2 = [])) as [->|Hne]; [by rewrite app_nil_r|]. rewrite filled_app by done.
  intros [H _] k c ->. by apply Forall_app in H as [? _].
Qed.

Lemma filled_r l1 l2 : filled (l1 ++ l2) → filled l2.
Proof.
  destruct (decide (l2 = [])) as [->|Hne]; [intros; apply filled_nil|]. rewrite filled_app by done. by intros [_ ?].
Qed.

(** The outcome of an operation: no panic, and a rope of this text. *)
Definition roped (t : str) (res : option Rope) : Prop := ∃ r, res = Some r ∧ rope_inv r t.

Lemma rope_inv_new : rope_inv rope_new [].
Proof. split; [apply repr_new|apply filled_nil]. Qed.

Lemma yields_roped l t res : yields l res → Forall chunk_ok l → filled l → texts l = t → roped t res.
Proof.
  intros (r & h & -> & Hw & <-) Hc Hf Ht. exists r. split; [done|]. split; [|done]. by split; [exists h|].
Qed.

(** ** Pieces of a text *)

Definition pieces_ok (ps : list str) : Prop := Forall (λ p, fits p ∧ p ≠ []) ps.

(** A piece that is not the last one holds at least [MAX_BASE - 3] bytes. *)
Definition long_pieces (ps : list str) : Prop := ∀ k p, ps = k ++ [p] → Forall (λ p, MAX_BASE - 3 ≤ len p) k.

Lemma split_pieces_spec fuel t : (length t ≤ fuel)%nat → utf8 t →
  ∃ ps, split_pieces fuel t = Some ps ∧ pieces_ok ps ∧ concat ps = t ∧ long_pieces ps.
Proof.
  revert t. induction fuel as [|fuel IH]; intros t Hl Ht.
  { destruct t; [|cbn in Hl; lia]. exists []. split_and!; [done|constructor|done|by intros [|] ? ?]. }
  destruct t as [|x t0]; [exists []; split_and!; [done|constructor|done|by intros [|] ? ?]|].
  set (t := x :: t0) in *. cbn [split_pieces]. fold t.
  set (m := N.min MAX_BASE (len t)).
  destruct (boundary_below_spec t (N.to_nat m)) as (Hle & Hb & Hmax). rewrite N2Nat.id in *.
  assert (Hm : m - 3 ≤ boundary_below t (N.to_nat m)).
  { destruct (boundary_near t (m - 3) Ht ltac:(lia)) as (j & Hj & Hbj).
    destruct (N.le_gt_cases j (boundary_below t (N.to_nat m))); [lia|].
    destruct (N.le_gt_cases j m); [by rewrite Hmax in Hbj by lia|]. lia. }
  set (j := boundary_below t (N.to_nat m)) in *.
  assert (Hj0 : 0 < j).
  { destruct (N.lt_ge_cases 3 m); [lia|]. assert (Hlen : m = len t).
    { unfold m, MAX_BASE, BITS in *. lia. }
    destruct (N.eq_dec j 0) as [E|]; [|lia]. pose proof (boundary_len t) as Hbl.
    assert (0 < len t) by (unfold t; len). rewrite Hmax in Hbl by lia. done. }
  unfold str_split_at. rewrite Hb. cbn [mbind option_bind].
  destruct (IH (ldrop j t)) as (ps & -> & Hps & Hcat & Hlong).
  { unfold ldrop. rewrite length_drop. clearbody j. lia. }
  { by apply utf8_ldrop. }
  cbn [mbind option_bind]. exists (ltake j t :: ps). split_and!; [done|..].
  - constructor; [|done]. split; [split; [by apply utf8_ltake|rewrite len_ltake; lia]|].
    intros E%len_0. rewrite len_ltake in E. lia.
  - cbn. by rewrite Hcat, ltake_ldrop.
  - intros [|p k] p' E; [constructor|]. injection E as <- ->. constructor; [|by apply (Hlong k p')].
    rewrite len_ltake. assert (ldrop j t ≠ []) as Hd.
    { rewrite <- Hcat, concat_app. intros [_ Hp]%app_nil. apply Forall_app in Hps as [_ Hps].
      rewrite Forall_singleton in Hps. cbn in Hp. rewrite app_nil_r in Hp. by destruct Hps. }
    rewrite <- len_0, len_ldrop in Hd. destruct (N.le_gt_cases (len t) MAX_BASE); [|lia].
    exfalso. apply Hd. assert (m = len t) by lia. pose proof (boundary_len t) as Hbl.
    destruct (N.eq_dec j (len t)); [lia|]. rewrite Hmax in Hbl by lia. done.
Qed.

Lemma mapM_chunk_new ps : pieces_ok ps → mapM chunk_new ps = Some (chunk_of <$> ps).
Proof.
  induction 1 as [|p ps [Hp _] _ IH]; [done|]. cbn. rewrite chunk_new_spec by done. cbn. by rewrite IH.
Qed.

Lemma pieces_chunks ps : pieces_ok ps → long_pieces ps →
  Forall chunk_ok (chunk_of <$> ps) ∧ texts (chunk_of <$> ps) = concat ps ∧ filled (chunk_of <$> ps).
Proof.
  intros Hps Hlong. split_and!.
  - induction Hps as [|p ps [? ?] _ IH]; [constructor|]. constructor; [by apply chunk_ok_of|].
    apply IH. intros k p' ->. specialize (Hlong (p :: k) p' eq_refl). by apply Forall_cons in Hlong as [_ ?].
  - unfold texts. f_equal. clear. induction ps as [|p ps IH]; [done|]. cbn. by f_equal.
  - intros k c E. apply fmap_app_inv in E as (k' & [|p [|]] & -> & E & ->); try done. injection E as ->.
    apply Forall_fmap. eapply Forall_impl; [by apply (Hlong k' p)|].
    intros q Hq. unfold compose, full. change MIN_BASE with 64. change MAX_BASE with 128 in Hq.
    change (chunk_text (chunk_of q)) with q. cbn beta in Hq. lia.
Qed.

(** Four chunks hold what [push] does not leave to [push_large]. *)
Lemma pieces_count ps : pieces_ok ps → long_pieces ps →
  len (concat ps) ≤ NUM_CHUNKS * MAX_BASE - NUM_CHUNKS * 4 → len ps ≤ NUM_CHUNKS.
Proof.
  intros Hps Hlong. destruct ps as [|p ps _] using rev_ind; [done|].
  specialize (Hlong ps p eq_refl). change (NUM_CHUNKS * MAX_BASE - NUM_CHUNKS * 4) with 496. change NUM_CHUNKS with 4.
  rewrite concat_app, !len_app, len_cons, len_nil. cbn [concat]. rewrite app_nil_r. intros Hle.
  assert (125 * len ps ≤ len (concat ps)).
  { clear -Hlong. induction Hlong as [|q ps Hq _ IH]; [done|]. cbn [concat]. rewrite len_app, len_cons.
    unfold MAX_BASE, BITS in Hq. lia. }
  apply Forall_app in Hps as [_ Hps]. rewrite Forall_singleton in Hps. destruct Hps as [_ Hp].
  rewrite <- len_0 in Hp. lia.
Qed.

(** ** Pushing *)

(** Naming the result of the conditional in the goal or the hypotheses. *)
Ltac name_if ix :=
  match goal with
  | |- context [if ?c then ?a else ?b] => set (ix := if c then a else b) in *
  | _ : context [if ?c then ?a else ?b] |- _ => set (ix := if c then a else b) in *
  end.

(** How much of [u] goes to a last chunk of [n] bytes. *)
Lemma split_ix_spec n u : utf8 u → n ≤ MAX_BASE →
  let ix := if n + len u <=? MAX_BASE then len u
            else boundary_above u (length u) (N.min (MIN_BASE - n) (len u)) in
  ix ≤ len u ∧ str_is_char_boundary u ix = true ∧ n + ix ≤ MAX_BASE ∧
  (ix < len u → MIN_BASE ≤ n + ix ∧ MAX_BASE < n + len u ∧ (n < MIN_BASE → n + ix ≤ MIN_BASE + 3) ∧ (MIN_BASE ≤ n → ix = 0)).
Proof.
  intros Hu Hn. change MIN_BASE with 64. change MAX_BASE with 128 in *. cbv zeta.
  destruct (N.leb_spec (n + len u) 128) as [|Hgt]; [split_and!; [lia|apply boundary_len|lia|lia]|].
  set (i := N.min (64 - n) (len u)).
  destruct (boundary_above_spec u (length u) i) as ([Hge Hle] & Hb & Hmin); [unfold len in *; lia|lia|].
  set (j := boundary_above u (length u) i) in *.
  assert (Hj : j ≤ i + 3).
  { destruct (boundary_near u i Hu ltac:(lia)) as (k & Hk & Hbk).
    destruct (N.le_gt_cases j k); [lia|]. by rewrite Hmin in Hbk by lia. }
  assert (Hj0 : i = 0 → j = 0).
  { intros E. destruct (N.eq_dec j 0); [done|]. pose proof (boundary_0 u) as H0. rewrite Hmin in H0 by lia. done. }
  split_and!; [done|done| |intros]; lia.
Qed.

Lemma boundary_slice_spec u fuel i : fits u → i ≤ len u → 
  slice_boundary_above (slice_of u) fuel i = boundary_above u fuel i.
Proof.
  intros Hu Hi. revert i Hi. induction fuel as [|fuel IH]; intros i Hi; [done|]. cbn.
  assert (i < 2 ^ 32) by (destruct Hu; unfold MAX_BASE, BITS in *; lia).
  rewrite slice_boundary_spec by done. destruct (str_is_char_boundary u i) eqn:E; [done|].
  apply IH. destruct (N.eq_dec i (len u)) as [->|]; [by rewrite boundary_len in E|lia].
Qed.

(** What the closures of [push] and [push_chunk] do to the last chunk. *)
Definition cut (x : Chunk) (u u1 u2 : str) : Prop :=
  u = u1 ++ u2 ∧ utf8 u1 ∧ utf8 u2 ∧ len (chunk_text x ++ u1) ≤ MAX_BASE ∧
  (u2 ≠ [] → MIN_BASE ≤ len (chunk_text x ++ u1) ∧ MAX_BASE < len (chunk_text x ++ u) ∧
     (len (chunk_text x) < MIN_BASE → len (chunk_text x ++ u1) ≤ MIN_BASE + 3) ∧
     (MIN_BASE ≤ len (chunk_text x) → u1 = [])).

Lemma split_ix_cut x u ix : chunk_ok x → utf8 u →
  ix = (if len (chunk_text x) + len u <=? MAX_BASE then len u
        else boundary_above u (length u) (N.min (MIN_BASE - len (chunk_text x)) (len u))) →
  str_is_char_boundary u ix = true ∧ cut x u (ltake ix u) (ldrop ix u).
Proof.
  intros [[Hx Hxl] _] Hu ->. destruct (split_ix_spec (len (chunk_text x)) u Hu Hxl) as (Hle & Hb & Hmax & Hrest).
  name_if ix. clearbody ix. split; [done|]. unfold cut. rewrite !len_app, len_ltake.
  split_and!; [by rewrite ltake_ldrop|by apply utf8_ltake|by apply utf8_ldrop|lia|].
  intros Hne. rewrite <- len_0, len_ldrop in Hne. destruct Hrest as (H1 & H2 & H3 & H4); [lia|].
  split_and!; [lia|lia|lia|]. intros H. by rewrite H4.
Qed.

Lemma push_closure_spec x u : chunk_ok x → utf8 u →
  ∃ u1 u2, push_closure u x = Some (chunk_of (chunk_text x ++ u1), u2) ∧ cut x u u1 u2.
Proof.
  intros Hx Hu. unfold push_closure. name_if ix.
  destruct (split_ix_cut x u ix Hx Hu eq_refl) as (Hb & Hcut). exists (ltake ix u), (ldrop ix u). split; [|done].
  unfold str_split_at. rewrite Hb. cbn [mbind option_bind].
  destruct Hcut as (_ & H1 & _ & Hlen & _). destruct Hx as ((Hx & _) & _ & Hc). rewrite Hc at 1.
  rewrite chunk_push_str_spec; [done|done|done|]. by rewrite len_app in Hlen.
Qed.

Lemma push_chunk_closure_spec x u : chunk_ok x → fits u →
  ∃ u1 u2, push_chunk_closure (slice_of u) x = Some (chunk_of (chunk_text x ++ u1), slice_of u2) ∧ cut x u u1 u2.
Proof.
  intros Hx Hu. unfold push_chunk_closure. change (slice_len (slice_of u)) with (len u).
  change (slice_text (slice_of u)) with u. rewrite boundary_slice_spec by (done || lia). name_if ix.
  destruct (split_ix_cut x u ix Hx (proj1 Hu) eq_refl) as (Hb & Hcut). exists (ltake ix u), (ldrop ix u). split; [|done].
  rewrite slice_split_at_spec by done. cbn [mbind option_bind].
  destruct Hcut as (_ & H1 & _ & Hlen & _). destruct Hx as ((Hx & _) & _ & Hc). rewrite Hc at 1.
  rewrite chunk_append_spec; [done|done|done|]. by rewrite len_app in Hlen.
Qed.

Lemma texts_singleton c : texts [c] = chunk_text c.
Proof. apply app_nil_r. Qed.

(** The chunks [k ++ [x]] after the last one has taken its part of [u] and the chunks
    [ns] hold the rest. *)
Lemma cut_chunks k x u u1 u2 ns : Forall chunk_ok (k ++ [x]) → filled (k ++ [x]) → cut x u u1 u2 →
  Forall chunk_ok ns → filled ns → texts ns = u2 →
  Forall chunk_ok ((k ++ [chunk_of (chunk_text x ++ u1)]) ++ ns) ∧
  filled ((k ++ [chunk_of (chunk_text x ++ u1)]) ++ ns) ∧
  texts ((k ++ [chunk_of (chunk_text x ++ u1)]) ++ ns) = texts (k ++ [x]) ++ u.
Proof.
  intros [Hk Hx]%Forall_app Hf (-> & H1 & H2 & Hlen & Hrest) Hns Hfns <-. rewrite Forall_singleton in Hx.
  rewrite filled_snoc in Hf. split_and!.
  - rewrite !Forall_app, Forall_singleton. split_and!; try done. destruct Hx as ((Hx & _) & Hne & _).
    apply chunk_ok_of; [by split; [apply utf8_app|]|]. by intros [? _]%app_nil.
  - destruct (decide (ns = [])) as [->|Hne]; [by rewrite app_nil_r, filled_snoc|].
    rewrite filled_app, Forall_app, Forall_singleton by done. split_and!; try done.
    destruct Hrest as [Hge _]; [intros E; by apply texts_nil in E|].
    unfold full. change (chunk_text (chunk_of ?t)) with t. lia.
  - rewrite !texts_app, !texts_singleton. cbn [chunk_text chunk_of]. by rewrite <- !(assoc_L (++)).
Qed.

Lemma cut_full x u u1 u2 : cut x u u1 u2 → MIN_BASE ≤ len u + 3 →
  full (chunk_of (chunk_text x ++ u1)) ∧ (u2 ≠ [] → full (chunk_of u2)).
Proof.
  intros (-> & _ & _ & _ & Hrest) Hu. unfold full. cbn [chunk_text chunk_of].
  change MIN_BASE with 64 in *. change MAX_BASE with 128 in *. rewrite !len_app in *.
  destruct (decide (u2 = [])) as [->|Hne]; [rewrite len_nil in *; split; [lia|done]|].
  destruct (Hrest Hne) as (H1 & H2 & H3 & H4). split; [lia|intros _].
  destruct (N.lt_ge_cases (len (chunk_text x)) 64) as [Hlt|Hge]; [lia|]. rewrite (H4 Hge), len_nil in *. lia.
Qed.

(** A chunk that is [full] leaves no other chunk that is not. *)
Lemma rope_push_chunk_spec r t u : rope_inv r t → fits u →
  ∃ r', rope_push_chunk r (slice_of u) = Some r' ∧ rope_inv r' (t ++ u) ∧
    (MIN_BASE ≤ len u + 3 → Forall full (to_list r')).
Proof.
  intros [((h & Hw) & Hc & <-) Hf] Hu. unfold rope_push_chunk.
  destruct (decide (to_list r = [])) as [E|Hne].
  - rewrite (proj1 (update_empty _ h r Hw E)). cbn [mbind option_bind default id]. rewrite E.
    destruct u as [|b u'] eqn:Eu.
    { exists r. unfold rope_inv, repr. rewrite E. split_and!; try done; [by exists h|apply filled_nil]. }
    rewrite <- Eu in *. replace (slice_is_empty (slice_of u)) with false by by rewrite Eu.
    rewrite slice_into_spec by done. cbn [mbind option_bind].
    assert (Hok : chunk_ok (chunk_of u)) by (apply chunk_ok_of; [done|by rewrite Eu]).
    destruct (push_spec h r _ Hw (chunk_ok_valid _ Hok)) as (r' & h' & -> & Hw' & Hl'). rewrite E in Hl'. cbn [app] in Hl'.
    exists r'. unfold rope_inv, repr. rewrite Hl', texts_singleton, !Forall_singleton.
    split_and!; try done; [by exists h'|apply filled_singleton].
  - apply nonempty_snoc in Hne as (k & x & E). rewrite E in *. pose proof Hc as [_ Hx]%Forall_app.
    rewrite Forall_singleton in Hx.
    destruct (push_chunk_closure_spec x u Hx Hu) as (u1 & u2 & Hcl & Hcut).
    pose proof (cut_full _ _ _ _ Hcut) as Hfull. pose proof Hf as Hk%filled_snoc.
    destruct (cut_chunks k x u u1 u2 (if decide (u2 = []) then [] else [chunk_of u2]) Hc Hf Hcut) as (Hc' & Hf' & Ht').
    { destruct (decide _); [constructor|]. rewrite Forall_singleton. apply chunk_ok_of; [|done].
      destruct Hcut as (-> & H1 & H2 & _). by apply fits_app_r in Hu. }
    { destruct (decide _); [apply filled_nil|apply filled_singleton]. }
    { destruct (decide (u2 = [])) as [->|]; [done|]. apply texts_singleton. }
    assert (Hy : chunk_ok (chunk_of (chunk_text x ++ u1))).
    { rewrite !Forall_app, Forall_singleton in Hc'. tauto. }
    destruct (update_last_spec _ h r k x _ _ Hw E Hcl (chunk_ok_valid _ Hy)) as (r' & -> & Hw' & Hl').
    cbn [mbind option_bind default id]. destruct (decide (u2 = [])) as [->|Hne2].
    + exists r'. rewrite app_nil_r in *. unfold rope_inv, repr. rewrite Hl'.
      split_and!; try done; [by exists h|]. intros Hu'. rewrite Forall_app, Forall_singleton. by destruct (Hfull Hu').
    + replace (slice_is_empty (slice_of u2)) with false by (by destruct u2).
      rewrite slice_into_spec by (destruct Hcut as (-> & H1 & H2 & _); by apply fits_app_r in Hu).
      cbn [mbind option_bind]. rewrite !Forall_app, !Forall_singleton in Hc'.
      destruct (push_spec h r' (chunk_of u2) Hw') as (r'' & h'' & -> & Hw'' & Hl''); [apply chunk_ok_valid; tauto|].
      rewrite Hl' in Hl''. exists r''. unfold rope_inv, repr. rewrite Hl''.
      split_and!; try done; [by exists h''|rewrite !Forall_app, !Forall_singleton; tauto|].
      intros Hu'. rewrite !Forall_app, !Forall_singleton. destruct (Hfull Hu'). auto.
Qed.

Lemma rope_push_rest_spec r t u l : rope_inv r t → utf8 u →
  to_list r = l → (∀ ps, pieces_ok ps → long_pieces ps → concat ps = u → filled (l ++ (chunk_of <$> ps))) →
  roped (t ++ u)
    (match u with
     | [] => Some r
     | _ :: _ =>
         if NUM_CHUNKS * MAX_BASE - NUM_CHUNKS * 4 <? len u then rope_push_large r u
         else
           new_chunks ← split_pieces (length u) u;
           if NUM_CHUNKS <? len new_chunks then None
           else chunks ← mapM chunk_new new_chunks; extend r chunks
     end).
Proof.
  intros [((h & Hw) & Hc & Ht) Hf] Hu <- Hfill. destruct u as [|b u'] eqn:Eu.
  { exists r. split; [done|]. rewrite app_nil_r. split; [by split_and!; [exists h|..]|done]. }
  rewrite <- Eu in *. clear Eu b u'.
  destruct (split_pieces_spec (length u) u ltac:(done) Hu) as (ps & Hps & Hok & Hcat & Hlong).
  destruct (pieces_chunks ps Hok Hlong) as (Hcs & Hts & _). specialize (Hfill ps Hok Hlong Hcat).
  assert (Hroped : ∀ res, yields (to_list r ++ (chunk_of <$> ps)) res → roped (t ++ u) res).
  { intros res Hy. eapply yields_roped; [done|by apply Forall_app|done|]. by rewrite texts_app, Ht, Hts, Hcat. }
  destruct (N.ltb_spec (NUM_CHUNKS * MAX_BASE - NUM_CHUNKS * 4) (len u)) as [|Hle].
  - unfold rope_push_large. rewrite Hps. cbn [mbind option_bind]. rewrite mapM_chunk_new by done. cbn [mbind option_bind].
    destruct (PARALLEL_THRESHOLD <=? len ps); apply Hroped.
    + by eapply par_extend_yields, chunks_valid.
    + by eapply extend_yields, chunks_valid.
  - rewrite Hps. cbn [mbind option_bind]. rewrite <- Hcat in Hle. apply pieces_count in Hle; [|done..].
    rewrite (proj2 (N.ltb_ge _ _)) by done. rewrite mapM_chunk_new by done. cbn [mbind option_bind].
    apply Hroped. by eapply extend_yields, chunks_valid.
Qed.

Lemma rope_push_spec r t u : rope_inv r t → utf8 u → roped (t ++ u) (rope_push r u).
Proof.
  intros Hr Hu. pose proof Hr as [((h & Hw) & Hc & Ht) Hf]. unfold rope_push.
  destruct (decide (to_list r = [])) as [E|Hne].
  - rewrite (proj1 (update_empty _ h r Hw E)). cbn [mbind option_bind default id].
    apply (rope_push_rest_spec r t u []); try done. intros ps Hok Hlong _. by apply pieces_chunks.
  - apply nonempty_snoc in Hne as (k & x & E). rewrite E in *. pose proof Hc as [_ Hx]%Forall_app.
    rewrite Forall_singleton in Hx.
    destruct (push_closure_spec x u Hx Hu) as (u1 & u2 & Hcl & Hcut).
    assert (Hcs : ∀ ps, pieces_ok ps → long_pieces ps → concat ps = u2 → _) by
      (intros ps Hok Hlong Hcat; destruct (pieces_chunks ps Hok Hlong) as (H1 & H2 & H3);
       rewrite Hcat in H2; exact (cut_chunks k x u u1 u2 _ Hc Hf Hcut H1 H3 H2)).
    destruct (split_pieces_spec (length u2) u2) as (ps & _ & Hok & Hcat & Hlong); [done|apply Hcut|].
    destruct (Hcs ps Hok Hlong Hcat) as (Hc' & _ & _).
    apply Forall_app in Hc' as [Hc' _]. pose proof Hc' as [_ Hy]%Forall_app. rewrite Forall_singleton in Hy.
    destruct (update_last_spec _ h r k x _ _ Hw E Hcl (chunk_ok_valid _ Hy)) as (r' & -> & Hw' & Hl').
    cbn [mbind option_bind default id].
    replace (t ++ u) with (texts (k ++ [chunk_of (chunk_text x ++ u1)]) ++ u2).
    2:{ rewrite <- Ht, !texts_app, !texts_singleton. cbn [chunk_text chunk_of].
        destruct Hcut as (-> & _). by rewrite <- !(assoc_L (++)). }
    apply (rope_push_rest_spec r' _ u2 (k ++ [chunk_of (chunk_text x ++ u1)])); [|apply Hcut|done|].
    + split; [split; [by exists h|split; [by rewrite Hl'|by rewrite Hl']]|]. rewrite Hl'. rewrite filled_snoc. by rewrite filled_snoc in Hf.
    + intros ps' Hok' Hlong' Hcat'. by destruct (Hcs ps' Hok' Hlong' Hcat') as (_ & ? & _).
Qed.

Lemma rope_from_str_spec u : utf8 u → roped u (rope_from_str u).
Proof. intros Hu. apply (rope_push_spec rope_new [] u rope_inv_new Hu). Qed.

(** ** Appending *)

Lemma append_roped r t s u : rope_inv r t → rope_inv s u → (to_list s ≠ [] → Forall full (to_list r)) →
  roped (t ++ u) (append r s).
Proof.
  intros [((h & Hw) & Hc & <-) Hf] [((h' & Hw') & Hc' & <-) Hf'] Hfull.
  eapply yields_roped; [by eapply append_spec|by apply Forall_app| |apply texts_app].
  destruct (decide (to_list s = [])) as [->|Hne]; [by rewrite app_nil_r|]. rewrite filled_app by done. auto.
Qed.

(** Skipping the first chunk. *)
Lemma suffix_after_first (s : Rope) h x l : wf h s → (h < 16)%nat → to_list s = x :: l →
  ∃ c1 c2 c3 rest h', next (cursor_new s : Cursor Chunk ChunkSummary unit) = Some c1 ∧ next c1 = Some c2 ∧
    suffix c2 = Some (c3, rest) ∧ wf h' rest ∧ to_list rest = l.
Proof.
  intros Hw Hh E. pose proof (cursor_new_start (D:=unit) h s Hw Hh) as Hs.
  destruct (next_start _ Hs) as (c1 & H1 & _ & Hat1). cbn [cursor_tree cursor_new] in Hat1. rewrite E in Hat1.
  destruct (next_at _ _ _ _ Hat1) as (c2 & H2 & _ & Hat2).
  destruct (suffix_at _ _ _ Hat2) as (c3 & rest & h' & H3 & Hwr & Hlr). by exists c1, c2, c3, rest, h'.
Qed.

Lemma rope_append_spec r t s u : rope_inv r t → rope_inv s u → shallow s → roped (t ++ u) (rope_append r s).
Proof.
  intros Hr Hs Hsh. pose proof Hr as [((h & Hw) & Hc & Ht) Hf]. pose proof Hs as [((h' & Hw') & Hc' & Hu) Hf'].
  unfold rope_append. rewrite (tree_first_spec _ _ Hw'). cbn [mbind option_bind].
  destruct (to_list s) as [|x l] eqn:E; cbn [head].
  { apply append_roped; [done..|]. by rewrite E. }
  rewrite (tree_last_spec _ _ Hw). cbn [mbind option_bind].
  apply Forall_cons in Hc' as [Hx Hl]. pose proof Hx as (Hxf & _ & Hxc).
  assert (Hfx : l ≠ [] → full x).
  { intros Hne. change (x :: l) with ([x] ++ l) in Hf'. rewrite filled_app, Forall_singleton in Hf' by done. by destruct Hf'. }
  destruct (_ || _) eqn:Econd.
  - replace (as_slice x) with (slice_of (chunk_text x)) by (by rewrite Hxc at 2).
    destruct (rope_push_chunk_spec r t (chunk_text x) Hr Hxf) as (r1 & -> & Hr1 & Hfull). cbn [mbind option_bind].
    destruct (suffix_after_first s h' x l Hw') as (c1 & c2 & c3 & rest & hr & -> & H2 & H3 & Hwr & Hlr).
    { by rewrite <- (wf_height _ _ Hw'). } { done. }
    cbn [mbind option_bind]. rewrite H2. cbn [mbind option_bind]. rewrite H3. cbn [mbind option_bind].
    rewrite texts_cons in Hu. rewrite <- Hu, (assoc_L (++)). apply append_roped; [done|..].
    + unfold rope_inv, repr. rewrite Hlr. split_and!; try done; [by exists hr|].
      change (x :: l) with ([x] ++ l) in Hf'. by apply filled_r in Hf'.
    + rewrite Hlr. intros Hne. apply Hfull. by apply Hfx.
  - apply orb_false_iff in Econd as [E1 E2]. apply append_roped; [done..|]. intros _.
    destruct (decide (to_list r = [])) as [->|Hne]; [constructor|].
    apply nonempty_snoc in Hne as (k & y & Ek). rewrite Ek, last_snoc in *. rewrite filled_snoc in Hf.
    apply Forall_app. split; [done|]. rewrite Forall_singleton. apply N.ltb_ge in E1. unfold full. lia.
Qed.

Lemma rope_push_front_spec r t u : rope_inv r t → utf8 u → shallow r → roped (u ++ t) (rope_push_front r u).
Proof.
  intros Hr Hu Hsh. pose proof Hr as [((h & Hw) & Hc & Ht) Hf]. unfold rope_push_front.
  destruct u as [|b u'] eqn:Eu; [by exists r|]. rewrite <- Eu in *. clear Eu b u'.
  unfold rope_is_empty. rewrite (rope_len_spec r t) by apply Hr.
  destruct (N.eqb_spec (len t) 0) as [E%len_0|Hne].
  { rewrite E in *. rewrite app_nil_r. apply (rope_push_spec r [] u Hr Hu). }
  rewrite (tree_first_spec _ _ Hw). cbn [mbind option_bind].
  assert (Happ : roped (u ++ t) (new ← rope_from_str u; rope_append new r)).
  { destruct (rope_from_str_spec u Hu) as (new & -> & Hnew). cbn [mbind option_bind]. by apply rope_append_spec. }
  destruct (to_list r) as [|x l] eqn:E; cbn [head]; [done|].
  destruct (N.leb_spec (len (chunk_text x) + len u) MAX_BASE) as [Hle|]; [|done].
  apply Forall_cons in Hc as [Hx Hl]. destruct Hx as ((Hx8 & Hxl) & Hxne & Hxc).
  assert (Hy : chunk_ok (chunk_of (u ++ chunk_text x))).
  { apply chunk_ok_of; [split; [by apply utf8_app|len]|]. by intros [_ ?]%app_nil. }
  assert (Hpre : (c ← chunk_prepend_str x u; Some (c, ())) = Some (chunk_of (u ++ chunk_text x), ())).
  { rewrite Hxc at 1. by rewrite chunk_prepend_str_spec by (done || lia). }
  destruct (update_first_spec (λ c, c ← chunk_prepend_str c u; Some (c, ())) h r l x _ () Hw E Hpre
    (chunk_ok_valid _ Hy)) as (r' & -> & Hw' & Hl').
  cbn [mbind option_bind]. exists r'. unfold rope_inv, repr. rewrite Hl'. split_and!; [done|by exists h|by constructor| |].
  - rewrite texts_cons in *. rewrite <- Ht. cbn [chunk_text chunk_of]. by rewrite (assoc_L (++)).
  - destruct (decide (l = [])) as [->|Hnl]; [apply filled_singleton|].
    change (?a :: l) with ([a] ++ l). change (x :: l) with ([x] ++ l) in Hf.
    rewrite filled_app, Forall_singleton in * by done. destruct Hf as [Hf ?]. split; [|done].
    unfold full in *. cbn [chunk_text chunk_of]. len.
Qed.
