(* ===== verification/RopeSlice.v ===== *)
(** * RopeSlice: the cursor of a rope, slices and replacement

    The cursor of [Rope] stands at an offset of the text ([rc_at]); from there [slice]
    builds the rope of the text up to another offset, and [summary] measures it in any
    dimension.  [Rope::slice] and [Rope::replace] follow.

    The subtrees that a cursor joins to a slice could be higher than the 16 entries of
    a cursor's stack: [rc_shallow] says that they are not, and is decided by computing
    the slice. *)

From S2P Require Import Prelude Bits Utf8 SumTree SumTreeSpec SumTreeFind Cursor CursorSpec CursorFacts.
From S2P Require Import TextSummary Chunk ChunkFacts ChunkConvert Rope RopeFacts RopeConvert RopeEdit.

(** ** The invariant *)

(** The cursor stands at offset [o] of the text [t] of [r]: within a chunk, at its end,
    or behind the last one. *)
Record rc_at (c : RopeCursor) (r : Rope) (t : str) (o : N) : Prop := {
  rc_at_rope : rc_rope c = r;
  rc_at_inv : rope_inv r t;
  rc_at_offset : rc_offset c = o;
  rc_at_tree : cursor_tree (rc_chunks c) = r;
  rc_at_chunks : ∃ before after, cursor_at (rc_chunks c) before after ∧ to_list r = before ++ after ∧
    len (texts before) ≤ o ≤ len (texts before) + match after with x :: _ => len (chunk_text x) | [] => 0 end
}.

(** The rope of whole chunks that [rc_slice] puts in the middle. *)
Definition rc_middle (c : RopeCursor) (end_offset : N) : option Rope :=
  chunks ← next (rc_chunks c);
  '(_, middle) ← Cursor.slice (at_offset end_offset) Right chunks;
  Some middle.
Definition rc_shallow (c : RopeCursor) (end_offset : N) : Prop :=
  match rc_middle c end_offset with Some middle => shallow middle | None => True end.

Lemma pos_len l : Forall chunk_ok l → pos (D:=N) dim_zero l = len (texts l).
Proof. intros H. exact (pos_zero_texts (D:=N) l H). Qed.

Lemma offset_ascending e a l : Forall chunk_ok l → len (a ++ texts l) < 2 ^ 32 → utf8 a →
  ascending (at_offset e) (len a) l.
Proof.
  intros Hl Hlen Ha. refine (texts_ascending (D:=N) (at_offset e) a l Ha Hl _). intros x y z E Hx Hy. cbn [measure measure_usize].
  unfold at_offset, seek_key. rewrite len_app.
  change (cmp e ?x) with (e ?= x). destruct (N.compare_spec e (len x + len y)), (N.compare_spec e (len x)); cbn; lia.
Qed.

Lemma parts_offset e a l before after : utf8 a → Forall chunk_ok l →
  parts (at_offset e) Right (len a) l before after →
  l = before ++ after ∧ (before = [] ∨ len (a ++ texts before) ≤ e) ∧
  match after with c :: _ => e < len (a ++ texts before ++ chunk_text c) | [] => True end.
Proof.
  intros Ha Hl Hp.
  pose proof (parts_key (K:=N) (D:=N) (λ d, d) (λ _, eq_refl) e Right a l before after Ha Hl) as Hk.
  destruct (Hk Hp) as (-> & Hbe & Haf). clear Hk Hp.
  split_and!; [done|..].
  - destruct Hbe as [->|Hbe]; [by left|right]. by apply (behind_order (K:=N) (Hkey:=key_usize)) in Hbe.
  - destruct after as [|x after]; [done|].
    rewrite (behind_order (K:=N) (Hkey:=key_usize)) in Haf. by apply N.nle_gt.
Qed.

(** Seeking forward to [e] with any aggregate: the chunks passed, and the chunk that
    holds [e]. *)
Lemma seek_to_offset {A} `{!SeekAggregate A Chunk ChunkSummary, !SeekAggregateLaws A Chunk ChunkSummary}
    (c : Cursor Chunk ChunkSummary N) b r e (a : A) :
  cursor_at c b r → Forall chunk_ok (b ++ r) → len (texts (b ++ r)) < 2 ^ 32 → holds a [] [] →
  len (texts b) ≤ e ≤ len (texts (b ++ r)) →
  ∃ sk rest c' a' found, r = sk ++ rest ∧ seek_internal (at_offset e) Right a c = Some (c', a', found) ∧
    cursor_tree c' = cursor_tree c ∧ cursor_at c' (b ++ sk) rest ∧ holds a' sk [] ∧
    len (texts (b ++ sk)) ≤ e ≤ len (texts (b ++ sk)) + match rest with x :: _ => len (chunk_text x) | [] => 0 end.
Proof.
  intros Hat Hok Hlen Ha He. pose proof Hok as [Hb Hr]%Forall_app.
  destruct (seek_internal_at (at_offset e) Right c b r a Hat Ha) as (sk & rest & c' & a' & found & Hs & Hres & Ht & Hat' & Ha' & _).
  { rewrite pos_len by done. unfold at_offset, seek_key. change (cmp e ?x) with (e ?= x).
    destruct (N.compare_spec e (len (texts b))); done || lia. }
  { rewrite pos_len by done. apply offset_ascending; [done| |by apply texts_utf8]. by rewrite <- texts_app. }
  apply split_at_parts in Hs. rewrite pos_len in Hs by done.
  apply parts_offset in Hs as (-> & Hbe & Haf); [|by apply texts_utf8|done].
  exists sk, rest, c', a', found. rewrite texts_app. split_and!; try done.
  - destruct Hbe as [->|Hbe]; [cbn; rewrite app_nil_r; lia|done].
  - destruct rest as [|x rest]; [rewrite app_nil_r, texts_app in He; lia|len].
Qed.

Lemma slice_to_offset (c : Cursor Chunk ChunkSummary N) b r e :
  cursor_at c b r → Forall chunk_ok (b ++ r) → len (texts (b ++ r)) < 2 ^ 32 →
  len (texts b) ≤ e ≤ len (texts (b ++ r)) →
  ∃ sk rest c' m h, r = sk ++ rest ∧ Cursor.slice (at_offset e) Right c = Some (c', m) ∧
    cursor_tree c' = cursor_tree c ∧ cursor_at c' (b ++ sk) rest ∧ wf h m ∧ to_list m = sk ∧
    len (texts (b ++ sk)) ≤ e ≤ len (texts (b ++ sk)) + match rest with x :: _ => len (chunk_text x) | [] => 0 end.
Proof.
  intros Hat Hok Hlen He. unfold Cursor.slice.
  destruct (seek_to_offset (A:=SliceSeekAggregate Chunk ChunkSummary) c b r e
    {| slice_tree := tree_new; leaf_items := []; leaf_item_summaries := []; leaf_summary := summary_zero |} Hat)
    as (sk & rest & c' & agg & found & -> & -> & Htr & Hat' & ((h & Hw) & Hl & _) & He');
    [done..|apply empty_slice_holds|done|].
  by exists sk, rest, c', (slice_tree agg), h.
Qed.

(** What [slice] takes of the chunk it starts in and of the one it ends in. *)
Lemma slice_chunk b x a i j : chunk_ok x → utf8 b → utf8 a → len (b ++ chunk_text x ++ a) < 2 ^ 32 →
  len b ≤ i ≤ j → j ≤ len b + len (chunk_text x) →
  str_is_char_boundary (b ++ chunk_text x ++ a) i = true →
  str_is_char_boundary (b ++ chunk_text x ++ a) j = true →
  let u := ltake (j - i) (ldrop (i - len b) (chunk_text x)) in
  chunk_slice_range x (usub i (len b)) (usub j (len b)) = Some (slice_of u) ∧ fits u.
Proof.
  intros (Hfit & _ & Hx) Hb Ha Hl Hi Hj Hbi Hbj. cbv zeta. rewrite !len_app in Hl.
  rewrite !usub_within by lia.
  assert (Hbd : ∀ k, len b ≤ k ≤ len b + len (chunk_text x) → str_is_char_boundary (b ++ chunk_text x ++ a) k = true →
    str_is_char_boundary (chunk_text x) (k - len b) = true).
  { intros k Hk. replace k with (len b + (k - len b)) at 1 by lia.
    rewrite boundary_app_r by (by apply utf8_app; [apply Hfit|]). rewrite boundary_app_l by (done || lia). done. }
  pose proof (Hbd i ltac:(lia) Hbi) as Hi'. pose proof (Hbd j ltac:(lia) Hbj) as Hj'.
  replace (j - i) with (j - len b - (i - len b)) by lia. unfold chunk_slice_range. rewrite Hx at 1. rewrite as_slice_of.
  split; [apply slice_slice_spec; try done; lia|]. destruct Hfit as [Hx8 Hxl]. split; [|len].
  apply utf8_ltake; [by apply utf8_ldrop|].
  set (m := i - len b) in *. set (n := j - len b) in *. assert (m ≤ n) by lia. clearbody m n.
  destruct (utf8_split (chunk_text x) m Hx8 Hi') as (t1 & t2 & E & <- & Ht1 & Ht2). rewrite E in *.
  rewrite ldrop_app_len. replace n with (len t1 + (n - len t1)) in Hj' by lia. by rewrite boundary_app_r in Hj'.
Qed.

Lemma end_chunk_spec b y l e : Forall chunk_ok b → Forall chunk_ok (y :: l) →
  len (texts b ++ texts (y :: l)) < 2 ^ 32 → str_is_char_boundary (texts b ++ texts (y :: l)) e = true →
  len (texts b) ≤ e ≤ len (texts b) + len (chunk_text y) →
  let u := ltake (e - len (texts b)) (texts (y :: l)) in
  chunk_slice_range y 0 (usub e (len (texts b))) = Some (slice_of u) ∧ fits u.
Proof.
  intros Hb [Hy Hl]%Forall_cons Hlen Hbe He. cbv zeta. rewrite texts_cons in *.
  assert (utf8 (texts b)) by by apply texts_utf8. assert (utf8 (texts l)) by by apply texts_utf8.
  destruct (slice_chunk (texts b) y (texts l) (len (texts b)) e Hy) as [Hs3 Hfit3]; try done; try lia.
  { apply boundary_app. by apply utf8_app; [apply Hy|]. }
  rewrite N.sub_diag, ldrop_0 in *. rewrite (usub_within (len (texts b))), N.sub_diag in Hs3 by (len || lia).
  by rewrite ltake_app_l by lia.
Qed.

Lemma end_piece_spec s u b l e : rope_inv s u → Forall chunk_ok b → Forall chunk_ok l →
  len (texts b ++ texts l) < 2 ^ 32 → str_is_char_boundary (texts b ++ texts l) e = true →
  len (texts b) ≤ e ≤ len (texts b) + match l with x :: _ => len (chunk_text x) | [] => 0 end →
  roped (u ++ ltake (e - len (texts b)) (texts l))
    (match head l with
     | Some end_chunk =>
         s' ← chunk_slice_range end_chunk 0 (usub e (len (texts b)));
         rope_push_chunk s s'
     | None => Some s
     end).
Proof.
  intros Hs Hb Hl Hlen Hbe He. destruct l as [|y l]; cbn [head].
  { exists s. split; [done|]. change (texts []) with (@nil N). unfold ltake. by rewrite take_nil, app_nil_r. }
  destruct (end_chunk_spec b y l e) as [-> Hfit]; try done. cbn [mbind option_bind].
  destruct (rope_push_chunk_spec _ _ _ Hs Hfit) as (s3 & -> & Hs3' & _). by exists s3.
Qed.

(** The text between two positions: the rest of a chunk, whole chunks, and the start of
    the last one. *)
Lemma text_between b x sk rest o e :
  len (texts b) ≤ o ≤ len (texts b) + len (chunk_text x) → len (texts ((b ++ [x]) ++ sk)) ≤ e →
  ltake (e - o) (ldrop o (texts b ++ chunk_text x ++ texts (sk ++ rest))) =
  (ldrop (o - len (texts b)) (chunk_text x) ++ texts sk) ++ ltake (e - len (texts ((b ++ [x]) ++ sk))) (texts rest).
Proof.
  intros Ho He. rewrite ldrop_app_r, ldrop_app_l by lia. rewrite !texts_app, texts_singleton in *.
  rewrite !len_app in *. rewrite ltake_app_r by len. rewrite ltake_app_r by len. rewrite (assoc_L (++)).
  f_equal. f_equal. len.
Qed.

Section cursor.
Context (r : Rope) (t : str) (Hr : rope_inv r t) (Hsh : shallow r) (Hlen : len t < 2 ^ 32).

Lemma rope_cursor_at_spec o : o ≤ len t → ∃ c, rope_cursor_at r o = Some c ∧ rc_at c r t o.
Proof.
  intros Ho. pose proof Hr as [((h & Hw) & Hc & Ht) Hf]. unfold rope_cursor_at, seek.
  assert (Hstart : cursor_start (cursor_new r : Cursor Chunk ChunkSummary N)).
  { eapply cursor_new_start; [done|]. by rewrite <- (wf_height _ _ Hw). }
  assert (Hasc : ascending (at_offset o) dim_zero (to_list r)).
  { apply (offset_ascending o [] (to_list r)); [done|by rewrite Ht|apply utf8_nil]. }
  destruct (seek_internal_start (at_offset o) Right (cursor_new r) () Hstart)
    as (sk & rest & c' & a' & found & Hs & Hres & Htr & Hat' & _); try done.
  { unfold at_offset, seek_key. change (cmp o dim_zero) with (o ?= 0). by destruct (N.compare_spec o 0); [done|lia|]. }
  change (reset (cursor_new r)) with (cursor_new r : Cursor Chunk ChunkSummary N). rewrite Hres. cbn [mbind option_bind].
  eexists. split; [done|].
  apply split_at_parts in Hs. change (pos dim_zero []) with (len (@nil N)) in Hs.
  apply parts_offset in Hs as (Hl & Hbe & Haf); [|apply utf8_nil|done].
  cbn [cursor_tree cursor_new] in Hl. split; try done. exists sk, rest. split_and!; try done; cbn [rc_chunks].
  - destruct Hbe as [->|Hbe]; [apply N.le_0_l|done].
  - destruct rest as [|x rest]; [rewrite app_nil_r in Hl; subst sk; rewrite Ht; lia|len].
Qed.

Lemma rc_seek_forward_spec c o e : rc_at c r t o → o ≤ e ≤ len t →
  ∃ c', rc_seek_forward c e = Some c' ∧ rc_at c' r t e.
Proof.
  intros [Hrope _ Hoff Htree (before & after & Hat & Hl & Hb)] He. unfold rc_seek_forward.
  rewrite Hoff, (proj2 (N.ltb_ge _ _)) by lia. unfold seek_forward.
  pose proof Hr as [(_ & Hc & Ht) _]. rewrite Hl in *.
  destruct (seek_to_offset (A:=unit) _ before after e () Hat) as (sk & rest & c' & a' & found & -> & -> & Htr & Hat' & _ & Hb');
    [done|by rewrite Ht|done|rewrite Ht; lia|].
  cbn [mbind option_bind]. eexists. split; [done|]. split; cbn; try done; [by rewrite Htr|].
  exists (before ++ sk), rest. split_and!; try done; try lia. by rewrite Hl, <- (assoc_L (++)).
Qed.

(** The chunks around a position of the cursor. *)
Lemma rc_at_texts c o : rc_at c r t o → ∃ before after, cursor_at (rc_chunks c) before after ∧
  t = texts before ++ texts after ∧ Forall chunk_ok before ∧ Forall chunk_ok after ∧ filled (before ++ after) ∧
  to_list r = before ++ after ∧
  len (texts before) ≤ o ≤ len (texts before) + match after with x :: _ => len (chunk_text x) | [] => 0 end.
Proof.
  intros [_ _ _ _ (before & after & Hat & Hl & Hb)]. pose proof Hr as [(_ & Hc & Ht) Hf].
  rewrite Hl in *. apply Forall_app in Hc as [Hc1 Hc2]. exists before, after. by rewrite <- texts_app.
Qed.

Lemma rc_slice_spec c o e : rc_at c r t o → o ≤ e ≤ len t → rc_shallow c e →
  str_is_char_boundary t o = true → str_is_char_boundary t e = true →
  ∃ c' s, rc_slice c e = Some (c', s) ∧ rc_at c' r t e ∧ rope_inv s (ltake (e - o) (ldrop o t)).
Proof.
  intros Hcat He Hmid Hbo Hbe. destruct (rc_at_texts c o Hcat) as (before & after & Hat & Et & Hcb & Hca & Hf & Hl & Hb).
  destruct Hcat as [Hrope _ Hoff Htree _]. unfold rc_slice.
  rewrite Hoff, (proj2 (N.ltb_ge _ _)) by lia. rewrite (item_at _ _ _ Hat), (end_at _ _ _ Hat). cbn [mbind option_bind].
  unfold start. rewrite (at_position _ _ _ Hat), pos_len by done.
  assert (Hub : utf8 (texts before)) by by apply texts_utf8.
  destruct after as [|x after]; cbn [head].
  { cbn in Et. rewrite app_nil_r in Et. rewrite <- Et in *.
    cbn [mbind option_bind]. rewrite (proj2 (N.ltb_ge _ _)) by lia. do 2 eexists. split; [done|]. split.
    - split; cbn; try done. exists before, []. split_and!; try done; rewrite <- Et; lia.
    - replace (e - o) with 0 by lia. rewrite ltake_0. apply rope_inv_new. }
  apply Forall_cons in Hca as [Hx Hca].
  assert (Hua : utf8 (texts after)) by by apply texts_utf8.
  rewrite pos_len by by rewrite Forall_app, Forall_singleton. rewrite texts_app, texts_singleton, len_app.
  rewrite texts_cons in Et. set (ce := len (texts before) + len (chunk_text x)).
  destruct (slice_chunk (texts before) x (texts after) o (N.min e ce) Hx) as [Hs Hfit]; try done.
  { by rewrite <- Et. } { unfold ce. lia. } { lia. } { by rewrite <- Et. }
  { rewrite <- Et. destruct (N.min_spec e ce) as [[_ ->]|[_ ->]]; [done|]. rewrite Et. unfold ce.
    rewrite (assoc_L (++)), <- len_app. by apply boundary_app. }
  rewrite Hs. cbn [mbind option_bind]. clear Hs.
  destruct (rope_push_chunk_spec _ _ _ rope_inv_new Hfit) as (s1 & -> & Hs1 & _). rewrite app_nil_l in Hs1. cbn [mbind option_bind].
  destruct (N.ltb_spec ce e) as [Hce|Hce].
  2:{ do 2 eexists. split; [done|]. split.
    - split; cbn; try done. exists before, (x :: after). split_and!; try done; lia.
    - rewrite N.min_l in Hs1 by done. rewrite Et. rewrite ldrop_app_r by lia.
      rewrite ldrop_app_l by lia. rewrite ltake_app_l; [done|]. unfold ce in Hce. len. }
  rewrite N.min_r in Hs1 by lia.
  destruct (next_at _ _ _ _ Hat) as (ch1 & Hn & Htr1 & Hat1). unfold rc_shallow, rc_middle in Hmid.
  rewrite Hn in *. cbn [mbind option_bind] in *.
  pose proof Hf as Hf'. change (x :: after) with ([x] ++ after) in Hf'. rewrite (assoc_L (++)) in Hf'. apply filled_r in Hf'.
  destruct (slice_to_offset ch1 (before ++ [x]) after e Hat1)
    as (sk & rest & ch2 & m & hm & -> & Hsl & Htr2 & Hat2 & Hwm & Hlm & He2).
  { by rewrite !Forall_app, Forall_singleton. } { by rewrite !texts_app, texts_singleton, <- (assoc_L (++)), <- Et. }
  { rewrite !texts_app, texts_singleton, <- (assoc_L (++)), <- Et. unfold ce in *. len. }
  rewrite Hsl in *. cbn [mbind option_bind] in *. apply Forall_app in Hca as [Hsk Hrest].
  assert (Hm : rope_inv m (texts sk)).
  { split; [split_and!; [by exists hm|by rewrite Hlm..]|]. rewrite Hlm. by apply filled_l in Hf'. }
  destruct (rope_append_spec _ _ _ _ Hs1 Hm Hmid) as (s2 & -> & Hs2). cbn [mbind option_bind].
  rewrite (item_at _ _ _ Hat2). unfold start. rewrite (at_position _ _ _ Hat2). cbn [mbind option_bind].
  assert (Hcb2 : Forall chunk_ok ((before ++ [x]) ++ sk)) by by rewrite !Forall_app, Forall_singleton.
  assert (Eq : t = texts ((before ++ [x]) ++ sk) ++ texts rest).
  { rewrite Et, !texts_app, texts_singleton. by rewrite <- !(assoc_L (++)). }
  rewrite pos_len by done. rewrite ltake_ge in Hs2 by (unfold ce; len).
  destruct (end_piece_spec s2 _ ((before ++ [x]) ++ sk) rest e Hs2) as (s3 & -> & Hs3); try done.
  { by rewrite <- Eq. } { by rewrite <- Eq. }
  cbn [mbind option_bind]. do 2 eexists. split; [done|]. split.
  - split; cbn; try done; [by rewrite Htr2, Htr1|]. exists ((before ++ [x]) ++ sk), rest. split_and!; try done; try lia.
    by rewrite Hl, <- !(assoc_L (++)).
  - rewrite Et, text_between by (done || apply He2). done.
Qed.
End cursor.

(** ** Slices and replacement *)

Definition slice_shallow (r : Rope) (a b : N) : Prop :=
  ∀ c0 c, rope_cursor_at r 0 = Some c0 → rc_seek_forward c0 a = Some c → rc_shallow c b.

Lemma rope_slice_spec r t a b : rope_inv r t → shallow r → len t < 2 ^ 32 → slice_shallow r a b → a ≤ b ≤ len t →
  str_is_char_boundary t a = true → str_is_char_boundary t b = true →
  roped (ltake (b - a) (ldrop a t)) (rope_slice r a b).
Proof.
  intros Hr Hsh Hlen Hss Hab Ha Hb. unfold rope_slice.
  destruct (rope_cursor_at_spec r t Hr Hsh Hlen 0 ltac:(lia)) as (c0 & E0 & Hc0). rewrite E0. cbn [mbind option_bind].
  destruct (rc_seek_forward_spec r t Hr Hlen c0 0 a Hc0 ltac:(lia)) as (c1 & E1 & Hc1). rewrite E1. cbn [mbind option_bind].
  destruct (rc_slice_spec r t Hr Hlen c1 a b Hc1 Hab (Hss _ _ E0 E1) Ha Hb) as (c2 & s & -> & _ & Hs).
  by exists s.
Qed.

Definition replace_shallow (r : Rope) (a b : N) : Prop :=
  ∀ c0, rope_cursor_at r 0 = Some c0 → rc_shallow c0 a ∧
  ∀ c1 before c2, rc_slice c0 a = Some (c1, before) → rc_seek_forward c1 b = Some c2 →
    shallow before ∧ rc_shallow c2 (rope_len r) ∧
    ∀ c3 after, rc_slice c2 (rope_len r) = Some (c3, after) → shallow after.

Lemma rope_replace_spec r t a b u : rope_inv r t → shallow r → len t < 2 ^ 32 → replace_shallow r a b → a ≤ b ≤ len t →
  str_is_char_boundary t a = true → str_is_char_boundary t b = true → utf8 u →
  roped (ltake a t ++ u ++ ldrop b t) (rope_replace r a b u).
Proof.
  intros Hr Hsh Hlen Hrs Hab Ha Hb Hu. unfold rope_replace.
  destruct (rope_cursor_at_spec r t Hr Hsh Hlen 0 ltac:(lia)) as (c0 & E0 & Hc0). rewrite E0. cbn [mbind option_bind].
  destruct (Hrs _ E0) as [Hm0 Hrest].
  destruct (rc_slice_spec r t Hr Hlen c0 0 a Hc0 ltac:(lia) Hm0 (boundary_0 t) Ha) as (c1 & before & E1 & Hc1 & Hbefore).
  rewrite E1. cbn [mbind option_bind]. rewrite N.sub_0_r, ldrop_0 in Hbefore.
  destruct (rc_seek_forward_spec r t Hr Hlen c1 a b Hc1 Hab) as (c2 & E2 & Hc2).
  destruct (Hrest _ _ _ E1 E2) as (Hshb & Hm2 & Hsha).
  destruct (rope_append_spec _ _ _ _ rope_inv_new Hbefore Hshb) as (n1 & -> & Hn1). cbn [mbind option_bind].
  rewrite E2. cbn [mbind option_bind].
  destruct (rope_push_spec _ _ u Hn1 Hu) as (n2 & -> & Hn2). cbn [mbind option_bind].
  unfold rc_suffix. rewrite (rc_at_rope _ _ _ _ Hc2). rewrite (rope_len_spec r t) in * by apply Hr.
  destruct (rc_slice_spec r t Hr Hlen c2 b (len t) Hc2 ltac:(lia) Hm2 Hb (boundary_len t)) as (c3 & after & E3 & _ & Hafter).
  rewrite E3. cbn [mbind option_bind]. rewrite ltake_ge in Hafter by len.
  destruct (rope_append_spec _ _ _ _ Hn2 Hafter (Hsha _ _ E3)) as (n3 & -> & Hn3).
  exists n3. split; [done|]. by rewrite (assoc_L (++)).
Qed.

(** The rows [a..b]: from the start of row [a] to the start of row [b]. *)
Lemma row_start_boundary t R : utf8 t → str_is_char_boundary t (offset_of_point t (point R 0)) = true.
Proof.
  intros Ht. unfold offset_of_point. cbn [row column]. destruct (N.ltb_spec (rows t) R) as [|HR]; [apply boundary_len|].
  destruct (utf8_rows t R Ht HR) as (q & rest & Heq & Hq & _ & _ & _ & _ & Hl & Hrest & _).
  rewrite N.min_0_l, N.add_0_r, <- Hq. set (l := row_text t R) in *. clearbody l. subst t.
  apply boundary_app. by apply utf8_app.
Qed.

Lemma rope_slice_rows_spec r t a b : rope_inv r t → shallow r → len t < 2 ^ 32 → a < 2 ^ 32 → b < 2 ^ 32 →
  let i := offset_of_point t (point a 0) in
  let j := offset_of_point t (point b 0) in
  slice_shallow r i j → i ≤ j → roped (ltake (j - i) (ldrop i t)) (rope_slice_rows r a b).
Proof.
  intros Hr Hsh Hlen Ha Hb i j Hss Hij. unfold rope_slice_rows.
  rewrite !(rope_point_to_offset_spec r t) by (done || apply Hr). fold i j.
  assert (utf8 t) by (by eapply repr_utf8, Hr).
  apply rope_slice_spec; try done; [split; [done|apply offset_of_point_le]|by apply row_start_boundary..].
Qed.

(** ** Measuring from the cursor *)

Class TextDimensionLaws (D : Type) `{TextMeasure D, !TextDimension D} : Prop := {
  from_chunk_measure u : fits u → from_chunk (slice_of u) = (measure u : D);
  add_assign_measure a b : utf8 a → utf8 b → add_assign (measure a) (measure b) = (measure (a ++ b) : D);
  from_text_summary_measure u : from_text_summary (summary_of u) = (measure u : D)
}.

#[export] Instance text_laws_usize : TextDimensionLaws N.
Proof. split; [done|intros; symmetry; apply len_app|done]. Qed.
#[export] Instance text_laws_summary : TextDimensionLaws TextSummary.
Proof. split; [apply slice_text_summary_spec|intros; symmetry; by apply summary_of_app|done]. Qed.
#[export] Instance text_laws_offset_utf16 : TextDimensionLaws OffsetUtf16.
Proof.
  split; [intros; apply slice_len_utf16_spec| |done]. intros. cbn. unfold offset_utf16_add; cbn. by rewrite utf16_len_app.
Qed.
#[export] Instance text_laws_point : TextDimensionLaws Point.
Proof. split; [intros ? [_ ?]; by apply slice_lines_spec|intros; symmetry; apply point_of_app|done]. Qed.
#[export] Instance text_laws_point_utf16 : TextDimensionLaws PointUtf16.
Proof.
  split; [|intros; symmetry; by apply point_utf16_of_app|done]. intros u Hu. cbn [from_chunk text_dim_point_utf16].
  rewrite slice_lines_spec, slice_last_line_len_utf16_spec by (done || apply Hu). done.
Qed.
#[export] Instance text_laws_pair {D1 D2} `{TextDimensionLaws D1, TextDimensionLaws D2} : TextDimensionLaws (D1 * D2).
Proof.
  split; intros; cbn; [by rewrite !from_chunk_measure|by rewrite !add_assign_measure|by rewrite !from_text_summary_measure].
Qed.

Lemma dim_add_assign {D} `{TextDimensionLaws D} u v : utf8 u → fits v →
  add_assign (measure u) (from_chunk (slice_of v)) = (measure (u ++ v) : D).
Proof. intros Hu Hv. rewrite from_chunk_measure by done. apply add_assign_measure; [done|apply Hv]. Qed.

Lemma summary_to_offset {D} `{TextMeasure D, !DimensionLaws D ChunkSummary} (c : Cursor Chunk ChunkSummary N) b r e :
  cursor_at c b r → Forall chunk_ok (b ++ r) → len (texts (b ++ r)) < 2 ^ 32 →
  len (texts b) ≤ e ≤ len (texts (b ++ r)) →
  ∃ sk rest c', r = sk ++ rest ∧ summary_to (Output:=D) (at_offset e) Right c = Some (c', measure (texts sk)) ∧
    cursor_tree c' = cursor_tree c ∧ cursor_at c' (b ++ sk) rest ∧
    len (texts (b ++ sk)) ≤ e ≤ len (texts (b ++ sk)) + match rest with x :: _ => len (chunk_text x) | [] => 0 end.
Proof.
  intros Hat Hok Hlen He. unfold summary_to.
  destruct (seek_to_offset (A:=SummarySeekAggregate D) c b r e {| aggregate := dim_zero |} Hat)
    as (sk & rest & c' & agg & found & -> & -> & Htr & Hat' & (Hagg & _) & He'); [done|done|split; [done|apply Forall_nil_2]|done|].
  exists sk, rest, c'. cbn [mbind option_bind]. rewrite Hagg, app_nil_r.
  rewrite pos_zero_texts by (by rewrite !Forall_app in Hok; destruct Hok as (_ & ? & _)). split_and!; try done; lia.
Qed.

(** [Cursor::summary] measures the text between the cursor and [e]. *)
Lemma rc_summary_spec {D} `{TextMeasure D, !DimensionLaws D ChunkSummary, !TextDimension D, !TextDimensionLaws D}
    r t c o e : len t < 2 ^ 32 → rc_at c r t o → o ≤ e ≤ len t →
  str_is_char_boundary t o = true → str_is_char_boundary t e = true →
  ∃ c', rc_summary (D:=D) c e = Some (c', measure (ltake (e - o) (ldrop o t))) ∧ rc_at c' r t e.
Proof.
  intros Hlen Hcat He Hbo Hbe. pose proof (rc_at_inv _ _ _ _ Hcat) as Hr.
  destruct (rc_at_texts r t Hr c o Hcat) as (before & after & Hat & Et & Hcb & Hca & Hf & Hl & Hb).
  destruct Hcat as [Hrope _ Hoff Htree _]. unfold rc_summary.
  rewrite Hoff, (proj2 (N.ltb_ge _ _)) by lia. rewrite (item_at _ _ _ Hat), (end_at _ _ _ Hat). cbn [mbind option_bind].
  unfold start. rewrite (at_position _ _ _ Hat), pos_len by done.
  assert (Hub : utf8 (texts before)) by by apply texts_utf8.
  destruct after as [|x after]; cbn [head].
  { cbn in Et. rewrite app_nil_r in Et. rewrite <- Et in *.
    cbn [mbind option_bind]. rewrite (proj2 (N.ltb_ge _ _)) by lia. eexists. split.
    - replace (e - o) with 0 by lia. by rewrite ltake_0, measure_nil.
    - split; cbn; try done. exists before, []. split_and!; try done; rewrite <- Et; lia. }
  apply Forall_cons in Hca as [Hx Hca].
  assert (Hua : utf8 (texts after)) by by apply texts_utf8.
  rewrite pos_len by by rewrite Forall_app, Forall_singleton. rewrite texts_app, texts_singleton, len_app.
  rewrite texts_cons in Et. set (ce := len (texts before) + len (chunk_text x)).
  destruct (slice_chunk (texts before) x (texts after) o (N.min e ce) Hx) as [Hs Hfit]; try done.
  { by rewrite <- Et. } { unfold ce. lia. } { lia. } { by rewrite <- Et. }
  { rewrite <- Et. destruct (N.min_spec e ce) as [[_ ->]|[_ ->]]; [done|]. rewrite Et. unfold ce.
    rewrite (assoc_L (++)), <- len_app. by apply boundary_app. }
  rewrite Hs. cbn [mbind option_bind]. clear Hs.
  rewrite <- measure_nil, dim_add_assign by (done || apply utf8_nil). rewrite app_nil_l.
  destruct (N.ltb_spec ce e) as [Hce|Hce].
  2:{ eexists. split.
    - rewrite N.min_l by done. rewrite Et. rewrite ldrop_app_r by lia.
      rewrite ldrop_app_l by lia. rewrite (ltake_app_l (e - o)); [done|]. unfold ce in Hce. len.
    - split; cbn; try done. exists before, (x :: after). split_and!; try done; lia. }
  rewrite N.min_r in * by lia. rewrite ltake_ge in * by (unfold ce; len).
  destruct (next_at _ _ _ _ Hat) as (ch1 & Hn & Htr1 & Hat1). rewrite Hn. cbn [mbind option_bind].
  destruct (summary_to_offset (D:=D) ch1 (before ++ [x]) after e Hat1) as (sk & rest & ch2 & -> & Hsl & Htr2 & Hat2 & He2).
  { by rewrite !Forall_app, Forall_singleton. } { by rewrite !texts_app, texts_singleton, <- (assoc_L (++)), <- Et. }
  { rewrite !texts_app, texts_singleton, <- (assoc_L (++)), <- Et. unfold ce in *. len. }
  rewrite Hsl. cbn [mbind option_bind]. apply Forall_app in Hca as [Hsk Hrest].
  rewrite (item_at _ _ _ Hat2). unfold start. rewrite (at_position _ _ _ Hat2). cbn [mbind option_bind].
  assert (Hcb2 : Forall chunk_ok ((before ++ [x]) ++ sk)) by by rewrite !Forall_app, Forall_singleton.
  assert (Eq : t = texts ((before ++ [x]) ++ sk) ++ texts rest).
  { rewrite Et, !texts_app, texts_singleton. by rewrite <- !(assoc_L (++)). }
  rewrite pos_len by done. rewrite add_assign_measure by (apply Hfit || by apply texts_utf8).
  assert (Hnew : rc_at (rope_cursor (rc_rope c) ch2 e) r t e).
  { split; cbn; try done; [by rewrite Htr2, Htr1|]. exists ((before ++ [x]) ++ sk), rest. split_and!; try done; try lia.
    by rewrite Hl, <- !(assoc_L (++)). }
  rewrite Et, text_between, <- Et by (done || apply He2).
  destruct rest as [|y rest]; cbn [head].
  - change (texts []) with (@nil N). unfold ltake at 1. rewrite take_nil, app_nil_r. by eexists.
  - destruct (end_chunk_spec ((before ++ [x]) ++ sk) y rest e) as [-> Hfit3]; try done; try (by rewrite <- Eq).
    cbn [mbind option_bind]. rewrite dim_add_assign by first [done|apply utf8_app; [apply Hfit|by apply texts_utf8]].
    by eexists.
Qed.
