(* ===== verification/RopeChunks.v ===== *)
(** * RopeChunks: reading a rope piece by piece

    Models the iterators of [crates/rope/src/rope.rs]: [Chunks] and [ChunkWithBitmaps], [Bytes] and [Lines], in both
    directions, and what the rope does with them: [chars_at], [starts_with], [ends_with], [equals_str].
    [None] is a panic, or fuel that ran out: a loop has a round for each chunk of the rope. *)

From S2P Require Import Prelude Bits Utf8 SumTree Cursor TextSummary Chunk Rope.

(** ** Strings *)

(** [str::find] and [str::rfind] of a newline, [starts_with], [ends_with] and [get]. *)
Fixpoint find_newline (t : str) : option N :=
  match t with
  | [] => None
  | b :: t => if is_newline b then Some 0 else i ← find_newline t; Some (i + 1)
  end.
Fixpoint rfind_newline (t : str) : option N :=
  match t with
  | [] => None
  | b :: t => match rfind_newline t with Some i => Some (i + 1) | None => if is_newline b then Some 0 else None end
  end.
Definition str_starts_with (t pattern : str) : bool := bool_decide (ltake (len pattern) t = pattern).
Definition str_ends_with (t pattern : str) : bool := (len pattern <=? len t) && bool_decide (ldrop (len t - len pattern) t = pattern).

(** ** [Chunks] *)

Record Chunks : Type := mk_chunks {
  ch_chunks : Cursor Chunk ChunkSummary N;
  ch_range : N * N;
  ch_offset : N;
  ch_reversed : bool
}.

Definition with_cursor (it : Chunks) c : Chunks := mk_chunks c (ch_range it) (ch_offset it) (ch_reversed it).
Definition with_offset (it : Chunks) o : Chunks := mk_chunks (ch_chunks it) (ch_range it) o (ch_reversed it).

Definition chunks_new (r : Rope) (range : N * N) (reversed : bool) : option Chunks :=
  '(chunks, _) ← (if reversed then seek (at_offset range.2) Left (cursor_new r) else seek (at_offset range.1) Right (cursor_new r));
  let offset := if reversed then range.2 else range.1 in
  item ← item chunks;
  match item with
  | Some chunk => if chunk_is_char_boundary chunk (usub offset (start chunks)) then Some () else None
  | None => Some ()
  end;;
  Some (mk_chunks chunks range offset reversed).

Definition offset_is_valid (it : Chunks) : bool :=
  if ch_reversed it then negb ((ch_offset it <=? (ch_range it).1) || ((ch_range it).2 <? ch_offset it))
  else negb ((ch_offset it <? (ch_range it).1) || ((ch_range it).2 <=? ch_offset it)).

Definition chunks_seek (it : Chunks) (offset : N) : option Chunks :=
  if (ch_range it).2 <? (ch_range it).1 then None (* clamp *)
  else
    let offset := N.min (N.max offset (ch_range it).1) (ch_range it).2 in
    end_ ← end_ (ch_chunks it);
    c ← (if ch_reversed it then
           if end_ <? offset then '(c, _) ← seek_forward (at_offset offset) Left (ch_chunks it); Some c
           else if offset <=? start (ch_chunks it) then '(c, _) ← seek (at_offset offset) Left (ch_chunks it); Some c
           else Some (ch_chunks it)
         else
           if end_ <=? offset then '(c, _) ← seek_forward (at_offset offset) Right (ch_chunks it); Some c
           else if offset <? start (ch_chunks it) then '(c, _) ← seek (at_offset offset) Right (ch_chunks it); Some c
           else Some (ch_chunks it));
    Some (mk_chunks c (ch_range it) offset (ch_reversed it)).

Definition set_range (it : Chunks) (range : N * N) : option Chunks :=
  chunks_seek (mk_chunks (ch_chunks it) range (ch_offset it) (ch_reversed it)) range.1.

(** [slice_range] of [peek]: where the piece is in its chunk. *)
Definition slice_range (it : Chunks) (chunk_end : N) : N * N :=
  let chunk_start := start (ch_chunks it) in
  if ch_reversed it then (usub (N.max chunk_start (ch_range it).1) chunk_start, usub (ch_offset it) chunk_start)
  else (usub (ch_offset it) chunk_start, usub (N.min chunk_end (ch_range it).2) chunk_start).

Definition peek (it : Chunks) : option (option str) :=
  if negb (offset_is_valid it) then Some None
  else
    chunk ← item (ch_chunks it);
    match chunk with
    | None => Some None
    | Some chunk =>
        chunk_end ← end_ (ch_chunks it);
        let range := slice_range it chunk_end in
        text ← str_slice (chunk_text chunk) range.1 range.2;
        Some (Some text)
    end.

Record ChunkBitmaps : Type := mk_bitmaps { cb_text : str; cb_chars : N; cb_tabs : N; cb_newlines : N }.

Definition peek_with_bitmaps (it : Chunks) : option (option ChunkBitmaps) :=
  if negb (offset_is_valid it) then Some None
  else
    chunk ← item (ch_chunks it);
    match chunk with
    | None => Some None
    | Some chunk =>
        chunk_end ← end_ (ch_chunks it);
        let range := slice_range it chunk_end in
        text ← str_slice (chunk_text chunk) range.1 range.2;
        Some (Some (mk_bitmaps text (shr BITS (chunk_chars chunk) range.1) (shr BITS (chunk_tabs chunk) range.1) (shr BITS (chunk_newlines chunk) range.1)))
    end.

(** Moving on by a piece of [n] bytes, in [next] of both iterators. *)
Definition pass (it : Chunks) (n : N) : option Chunks :=
  if ch_reversed it then
    let it := with_offset it (usub (ch_offset it) n) in
    if ch_offset it <=? start (ch_chunks it) then c ← prev (ch_chunks it); Some (with_cursor it c) else Some it
  else
    let it := with_offset it (ch_offset it + n) in
    end_ ← end_ (ch_chunks it);
    if end_ <=? ch_offset it then c ← next (ch_chunks it); Some (with_cursor it c) else Some it.

Definition chunks_next (it : Chunks) : option (Chunks * option str) :=
  chunk ← peek it;
  match chunk with
  | None => Some (it, None)
  | Some chunk => it ← pass it (len chunk); Some (it, Some chunk)
  end.

(** [ChunkWithBitmaps::next]. *)
Definition bitmaps_next (it : Chunks) : option (Chunks * option ChunkBitmaps) :=
  bitmaps ← peek_with_bitmaps it;
  match bitmaps with
  | None => Some (it, None)
  | Some bitmaps => it ← pass it (len (cb_text bitmaps)); Some (it, Some bitmaps)
  end.

Fixpoint chunks_collect (fuel : nat) (it : Chunks) : option (list str) :=
  match fuel with
  | O => None
  | S fuel =>
      '(it, chunk) ← chunks_next it;
      match chunk with
      | None => Some []
      | Some chunk => rest ← chunks_collect fuel it; Some (chunk :: rest)
      end
  end.

(** One round for each chunk, and one to see that there are no more. *)
Definition chunk_rounds (r : Rope) : nat := S (S (cost r)).

Definition chunks_in_range (r : Rope) (a b : N) : option Chunks := chunks_new r (a, b) false.
Definition reversed_chunks_in_range (r : Rope) (a b : N) : option Chunks := chunks_new r (a, b) true.
Definition rope_chunks (r : Rope) : option Chunks := chunks_in_range r 0 (rope_len r).

(** The pieces one after the other. *)
Definition pieces_in_range (r : Rope) (a b : N) : option (list str) := it ← chunks_in_range r a b; chunks_collect (chunk_rounds r) it.
Definition reversed_pieces_in_range (r : Rope) (a b : N) : option (list str) :=
  it ← reversed_chunks_in_range r a b; chunks_collect (chunk_rounds r) it.

Definition chars_at (r : Rope) (a : N) : option (list N) := l ← pieces_in_range r a (rope_len r); Some (l ≫= chars).
Definition rope_chars (r : Rope) : option (list N) := chars_at r 0.
Definition reversed_chars_at (r : Rope) (a : N) : option (list N) := l ← reversed_pieces_in_range r 0 a; Some (l ≫= (λ t, rev (chars t))).

(** *** Lines *)

Definition has_newline (s : ChunkSummary) : bool := 0 <? row (ts_lines (cs_text s)).

(** The two ifs at the end of [next_line]. *)
Definition leave_chunk (it : Chunks) (found : bool) : option (Chunks * bool) :=
  end_ ← end_ (ch_chunks it);
  if ch_offset it =? end_ then '(it, _) ← chunks_next it; Some (it, found) else Some (it, found).
Definition stay_in_range (it : Chunks) (found : bool) : option (Chunks * bool) :=
  if (ch_range it).2 <? ch_offset it then
    let it := with_offset it (N.min (ch_offset it) (ch_range it).2) in
    '(c, _) ← seek (at_offset (ch_offset it)) Right (ch_chunks it);
    Some (with_cursor it c, found)
  else Some (it, found).

(** The newline is in a later chunk. *)
Definition search_line (it : Chunks) : option (Chunks * bool) :=
  c ← search_forward has_newline (ch_chunks it);
  let it := with_offset (with_cursor it c) (start c) in
  chunk ← peek it;
  match chunk ≫= find_newline with
  | Some newline_ix =>
      let it := with_offset it (ch_offset it + newline_ix + 1) in
      Some (it, ch_offset it <=? (ch_range it).2)
  | None => end_ ← end_ (ch_chunks it); Some (with_offset it end_, false)
  end.

Definition next_line (it : Chunks) : option (Chunks * bool) :=
  if ch_reversed it then None (* assert! *)
  else
    chunk ← peek it;
    '(it, found) ← match chunk with
      | None => Some (it, false)
      | Some chunk =>
          '(it, found) ← match find_newline chunk with
            | Some newline_ix =>
                let it := with_offset it (ch_offset it + newline_ix + 1) in
                Some (it, ch_offset it <=? (ch_range it).2)
            | None => search_line it
            end;
          leave_chunk it found
      end;
    stay_in_range it found.

(** The second half of [prev_line], behind the chunk that the cursor is in. *)
Definition prev_line_before (it : Chunks) (initial_offset : N) : option (Chunks * bool) :=
  c ← search_backward has_newline (ch_chunks it);
  let it := with_offset (with_cursor it c) (start c) in
  chunk ← item (ch_chunks it);
  match chunk ≫= (λ chunk, rfind_newline (chunk_text chunk)) with
  | Some newline_ix =>
      let it := with_offset it (ch_offset it + newline_ix + 1) in
      if offset_is_valid it then
        end_ ← end_ (ch_chunks it);
        if ch_offset it =? end_ then c ← next (ch_chunks it); Some (with_cursor it c, true) else Some (it, true)
      else
        let it := with_offset it (ch_range it).1 in
        '(c, _) ← seek (at_offset (ch_offset it)) Right (ch_chunks it);
        Some (with_cursor it c, (ch_offset it <? initial_offset) && (ch_offset it =? 0))
  | None =>
      if negb (offset_is_valid it) || bool_decide (chunk = None) then
        let it := with_offset it (ch_range it).1 in
        '(c, _) ← seek (at_offset (ch_offset it)) Right (ch_chunks it);
        Some (with_cursor it c, (ch_offset it <? initial_offset) && (ch_offset it =? 0))
      else Some (it, (ch_offset it <? initial_offset) && (ch_offset it =? 0))
  end.

(** The first half, in the chunk of the byte before. *)
Definition prev_line_in (it : Chunks) (chunk : Chunk) (initial_offset : N) : option (Chunks * bool) :=
  let end_ix := usub (ch_offset it) (start (ch_chunks it)) in
  last ← lget (chunk_text chunk) (usub end_ix 1);
  let end_ix := if is_newline last then end_ix - 1 else end_ix in
  text ← str_slice (chunk_text chunk) 0 end_ix;
  match rfind_newline text with
  | Some newline_ix =>
      let it := with_offset it (start (ch_chunks it) + newline_ix + 1) in
      if offset_is_valid it then Some (it, true) else prev_line_before it initial_offset
  | None => prev_line_before it initial_offset
  end.

Definition prev_line (it : Chunks) : option (Chunks * bool) :=
  if ch_reversed it then None (* assert! *)
  else
    let initial_offset := ch_offset it in
    it ← (if ch_offset it =? start (ch_chunks it) then c ← prev (ch_chunks it); Some (with_cursor it c) else Some it);
    chunk ← item (ch_chunks it);
    match chunk with
    | None => prev_line_before it initial_offset
    | Some chunk => prev_line_in it chunk initial_offset
    end.

Record Lines : Type := mk_lines { ln_chunks : Chunks; current_line : str; ln_done : bool; ln_reversed : bool }.

Definition chunks_lines (it : Chunks) : Lines := mk_lines it [] false (ch_reversed it).

(** The first line of a piece and whether there is another one; the last line going backwards. *)
Definition take_line (reversed : bool) (chunk : str) : option (str * bool) :=
  match (if reversed then rev (split_lines chunk) else split_lines chunk) with
  | [] => None
  | line :: rest => Some (line, match rest with [] => false | _ => true end)
  end.

(** The loop of [Lines::next]. *)
Fixpoint lines_loop (fuel : nat) (l : Lines) : option (Lines * option str) :=
  match fuel with
  | O => None
  | S fuel =>
      chunk ← peek (ln_chunks l);
      match chunk with
      | None => Some (mk_lines (ln_chunks l) (current_line l) true (ln_reversed l), Some (current_line l))
      | Some chunk =>
          match take_line (ln_reversed l) chunk with
          | None => '(it, _) ← chunks_next (ln_chunks l); lines_loop fuel (mk_lines it (current_line l) (ln_done l) (ln_reversed l))
          | Some (line, true) =>
              it ← chunks_seek (ln_chunks l)
                     (if ln_reversed l then usub (usub (ch_offset (ln_chunks l)) (len line)) 1 else ch_offset (ln_chunks l) + len line + 1);
              match current_line l with
              | [] => Some (mk_lines it [] (ln_done l) (ln_reversed l), Some line)
              | current =>
                  let current := if ln_reversed l then line ++ current else current ++ line in
                  Some (mk_lines it current (ln_done l) (ln_reversed l), Some current)
              end
          | Some (line, false) =>
              let current := if ln_reversed l then line ++ current_line l else current_line l ++ line in
              '(it, _) ← chunks_next (ln_chunks l);
              lines_loop fuel (mk_lines it current (ln_done l) (ln_reversed l))
          end
      end
  end.

Definition lines_next (l : Lines) : option (Lines * option str) :=
  if ln_done l then Some (l, None)
  else lines_loop (chunk_rounds (cursor_tree (ch_chunks (ln_chunks l)))) (mk_lines (ln_chunks l) [] (ln_done l) (ln_reversed l)).

Definition lines_seek (l : Lines) (offset : N) : option Lines :=
  it ← chunks_seek (ln_chunks l) offset; Some (mk_lines it [] false (ln_reversed l)).

Fixpoint lines_collect (fuel : nat) (l : Lines) : option (list str) :=
  match fuel with
  | O => None
  | S fuel =>
      '(l, line) ← lines_next l;
      match line with
      | None => Some []
      | Some line => rest ← lines_collect fuel l; Some (line :: rest)
      end
  end.

(** ** Comparing with a string *)

Fixpoint equals_loop (reversed : bool) (other : str) (offset : N) (pieces : list str) : bool :=
  match pieces with
  | [] => if reversed then offset =? 0 else offset =? len other
  | chunk :: pieces =>
      if reversed then str_ends_with (ltake offset other) chunk && equals_loop reversed other (offset - len chunk) pieces
      else (offset <? len other) && str_starts_with (ldrop offset other) chunk && equals_loop reversed other (offset + len chunk) pieces
  end.

(** The pieces are all taken at once; the code stops at the first that differs. *)
Definition equals_str (it : Chunks) (other : str) : option bool :=
  pieces ← chunks_collect (chunk_rounds (cursor_tree (ch_chunks it))) it;
  Some (equals_loop (ch_reversed it) other (if ch_reversed it then len other else 0) pieces).

Definition str_get (t : str) (a b : N) : option str := str_slice t a b.

Fixpoint starts_loop (remaining : str) (pieces : list str) : bool :=
  match pieces with
  | [] => bool_decide (remaining = [])
  | chunk :: pieces =>
      match str_get chunk 0 (N.min (len remaining) (len chunk)) with
      | None => false
      | Some chunk =>
          str_starts_with remaining chunk &&
          (let remaining := ldrop (len chunk) remaining in if bool_decide (remaining = []) then true else starts_loop remaining pieces)
      end
  end.

Definition rope_starts_with (r : Rope) (pattern : str) : option bool :=
  if rope_len r <? len pattern then Some false
  else pieces ← pieces_in_range r 0 (rope_len r); Some (starts_loop pattern pieces).

Fixpoint ends_loop (remaining : str) (pieces : list str) : bool :=
  match pieces with
  | [] => bool_decide (remaining = [])
  | chunk :: pieces =>
      match str_get chunk (len chunk - N.min (len remaining) (len chunk)) (len chunk) with
      | None => false
      | Some chunk =>
          str_ends_with remaining chunk &&
          (let remaining := ltake (len remaining - len chunk) remaining in if bool_decide (remaining = []) then true else ends_loop remaining pieces)
      end
  end.

Definition rope_ends_with (r : Rope) (pattern : str) : option bool :=
  if rope_len r <? len pattern then Some false
  else pieces ← reversed_pieces_in_range r 0 (rope_len r); Some (ends_loop pattern pieces).

(** ** [Bytes] *)

Record Bytes : Type := mk_bytes { by_chunks : Cursor Chunk ChunkSummary N; by_range : N * N; by_reversed : bool }.

Definition bytes_new (r : Rope) (range : N * N) (reversed : bool) : option Bytes :=
  '(chunks, _) ← (if reversed then seek (at_offset range.2) Left (cursor_new r) else seek (at_offset range.1) Right (cursor_new r));
  Some (mk_bytes chunks range reversed).

(** [&bytes[a..b]]. *)
Definition byte_slice (t : str) (a b : N) : option str := if (a <=? b) && (b <=? len t) then Some (ltake (b - a) (ldrop a t)) else None.

Definition bytes_peek (it : Bytes) : option (option str) :=
  chunk ← item (by_chunks it);
  match chunk with
  | None => Some None
  | Some chunk =>
      end_ ← end_ (by_chunks it);
      if by_reversed it && (end_ <=? (by_range it).1) then Some None
      else
        let chunk_start := start (by_chunks it) in
        if (by_range it).2 <=? chunk_start then Some None
        else
          text ← byte_slice (chunk_text chunk) ((by_range it).1 - chunk_start) (N.min (len (chunk_text chunk)) ((by_range it).2 - chunk_start));
          Some (Some text)
  end.

Definition bytes_move (it : Bytes) : option Bytes :=
  c ← (if by_reversed it then prev (by_chunks it) else next (by_chunks it)); Some (mk_bytes c (by_range it) (by_reversed it)).

Definition bytes_next (it : Bytes) : option (Bytes * option str) :=
  result ← bytes_peek it;
  match result with
  | None => Some (it, None)
  | Some text => it ← bytes_move it; Some (it, Some text)
  end.

(** [read] into a buffer of [n] bytes: what it writes there. *)
Definition bytes_read (it : Bytes) (n : N) : option (Bytes * str) :=
  chunk ← bytes_peek it;
  match chunk with
  | None => Some (it, [])
  | Some chunk =>
      let l := N.min n (len chunk) in
      let '(it, out) :=
        if by_reversed it then (mk_bytes (by_chunks it) ((by_range it).1, usub (by_range it).2 l) true, rev (ldrop (len chunk - l) chunk))
        else (mk_bytes (by_chunks it) ((by_range it).1 + l, (by_range it).2) false, ltake l chunk) in
      it ← (if l =? len chunk then bytes_move it else Some it);
      Some (it, out)
  end.

Fixpoint bytes_collect (fuel : nat) (it : Bytes) : option (list str) :=
  match fuel with
  | O => None
  | S fuel =>
      '(it, chunk) ← bytes_next it;
      match chunk with
      | None => Some []
      | Some chunk => rest ← bytes_collect fuel it; Some (chunk :: rest)
      end
  end.

Definition bytes_in_range (r : Rope) (a b : N) : option (list str) := it ← bytes_new r (a, b) false; bytes_collect (chunk_rounds r) it.
Definition reversed_bytes_in_range (r : Rope) (a b : N) : option (list str) := it ← bytes_new r (a, b) true; bytes_collect (chunk_rounds r) it.
