(* ===== verification/RopeTheorems.v ===== *)
(** * RopeTheorems: what makes a rope correct

    The properties of chunks, summaries and ropes: every operation does to the text
    what its name says and keeps the invariant, summaries are those of the text read
    from scratch, conversions and clipping are exact, and none of them panics. *)

From S2P Require Import Prelude Bits Utf8 SumTree SumTreeSpec Cursor TextSummary Chunk ChunkFacts ChunkConvert.
From S2P Require Import Rope RopeFacts RopeConvert RopeClip RopeEdit RopeSlice.

(** ** Chunks and summaries *)

(** C36: The bitmaps of a chunk describe its text: [new], [append], [push_str], [prepend] and [prepend_str] of texts that
    fit give the bitmaps of the text they stand for, [into] turns a slice back into such a chunk, and so do [slice] between two character
    boundaries and [split_at] at one.  Off the boundaries, [slice] starts at the next boundary and ends at the previous
    one, or where it starts when that is later, and panics when the end is a boundary before its start; [split_at]
    panics, except at 128, where it gives the whole slice and the empty one.  The
    exception to the rule: when rounding brings the start of a [slice] to 128, from within the last character of
    a full chunk, the text is empty and yet the bitmaps are those of the whole chunk. *)
Theorem chunk_bitmaps_describe_text (a b : str) (i j : N) :
  utf8 a → utf8 b → len a + len b ≤ MAX_BASE → i ≤ j →
  str_is_char_boundary a i = true → str_is_char_boundary a j = true →
  chunk_new a = Some (chunk_of a) ∧
  chunk_append (chunk_of a) (slice_of b) = Some (chunk_of (a ++ b)) ∧
  chunk_push_str (chunk_of a) b = Some (chunk_of (a ++ b)) ∧
  chunk_prepend (chunk_of b) (slice_of a) = Some (chunk_of (a ++ b)) ∧
  chunk_prepend_str (chunk_of b) a = Some (chunk_of (a ++ b)) ∧
  slice_slice (slice_of a) i j = Some (slice_of (ltake (j - i) (ldrop i a))) ∧
  slice_split_at (slice_of a) i = Some (slice_of (ltake i a), slice_of (ldrop i a)) ∧
  slice_into (slice_of a) = Some (chunk_of a) ∧
  (∀ k l, k < 2 ^ 32 → l < 2 ^ 32 →
     let start := if str_is_char_boundary a k then k else str_ceil_char_boundary a k in
     let end_ := if str_is_char_boundary a l then l else if l <? start then start else str_floor_char_boundary a l in
     (k = MAX_BASE ∨ start ≠ MAX_BASE → slice_slice (slice_of a) k l =
        if (k =? MAX_BASE) || (start <=? end_) then Some (slice_of (ltake (end_ - start) (ldrop start a))) else None) ∧
     (k ≠ MAX_BASE → start = MAX_BASE → end_ = MAX_BASE → ∃ s, slice_slice (slice_of a) k l = Some s ∧
        slice_text s = [] ∧ slice_chars s = slice_chars (slice_of a))) ∧
  (∀ m, slice_split_at (slice_of a) m =
     if (m =? MAX_BASE) || str_is_char_boundary a m then Some (slice_of (ltake m a), slice_of (ldrop m a)) else None).
Proof.
  intros Ha Hb Hlen Hij Hi Hj. assert (fits a) by (split; [done|lia]).
  split_and!; [by apply chunk_new_spec|by apply chunk_append_spec|by apply chunk_push_str_spec|by apply chunk_prepend_spec
    |by apply chunk_prepend_str_spec|by apply slice_slice_spec|by apply slice_split_at_spec|by apply slice_into_spec
    |intros k l Hk Hl; split; [by apply slice_slice_any|by apply slice_slice_misaligned]|intros m; by apply slice_split_at_any].
Qed.

(** The summary a chunk computes from its bitmaps with bit tricks is the summary
    that the loop of [TextSummary::from] computes from the characters of its text. *)
Theorem text_summary_of_bitmaps (t : str) : fits t → slice_text_summary (slice_of t) = ts_from_str t.
Proof. intros Ht. rewrite slice_text_summary_spec, ts_from_str_spec by apply Ht. done. Qed.

(** Adding the summaries of two texts gives the summary of their concatenation, in
    every field, the longest row included. *)
Theorem text_summary_add (a b : str) : utf8 a → utf8 b →
  ts_add (ts_from_str a) (ts_from_str b) = ts_from_str (a ++ b).
Proof. intros Ha Hb. rewrite !ts_from_str_spec by (done || by apply utf8_app). by rewrite summary_of_app. Qed.

(** C39: Below 2^32 bytes the packed comparison of points is the lexicographic order of
    row and column, the position at the end of a text fits [u32], and [Point] sums
    follow concatenation.  No [u32] overflows there: [+=] of points, of UTF-16 points and of summaries, [Point::parse_str] and
    [TextSummary::from], computed with every [u32] wrapped around, give what the unbounded definitions give. *)
Theorem point_order_lexicographic (a b : str) (p q : Point) : len (a ++ b) < 2 ^ 32 → point_u32 p → point_u32 q →
  cmp p q = cmp (row p, column p) (row q, column q) ∧
  point_u32 (point_of (a ++ b)) ∧
  point_add (parse_str a) (parse_str b) = parse_str (a ++ b) ∧
  point_of (a ++ b) = parse_str (a ++ b) ∧
  parse_str_u32 (a ++ b) = parse_str (a ++ b) ∧
  point_add_u32 (parse_str a) (parse_str b) = parse_str (a ++ b) ∧
  (utf8 a → utf8 b →
     point_utf16_add_u32 (point_utf16_of a) (point_utf16_of b) = point_utf16_of (a ++ b) ∧
     ts_from_str_u32 (a ++ b) = ts_from_str (a ++ b) ∧
     ts_add_u32 (ts_from_str a) (ts_from_str b) = ts_from_str (a ++ b)).
Proof.
  intros Hlen Hp Hq. rewrite parse_str_u32_spec by done. rewrite !parse_str_spec.
  split_and!; [by apply cmp_point|by apply point_of_u32|by rewrite point_of_app|done|done|by apply point_of_add_u32|].
  intros Ha Hb. assert (utf8 (a ++ b)) by by apply utf8_app. rewrite ts_from_str_u32_spec, !ts_from_str_spec by done.
  split_and!; [by apply point_utf16_of_add_u32|done|by apply summary_of_add_u32].
Qed.

(** ** Editing *)

(** C15: A rope of fewer than 2^32 bytes is a string: pushing at either end, appending a rope and building one
    from a string never panic, give a rope of the concatenated text, and keep every
    chunk but the last filled.  The summaries at the roots and that of the string, added on [u32], are those of the
    concatenated texts: no row, column or count overflows. *)
Theorem rope_refines_string (r s : Rope) (t u v : str) :
  rope_inv r t → rope_inv s u → utf8 v → shallow r → shallow s → len t + len u + len v < 2 ^ 32 →
  roped v (rope_from_str v) ∧
  roped (t ++ v) (rope_push r v) ∧
  roped (v ++ t) (rope_push_front r v) ∧
  roped (t ++ u) (rope_append r s) ∧
  ts_add_u32 (rope_summary r) (rope_summary s) = ts_from_str (t ++ u) ∧
  ts_add_u32 (rope_summary r) (ts_from_str_u32 v) = ts_from_str (t ++ v) ∧
  ts_add_u32 (ts_from_str_u32 v) (rope_summary r) = ts_from_str (v ++ t).
Proof.
  intros Hr Hs Hv Hshr Hshs Hlen. pose proof (repr_utf8 _ _ (proj1 Hr)) as Ht. pose proof (repr_utf8 _ _ (proj1 Hs)) as Hu.
  rewrite (rope_summary_spec r t), (rope_summary_spec s u) by (apply Hr || apply Hs).
  rewrite ts_from_str_u32_spec, !ts_from_str_spec by (done || lia || by apply utf8_app).
  split_and!; [by apply rope_from_str_spec|by apply rope_push_spec|by apply rope_push_front_spec|by apply rope_append_spec|..];
    (apply summary_of_add_u32; [done|rewrite len_app; lia]).
Qed.

(** C24: [slice] returns the rope of the text between two boundaries, and [replace]
    replaces it by any string. *)
Theorem rope_slice_replace (r : Rope) (t v : str) (a b : N) :
  rope_inv r t → shallow r → len t < 2 ^ 32 → a ≤ b ≤ len t → utf8 v →
  str_is_char_boundary t a = true → str_is_char_boundary t b = true →
  slice_shallow r a b → replace_shallow r a b →
  roped (ltake (b - a) (ldrop a t)) (rope_slice r a b) ∧
  roped (ltake a t ++ v ++ ldrop b t) (rope_replace r a b v).
Proof. intros. split; [by apply rope_slice_spec|by apply rope_replace_spec]. Qed.

(** ** Reading *)

(** What a rope caches at its root is what its text measures. *)
Theorem rope_measures_text (r : Rope) (t : str) : rope_inv r t →
  rope_summary r = ts_from_str t ∧ rope_len r = len t ∧ rope_is_empty r = bool_decide (t = []) ∧
  rope_max_point r = parse_str t ∧ rope_max_point_utf16 r = lines_utf16 (ts_from_str t).
Proof.
  intros [Hr _]. pose proof (repr_utf8 _ _ Hr) as Ht. rewrite parse_str_spec, ts_from_str_spec by done. split_and!.
  - by apply rope_summary_spec.
  - by apply rope_len_spec.
  - unfold rope_is_empty. rewrite (rope_len_spec r t Hr). apply Bool.eq_iff_eq_true.
    by rewrite N.eqb_eq, bool_decide_eq_true, len_0.
  - exact (repr_extent (D:=Point) r t Hr).
  - exact (repr_extent (D:=PointUtf16) r t Hr).
Qed.

(** Every position of the text, given as an offset, is converted to what the text
    before it measures. *)
Theorem rope_offset_conversions (r : Rope) (t : str) (o : N) : rope_inv r t → len t < 2 ^ 32 →
  rope_offset_to_point r o = parse_str (ltake o t) ∧
  rope_offset_to_offset_utf16 r o = offset_utf16 (utf16_len (ltake o t)) ∧
  rope_offset_to_point_utf16 r o = point_utf16_of (ltake o t).
Proof.
  intros [Hr _] Hlen. rewrite parse_str_spec.
  split_and!; [by apply rope_offset_to_point_spec|by apply rope_offset_to_offset_utf16_spec|by apply rope_offset_to_point_utf16_spec].
Qed.

Lemma offset_of_point_utf16_of a b : utf8 a → utf8 b → offset_of_point_utf16 (a ++ b) (point_utf16_of a) = len a.
Proof.
  intros Ha Hb. destruct (before_last a Ha) as (p & l & -> & Hl & Hl0 & Hrows & Hlp & Hp & Hlu).
  unfold offset_of_point_utf16, point_utf16_of. cbn [row16 column16].
  rewrite (proj2 (N.ltb_ge _ _)) by (rewrite !rows_app; lia).
  rewrite Hl, <- Hrows, <- (assoc_L (++)), row_start_app, row_text_app, first_line_app, Hl0 by done. cbn [N.eqb].
  pose proof (offset_of_utf16_app l (first_line b) 0 Hlu) as E. rewrite N.add_0_r, offset_of_utf16_0 in E. rewrite E. len.
Qed.

(** C31: Converting an offset between two characters to a point, a UTF-16 offset or a
    UTF-16 point, and back, gives the offset; for points any offset will do. *)
Theorem rope_conversions_round_trip (r : Rope) (t : str) (o : N) : rope_inv r t → len t < 2 ^ 32 → o ≤ len t →
  rope_point_to_offset r (rope_offset_to_point r o) = o ∧
  (str_is_char_boundary t o = true →
     rope_offset_utf16_to_offset r (rope_offset_to_offset_utf16 r o) = o ∧
     rope_point_utf16_to_offset r (rope_offset_to_point_utf16 r o) = Some o).
Proof.
  intros [Hr _] Hlen Ho. pose proof (repr_utf8 _ _ Hr) as Ht. split.
  - rewrite (rope_offset_to_point_spec r t) by done.
    rewrite (rope_point_to_offset_spec r t) by (done || apply point_of_u32; len). by apply offset_of_point_of.
  - intros Hb. destruct (utf8_split t o Ht Hb) as (a & b & -> & <- & Ha & Hb').
    rewrite (rope_offset_to_offset_utf16_spec r (a ++ b)) by done. rewrite (rope_offset_to_point_utf16_spec r (a ++ b)) by done.
    rewrite ltake_app_len. split; [by apply (rope_offset_utf16_boundary r a b)|].
    rewrite (rope_point_utf16_to_offset_spec r (a ++ b)) by (done || apply point_utf16_of_u32; len).
    by rewrite offset_of_point_utf16_of.
Qed.

(** Conversions between points go through the offset they denote, clipped to the
    row and to whole characters. *)
Theorem rope_point_conversions (r : Rope) (t : str) (p : Point) (q : PointUtf16) :
  rope_inv r t → shallow r → len t < 2 ^ 32 → point_u32 p → point_utf16_u32 q →
  let i := offset_of_point t p in
  let j := offset_of_point_utf16 t q in
  rope_point_to_offset r p = i ∧ rope_point_to_point_utf16 r p = point_utf16_of (ltake i t) ∧
  rope_point_to_offset_utf16 r p = Some (offset_utf16 (utf16_len (ltake i t))) ∧
  rope_point_utf16_to_offset r q = Some j ∧ rope_point_utf16_to_point r q = Some (point_of (ltake j t)) ∧
  rope_unclipped_point_utf16_to_point r (unclipped q) = Some (point_of (ltake j t)) ∧
  rope_point_utf16_to_offset_utf16 r q = Some (offset_utf16 (utf16_len (ltake j t))).
Proof.
  intros [Hr _] Hsh Hlen Hp Hq. split_and!;
    [by apply rope_point_to_offset_spec|by apply rope_point_to_point_utf16_spec|by apply rope_point_to_offset_utf16_spec
    |by apply rope_point_utf16_to_offset_spec|by apply rope_point_utf16_to_point_spec
    |by apply rope_unclipped_point_utf16_to_point_spec|by apply rope_point_utf16_to_offset_utf16_spec].
Qed.

(** Rounding an offset in a rope is rounding it in the string. *)
Theorem rope_char_boundaries (r : Rope) (t : str) (o : N) : rope_inv r t → len t < 2 ^ 32 → o < 2 ^ 32 →
  rope_is_char_boundary r o = str_is_char_boundary t o ∧
  rope_clip_offset r o Left = str_floor_char_boundary t o ∧
  rope_clip_offset r o Right = str_ceil_char_boundary t o.
Proof.
  intros [Hr _] Hlen Ho.
  split_and!; [by apply rope_is_char_boundary_spec|by apply rope_floor_char_boundary_spec|by apply rope_ceil_char_boundary_spec].
Qed.

(** C35: Clipping always ends with a position of the text: it keeps the row, or goes to
    the end of the last one, and moves the column to a character boundary on the side
    the bias asks for, by at most half a surrogate pair for UTF-16. *)
Theorem rope_clipping_terminates (gb : str → N → bool) (r : Rope) (t : str) (p : Point) (q : PointUtf16) (u : N) (bias : Bias) :
  (∀ t, gb t 0 = true) → (∀ t, gb t (len t) = true) →
  rope_inv r t → len t < 2 ^ 32 → point_u32 p → point_utf16_u32 q →
  (∃ p', rope_clip_point gb r p bias = Some p' ∧
     clipped_row len (clipped_col bias) t (row p) (column p) (row p') (column p')) ∧
  (∃ q', rope_clip_point_utf16 r (unclipped q) bias = Some q' ∧
     clipped_row utf16_len (clipped_unit bias) t (row16 q) (column16 q) (row16 q') (column16 q')) ∧
  clipped_utf16 t u bias (units (rope_clip_offset_utf16 r (offset_utf16 u) bias)) ∧
  rope_line_len gb r (row p) = Some (len (if rows t <? row p then last_line t else row_text t (row p))).
Proof.
  intros Hs He [Hr _] Hlen Hp Hq. split_and!; [by apply rope_clip_point_spec|by apply rope_clip_point_utf16_spec
    |by apply rope_clip_offset_utf16_spec|]. apply rope_line_len_spec; try done. apply Hp.
Qed.

(** The cursor of a rope measures, in each dimension, exactly the text between two
    boundaries, and moves to the second one. *)
Theorem rope_cursor_summaries (r : Rope) (t : str) (o e : N) :
  rope_inv r t → shallow r → len t < 2 ^ 32 → o ≤ e ≤ len t →
  str_is_char_boundary t o = true → str_is_char_boundary t e = true →
  let u := ltake (e - o) (ldrop o t) in
  ∃ c c1 c2, rope_cursor_at r o = Some c ∧ rc_at c r t o ∧
    rc_summary (D:=TextSummary) c e = Some (c1, ts_from_str u) ∧ rc_at c1 r t e ∧
    rc_summary (D:=N * PointUtf16) c e = Some (c2, (len u, point_utf16_of u)) ∧ rc_at c2 r t e.
Proof.
  intros Hr Hsh Hlen Hoe Ho He u. assert (Ht : utf8 t) by (by eapply repr_utf8, Hr).
  destruct (rope_cursor_at_spec r t Hr Hsh Hlen o ltac:(lia)) as (c & -> & Hc).
  destruct (rc_summary_spec (D:=TextSummary) r t c o e Hlen Hc Hoe Ho He) as (c1 & E1 & Hc1).
  destruct (rc_summary_spec (D:=N * PointUtf16) r t c o e Hlen Hc Hoe Ho He) as (c2 & E2 & Hc2).
  exists c, c1, c2. split_and!; try done. rewrite E1, ts_from_str_spec; [done|].
  destruct (utf8_split t o Ht Ho) as (a & b & -> & <- & Ha & Hb). unfold u. rewrite ldrop_app_len.
  apply utf8_ltake; [done|]. replace e with (len a + (e - len a)) in He by lia. by rewrite boundary_app_r in He.
Qed.

(** ** Where the code falls short *)

(** Adding the summary of a newline is right; [add_newline] counts the UTF-16 units
    twice and does not count the character. *)
Theorem add_newline_miscounts (t : str) : utf8 t →
  ts_add (summary_of t) ts_newline = summary_of (t ++ [newline]) ∧
  ts_len_utf16 (add_newline (summary_of t)) = offset_utf16 (2 * utf16_len t + 1) ∧
  ts_chars (add_newline (summary_of t)) = num_chars t.
Proof.
  intros Ht. split_and!; [|unfold add_newline, offset_utf16_add; cbn [ts_len_utf16 summary_of units]; f_equal; lia|done]. change ts_newline with (summary_of [newline]). by rewrite summary_of_app.
Qed.

(** A slice that starts within the last character of a full chunk is rounded up to the
    chunk's end, and the shift by 128 bits leaves its bitmaps as they were: the slice of
    the empty text has 127 characters. *)
Theorem slice_misaligned_at_end :
  let c := chunk_of (replicate 126 97 ++ encode 233) in
  fits (chunk_text c) ∧
  ∃ s, chunk_slice_range c 127 128 = Some s ∧ slice_text s = [] ∧ count_ones (slice_chars s) = 127.
Proof.
  split.
  - split; [|done]. exists (replicate 126 97 ++ [233]). split; [|done]. by repeat constructor.
  - eexists. split; [by vm_compute|]. by vm_compute.
Qed.

(** ** Witnesses

    A text of 25 lines, each with letters, a two-byte character and one outside the
    basic plane: three chunks. *)

Definition demo_line : list N := [104; 101; 108; 108; 111; 233; 128512; 10].
Definition demo_text : str := encode_all (concat (replicate 25 demo_line)).
Definition demo_rope : Rope := default rope_new (rope_from_str demo_text).

Lemma demo_utf8 : utf8 demo_text.
Proof. exists (concat (replicate 25 demo_line)). split; [|done]. by repeat constructor. Qed.

Lemma demo_inv : rope_inv demo_rope demo_text.
Proof. destruct (rope_from_str_spec _ demo_utf8) as (r & E & Hr). unfold demo_rope. by rewrite E. Qed.

Lemma demo_shallow : shallow demo_rope.
Proof. vm_compute. lia. Qed.

Lemma demo_len : len demo_text < 2 ^ 32.
Proof. by vm_compute. Qed.

Lemma hello_utf8 : utf8 (encode_all demo_line).
Proof. exists demo_line. split; [|done]. by repeat constructor. Qed.

Lemma chunk_bitmaps_describe_text_witness :
  chunk_prepend_str (chunk_of [120]) (encode_all demo_line) = Some (chunk_of (encode_all demo_line ++ [120])).
Proof.
  apply (chunk_bitmaps_describe_text (encode_all demo_line) [120] 1 5); try done; [apply hello_utf8|].
  exists [120]. split; [by repeat constructor|done].
Defined.

Lemma text_summary_of_bitmaps_witness :
  fits (encode_all demo_line) ∧ slice_text_summary (slice_of (encode_all demo_line)) = ts_from_str (encode_all demo_line).
Proof. assert (fits (encode_all demo_line)) by (split; [apply hello_utf8|done]). split; [done|by apply text_summary_of_bitmaps]. Defined.

Lemma text_summary_add_witness :
  ts_add (ts_from_str demo_text) (ts_from_str (encode_all demo_line)) = ts_from_str (demo_text ++ encode_all demo_line).
Proof. apply text_summary_add; [apply demo_utf8|apply hello_utf8]. Defined.

Lemma point_order_lexicographic_witness : cmp (point 1 7) (point 2 3) = Lt ∧ point_u32 (parse_str demo_text).
Proof.
  destruct (point_order_lexicographic demo_text [] (point 1 7) (point 2 3)) as (E & H & _ & E' & _); [done..|].
  rewrite E, <- (app_nil_r demo_text) at 1. rewrite E' in H. split; [done|]. by rewrite app_nil_r in H.
Defined.

Lemma rope_refines_string_witness : roped (demo_text ++ encode_all demo_line) (rope_push demo_rope (encode_all demo_line)).
Proof.
  apply (rope_refines_string demo_rope demo_rope demo_text demo_text);
    [apply demo_inv|apply demo_inv|apply hello_utf8|apply demo_shallow|apply demo_shallow|by vm_compute].
Defined.

Lemma demo_slice_shallow : slice_shallow demo_rope 13 275.
Proof.
  intros c0 c E0 E1. vm_compute in E0. injection E0 as <-. vm_compute in E1. injection E1 as <-. vm_compute. lia.
Qed.

Lemma demo_replace_shallow : replace_shallow demo_rope 13 275.
Proof.
  intros c0 E0. vm_compute in E0. injection E0 as <-. split; [vm_compute; lia|].
  intros c1 before c2 E1 E2. vm_compute in E1. injection E1 as <- <-. vm_compute in E2. injection E2 as <-.
  split; [vm_compute; lia|]. split; [vm_compute; lia|].
  intros c3 after E3. vm_compute in E3. injection E3 as <- <-. vm_compute. lia.
Qed.

Lemma rope_slice_replace_witness : roped (ltake 262 (ldrop 13 demo_text)) (rope_slice demo_rope 13 275).
Proof.
  assert (utf8 []) by by exists [].
  apply (rope_slice_replace demo_rope demo_text [] 13 275 demo_inv demo_shallow demo_len);
    [by vm_compute|done|by vm_compute|by vm_compute|apply demo_slice_shallow|apply demo_replace_shallow].
Defined.

Lemma rope_measures_text_witness : rope_max_point demo_rope = point 25 0 ∧ rope_summary demo_rope = ts_from_str demo_text.
Proof.
  destruct (rope_measures_text demo_rope demo_text demo_inv) as (E & _ & _ & -> & _). by split.
Defined.

Lemma rope_offset_conversions_witness : rope_offset_to_point demo_rope 263 = point 21 11.
Proof. destruct (rope_offset_conversions demo_rope demo_text 263 demo_inv demo_len) as (-> & _). by vm_compute. Defined.

Lemma rope_conversions_round_trip_witness :
  rope_point_utf16_to_offset demo_rope (rope_offset_to_point_utf16 demo_rope 263) = Some 263.
Proof.
  by destruct (rope_conversions_round_trip demo_rope demo_text 263 demo_inv demo_len ltac:(done)) as (_ & [_ ?]).
Defined.

Lemma rope_point_conversions_witness : rope_point_utf16_to_offset demo_rope (point_utf16 21 7) = Some 259.
Proof.
  by destruct (rope_point_conversions demo_rope demo_text (point 3 4) (point_utf16 21 7) demo_inv demo_shallow demo_len)
    as (_ & _ & _ & -> & _); [split..|].
Defined.

Lemma rope_char_boundaries_witness : rope_clip_offset demo_rope 260 Right = 263.
Proof. by destruct (rope_char_boundaries demo_rope demo_text 260 demo_inv demo_len) as (_ & _ & ->). Defined.

Lemma rope_clipping_terminates_witness :
  ∃ p, rope_clip_point (λ _ _, true) demo_rope (point 21 9) Right = Some p.
Proof.
  destruct (rope_clipping_terminates (λ _ _, true) demo_rope demo_text (point 21 9) (point_utf16 0 0) 0 Right)
    as ((p & E & _) & _); [intros _; reflexivity|intros _; reflexivity|exact demo_inv|exact demo_len|by split|by split|].
  exists p. exact E.
Defined.

Lemma rope_cursor_summaries_witness : ∃ c c', rope_cursor_at demo_rope 13 = Some c ∧
  rc_summary (D:=TextSummary) c 275 = Some (c', ts_from_str (ltake 262 (ldrop 13 demo_text))).
Proof.
  destruct (rope_cursor_summaries demo_rope demo_text 13 275 demo_inv demo_shallow demo_len)
    as (c & c1 & c2 & E & _ & E1 & _); [by vm_compute|by vm_compute|by vm_compute|].
  exists c, c1. split; [exact E|exact E1].
Defined.
