(* ===== verification/RopeChunksTheorems.v ===== *)
(** * RopeChunksTheorems: the pieces of a rope are its text

    An iterator over chunks stands at an offset of the text ([forward], [backward]); what it returns is the text
    from there to the end of the range, or back to its start, in pieces.  So [chars_at], [lines],
    [next_line], [starts_with] and the others do what they say. *)

From S2P Require Import Prelude Bits Utf8 SumTree SumTreeSpec SumTreeFind Cursor CursorSpec CursorFacts TextSummary.
From S2P Require Import Chunk ChunkFacts Rope RopeFacts RopeConvert RopeEdit RopeSlice RopeChunks RopeTheorems.

(** A chunk holds something. *)
Lemma chunk_pos x : chunk_ok x → 0 < len (chunk_text x).
Proof. intros (_ & Hne & _). destruct (chunk_text x); [done|]. rewrite len_cons. lia. Qed.

(** ** The cursor over the chunks *)

Section rope.
Context (r : Rope) (t : str) (Hr : rope_inv r t) (Hsh : shallow r) (Hlen : len t < 2 ^ 32).
Implicit Types (c : Cursor Chunk ChunkSummary N) (b a : list Chunk) (o s e : N) (it : Chunks).

Definition stands c b a : Prop := cursor_at c b a ∧ cursor_tree c = r.

Lemma stands_texts c b a : stands c b a → to_list r = b ++ a ∧ Forall chunk_ok b ∧ Forall chunk_ok a ∧ t = texts b ++ texts a.
Proof.
  intros [Hat Htr]. pose proof (at_items _ _ _ Hat) as Hl. rewrite Htr in Hl. destruct Hr as [(_ & Hok & Ht) _].
  rewrite Hl in Hok, Ht. apply Forall_app in Hok as [Hb Ha]. split_and!; [done..|]. by rewrite <- Ht, texts_app.
Qed.

Lemma stands_at_start c b a : stands c b a → start c = len (texts b).
Proof. intros Hs. destruct (stands_texts _ _ _ Hs) as (_ & Hb & _). unfold start. rewrite (at_position _ _ _ (proj1 Hs)). by apply pos_len. Qed.

Definition head_len a : N := match a with x :: _ => len (chunk_text x) | [] => 0 end.

Lemma stands_end c b a : stands c b a → end_ c = Some (len (texts b) + head_len a).
Proof.
  intros Hs. destruct (stands_texts _ _ _ Hs) as (_ & Hb & Ha & _). rewrite (end_at _ _ _ (proj1 Hs)). destruct a as [|x a]; cbn [head_len].
  - rewrite pos_len by done. f_equal. lia.
  - apply Forall_cons in Ha as [Hx _]. rewrite pos_len by (apply Forall_app; split; [done|by constructor]). rewrite texts_app, len_app. cbn. by rewrite app_nil_r.
Qed.

Lemma stands_item c b a : stands c b a → item c = Some (head a).
Proof. intros [Hat _]. by apply (item_at _ _ _ Hat). Qed.

Lemma tree_wf : ∃ h, wf h r ∧ (h < 16)%nat.
Proof. destruct Hr as [((h & Hw) & _) _]. exists h. split; [done|]. unfold shallow in Hsh. by rewrite (wf_height _ _ Hw) in Hsh. Qed.

Lemma tree_texts : Forall chunk_ok (to_list r) ∧ texts (to_list r) = t.
Proof. by destruct Hr as [(_ & ? & ?) _]. Qed.

Lemma text_utf8 : utf8 t.
Proof. destruct tree_texts as [Hok <-]. by apply texts_utf8. Qed.

(** Where a seek ends: to the right, at the chunk that holds the next byte; to the left, at the one that holds the byte before. *)
Definition placed (bias : Bias) b a o : Prop :=
  match bias with
  | Right => len (texts b) ≤ o ∧ (a = [] ∨ o < len (texts b) + head_len a)
  | Left => (b = [] ∨ len (texts b) < o) ∧ o ≤ len (texts b) + head_len a
  end.

Lemma placed_upper c b a o : stands c b a → placed Right b a o → o ≤ len t → o ≤ len (texts b) + head_len a.
Proof.
  intros Hst [_ [->|Hp]] Ho; [|lia]. destruct (stands_texts _ _ _ Hst) as (_ & _ & _ & Ht). apply (f_equal len) in Ht. rewrite app_nil_r in Ht. lia.
Qed.

Lemma parts_placed bias k l before after o : Forall chunk_ok k → Forall chunk_ok l → k ++ l = to_list r → o ≤ len t →
  (k = [] ∨ behind (at_offset o) bias (len (texts k))) → parts (at_offset o) bias (len (texts k)) l before after → placed bias (k ++ before) after o.
Proof.
  intros Hk Hl Hkl Ho Hstart Hp. destruct tree_texts as [_ Ht]. rewrite <- Hkl, texts_app in Ht.
  pose proof (parts_key (K:=N) (D:=N) (λ d, d) (λ _, eq_refl) o bias (texts k) l before after (texts_utf8 _ Hk) Hl) as Hkey.
  destruct (Hkey Hp) as (-> & Hbe & Haf). clear Hkey Hp.
  assert (texts (k ++ before) = texts k ++ texts before) as E by (by rewrite texts_app).
  assert (k ++ before = [] ∨ behind (seek_key o) bias (len (texts (k ++ before)))) as Hbe'.
  { destruct Hbe as [->|Hbe]; [rewrite app_nil_r; exact Hstart|right]. rewrite E. exact Hbe. }
  assert (match after with x :: _ => ¬ behind (seek_key o) bias (len (texts (k ++ before)) + head_len after) | [] => len t = len (texts (k ++ before)) end) as Haf'.
  { destruct after as [|x after]; cbn [head_len]; [by rewrite E, <- Ht, app_nil_r|]. rewrite E, <- len_app, <- app_assoc. exact Haf. }
  destruct bias; cbn [placed].
  - split; [destruct Hbe' as [H|H]; [by left|right; by apply (behind_order (K:=N) (Hkey:=key_usize)) in H]|].
    destruct after as [|x after]; [cbn [head_len]; lia|]. rewrite (behind_order (K:=N) (Hkey:=key_usize)) in Haf'. by apply N.nlt_ge.
  - split; [destruct Hbe' as [H|H]; [rewrite H; apply N.le_0_l|by apply (behind_order (K:=N) (Hkey:=key_usize)) in H]|].
    destruct after as [|x after]; [by left|right]. rewrite (behind_order (K:=N) (Hkey:=key_usize)) in Haf'. by apply N.nle_gt.
Qed.

Lemma cursor_fresh c : cursor_tree c = r → cursor_start (reset c) ∧ cursor_tree (reset c) = r.
Proof. intros Htr. destruct tree_wf as (h & Hw & Hh). split; [|done]. unfold reset. rewrite Htr. by apply (cursor_new_start h). Qed.

Lemma seek_spec c bias o : cursor_tree c = r → o ≤ len t →
  ∃ c' found b a, seek (at_offset o) bias c = Some (c', found) ∧ stands c' b a ∧ placed bias b a o.
Proof.
  intros Htr Ho. destruct (cursor_fresh c Htr) as [Hst Hr']. destruct tree_texts as [Hok Ht].
  destruct (seek_internal_start (at_offset o) bias (reset c) () Hst) as (sk & rest & c' & u & found & Hs & Hres & Htr' & Hat & _); try done.
  { unfold at_offset, seek_key. change (cmp o dim_zero) with (o ?= 0). by destruct (N.compare_spec o 0); [done|lia|]. }
  { rewrite Hr'. apply (offset_ascending o [] (to_list r)); [done|by rewrite Ht|apply utf8_nil]. }
  unfold seek. rewrite Hres. cbn [mbind option_bind]. exists c', found, sk, rest. split; [done|]. split; [by split; [|rewrite Htr']|].
  rewrite Hr' in Hs. apply split_at_parts in Hs.
  apply (parts_placed bias [] (to_list r) sk rest o); [constructor|done|done|done|by left|exact Hs].
Qed.

Lemma seek_forward_spec c bias b a o : stands c b a → o ≤ len t → (b = [] ∨ behind (at_offset o) bias (len (texts b))) →
  ∃ c' found b' a', seek_forward (at_offset o) bias c = Some (c', found) ∧ stands c' b' a' ∧ placed bias b' a' o.
Proof.
  intros Hs Ho Hb. destruct (stands_texts _ _ _ Hs) as (Hl & Hbok & Haok & Ht). destruct Hs as [Hat Htr].
  destruct (seek_internal_at (at_offset o) bias c b a () Hat) as (sk & rest & c' & u & found & Hsp & Hres & Htr' & Hat' & _); try done.
  { rewrite pos_len by done. unfold at_offset, seek_key in *. change (cmp o (len (texts b))) with (o ?= len (texts b)).
    destruct Hb as [->|Hb]; [cbn; by destruct o|]. unfold behind in Hb. change (cmp o (len (texts b))) with (o ?= len (texts b)) in Hb.
    by destruct (o ?= len (texts b)), Hb as [|[? _]]. }
  { rewrite pos_len by done. apply offset_ascending; [done|by rewrite <- Ht|by apply texts_utf8]. }
  unfold seek_forward. rewrite Hres. cbn [mbind option_bind]. exists c', found, (b ++ sk), rest. split; [done|]. split; [by split; [|rewrite Htr']|].
  apply split_at_parts in Hsp. rewrite pos_len in Hsp by done. by apply (parts_placed bias b a sk rest o).
Qed.

(** Moving to the next chunk, and back. *)
Lemma next_chunk c b x a : stands c b (x :: a) → ∃ c', next c = Some c' ∧ stands c' (b ++ [x]) a.
Proof.
  intros [Hat Htr]. destruct (next_at c b x a Hat) as (c' & E & Htr' & Hat'). exists c'. split; [done|]. split; [done|by rewrite Htr'].
Qed.

(** Before the first chunk. *)
Definition retired c : Prop := cursor_start c ∧ did_seek c = true ∧ cursor_tree c = r.

Lemma prev_chunk c b a : stands c b a →
  ∃ c', prev c = Some c' ∧ match last b with Some x => ∃ b', b = b' ++ [x] ∧ stands c' b' (x :: a) | None => retired c' end.
Proof.
  intros [Hat Htr]. destruct tree_wf as (h & Hw & Hh).
  assert (backwards (λ _, true) c b a (prev c)) as (c' & E & Htr' & Hback).
  { destruct a as [|x a]; [|by apply search_backward_at; [|apply sound_true]]. pose proof (at_items _ _ _ Hat) as Hl. rewrite app_nil_r in Hl. rewrite <- Hl.
    apply (search_backward_all _ c h); [by rewrite Htr|done| | |apply sound_true].
    - destruct (at_tree _ _ _ Hat) as (h' & _ & _ & [[_ ?]|[? _]]); done.
    - intros _. by rewrite (at_at_end _ _ _ Hat). }
  exists c'. split; [done|]. destruct Hback as [(l1 & x & l2 & -> & _ & Hl2 & Hat')|(Hall & Hst & Hdid)].
  - destruct l2 as [|y l2]; [|by apply Forall_cons in Hl2 as [? _]]. rewrite last_snoc. exists l1. split; [done|]. split; [done|by rewrite Htr'].
  - destruct b as [|y b]; [|by apply Forall_cons in Hall as [? _]]. cbn. split; [done|]. split; [done|by rewrite Htr'].
Qed.

(** A piece of a chunk is a piece of the text. *)
Lemma chunk_slice b x a o e : Forall chunk_ok b → chunk_ok x → Forall chunk_ok a → t = texts b ++ chunk_text x ++ texts a →
  len (texts b) ≤ o → o ≤ e → e ≤ len (texts b) + len (chunk_text x) → str_is_char_boundary t o = true → str_is_char_boundary t e = true →
  str_slice (chunk_text x) (usub o (len (texts b))) (usub e (len (texts b))) = Some (ltake (e - o) (ldrop o t)) ∧
  chunk_is_char_boundary x (usub o (len (texts b))) = true.
Proof.
  intros Hb Hx Ha Ht Ho Hoe He Hbo Hbe. pose proof Hx as ((Hx8 & Hxl) & _ & Hxc). pose proof Hlen as Hl. rewrite Ht, !len_app in Hl.
  assert (∀ k, len (texts b) ≤ k ≤ len (texts b) + len (chunk_text x) → str_is_char_boundary t k = true →
    str_is_char_boundary (chunk_text x) (k - len (texts b)) = true) as Hbd.
  { intros k Hk. rewrite Ht. replace k with (len (texts b) + (k - len (texts b))) at 1 by lia.
    rewrite boundary_app_r by (by apply utf8_app; [|apply texts_utf8]). rewrite boundary_app_l by (by apply texts_utf8 || lia). done. }
  pose proof (Hbd o ltac:(lia) Hbo) as Ho'. pose proof (Hbd e ltac:(lia) Hbe) as He'.
  rewrite !usub_within by lia. split.
  - unfold str_slice. rewrite Ho', He', (proj2 (N.leb_le _ _)) by lia. cbn [andb]. f_equal. rewrite Ht.
    rewrite ldrop_app_r by lia. rewrite ldrop_app_l by lia. rewrite ltake_app_l by (rewrite len_ldrop; lia). f_equal. lia.
  - rewrite Hxc, chunk_boundary_spec; [done|by split|lia].
Qed.

(** ** Lines *)

(** A text is one line, or a first line, a newline and the rest; or the other way round. *)
Lemma first_newline_cases (p : str) : rows p = 0 ∧ split_lines p = [p] ∨ ∃ u v, p = u ++ newline :: v ∧ rows u = 0 ∧ split_lines p = u :: split_lines v.
Proof.
  induction p as [|x p IH]; [by left|]. cbn [split_lines]. rewrite rows_cons. unfold is_newline. destruct (N.eqb_spec x newline) as [->|Hx].
  - right. exists [], p. done.
  - destruct IH as [[E ->]|(u & v & -> & E & ->)]; [left; by rewrite E|right]. exists (x :: u), v. split; [done|]. rewrite rows_cons, E. unfold is_newline.
    by rewrite (proj2 (N.eqb_neq _ _) Hx).
Qed.

Lemma split_no_newline (u p : str) : rows u = 0 → ∃ x tl, split_lines p = x :: tl ∧ split_lines (u ++ p) = (u ++ x) :: tl.
Proof.
  intros Hu. destruct (split_lines_app u p) as (init & tl & Hi & Hl & Hp & E). rewrite split_lines_0 in Hl by done.
  exists (first_line p), tl. split; [done|]. rewrite Hu in Hi. destruct init; [|rewrite len_cons in Hi; lia]. by rewrite E, last_line_0.
Qed.

Lemma split_newline (u v : str) : split_lines (u ++ newline :: v) = split_lines u ++ split_lines v.
Proof.
  induction u as [|x u IH]; [done|]. cbn [app split_lines]. rewrite IH. destruct (is_newline x); [done|].
  destruct (split_lines u) as [|l ls] eqn:E; [|done]. by destruct (split_lines_shape u) as (? & ? & _ & _ & E'); rewrite E in E'.
Qed.

Lemma last_newline_cases (p : str) : rows p = 0 ∧ split_lines p = [p] ∨ ∃ u v, p = u ++ newline :: v ∧ rows v = 0 ∧ split_lines p = split_lines u ++ [v].
Proof.
  induction p as [|x p IH]; [by left|]. destruct IH as [[E Es]|(u & v & -> & E & Es)].
  - rewrite rows_cons. unfold is_newline. destruct (N.eqb_spec x newline) as [->|Hx].
    + right. exists [], p. cbn. by rewrite Es.
    + left. split; [by rewrite E|]. apply split_lines_0. rewrite rows_cons, E. unfold is_newline. by rewrite (proj2 (N.eqb_neq _ _) Hx).
  - right. exists (x :: u), v. split; [done|]. split; [done|]. change (x :: u ++ newline :: v) with ((x :: u) ++ newline :: v). by rewrite split_newline, (split_lines_0 v).
Qed.

Lemma split_never_nil (p : str) : split_lines p ≠ [].
Proof. by destruct (split_lines_shape p) as (? & ? & _ & _ & ->). Qed.

(** A newline is a character. *)
Lemma utf8_around (u v : str) : utf8 (u ++ newline :: v) → utf8 u ∧ utf8 v.
Proof.
  intros H. pose proof H as (cs & Hcs & E). clear H. revert u E. induction Hcs as [|c cs Hc Hcs IH]; intros u E; [by destruct u|].
  rewrite encode_all_cons in E. apply app_eq_inv in E as [(q & -> & E)|(q & Ec & E)].
  - destruct (IH q (eq_sym E)) as [Hq Hv]. split; [apply utf8_app; [by apply utf8_encode|done]|done].
  - destruct q as [|x q].
    + rewrite app_nil_r in Ec. cbn in E. destruct (IH [] E) as [_ Hv]. rewrite <- Ec. split; [by apply utf8_encode|done].
    + injection E as <- ->. destruct (encode_shape c (scalar_lt c Hc)) as (y & rest & Ey & _ & _ & Hcont & _ & _ & _ & H10).
      rewrite Ey in Ec. destruct u as [|z u].
      * injection Ec as -> ->. assert (c = 10) as -> by (by apply H10). cbn in Ey. injection Ey as <-. cbn. split; [apply utf8_nil|by exists cs].
      * injection Ec as -> ->. apply Forall_app in Hcont as [_ [Hn _]%Forall_cons]. unfold is_cont, newline in Hn. lia.
Qed.

Lemma starts_with_iff (u p : str) : str_starts_with u p = true ↔ p `prefix_of` u.
Proof.
  unfold str_starts_with. rewrite bool_decide_eq_true. split.
  - intros E. exists (ldrop (len p) u). by rewrite <- E at 1; rewrite ltake_ldrop.
  - intros (k & ->). apply ltake_app_len.
Qed.

Lemma ends_with_iff (u p : str) : str_ends_with u p = true ↔ p `suffix_of` u.
Proof.
  unfold str_ends_with. rewrite andb_true_iff, N.leb_le, bool_decide_eq_true. split.
  - intros [Hl E]. exists (ltake (len u - len p) u). rewrite <- E at 2. by rewrite ltake_ldrop.
  - intros (k & ->). rewrite len_app. split; [lia|]. replace (len k + len p - len p) with (len k) by lia. apply ldrop_app_len.
Qed.

(** ** Forwards *)

Section range.
Context (s e : N) (Hse : s ≤ e) (He : e ≤ len t) (Hbs : str_is_char_boundary t s = true) (Hbe : str_is_char_boundary t e = true).

(** What is in the range from [o] on, and up to [o]. *)
Definition ahead o : str := ltake (e - o) (ldrop o t).
Definition back o : str := ltake (o - s) (ldrop s t).

(** An iterator at the offset [o] of the range, between the chunks [b] and [a]. *)
Record forward it o b a : Prop := {
  forward_range : ch_range it = (s, e);
  forward_offset : ch_offset it = o;
  forward_direction : ch_reversed it = false;
  forward_stands : stands (ch_chunks it) b a;
  forward_placed : len (texts b) ≤ o ∧ (o < e → a = [] ∨ o < len (texts b) + head_len a);
  forward_in : s ≤ o ≤ e;
  forward_boundary : str_is_char_boundary t o = true;
  forward_upper : o ≤ len (texts b) + head_len a
}.

Lemma range_part i j : i ≤ j → j ≤ len t → str_is_char_boundary t i = true → str_is_char_boundary t j = true → utf8 (ltake (j - i) (ldrop i t)).
Proof.
  intros Hij Hj Hi' Hj'. rewrite <- (ldrop_ltake i j t). apply utf8_ldrop; [by apply utf8_ltake; [apply text_utf8|]|].
  by rewrite boundary_ltake by (done || apply text_utf8).
Qed.

Lemma ahead_utf8 o : o ≤ e → str_is_char_boundary t o = true → utf8 (ahead o).
Proof. intros Ho Hb. by apply range_part. Qed.

Lemma len_ahead o : o ≤ e → len (ahead o) = e - o.
Proof. intros Ho. unfold ahead. rewrite len_ltake, len_ldrop. lia. Qed.

Lemma ahead_split o m : o ≤ m → m ≤ e → ahead o = ltake (m - o) (ldrop o t) ++ ahead m.
Proof.
  intros Hom Hm. unfold ahead. rewrite <- (ltake_ldrop (m - o) (ltake (e - o) (ldrop o t))). f_equal.
  - rewrite ltake_ltake. f_equal. lia.
  - rewrite ldrop_ltake, ldrop_ldrop. f_equal; [lia|f_equal; lia].
Qed.

Lemma ahead_nil o : e ≤ o → ahead o = [].
Proof. intros Ho. unfold ahead. replace (e - o) with 0 by lia. apply ltake_0. Qed.

Lemma forward_valid it o b a : forward it o b a → offset_is_valid it = (o <? e).
Proof.
  intros [Hrg Ho Hd _ _ [Hin1 Hin2] _]. unfold offset_is_valid. rewrite Hd, Hrg, Ho. cbn [fst snd].
  rewrite (proj2 (N.ltb_ge o s)) by lia. cbn [orb]. destruct (N.leb_spec e o), (N.ltb_spec o e); (done || lia).
Qed.

Lemma forward_chunk it o b a : forward it o b a → o < e → ∃ x a', a = x :: a' ∧ o < len (texts b) + len (chunk_text x) ∧
  t = texts b ++ chunk_text x ++ texts a' ∧ Forall chunk_ok b ∧ chunk_ok x ∧ Forall chunk_ok a'.
Proof.
  intros [_ _ _ Hst [Hpl Hp] _ _] Hlt. destruct (stands_texts _ _ _ Hst) as (_ & Hb & Ha & Ht). destruct a as [|x a].
  - assert (len t = len (texts b)) as E by (by rewrite Ht, app_nil_r). lia.
  - apply Forall_cons in Ha as [Hx Ha]. destruct (Hp Hlt) as [|Hp']; [done|]. cbn [head_len] in Hp'. by exists x, a.
Qed.

(** The end of the next piece. *)
Definition piece_end b a : N := N.min (len (texts b) + head_len a) e.

Lemma forward_piece it o b a : forward it o b a → o < e →
  o < piece_end b a ∧ piece_end b a ≤ e ∧ str_is_char_boundary t (piece_end b a) = true.
Proof.
  intros Hf Hlt. destruct (forward_chunk it o b a Hf Hlt) as (x & a' & -> & Hx & Ht & Hb & Hxok & Ha). unfold piece_end. cbn [head_len].
  split; [lia|]. split; [lia|]. destruct (N.min_spec (len (texts b) + len (chunk_text x)) e) as [[_ ->]|[_ ->]]; [|done].
  rewrite Ht, app_assoc, <- len_app. apply boundary_app. by apply texts_utf8.
Qed.

Lemma peek_forward it o b a : forward it o b a → peek it = Some (if o <? e then Some (ltake (piece_end b a - o) (ldrop o t)) else None).
Proof.
  intros Hf. unfold peek. rewrite (forward_valid _ _ _ _ Hf). destruct (N.ltb_spec o e) as [Hlt|]; cbn [negb]; [|done].
  destruct (forward_chunk it o b a Hf Hlt) as (x & a' & -> & Hx & Ht & Hb & Hxok & Ha). destruct (forward_piece _ _ _ _ Hf Hlt) as (Hp1 & Hp2 & Hp3).
  pose proof Hf as [Hrg Ho Hd Hst [Hpl _] _ Hbo]. rewrite (stands_item _ _ _ Hst), (stands_end _ _ _ Hst). cbn [mbind option_bind head].
  unfold slice_range. rewrite Hd, Hrg, Ho, (stands_at_start _ _ _ Hst). cbn [fst snd]. fold (piece_end b (x :: a')).
  destruct (chunk_slice b x a' o (piece_end b (x :: a'))) as [-> _]; try done; [lia|unfold piece_end; cbn [head_len]; lia].
Qed.

Lemma forward_pass it o b a n : forward it o b a → o < e → 0 < n → o + n ≤ len (texts b) + head_len a → o + n ≤ e → str_is_char_boundary t (o + n) = true →
  ∃ it' b' a', pass it n = Some it' ∧ forward it' (o + n) b' a' ∧ (length a' ≤ length a)%nat ∧ (o + n = len (texts b) + head_len a → (length a' < length a)%nat).
Proof.
  intros Hf Hlt Hn Hle Hle' Hbn. destruct (forward_chunk it o b a Hf Hlt) as (x & a' & -> & Hx & Ht & Hb & Hxok & Ha).
  pose proof Hf as [Hrg Ho Hd Hst [Hpl _] Hin Hbo]. unfold pass. rewrite Hd. cbn [with_offset ch_offset ch_chunks]. rewrite Ho, (stands_end _ _ _ Hst).
  cbn [mbind option_bind head_len] in *. destruct (N.leb_spec (len (texts b) + len (chunk_text x)) (o + n)) as [Hge|Hlt'].
  - destruct (next_chunk _ _ _ _ Hst) as (c' & -> & Hst'). cbn [mbind option_bind]. eexists _, (b ++ [x]), a'. split; [done|]. split; [|cbn; lia].
    split; try done; [|lia|rewrite texts_app, texts_singleton, len_app; lia]. rewrite texts_app, len_app. cbn. rewrite app_nil_r. split; [lia|]. intros _. destruct a' as [|y a']; [by left|right].
    apply Forall_cons in Ha as [Hy _]. cbn [head_len]. pose proof (chunk_pos y Hy). lia.
  - eexists _, b, (x :: a'). split; [done|]. split; [|cbn; lia]. split; try done; [|lia]. split; [lia|]. intros _. right. cbn [head_len]. lia.
Qed.

Lemma next_forward it o b a : forward it o b a →
  if o <? e then
    ∃ it' b' a', chunks_next it = Some (it', Some (ltake (piece_end b a - o) (ldrop o t))) ∧ forward it' (piece_end b a) b' a' ∧
      (length a' ≤ length a)%nat ∧ (piece_end b a = e ∨ length a' < length a)%nat
  else chunks_next it = Some (it, None).
Proof.
  intros Hf. unfold chunks_next. rewrite (peek_forward _ _ _ _ Hf). destruct (N.ltb_spec o e) as [Hlt|]; [|done]. cbn [mbind option_bind].
  destruct (forward_piece _ _ _ _ Hf Hlt) as (Hp1 & Hp2 & Hp3). set (m := piece_end b a) in *.
  assert (len (ltake (m - o) (ldrop o t)) = m - o) as -> by (rewrite len_ltake, len_ldrop; lia).
  destruct (forward_pass it o b a (m - o) Hf Hlt) as (it' & b' & a' & -> & Hf' & Hl & Hl'); [lia|unfold m, piece_end in *; lia|lia|by replace (o + (m - o)) with m by lia|].
  replace (o + (m - o)) with m in * by lia. cbn [mbind option_bind]. exists it', b', a'. split; [done|]. split; [done|]. split; [done|].
  unfold m, piece_end in *. destruct (N.min_spec (len (texts b) + head_len a) e) as [[_ E]|[_ E]]; rewrite E in *; [right; by apply Hl'|by left].
Qed.

Lemma collect_forward fuel : ∀ it o b a, forward it o b a → (length a + 2 ≤ fuel)%nat →
  ∃ l, chunks_collect fuel it = Some l ∧ concat l = ahead o ∧ Forall utf8 l ∧ Forall (λ p, p ≠ []) l.
Proof.
  induction fuel as [|fuel IH]; intros it o b a Hf Hl; [lia|]. cbn [chunks_collect]. pose proof (next_forward _ _ _ _ Hf) as Hnext.
  pose proof (forward_in _ _ _ _ Hf) as Hin. pose proof (forward_boundary _ _ _ _ Hf) as Hbo.
  destruct (N.ltb_spec o e) as [Hlt|Hge]; [|rewrite Hnext; exists []; by rewrite ahead_nil by lia].
  destruct Hnext as (it' & b' & a' & -> & Hf' & Hla & Hdec). cbn [mbind option_bind]. destruct (forward_piece _ _ _ _ Hf Hlt) as (Hp1 & Hp2 & Hp3).
  assert (∃ l, chunks_collect fuel it' = Some l ∧ concat l = ahead (piece_end b a) ∧ Forall utf8 l ∧ Forall (λ p, p ≠ []) l) as (l & -> & Hc & Hu & Hne).
  { destruct Hdec as [E|Hdec]; [|apply (IH _ _ _ _ Hf'); lia]. destruct fuel as [|fuel]; [lia|]. cbn [chunks_collect].
    pose proof (next_forward _ _ _ _ Hf') as Hn. rewrite E, N.ltb_irrefl in Hn. rewrite Hn. exists []. by rewrite ahead_nil by lia. }
  eexists. split; [done|]. cbn [concat]. rewrite (ahead_split o (piece_end b a)), Hc by lia. split; [done|].
  split; constructor; [apply range_part; (done || lia)|done| |done].
  intros E. assert (len (ltake (piece_end b a - o) (ldrop o t)) = 0) as E0 by (by rewrite E). rewrite len_ltake, len_ldrop in E0. lia.
Qed.

Lemma rounds_enough b a : to_list r = b ++ a → (length a + 2 ≤ chunk_rounds r)%nat.
Proof. intros E. unfold chunk_rounds. pose proof (length_items_cost r) as H. rewrite E, length_app in H. lia. Qed.

Lemma stands_rounds c b a : stands c b a → (length a + 2 ≤ chunk_rounds r)%nat.
Proof. intros Hst. eapply rounds_enough, (stands_texts _ _ _ Hst). Qed.

Lemma new_forward : ∃ it b a, chunks_in_range r s e = Some it ∧ forward it s b a.
Proof.
  unfold chunks_in_range, chunks_new. cbn [fst snd]. destruct (seek_spec (cursor_new r) Right s) as (c & found & b & a & -> & Hst & Hp); [done|lia|].
  cbn [mbind option_bind]. rewrite (stands_item _ _ _ Hst), (stands_at_start _ _ _ Hst). cbn [mbind option_bind].
  assert (match head a with Some x => if chunk_is_char_boundary x (usub s (len (texts b))) then Some () else None | None => Some () end = Some ()) as ->.
  { destruct (stands_texts _ _ _ Hst) as (_ & Hb & Ha & Ht). destruct a as [|x a]; [done|]. cbn [head]. apply Forall_cons in Ha as [Hx Ha].
    destruct Hp as [Hp [|Hp']]; [done|]. cbn [head_len] in Hp'. destruct (chunk_slice b x a s s) as [_ ->]; (done || lia). }
  eexists _, b, a. split; [done|]. split; try done; [|by apply (placed_upper _ _ _ _ Hst); [|lia]]. split; [apply Hp|]. intros _. apply Hp.
Qed.

(** The pieces of a range are its text. *)
Lemma pieces_spec : ∃ l, pieces_in_range r s e = Some l ∧ concat l = ahead s ∧ Forall utf8 l ∧ Forall (λ p, p ≠ []) l.
Proof.
  destruct new_forward as (it & b & a & E & Hf). unfold pieces_in_range. rewrite E. cbn [mbind option_bind].
  apply (collect_forward _ it s b a Hf). eapply stands_rounds, Hf.
Qed.

(** ** Backwards *)

(** The chunks before the cursor and from it on; none when it is before the first chunk. *)
Record backward it o (chunks : option (list Chunk * list Chunk)) : Prop := {
  backward_range : ch_range it = (s, e);
  backward_offset : ch_offset it = o;
  backward_direction : ch_reversed it = true;
  backward_stands : match chunks with Some (b, a) => stands (ch_chunks it) b a ∧ placed Left b a o | None => o = 0 end;
  backward_in : s ≤ o ≤ e;
  backward_boundary : str_is_char_boundary t o = true
}.

Lemma backward_valid it o ch : backward it o ch → offset_is_valid it = (s <? o).
Proof.
  intros [Hrg Ho Hd _ [Hin1 Hin2] _]. unfold offset_is_valid. rewrite Hd, Hrg, Ho. cbn [fst snd].
  rewrite (proj2 (N.ltb_ge e o)) by lia. rewrite orb_false_r. destruct (N.leb_spec o s), (N.ltb_spec s o); (done || lia).
Qed.

Lemma backward_chunk it o ch : backward it o ch → s < o → ∃ b x a, ch = Some (b, x :: a) ∧ stands (ch_chunks it) b (x :: a) ∧
  len (texts b) < o ∧ o ≤ len (texts b) + len (chunk_text x) ∧
  t = texts b ++ chunk_text x ++ texts a ∧ Forall chunk_ok b ∧ chunk_ok x ∧ Forall chunk_ok a.
Proof.
  intros [_ _ _ Hst _ _] Hlt. destruct ch as [[b a]|]; [|lia]. destruct Hst as [Hst [Hp Hp']].
  destruct (stands_texts _ _ _ Hst) as (_ & Hb & Ha & Ht). assert (len (texts b) < o) as Hbo by (destruct Hp as [->|]; [eapply N.le_lt_trans; [apply N.le_0_l|exact Hlt]|done]).
  destruct a as [|x a]; [cbn [head_len] in Hp'; lia|]. apply Forall_cons in Ha as [Hx Ha]. by exists b, x, a.
Qed.

(** The start of the next piece. *)
Definition piece_start (ch : option (list Chunk * list Chunk)) : N := match ch with Some (b, _) => N.max (len (texts b)) s | None => s end.

Lemma backward_piece it o ch : backward it o ch → s < o → s ≤ piece_start ch ∧ piece_start ch < o ∧ str_is_char_boundary t (piece_start ch) = true.
Proof.
  intros Hf Hlt. destruct (backward_chunk it o ch Hf Hlt) as (b & x & a & -> & _ & Hbo & _ & Ht & _ & Hx & Ha). cbn [piece_start].
  split; [lia|]. split; [lia|]. destruct (N.max_spec (len (texts b)) s) as [[_ ->]|[_ ->]]; [done|].
  rewrite Ht. apply boundary_app. apply utf8_app; [apply Hx|by apply texts_utf8].
Qed.

Lemma peek_backward it o ch : backward it o ch → peek it = Some (if s <? o then Some (ltake (o - piece_start ch) (ldrop (piece_start ch) t)) else None).
Proof.
  intros Hf. unfold peek. rewrite (backward_valid _ _ _ Hf). destruct (N.ltb_spec s o) as [Hlt|]; cbn [negb]; [|done].
  destruct (backward_chunk it o ch Hf Hlt) as (b & x & a & -> & Hst & Hbo & Hox & Ht & Hb & Hx & Ha). destruct (backward_piece _ _ _ Hf Hlt) as (Hp1 & Hp2 & Hp3).
  pose proof Hf as [Hrg Ho Hd _ _ Hbd]. rewrite (stands_item _ _ _ Hst), (stands_end _ _ _ Hst). cbn [mbind option_bind head].
  unfold slice_range. rewrite Hd, Hrg, Ho, (stands_at_start _ _ _ Hst). cbn [fst snd piece_start] in *.
  destruct (chunk_slice b x a (N.max (len (texts b)) s) o) as [-> _]; try done; lia.
Qed.

(** How many chunks there are up to the cursor. *)
Definition chunks_left (ch : option (list Chunk * list Chunk)) : nat := match ch with Some (b, _) => length b | None => 0 end.

Lemma next_backward it o ch : backward it o ch →
  if s <? o then
    ∃ it' ch', chunks_next it = Some (it', Some (ltake (o - piece_start ch) (ldrop (piece_start ch) t))) ∧ backward it' (piece_start ch) ch' ∧
      (piece_start ch = s ∨ chunks_left ch' < chunks_left ch)%nat
  else chunks_next it = Some (it, None).
Proof.
  intros Hf. unfold chunks_next. rewrite (peek_backward _ _ _ Hf). destruct (N.ltb_spec s o) as [Hlt|]; [|done]. cbn [mbind option_bind].
  destruct (backward_chunk it o ch Hf Hlt) as (b & x & a & -> & Hst & Hbo & Hox & Ht & Hb & Hx & Ha). destruct (backward_piece _ _ _ Hf Hlt) as (Hp1 & Hp2 & Hp3).
  pose proof Hf as [Hrg Ho Hd _ Hin Hbd]. set (m := piece_start (Some (b, x :: a))) in *.
  assert (len (ltake (o - m) (ldrop m t)) = o - m) as -> by (rewrite len_ltake, len_ldrop; lia).
  unfold pass. rewrite Hd. cbn [with_offset ch_offset ch_chunks]. rewrite Ho, usub_within, (stands_at_start _ _ _ Hst) by lia. replace (o - (o - m)) with m by lia.
  destruct (N.leb_spec m (len (texts b))) as [Hle|Hgt].
  - destruct (prev_chunk _ _ _ Hst) as (c' & -> & Hprev). cbn [mbind option_bind]. assert (m = len (texts b)) as Em by (unfold m, piece_start in *; lia).
    destruct (last b) as [y|] eqn:El.
    + destruct Hprev as (b' & -> & Hst'). eexists _, (Some (b', y :: x :: a)). split; [done|]. split; [|right; cbn; rewrite length_app; cbn; lia].
      apply Forall_app in Hb as [Hb' Hy]. apply Forall_cons in Hy as [Hy _].
      assert (len (texts (b' ++ [y])) = len (texts b') + len (chunk_text y)) as Ey by (rewrite texts_app, len_app; cbn; by rewrite app_nil_r).
      split; try done; [|lia]. split; [done|]. cbn [placed head_len]. split; [right|lia]. pose proof (chunk_pos y Hy). lia.
    + apply last_None in El as ->. eexists _, None. split; [done|]. split; [|left; unfold m; cbn [piece_start]; change (len (texts [])) with 0; lia]. split; try done. lia.
  - eexists _, (Some (b, x :: a)). split; [done|]. split; [|left; unfold m, piece_start in *; lia].
    split; try done; [|lia]. split; [done|]. cbn [placed head_len]. split; [by right|]. lia.
Qed.

(** The text of the range before [o]. *)
Lemma back_split o m : s ≤ m → m ≤ o → back o = back m ++ ltake (o - m) (ldrop m t).
Proof.
  intros Hm Ho. unfold back. rewrite <- (ltake_ldrop (m - s) (ltake (o - s) (ldrop s t))). f_equal.
  - rewrite ltake_ltake. f_equal. lia.
  - rewrite ldrop_ltake, ldrop_ldrop. f_equal; [lia|f_equal; lia].
Qed.

Lemma back_nil o : o ≤ s → back o = [].
Proof. intros Ho. unfold back. replace (o - s) with 0 by lia. apply ltake_0. Qed.

Lemma collect_backward fuel : ∀ it o ch, backward it o ch → (chunks_left ch + 2 ≤ fuel)%nat →
  ∃ l, chunks_collect fuel it = Some l ∧ concat (rev l) = back o ∧ Forall utf8 l ∧ Forall (λ p, p ≠ []) l.
Proof.
  induction fuel as [|fuel IH]; intros it o ch Hf Hl; [lia|]. cbn [chunks_collect]. pose proof (next_backward _ _ _ Hf) as Hnext.
  pose proof (backward_in _ _ _ Hf) as Hin. pose proof (backward_boundary _ _ _ Hf) as Hbo.
  destruct (N.ltb_spec s o) as [Hlt|Hge]; [|rewrite Hnext; exists []; by rewrite back_nil by lia].
  destruct Hnext as (it' & ch' & -> & Hf' & Hdec). cbn [mbind option_bind]. destruct (backward_piece _ _ _ Hf Hlt) as (Hp1 & Hp2 & Hp3).
  assert (∃ l, chunks_collect fuel it' = Some l ∧ concat (rev l) = back (piece_start ch) ∧ Forall utf8 l ∧ Forall (λ p, p ≠ []) l) as (l & -> & Hc & Hu & Hne).
  { destruct Hdec as [E|Hdec]; [|apply (IH _ _ _ Hf'); lia]. destruct fuel as [|fuel]; [lia|]. cbn [chunks_collect].
    pose proof (next_backward _ _ _ Hf') as Hn. rewrite E, N.ltb_irrefl in Hn. rewrite Hn. exists []. by rewrite E, back_nil by lia. }
  eexists. split; [done|]. cbn [rev mbind option_bind]. rewrite concat_app. cbn [concat]. rewrite Hc, app_nil_r, <- back_split by lia. split; [done|].
  split; constructor; [apply range_part; (done || lia)|done| |done].
  intros E. assert (len (ltake (o - piece_start ch) (ldrop (piece_start ch) t)) = 0) as E0 by (by rewrite E). rewrite len_ltake, len_ldrop in E0. lia.
Qed.

Lemma new_backward : ∃ it b a, reversed_chunks_in_range r s e = Some it ∧ backward it e (Some (b, a)) ∧ (length b ≤ length (to_list r))%nat.
Proof.
  unfold reversed_chunks_in_range, chunks_new. cbn [fst snd]. destruct (seek_spec (cursor_new r) Left e) as (c & found & b & a & -> & Hst & Hp); [done|lia|].
  cbn [mbind option_bind]. rewrite (stands_item _ _ _ Hst), (stands_at_start _ _ _ Hst). cbn [mbind option_bind].
  destruct (stands_texts _ _ _ Hst) as (El & Hb & Ha & Ht).
  assert (match head a with Some x => if chunk_is_char_boundary x (usub e (len (texts b))) then Some () else None | None => Some () end = Some ()) as ->.
  { destruct a as [|x a]; [done|]. cbn [head]. apply Forall_cons in Ha as [Hx Ha]. destruct Hp as [Hp Hp']. cbn [head_len] in Hp'.
    assert (len (texts b) ≤ e) by (destruct Hp as [->|]; [apply N.le_0_l|lia]). destruct (chunk_slice b x a e e) as [_ ->]; (done || lia). }
  eexists _, b, a. split; [done|]. split; [by split|]. rewrite El, length_app. lia.
Qed.

(** Backwards, the pieces come in the other order. *)
Lemma reversed_pieces_spec : ∃ l, reversed_pieces_in_range r s e = Some l ∧ concat (rev l) = back e ∧ Forall utf8 l ∧ Forall (λ p, p ≠ []) l.
Proof.
  destruct new_backward as (it & b & a & E & Hf & Hb). unfold reversed_pieces_in_range. rewrite E. cbn [mbind option_bind].
  apply (collect_backward _ it e _ Hf). cbn. unfold chunk_rounds. pose proof (length_items_cost r). lia.
Qed.

(** *** A line at a time *)

(** Where a seek goes: into the range. *)
Definition clamp o : N := N.min (N.max o s) e.

Lemma clamp_in o : s ≤ clamp o ≤ e.
Proof. unfold clamp. lia. Qed.

Lemma clamp_id o : s ≤ o → o ≤ e → clamp o = o.
Proof. unfold clamp. lia. Qed.

Lemma clamp_boundary o : (s ≤ o ≤ e → str_is_char_boundary t o = true) → str_is_char_boundary t (clamp o) = true.
Proof.
  intros Hb. unfold clamp. destruct (N.le_gt_cases s o); [|by rewrite N.max_r, N.min_l by lia].
  destruct (N.le_gt_cases o e); [by rewrite N.max_l, N.min_l by lia; apply Hb|by rewrite N.min_r by lia].
Qed.

(** A seek reuses the cursor when it can: on from the chunk it is at, or at this chunk, or afresh. *)
Lemma seek_anywhere it b a q : ch_range it = (s, e) → ch_reversed it = false → stands (ch_chunks it) b a →
  (s ≤ q ≤ e → str_is_char_boundary t q = true) → ∃ it' b' a', chunks_seek it q = Some it' ∧ forward it' (clamp q) b' a'.
Proof.
  intros Hrg Hd Hst Hb%clamp_boundary. pose proof (clamp_in q) as Hin. unfold chunks_seek. rewrite Hrg, Hd. cbn [fst snd]. fold (clamp q).
  rewrite (proj2 (N.ltb_ge e s)), (stands_end _ _ _ Hst), (stands_at_start _ _ _ Hst) by lia. cbn [mbind option_bind].
  assert (∀ c b' a', stands c b' a' → placed Right b' a' (clamp q) → forward (mk_chunks c (s, e) (clamp q) false) (clamp q) b' a') as Hmk.
  { intros c b' a' Hst' Hp. split; try done; [|by apply (placed_upper _ _ _ _ Hst'); [|lia]]. split; [apply Hp|]. intros _. apply Hp. }
  destruct (N.leb_spec (len (texts b) + head_len a) (clamp q)) as [Hle|Hgt]; [|destruct (N.ltb_spec (clamp q) (len (texts b))) as [Hlt|Hge]].
  - destruct (seek_forward_spec _ Right b a (clamp q) Hst) as (c' & f & b' & a' & -> & Hst' & Hp); [lia|right; apply (behind_order (K:=N) (Hkey:=key_usize)); cbn; lia|].
    cbn [mbind option_bind]. eexists _, b', a'. split; [done|]. by apply Hmk.
  - destruct (seek_spec (ch_chunks it) Right (clamp q)) as (c' & f & b' & a' & -> & Hst' & Hp); [apply Hst|lia|].
    cbn [mbind option_bind]. eexists _, b', a'. split; [done|]. by apply Hmk.
  - cbn [mbind option_bind]. eexists _, b, a. split; [done|]. apply Hmk; [done|]. cbn [placed]. lia.
Qed.

Lemma seek_forwards it o b a o' : forward it o b a → s ≤ o' → o' ≤ e → str_is_char_boundary t o' = true →
  ∃ it' b' a', chunks_seek it o' = Some it' ∧ forward it' o' b' a'.
Proof.
  intros [Hrg _ Hd Hst _ _ _ _] Hs Ho Hb. destruct (seek_anywhere it b a o' Hrg Hd Hst) as (it' & b' & a' & E & Hf); [done|].
  rewrite clamp_id in Hf by done. by exists it', b', a'.
Qed.

(** Backwards too, unless the cursor has left the first chunk. *)
Lemma seek_anywhere_backward it b a q : ch_range it = (s, e) → ch_reversed it = true → stands (ch_chunks it) b a →
  (s ≤ q ≤ e → str_is_char_boundary t q = true) → ∃ it' b' a', chunks_seek it q = Some it' ∧ backward it' (clamp q) (Some (b', a')).
Proof.
  intros Hrg Hd Hst Hb%clamp_boundary. pose proof (clamp_in q) as Hin. unfold chunks_seek. rewrite Hrg, Hd. cbn [fst snd]. fold (clamp q).
  rewrite (proj2 (N.ltb_ge e s)), (stands_end _ _ _ Hst), (stands_at_start _ _ _ Hst) by lia. cbn [mbind option_bind].
  destruct (N.ltb_spec (len (texts b) + head_len a) (clamp q)) as [Hlt|Hge]; [|destruct (N.leb_spec (clamp q) (len (texts b))) as [Hle|Hgt]].
  - destruct (seek_forward_spec _ Left b a (clamp q) Hst) as (c' & f & b' & a' & -> & Hst' & Hp); [lia|right; apply (behind_order (K:=N) (Hkey:=key_usize)); cbn; lia|].
    cbn [mbind option_bind]. eexists _, b', a'. split; [done|]. by split.
  - destruct (seek_spec (ch_chunks it) Left (clamp q)) as (c' & f & b' & a' & -> & Hst' & Hp); [apply Hst|lia|].
    cbn [mbind option_bind]. eexists _, b', a'. split; [done|]. by split.
  - cbn [mbind option_bind]. eexists _, b, a. split; [done|]. split; try done. split; [done|]. cbn [placed]. by split; [right|lia].
Qed.

Lemma seek_backwards it o ch o' : backward it o ch → s < o → s ≤ o' → o' ≤ o → str_is_char_boundary t o' = true →
  ∃ it' b a, chunks_seek it o' = Some it' ∧ backward it' o' (Some (b, a)).
Proof.
  intros Hf Hlt Ho Ho' Hb. destruct (backward_chunk it o ch Hf Hlt) as (b & x & a & -> & Hst & _). pose proof Hf as [Hrg _ Hd _ Hin _].
  destruct (seek_anywhere_backward it b (x :: a) o' Hrg Hd Hst) as (it' & b' & a' & E & Hf'); [done|].
  rewrite clamp_id in Hf' by lia. by exists it', b', a'.
Qed.

Lemma lines_at_end it cur reversed fuel : peek it = Some None →
  lines_loop (S fuel) (mk_lines it cur false reversed) = Some (mk_lines it cur true reversed, Some cur).
Proof. intros E. cbn [lines_loop ln_chunks]. by rewrite E. Qed.

(** What [next] returns from a place with the text [p] before it, or after it: a whole line, or all there is. *)
Definition line_forward (result : option (Lines * option str)) cur o : Prop :=
  (rows (ahead o) = 0 ∧ ∃ l, result = Some (l, Some (cur ++ ahead o)) ∧ ln_done l = true) ∨
  (∃ u v it b a cur', ahead o = u ++ newline :: v ∧ rows u = 0 ∧ v = ahead (o + len u + 1) ∧ forward it (o + len u + 1) b a ∧
    result = Some (mk_lines it cur' false false, Some (cur ++ u))).

Lemma line_forward_more result cur p o m : ahead o = p ++ ahead m → rows p = 0 → m = o + len p →
  line_forward result (cur ++ p) m → line_forward result cur o.
Proof.
  intros E Hp -> [[Hrows (l & -> & Hd)]|(u & v & it & b & a & cur' & Ea & Hu & Hv & Hf & ->)].
  - left. rewrite E, rows_app, Hp, Hrows, (app_assoc cur). split; [done|]. by exists l.
  - right. exists (p ++ u), v, it, b, a, cur'. rewrite E, Ea, rows_app, Hp, Hu, len_app, (app_assoc cur), <- app_assoc.
    replace (o + (len p + len u) + 1) with (o + len p + len u + 1) by lia. done.
Qed.

Lemma ahead_newline o u v : o ≤ e → str_is_char_boundary t o = true → ahead o = u ++ newline :: v →
  o + len u + 1 ≤ e ∧ v = ahead (o + len u + 1) ∧ str_is_char_boundary t (o + len u + 1) = true.
Proof.
  intros Ho Hb E. pose proof (len_ahead o Ho) as Hl. pose proof (ahead_utf8 o Ho Hb) as Hu. rewrite E in Hu. apply utf8_around in Hu as [_ Hu].
  rewrite E, len_app, len_cons in Hl. split; [lia|].
  assert (v = ahead (o + len u + 1)) as Ev.
  { assert (v = ldrop (len u + 1) (ahead o)) as ->.
    { rewrite E. replace (len u + 1) with (len (u ++ [newline])) by (by rewrite len_app). change (newline :: v) with ([newline] ++ v). by rewrite app_assoc, ldrop_app_len. }
    unfold ahead. rewrite ldrop_ltake, ldrop_ldrop. f_equal; [lia|f_equal; lia]. }
  split; [done|]. assert (t = (ltake o t ++ u ++ [newline]) ++ v ++ ldrop e t) as Et.
  { rewrite <- (ltake_ldrop o t) at 1. rewrite <- !app_assoc. f_equal. cbn [app]. rewrite (app_comm_cons v), app_assoc, <- E. unfold ahead.
    rewrite <- (ltake_ldrop (e - o) (ldrop o t)) at 1. rewrite ldrop_ldrop. do 2 f_equal. lia. }
  replace (o + len u + 1) with (len (ltake o t ++ u ++ [newline])) by (rewrite !len_app, len_ltake; change (len [newline]) with 1; lia).
  rewrite Et at 1. apply boundary_app. apply utf8_app; [done|]. apply utf8_ldrop; [apply text_utf8|done].
Qed.

Lemma lines_loop_forward fuel : ∀ it o b a cur, forward it o b a → (length a + 2 ≤ fuel)%nat →
  line_forward (lines_loop fuel (mk_lines it cur false false)) cur o.
Proof.
  induction fuel as [|fuel IH]; intros it o b a cur Hf Hl; [lia|].
  pose proof (forward_in _ _ _ _ Hf) as Hin. pose proof (forward_boundary _ _ _ _ Hf) as Hbo.
  pose proof (peek_forward it o b a Hf) as Hpeek. destruct (N.ltb_spec o e) as [Hlt|Hge].
  2: { rewrite lines_at_end by done. left. rewrite ahead_nil, app_nil_r by lia. split; [done|]. by eexists. }
  destruct (forward_piece it o b a Hf Hlt) as (Hp1 & Hp2 & Hp3). set (m := piece_end b a) in *. pose proof (ahead_split o m ltac:(lia) ltac:(lia)) as Hsp.
  cbn [lines_loop ln_chunks ln_reversed ln_done current_line]. rewrite Hpeek. cbn [mbind option_bind].
  set (p := ltake (m - o) (ldrop o t)) in *. assert (len p = m - o) as Hlp by (unfold p; rewrite len_ltake, len_ldrop; lia).
  unfold take_line. destruct (first_newline_cases p) as [[E Es]|(u & v & Ep & E & Es)]; rewrite Es.
  - pose proof (next_forward it o b a Hf) as Hn. rewrite (proj2 (N.ltb_lt o e)) in Hn by done. fold m p in Hn.
    destruct Hn as (it' & b' & a' & -> & Hf' & Hla & Hdec). cbn [mbind option_bind].
    apply (line_forward_more _ cur p o m); [done|done|lia|]. destruct Hdec as [Em|Hdec]; [|apply (IH it' m b' a'); [done|lia]].
    destruct fuel as [|fuel]; [lia|]. rewrite lines_at_end by (rewrite (peek_forward it' m b' a' Hf'); by rewrite Em, N.ltb_irrefl).
    left. rewrite ahead_nil, app_nil_r by lia. split; [done|]. by eexists.
  - destruct (split_lines v) as [|l ls] eqn:Ev; [by destruct (split_never_nil v)|]. rewrite (forward_offset _ _ _ _ Hf).
    assert (o + len u + 1 ≤ m) as Hm by (rewrite Ep, len_app, len_cons in Hlp; lia).
    destruct (seek_forwards it o b a (o + len u + 1) Hf) as (it' & b' & a' & -> & Hf'); [lia|lia| |].
    { apply (ahead_newline o u (v ++ ahead m)); [lia|done|]. by rewrite Hsp, Ep, <- app_assoc. }
    cbn [mbind option_bind].
    right. exists u, (v ++ ahead m), it', b', a', (match cur with [] => [] | _ => cur ++ u end).
    split; [rewrite Hsp, Ep, <- app_assoc; done|]. split; [done|]. split; [|split; [done|by destruct cur]].
    apply (ahead_newline o u (v ++ ahead m)); [lia|done|]. by rewrite Hsp, Ep, <- app_assoc.
Qed.

(** All lines, from [o] on. *)
Lemma lines_collect_forward fuel : ∀ it o b a cur, forward it o b a → (length (split_lines (ahead o)) < fuel)%nat →
  lines_collect fuel (mk_lines it cur false false) = Some (split_lines (ahead o)).
Proof.
  induction fuel as [|fuel IH]; intros it o b a cur Hf Hl; [lia|]. cbn [lines_collect]. unfold lines_next. cbn [ln_done ln_chunks ln_reversed].
  pose proof (forward_stands _ _ _ _ Hf) as Hst. destruct Hst as [Hat Htr] eqn:E. rewrite Htr.
  pose proof (lines_loop_forward _ it o b a [] Hf (stands_rounds _ _ _ Hst)) as [[Hrows (l & -> & Hd)]|(u & v & it' & b' & a' & cur' & Ea & Hu & Hv & Hf' & ->)];
    cbn [mbind option_bind].
  - rewrite split_lines_0 in * by done. destruct fuel as [|fuel]; [cbn in Hl; lia|]. cbn [lines_collect]. unfold lines_next. by rewrite Hd.
  - rewrite Ea, split_newline, split_lines_0 in * by done. rewrite Hv in *. rewrite (IH it' _ b' a' cur' Hf'); [done|]. rewrite length_app in Hl. cbn in Hl. lia.
Qed.

(** The line that [next] ends, going back. *)
Lemma back_newline o u v : s ≤ o → o ≤ e → str_is_char_boundary t o = true → back o = u ++ newline :: v →
  s ≤ o - len v - 1 ∧ o - len v - 1 < o ∧ u = back (o - len v - 1) ∧ str_is_char_boundary t (o - len v - 1) = true.
Proof.
  intros Hs Ho Hb E. assert (len (back o) = o - s) as Hl by (unfold back; rewrite len_ltake, len_ldrop; lia).
  pose proof (range_part s o Hs ltac:(lia) Hbs Hb) as Hu. fold (back o) in Hu. rewrite E in Hu. pose proof (utf8_around _ _ Hu) as [Hu1 Hu2].
  rewrite E, len_app, len_cons in Hl. split; [lia|]. split; [lia|].
  assert (u = back (o - len v - 1)) as Ev.
  { assert (u = ltake (len u) (back o)) as -> by (by rewrite E, ltake_app_len). unfold back. rewrite ltake_ltake. f_equal. lia. }
  split; [done|]. assert (t = (ltake s t ++ u) ++ (newline :: v) ++ ldrop o t) as Et.
  { rewrite <- (ltake_ldrop s t) at 1. rewrite <- !app_assoc. f_equal. rewrite app_assoc. change (newline :: v) with ([newline] ++ v) in *. rewrite <- E. unfold back.
    rewrite <- (ltake_ldrop (o - s) (ldrop s t)) at 1. rewrite ldrop_ldrop. do 2 f_equal. lia. }
  replace (o - len v - 1) with (len (ltake s t ++ u)) by (rewrite !len_app, len_ltake; lia).
  rewrite Et at 1. apply boundary_app. apply utf8_app; [|apply utf8_ldrop; [apply text_utf8|done]].
  change (newline :: v) with ([newline] ++ v). apply utf8_app; [by apply (utf8_encode 10)|done].
Qed.

Definition line_backward (result : option (Lines * option str)) cur o : Prop :=
  (rows (back o) = 0 ∧ ∃ l, result = Some (l, Some (back o ++ cur)) ∧ ln_done l = true) ∨
  (∃ u v it ch cur', back o = u ++ newline :: v ∧ rows v = 0 ∧ u = back (o - len v - 1) ∧ backward it (o - len v - 1) ch ∧
    result = Some (mk_lines it cur' false true, Some (v ++ cur))).

Lemma line_backward_more result cur p o m : back o = back m ++ p → rows p = 0 → o = m + len p →
  line_backward result (p ++ cur) m → line_backward result cur o.
Proof.
  intros E Hp -> [[Hrows (l & -> & Hd)]|(u & v & it & ch & cur' & Ea & Hu & Hv & Hf & ->)].
  - left. rewrite E, rows_app, Hp, Hrows, <- (app_assoc _ p). split; [done|]. by exists l.
  - right. exists u, (v ++ p), it, ch, cur'. rewrite E, Ea, rows_app, Hp, Hu, len_app, <- !app_assoc.
    replace (m + len p - (len v + len p) - 1) with (m - len v - 1) by lia. done.
Qed.

Lemma lines_loop_backward fuel : ∀ it o ch cur, backward it o ch → (chunks_left ch + 2 ≤ fuel)%nat →
  line_backward (lines_loop fuel (mk_lines it cur false true)) cur o.
Proof.
  induction fuel as [|fuel IH]; intros it o ch cur Hf Hl; [lia|].
  pose proof (backward_in _ _ _ Hf) as Hin. pose proof (backward_boundary _ _ _ Hf) as Hbo.
  pose proof (peek_backward it o ch Hf) as Hpeek. destruct (N.ltb_spec s o) as [Hlt|Hge].
  2: { rewrite lines_at_end by done. left. rewrite back_nil by lia. split; [done|]. by eexists. }
  destruct (backward_piece it o ch Hf Hlt) as (Hp1 & Hp2 & Hp3). set (m := piece_start ch) in *. pose proof (back_split o m ltac:(lia) ltac:(lia)) as Hsp.
  cbn [lines_loop ln_chunks ln_reversed ln_done current_line]. rewrite Hpeek. cbn [mbind option_bind].
  set (p := ltake (o - m) (ldrop m t)) in *. assert (len p = o - m) as Hlp by (unfold p; rewrite len_ltake, len_ldrop; lia).
  unfold take_line. destruct (last_newline_cases p) as [[E Es]|(u & v & Ep & E & Es)]; rewrite Es.
  - pose proof (next_backward it o ch Hf) as Hn. rewrite (proj2 (N.ltb_lt s o)) in Hn by done. fold m p in Hn.
    destruct Hn as (it' & ch' & -> & Hf' & Hdec). cbn [rev app mbind option_bind].
    apply (line_backward_more _ cur p o m); [done|done|lia|]. destruct Hdec as [Em|Hdec]; [|apply (IH it' m ch'); [done|lia]].
    destruct fuel as [|fuel]; [lia|]. rewrite lines_at_end by (rewrite (peek_backward it' m ch' Hf'); by rewrite Em, N.ltb_irrefl).
    left. rewrite back_nil by lia. split; [done|]. by eexists.
  - rewrite rev_app_distr. cbn [rev app]. destruct (rev (split_lines u)) as [|l ls] eqn:Ev.
    { apply (f_equal (@rev str)) in Ev. rewrite rev_involutive in Ev. by destruct (split_never_nil u). }
    destruct (back_newline o (back m ++ u) v) as (Hv1 & Hv2 & Hv3 & Hv4); [lia|lia|done|by rewrite Hsp, Ep, <- app_assoc|].
    rewrite (backward_offset _ _ _ Hf). rewrite Ep, len_app, len_cons in Hlp. rewrite (usub_within o (len v)) by (pose proof Hlen; lia). rewrite (usub_within _ 1) by (pose proof Hlen; lia).
    destruct (seek_backwards it o ch (o - len v - 1) Hf) as (it' & b' & a' & -> & Hf'); [lia..|done|]. cbn [mbind option_bind].
    right. exists (back m ++ u), v, it', (Some (b', a')), (match cur with [] => [] | _ => v ++ cur end).
    split; [by rewrite Hsp, Ep, <- app_assoc|]. split; [done|]. split; [done|]. split; [done|]. destruct cur; [by rewrite app_nil_r|done].
Qed.

Lemma backward_rounds it o ch : backward it o ch → (chunks_left ch + 2 ≤ chunk_rounds (cursor_tree (ch_chunks it)))%nat.
Proof.
  intros Hf. pose proof (backward_stands _ _ _ Hf) as Hst. unfold chunk_rounds. destruct ch as [[b a]|]; cbn [chunks_left]; [|lia].
  destruct Hst as [Hst _]. destruct (stands_texts _ _ _ Hst) as (E & _). destruct Hst as [_ ->].
  pose proof (length_items_cost r) as H. rewrite E, length_app in H. lia.
Qed.

(** All lines before [o], from the last one. *)
Lemma lines_collect_backward fuel : ∀ it o ch cur, backward it o ch → (length (split_lines (back o)) < fuel)%nat →
  lines_collect fuel (mk_lines it cur false true) = Some (rev (split_lines (back o))).
Proof.
  induction fuel as [|fuel IH]; intros it o ch cur Hf Hl; [lia|]. cbn [lines_collect]. unfold lines_next. cbn [ln_done ln_chunks ln_reversed].
  pose proof (lines_loop_backward _ it o ch [] Hf (backward_rounds _ _ _ Hf)) as [[Hrows (l & -> & Hd)]|(u & v & it' & ch' & cur' & Ea & Hv & Hu & Hf' & ->)];
    cbn [mbind option_bind].
  - rewrite split_lines_0 in * by done. destruct fuel as [|fuel]; [cbn in Hl; lia|]. cbn [lines_collect]. unfold lines_next. by rewrite Hd, app_nil_r.
  - rewrite Ea, split_newline, (split_lines_0 v) in * by done. rewrite length_app in Hl. cbn in Hl. rewrite Hu in *.
    rewrite (IH it' _ ch' cur' Hf') by lia. cbn [mbind option_bind]. by rewrite rev_app_distr, app_nil_r.
Qed.

(** *** Strings and bytes *)

Lemma equals_forward (other : str) (l : list str) : ∀ i, Forall (λ p, p ≠ []) l → i ≤ len other →
  equals_loop false other i l = bool_decide (ldrop i other = concat l).
Proof.
  induction l as [|p l IH]; intros i Hne Hi; cbn [equals_loop concat].
  - apply eq_true_iff_eq. rewrite N.eqb_eq, bool_decide_eq_true. split.
    + intros ->. by rewrite ldrop_ge.
    + intros E. apply (f_equal len) in E. rewrite len_ldrop in E. change (len (@nil N)) with 0 in E. lia.
  - apply Forall_cons in Hne as [Hp Hne]. assert (0 < len p) as Hlp by (destruct p; [done|rewrite len_cons; lia]).
    apply eq_true_iff_eq. rewrite !andb_true_iff, N.ltb_lt, starts_with_iff, bool_decide_eq_true. split.
    + intros [[Hlt (k & E)] H]. pose proof (f_equal len E) as El. rewrite len_ldrop, len_app in El.
      rewrite IH, bool_decide_eq_true in H by (done || lia). rewrite E. f_equal. rewrite <- ldrop_ldrop, E, ldrop_app_len in H. done.
    + intros E. pose proof (f_equal len E) as El. rewrite len_ldrop, len_app in El. split; [split; [lia|rewrite E; by eexists]|].
      rewrite IH, bool_decide_eq_true by (done || lia). by rewrite <- ldrop_ldrop, E, ldrop_app_len.
Qed.

Lemma equals_backward (other : str) (l : list str) : ∀ i, i ≤ len other →
  equals_loop true other i l = bool_decide (ltake i other = concat (rev l)).
Proof.
  induction l as [|p l IH]; intros i Hi; cbn [equals_loop rev concat].
  - apply eq_true_iff_eq. rewrite N.eqb_eq, bool_decide_eq_true. split.
    + intros ->. by rewrite ltake_0.
    + intros E. apply (f_equal len) in E. rewrite len_ltake in E. change (len (@nil N)) with 0 in E. lia.
  - apply eq_true_iff_eq. rewrite concat_app. cbn [concat]. rewrite app_nil_r, !andb_true_iff, ends_with_iff, bool_decide_eq_true. split.
    + intros [(k & E) H]. pose proof (f_equal len E) as El. rewrite len_ltake, len_app in El.
      rewrite IH, bool_decide_eq_true in H by lia. rewrite <- H, E. f_equal. replace (i - len p) with (len k) by lia.
      apply (f_equal (ltake (len k))) in E. rewrite ltake_ltake, ltake_app_len, N.min_l in E by lia. done.
    + intros E. pose proof (f_equal len E) as El. rewrite len_ltake, len_app in El. split; [rewrite E; by eexists|].
      rewrite IH, bool_decide_eq_true by lia. replace (i - len p) with (len (concat (rev l))) by lia.
      apply (f_equal (ltake (len (concat (rev l))))) in E. rewrite ltake_ltake, ltake_app_len, N.min_l in E by lia. done.
Qed.

Lemma equals_str_spec (other : str) : ∃ it it', chunks_in_range r s e = Some it ∧ reversed_chunks_in_range r s e = Some it' ∧
  equals_str it other = Some (bool_decide (other = ahead s)) ∧ equals_str it' other = Some (bool_decide (other = ahead s)).
Proof.
  destruct new_forward as (it & b & a & E & Hf). destruct new_backward as (it' & b' & a' & E' & Hf' & Hb').
  exists it, it'. split; [done|]. split; [done|]. unfold equals_str. rewrite (forward_direction _ _ _ _ Hf), (backward_direction _ _ _ Hf'). split.
  - destruct (collect_forward (chunk_rounds r) it s b a Hf) as (l & El & Hc & _ & Hne); [eapply stands_rounds, Hf|].
    destruct (forward_stands _ _ _ _ Hf) as [_ ->]. rewrite El. cbn [mbind option_bind]. rewrite (equals_forward other l 0 Hne (N.le_0_l _)), ldrop_0. by rewrite Hc.
  - destruct (collect_backward _ it' e _ Hf' (backward_rounds _ _ _ Hf')) as (l & -> & Hc & _). cbn [mbind option_bind].
    rewrite (equals_backward other l (len other) (N.le_refl _)), ltake_ge, Hc by lia. done.
Qed.

(** *** Bytes *)

Lemma bytes_piece b x a o m : t = texts b ++ chunk_text x ++ texts a → len (texts b) ≤ o → o ≤ m → m ≤ len (texts b) + len (chunk_text x) →
  byte_slice (chunk_text x) (o - len (texts b)) (m - len (texts b)) = Some (ltake (m - o) (ldrop o t)).
Proof.
  intros Ht Ho Hm Hx. unfold byte_slice. rewrite !(proj2 (N.leb_le _ _)) by lia. cbn [andb]. f_equal. rewrite Ht.
  rewrite ldrop_app_r by lia. rewrite ldrop_app_l by lia. rewrite ltake_app_l by (rewrite len_ldrop; lia). f_equal. lia.
Qed.

Lemma bytes_collect_forward fuel : ∀ c b a, stands c b a → (a = [] ∨ s < len (texts b) + head_len a) → (length a < fuel)%nat →
  ∃ l, bytes_collect fuel (mk_bytes c (s, e) false) = Some l ∧ concat l = ahead (N.max s (len (texts b))).
Proof.
  induction fuel as [|fuel IH]; intros c b a Hst Hp Hl; [lia|]. cbn [bytes_collect]. unfold bytes_next, bytes_peek. cbn [by_chunks by_reversed by_range].
  destruct (stands_texts _ _ _ Hst) as (_ & Hb & Ha & Ht). rewrite (stands_item _ _ _ Hst), (stands_end _ _ _ Hst), (stands_at_start _ _ _ Hst).
  destruct a as [|x a]; cbn [mbind option_bind head andb fst snd].
  { exists []. split; [done|]. rewrite ahead_nil; [done|]. assert (len t = len (texts b)) by (by rewrite Ht, app_nil_r). lia. }
  apply Forall_cons in Ha as [Hx Ha]. destruct Hp as [|Hp]; [done|]. cbn [head_len texts] in *.
  destruct (N.leb_spec e (len (texts b))) as [Hle|Hgt]; cbn [mbind option_bind].
  { exists []. split; [done|]. rewrite ahead_nil; [done|]. lia. }
  set (o := N.max s (len (texts b))). set (m := N.min (len (texts b) + len (chunk_text x)) e).
  replace (s - len (texts b)) with (o - len (texts b)) by lia. replace (N.min (len (chunk_text x)) (e - len (texts b))) with (m - len (texts b)) by lia.
  rewrite (bytes_piece b x a o m Ht) by lia. cbn [mbind option_bind]. unfold bytes_move. cbn [by_reversed by_chunks].
  destruct (next_chunk _ _ _ _ Hst) as (c' & -> & Hst'). cbn [mbind option_bind by_range].
  assert (len (texts (b ++ [x])) = len (texts b) + len (chunk_text x)) as El by (rewrite texts_app, len_app; cbn; by rewrite app_nil_r).
  destruct (IH c' (b ++ [x]) a Hst') as (l & -> & Hc); [|cbn in Hl; lia|].
  { rewrite El. destruct a as [|y a]; [by left|right]. lia. }
  cbn [mbind option_bind]. eexists. split; [done|]. cbn [concat]. rewrite Hc, El. rewrite N.max_r by lia.
  rewrite (ahead_split o m) by lia. f_equal. destruct (N.min_spec (len (texts b) + len (chunk_text x)) e) as [[_ E]|[_ E]]; unfold m; rewrite E; [done|].
  by rewrite !ahead_nil by lia.
Qed.

(** The bytes of a range. *)
Lemma bytes_in_range_spec : ∃ l, bytes_in_range r s e = Some l ∧ concat l = ahead s.
Proof.
  unfold bytes_in_range, bytes_new. cbn [fst snd]. destruct (seek_spec (cursor_new r) Right s) as (c & f & b & a & -> & Hst & Hp & Hp'); [done|lia|].
  cbn [mbind option_bind]. destruct (bytes_collect_forward (chunk_rounds r) c b a Hst Hp') as (l & -> & Hc); [pose proof (stands_rounds _ _ _ Hst); lia|].
  exists l. by rewrite Hc, N.max_l.
Qed.

Lemma bytes_collect_backward fuel : ∀ c b a, stands c b a → (b = [] ∨ len (texts b) < e) → (a = [] → len (texts b) ≤ s) → (length b + 2 ≤ fuel)%nat →
  ∃ l, bytes_collect fuel (mk_bytes c (s, e) true) = Some l ∧ concat (rev l) = back (N.min e (len (texts b) + head_len a)).
Proof.
  induction fuel as [|fuel IH]; intros c b a Hst Hp Ha' Hl; [lia|]. cbn [bytes_collect]. unfold bytes_next, bytes_peek. cbn [by_chunks by_reversed by_range].
  destruct (stands_texts _ _ _ Hst) as (_ & Hb & Ha & Ht). rewrite (stands_item _ _ _ Hst), (stands_end _ _ _ Hst), (stands_at_start _ _ _ Hst).
  destruct a as [|x a]; cbn [mbind option_bind head andb fst snd head_len].
  { exists []. split; [done|]. rewrite back_nil; [done|]. specialize (Ha' eq_refl). lia. }
  apply Forall_cons in Ha as [Hx Ha]. cbn [head_len texts] in *.
  destruct (N.leb_spec (len (texts b) + len (chunk_text x)) s) as [Hle|Hgt]; cbn [mbind option_bind].
  { exists []. split; [done|]. rewrite back_nil; [done|]. lia. }
  destruct (N.leb_spec e (len (texts b))) as [Hle|Hgt']; cbn [mbind option_bind].
  { exists []. split; [done|]. rewrite back_nil; [done|]. destruct Hp as [->|]; [change (len (texts [])) with 0 in *|]; lia. }
  set (o := N.max s (len (texts b))). set (m := N.min e (len (texts b) + len (chunk_text x))).
  replace (s - len (texts b)) with (o - len (texts b)) by lia. replace (N.min (len (chunk_text x)) (e - len (texts b))) with (m - len (texts b)) by lia.
  rewrite (bytes_piece b x a o m Ht) by lia. cbn [mbind option_bind]. unfold bytes_move. cbn [by_reversed by_chunks].
  destruct (prev_chunk _ _ _ Hst) as (c' & -> & Hprev). cbn [mbind option_bind by_range].
  assert (∃ l, bytes_collect fuel (mk_bytes c' (s, e) true) = Some l ∧ concat (rev l) = back (len (texts b))) as (l & -> & Hc).
  { destruct (last b) as [y|] eqn:El.
    - destruct Hprev as (b' & -> & Hst'). assert (len (texts (b' ++ [y])) = len (texts b') + len (chunk_text y)) as Ey by (rewrite texts_app, len_app; cbn; by rewrite app_nil_r).
      destruct (IH c' b' (y :: x :: a) Hst') as (l & -> & Hc); [right; lia|done|rewrite length_app in Hl; cbn in Hl; lia|].
      exists l. split; [done|]. rewrite Hc, Ey. cbn [head_len]. f_equal. lia.
    - apply last_None in El as ->. destruct fuel as [|fuel]; [cbn in Hl; lia|]. destruct Hprev as ([_ Hstk _ _] & Hdid & _).
      cbn [bytes_collect]. unfold bytes_next, bytes_peek, item, assert_did_seek. cbn [by_chunks]. rewrite Hdid, Hstk. cbn [mbind option_bind].
      exists []. split; [done|]. rewrite back_nil; [done|]. apply N.le_0_l. }
  cbn [mbind option_bind]. eexists. split; [done|]. cbn [rev]. rewrite concat_app. cbn [concat]. rewrite app_nil_r, Hc.
  rewrite (back_split m o) by lia. f_equal. destruct (N.max_spec s (len (texts b))) as [[_ E]|[_ E]]; unfold o; rewrite E; [done|].
  by rewrite !back_nil by lia.
Qed.

Lemma reversed_bytes_in_range_spec : ∃ l, reversed_bytes_in_range r s e = Some l ∧ concat (rev l) = back e.
Proof.
  unfold reversed_bytes_in_range, bytes_new. cbn [fst snd]. destruct (seek_spec (cursor_new r) Left e) as (c & f & b & a & -> & Hst & Hp & Hp'); [done|lia|].
  cbn [mbind option_bind]. destruct (stands_texts _ _ _ Hst) as (Ei & _ & _ & Ht).
  destruct (bytes_collect_backward (chunk_rounds r) c b a Hst Hp) as (l & -> & Hc).
  - intros ->. destruct Hp as [->|Hp]; [apply N.le_0_l|]. cbn in Hp'. lia.
  - unfold chunk_rounds. pose proof (length_items_cost r) as H. rewrite Ei, length_app in H. lia.
  - exists l. split; [done|]. rewrite Hc. f_equal. lia.
Qed.

(** *** The next line *)















(** *** The line before *)


















End range.

(** ** The text of a rope *)

Lemma chars_app (a b : str) : utf8 a → chars (a ++ b) = chars a ++ chars b.
Proof.
  intros (cs & Hcs & ->). induction Hcs as [|c cs Hc _ IH]; [done|].
  by rewrite encode_all_cons, <- app_assoc, !chars_encode, IH by (by apply scalar_lt).
Qed.

Lemma chars_pieces (l : list str) : Forall utf8 l → l ≫= chars = chars (concat l).
Proof. induction 1 as [|p l Hp _ IH]; [done|]. cbn. by rewrite chars_app, <- IH. Qed.

Lemma chars_pieces_rev (l : list str) : Forall utf8 l → l ≫= (λ p, rev (chars p)) = rev (chars (concat (rev l))).
Proof.
  induction 1 as [|p l Hp Hl IH]; [done|]. cbn. rewrite IH, concat_app. cbn. rewrite app_nil_r, chars_app, rev_app_distr; [done|].
  clear IH. induction Hl as [|q l Hq _ IH]; [apply utf8_nil|]. cbn. rewrite concat_app. cbn. rewrite app_nil_r. by apply utf8_app.
Qed.

Lemma chars_at_spec i : i ≤ len t → str_is_char_boundary t i = true → chars_at r i = Some (chars (ldrop i t)).
Proof.
  intros Ha Hb. pose proof tree_texts as [_ Et]. destruct Hr as [Hrep _]. unfold chars_at. rewrite (rope_len_spec _ _ Hrep).
  destruct (pieces_spec i (len t) Ha) as (l & -> & Hc & Hu & _); [lia|done|apply boundary_len|]. cbn [mbind option_bind].
  rewrite chars_pieces, Hc by done. unfold ahead. by rewrite ltake_ge by (rewrite len_ldrop; lia).
Qed.

Lemma reversed_chars_at_spec i : i ≤ len t → str_is_char_boundary t i = true → reversed_chars_at r i = Some (rev (chars (ltake i t))).
Proof.
  intros Ha Hb. unfold reversed_chars_at. destruct (reversed_pieces_spec 0 i) as (l & -> & Hc & Hu & _); [lia|done|apply boundary_0|done|].
  cbn [mbind option_bind]. rewrite chars_pieces_rev, Hc by done. unfold back. by rewrite N.sub_0_r, ldrop_0.
Qed.

(** *** Comparing *)

Lemma starts_loop_iff l : ∀ p, Forall utf8 l → utf8 p → starts_loop p l = true ↔ p `prefix_of` concat l.
Proof.
  induction l as [|c l IH]; intros p Hu Hp; cbn [starts_loop concat].
  - rewrite bool_decide_eq_true. split; [intros ->; by exists []|]. intros (k & E). by destruct p.
  - apply Forall_cons in Hu as [Hc Hl]. unfold str_get, str_slice. rewrite N.sub_0_r, ldrop_0, boundary_0. cbn [andb].
    destruct (N.le_gt_cases (len c) (len p)) as [Hle|Hgt].
    + rewrite N.min_r, boundary_len, ltake_ge by lia. cbn [andb N.leb]. rewrite (proj2 (N.leb_le 0 (len c))) by lia. cbn [andb].
      rewrite andb_true_iff, starts_with_iff. split.
      * intros [(q & ->) H]. rewrite ldrop_app_len in H. case_bool_decide as Hq; [subst q; rewrite app_nil_r; by eexists|].
        apply prefix_app, IH; [done|by eapply (utf8_app_inv c)|done].
      * intros (k & E). apply app_eq_inv in E as [(q & Ec & El)|(q & Ep & El)].
        { assert (q = []) as -> by (apply (f_equal len) in Ec; rewrite len_app in Ec; destruct q; [done|rewrite len_cons in Ec; lia]).
          rewrite app_nil_r in Ec. subst p. split; [done|]. rewrite ldrop_ge by lia. by rewrite bool_decide_true. }
        rewrite Ep, ldrop_app_len. split; [by eexists|]. case_bool_decide; [done|]. apply IH; [done|rewrite Ep in Hp; by eapply (utf8_app_inv c)|by exists k].
    + rewrite N.min_l by lia. rewrite (proj2 (N.leb_le 0 (len p))) by lia. cbn [andb].
      destruct (str_is_char_boundary c (len p)) eqn:Hb.
      * rewrite andb_true_iff, starts_with_iff, len_ltake, N.min_l by lia. rewrite ldrop_ge by lia. rewrite bool_decide_true by done. split.
        -- intros [(k & E) _]. assert (k = []) as -> by (apply (f_equal len) in E; rewrite len_app, len_ltake in E; destruct k; [done|rewrite len_cons in E; lia]).
           rewrite app_nil_r in E. exists (ldrop (len p) c ++ concat l). rewrite E at 1. by rewrite app_assoc, ltake_ldrop.
        -- intros (k & E). split; [|done]. exists []. rewrite app_nil_r. apply (f_equal (ltake (len p))) in E. rewrite ltake_app_len, ltake_app_l in E by lia. done.
      * split; [done|]. intros (k & E). exfalso. apply (f_equal (ltake (len p))) in E. rewrite ltake_app_len, ltake_app_l in E by lia.
        assert (c = p ++ ldrop (len p) c) as Ec by (rewrite <- E at 1; by rewrite ltake_ldrop). rewrite Ec in Hc.
        rewrite Ec, boundary_app in Hb; [done|]. by eapply (utf8_app_inv p).
Qed.

Lemma rope_starts_with_spec p : utf8 p → rope_starts_with r p = Some (bool_decide (p `prefix_of` t)).
Proof.
  intros Hp. destruct Hr as [Hrep _]. unfold rope_starts_with. rewrite (rope_len_spec _ _ Hrep). destruct (N.ltb_spec (len t) (len p)) as [Hlt|].
  - rewrite bool_decide_false; [done|]. intros (k & E). rewrite E, len_app in Hlt. lia.
  - destruct (pieces_spec 0 (len t)) as (l & -> & Hc & Hu & _); [lia|lia|apply boundary_0|apply boundary_len|]. cbn [mbind option_bind].
    assert (concat l = t) as Et. { rewrite Hc. unfold ahead. rewrite ldrop_0. apply ltake_ge. lia. }
    f_equal. apply eq_true_iff_eq. by rewrite bool_decide_eq_true, starts_loop_iff, Et.
Qed.

Lemma ends_loop_iff l : ∀ p, Forall utf8 l → utf8 p → ends_loop p l = true ↔ p `suffix_of` concat (rev l).
Proof.
  induction l as [|c l IH]; intros p Hu Hp; cbn [ends_loop rev].
  - rewrite bool_decide_eq_true. split; [intros ->; by exists []|]. intros (k & E). symmetry in E. by apply app_nil in E as [_ ?].
  - apply Forall_cons in Hu as [Hc Hl]. rewrite concat_app. cbn [concat]. rewrite app_nil_r. unfold str_get, str_slice. rewrite boundary_len, andb_true_r.
    destruct (N.le_gt_cases (len c) (len p)) as [Hle|Hgt].
    + rewrite N.min_r, N.sub_diag, boundary_0, N.sub_0_r, ldrop_0, ltake_ge by lia. rewrite (proj2 (N.leb_le 0 (len c))) by lia. cbn [andb].
      rewrite andb_true_iff, ends_with_iff. split.
      * intros [(q & ->) H]. rewrite len_app in H. replace (len q + len c - len c) with (len q) in H by lia. rewrite ltake_app_len in H.
        assert (utf8 q) as Hq. { rewrite <- (ltake_app_len q c). apply utf8_ltake; [done|]. by apply boundary_app. }
        case_bool_decide as Hq0; [subst q; by eexists|]. apply suffix_app. by apply IH.
      * intros (k & E). apply app_eq_inv in E as [(q & Ek & Ep)|(q & Ek & Ec)].
        { rewrite Ep. rewrite Ep in Hp. split; [by eexists|]. rewrite len_app. replace (len q + len c - len c) with (len q) by lia. rewrite ltake_app_len.
          case_bool_decide; [done|]. apply IH; [done| |by exists k]. rewrite <- (ltake_app_len q c). apply utf8_ltake; [done|]. by apply boundary_app. }
        assert (q = []) as -> by (apply (f_equal len) in Ec; rewrite len_app in Ec; destruct q; [done|rewrite len_cons in Ec; lia]).
        cbn in Ec. subst c. split; [done|]. rewrite N.sub_diag, ltake_0. done.
    + rewrite N.min_l by lia. rewrite (proj2 (N.leb_le _ _)) by lia. cbn [andb]. replace (len c - (len c - len p)) with (len p) by lia.
      assert (len (ldrop (len c - len p) c) = len p) as El by (rewrite len_ldrop; lia).
      destruct (str_is_char_boundary c (len c - len p)) eqn:Hb.
      * rewrite ltake_ge by lia. rewrite andb_true_iff, ends_with_iff, El, N.sub_diag, ltake_0, bool_decide_true by done. split.
        -- intros [(k & E) _]. assert (k = []) as -> by (apply (f_equal len) in E; rewrite len_app, El in E; destruct k; [done|rewrite len_cons in E; lia]).
           cbn in E. exists (concat (rev l) ++ ltake (len c - len p) c). rewrite <- app_assoc. f_equal. rewrite <- (ltake_ldrop (len c - len p) c) at 1. by f_equal.
        -- intros (k & E). split; [|done]. exists []. cbn. apply app_eq_inv in E as [(q & Ek & Ep)|(q & Ek & Ec)].
           { exfalso. apply (f_equal len) in Ep. rewrite len_app in Ep. lia. }
           rewrite Ec, len_app. replace (len q + len p - len p) with (len q) by lia. by rewrite ldrop_app_len.
      * split; [done|]. intros (k & E). exfalso. apply app_eq_inv in E as [(q & Ek & Ep)|(q & Ek & Ec)].
        { apply (f_equal len) in Ep. rewrite len_app in Ep. lia. }
        rewrite Ec, len_app in Hb. replace (len q + len p - len p) with (len q) in Hb by lia. by rewrite boundary_app in Hb.
Qed.

Lemma rope_ends_with_spec p : utf8 p → rope_ends_with r p = Some (bool_decide (p `suffix_of` t)).
Proof.
  intros Hp. destruct Hr as [Hrep _]. unfold rope_ends_with. rewrite (rope_len_spec _ _ Hrep). destruct (N.ltb_spec (len t) (len p)) as [Hlt|].
  - rewrite bool_decide_false; [done|]. intros (k & E). rewrite E, len_app in Hlt. lia.
  - destruct (reversed_pieces_spec 0 (len t)) as (l & -> & Hc & Hu & _); [lia|lia|apply boundary_0|apply boundary_len|]. cbn [mbind option_bind].
    assert (concat (rev l) = t) as Et. { rewrite Hc. unfold back. rewrite N.sub_0_r, ldrop_0. apply ltake_ge. lia. }
    f_equal. apply eq_true_iff_eq. by rewrite bool_decide_eq_true, ends_loop_iff, Et.
Qed.
End rope.

(** ** What the iterators promise *)

(** The text between two offsets. *)
Definition between (t : str) (i j : N) : str := ltake (j - i) (ldrop i t).

(** C16: a rope is read as the text it stands for, from any two boundaries [i] and [j]: the chunks of a range are its text, its
    [lines] are those of the text, its characters and bytes are those of the text, each in both directions, and
    [equals_str], [starts_with] and [ends_with] compare with the text.  Nothing panics and all loops end. *)
Theorem rope_reads_its_text (r : Rope) (t : str) (i j : N) : rope_inv r t → shallow r → len t < 2 ^ 32 → i ≤ j → j ≤ len t →
  str_is_char_boundary t i = true → str_is_char_boundary t j = true →
  ∃ it it' pieces pieces' bytes bytes', chunks_in_range r i j = Some it ∧ reversed_chunks_in_range r i j = Some it' ∧
    chunks_collect (chunk_rounds r) it = Some pieces ∧ concat pieces = between t i j ∧ Forall utf8 pieces ∧
    chunks_collect (chunk_rounds r) it' = Some pieces' ∧ concat (rev pieces') = between t i j ∧ Forall utf8 pieces' ∧
    (∀ fuel, (length (split_lines (between t i j)) < fuel)%nat →
      lines_collect fuel (chunks_lines it) = Some (split_lines (between t i j)) ∧
      lines_collect fuel (chunks_lines it') = Some (rev (split_lines (between t i j)))) ∧
    (∀ other, equals_str it other = Some (bool_decide (other = between t i j)) ∧ equals_str it' other = Some (bool_decide (other = between t i j))) ∧
    bytes_in_range r i j = Some bytes ∧ concat bytes = between t i j ∧
    reversed_bytes_in_range r i j = Some bytes' ∧ concat (rev bytes') = between t i j ∧
    chars_at r i = Some (chars (ldrop i t)) ∧ reversed_chars_at r i = Some (rev (chars (ltake i t))) ∧
    ∀ p, utf8 p → rope_starts_with r p = Some (bool_decide (p `prefix_of` t)) ∧ rope_ends_with r p = Some (bool_decide (p `suffix_of` t)).
Proof.
  intros Hr Hsh Hlen Hij Hj Hbi Hbj.
  destruct (new_forward r t Hr Hsh Hlen i j) as (it & b & a & E & Hf); [done..|]. destruct (new_backward r t Hr Hsh Hlen i j) as (it' & b' & a' & E' & Hf' & _); [done..|].
  destruct (pieces_spec r t Hr Hsh Hlen i j) as (l & El & Hl & Hu & _); [done..|]. destruct (reversed_pieces_spec r t Hr Hsh Hlen i j) as (l' & El' & Hl' & Hu' & _); [done..|].
  unfold pieces_in_range in El. rewrite E in El. unfold reversed_pieces_in_range in El'. rewrite E' in El'.
  destruct (bytes_in_range_spec r t Hr Hsh Hlen i j) as (y & Ey & Hy); [done..|]. destruct (reversed_bytes_in_range_spec r t Hr Hsh Hlen i j) as (y' & Ey' & Hy'); [done..|].
  exists it, it', l, l', y, y'. unfold chunks_lines. rewrite (forward_direction _ _ _ _ _ _ _ _ Hf), (backward_direction _ _ _ _ _ _ _ Hf').
  split_and!; try done.
  - intros fuel Hfuel. split; [change (between t i j) with (ahead t j i) in *; by eapply lines_collect_forward|].
    change (between t i j) with (back t i j) in *. by eapply lines_collect_backward.
  - intros other. destruct (equals_str_spec r t Hr Hsh Hlen i j Hij Hj Hbi Hbj other) as (it0 & it0' & E0 & E0' & H). rewrite E in E0. rewrite E' in E0'.
    injection E0 as <-. by injection E0' as <-.
  - apply chars_at_spec; (done || lia).
  - apply reversed_chars_at_spec; (done || lia).
  - intros p Hp. split; [by apply rope_starts_with_spec|by apply rope_ends_with_spec].
Qed.


(** Where the code falls short: a reversed iterator that has been read to the start of the rope has left the first chunk, and a [seek]
    from there to a greater offset moves the offset and not the cursor: the offset is
    valid again and yet there is nothing to read. *)
Theorem reversed_seek_lost : ∃ it it' it'', reversed_chunks_in_range demo_rope 0 13 = Some it ∧
  chunks_next it = Some (it', Some (between demo_text 0 13)) ∧ chunks_seek it' 13 = Some it'' ∧
  ch_offset it'' = 13 ∧ offset_is_valid it'' = true ∧ peek it = Some (Some (between demo_text 0 13)) ∧ peek it'' = Some None.
Proof. do 3 eexists. split_and!; [by vm_compute..|]. by vm_compute. Qed.

(** ** Witnesses *)

Lemma rope_reads_its_text_witness :
  ∃ it, chunks_in_range demo_rope 13 275 = Some it ∧ lines_collect 30 (chunks_lines it) = Some (split_lines (between demo_text 13 275)).
Proof.
  destruct (rope_reads_its_text demo_rope demo_text 13 275 demo_inv demo_shallow demo_len) as (it & it' & l & l' & y & y' & E & _ & _ & _ & _ & _ & _ & _ & Hl & _);
    [done|by apply N.leb_le; vm_compute|by vm_compute..|].
  exists it. split; [exact E|]. apply Hl. apply Nat.ltb_lt. by vm_compute.
Defined.

