(* ===== verification/UndoMap.v ===== *)
(** * UndoMap: how often every edit was undone

    Models [crates/text/src/undo_map.rs] on the tree of [SumTree]: entries keyed
    by edit and undo operation, the maximum of whose counts says how often the
    edit was undone or redone.  A [HashMap] of counts is a list of pairs with
    distinct edits, in the arbitrary order of its iteration. *)

From S2P Require Import Prelude Clock SumTree SumTreeSpec SumTreeFind Cursor CursorSpec CursorFacts Keyed.
#[local] Open Scope nat_scope.

(** [struct UndoOperation] of [crates/text/src/text.rs]; counts are [u32]. *)
Record UndoOperation : Type := {
  undo_timestamp : Lamport.t;
  undo_version : Global.t;
  counts : list (Lamport.t * N)
}.

Record UndoMapKey : Type := { key_edit_id : Lamport.t; key_undo_id : Lamport.t }.

Record UndoMapEntry : Type := { undo_key : UndoMapKey; entry_undo_count : N }.

Definition key_pair (k : UndoMapKey) : Lamport.t * Lamport.t := (key_edit_id k, key_undo_id k).

#[export] Instance ord_undo_key : Ord UndoMapKey := λ a b, cmp (key_pair a) (key_pair b).

#[export] Instance ord_laws_undo_key : OrdLaws UndoMapKey.
Proof. apply (ord_laws_map key_pair); [done|]. intros [] [] [=]. by subst. Qed.

Definition min_key : UndoMapKey := {| key_edit_id := Lamport.MIN; key_undo_id := Lamport.MIN |}.

#[export] Instance undo_key_summary : Summary UndoMapKey :=
  {| summary_zero := min_key; add_summary a b := max_ord a b |}.

#[export] Instance undo_entry_item : Item UndoMapEntry UndoMapKey := undo_key.
#[export] Instance undo_entry_keyed : KeyedItem UndoMapEntry UndoMapKey := undo_key.

Abbreviation UndoMap := (SumTree UndoMapEntry UndoMapKey).

Definition empty_undo_map : UndoMap := tree_new.

Definition insert (m : UndoMap) (undo : UndoOperation) : option UndoMap :=
  let edits :=
    (λ '(edit_id, count), Edit_Insert (Key:=UndoMapKey)
       {| undo_key := {| key_edit_id := edit_id; key_undo_id := undo_timestamp undo |};
          entry_undo_count := count |}) <$> counts undo in
  '(m, _) ← edit m edits; Some m.

(** [for entry in cursor]: the largest count of the entries of [edit_id] that
    [relevant] admits. *)
Fixpoint count_loop (relevant : Lamport.t → bool) (edit_id : Lamport.t) (fuel : nat)
    (cursor : Cursor UndoMapEntry UndoMapKey UndoMapKey) (undo_count : N) : option N :=
  match fuel with
  | O => None
  | Datatypes.S fuel =>
      '(cursor, entry) ← cursor_iterate cursor;
      match entry with
      | None => Some undo_count
      | Some entry =>
          if decide (key_edit_id (undo_key entry) ≠ edit_id) then Some undo_count
          else count_loop relevant edit_id fuel cursor
                 (if relevant (key_undo_id (undo_key entry))
                  then N.max undo_count (entry_undo_count entry) else undo_count)
      end
  end.

Definition count_from (relevant : Lamport.t → bool) (m : UndoMap) (edit_id : Lamport.t) : option N :=
  '(cursor, _) ← seek (seek_key {| key_edit_id := edit_id; key_undo_id := Lamport.MIN |}) Left
                   (cursor_new m : Cursor UndoMapEntry UndoMapKey UndoMapKey);
  count_loop relevant edit_id (Datatypes.S (cost m)) cursor 0%N.

Definition undo_count (m : UndoMap) (edit_id : Lamport.t) : option N :=
  count_from (λ _, true) m edit_id.

Definition is_undone (m : UndoMap) (edit_id : Lamport.t) : option bool :=
  n ← undo_count m edit_id; Some (N.odd n).

Definition was_undone (m : UndoMap) (edit_id : Lamport.t) (version : Global.t) : option bool :=
  n ← count_from (λ undo_id, Global.observed version undo_id) m edit_id; Some (N.odd n).

Lemma cmp_key (a b : UndoMapKey) :
  cmp a b = then_with (cmp (key_edit_id a) (key_edit_id b)) (cmp (key_undo_id a) (key_undo_id b)).
Proof. done. Qed.

(** ** The tree of undo entries *)

Lemma min_key_le k : min_key ≼ k.
Proof.
  apply not_olt. unfold olt. rewrite cmp_key. simpl.
  pose proof (Lamport.MIN_le (key_edit_id k)) as H1. pose proof (Lamport.MIN_le (key_undo_id k)) as H2.
  unfold ole in *. rewrite (cmp_opp Lamport.MIN (key_edit_id k)), (cmp_opp Lamport.MIN (key_undo_id k)).
  by destruct (cmp Lamport.MIN (key_edit_id k)), (cmp Lamport.MIN (key_undo_id k)).
Qed.

#[export] Program Instance undo_key_summary_laws : SummaryLaws UndoMapKey := {| valid _ := True |}.
Next Obligation. done. Qed.
Next Obligation. done. Qed.
Next Obligation. intros a _. apply max_ord_right, min_key_le. Qed.
Next Obligation. intros a b c _ _ _. apply (max_ord_assoc a b c). Qed.

#[export] Instance undo_key_laws : KeyedLaws UndoMapEntry UndoMapKey UndoMapKey.
Proof. split; [intros d x; apply max_ord_right|apply min_key_le]. Qed.

(** ** The entries and their counts *)

Abbreviation sorted l := (sorted_keys (Key:=UndoMapKey) l).

Definition undo_map_of (m : UndoMap) (l : list UndoMapEntry) : Prop :=
  ∃ h, wf h m ∧ h < 16 ∧ to_list m = l ∧ sorted l.

(** The largest relevant count of an edit. *)
Definition max_count (relevant : Lamport.t → bool) (edit_id : Lamport.t) (l : list UndoMapEntry) : N :=
  foldr (λ e n, if decide (key_edit_id (undo_key e) = edit_id ∧ relevant (key_undo_id (undo_key e)) = true)
                then N.max (entry_undo_count e) n else n) 0%N l.

Definition recorded (edit_id undo_id : Lamport.t) (n : N) (l : list UndoMapEntry) : Prop :=
  ∃ e, e ∈ l ∧ undo_key e = {| key_edit_id := edit_id; key_undo_id := undo_id |} ∧ entry_undo_count e = n.

(** The count is the least bound of what is recorded. *)
Lemma max_count_le relevant edit_id l n :
  (max_count relevant edit_id l ≤ n)%N ↔
  ∀ undo_id c, recorded edit_id undo_id c l → relevant undo_id = true → (c ≤ n)%N.
Proof.
  induction l as [|e l IH]; simpl.
  { split; [|lia]. by intros _ u c (e & ?%elem_of_nil & _). }
  assert (∀ u c, recorded edit_id u c (e :: l) ↔
    (undo_key e = {| key_edit_id := edit_id; key_undo_id := u |} ∧ entry_undo_count e = c) ∨
    recorded edit_id u c l) as Hrec.
  { intros u c. unfold recorded. split.
    - intros (e' & [->|He]%elem_of_cons & ? & ?); eauto.
    - intros [[? ?]|(e' & ? & ? & ?)]; [exists e|exists e']; rewrite elem_of_cons; auto. }
  setoid_rewrite Hrec. case_decide as Hd.
  - destruct Hd as [<- Hr]. rewrite N.max_lub_iff, IH. split.
    + intros [Hn Hl] u c [[Hk <-]|?]; eauto.
    + intros Hall. split; [|eauto]. apply (Hall (key_undo_id (undo_key e))); [left|done].
      by destruct (undo_key e).
  - rewrite IH. split; [|eauto]. intros Hl u c [[Hk <-]|?] Hu; [|eauto].
    destruct Hd. by rewrite Hk.
Qed.

Lemma max_count_ext relevant edit_id l l' :
  (∀ u c, relevant u = true → recorded edit_id u c l ↔ recorded edit_id u c l') →
  max_count relevant edit_id l = max_count relevant edit_id l'.
Proof.
  intros Hext. apply N.le_antisymm; apply max_count_le; intros u c Hrec Hu.
  - by apply (proj1 (max_count_le relevant edit_id l' _) (N.le_refl _) u c); [apply Hext|].
  - by apply (proj1 (max_count_le relevant edit_id l _) (N.le_refl _) u c); [apply Hext|].
Qed.

Lemma max_count_none relevant edit_id l :
  Forall (λ e, key_edit_id (undo_key e) ≠ edit_id) l → max_count relevant edit_id l = 0%N.
Proof. induction 1 as [|e l He _ IH]; simpl; [done|]. rewrite decide_False; naive_solver. Qed.

Lemma max_count_app relevant edit_id l1 l2 :
  max_count relevant edit_id (l1 ++ l2) = N.max (max_count relevant edit_id l1) (max_count relevant edit_id l2).
Proof. induction l1 as [|e l1 IH]; simpl; [by destruct (max_count _ _ l2)|]. case_decide; rewrite IH; lia. Qed.

(** The loop sees the entries of the edit first, and all of them. *)
Lemma count_loop_at relevant edit_id fuel :
  ∀ (c : Cursor UndoMapEntry UndoMapKey UndoMapKey) b r acc,
  length r < fuel → cursor_at c b r → sorted r →
  key_below {| key_edit_id := edit_id; key_undo_id := Lamport.MIN |} r →
  count_loop relevant edit_id fuel c acc = Some (N.max acc (max_count relevant edit_id r)).
Proof.
  induction fuel as [|fuel IH]; intros c b r acc Hf Hc Hs Hb; [lia|]. cbn [count_loop]. unfold cursor_iterate.
  rewrite (at_did_seek _ _ _ Hc). cbn [mbind option_bind]. rewrite (item_at _ _ _ Hc). cbn [mbind option_bind].
  destruct r as [|e r]; cbn [head mbind option_bind max_count foldr]; [f_equal; lia|].
  destruct (next_at _ _ _ _ Hc) as (c' & -> & _ & Hc'). cbn [mbind option_bind].
  fold (max_count relevant edit_id r).
  destruct (decide (key_edit_id (undo_key e) = edit_id)) as [Hd|Hd]; [rewrite decide_False by naive_solver|rewrite decide_True by done].
  2:{ rewrite decide_False by naive_solver. rewrite max_count_none; [by rewrite N.max_0_r|].
    apply sorted_cons in Hs as [He _]. apply Forall_cons in Hb as [Hb _].
    rewrite Forall_forall in He |- *. intros e' He'. specialize (He e' He'). intros Heq.
    unfold ole, olt in Hb, He. rewrite cmp_key in Hb, He.
    simpl in Hb, He. unfold key, undo_entry_keyed in *. rewrite Heq in He.
    pose proof (cmp_eq_iff edit_id (key_edit_id (undo_key e))) as Hiff.
    rewrite (cmp_opp edit_id (key_edit_id (undo_key e))) in He.
    destruct (cmp edit_id (key_edit_id (undo_key e))); simpl in *; try done.
    destruct Hd. symmetry. by apply Hiff. }
  simpl in Hf.
  rewrite (IH c' (b ++ [e]) r); [|lia|done|by apply sorted_cons in Hs as [_ ?]|by apply Forall_cons in Hb as [_ ?]].
  f_equal. destruct (relevant _); [rewrite decide_True by done|rewrite decide_False by naive_solver]; lia.
Qed.

Lemma count_from_spec relevant m l edit_id :
  undo_map_of m l → count_from relevant m edit_id = Some (max_count relevant edit_id l).
Proof.
  intros (h & Hwf & Hh & <- & Hs). unfold count_from.
  set (k := {| key_edit_id := edit_id; key_undo_id := Lamport.MIN |}).
  destruct (seek_split (seek_key k) Left h (cursor_new m : Cursor UndoMapEntry UndoMapKey UndoMapKey))
    as (c & found & sk & rest & -> & Ht & Hc & Hl & Hsk & Hr); [done|done|by apply seekable_key|].
  simpl in Ht, Hl. cbn [mbind option_bind]. pose proof (length_items_cost m) as Hlen.
  rewrite Hl in Hs, Hlen |- *. apply sorted_app in Hs as (_ & _ & Hs). rewrite length_app in Hlen.
  rewrite (count_loop_at relevant edit_id _ c sk rest); [|lia|done|done|].
  - rewrite max_count_app, (max_count_none relevant edit_id sk), !N.max_0_l; [done|].
    eapply Forall_impl; [exact Hsk|]. intros e He Heq. apply (seek_key_skips k e) in He.
    unfold olt in He. rewrite cmp_key in He. simpl in He.
    unfold key, undo_entry_keyed in He. rewrite Heq, cmp_refl in He. simpl in He.
    by apply (Lamport.MIN_le (key_undo_id (undo_key e))), cmp_gt_lt.
  - eapply Forall_impl; [exact Hr|]. intros e He. by apply (seek_key_stays k e) in He.
Qed.

(** ** Recording an undo *)

Lemma insert_spec m l (undo : UndoOperation) :
  undo_map_of m l → NoDup (counts undo).*1 →
  ∃ m' l', insert m undo = Some m' ∧ (∃ h, wf h m') ∧ to_list m' = l' ∧ sorted l' ∧
    ∀ e u n, recorded e u n l' ↔
      if decide (u = undo_timestamp undo ∧ e ∈ (counts undo).*1) then (e, n) ∈ counts undo
      else recorded e u n l.
Proof.
  intros (h & Hwf & Hh & <- & Hs) Hnd. unfold insert.
  set (to_edit := λ '(edit_id, count), Edit_Insert (Key:=UndoMapKey)
       {| undo_key := {| key_edit_id := edit_id; key_undo_id := undo_timestamp undo |};
          entry_undo_count := count |}).
  set (to_key := λ e, {| key_edit_id := e; key_undo_id := undo_timestamp undo |}).
  assert (edit_key <$> (to_edit <$> counts undo) = to_key <$> (counts undo).*1) as Hkeys.
  { generalize (counts undo). intros cs. induction cs as [|[e n] cs IH]; simpl; [done|]. by f_equal. }
  destruct (edit_spec h m (to_edit <$> counts undo) Hwf Hh Hs) as (m' & old & -> & Hm' & Hs' & Hin & Hout).
  { rewrite Hkeys. apply NoDup_fmap_2_strong; [|done]. by intros a b _ _ [= ->]. }
  { apply Forall_fmap, Forall_true. intros [e n]. by repeat constructor. }
  simpl. exists m', (to_list m'). split_and!; [done|done|done|done|].
  assert (∀ e u n l, sorted l → recorded e u n l ↔
    list_get {| key_edit_id := e; key_undo_id := u |} l =
      Some {| undo_key := {| key_edit_id := e; key_undo_id := u |}; entry_undo_count := n |}) as Hget.
  { intros e u n l Hl. rewrite list_get_elem by done. split.
    - intros (x & Hx & Hk & Hn). destruct x. simpl in *. by subst.
    - intros [Hx _]. by eexists. }
  intros e u n. rewrite Hget by done. case_decide as Hd.
  - destruct Hd as [-> ([e' n'] & -> & Hen)%list_elem_of_fmap]. simpl.
    pose proof (Hin (to_edit (e', n')) (list_elem_of_fmap_2 to_edit _ _ Hen)) as Hg. simpl in Hg.
    change (key _) with (to_key e') in Hg. unfold to_key in Hg. rewrite Hg. split.
    + by intros [= <-].
    + intros Hen'. do 2 f_equal. 
      destruct (list_elem_of_lookup_1 _ _ Hen) as [i Hi]. destruct (list_elem_of_lookup_1 _ _ Hen') as [j Hj].
      assert (i = j) as ->; [|congruence].
      eapply NoDup_lookup; [exact Hnd|..]; rewrite list_lookup_fmap; [by rewrite Hi|by rewrite Hj].
  - rewrite Hout; [rewrite Hget by done; reflexivity|]. rewrite Hkeys. intros (e' & [= -> ->] & He')%list_elem_of_fmap.
    by apply Hd.
Qed.

(** ** Properties *)

(** [undo_count] is the largest count recorded for the edit, [is_undone] its
    parity, and [was_undone] the parity of the largest count recorded by an
    operation that the version has observed; under a version that has observed
    every recorded undo the last two agree. *)
Theorem undo_counts_are_maxima m l edit_id version :
  undo_map_of m l →
  ∃ n k, undo_count m edit_id = Some n ∧ is_undone m edit_id = Some (N.odd n) ∧
    was_undone m edit_id version = Some (N.odd k) ∧
    (∀ bound, (n ≤ bound)%N ↔ ∀ u c, recorded edit_id u c l → (c ≤ bound)%N) ∧
    (∀ bound, (k ≤ bound)%N ↔ ∀ u c, recorded edit_id u c l → Global.observed version u = true → (c ≤ bound)%N) ∧
    ((∀ u c, recorded edit_id u c l → Global.observed version u = true) →
       was_undone m edit_id version = is_undone m edit_id).
Proof.
  intros Hm. pose proof (count_from_spec (λ _, true) _ _ edit_id Hm) as Hn.
  pose proof (count_from_spec (λ u, Global.observed version u) _ _ edit_id Hm) as Hk.
  exists (max_count (λ _, true) edit_id l), (max_count (λ u, Global.observed version u) edit_id l).
  unfold is_undone, was_undone, undo_count. rewrite Hn, Hk. simpl. split_and!; try done.
  - intros bound. rewrite max_count_le. naive_solver.
  - intros bound. by rewrite max_count_le.
  - intros Hall. do 2 f_equal. apply N.le_antisymm; apply max_count_le; intros u c Hrec Hu.
    + by apply (proj1 (max_count_le (λ _, true) edit_id l _) (N.le_refl _) u c).
    + apply (proj1 (max_count_le (λ u, Global.observed version u) edit_id l _) (N.le_refl _) u c); eauto.
Qed.

(** Recording an undo operation raises the count of each edit it names to at
    least its count, and two undo operations with different timestamps can be
    recorded in either order: every edit ends up with the same counts, under
    every version. *)
Theorem undo_insert_commutes m l (a b : UndoOperation) :
  undo_map_of m l → NoDup (counts a).*1 → NoDup (counts b).*1 → undo_timestamp a ≠ undo_timestamp b →
  (∀ m1, insert m a = Some m1 → ∃ h, wf h m1 ∧ h < 16) →
  (∀ m1, insert m b = Some m1 → ∃ h, wf h m1 ∧ h < 16) →
  ∃ m1 m2 m12 m21, insert m a = Some m1 ∧ insert m1 b = Some m12 ∧
    insert m b = Some m2 ∧ insert m2 a = Some m21 ∧
    ((∃ h h', wf h m12 ∧ h < 16 ∧ wf h' m21 ∧ h' < 16) →
     ∀ edit_id version, undo_count m12 edit_id = undo_count m21 edit_id ∧
       was_undone m12 edit_id version = was_undone m21 edit_id version ∧
       ∀ n, (edit_id, n) ∈ counts a → ∃ k, undo_count m12 edit_id = Some k ∧ (n ≤ k)%N).
Proof.
  intros Hm Ha Hb Hne Hha Hhb.
  destruct (insert_spec m l a Hm Ha) as (m1 & l1 & H1 & _ & Hl1 & Hs1 & Hr1).
  destruct (insert_spec m l b Hm Hb) as (m2 & l2 & H2 & _ & Hl2 & Hs2 & Hr2).
  destruct (Hha m1 H1) as (h1 & Hw1 & Hlt1), (Hhb m2 H2) as (h2 & Hw2 & Hlt2).
  destruct (insert_spec m1 l1 b) as (m12 & l12 & H12 & _ & Hl12 & Hs12 & Hr12); [by exists h1|done|].
  destruct (insert_spec m2 l2 a) as (m21 & l21 & H21 & _ & Hl21 & Hs21 & Hr21); [by exists h2|done|].
  exists m1, m2, m12, m21. split_and!; try done.
  intros (h & h' & Hw & Hlt & Hw' & Hlt') e version.
  assert (undo_map_of m12 l12) as Hm12 by (by exists h). assert (undo_map_of m21 l21) as Hm21 by (by exists h').
  assert (∀ u n, recorded e u n l12 ↔ recorded e u n l21) as Hext.
  { intros u n. rewrite (Hr12 e u n), (Hr21 e u n).
    pose proof (Hr1 e u n) as H1'. pose proof (Hr2 e u n) as H2'. clear Hr1 Hr2 Hr12 Hr21.
    destruct (decide (u = undo_timestamp b ∧ e ∈ (counts b).*1)) as [[? ?]|];
      destruct (decide (u = undo_timestamp a ∧ e ∈ (counts a).*1)) as [[? ?]|];
      solve [destruct Hne; congruence | by symmetry | done | by rewrite H1', H2']. }
  unfold was_undone, undo_count.
  rewrite !(count_from_spec _ m12 l12 e Hm12), !(count_from_spec _ m21 l21 e Hm21).
  rewrite (max_count_ext (λ _, true) e l12 l21) by auto.
  rewrite (max_count_ext (λ u, Global.observed version u) e l12 l21) by auto. split_and!; [done|done|].
  intros n Hn. eexists. split; [done|].
  apply (proj1 (max_count_le (λ _, true) e l21 _) (N.le_refl _) (undo_timestamp a) n); [|done].
  rewrite Hr21. rewrite decide_True; [done|]. split; [done|]. by apply (list_elem_of_fmap_2 fst _ (e, n)).
Qed.

(** ** Witnesses *)

Definition edit1 : Lamport.t := Lamport.Mk 1 LOCAL.
Definition undo1 : UndoOperation :=
  {| undo_timestamp := Lamport.Mk 5 LOCAL; undo_version := Global.new; counts := [(edit1, 1%N)] |}.
Definition undo2 : UndoOperation :=
  {| undo_timestamp := Lamport.Mk 6 AGENT; undo_version := Global.new; counts := [(edit1, 2%N)] |}.

Lemma empty_of : undo_map_of empty_undo_map [].
Proof. exists 0. split_and!; [apply wf_new|lia|done|constructor]. Qed.

Lemma undo_counts_are_maxima_witness :
  undo_count empty_undo_map edit1 = Some 0%N ∧ is_undone empty_undo_map edit1 = Some false.
Proof.
  destruct (undo_counts_are_maxima empty_undo_map [] edit1 Global.new empty_of)
    as (n & k & Hn & Hu & _ & Hb & _).
  assert (n = 0%N) as ->.
  { assert (n ≤ 0)%N; [|lia]. apply Hb. by intros u c (e & ?%elem_of_nil & _). }
  by split.
Defined.

Lemma undo_insert_commutes_witness :
  ∃ m12 m21, (m1 ← insert empty_undo_map undo1; insert m1 undo2) = Some m12 ∧
    (m2 ← insert empty_undo_map undo2; insert m2 undo1) = Some m21 ∧
    undo_count m12 edit1 = undo_count m21 edit1.
Proof.
  assert (∀ o : option UndoMap, (if o is Some m then wf 0 m else False) →
    ∀ m1, o = Some m1 → ∃ h, wf h m1 ∧ h < 16) as Hok.
  { intros o Ho m1 ->. exists 0. split; [done|lia]. }
  destruct (undo_insert_commutes empty_undo_map [] undo1 undo2 empty_of)
    as (m1 & m2 & m12 & m21 & H1 & H12 & H2 & H21 & Heq).
  - apply NoDup_singleton.
  - apply NoDup_singleton.
  - done.
  - apply Hok. vm_compute. repeat first [split | reflexivity | lia | constructor].
  - apply Hok. vm_compute. repeat first [split | reflexivity | lia | constructor].
  - exists m12, m21. rewrite H1, H2. simpl. split; [done|]. split; [done|].
    apply (Heq ltac:(exists 0, 0; vm_compute in H1; injection H1 as <-; vm_compute in H12; injection H12 as <-;
      vm_compute in H2; injection H2 as <-; vm_compute in H21; injection H21 as <-;
      split_and!; vm_compute; repeat first [split | reflexivity | lia | constructor]) edit1 Global.new).
Defined.
