(* ===== verification/OperationQueue.v ===== *)
(** * OperationQueue: deferred operations in timestamp order

    Models [crates/text/src/operation_queue.rs]: operations that cannot be
    applied yet wait in a tree keyed by their Lamport timestamp.  The
    [assert!]s of [add_summary] compare the summaries of neighbouring items, which a
    total function cannot refuse; [asserted] states what they check and
    [operation_queue_insert] shows it for the items of the queue. *)

From S2P Require Import Prelude Clock SumTree SumTreeSpec SumTreeFind Cursor CursorSpec CursorFacts Keyed.
#[local] Open Scope nat_scope.

(** [trait Operation]. *)
Class Operation (T : Type) : Type := lamport_timestamp : T → Lamport.t.

(** [slice::sort_by_key] is stable and [Vec::dedup_by_key] keeps the first of
    each run. *)
Section sort.
Context {T K : Type} `{!Ord K} (f : T → K).

Fixpoint sorted_insert_by_key (x : T) (l : list T) : list T :=
  match l with
  | [] => [x]
  | y :: l' => if leb_ord (f x) (f y) then x :: l else y :: sorted_insert_by_key x l'
  end.

Definition sort_by_key (l : list T) : list T := foldr sorted_insert_by_key [] l.

Fixpoint dedup_after (x : T) (l : list T) : list T :=
  match l with
  | [] => []
  | y :: l => if eqb_ord (f x) (f y) then dedup_after x l else y :: dedup_after y l
  end.

Definition dedup_by_key (l : list T) : list T :=
  match l with [] => [] | x :: l => x :: dedup_after x l end.

(** The first element with a key. *)
Definition first_with (k : K) (l : list T) : option T := head (filter (λ x, eqb_ord (f x) k = true) l).
End sort.

Section queue.
Context {T : Type} `{!Operation T}.

Record OperationItem : Type := { operation : T }.

Abbreviation OperationKey := Lamport.t.

Record OperationSummary : Type := { summary_key : OperationKey; len : nat }.

#[export] Instance operation_summary : Summary OperationSummary :=
  {| summary_zero := {| summary_key := Lamport.MIN; len := 0 |};
     add_summary self other := {| summary_key := summary_key other; len := len self + len other |} |}.

#[export] Instance operation_key_dimension : Dimension OperationKey OperationSummary :=
  {| dim_zero := Lamport.MIN; dim_add self summary := summary_key summary |}.

#[export] Instance operation_item : Item OperationItem OperationSummary :=
  λ i, {| summary_key := lamport_timestamp (operation i); len := 1 |}.

#[export] Instance operation_keyed : KeyedItem OperationItem OperationKey :=
  λ i, lamport_timestamp (operation i).

Abbreviation OperationQueue := (SumTree OperationItem OperationSummary).

Definition queue_new : OperationQueue := tree_new.
Definition queue_len (q : OperationQueue) : nat := len (tree_summary q).
Definition queue_is_empty (q : OperationQueue) : bool := queue_len q =? 0.

Definition queue_insert (q : OperationQueue) (ops : list T) : option OperationQueue :=
  let ops := sort_by_key lamport_timestamp ops in
  let ops := dedup_by_key lamport_timestamp ops in
  '(q, _) ← edit (Key:=OperationKey) q (List.map (λ op, Edit_Insert {| operation := op |}) ops);
  Some q.

(** What [drain] returns and what it leaves. *)
Definition queue_drain (q : OperationQueue) : OperationQueue * OperationQueue := (q, tree_new).

Definition queue_iter (q : OperationQueue) : option (list T) :=
  l ← iter_collect (Datatypes.S (cost q)) (iter_new q); Some (List.map operation l).
End queue.
Arguments OperationItem : clear implicits.

(** ** Sorting *)

Section sort_facts.
Context {T K : Type} `{OrdLaws K} (f : T → K).
Implicit Types (x y : T) (l : list T) (k : K).

Lemma first_with_cons k x l :
  first_with f k (x :: l) = if eqb_ord (f x) k then Some x else first_with f k l.
Proof. unfold first_with. rewrite filter_cons. by destruct (eqb_ord (f x) k). Qed.

Lemma first_with_sorted_insert k x l :
  first_with f k (sorted_insert_by_key f x l) = first_with f k (x :: l).
Proof.
  induction l as [|y l IH]; simpl; [done|]. destruct (leb_ord (f x) (f y)) eqn:Hle; [done|].
  rewrite first_with_cons, IH, !first_with_cons.
  destruct (eqb_ord (f y) k) eqn:Hy, (eqb_ord (f x) k) eqn:Hx; try done.
  apply eqb_ord_spec in Hx, Hy. assert (f x = f y) as Hxy by congruence.
  unfold leb_ord in Hle. by rewrite Hxy, cmp_refl in Hle.
Qed.

Lemma first_with_sort k l : first_with f k (sort_by_key f l) = first_with f k l.
Proof.
  induction l as [|x l IH]; [done|]. unfold sort_by_key in *. simpl.
  by rewrite first_with_sorted_insert, !first_with_cons, IH.
Qed.

Definition weakly_sorted l : Prop := StronglySorted (λ x y, f x ≼ f y) l.

Lemma weakly_sorted_insert x l : weakly_sorted l → weakly_sorted (sorted_insert_by_key f x l).
Proof.
  induction 1 as [|y l Hl IH Hy]; simpl; [by repeat constructor|].
  destruct (leb_ord (f x) (f y)) eqn:Hle.
  - apply leb_ord_spec in Hle. constructor; [by constructor|]. constructor; [done|].
    eapply Forall_impl; [exact Hy|]. intros z Hz. simpl in *. by apply ole_trans with (f y).
  - constructor; [done|]. assert (f y ≼ f x) as Hyx.
    { apply not_olt. intros Hlt%olt_le. apply leb_ord_spec in Hlt. congruence. }
    clear -Hy Hyx. induction l as [|z l IH]; simpl; [by repeat constructor|].
    apply Forall_cons in Hy as [? ?]. destruct (leb_ord _ _); repeat constructor; auto.
Qed.

Lemma weakly_sorted_sort l : weakly_sorted (sort_by_key f l).
Proof. induction l as [|x l IH]; [constructor|]. by apply weakly_sorted_insert. Qed.

Lemma dedup_after_spec x l :
  weakly_sorted (x :: l) →
  StronglySorted (λ x y, f x ≺ f y) (x :: dedup_after f x l) ∧
  ∀ k, first_with f k (x :: dedup_after f x l) = first_with f k (x :: l).
Proof.
  revert x. induction l as [|y l IH]; intros x Hl; simpl; [by repeat constructor|].
  apply StronglySorted_inv in Hl as [Hl Hx]. apply Forall_cons in Hx as [Hxy Hx].
  destruct (eqb_ord (f x) (f y)) eqn:Heq.
  - apply eqb_ord_spec in Heq. destruct (IH x) as [Hs Hf].
    { apply StronglySorted_inv in Hl as [? ?]. by constructor. }
    split; [done|]. intros k. rewrite Hf, !first_with_cons, Heq. by destruct (eqb_ord _ _).
  - destruct (IH y Hl) as [Hs Hf]. split.
    + constructor; [done|]. assert (f x ≺ f y) as Hlt.
      { apply ole_iff in Hxy as [?|Hxy]; [done|]. apply eqb_ord_spec in Hxy. congruence. }
      apply StronglySorted_inv in Hs as [_ Hy]. constructor; [done|].
      eapply Forall_impl; [exact Hy|]. intros z. simpl. by apply olt_trans.
    + intros k. rewrite first_with_cons, Hf. by rewrite (first_with_cons k x).
Qed.

Lemma dedup_sort_spec l :
  StronglySorted (λ x y, f x ≺ f y) (dedup_by_key f (sort_by_key f l)) ∧
  ∀ k, first_with f k (dedup_by_key f (sort_by_key f l)) = first_with f k l.
Proof.
  pose proof (weakly_sorted_sort l) as Hs. setoid_rewrite <- (λ k, first_with_sort k l).
  destruct (sort_by_key f l) as [|x s]; simpl; [by repeat constructor|]. by apply dedup_after_spec.
Qed.

Lemma first_with_elem k x l : first_with f k l = Some x → x ∈ l ∧ f x = k.
Proof.
  induction l as [|y l IH]; [done|]. rewrite first_with_cons. destruct (eqb_ord (f y) k) eqn:E.
  - intros [= ->]. apply eqb_ord_spec in E. rewrite elem_of_cons. auto.
  - intros [? ?]%IH. rewrite elem_of_cons. auto.
Qed.

Lemma first_with_None k l : first_with f k l = None ↔ ∀ x, x ∈ l → f x ≠ k.
Proof.
  induction l as [|y l IH]; [split; [by intros _ x ?%elem_of_nil|done]|].
  rewrite first_with_cons. destruct (eqb_ord (f y) k) eqn:E.
  - apply eqb_ord_spec in E. split; [done|]. intros Hall. by destruct (Hall y (list_elem_of_here _ _)).
  - rewrite IH. split; [|intros Hall x Hx; apply Hall; by apply elem_of_cons; right].
    intros Hall x [->|Hx]%elem_of_cons; [|by apply Hall]. intros Hk. apply eqb_ord_spec in Hk. congruence.
Qed.

Lemma first_with_sorted x l :
  StronglySorted (λ x y, f x ≺ f y) l → x ∈ l → first_with f (f x) l = Some x.
Proof.
  induction 1 as [|y l _ IH Hy]; [by intros ?%elem_of_nil|]. rewrite first_with_cons.
  intros [->|Hx]%elem_of_cons; [by rewrite (proj2 (eqb_ord_spec _ _))|].
  rewrite Forall_forall in Hy. specialize (Hy x Hx). destruct (eqb_ord (f y) (f x)) eqn:E; [|by apply IH].
  apply eqb_ord_spec in E. rewrite E in Hy. by apply olt_irrefl in Hy.
Qed.
End sort_facts.

(** ** The queue *)

Section queue_facts.
Context {T : Type} `{!Operation T}.
Implicit Types (ops : list T).
Abbreviation queue := (SumTree (OperationItem T) OperationSummary).
Abbreviation sorted_items := (sorted_keys (T:=OperationItem T) (Key:=Lamport.t)).

#[export] Program Instance operation_summary_laws : SummaryLaws OperationSummary := {| valid _ := True |}.
Next Obligation. done. Qed.
Next Obligation. done. Qed.
Next Obligation. by intros [k n] _. Qed.
Next Obligation. intros a b c _ _ _. cbn. f_equal. lia. Qed.

#[export] Program Instance operation_key_laws : DimensionLaws Lamport.t OperationSummary :=
  {| dvalid _ := True |}.
Solve Obligations with done.

#[export] Program Instance operation_keyed_laws : KeyedLaws (OperationItem T) OperationSummary Lamport.t.
Next Obligation. done. Qed.
Next Obligation. intros k. apply Lamport.MIN_le. Qed.

(** Every summary that is added belongs to the items that follow, and has the
    greater key; the empty sum has the least one. *)
Definition asserted (l : list (OperationItem T)) : Prop := ∀ l1 l2 l3 l4,
  l = l1 ++ l2 ++ l3 ++ l4 → l3 ≠ [] → summary_key (sum_items l2) ≺ summary_key (sum_items l3).

Definition timed ops : Prop := Forall (λ op, Lamport.MIN ≺ lamport_timestamp op) ops.

(** The queue [q], of height below the capacity of a cursor, holds the
    operations [ops] in the order of their timestamps. *)
Definition queue_of (q : queue) ops : Prop :=
  ∃ h, wf h q ∧ h < 16 ∧ operation <$> to_list q = ops ∧
    StronglySorted (λ a b, lamport_timestamp a ≺ lamport_timestamp b) ops ∧ timed ops.

Lemma summary_key_last (l : list (OperationItem T)) x :
  summary_key (sum_items (l ++ [x])) = lamport_timestamp (operation x).
Proof. by rewrite sum_items_app, sum_items_singleton by (done || by apply Forall_true). Qed.

Lemma sorted_asserted (l : list (OperationItem T)) :
  StronglySorted (λ a b, lamport_timestamp a ≺ lamport_timestamp b) (operation <$> l) → timed (operation <$> l) → asserted l.
Proof.
  intros Hs Ht l1 l2 l3 l4 -> Hne. destruct (nonempty_snoc l3 Hne) as (k3 & y & ->). rewrite summary_key_last.
  unfold timed in Ht. rewrite Forall_forall in Ht. destruct l2 as [|z l2 _] using rev_ind.
  { apply Ht, list_elem_of_fmap_2. rewrite !elem_of_app, list_elem_of_singleton. tauto. }
  rewrite summary_key_last. rewrite (assoc_L (++)), fmap_app in Hs.
  eapply (StronglySorted_app_1_elem_of _ _ _ (operation z) (operation y) Hs);
    apply list_elem_of_fmap_2; rewrite !elem_of_app, list_elem_of_singleton; tauto.
Qed.

Lemma sorted_items_operations (l : list (OperationItem T)) :
  sorted_items l ↔ StronglySorted (λ a b, lamport_timestamp a ≺ lamport_timestamp b) (operation <$> l).
Proof.
  induction l as [|x l IH]; simpl; [split; constructor|]. rewrite sorted_cons, StronglySorted_cons, IH.
  change (list_fmap _ _ operation l) with (operation <$> l). rewrite Forall_fmap. naive_solver.
Qed.

Lemma get_first_with ts (l : list (OperationItem T)) :
  option_map operation (list_get ts l) = first_with lamport_timestamp ts (operation <$> l).
Proof.
  induction l as [|x l IH]; simpl; [done|].
  change (list_fmap _ _ operation l) with (operation <$> l). rewrite first_with_cons. unfold key, operation_keyed.
  by destruct (eqb_ord _ _).
Qed.

Lemma queue_len_items h (q : queue) : wf h q → queue_len q = length (to_list q).
Proof.
  intros Hwf. unfold queue_len. rewrite (wf_summary _ _ Hwf). clear Hwf.
  induction (to_list q) as [|x l IH] using rev_ind; [done|].
  rewrite sum_items_app, sum_items_singleton, length_app by (done || by apply Forall_true). cbn. rewrite IH. lia.
Qed.

Lemma queue_insert_spec q ops added :
  queue_of q ops → timed added →
  ∃ q' ops', queue_insert q added = Some q' ∧ (∃ h, wf h q') ∧ operation <$> to_list q' = ops' ∧
    StronglySorted (λ a b, lamport_timestamp a ≺ lamport_timestamp b) ops' ∧ timed ops' ∧
    ∀ ts, first_with lamport_timestamp ts ops' =
          match first_with lamport_timestamp ts added with
          | Some op => Some op
          | None => first_with lamport_timestamp ts ops
          end.
Proof.
  intros (h & Hwf & Hh & Hops & Hs & Ht) Hadd. unfold queue_insert.
  destruct (dedup_sort_spec lamport_timestamp added) as [Hd Hfirst].
  set (unique := dedup_by_key _ _) in *.
  assert (∀ l, edit_key (Key:=Lamport.t) <$> List.map (λ op, Edit_Insert {| operation := op |}) l =
    lamport_timestamp <$> l) as Hkeys.
  { induction l; simpl; [done|]. by f_equal. }
  destruct (edit_spec (Key:=Lamport.t) h q (List.map (λ op, Edit_Insert {| operation := op |}) unique))
    as (q' & old & -> & Hq' & Hs' & Hin & Hout); [done|done| | | |].
  { rewrite sorted_items_operations. by rewrite Hops. }
  { rewrite Hkeys. clear -Hd. induction Hd as [|x l _ IH Hx]; simpl; [constructor|]. constructor; [|done].
    intros (y & Hy & Hyl)%list_elem_of_fmap. rewrite Forall_forall in Hx. specialize (Hx y Hyl).
    simpl in Hx. rewrite Hy in Hx. by apply olt_irrefl in Hx. }
  { clear. induction unique; simpl; repeat constructor; done. }
  assert (∀ ts, first_with lamport_timestamp ts (operation <$> to_list q') =
    match first_with lamport_timestamp ts added with
    | Some op => Some op
    | None => first_with lamport_timestamp ts ops
    end) as Hget.
  2:{ simpl. exists q', (operation <$> to_list q'). apply sorted_items_operations in Hs'. split_and!; try done.
      apply Forall_forall. intros op Hop. apply (first_with_sorted lamport_timestamp _ _ Hs') in Hop.
      unfold timed in Ht, Hadd. rewrite Forall_forall in Ht, Hadd. rewrite Hget in Hop.
      destruct (first_with _ _ added) eqn:E; [injection Hop as ->; apply first_with_elem in E as [? _]; auto|].
      apply first_with_elem in Hop as [? _]. auto. }
  intros ts. rewrite <- get_first_with, <- Hfirst.
  destruct (first_with lamport_timestamp ts unique) as [op|] eqn:E.
  - apply first_with_elem in E as [Hop <-].
    assert (list_get (lamport_timestamp op) (to_list q') = Some {| operation := op |}) as ->; [|done].
    apply (Hin (Edit_Insert {| operation := op |})).
    apply (list_elem_of_fmap_2 (λ op, Edit_Insert {| operation := op |}) _ _ Hop).
  - rewrite Hout, get_first_with; [by rewrite Hops|]. rewrite Hkeys.
    intros (op & -> & Hop)%list_elem_of_fmap. by apply (proj1 (first_with_None lamport_timestamp _ _) E op Hop).
Qed.

Lemma queue_iter_of q ops : queue_of q ops → queue_iter q = Some ops.
Proof.
  intros (h & Hwf & Hh & <- & _). unfold queue_iter. rewrite (iter_collect_spec _ h); [done|done|done|].
  pose proof (length_items_cost q). lia.
Qed.

Lemma queue_new_of : queue_of tree_new [].
Proof. exists 0. split_and!; [apply wf_new|lia|done|constructor|constructor]. Qed.
End queue_facts.

(** ** Properties *)

(** Inserting a batch leaves the queue in strictly increasing order of
    timestamps, with one operation per timestamp: the first of the batch that
    has it, else the one that was queued; the length counts them, [iter] yields
    them in order and [drain] hands them out and leaves an empty queue. Timestamps are
    above [Lamport::MIN], as those a clock issues are; then the keys of neighbouring
    summaries grow as the assertions of the code demand. *)
Theorem operation_queue_insert {T} `{!Operation T} (q : SumTree (OperationItem T) OperationSummary) ops added :
  queue_of q ops → timed added →
  ∃ q' ops', queue_insert q added = Some q' ∧
    StronglySorted (λ a b, lamport_timestamp a ≺ lamport_timestamp b) ops' ∧ asserted (to_list q') ∧
    (∀ ts, first_with lamport_timestamp ts ops' =
       match first_with lamport_timestamp ts added with
       | Some op => Some op
       | None => first_with lamport_timestamp ts ops
       end) ∧
    queue_len q' = length ops' ∧ queue_is_empty q' = bool_decide (ops' = []) ∧
    ((∃ h, wf h q' ∧ h < 16) → queue_of q' ops' ∧ queue_iter q' = Some ops' ∧
       queue_of (queue_drain q').1 ops' ∧ queue_of (queue_drain q').2 []).
Proof.
  intros Hq Hadd.
  destruct (queue_insert_spec q ops added Hq Hadd) as (q' & ops' & Hq' & (h & Hwf) & Hops' & Hs & Ht & Hget).
  assert (queue_len q' = length ops') as Hlen.
  { rewrite (queue_len_items _ _ Hwf), <- Hops'. by rewrite length_fmap. }
  exists q', ops'. split_and!; [done|done|subst; by apply sorted_asserted|done|done| |].
  { unfold queue_is_empty. rewrite Hlen. by destruct ops'. }
  clear h Hwf. intros (h & Hwf & Hh).
  assert (queue_of q' ops') as Hof by (by exists h). split_and!; [done| |done|].
  - by apply queue_iter_of.
  - apply queue_new_of.
Qed.

#[local] Instance operation_pair : Operation (Lamport.t * nat) := fst.

Lemma operation_queue_insert_witness :
  ∃ q', queue_insert queue_new [(Lamport.Mk 2 AGENT, 7); (Lamport.Mk 1 LOCAL, 8); (Lamport.Mk 2 AGENT, 9)] = Some q' ∧
    queue_len q' = 2.
Proof.
  destruct (operation_queue_insert queue_new []
    [(Lamport.Mk 2 AGENT, 7); (Lamport.Mk 1 LOCAL, 8); (Lamport.Mk 2 AGENT, 9)])
    as (q' & ops' & Hq' & _).
  - exists 0. split_and!; [apply wf_new|lia|done|constructor|constructor].
  - by repeat constructor.
  - exists q'. split; [done|]. vm_compute in Hq'. injection Hq' as <-. reflexivity.
Defined.
