(* ===== verification/Patch.v ===== *)
(** * Patch: edits between two versions of a text

    Models [struct Edit] of [crates/text/src/text.rs] and
    [crates/text/src/patch.rs].  [compose] consumes two peekable iterators whose
    front edits it shortens in place: here two lists whose heads it replaces.
    Subtraction of positions is partial ([None] where an unsigned subtraction
    underflows); the theorems of [PatchTheorems] show that it never does on
    patches between texts. *)

From S2P Require Import Prelude.
#[local] Open Scope nat_scope.

(** The arithmetic the code asks of positions [T] and distances [D]:
    [Default], [Sub], [Add] and [AddAssign]. *)
Class Coord (T D : Type) : Type := {
  coord_zero : T;
  coord_sub : T → T → option D;
  coord_add : T → D → T
}.
#[global] Hint Mode Coord ! - : typeclass_instances.

(** [usize] offsets. *)
#[export] Instance coord_usize : Coord nat nat :=
  {| coord_zero := 0; coord_sub a b := if b <=? a then Some (a - b) else None; coord_add := Nat.add |}.

(** [cmp::min] returns its first argument when they are equal. *)
Definition min_ord {A} `{Ord A} (x y : A) : A := if ltb_ord y x then y else x.

Record Range (T : Type) : Type := mk_range { start : T; end_ : T }.
Arguments mk_range {T}. Arguments start {T}. Arguments end_ {T}.

Record Edit (T : Type) : Type := mk_edit { old : Range T; new : Range T }.
Arguments mk_edit {T}. Arguments old {T}. Arguments new {T}.

Abbreviation Patch T := (list (Edit T)).

Section patch.
Context {T D : Type} `{!Coord T D, !Ord T, !Ord D}.
Implicit Types (e : Edit T) (p : Patch T).

Definition edit_is_empty e : bool :=
  eqb_ord (start (old e)) (end_ (old e)) && eqb_ord (start (new e)) (end_ (new e)).
Definition old_len e : option D := coord_sub (end_ (old e)) (start (old e)).
Definition new_len e : option D := coord_sub (end_ (new e)) (start (new e)).

Definition patch_empty : Patch T := [].
Definition patch_is_empty p : bool := match p with [] => true | _ => false end.
Definition invert p : Patch T := (λ e, mk_edit (new e) (old e)) <$> p.
Definition patch_clear p : Patch T := [].

Definition merge_last last e : list (Edit T) :=
  if leb_ord (start (old e)) (end_ (old last))
  then [mk_edit (mk_range (start (old last)) (end_ (old e))) (mk_range (start (new last)) (end_ (new e)))]
  else [last; e].

Fixpoint push_last p e : Patch T :=
  match p with
  | [] => [e]
  | [last] => merge_last last e
  | first :: p => first :: push_last p e
  end.

Definition push p e : Patch T := if edit_is_empty e then p else push_last p e.

(** ** [compose] *)

(** [old_edits_iter], [new_edits_iter], [composed], [old_start], [new_start]. *)
Record compose_state : Type := mk_compose {
  old_edits : list (Edit T);
  new_edits : list (Edit T);
  composed : Patch T;
  old_start : T;
  new_start : T
}.

(** Advance both positions over unchanged text, then emit an edit of these lengths. *)
Definition catch_up (st : compose_state) (catchup : D) : compose_state :=
  mk_compose (old_edits st) (new_edits st) (composed st)
    (coord_add (old_start st) catchup) (coord_add (new_start st) catchup).

Definition emit (st : compose_state) (old_end new_end : T) : compose_state :=
  mk_compose (old_edits st) (new_edits st)
    (push (composed st) (mk_edit (mk_range (old_start st) old_end) (mk_range (new_start st) new_end)))
    old_end new_end.

Definition with_edits (st : compose_state) (olds news : list (Edit T)) : compose_state :=
  mk_compose olds news (composed st) (old_start st) (new_start st).

Definition push_old (st : compose_state) old_edit olds : option compose_state :=
  catchup ← coord_sub (start (old old_edit)) (old_start st);
  let st := catch_up st catchup in
  old_len ← old_len old_edit; new_len ← new_len old_edit;
  let st := emit st (coord_add (old_start st) old_len) (coord_add (new_start st) new_len) in
  Some (with_edits st olds (new_edits st)).

Definition push_new (st : compose_state) new_edit news : option compose_state :=
  catchup ← coord_sub (start (new new_edit)) (new_start st);
  let st := catch_up st catchup in
  old_len ← old_len new_edit; new_len ← new_len new_edit;
  let st := emit st (coord_add (old_start st) old_len) (coord_add (new_start st) new_len) in
  Some (with_edits st (old_edits st) news).

(** The first half of the intersecting case: emit what sticks out before the
    other edit, so that both edits begin at the same position. *)
Definition align (st : compose_state) old_edit new_edit : option (compose_state * Edit T * Edit T) :=
  if ltb_ord (start (new old_edit)) (start (old new_edit)) then
    catchup ← coord_sub (start (old old_edit)) (old_start st);
    let st := catch_up st catchup in
    overshoot ← coord_sub (start (old new_edit)) (start (new old_edit));
    let old_end := min_ord (coord_add (old_start st) overshoot) (end_ (old old_edit)) in
    let new_end := coord_add (new_start st) overshoot in
    Some (emit st old_end new_end,
          mk_edit (mk_range old_end (end_ (old old_edit)))
                  (mk_range (coord_add (start (new old_edit)) overshoot) (end_ (new old_edit))),
          new_edit)
  else
    catchup ← coord_sub (start (new new_edit)) (new_start st);
    let st := catch_up st catchup in
    overshoot ← coord_sub (start (new old_edit)) (start (old new_edit));
    let old_end := coord_add (old_start st) overshoot in
    let new_end := min_ord (coord_add (new_start st) overshoot) (end_ (new new_edit)) in
    Some (emit st old_end new_end, old_edit,
          mk_edit (mk_range (coord_add (start (old new_edit)) overshoot) (end_ (old new_edit)))
                  (mk_range new_end (end_ (new new_edit)))).

(** The second half: emit the shorter of the two and shorten the other. *)
Definition overlap (st : compose_state) old_edit olds new_edit news : option compose_state :=
  if ltb_ord (end_ (old new_edit)) (end_ (new old_edit)) then
    len_old ← old_len old_edit; len_new ← old_len new_edit;
    let old_end := coord_add (old_start st) (min_ord len_old len_new) in
    len ← new_len new_edit;
    let new_end := coord_add (new_start st) len in
    let old_edit := mk_edit (mk_range old_end (end_ (old old_edit)))
                            (mk_range (end_ (old new_edit)) (end_ (new old_edit))) in
    Some (with_edits (emit st old_end new_end) (old_edit :: olds) news)
  else
    len ← old_len old_edit;
    let old_end := coord_add (old_start st) len in
    len_old ← new_len old_edit; len_new ← new_len new_edit;
    let new_end := coord_add (new_start st) (min_ord len_old len_new) in
    let new_edit := mk_edit (mk_range (end_ (new old_edit)) (end_ (old new_edit)))
                            (mk_range new_end (end_ (new new_edit))) in
    Some (with_edits (emit st old_end new_end) olds (new_edit :: news)).

(** One round of the loop; the inner [None] is the [break]. *)
Definition compose_step (st : compose_state) : option (option compose_state) :=
  match old_edits st, new_edits st with
  | [], [] => Some None
  | old_edit :: olds, [] => st ← push_old st old_edit olds; Some (Some st)
  | [], new_edit :: news => st ← push_new st new_edit news; Some (Some st)
  | old_edit :: olds, new_edit :: news =>
      if ltb_ord (end_ (new old_edit)) (start (old new_edit))
      then st ← push_old st old_edit olds; Some (Some st)
      else if ltb_ord (end_ (old new_edit)) (start (new old_edit))
      then st ← push_new st new_edit news; Some (Some st)
      else
        '(st, old_edit, new_edit) ← align st old_edit new_edit;
        st ← overlap st old_edit olds new_edit news; Some (Some st)
  end.

Fixpoint compose_loop (fuel : nat) (st : compose_state) : option (Patch T) :=
  match fuel with
  | O => None
  | Datatypes.S fuel =>
      next ← compose_step st;
      match next with Some st => compose_loop fuel st | None => Some (composed st) end
  end.

(** Every round removes an edit, so the number of edits bounds the rounds. *)
Definition compose p (news : list (Edit T)) : option (Patch T) :=
  compose_loop (Datatypes.S (length p + length news)) (mk_compose p news [] coord_zero coord_zero).

(** ** Positions *)

(** The edit at or before a position by the binary search on [old.start]; the
    starts of a patch are strictly increasing. *)
Fixpoint edit_before p (position : T) (found : option (Edit T)) : option (Edit T) :=
  match p with
  | [] => found
  | e :: p => match cmp (start (old e)) position with
              | Lt => edit_before p position (Some e)
              | Eq => Some e
              | Gt => found
              end
  end.

Definition old_to_new p (position : T) : option T :=
  match edit_before p position None with
  | None => Some position
  | Some e =>
      if leb_ord (end_ (old e)) position
      then d ← coord_sub position (end_ (old e)); Some (coord_add (end_ (new e)) d)
      else Some (start (new e))
  end.

Definition edit_for_old_position p (position : T) : option (Edit T) :=
  match edit_before p position None with
  | None => Some (mk_edit (mk_range position position) (mk_range position position))
  | Some e =>
      if ltb_ord (end_ (old e)) position
      then d ← coord_sub position (end_ (old e));
           let translated := coord_add (end_ (new e)) d in
           Some (mk_edit (mk_range position position) (mk_range translated translated))
      else Some e
  end.

Definition retain_mut (f : Edit T → Edit T * bool) p : Patch T :=
  fst <$> filter (λ r : Edit T * bool, r.2 = true) (f <$> p).
End patch.
Arguments compose_state T : clear implicits.

(** A two-dimensional edit, by component. *)
Definition flatten {T1 T2} (e : Edit (T1 * T2)) : Edit T1 * Edit T2 :=
  let fsts r := mk_range (start r).1 (end_ r).1 in
  let snds r := mk_range (start r).2 (end_ r).2 in
  (mk_edit (fsts (old e)) (fsts (new e)), mk_edit (snds (old e)) (snds (new e))).
