(* ===== verification/PatchFacts.v ===== *)
(** * PatchFacts: what a patch between two texts is

    [transforms p o n A C] says that the edits of [p], whose positions count
    from [o] in the old text and from [n] in the new one, turn the text [A] into
    the text [C]: outside the edits the two agree. *)

From S2P Require Import Prelude Patch.
#[local] Open Scope nat_scope.

(** ** Offsets *)

Lemma ltb_nat (a b : nat) : ltb_ord a b = (a <? b).
Proof. unfold ltb_ord, cmp, ord_nat. destruct (Nat.compare_spec a b), (Nat.ltb_spec a b); (lia || done). Qed.

Lemma leb_nat (a b : nat) : leb_ord a b = (a <=? b).
Proof. unfold leb_ord, cmp, ord_nat. destruct (Nat.compare_spec a b), (Nat.leb_spec a b); (lia || done). Qed.

Lemma eqb_nat (a b : nat) : eqb_ord a b = (a =? b).
Proof. unfold eqb_ord, cmp, ord_nat. destruct (Nat.compare_spec a b), (Nat.eqb_spec a b); (lia || done). Qed.

Lemma min_nat (a b : nat) : min_ord a b = Nat.min a b.
Proof. unfold min_ord. rewrite ltb_nat. destruct (Nat.ltb_spec b a); lia. Qed.

Lemma sub_le (a b : nat) : b ≤ a → coord_sub a b = Some (a - b).
Proof. intros. simpl. by destruct (Nat.leb_spec b a); [|lia]. Qed.

Section facts.
Context {X : Type}.
Implicit Types (A B C gap : list X) (p q : Patch nat) (e f : Edit nat) (o n b : nat).

(** The edit that replaces [A1] by [C1], [k] positions after [o] and [n]. *)
Definition span o n (k : nat) (A1 C1 : list X) : Edit nat :=
  mk_edit (mk_range (o + k) (o + k + length A1)) (mk_range (n + k) (n + k + length C1)).

Fixpoint transforms p o n A C : Prop :=
  match p with
  | [] => A = C
  | e :: p =>
      ∃ gap A1 A2 C1 C2, A = gap ++ A1 ++ A2 ∧ C = gap ++ C1 ++ C2 ∧
        e = span o n (length gap) A1 C1 ∧
        transforms p (o + length gap + length A1) (n + length gap + length C1) A2 C2
  end.

(** A patch in normal form: no empty edit, and unchanged text between any two. *)
Definition normal p : Prop :=
  Forall (λ e, edit_is_empty e = false) p ∧
  StronglySorted (λ e f, end_ (old e) < start (old f) ∧ end_ (new e) < start (new f)) p.

Lemma transforms_trailing p o n A C gap : transforms p o n A C → transforms p o n (A ++ gap) (C ++ gap).
Proof.
  revert o n A C. induction p as [|e p IH]; intros o n A C; simpl; [by intros ->|].
  intros (g & A1 & A2 & C1 & C2 & -> & -> & -> & Hp).
  exists g, A1, (A2 ++ gap), C1, (C2 ++ gap). split_and!; [by rewrite !(assoc_L (++))..|done|by apply IH].
Qed.

Lemma transforms_id A : transforms [] 0 0 A A.
Proof. done. Qed.

(** The positions of a patch lie within the texts, in order. *)
Lemma transforms_bounds p o n A C :
  transforms p o n A C →
  Forall (λ e, o ≤ start (old e) ∧ start (old e) ≤ end_ (old e) ∧ end_ (old e) ≤ o + length A ∧
               n ≤ start (new e) ∧ start (new e) ≤ end_ (new e) ∧ end_ (new e) ≤ n + length C) p.
Proof.
  revert o n A C. induction p as [|e p IH]; intros o n A C; simpl; [done|].
  intros (g & A1 & A2 & C1 & C2 & -> & -> & -> & Hp). rewrite !length_app.
  constructor; [simpl; lia|]. eapply Forall_impl; [exact (IH _ _ _ _ Hp)|]. intros f. simpl. lia.
Qed.

Lemma invert_transforms p o n A C : transforms p o n A C → transforms (invert p) n o C A.
Proof.
  revert o n A C. induction p as [|e p IH]; intros o n A C; simpl; [done|].
  intros (g & A1 & A2 & C1 & C2 & -> & -> & -> & Hp). exists g, C1, C2, A1, A2. by split_and!; [| | |apply IH].
Qed.

(** Nothing happens before the first edit. *)
Lemma skip_new p o n A D C :
  transforms p o n A (D ++ C) → (∀ e, head p = Some e → n + length D ≤ start (new e)) →
  ∃ A', A = D ++ A' ∧ transforms p (o + length D) (n + length D) A' C.
Proof.
  destruct p as [|e p]; simpl; [intros -> _; by eexists|].
  intros (g & A1 & A2 & C1 & C2 & -> & HC & -> & Hp) Hd. specialize (Hd _ eq_refl). simpl in Hd.
  assert (∃ g', g = D ++ g') as [g' ->].
  { exists (drop (length D) g). apply (f_equal (take (length D))) in HC.
    rewrite take_app_length, take_app_le in HC by lia. rewrite HC at 1. by rewrite take_drop. }
  exists (g' ++ A1 ++ A2). split; [by rewrite <- (assoc_L (++))|]. rewrite <- (assoc_L (++)) in HC. apply app_inv_head in HC.
  exists g', A1, A2, C1, C2. rewrite length_app in *. unfold span.
  split_and!; [done|done|f_equal; f_equal; lia|].
  rewrite <- !(Nat.add_assoc _ (length D) (length g')). done.
Qed.

Lemma invert_invert p : invert (invert p) = p.
Proof. unfold invert. rewrite <- list_fmap_compose. rewrite <- (list_fmap_id p) at 2. apply list_fmap_ext. by intros _ [[] []] _. Qed.

Lemma skip_old p o n A D C :
  transforms p o n (D ++ A) C → (∀ e, head p = Some e → o + length D ≤ start (old e)) →
  ∃ C', C = D ++ C' ∧ transforms p (o + length D) (n + length D) A C'.
Proof.
  intros Hp%invert_transforms Hd. destruct (skip_new (invert p) n o C D A Hp) as (C' & -> & Hp').
  { intros e. destruct p as [|f p]; [done|]. intros [= <-]. by apply (Hd f). }
  exists C'. split; [done|]. rewrite <- (invert_invert p). by apply invert_transforms.
Qed.

Lemma span_empty o n k A1 C1 :
  edit_is_empty (span o n k A1 C1) = bool_decide (A1 = [] ∧ C1 = []).
Proof.
  unfold edit_is_empty, span. rewrite !eqb_nat. simpl.
  destruct A1, C1; simpl; repeat case_bool_decide;
    repeat match goal with |- context [?a =? ?b] => destruct (Nat.eqb_spec a b) end; simpl; (lia || naive_solver).
Qed.

(** ** Appending an edit *)

Lemma span_shift o n (gap A1 C1 A2 C2 A3 C3 : list X) k :
  span (o + length (gap ++ A1 ++ A2)) (n + length (gap ++ C1 ++ C2)) k A3 C3 =
  span (o + length gap + length A1 + length A2) (n + length gap + length C1 + length C2) k A3 C3.
Proof. unfold span. rewrite !length_app. f_equal; f_equal; lia. Qed.

Lemma push_last_transforms p o n A C gap A1 C1 :
  transforms p o n A C →
  transforms (push_last p (span (o + length A) (n + length C) (length gap) A1 C1)) o n
    (A ++ gap ++ A1) (C ++ gap ++ C1).
Proof.
  assert (∀ o n t, transforms [span (o + length t) (n + length t) (length gap) A1 C1] o n
    (t ++ gap ++ A1) (t ++ gap ++ C1)) as Hone.
  { intros o' n' t. exists (t ++ gap), A1, [], C1, []. rewrite !app_nil_r, !(assoc_L (++)).
    split_and!; [done|done| |done]. unfold span. rewrite length_app. f_equal; f_equal; lia. }
  revert o n A C. induction p as [|e p IH]; intros o n A C; [intros ->; apply Hone|].
  intros (g & A1' & A2 & C1' & C2 & -> & -> & -> & Hp). rewrite span_shift.
  specialize (IH _ _ _ _ Hp). rewrite <- !(assoc_L (++)).
  destruct p as [|e1 p]; [|by exists g, A1', (A2 ++ gap ++ A1), C1', (C2 ++ gap ++ C1)].
  simpl in Hp. subst C2. simpl. unfold merge_last. rewrite leb_nat. simpl.
  destruct (Nat.leb_spec (o + length g + length A1' + length A2 + length gap) (o + length g + length A1')) as [Hle|Hgt].
  - destruct A2, gap; simpl in Hle; [|lia..]. exists g, (A1' ++ A1), [], (C1' ++ C1), []. rewrite !app_nil_r.
    split_and!; [done|done| |done]. unfold span. rewrite !length_app. simpl. f_equal; f_equal; lia.
  - exists g, A1', (A2 ++ gap ++ A1), C1', (A2 ++ gap ++ C1). by split_and!.
Qed.

Lemma push_transforms p o n A C gap A1 C1 :
  transforms p o n A C →
  transforms (push p (span (o + length A) (n + length C) (length gap) A1 C1)) o n
    (A ++ gap ++ A1) (C ++ gap ++ C1).
Proof.
  intros Hp. unfold push. rewrite span_empty. case_bool_decide as He; [|by apply push_last_transforms].
  destruct He as [-> ->]. rewrite app_nil_r. by apply transforms_trailing.
Qed.

Lemma push_last_from p o n A C k A1 C1 f :
  transforms p o n A C →
  f ∈ push_last p (span (o + length A) (n + length C) k A1 C1) →
  f = span (o + length A) (n + length C) k A1 C1 ∨
  ∃ f', f' ∈ p ∧ start (old f) = start (old f') ∧ start (new f) = start (new f').
Proof.
  revert o n A C. induction p as [|e p IH]; intros o n A C Hp Hf; simpl in Hf.
  { apply list_elem_of_singleton in Hf. by left. }
  destruct Hp as (g & A1' & A2 & C1' & C2 & -> & -> & Heq & Hp). destruct p as [|e1 p].
  - unfold merge_last in Hf. destruct (leb_ord _ _).
    + apply list_elem_of_singleton in Hf as ->. right. exists e. by split; [left|].
    + apply elem_of_cons in Hf as [->|Hf%list_elem_of_singleton]; [right; exists e; by split; [left|]|by left].
  - apply elem_of_cons in Hf as [->|Hf]; [right; exists e; by split; [left|]|].
    rewrite span_shift in Hf |- *. destruct (IH _ _ _ _ Hp Hf) as [?|(f' & Hf' & ?)]; [by left|].
    right. exists f'. by split; [right|].
Qed.

Lemma push_last_normal p o n A C (gap A1 C1 : list X) :
  transforms p o n A C → normal p → A1 ≠ [] ∨ C1 ≠ [] →
  normal (push_last p (span (o + length A) (n + length C) (length gap) A1 C1)).
Proof.
  intros Hp Hn Hne. revert o n A C Hp Hn. induction p as [|e p IH]; intros o n A C Hp Hn.
  { split; [|by repeat constructor]. simpl. apply Forall_singleton. rewrite span_empty. apply bool_decide_eq_false. naive_solver. }
  pose proof (transforms_bounds _ _ _ _ _ Hp) as Hbounds.
  destruct Hp as (g & A1' & A2 & C1' & C2 & -> & -> & -> & Hp), Hn as [He Hs].
  apply Forall_cons in He as [He Hes]. apply StronglySorted_inv in Hs as [Hs Hse].
  rewrite span_shift. specialize (IH _ _ _ _ Hp (conj Hes Hs)). destruct p as [|e1 p].
  - simpl in Hp. subst C2. simpl in *. unfold merge_last. rewrite leb_nat. simpl.
    destruct (Nat.leb_spec (o + length g + length A1' + length A2 + length gap) (o + length g + length A1')) as [Hle|Hgt].
    + split; [|by repeat constructor]. apply Forall_singleton. unfold edit_is_empty in *. rewrite !eqb_nat in *. simpl in *.
      apply andb_false_iff in He. rewrite !Nat.eqb_neq in He. apply andb_false_iff. rewrite !Nat.eqb_neq. lia.
    + destruct IH as [IHe IHs]. split; [by constructor|]. constructor; [done|]. constructor; [simpl; lia|done].
  - destruct IH as [IHe IHs]. cbn [push_last]. split; [by constructor|]. constructor; [done|].
    apply Forall_forall. intros f Hf.
    destruct (push_last_from _ _ _ _ _ _ _ _ _ Hp Hf) as [->|(f' & Hf' & -> & ->)].
    + apply transforms_bounds in Hp. apply Forall_cons in Hp as [Hp _]. apply Forall_cons in Hse as [Hse _].
      simpl in *. lia.
    + by apply (proj1 (Forall_forall _ _) Hse).
Qed.

Lemma push_normal p o n A C (gap A1 C1 : list X) :
  transforms p o n A C → normal p →
  normal (push p (span (o + length A) (n + length C) (length gap) A1 C1)).
Proof.
  intros Hp Hn. unfold push. rewrite span_empty. case_bool_decide as He; [done|].
  apply push_last_normal; [done..|]. destruct A1; [|by left]. right. naive_solver.
Qed.
End facts.
