(* ===== verification/PatchTheorems.v ===== *)
(** * PatchTheorems: composition and translation of patches

    [compose] of patches [A → B] and [B → C] is a patch [A → C], in normal form;
    [old_to_new] and [edit_for_old_position] follow the unchanged text. *)

From Stdlib Require Import Ascii.
From S2P Require Import Prelude Patch PatchFacts.
#[local] Open Scope nat_scope.
#[local] Arguments coord_sub : simpl never.

Section compose.
Context {X : Type}.
Implicit Types (A B C gap : list X) (p q olds news : Patch nat) (e : Edit nat) (st : compose_state nat).

(** What has been emitted turns [A0] into [C0]. *)
Definition emitted st (A0 C0 : list X) : Prop :=
  transforms (composed st) 0 0 A0 C0 ∧ normal (composed st) ∧
  old_start st = length A0 ∧ new_start st = length C0.

(** The remaining edits lead from the rest [A1] through some [B1] to [C1]. *)
Definition composing A C st : Prop :=
  ∃ A0 A1 B1 C0 C1 b, A = A0 ++ A1 ∧ C = C0 ++ C1 ∧ emitted st A0 C0 ∧
    transforms (old_edits st) (length A0) b A1 B1 ∧ transforms (new_edits st) b (length C0) B1 C1.

Definition edits_left st : nat := length (old_edits st) + length (new_edits st).

Lemma emit_after st A0 C0 gap A1 C1 oe ne :
  emitted st A0 C0 → oe = length A0 + length gap + length A1 → ne = length C0 + length gap + length C1 →
  emitted (emit (catch_up st (length gap)) oe ne) (A0 ++ gap ++ A1) (C0 ++ gap ++ C1).
Proof.
  intros (Ht & Hn & Ho & Hc) -> ->. unfold emitted, emit, catch_up. simpl. rewrite Ho, Hc, !length_app.
  split_and!; [exact (push_transforms _ 0 0 A0 C0 gap A1 C1 Ht)|exact (push_normal _ 0 0 A0 C0 gap A1 C1 Ht Hn)|lia|lia].
Qed.

Lemma emit_here st A0 C0 A1 C1 oe ne :
  emitted st A0 C0 → oe = length A0 + length A1 → ne = length C0 + length C1 →
  emitted (emit st oe ne) (A0 ++ A1) (C0 ++ C1).
Proof.
  intros He -> ->. pose proof (emit_after st A0 C0 [] A1 C1 _ _ He eq_refl eq_refl) as H1.
  destruct He as (_ & _ & Ho & Hc). simpl in H1. rewrite !Nat.add_0_r in H1.
  unfold emit, catch_up in *. simpl in *. by rewrite !Nat.add_0_r in H1.
Qed.

(** An old edit that ends before the next new one. *)
Lemma push_old_step A C st e olds :
  composing A C st → old_edits st = e :: olds →
  (∀ f, head (new_edits st) = Some f → end_ (new e) ≤ start (old f)) →
  ∃ st', push_old st e olds = Some st' ∧ composing A C st' ∧ edits_left st = Datatypes.S (edits_left st').
Proof.
  intros (A0 & A1 & B1 & C0 & C1 & b & -> & -> & He & Ho & Hn) Holds Hf. rewrite Holds in Ho.
  destruct Ho as (g & Am & A2 & Bm & B2 & -> & -> & -> & Ho). rewrite (assoc_L (++)) in Hn.
  destruct (skip_old (new_edits st) b (length C0) B2 (g ++ Bm) C1 Hn) as (C2 & -> & Hn').
  { intros f Hh. specialize (Hf f Hh). simpl in Hf. rewrite length_app. lia. }
  pose proof He as (_ & _ & Hos & Hns). unfold push_old, old_len, new_len. simpl.
  rewrite Hos, sub_le by lia. simpl. rewrite !sub_le by lia. simpl.
  eexists. split; [done|]. split; [|unfold edits_left; rewrite Holds; simpl; lia].
  exists (A0 ++ g ++ Am), A2, B2, (C0 ++ g ++ Bm), C2, (b + length (g ++ Bm)).
  split_and!; [by rewrite <- !(assoc_L (++))..| | |].
  - replace (length A0 + length g - length A0) with (length g) by lia.
    apply (emit_after st A0 C0); [done|simpl; lia..].
  - simpl. rewrite !length_app, !Nat.add_assoc. done.
  - simpl. rewrite !length_app, !Nat.add_assoc in *. done.
Qed.

(** A new edit that ends before the next old one. *)
Lemma push_new_step A C st e news :
  composing A C st → new_edits st = e :: news →
  (∀ f, head (old_edits st) = Some f → end_ (old e) ≤ start (new f)) →
  ∃ st', push_new st e news = Some st' ∧ composing A C st' ∧ edits_left st = Datatypes.S (edits_left st').
Proof.
  intros (A0 & A1 & B1 & C0 & C1 & b & -> & -> & He & Ho & Hn) Hnews Hf. rewrite Hnews in Hn.
  destruct Hn as (g & Bm & B2 & Cm & C2 & -> & -> & -> & Hn). rewrite (assoc_L (++)) in Ho.
  destruct (skip_new (old_edits st) (length A0) b A1 (g ++ Bm) B2 Ho) as (A2 & -> & Ho').
  { intros f Hh. specialize (Hf f Hh). simpl in Hf. rewrite length_app. lia. }
  pose proof He as (_ & _ & Hos & Hns). unfold push_new, old_len, new_len. simpl.
  rewrite Hns, sub_le by lia. simpl. rewrite !sub_le by lia. simpl.
  eexists. split; [done|]. split; [|unfold edits_left; rewrite Hnews; simpl; lia].
  exists (A0 ++ g ++ Bm), A2, B2, (C0 ++ g ++ Cm), C2, (b + length (g ++ Bm)).
  split_and!; [by rewrite <- !(assoc_L (++))..| | |].
  - replace (length C0 + length g - length C0) with (length g) by lia.
    apply (emit_after st A0 C0); [done|simpl; lia..].
  - simpl. rewrite !length_app, !Nat.add_assoc in *. done.
  - simpl. rewrite !length_app, !Nat.add_assoc in *. done.
Qed.

(** The edits of both patches begin at the same position [b]. *)
Definition aligned A C st e olds f news : Prop :=
  ∃ A0 Am A2 Bm B2 Bo B3 C0 Cm C2 b, A = A0 ++ Am ++ A2 ∧ C = C0 ++ Cm ++ C2 ∧ emitted st A0 C0 ∧
    Bm ++ B2 = Bo ++ B3 ∧
    e = span (length A0) b 0 Am Bm ∧ f = span b (length C0) 0 Bo Cm ∧
    transforms olds (length A0 + length Am) (b + length Bm) A2 B2 ∧
    transforms news (b + length Bo) (length C0 + length Cm) B3 C2.

(** A text cut in two. *)
Lemma cut (n : nat) (l : list X) : n ≤ length l → ∃ l1 l2, l = l1 ++ l2 ∧ length l1 = n.
Proof. intros. exists (take n l), (drop n l). rewrite take_drop, length_take. split; [done|lia]. Qed.

Lemma prefix_cut (l1 l2 k1 k2 : list X) : l1 ++ l2 = k1 ++ k2 → length l1 ≤ length k1 → ∃ k, k1 = l1 ++ k ∧ l2 = k ++ k2.
Proof.
  intros Heq Hle. apply app_eq_app in Heq as (k & [[-> ->]|[-> ->]]).
  - rewrite length_app in Hle. destruct k; [|simpl in Hle; lia]. exists []. by rewrite !app_nil_r.
  - by exists k.
Qed.

Ltac positions := unfold span; simpl; rewrite ?length_app; f_equal; f_equal; lia.

(** Rewrites the positions of a patch to those of the goal. *)
Ltac shifted H :=
  match type of H with transforms _ ?x ?y _ _ =>
    match goal with |- transforms _ ?x' ?y' _ _ =>
      replace x' with x by (rewrite ?length_app; lia); replace y' with y by (rewrite ?length_app; lia); exact H
    end end.

Lemma align_step A C st e olds f news :
  composing A C st → old_edits st = e :: olds → new_edits st = f :: news →
  start (old f) ≤ end_ (new e) → start (new e) ≤ end_ (old f) →
  ∃ st' e' f', align st e f = Some (st', e', f') ∧ aligned A C st' e' olds f' news.
Proof.
  intros (A0 & A1 & B1 & C0 & C1 & b & -> & -> & He & Ho & Hn) Holds Hnews Hfe Hef. rewrite Holds in Ho. rewrite Hnews in Hn.
  destruct Ho as (g & Am & A2 & Bm & B2 & -> & -> & -> & Ho).
  destruct Hn as (h & Bo & B3 & Cm & C2 & HB & -> & -> & Hn). simpl in Hfe, Hef.
  pose proof He as (_ & _ & Hos & Hns). unfold align. rewrite ltb_nat. simpl.
  rewrite Hos, Hns. destruct (Nat.ltb_spec (b + length g) (b + length h)) as [Hlt|Hge].
  - destruct (prefix_cut g (Bm ++ B2) h (Bo ++ B3) HB) as (k & -> & HB2); [lia|]. rewrite length_app in *.
    destruct (prefix_cut k (Bo ++ B3) Bm B2) as (Bm2 & -> & HB3); [done|lia|].
    destruct (cut (Nat.min (length k) (length Am)) Am) as (Am1 & Am2 & -> & HAm); [lia|]. rewrite !length_app in *.
    rewrite !sub_le by lia. simpl. rewrite min_nat. do 3 eexists. split; [done|].
    exists (A0 ++ g ++ Am1), Am2, A2, Bm2, B2, Bo, B3, (C0 ++ g ++ k), Cm, C2, (b + length g + length k).
    split_and!; [by rewrite <- !(assoc_L (++))|by rewrite <- !(assoc_L (++))| |done|positions|positions| |].
    + replace (length A0 + length g - length A0) with (length g) by lia. apply (emit_after st A0 C0); [done|lia..].
    + shifted Ho.
    + shifted Hn.
  - destruct (prefix_cut h (Bo ++ B3) g (Bm ++ B2) (eq_sym HB)) as (k & -> & HB2); [lia|]. rewrite length_app in *.
    destruct (prefix_cut k (Bm ++ B2) Bo B3) as (Bo2 & -> & HB3); [done|lia|].
    destruct (cut (Nat.min (length k) (length Cm)) Cm) as (Cm1 & Cm2 & -> & HCm); [lia|]. rewrite !length_app in *.
    rewrite !sub_le by lia. simpl. rewrite min_nat. do 3 eexists. split; [done|].
    exists (A0 ++ h ++ k), Am, A2, Bm, B2, Bo2, B3, (C0 ++ h ++ Cm1), Cm2, C2, (b + length h + length k).
    split_and!; [by rewrite <- !(assoc_L (++))|by rewrite <- !(assoc_L (++))| |done|positions|positions| |].
    + replace (length C0 + length h - length C0) with (length h) by lia. apply (emit_after st A0 C0); [done|lia..].
    + shifted Ho.
    + shifted Hn.
Qed.

Lemma overlap_step A C st e olds f news :
  aligned A C st e olds f news →
  ∃ st', overlap st e olds f news = Some st' ∧ composing A C st' ∧
    Datatypes.S (edits_left st') = length (e :: olds) + length (f :: news).
Proof.
  intros (A0 & Am & A2 & Bm & B2 & Bo & B3 & C0 & Cm & C2 & b & -> & -> & He & HB & -> & -> & Ho & Hn).
  pose proof He as (_ & _ & Hos & Hns). unfold overlap, old_len, new_len. rewrite ltb_nat. simpl. rewrite !Nat.add_0_r, Hos, Hns.
  rewrite !sub_le by lia. simpl. destruct (Nat.ltb_spec (b + length Bo) (b + length Bm)) as [Hlt|Hge].
  - destruct (prefix_cut Bo B3 Bm B2) as (Bm2 & -> & ->); [done|lia|].
    destruct (cut (Nat.min (length Bo) (length Am)) Am) as (Am1 & Am2 & -> & HAm); [lia|]. rewrite !length_app in *.
    rewrite min_nat. eexists. split; [done|]. split; [|unfold edits_left; simpl; lia].
    exists (A0 ++ Am1), (Am2 ++ A2), (Bm2 ++ B2), (C0 ++ Cm), C2, (b + length Bo).
    split_and!; [by rewrite <- !(assoc_L (++))|by rewrite <- !(assoc_L (++))| | |shifted Hn].
    + apply (emit_here st A0 C0); [done|lia..].
    + exists [], Am2, A2, Bm2, B2. split_and!; [done|done|positions|]. simpl. shifted Ho.
  - destruct (prefix_cut Bm B2 Bo B3) as (Bo2 & -> & ->); [done|lia|].
    destruct (cut (Nat.min (length Bm) (length Cm)) Cm) as (Cm1 & Cm2 & -> & HCm); [lia|]. rewrite !length_app in *.
    rewrite min_nat. eexists. split; [done|]. split; [|unfold edits_left; simpl; lia].
    exists (A0 ++ Am), A2, (Bo2 ++ B3), (C0 ++ Cm1), (Cm2 ++ C2), (b + length Bm).
    split_and!; [by rewrite <- !(assoc_L (++))|by rewrite <- !(assoc_L (++))| |shifted Ho|].
    + apply (emit_here st A0 C0); [done|lia..].
    + exists [], Bo2, B3, Cm2, C2. split_and!; [done|done|positions|]. simpl. shifted Hn.
Qed.

Lemma compose_step_spec A C st :
  composing A C st →
  match compose_step st with
  | Some (Some st') => composing A C st' ∧ edits_left st = Datatypes.S (edits_left st')
  | Some None => transforms (composed st) 0 0 A C ∧ normal (composed st)
  | None => False
  end.
Proof.
  intros Hst. unfold compose_step.
  destruct (old_edits st) as [|e olds] eqn:Ho, (new_edits st) as [|f news] eqn:Hn.
  - destruct Hst as (A0 & A1 & B1 & C0 & C1 & b & -> & -> & (Ht & ? & _) & Ho' & Hn').
    rewrite Ho in Ho'. rewrite Hn in Hn'. simpl in Ho', Hn'. subst. split; [by apply transforms_trailing|done].
  - destruct (push_new_step A C st f news) as (st' & -> & ? & ?); [done..|by rewrite Ho|done].
  - destruct (push_old_step A C st e olds) as (st' & -> & ? & ?); [done..|by rewrite Hn|done].
  - rewrite !ltb_nat. destruct (Nat.ltb_spec (end_ (new e)) (start (old f))) as [Hlt|Hge].
    { destruct (push_old_step A C st e olds) as (st' & -> & ? & ?); [done..|rewrite Hn; intros ? [= <-]; lia|done]. }
    destruct (Nat.ltb_spec (end_ (old f)) (start (new e))) as [Hlt|Hge'].
    { destruct (push_new_step A C st f news) as (st' & -> & ? & ?); [done..|rewrite Ho; intros ? [= <-]; lia|done]. }
    destruct (align_step A C st e olds f news) as (st1 & e1 & f1 & -> & Ha); [done..|]. simpl.
    destruct (overlap_step A C st1 e1 olds f1 news Ha) as (st' & -> & ? & Hleft). split; [done|].
    simpl in Hleft. unfold edits_left in *. rewrite Ho, Hn. simpl. lia.
Qed.

Lemma compose_loop_spec fuel : ∀ A C st,
  composing A C st → edits_left st < fuel →
  ∃ r, compose_loop fuel st = Some r ∧ transforms r 0 0 A C ∧ normal r.
Proof.
  induction fuel as [|fuel IH]; intros A C st Hst Hf; [lia|]. simpl.
  pose proof (compose_step_spec A C st Hst) as Hstep. destruct (compose_step st) as [[st'|]|]; simpl; [|by eexists|done].
  destruct Hstep as [Hst' Hleft]. apply IH; [done|lia].
Qed.

Lemma compose_transforms A B C p q :
  transforms p 0 0 A B → transforms q 0 0 B C →
  ∃ r, compose p q = Some r ∧ transforms r 0 0 A C ∧ normal r.
Proof.
  intros Hp Hq. apply compose_loop_spec; [|unfold edits_left; simpl; lia].
  exists [], A, B, [], C, 0. split; [done|]. split; [done|]. split; [|by split].
  by repeat split; constructor.
Qed.
End compose.

(** ** Positions *)

Section positions.
Context {X : Type}.
Implicit Types (A C gap : list X) (p : Patch nat) (e f : Edit nat).

(** The new position of an old one that lies at or behind the end of [e]. *)
Definition behind e (i : nat) : nat := end_ (new e) + (i - end_ (old e)).

(** The edit [e] before the position [i], and the text behind it. *)
Definition found_at p (o n : nat) A C (i : nat) e : Prop :=
  e ∈ p ∧ start (old e) ≤ i ∧
  (∀ f, f ∈ p → f = e ∨ (end_ (old f) < start (old e) ∧ end_ (new f) < start (new e)) ∨
     (i < start (old f) ∧ end_ (new e) < start (new f))) ∧
  (end_ (old e) ≤ i → A !! (i - o) = C !! (behind e i - n) ∧ n ≤ behind e i ≤ n + length C ∧
     ∀ f, f ∈ p → i < start (old f) → behind e i ≤ start (new f)).

Lemma edit_before_spec p : ∀ o n A C i found,
  transforms p o n A C → normal p → o ≤ i ≤ o + length A →
  (edit_before p i found = found ∧ (∀ e, e ∈ p → i < start (old e) ∧ n + (i - o) ≤ start (new e)) ∧
     A !! (i - o) = C !! (i - o) ∧ i - o ≤ length C) ∨
  (∃ e, edit_before p i found = Some e ∧ found_at p o n A C i e).
Proof.
  induction p as [|e p IH]; intros o n A C i found Hp Hn Hi; simpl.
  { simpl in Hp. subst C. left. split_and!; [done|by intros e ?%elem_of_nil|done|lia]. }
  destruct Hp as (g & A1 & A2 & C1 & C2 & -> & -> & He & Hp), Hn as [Hne Hs].
  apply Forall_cons in Hne as [_ Hne]. apply StronglySorted_inv in Hs as [Hs He_lt].
  assert (∀ f, f ∈ p → end_ (old e) < start (old f) ∧ end_ (new e) < start (new f)) as Hlater
    by (by apply Forall_forall).
  assert (start (old e) = o + length g ∧ end_ (old e) = o + length g + length A1 ∧
    start (new e) = n + length g ∧ end_ (new e) = n + length g + length C1) as (Hos & Hoe & Hns & Hnew) by (by subst e).
  rewrite !length_app in Hi. unfold cmp, ord_nat. destruct (Nat.lt_ge_cases i (start (old e))) as [Hlt|Hge].
  { left. rewrite (proj2 (Nat.compare_gt_iff _ _)) by done.
    assert (i - o < length g) as Hg by lia. rewrite !length_app, !lookup_app_l by done.
    split_and!; [done| |done|lia]. intros f [->|Hf]%elem_of_cons; [lia|]. specialize (Hlater f Hf). lia. }
  right. destruct (Nat.lt_ge_cases i (end_ (old e))) as [Hin|Hout].
  { exists e. split.
    - destruct (Nat.compare_spec (start (old e)) i) as [|_|]; [done| |lia].
      destruct p as [|f p]; [done|]. simpl. specialize (Hlater f (list_elem_of_here _ _)).
      unfold cmp, ord_nat. by rewrite (proj2 (Nat.compare_gt_iff _ _)) by lia.
    - split_and!; [by left|done| |lia]. intros f [->|Hf]%elem_of_cons; [by left|]. specialize (Hlater f Hf).
      right; right. lia. }
  destruct (IH _ _ A2 C2 i (Some e) Hp (conj Hne Hs)) as [(Heq & Hall & Hlook & Hlen)|(f & Heq & Hfound)]; [lia| |].
  - exists e. split; [by destruct (Nat.compare_spec (start (old e)) i); [| |lia]|].
    assert (∀ f, f ∈ p → behind e i ≤ start (new f)) as Hbehind.
    { intros f Hf. destruct (Hall f Hf). unfold behind. lia. }
    split_and!; [by left|done| |].
    + intros f [->|Hf]%elem_of_cons; [by left|]. right; right. split; [by apply Hall|by apply Hlater].
    + intros _. unfold behind in *. rewrite Hoe, Hnew in *. rewrite !length_app. split_and!; [|lia|lia|].
      * rewrite !(lookup_app_r g) by lia. rewrite (lookup_app_r A1), (lookup_app_r C1) by lia.
        replace (i - o - length g - length A1) with (i - (o + length g + length A1)) by lia. rewrite Hlook. f_equal. lia.
      * intros f [->|Hf]%elem_of_cons; [lia|]. intros _. by apply Hbehind.
  - destruct Hfound as (Hf & Hfi & Hothers & Hgap). destruct (Hlater f Hf) as [Hef Hef'].
    exists f. split; [by rewrite (proj2 (Nat.compare_lt_iff _ _)) by lia|].
    split_and!; [by right|done| |].
    + intros f' [->|Hf']%elem_of_cons; [right; left; done|by apply Hothers].
    + intros Hend. destruct (Hgap Hend) as (Hlook & [Hb1 Hb2] & Hnext). rewrite !length_app.
      split_and!; [|lia|lia|].
      * rewrite !(lookup_app_r g) by lia. rewrite (lookup_app_r A1), (lookup_app_r C1) by lia.
        replace (i - o - length g - length A1) with (i - (o + length g + length A1)) by lia. rewrite Hlook. f_equal. lia.
      * intros f' [->|Hf']%elem_of_cons; [lia|]. by apply Hnext.
Qed.
End positions.

(** The position [j] that [old_to_new] answers for [i], by the edit before it. *)
Definition translated (found : option (Edit nat)) (i : nat) : nat :=
  match found with
  | None => i
  | Some e => if end_ (old e) <=? i then behind e i else start (new e)
  end.

Lemma old_to_new_translated p i : old_to_new p i = Some (translated (edit_before p i None) i).
Proof.
  unfold old_to_new, translated, behind. destruct (edit_before p i None) as [e|]; [|done].
  rewrite leb_nat. destruct (Nat.leb_spec (end_ (old e)) i); [|done]. by rewrite sub_le.
Qed.

Lemma translated_le {X} (p : Patch nat) (A C : list X) i i' :
  transforms p 0 0 A C → normal p → i ≤ i' → i' ≤ length A →
  translated (edit_before p i None) i ≤ translated (edit_before p i' None) i'.
Proof.
  intros Hp Hn Hii Hi'. pose proof (transforms_bounds _ _ _ _ _ Hp) as Hb. rewrite Forall_forall in Hb.
  pose proof (edit_before_spec p 0 0 A C i None Hp Hn ltac:(lia)) as Hi.
  pose proof (edit_before_spec p 0 0 A C i' None Hp Hn ltac:(lia)) as Hi2.
  destruct Hi as [(-> & Hall & _)|(e & -> & He & Hei & Ho & Hg)],
    Hi2 as [(-> & Hall' & _)|(e' & -> & He' & Hei' & Ho' & Hg')]; simpl.
  - done.
  - destruct (Hall e' He') as [_ Hle]. specialize (Hb e' He').
    destruct (Nat.leb_spec (end_ (old e')) i'); unfold behind; lia.
  - destruct (Hall' e He). lia.
  - pose proof (Hb e He) as Hbe. pose proof (Hb e' He') as Hbe'. destruct (Ho e' He') as [->|[[Hlt _]|[Hlt Hlt']]].
    + unfold behind. destruct (Nat.leb_spec (end_ (old e)) i), (Nat.leb_spec (end_ (old e)) i'); lia.
    + destruct (Ho' e He) as [->|[[? _]|[? _]]]; lia.
    + assert (start (new e') ≤ if end_ (old e') <=? i' then behind e' i' else start (new e')).
      { unfold behind. destruct (Nat.leb_spec (end_ (old e')) i'); lia. }
      destruct (Nat.leb_spec (end_ (old e)) i) as [Hle|]; [|lia].
      destruct (Hg Hle) as (_ & _ & Hnext). specialize (Hnext e' He' Hlt). lia.
Qed.

(** ** Properties *)

(** C19: composing a patch from [A] to [B] with a patch from [B] to [C] ends, never
    subtracts a larger position from a smaller one, and is a patch from [A] to [C]
    in normal form: no empty edit, and unchanged text between any two. *)
Theorem patch_compose {X} (A B C : list X) (p q : Patch nat) :
  transforms p 0 0 A B → transforms q 0 0 B C →
  ∃ r, compose p q = Some r ∧ transforms r 0 0 A C ∧ transforms (invert r) 0 0 C A ∧ normal r.
Proof.
  intros Hp Hq. destruct (compose_transforms A B C p q Hp Hq) as (r & ? & Hr & ?).
  exists r. split_and!; [done|done|by apply invert_transforms|done].
Qed.

(** Pushing an edit that replaces [A1] by [C1], [gap] behind the ends of the
    texts, extends the patch to them and keeps its normal form; touching edits
    are joined and an empty edit leaves the patch as it was. *)
Theorem patch_push {X} (A C gap A1 C1 : list X) (p : Patch nat) :
  transforms p 0 0 A C → normal p →
  let e := mk_edit (mk_range (length (A ++ gap)) (length (A ++ gap ++ A1)))
                   (mk_range (length (C ++ gap)) (length (C ++ gap ++ C1))) in
  transforms (push p e) 0 0 (A ++ gap ++ A1) (C ++ gap ++ C1) ∧ normal (push p e) ∧
  (A1 = [] → C1 = [] → push p e = p) ∧ length (push p e) ≤ Datatypes.S (length p).
Proof.
  intros Hp Hn e. assert (e = span (0 + length A) (0 + length C) (length gap) A1 C1) as ->.
  { unfold e, span. rewrite !length_app. f_equal; f_equal; simpl; lia. }
  split_and!; [by apply push_transforms|by apply push_normal| |].
  - intros -> ->. unfold push. by rewrite span_empty.
  - unfold push. destruct (edit_is_empty _); [lia|]. clear. generalize (span (0 + length A) (0 + length C) (length gap) A1 C1).
    intros e. induction p as [|f [|f' p] IH]; simpl in *; [lia| |lia]. unfold merge_last. destruct (leb_ord _ _); simpl; lia.
Qed.

(** [old_to_new] is total on the positions of the old text, monotone, and
    maps a position outside the edits to the same item of the new text and one
    inside an edit to the start of its replacement; [edit_for_old_position]
    answers the edit that touches the position, and otherwise the empty edit
    between the position and its translation. *)
Theorem patch_positions {X} (A C : list X) (p : Patch nat) (i : nat) :
  transforms p 0 0 A C → normal p → i ≤ length A →
  ∃ j, old_to_new p i = Some j ∧ j ≤ length C ∧
    ((∃ e, e ∈ p ∧ start (old e) ≤ i < end_ (old e) ∧ j = start (new e)) ∨
     ((∀ e, e ∈ p → ¬ start (old e) ≤ i < end_ (old e)) ∧ A !! i = C !! j)) ∧
    (∀ i', i ≤ i' ≤ length A → ∃ j', old_to_new p i' = Some j' ∧ j ≤ j') ∧
    ∃ e, edit_for_old_position p i = Some e ∧ start (old e) ≤ i ≤ end_ (old e) ∧
      (e ∈ p ∨ e = mk_edit (mk_range i i) (mk_range j j) ∧
               ∀ f, f ∈ p → ¬ start (old f) ≤ i ≤ end_ (old f)).
Proof.
  intros Hp Hn Hi. pose proof (transforms_bounds _ _ _ _ _ Hp) as Hb. rewrite Forall_forall in Hb.
  assert (∀ i', i ≤ i' ≤ length A → ∃ j', old_to_new p i' = Some j' ∧ translated (edit_before p i None) i ≤ j') as Hmono.
  { intros i' Hi'. eexists. split; [apply old_to_new_translated|]. eapply translated_le; [done|done|lia|lia]. }
  eexists. split; [apply old_to_new_translated|]. unfold edit_for_old_position.
  destruct (edit_before_spec p 0 0 A C i None Hp Hn) as [(Heq & Hall & Hl & Hlen)|(e & Heq & He & Hei & Ho & Hg)];
    [lia| |]; rewrite Heq in *; simpl translated in *.
  - rewrite !Nat.sub_0_r in *. split_and!; [lia| |done|].
    + right. split; [|done]. intros e He. destruct (Hall e He). lia.
    + eexists. split; [done|]. simpl. split; [lia|]. right. split; [done|]. intros f Hf. destruct (Hall f Hf). lia.
  - pose proof (Hb e He) as Hbe. rewrite ltb_nat. destruct (Nat.leb_spec (end_ (old e)) i) as [Hle|Hlt].
    + destruct (Hg Hle) as (Hl & Hbound & _). rewrite !Nat.sub_0_r in Hl. split_and!; [lia| |done|].
      * right. split; [|done]. intros f Hf. destruct (Ho f Hf) as [->|[[? _]|[? _]]]; [lia| |lia].
        specialize (Hb f Hf). lia.
      * destruct (Nat.ltb_spec (end_ (old e)) i); [|eexists; split; [done|]; split; [lia|by left]].
        rewrite sub_le by lia. simpl. eexists. split; [done|]. simpl. split; [lia|]. right. split; [done|].
        intros f Hf. destruct (Ho f Hf) as [->|[[? _]|[? _]]]; lia.
    + split_and!; [lia|left; by exists e|done|]. destruct (Nat.ltb_spec (end_ (old e)) i); [lia|].
      exists e. split; [done|]. split; [lia|by left].
Qed.

(** ** Witnesses *)

Definition insert_b : Edit nat := mk_edit (mk_range 1 1) (mk_range 1 2).
Definition replace_bc : Edit nat := mk_edit (mk_range 1 3) (mk_range 1 2).

Lemma patch_compose_witness :
  transforms [insert_b] 0 0 ["a"; "c"]%char ["a"; "b"; "c"]%char ∧
  ∃ r, compose [insert_b] [replace_bc] = Some r ∧ transforms r 0 0 ["a"; "c"]%char ["a"; "x"]%char.
Proof.
  assert (transforms [insert_b] 0 0 ["a"; "c"]%char ["a"; "b"; "c"]%char) as Hp.
  { by exists ["a"%char], [], ["c"%char], ["b"%char], ["c"%char]. }
  assert (transforms [replace_bc] 0 0 ["a"; "b"; "c"]%char ["a"; "x"]%char) as Hq.
  { by exists ["a"%char], ["b"; "c"]%char, [], ["x"%char], []. }
  split; [done|]. destruct (patch_compose _ _ _ _ _ Hp Hq) as (r & ? & ? & _). by exists r.
Defined.

Lemma patch_push_witness :
  normal (push [insert_b] (mk_edit (mk_range 3 4) (mk_range 4 4))).
Proof.
  apply (patch_push ["a"; "c"]%char ["a"; "b"; "c"]%char ["d"%char] ["e"%char] [] [insert_b]).
  - by exists ["a"%char], [], ["c"%char], ["b"%char], ["c"%char].
  - split; repeat constructor.
Defined.

Lemma patch_positions_witness : ∃ j, old_to_new [insert_b] 1 = Some j ∧ j ≤ 3.
Proof.
  destruct (patch_positions ["a"; "c"]%char ["a"; "b"; "c"]%char [insert_b] 1) as (j & Hj & Hle & _).
  - by exists ["a"%char], [], ["c"%char], ["b"%char], ["c"%char].
  - split; repeat constructor.
  - simpl. lia.
  - by exists j.
Defined.
