(* ===== verification/Subscription.v ===== *)
(** * Subscription: patches accumulated for observers

    Models [crates/text/src/subscription.rs].  A subscription is a shared cell
    ([Arc<Mutex<Patch>>]) that its topic holds weakly: the cells that still have
    an owner are a finite map from addresses to patches, the topic a list of
    addresses, and [upgrade] a lookup.  Each method holds the lock it takes until
    it returns, so a step is atomic. *)

From Stdlib Require Import Ascii.
From stdpp Require Import gmap.
From S2P Require Import Prelude Patch PatchFacts PatchTheorems.
#[local] Open Scope nat_scope.

Section topic.
Context {T D : Type} `{!Coord T D, !Ord T, !Ord D}.

(** The live cells and the next address, and the topic's weak references. *)
Record Topic : Type := mk_topic {
  cells : gmap nat (Patch T);
  next_address : nat;
  subscriptions : list nat
}.

Definition topic_default : Topic := mk_topic ∅ 0 [].

(** A new cell with an owner. *)
Definition subscribe (t : Topic) : Topic * nat :=
  (mk_topic (<[next_address t := []]> (cells t)) (Datatypes.S (next_address t))
     (subscriptions t ++ [next_address t]), next_address t).

(** The [retain] of [publish]: a dead reference goes, a live one composes. *)
Fixpoint retain_live (edits : list (Edit T)) (refs : list nat) (cells : gmap nat (Patch T)) :
    option (gmap nat (Patch T) * list nat) :=
  match refs with
  | [] => Some (cells, [])
  | address :: refs =>
      match cells !! address with
      | Some patch =>
          patch ← compose patch edits;
          '(cells, kept) ← retain_live edits refs (<[address := patch]> cells);
          Some (cells, address :: kept)
      | None => retain_live edits refs cells
      end
  end.

Definition publish (t : Topic) (edits : list (Edit T)) : option Topic :=
  '(cells, kept) ← retain_live edits (subscriptions t) (cells t);
  Some (mk_topic cells (next_address t) kept).

(** [mem::take] of the cell of a live subscription. *)
Definition consume (t : Topic) (address : nat) : option (Topic * Patch T) :=
  patch ← cells t !! address;
  Some (mk_topic (<[address := []]> (cells t)) (next_address t) (subscriptions t), patch).

(** The owner goes out of scope. *)
Definition drop_subscription (t : Topic) (address : nat) : Topic :=
  mk_topic (delete address (cells t)) (next_address t) (subscriptions t).
End topic.
Arguments Topic : clear implicits.

(** ** A buffer and its subscribers over time *)

Section tracking.
Context {X : Type}.
Implicit Types (t : Topic nat) (text : list X).

Inductive event : Type :=
  | Subscribe
  | Publish (edits : list (Edit nat)) (text' : list X)
  | Consume (address : nat)
  | Drop (address : nat).

(** The topic, the buffer's text, and what each live subscriber saw last. *)
Record world : Type := mk_world { topic : Topic nat; text : list X; seen : gmap nat (list X) }.

Definition world_init (text : list X) : world := mk_world topic_default text ∅.

(** The buffer publishes the edits it made; only a live subscriber consumes. *)
Definition step (w : world) (ev : event) : option world :=
  match ev with
  | Subscribe =>
      let '(t, address) := subscribe (topic w) in
      Some (mk_world t (text w) (<[address := text w]> (seen w)))
  | Publish edits text' => t ← publish (topic w) edits; Some (mk_world t text' (seen w))
  | Consume address =>
      '(t, _) ← consume (topic w) address; Some (mk_world t (text w) (<[address := text w]> (seen w)))
  | Drop address => Some (mk_world (drop_subscription (topic w) address) (text w) (delete address (seen w)))
  end.

Definition allowed (w : world) (ev : event) : Prop :=
  match ev with
  | Publish edits text' => transforms edits 0 0 (text w) text'
  | Consume address => is_Some (seen w !! address)
  | _ => True
  end.

Fixpoint run (w : world) (evs : list event) : option world :=
  match evs with [] => Some w | ev :: evs => w ← step w ev; run w evs end.

Fixpoint all_allowed (w : world) (evs : list event) : Prop :=
  match evs with
  | [] => True
  | ev :: evs => allowed w ev ∧ ∀ w', step w ev = Some w' → all_allowed w' evs
  end.

(** The patch of a cell leads from what its subscriber saw to the text. *)
Definition tracked (seen : gmap nat (list X)) text (cells : gmap nat (Patch nat)) (address : nat) : Prop :=
  match seen !! address, cells !! address with
  | Some before, Some patch => transforms patch 0 0 before text ∧ normal patch
  | None, None => True
  | _, _ => False
  end.

Record tracks (w : world) : Prop := {
  tracks_cells address : tracked (seen w) (text w) (cells (topic w)) address;
  tracks_refs address : is_Some (cells (topic w) !! address) → address ∈ subscriptions (topic w);
  tracks_nodup : NoDup (subscriptions (topic w));
  tracks_next address : address ∈ subscriptions (topic w) → address < next_address (topic w)
}.

Lemma normal_nil : normal [].
Proof. split; constructor. Qed.

Lemma filter_ext_in (P Q : nat → Prop) `{!∀ a, Decision (P a), !∀ a, Decision (Q a)} (l : list nat) :
  (∀ a, a ∈ l → P a ↔ Q a) → filter P l = filter Q l.
Proof.
  induction l as [|a l IH]; intros Hl; [done|]. rewrite !filter_cons, IH by (intros b Hb; apply Hl; by right).
  pose proof (Hl a (list_elem_of_here _ _)). by repeat case_decide; try tauto.
Qed.

Lemma retain_live_spec (edits : list (Edit nat)) (seen : gmap nat (list X)) text text' refs : ∀ cells,
  transforms edits 0 0 text text' → NoDup refs →
  (∀ address, if decide (address ∈ refs) then tracked seen text cells address
              else tracked seen text' cells address) →
  ∃ cells' kept, retain_live edits refs cells = Some (cells', kept) ∧
    (∀ address, tracked seen text' cells' address) ∧
    kept = filter (λ address, is_Some (cells !! address)) refs ∧
    (∀ address, is_Some (cells' !! address) ↔ is_Some (cells !! address)).
Proof.
  induction refs as [|a refs IH]; intros cells He Hnd Htr; simpl.
  { by exists cells, []. }
  apply NoDup_cons in Hnd as [Ha Hnd]. pose proof (Htr a) as Hta. rewrite decide_True in Hta; [|apply list_elem_of_here].
  rewrite filter_cons. destruct (cells !! a) as [patch|] eqn:Hcell.
  - unfold tracked in Hta. rewrite Hcell in Hta. destruct (seen !! a) as [before|] eqn:Hseen; [|done].
    destruct Hta as [Hpatch _]. destruct (compose_transforms _ _ _ _ _ Hpatch He) as (r & -> & Hr & Hn). simpl.
    destruct (IH (<[a := r]> cells) He Hnd) as (cells' & kept & -> & Htr' & -> & Hdom).
    { intros address. destruct (decide (address = a)) as [->|Hne].
      - rewrite decide_False by done. unfold tracked. by rewrite Hseen, lookup_insert_eq.
      - specialize (Htr address). unfold tracked. rewrite lookup_insert_ne by done.
        destruct (decide (address ∈ refs)).
        + by rewrite decide_True in Htr by (by right).
        + rewrite decide_False in Htr; [done|]. by intros [->|?]%elem_of_cons. }
    simpl. exists cells', (a :: filter (λ address, is_Some (cells !! address)) refs). split_and!; [|done| |].
    + do 3 f_equal. apply filter_ext_in. intros b Hb. rewrite lookup_insert_ne by (intros <-; done). done.
    + done.
    + intros address. rewrite Hdom. destruct (decide (address = a)) as [->|]; [|by rewrite lookup_insert_ne].
      rewrite lookup_insert_eq, Hcell. split; eauto.
  - destruct (IH cells He Hnd) as (cells' & kept & -> & Htr' & -> & Hdom).
    { intros address. specialize (Htr address). destruct (decide (address ∈ refs)) as [Hin|Hout].
      - by rewrite decide_True in Htr by (by right).
      - destruct (decide (address = a)) as [->|Hne].
        + unfold tracked in *. rewrite Hcell in *. by destruct (seen !! a).
        + rewrite decide_False in Htr; [done|]. by intros [->|?]%elem_of_cons. }
    eexists cells', _. split_and!; [done|done| |done]. rewrite decide_False; [done|]. by intros [? ?].
Qed.

Lemma tracks_init text : tracks (world_init text).
Proof. split; simpl; [done|by intros ? [? ?]|constructor|by intros ? ?%elem_of_nil]. Qed.

Lemma tracked_dom (w : world) address :
  tracks w → is_Some (seen w !! address) ↔ is_Some (cells (topic w) !! address).
Proof.
  intros [Htr _ _ _]. specialize (Htr address). unfold tracked in Htr.
  destruct (seen w !! address), (cells (topic w) !! address); try done; split; eauto.
Qed.

(** A cell whose subscriber has seen the text: just subscribed, or just consumed. *)
Lemma tracked_fresh (w : world) fresh :
  tracks w → ∀ address, tracked (<[fresh := text w]> (seen w)) (text w) (<[fresh := []]> (cells (topic w))) address.
Proof.
  intros [Htr _ _ _] address. unfold tracked. destruct (decide (address = fresh)) as [->|Hne].
  - rewrite !lookup_insert_eq. split; [done|apply normal_nil].
  - rewrite !lookup_insert_ne by done. apply Htr.
Qed.

Lemma step_tracks (w : world) ev : tracks w → allowed w ev → ∃ w', step w ev = Some w' ∧ tracks w'.
Proof.
  intros Hw Hal. pose proof Hw as [Htr Hrefs Hnd Hnext]. destruct ev as [|edits text'|a|a]; simpl in *.
  - eexists. split; [done|]. split; simpl.
    + by apply tracked_fresh.
    + intros b Hb. apply elem_of_app. destruct (decide (b = next_address (topic w))) as [->|]; [right; by left|left].
      rewrite lookup_insert_ne in Hb by done. by apply Hrefs.
    + apply NoDup_app. split_and!; [done| |apply NoDup_singleton].
      intros b Hb Heq%list_elem_of_singleton. specialize (Hnext _ Hb). lia.
    + intros b [Hb|Hb%list_elem_of_singleton]%elem_of_app; [specialize (Hnext b Hb)|]; lia.
  - unfold publish. destruct (retain_live_spec edits (seen w) (text w) text' (subscriptions (topic w)) (cells (topic w)))
      as (cells' & kept & -> & Htr' & -> & Hdom); [done|done| |].
    { intros b. specialize (Htr b). case_decide as Hb; [done|]. unfold tracked in *.
      destruct (cells (topic w) !! b) eqn:Hc; [destruct Hb; apply Hrefs; by rewrite Hc|by destruct (seen w !! b)]. }
    simpl. eexists. split; [done|]. split; simpl; [done| | |].
    + intros b Hb%Hdom. apply list_elem_of_filter. auto.
    + by apply NoDup_filter.
    + intros b [_ Hb]%list_elem_of_filter. by apply Hnext.
  - apply (tracked_dom w a Hw) in Hal as [patch Hp]. unfold consume. rewrite Hp. simpl.
    eexists. split; [done|]. split; simpl; [by apply tracked_fresh| |done|done].
    intros b Hb. destruct (decide (b = a)) as [->|]; [by apply Hrefs|].
    rewrite lookup_insert_ne in Hb by done. by apply Hrefs.
  - eexists. split; [done|]. split; simpl; [| |done|done].
    + intros b. unfold tracked. destruct (decide (b = a)) as [->|]; [by rewrite !lookup_delete_eq|].
      rewrite !lookup_delete_ne by done. apply Htr.
    + intros b Hb. apply Hrefs. destruct (decide (b = a)) as [->|]; [by rewrite lookup_delete_eq in Hb; destruct Hb|].
      by rewrite lookup_delete_ne in Hb by done.
Qed.

Lemma run_tracks evs : ∀ w : world, tracks w → all_allowed w evs → ∃ w', run w evs = Some w' ∧ tracks w'.
Proof.
  induction evs as [|ev evs IH]; intros w Hw Hal; simpl; [by eexists|]. destruct Hal as [Hev Hevs].
  destruct (step_tracks w ev Hw Hev) as (w' & Hs & Hw'). rewrite Hs. simpl. by apply IH; [|apply Hevs].
Qed.
End tracking.

(** ** Property *)

(** Whatever is subscribed, published, consumed and dropped in any order, no
    step gets stuck, and what a live subscriber consumes is a patch in normal form
    from the text it saw last (when it subscribed or last consumed) to the current
    text; a dropped one has nothing to consume, and after a publication the topic
    refers to the live subscribers only. *)
Theorem subscription_tracks {X} (text0 : list X) (evs : list event) :
  all_allowed (world_init text0) evs →
  ∃ w, run (world_init text0) evs = Some w ∧
    (∀ address before, seen w !! address = Some before →
       ∃ t patch, consume (topic w) address = Some (t, patch) ∧
         transforms patch 0 0 before (text w) ∧ normal patch ∧ cells t !! address = Some []) ∧
    (∀ address, seen w !! address = None → consume (topic w) address = None) ∧
    (∀ edits text', transforms edits 0 0 (text w) text' →
       ∃ t, publish (topic w) edits = Some t ∧ ∀ address, address ∈ subscriptions t ↔ is_Some (seen w !! address)).
Proof.
  intros Hal. destruct (run_tracks evs _ (tracks_init text0) Hal) as (w & Hrun & Hw). exists w.
  pose proof Hw as [Htr Hrefs Hnd Hnext]. split_and!; [done| | |].
  - intros address before Hb. specialize (Htr address). unfold tracked in Htr. rewrite Hb in Htr.
    unfold consume. destruct (cells (topic w) !! address) as [patch|]; [|done]. simpl.
    eexists _, patch. split_and!; [done|apply Htr|apply Htr|apply lookup_insert_eq].
  - intros address Hb. specialize (Htr address). unfold tracked in Htr. rewrite Hb in Htr.
    unfold consume. by destruct (cells (topic w) !! address).
  - intros edits text' He. unfold publish.
    destruct (retain_live_spec edits (seen w) (text w) text' (subscriptions (topic w)) (cells (topic w)))
      as (cells' & kept & -> & _ & -> & _); [done|done| |].
    { intros b. specialize (Htr b). case_decide as Hb; [done|]. unfold tracked in *.
      destruct (cells (topic w) !! b) eqn:Hc; [destruct Hb; apply Hrefs; by rewrite Hc|by destruct (seen w !! b)]. }
    simpl. eexists. split; [done|]. intros address. rewrite (tracked_dom w address Hw). split.
    + by intros [? _]%list_elem_of_filter.
    + intros Ha. apply list_elem_of_filter. auto.
Qed.

Lemma subscription_tracks_witness :
  ∃ w, run (world_init ["a"; "c"]%char)
         [Subscribe; Publish [insert_b] ["a"; "b"; "c"]%char; Publish [replace_bc] ["a"; "x"]%char] = Some w ∧
    consume (topic w) 0 ≠ None.
Proof.
  destruct (subscription_tracks ["a"; "c"]%char
    [Subscribe; Publish [insert_b] ["a"; "b"; "c"]%char; Publish [replace_bc] ["a"; "x"]%char]) as (w & Hw & Hlive & _).
  - split; [done|]. intros w1 [= <-]. split.
    { by exists ["a"%char], [], ["c"%char], ["b"%char], ["c"%char]. }
    intros w2 Hw2. vm_compute in Hw2. injection Hw2 as <-. split; [|by intros ? _].
    by exists ["a"%char], ["b"; "c"]%char, [], ["x"%char], [].
  - exists w. split; [done|]. vm_compute in Hw. injection Hw as <-.
    destruct (Hlive 0 ["a"; "c"]%char) as (t & patch & -> & _); [reflexivity|done].
Defined.
