(* ===== verification/Selection.v ===== *)
(** * Selection: a range with a moving head

    Models [crates/text/src/selection.rs]; the floating point numbers of a goal
    are only stored and are a parameter. *)

From S2P Require Import Prelude Patch.
#[local] Open Scope nat_scope.

Inductive SelectionGoal (F : Type) : Type :=
  | NoGoal
  | HorizontalPosition (x : F)
  | HorizontalRange (from to : F)
  | WrappedHorizontalPosition (row : N) (x : F).
Arguments NoGoal {F}. Arguments HorizontalPosition {F}. Arguments HorizontalRange {F}.
Arguments WrappedHorizontalPosition {F}.

Record Selection (T F : Type) : Type := mk_selection {
  id : nat;
  sel_start : T;
  sel_end : T;
  reversed : bool;
  goal : SelectionGoal F
}.
Arguments mk_selection {T F}. Arguments id {T F}. Arguments sel_start {T F}. Arguments sel_end {T F}.
Arguments reversed {T F}. Arguments goal {T F}.

Section selection.
Context {T F : Type} `{OrdLaws T}.
Implicit Types (s : Selection T F) (g : SelectionGoal F).

Definition head s : T := if reversed s then sel_start s else sel_end s.
Definition tail s : T := if reversed s then sel_end s else sel_start s.

Definition map_selection {U} (f : T → U) s : Selection U F :=
  mk_selection (id s) (f (sel_start s)) (f (sel_end s)) (reversed s) (goal s).

Definition collapse_to s (point : T) g : Selection T F := mk_selection (id s) point point false g.

Definition selection_is_empty s : bool := eqb_ord (sel_start s) (sel_end s).

Definition set_head s (h : T) g : Selection T F :=
  if ltb_ord h (tail s) then
    mk_selection (id s) h (if negb (reversed s) then sel_start s else sel_end s) true g
  else
    mk_selection (id s) (if reversed s then sel_end s else sel_start s) h false g.

Definition set_tail s (t : T) g : Selection T F :=
  if leb_ord t (head s) then
    mk_selection (id s) t (if reversed s then sel_start s else sel_end s) false g
  else
    mk_selection (id s) (if negb (reversed s) then sel_end s else sel_start s) t true g.

Definition set_head_tail s (h t : T) g : Selection T F :=
  if ltb_ord h t then mk_selection (id s) h t true g else mk_selection (id s) t h false g.

Definition swap_head_tail s : Selection T F :=
  if reversed s then mk_selection (id s) (sel_start s) (sel_end s) false (goal s)
  else mk_selection (id s) (sel_end s) (sel_start s) false (goal s).

Definition range s : Range T := mk_range (sel_start s) (sel_end s).

Definition equals s (r : Range T) : bool :=
  eqb_ord (sel_start s) (start r) && eqb_ord (sel_end s) (end_ r).

(** The invariant of a selection. *)
Definition ordered s : Prop := sel_start s ≼ sel_end s.

Lemma not_ltb (x y : T) : ltb_ord x y = false ↔ y ≼ x.
Proof. rewrite <- not_olt, <- ltb_ord_spec. by destruct (ltb_ord x y). Qed.

Lemma not_leb (x y : T) : leb_ord x y = false ↔ y ≺ x.
Proof. rewrite <- not_ole, <- leb_ord_spec. by destruct (leb_ord x y). Qed.
End selection.

Section len.
Context {T D F : Type} `{!Coord T D}.

Definition selection_len (s : Selection T F) : option D := coord_sub (sel_end s) (sel_start s).
End len.

(** Moving the head of a selection puts it where asked and keeps the tail,
    moving the tail keeps the head, and both, like [set_head_tail] and
    [collapse_to], leave the start at or before the end. *)
Theorem selection_moves {T F} `{OrdLaws T} (s : Selection T F) (h t : T) g :
  (head (set_head s h g) = h ∧ tail (set_head s h g) = tail s ∧ ordered (set_head s h g)) ∧
  (tail (set_tail s t g) = t ∧ head (set_tail s t g) = head s ∧ ordered (set_tail s t g)) ∧
  (head (set_head_tail s h t g) = h ∧ tail (set_head_tail s h t g) = t ∧ ordered (set_head_tail s h t g)) ∧
  (head (collapse_to s h g) = h ∧ tail (collapse_to s h g) = h ∧ ordered (collapse_to s h g)).
Proof.
  split; [|split; [|split]].
  - unfold set_head. destruct (ltb_ord h (tail s)) eqn:E; [apply ltb_ord_spec, olt_le in E|apply not_ltb in E];
      unfold head, tail, ordered in *; simpl; by destruct (reversed s).
  - unfold set_tail. destruct (leb_ord t (head s)) eqn:E; [apply leb_ord_spec in E|apply not_leb, olt_le in E];
      unfold head, tail, ordered in *; simpl; by destruct (reversed s).
  - unfold set_head_tail. destruct (ltb_ord h t) eqn:E; [apply ltb_ord_spec, olt_le in E|apply not_ltb in E];
      unfold head, tail, ordered in *; simpl; by destruct (reversed s).
  - split_and!; [done|done|apply ole_refl].
Qed.

(** [swap_head_tail] exchanges head and tail, but of the selections that are in
    order only a reversed or an empty one stays so: otherwise the start comes to
    lie behind the end. *)
Theorem selection_swap {T F} `{OrdLaws T} (s : Selection T F) :
  head (swap_head_tail s) = tail s ∧ tail (swap_head_tail s) = head s ∧
  (ordered s → ordered (swap_head_tail s) ↔ reversed s = true ∨ sel_start s = sel_end s).
Proof.
  unfold swap_head_tail, head, tail, ordered. destruct (reversed s); simpl; split_and!; try done.
  - naive_solver.
  - intros Hs. split; [intros He; right; by apply ole_antisym|]. intros [?|Heq]; [done|rewrite Heq; apply ole_refl].
Qed.

Lemma selection_swap_witness :
  ¬ ordered (swap_head_tail (mk_selection 0 1 2 false (NoGoal (F:=unit)))).
Proof.
  intros Ho. destruct (selection_swap (mk_selection 0 1 2 false (NoGoal (F:=unit)))) as (_ & _ & Hiff).
  destruct (proj1 (Hiff ltac:(done)) Ho); done.
Defined.

Lemma selection_moves_witness :
  ordered (set_head (mk_selection 0 1 2 false (NoGoal (F:=unit))) 0 NoGoal).
Proof.
  destruct (selection_moves (mk_selection 0 1 2 false (NoGoal (F:=unit))) 0 0 NoGoal) as ((_ & _ & Ho) & _).
  exact Ho.
Defined.
