(* ===== verification/History.v ===== *)
(** * History: undo and redo stacks of transactions

    Models [Operation], [Transaction], [HistoryEntry] and [History] of
    [crates/text/src/text.rs] with every operation, and the transaction methods
    of [Buffer] that only touch the history.  A stack is a list whose last element
    is its top; an operation returns [None] where the code panics (a failed
    [assert!] or [unwrap]).  The base text is stored and handed out only: a
    parameter.  [Instant]s are milliseconds, their difference saturates. *)

From S2P Require Import Prelude Clock Bits Utf8 SumTree SumTreeSpec Keyed TreeMap TreeMapFacts Patch UndoMap.
From S2P Require Import OperationQueue.
#[local] Open Scope nat_scope.

Abbreviation TransactionId := Lamport.t.
Abbreviation Instant := nat.
Abbreviation Duration := nat.

(** [FullOffset(usize)]. *)
Record EditOperation : Type := {
  edit_timestamp : Lamport.t;
  edit_version : Global.t;
  ranges : list (Range N);
  new_text : list str
}.

Inductive Operation : Type :=
  | Op_Edit (edit : EditOperation)
  | Op_Undo (undo : UndoOperation).

Definition timestamp (op : Operation) : Lamport.t :=
  match op with Op_Edit edit => edit_timestamp edit | Op_Undo undo => undo_timestamp undo end.

#[export] Instance operation_timestamp : OperationQueue.Operation Operation := timestamp.

Definition as_edit (op : Operation) : option EditOperation :=
  match op with Op_Edit edit => Some edit | _ => None end.

Record Transaction : Type := mk_transaction {
  transaction_id : TransactionId;
  edit_ids : list Lamport.t;
  transaction_start : Global.t
}.

Definition merge_in (t other : Transaction) : Transaction :=
  mk_transaction (transaction_id t) (edit_ids t ++ edit_ids other) (transaction_start t).

Record HistoryEntry : Type := mk_entry {
  transaction : Transaction;
  first_edit_at : Instant;
  last_edit_at : Instant;
  suppress_grouping : bool
}.

Definition entry_id (e : HistoryEntry) : TransactionId := transaction_id (transaction e).

(** A new entry. *)
Definition new_entry (t : Transaction) (now : Instant) : HistoryEntry := mk_entry t now now false.

(** *** Vectors as stacks *)

(** [Vec::pop]. *)
Definition pop {A} (l : list A) : option (A * list A) :=
  match reverse l with [] => None | x :: r => Some (x, reverse r) end.

(** Changing the top through [last_mut]. *)
Definition update_top {A} (f : A → A) (l : list A) : list A :=
  match pop l with Some (x, r) => r ++ [f x] | None => [] end.

(** [iter().rposition(p)], the index of the last element that satisfies [p]. *)
Fixpoint rposition {A} (p : A → bool) (l : list A) : option nat :=
  match l with
  | [] => None
  | x :: l => match rposition p l with
              | Some i => Some (Datatypes.S i)
              | None => if p x then Some 0 else None
              end
  end.

(** [Vec::remove] at an index that exists. *)
Definition vec_remove {A} (i : nat) (l : list A) : option (A * list A) :=
  x ← l !! i; Some (x, take i l ++ drop (Datatypes.S i) l).

Section history.
Context {Rope : Type}.

Record History : Type := mk_history {
  base_text : Rope;
  operations : map_tree Lamport.t Operation;
  undo_stack : list HistoryEntry;
  redo_stack : list HistoryEntry;
  transaction_depth : nat;
  group_interval : Duration
}.
Implicit Types (h : History) (id : TransactionId) (now : Instant).

Definition with_stacks h (undos redos : list HistoryEntry) : History :=
  mk_history (base_text h) (operations h) undos redos (transaction_depth h) (group_interval h).

Definition with_depth h (depth : nat) : History :=
  mk_history (base_text h) (operations h) (undo_stack h) (redo_stack h) depth (group_interval h).

(** The group interval of a build without the feature [test-support]. *)
Definition new (base_text : Rope) : History := mk_history base_text tree_new [] [] 0 300.

Definition push h (op : Operation) : option History :=
  ops ← TreeMap.insert (operations h) (timestamp op) op;
  Some (mk_history (base_text h) ops (undo_stack h) (redo_stack h) (transaction_depth h) (group_interval h)).

Definition start_transaction h (start : Global.t) now (clock : Lamport.t) : History * Lamport.t * option TransactionId :=
  let h := with_depth h (transaction_depth h + 1) in
  if transaction_depth h =? 1 then
    let '(id, clock) := Lamport.tick clock in
    (with_stacks h (undo_stack h ++ [new_entry (mk_transaction id [] start) now]) (redo_stack h), clock, Some id)
  else (h, clock, None).

Definition end_transaction h now : option (History * option HistoryEntry) :=
  if transaction_depth h =? 0 then None else
  let h := with_depth h (transaction_depth h - 1) in
  if transaction_depth h =? 0 then
    '(top, rest) ← pop (undo_stack h);
    match edit_ids (transaction top) with
    | [] => Some (with_stacks h rest (redo_stack h), None)
    | _ =>
        let entry := mk_entry (transaction top) (first_edit_at top) now (suppress_grouping top) in
        Some (with_stacks h (rest ++ [entry]) [], Some entry)
    end
  else Some (h, None).

Definition group_trailing h (n : nat) : option (History * option TransactionId) :=
  if n <=? length (undo_stack h) then
    let new_len := length (undo_stack h) - n in
    let keep := take new_len (undo_stack h) in
    let merge := drop new_len (undo_stack h) in
    let keep := update_top (λ top,
      let t := transaction top in
      let t := mk_transaction (transaction_id t) (edit_ids t ++ concat (List.map (λ e, edit_ids (transaction e)) merge))
                 (transaction_start t) in
      mk_entry t (first_edit_at top)
        (match last merge with Some e => last_edit_at e | None => last_edit_at top end)
        (suppress_grouping top)) keep in
    Some (with_stacks h keep (redo_stack h), option_map entry_id (last keep))
  else None.

(** [entries.next_back()] of [group], over the reversed stack. *)
Fixpoint group_count (interval : Duration) (entry : HistoryEntry) (previous : list HistoryEntry) : nat :=
  match previous with
  | [] => 0
  | prev :: previous =>
      if negb (suppress_grouping prev) && (first_edit_at entry - last_edit_at prev <? interval)
      then Datatypes.S (group_count interval prev previous) else 0
  end.

Definition group h : option (History * option TransactionId) :=
  group_trailing h
    (match reverse (undo_stack h) with
     | [] => 0
     | entry :: previous => group_count (group_interval h) entry previous
     end).

(** The entries above the one called [id], unless one of them ends the search. *)
Fixpoint group_until_count id (entries : list HistoryEntry) : option nat :=
  match entries with
  | [] => None
  | entry :: entries =>
      if decide (entry_id entry = id) then Some 0
      else if suppress_grouping entry then None
      else option_map Datatypes.S (group_until_count id entries)
  end.

Definition group_until h id : option History :=
  match group_until_count id (reverse (undo_stack h)) with
  | Some count => '(h, _) ← group_trailing h count; Some h
  | None => Some h
  end.

Definition finalize_last_transaction h : History * option Transaction :=
  (with_stacks h (update_top (λ e, mk_entry (transaction e) (first_edit_at e) (last_edit_at e) true) (undo_stack h))
     (redo_stack h),
   option_map transaction (last (undo_stack h))).

Definition push_transaction h (t : Transaction) now : option History :=
  if transaction_depth h =? 0
  then Some (with_stacks h (undo_stack h ++ [new_entry t now]) (redo_stack h)) else None.

Definition push_empty_transaction h (start : Global.t) now (clock : Lamport.t) :
    option (History * Lamport.t * TransactionId) :=
  if transaction_depth h =? 0 then
    let '(id, clock) := Lamport.tick clock in
    Some (with_stacks h (undo_stack h ++ [new_entry (mk_transaction id [] start) now]) (redo_stack h), clock, id)
  else None.

Definition push_undo h (op_id : Lamport.t) : option History :=
  if transaction_depth h =? 0 then None else
  match TreeMap.get (operations h) op_id with
  | Some (Op_Edit _) =>
      match undo_stack h with
      | [] => None
      | _ =>
          Some (with_stacks h
            (update_top (λ e,
               let t := transaction e in
               mk_entry (mk_transaction (transaction_id t) (edit_ids t ++ [op_id]) (transaction_start t))
                 (first_edit_at e) (last_edit_at e) (suppress_grouping e)) (undo_stack h))
            (redo_stack h))
      end
  | _ => Some h
  end.

Definition pop_undo h : option (History * option HistoryEntry) :=
  if transaction_depth h =? 0 then
    match pop (undo_stack h) with
    | Some (entry, undos) => Some (with_stacks h undos (redo_stack h ++ [entry]), Some entry)
    | None => Some (h, None)
    end
  else None.

Definition pop_redo h : option (History * option HistoryEntry) :=
  if transaction_depth h =? 0 then
    match pop (redo_stack h) with
    | Some (entry, redos) => Some (with_stacks h (undo_stack h ++ [entry]) redos, Some entry)
    | None => Some (h, None)
    end
  else None.

Definition has_id id (e : HistoryEntry) : bool := bool_decide (entry_id e = id).

Definition remove_from_undo h id : option (History * option HistoryEntry) :=
  if transaction_depth h =? 0 then
    match rposition (has_id id) (undo_stack h) with
    | Some ix =>
        '(entry, undos) ← vec_remove ix (undo_stack h);
        Some (with_stacks h undos (redo_stack h ++ [entry]), Some entry)
    | None => Some (h, None)
    end
  else None.

Definition remove_from_undo_until h id : option (History * list HistoryEntry) :=
  if transaction_depth h =? 0 then
    match rposition (has_id id) (undo_stack h) with
    | Some ix =>
        let moved := reverse (drop ix (undo_stack h)) in
        Some (with_stacks h (take ix (undo_stack h)) (redo_stack h ++ moved), moved)
    | None => Some (h, [])
    end
  else None.

Definition remove_from_redo h id : option (History * list HistoryEntry) :=
  if transaction_depth h =? 0 then
    match rposition (has_id id) (redo_stack h) with
    | Some ix =>
        let moved := reverse (drop ix (redo_stack h)) in
        Some (with_stacks h (undo_stack h ++ moved) (take ix (redo_stack h)), moved)
    | None => Some (h, [])
    end
  else None.

Definition forget h id : option (History * option Transaction) :=
  if transaction_depth h =? 0 then
    match rposition (has_id id) (undo_stack h) with
    | Some ix =>
        '(entry, undos) ← vec_remove ix (undo_stack h);
        Some (with_stacks h undos (redo_stack h), Some (transaction entry))
    | None =>
        match rposition (has_id id) (redo_stack h) with
        | Some ix =>
            '(entry, redos) ← vec_remove ix (redo_stack h);
            Some (with_stacks h (undo_stack h) redos, Some (transaction entry))
        | None => Some (h, None)
        end
    end
  else None.

(** [iter().rfind(..)]. *)
Definition rfind id (l : list HistoryEntry) : option HistoryEntry :=
  ix ← rposition (has_id id) l; l !! ix.

Definition find_transaction h id : option Transaction :=
  match rfind id (undo_stack h) with
  | Some e => Some (transaction e)
  | None => option_map transaction (rfind id (redo_stack h))
  end.

Definition update_transaction (f : Transaction → Transaction) (e : HistoryEntry) : HistoryEntry :=
  mk_entry (f (transaction e)) (first_edit_at e) (last_edit_at e) (suppress_grouping e).

(** A change through the reference of [transaction_mut]; [None] when there is none. *)
Definition transaction_mut h id (f : Transaction → Transaction) : option History :=
  match rposition (has_id id) (undo_stack h) with
  | Some ix => Some (with_stacks h (alter (update_transaction f) ix (undo_stack h)) (redo_stack h))
  | None =>
      match rposition (has_id id) (redo_stack h) with
      | Some ix => Some (with_stacks h (undo_stack h) (alter (update_transaction f) ix (redo_stack h)))
      | None => None
      end
  end.

Definition merge_transactions h id destination : option History :=
  '(h, t) ← forget h id;
  match t with
  | Some t =>
      match transaction_mut h destination (λ d,
              mk_transaction (transaction_id d) (edit_ids d ++ edit_ids t) (transaction_start d)) with
      | Some h => Some h
      | None => Some h
      end
  | None => Some h
  end.

(** [Buffer::end_transaction_at]. *)
Definition end_transaction_at h now : option (History * option (TransactionId * Global.t)) :=
  '(h, entry) ← end_transaction h now;
  match entry with
  | Some entry =>
      '(h, id) ← group h;
      id ← id (* unwrap *);
      Some (h, Some (id, transaction_start (transaction entry)))
  | None => Some (h, None)
  end.

Definition peek_undo_stack h : option HistoryEntry := last (undo_stack h).
Definition peek_redo_stack h : option HistoryEntry := last (redo_stack h).
End history.
Arguments History : clear implicits.
