(* ===== verification/HistoryTheorems.v ===== *)
(** * HistoryTheorems: transactions, grouping, undo and redo

    The operations of [History] as operations on the two stacks. *)

From Stdlib Require Import Sorted.
From S2P Require Import Prelude Clock SumTree Keyed TreeMap UndoMap OperationQueue History.
#[local] Open Scope nat_scope.

(** ** Stacks *)

Section stacks.
Context {A : Type}.
Implicit Types (l : list A) (x : A) (p : A → bool).

Lemma pop_snoc l x : pop (l ++ [x]) = Some (x, l).
Proof. unfold pop. by rewrite reverse_snoc, reverse_involutive. Qed.

Lemma update_top_snoc f l x : update_top f (l ++ [x]) = l ++ [f x].
Proof. unfold update_top. by rewrite pop_snoc. Qed.

Lemma snoc_cases l : l = [] ∨ ∃ l' x, l = l' ++ [x].
Proof. induction l as [|x l _] using rev_ind; eauto. Qed.

Lemma rposition_spec p l :
  match rposition p l with
  | Some i => ∃ l1 x l2, l = l1 ++ x :: l2 ∧ length l1 = i ∧ p x = true ∧ Forall (λ y, p y = false) l2
  | None => Forall (λ y, p y = false) l
  end.
Proof.
  induction l as [|x l IH]; simpl; [done|]. destruct (rposition p l) as [i|].
  - destruct IH as (l1 & y & l2 & -> & <- & Hy & Hl2). by exists (x :: l1), y, l2.
  - destruct (p x) eqn:Hx; [by exists [], x, l|by constructor].
Qed.

Lemma rposition_here p l1 x l2 :
  p x = true → Forall (λ y, p y = false) l2 → rposition p (l1 ++ x :: l2) = Some (length l1).
Proof.
  intros Hx Hl2. induction l1 as [|y l1 IH]; simpl; [|by rewrite IH].
  pose proof (rposition_spec p l2) as Hr. destruct (rposition p l2) as [i|]; [|by rewrite Hx].
  destruct Hr as (k1 & z & k2 & -> & _ & Hz & _). rewrite Forall_app, Forall_cons in Hl2.
  destruct Hl2 as (_ & Hz' & _). congruence.
Qed.

Lemma vec_remove_here l1 x l2 : vec_remove (length l1) (l1 ++ x :: l2) = Some (x, l1 ++ l2).
Proof.
  unfold vec_remove. rewrite list_lookup_middle by done. simpl. rewrite take_app_length.
  by rewrite (cons_middle x l1 l2), (assoc_L (++)), drop_app_length' by (rewrite length_app; simpl; lia).
Qed.
End stacks.

Section theorems.
Context {Rope : Type}.
Abbreviation hist := (History Rope).
Implicit Types (h : hist) (id : TransactionId).

Lemma with_stacks_id h : with_stacks h (undo_stack h) (redo_stack h) = h.
Proof. by destruct h. Qed.

Lemma idle h : transaction_depth h = 0 → (transaction_depth h =? 0) = true.
Proof. by intros ->. Qed.

(** ** Nested transactions *)

Inductive inner_event : Type :=
  | Start (start : Global.t) (now : Instant)
  | End (now : Instant)
  | Edited (op_id : Lamport.t).

Fixpoint run_inner h (clock : Lamport.t) (evs : list inner_event) : option (hist * Lamport.t) :=
  match evs with
  | [] => Some (h, clock)
  | Start start now :: evs => let '(h, clock, _) := start_transaction h start now clock in run_inner h clock evs
  | End now :: evs => '(h, _) ← end_transaction h now; run_inner h clock evs
  | Edited op_id :: evs => h ← push_undo h op_id; run_inner h clock evs
  end.

(** Every inner start is matched by an end. *)
Fixpoint balanced (depth : nat) (evs : list inner_event) : Prop :=
  match evs with
  | [] => depth = 0
  | Start _ _ :: evs => balanced (Datatypes.S depth) evs
  | End _ :: evs => match depth with 0 => False | Datatypes.S depth => balanced depth evs end
  | Edited _ :: evs => balanced depth evs
  end.

Definition edited (evs : list inner_event) : list Lamport.t :=
  omap (λ ev, match ev with Edited op_id => Some op_id | _ => None end) evs.

Definition recorded_edit h (op_id : Lamport.t) : Prop :=
  ∃ edit, TreeMap.get (operations h) op_id = Some (Op_Edit edit).

(** The history inside a transaction, [depth] levels below its outermost one. *)
Definition inside h depth (entry : HistoryEntry) : hist :=
  with_depth (with_stacks h (undo_stack h ++ [entry]) (redo_stack h)) (Datatypes.S depth).

Definition add_edits (e : HistoryEntry) (ids : list Lamport.t) : HistoryEntry :=
  mk_entry (mk_transaction (transaction_id (transaction e)) (edit_ids (transaction e) ++ ids)
             (transaction_start (transaction e)))
    (first_edit_at e) (last_edit_at e) (suppress_grouping e).

Lemma run_inner_spec h evs : ∀ depth entry clock,
  balanced depth evs → Forall (recorded_edit h) (edited evs) →
  run_inner (inside h depth entry) clock evs = Some (inside h 0 (add_edits entry (edited evs)), clock).
Proof.
  induction evs as [|ev evs IH]; intros depth entry clock Hb Hr; simpl in Hb.
  { subst depth. simpl. unfold add_edits. rewrite app_nil_r. by destruct entry as [[]]. }
  destruct ev as [start now|now|op_id]; simpl.
  - unfold start_transaction. simpl. rewrite Nat.add_1_r. simpl. by apply (IH (Datatypes.S depth)).
  - destruct depth as [|depth]; [done|]. unfold end_transaction. simpl. by apply (IH depth).
  - simpl in Hr. apply Forall_cons in Hr as [(edit & Hget) Hr]. unfold push_undo. simpl. rewrite Hget.
    destruct (undo_stack h ++ [entry]) as [|e0 l] eqn:Hl; [by destruct (undo_stack h)|]. rewrite <- Hl, update_top_snoc. simpl.
    change (run_inner (inside h depth (add_edits entry [op_id])) clock evs =
      Some (inside h 0 (add_edits entry (op_id :: edited evs)), clock)).
    rewrite (IH depth (add_edits entry [op_id]) clock Hb Hr). unfold add_edits. simpl.
    by rewrite <- (assoc_L (++)).
Qed.

(** C26: a transaction opened on an idle history, any nesting of further starts and
    ends and any edits in it, and its end: only the outermost start makes an
    entry, named by the ticked clock; with no edit the history is as before, redo
    stack included, and otherwise the undo stack has gained the one entry with all
    the edits in order and the redo stack is cleared. *)
Theorem history_bracket h start now now' clock evs :
  transaction_depth h = 0 → balanced 0 evs → Forall (recorded_edit h) (edited evs) →
  let '(h1, clock1, id) := start_transaction h start now clock in
  id = Some clock ∧ clock1 = (Lamport.tick clock).2 ∧
  ∃ h2, run_inner h1 clock1 evs = Some (h2, clock1) ∧
    end_transaction h2 now' =
      match edited evs with
      | [] => Some (h, None)
      | ids => let entry := mk_entry (mk_transaction clock ids start) now now' false in
               Some (with_stacks h (undo_stack h ++ [entry]) [], Some entry)
      end.
Proof.
  intros Hd Hb Hr. unfold start_transaction. simpl. rewrite Hd. simpl. split; [done|]. split; [done|].
  set (entry := new_entry (mk_transaction clock [] start) now).
  exists (inside h 0 (add_edits entry (edited evs))). split.
  { by apply (run_inner_spec h evs 0 entry). }
  unfold end_transaction, inside. simpl. rewrite pop_snoc. simpl.
  destruct h as [base ops undos redos depth interval]. simpl in *. subst depth. by destruct (edited evs).
Qed.

(** ** Grouping *)

(** The entries [first :: rest] as one. *)
Definition merged (first : HistoryEntry) (rest : list HistoryEntry) : HistoryEntry :=
  mk_entry (mk_transaction (entry_id first)
             (edit_ids (transaction first) ++ concat (List.map (λ e, edit_ids (transaction e)) rest))
             (transaction_start (transaction first)))
    (first_edit_at first)
    (match last rest with Some e => last_edit_at e | None => last_edit_at first end)
    (suppress_grouping first).

Lemma group_trailing_spec h pre first rest :
  undo_stack h = pre ++ first :: rest →
  group_trailing h (length rest) =
    Some (with_stacks h (pre ++ [merged first rest]) (redo_stack h), Some (entry_id first)).
Proof.
  intros Hu. unfold group_trailing. rewrite Hu, cons_middle, (assoc_L (++)), length_app.
  rewrite (proj2 (Nat.leb_le _ _)) by lia. rewrite Nat.add_sub.
  rewrite take_app_length, drop_app_length, update_top_snoc, last_snoc. done.
Qed.

(** [newer] is grouped with [older], the entry below it. *)
Definition grouped (interval : Duration) (older newer : HistoryEntry) : Prop :=
  suppress_grouping older = false ∧ first_edit_at newer - last_edit_at older < interval.

Lemma sorted_snoc {A} (R : A → A → Prop) l x y : Sorted R (l ++ [x]) → R x y → Sorted R ((l ++ [x]) ++ [y]).
Proof.
  intros Hs Hr. induction l as [|z l IH]; simpl in *; [by repeat constructor|].
  apply Sorted_inv in Hs as [Hs Hz]. constructor; [by apply IH|].
  destruct l; simpl in *; inversion Hz; by constructor.
Qed.

Lemma group_count_spec interval previous : ∀ entry,
  ∃ pre run, reverse previous = pre ++ run ∧ length run = group_count interval entry previous ∧
    Sorted (grouped interval) (run ++ [entry]) ∧
    ∀ older newer, last pre = Some older → head (run ++ [entry]) = Some newer → ¬ grouped interval older newer.
Proof.
  induction previous as [|prev previous IH]; intros entry; simpl.
  { exists [], []. split_and!; [done|done|by repeat constructor|done]. }
  assert (negb (suppress_grouping prev) && (first_edit_at entry - last_edit_at prev <? interval) = true ↔
    grouped interval prev entry) as Hg.
  { unfold grouped. by rewrite andb_true_iff, negb_true_iff, Nat.ltb_lt. }
  rewrite reverse_cons. destruct (negb _ && _).
  - destruct (IH prev) as (pre & run & -> & Hlen & Hs & Hstop). exists pre, (run ++ [prev]).
    rewrite <- (assoc_L (++)), length_app. split_and!; [done|simpl; lia|by apply sorted_snoc; [|apply Hg]|].
    intros older newer Ho Hn. apply Hstop; [done|]. rewrite head_app in Hn. by destruct run; simpl in *.
  - exists (reverse previous ++ [prev]), []. rewrite app_nil_r. split_and!; [done|done|by repeat constructor|].
    intros older newer. rewrite last_snoc. intros [= <-] [= <-] ?%Hg. done.
Qed.

Lemma group_until_count_spec id entries :
  match group_until_count id entries with
  | Some n => ∃ above entry below, entries = above ++ entry :: below ∧ length above = n ∧ entry_id entry = id ∧
                Forall (λ e, suppress_grouping e = false ∧ entry_id e ≠ id) above
  | None => ∀ above entry below, entries = above ++ entry :: below → entry_id entry = id →
              ∃ e, e ∈ above ∧ suppress_grouping e = true
  end.
Proof.
  induction entries as [|e entries IH]; simpl; [by intros [] |]. case_decide as Hid.
  { by exists [], e, entries. }
  destruct (suppress_grouping e) eqn:Hs.
  { intros [|e' above] entry below [= <- ->] He; [done|]. exists e. by split; [left|]. }
  destruct (group_until_count id entries) as [n|]; simpl.
  - destruct IH as (above & entry & below & -> & <- & ? & ?). exists (e :: above), entry, below.
    split_and!; [done|done|done|by constructor].
  - intros [|e' above] entry below [= <- ->] He; [done|]. destruct (IH above entry below eq_refl He) as (x & ? & ?).
    exists x. by split; [right|].
Qed.

Lemma group_empty h : undo_stack h = [] → group h = Some (h, None).
Proof. intros Hu. destruct h. simpl in Hu. by subst. Qed.

Lemma group_spec h :
  undo_stack h ≠ [] → ∃ pre first rest, undo_stack h = pre ++ first :: rest ∧
    Sorted (grouped (group_interval h)) (first :: rest) ∧
    (∀ older, last pre = Some older → ¬ grouped (group_interval h) older first) ∧
    group h = Some (with_stacks h (pre ++ [merged first rest]) (redo_stack h), Some (entry_id first)).
Proof.
  intros Hne. destruct (snoc_cases (undo_stack h)) as [?|(l & entry & Hu)]; [done|].
  assert (group h = group_trailing h (group_count (group_interval h) entry (reverse l))) as ->.
  { unfold group. by rewrite Hu, reverse_snoc. }
  destruct (group_count_spec (group_interval h) (reverse l) entry) as (pre & run & Hl & Hlen & Hs & Hstop).
  rewrite reverse_involutive in Hl. subst l. rewrite <- (assoc_L (++)) in Hu.
  destruct (run ++ [entry]) as [|first rest] eqn:Hrun; [by destruct run|].
  assert (length run = length rest) as Hlr.
  { apply (f_equal length) in Hrun. rewrite length_app in Hrun. simpl in Hrun. lia. }
  exists pre, first, rest. split_and!; [done|done| |].
  - intros older Ho. by apply (Hstop older first).
  - rewrite <- Hlen, Hlr. by apply group_trailing_spec.
Qed.

Lemma group_until_spec h id :
  (∃ pre first rest, undo_stack h = pre ++ first :: rest ∧ entry_id first = id ∧
     Forall (λ e, suppress_grouping e = false ∧ entry_id e ≠ id) rest ∧
     group_until h id = Some (with_stacks h (pre ++ [merged first rest]) (redo_stack h))) ∨
  group_until h id = Some h ∧
    ∀ pre first rest, undo_stack h = pre ++ first :: rest → entry_id first = id →
      ∃ e, e ∈ rest ∧ suppress_grouping e = true.
Proof.
  unfold group_until. pose proof (group_until_count_spec id (reverse (undo_stack h))) as Hc.
  destruct (group_until_count _ _) as [n|].
  - left. destruct Hc as (above & entry & below & Hu & <- & Hid & Hall).
    assert (undo_stack h = reverse below ++ entry :: reverse above) as Hu'.
    { rewrite <- (reverse_involutive (undo_stack h)), Hu, reverse_app, reverse_cons, <- (assoc_L (++)). done. }
    exists (reverse below), entry, (reverse above). split_and!; [done|done|by apply Forall_reverse|].
    rewrite <- (length_reverse above). by rewrite (group_trailing_spec h _ _ _ Hu').
  - right. split; [done|]. intros pre first rest Hu Hid.
    destruct (Hc (reverse rest) first (reverse pre)) as (e & He & ?); [|done|].
    + by rewrite Hu, reverse_app, reverse_cons, <- (assoc_L (++)).
    + exists e. split; [by apply elem_of_reverse|done].
Qed.

(** [group] replaces the longest trailing run of entries, each within the group
    interval of the one below it and that one not finalized, by one entry that
    keeps the oldest identifier and all the edits in order; [group_until] does so
    for the entries from the named one on unless a finalized entry is above it.
    Neither touches the redo stack. *)
Theorem history_grouping h id :
  (undo_stack h = [] → group h = Some (h, None)) ∧
  (undo_stack h ≠ [] → ∃ pre first rest, undo_stack h = pre ++ first :: rest ∧
     Sorted (grouped (group_interval h)) (first :: rest) ∧
     (∀ older, last pre = Some older → ¬ grouped (group_interval h) older first) ∧
     group h = Some (with_stacks h (pre ++ [merged first rest]) (redo_stack h), Some (entry_id first))) ∧
  ((∃ pre first rest, undo_stack h = pre ++ first :: rest ∧ entry_id first = id ∧
      Forall (λ e, suppress_grouping e = false ∧ entry_id e ≠ id) rest ∧
      group_until h id = Some (with_stacks h (pre ++ [merged first rest]) (redo_stack h))) ∨
   group_until h id = Some h ∧
     ∀ pre first rest, undo_stack h = pre ++ first :: rest → entry_id first = id →
       ∃ e, e ∈ rest ∧ suppress_grouping e = true).
Proof. split; [apply group_empty|]. split; [apply group_spec|apply group_until_spec]. Qed.

(** ** Undo and redo *)

(** On an idle history [pop_redo] undoes [pop_undo] and the other way round;
    [remove_from_undo_until] moves the named entry and all above it to the redo
    stack, newest first, and [remove_from_redo] of the newest one moves all of
    them back. *)
Theorem history_undo_redo h pre entry above id :
  transaction_depth h = 0 → undo_stack h = pre ++ entry :: above → entry_id entry = id →
  NoDup (entry_id <$> undo_stack h) →
  (∃ h' top, pop_undo h = Some (h', Some top) ∧ last (undo_stack h) = Some top ∧
     last (redo_stack h') = Some top ∧ pop_redo h' = Some (h, Some top)) ∧
  (∃ h', remove_from_undo h id = Some (h', Some entry) ∧ undo_stack h' = pre ++ above ∧
     redo_stack h' = redo_stack h ++ [entry] ∧ find_transaction h' id = Some (transaction entry)) ∧
  (∃ h' top, remove_from_undo_until h id = Some (h', reverse (entry :: above)) ∧
     undo_stack h' = pre ∧ redo_stack h' = redo_stack h ++ reverse (entry :: above) ∧
     last (entry :: above) = Some top ∧
     remove_from_redo h' (entry_id top) = Some (h, entry :: above)).
Proof.
  intros Hd Hu Hid Hnd. rewrite Hu in Hnd.
  assert (has_id id entry = true) as Hhere by (by apply bool_decide_eq_true).
  assert (Forall (λ e, has_id id e = false) pre ∧ Forall (λ e, has_id id e = false) above) as [Hpre Habove].
  { rewrite fmap_app, fmap_cons, Hid in Hnd. apply NoDup_app in Hnd as (_ & Hdis & Hnd).
    apply NoDup_cons in Hnd as [Hin _]. split; apply Forall_forall; intros e He; apply bool_decide_eq_false; intros He'.
    - destruct (Hdis id); [rewrite <- He'; by apply list_elem_of_fmap_2|by left].
    - destruct Hin. rewrite <- He'. by apply list_elem_of_fmap_2. }
  split; [|split].
  - destruct (snoc_cases (entry :: above)) as [|(l & top & Htop)]; [done|]. rewrite Htop, (assoc_L (++)) in Hu.
    unfold pop_undo. rewrite (idle h Hd), Hu, pop_snoc. eexists _, top.
    split; [done|]. simpl. rewrite !last_snoc. split; [done|]. split; [done|].
    unfold pop_redo. simpl. rewrite Hd. simpl. rewrite pop_snoc, <- Hu. by destruct h.
  - unfold remove_from_undo. rewrite (idle h Hd), Hu, (rposition_here _ _ _ _ Hhere Habove), vec_remove_here. simpl.
    eexists. split; [done|]. split; [done|]. split; [done|]. unfold find_transaction, rfind. simpl.
    pose proof (rposition_spec (has_id id) (pre ++ above)) as Hr.
    destruct (rposition (has_id id) (pre ++ above)) as [i|].
    { destruct Hr as (l1 & x & l2 & Hl & _ & Hx & _).
      assert (Forall (λ e, has_id id e = false) (pre ++ above)) as Hall by (by apply Forall_app).
      rewrite Hl, Forall_app, Forall_cons in Hall. destruct Hall as (_ & Hx2 & _). congruence. }
    simpl. rewrite (rposition_here (has_id id) (redo_stack h) entry []) by done. simpl.
    by rewrite list_lookup_middle.
  - unfold remove_from_undo_until. rewrite (idle h Hd), Hu, (rposition_here _ _ _ _ Hhere Habove).
    rewrite take_app_length, drop_app_length.
    destruct (snoc_cases (entry :: above)) as [|(l & top & Htop)]; [done|].
    eexists _, top. split; [done|]. split; [done|]. split; [done|]. rewrite Htop, last_snoc. split; [done|].
    unfold remove_from_redo. simpl. rewrite Hd. simpl. rewrite reverse_snoc.
    rewrite (rposition_here (has_id (entry_id top)) (redo_stack h) top (reverse l)).
    + rewrite take_app_length, drop_app_length, reverse_cons, reverse_involutive, <- Htop, <- Hu. by destruct h.
    + by apply bool_decide_eq_true.
    + rewrite Htop, !fmap_app, (assoc_L (++)) in Hnd. apply NoDup_app in Hnd as (_ & Hdis & _).
      apply Forall_reverse, Forall_forall. intros e He. apply bool_decide_eq_false. intros He'.
      destruct (Hdis (entry_id e)); [apply elem_of_app; right; by apply list_elem_of_fmap_2|].
      rewrite He'. by left.
Qed.

(** ** No edit is lost *)

Definition ids (l : list HistoryEntry) : list Lamport.t := concat (List.map (λ e, edit_ids (transaction e)) l).
Definition all_edit_ids h : list Lamport.t := ids (undo_stack h) ++ ids (redo_stack h).

Lemma ids_app l1 l2 : ids (l1 ++ l2) = ids l1 ++ ids l2.
Proof. unfold ids. by rewrite List.map_app, concat_app. Qed.

Lemma ids_cons e l : ids (e :: l) = edit_ids (transaction e) ++ ids l.
Proof. done. Qed.

Lemma ids_reverse l : ids (reverse l) ≡ₚ ids l.
Proof.
  induction l as [|e l IH]; [done|]. rewrite reverse_cons, ids_app, IH, ids_cons. unfold ids at 2. simpl.
  by rewrite app_nil_r, Permutation_app_comm.
Qed.

Lemma ids_merged first rest : ids [merged first rest] = ids (first :: rest).
Proof. unfold ids. simpl. by rewrite app_nil_r. Qed.

(** Taking one entry out of a stack. *)
Lemma ids_middle l1 e l2 : ids (l1 ++ e :: l2) ≡ₚ ids (l1 ++ l2) ++ edit_ids (transaction e).
Proof.
  rewrite !ids_app, ids_cons, <- (assoc_L (++)). apply Permutation_app_head. apply Permutation_app_comm.
Qed.

Lemma alter_here (f : HistoryEntry → HistoryEntry) l1 e l2 : alter f (length l1) (l1 ++ e :: l2) = l1 ++ f e :: l2.
Proof. induction l1 as [|x l1 IH]; [done|]. change (x :: alter f (length l1) (l1 ++ e :: l2) = x :: l1 ++ f e :: l2). by f_equal. Qed.

(** The entry that [forget] and [transaction] mean. *)
Lemma forget_spec h id :
  transaction_depth h = 0 →
  match find_transaction h id with
  | None => forget h id = Some (h, None)
  | Some t => ∃ h', forget h id = Some (h', Some t) ∧ transaction_depth h' = 0 ∧ transaction_id t = id ∧
      all_edit_ids h ≡ₚ all_edit_ids h' ++ edit_ids t ∧
      ∃ l1 e l2, transaction e = t ∧
        (undo_stack h = l1 ++ e :: l2 ∧ undo_stack h' = l1 ++ l2 ∧ redo_stack h' = redo_stack h ∨
         redo_stack h = l1 ++ e :: l2 ∧ redo_stack h' = l1 ++ l2 ∧ undo_stack h' = undo_stack h)
  end.
Proof.
  intros Hd. unfold find_transaction, rfind, forget, all_edit_ids. rewrite (idle h Hd).
  pose proof (rposition_spec (has_id id) (undo_stack h)) as Hu. destruct (rposition (has_id id) (undo_stack h)) as [i|].
  - destruct Hu as (l1 & e & l2 & Hl & <- & He%bool_decide_eq_true & _). rewrite Hl, vec_remove_here. simpl.
    rewrite list_lookup_middle by done. eexists. split; [done|]. split; [done|]. split; [done|]. simpl. split.
    + rewrite ids_middle, <- !(assoc_L (++)). apply Permutation_app_head, Permutation_app_comm.
    + exists l1, e, l2. split; [done|by left].
  - simpl. pose proof (rposition_spec (has_id id) (redo_stack h)) as Hr.
    destruct (rposition (has_id id) (redo_stack h)) as [i|]; [|done].
    destruct Hr as (l1 & e & l2 & Hl & <- & He%bool_decide_eq_true & _). rewrite Hl, vec_remove_here. simpl.
    rewrite list_lookup_middle by done. simpl. eexists. split; [done|]. split; [done|]. split; [done|]. simpl. split.
    + by rewrite ids_middle, <- !(assoc_L (++)).
    + exists l1, e, l2. split; [done|by right].
Qed.

Lemma transaction_mut_spec h id f (more : list Lamport.t) :
  (∀ t, edit_ids (f t) = edit_ids t ++ more) →
  match find_transaction h id with
  | None => transaction_mut h id f = None
  | Some t => ∃ h', transaction_mut h id f = Some h' ∧ transaction_depth h' = transaction_depth h ∧
      all_edit_ids h' ≡ₚ all_edit_ids h ++ more ∧
      ∃ l1 e l2, transaction e = t ∧
        (undo_stack h = l1 ++ e :: l2 ∧ undo_stack h' = l1 ++ update_transaction f e :: l2 ∧ redo_stack h' = redo_stack h ∨
         redo_stack h = l1 ++ e :: l2 ∧ redo_stack h' = l1 ++ update_transaction f e :: l2 ∧ undo_stack h' = undo_stack h)
  end.
Proof.
  intros Hf. unfold find_transaction, rfind, transaction_mut, all_edit_ids.
  pose proof (rposition_spec (has_id id) (undo_stack h)) as Hu. destruct (rposition (has_id id) (undo_stack h)) as [i|].
  - destruct Hu as (l1 & e & l2 & Hl & <- & _ & _). rewrite Hl. simpl. rewrite list_lookup_middle by done.
    rewrite alter_here. eexists. split; [done|]. split; [done|]. simpl. split.
    + rewrite !ids_middle. simpl. rewrite Hf. solve_Permutation.
    + exists l1, e, l2. split; [done|by left].
  - simpl. pose proof (rposition_spec (has_id id) (redo_stack h)) as Hr.
    destruct (rposition (has_id id) (redo_stack h)) as [i|]; [|done].
    destruct Hr as (l1 & e & l2 & Hl & <- & _ & _). rewrite Hl. simpl. rewrite list_lookup_middle by done. simpl.
    rewrite alter_here. eexists. split; [done|]. split; [done|]. simpl. split.
    + rewrite !ids_middle. simpl. rewrite Hf. solve_Permutation.
    + exists l1, e, l2. split; [done|by right].
Qed.

(** The operations of an idle history that move entries. *)
Inductive history_op : Type :=
  | PopUndo | PopRedo | RemoveFromUndo (id : TransactionId) | RemoveFromUndoUntil (id : TransactionId)
  | RemoveFromRedo (id : TransactionId) | Group | GroupUntil (id : TransactionId) | Finalize.

Definition apply_op h (op : history_op) : option hist :=
  match op with
  | PopUndo => '(h, _) ← pop_undo h; Some h
  | PopRedo => '(h, _) ← pop_redo h; Some h
  | RemoveFromUndo id => '(h, _) ← remove_from_undo h id; Some h
  | RemoveFromUndoUntil id => '(h, _) ← remove_from_undo_until h id; Some h
  | RemoveFromRedo id => '(h, _) ← remove_from_redo h id; Some h
  | Group => '(h, _) ← group h; Some h
  | GroupUntil id => group_until h id
  | Finalize => Some (finalize_last_transaction h).1
  end.

Fixpoint apply_ops h (ops : list history_op) : option hist :=
  match ops with [] => Some h | op :: ops => h ← apply_op h op; apply_ops h ops end.

Definition conserves h h' : Prop := transaction_depth h' = 0 ∧ all_edit_ids h' ≡ₚ all_edit_ids h.

Lemma pop_conserves h op : transaction_depth h = 0 → op = PopUndo ∨ op = PopRedo →
  ∃ h', apply_op h op = Some h' ∧ conserves h h'.
Proof.
  intros Hd [-> | ->]; unfold apply_op, pop_undo, pop_redo, conserves, all_edit_ids; rewrite (idle h Hd).
  - destruct (snoc_cases (undo_stack h)) as [Hu|(l & e & Hu)]; rewrite Hu; [by eexists; rewrite ?Hu|].
    rewrite pop_snoc. eexists. split; [done|]. split; [done|]. simpl. rewrite !ids_app. solve_Permutation.
  - destruct (snoc_cases (redo_stack h)) as [Hu|(l & e & Hu)]; rewrite Hu; [by eexists; rewrite ?Hu|].
    rewrite pop_snoc. eexists. split; [done|]. split; [done|]. simpl. rewrite !ids_app. solve_Permutation.
Qed.

Lemma until_conserves h op id :
  transaction_depth h = 0 → op = RemoveFromUndoUntil id ∨ op = RemoveFromRedo id →
  ∃ h', apply_op h op = Some h' ∧ conserves h h'.
Proof.
  intros Hd [-> | ->]; unfold apply_op, remove_from_undo_until, remove_from_redo, conserves, all_edit_ids; rewrite (idle h Hd).
  - destruct (rposition _ _) as [ix|]; [|by eexists]. eexists. split; [done|]. split; [done|]. simpl.
    rewrite !ids_app, ids_reverse. rewrite <- (take_drop ix (undo_stack h)) at 3. rewrite ids_app. solve_Permutation.
  - destruct (rposition _ _) as [ix|]; [|by eexists]. eexists. split; [done|]. split; [done|]. simpl.
    rewrite !ids_app, ids_reverse. rewrite <- (take_drop ix (redo_stack h)) at 3. rewrite ids_app. solve_Permutation.
Qed.

Lemma remove_conserves h id : transaction_depth h = 0 →
  ∃ h', apply_op h (RemoveFromUndo id) = Some h' ∧ conserves h h'.
Proof.
  intros Hd. unfold apply_op, remove_from_undo, conserves, all_edit_ids. rewrite (idle h Hd).
  pose proof (rposition_spec (has_id id) (undo_stack h)) as Hu. destruct (rposition _ _) as [i|]; [|by eexists].
  destruct Hu as (l1 & e & l2 & Hl & <- & _). rewrite Hl, vec_remove_here. simpl. eexists. split; [done|].
  split; [done|]. simpl. rewrite ids_middle, !ids_app. unfold ids at 4. simpl. rewrite app_nil_r. solve_Permutation.
Qed.

Lemma grouping_conserves h op :
  transaction_depth h = 0 → op = Group ∨ (∃ id, op = GroupUntil id) →
  ∃ h', apply_op h op = Some h' ∧ conserves h h'.
Proof.
  intros Hd Hop.
  assert (∀ pre first rest, undo_stack h = pre ++ first :: rest →
    conserves h (with_stacks h (pre ++ [merged first rest]) (redo_stack h))) as Hmerged.
  { intros pre first rest Hu. split; [done|]. unfold all_edit_ids. simpl. by rewrite Hu, !ids_app, ids_merged. }
  destruct Hop as [->|(id & ->)]; unfold apply_op.
  - destruct (snoc_cases (undo_stack h)) as [Hu|(l & x & Hu)].
    + rewrite (group_empty h Hu). by eexists.
    + destruct (group_spec h) as (pre & first & rest & Hu' & _ & _ & ->); [rewrite Hu; by destruct l|]. simpl. eauto.
  - destruct (group_until_spec h id) as [(pre & first & rest & Hu' & _ & _ & ->)|[-> _]]; [eauto|by eexists].
Qed.

Lemma finalize_conserves h : transaction_depth h = 0 → ∃ h', apply_op h Finalize = Some h' ∧ conserves h h'.
Proof.
  intros Hd. unfold apply_op, finalize_last_transaction. simpl. eexists. split; [done|]. split; [done|].
  unfold all_edit_ids. simpl. destruct (snoc_cases (undo_stack h)) as [->|(l & e & ->)]; [done|].
  rewrite update_top_snoc. by rewrite !ids_app.
Qed.

Lemma apply_conserves h op : transaction_depth h = 0 → ∃ h', apply_op h op = Some h' ∧ conserves h h'.
Proof.
  intros Hd. destruct op.
  - apply pop_conserves; auto.
  - apply pop_conserves; auto.
  - by apply remove_conserves.
  - eapply until_conserves; eauto.
  - eapply until_conserves; eauto.
  - apply grouping_conserves; auto.
  - apply grouping_conserves; eauto.
  - by apply finalize_conserves.
Qed.

(** C38: on an idle history no sequence of undo, redo, grouping and finalizing
    operations panics, and none loses or duplicates an edit: the edits of the two
    stacks together stay the same up to order. *)
Theorem history_conserves_edits h (ops : list history_op) :
  transaction_depth h = 0 →
  ∃ h', apply_ops h ops = Some h' ∧ transaction_depth h' = 0 ∧ all_edit_ids h' ≡ₚ all_edit_ids h.
Proof.
  revert h. induction ops as [|op ops IH]; intros h Hd; simpl; [by eexists|].
  destruct (apply_conserves h op Hd) as (h1 & -> & Hd1 & Hp1). simpl.
  destruct (IH h1 Hd1) as (h2 & -> & Hd2 & Hp2). exists h2. split_and!; [done|done|by rewrite Hp2].
Qed.

(** Merging a transaction into another takes it off the stacks and appends its
    edits to the destination, so no edit is lost, if the destination is there; if
    it is not, the transaction is dropped with its edits.  A transaction that is
    not there merges nothing. *)
Theorem history_merge h id destination :
  transaction_depth h = 0 →
  match find_transaction h id with
  | None => merge_transactions h id destination = Some h
  | Some t =>
      ∃ h1 h2, forget h id = Some (h1, Some t) ∧ merge_transactions h id destination = Some h2 ∧
        all_edit_ids h ≡ₚ all_edit_ids h1 ++ edit_ids t ∧
        match find_transaction h1 destination with
        | Some d =>
            all_edit_ids h2 ≡ₚ all_edit_ids h ∧
            ∃ l1 e l2, transaction e = d ∧
              let e' := add_edits e (edit_ids t) in
              (undo_stack h1 = l1 ++ e :: l2 ∧ undo_stack h2 = l1 ++ e' :: l2 ∧ redo_stack h2 = redo_stack h1 ∨
               redo_stack h1 = l1 ++ e :: l2 ∧ redo_stack h2 = l1 ++ e' :: l2 ∧ undo_stack h2 = undo_stack h1)
        | None => h2 = h1
        end
  end.
Proof.
  intros Hd. unfold merge_transactions. pose proof (forget_spec h id Hd) as Hf.
  destruct (find_transaction h id) as [t|]; [|by rewrite Hf].
  destruct Hf as (h1 & -> & Hd1 & _ & Hp & _). simpl.
  set (f := λ d, mk_transaction (transaction_id d) (edit_ids d ++ edit_ids t) (transaction_start d)).
  pose proof (transaction_mut_spec h1 destination f (edit_ids t) ltac:(done)) as Hm.
  exists h1. destruct (find_transaction h1 destination) as [d|]; [|rewrite Hm; by exists h1].
  destruct Hm as (h2 & -> & _ & Hp2 & Hstacks). exists h2. split_and!; [done|done|done| |exact Hstacks].
  by rewrite Hp2, Hp.
Qed.

(** [push_transaction], [push_empty_transaction] and [push_undo] all leave the
    redo stack as it is, and [push_undo] adds an edit to the top transaction only
    when the operation on record is an edit. *)
Theorem history_pushes h (t : Transaction) start now clock op_id :
  transaction_depth h = 0 →
  (∃ h', push_transaction h t now = Some h' ∧ undo_stack h' = undo_stack h ++ [new_entry t now] ∧
     redo_stack h' = redo_stack h) ∧
  (∃ h', push_empty_transaction h start now clock = Some (h', (Lamport.tick clock).2, clock) ∧
     undo_stack h' = undo_stack h ++ [new_entry (mk_transaction clock [] start) now] ∧ redo_stack h' = redo_stack h) ∧
  (∀ pre top depth, undo_stack h = pre ++ [top] →
     let h1 := with_depth h (Datatypes.S depth) in
     (recorded_edit h op_id → push_undo h1 op_id =
        Some (with_stacks h1 (pre ++ [add_edits top [op_id]]) (redo_stack h))) ∧
     (¬ recorded_edit h op_id → push_undo h1 op_id = Some h1)).
Proof.
  intros Hd. split; [|split].
  - unfold push_transaction. rewrite (idle h Hd). by eexists.
  - unfold push_empty_transaction. rewrite (idle h Hd). simpl. by eexists.
  - intros pre top depth Hu h1. unfold recorded_edit, push_undo. simpl. rewrite Hu. split.
    + intros (edit & ->). destruct (pre ++ [top]) eqn:E; [by destruct pre|]. rewrite <- E. by rewrite update_top_snoc.
    + intros Hn. destruct (TreeMap.get (operations h) op_id) as [[edit|undo]|] eqn:E; [destruct Hn; by eexists|done|done].
Qed.
End theorems.

(** ** Witnesses *)

Definition id1 : TransactionId := Lamport.Mk 1 LOCAL.
Definition id2 : TransactionId := Lamport.Mk 2 LOCAL.
Definition edit3 : Lamport.t := Lamport.Mk 3 LOCAL.
Definition entry1 : HistoryEntry := new_entry (mk_transaction id1 [edit3] Global.new) 0.
Definition entry2 : HistoryEntry := new_entry (mk_transaction id2 [edit3] Global.new) 100.

(** An idle history with two entries, and one with an edit on record. *)
Definition two_entries : History unit := with_stacks (new ()) [entry1; entry2] [].
Definition edit_op : Operation :=
  Op_Edit {| edit_timestamp := edit3; edit_version := Global.new; ranges := []; new_text := [] |}.
Definition with_edit : option (History unit) := push (new ()) edit_op.

Lemma history_bracket_witness :
  match with_edit with
  | Some h =>
      let '(h1, clock, _) := start_transaction h Global.new 5 id1 in
      ∃ h2, run_inner h1 clock [Start Global.new 6; Edited edit3; End 7] = Some (h2, clock) ∧
        end_transaction h2 8 =
          let entry := mk_entry (mk_transaction id1 [edit3] Global.new) 5 8 false in
          Some (with_stacks h [entry] [], Some entry)
  | None => False
  end.
Proof.
  destruct with_edit as [h|] eqn:Eh; [|discriminate]. vm_compute in Eh. injection Eh as <-.
  match goal with |- context [start_transaction ?h _ _ _] =>
    pose proof (history_bracket h Global.new 5 8 id1 [Start Global.new 6; Edited edit3; End 7]) as Hb
  end.
  specialize (Hb eq_refl eq_refl ltac:(constructor; [eexists; reflexivity|constructor])).
  destruct (start_transaction _ _ _ _) as [[h1 clock] i]. exact (proj2 (proj2 Hb)).
Defined.

Lemma history_undo_redo_witness :
  ∃ h', remove_from_undo_until two_entries id1 = Some (h', [entry2; entry1]) ∧
    remove_from_redo h' id2 = Some (two_entries, [entry1; entry2]).
Proof.
  destruct (history_undo_redo two_entries [] entry1 [entry2] id1) as (_ & _ & h' & top & Hu & _ & _ & Ht & Hr).
  - reflexivity.
  - reflexivity.
  - reflexivity.
  - apply (bool_decide_unpack _). vm_compute. reflexivity.
  - injection Ht as <-. exists h'. split; [exact Hu|exact Hr].
Defined.

Lemma history_conserves_edits_witness :
  ∃ h', apply_ops two_entries [PopUndo; Finalize; PopRedo; Group; RemoveFromUndo id2] = Some h' ∧
    all_edit_ids h' ≡ₚ [edit3; edit3].
Proof.
  destruct (history_conserves_edits two_entries [PopUndo; Finalize; PopRedo; Group; RemoveFromUndo id2]
    eq_refl) as (h' & Hh & _ & Hp).
  exists h'. split; [exact Hh|exact Hp].
Defined.

Lemma history_merge_witness :
  ∃ h2, merge_transactions two_entries id2 id1 = Some h2 ∧ undo_stack h2 = [add_edits entry1 [edit3]].
Proof.
  pose proof (history_merge two_entries id2 id1 eq_refl) as (h1 & h2 & Hf & Hm & _ & _).
  exists h2. split; [exact Hm|]. vm_compute in Hm. injection Hm as <-. reflexivity.
Defined.

Lemma history_pushes_witness :
  ∃ h', push_transaction two_entries (mk_transaction id2 [] Global.new) 9 = Some h' ∧ redo_stack h' = [].
Proof.
  destruct (history_pushes two_entries (mk_transaction id2 [] Global.new) Global.new 9 id2 edit3 eq_refl)
    as ((h' & Hp & _ & Hr) & _).
  exists h'. split; [exact Hp|exact Hr].
Defined.
