(* ===== verification/LineEnding.v ===== *)
(** * LineEnding: line terminators

    Models [LineEnding] of [crates/text/src/text.rs].  A buffer holds its text with
    [\n] only; [normalize] replaces what the expression [\r\n|\r] matches, leftmost
    first and preferring the first alternative, and [detect] finds the convention of
    a file in its first kilobyte. *)

From S2P Require Import Prelude Bits Utf8.

Inductive LineEnding : Type := Unix | Windows.

Definition CR : N := 13.
Definition LF : N := 10.

(** [Default] on a Unix build. *)
Definition default_ending : LineEnding := Unix.

Definition as_str (e : LineEnding) : str := match e with Unix => [LF] | Windows => [CR; LF] end.

(** [str::find] of the line feed. *)
Fixpoint find_newline (t : str) : option N :=
  match t with
  | [] => None
  | b :: t => if b =? LF then Some 0 else ix ← find_newline t; Some (ix + 1)
  end.

Definition detect (text : str) : LineEnding :=
  let max_ix := boundary_below text (N.to_nat (N.min (len text) 1000)) in
  match find_newline (ltake max_ix text) with
  | Some ix => if (0 <? ix) && bool_decide (lget text (ix - 1) = Some CR) then Windows else Unix
  | None => default_ending
  end.

(** [LINE_SEPARATORS_REGEX.replace_all(text, "\n")]. *)
Fixpoint normalize (t : str) : str :=
  match t with
  | [] => []
  | b :: t' =>
      if b =? CR then
        match t' with
        | c :: t'' => if c =? LF then LF :: normalize t'' else LF :: normalize t'
        | [] => [LF]
        end
      else b :: normalize t'
  end.

(** ** Facts *)

(** The cases of the replacement. *)
Lemma normalize_ind (P : str → Prop) :
  P [] → (∀ t, P t → P (CR :: LF :: t)) → (∀ t, head t ≠ Some LF → P t → P (CR :: t)) →
  (∀ b t, b ≠ CR → P t → P (b :: t)) → ∀ t, P t.
Proof.
  intros H0 H1 H2 H3. enough (∀ n t, (length t ≤ n)%nat → P t) as Hall by (intros t; by eapply Hall).
  induction n as [|n IH]; intros [|b t] Hn; simpl in Hn; try done; try lia.
  destruct (decide (b = CR)) as [->|Hb]; [|apply H3, IH; [done|lia]].
  destruct t as [|c t]; [by apply H2|]. destruct (decide (c = LF)) as [->|Hc].
  - apply H1, IH. simpl in Hn. lia.
  - apply H2; [by intros [=]|]. apply IH. lia.
Qed.

Lemma normalize_crlf t : normalize (CR :: LF :: t) = LF :: normalize t.
Proof. done. Qed.

Lemma normalize_cr t : head t ≠ Some LF → normalize (CR :: t) = LF :: normalize t.
Proof.
  destruct t as [|c t]; [done|]. intros Hc. cbn -[CR LF]. rewrite N.eqb_refl.
  destruct (N.eqb_spec c LF) as [->|]; done.
Qed.

Lemma normalize_other b t : b ≠ CR → normalize (b :: t) = b :: normalize t.
Proof. intros Hb. cbn -[CR LF]. by destruct (N.eqb_spec b CR). Qed.

(** No carriage return is left, and a text without one stays as it is. *)
Lemma normalize_no_cr t : CR ∉ normalize t.
Proof.
  induction t using normalize_ind; [apply not_elem_of_nil|..];
    rewrite ?normalize_crlf, ?normalize_cr, ?normalize_other by done; by apply not_elem_of_cons.
Qed.

Lemma normalize_unchanged t : CR ∉ t → normalize t = t.
Proof.
  induction t as [|b t IH]; [done|]. rewrite not_elem_of_cons. intros [Hb Ht].
  by rewrite normalize_other, IH.
Qed.

Lemma len_normalize t : len (normalize t) ≤ len t.
Proof.
  induction t using normalize_ind; [done|..];
    rewrite ?normalize_crlf, ?normalize_cr, ?normalize_other by done; rewrite !len_cons; lia.
Qed.

Lemma normalize_app u t : CR ∉ u → normalize (u ++ t) = u ++ normalize t.
Proof.
  induction u as [|b u IH]; [done|]. rewrite not_elem_of_cons. intros [Hb Hu].
  change ((b :: u) ++ t) with (b :: (u ++ t)). by rewrite normalize_other, IH.
Qed.

Lemma encode_no_cr c : c < 0x110000 → c ≠ CR → CR ∉ encode c.
Proof.
  intros Hc Hne. destruct (decide (c < 128)) as [Hlt|Hge].
  - unfold encode. rewrite (proj2 (N.ltb_lt c 0x80)) by done. intros Hin%list_elem_of_singleton. by apply Hne.
  - destruct (encode_shape c Hc) as (b & r & He & _ & _ & Hr & _). rewrite He, not_elem_of_cons. split.
    + unfold encode in He. rewrite (proj2 (N.ltb_ge c 0x80)) in He by lia. unfold CR.
      repeat case_match; injection He as <- _;
        match goal with |- _ ≠ _ + ?x => generalize x end; lia.
    + intros Hin. rewrite Forall_forall in Hr. pose proof (Hr _ Hin) as [? _]. unfold CR in *. lia.
Qed.

Lemma normalize_utf8 t : utf8 t → utf8 (normalize t).
Proof.
  assert (utf8 [LF]) as Hlf by (by apply (utf8_encode LF)).
  intros Ht. enough (utf8 (normalize t) ∧ ∀ t', t = LF :: t' → utf8 (normalize t')) as [? _] by done.
  induction Ht as [|c t Hc Ht [IH IHt]] using utf8_ind; [split; [apply utf8_nil|done]|].
  pose proof (scalar_lt _ Hc) as Hlt. destruct (decide (c = CR)) as [->|Hne].
  - change (encode CR) with [CR]. cbn [app]. split; [|done].
    destruct t as [|b t]; [done|]. destruct (decide (b = LF)) as [->|Hb].
    + rewrite normalize_crlf. by apply (utf8_app [LF]), IHt.
    + rewrite normalize_cr by (by intros [=]). by apply (utf8_app [LF]).
  - rewrite normalize_app by (by apply encode_no_cr). split; [apply utf8_app; [by apply utf8_encode|done]|].
    intros t' Heq. destruct (encode_shape c Hlt) as (b & r & He & _ & _ & _ & Hlen & _ & _ & Hnl).
    rewrite He in Heq. injection Heq as -> Heq. rewrite (proj1 Hnl eq_refl) in He.
    injection He as <-. by rewrite <- Heq in *.
Qed.
