(* ===== verification/Fragment.v ===== *)
(** * Fragment: the pieces a buffer's text is made of

    Models [Fragment], [FragmentSummary], [InsertionFragment], [InsertionSlice] and the
    dimensions over fragments of [crates/text/src/text.rs].  A buffer never forgets
    text: an insertion is cut into fragments, in the order of their [Locator]s, each
    visible or not; [InsertionFragment]s find the fragments of an insertion again, and
    [InsertionSlice]s the insertions an edit touched.  Lengths and offsets within an
    insertion are [u32], offsets into the text [usize], both [N].  The dimension
    [VersionedFullOffset] measures the text as a version saw it. *)

From S2P Require Import Prelude Clock Locator Bits Utf8 SumTree SumTreeSpec SumTreeFind Cursor CursorSpec.
From S2P Require Import CursorFacts Keyed TreeMap UndoMap Chunk.

(** ** Fragments *)

Record Fragment : Type := mk_fragment {
  id : Locator.t;
  timestamp : Lamport.t;
  insertion_offset : N;
  flen : N;
  visible : bool;
  deletions : list Lamport.t;
  max_undos : Global.t
}.

Record FragmentTextSummary : Type := text_summary { sum_visible : N; sum_deleted : N }.

Record FragmentSummary : Type := fragment_summary {
  fs_text : FragmentTextSummary;
  max_id : Locator.t;
  max_version : Global.t;
  min_insertion_version : Global.t;
  max_insertion_version : Global.t
}.

Definition default_text_summary : FragmentTextSummary := text_summary 0 0.

(** [impl Default for FragmentSummary]. *)
Definition default_summary : FragmentSummary :=
  fragment_summary default_text_summary Locator.min Global.new Global.new Global.new.

Definition add_text (a b : FragmentTextSummary) : FragmentTextSummary :=
  text_summary (sum_visible a + sum_visible b) (sum_deleted a + sum_deleted b).

#[export] Instance fragment_summary_summary : Summary FragmentSummary :=
  {| summary_zero := default_summary;
     add_summary self other :=
       fragment_summary (add_text (fs_text self) (fs_text other))
         (Locator.assign (max_id self) (max_id other))
         (Global.join (max_version self) (max_version other))
         (Global.meet (min_insertion_version self) (min_insertion_version other))
         (Global.join (max_insertion_version self) (max_insertion_version other)) |}.

#[export] Instance fragment_item : Item Fragment FragmentSummary := λ f,
  let max_version := Global.observe Global.new (timestamp f) in
  let max_version := foldl Global.observe max_version (deletions f) in
  let max_version := Global.join max_version (max_undos f) in
  let min_insertion_version := Global.observe Global.new (timestamp f) in
  let max_insertion_version := min_insertion_version in
  if visible f
  then fragment_summary (text_summary (flen f) 0) (id f) max_version min_insertion_version max_insertion_version
  else fragment_summary (text_summary 0 (flen f)) (id f) max_version min_insertion_version max_insertion_version.

Abbreviation Fragments := (SumTree Fragment FragmentSummary).

(** [Fragment::is_visible] and [was_visible]; a lookup in the undo map may panic. *)
Fixpoint all_opt {A} (f : A → option bool) (l : list A) : option bool :=
  match l with
  | [] => Some true
  | x :: l => b ← f x; if b : bool then all_opt f l else Some false
  end.

Definition is_visible (f : Fragment) (undos : UndoMap) : option bool :=
  undone ← is_undone undos (timestamp f);
  if undone : bool then Some false else all_opt (is_undone undos) (deletions f).

Definition was_visible (f : Fragment) (version : Global.t) (undos : UndoMap) : option bool :=
  inserted ← (if Global.observed version (timestamp f)
              then undone ← was_undone undos (timestamp f) version; Some (negb undone) else Some false);
  if inserted : bool then
    all_opt (λ d, if negb (Global.observed version d) then Some true else was_undone undos d version) (deletions f)
  else Some false.

(** ** Dimensions *)

#[export] Instance text_summary_dimension : Dimension FragmentTextSummary FragmentSummary :=
  {| dim_zero := default_text_summary; dim_add d s := add_text d (fs_text s) |}.

(** [usize]: the visible text. *)
#[export] Instance visible_dimension : Dimension N FragmentSummary :=
  {| dim_zero := 0; dim_add d s := d + sum_visible (fs_text s) |}.

(** [FullOffset(usize)]: all the text. *)
Record FullOffset : Type := full_offset { offset : N }.

#[export] Instance full_offset_dimension : Dimension FullOffset FragmentSummary :=
  {| dim_zero := full_offset 0;
     dim_add d s := full_offset (offset d + (sum_visible (fs_text s) + sum_deleted (fs_text s))) |}.

(** [Option<&Locator>]. *)
#[export] Instance locator_dimension : Dimension (option Locator.t) FragmentSummary :=
  {| dim_zero := None; dim_add _ s := Some (max_id s) |}.

(** [SeekTarget] for [usize] over [FragmentTextSummary]. *)
Definition seek_visible (target : N) : SeekTarget FragmentTextSummary := λ d, cmp target (sum_visible d).

Inductive VersionedFullOffset : Type := Offset (o : N) | Invalid.

(** [None]: "invalid version". *)
Definition vfull_offset (v : VersionedFullOffset) : option N :=
  match v with Offset o => Some o | Invalid => None end.

Section versioned.
Context (version : Global.t).

(** The context of the summaries is [Some version]. *)
Definition versioned_dimension : Dimension VersionedFullOffset FragmentSummary :=
  {| dim_zero := Offset 0;
     dim_add d s :=
       match d with
       | Offset o =>
           if Global.observed_all version (max_insertion_version s)
           then Offset (o + (sum_visible (fs_text s) + sum_deleted (fs_text s)))
           else if Global.observed_any version (min_insertion_version s) then Invalid
           else d
       | Invalid => d
       end |}.
End versioned.

(** Only offsets are sought ([unreachable!] otherwise). *)
Definition seek_versioned (target : N) : SeekTarget VersionedFullOffset := λ d,
  match d with Offset o => cmp target o | Invalid => Lt end.

(** ** The fragments of an insertion *)

Record InsertionFragment : Type := mk_insertion_fragment {
  if_timestamp : Lamport.t;
  if_split_offset : N;
  if_fragment_id : Locator.t
}.

Record InsertionFragmentKey : Type := insertion_key { key_timestamp : Lamport.t; key_split_offset : N }.

Definition insertion_key_pair (k : InsertionFragmentKey) : Lamport.t * N := (key_timestamp k, key_split_offset k).

#[export] Instance ord_insertion_key : Ord InsertionFragmentKey :=
  λ a b, cmp (insertion_key_pair a) (insertion_key_pair b).

#[export] Instance insertion_key_summary : Summary InsertionFragmentKey :=
  {| summary_zero := insertion_key Lamport.MIN 0; add_summary _ other := other |}.

#[export] Instance insertion_fragment_item : Item InsertionFragment InsertionFragmentKey :=
  λ i, insertion_key (if_timestamp i) (if_split_offset i).

#[export] Instance insertion_fragment_keyed : KeyedItem InsertionFragment InsertionFragmentKey := item_summary.

Abbreviation Insertions := (SumTree InsertionFragment InsertionFragmentKey).

Definition insertion_fragment_new (f : Fragment) : InsertionFragment :=
  mk_insertion_fragment (timestamp f) (insertion_offset f) (id f).

Definition insert_new (f : Fragment) : Edit InsertionFragment InsertionFragmentKey :=
  Edit_Insert (insertion_fragment_new f).

(** ** The insertions touched by an edit *)

Record InsertionSlice : Type := mk_insertion_slice {
  slice_edit_id : Lamport.t;
  slice_insertion_id : Lamport.t;
  slice_start : N;
  slice_end : N
}.

#[export] Instance ord_insertion_slice : Ord InsertionSlice := λ a b,
  then_with (cmp (slice_edit_id a) (slice_edit_id b))
    (then_with (cmp (slice_insertion_id a) (slice_insertion_id b))
      (then_with (cmp (slice_start a) (slice_start b)) (cmp (slice_end a) (slice_end b)))).

Definition slice_from_fragment (edit_id : Lamport.t) (f : Fragment) : InsertionSlice :=
  mk_insertion_slice edit_id (timestamp f) (insertion_offset f) (wrap32 (insertion_offset f + flen f)).

(** ** Laws *)

#[export] Instance fragment_eq_dec : EqDecision Fragment.
Proof. solve_decision. Defined.

#[export] Instance ord_laws_insertion_key : OrdLaws InsertionFragmentKey.
Proof. apply (ord_laws_map insertion_key_pair); [done|]. intros [] [] [=]. by subst. Qed.

#[export] Instance ord_laws_insertion_slice : OrdLaws InsertionSlice.
Proof.
  apply (ord_laws_map (λ s, (slice_edit_id s, (slice_insertion_id s, (slice_start s, slice_end s))))); [done|].
  intros [] [] [=]. by subst.
Qed.

Definition valid_summary (s : FragmentSummary) : Prop :=
  Global.canonical (max_version s) ∧ Global.canonical (min_insertion_version s) ∧
  Global.canonical (max_insertion_version s).

Lemma fragment_summary_ext a b :
  fs_text a = fs_text b → max_id a = max_id b → max_version a = max_version b →
  min_insertion_version a = min_insertion_version b → max_insertion_version a = max_insertion_version b → a = b.
Proof. destruct a, b; simpl. by intros -> -> -> -> ->. Qed.

Lemma add_text_assoc a b c : add_text (add_text a b) c = add_text a (add_text b c).
Proof. destruct a, b, c. unfold add_text; simpl. f_equal; lia. Qed.

Lemma add_text_zero a : add_text default_text_summary a = a.
Proof. by destruct a. Qed.

#[export] Program Instance fragment_summary_laws : SummaryLaws FragmentSummary := {| valid := valid_summary |}.
Next Obligation. split_and!; apply Global.canonical_new. Qed.
Next Obligation.
  intros a b (? & ? & ?) (? & ? & ?). split_and!; cbn; auto using Global.canonical_join, Global.canonical_meet.
Qed.
Next Obligation.
  intros a (? & ? & ?). apply fragment_summary_ext; cbn;
    [apply add_text_zero|apply Locator.assign_eq|by apply join_new_l|by apply meet_new_l|by apply join_new_l].
Qed.
Next Obligation.
  intros a b c (? & ? & ?) (? & ? & ?) (? & ? & ?). apply fragment_summary_ext; cbn;
    [apply add_text_assoc|by rewrite !Locator.assign_eq|by apply join_assoc|by apply meet_assoc|by apply join_assoc].
Qed.

Lemma fragment_valid (f : Fragment) : Global.canonical (max_undos f) → valid (item_summary f).
Proof.
  intros Hu. unfold item_summary, fragment_item.
  destruct (visible f); split_and!; cbn; repeat first
    [apply Global.canonical_join|apply Global.canonical_observe|apply Global.canonical_new
    |apply Global.canonical_from_iter_acc|done].
Qed.

#[export] Program Instance text_summary_laws : DimensionLaws FragmentTextSummary FragmentSummary :=
  {| dvalid _ := True |}.
Next Obligation. done. Qed.
Next Obligation. done. Qed.
Next Obligation. intros d a b _ _ _. cbn. by rewrite add_text_assoc. Qed.

#[export] Program Instance visible_laws : DimensionLaws N FragmentSummary := {| dvalid _ := True |}.
Next Obligation. done. Qed.
Next Obligation. done. Qed.
Next Obligation. intros d a b _ _ _. cbn. lia. Qed.

#[export] Program Instance full_offset_laws : DimensionLaws FullOffset FragmentSummary := {| dvalid _ := True |}.
Next Obligation. done. Qed.
Next Obligation. done. Qed.
Next Obligation. intros d a b _ _ _. cbn. f_equal. lia. Qed.

#[export] Program Instance locator_laws : DimensionLaws (option Locator.t) FragmentSummary := {| dvalid _ := True |}.
Next Obligation. done. Qed.
Next Obligation. done. Qed.
Next Obligation. intros d a b _ _ _. cbn. by rewrite Locator.assign_eq. Qed.

#[export] Program Instance insertion_summary_laws : SummaryLaws InsertionFragmentKey := {| valid _ := True |}.
Solve Obligations with done.

#[export] Instance insertion_keyed_laws :
  KeyedLaws InsertionFragment InsertionFragmentKey InsertionFragmentKey.
Proof.
  split; [done|]. intros [t o]. change (then_with (cmp Lamport.MIN t) (cmp 0 o) ≠ Gt).
  pose proof (Lamport.MIN_le t) as Ht. unfold ole in Ht.
  destruct (cmp Lamport.MIN t); [|done|done]. by destruct o.
Qed.

(** The texts of fragments in the dimensions of text. *)
Definition fragment_text (f : Fragment) : FragmentTextSummary :=
  if visible f then text_summary (flen f) 0 else text_summary 0 (flen f).

Lemma item_fs_text f : fs_text (item_summary f) = fragment_text f.
Proof. unfold item_summary, fragment_item, fragment_text. by destruct (visible f). Qed.

Lemma item_max_id f : max_id (item_summary f) = id f.
Proof. unfold item_summary, fragment_item. by destruct (visible f). Qed.
