(* ===== verification/RopeBuilder.v ===== *)
(** * RopeBuilder: rebuilding the two texts of a buffer

    Models [RopeBuilder] of [crates/text/src/text.rs].  A buffer holds its visible and
    its deleted text in two ropes; an operation walks over the fragments and moves
    the text of each from the old ropes to the new ones, to the other side when
    the fragment appears or disappears.  [builds] relates a builder to what remains
    of the old texts and to the new ones. *)

From S2P Require Import Prelude Bits Utf8 SumTree SumTreeSpec SumTreeFind Cursor CursorSpec CursorFacts.
From S2P Require Import TextSummary Chunk ChunkFacts ChunkConvert Rope RopeFacts RopeConvert RopeEdit RopeSlice.
From S2P Require Import Fragment.

Record RopeBuilder : Type := mk_builder {
  old_visible_cursor : RopeCursor;
  old_deleted_cursor : RopeCursor;
  new_visible : Rope;
  new_deleted : Rope
}.

Definition builder_new (old_visible_cursor old_deleted_cursor : RopeCursor) : RopeBuilder :=
  mk_builder old_visible_cursor old_deleted_cursor rope_new rope_new.

Definition builder_push (b : RopeBuilder) (n : N) (was_visible is_visible : bool) : option RopeBuilder :=
  '(b, text) ←
    (if was_visible then
       '(c, text) ← rc_slice (old_visible_cursor b) (rc_offset (old_visible_cursor b) + n);
       Some (mk_builder c (old_deleted_cursor b) (new_visible b) (new_deleted b), text)
     else
       '(c, text) ← rc_slice (old_deleted_cursor b) (rc_offset (old_deleted_cursor b) + n);
       Some (mk_builder (old_visible_cursor b) c (new_visible b) (new_deleted b), text));
  if is_visible then
    r ← rope_append (new_visible b) text;
    Some (mk_builder (old_visible_cursor b) (old_deleted_cursor b) r (new_deleted b))
  else
    r ← rope_append (new_deleted b) text;
    Some (mk_builder (old_visible_cursor b) (old_deleted_cursor b) (new_visible b) r).

Definition builder_append (b : RopeBuilder) (n : FragmentTextSummary) : option RopeBuilder :=
  b ← builder_push b (sum_visible n) true true;
  builder_push b (sum_deleted n) false false.

Definition builder_push_fragment (b : RopeBuilder) (f : Fragment) (was_visible : bool) : option RopeBuilder :=
  builder_push b (flen f) was_visible (visible f).

Definition builder_push_str (b : RopeBuilder) (text : str) : option RopeBuilder :=
  r ← rope_push (new_visible b) text;
  Some (mk_builder (old_visible_cursor b) (old_deleted_cursor b) r (new_deleted b)).

Definition builder_finish (b : RopeBuilder) : option (Rope * Rope) :=
  rest ← rc_suffix (old_visible_cursor b);
  v ← rope_append (new_visible b) rest;
  rest ← rc_suffix (old_deleted_cursor b);
  d ← rope_append (new_deleted b) rest;
  Some (v, d).

(** ** Ropes whose slices fit the stack of a cursor

    A slice is joined from subtrees and could in principle be higher than the rope it
    is taken from; [append] walks over it with a cursor, whose stack has 16 entries. *)
Definition sliceable (r : Rope) (t : str) : Prop :=
  rope_inv r t ∧ len t < 2 ^ 32 ∧ shallow r ∧
  ∀ c o e, rc_at c r t o → o ≤ e ≤ len t →
    rc_shallow c e ∧ ∀ c' s, rc_slice c e = Some (c', s) → shallow s.

(** A cursor before the rest [rest] of a text. *)
Definition before (c : RopeCursor) (rest : str) : Prop :=
  ∃ r a, rc_at c r (a ++ rest) (len a) ∧ sliceable r (a ++ rest) ∧ utf8 a ∧ utf8 rest.

Lemma sliceable_utf8 r t : sliceable r t → utf8 t.
Proof. intros ([? _] & _). by eapply repr_utf8. Qed.

Lemma before_start r t : sliceable r t → ∃ c, rope_cursor_at r 0 = Some c ∧ before c t.
Proof.
  intros Hs. pose proof Hs as (Hr & Hl & Hsh & _).
  destruct (rope_cursor_at_spec r t Hr Hsh Hl 0) as (c & Hc & Hat); [lia|].
  exists c. split; [done|]. exists r, []. split_and!; [done|done|apply utf8_nil|by eapply sliceable_utf8].
Qed.

Lemma before_slice c p rest : before c (p ++ rest) → utf8 p →
  ∃ c' s, rc_slice c (rc_offset c + len p) = Some (c', s) ∧ before c' rest ∧ rope_inv s p ∧ shallow s.
Proof.
  intros (r & a & Hc & Hs & Ha & Hrest) Hp. pose proof (utf8_app_inv _ _ Hp Hrest) as Hrest'.
  pose proof Hs as (Hr & Hl & Hsh & Hsl). rewrite (rc_at_offset _ _ _ _ Hc).
  assert (len a ≤ len a + len p ≤ len (a ++ p ++ rest)) as Hle by (rewrite !len_app; lia).
  destruct (Hsl _ _ _ Hc Hle) as [Hshc Hshs].
  destruct (rc_slice_spec r _ Hr Hl c _ _ Hc Hle Hshc) as (c' & s & Hsl' & Hc' & Hinv).
  { by apply boundary_app. }
  { rewrite (assoc_L (++)), <- len_app. by apply boundary_app. }
  exists c', s. split; [done|]. split_and!; [|..|by eapply Hshs].
  - exists r, (a ++ p). rewrite <- (assoc_L (++)), len_app. split_and!; [done|done|by apply utf8_app|done].
  - replace (len a + len p - len a) with (len p) in Hinv by lia.
    rewrite ldrop_app_r, N.sub_diag, ldrop_0, ltake_app_l, ltake_ge in Hinv by lia. done.
Qed.

Lemma before_suffix c rest : before c rest →
  ∃ s, rc_suffix c = Some s ∧ rope_inv s rest ∧ shallow s.
Proof.
  intros Hc. pose proof Hc as (r & a & Hat & Hs & Ha & Hrest).
  rewrite <- (app_nil_r rest) in Hc. destruct (before_slice c rest [] Hc Hrest) as (c' & s & Hsl & _ & ? & ?).
  exists s. split_and!; [|done..]. unfold rc_suffix. pose proof Hs as ([Hr _] & _).
  rewrite (rc_at_rope _ _ _ _ Hat), (rope_len_spec _ _ Hr), len_app, <- (rc_at_offset _ _ _ _ Hat), Hsl. done.
Qed.

(** ** The builder *)

Record builds (b : RopeBuilder) (rv rd nv nd : str) : Prop := {
  builds_old_visible : before (old_visible_cursor b) rv;
  builds_old_deleted : before (old_deleted_cursor b) rd;
  builds_new_visible : rope_inv (new_visible b) nv;
  builds_new_deleted : rope_inv (new_deleted b) nd
}.

Lemma builder_new_spec v d tv td : sliceable v tv → sliceable d td →
  ∃ cv cd, rope_cursor_at v 0 = Some cv ∧ rope_cursor_at d 0 = Some cd ∧ builds (builder_new cv cd) tv td [] [].
Proof.
  intros (cv & ? & ?)%before_start (cd & ? & ?)%before_start. exists cv, cd.
  split_and!; [done|done|]. split; [done|done|apply rope_inv_new..].
Qed.

Lemma builder_push_spec b p rv rd nv nd (was now : bool) :
  builds b (if was then p ++ rv else rv) (if was then rd else p ++ rd) nv nd → utf8 p →
  ∃ b', builder_push b (len p) was now = Some b' ∧
    builds b' rv rd (if now then nv ++ p else nv) (if now then nd else nd ++ p).
Proof.
  intros [Hv Hd Hnv Hnd] Hp. unfold builder_push.
  destruct was.
  - destruct (before_slice _ _ _ Hv Hp) as (c & s & -> & Hc & Hs & Hsh). cbn.
    destruct now.
    + destruct (rope_append_spec _ _ _ _ Hnv Hs Hsh) as (r & -> & Hr). cbn. eexists. split; [done|]. by split.
    + destruct (rope_append_spec _ _ _ _ Hnd Hs Hsh) as (r & -> & Hr). cbn. eexists. split; [done|]. by split.
  - destruct (before_slice _ _ _ Hd Hp) as (c & s & -> & Hc & Hs & Hsh). cbn.
    destruct now.
    + destruct (rope_append_spec _ _ _ _ Hnv Hs Hsh) as (r & -> & Hr). cbn. eexists. split; [done|]. by split.
    + destruct (rope_append_spec _ _ _ _ Hnd Hs Hsh) as (r & -> & Hr). cbn. eexists. split; [done|]. by split.
Qed.

Lemma builder_append_spec b n pv pd rv rd nv nd :
  builds b (pv ++ rv) (pd ++ rd) nv nd → utf8 pv → utf8 pd → n = text_summary (len pv) (len pd) →
  ∃ b', builder_append b n = Some b' ∧ builds b' rv rd (nv ++ pv) (nd ++ pd).
Proof.
  intros Hb Hpv Hpd ->. unfold builder_append. cbn [sum_visible sum_deleted].
  destruct (builder_push_spec b pv rv (pd ++ rd) nv nd true true Hb Hpv) as (b1 & -> & Hb1). cbn [mbind option_bind].
  apply (builder_push_spec b1 pd rv rd (nv ++ pv) nd false false Hb1 Hpd).
Qed.

Lemma builder_push_str_spec b u rv rd nv nd :
  builds b rv rd nv nd → utf8 u → ∃ b', builder_push_str b u = Some b' ∧ builds b' rv rd (nv ++ u) nd.
Proof.
  intros [Hv Hd Hnv Hnd] Hu. unfold builder_push_str.
  destruct (rope_push_spec _ _ _ Hnv Hu) as (r & -> & Hr). cbn. eexists. split; [done|]. by split.
Qed.

Lemma builder_finish_spec b rv rd nv nd :
  builds b rv rd nv nd → ∃ v d, builder_finish b = Some (v, d) ∧ rope_inv v (nv ++ rv) ∧ rope_inv d (nd ++ rd).
Proof.
  intros [Hv Hd Hnv Hnd]. unfold builder_finish.
  destruct (before_suffix _ _ Hv) as (sv & -> & Hsv & Hshv). cbn.
  destruct (rope_append_spec _ _ _ _ Hnv Hsv Hshv) as (v & -> & Hiv). cbn.
  destruct (before_suffix _ _ Hd) as (sd & -> & Hsd & Hshd). cbn.
  destruct (rope_append_spec _ _ _ _ Hnd Hsd Hshd) as (d & -> & Hid). cbn. eauto.
Qed.
