(* ===== verification/Buffer.v ===== *)
(** * Buffer: the collaborative text buffer

    Models [Buffer] and [BufferSnapshot] of [crates/text/src/text.rs]: construction, local
    and remote edits, undo and redo, and the deferral of operations that arrive before
    what they depend on.  The loops of [apply_local_edit], [apply_remote_edit] and [apply_undo]
    thread a record [editing] through their rounds: the cursor over the old fragments, the new
    fragments, the builder of the texts, the lists that become edits of the insertions and
    slices, the patch, and [fragment_start].  [None] is a panic.

    Notifications ([edit_id_resolvers], [wait_for_version_txs]) are left out: they are channels
    to waiting tasks and change nothing else.  Times are arguments.  Edits come with
    [usize] ranges. *)

From S2P Require Import Prelude Clock Locator UndoMap OperationQueue Patch Subscription History Bits Utf8.
From S2P Require Import LineEnding TextSummary Chunk Rope Keyed TreeMap SumTree SumTreeSpec SumTreeFind Cursor.
From S2P Require Import CursorSpec CursorFacts Fragment RopeBuilder.

(** ** State *)

Record BufferSnapshot : Type := mk_snapshot {
  visible_text : Rope;
  deleted_text : Rope;
  fragments : Fragments;
  insertions : Insertions;
  insertion_slices : map_tree InsertionSlice unit;
  undo_map : UndoMap;
  version : Global.t;
  remote_id : N;
  snapshot_replica_id : ReplicaId;
  line_ending : LineEnding
}.

(** [HashSet<ReplicaId>] is a list, of which only membership matters. *)
Record Buffer : Type := mk_buffer {
  snapshot : BufferSnapshot;
  history : History Rope;
  deferred_ops : SumTree (OperationItem Operation) OperationSummary;
  deferred_replicas : list ReplicaId;
  lamport_clock : Lamport.t;
  subscriptions : Topic nat
}.

Definition MAX_INSERTION_LEN : N := 2 ^ 32 - 1.

Definition with_snapshot (b : Buffer) (s : BufferSnapshot) : Buffer :=
  mk_buffer s (history b) (deferred_ops b) (deferred_replicas b) (lamport_clock b) (subscriptions b).
Definition with_history (b : Buffer) (h : History Rope) : Buffer :=
  mk_buffer (snapshot b) h (deferred_ops b) (deferred_replicas b) (lamport_clock b) (subscriptions b).
Definition with_clock (b : Buffer) (c : Lamport.t) : Buffer :=
  mk_buffer (snapshot b) (history b) (deferred_ops b) (deferred_replicas b) c (subscriptions b).
Definition with_subscriptions (b : Buffer) (t : Topic nat) : Buffer :=
  mk_buffer (snapshot b) (history b) (deferred_ops b) (deferred_replicas b) (lamport_clock b) t.
Definition with_deferred (b : Buffer) (ops : SumTree (OperationItem Operation) OperationSummary)
    (replicas : list ReplicaId) : Buffer :=
  mk_buffer (snapshot b) (history b) ops replicas (lamport_clock b) (subscriptions b).

Definition with_version (s : BufferSnapshot) (v : Global.t) : BufferSnapshot :=
  mk_snapshot (visible_text s) (deleted_text s) (fragments s) (insertions s) (insertion_slices s) (undo_map s)
    v (remote_id s) (snapshot_replica_id s) (line_ending s).
Definition with_undo_map (s : BufferSnapshot) (m : UndoMap) : BufferSnapshot :=
  mk_snapshot (visible_text s) (deleted_text s) (fragments s) (insertions s) (insertion_slices s) m
    (version s) (remote_id s) (snapshot_replica_id s) (line_ending s).

(** [snapshot.version.observe(timestamp)]. *)
Definition observe_version (b : Buffer) (ts : Lamport.t) : Buffer :=
  with_snapshot b (with_version (snapshot b) (Global.observe (version (snapshot b)) ts)).

Definition observe_clock (b : Buffer) (ts : Lamport.t) : Buffer :=
  with_clock b (Lamport.observe (lamport_clock b) ts).

(** ** Construction *)

(** The loop of [new_normalized]: the pieces that the base text is inserted in. *)
Fixpoint base_fragments (fuel : nat) (text : Rope) (ts : Lamport.t) (insertion_offset text_offset : N)
    (prev_locator : Locator.t) (insertions : Insertions) (fragments : Fragments) : option (Insertions * Fragments) :=
  if text_offset <? rope_len text then
    match fuel with
    | O => None
    | Datatypes.S fuel =>
        let target_end := N.min (rope_len text) (text_offset + MAX_INSERTION_LEN) in
        let chunk_end := if target_end =? rope_len text then target_end
                         else rope_floor_char_boundary text target_end in
        let chunk_len := usub chunk_end text_offset in
        let fragment_id := Locator.between prev_locator Locator.max in
        let fragment := mk_fragment fragment_id ts insertion_offset (wrap32 chunk_len) true [] Global.new in
        insertions ← push insertions (insertion_fragment_new fragment);
        fragments ← push fragments fragment;
        base_fragments fuel text ts (wrap32 (insertion_offset + wrap32 chunk_len)) chunk_end fragment_id
          insertions fragments
    end
  else Some (insertions, fragments).

Definition buffer_new_normalized (replica_id : ReplicaId) (remote_id : N) (line_ending : LineEnding)
    (normalized : Rope) : option Buffer :=
  let history := History.new normalized in
  let lamport_clock := Lamport.new replica_id in
  '(lamport_clock, version, insertions, fragments) ←
    (if rope_is_empty normalized then Some (lamport_clock, Global.new, tree_new, tree_new)
     else
       let insertion_timestamp := Lamport.new LOCAL in
       '(insertions, fragments) ←
         base_fragments (N.to_nat (rope_len normalized)) normalized insertion_timestamp 0 0 Locator.min
           tree_new tree_new;
       Some (Lamport.observe lamport_clock insertion_timestamp,
             Global.observe Global.new insertion_timestamp, insertions, fragments));
  Some (mk_buffer
    (mk_snapshot normalized rope_new fragments insertions tree_new empty_undo_map version remote_id replica_id
       line_ending)
    history queue_new [] lamport_clock topic_default).

Definition buffer_new (replica_id : ReplicaId) (remote_id : N) (base_text : str) : option Buffer :=
  let line_ending := detect base_text in
  let base_text := normalize base_text in
  rope ← rope_from_str base_text;
  buffer_new_normalized replica_id remote_id line_ending rope.

Definition branch (b : Buffer) : Buffer :=
  mk_buffer (snapshot b) (History.new (base_text (history b))) queue_new [] (Lamport.new LOCAL_BRANCH) topic_default.

Definition set_line_ending (b : Buffer) (e : LineEnding) : Buffer :=
  let s := snapshot b in
  with_snapshot b (mk_snapshot (visible_text s) (deleted_text s) (fragments s) (insertions s) (insertion_slices s)
    (undo_map s) (version s) (remote_id s) (snapshot_replica_id s) e).

(** ** Editing *)

(** The patches are made of [usize] offsets. *)
Definition patch_edit (old_start old_end new_start new_end : N) : Patch.Edit nat :=
  mk_edit (mk_range (N.to_nat old_start) (N.to_nat old_end)) (mk_range (N.to_nat new_start) (N.to_nat new_end)).

(** A clone of [f] with this length, [delta] further into the insertion. *)
Definition cut (f : Fragment) (n delta : N) : Fragment :=
  mk_fragment (id f) (timestamp f) (wrap32 (insertion_offset f + wrap32 delta)) (wrap32 n) (visible f)
    (deletions f) (max_undos f).

Definition with_id (f : Fragment) (i : Locator.t) : Fragment :=
  mk_fragment i (timestamp f) (insertion_offset f) (flen f) (visible f) (deletions f) (max_undos f).

(** [deletions.push(timestamp)] and [visible = false]. *)
Definition mark_deleted (f : Fragment) (ts : Lamport.t) : Fragment :=
  mk_fragment (id f) (timestamp f) (insertion_offset f) (flen f) false (deletions f ++ [ts]) (max_undos f).

Section editing.
Context {D : Type} `{!Dimension D FragmentSummary}.

Record editing : Type := mk_editing {
  old_fragments : Cursor Fragment FragmentSummary D;
  new_fragments : Fragments;
  new_ropes : RopeBuilder;
  new_insertions : list (Keyed.Edit InsertionFragment InsertionFragmentKey);
  new_slices : list InsertionSlice;
  next_offset : N;
  edits_patch : Patch nat;
  fragment_start : N
}.
Implicit Types st : editing.

Definition with_cursor st c : editing :=
  mk_editing c (new_fragments st) (new_ropes st) (new_insertions st) (new_slices st) (next_offset st)
    (edits_patch st) (fragment_start st).
Definition with_start st o : editing :=
  mk_editing (old_fragments st) (new_fragments st) (new_ropes st) (new_insertions st) (new_slices st)
    (next_offset st) (edits_patch st) o.
Definition with_patch st e : editing :=
  mk_editing (old_fragments st) (new_fragments st) (new_ropes st) (new_insertions st) (new_slices st)
    (next_offset st) (Patch.push (edits_patch st) e) (fragment_start st).
Definition with_slice st s : editing :=
  mk_editing (old_fragments st) (new_fragments st) (new_ropes st) (new_insertions st) (new_slices st ++ [s])
    (next_offset st) (edits_patch st) (fragment_start st).

(** [new_fragments.summary().max_id] and [.text.visible]. *)
Definition last_id st : Locator.t := max_id (tree_summary (new_fragments st)).
Definition new_visible_len st : N := sum_visible (fs_text (tree_summary (new_fragments st))).

(** [new_ropes.push_fragment(..)] and [new_fragments.push(..)]. *)
Definition push_kept st (f : Fragment) (was_visible : bool) : option editing :=
  ropes ← builder_push_fragment (new_ropes st) f was_visible;
  fragments ← push (new_fragments st) f;
  Some (mk_editing (old_fragments st) fragments ropes (new_insertions st) (new_slices st) (next_offset st)
          (edits_patch st) (fragment_start st)).

(** The same after [new_insertions.push(InsertionFragment::insert_new(..))]. *)
Definition push_piece st (f : Fragment) (was_visible : bool) : option editing :=
  push_kept (mk_editing (old_fragments st) (new_fragments st) (new_ropes st) (new_insertions st ++ [insert_new f])
               (new_slices st) (next_offset st) (edits_patch st) (fragment_start st)) f was_visible.

(** Slicing the old fragments up to a target. *)
Definition append_slice st (target : SeekTarget D) (bias : Bias) : option editing :=
  '(c, slice) ← Cursor.slice target bias (old_fragments st);
  ropes ← builder_append (new_ropes st) (fs_text (tree_summary slice));
  fragments ← append (new_fragments st) slice;
  Some (mk_editing c fragments ropes (new_insertions st) (new_slices st) (next_offset st)
          (edits_patch st) (fragment_start st)).

Definition advance st : option editing := c ← next (old_fragments st); Some (with_cursor st c).

(** The offset that a position of the cursor stands for; [None] is a panic. *)
Context (at_ : D → option N).

Definition start_offset st : option N := at_ (Cursor.start (old_fragments st)).
Definition end_offset st : option N := d ← Cursor.end_ (old_fragments st); at_ d.
Definition current st : option Fragment := i ← Cursor.item (old_fragments st); i (* unwrap *).

(** "If the current fragment has been partially consumed, then consume the rest of it and
    advance to the next fragment." *)
Definition consume_suffix st : option editing :=
  start ← start_offset st;
  if start <? fragment_start st then
    fragment_end ← end_offset st;
    st ← (if fragment_start st <? fragment_end then
            f ← current st;
            let suffix := cut f (usub fragment_end (fragment_start st)) (usub (fragment_start st) start) in
            push_piece st suffix (visible suffix)
          else Some st);
    advance st
  else Some st.

(** "Preserve any portion of the current fragment that precedes this range." *)
Definition push_prefix st (range_start : N) : option editing :=
  if fragment_start st <? range_start then
    f ← current st;
    start ← start_offset st;
    let prefix := cut f (usub range_start (fragment_start st)) (usub (fragment_start st) start) in
    let prefix := with_id prefix (Locator.between (last_id st) (id prefix)) in
    st ← push_piece st prefix (visible prefix);
    Some (with_start st range_start)
  else Some st.

(** The loop of [push_fragments_for_insertion]. *)
Fixpoint push_insertion_loop (fuel : nat) st (new_text : str) (ts : Lamport.t) (next_fragment_id : Locator.t)
    (text_offset : N) : option editing :=
  if text_offset <? len new_text then
    match fuel with
    | O => None
    | Datatypes.S fuel =>
        let target_end := N.min (len new_text) (text_offset + MAX_INSERTION_LEN) in
        let chunk_end := if target_end =? len new_text then target_end
                         else str_floor_char_boundary new_text target_end in
        if chunk_end =? text_offset then Some st
        else
          let chunk_len := usub chunk_end text_offset in
          let f := mk_fragment (Locator.between (last_id st) next_fragment_id) ts (next_offset st)
                     (wrap32 chunk_len) true [] Global.new in
          fragments ← push (new_fragments st) f;
          let st := mk_editing (old_fragments st) fragments (new_ropes st) (new_insertions st ++ [insert_new f])
                      (new_slices st ++ [slice_from_fragment ts f]) (wrap32 (next_offset st + wrap32 chunk_len))
                      (edits_patch st) (fragment_start st) in
          push_insertion_loop fuel st new_text ts next_fragment_id chunk_end
    end
  else Some st.

Definition push_fragments_for_insertion st (new_text : str) (ts : Lamport.t) (next_fragment_id : Locator.t) :
    option editing :=
  st ← push_insertion_loop (length new_text) st new_text ts next_fragment_id 0;
  ropes ← builder_push_str (new_ropes st) new_text;
  Some (mk_editing (old_fragments st) (new_fragments st) ropes (new_insertions st) (new_slices st) (next_offset st)
          (edits_patch st) (fragment_start st)).

(** [old_fragments.item().map_or(Locator::max_ref(), |f| &f.id)]. *)
Definition next_fragment_id st : option Locator.t :=
  i ← Cursor.item (old_fragments st);
  Some (match i with Some f => id f | None => Locator.max end).

(** The end of both edits: the rest of the fragments and of the texts. *)
Definition finish_editing st : option (editing * Fragments * Rope * Rope) :=
  st ← consume_suffix st;
  '(_, suffix) ← Cursor.suffix (old_fragments st);
  ropes ← builder_append (new_ropes st) (fs_text (tree_summary suffix));
  fragments ← append (new_fragments st) suffix;
  '(v, d) ← builder_finish ropes;
  Some (st, fragments, v, d).
End editing.
Arguments editing D : clear implicits.

(** *** Local edits *)

Definition local_at (d : FragmentTextSummary) : option N := Some (sum_visible d).
Abbreviation local_editing := (editing FragmentTextSummary).

(** Jumping ahead to the first fragment that extends past the start of the range. *)
Definition local_jump (st : local_editing) (range_start : N) : option local_editing :=
  fragment_end ← end_offset local_at st;
  if fragment_end <? range_start then
    st ← consume_suffix local_at st;
    st ← append_slice st (seek_visible range_start) Right;
    o ← start_offset local_at st;
    Some (with_start st o)
  else Some st.

Definition local_insert (st : local_editing) (new_text : str) (ts : Lamport.t) : option local_editing :=
  match new_text with
  | [] => Some st
  | _ =>
      let new_start := new_visible_len st in
      next_id ← next_fragment_id st;
      st ← push_fragments_for_insertion st new_text ts next_id;
      Some (with_patch st (patch_edit (fragment_start st) (fragment_start st) new_start (new_start + len new_text)))
  end.

(** One round of the loop that marks the fragments of the range as deleted. *)
Definition local_delete_step (st : local_editing) (range_end : N) (ts : Lamport.t) : option local_editing :=
  fragment ← current st;
  fragment_end ← end_offset local_at st;
  start ← start_offset local_at st;
  let intersection_end := N.min range_end fragment_end in
  let intersection :=
    if visible fragment then
      let i := cut fragment (usub intersection_end (fragment_start st)) (usub (fragment_start st) start) in
      mark_deleted (with_id i (Locator.between (last_id st) (id i))) ts
    else fragment in
  st ←
    (if 0 <? flen intersection then
       let st :=
         if visible fragment && negb (visible intersection) then
           let new_start := new_visible_len st in
           let st := with_patch st (patch_edit (fragment_start st) intersection_end new_start new_start) in
           with_slice st (slice_from_fragment ts intersection)
         else st in
       st ← push_piece st intersection (visible fragment);
       Some (with_start st intersection_end)
     else Some st);
  if fragment_end <=? range_end then advance st else Some st.

(** [while fragment_start < range.end]. *)
Fixpoint local_delete (fuel : nat) (st : local_editing) (range_end : N) (ts : Lamport.t) : option local_editing :=
  if fragment_start st <? range_end then
    match fuel with
    | O => None
    | Datatypes.S fuel => st ← local_delete_step st range_end ts; local_delete fuel st range_end ts
    end
  else Some st.

(** The position of the cursor in the whole text. *)
Definition full_position (st : local_editing) (o : N) : N := o + sum_deleted (Cursor.start (old_fragments st)).

(** One round of the loop over the edits; also the full range of the edit. *)
Definition local_edit_step (st : local_editing) (range : Range N) (new_text : str) (ts : Lamport.t) :
    option (local_editing * Range N) :=
  st ← local_jump st (Patch.start range);
  let full_range_start := full_position st (Patch.start range) in
  st ← push_prefix local_at st (Patch.start range);
  st ← local_insert st new_text ts;
  st ← local_delete (cost (cursor_tree (old_fragments st))) st (Patch.end_ range) ts;
  let full_range_end := full_position st (Patch.end_ range) in
  Some (st, mk_range full_range_start full_range_end).

Fixpoint local_edits (st : local_editing) (edits : list (Range N * str)) (ts : Lamport.t) :
    option (local_editing * list (Range N)) :=
  match edits with
  | [] => Some (st, [])
  | (range, new_text) :: edits =>
      '(st, full) ← local_edit_step st range new_text ts;
      '(st, fulls) ← local_edits st edits ts;
      Some (st, full :: fulls)
  end.

(** Replacing the fragments and texts, the insertions, the slices, and publishing. *)
Definition commit_edit {D} (b : Buffer) (parts : editing D * Fragments * Rope * Rope) : option Buffer :=
  let '(st, fragments, v, d) := parts in
  let s := snapshot b in
  '(insertions, _) ← Keyed.edit (insertions s) (new_insertions st);
  subscriptions ← publish (subscriptions b) (edits_patch st);
  slices ← TreeSet.extend (insertion_slices s) (new_slices st);
  Some (with_subscriptions (with_snapshot b
    (mk_snapshot v d fragments insertions slices (undo_map s) (version s) (remote_id s) (snapshot_replica_id s)
       (line_ending s))) subscriptions).

(** [usize::to_offset]: down to a character boundary. *)
Definition to_offset (s : BufferSnapshot) (o : N) : N :=
  if rope_is_char_boundary (visible_text s) o then o else rope_floor_char_boundary (visible_text s) o.

Definition range_to_offset (s : BufferSnapshot) (r : Range N) : Range N :=
  mk_range (to_offset s (Patch.start r)) (to_offset s (Patch.end_ r)).

Definition apply_local_edit (b : Buffer) (edits : list (Range N * str)) (ts : Lamport.t) :
    option (Buffer * EditOperation) :=
  let s := snapshot b in
  let edits := (λ '(range, new_text), (range_to_offset s range, normalize new_text)) <$> edits in
  cv ← rope_cursor_at (visible_text s) 0;
  cd ← rope_cursor_at (deleted_text s) 0;
  '(first, _) ← head edits; (* unwrap *)
  st ← append_slice (mk_editing (cursor_new (fragments s)) tree_new (builder_new cv cd) [] [] 0 [] 0)
         (seek_visible (Patch.start first)) Right;
  o ← start_offset local_at st;
  '(st, ranges) ← local_edits (with_start st o) edits ts;
  parts ← finish_editing local_at st;
  b' ← commit_edit b parts;
  Some (b', {| edit_timestamp := ts; edit_version := version s; ranges := ranges; new_text := edits.*2 |}).

(** *** Remote edits *)

Section remote.
Context (seen : Global.t).

(** [Dimensions<VersionedFullOffset, usize>] in the context of the version of the edit. *)
Abbreviation D := (VersionedFullOffset * N)%type.
#[local] Instance remote_dimension : Dimension D FragmentSummary :=
  @dim_pair _ _ _ (versioned_dimension seen) visible_dimension.

Definition remote_at (d : D) : option N := vfull_offset d.1.
Abbreviation remote_editing := (editing D).
Definition seek_full (o : N) : SeekTarget D := seek_fst (seek_versioned o).

Definition remote_jump (st : remote_editing) (range_start : N) : option remote_editing :=
  fragment_end ← end_offset remote_at st;
  if fragment_end <? range_start then
    st ← consume_suffix remote_at st;
    st ← append_slice st (seek_full range_start) Left;
    o ← start_offset remote_at st;
    Some (with_start st o)
  else Some st.

(** "If we are at the end of a non-concurrent fragment, advance to the next one." *)
Definition remote_step_over (st : remote_editing) (range_start : N) : option remote_editing :=
  fragment_end ← end_offset remote_at st;
  if (fragment_end =? range_start) && (fragment_start st <? fragment_end) then
    f ← current st;
    start ← start_offset remote_at st;
    let fragment := cut f (usub fragment_end (fragment_start st)) (usub (fragment_start st) start) in
    st ← push_piece st fragment (visible fragment);
    st ← advance st;
    o ← start_offset remote_at st;
    Some (with_start st o)
  else Some st.

(** Skipping concurrent insertions. *)
Fixpoint remote_skip (fuel : nat) (st : remote_editing) (range_start : N) (ts : Lamport.t) : option remote_editing :=
  i ← Cursor.item (old_fragments st);
  match i with
  | Some fragment =>
      if (fragment_start st =? range_start) && ltb_ord ts (timestamp fragment) then
        match fuel with
        | O => None
        | Datatypes.S fuel =>
            st ← push_kept st fragment (visible fragment);
            st ← advance st;
            remote_skip fuel st range_start ts
        end
      else Some st
  | None => Some st
  end.

Definition remote_insert (st : remote_editing) (new_text : str) (ts : Lamport.t) : option remote_editing :=
  match new_text with
  | [] => Some st
  | _ =>
      let old_start := (Cursor.start (old_fragments st)).2 in
      i ← Cursor.item (old_fragments st);
      start ← start_offset remote_at st;
      let old_start := match i with
                       | Some f => if visible f then old_start + usub (fragment_start st) start else old_start
                       | None => old_start
                       end in
      let new_start := new_visible_len st in
      next_id ← next_fragment_id st;
      st ← push_fragments_for_insertion st new_text ts next_id;
      Some (with_patch st (patch_edit old_start old_start new_start (new_start + len new_text)))
  end.

Definition remote_delete_step (undos : UndoMap) (st : remote_editing) (range_end : N) (ts : Lamport.t) :
    option remote_editing :=
  fragment ← current st;
  fragment_end ← end_offset remote_at st;
  start ← start_offset remote_at st;
  let intersection_end := N.min range_end fragment_end in
  was ← was_visible fragment seen undos;
  let '(st, intersection) :=
    if was : bool then
      let i := cut fragment (usub intersection_end (fragment_start st)) (usub (fragment_start st) start) in
      let i := mark_deleted (with_id i (Locator.between (last_id st) (id i))) ts in
      (with_slice st (slice_from_fragment ts i), i)
    else (st, fragment) in
  st ←
    (if 0 <? flen intersection then
       let st :=
         if visible fragment && negb (visible intersection) then
           let old_start := (Cursor.start (old_fragments st)).2 + usub (fragment_start st) start in
           let new_start := new_visible_len st in
           with_patch st (patch_edit old_start (old_start + flen intersection) new_start new_start)
         else st in
       st ← push_piece st intersection (visible fragment);
       Some (with_start st intersection_end)
     else Some st);
  if fragment_end <=? range_end then advance st else Some st.

Fixpoint remote_delete (fuel : nat) (undos : UndoMap) (st : remote_editing) (range_end : N) (ts : Lamport.t) :
    option remote_editing :=
  if fragment_start st <? range_end then
    match fuel with
    | O => None
    | Datatypes.S fuel =>
        st ← remote_delete_step undos st range_end ts; remote_delete fuel undos st range_end ts
    end
  else Some st.

Definition remote_edit_step (undos : UndoMap) (st : remote_editing) (range : Range N) (new_text : str)
    (ts : Lamport.t) : option remote_editing :=
  let fuel := cost (cursor_tree (old_fragments st)) in
  st ← remote_jump st (Patch.start range);
  st ← remote_step_over st (Patch.start range);
  st ← remote_skip fuel st (Patch.start range) ts;
  st ← push_prefix remote_at st (Patch.start range);
  st ← remote_insert st new_text ts;
  remote_delete fuel undos st (Patch.end_ range) ts.

Fixpoint remote_edits (undos : UndoMap) (st : remote_editing) (edits : list (Range N * str)) (ts : Lamport.t) :
    option remote_editing :=
  match edits with
  | [] => Some st
  | (range, new_text) :: edits =>
      st ← remote_edit_step undos st range new_text ts;
      remote_edits undos st edits ts
  end.

Definition apply_remote_edit (b : Buffer) (ranges : list (Range N)) (new_text : list str) (ts : Lamport.t) :
    option Buffer :=
  match ranges with
  | [] => Some b
  | first :: _ =>
      let s := snapshot b in
      cv ← rope_cursor_at (visible_text s) 0;
      cd ← rope_cursor_at (deleted_text s) 0;
      st ← append_slice (mk_editing (cursor_new (fragments s)) tree_new (builder_new cv cd) [] [] 0 [] 0)
             (seek_full (Patch.start first)) Left;
      o ← start_offset remote_at st;
      st ← remote_edits (undo_map s) (with_start st o) (zip ranges new_text) ts;
      parts ← finish_editing remote_at st;
      commit_edit b parts
  end.
End remote.

(** ** Undo *)

(** The key that the insertion slices are sorted by: the insertion, the start, and
    the end backwards. *)
Definition slice_le (a b : InsertionSlice) : Prop :=
  then_with (cmp (slice_insertion_id a) (slice_insertion_id b))
    (then_with (cmp (slice_start a) (slice_start b)) (cmp (slice_end b) (slice_end a))) ≠ Gt.

#[export] Instance slice_le_dec a b : Decision (slice_le a b).
Proof. unfold slice_le. apply _. Defined.

(** [take_while]. *)
Fixpoint take_while {A} (p : A → bool) (l : list A) : list A :=
  match l with [] => [] | x :: l => if p x then x :: take_while p l else [] end.

(** The slices that one edit touched. *)
Definition slices_of_edit (s : BufferSnapshot) (edit_id : Lamport.t) : option (list InsertionSlice) :=
  slices ← TreeSet.iter_from (insertion_slices s) (mk_insertion_slice edit_id Lamport.MIN 0 0);
  Some (take_while (λ slice, bool_decide (slice_edit_id slice = edit_id)) slices).

Abbreviation insertions_cursor := (Cursor InsertionFragment InsertionFragmentKey InsertionFragmentKey).

(** [while let Some(item) = insertions_cursor.item()]. *)
Fixpoint collect_fragments (fuel : nat) (c : insertions_cursor) (slice : InsertionSlice) (ids : list Locator.t) :
    option (insertions_cursor * list Locator.t) :=
  i ← Cursor.item c;
  match i with
  | None => Some (c, ids)
  | Some i =>
      if negb (bool_decide (if_timestamp i = slice_insertion_id slice)) || (slice_end slice <=? if_split_offset i)
      then Some (c, ids)
      else match fuel with
           | O => None
           | Datatypes.S fuel => c ← next c; collect_fragments fuel c slice (ids ++ [if_fragment_id i])
           end
  end.

Definition collect_slice (c : insertions_cursor) (slice : InsertionSlice) (ids : list Locator.t) :
    option (insertions_cursor * list Locator.t) :=
  let at_ := Cursor.start c in
  c ← (if negb (bool_decide (slice_insertion_id slice = key_timestamp at_))
          || (key_split_offset at_ <? slice_start slice)
       then '(c, _) ← seek_forward (seek_key (insertion_key (slice_insertion_id slice) (slice_start slice))) Left c;
            Some c
       else Some c);
  collect_fragments (cost (cursor_tree c)) c slice ids.

Fixpoint collect_slices (c : insertions_cursor) (slices : list InsertionSlice) (ids : list Locator.t) :
    option (list Locator.t) :=
  match slices with
  | [] => Some ids
  | slice :: slices => '(c, ids) ← collect_slice c slice ids; collect_slices c slices ids
  end.

Definition locator_le (a b : Locator.t) : Prop := a ≼ b.
#[export] Instance locator_le_dec a b : Decision (locator_le a b).
Proof. unfold locator_le, ole. apply _. Defined.

Definition fragment_ids_for_edits (s : BufferSnapshot) (edit_ids : list Lamport.t) : option (list Locator.t) :=
  slices ← mapM (slices_of_edit s) edit_ids;
  ids ← collect_slices (cursor_new (insertions s)) (merge_sort slice_le (concat slices)) [];
  Some (merge_sort locator_le ids).

(** The cursor is [Dimensions<Option<&Locator>, usize>]. *)
Abbreviation undo_editing := (editing (option Locator.t * N)).

Definition undo_step (undos : UndoMap) (ts : Lamport.t) (st : undo_editing) (fragment_id : Locator.t) :
    option undo_editing :=
  st ← append_slice st (seek_fst (seek_key (Some fragment_id))) Left;
  i ← Cursor.item (old_fragments st);
  match i with
  | None => Some st
  | Some f =>
      now_visible ← is_visible f undos;
      let fragment := mk_fragment (id f) (timestamp f) (insertion_offset f) (flen f) now_visible (deletions f)
                        (Global.observe (max_undos f) ts) in
      let old_start := (Cursor.start (old_fragments st)).2 in
      let new_start := new_visible_len st in
      let st :=
        if visible f && negb now_visible then
          with_patch st (patch_edit old_start (old_start + flen fragment) new_start new_start)
        else if negb (visible f) && now_visible then
          with_patch st (patch_edit old_start old_start new_start (new_start + flen fragment))
        else st in
      st ← push_kept st fragment (visible f);
      advance st
  end.

Fixpoint undo_steps (undos : UndoMap) (ts : Lamport.t) (st : undo_editing) (ids : list Locator.t) :
    option undo_editing :=
  match ids with
  | [] => Some st
  | fragment_id :: ids => st ← undo_step undos ts st fragment_id; undo_steps undos ts st ids
  end.

Definition apply_undo (b : Buffer) (undo : UndoOperation) : option Buffer :=
  undos ← UndoMap.insert (undo_map (snapshot b)) undo;
  let s := with_undo_map (snapshot b) undos in
  cv ← rope_cursor_at (visible_text s) 0;
  cd ← rope_cursor_at (deleted_text s) 0;
  ids ← fragment_ids_for_edits s ((counts undo).*1);
  st ← undo_steps undos (undo_timestamp undo)
         (mk_editing (cursor_new (fragments s)) tree_new (builder_new cv cd) [] [] 0 [] 0) ids;
  '(_, suffix) ← Cursor.suffix (old_fragments st);
  ropes ← builder_append (new_ropes st) (fs_text (tree_summary suffix));
  fragments ← append (new_fragments st) suffix;
  '(v, d) ← builder_finish ropes;
  subscriptions ← publish (subscriptions b) (edits_patch st);
  Some (with_subscriptions (with_snapshot b
    (mk_snapshot v d fragments (insertions s) (insertion_slices s) undos (version s) (remote_id s)
       (snapshot_replica_id s) (line_ending s))) subscriptions).

(** [HashMap::insert]. *)
Definition counts_insert (m : list (Lamport.t * N)) (k : Lamport.t) (n : N) : list (Lamport.t * N) :=
  if decide (k ∈ m.*1) then (λ '(k', n'), if decide (k' = k) then (k', n) else (k', n')) <$> m else m ++ [(k, n)].

Definition undo_operations (b : Buffer) (counts : list (Lamport.t * N)) : option (Buffer * Operation) :=
  let '(ts, clock) := Lamport.tick (lamport_clock b) in
  let v := version (snapshot b) in
  let b := observe_version (with_clock b clock) ts in
  let undo := {| undo_timestamp := ts; undo_version := v; UndoMap.counts := counts |} in
  b ← apply_undo b undo;
  Some (b, Op_Undo undo).

(** [undo_count(edit_id).saturating_add(1)] for each edit. *)
Fixpoint undo_counts (m : UndoMap) (edit_ids : list Lamport.t) (counts : list (Lamport.t * N)) :
    option (list (Lamport.t * N)) :=
  match edit_ids with
  | [] => Some counts
  | edit_id :: edit_ids =>
      n ← undo_count m edit_id;
      undo_counts m edit_ids (counts_insert counts edit_id (N.min (n + 1) (U32 - 1)))
  end.

Definition undo_or_redo (b : Buffer) (t : Transaction) : option (Buffer * Operation) :=
  counts ← undo_counts (undo_map (snapshot b)) (edit_ids t) [];
  '(b, op) ← undo_operations b counts;
  h ← History.push (history b) op;
  Some (with_history b h, op).

Definition undo (b : Buffer) : option (Buffer * option (TransactionId * Operation)) :=
  '(h, entry) ← pop_undo (history b);
  match entry with
  | Some entry =>
      '(b, op) ← undo_or_redo (with_history b h) (transaction entry);
      Some (b, Some (entry_id entry, op))
  | None => Some (with_history b h, None)
  end.

Definition redo (b : Buffer) : option (Buffer * option (TransactionId * Operation)) :=
  '(h, entry) ← pop_redo (history b);
  match entry with
  | Some entry =>
      '(b, op) ← undo_or_redo (with_history b h) (transaction entry);
      Some (b, Some (entry_id entry, op))
  | None => Some (with_history b h, None)
  end.

Definition undo_transaction (b : Buffer) (t : TransactionId) : option (Buffer * option Operation) :=
  '(h, entry) ← remove_from_undo (history b) t;
  match entry with
  | Some entry =>
      '(b, op) ← undo_or_redo (with_history b h) (transaction entry);
      Some (b, Some op)
  | None => Some (with_history b h, None)
  end.

Fixpoint undo_all (b : Buffer) (ts : list Transaction) : option (Buffer * list Operation) :=
  match ts with
  | [] => Some (b, [])
  | t :: ts =>
      '(b, op) ← undo_or_redo b t;
      '(b, ops) ← undo_all b ts;
      Some (b, op :: ops)
  end.

Definition undo_to_transaction (b : Buffer) (t : TransactionId) : option (Buffer * list Operation) :=
  '(h, entries) ← remove_from_undo_until (history b) t;
  undo_all (with_history b h) (transaction <$> entries).

Definition redo_to_transaction (b : Buffer) (t : TransactionId) : option (Buffer * list Operation) :=
  '(h, entries) ← remove_from_redo (history b) t;
  undo_all (with_history b h) (transaction <$> entries).

(** ** Operations *)

Definition start_transaction (b : Buffer) (now : Instant) : Buffer * option TransactionId :=
  let '(h, clock, t) := History.start_transaction (history b) (version (snapshot b)) now (lamport_clock b) in
  (with_clock (with_history b h) clock, t).

Definition end_transaction (b : Buffer) (now : Instant) : option (Buffer * option (TransactionId * Global.t)) :=
  '(h, r) ← end_transaction_at (history b) now;
  Some (with_history b h, r).

(** [edit], the times of the two calls of [Instant::now] being arguments. *)
Definition edit (b : Buffer) (edits : list (Range N * str)) (started ended : Instant) : option (Buffer * Operation) :=
  let '(b, _) := start_transaction b started in
  let '(ts, clock) := Lamport.tick (lamport_clock b) in
  '(b, op) ← apply_local_edit (with_clock b clock) edits ts;
  let operation := Op_Edit op in
  h ← History.push (history b) operation;
  h ← push_undo h (History.timestamp operation);
  let b := observe_version (with_history b h) (History.timestamp operation) in
  '(b, _) ← end_transaction b ended;
  Some (b, operation).

Definition operation_replica (op : Operation) : ReplicaId := Lamport.replica_id (History.timestamp op).

Definition operation_version (op : Operation) : Global.t :=
  match op with Op_Edit e => edit_version e | Op_Undo u => undo_version u end.

Definition can_apply_op (b : Buffer) (op : Operation) : bool :=
  if bool_decide (operation_replica op ∈ deferred_replicas b) then false
  else Global.observed_all (version (snapshot b)) (operation_version op).

Definition apply_op (b : Buffer) (op : Operation) : option Buffer :=
  match op with
  | Op_Edit e =>
      if Global.observed (version (snapshot b)) (edit_timestamp e) then Some b
      else
        b ← apply_remote_edit (edit_version e) b (ranges e) (new_text e) (edit_timestamp e);
        Some (observe_clock (observe_version b (edit_timestamp e)) (edit_timestamp e))
  | Op_Undo u =>
      if Global.observed (version (snapshot b)) (undo_timestamp u) then Some b
      else
        b ← apply_undo b u;
        Some (observe_clock (observe_version b (undo_timestamp u)) (undo_timestamp u))
  end.

(** The loops of [apply_ops] and [flush_deferred_ops]: what can be applied is, the rest
    is collected. *)
Fixpoint apply_or_defer (b : Buffer) (ops deferred : list Operation) : option (Buffer * list Operation) :=
  match ops with
  | [] => Some (b, deferred)
  | op :: ops =>
      if can_apply_op b op then b ← apply_op b op; apply_or_defer b ops deferred
      else apply_or_defer (with_deferred b (deferred_ops b) (operation_replica op :: deferred_replicas b))
             ops (deferred ++ [op])
  end.

(** [self.deferred_ops.drain()] and the loop over what it held. *)
Definition flush_deferred_ops (b : Buffer) : option Buffer :=
  let b := with_deferred b (deferred_ops b) [] in
  let '(drained, rest) := queue_drain (deferred_ops b) in
  let b := with_deferred b rest (deferred_replicas b) in
  ops ← queue_iter drained;
  '(b, deferred) ← apply_or_defer b ops [];
  q ← queue_insert (deferred_ops b) deferred;
  Some (with_deferred b q (deferred_replicas b)).

(** Unlike [flush_deferred_ops] the loop records each operation in the history. *)
Fixpoint receive_ops (b : Buffer) (ops deferred : list Operation) : option (Buffer * list Operation) :=
  match ops with
  | [] => Some (b, deferred)
  | op :: ops =>
      h ← History.push (history b) op;
      let b := with_history b h in
      if can_apply_op b op then b ← apply_op b op; receive_ops b ops deferred
      else receive_ops (with_deferred b (deferred_ops b) (operation_replica op :: deferred_replicas b))
             ops (deferred ++ [op])
  end.

Definition apply_ops (b : Buffer) (ops : list Operation) : option Buffer :=
  '(b, deferred) ← receive_ops b ops [];
  q ← queue_insert (deferred_ops b) deferred;
  flush_deferred_ops (with_deferred b q (deferred_replicas b)).

Definition has_deferred_ops (b : Buffer) : bool := negb (queue_is_empty (deferred_ops b)).
Definition deferred_ops_len (b : Buffer) : nat := queue_len (deferred_ops b).
