(* ===== verification/BufferFacts.v ===== *)
(** * BufferFacts: fragments with their texts, and traces of an edit

    A buffer stands for the list of its fragments, each with its text ([piece]); the two
    ropes hold the texts of the visible and of the deleted ones.  What an edit does is a
    list of [el]ements, each a new fragment with its origin: added, kept, cut out
    of an old fragment, or removed.  [tracing] is the invariant of such a list in the
    course of an edit, next to the old fragments [A] that are done and those that [rest];
    [k] bytes of the first of the latter are done as well. *)

From S2P Require Import Prelude Clock Locator UndoMap OperationQueue Patch Subscription History Bits Utf8.
From S2P Require Import LineEnding PatchFacts TextSummary Chunk ChunkFacts Rope Keyed TreeMap SumTree.
From S2P Require Import SumTreeSpec SumTreeFind Cursor CursorSpec CursorFacts Fragment RopeBuilder Buffer.

(** ** Pieces *)

Abbreviation piece := (Fragment * str)%type.

Definition vis (p : piece) : str := if visible p.1 then p.2 else [].
Definition del (p : piece) : str := if visible p.1 then [] else p.2.
Definition vis_text (ps : list piece) : str := ps ≫= vis.
Definition del_text (ps : list piece) : str := ps ≫= del.

(** The text of a fragment is not empty and has its length, which a [u32] can hold
    together with its offset. *)
Definition sized (p : piece) : Prop :=
  flen p.1 = len p.2 ∧ p.2 ≠ [] ∧ utf8 p.2 ∧ insertion_offset p.1 + flen p.1 < U32 ∧
  Global.canonical (max_undos p.1).

Lemma vis_text_app l1 l2 : vis_text (l1 ++ l2) = vis_text l1 ++ vis_text l2.
Proof. apply bind_app. Qed.

Lemma del_text_app l1 l2 : del_text (l1 ++ l2) = del_text l1 ++ del_text l2.
Proof. apply bind_app. Qed.

Lemma vis_text_singleton p : vis_text [p] = vis p.
Proof. apply app_nil_r. Qed.

Lemma del_text_singleton p : del_text [p] = del p.
Proof. apply app_nil_r. Qed.

Lemma sized_vis p : sized p → utf8 (vis p).
Proof. intros (_ & _ & Hu & _). unfold vis. destruct (visible p.1); [done|apply utf8_nil]. Qed.

Lemma sized_del p : sized p → utf8 (del p).
Proof. intros (_ & _ & Hu & _). unfold del. destruct (visible p.1); [apply utf8_nil|done]. Qed.

Lemma vis_text_utf8 l : Forall sized l → utf8 (vis_text l).
Proof.
  induction 1 as [|p l Hp _ IH]; [apply utf8_nil|]. cbn. apply utf8_app; [by apply sized_vis|done].
Qed.

Lemma del_text_utf8 l : Forall sized l → utf8 (del_text l).
Proof.
  induction 1 as [|p l Hp _ IH]; [apply utf8_nil|]. cbn. apply utf8_app; [by apply sized_del|done].
Qed.

Lemma sized_valid l : Forall sized l → valid_items l.*1.
Proof.
  intros Hl. unfold valid_items. apply Forall_fmap. eapply Forall_impl; [done|].
  intros p (_ & _ & _ & _ & Hu). by apply fragment_valid.
Qed.

Lemma sum_items_snoc (l : list Fragment) f : sum_items (l ++ [f]) = add_summary (sum_items l) (item_summary f).
Proof. unfold sum_items, sum. by rewrite fmap_app, foldl_app. Qed.

(** The text summary of fragments measures the two texts. *)
Lemma sum_text l : Forall sized l →
  fs_text (sum_items l.*1) = text_summary (len (vis_text l)) (len (del_text l)).
Proof.
  intros Hl. induction l as [|p l IH] using rev_ind; [done|].
  apply Forall_app in Hl as [Hl [Hp _]%Forall_cons].
  rewrite fmap_app, vis_text_app, del_text_app, !len_app. cbn [fmap list_fmap].
  rewrite sum_items_snoc. cbn [add_summary fragment_summary_summary fs_text]. rewrite (IH Hl), item_fs_text.
  unfold fragment_text, vis_text, del_text, vis, del. cbn. rewrite !app_nil_r.
  destruct Hp as (-> & _). destruct (visible p.1); unfold add_text; cbn; f_equal; lia.
Qed.

Lemma sum_max_id (l : list Fragment) : max_id (sum_items l) = default Locator.min (id <$> last l).
Proof.
  induction l as [|f l _] using rev_ind; [done|]. rewrite last_snoc, sum_items_snoc. cbn. by rewrite Locator.assign_eq, item_max_id.
Qed.

(** ** Locators in order *)

Definition loc_ok (i : Locator.t) : Prop := Locator.wf i ∧ i ≺ Locator.max.

Lemma min_lt i : Locator.ends_nonzero i → Locator.min ≺ i.
Proof.
  intros (d & Hl & Hd). destruct i as [[|e l]]; [done|]. simpl in Hl.
  change (then_with (cmp 0%N e) (cmp [] l) = Lt). destruct (N.lt_trichotomy 0 e) as [He|[<-|He]]; [|..|lia].
  - assert (cmp 0%N e = Lt) as -> by (by apply N.compare_lt_iff). done.
  - destruct l; [by injection Hl as <-|done].
Qed.

Lemma max_wf : Locator.wf Locator.max.
Proof.
  split; [constructor; [done|constructor]|]. by exists U64_MAX.
Qed.

Lemma between_ok a b : a = Locator.min ∨ loc_ok a → loc_ok b ∨ b = Locator.max → a ≺ b →
  a ≺ Locator.between a b ∧ Locator.between a b ≺ b ∧ loc_ok (Locator.between a b).
Proof.
  intros Ha Hb Hlt.
  assert (Locator.wf b) as Hwb by (destruct Hb as [[? _]| ->]; [done|apply max_wf]).
  assert (Locator.bounded a) as Hba.
  { destruct Ha as [->|[[? _] _]]; [|done]. constructor; [|constructor]. unfold U64_MAX. lia. }
  destruct (locator_between_strict a b Hba Hwb Hlt) as (? & Hbt & ?). split_and!; try done.
  split; [done|]. destruct Hb as [[_ ?]| ->]; [by eapply olt_trans|done].
Qed.

(** ** The elements of a trace *)

Inductive origin : Type :=
  | Added
  | Kept (f : Fragment)
  | Recut (f : Fragment)
  | Removed (f : Fragment).

Record el : Type := mk_el { el_origin : origin; el_fragment : Fragment; el_text : str }.

Definition source (e : el) : option Fragment :=
  match el_origin e with Added => None | Kept f | Recut f | Removed f => Some f end.
Definition recorded (e : el) : bool := match el_origin e with Kept _ => false | _ => true end.
Definition sliced (e : el) : bool := match el_origin e with Added | Removed _ => true | _ => false end.

Definition keep (p : piece) : el := mk_el (Kept p.1) p.1 p.2.
Definition el_piece (e : el) : piece := (el_fragment e, el_text e).

(** The texts before the edit, of what the elements were made of. *)
Definition old_vis (e : el) : str :=
  match source e with Some f => if visible f then el_text e else [] | None => [] end.
Definition old_del (e : el) : str :=
  match source e with Some f => if visible f then [] else el_text e | None => [] end.

(** A part of [f]. *)
Definition part_of (f g : Fragment) : Prop :=
  timestamp g = timestamp f ∧ max_undos g = max_undos f ∧
  insertion_offset f ≤ insertion_offset g ∧ insertion_offset g + flen g ≤ insertion_offset f + flen f.

Definition el_ok (ts : Lamport.t) (e : el) : Prop :=
  sized (el_piece e) ∧ loc_ok (id (el_fragment e)) ∧
  match el_origin e with
  | Added => timestamp (el_fragment e) = ts ∧ visible (el_fragment e) = true ∧ deletions (el_fragment e) = []
  | Kept f => el_fragment e = f
  | Recut f => part_of f (el_fragment e) ∧ visible (el_fragment e) = visible f ∧
      deletions (el_fragment e) = deletions f
  | Removed f => part_of f (el_fragment e) ∧ visible (el_fragment e) = false ∧
      deletions (el_fragment e) = deletions f ++ [ts]
  end.

(** Fragments of one insertion come in the order of their offsets. *)
Definition follows (f g : Fragment) : Prop :=
  timestamp f = timestamp g → insertion_offset f + flen f ≤ insertion_offset g.

Definition same_key (f g : Fragment) : Prop :=
  timestamp f = timestamp g ∧ insertion_offset f = insertion_offset g.

(** What is left of a fragment behind its first [k] bytes. *)
Definition behind_cut (k : N) (f : Fragment) : Fragment :=
  mk_fragment (id f) (timestamp f) (insertion_offset f + k) (flen f - k) (visible f) (deletions f) (max_undos f).

Definition rest_pieces (k : N) (rest : list piece) : list piece :=
  match rest with p :: B => (behind_cut k p.1, ldrop k p.2) :: B | [] => [] end.

Definition piece_ok (ts : Lamport.t) (p : piece) : Prop :=
  sized p ∧ loc_ok (id p.1) ∧ timestamp p.1 ≠ ts.

(** The new text is cut into pieces that come one after the other, from the offset [n] in the insertion to [m]. *)
Fixpoint births (n : N) (tr : list el) (m : N) : Prop :=
  match tr with
  | [] => n = m
  | e :: tr =>
      match el_origin e with
      | Added => insertion_offset (el_fragment e) = n ∧ births (n + flen (el_fragment e)) tr m
      | _ => births n tr m
      end
  end.

Lemma births_app n tr1 tr2 m : births n (tr1 ++ tr2) m ↔ ∃ k, births n tr1 k ∧ births k tr2 m.
Proof.
  revert n. induction tr1 as [|e tr1 IH]; intros n; cbn [app births]; [by split; [exists n|intros (k & -> & H)]|].
  destruct (el_origin e); [|apply IH..]. rewrite IH. split; [intros (? & k & ? & ?)|intros (k & (? & ?) & ?)]; eauto.
Qed.

(** Nothing is born. *)
Lemma births_none n tr : Forall (λ e, el_origin e ≠ Added) tr → births n tr n.
Proof. intros H. revert n. induction H as [|e tr He _ IH]; intros n; cbn [births]; [done|]. destruct (el_origin e); [done|apply IH..]. Qed.

Lemma births_keep n tr m els : births n tr m → Forall (λ e, el_origin e ≠ Added) els → births n (tr ++ els) m.
Proof. intros H He. apply births_app. exists m. split; [done|by apply births_none]. Qed.

(** What was born lies before the end. *)
Lemma births_bound n tr m : births n tr m → n ≤ m ∧ Forall (λ e, el_origin e = Added →
  n ≤ insertion_offset (el_fragment e) ∧ insertion_offset (el_fragment e) + flen (el_fragment e) ≤ m) tr.
Proof.
  revert n. induction tr as [|e tr IH]; intros n; cbn [births]; [intros ->; by split|]. destruct (el_origin e) eqn:Ho.
  1:{ intros (Hi & (Hle & Hf)%IH). split; [lia|]. constructor; [intros _; lia|]. eapply Forall_impl; [exact Hf|]. intros x Hx Hox. specialize (Hx Hox). lia. }
  all: intros (Hle & Hf)%IH; split; [done|]; constructor; [by rewrite Ho|done].
Qed.

Record tracing (ts : Lamport.t) (A rest : list piece) (k : N) (tr : list el) : Prop := {
  tr_k : match rest with p :: _ => k ≤ flen p.1 | [] => k = 0 end;
  tr_ok : Forall (el_ok ts) tr;
  tr_rest : Forall (piece_ok ts) rest;
  tr_source : Forall (λ e, match source e with
    | Some f => f ∈ A.*1 ∨ ∃ p B, rest = p :: B ∧ f = p.1 ∧ 0 < k | None => True end) tr;
  tr_ids : StronglySorted olt ((id ∘ el_fragment <$> tr) ++ (id <$> rest.*1));
  tr_order : StronglySorted follows ((el_fragment <$> tr) ++ (rest_pieces k rest).*1);
  tr_keys : Forall (λ f, ∃ e, e ∈ tr ∧ same_key (el_fragment e) f)
    (A.*1 ++ (if k =? 0 then [] else option_list (fst <$> head rest)));
  tr_births : ∃ m, births 0 tr m
}.

(** ** Steps of a trace *)

Lemma StronglySorted_insert {X} (R : X → X → Prop) l1 x l2 :
  StronglySorted R (l1 ++ l2) → (∀ y, y ∈ l1 → R y x) → (∀ y, y ∈ l2 → R x y) → StronglySorted R (l1 ++ x :: l2).
Proof.
  rewrite !StronglySorted_app, StronglySorted_cons. intros (H12 & H1 & H2) Hl Hr. split_and!; [|done| |done].
  - intros y z Hy [->|Hz]%elem_of_cons; auto.
  - by apply Forall_forall.
Qed.

Lemma StronglySorted_remove {X} (R : X → X → Prop) l1 x l2 :
  StronglySorted R (l1 ++ x :: l2) → StronglySorted R (l1 ++ l2).
Proof.
  rewrite !StronglySorted_app, StronglySorted_cons. intros (H12 & H1 & _ & H2). split_and!; [|done..].
  intros y z Hy Hz. apply H12; [done|]. by apply elem_of_cons; right.
Qed.

Lemma StronglySorted_before {X} (R : X → X → Prop) l1 x l2 y :
  StronglySorted R (l1 ++ x :: l2) → y ∈ l1 → R y x.
Proof. rewrite StronglySorted_app. intros (H12 & _) Hy. apply H12; [done|]. by apply elem_of_cons; left. Qed.

Lemma StronglySorted_after {X} (R : X → X → Prop) l1 x l2 y :
  StronglySorted R (l1 ++ x :: l2) → y ∈ l2 → R x y.
Proof.
  rewrite StronglySorted_app, StronglySorted_cons. rewrite Forall_forall. intros (_ & _ & Hf & _). apply Hf.
Qed.

Lemma behind_cut_0 f : behind_cut 0 f = f.
Proof. destruct f. unfold behind_cut; cbn. by rewrite N.add_0_r, N.sub_0_r. Qed.

Lemma rest_pieces_0 rest : rest_pieces 0 rest = rest.
Proof. destruct rest as [|[f t] B]; [done|]. cbn. by rewrite behind_cut_0, ldrop_0. Qed.

Section tracing.
Context (ts : Lamport.t).
Implicit Types (A B rest : list piece) (k n : N) (tr : list el) (e : el) (p : piece).

Lemma tracing_start rest :
  Forall (piece_ok ts) rest → StronglySorted olt (id <$> rest.*1) → StronglySorted follows rest.*1 →
  tracing ts [] rest 0 [].
Proof.
  intros Hr Hi Ho. split; try constructor; try done.
  - destruct rest; [done|lia].
  - by rewrite rest_pieces_0.
  - by exists 0.
Qed.

(** Passing whole fragments. *)
Lemma tracing_keep A sk rest tr :
  tracing ts A (sk ++ rest) 0 tr → tracing ts (A ++ sk) rest 0 (tr ++ (keep <$> sk)).
Proof.
  intros [Hk Hok Hr Hsrc Hi Ho Hkeys [m Hm]]. apply Forall_app in Hr as [Hsk Hr]. split.
  - destruct rest; [done|lia].
  - apply Forall_app. split; [done|]. apply Forall_fmap. eapply Forall_impl; [done|].
    intros p (Hs & Hl & _). split_and!; [by destruct p|done..].
  - done.
  - apply Forall_app. split.
    + eapply Forall_impl; [done|]. intros e. cbn. destruct (source e) as [f|]; [|done].
      intros [Hf|(p & B & _ & _ & ?)]; [|lia]. left. rewrite fmap_app, elem_of_app. by left.
    + apply Forall_fmap, Forall_forall. intros p Hp. cbn. left. rewrite fmap_app, elem_of_app. right.
      by apply list_elem_of_fmap_2.
  - rewrite fmap_app, <- (assoc_L (++)). rewrite !fmap_app in Hi.
    by replace ((id ∘ el_fragment) <$> (keep <$> sk)) with (id <$> sk.*1) by (by rewrite <- !list_fmap_compose).
  - rewrite rest_pieces_0 in Ho |- *. rewrite fmap_app, <- (assoc_L (++)). rewrite !fmap_app in Ho.
    by replace (el_fragment <$> (keep <$> sk)) with (sk.*1) by (by rewrite <- !list_fmap_compose).
  - cbn in Hkeys |- *. rewrite app_nil_r in Hkeys |- *. rewrite fmap_app. apply Forall_app. split.
    + eapply Forall_impl; [done|]. intros f (e & He & ?). exists e. rewrite elem_of_app. auto.
    + apply Forall_fmap, Forall_forall. intros p Hp. exists (keep p). split; [|done].
      rewrite elem_of_app. right. by apply list_elem_of_fmap_2.
  - exists m. apply births_keep; [done|]. by apply Forall_fmap, Forall_true.
Qed.

(** [e] is made of the next [n] bytes of [p]. *)
Record made_of (p : piece) (k n : N) (e : el) : Prop := {
  made_origin : el_origin e = Recut p.1 ∧ visible (el_fragment e) = visible p.1 ∧
                  deletions (el_fragment e) = deletions p.1 ∨
                el_origin e = Removed p.1 ∧ visible (el_fragment e) = false ∧
                  deletions (el_fragment e) = deletions p.1 ++ [ts];
  made_timestamp : timestamp (el_fragment e) = timestamp p.1;
  made_undos : max_undos (el_fragment e) = max_undos p.1;
  made_offset : insertion_offset (el_fragment e) = insertion_offset p.1 + k;
  made_len : flen (el_fragment e) = n;
  made_text : el_text e = ltake n (ldrop k p.2);
  made_utf8 : utf8 (el_text e);
  made_bounds : 0 < n ∧ k + n ≤ flen p.1
}.

Lemma made_of_source p k n e : made_of p k n e → source e = Some p.1.
Proof. intros [[(Ho & _)|(Ho & _)]]; unfold source; by rewrite Ho. Qed.

Lemma made_of_births n0 tr m p k n e : births n0 tr m → made_of p k n e → births n0 (tr ++ [e]) m.
Proof. intros H [[(Ho & _)|(Ho & _)]]; (apply births_keep; [done|]; apply Forall_singleton; by rewrite Ho). Qed.

Lemma made_of_ok p k n e : sized p → made_of p k n e → loc_ok (id (el_fragment e)) → el_ok ts e.
Proof.
  intros (Hl & Hne & Hu & Hb & Hc) [Ho Ht Hm Hoff Hlen Htext Hutf [Hn Hkn]] Hi.
  assert (len (el_text e) = n) as Hlt by (rewrite Htext, len_ltake, len_ldrop; lia).
  split_and!; [|done|].
  - unfold sized, el_piece; cbn. rewrite Hlen, Hm, Hoff. split_and!; [done| |done|lia|done].
    intros Hnil. rewrite Hnil, len_nil in Hlt. lia.
  - destruct Ho as [(-> & ? & ?)|(-> & ? & ?)]; split_and!; try done; unfold part_of; rewrite Hoff, Hlen, Hm, Ht;
      split_and!; try done; lia.
Qed.

Lemma made_of_follows p k n e f :
  made_of p k n e → follows f (behind_cut k p.1) → follows f (el_fragment e).
Proof. intros [? Ht ? Ho]. unfold follows. rewrite Ht, Ho. done. Qed.

Lemma made_of_followed p k n e f :
  made_of p k n e → follows (behind_cut k p.1) f → follows (el_fragment e) f.
Proof.
  intros [? Ht ? Ho Hl ? ? [? ?]]. unfold follows. rewrite Ht, Ho, Hl. cbn. intros Hf Heq. specialize (Hf Heq). lia.
Qed.

(** Cutting the next [n] bytes off the current fragment, with an identifier of their own. *)
Lemma tracing_cut A p B k n tr e :
  tracing ts A (p :: B) k tr → made_of p k n e → loc_ok (id (el_fragment e)) →
  (∀ e', e' ∈ tr → id (el_fragment e') ≺ id (el_fragment e)) → id (el_fragment e) ≺ id p.1 →
  tracing ts A (p :: B) (k + n) (tr ++ [e]).
Proof.
  intros [Hk Hok Hr Hsrc Hi Ho Hkeys [m Hm]] He Hl Hlt Hgt. pose proof (made_bounds _ _ _ _ He) as [Hn Hkn].
  pose proof Hr as [(Hs & _ & _) _]%Forall_cons. split.
  - lia.
  - apply Forall_app. split; [done|]. constructor; [by eapply made_of_ok|done].
  - done.
  - apply Forall_app. split.
    + eapply Forall_impl; [done|]. intros e'. cbn. destruct (source e') as [f|]; [|done].
      intros [Hf|(q & C & [= <- <-] & -> & ?)]; [by left|]. right. exists p, B. split_and!; [done..|lia].
    + constructor; [|done]. rewrite (made_of_source _ _ _ _ He). right. exists p, B. split_and!; [done..|lia].
  - rewrite fmap_app, <- (assoc_L (++)). cbn in Hi |- *. apply StronglySorted_insert; [done|..].
    + intros i Hin. apply list_elem_of_fmap in Hin as (e' & -> & He'). by apply Hlt.
    + intros i [->|Hin]%elem_of_cons; [done|]. eapply olt_trans; [done|]. by eapply StronglySorted_after.
  - rewrite fmap_app, <- (assoc_L (++)). cbn in Ho |- *.
    assert (∀ f, f ∈ el_fragment <$> tr → follows f (behind_cut k p.1)) as Hpre
      by (intros f Hf; by eapply StronglySorted_before).
    assert (∀ f, f ∈ B.*1 → follows (behind_cut k p.1) f) as Hpost
      by (intros f Hf; by eapply StronglySorted_after).
    pose proof (StronglySorted_remove _ _ _ _ Ho) as Ho'.
    apply StronglySorted_insert; [apply StronglySorted_insert; [done|..]|..].
    + intros f Hf. specialize (Hpre f Hf). unfold follows in *; cbn in *. intros Heq. specialize (Hpre Heq). lia.
    + intros f Hf. specialize (Hpost f Hf). unfold follows in *; cbn in *. intros Heq. specialize (Hpost Heq). lia.
    + intros f Hf. by eapply made_of_follows, Hpre.
    + intros f [->|Hf]%elem_of_cons; [|by eapply made_of_followed, Hpost].
      unfold follows. rewrite (made_offset _ _ _ _ He), (made_len _ _ _ _ He). cbn. lia.
  - rewrite (proj2 (N.eqb_neq (k + n) 0)) by lia. apply Forall_app in Hkeys as [Hkeys Hhead].
    apply Forall_app. split.
    + eapply Forall_impl; [done|]. intros f (e' & ? & ?). exists e'. rewrite elem_of_app. auto.
    + constructor; [|done]. destruct (N.eqb_spec k 0) as [->|_].
      * exists e. rewrite elem_of_app, list_elem_of_singleton. split; [by right|]. split; [by apply He|].
        rewrite (made_offset _ _ _ _ He). lia.
      * apply Forall_cons in Hhead as [(e' & ? & ?) _]. exists e'. rewrite elem_of_app. auto.
  - exists m. by eapply made_of_births.
Qed.

(** Leaving a fragment that is used up. *)
Lemma tracing_advance A p B tr :
  tracing ts A (p :: B) (flen p.1) tr → tracing ts (A ++ [p]) B 0 tr.
Proof.
  intros [Hk Hok Hr Hsrc Hi Ho Hkeys [m Hm]]. pose proof Hr as [((Hl & Hne & _) & _) HB]%Forall_cons.
  assert (0 < flen p.1) as Hpos by (rewrite Hl; destruct p.2; [done|rewrite len_cons; lia]). split.
  - destruct B; [done|lia].
  - done.
  - done.
  - eapply Forall_impl; [done|]. intros e'. cbn. rewrite fmap_app. destruct (source e') as [f|]; [|done].
    intros [Hf|(q & C & [= <- <-] & -> & ?)]; left; rewrite elem_of_app; [by left|right]. by apply list_elem_of_singleton.
  - cbn in Hi. by eapply StronglySorted_remove.
  - rewrite rest_pieces_0. cbn in Ho. by eapply StronglySorted_remove.
  - rewrite (proj2 (N.eqb_neq (flen p.1) 0)) in Hkeys by lia. cbn in Hkeys |- *. by rewrite fmap_app, app_nil_r.
  - by exists m.
Qed.

(** The rest of a fragment keeps its identifier, and the next one follows. *)
Lemma tracing_rest A p B k n tr e :
  tracing ts A (p :: B) k tr → made_of p k n e → k + n = flen p.1 → id (el_fragment e) = id p.1 →
  tracing ts (A ++ [p]) B 0 (tr ++ [e]).
Proof.
  intros [Hk Hok Hr Hsrc Hi Ho Hkeys [m Hm]] He Hkn Hid.
  pose proof Hr as [(Hs & Hl & _) HB]%Forall_cons. split.
  - destruct B; [done|lia].
  - apply Forall_app. split; [done|]. constructor; [|done]. eapply made_of_ok; [done..|]. by rewrite Hid.
  - done.
  - apply Forall_app. rewrite fmap_app. split.
    + eapply Forall_impl; [done|]. intros e'. cbn. destruct (source e') as [f|]; [|done].
      intros [Hf|(q & C & [= <- <-] & -> & ?)]; left; rewrite elem_of_app; [by left|right]. by apply list_elem_of_singleton.
    + constructor; [|done]. rewrite (made_of_source _ _ _ _ He). left. rewrite elem_of_app. right.
      by apply list_elem_of_singleton.
  - rewrite fmap_app, <- (assoc_L (++)). cbn in Hi |- *. by rewrite Hid.
  - rewrite rest_pieces_0, fmap_app, <- (assoc_L (++)). cbn in Ho |- *.
    apply StronglySorted_insert; [by eapply StronglySorted_remove|..].
    + intros f Hf. eapply made_of_follows; [done|]. by eapply StronglySorted_before.
    + intros f Hf. eapply made_of_followed; [done|]. by eapply StronglySorted_after.
  - cbn. rewrite app_nil_r, fmap_app. apply Forall_app in Hkeys as [Hkeys Hhead]. apply Forall_app. split.
    + eapply Forall_impl; [done|]. intros f (e' & ? & ?). exists e'. rewrite elem_of_app. auto.
    + constructor; [|done]. destruct (N.eqb_spec k 0) as [->|_].
      * exists e. rewrite elem_of_app, list_elem_of_singleton. split; [by right|]. split; [by apply He|].
        rewrite (made_offset _ _ _ _ He). lia.
      * apply Forall_cons in Hhead as [(e' & ? & ?) _]. exists e'. rewrite elem_of_app. auto.
  - exists m. by eapply made_of_births.
Qed.

(** The identifier that what is left begins with. *)
Definition next_id (rest : list piece) : Locator.t :=
  match rest with p :: _ => id p.1 | [] => Locator.max end.

Lemma tracing_add A rest k tr e :
  tracing ts A rest k tr → el_origin e = Added → el_ok ts e →
  (∀ e', e' ∈ tr → id (el_fragment e') ≺ id (el_fragment e)) → id (el_fragment e) ≺ next_id rest →
  (∀ e', e' ∈ tr → follows (el_fragment e') (el_fragment e)) → births 0 tr (insertion_offset (el_fragment e)) →
  tracing ts A rest k (tr ++ [e]).
Proof.
  intros [Hk Hok Hr Hsrc Hi Ho Hkeys _] Horig He Hlt Hgt Hf Hb. split.
  - done.
  - apply Forall_app. split; [done|]. by constructor.
  - done.
  - apply Forall_app. split; [done|]. constructor; [|done]. unfold source. by rewrite Horig.
  - rewrite fmap_app, <- (assoc_L (++)). apply StronglySorted_insert; [done|..].
    + intros i Hin. apply list_elem_of_fmap in Hin as (e' & -> & He'). by apply Hlt.
    + intros i Hin. destruct rest as [|p B]; [by apply elem_of_nil in Hin|].
      cbn in Hin. apply elem_of_cons in Hin as [->|Hin]; [done|]. eapply olt_trans; [done|].
      cbn in Hi. by eapply StronglySorted_after.
  - rewrite fmap_app, <- (assoc_L (++)). apply StronglySorted_insert; [done|..].
    + intros f Hin. apply list_elem_of_fmap in Hin as (e' & -> & He'). by apply Hf.
    + intros f Hin Heq. exfalso. destruct He as (_ & _ & He). rewrite Horig in He. destruct He as [Ht _].
      rewrite Ht in Heq. destruct rest as [|p B]; [by apply elem_of_nil in Hin|].
      apply Forall_cons in Hr as [(_ & _ & Hp) HB].
      cbn in Hin. apply elem_of_cons in Hin as [->|Hin]; [done|].
      apply list_elem_of_fmap in Hin as (q & -> & Hq). rewrite Forall_forall in HB.
      by destruct (HB q Hq) as (_ & _ & ?).
  - eapply Forall_impl; [done|]. intros f (e' & ? & ?). exists e'. rewrite elem_of_app. auto.
  - eexists. apply births_app. exists (insertion_offset (el_fragment e)). split; [done|]. cbn. by rewrite Horig.
Qed.
End tracing.

(** ** Bytes and the fragments they come from *)

Definition tag (f : Fragment) (t : str) : list (Fragment * N) := pair f <$> t.
Definition tagged (ps : list piece) : list (Fragment * N) := ps ≫= λ p, tag p.1 p.2.
Definition src_bytes (tr : list el) : list (Fragment * N) :=
  tr ≫= λ e, match source e with Some f => tag f (el_text e) | None => [] end.

(** What of the bytes is seen. *)
Definition view (P : Fragment → bool) (l : list (Fragment * N)) : str := snd <$> filter (λ x, P x.1 = true) l.

(** The part of the current fragment that is done. *)
Definition consumed (k : N) (rest : list piece) : list piece :=
  match rest with p :: _ => [(p.1, ltake k p.2)] | [] => [] end.

Lemma tag_app f t u : tag f (t ++ u) = tag f t ++ tag f u.
Proof. apply fmap_app. Qed.

Lemma tagged_app l1 l2 : tagged (l1 ++ l2) = tagged l1 ++ tagged l2.
Proof. apply bind_app. Qed.

Lemma src_bytes_app l1 l2 : src_bytes (l1 ++ l2) = src_bytes l1 ++ src_bytes l2.
Proof. apply bind_app. Qed.

Lemma view_app P l1 l2 : view P (l1 ++ l2) = view P l1 ++ view P l2.
Proof. unfold view. by rewrite filter_app, fmap_app. Qed.

Lemma view_tag (P : Fragment → bool) f t : view P (tag f t) = if P f then t else [].
Proof.
  unfold view. induction t as [|b t IH]; [by destruct (P f)|].
  change (tag f (b :: t)) with ((f, b) :: tag f t). rewrite filter_cons. cbn [fst].
  case_decide as HP; destruct (P f); try done. by rewrite fmap_cons, IH.
Qed.

Lemma tagged_singleton p : tagged [p] = tag p.1 p.2.
Proof. unfold tagged; cbn. apply app_nil_r. Qed.

Lemma view_visible ps : view visible (tagged ps) = vis_text ps.
Proof.
  induction ps as [|p ps IH]; [done|]. change (p :: ps) with ([p] ++ ps).
  rewrite tagged_app, view_app, vis_text_app, IH, tagged_singleton, view_tag. unfold vis_text, vis. cbn.
  by rewrite app_nil_r.
Qed.

Lemma src_bytes_keep (ps : list piece) : src_bytes (keep <$> ps) = tagged ps.
Proof. induction ps as [|p ps IH]; [done|]. cbn. by f_equal. Qed.

Lemma keep_pieces (ps : list piece) : el_piece <$> (keep <$> ps) = ps.
Proof. induction ps as [|[f t] ps IH]; [done|]. cbn. by f_equal. Qed.

Lemma consumed_0 rest : tagged (consumed 0 rest) = [].
Proof. by destruct rest. Qed.

Lemma consumed_all p B : flen p.1 = len p.2 → consumed (flen p.1) (p :: B) = [p].
Proof. intros Hl. cbn. rewrite ltake_ge by lia. by destruct p. Qed.

Lemma ltake_split k n (t : str) : ltake (k + n) t = ltake k t ++ ltake n (ldrop k t).
Proof.
  destruct (N.le_gt_cases k (len t)) as [Hk|Hk].
  - rewrite <- (ltake_ldrop k t) at 1. rewrite ltake_app_r by (rewrite len_ltake; lia).
    rewrite len_ltake. do 2 f_equal. lia.
  - rewrite !ltake_ge by lia. rewrite ldrop_ge by lia. unfold ltake. by rewrite take_nil, app_nil_r.
Qed.

Lemma tagged_consumed k n p B :
  tagged (consumed (k + n) (p :: B)) = tagged (consumed k (p :: B)) ++ tag p.1 (ltake n (ldrop k p.2)).
Proof. unfold consumed. rewrite !tagged_singleton. cbn [fst snd]. by rewrite ltake_split, tag_app. Qed.

(** What remains of the texts, before and after [n] bytes of the current fragment. *)
Lemma vis_text_rest k n p B :
  vis_text (rest_pieces k (p :: B)) =
  (if visible p.1 then ltake n (ldrop k p.2) else []) ++ vis_text (rest_pieces (k + n) (p :: B)).
Proof.
  cbn. unfold vis; cbn. destruct (visible p.1); [|done].
  by rewrite (assoc_L (++)), <- ldrop_ldrop, ltake_ldrop.
Qed.

Lemma del_text_rest k n p B :
  del_text (rest_pieces k (p :: B)) =
  (if visible p.1 then [] else ltake n (ldrop k p.2)) ++ del_text (rest_pieces (k + n) (p :: B)).
Proof.
  cbn. unfold del; cbn. destruct (visible p.1); [done|].
  by rewrite (assoc_L (++)), <- ldrop_ldrop, ltake_ldrop.
Qed.

Lemma rest_used p B : sized p → vis_text (rest_pieces (flen p.1) (p :: B)) = vis_text B ∧
  del_text (rest_pieces (flen p.1) (p :: B)) = del_text B.
Proof.
  intros (Hl & _). cbn. unfold vis, del; cbn. rewrite ldrop_ge by lia. by destruct (visible p.1).
Qed.

(** ** The patch of a trace *)

(** The patch leads from the old visible text to the new one. *)
Definition patch_ok (p : Patch nat) (tr : list el) : Prop :=
  ∃ A C gap, transforms p 0 0 A C ∧ normal p ∧ view visible (src_bytes tr) = A ++ gap ∧
    vis_text (el_piece <$> tr) = C ++ gap.

Definition old_len (tr : list el) : N := len (view visible (src_bytes tr)).
Definition new_len (tr : list el) : N := len (vis_text (el_piece <$> tr)).

Lemma patch_ok_nil : patch_ok [] [].
Proof. exists [], [], []. split_and!; try done. apply normal_nil. Qed.

(** Where nothing appears or disappears. *)
Lemma patch_ok_same p tr els :
  patch_ok p tr → view visible (src_bytes els) = vis_text (el_piece <$> els) → patch_ok p (tr ++ els).
Proof.
  intros (A & C & gap & Ht & Hn & Ho & Hv) Hs. exists A, C, (gap ++ vis_text (el_piece <$> els)).
  rewrite src_bytes_app, view_app, fmap_app, vis_text_app, Ho, Hv, Hs, !(assoc_L (++)). done.
Qed.

Lemma patch_ok_push p tr els :
  patch_ok p tr →
  patch_ok (Patch.push p (patch_edit (old_len tr) (old_len (tr ++ els)) (new_len tr) (new_len (tr ++ els)))) (tr ++ els).
Proof.
  intros (A & C & gap & Ht & Hn & Ho & Hv). unfold old_len, new_len.
  rewrite src_bytes_app, view_app, fmap_app, vis_text_app, !len_app, Ho, Hv, !len_app.
  set (A1 := view visible (src_bytes els)). set (C1 := vis_text (el_piece <$> els)).
  exists (A ++ gap ++ A1), (C ++ gap ++ C1), [].
  replace (patch_edit _ _ _ _) with (span (0 + length A) (0 + length C) (length gap) A1 C1).
  - split_and!; [by apply push_transforms|by eapply push_normal|by rewrite src_bytes_app, view_app, Ho, app_nil_r, (assoc_L (++))|].
    by rewrite fmap_app, vis_text_app, Hv, app_nil_r, (assoc_L (++)).
  - unfold span, patch_edit, len. repeat f_equal; lia.
Qed.
