(* ===== verification/BufferSteps.v ===== *)
(** * BufferSteps: the steps of an edit, in terms of the pieces of the buffer

    Both edits walk over the old fragments with a cursor whose positions count some of
    the fragments ([counts]): the visible ones, or those that a version has observed.  [holding]
    relates the state of the loops to a trace, and each helper of [Buffer] extends the trace.

    [doing] is the invariant of the loops of [apply_local_edit] and [apply_remote_edit]:
    the state of the loop, [holding], its trace, [tracing], and its patch.  [base] says how many bytes
    the counted fragments have.  A step extends the trace by [quiet] elements (nothing appears or
    disappears), [adds] the new text, or [erasing] ones. *)

From S2P Require Import Prelude Clock Locator UndoMap OperationQueue Patch Subscription History Bits Utf8.
From S2P Require Import LineEnding PatchFacts TextSummary Chunk ChunkFacts Rope RopeFacts RopeEdit RopeSlice.
From S2P Require Import Keyed TreeMap TreeMapFacts SumTree SumTreeSpec SumTreeFind Cursor CursorSpec.
From S2P Require Import CursorFacts Fragment RopeBuilder Buffer BufferFacts.

Section editing.
Context {D : Type} `{!Dimension D FragmentSummary} (ts : Lamport.t).
Implicit Types (st : editing D) (A B rest : list piece) (k n : N) (tr : list el) (e : el) (p : piece).

Record holding st A rest k tr : Prop := {
  held_cursor : cursor_at (old_fragments st) A.*1 rest.*1;
  held_fragments : ∃ h, wf h (new_fragments st) ∧ to_list (new_fragments st) = el_fragment <$> tr;
  held_ropes : builds (new_ropes st) (vis_text (rest_pieces k rest)) (del_text (rest_pieces k rest))
    (vis_text (el_piece <$> tr)) (del_text (el_piece <$> tr));
  held_insertions : new_insertions st = (insert_new ∘ el_fragment) <$> filter (λ e, recorded e = true) tr;
  held_slices : new_slices st = (slice_from_fragment ts ∘ el_fragment) <$> filter (λ e, sliced e = true) tr;
  held_source : src_bytes tr = tagged (A ++ consumed k rest);
  held_sized : Forall (sized ∘ el_piece) tr
}.

Lemma el_fragments tr : (el_piece <$> tr).*1 = el_fragment <$> tr.
Proof. by rewrite <- list_fmap_compose. Qed.

Lemma held_summary st A rest k tr : holding st A rest k tr →
  tree_summary (new_fragments st) = sum_items (el_fragment <$> tr).
Proof. intros [_ (h & Hwf & Hl)]. by rewrite (wf_summary h), Hl. Qed.

Lemma last_id_held st A rest k tr : holding st A rest k tr →
  last_id st = default Locator.min ((id ∘ el_fragment) <$> last tr).
Proof.
  intros Hh. unfold last_id. rewrite (held_summary _ _ _ _ _ Hh), sum_max_id, fmap_last.
  by destruct (last tr).
Qed.

Lemma new_visible_len_held st A rest k tr : holding st A rest k tr → new_visible_len st = new_len tr.
Proof.
  intros Hh. unfold new_visible_len. rewrite (held_summary _ _ _ _ _ Hh), <- el_fragments, sum_text; [done|].
  apply Forall_fmap. apply Hh.
Qed.

Lemma current_held st A p B k tr : holding st A (p :: B) k tr → current st = Some p.1.
Proof. intros [Hc]. unfold current. by rewrite (item_at _ _ _ Hc). Qed.

Lemma item_held st A rest k tr : holding st A rest k tr →
  Cursor.item (old_fragments st) = Some (fst <$> head rest).
Proof. intros [Hc]. rewrite (item_at _ _ _ Hc). by destruct rest. Qed.

(** The fields that a step does not change. *)
Definition same_rest st st' : Prop :=
  next_offset st' = next_offset st ∧ edits_patch st' = edits_patch st ∧ fragment_start st' = fragment_start st ∧
  cursor_tree (old_fragments st') = cursor_tree (old_fragments st).

Lemma advance_held st A p B tr :
  holding st A (p :: B) (flen p.1) tr → sized p →
  ∃ st', advance st = Some st' ∧ holding st' (A ++ [p]) B 0 tr ∧ same_rest st st'.
Proof.
  intros [Hc Hf Hr Hi Hs Hsrc Hsz] Hp. destruct (next_at _ _ _ _ Hc) as (c & Hn & Htree & Hc').
  unfold advance. rewrite Hn. cbn. eexists. split; [done|]. split; [|done]. split; try done; cbn.
  - by rewrite fmap_app.
  - rewrite rest_pieces_0. destruct (rest_used p B Hp) as [Hv Hd]. by rewrite Hv, Hd in Hr.
  - rewrite Hsrc, consumed_all by apply Hp. by rewrite !tagged_app, consumed_0, app_nil_r.
Qed.

(** [st1] is [st] with what [e] adds to the insertions and slices. *)
Record noted st st1 e : Prop := {
  noted_cursor : old_fragments st1 = old_fragments st;
  noted_fragments : new_fragments st1 = new_fragments st;
  noted_ropes : new_ropes st1 = new_ropes st;
  noted_insertions : new_insertions st1 =
    new_insertions st ++ (if recorded e then [insert_new (el_fragment e)] else []);
  noted_slices : new_slices st1 =
    new_slices st ++ (if sliced e then [slice_from_fragment ts (el_fragment e)] else [])
}.

(** Pushing the next [n] bytes of the current fragment. *)
Lemma push_kept_held st st1 A p B k n tr e :
  holding st A (p :: B) k tr → noted st st1 e → sized (el_piece e) → source e = Some p.1 →
  k + n ≤ len p.2 → flen (el_fragment e) = n → el_text e = ltake n (ldrop k p.2) →
  ∃ st', push_kept st1 (el_fragment e) (visible p.1) = Some st' ∧
    holding st' A (p :: B) (k + n) (tr ++ [e]) ∧ same_rest st1 st'.
Proof.
  intros [Hc (h & Hwf & Hl) Hr Hi Hs Hsrc Hsz] [N1 N2 N3 N4 N5] He Hse Hkn Hn Ht.
  assert (len (el_text e) = n) as Hlen by (rewrite Ht, len_ltake, len_ldrop; lia).
  unfold push_kept, builder_push_fragment.
  rewrite (vis_text_rest k n), (del_text_rest k n), <- Ht in Hr.
  destruct (builder_push_spec (new_ropes st) (el_text e) (vis_text (rest_pieces (k + n) (p :: B)))
    (del_text (rest_pieces (k + n) (p :: B))) (vis_text (el_piece <$> tr)) (del_text (el_piece <$> tr))
    (visible p.1) (visible (el_fragment e))) as (b & Hb & Hbuilds).
  { by destruct (visible p.1). }
  { apply He. }
  rewrite N2, N3, Hn, <- Hlen, Hb. cbn [mbind option_bind].
  destruct (push_spec h (new_fragments st) (el_fragment e) Hwf) as (u & h' & -> & Hu & Hul).
  { apply fragment_valid, He. }
  cbn. eexists. split; [done|]. split; [|done]. rewrite Hlen. split; cbn -[consumed rest_pieces].
  - by rewrite N1.
  - exists h'. split; [done|]. by rewrite Hul, Hl, fmap_app.
  - rewrite fmap_app, vis_text_app, del_text_app. cbn [fmap list_fmap].
    rewrite vis_text_singleton, del_text_singleton. unfold vis, del; cbn [el_piece fst snd].
    by destruct (visible (el_fragment e)); rewrite ?app_nil_r.
  - rewrite N4, filter_app, fmap_app, Hi, filter_cons. f_equal. by destruct (recorded e).
  - rewrite N5, filter_app, fmap_app, Hs, filter_cons. f_equal. by destruct (sliced e).
  - rewrite src_bytes_app, Hsrc, !tagged_app, tagged_consumed, (assoc_L (++)). f_equal.
    unfold src_bytes. cbn. by rewrite Hse, app_nil_r, Ht.
  - apply Forall_app. split; [done|]. by constructor.
Qed.

(** The old and the new text of a trace under the views. *)
Lemma view_el (P : Fragment → bool) e : view P (src_bytes [e]) =
  match source e with Some f => if P f then el_text e else [] | None => [] end.
Proof. unfold src_bytes. cbn. rewrite app_nil_r. destruct (source e); [apply view_tag|done]. Qed.

Lemma made_of_sized p k n e : sized p → made_of ts p k n e → sized (el_piece e).
Proof.
  intros Hp He. pose proof Hp as (Hl & Hne & Hu & Hb & Hc). destruct He as [_ Ht Hm Hoff Hlen Htext Hutf [Hn Hkn]].
  assert (len (el_text e) = n) as Hlt by (rewrite Htext, len_ltake, len_ldrop; lia).
  unfold sized, el_piece; cbn. rewrite Hlen, Hm, Hoff. split_and!; [done| |done|lia|done].
  intros Hnil. rewrite Hnil, len_nil in Hlt. lia.
Qed.

(** [push_piece] records the insertion itself; [st1] may have a new slice and patch. *)
Lemma push_piece_held st st1 A p B k n tr e :
  holding st A (p :: B) k tr → made_of ts p k n e → sized p →
  old_fragments st1 = old_fragments st → new_fragments st1 = new_fragments st → new_ropes st1 = new_ropes st →
  new_insertions st1 = new_insertions st →
  new_slices st1 = new_slices st ++ (if sliced e then [slice_from_fragment ts (el_fragment e)] else []) →
  ∃ st', push_piece st1 (el_fragment e) (visible p.1) = Some st' ∧
    holding st' A (p :: B) (k + n) (tr ++ [e]) ∧ same_rest st1 st'.
Proof.
  intros Hh He Hp H1 H2 H3 H4 H5. unfold push_piece. 
  assert (recorded e = true) as Hrec by (destruct (made_origin _ _ _ _ _ He) as [(Ho & _)|(Ho & _)]; unfold recorded; by rewrite Ho).
  edestruct (push_kept_held st (mk_editing (old_fragments st1) (new_fragments st1) (new_ropes st1)
    (new_insertions st1 ++ [insert_new (el_fragment e)]) (new_slices st1) (next_offset st1) (edits_patch st1)
    (fragment_start st1)) A p B k n tr e) as (st' & ? & ? & ?).
  - done.
  - split; cbn; try done. by rewrite Hrec, H4.
  - by eapply made_of_sized.
  - by eapply made_of_source.
  - destruct Hp as (<- & _). apply He.
  - apply He.
  - apply He.
  - by exists st'.
Qed.

(** ** Slices *)

(** At first the cursor has not moved yet; all but the cursor holds ([c0]). *)
Lemma append_slice_held st c0 A rest tr target bias sk r c u h :
  holding (with_cursor st c0) A rest 0 tr → Forall sized rest → rest = sk ++ r →
  Cursor.slice target bias (old_fragments st) = Some (c, u) → cursor_tree c = cursor_tree (old_fragments st) →
  cursor_at c (A ++ sk).*1 r.*1 → wf h u → to_list u = sk.*1 →
  ∃ st', append_slice st target bias = Some st' ∧ holding st' (A ++ sk) r 0 (tr ++ (keep <$> sk)) ∧ same_rest st st'.
Proof.
  intros [Hc (hf & Hwf & Hl) Hr Hi Hs Hsrc Hsz] Hsized -> Hsl Htree Hc' Hu Hul. cbn [with_cursor new_fragments new_ropes new_insertions new_slices] in *.
  apply Forall_app in Hsized as [Hsk Hsr]. unfold append_slice. rewrite Hsl. cbn [mbind option_bind].
  rewrite (wf_summary h u Hu), Hul, (sum_text sk Hsk). rewrite rest_pieces_0, vis_text_app, del_text_app in Hr.
  destruct (builder_append_spec _ _ _ _ _ _ _ _ Hr (vis_text_utf8 _ Hsk) (del_text_utf8 _ Hsk) eq_refl) as (b & -> & Hb).
  cbn [mbind option_bind].
  destruct (append_spec _ _ _ _ Hwf Hu) as (v & hv & -> & Hv & Hvl). cbn [mbind option_bind].
  eexists. split; [done|]. split; [|done]. split; cbn -[consumed rest_pieces].
  - done.
  - exists hv. split; [done|]. rewrite Hvl, Hl, Hul, fmap_app. by rewrite <- (list_fmap_compose keep).
  - rewrite rest_pieces_0, fmap_app, keep_pieces, vis_text_app, del_text_app. done.
  - rewrite Hi, filter_app, fmap_app. rewrite (filter_none _ (keep <$> sk)), app_nil_r; [done|].
    apply Forall_fmap, Forall_true. by intros p.
  - rewrite Hs, filter_app, fmap_app. rewrite (filter_none _ (keep <$> sk)), app_nil_r; [done|].
    apply Forall_fmap, Forall_true. by intros p.
  - rewrite src_bytes_app, Hsrc, src_bytes_keep, !tagged_app, !consumed_0, !app_nil_r. done.
  - apply Forall_app. split; [done|]. apply Forall_fmap. eapply Forall_impl; [done|]. by intros [f t].
Qed.

(** The rest of everything. *)
Lemma finish_held st A rest tr :
  holding st A rest 0 tr → Forall sized rest →
  ∃ fragments h v d, (let tr := tr ++ (keep <$> rest) in
    ('(_, suffix) ← Cursor.suffix (old_fragments st);
     ropes ← builder_append (new_ropes st) (fs_text (tree_summary suffix));
     fragments ← append (new_fragments st) suffix;
     '(v, d) ← builder_finish ropes;
     Some (fragments, v, d)) = Some (fragments, v, d) ∧
    wf h fragments ∧ to_list fragments = el_fragment <$> tr ∧
    rope_inv v (vis_text (el_piece <$> tr)) ∧ rope_inv d (del_text (el_piece <$> tr))).
Proof.
  intros [Hc (hf & Hwf & Hl) Hr Hi Hs Hsrc Hsz] Hrest.
  destruct (suffix_any _ _ _ Hc) as (c & u & h & -> & Hu & Hul). cbn [mbind option_bind].
  rewrite (wf_summary h u Hu), Hul, (sum_text rest Hrest). rewrite rest_pieces_0 in Hr.
  rewrite <- (app_nil_r (vis_text rest)), <- (app_nil_r (del_text rest)) in Hr.
  destruct (builder_append_spec _ _ _ _ _ _ _ _ Hr (vis_text_utf8 _ Hrest) (del_text_utf8 _ Hrest) eq_refl) as (b & -> & Hb).
  cbn [mbind option_bind].
  destruct (append_spec _ _ _ _ Hwf Hu) as (v & hv & -> & Hv & Hvl). cbn [mbind option_bind].
  destruct (builder_finish_spec _ _ _ _ _ Hb) as (rv & rd & -> & Hrv & Hrd). cbn [mbind option_bind].
  rewrite !app_nil_r in Hrv, Hrd.
  exists v, hv, rv, rd. rewrite Hvl, Hl, Hul, !fmap_app, keep_pieces, vis_text_app, del_text_app.
  split_and!; try done. by rewrite <- (list_fmap_compose keep).
Qed.
End editing.

(** ** Elements by what they do *)

Definition quiet (e : el) : Prop :=
  match el_origin e with
  | Kept f | Recut f => visible (el_fragment e) = visible f
  | _ => False
  end.

(** The elements of a text that is inserted. *)
Definition adds (text : str) (els : list el) : Prop :=
  Forall (λ e, el_origin e = Added ∧ visible (el_fragment e) = true) els ∧ (els ≫= el_text) = text.

(** What was [alive] is removed, and the rest stays. *)
Definition erasing (alive : Fragment → bool) (e : el) : Prop :=
  match el_origin e with
  | Removed f => alive f = true ∧ visible (el_fragment e) = false
  | Recut f => alive f = false ∧ visible (el_fragment e) = visible f
  | _ => False
  end.

Lemma quiet_vis els : Forall quiet els → view visible (src_bytes els) = vis_text (el_piece <$> els).
Proof.
  induction 1 as [|e els He _ IH]; [done|].
  change (e :: els) with ([e] ++ els). rewrite src_bytes_app, view_app, IH, view_el. unfold quiet, source in *.
  cbn. unfold vis; cbn. destruct (el_origin e); try done; by rewrite He.
Qed.

Lemma adds_src text els : adds text els → src_bytes els = [] ∧ vis_text (el_piece <$> els) = text.
Proof.
  intros [Hf <-]. induction Hf as [|e els [He Hv] _ [IH1 IH2]]; [done|].
  cbn. unfold src_bytes in *. cbn. unfold source at 1. rewrite He, IH1. split; [done|].
  unfold vis_text in *. cbn. unfold vis at 1. cbn. by rewrite Hv, IH2.
Qed.

(** ** Helpers *)

Lemma filter_keep (P : el → bool) (sk : list piece) : (∀ p, P (keep p) = false) → filter (λ e, P e = true) (keep <$> sk) = [].
Proof.
  intros Hkeep. induction sk as [|p sk IH]; [done|]. rewrite fmap_cons, filter_cons, Hkeep. by case_decide.
Qed.

Lemma view_len (P : Fragment → bool) l : len (view P l) ≤ len l.
Proof. unfold view, len. rewrite length_fmap. pose proof (length_filter (λ x, P x.1 = true) l). lia. Qed.

Lemma cut_small f n delta : insertion_offset f + flen f < U32 → delta + n ≤ flen f →
  cut f n delta = mk_fragment (id f) (timestamp f) (insertion_offset f + delta) n (visible f) (deletions f) (max_undos f).
Proof.
  intros Hb Hn. unfold cut, wrap32. rewrite (N.mod_small n), (N.mod_small delta), (N.mod_small (_ + _)); [done|lia..].
Qed.

Lemma utf8_middle t k n : utf8 t → str_is_char_boundary t k = true → str_is_char_boundary t (k + n) = true →
  utf8 (ltake n (ldrop k t)).
Proof.
  intros Ht Hk Hkn. pose proof (boundary_le _ _ Hkn) as Hle.
  replace (ltake n (ldrop k t)) with (ldrop k (ltake (k + n) t)) by (rewrite ldrop_ltake; f_equal; lia).
  apply utf8_ldrop; [by apply utf8_ltake|].
  rewrite <- (ltake_ldrop (k + n) t), boundary_app_l in Hk; [done|by apply utf8_ldrop|len].
Qed.

Lemma pieces_sized ts ps : Forall (piece_ok ts) ps → Forall sized ps.
Proof. intros Hps. eapply Forall_impl; [exact Hps|]. by intros p (? & _). Qed.

(** An identifier between the last new fragment and what follows. *)
Lemma fresh_id ts A rest k tr : tracing ts A rest k tr →
  let i := Locator.between (default Locator.min ((id ∘ el_fragment) <$> last tr)) (next_id rest) in
  loc_ok i ∧ (∀ e, e ∈ tr → id (el_fragment e) ≺ i) ∧ i ≺ next_id rest.
Proof.
  intros [_ Hok Hr _ Hi _ _]. cbn zeta.
  assert (loc_ok (next_id rest) ∨ next_id rest = Locator.max) as Hnext.
  { destruct rest as [|p B]; [by right|left]. apply Forall_cons in Hr as [(_ & ? & _) _]. done. }
  assert (∀ e, e ∈ tr → id (el_fragment e) ≺ next_id rest) as Hlt.
  { intros e He. destruct rest as [|p B]; cbn.
    - rewrite Forall_forall in Hok. by destruct (Hok e He) as (_ & [_ ?] & _).
    - eapply StronglySorted_before; [exact Hi|]. by apply (list_elem_of_fmap_2 (id ∘ el_fragment)). }
  destruct tr as [|e tr _] using rev_ind.
  - cbn. destruct (between_ok Locator.min (next_id rest)) as (? & ? & ?); [by left|done| |].
    { apply min_lt. destruct Hnext as [[[_ ?] _]| ->]; [done|apply max_wf]. }
    split_and!; [done| |done]. intros e He. by apply elem_of_nil in He.
  - rewrite last_snoc. cbn. destruct (between_ok (id (el_fragment e)) (next_id rest)) as (Hb & ? & ?).
    + right. apply Forall_app in Hok as [_ [(_ & ? & _) _]%Forall_cons]. done.
    + done.
    + apply Hlt. rewrite elem_of_app, list_elem_of_singleton. by right.
    + split_and!; [done| |done]. intros e' [He'| ->%list_elem_of_singleton]%elem_of_app; [|done].
      eapply olt_trans; [|done]. rewrite fmap_app, <- (assoc_L (++)) in Hi. cbn in Hi.
      eapply StronglySorted_before; [exact Hi|]. by apply (list_elem_of_fmap_2 (id ∘ el_fragment)).
Qed.

(** ** The invariant of the loops *)

(** How many bytes of these pieces count, and how many of a fragment. *)
Definition base (counts : Fragment → bool) (l : list piece) : N := len (view counts (tagged l)).
Definition width (counts : Fragment → bool) (f : Fragment) : N := if counts f then flen f else 0.

(** What a dimension promises to the loops: its positions count bytes of the pieces,
    and a seek to a number of bytes enters what it has to. *)
Class Positions {D : Type} `{!Dimension D FragmentSummary} (ts : Lamport.t) (ps : list piece) (counts : Fragment → bool)
    (at_ : D → option N) (seek : N → SeekTarget D) (bias : Bias) : Prop := {
  positions_at A rest : ps = A ++ rest → at_ (pos dim_zero A.*1) = Some (base counts A);
  positions_seek A rest o : ps = A ++ rest → seek o (pos dim_zero A.*1) = cmp o (base counts A);
  positions_coherent A rest o : ps = A ++ rest →
    coherent (seek_enter (seek o) bias) (pos dim_zero A.*1) rest.*1;
  positions_size : len (tagged ps) < 2 ^ 63;
  positions_fresh : Forall (piece_ok ts) ps
}.

Section steps.
Context {D : Type} `{!Dimension D FragmentSummary} {ts : Lamport.t} {ps : list piece} {counts : Fragment → bool}
  {at_ : D → option N} {seek : N → SeekTarget D} {bias : Bias} `{HP : !Positions ts ps counts at_ seek bias}.
Implicit Types (st : editing D) (A B rest : list piece) (k n : N) (tr els : list el) (e : el) (p : piece).
Abbreviation base := (base counts).
Abbreviation width := (width counts).

Let Hat : ∀ A rest, ps = A ++ rest → at_ (pos dim_zero A.*1) = Some (base A) := positions_at.
Let Hsize : len (tagged ps) < 2 ^ 63 := positions_size.
Let Hps : Forall (piece_ok ts) ps := positions_fresh.
Let Hseek : ∀ A rest o, ps = A ++ rest → seek o (pos dim_zero A.*1) = cmp o (base A) := positions_seek.
Let Hcoherent : ∀ A rest o, ps = A ++ rest →
  coherent (seek_enter (seek o) bias) (pos dim_zero A.*1) rest.*1 := positions_coherent.

(** Only fragments that count are cut. *)
Definition whole e : Prop :=
  match source e with Some f => counts f = true ∨ flen (el_fragment e) = flen f | None => True end.

Record doing st A rest k tr : Prop := {
  do_held : holding ts st A rest k tr;
  do_traced : tracing ts A rest k tr;
  do_all : ps = A ++ rest;
  do_counts : 0 < k → ∃ p B, rest = p :: B ∧ counts p.1 = true;
  do_boundary : match rest with p :: _ => str_is_char_boundary p.2 k = true | [] => True end;
  do_patch : patch_ok (edits_patch st) tr;
  do_next : births 0 tr (next_offset st);
  do_whole : Forall whole tr
}.

Lemma keep_whole (sk : list piece) : Forall whole (keep <$> sk).
Proof. apply Forall_fmap, Forall_true. intros p. by right. Qed.

Lemma base_app A B : base (A ++ B) = base A + base B.
Proof. unfold base. by rewrite tagged_app, view_app, len_app. Qed.

Lemma base_singleton p : sized p → base [p] = width p.1.
Proof.
  intros (Hl & _). unfold base, width. rewrite tagged_singleton, view_tag. by destruct (counts p.1).
Qed.

Lemma base_le A rest : ps = A ++ rest → base A ≤ len (tagged A) ∧ len (tagged A) + len (tagged rest) < 2 ^ 63.
Proof. intros ->. rewrite tagged_app, len_app in Hsize. split; [apply view_len|done]. Qed.

Lemma doing_sized st A rest k tr : doing st A rest k tr → Forall sized rest.
Proof. intros [_ [_ _ Hr _ _ _ _ _] _ _ _ _ _]. eapply Forall_impl; [exact Hr|]. by intros p (? & _). Qed.

Lemma doing_start st A rest k tr : doing st A rest k tr → start_offset at_ st = Some (base A).
Proof.
  intros Hd. unfold start_offset, Cursor.start. rewrite (at_position _ _ _ (held_cursor _ _ _ _ _ _ (do_held _ _ _ _ _ Hd))).
  apply (Hat A rest), Hd.
Qed.

Lemma doing_end st A rest k tr : doing st A rest k tr →
  end_offset at_ st = Some (base A + match rest with p :: _ => width p.1 | [] => 0 end).
Proof.
  intros Hd. pose proof (doing_sized _ _ _ _ _ Hd) as Hs. unfold end_offset.
  rewrite (end_at _ _ _ (held_cursor _ _ _ _ _ _ (do_held _ _ _ _ _ Hd))). pose proof (do_all _ _ _ _ _ Hd) as Hall.
  destruct rest as [|p B]; cbn -[base].
  - rewrite (Hat A [] Hall). f_equal. lia.
  - apply Forall_cons in Hs as [Hp _]. replace (A.*1 ++ [p.1]) with ((A ++ [p]).*1) by (by rewrite fmap_app).
    rewrite (Hat (A ++ [p]) B) by (by rewrite <- (assoc_L (++))). by rewrite base_app, base_singleton.
Qed.

Lemma doing_piece st A p B k tr : doing st A (p :: B) k tr →
  sized p ∧ k ≤ flen p.1 ∧ k ≤ width p.1 ∧ base A + len (tagged B) + flen p.1 < 2 ^ 63.
Proof.
  intros Hd. pose proof (doing_sized _ _ _ _ _ Hd) as [Hp _]%Forall_cons.
  pose proof (tr_k _ _ _ _ _ (do_traced _ _ _ _ _ Hd)) as Hk. cbn in Hk. split_and!; [done|done| |].
  - destruct (N.eq_dec k 0) as [->|Hne]; [lia|].
    destruct (do_counts _ _ _ _ _ Hd) as (q & C & [= <- <-] & Hc); [lia|]. unfold width. by rewrite Hc.
  - destruct (base_le A (p :: B) (do_all _ _ _ _ _ Hd)) as [? Hb].
    change (p :: B) with ([p] ++ B) in Hb. rewrite tagged_app, tagged_singleton, len_app in Hb.
    unfold tag in Hb. rewrite len_fmap in Hb. destruct Hp as (-> & _). lia.
Qed.

(** Positions: how much of the old text was passed. *)
Lemma doing_source st A rest k tr : doing st A rest k tr →
  len (view counts (src_bytes tr)) = base A + k ∧ len (src_bytes tr) = len (tagged A) + k.
Proof.
  intros Hd. rewrite (held_source _ _ _ _ _ _ (do_held _ _ _ _ _ Hd)), tagged_app, view_app, !len_app.
  destruct rest as [|p B].
  - pose proof (tr_k _ _ _ _ _ (do_traced _ _ _ _ _ Hd)) as ->. done.
  - destruct (doing_piece _ _ _ _ _ _ Hd) as ((Hl & _) & Hk & Hw & _). cbn [consumed].
    rewrite tagged_singleton, view_tag. unfold width in Hw. unfold tag. rewrite len_fmap. cbn [fst snd].
    split; [|rewrite len_ltake; lia]. unfold base. destruct (counts p.1); [rewrite len_ltake; lia|].
    rewrite len_nil. lia.
Qed.

(** A step that does not touch the cursor or the texts. *)
Lemma doing_with_start st A rest k tr o : doing st A rest k tr → doing (with_start st o) A rest k tr.
Proof. intros [[] ? ? ? ? ? ? ?]. by split. Qed.

(** The next fragment. *)
Lemma doing_advance st A p B tr :
  doing st A (p :: B) (flen p.1) tr →
  ∃ st', advance st = Some st' ∧ doing st' (A ++ [p]) B 0 tr ∧ fragment_start st' = fragment_start st ∧
    next_offset st' = next_offset st.
Proof.
  intros Hd. destruct (doing_piece _ _ _ _ _ _ Hd) as (Hp & _).
  destruct (advance_held ts st A p B tr (do_held _ _ _ _ _ Hd) Hp) as (st' & Hst' & Hh & Hn & Hpa & Hfs & _).
  exists st'. split; [done|]. split; [|done]. destruct Hd as [_ Ht Hall _ _ Hpatch Hnext Hw].
  split; [done|by apply tracing_advance| |lia| |by rewrite Hpa|by rewrite Hn|done].
  - by rewrite <- (assoc_L (++)).
  - destruct B; [done|apply boundary_0].
Qed.

(** What a step may have noted before it pushes a piece: a slice and a patch. *)
Record prepared st st1 e : Prop := {
  prep_cursor : old_fragments st1 = old_fragments st;
  prep_fragments : new_fragments st1 = new_fragments st;
  prep_ropes : new_ropes st1 = new_ropes st;
  prep_insertions : new_insertions st1 = new_insertions st;
  prep_slices : new_slices st1 =
    new_slices st ++ (if sliced e then [slice_from_fragment ts (el_fragment e)] else []);
  prep_next : next_offset st1 = next_offset st
}.

Lemma prepared_id st e : sliced e = false → prepared st st e.
Proof. intros He. split; try done. by rewrite He, app_nil_r. Qed.

(** Pushing the next [n] bytes of the current fragment. *)
Lemma doing_cut st st1 A p B k n tr e :
  doing st A (p :: B) k tr → prepared st st1 e → made_of ts p k n e → loc_ok (id (el_fragment e)) →
  (∀ e', e' ∈ tr → id (el_fragment e') ≺ id (el_fragment e)) → id (el_fragment e) ≺ id p.1 →
  counts p.1 = true → str_is_char_boundary p.2 (k + n) = true → patch_ok (edits_patch st1) (tr ++ [e]) →
  ∃ st', push_piece st1 (el_fragment e) (visible p.1) = Some st' ∧ doing st' A (p :: B) (k + n) (tr ++ [e]) ∧
    fragment_start st' = fragment_start st1 ∧ next_offset st' = next_offset st.
Proof.
  intros Hd [H1 H2 H3 H4 H5 H6] He Hl Hlt Hgt Hc Hb Hp. destruct (doing_piece _ _ _ _ _ _ Hd) as (Hs & _).
  destruct (push_piece_held ts st st1 A p B k n tr e (do_held _ _ _ _ _ Hd) He Hs H1 H2 H3 H4 H5)
    as (st' & Hst' & Hh & Hn & Hpa & Hfs & _).
  exists st'. split; [done|]. split; [|by rewrite Hn, H6]. destruct Hd as [_ Ht Hall _ _ _ Hnext Hw].
  split; [done|by apply tracing_cut|done| |done|by rewrite Hpa| |].
  - intros _. by exists p, B.
  - rewrite Hn, H6. by eapply made_of_births.
  - apply Forall_app. split; [done|]. apply Forall_singleton. unfold whole. rewrite (made_of_source _ _ _ _ _ He). by left.
Qed.

(** Pushing all that is left of it, which keeps its identifier. *)
Lemma doing_rest st st1 A p B k n tr e :
  doing st A (p :: B) k tr → prepared st st1 e → made_of ts p k n e → k + n = flen p.1 →
  id (el_fragment e) = id p.1 → patch_ok (edits_patch st1) (tr ++ [e]) →
  ∃ st', push_piece st1 (el_fragment e) (visible p.1) = Some st' ∧ 
    fragment_start st' = fragment_start st1 ∧
    ∀ o, ∃ st'', advance (with_start st' o) = Some st'' ∧ doing st'' (A ++ [p]) B 0 (tr ++ [e]) ∧
      fragment_start st'' = o ∧ next_offset st'' = next_offset st.
Proof.
  intros Hd [H1 H2 H3 H4 H5 H6] He Hkn Hid Hp. destruct (doing_piece _ _ _ _ _ _ Hd) as (Hs & _).
  destruct (push_piece_held ts st st1 A p B k n tr e (do_held _ _ _ _ _ Hd) He Hs H1 H2 H3 H4 H5)
    as (st' & Hst' & Hh & Hn & Hpa & Hfs & _).
  exists st'. split; [done|]. split; [done|]. intros o. rewrite Hkn in Hh.
  assert (holding ts (with_start st' o) A (p :: B) (flen p.1) (tr ++ [e])) as Hh' by (by destruct Hh).
  destruct (advance_held ts _ A p B _ Hh' Hs) as (st'' & Hst'' & Hh'' & Hn' & Hpa' & Hfs' & _).
  exists st''. split; [done|]. destruct Hd as [_ Ht Hall Hcounts _ _ Hnext Hw].
  split; [|by rewrite Hfs', Hn'; cbn; rewrite Hn, H6].
  split; [done|by eapply tracing_rest| |lia| |by rewrite Hpa'; cbn; rewrite Hpa| |].
  - by rewrite <- (assoc_L (++)).
  - destruct B; [done|apply boundary_0].
  - rewrite Hn'. cbn. rewrite Hn, H6. by eapply made_of_births.
  - apply Forall_app. split; [done|]. apply Forall_singleton. unfold whole. rewrite (made_of_source _ _ _ _ _ He).
    rewrite (made_len _ _ _ _ _ He). destruct (N.eq_dec k 0) as [->|Hk]; [right; lia|left].
    destruct Hcounts as (q & C & [= <- <-] & Hc); [lia|done].
Qed.

(** ** The parts that both edits share *)

Lemma with_start_id st : with_start st (fragment_start st) = st.
Proof. by destruct st. Qed.

Lemma with_cursor_id st : with_cursor st (old_fragments st) = st.
Proof. by destruct st. Qed.

(** The element made of the next [n] bytes of [p]. *)
Definition recut p k n (i : Locator.t) : el :=
  mk_el (Recut p.1) (with_id (cut p.1 n k) i) (ltake n (ldrop k p.2)).
Definition removed p k n (i : Locator.t) : el :=
  mk_el (Removed p.1) (mark_deleted (with_id (cut p.1 n k) i) ts) (ltake n (ldrop k p.2)).

Lemma made_recut p k n i :
  sized p → 0 < n → k + n ≤ flen p.1 → str_is_char_boundary p.2 k = true → str_is_char_boundary p.2 (k + n) = true →
  made_of ts p k n (recut p k n i).
Proof.
  intros (Hl & _ & Hu & Hb & _) Hn Hkn H1 H2. unfold recut. rewrite cut_small by lia. split; cbn; try done.
  - by left.
  - by apply utf8_middle.
Qed.

Lemma made_removed p k n i :
  sized p → 0 < n → k + n ≤ flen p.1 → str_is_char_boundary p.2 k = true → str_is_char_boundary p.2 (k + n) = true →
  made_of ts p k n (removed p k n i).
Proof.
  intros (Hl & _ & Hu & Hb & _) Hn Hkn H1 H2. unfold removed. rewrite cut_small by lia. split; cbn; try done.
  - by right.
  - by apply utf8_middle.
Qed.

Lemma recut_quiet p k n i : quiet (recut p k n i).
Proof. done. Qed.

Lemma patch_ok_quiet pa tr els : patch_ok pa tr → Forall quiet els → patch_ok pa (tr ++ els).
Proof. intros Hp Hq. apply patch_ok_same; [done|by apply quiet_vis]. Qed.

Lemma boundary_end p : sized p → str_is_char_boundary p.2 (flen p.1) = true.
Proof. intros (-> & _). apply boundary_len. Qed.

(** Pushing what is left of the current fragment. *)
Lemma rest_spec st A p B k tr :
  doing st A (p :: B) k tr → counts p.1 = true → k < flen p.1 →
  ∃ st' st'' e, push_piece st (cut p.1 (flen p.1 - k) k) (visible p.1) = Some st' ∧ advance st' = Some st'' ∧
    doing st'' (A ++ [p]) B 0 (tr ++ [e]) ∧ quiet e ∧ next_offset st'' = next_offset st.
Proof.
  intros Hd Hc Hlt. destruct (doing_piece _ _ _ _ _ _ Hd) as (Hs & Hkf & _ & Hb).
  pose (e := recut p k (flen p.1 - k) (id p.1)).
  assert (el_fragment e = cut p.1 (flen p.1 - k) k) as Hef by (by destruct p as [[] ?]).
  destruct (doing_rest st st A p B k (flen p.1 - k) tr e) as (st' & Hst' & Hfs' & Hadv); [done|by apply prepared_id| |lia|done| |].
  { apply made_recut; try done; try lia; [apply Hd|]. replace (k + (flen p.1 - k)) with (flen p.1) by lia. by apply boundary_end. }
  { apply patch_ok_quiet; [apply Hd|]. by repeat constructor. }
  destruct (Hadv (fragment_start st')) as (st'' & Ha & Hd' & _ & Hn'). rewrite with_start_id in Ha.
  rewrite <- Hef. exists st', st'', e. by split_and!.
Qed.

(** [consume_suffix] *)
Lemma consume_suffix_spec st A rest k tr :
  doing st A rest k tr → fragment_start st = base A + k →
  ∃ st' A' rest' els, consume_suffix at_ st = Some st' ∧ doing st' A' rest' 0 (tr ++ els) ∧ Forall quiet els ∧
    next_offset st' = next_offset st ∧ base A' = (if k =? 0 then base A else base A + match rest with p :: _ => width p.1 | [] => 0 end).
Proof.
  intros Hd Hfs. unfold consume_suffix. rewrite (doing_start _ _ _ _ _ Hd). cbn [mbind option_bind].
  rewrite Hfs. destruct (N.eqb_spec k 0) as [->|Hk].
  { rewrite (proj2 (N.ltb_ge _ _)) by lia. exists st, A, rest, []. rewrite app_nil_r. done. }
  rewrite (proj2 (N.ltb_lt _ _)) by lia. rewrite (doing_end _ _ _ _ _ Hd). cbn [mbind option_bind].
  destruct (do_counts _ _ _ _ _ Hd) as (p & B & -> & Hc); [lia|].
  destruct (doing_piece _ _ _ _ _ _ Hd) as (Hs & Hkf & _ & Hb).
  assert (width p.1 = flen p.1) as Hw by (unfold width; by rewrite Hc). rewrite Hw.
  assert (base (A ++ [p]) = base A + flen p.1) as Hbase by (by rewrite base_app, base_singleton, Hw).
  destruct (N.ltb_spec (base A + k) (base A + flen p.1)) as [Hlt|Hge].
  - rewrite (current_held _ _ _ _ _ _ _ (do_held _ _ _ _ _ Hd)). cbn [mbind option_bind].
    rewrite !usub_small by lia.
    replace (base A + flen p.1 - (base A + k)) with (flen p.1 - k) by lia. replace (base A + k - base A) with k by lia.
    destruct (rest_spec _ _ _ _ _ _ Hd Hc) as (st' & st'' & e & Hst' & Ha & Hd' & Hq & Hn'); [lia|].
    change (visible (cut _ _ _)) with (visible p.1). rewrite Hst'. cbn [mbind option_bind].
    exists st'', (A ++ [p]), B, [e]. split_and!; [done|done|by constructor|done|done].
  - cbn [mbind option_bind]. assert (k = flen p.1) as -> by lia. destruct (doing_advance _ _ _ _ _ Hd) as (st' & Hst' & Hd' & _ & Hn').
    exists st', (A ++ [p]), B, []. rewrite app_nil_r. done.
Qed.

Lemma view_utf8 l : Forall sized l → utf8 (view counts (tagged l)).
Proof.
  induction 1 as [|p l Hp _ IH]; [apply utf8_nil|]. change (p :: l) with ([p] ++ l).
  rewrite tagged_app, view_app, tagged_singleton, view_tag. apply utf8_app; [|done].
  destruct (counts p.1); [apply Hp|apply utf8_nil].
Qed.

(** A position between characters. *)
Definition aligned (o : N) : Prop := str_is_char_boundary (view counts (tagged ps)) o = true.

Lemma aligned_piece A p B o : ps = A ++ p :: B → aligned o → counts p.1 = true → base A ≤ o ≤ base A + flen p.1 →
  str_is_char_boundary p.2 (o - base A) = true.
Proof.
  unfold aligned. intros Hall Ho Hc Hb. pose proof (pieces_sized _ _ Hps) as Hs. rewrite Hall in Ho, Hs.
  apply Forall_app in Hs as [HA [Hp HB]%Forall_cons]. change (p :: B) with ([p] ++ B) in Ho.
  rewrite !tagged_app, !view_app, tagged_singleton, view_tag, Hc in Ho.
  replace o with (base A + (o - base A)) in Ho by lia. unfold base in Ho at 1.
  rewrite boundary_app_r in Ho by (apply utf8_app; [apply Hp|by apply view_utf8]).
  rewrite boundary_app_l in Ho; [done|by apply view_utf8|]. destruct Hp as (<- & _). lia.
Qed.

(** [push_prefix] *)
Lemma push_prefix_spec st A rest k tr o :
  doing st A rest k tr → fragment_start st = base A + k →
  base A + k ≤ o ≤ base A + match rest with p :: _ => width p.1 | [] => 0 end → aligned o →
  ∃ st' els, push_prefix at_ st o = Some st' ∧ doing st' A rest (o - base A) (tr ++ els) ∧
    fragment_start st' = o ∧ Forall quiet els ∧ next_offset st' = next_offset st.
Proof.
  intros Hd Hfs Ho Hal. unfold push_prefix. rewrite Hfs. destruct (N.ltb_spec (base A + k) o) as [Hlt|Hge].
  2:{ assert (o = base A + k) as -> by lia. replace (base A + k - base A) with k by lia.
      exists st, []. rewrite app_nil_r. done. }
  destruct rest as [|p B]; [lia|]. rewrite (current_held _ _ _ _ _ _ _ (do_held _ _ _ _ _ Hd)), (doing_start _ _ _ _ _ Hd).
  cbn [mbind option_bind]. destruct (doing_piece _ _ _ _ _ _ Hd) as (Hs & Hkf & Hkw & Hb).
  assert (counts p.1 = true) as Hc by (unfold width in Ho; destruct (counts p.1); [done|lia]).
  assert (width p.1 = flen p.1) as Hw by (unfold width; by rewrite Hc). rewrite Hw in Ho.
  rewrite !usub_small by lia.
  replace (o - (base A + k)) with (o - base A - k) by lia. replace (base A + k - base A) with k by lia.
  pose (n := o - base A - k). pose (i := Locator.between (last_id st) (id p.1)).
  destruct (fresh_id _ _ _ _ _ (do_traced _ _ _ _ _ Hd)) as (Hi & Hbelow & Habove). cbn [next_id] in *.
  rewrite <- (last_id_held _ _ _ _ _ _ (do_held _ _ _ _ _ Hd)) in *. fold i in Hi, Hbelow, Habove.
  destruct (doing_cut st st A p B k n tr (recut p k n i)) as (st' & Hst' & Hd' & Hfs' & Hn'); try done.
  - by apply prepared_id.
  - apply made_recut; [done|lia|lia|apply Hd|]. replace (k + n) with (o - base A) by lia. eapply aligned_piece; [apply Hd|done|done|lia].
  - replace (k + n) with (o - base A) by lia. eapply aligned_piece; [apply Hd|done|done|lia].
  - apply patch_ok_quiet; [apply Hd|]. by repeat constructor.
  - change (push_piece st (el_fragment (recut p k n i)) (visible p.1) = Some st') in Hst'. fold n. 
    change (visible (with_id _ _)) with (visible p.1).
    unfold recut in Hst'; cbn [el_fragment] in Hst'. change (id (cut p.1 n k)) with (id p.1). fold i. rewrite Hst'.
    cbn [mbind option_bind]. exists (with_start st' o), [recut p k n i].
    replace (k + n) with (o - base A) in Hd' by lia.
    split_and!; [done|by apply doing_with_start|done|by repeat constructor|done].
Qed.
(** Slicing up to a position. *)
(** With a bias to the right the seek goes on past what ends at the target. *)
Definition strictly o A rest : Prop :=
  bias = Right → match rest with p :: _ => o < base A + width p.1 | [] => True end.

Lemma split_spec o rest : ∀ A, ps = A ++ rest → base A ≤ o ≤ base ps →
  ∃ sk r, rest = sk ++ r ∧ split_at (seek_enter (seek o) bias) (pos dim_zero A.*1) rest.*1 = (sk.*1, r.*1) ∧
    base (A ++ sk) ≤ o ≤ base (A ++ sk) + match r with p :: _ => width p.1 | [] => 0 end ∧ strictly o (A ++ sk) r.
Proof.
  induction rest as [|p rest IH]; intros A Hall Ho.
  { exists [], []. split_and!; try done; rewrite app_nil_r in *; subst; lia. }
  assert (ps = (A ++ [p]) ++ rest) as Hall' by (by rewrite <- (assoc_L (++))).
  assert (base (A ++ [p]) = base A + width p.1) as Hbase.
  { rewrite base_app, base_singleton; [done|]. pose proof (pieces_sized _ _ Hps) as Hs. rewrite Hall in Hs.
    by apply Forall_app in Hs as [_ [? _]%Forall_cons]. }
  cbn [fmap list_fmap split_at]. unfold seek_enter at 1.
  rewrite <- pos_snoc. replace (A.*1 ++ [p.1]) with ((A ++ [p]).*1) by (by rewrite fmap_app).
  rewrite (Hseek _ _ o Hall'), Hbase.
  assert (∀ b : bool, (b = true → o ≤ base A + width p.1 ∧ (bias = Right → o < base A + width p.1)) → (b = false → base A + width p.1 ≤ o) →
    ∃ sk r, p :: rest = sk ++ r ∧ (if b then ([], p.1 :: rest.*1) else
      prod_map (cons p.1) Datatypes.id (split_at (seek_enter (seek o) bias) (pos dim_zero (A ++ [p]).*1) rest.*1)) =
        (sk.*1, r.*1) ∧
      base (A ++ sk) ≤ o ≤ base (A ++ sk) + match r with p :: _ => width p.1 | [] => 0 end ∧ strictly o (A ++ sk) r) as Hcase.
  { intros [] Ht Hf.
    - exists [], (p :: rest). rewrite app_nil_r. split_and!; [done|done|lia|by apply Ht|intros ?; by apply Ht].
    - destruct (IH (A ++ [p]) Hall') as (sk & r & -> & -> & Hb); [specialize (Hf eq_refl); lia|].
      exists (p :: sk), r. rewrite <- (assoc_L (++)) in Hb. done. }
  change (cmp o (base A + width p.1)) with (o ?= base A + width p.1).
  apply (Hcase (negb (skips (o ?= base A + width p.1) bias)));
    destruct (N.compare_spec o (base A + width p.1)); destruct bias; cbn; intros; split_and?; intros; try done; lia.
Qed.

Lemma slice_spec (c : Cursor Fragment FragmentSummary D) A rest o :
  ps = A ++ rest → cursor_at c A.*1 rest.*1 ∨
    (∃ t h, c = cursor_new t ∧ wf h t ∧ (h < 16)%nat ∧ to_list t = ps.*1 ∧ A = []) → base A ≤ o ≤ base ps →
  ∃ sk r c' u h, rest = sk ++ r ∧ Cursor.slice (seek o) bias c = Some (c', u) ∧ cursor_tree c' = cursor_tree c ∧
    cursor_at c' (A ++ sk).*1 r.*1 ∧ wf h u ∧ to_list u = sk.*1 ∧
    base (A ++ sk) ≤ o ≤ base (A ++ sk) + match r with p :: _ => width p.1 | [] => 0 end ∧ strictly o (A ++ sk) r.
Proof.
  intros Hall Hc Ho. destruct (split_spec o rest A Hall Ho) as (sk & r & -> & Hsplit & Hb).
  assert (seek o (pos dim_zero A.*1) ≠ Lt) as Hlt.
  { rewrite (Hseek _ _ o Hall). intros E. change (o < base A) in E. lia. }
  destruct Hc as [Hc|(t & h & -> & Hwf & Hh & Hl & ->)].
  - destruct (slice_coherent _ bias c _ _ Hc Hlt (Hcoherent _ _ o Hall)) as (sk' & r' & c' & u & h & E & ? & ? & ? & ? & ?).
    rewrite E in Hsplit. injection Hsplit as -> ->. exists sk, r, c', u, h. by rewrite fmap_app.
  - cbn in Hall. destruct (slice_new_coherent (seek o) bias h t Hwf Hh Hlt) as (sk' & r' & c' & u & hu & E & ? & ? & ? & ? & ?).
    { rewrite Hl, Hall. apply (Hcoherent [] _ o Hall). }
    rewrite Hl, Hall in E. change (pos dim_zero [].*1) with (dim_zero (D:=D)) in Hsplit. rewrite E in Hsplit.
    injection Hsplit as -> ->. by exists sk, r, c', u, hu.
Qed.

Lemma keep_quiet (sk : list piece) : Forall quiet (keep <$> sk).
Proof. apply Forall_fmap, Forall_true. done. Qed.

Lemma doing_append st c0 A sk rest tr c u h o :
  doing (with_cursor st c0) A (sk ++ rest) 0 tr → Cursor.slice (seek o) bias (old_fragments st) = Some (c, u) →
  cursor_tree c = cursor_tree (old_fragments st) → cursor_at c (A ++ sk).*1 rest.*1 → wf h u → to_list u = sk.*1 →
  ∃ st', append_slice st (seek o) bias = Some st' ∧ doing st' (A ++ sk) rest 0 (tr ++ (keep <$> sk)) ∧
    next_offset st' = next_offset st.
Proof.
  intros Hd Hsl Htree Hc Hu Hul. pose proof (doing_sized _ _ _ _ _ Hd) as Hs.
  destruct (append_slice_held ts st c0 A (sk ++ rest) tr (seek o) bias sk rest c u h) as (st' & Hst' & Hh & Hn & Hp & _);
    try done; [apply Hd|].
  exists st'. split; [done|]. split; [|done]. destruct Hd as [_ Ht Hall _ _ Hpatch Hnext Hw].
  split; [done|by apply tracing_keep| |lia| | | |].
  - by rewrite <- (assoc_L (++)).
  - destruct rest; [done|apply boundary_0].
  - rewrite Hp. apply patch_ok_quiet; [done|apply keep_quiet].
  - rewrite Hn. apply births_keep; [done|]. by apply Forall_fmap, Forall_true.
  - apply Forall_app. split; [done|apply keep_whole].
Qed.

Definition jump st (range_start : N) : option (editing D) :=
  fragment_end ← end_offset at_ st;
  if fragment_end <? range_start then
    st ← consume_suffix at_ st;
    st ← append_slice st (seek range_start) bias;
    o ← start_offset at_ st;
    Some (with_start st o)
  else Some st.

Lemma jump_spec st A rest k tr o :
  doing st A rest k tr → fragment_start st = base A + k → base A + k ≤ o ≤ base ps →
  ∃ st' A' rest' k' els, jump st o = Some st' ∧ doing st' A' rest' k' (tr ++ els) ∧
    fragment_start st' = base A' + k' ∧
    base A' + k' ≤ o ≤ base A' + match rest' with p :: _ => width p.1 | [] => 0 end ∧
    Forall quiet els ∧ next_offset st' = next_offset st ∧ (k' = 0 ∨ A' = A ∧ rest' = rest ∧ k' = k) ∧
    (k' = 0 ∧ strictly o A' rest' ∨ A' = A ∧ rest' = rest ∧ k' = k).
Proof.
  intros Hd Hfs Ho. unfold jump. rewrite (doing_end _ _ _ _ _ Hd). cbn [mbind option_bind].
  destruct (N.ltb_spec (base A + match rest with p :: _ => width p.1 | [] => 0 end) o) as [Hlt|Hge].
  2:{ exists st, A, rest, k, []. rewrite app_nil_r. split_and!; try done; [lia|by right|by right]. }
  destruct (consume_suffix_spec _ _ _ _ _ Hd Hfs) as (st1 & A1 & rest1 & els1 & -> & Hd1 & Hq1 & Hn1 & Hb1).
  assert (base A1 ≤ o) as HA1 by (destruct (N.eqb_spec k 0); lia).
  destruct (slice_spec (old_fragments st1) A1 rest1 o) as (sk & r & c & u & h & -> & Hsl & Htree & Hc & Hu & Hul & Hb & Hstrict);
    [apply Hd1|left; apply Hd1|lia|].
  rewrite <- (with_cursor_id st1) in Hd1. destruct (doing_append _ _ _ _ _ _ _ _ _ _ Hd1 Hsl Htree Hc Hu Hul) as (st2 & Hst2 & Hd2 & Hn2).
  cbn [mbind option_bind]. rewrite Hst2. cbn [mbind option_bind]. rewrite (doing_start _ _ _ _ _ Hd2). cbn [mbind option_bind].
  rewrite <- (assoc_L (++)) in Hd2.
  eexists (with_start st2 (base (A1 ++ sk))), (A1 ++ sk), r, 0, _.
  split_and!; [done|by apply doing_with_start|cbn; lia|lia|lia| |by cbn; rewrite Hn2, Hn1|by left|by left].
  apply Forall_app. split; [done|apply keep_quiet].
Qed.

(** The start of both edits. *)
Lemma begin_spec cv cd (t : Fragments) h o :
  wf h t → (h < 16)%nat → to_list t = ps.*1 → builds (builder_new cv cd) (vis_text ps) (del_text ps) [] [] →
  StronglySorted olt (id <$> ps.*1) → StronglySorted follows ps.*1 → o ≤ base ps →
  ∃ st' A rest els,
    (st ← append_slice (mk_editing (cursor_new t) tree_new (builder_new cv cd) [] [] 0 [] 0) (seek o) bias;
     o ← start_offset at_ st; Some (with_start st o)) = Some st' ∧
    doing st' A rest 0 els ∧ fragment_start st' = base A ∧
    base A ≤ o ≤ base A + match rest with p :: _ => width p.1 | [] => 0 end ∧ Forall quiet els ∧ next_offset st' = 0 ∧
    strictly o A rest.
Proof.
  intros Hwf Hh Hl Hb Hids Hord Ho.
  destruct (next_start (cursor_new t : Cursor Fragment FragmentSummary D) (cursor_new_start _ _ Hwf Hh)) as (c0 & _ & _ & Hc0).
  cbn [cursor_tree cursor_new] in Hc0. rewrite Hl in Hc0.
  set (st := mk_editing (cursor_new t) tree_new (builder_new cv cd) [] [] 0 [] 0).
  assert (doing (with_cursor st c0) [] ps 0 []) as Hd.
  { split; try done; [|by apply tracing_start|destruct ps; [done|apply boundary_0]|apply patch_ok_nil].
    split; try done; cbn.
    - exists 0%nat. split; [apply wf_new|done].
    - by rewrite rest_pieces_0.
    - by rewrite consumed_0. }
  destruct (slice_spec (cursor_new t) [] ps o) as (sk & r & c & u & hu & Hps' & Hsl & Htree & Hc & Hu & Hul & Hbase & Hstrict); try done.
  { right. by exists t, h. }
  { split; [apply N.le_0_l|done]. }
  assert (doing (with_cursor st c0) [] (sk ++ r) 0 []) as Hd' by (by rewrite <- Hps').
  destruct (doing_append _ _ _ _ _ _ _ _ _ _ Hd' Hsl Htree Hc Hu Hul) as (st2 & Hst2 & Hd2 & Hn2).
  rewrite Hst2. cbn [mbind option_bind]. rewrite (doing_start _ _ _ _ _ Hd2). cbn [mbind option_bind].
  eexists (with_start st2 (base sk)), sk, r, _.
  split_and!; [done|by apply doing_with_start|done|by apply Hbase|by apply Hbase|apply keep_quiet|done|done].
Qed.
(** ** Inserting text *)

Lemma old_timestamp A rest k tr e f : tracing ts A rest k tr → ps = A ++ rest → e ∈ tr → source e = Some f →
  timestamp (el_fragment e) ≠ ts.
Proof.
  intros [_ Hok _ Hsrc _ _ _] Hall He Hf. rewrite Forall_forall in Hok, Hsrc. specialize (Hok e He). specialize (Hsrc e He).
  cbn in Hsrc. rewrite Hf in Hsrc.
  assert (f ∈ ps.*1) as Hin.
  { rewrite Hall, fmap_app, elem_of_app. destruct Hsrc as [?|(p & B & -> & -> & _)]; [by left|right].
    apply elem_of_cons. by left. }
  apply list_elem_of_fmap in Hin as (p & -> & Hp). pose proof Hps as Hps'. rewrite Forall_forall in Hps'.
  destruct (Hps' p Hp) as (_ & _ & Hne). destruct Hok as (_ & _ & Ho). unfold source in Hf.
  destruct (el_origin e); try done; injection Hf as ->; [by rewrite Ho|..]; by destruct Ho as ((-> & _) & _).
Qed.

(** A text below 2^32 bytes is inserted as one fragment. *)
Lemma insertion_loop st text i :
  text ≠ [] → len text < U32 →
  push_insertion_loop (length text) st text ts i 0 =
  (let f := mk_fragment (Locator.between (last_id st) i) ts (next_offset st) (wrap32 (len text)) true [] Global.new in
   fragments ← push (new_fragments st) f;
   Some (mk_editing (old_fragments st) fragments (new_ropes st) (new_insertions st ++ [insert_new f])
           (new_slices st ++ [slice_from_fragment ts f]) (wrap32 (next_offset st + wrap32 (len text)))
           (edits_patch st) (fragment_start st))).
Proof.
  intros Hne Hlen. destruct text as [|b text]; [done|]. cbn [length push_insertion_loop].
  set (t := b :: text) in *. assert (0 < len t) as Hpos by (unfold t; len).
  rewrite (proj2 (N.ltb_lt _ _) Hpos). rewrite N.min_l by (unfold MAX_INSERTION_LEN, U32 in *; lia).
  rewrite N.eqb_refl, (proj2 (N.eqb_neq _ _)) by lia.
  rewrite usub_small by (unfold U32 in *; lia). rewrite N.sub_0_r. cbn zeta.
  destruct (push _ _); [|done]. cbn [mbind option_bind].
  destruct (length text); cbn [push_insertion_loop]; rewrite (proj2 (N.ltb_ge (len t) (len t))) by lia; done.
Qed.

Lemma insertion_spec st A rest k tr text :
  doing st A rest k tr → text ≠ [] → utf8 text → next_offset st + len text < U32 →
  ∃ st' els, push_fragments_for_insertion st text ts (next_id rest) = Some st' ∧ adds text els ∧
    fragment_start st' = fragment_start st ∧ next_offset st' = next_offset st + len text ∧
    doing (with_patch st' (patch_edit (old_len tr) (old_len tr) (new_len tr) (new_len tr + len text))) A rest k (tr ++ els).
Proof.
  intros Hd Hne Hu Hn. unfold push_fragments_for_insertion. rewrite insertion_loop by (done || lia). unfold wrap32.
  rewrite (N.mod_small (len text)), (N.mod_small (_ + _)) by lia. cbn zeta.
  set (f := mk_fragment _ _ _ _ _ _ _).
  pose proof (do_traced _ _ _ _ _ Hd) as Ht.
  destruct (fresh_id _ _ _ _ _ Ht) as (Hi & Hbelow & Habove).
  rewrite <- (last_id_held _ _ _ _ _ _ (do_held _ _ _ _ _ Hd)) in *.
  destruct (do_held _ _ _ _ _ Hd) as [Hc (h & Hwf & Hl) Hr Hins Hsl Hsrc Hsz].
  assert (sized (f, text)) as Hsized by (split_and!; cbn; try done; apply Global.canonical_new).
  destruct (push_spec h (new_fragments st) f Hwf) as (u & hu & -> & Hwu & Hul).
  { apply fragment_valid, Global.canonical_new. }
  cbn [mbind option_bind new_ropes old_fragments new_fragments new_insertions new_slices next_offset edits_patch fragment_start].
  destruct (builder_push_str_spec _ _ _ _ _ _ Hr Hu) as (b & -> & Hb). cbn [mbind option_bind].
  pose (e := mk_el Added f text). eexists _, [e]. split; [done|].
  assert (adds text [e]) as Hadds by (split; [by repeat constructor|cbn; by rewrite app_nil_r]).
  destruct (adds_src _ _ Hadds) as [Hs0 Hs1].
  split_and!; [done..|]. split; cbn -[rest_pieces consumed].
  - split; cbn -[rest_pieces consumed].
    + done.
    + exists hu. split; [done|]. by rewrite Hul, Hl, fmap_app.
    + rewrite fmap_app, vis_text_app, del_text_app, Hs1. unfold del_text at 2. cbn. by rewrite app_nil_r.
    + by rewrite Hins, filter_app, fmap_app.
    + by rewrite Hsl, filter_app, fmap_app.
    + by rewrite src_bytes_app, Hs0, app_nil_r.
    + apply Forall_app. split; [done|]. by constructor.
  - apply tracing_add; [done|done| |done|done| |apply (do_next _ _ _ _ _ Hd)].
    + split_and!; done.
    + intros e' He'. unfold follows. cbn. intros Heq. destruct (el_origin e') eqn:Ho.
      1:{ destruct (births_bound _ _ _ (do_next _ _ _ _ _ Hd)) as [_ Hnext]. rewrite Forall_forall in Hnext. by apply Hnext. }
      all: exfalso; refine (old_timestamp _ _ _ _ e' _ Ht (do_all _ _ _ _ _ Hd) He' _ Heq); unfold source; by rewrite Ho.
  - apply Hd.
  - apply Hd.
  - apply Hd.
  - pose proof (patch_ok_push (edits_patch st) tr [e] (do_patch _ _ _ _ _ Hd)) as Hp.
    unfold old_len, new_len in *. rewrite src_bytes_app, Hs0, app_nil_r in Hp.
    by rewrite (fmap_app el_piece), vis_text_app, Hs1, len_app in Hp.
  - apply births_app. eexists. split; [apply (do_next _ _ _ _ _ Hd)|]. cbn. done.
  - apply Forall_app. split; [apply Hd|by apply Forall_singleton].
Qed.
(** ** Deleting *)

(** Removing the next [n] bytes of the current fragment. *)
Lemma removal_spec st st1 A p B k n tr :
  let e := removed p k n (Locator.between (last_id st) (id p.1)) in
  doing st A (p :: B) k tr → prepared st st1 e → counts p.1 = true → 0 < n → k + n ≤ flen p.1 →
  str_is_char_boundary p.2 (k + n) = true →
  edits_patch st1 = (if visible p.1 then Patch.push (edits_patch st)
    (patch_edit (old_len tr) (old_len tr + n) (new_len tr) (new_len tr)) else edits_patch st) →
  ∃ st', push_piece st1 (el_fragment e) (visible p.1) = Some st' ∧ doing st' A (p :: B) (k + n) (tr ++ [e]) ∧
    fragment_start st' = fragment_start st1 ∧ next_offset st' = next_offset st.
Proof.
  intros e Hd Hprep Hc Hn Hkn Hb Hp. destruct (doing_piece _ _ _ _ _ _ Hd) as (Hs & _).
  destruct (fresh_id _ _ _ _ _ (do_traced _ _ _ _ _ Hd)) as (Hi & Hbelow & Habove). cbn [next_id] in *.
  rewrite <- (last_id_held _ _ _ _ _ _ (do_held _ _ _ _ _ Hd)) in *.
  assert (made_of ts p k n e) as He by (apply made_removed; [done..|apply Hd|done]).
  apply (doing_cut st st1 A p B k n tr e); try done.
  assert (len (el_text e) = n) as Hlen by (rewrite (made_text _ _ _ _ _ He), len_ltake, len_ldrop; destruct Hs as (<- & _); lia).
  rewrite Hp. pose proof (do_patch _ _ _ _ _ Hd) as Hpatch. destruct (visible p.1) eqn:Hv.
  - pose proof (patch_ok_push _ tr [e] Hpatch) as Hp'. unfold old_len, new_len in *.
    rewrite src_bytes_app, view_app, view_el, fmap_app, vis_text_app in Hp'. cbn [source e removed el_origin] in Hp'.
    rewrite Hv, !len_app, Hlen in Hp'. cbn in Hp'. by rewrite len_nil, N.add_0_r in Hp'.
  - apply patch_ok_same; [done|]. rewrite view_el. cbn. by rewrite Hv.
Qed.

(** The end of a round: the next fragment, when the current one ends within the range. *)
Lemma round_end st A p B k tr o :
  doing st A (p :: B) k tr → counts p.1 = true → fragment_start st = N.min o (base A + flen p.1) →
  base A + k = N.min o (base A + flen p.1) →
  ∃ st' A' rest' k', (if base A + flen p.1 <=? o then advance st else Some st) = Some st' ∧
    doing st' A' rest' k' tr ∧ fragment_start st' = base A' + k' ∧ next_offset st' = next_offset st ∧
    base A' + k' ≤ o ∧ (base A' + k' = o ∨ rest' = B) ∧
    (k' = 0 ∧ A' = A ++ [p] ∨ k' = k ∧ rest' = p :: B ∧ k' < flen p.1).
Proof.
  intros Hd Hc Hfs Hk. destruct (doing_piece _ _ _ _ _ _ Hd) as (Hs & _).
  assert (base (A ++ [p]) = base A + flen p.1) as Hbase.
  { rewrite base_app, base_singleton by done. unfold BufferSteps.width. by rewrite Hc. }
  destruct (N.leb_spec (base A + flen p.1) o) as [Hle|Hgt].
  - assert (k = flen p.1) as -> by lia. destruct (doing_advance _ _ _ _ _ Hd) as (st' & Hst' & Hd' & Hfs' & Hn').
    exists st', (A ++ [p]), B, 0. split_and!; [done|done|lia|done|lia|by right|by left].
  - exists st, A, (p :: B), k. split_and!; [done|done|lia|done|lia|left; lia|right]. split_and!; [done|done|lia].
Qed.

(** A fragment that is not [alive] is passed on as a whole. *)
Definition passed p : el := mk_el (Recut p.1) p.1 p.2.

Lemma passing_spec st A p B tr :
  doing st A (p :: B) 0 tr →
  ∃ st', push_piece st p.1 (visible p.1) = Some st' ∧ fragment_start st' = fragment_start st ∧
    ∀ o, ∃ st'', advance (with_start st' o) = Some st'' ∧ doing st'' (A ++ [p]) B 0 (tr ++ [passed p]) ∧
      fragment_start st'' = o ∧ next_offset st'' = next_offset st.
Proof.
  intros Hd. destruct (doing_piece _ _ _ _ _ _ Hd) as (Hs & _). pose proof Hs as (Hl & Hne & Hu & _).
  assert (0 < flen p.1) by (rewrite Hl; destruct p.2; [done|len]).
  apply (doing_rest st st A p B 0 (flen p.1) tr (passed p)); [done|by apply prepared_id| |done|done|].
  - split; cbn; try done; [by left|lia|]. by rewrite ldrop_0, ltake_ge by lia.
  - apply patch_ok_quiet; [apply Hd|]. by repeat constructor.
Qed.
(** Passing on a whole fragment without an entry in the index. *)
Lemma keeping_spec st A p B tr :
  doing st A (p :: B) 0 tr →
  ∃ st' st'', push_kept st p.1 (visible p.1) = Some st' ∧ advance st' = Some st'' ∧
    doing st'' (A ++ [p]) B 0 (tr ++ [keep p]) ∧ fragment_start st'' = fragment_start st ∧
    next_offset st'' = next_offset st.
Proof.
  intros Hd. destruct (doing_piece _ _ _ _ _ _ Hd) as (Hs & _). pose proof Hs as (Hl & _).
  destruct (push_kept_held ts st st A p B 0 (flen p.1) tr (keep p) (do_held _ _ _ _ _ Hd)) as (st' & Hst' & Hh & Hn & Hp & Hfs & _);
    [by split; cbn; rewrite ?app_nil_r|by destruct p|done|lia|done|by cbn; rewrite ldrop_0, ltake_ge by lia|].
  destruct (advance_held ts st' A p B _ Hh Hs) as (st'' & Hst'' & Hh'' & Hn' & Hp' & Hfs' & _).
  exists st', st''. split_and!; [done|done| |by rewrite Hfs'|by rewrite Hn'].
  destruct Hd as [_ Ht Hall _ _ Hpatch Hnext Hw]. split; [done|by apply (tracing_keep _ A [p] B tr)| |lia| | | |].
  - by rewrite <- (assoc_L (++)).
  - destruct B; [done|apply boundary_0].
  - rewrite Hp', Hp. apply patch_ok_quiet; [done|apply (keep_quiet [p])].
  - rewrite Hn', Hn. apply births_keep; [done|]. by apply Forall_singleton.
  - apply Forall_app. split; [done|apply (keep_whole [p])].
Qed.

Lemma next_fragment_id_spec st A rest k tr : doing st A rest k tr → next_fragment_id st = Some (next_id rest).
Proof.
  intros Hd. unfold next_fragment_id. rewrite (item_held _ _ _ _ _ _ (do_held _ _ _ _ _ Hd)). by destruct rest.
Qed.

Lemma cut_boundary st A p B k n tr o :
  doing st A (p :: B) k tr → counts p.1 = true → aligned o → 
  n = N.min o (base A + flen p.1) - (base A + k) → base A + k ≤ o →
  str_is_char_boundary p.2 (k + n) = true.
Proof.
  intros Hd Hv Hal -> Ho. destruct (doing_piece _ _ _ _ _ _ Hd) as (Hs & Hk & _).
  destruct (N.le_gt_cases o (base A + flen p.1)) as [Hle|Hgt].
  - rewrite N.min_l by done. replace (k + (o - (base A + k))) with (o - base A) by lia.
    eapply aligned_piece; [apply Hd|done..|lia].
  - rewrite N.min_r by lia. replace (k + _) with (flen p.1) by lia. by apply boundary_end.
Qed.

(** The fuel of the loops suffices for all fragments. *)
Lemma cost_spec st A rest k tr A' rest' : doing st A rest k tr → ps = A' ++ rest' →
  (length rest' < cost (cursor_tree (old_fragments st)))%nat.
Proof.
  intros Hd Hall'. pose proof (held_cursor _ _ _ _ _ _ (do_held _ _ _ _ _ Hd)) as Hc.
  pose proof (length_items_cost (cursor_tree (old_fragments st))) as Hlen. pose proof (do_all _ _ _ _ _ Hd) as Hall.
  rewrite (at_items _ _ _ Hc), <- fmap_app, <- Hall, Hall', length_fmap, length_app in Hlen. lia.
Qed.

(** ** The end of both edits *)

(** What is there to commit. *)
Record finished tr st (fragments : Fragments) (v d : Rope) : Prop := {
  fin_traced : tracing ts ps [] 0 tr;
  fin_source : src_bytes tr = tagged ps;
  fin_fragments : ∃ h, wf h fragments ∧ to_list fragments = el_fragment <$> tr;
  fin_visible : rope_inv v (vis_text (el_piece <$> tr));
  fin_deleted : rope_inv d (del_text (el_piece <$> tr));
  fin_insertions : new_insertions st = (insert_new ∘ el_fragment) <$> filter (λ e, recorded e = true) tr;
  fin_slices : new_slices st = (slice_from_fragment ts ∘ el_fragment) <$> filter (λ e, sliced e = true) tr;
  fin_patch : patch_ok (edits_patch st) tr
}.

Lemma finish_spec st A rest k tr :
  doing st A rest k tr → fragment_start st = base A + k →
  ∃ st' els fragments v d, finish_editing at_ st = Some (st', fragments, v, d) ∧ Forall quiet els ∧
    finished (tr ++ els) st' fragments v d ∧ Forall whole (tr ++ els).
Proof.
  intros Hd Hfs. destruct (consume_suffix_spec _ _ _ _ _ Hd Hfs) as (st1 & A1 & rest1 & els1 & Hst1 & Hd1 & Hq1 & _).
  pose proof (doing_sized _ _ _ _ _ Hd1) as Hs1.
  destruct (finish_held ts st1 A1 rest1 _ (do_held _ _ _ _ _ Hd1) Hs1)
    as (fragments & h & v & d & Hfin & Hwf & Hl & Hv & Hdel).
  exists st1, (els1 ++ (keep <$> rest1)), fragments, v, d.
  split; [|split_and!; [apply Forall_app; split; [done|apply keep_quiet]| |]].
  - unfold finish_editing. rewrite Hst1. cbn [mbind option_bind].
    destruct (suffix (old_fragments st1)) as [[c u]|]; [|done]. cbn [mbind option_bind] in *.
    destruct (builder_append _ _) as [b|]; [|done]. cbn [mbind option_bind] in *.
    destruct (append _ _) as [t|]; [|done]. cbn [mbind option_bind] in *.
    destruct (builder_finish b) as [[v' d']|]; [|done]. cbn [mbind option_bind] in *. congruence.
  - rewrite (assoc_L (++)). destruct Hd1 as [Hh Ht Hall _ _ Hp _ _]. destruct Hh as [_ _ _ Hi Hsl Hsrc _]. split.
    + rewrite <- (app_nil_r rest1) in Ht. apply tracing_keep in Ht. by rewrite <- Hall in Ht.
    + rewrite src_bytes_app, Hsrc, src_bytes_keep, !tagged_app, consumed_0, app_nil_r. by rewrite <- tagged_app, <- Hall.
    + by exists h.
    + done.
    + done.
    + rewrite filter_app, filter_keep, app_nil_r; done.
    + rewrite filter_app, filter_keep, app_nil_r; done.
    + apply patch_ok_quiet; [done|apply keep_quiet].
  - rewrite (assoc_L (++)). apply Forall_app. split; [apply Hd1|apply keep_whole].
Qed.
End steps.
Arguments doing {D _} ts ps counts st A rest k tr.
Arguments jump {D _} at_ seek bias st range_start.
Arguments finished {D} ts ps tr st fragments v d.
Arguments whole : clear implicits.
Arguments aligned : clear implicits.
Arguments removed : clear implicits.
