(* ===== verification/BufferLocal.v ===== *)
(** * BufferLocal: a local edit does what it says

    The text of a buffer as some replica saw it is a list of bytes, each with a flag: is
    it visible there or deleted?  [splice] is what edits of that text should do to it, and
    [performs] says that the elements of a trace do the edits one after the other: by
    [performs_marks] the new fragments hold the spliced text.  [edited] is the
    same for a text without deleted bytes.

    [apply_local_edit] of [crates/text/src/text.rs]: its positions count the visible
    fragments.  Each round of its loop extends the trace as [performs] asks. *)

From S2P Require Import Prelude Clock Locator UndoMap OperationQueue Patch Subscription History Bits Utf8.
From S2P Require Import LineEnding PatchFacts TextSummary Chunk ChunkFacts Rope RopeFacts RopeEdit RopeSlice.
From S2P Require Import Keyed TreeMap SumTree SumTreeSpec SumTreeFind Cursor CursorSpec CursorFacts Fragment.
From S2P Require Import RopeBuilder Buffer BufferFacts BufferSteps.

(** ** Splicing *)

Abbreviation flagged := (list (bool * N)).
Abbreviation edits_of := (list (Range N * str)).

Definition delete_flag (x : bool * N) : bool * N := (false, x.2).

(** [l] begins at the position [o]. *)
Fixpoint splice (o : N) (l : flagged) (edits : edits_of) : flagged :=
  match edits with
  | [] => l
  | (range, text) :: edits =>
      ltake (Patch.start range - o) l ++ (pair true <$> text) ++
      (delete_flag <$> ltake (Patch.end_ range - Patch.start range) (ldrop (Patch.start range - o) l)) ++
      splice (Patch.end_ range) (ldrop (Patch.end_ range - o) l) edits
  end.

Fixpoint edited (o : N) (t : str) (edits : edits_of) : str :=
  match edits with
  | [] => t
  | (range, text) :: edits =>
      ltake (Patch.start range - o) t ++ text ++ edited (Patch.end_ range) (ldrop (Patch.end_ range - o) t) edits
  end.

(** The visible bytes. *)
Definition shown (l : flagged) : str := snd <$> filter (λ x, x.1 = true) l.

Lemma shown_app l1 l2 : shown (l1 ++ l2) = shown l1 ++ shown l2.
Proof. unfold shown. by rewrite filter_app, fmap_app. Qed.

Lemma shown_flag (b : bool) (t : str) : shown (pair b <$> t) = if b then t else [].
Proof.
  unfold shown. induction t as [|x t IH]; [by destruct b|].
  rewrite fmap_cons, filter_cons. destruct b; case_decide as H; try done. by rewrite fmap_cons, IH.
Qed.

Lemma shown_deleted l : shown (delete_flag <$> l) = [].
Proof. induction l as [|x l IH]; [done|]. exact IH. Qed.

Lemma splice_edited o t edits : shown (splice o (pair true <$> t) edits) = edited o t edits.
Proof.
  revert o t. induction edits as [|[range text] edits IH]; intros o t; cbn [splice edited]; [apply shown_flag|].
  by rewrite !shown_app, shown_deleted, ltake_fmap, ldrop_fmap, !shown_flag, IH.
Qed.

(** ** The text of a trace *)

Section performs.
Context (counts alive : Fragment → bool).

Definition seen (l : list (Fragment * N)) : flagged :=
  (λ x, (alive x.1, x.2)) <$> filter (λ x, counts x.1 = true) l.

Definition marks (els : list el) : flagged :=
  els ≫= λ e, match el_origin e with
    | Added => pair true <$> el_text e
    | Kept f | Recut f => if counts f then pair (alive f) <$> el_text e else []
    | Removed f => if counts f then pair false <$> el_text e else []
    end.

Definition counted_len (els : list el) : N := len (view counts (src_bytes els)).
Definition full_len (els : list el) : N := len (src_bytes els).

(** From the position [o], and [q] when all fragments count. *)
Inductive performs : N → N → edits_of → list (Range N) → list el → Prop :=
  | performs_nil o q : performs o q [] [] []
  | performs_cons o q range text edits fulls kept added gone els :
      Forall quiet kept → adds text added → Forall (erasing alive) gone →
      Patch.start range = o + counted_len kept → Patch.end_ range = Patch.start range + counted_len gone →
      performs (Patch.end_ range) (q + full_len kept + full_len gone) edits fulls els →
      performs o q ((range, text) :: edits)
        (mk_range (q + full_len kept) (q + full_len kept + full_len gone) :: fulls) (kept ++ added ++ gone ++ els).

Lemma seen_app l1 l2 : seen (l1 ++ l2) = seen l1 ++ seen l2.
Proof. unfold seen. by rewrite filter_app, fmap_app. Qed.

Lemma marks_app l1 l2 : marks (l1 ++ l2) = marks l1 ++ marks l2.
Proof. apply bind_app. Qed.

Lemma len_seen l : len (seen l) = len (view counts l).
Proof. unfold seen, view. by rewrite !len_fmap. Qed.

Lemma seen_tag f t : seen (tag f t) = if counts f then pair (alive f) <$> t else [].
Proof.
  unfold seen, tag. induction t as [|b t IH]; [by destruct (counts f)|].
  rewrite fmap_cons, filter_cons. cbn [fst]. destruct (counts f) eqn:Hc; case_decide as H; try done. by rewrite !fmap_cons, IH.
Qed.

Lemma marks_el e : marks [e] =
  match el_origin e with
  | Added => pair true <$> el_text e
  | Kept f | Recut f => if counts f then pair (alive f) <$> el_text e else []
  | Removed f => if counts f then pair false <$> el_text e else []
  end.
Proof. apply app_nil_r. Qed.

Lemma seen_el e : seen (src_bytes [e]) =
  match source e with Some f => if counts f then pair (alive f) <$> el_text e else [] | None => [] end.
Proof. unfold src_bytes. cbn [mbind list_bind]. rewrite app_nil_r. destruct (source e); [apply seen_tag|done]. Qed.

Lemma quiet_marks els : Forall quiet els → marks els = seen (src_bytes els).
Proof.
  induction 1 as [|e els He _ IH]; [done|]. change (e :: els) with ([e] ++ els).
  rewrite marks_app, src_bytes_app, seen_app, IH, marks_el, seen_el. f_equal. unfold source, quiet in *.
  by destruct (el_origin e).
Qed.

Lemma adds_marks text els : adds text els → marks els = pair true <$> text.
Proof.
  intros [Hf <-]. induction Hf as [|e els [He _] _ IH]; [done|]. cbn. rewrite He, fmap_app. by f_equal.
Qed.

Lemma erasing_marks els : Forall (erasing alive) els → marks els = delete_flag <$> seen (src_bytes els).
Proof.
  induction 1 as [|e els He _ IH]; [done|]. change (e :: els) with ([e] ++ els).
  rewrite marks_app, src_bytes_app, seen_app, fmap_app, IH, marks_el, seen_el. f_equal. unfold source, erasing in *.
  destruct (el_origin e) as [| |f|f]; try done; destruct (counts f); try done; rewrite <- list_fmap_compose; [|done].
  by destruct He as [-> _].
Qed.

Theorem performs_marks o q edits fulls els rest :
  performs o q edits fulls els → Forall quiet rest →
  marks (els ++ rest) = splice o (seen (src_bytes (els ++ rest))) edits.
Proof.
  intros Hp Hrest. induction Hp as [|o q range text edits fulls kept added gone els Hk Ha Hg Hs He Hp IH].
  { by apply quiet_marks. }
  cbn [splice]. rewrite <- !(assoc_L (++)). set (r := els ++ rest) in *. rewrite !marks_app, !src_bytes_app, !seen_app.
  destruct (adds_src _ _ Ha) as [-> _]. rewrite (adds_marks _ _ Ha), (quiet_marks _ Hk), (erasing_marks _ Hg).
  rewrite IH. change (seen []) with ([] : flagged). rewrite (app_nil_l (A:=bool * N)).
  unfold counted_len in *. rewrite <- !len_seen in *. set (a := seen (src_bytes kept)) in *. set (b := seen (src_bytes gone)) in *.
  replace (Patch.start range - o) with (len a) by lia. replace (Patch.end_ range - Patch.start range) with (len b) by lia.
  replace (Patch.end_ range - o) with (len (a ++ b)) by (rewrite len_app; lia).
  rewrite ltake_app_len, ldrop_app_len, ltake_app_len. by rewrite (assoc_L (++) a b), ldrop_app_len.
Qed.
End performs.

(** ** All fragments, and the visible ones *)

Definition everything (f : Fragment) : bool := true.

Lemma view_everything l : view everything l = snd <$> l.
Proof. unfold view. induction l as [|x l IH]; [done|]. rewrite filter_cons. case_decide; [|done]. cbn. by f_equal. Qed.

Lemma counted_everything els : counted_len everything els = full_len els.
Proof. unfold counted_len, full_len. by rewrite view_everything, len_fmap. Qed.

(** The ranges in the text with its deleted parts do the same there. *)
Lemma performs_full counts alive o q edits fulls els :
  performs counts alive o q edits fulls els → performs everything alive q q (zip fulls edits.*2) fulls els.
Proof.
  induction 1 as [|o q range text edits fulls kept added gone els Hk Ha Hg Hs He Hp IH]; [constructor|].
  cbn. constructor; cbn; rewrite ?counted_everything; done.
Qed.

(** An element whose fragment is visible when its origin says so. *)
Definition honest (e : el) : Prop :=
  match el_origin e with
  | Added => visible (el_fragment e) = true
  | Kept f | Recut f => visible (el_fragment e) = visible f
  | Removed f => visible (el_fragment e) = false
  end.

Lemma el_ok_honest ts els : Forall (el_ok ts) els → Forall honest els.
Proof.
  intros He. eapply Forall_impl; [done|]. intros e (_ & _ & Ho). unfold honest.
  destruct (el_origin e); [apply Ho|by rewrite Ho|apply Ho|apply Ho].
Qed.

Lemma marks_visible counts els : (∀ f, visible f = true → counts f = true) → Forall honest els →
  shown (marks counts visible els) = vis_text (el_piece <$> els).
Proof.
  intros Hc. induction 1 as [|e els He _ IH]; [done|]. change (e :: els) with ([e] ++ els).
  rewrite marks_app, shown_app, IH, fmap_app, vis_text_app, marks_el. f_equal. cbn. unfold vis_text; cbn.
  rewrite app_nil_r. unfold vis, honest in *; cbn. destruct (el_origin e) as [|f|f|f]; rewrite He.
  - by rewrite shown_flag.
  - destruct (counts f) eqn:Hf; [by rewrite shown_flag|]. destruct (visible f) eqn:Hv; [|done]. by rewrite Hc in Hf.
  - destruct (counts f) eqn:Hf; [by rewrite shown_flag|]. destruct (visible f) eqn:Hv; [|done]. by rewrite Hc in Hf.
  - destruct (counts f); [by rewrite shown_flag|done].
Qed.

Lemma seen_visible ps : seen visible visible (tagged ps) = pair true <$> vis_text ps.
Proof.
  induction ps as [|p ps IH]; [done|]. change (p :: ps) with ([p] ++ ps).
  rewrite tagged_app, seen_app, IH, vis_text_app, fmap_app, tagged_singleton, seen_tag. f_equal.
  unfold vis_text, vis. cbn. rewrite app_nil_r. by destruct (visible p.1).
Qed.

Lemma pos_text l : Forall sized l →
  pos (D:=FragmentTextSummary) dim_zero l.*1 = text_summary (len (vis_text l)) (len (del_text l)).
Proof.
  intros Hl. induction l as [|p l IH] using rev_ind; [done|].
  apply Forall_app in Hl as [Hl [Hp _]%Forall_cons].
  rewrite fmap_app. cbn [fmap list_fmap]. rewrite pos_snoc, (IH Hl), vis_text_app, del_text_app, !len_app.
  cbn [dim_add text_summary_dimension]. rewrite item_fs_text.
  unfold fragment_text, add_text, vis_text, del_text, vis, del. cbn. rewrite !app_nil_r.
  destruct Hp as (-> & _). destruct (visible p.1); cbn; rewrite ?N.add_0_r; done.
Qed.

Lemma len_tagged l : len (tagged l) = len (vis_text l) + len (del_text l).
Proof.
  induction l as [|p l IH]; [done|]. change (p :: l) with ([p] ++ l).
  rewrite tagged_app, vis_text_app, del_text_app, !len_app, IH, tagged_singleton, vis_text_singleton, del_text_singleton.
  unfold tag, vis, del. rewrite len_fmap. destruct (visible p.1); len.
Qed.

Lemma base_visible l : base visible l = len (vis_text l).
Proof. unfold base. by rewrite view_visible. Qed.

(** A target that is compared with a growing number. *)
Lemma cmp_ascending {D} `{!Dimension D FragmentSummary} (f : D → N) o (l : list Fragment) : 
  (∀ d x, f d ≤ f (dim_add d (item_summary x))) → ∀ d, ascending (λ d, cmp o (f d)) d l.
Proof.
  intros Hf. assert (∀ l d e, e ∈ ends d l → f d ≤ f e) as Hends.
  { clear l. intros l. induction l as [|x l IH]; intros d e; cbn; [by intros ?%elem_of_nil|].
    intros [->|He]%elem_of_cons; [apply Hf|]. etrans; [apply (Hf d x)|by apply IH]. }
  unfold ascending. induction l as [|x l IH]; intros d; cbn; [constructor|]. constructor; [apply IH|].
  apply Forall_forall. intros e He. specialize (Hends _ _ _ He). unfold rank.
  change (cmp o) with (N.compare o). destruct (N.compare_spec o (f e)), (N.compare_spec o (f (dim_add d (item_summary x)))); lia.
Qed.

Lemma sized_pos p : sized p → 0 < flen p.1.
Proof. intros (-> & ? & _). destruct p.2; [done|len]. Qed.

Lemma len_positive_text p : sized p → 0 < len p.2.
Proof. intros Hp. pose proof (sized_pos p Hp) as H. by destruct Hp as (<- & _). Qed.

(** The fragment of a byte. *)
Lemma tagged_at A p B l1 x l2 : tagged (A ++ p :: B) = l1 ++ x :: l2 →
  len (tagged A) ≤ len l1 < len (tagged A) + len p.2 → x.1 = p.1.
Proof.
  intros E Ho. change (p :: B) with ([p] ++ B) in E. rewrite !tagged_app, tagged_singleton in E.
  apply (f_equal (ldrop (len l1))) in E. rewrite ldrop_app_len, ldrop_app_r in E by lia.
  assert (len (tag p.1 p.2) = len p.2) as Htag by (unfold tag; apply len_fmap). rewrite ldrop_app_l in E by lia.
  destruct (ldrop (len l1 - len (tagged A)) (tag p.1 p.2)) as [|z t] eqn:Ez.
  - apply (f_equal len) in Ez. rewrite len_ldrop, len_nil in Ez. lia.
  - injection E as -> _. assert (x ∈ tag p.1 p.2) as Hx.
    { rewrite <- (ltake_ldrop (len l1 - len (tagged A)) (tag p.1 p.2)), Ez. apply elem_of_app. right. by left. }
    unfold tag in Hx. by apply list_elem_of_fmap in Hx as (c & -> & _).
Qed.

Section local.
Context (ts : Lamport.t) (ps : list piece) (Hps : Forall (piece_ok ts) ps) (Hsize : len (tagged ps) < 2 ^ 63).
Implicit Types (st : local_editing) (A B rest : list piece) (k n : N) (tr els : list el) (p : piece).
Abbreviation doing := (doing ts ps visible).
Abbreviation base := (base visible).

Lemma prefix_sized A rest : ps = A ++ rest → Forall sized A.
Proof. intros Hall. pose proof (pieces_sized _ _ Hps) as Hs. rewrite Hall in Hs. by apply Forall_app in Hs as [? _]. Qed.

Lemma local_at_spec A rest : ps = A ++ rest → local_at (pos dim_zero A.*1) = Some (base A).
Proof. intros Hall. rewrite pos_text by (by eapply prefix_sized). unfold local_at. cbn. by rewrite base_visible. Qed.

Lemma local_seek A rest o : ps = A ++ rest → seek_visible o (pos dim_zero A.*1) = cmp o (base A).
Proof. intros Hall. rewrite pos_text by (by eapply prefix_sized). unfold seek_visible. cbn. by rewrite base_visible. Qed.

Lemma local_coherent A rest o : ps = A ++ rest →
  coherent (seek_enter (seek_visible o) Right) (pos dim_zero A.*1) rest.*1.
Proof.
  intros Hall. apply seek_coherent; [done| |].
  - pose proof (pieces_sized _ _ Hps) as Hs. rewrite Hall in Hs. apply Forall_app in Hs as [_ Hs]. by apply sized_valid.
  - apply (cmp_ascending sum_visible). intros d x. cbn. lia.
Qed.

#[local] Instance local_positions : Positions ts ps visible local_at seek_visible Right.
Proof. split; [exact local_at_spec|exact local_seek|exact local_coherent|done|done]. Qed.

Lemma local_jump_eq : local_jump = jump local_at seek_visible Right.
Proof. done. Qed.

Lemma local_old_len st A rest k tr : doing st A rest k tr → old_len tr = base A + k.
Proof. intros Hd. by apply (doing_source _ _ _ _ _ Hd). Qed.

Lemma local_insert_nonempty st text : text ≠ [] →
  local_insert st text ts =
  (next_id ← next_fragment_id st;
   st' ← push_fragments_for_insertion st text ts next_id;
   Some (with_patch st' (patch_edit (fragment_start st') (fragment_start st') (new_visible_len st)
           (new_visible_len st + len text)))).
Proof. by destruct text. Qed.

Lemma local_insert_spec st A rest k tr text :
  doing st A rest k tr → fragment_start st = base A + k → utf8 text → next_offset st + len text < U32 →
  ∃ st' els, local_insert st text ts = Some st' ∧ doing st' A rest k (tr ++ els) ∧ adds text els ∧
    fragment_start st' = fragment_start st ∧ next_offset st' = next_offset st + len text.
Proof.
  intros Hd Hfs Hu Hn. destruct (decide (text = [])) as [->|Hne].
  { exists st, []. rewrite app_nil_r, len_nil, N.add_0_r. split_and!; [done|done|by split|done|done]. }
  destruct (insertion_spec st A rest k tr text Hd Hne Hu Hn) as (st' & els & Hst' & Hadds & Hfs' & Hn' & Hd').
  rewrite (local_insert_nonempty st text Hne), (next_fragment_id_spec _ _ _ _ _ Hd). cbn [mbind option_bind].
  rewrite Hst'. cbn [mbind option_bind].
  rewrite (new_visible_len_held _ _ _ _ _ _ (do_held _ _ _ _ _ Hd)).
  rewrite Hfs', Hfs, <- (local_old_len _ _ _ _ _ Hd).
  eexists (with_patch st' _), els. split; [reflexivity|]. split; [exact Hd'|]. split; [exact Hadds|].
  split; [|exact Hn']. cbn. by rewrite Hfs', Hfs, (local_old_len _ _ _ _ _ Hd).
Qed.

(** ** Places next to visible text

    No author points between two deleted bytes. *)
Definition lively (o : N) : Prop :=
  ∀ l1 x y l2, tagged ps = l1 ++ x :: y :: l2 → len l1 + 1 = o → visible x.1 = true ∨ visible y.1 = true.

Definition near A rest k : Prop :=
  0 < k ∨ A = [] ∨ rest = [] ∨ (∃ p, last A = Some p ∧ visible p.1 = true) ∨ (∃ p, head rest = Some p ∧ visible p.1 = true).

Lemma near_last A p rest : visible p.1 = true → near (A ++ [p]) rest 0.
Proof. intros Hp. do 3 right. left. exists p. by rewrite last_snoc. Qed.

Lemma near_lively st A rest k tr : doing st A rest k tr → near A rest k → lively (len (tagged A) + k).
Proof.
  intros Hd Hn l1 x y l2 E Ho. pose proof (do_all _ _ _ _ _ Hd) as Hall. rewrite Hall in E.
  pose proof (tr_k _ _ _ _ _ (do_traced _ _ _ _ _ Hd)) as Hk.
  assert (Forall sized (A ++ rest)) as Hsz by (rewrite <- Hall; eapply prefix_sized; by rewrite app_nil_r).
  destruct (N.eq_dec k 0) as [->|Hk0].
  2:{ destruct (do_counts _ _ _ _ _ Hd) as (p & B & -> & Hv); [lia|]. left.
      apply Forall_app in Hsz as [_ [(Hlen & _) _]%Forall_cons]. by rewrite (tagged_at A p B l1 x (y :: l2) E) by lia. }
  destruct Hn as [?|[->|[->|[(p & Hp & Hv)|(p & Hp & Hv)]]]]; [lia| | | |].
  - change (tagged []) with ([] : list (Fragment * N)) in Ho. rewrite (len_nil (A:=Fragment * N)) in Ho. lia.
  - rewrite app_nil_r in E. rewrite E, len_app, !len_cons in Ho. lia.
  - apply last_Some in Hp as [A' ->]. left. rewrite <- (assoc_L (++)) in E, Hsz. rewrite tagged_app, tagged_singleton, len_app in Ho.
    assert (len (tag p.1 p.2) = len p.2) as Htag by (unfold tag; apply len_fmap).
    apply Forall_app in Hsz as [_ [Hp _]%Forall_cons]. pose proof (len_positive_text p Hp) as Hpos.
    by rewrite (tagged_at A' p rest l1 x (y :: l2) E) by lia.
  - destruct rest as [|p' B]; [done|]. injection Hp as ->. right. apply Forall_app in Hsz as [_ [Hp _]%Forall_cons].
    pose proof (len_positive_text p Hp) as Hpos. change (x :: y :: l2) with ([x] ++ y :: l2) in E. rewrite (assoc_L (++)) in E.
    rewrite (tagged_at A p B (l1 ++ [x]) y l2 E); [done|]. rewrite len_app, len_cons, len_nil. lia.
Qed.

Lemma strictly_near o A rest : strictly (counts:=visible) (bias:=Right) o A rest → base A ≤ o → near A rest 0.
Proof.
  intros Hs Ho. specialize (Hs eq_refl). destruct rest as [|p B]; [by right; right; left|]. do 4 right. exists p. split; [done|].
  unfold width in Hs. destruct (visible p.1); [done|lia].
Qed.

(** One round of the loop that deletes. *)
Lemma local_delete_step_spec st A p B k tr o :
  doing st A (p :: B) k tr → fragment_start st = base A + k → base A + k < o → aligned ps visible o →
  ∃ st' A' rest' k' els, local_delete_step st o ts = Some st' ∧ doing st' A' rest' k' (tr ++ els) ∧
    fragment_start st' = base A' + k' ∧ Forall (erasing visible) els ∧ next_offset st' = next_offset st ∧
    base A' + k' ≤ o ∧ (base A' + k' = o ∨ rest' = B) ∧ (base A' + k' = o → near A' rest' k').
Proof.
  intros Hd Hfs Ho Hal. destruct (doing_piece _ _ _ _ _ _ Hd) as (Hs & Hkf & Hkw & Hb).
  unfold local_delete_step. rewrite (current_held _ _ _ _ _ _ _ (do_held _ _ _ _ _ Hd)).
  rewrite (doing_end _ _ _ _ _ Hd), (doing_start _ _ _ _ _ Hd).
  cbn [mbind option_bind]. rewrite Hfs.
  assert (base (A ++ [p]) = base A + width visible p.1) as Hbase by (by rewrite base_app, base_singleton).
  destruct (visible p.1) eqn:Hv.
  - assert (width visible p.1 = flen p.1) as Hw by (unfold width; by rewrite Hv). rewrite Hw in *.
    pose (n := N.min o (base A + flen p.1) - (base A + k)).
    rewrite !usub_small by lia. fold n. replace (base A + k - base A) with k by lia.
    assert (flen (cut p.1 n k) = n) as Hflen by (rewrite cut_small; [done|by apply Hs|lia]).
    change (id (cut p.1 n k)) with (id p.1). cbn [andb negb mark_deleted visible flen with_id]. rewrite Hflen.
    destruct (N.ltb_spec 0 n) as [Hn|Hn].
    + set (e := removed ts p k n (Locator.between (last_id st) (id p.1))).
      destruct (removal_spec st (with_slice (with_patch st (patch_edit (base A + k) (N.min o (base A + flen p.1))
        (new_visible_len st) (new_visible_len st))) (slice_from_fragment ts (el_fragment e))) A p B k n tr Hd)
        as (st' & Hst' & Hd' & Hfs' & Hn'); [by split|done|done|lia| | |].
      * eapply cut_boundary; [exact Hd|done|exact Hal|lia..].
      * rewrite Hv. cbn. rewrite (new_visible_len_held _ _ _ _ _ _ (do_held _ _ _ _ _ Hd)), (local_old_len _ _ _ _ _ Hd).
        do 3 f_equal. lia.
      * rewrite Hv in Hst'. fold e in Hst'. cbn [el_fragment e removed] in Hst'. rewrite Hst'. cbn [mbind option_bind].
        destruct (round_end (with_start st' (N.min o (base A + flen p.1))) A p B (k + n) (tr ++ [e]) o)
          as (st'' & A' & rest' & k' & -> & Hd'' & Hfs'' & Hn'' & Hle & Hor & Hk');
          [by apply doing_with_start|done|done|lia|].
        exists st'', A', rest', k', [e]. split_and!; try done; [by repeat constructor|by rewrite Hn''|]. intros _.
        destruct Hk' as [[-> ->]|(-> & _)]; [by apply near_last|left; lia].
    + cbn [mbind option_bind]. destruct (round_end st A p B k tr o) as (st'' & A' & rest' & k' & -> & Hd'' & Hfs'' & Hn'' & Hle & Hor & Hk');
        [done|done|lia|lia|].
      exists st'', A', rest', k', []. rewrite app_nil_r. split_and!; try done. intros _.
      destruct Hk' as [[-> ->]|(-> & _ & ?)]; [by apply near_last|lia].
  - assert (k = 0) as -> by (unfold width in Hkw; rewrite Hv in Hkw; lia).
    assert (width visible p.1 = 0) as Hw by (unfold width; by rewrite Hv). rewrite Hw in *.
    destruct (passing_spec _ _ _ _ _ Hd) as (st' & Hst' & Hfs' & Hadv). rewrite Hv in Hst'.
    assert (0 < flen p.1) as Hpos by (by apply sized_pos). rewrite (proj2 (N.ltb_lt _ _) Hpos). cbn [andb].
    rewrite Hst'. cbn [mbind option_bind]. rewrite (proj2 (N.leb_le _ _)) by lia.
    destruct (Hadv (N.min o (base A + 0))) as (st'' & -> & Hd'' & Hfs'' & Hn'').
    exists st'', (A ++ [p]), B, 0, [passed p]. split_and!; [done|done|lia| |done|lia|by right|lia].
    repeat constructor. done.
Qed.

(** The whole loop. *)
Lemma local_delete_spec fuel o : ∀ st A rest k tr,
  doing st A rest k tr → (length rest < fuel)%nat → fragment_start st = base A + k → base A + k ≤ o ≤ base ps →
  aligned ps visible o → (base A + k = o → near A rest k) →
  ∃ st' A' rest' k' els, local_delete fuel st o ts = Some st' ∧ doing st' A' rest' k' (tr ++ els) ∧
    fragment_start st' = o ∧ base A' + k' = o ∧ Forall (erasing visible) els ∧ next_offset st' = next_offset st ∧
    near A' rest' k'.
Proof.
  induction fuel as [|fuel IH]; intros st A rest k tr Hd Hfuel Hfs Ho Hal Hnear; [lia|].
  cbn [local_delete]. rewrite Hfs. destruct (N.ltb_spec (base A + k) o) as [Hlt|Hge].
  2:{ exists st, A, rest, k, []. rewrite app_nil_r. assert (base A + k = o) by lia. split_and!; try done; [lia|by apply Hnear]. }
  destruct rest as [|p B].
  { exfalso. pose proof (tr_k _ _ _ _ _ (do_traced _ _ _ _ _ Hd)) as Hk. cbn in Hk.
    rewrite (do_all _ _ _ _ _ Hd), app_nil_r in Ho. lia. }
  destruct (local_delete_step_spec st A p B k tr o Hd Hfs Hlt Hal)
    as (st1 & A1 & rest1 & k1 & els1 & -> & Hd1 & Hfs1 & He1 & Hn1 & Hle & Hor & Hnear1).
  cbn [mbind option_bind length] in *.
  destruct (decide (base A1 + k1 = o)) as [E|E].
  { exists st1, A1, rest1, k1, els1. split_and!; try done; [|lia|by apply Hnear1].
    destruct fuel; cbn [local_delete]; rewrite Hfs1, (proj2 (N.ltb_ge _ _)) by lia; done. }
  destruct Hor as [?| ->]; [done|].
  destruct (IH st1 A1 B k1 (tr ++ els1)) as (st2 & A2 & rest2 & k2 & els2 & -> & Hd2 & Hfs2 & Hb2 & He2 & Hn2 & Hnear2); try done; [lia..|].
  exists st2, A2, rest2, k2, (els1 ++ els2). rewrite (assoc_L (++)). split_and!; try done; [by apply Forall_app|].
  by rewrite Hn2.
Qed.

Lemma full_position_spec st A rest k tr o : doing st A rest k tr → base A ≤ o →
  full_position st o = len (tagged A) + (o - base A).
Proof.
  intros Hd Ho. unfold full_position, Cursor.start.
  rewrite (at_position _ _ _ (held_cursor _ _ _ _ _ _ (do_held _ _ _ _ _ Hd))).
  rewrite pos_text by (eapply prefix_sized, Hd). cbn [sum_deleted]. rewrite len_tagged, <- base_visible. lia.
Qed.

(** One round of the loop over the edits. *)
Lemma local_edit_step_spec st A rest k tr range text :
  doing st A rest k tr → fragment_start st = base A + k →
  base A + k ≤ Patch.start range ≤ Patch.end_ range → Patch.end_ range ≤ base ps →
  aligned ps visible (Patch.start range) → aligned ps visible (Patch.end_ range) →
  utf8 text → next_offset st + len text < U32 → near A rest k →
  ∃ st' A' rest' k' kept added gone, let els := kept ++ added ++ gone in let q := full_len tr in
    local_edit_step st range text ts =
      Some (st', mk_range (q + full_len kept) (q + full_len kept + full_len gone)) ∧
    doing st' A' rest' k' (tr ++ els) ∧ fragment_start st' = Patch.end_ range ∧ base A' + k' = Patch.end_ range ∧
    next_offset st' = next_offset st + len text ∧
    Forall quiet kept ∧ adds text added ∧ Forall (erasing visible) gone ∧
    Patch.start range = base A + k + counted_len visible kept ∧
    Patch.end_ range = Patch.start range + counted_len visible gone ∧
    lively (q + full_len kept) ∧ lively (q + full_len kept + full_len gone) ∧ near A' rest' k'.
Proof.
  intros Hd Hfs Ho Hend Hal1 Hal2 Hu Hn Hnear. unfold local_edit_step. rewrite local_jump_eq.
  destruct (jump_spec st A rest k tr (Patch.start range) Hd Hfs)
    as (st1 & A1 & rest1 & k1 & els1 & -> & Hd1 & Hfs1 & Hb1 & Hq1 & Hn1 & _ & Hjump); [lia|].
  cbn [mbind option_bind]. rewrite (full_position_spec _ _ _ _ _ _ Hd1) by lia.
  destruct (push_prefix_spec st1 A1 rest1 k1 _ (Patch.start range) Hd1 Hfs1 Hb1 Hal1) as (st2 & els2 & -> & Hd2 & Hfs2 & Hq2 & Hn2).
  cbn [mbind option_bind].
  assert (near A1 rest1 (Patch.start range - base A1)) as Hnear2.
  { destruct (N.eq_dec (Patch.start range) (base A1)) as [E|E]; [|left; lia]. rewrite E, N.sub_diag.
    destruct Hjump as [[-> Hj]|(-> & -> & ->)]; [eapply strictly_near; [exact Hj|lia]|]. by replace k with 0 in Hnear by lia. }
  pose proof (near_lively _ _ _ _ _ Hd2 Hnear2) as Hlive2.
  destruct (local_insert_spec st2 _ _ _ _ text Hd2) as (st3 & added & -> & Hd3 & Hadd & Hfs3 & Hn3); [lia|done|lia|].
  cbn [mbind option_bind].
  destruct (local_delete_spec (cost (cursor_tree (old_fragments st3))) (Patch.end_ range) st3 _ _ _ _ Hd3)
    as (st4 & A4 & rest4 & k4 & gone & -> & Hd4 & Hfs4 & Hb4 & Hg & Hn4 & Hnear4); [eapply cost_spec; apply Hd3|lia|lia|done|by intros _|].
  pose proof (near_lively _ _ _ _ _ Hd4 Hnear4) as Hlive4.
  cbn [mbind option_bind]. rewrite (full_position_spec _ _ _ _ _ _ Hd4) by lia.
  destruct (doing_source _ _ _ _ _ Hd) as [Hc0 Hf0]. destruct (doing_source _ _ _ _ _ Hd2) as [Hc2 Hf2].
  destruct (doing_source _ _ _ _ _ Hd4) as [Hc4 Hf4]. destruct (adds_src _ _ Hadd) as [Hadd0 _].
  rewrite !src_bytes_app, !view_app, !len_app in Hc2. rewrite !src_bytes_app, !len_app in Hf2.
  rewrite !src_bytes_app, Hadd0, app_nil_r, !view_app, !len_app in Hc4.
  rewrite !src_bytes_app, Hadd0, app_nil_r, !len_app in Hf4.
  exists st4, A4, rest4, k4, (els1 ++ els2), added, gone. cbn zeta. unfold full_len, counted_len.
  rewrite !src_bytes_app, ?view_app, !len_app.
  split_and!; try done; try lia.
  - do 2 f_equal. f_equal; lia.
  - by rewrite !(assoc_L (++)) .
  - by apply Forall_app.
  - match type of Hlive2 with lively ?o => match goal with |- lively ?q => replace q with o by lia end end. exact Hlive2.
  - match type of Hlive4 with lively ?o => match goal with |- lively ?q => replace q with o by lia end end. exact Hlive4.
Qed.

(** Edits of the text [ps] that come one after the other, from the position [o]. *)
Fixpoint edits_ok (o : N) (edits : edits_of) : Prop :=
  match edits with
  | [] => True
  | (range, text) :: edits =>
      o ≤ Patch.start range ≤ Patch.end_ range ∧ Patch.end_ range ≤ base ps ∧
      aligned ps visible (Patch.start range) ∧ aligned ps visible (Patch.end_ range) ∧ utf8 text ∧
      edits_ok (Patch.end_ range) edits
  end.

Lemma local_edits_spec edits : ∀ st A rest k tr o,
  doing st A rest k tr → fragment_start st = o → base A + k = o → edits_ok o edits →
  next_offset st + len (concat edits.*2) < U32 → near A rest k →
  ∃ st' A' rest' k' els fulls, local_edits st edits ts = Some (st', fulls) ∧
    doing st' A' rest' k' (tr ++ els) ∧ fragment_start st' = base A' + k' ∧
    performs visible visible o (full_len tr) edits fulls els ∧
    Forall (λ r, lively (Patch.start r) ∧ lively (Patch.end_ r)) fulls.
Proof.
  induction edits as [|[range text] edits IH]; intros st A rest k tr o Hd Hfs Hb Hok Hn Hnear.
  { exists st, A, rest, k, [], []. rewrite app_nil_r. split_and!; [done|done|lia|constructor|constructor]. }
  destruct Hok as (Ho & Hend & Hal1 & Hal2 & Hu & Hok). cbn [fmap list_fmap concat snd] in Hn. rewrite len_app in Hn.
  destruct (local_edit_step_spec st A rest k tr range text Hd)
    as (st1 & A1 & rest1 & k1 & kept & added & gone & Hst1 & Hd1 & Hfs1 & Hb1 & Hn1 & Hk & Ha & Hg & Hs & He & Hl1 & Hl2 & Hnear1);
    [by rewrite Hb|by rewrite Hb|done|done|done|done|lia|done|].
  cbn [local_edits]. cbn zeta in Hst1. rewrite Hst1. cbn [mbind option_bind].
  destruct (IH st1 A1 rest1 k1 _ _ Hd1 Hfs1 Hb1 Hok) as (st2 & A2 & rest2 & k2 & els & fulls & -> & Hd2 & Hfs2 & Hp & Hlive); [cbn in *; lia|done|].
  cbn [mbind option_bind]. eexists st2, A2, rest2, k2, (kept ++ added ++ gone ++ els), _. split; [done|].
  split; [by rewrite <- !(assoc_L (++)) in Hd2|]. split; [done|]. split; [|by constructor].
  rewrite <- Hb. constructor; [done..|].
  replace (full_len tr + full_len kept + full_len gone) with (full_len (tr ++ kept ++ added ++ gone)); [done|].
  unfold full_len. destruct (adds_src _ _ Ha) as [Ha0 _]. rewrite !src_bytes_app, Ha0, !len_app, len_nil. lia.
Qed.
End local.
