(* ===== verification/BufferSeen.v ===== *)
(** * BufferSeen: the bytes of an insertion, and the text as a version has seen it

    The offsets of the fragments of one insertion, in their order, start at zero and leave no
    gaps: a fragment's offset is the length of the insertion's fragments before it.  So the
    byte at an offset of an insertion is found by counting, in whatever way the insertion is cut ([tiled]).

    The positions of a remote edit count the fragments that its version has observed, with the
    dimension [VersionedFullOffset] of [crates/text/src/text.rs].  It is not additive: a node
    that mixes what was observed with what was not is [Invalid].  [remote_positions] says that
    seeks work all the same. *)

From Stdlib Require Import Sorted.
From S2P Require Import Prelude Clock Locator UndoMap OperationQueue Patch Subscription History Bits Utf8.
From S2P Require Import LineEnding PatchFacts TextSummary Chunk ChunkFacts Rope RopeFacts RopeEdit RopeSlice.
From S2P Require Import Keyed TreeMap SumTree SumTreeSpec SumTreeFind Cursor CursorSpec CursorFacts Fragment.
From S2P Require Import RopeBuilder Buffer BufferFacts BufferSteps BufferLocal.
#[local] Open Scope N_scope.

(** The length of the fragments of the insertion [t]. *)
Fixpoint span (t : Lamport.t) (fs : list Fragment) : N :=
  match fs with
  | [] => 0
  | f :: fs => (if bool_decide (timestamp f = t) then flen f else 0) + span t fs
  end.

Definition tiled (fs : list Fragment) : Prop :=
  ∀ A f B, fs = A ++ f :: B → insertion_offset f = span (timestamp f) A.

Lemma span_app t A B : span t (A ++ B) = span t A + span t B.
Proof. induction A as [|f A IH]; [done|]. cbn [app span]. rewrite IH. lia. Qed.

Lemma span_cons t f B : span t (f :: B) = (if bool_decide (timestamp f = t) then flen f else 0) + span t B.
Proof. done. Qed.

Lemma tiled_nil : tiled [].
Proof. by intros [] ? ?. Qed.

Lemma tiled_bound fs f : tiled fs → f ∈ fs → insertion_offset f + flen f ≤ span (timestamp f) fs.
Proof.
  intros Ht (A & B & ->)%list_elem_of_split. rewrite (Ht A f B eq_refl), span_app, span_cons, bool_decide_true by done. lia.
Qed.

(** Only these three fields matter. *)
Lemma tiled_ext fs gs : (λ f, (timestamp f, insertion_offset f, flen f)) <$> gs = (λ f, (timestamp f, insertion_offset f, flen f)) <$> fs →
  tiled fs → tiled gs.
Proof.
  intros He Hf A g B ->. rewrite fmap_app, fmap_cons in He. symmetry in He. apply fmap_app_inv in He as (A' & r & HA & Hr & ->).
  symmetry in Hr. apply fmap_cons_inv in Hr as (f & B' & Hfg & _ & ->). injection Hfg as E1 E2 E3.
  rewrite E2, (Hf A' f B' eq_refl), E1. clear -HA. revert A HA. induction A' as [|a A' IH]; intros [|b A] HA; try done.
  injection HA as E1 E2 E3 HA. cbn. by rewrite E1, E3, (IH A).
Qed.

(** ** Intervals that fill a space *)

Section intervals.
Context (t : Lamport.t) (T : N).
Implicit Types (g : Fragment) (A B : list Fragment).

Lemma span_before A g : StronglySorted follows (A ++ [g]) → timestamp g = t → span t A ≤ insertion_offset g.
Proof.
  revert g. induction A as [|x A IH] using rev_ind; intros g Hs Hg; [cbn; lia|]. rewrite span_app, span_cons. cbn [span].
  case_bool_decide as Hx.
  - rewrite <- (assoc_L (++)) in Hs. cbn in Hs.
    assert (follows x g) as Hf by (apply (StronglySorted_after _ _ _ _ g Hs), list_elem_of_singleton; done).
    specialize (Hf (eq_trans Hx (eq_sym Hg))). specialize (IH x).
    assert (StronglySorted follows (A ++ [x])) as Hs' by (replace (A ++ [x; g]) with ((A ++ [x]) ++ [g]) in Hs by (by rewrite <- (assoc_L (++)));
      by apply StronglySorted_app in Hs as (_ & ? & _)).
    specialize (IH Hs' Hx). lia.
  - rewrite <- (assoc_L (++)) in Hs. apply StronglySorted_remove in Hs. specialize (IH g Hs Hg). lia.
Qed.

Lemma span_after B : ∀ g, StronglySorted follows (g :: B) → timestamp g = t →
  Forall (λ f, timestamp f = t → insertion_offset f + flen f ≤ T) (g :: B) → insertion_offset g + flen g + span t B ≤ T.
Proof.
  induction B as [|x B IH]; intros g Hs Hg Hb; cbn [span].
  - apply Forall_cons in Hb as [Hb _]. specialize (Hb Hg). lia.
  - apply Forall_cons in Hb as [Hbg Hb]. case_bool_decide as Hx.
    + assert (follows g x) as Hf by (apply (StronglySorted_after follows [] g (x :: B) x Hs), elem_of_cons; by left).
      specialize (Hf (eq_trans Hg (eq_sym Hx))). apply StronglySorted_inv in Hs as [Hs _]. specialize (IH x Hs Hx Hb). lia.
    + apply (StronglySorted_remove follows [g]) in Hs. apply Forall_cons in Hb as [_ Hb].
      specialize (IH g Hs Hg (proj2 (Forall_cons _ _ _) (conj Hbg Hb))). lia.
Qed.

(** Intervals in order, as long together as the space, leave no gaps. *)
Lemma span_fills A g B : StronglySorted follows (A ++ g :: B) → timestamp g = t →
  Forall (λ f, timestamp f = t → insertion_offset f + flen f ≤ T) (A ++ g :: B) → span t (A ++ g :: B) = T →
  insertion_offset g = span t A.
Proof.
  intros Hs Hg Hb Hspan. pose proof (span_before A g) as H1. pose proof (span_after B g) as H2.
  rewrite span_app, span_cons, bool_decide_true in Hspan by done.
  assert (StronglySorted follows (A ++ [g])) as Hs1.
  { replace (A ++ g :: B) with ((A ++ [g]) ++ B) in Hs by (by rewrite <- (assoc_L (++))). by apply StronglySorted_app in Hs as (_ & ? & _). }
  assert (StronglySorted follows (g :: B)) as Hs2 by (by apply StronglySorted_app in Hs as (_ & _ & ?)).
  apply Forall_app in Hb as [_ Hb]. specialize (H1 Hs1 Hg). specialize (H2 Hs2 Hg Hb). lia.
Qed.
End intervals.

(** ** After an edit *)

Definition inserted_in (t : Lamport.t) (f : Fragment) : bool := bool_decide (timestamp f = t).

Lemma span_tagged t (ps : list piece) : Forall (λ p, flen p.1 = len p.2) ps → span t ps.*1 = len (view (inserted_in t) (tagged ps)).
Proof.
  induction 1 as [|p ps Hp _ IH]; [done|]. change (p :: ps) with ([p] ++ ps). rewrite fmap_app, span_app, tagged_app, view_app, len_app, IH.
  rewrite tagged_singleton, view_tag. unfold inserted_in. cbn [fmap list_fmap span]. destruct (bool_decide _); [lia|done].
Qed.

Section trace.
Context (ts : Lamport.t).

Lemma span_src t tr : t ≠ ts → Forall (el_ok ts) tr → span t (el_fragment <$> tr) = len (view (inserted_in t) (src_bytes tr)).
Proof.
  intros Ht. induction 1 as [|e tr He _ IH]; [done|]. change (e :: tr) with ([e] ++ tr).
  rewrite fmap_app, span_app, src_bytes_app, view_app, len_app, IH. f_equal. cbn [fmap list_fmap span]. rewrite N.add_0_r.
  unfold src_bytes. cbn [mbind list_bind]. rewrite app_nil_r. destruct He as ((Hlen & _) & _ & Ho). cbn in Hlen.
  unfold source. destruct (el_origin e) as [|f|f|f].
  - destruct Ho as (-> & _). by rewrite bool_decide_false.
  - rewrite view_tag. unfold inserted_in. rewrite <- Ho. by destruct (bool_decide _).
  - destruct Ho as ((Hf & _) & _). rewrite view_tag. unfold inserted_in. rewrite <- Hf. by destruct (bool_decide _).
  - destruct Ho as ((Hf & _) & _). rewrite view_tag. unfold inserted_in. rewrite <- Hf. by destruct (bool_decide _).
Qed.

(** The new text of the edit. *)
Lemma births_span n tr m : births n tr m → Forall (λ e, timestamp (el_fragment e) = ts ↔ el_origin e = Added) tr →
  m = n + span ts (el_fragment <$> tr).
Proof.
  intros H Hf. revert n H. induction Hf as [|e tr He _ IH]; intros n; cbn [births fmap list_fmap span]; [lia|].
  destruct (el_origin e) eqn:Ho.
  1:{ intros (_ & ->%IH). rewrite bool_decide_true by (by apply He). lia. }
  all: intros ->%IH; rewrite bool_decide_false by (intros E; by apply He in E); lia.
Qed.

Lemma traced_tiled (ps : list piece) tr : tracing ts ps [] 0 tr → src_bytes tr = tagged ps → tiled ps.*1 →
  Forall (λ p, flen p.1 = len p.2) ps → (∀ f, f ∈ ps.*1 → timestamp f ≠ ts) → tiled (el_fragment <$> tr).
Proof.
  intros [_ Hok _ Hsrc _ Horder _ [m Hm]] Hbytes Ht Hlen Hfresh. cbn in Horder. rewrite app_nil_r in Horder.
  assert (∀ e f, e ∈ tr → source e = Some f → f ∈ ps.*1 ∧ part_of f (el_fragment e)) as Hpart.
  { intros e f He Hf. rewrite Forall_forall in Hsrc, Hok. specialize (Hsrc e He). specialize (Hok e He). cbn in Hsrc. rewrite Hf in Hsrc.
    split; [destruct Hsrc as [?|(p & B & ? & _)]; done|]. destruct Hok as (_ & _ & Ho). unfold source in Hf.
    destruct (el_origin e); [done|..]; injection Hf as <-; [subst; split_and!; done|apply Ho..]. }
  assert (Forall (λ e, timestamp (el_fragment e) = ts ↔ el_origin e = Added) tr) as Hborn.
  { apply Forall_forall. intros e He. rewrite Forall_forall in Hok. destruct (Hok e He) as (_ & _ & Ho).
    specialize (Hpart e). unfold source in Hpart. destruct (el_origin e) as [|f|f|f]; [by destruct Ho|..];
      (destruct (Hpart f He eq_refl) as [Hf (Hts & _)]; rewrite Hts; split; [intros E; by destruct (Hfresh f Hf)|done]). }
  intros A g B E. pose proof E as E'. apply fmap_app_inv in E' as (trA & trB & HA & HB & Htr). symmetry in HB.
  apply fmap_cons_inv in HB as (e & trB' & -> & -> & ->). subst A tr.
  destruct (decide (timestamp (el_fragment e) = ts)) as [Hts|Hts].
  - apply births_app in Hm as (k & Hk & He). cbn [births] in He. pose proof Hborn as [HbA [Hbe _]%Forall_cons]%Forall_app.
    rewrite (proj1 Hbe Hts) in He. destruct He as [-> _]. rewrite Hts. by rewrite (births_span 0 trA k Hk HbA).
  - apply (span_fills _ (span (timestamp (el_fragment e)) ps.*1) _ _ (el_fragment <$> trB')); [by rewrite <- E|done| |].
    + rewrite <- E. apply Forall_fmap, Forall_forall. intros x Hx Hxt. cbn.
      assert (∃ f, source x = Some f) as [f Hf].
      { rewrite Forall_forall in Hborn. specialize (Hborn x Hx). unfold source. destruct (el_origin x); [|by eexists..].
        destruct Hts. rewrite <- Hxt. by apply Hborn. }
      destruct (Hpart x f Hx Hf) as [Hfp (Hft & _ & _ & Hle)]. pose proof (tiled_bound _ _ Ht Hfp) as Hb. rewrite <- Hft, Hxt in Hb. lia.
    + rewrite <- E. rewrite span_src by done. by rewrite Hbytes, span_tagged.
Qed.
End trace.

(** ** What a version has observed *)

Definition counted (v : Global.t) (f : Fragment) : bool := Global.observed v (timestamp f).

(** Timestamps start at one. *)
Definition stamped (f : Fragment) : Prop := 0 < Lamport.value (timestamp f) ∧ Global.canonical (max_undos f).

(** The sum of a measure over fragments. *)
Fixpoint total (g : Fragment → N) (l : list Fragment) : N :=
  match l with [] => 0 | f :: l => g f + total g l end.

Lemma total_app g l1 l2 : total g (l1 ++ l2) = total g l1 + total g l2.
Proof. induction l1 as [|f l1 IH]; cbn; [done|]. rewrite IH. lia. Qed.

Lemma total_le g h l : (∀ f, g f ≤ h f) → total g l ≤ total h l.
Proof. intros Hle. induction l as [|f l IH]; cbn; [done|]. specialize (Hle f). lia. Qed.

Section observed.
Context (v : Global.t).
Implicit Types (f : Fragment) (l : list Fragment).

Lemma stamped_valid l : Forall stamped l → valid_items l.
Proof. intros Hl. eapply Forall_impl; [exact Hl|]. intros f [_ Hf]. by apply fragment_valid. Qed.

Lemma item_insertion_version f :
  max_insertion_version (item_summary f) = Global.observe Global.new (timestamp f) ∧
  min_insertion_version (item_summary f) = Global.observe Global.new (timestamp f).
Proof. unfold item_summary, fragment_item. by destruct (visible f). Qed.

Lemma get_timestamp ts r : Global.get (Global.observe Global.new ts) r =
  if decide (r = Lamport.replica_id ts) then Lamport.value ts else 0.
Proof. rewrite Global.get_observe, Global.get_new. by rewrite N.max_0_l. Qed.

Lemma sum_snoc l f : sum_items (l ++ [f]) = add_summary (sum_items l) (item_summary f).
Proof. unfold sum_items, sum. by rewrite fmap_app, foldl_app. Qed.

Lemma sum_observed_all l : Forall stamped l →
  Global.observed_all v (max_insertion_version (sum_items l)) = forallb (counted v) l.
Proof.
  intros Hl. apply Bool.eq_iff_eq_true.
  rewrite Global.observed_all_iff by apply (sum_items_valid l (stamped_valid l Hl)).
  induction l as [|f l IH] using rev_ind.
  { split; [done|]. intros _ r. cbn. rewrite Global.get_new. lia. }
  apply Forall_app in Hl as [Hl [Hf _]%Forall_cons]. rewrite sum_snoc. cbn [max_insertion_version add_summary fragment_summary_summary].
  rewrite (proj1 (item_insertion_version f)), List.forallb_app, andb_true_iff, <- (IH Hl). cbn. rewrite andb_true_r.
  unfold counted. rewrite Global.observed_iff. split.
  - intros H. split.
    + intros r. specialize (H r). rewrite Global.get_join in H. lia.
    + specialize (H (Lamport.replica_id (timestamp f))). rewrite Global.get_join, get_timestamp, decide_True in H by done. lia.
  - intros [H1 H2] r. specialize (H1 r). rewrite Global.get_join, get_timestamp. destruct (decide _) as [->|]; lia.
Qed.

Lemma meet_entry_between a b n : 0 < Global.meet_entry a b ≤ n ↔ 0 < a ≤ n ∨ 0 < b ≤ n.
Proof. unfold Global.meet_entry. destruct (N.eqb_spec a 0), (N.eqb_spec b 0); lia. Qed.

Lemma sum_observed_any l : Forall stamped l →
  Global.observed_any v (min_insertion_version (sum_items l)) = existsb (counted v) l.
Proof.
  intros Hl. apply Bool.eq_iff_eq_true. rewrite Global.observed_any_iff. induction l as [|f l IH] using rev_ind.
  { split; [|done]. intros [r Hr]. cbn in Hr. rewrite Global.get_new in Hr. lia. }
  apply Forall_app in Hl as [Hl [[Hf _] _]%Forall_cons]. rewrite sum_snoc. cbn [min_insertion_version add_summary fragment_summary_summary].
  rewrite (proj2 (item_insertion_version f)), List.existsb_app, orb_true_iff, <- (IH Hl). cbn. rewrite orb_false_r.
  unfold counted. rewrite Global.observed_iff. setoid_rewrite Global.get_meet. setoid_rewrite meet_entry_between.
  setoid_rewrite get_timestamp. split.
  - intros [r [Hr|Hr]]; [left; by exists r|right]. destruct (decide _) as [->|]; lia.
  - intros [[r Hr]|Hr]; [exists r; by left|]. exists (Lamport.replica_id (timestamp f)). right. rewrite decide_True by done. lia.
Qed.

(** ** Positions *)

#[local] Instance versioned : Dimension VersionedFullOffset FragmentSummary := versioned_dimension v.

Lemma sum_text_len l :
  sum_visible (fs_text (sum_items l)) + sum_deleted (fs_text (sum_items l)) = total flen l.
Proof.
  induction l as [|f l IH] using rev_ind; [done|].
  rewrite sum_snoc, total_app. cbn [fs_text add_summary fragment_summary_summary add_text sum_visible sum_deleted].
  rewrite item_fs_text. cbn. unfold fragment_text. destruct (visible f); cbn; lia.
Qed.

(** What a whole node adds to an offset. *)
Lemma versioned_add o l : Forall stamped l →
  dim_add (Offset o) (sum_items l) =
  if forallb (counted v) l then Offset (o + total flen l)
  else if existsb (counted v) l then Invalid else Offset o.
Proof. intros Hl. cbn [dim_add versioned versioned_dimension]. by rewrite sum_observed_all, sum_observed_any, sum_text_len. Qed.

Lemma all_counted l : forallb (counted v) l = true → total (width (counted v)) l = total flen l.
Proof.
  induction l as [|f l IH]; [done|]. cbn. rewrite andb_true_iff. intros [Hf Hl]. rewrite (IH Hl). unfold width. by rewrite Hf.
Qed.

Lemma none_counted l : existsb (counted v) l = false → total (width (counted v)) l = 0.
Proof.
  induction l as [|f l IH]; [done|]. cbn. rewrite orb_false_iff. intros [Hf Hl]. rewrite (IH Hl). unfold width. by rewrite Hf.
Qed.

Lemma versioned_item o f : stamped f →
  dim_add (Offset o) (item_summary f) = Offset (o + width (counted v) f).
Proof.
  intros Hf. pose proof (versioned_add o [f]) as E. rewrite (sum_items_singleton f) in E by by apply fragment_valid, Hf.
  rewrite E by by constructor. cbn. unfold width. destruct (counted v f); cbn; f_equal; lia.
Qed.

Lemma versioned_pos l : Forall stamped l → ∀ o,
  pos (D:=VersionedFullOffset) (Offset o) l = Offset (o + total (width (counted v)) l).
Proof.
  induction 1 as [|f l Hf _ IH]; intros o; cbn [pos foldl].
  - by rewrite N.add_0_r.
  - rewrite versioned_item by done. fold (pos (D:=VersionedFullOffset) (Offset (o + width (counted v) f)) l).
    rewrite IH. cbn. f_equal. lia.
Qed.
End observed.

(** ** The dimension of a remote edit *)

Definition shown_len (f : Fragment) : N := if visible f then flen f else 0.

Section remote.
Context (v : Global.t).
Implicit Types (l : list Fragment) (o n : N).
#[local] Instance remote_dim : Dimension (VersionedFullOffset * N) FragmentSummary := remote_dimension v.

Lemma sum_shown l : sum_visible (fs_text (sum_items l)) = total shown_len l.
Proof.
  induction l as [|f l IH] using rev_ind; [done|]. rewrite sum_snoc, total_app.
  cbn [fs_text add_summary fragment_summary_summary add_text sum_visible].
  rewrite IH, item_fs_text. cbn. unfold shown_len, fragment_text. destruct (visible f); cbn; lia.
Qed.

Lemma remote_dim_add o n s : dim_add (Offset o, n) s = (dim_add (Dimension:=versioned v) (Offset o) s, n + sum_visible (fs_text s)).
Proof. done. Qed.

Lemma remote_item o n f : stamped f →
  dim_add (Offset o, n) (item_summary f) = (Offset (o + width (counted v) f), n + shown_len f).
Proof.
  intros Hf. rewrite remote_dim_add, (versioned_item v o f Hf), item_fs_text. unfold fragment_text, shown_len.
  by destruct (visible f).
Qed.

Lemma remote_pos l : Forall stamped l → ∀ o n,
  pos (Offset o, n) l = (Offset (o + total (width (counted v)) l), n + total shown_len l).
Proof.
  induction 1 as [|f l Hf _ IH]; intros o n.
  - cbn. by rewrite !N.add_0_r.
  - change (pos (dim_add (Offset o, n) (item_summary f)) l = (Offset (o + total (width (counted v)) (f :: l)), n + total shown_len (f :: l))).
    rewrite remote_item, IH by done. cbn [total]. by rewrite !N.add_assoc.
Qed.

Lemma remote_add o n l : Forall stamped l →
  dim_add (Offset o, n) (sum_items l) =
  (if forallb (counted v) l then Offset (o + total flen l) else if existsb (counted v) l then Invalid else Offset o,
   n + total shown_len l).
Proof.
  intros Hl. by rewrite remote_dim_add, (versioned_add v o l Hl), sum_shown.
Qed.

(** What lies before the target is skipped item by item. *)
Lemma skip_before target l : Forall stamped l → ∀ o n, o + total (width (counted v)) l < target →
  split_at (seek_enter (seek_full target) Left) (Offset o, n) l = (l, []).
Proof.
  induction 1 as [|f l Hf _ IH]; intros o n Ho; [done|]. cbn [split_at total] in *. unfold seek_enter at 1.
  rewrite remote_item by done. unfold seek_full, seek_fst, seek_versioned. cbn [fst].
  change (cmp target (o + width (counted v) f)) with (N.compare target (o + width (counted v) f)).
  rewrite (proj2 (N.compare_gt_iff _ _)) by lia. cbn [skips negb]. rewrite IH by lia. done.
Qed.

Lemma remote_coherent_items target l0 l : Forall stamped l0 → Forall stamped l →
  coherent (seek_enter (seek_full target) Left) (pos dim_zero l0) l.
Proof.
  intros Hl0 Hl l1 l2 l3 -> Hne. apply Forall_app in Hl as [H1 [H2 _]%Forall_app].
  rewrite <- pos_app. change (dim_zero : VersionedFullOffset * N) with (Offset 0, 0).
  rewrite (remote_pos (l0 ++ l1)) by (by apply Forall_app). set (o := 0 + _). set (n := 0 + _). clearbody o n.
  unfold seek_enter at 1. rewrite (remote_add o n l2 H2), (remote_pos l2 H2).
  unfold seek_full at 1, seek_fst. cbn [fst]. intros He%negb_false_iff.
  destruct (forallb (counted v) l2) eqn:Hall; [|destruct (existsb (counted v) l2) eqn:Hany; [done|]];
    unfold seek_versioned in He.
  - rewrite (all_counted v l2 Hall). split; [done|]. apply skip_before; [done|]. rewrite (all_counted v l2 Hall).
    change (cmp target) with (N.compare target) in He. destruct (N.compare_spec target (o + total flen l2)); try done; lia.
  - rewrite (none_counted v l2 Hany), N.add_0_r. split; [done|]. apply skip_before; [done|]. rewrite (none_counted v l2 Hany).
    change (cmp target) with (N.compare target) in He. destruct (N.compare_spec target o); try done; lia.
Qed.
End remote.
