(* ===== verification/BufferInv.v ===== *)
(** * BufferInv: the invariant of a buffer

    [snapshot_ok v s ps]: the snapshot [s] stands for the pieces [ps], at the version [v].  Fragments,
    texts, the index of insertions, the slices of the edits and the undo map agree
    with each other.  [finished_ok] says that an edit that is finished keeps
    all of that, and [commit_ok] that it is committed without panic. *)

From stdpp Require Import gmap.
From S2P Require Import Prelude Clock Locator UndoMap OperationQueue Patch Subscription History Bits Utf8.
From S2P Require Import LineEnding PatchFacts TextSummary Chunk ChunkFacts Rope RopeFacts RopeEdit RopeSlice.
From S2P Require Import Keyed TreeMap TreeMapFacts SumTree SumTreeSpec SumTreeFind Cursor CursorSpec.
From S2P Require Import CursorFacts Fragment RopeBuilder Buffer BufferFacts BufferSteps BufferLocal BufferSeen.
#[local] Open Scope N_scope.

(** ** The invariant *)

(** The index holds one entry for each fragment. *)
Definition indexed (t : Insertions) (fs : list Fragment) : Prop :=
  (∃ h, wf h t) ∧ sorted_keys (Key:=InsertionFragmentKey) (to_list t) ∧
  ∀ i, i ∈ to_list t ↔ i ∈ insertion_fragment_new <$> fs.

Abbreviation slice_entries := (list (MapEntry InsertionSlice unit)).
Definition has_slice (x : InsertionSlice) (l : slice_entries) : Prop := lookup x l = Some ().

(** The text that a new buffer starts with is no edit. *)
Definition base_timestamp : Lamport.t := Lamport.new LOCAL.

(** The edit [e] inserted or deleted the fragment. *)
Definition touched (e : Lamport.t) (f : Fragment) : Prop :=
  e = timestamp f ∧ e ≠ base_timestamp ∨ e ∈ deletions f.

(** A slice of the edit [e] that the fragment lies in. *)
Record slice_covers (e : Lamport.t) (f : Fragment) (x : InsertionSlice) : Prop := {
  covers_edit : slice_edit_id x = e;
  covers_insertion : slice_insertion_id x = timestamp f;
  covers_start : slice_start x ≤ insertion_offset f;
  covers_end : insertion_offset f + flen f ≤ slice_end x
}.

Definition covered (l : slice_entries) (f : Fragment) : Prop :=
  ∀ e, touched e f → ∃ x, has_slice x l ∧ slice_covers e f x.

Definition known (v : Global.t) (f : Fragment) : Prop :=
  0 < Lamport.value (timestamp f) ∧ Global.observed v (timestamp f) = true ∧ Forall (λ d, Global.observed v d = true) (deletions f).

(** The fragment has observed every undo of an edit that touched it. *)
Definition undos_seen (l : list UndoMapEntry) (f : Fragment) : Prop :=
  ∀ e u n, e = timestamp f ∨ e ∈ deletions f → UndoMap.recorded e u n l → Global.observed (max_undos f) u = true.

Record snapshot_ok (v : Global.t) (s : BufferSnapshot) (ps : list piece) : Prop := {
  ok_fragments : ∃ h, wf h (fragments s) ∧ to_list (fragments s) = ps.*1;
  ok_visible : rope_inv (visible_text s) (vis_text ps);
  ok_deleted : rope_inv (deleted_text s) (del_text ps);
  ok_sized : Forall sized ps;
  ok_located : Forall (λ p, loc_ok (id p.1)) ps;
  ok_ids : StronglySorted olt (id <$> ps.*1);
  ok_order : StronglySorted follows ps.*1;
  ok_insertions : indexed (insertions s) ps.*1;
  ok_slices : ∃ l, becomes l (insertion_slices s) ∧ Forall (covered l) ps.*1 ∧
    ∀ x, has_slice x l → Global.observed v (slice_edit_id x) = true ∧ 0 < Lamport.value (slice_insertion_id x);
  ok_undos : ∃ h l, wf h (undo_map s) ∧ to_list (undo_map s) = l ∧ sorted_keys (Key:=UndoMapKey) l ∧
    ∀ e u n, UndoMap.recorded e u n l → Global.observed v e = true ∧ Global.observed v u = true;
  ok_flags : Forall (λ p, is_visible p.1 (undo_map s) = Some (visible p.1)) ps;
  ok_known : Forall (known v) ps.*1;
  ok_tiled : tiled ps.*1;
  ok_undone : Forall (undos_seen (to_list (undo_map s))) ps.*1
}.

(** The trees fit the stack of a cursor. *)
Definition low {T S} (t : SumTree T S) : Prop := (node_height t < 16)%nat.

Record roomy (s : BufferSnapshot) (ps : list piece) : Prop := {
  roomy_fragments : low (fragments s);
  roomy_insertions : low (insertions s);
  roomy_slices : low (insertion_slices s);
  roomy_undos : low (undo_map s);
  roomy_visible : sliceable (visible_text s) (vis_text ps);
  roomy_deleted : sliceable (deleted_text s) (del_text ps)
}.

Lemma low_wf {T S} `{SummaryLaws S, !Item T S} h (t : SumTree T S) : low t → wf h t → (h < 16)%nat.
Proof. intros Ht Hwf. unfold low in Ht. by rewrite (wf_height _ _ Hwf) in Ht. Qed.

(** Some observers have seen some texts. *)
Definition observers_ok (t : Topic nat) (text : str) : Prop := ∃ seen, tracks (mk_world t text seen).

(** ** Keys of fragments *)

Definition fragment_key (f : Fragment) : InsertionFragmentKey := insertion_key (timestamp f) (insertion_offset f).

#[export] Instance insertion_key_eq_dec : EqDecision InsertionFragmentKey.
Proof. solve_decision. Defined.

#[export] Instance insertion_slice_eq_dec : EqDecision InsertionSlice.
Proof. solve_decision. Defined.

Lemma NoDup_fmap_eq {A B} (f : A → B) l x y : NoDup (f <$> l) → x ∈ l → y ∈ l → f x = f y → x = y.
Proof.
  induction l as [|z l IH]; intros Hnd Hx Hy Hf; [by apply elem_of_nil in Hx|].
  rewrite fmap_cons, NoDup_cons in Hnd. destruct Hnd as [Hz Hnd].
  apply elem_of_cons in Hx as [->|Hx], Hy as [->|Hy]; [done| | |by apply IH].
  - destruct Hz. rewrite Hf. by apply list_elem_of_fmap_2.
  - destruct Hz. rewrite <- Hf. by apply list_elem_of_fmap_2.
Qed.

Lemma NoDup_fmap_filter {A B} (f : A → B) (P : A → Prop) `{!∀ x, Decision (P x)} l :
  NoDup (f <$> l) → NoDup (f <$> filter P l).
Proof.
  induction l as [|z l IH]; intros Hnd; [constructor|]. rewrite fmap_cons, NoDup_cons in Hnd. destruct Hnd as [Hz Hnd].
  rewrite filter_cons. case_decide; [|by apply IH]. rewrite fmap_cons, NoDup_cons. split; [|by apply IH].
  intros (y & E & [_ Hy]%list_elem_of_filter)%list_elem_of_fmap. destruct Hz. rewrite E. by apply list_elem_of_fmap_2.
Qed.

Lemma keys_NoDup fs : StronglySorted follows fs → Forall (λ f, 0 < flen f) fs → NoDup (fragment_key <$> fs).
Proof.
  induction fs as [|f fs IH]; intros Hs Hp; [constructor|].
  apply StronglySorted_cons in Hs as [Hf Hs]. apply Forall_cons in Hp as [Hpf Hp].
  rewrite fmap_cons, NoDup_cons. split; [|by apply IH].
  intros (g & E & Hg)%list_elem_of_fmap. rewrite Forall_forall in Hf. specialize (Hf g Hg).
  injection E as Ht Ho. specialize (Hf Ht). lia.
Qed.

Lemma sized_flen (ps : list piece) : Forall sized ps → Forall (λ f, 0 < flen f) ps.*1.
Proof. intros Hs. apply Forall_fmap. eapply Forall_impl; [exact Hs|]. intros p Hp. by apply sized_pos. Qed.

(** ** What is undone *)

Definition undone (l : list UndoMapEntry) (e : Lamport.t) : bool := N.odd (max_count (λ _, true) e l).
Definition shown_under (l : list UndoMapEntry) (f : Fragment) : bool :=
  negb (undone l (timestamp f)) && forallb (undone l) (deletions f).

Lemma is_undone_eq m l e : undo_map_of m l → is_undone m e = Some (undone l e).
Proof. intros Hm. unfold is_undone, undo_count. by rewrite (count_from_spec _ _ _ _ Hm). Qed.

Lemma all_opt_eq {A} (f : A → option bool) (g : A → bool) l :
  (∀ x, f x = Some (g x)) → all_opt f l = Some (forallb g l).
Proof.
  intros Hf. induction l as [|x l IH]; [done|]. cbn. rewrite Hf. cbn. by destruct (g x).
Qed.

Lemma is_visible_eq m l f : undo_map_of m l → is_visible f m = Some (shown_under l f).
Proof.
  intros Hm. unfold is_visible, shown_under. rewrite (is_undone_eq _ _ _ Hm). cbn [mbind option_bind].
  destruct (undone l (timestamp f)); [done|]. apply all_opt_eq. intros d. by apply is_undone_eq.
Qed.

(** An edit of which no undo is recorded. *)
Lemma not_undone l e : (∀ e' u n, UndoMap.recorded e' u n l → e' ≠ e) → undone l e = false.
Proof.
  intros Hl. unfold undone. rewrite max_count_none; [done|]. apply Forall_forall. intros x Hx E.
  refine (Hl _ (key_undo_id (undo_key x)) (entry_undo_count x) _ E). exists x. split_and!; [done| |done]. by destruct (undo_key x).
Qed.

(** ** A finished edit *)

Section finished.
Context (ts : Lamport.t) (ps : list piece) (tr : list el).
Context (Htr : tracing ts ps [] 0 tr).

Lemma traced_fragments : (el_piece <$> tr).*1 = el_fragment <$> tr.
Proof. apply el_fragments. Qed.

Lemma traced_sized : Forall sized (el_piece <$> tr).
Proof. apply Forall_fmap. eapply Forall_impl; [apply Htr|]. by intros e (? & _). Qed.

Lemma traced_located : Forall (λ p, loc_ok (id p.1)) (el_piece <$> tr).
Proof. apply Forall_fmap. eapply Forall_impl; [apply Htr|]. by intros e (_ & ? & _). Qed.

Lemma traced_ids : StronglySorted olt (id <$> (el_piece <$> tr).*1).
Proof.
  pose proof (tr_ids _ _ _ _ _ Htr) as Hi. cbn in Hi. rewrite app_nil_r in Hi.
  rewrite traced_fragments, <- list_fmap_compose. exact Hi.
Qed.

Lemma traced_order : StronglySorted follows (el_fragment <$> tr).
Proof. pose proof (tr_order _ _ _ _ _ Htr) as Hi. cbn in Hi. by rewrite app_nil_r in Hi. Qed.

Lemma traced_flen : Forall (λ f, 0 < flen f) (el_fragment <$> tr).
Proof. rewrite <- traced_fragments. exact (sized_flen _ traced_sized). Qed.

Lemma traced_keys : NoDup (fragment_key <$> (el_fragment <$> tr)).
Proof. apply keys_NoDup; [apply traced_order|apply traced_flen]. Qed.

(** Every element is new or comes from an old fragment. *)
Lemma traced_source e f : e ∈ tr → source e = Some f → f ∈ ps.*1.
Proof.
  intros He Hf. pose proof (tr_source _ _ _ _ _ Htr) as Hs. rewrite Forall_forall in Hs. specialize (Hs e He). cbn in Hs.
  rewrite Hf in Hs. destruct Hs as [?|(p & B & ? & _)]; [done|]. done.
Qed.

Lemma traced_ok e : e ∈ tr → el_ok ts e.
Proof. intros He. pose proof (tr_ok _ _ _ _ _ Htr) as Hs. rewrite Forall_forall in Hs. by apply Hs. Qed.

(** Every old fragment still has its first byte. *)
Lemma traced_key f : f ∈ ps.*1 → ∃ e, e ∈ tr ∧ same_key (el_fragment e) f.
Proof.
  intros Hf. pose proof (tr_keys _ _ _ _ _ Htr) as Hs. cbn in Hs. rewrite app_nil_r in Hs. rewrite Forall_forall in Hs.
  by apply Hs.
Qed.

(** The index of insertions. *)
Abbreviation new_edits := ((insert_new ∘ el_fragment) <$> filter (λ e, recorded e = true) tr).

Lemma edit_keys (els : list el) :
  edit_key <$> ((insert_new ∘ el_fragment) <$> els) = fragment_key <$> (el_fragment <$> els).
Proof. rewrite <- !list_fmap_compose. done. Qed.

Lemma recorded_new e : e ∈ tr → recorded e = true → insert_new (el_fragment e) ∈ new_edits.
Proof.
  intros He Hr. apply (list_elem_of_fmap_2 (insert_new ∘ el_fragment)). by apply list_elem_of_filter.
Qed.

Lemma traced_same e e' : e ∈ tr → e' ∈ tr → fragment_key (el_fragment e) = fragment_key (el_fragment e') → e = e'.
Proof.
  intros He He' Hk. apply (NoDup_fmap_eq (fragment_key ∘ el_fragment) tr); [|done..].
  rewrite list_fmap_compose. apply traced_keys.
Qed.

Lemma indexed_edit t (Hold : NoDup (fragment_key <$> ps.*1)) :
  indexed t ps.*1 → low t → ∃ u old, Keyed.edit t new_edits = Some (u, old) ∧ indexed u (el_fragment <$> tr).
Proof.
  intros ([h Hwf] & Hs & Ht) Hlow.
  assert (NoDup (edit_key <$> new_edits)) as Hnd.
  { rewrite edit_keys, <- list_fmap_compose. apply NoDup_fmap_filter. rewrite list_fmap_compose. apply traced_keys. }
  assert (Forall (valid_edit (T:=InsertionFragment)) new_edits) as Hv.
  { apply Forall_fmap, Forall_true. intros e. by repeat constructor. }
  destruct (edit_spec h t new_edits Hwf (low_wf _ _ Hlow Hwf) Hs Hnd Hv) as (u & old & -> & Hu & Hsu & Hin & Hout).
  exists u, old. split; [done|]. split; [done|]. split; [done|]. intros i. split.
  - intros Hi. assert (list_get (key i) (to_list u) = Some i) as Hget by (by apply list_get_elem).
    destruct (decide (key i ∈ edit_key <$> new_edits)) as [Hk|Hk].
    + apply list_elem_of_fmap in Hk as (x & Hx & Hmem). rewrite Hx, (Hin x Hmem) in Hget.
      apply list_elem_of_fmap in Hmem as (e & -> & [_ He]%list_elem_of_filter). cbn in Hget. injection Hget as <-.
      by apply (list_elem_of_fmap_2 insertion_fragment_new), list_elem_of_fmap_2.
    + rewrite (Hout _ Hk) in Hget. apply list_get_elem in Hget as [Hit _]; [|done].
      apply Ht in Hit. apply list_elem_of_fmap in Hit as (f & -> & Hf).
      destruct (traced_key f Hf) as (e & He & Hsame).
      destruct (recorded e) eqn:Hr.
      { destruct Hk. apply list_elem_of_fmap. exists (insert_new (el_fragment e)). split; [|by apply recorded_new].
        destruct Hsame as [E1 E2]. cbn. unfold key, insertion_fragment_keyed, item_summary, insertion_fragment_item. cbn. by rewrite E1, E2. }
      assert (el_fragment e = f) as <-.
      { pose proof (traced_ok e He) as (_ & _ & Ho). unfold recorded in Hr. destruct (el_origin e) as [|g| |] eqn:Eo; try done.
        rewrite Ho in Hsame |- *. assert (g ∈ ps.*1) as Hg by (eapply traced_source; [done|]; unfold source; by rewrite Eo).
        apply (NoDup_fmap_eq fragment_key ps.*1); [done..|]. unfold fragment_key. destruct Hsame as [-> ->]. done. }
      by apply (list_elem_of_fmap_2 insertion_fragment_new), list_elem_of_fmap_2.
  - intros Hi. apply list_elem_of_fmap in Hi as (f & -> & Hf). apply list_elem_of_fmap in Hf as (e & -> & He).
    assert (list_get (fragment_key (el_fragment e)) (to_list u) = Some (insertion_fragment_new (el_fragment e))) as Hget.
    2:{ apply list_get_elem in Hget; [by destruct Hget|done]. }
    destruct (recorded e) eqn:Hr.
    + exact (Hin _ (recorded_new e He Hr)).
    + rewrite Hout.
      * apply list_get_elem; [done|]. split; [|done]. apply Ht, (list_elem_of_fmap_2 insertion_fragment_new).
        pose proof (traced_ok e He) as (_ & _ & Ho). unfold recorded in Hr. destruct (el_origin e) as [|g| |] eqn:Eo; try done.
        rewrite Ho. eapply traced_source; [exact He|]. unfold source. by rewrite Eo.
      * rewrite edit_keys. intros (g & E & Hg)%list_elem_of_fmap.
        apply list_elem_of_fmap in Hg as (e' & -> & [Hr' He']%list_elem_of_filter).
        assert (e = e') as -> by (by apply traced_same). congruence.
Qed.

(** The slices of the edit. *)
Abbreviation new_slice_list := ((slice_from_fragment ts ∘ el_fragment) <$> filter (λ e, sliced e = true) tr).

Lemma slice_eq e : e ∈ tr → slice_from_fragment ts (el_fragment e) =
  mk_insertion_slice ts (timestamp (el_fragment e)) (insertion_offset (el_fragment e))
    (insertion_offset (el_fragment e) + flen (el_fragment e)).
Proof.
  intros He. destruct (traced_ok e He) as ((_ & _ & _ & Hb & _) & _). unfold slice_from_fragment, wrap32.
  cbn in Hb. by rewrite N.mod_small.
Qed.

Lemma new_slices_NoDup : NoDup new_slice_list.
Proof.
  apply NoDup_fmap_filter. pose proof traced_keys as Hk. rewrite <- list_fmap_compose in Hk.
  assert (∀ els, NoDup ((fragment_key ∘ el_fragment) <$> els) → NoDup ((slice_from_fragment ts ∘ el_fragment) <$> els)) as Hmap.
  { clear. induction els as [|e els IH]; intros Hnd; [constructor|]. apply NoDup_cons in Hnd; apply NoDup_cons.
    destruct Hnd as [He Hnd]. split; [|by apply IH]. intros (e' & E & He')%list_elem_of_fmap. destruct He.
    apply list_elem_of_fmap. exists e'. split; [|done]. injection E as E1 E2 _. cbn in E1, E2 |- *. unfold fragment_key. by rewrite E1, E2. }
  by apply Hmap.
Qed.

(** An old touch stays; a new one has a slice of its own. *)
Lemma touched_inv e x : e ∈ tr → (∀ f, f ∈ ps.*1 → timestamp f ≠ ts ∧ ts ∉ deletions f) → touched x (el_fragment e) →
  x = ts ∧ sliced e = true ∨
  x ≠ ts ∧ ∃ f, f ∈ ps.*1 ∧ touched x f ∧ timestamp (el_fragment e) = timestamp f ∧
    insertion_offset f ≤ insertion_offset (el_fragment e) ∧
    insertion_offset (el_fragment e) + flen (el_fragment e) ≤ insertion_offset f + flen f.
Proof.
  intros He Hfresh Hx. destruct (traced_ok e He) as (_ & _ & Ho). pose proof (traced_source e) as Hsrc.
  unfold source in Hsrc. unfold sliced, touched in *. destruct (el_origin e) as [|f|f|f].
  - destruct Ho as (Ht & _ & Hd). rewrite Ht, Hd in Hx. left. destruct Hx as [(-> & _)|?%elem_of_nil]; done.
  - rewrite Ho in *. destruct (Hfresh f (Hsrc f He eq_refl)) as [Hne Hnd]. right. split.
    + destruct Hx as [(-> & _)|?]; [done|]. intros ->. done.
    + exists f. split_and!; try done; by apply Hsrc.
  - destruct Ho as ((Ht & _ & Hs & Hend) & _ & Hd). rewrite Ht, Hd in Hx.
    destruct (Hfresh f (Hsrc f He eq_refl)) as [Hne Hnd]. right. split.
    + destruct Hx as [(-> & _)|?]; [done|]. intros ->. done.
    + exists f. split_and!; try done. by apply Hsrc.
  - destruct Ho as ((Ht & _ & Hs & Hend) & _ & Hd). rewrite Ht, Hd in Hx.
    destruct (Hfresh f (Hsrc f He eq_refl)) as [Hne Hnd].
    destruct (decide (x = ts)) as [->|Hxne]; [by left|]. right. split; [done|]. exists f.
    split_and!; try done; [by apply Hsrc|]. destruct Hx as [?|[?| ->%list_elem_of_singleton]%elem_of_app]; [by left|by right|done].
Qed.

Lemma slices_extend (t : map_tree InsertionSlice unit) l :
  becomes l t → low t → (∀ f, f ∈ ps.*1 → timestamp f ≠ ts ∧ ts ∉ deletions f) →
  Forall (covered l) ps.*1 → (∀ x, has_slice x l → slice_edit_id x ≠ ts) →
  ∃ u l', TreeSet.extend t new_slice_list = Some u ∧ becomes l' u ∧ Forall (covered l') (el_fragment <$> tr) ∧
    ∀ x, has_slice x l' → has_slice x l ∨
      slice_edit_id x = ts ∧ ∃ e, e ∈ tr ∧ slice_insertion_id x = timestamp (el_fragment e).
Proof.
  intros Ht Hlow Hfresh Hcov Hids. destruct Ht as ([h Hwf] & Hl & Hs).
  assert (map_of t l) as Hmap by (exists h; split_and!; try done; by apply (low_wf h t)).
  destruct (extend_map t l ((λ k, (k, ())) <$> new_slice_list) Hmap) as (u & l' & Hu & Hb & Hin & Hout).
  { rewrite <- list_fmap_compose. rewrite (list_fmap_ext _ Datatypes.id) by done. rewrite list_fmap_id. apply new_slices_NoDup. }
  assert (∀ k, k ∉ new_slice_list → lookup k l' = lookup k l) as Hout'.
  { intros k Hk. apply Hout. rewrite <- list_fmap_compose. by rewrite (list_fmap_ext _ Datatypes.id), list_fmap_id. }
  assert (∀ k, k ∈ new_slice_list → has_slice k l' ∧ slice_edit_id k = ts) as Hnew.
  { intros k Hk. split; [apply Hin; by apply (list_elem_of_fmap_2 (λ k, (k, ())))|]. by apply list_elem_of_fmap in Hk as (e & -> & _). }
  exists u, l'. split; [done|]. split; [done|]. split.
  - apply Forall_fmap, Forall_forall. intros e He x Hx. destruct (touched_inv e x He Hfresh Hx) as [[-> Hsl]|(Hne & f & Hf & Hxf & Ht & H1 & H2)].
    + exists (slice_from_fragment ts (el_fragment e)). split.
      * apply Hnew. apply (list_elem_of_fmap_2 (slice_from_fragment ts ∘ el_fragment)). by apply list_elem_of_filter.
      * rewrite (slice_eq e He). by split.
    + rewrite Forall_forall in Hcov. destruct (Hcov f Hf x Hxf) as (sl & Hsl & [C1 C2 C3 C4]).
      exists sl. split; [|split; [done|congruence|lia|lia]]. unfold has_slice. rewrite Hout'; [done|].
      intros Hmem. destruct (Hnew _ Hmem) as [_ E]. congruence.
  - intros x Hx. destruct (decide (x ∈ new_slice_list)) as [Hmem|Hmem]; [right|left].
    { split; [by apply Hnew|]. apply list_elem_of_fmap in Hmem as (e & -> & He). apply list_elem_of_filter in He as [_ He]. by exists e. }
    unfold has_slice in *. by rewrite Hout' in Hx.
Qed.

(** Visibility and versions. *)
Lemma traced_flags m l : undo_map_of m l → undone l ts = false →
  Forall (λ p, is_visible p.1 m = Some (visible p.1)) ps →
  Forall (λ p, is_visible p.1 m = Some (visible p.1)) (el_piece <$> tr).
Proof.
  intros Hm Hts Hps. apply Forall_fmap, Forall_forall. intros e He. cbn. rewrite (is_visible_eq _ _ _ Hm). f_equal.
  assert (∀ f, f ∈ ps.*1 → shown_under l f = visible f) as Hf.
  { intros f (p & -> & Hp)%list_elem_of_fmap. rewrite Forall_forall in Hps. specialize (Hps p Hp).
    rewrite (is_visible_eq _ _ _ Hm) in Hps. congruence. }
  destruct (traced_ok e He) as (_ & _ & Ho). pose proof (traced_source e) as Hsrc. unfold source in Hsrc.
  unfold shown_under in *. destruct (el_origin e) as [|f|f|f].
  - destruct Ho as (-> & -> & ->). by rewrite Hts.
  - rewrite Ho. apply Hf. by apply Hsrc.
  - destruct Ho as ((-> & _) & -> & ->). apply Hf. by apply Hsrc.
  - destruct Ho as ((-> & _) & -> & ->). rewrite forallb_app. cbn. rewrite Hts. by rewrite !andb_false_r.
Qed.

Lemma traced_undos l : (∀ e u n, UndoMap.recorded e u n l → e ≠ ts) → Forall (undos_seen l) ps.*1 → Forall (undos_seen l) (el_fragment <$> tr).
Proof.
  intros Hts Hps. apply Forall_fmap, Forall_forall. intros e He x u n Hx Hr. pose proof (traced_ok e He) as (_ & _ & Ho).
  assert (∀ f, source e = Some f → undos_seen l f) as Hf.
  { intros f Hf. rewrite Forall_forall in Hps. apply Hps. by apply (traced_source e). }
  unfold source in Hf. destruct (el_origin e) as [|f|f|f].
  - destruct Ho as (E1 & _ & E2). cbn in Hx. rewrite E1, E2 in Hx. destruct Hx as [->|Hx%elem_of_nil]; [|done]. by destruct (Hts _ _ _ Hr).
  - subst f. by apply (Hf _ eq_refl x u n).
  - destruct Ho as ((E1 & E2 & _) & _ & E3). cbn in Hx |- *. rewrite E1, E3 in Hx. rewrite E2. by apply (Hf _ eq_refl x u n).
  - destruct Ho as ((E1 & E2 & _) & _ & E3). cbn in Hx |- *. rewrite E1, E3, elem_of_app in Hx. rewrite E2.
    apply (Hf _ eq_refl x u n); [|done]. destruct Hx as [?|[?| ->%list_elem_of_singleton]]; [by left|by right|]. by destruct (Hts _ _ _ Hr).
Qed.

Lemma traced_known v : 0 < Lamport.value ts → Forall (known v) ps.*1 → Forall (known (Global.observe v ts)) (el_fragment <$> tr).
Proof.
  intros Hts Hv. apply Forall_fmap, Forall_forall. intros e He. unfold known. cbn. rewrite Forall_forall in Hv.
  assert (∀ x, Global.observed v x = true → Global.observed (Global.observe v ts) x = true) as Hmono.
  { intros x. rewrite !Global.observed_iff, Global.get_observe. case_decide; lia. }
  assert (∀ f, f ∈ ps.*1 → known (Global.observe v ts) f) as Hf.
  { intros f Hfps. destruct (Hv f Hfps) as (H0 & H1 & H2). split_and!; [done|by apply Hmono|]. eapply Forall_impl; [exact H2|]. intros x. apply Hmono. }
  destruct (traced_ok e He) as (_ & _ & Ho). pose proof (traced_source e) as Hsrc. unfold source in Hsrc.
  destruct (el_origin e) as [|f|f|f].
  - destruct Ho as (-> & _ & ->). split_and!; [done|apply Global.observed_observe|constructor].
  - rewrite Ho. apply Hf. by apply Hsrc.
  - destruct Ho as ((-> & _) & _ & ->). apply Hf. by apply Hsrc.
  - destruct Ho as ((-> & _) & _ & ->). destruct (Hf f) as (H0 & H1 & H2); [by apply Hsrc|]. split_and!; [done..|].
    apply Forall_app. split; [done|]. constructor; [apply Global.observed_observe|done].
Qed.
End finished.
