(* ===== verification/BufferCommit.v ===== *)
(** * BufferCommit: edits keep the invariant of the buffer

    [fragment_ids_for_edits] of [crates/text/src/text.rs] goes over the slices of the edits and
    the index of insertions side by side.  It finds every fragment that one of the edits
    inserted or deleted, and none twice.

    [commit_ok]: what a finished edit leaves is committed without panic, keeps
    [snapshot_ok], and tells the observers the truth.  [local_edit_ok] puts a local edit together. *)

From Stdlib Require Import Sorted.
From stdpp Require Import sorting.
From stdpp Require Import gmap.
From S2P Require Import Prelude Clock Locator UndoMap OperationQueue Patch Subscription History Bits Utf8.
From S2P Require Import LineEnding PatchFacts TextSummary Chunk ChunkFacts Rope RopeFacts RopeConvert RopeEdit.
From S2P Require Import RopeSlice Keyed TreeMap TreeMapFacts SumTree SumTreeSpec SumTreeFind Cursor CursorSpec.
From S2P Require Import CursorFacts Fragment RopeBuilder Buffer BufferFacts BufferSteps BufferLocal BufferSeen.
From S2P Require Import BufferInv.
#[local] Open Scope N_scope.

(** ** The order of slices *)

Definition slice_key (x : InsertionSlice) : InsertionFragmentKey := insertion_key (slice_insertion_id x) (slice_start x).

Lemma slice_le_iff a b : slice_le a b ↔
  slice_key a ≺ slice_key b ∨ slice_key a = slice_key b ∧ slice_end b ≤ slice_end a.
Proof.
  assert (slice_le a b ↔ then_with (cmp (slice_key a) (slice_key b)) (cmp (slice_end b) (slice_end a)) ≠ Gt) as ->.
  { unfold slice_le, slice_key. change (cmp (insertion_key ?i ?s) (insertion_key ?j ?u)) with (then_with (cmp i j) (cmp s u)).
    by destruct (cmp (slice_insertion_id a) (slice_insertion_id b)). }
  change (cmp (slice_end b) (slice_end a)) with (N.compare (slice_end b) (slice_end a)). unfold olt.
  destruct (cmp (slice_key a) (slice_key b)) eqn:E; cbn.
  - apply cmp_eq_iff in E. split.
    + intros H. right. split; [done|]. by apply N.compare_le_iff.
    + intros [?|[_ H]]; [done|]. by apply N.compare_le_iff.
  - split; [by left|done].
  - split; [done|]. intros [?|[E' _]]; [done|]. by rewrite E', cmp_refl in E.
Qed.

#[local] Instance slice_le_total : Total slice_le.
Proof.
  intros a b. rewrite !slice_le_iff. destruct (ole_total (slice_key a) (slice_key b)) as [H|H]; apply ole_iff in H as [H|H]; auto.
  - rewrite H. destruct (N.le_ge_cases (slice_end a) (slice_end b)); auto.
  - rewrite H. destruct (N.le_ge_cases (slice_end a) (slice_end b)); auto.
Qed.

#[local] Instance slice_le_trans : Transitive slice_le.
Proof.
  intros a b c. rewrite !slice_le_iff. intros [H1|[H1 E1]] [H2|[H2 E2]].
  - left. by eapply olt_trans.
  - left. by rewrite <- H2.
  - left. by rewrite H1.
  - right. split; [congruence|lia].
Qed.

Lemma slice_le_key a b : slice_le a b → slice_key a ≼ slice_key b.
Proof. rewrite slice_le_iff, ole_iff. intros [?|[? _]]; auto. Qed.

Lemma key_lt_iff (a b : Lamport.t) m n : insertion_key a m ≺ insertion_key b n ↔ a ≺ b ∨ a = b ∧ m < n.
Proof.
  unfold olt. change (cmp (insertion_key a m) (insertion_key b n)) with (then_with (cmp a b) (N.compare m n)).
  destruct (cmp a b) eqn:E; cbn.
  - apply cmp_eq_iff in E as ->. rewrite N.compare_lt_iff. split; [by right|]. by intros [?|[_ ?]].
  - split; [by left|done].
  - split; [done|]. intros [?|[-> _]]; [done|]. by rewrite cmp_refl in E.
Qed.

Lemma key_le_timestamp (a b : Lamport.t) m n : insertion_key a m ≼ insertion_key b n → a ≼ b.
Proof. rewrite !ole_iff, key_lt_iff. intros [[?|[? _]]|[= ? _]]; auto. Qed.

Lemma key_le_of (a b : Lamport.t) m n : a ≼ b → m ≤ n → insertion_key a m ≼ insertion_key b n.
Proof.
  intros Ha Hm. apply ole_iff in Ha as [Ha| ->].
  - apply olt_le, key_lt_iff. by left.
  - rewrite ole_iff, key_lt_iff. destruct (N.eq_dec m n) as [->|]; [by right|]. left. right. split; [done|lia].
Qed.

Lemma key_not_lt (a : Lamport.t) m n : insertion_key a m ≼ insertion_key a n → m ≤ n.
Proof. rewrite ole_iff, key_lt_iff. intros [[H|[_ ?]]|[= ->]]; [by apply olt_irrefl in H|lia..]. Qed.

(** ** Seeking from where the cursor stands *)

Section index.
Context (t : Insertions) (h : nat) (Hwf : wf h t) (Hlow : (h < 16)%nat) (Hsorted : sorted_keys (Key:=InsertionFragmentKey) (to_list t)).
Implicit Types (c : insertions_cursor) (b r : list InsertionFragment) (x : InsertionSlice) (i : InsertionFragment).

(** Between the entries, or before the first move. *)
Definition stands_at c b r : Prop :=
  cursor_tree c = t ∧ to_list t = b ++ r ∧ (cursor_at c b r ∨ c = cursor_new t ∧ b = []).

Lemma fragment_entry_key i : key (KeyedItem:=insertion_fragment_keyed) i = insertion_key (if_timestamp i) (if_split_offset i).
Proof. done. Qed.

Lemma seek_on c b r k : stands_at c b r → Forall (λ i, key i ≺ k) b →
  ∃ c' found sk rest, seek_forward (seek_key k) Left c = Some (c', found) ∧ r = sk ++ rest ∧ cursor_tree c' = t ∧
    cursor_at c' (b ++ sk) rest ∧ Forall (λ i, key i ≺ k) sk ∧ match rest with [] => True | i :: _ => k ≼ key i end.
Proof.
  intros (Htree & Hl & Hc) Hb. pose proof Hsorted as Hs. rewrite Hl in Hs.
  destruct (split_seek k (pos dim_zero b) r) as (sk & rest & Hsplit & -> & Hsk & Hrest);
    [by apply sorted_app in Hs as (_ & _ & ?)|by apply pos_below|].
  assert (seeks (seek_key k) Left b (sk ++ rest) (seek_internal (seek_key k) Left () c) t) as Hseeks.
  { pose proof Hs as (_ & Hsb & Hsr)%sorted_app. destruct Hc as [Hc|[-> ->]].
    - rewrite <- Htree. apply seek_internal_at; [done|done|by apply target_ge|]. apply ascending_keys; [done|by apply pos_below].
    - rewrite app_nil_l in Hl. rewrite <- Hl. apply (seek_internal_start _ _ (cursor_new t)); [by eapply cursor_new_start|done|done| |].
      + by apply (target_ge k []).
      + apply ascending_keys; [done|apply zero_below]. }
  destruct Hseeks as (sk' & rest' & c' & [] & found & Hsplit' & Hseek & Htree' & Hc' & _). rewrite Hsplit in Hsplit'.
  injection Hsplit' as <- <-. unfold seek_forward. rewrite Hseek. cbn. by exists c', found, sk, rest.
Qed.

(** The fragments of the slice from where the cursor stands. *)
Definition within x i : Prop := if_timestamp i = slice_insertion_id x ∧ if_split_offset i < slice_end x.

Lemma collect_fragments_spec fuel x : ∀ c b r ids, cursor_at c b r → cursor_tree c = t → (length r < fuel)%nat →
  ∃ c' vs rest, collect_fragments fuel c x ids = Some (c', ids ++ (if_fragment_id <$> vs)) ∧ r = vs ++ rest ∧
    cursor_at c' (b ++ vs) rest ∧ cursor_tree c' = t ∧ Forall (within x) vs ∧
    match rest with [] => True | i :: _ => ¬ within x i end.
Proof.
  induction fuel as [|fuel IH]; intros c b r ids Hc Htree Hfuel; [lia|]. cbn [collect_fragments].
  rewrite (item_at _ _ _ Hc). cbn [mbind option_bind]. destruct r as [|i r]; cbn [head].
  { exists c, [], []. by rewrite !app_nil_r. }
  destruct (_ || _) eqn:E.
  - exists c, [], (i :: r). rewrite !app_nil_r. split_and!; try done. intros [Hi Hlt].
    apply orb_true_iff in E as [E|E]; [|apply N.leb_le in E; lia]. by rewrite bool_decide_true in E.
  - apply orb_false_iff in E as [E1%negb_false_iff%bool_decide_eq_true E2%N.leb_gt].
    destruct (next_at _ _ _ _ Hc) as (c1 & -> & Htree1 & Hc1). cbn [mbind option_bind].
    destruct (IH c1 _ _ (ids ++ [if_fragment_id i]) Hc1) as (c' & vs & rest & -> & -> & Hc' & Htree' & Hvs & Hrest); [congruence|cbn in Hfuel; lia|].
    exists c', (i :: vs), rest. split_and!; [by rewrite <- (assoc_L (++))|done|by rewrite <- (assoc_L (++)) in Hc'|done|by constructor|done].
Qed.

Definition matches x i : Prop := within x i ∧ slice_start x ≤ if_split_offset i.

(** After the slices up to the key [k]. *)
Record scanned c b r (k : InsertionFragmentKey) (vs : list InsertionFragment) : Prop := {
  scan_at : stands_at c b r;
  scan_visited : vs `sublist_of` b;
  scan_all i : i ∈ b → k ≼ key i → i ∈ vs;
  scan_below i : i ∈ b → if_timestamp i ≼ key_timestamp k
}.

Lemma stands_start c b r : stands_at c b r → Cursor.start c = pos dim_zero b.
Proof. intros (_ & _ & [Hc|[-> ->]]); [apply (at_position _ _ _ Hc)|done]. Qed.

(** The entries before the cursor end with its position. *)
Lemma below_start b r i : to_list t = b ++ r → i ∈ b → key i ≼ pos dim_zero b ∧ ∃ j, j ∈ b ∧ pos dim_zero b = key j.
Proof.
  intros Hl Hi. induction b as [|j b' _] using rev_ind; [by apply elem_of_nil in Hi|].
  rewrite Hl in Hsorted. apply sorted_app in Hsorted as (_ & Hs & _). rewrite pos_key by done.
  split; [|exists j; split; [apply elem_of_app; right; by left|done]].
  apply sorted_app in Hs as (Hlt & _ & _). apply elem_of_app in Hi as [Hi|Hi%list_elem_of_singleton]; [|subst; apply ole_refl].
  apply olt_le, Hlt; [done|by left].
Qed.

(** The optional seek of [collect_slice]. *)
Lemma catch_up_spec c b r k vs x :
  scanned c b r k vs → k ≼ slice_key x → 0 < Lamport.value (slice_insertion_id x) →
  ∃ c' sk rest, (let at_ := Cursor.start c in
    if negb (bool_decide (slice_insertion_id x = key_timestamp at_)) || (key_split_offset at_ <? slice_start x)
    then '(c, _) ← seek_forward (seek_key (insertion_key (slice_insertion_id x) (slice_start x))) Left c; Some c
    else Some c) = Some c' ∧ r = sk ++ rest ∧ cursor_tree c' = t ∧ cursor_at c' (b ++ sk) rest ∧
    Forall (λ i, key i ≺ slice_key x) sk ∧ Forall (λ i, slice_insertion_id x ≼ if_timestamp i) rest.
Proof.
  intros [Hat Hvis Hall Hbelow] Hk Hpos. pose proof Hat as (Htree & Hl & Hcase). pose proof Hsorted as Hs. rewrite Hl in Hs.
  rewrite (stands_start _ _ _ Hat). cbn zeta. destruct (_ || _) eqn:E.
  - assert (Forall (λ i, key i ≺ slice_key x) b) as Hb.
    { apply Forall_forall. intros i Hi. destruct (below_start b r i Hl Hi) as (Hij & j & Hj & Hp). rewrite Hp in *.
      eapply ole_lt_trans; [exact Hij|]. unfold slice_key. rewrite fragment_entry_key, key_lt_iff. cbn in E.
      pose proof (ole_trans _ _ _ (Hbelow j Hj) (key_le_timestamp _ _ _ _ Hk)) as Hts. apply ole_iff in Hts as [Hts|Hts]; [by left|].
      right. split; [done|]. rewrite bool_decide_true in E by done. by apply N.ltb_lt in E. }
    destruct (seek_on c b r (slice_key x) Hat Hb) as (c' & found & sk & rest & Hseek & -> & Htree' & Hc' & Hsk & Hrest).
    unfold slice_key in Hseek. rewrite Hseek. exists c', sk, rest. split_and!; try done.
    destruct rest as [|i rest]; [constructor|]. rewrite (assoc_L (++)) in Hs. apply sorted_app in Hs as (_ & _ & [Hi _]%sorted_cons).
    constructor; [by eapply key_le_timestamp|]. eapply Forall_impl; [exact Hi|]. intros j Hj. cbn in Hj.
    eapply (key_le_timestamp _ _ (slice_start x) (if_split_offset j)). eapply ole_trans; [exact Hrest|]. by apply olt_le.
  - apply orb_false_iff in E as [E1%negb_false_iff%bool_decide_eq_true E2%N.ltb_ge].
    destruct b as [|j0 b0] eqn:Eb. { exfalso. cbn in E1. rewrite E1 in Hpos. cbn in Hpos. lia. }
    rewrite <- Eb in *. destruct Hcase as [Hc|[_ ?]]; [|congruence].
    destruct (below_start b r j0 Hl) as (_ & j & Hj & Hp); [rewrite Eb; by left|]. rewrite Hp in *.
    exists c, [], r. rewrite app_nil_r. split_and!; [done..|]. apply Forall_forall. intros i Hi.
    apply sorted_app in Hs as (Hlt & _ & _). specialize (Hlt j i Hj Hi). apply olt_le in Hlt.
    apply key_le_timestamp in Hlt. by rewrite E1.
Qed.

Lemma collect_slice_spec c b r k vs x :
  scanned c b r k vs → k ≼ slice_key x → 0 < Lamport.value (slice_insertion_id x) →
  ∃ c' b' r' vs', collect_slice c x (if_fragment_id <$> vs) = Some (c', if_fragment_id <$> vs') ∧
    scanned c' b' r' (slice_key x) vs' ∧ (∀ i, i ∈ vs → i ∈ vs') ∧ ∀ i, i ∈ to_list t → matches x i → i ∈ vs'.
Proof.
  intros Hsc Hk Hpos. destruct (catch_up_spec _ _ _ _ _ _ Hsc Hk Hpos) as (c1 & sk & rest & Hup & -> & Htree1 & Hc1 & Hsk & Hrest).
  destruct Hsc as [(_ & Hl & _) Hvis Hall Hbelow]. unfold collect_slice. cbn zeta in Hup |- *. rewrite Hup. cbn [mbind option_bind].
  assert (length rest < cost t)%nat as Hfuel.
  { pose proof (length_items_cost t) as Hlen. rewrite Hl, !length_app in Hlen. lia. }
  rewrite Htree1. destruct (collect_fragments_spec (cost t) x c1 _ rest (if_fragment_id <$> vs) Hc1 Htree1 Hfuel)
    as (c2 & vs2 & rest2 & -> & -> & Hc2 & Htree2 & Hvs2 & Hstop).
  apply Forall_app in Hrest as [_ Hrest2]. rewrite !(assoc_L (++)) in Hl.
  exists c2, ((b ++ sk) ++ vs2), rest2, (vs ++ vs2). split; [by rewrite fmap_app|].
  assert (∀ i, i ∈ (b ++ sk) ++ vs2 → slice_key x ≼ key i → i ∈ vs ++ vs2) as Hfound.
  { intros i Hi Hle. apply elem_of_app. apply elem_of_app in Hi as [[Hi|Hi]%elem_of_app|Hi]; [|exfalso|by right].
    - left. apply Hall; [done|]. by eapply ole_trans.
    - rewrite Forall_forall in Hsk. apply (olt_irrefl (key i)). eapply olt_le_trans; [by apply Hsk|done]. }
  split_and!.
  - split.
    + split_and!; [done|by rewrite Hl|by left].
    + apply sublist_app; [by apply sublist_inserts_r|done].
    + done.
    + intros i [[Hi|Hi]%elem_of_app|Hi]%elem_of_app.
      * eapply ole_trans; [by apply Hbelow|]. by eapply key_le_timestamp.
      * rewrite Forall_forall in Hsk. by eapply key_le_timestamp, olt_le, Hsk.
      * rewrite Forall_forall in Hvs2. destruct (Hvs2 i Hi) as [-> _]. apply ole_refl.
  - intros i Hi. apply elem_of_app. by left.
  - intros i Hi [[Ht Hend] Hstart]. rewrite Hl in Hi. apply elem_of_app in Hi as [Hi|Hi].
    + apply Hfound; [done|]. rewrite fragment_entry_key, Ht. unfold slice_key. rewrite ole_iff, key_lt_iff.
      destruct (N.eq_dec (slice_start x) (if_split_offset i)) as [->|]; [by right|]. left. right. split; [done|lia].
    + exfalso. destruct rest2 as [|j rest2]; [by apply elem_of_nil in Hi|]. apply Hstop. apply Forall_cons in Hrest2 as [Hj _].
      rewrite Hl in Hsorted. apply sorted_app in Hsorted as (_ & _ & [Hlt _]%sorted_cons). apply elem_of_cons in Hi as [->|Hi]; [by split|].
      rewrite Forall_forall in Hlt. specialize (Hlt i Hi). cbn in Hlt. rewrite !fragment_entry_key in Hlt. apply olt_le in Hlt.
      pose proof (key_le_timestamp _ _ _ _ Hlt) as Hts. rewrite Ht in Hts. assert (if_timestamp j = slice_insertion_id x) as E by by apply ole_antisym.
      split; [done|]. rewrite Ht, E in Hlt. apply key_not_lt in Hlt. lia.
Qed.

Lemma collect_slices_spec xs : ∀ c b r k vs,
  scanned c b r k vs → StronglySorted slice_le xs → Forall (λ x, k ≼ slice_key x ∧ 0 < Lamport.value (slice_insertion_id x)) xs →
  ∃ vs', collect_slices c xs (if_fragment_id <$> vs) = Some (if_fragment_id <$> vs') ∧ vs' `sublist_of` to_list t ∧
    (∀ i, i ∈ vs → i ∈ vs') ∧ ∀ x i, x ∈ xs → i ∈ to_list t → matches x i → i ∈ vs'.
Proof.
  induction xs as [|x xs IH]; intros c b r k vs Hsc Hs Hxs.
  { exists vs. split_and!; [done| |done|by intros x i ?%elem_of_nil]. destruct (scan_at _ _ _ _ _ Hsc) as (_ & -> & _).
    apply sublist_inserts_r, Hsc. }
  apply StronglySorted_inv in Hs as [Hs Hx]. apply Forall_cons in Hxs as [[Hk Hpos] Hxs].
  destruct (collect_slice_spec _ _ _ _ _ _ Hsc Hk Hpos) as (c' & b' & r' & vs1 & Hc & Hsc' & Hold & Hnew).
  cbn [collect_slices]. rewrite Hc. cbn [mbind option_bind].
  destruct (IH c' b' r' (slice_key x) vs1 Hsc' Hs) as (vs' & -> & Hsub & Hold' & Hnew').
  { rewrite Forall_forall in *. intros y Hy. split; [by apply slice_le_key, Hx|by apply Hxs]. }
  exists vs'. split_and!; [done|done|auto|]. intros y i [->|Hy]%elem_of_cons Hi Hm; [auto|by eapply Hnew'].
Qed.
End index.

(** ** The slices of an edit *)

Lemma take_while_filter {A} (p : A → bool) (R : A → A → Prop) l :
  StronglySorted R l → (∀ x y, x ∈ l → R x y → p y = true → p x = true) → take_while p l = filter (λ x, p x = true) l.
Proof.
  intros Hs HR. induction Hs as [|x l Hs IH Hx]; [done|]. cbn [take_while]. rewrite filter_cons, IH.
  2:{ intros y z Hy. apply HR. by right. }
  destruct (p x) eqn:E; [done|]. cbn. symmetry. apply filter_none. eapply Forall_impl; [exact Hx|].
  intros y Hxy Hy. specialize (HR x y ltac:(by left) Hxy Hy). congruence.
Qed.

Lemma slice_edit_le a b : a ≼ b → slice_edit_id a ≼ slice_edit_id b.
Proof.
  unfold ole. change (cmp a b) with (then_with (cmp (slice_edit_id a) (slice_edit_id b))
    (then_with (cmp (slice_insertion_id a) (slice_insertion_id b))
      (then_with (cmp (slice_start a) (slice_start b)) (cmp (slice_end a) (slice_end b))))).
  by destruct (cmp (slice_edit_id a) (slice_edit_id b)).
Qed.

(** No slice of the edit is below the one that the iteration starts from. *)
Lemma first_slice_le x : mk_insertion_slice (slice_edit_id x) Lamport.MIN 0 0 ≼ x.
Proof.
  unfold ole. change (cmp (mk_insertion_slice (slice_edit_id x) Lamport.MIN 0 0) x) with (then_with (cmp (slice_edit_id x) (slice_edit_id x))
    (then_with (cmp Lamport.MIN (slice_insertion_id x))
      (then_with (N.compare 0 (slice_start x)) (N.compare 0 (slice_end x))))).
  rewrite cmp_refl. cbn [then_with]. pose proof (Lamport.MIN_le (slice_insertion_id x)) as Hmin. unfold ole in Hmin.
  destruct (cmp Lamport.MIN (slice_insertion_id x)) eqn:E; cbn; try done.
  by destruct (slice_start x), (slice_end x).
Qed.


Lemma has_slice_iff t l x : becomes l t → has_slice x l ↔ x ∈ entry_key <$> l.
Proof.
  intros (_ & _ & Hs). unfold has_slice, lookup. rewrite list_elem_of_fmap. split.
  - destruct (list_get _ l) as [e|] eqn:E; [|done]. intros _. apply list_get_elem in E as [He Hk]; [|done].
    exists e. split; [by injection Hk|done].
  - intros (e & -> & He). assert (list_get {| map_key := Some (entry_key e) |} l = Some e) as ->; [by apply list_get_elem|].
    by destruct e as [? []].
Qed.

Lemma slices_of_edit_spec s l e : becomes l (insertion_slices s) → low (insertion_slices s) →
  ∃ xs, slices_of_edit s e = Some xs ∧ ∀ x, x ∈ xs ↔ has_slice x l ∧ slice_edit_id x = e.
Proof.
  intros Hb Hlow. pose proof Hb as ([h Hwf] & Hl & Hs).
  assert (map_of (insertion_slices s) l) as Hmap by (exists h; split_and!; try done; by apply (low_wf h (insertion_slices s))).
  unfold slices_of_edit, TreeSet.iter_from. rewrite (iter_from_map _ _ _ Hmap). cbn [mbind option_bind].
  rewrite List.map_map. eexists. split; [done|]. intros x. change (List.map ?f ?l) with (f <$> l).
  rewrite (take_while_filter _ olt).
  - rewrite list_elem_of_filter, bool_decide_eq_true, (has_slice_iff _ _ _ Hb), !list_elem_of_fmap. split.
    + intros [Hx (y & -> & [_ Hy]%list_elem_of_filter)]. split; [by exists y|done].
    + intros [(y & -> & Hy) <-]. split; [done|]. exists y. split; [done|]. apply list_elem_of_filter. split; [apply first_slice_le|done].
  - eapply StronglySorted_fmap; [|by apply sorted_filter]. by intros [] [].
  - intros a y Hx Hxy Hy. apply bool_decide_eq_true in Hy. apply bool_decide_eq_true.
    apply list_elem_of_fmap in Hx as (z & -> & [Hz _]%list_elem_of_filter). apply (slice_edit_le (mk_insertion_slice _ _ _ _)) in Hz.
    apply olt_le, slice_edit_le in Hxy. rewrite Hy in Hxy. by apply ole_antisym.
Qed.

(** ** The fragments of the edits *)

Lemma mapM_total {A B} (f : A → option B) (P : A → B → Prop) l :
  (∀ x, ∃ y, f x = Some y ∧ P x y) → ∃ ys, mapM f l = Some ys ∧ Forall2 P l ys.
Proof.
  intros Hf. induction l as [|x l (ys & E & Hys)]; [by exists []|]. destruct (Hf x) as (y & Hy & HP).
  exists (y :: ys). cbn. rewrite Hy. cbn. rewrite E. by split; [|constructor].
Qed.

Lemma concat_elem {A B} (P : A → B → Prop) l (yss : list (list B)) :
  Forall2 (λ x ys, ∀ y, y ∈ ys ↔ P x y) l yss → ∀ y, y ∈ concat yss ↔ ∃ x, x ∈ l ∧ P x y.
Proof.
  induction 1 as [|x ys l yss Hx _ IH]; intros y.
  - split; [by intros ?%elem_of_nil|]. by intros (? & ?%elem_of_nil & _).
  - cbn. rewrite elem_of_app, Hx, IH. split.
    + intros [Hy|(z & Hz & Hy)]; [exists x|exists z]; (split; [|done]); [by left|by right].
    + intros (z & [->|Hz]%elem_of_cons & Hy); [by left|]. right. by exists z.
Qed.

Lemma indexed_ids t fs : indexed t fs → NoDup (id <$> fs) → NoDup (if_fragment_id <$> to_list t).
Proof.
  intros (_ & Hs & Ht) Hfs. assert (NoDup (to_list t)) as Hnd.
  { clear -Hs. induction (to_list t) as [|i l IH]; [constructor|]. apply sorted_cons in Hs as [Hi Hs].
    constructor; [|by apply IH]. intros Hin. rewrite Forall_forall in Hi. by apply (olt_irrefl (key i)), Hi. }
  apply NoDup_fmap_2_strong; [|done]. intros i j Hi Hj E. apply Ht in Hi, Hj.
  apply list_elem_of_fmap in Hi as (f & -> & Hf), Hj as (g & -> & Hg). f_equal. by apply (NoDup_fmap_eq id fs).
Qed.

#[local] Instance locator_le_total : Total locator_le.
Proof. intros a b. apply ole_total. Qed.
#[local] Instance locator_le_trans : Transitive locator_le.
Proof. intros a b c. apply ole_trans. Qed.

Lemma sorted_strictly l : StronglySorted locator_le l → NoDup l → StronglySorted olt l.
Proof.
  induction 1 as [|x l Hs IH Hx]; intros Hnd; [constructor|]. apply NoDup_cons in Hnd as [Hn Hnd].
  constructor; [by apply IH|]. rewrite Forall_forall in Hx |- *. intros y Hy. destruct (proj1 (ole_iff x y) (Hx y Hy)) as [?| ->]; done.
Qed.

Section edits.
Context (s : BufferSnapshot) (l : slice_entries) (fs : list Fragment).
Context (Hslices : becomes l (insertion_slices s)) (Hlow : low (insertion_slices s)) (Hlowi : low (insertions s)).
Context (Hindex : indexed (insertions s) fs) (Hids : NoDup (id <$> fs)) (Hflen : Forall (λ f, 0 < flen f) fs).
Context (Hcovered : Forall (covered l) fs) (Hstamped : ∀ x, has_slice x l → 0 < Lamport.value (slice_insertion_id x)).

Theorem fragment_ids_spec edits :
  ∃ ids, fragment_ids_for_edits s edits = Some ids ∧ StronglySorted olt ids ∧ (∀ i, i ∈ ids → i ∈ id <$> fs) ∧
    ∀ e f, e ∈ edits → f ∈ fs → touched e f → id f ∈ ids.
Proof.
  destruct (mapM_total (slices_of_edit s) _ edits (λ e, slices_of_edit_spec s l e Hslices Hlow)) as (xss & Hmap & Hxss).
  pose proof (concat_elem _ _ _ Hxss) as Hx. set (xs := merge_sort slice_le (concat xss)).
  assert (∀ x, x ∈ xs ↔ ∃ e, e ∈ edits ∧ has_slice x l ∧ slice_edit_id x = e) as Hxs.
  { intros x. unfold xs. by rewrite merge_sort_Permutation. }
  pose proof Hindex as ((h & Hwf) & Hs & Ht).
  destruct (collect_slices_spec (insertions s) h Hwf (low_wf _ _ Hlowi Hwf) Hs xs (cursor_new (insertions s)) [] (to_list (insertions s))
    (insertion_key Lamport.MIN 0) []) as (vs & Hcollect & Hsub & _ & Hall).
  - split; [split_and!; [done..|by right]|constructor|by intros i ?%elem_of_nil|by intros i ?%elem_of_nil].
  - apply StronglySorted_merge_sort; apply _.
  - apply Forall_forall. intros x (e & _ & Hl & _)%Hxs. split; [|by apply Hstamped].
    apply (key_le_of Lamport.MIN); [apply Lamport.MIN_le|lia].
  - unfold fragment_ids_for_edits. rewrite Hmap. cbn [mbind option_bind]. fold xs. cbn [fmap list_fmap] in Hcollect.
    rewrite Hcollect. cbn [mbind option_bind]. eexists. split; [done|].
    assert (NoDup (if_fragment_id <$> vs)) as Hnd.
    { eapply sublist_NoDup; [by eapply indexed_ids|by apply fmap_sublist]. }
    split_and!.
    + apply sorted_strictly; [apply StronglySorted_merge_sort; apply _|]. by rewrite merge_sort_Permutation.
    + intros i. rewrite merge_sort_Permutation. intros (j & -> & Hj)%list_elem_of_fmap.
      assert (j ∈ to_list (insertions s)) as Hjt by (by eapply elem_of_sublist).
      apply Ht, list_elem_of_fmap in Hjt as (f & -> & Hf). by apply (list_elem_of_fmap_2 id).
    + intros e f He Hf Htouch. rewrite merge_sort_Permutation. rewrite Forall_forall in Hcovered, Hflen.
      destruct (Hcovered f Hf e Htouch) as (x & Hxl & [C1 C2 C3 C4]).
      change (id f) with (if_fragment_id (insertion_fragment_new f)). apply list_elem_of_fmap_2, (Hall x).
      * apply Hxs. by exists e.
      * apply Ht. by apply list_elem_of_fmap_2.
      * specialize (Hflen f Hf). split; [split; cbn; [done|lia]|cbn; lia].
Qed.
End edits.

Definition buffer_ok (b : Buffer) (ps : list piece) : Prop :=
  snapshot_ok (version (snapshot b)) (snapshot b) ps ∧ observers_ok (subscriptions b) (vis_text ps).

(** The parts that an edit leaves alone. *)
Definition same_but_text (b b' : Buffer) : Prop :=
  history b' = history b ∧ deferred_ops b' = deferred_ops b ∧ deferred_replicas b' = deferred_replicas b ∧
  lamport_clock b' = lamport_clock b ∧ version (snapshot b') = version (snapshot b) ∧
  undo_map (snapshot b') = undo_map (snapshot b) ∧ remote_id (snapshot b') = remote_id (snapshot b) ∧
  snapshot_replica_id (snapshot b') = snapshot_replica_id (snapshot b) ∧
  line_ending (snapshot b') = line_ending (snapshot b).

Lemma publish_ok (t : Topic nat) edits (old new : str) :
  observers_ok t old → transforms edits 0 0 old new → ∃ t', publish t edits = Some t' ∧ observers_ok t' new.
Proof.
  intros [seen Hw] He. destruct (step_tracks (mk_world t old seen) (Publish edits new) Hw He) as (w & Hstep & Hw').
  cbn in Hstep. destruct (publish t edits) as [t'|]; [|done]. injection Hstep as <-. exists t'. split; [done|]. by exists seen.
Qed.

Lemma patch_ok_transforms pa tr : patch_ok pa tr →
  transforms pa 0 0 (view visible (src_bytes tr)) (vis_text (el_piece <$> tr)) ∧ normal pa.
Proof. intros (A & C & gap & Ht & Hn & -> & ->). split; [by apply transforms_trailing|done]. Qed.

(** An operation that nobody has seen is not among the fragments. *)
Lemma fresh_fragments v (ps : list piece) ts : Forall (known v) ps.*1 → Global.observed v ts = false →
  ∀ f, f ∈ ps.*1 → timestamp f ≠ ts ∧ ts ∉ deletions f.
Proof.
  intros Hk Hts f Hf. rewrite Forall_forall in Hk. destruct (Hk f Hf) as (_ & H1 & H2). split; [congruence|].
  intros Hin. rewrite Forall_forall in H2. specialize (H2 ts Hin). cbn in H2. congruence.
Qed.

Lemma fresh_pieces v s ps ts : snapshot_ok v s ps → Global.observed v ts = false → Forall (piece_ok ts) ps.
Proof.
  intros Hs Hts. apply Forall_forall. intros p Hp. pose proof (ok_sized _ _ _ Hs) as H1. pose proof (ok_located _ _ _ Hs) as H2.
  rewrite Forall_forall in H1, H2. split_and!; [by apply H1|by apply H2|].
  eapply fresh_fragments; [apply Hs|done|by apply list_elem_of_fmap_2].
Qed.

Lemma commit_ok {D} `{!Dimension D FragmentSummary} b ps ts tr (st : editing D) fragments vis del :
  let v := version (snapshot b) in
  buffer_ok b ps → roomy (snapshot b) ps → Global.observed v ts = false →
  finished ts ps tr st fragments vis del →
  ∃ b', commit_edit b (st, fragments, vis, del) = Some b' ∧ same_but_text b b' ∧
    snapshot_ok (Global.observe v ts) (snapshot b') (el_piece <$> tr) ∧
    observers_ok (subscriptions b') (vis_text (el_piece <$> tr)).
Proof.
  intros v [Hs Hobs] Hroomy Hts [Htr Hsrc Hf Hvis Hdel Hins Hsl Hp].
  destruct (patch_ok_transforms _ _ Hp) as [Htrans _]. rewrite Hsrc, view_visible in Htrans.
  pose proof (fresh_fragments _ _ _ (ok_known _ _ _ Hs) Hts) as Hfresh.
  assert (NoDup (fragment_key <$> ps.*1)) as Hkeys by (apply keys_NoDup; [apply Hs|apply sized_flen, Hs]).
  destruct (indexed_edit ts ps tr Htr (insertions (snapshot b)) Hkeys) as (ins & old & He & Hindex);
    [apply Hs|apply Hroomy|].
  destruct (ok_slices _ _ _ Hs) as (l & Hbl & Hcov & Hseen).
  destruct (slices_extend ts ps tr Htr _ l Hbl) as (sls & l' & Hext & Hbl' & Hcov' & Hids);
    [apply Hroomy|done|done|intros x Hx E; destruct (Hseen x Hx); unfold v in Hts; congruence|].
  destruct (publish_ok _ _ _ _ Hobs Htrans) as (t' & Hpub & Hobs').
  destruct (ok_undos _ _ _ Hs) as (hu & lu & Hwu & Hlu & Hsu & Hru).
  assert (undo_map_of (undo_map (snapshot b)) lu) as Hum.
  { exists hu. split_and!; try done. by apply (low_wf hu (undo_map (snapshot b))); [apply Hroomy|]. }
  assert (∀ x, Global.observed v x = true → Global.observed (Global.observe v ts) x = true) as Hmono.
  { intros x. rewrite !Global.observed_iff, Global.get_observe. case_decide; lia. }
  assert (Forall (known (Global.observe v ts)) (el_fragment <$> tr)) as Hknown.
  { eapply traced_known; [done| |apply Hs]. apply not_true_iff_false in Hts. rewrite Global.observed_iff in Hts. lia. }
  unfold commit_edit. rewrite Hins, He. cbn [mbind option_bind]. rewrite Hpub. cbn [mbind option_bind].
  rewrite Hsl, Hext. cbn [mbind option_bind]. eexists. split; [done|]. split; [by split_and!|]. split; [|exact Hobs'].
  split; cbn -[fmap]; try done.
  - by rewrite el_fragments.
  - by apply (traced_sized ts ps).
  - by apply (traced_located ts ps).
  - by apply (traced_ids ts ps).
  - rewrite el_fragments. by apply (traced_order ts ps).
  - by rewrite el_fragments.
  - exists l'. rewrite el_fragments. split_and!; [done..|]. intros x Hx.
    destruct (Hids x Hx) as [Hx'|(-> & e & Hetr & ->)].
    + destruct (Hseen x Hx'). split; [by apply Hmono|done].
    + split; [apply Global.observed_observe|]. rewrite Forall_fmap, Forall_forall in Hknown. by destruct (Hknown e Hetr).
  - exists hu, lu. split_and!; try done. intros e u n Hr. destruct (Hru e u n Hr). auto.
  - eapply traced_flags; [done..| |apply Hs]. apply not_undone. intros e' u n Hr ->.
    destruct (Hru _ _ _ Hr) as [E _]. unfold v in *. congruence.
  - by rewrite el_fragments.
  - rewrite el_fragments. apply (traced_tiled ts ps); [done|done|apply Hs| |intros g Hg; by apply Hfresh].
    eapply Forall_impl; [apply (ok_sized _ _ _ Hs)|]. by intros p [? _].
  - rewrite el_fragments. apply (traced_undos ts ps); [done| |apply Hs]. rewrite Hlu. intros e u n Hr ->.
    destruct (Hru _ _ _ Hr) as [E _]. unfold v in *. congruence.
Qed.

(** ** Local edits *)

Definition floor_range (t : str) (r : Range N) : Range N :=
  mk_range (str_floor_char_boundary t (Patch.start r)) (str_floor_char_boundary t (Patch.end_ r)).

(** The edits as they are carried out: between characters, and with Unix line endings. *)
Definition normalized (t : str) (edits : edits_of) : edits_of :=
  (λ '(range, text), (floor_range t range, normalize text)) <$> edits.

(** Ranges in order within a text of [n] bytes, from [o] on. *)
Fixpoint ordered (n o : N) (edits : edits_of) : Prop :=
  match edits with
  | [] => True
  | (range, text) :: edits =>
      o ≤ Patch.start range ≤ Patch.end_ range ∧ Patch.end_ range ≤ n ∧ utf8 text ∧
      ordered n (Patch.end_ range) edits
  end.

Lemma floor_mono t i j : i ≤ j → str_floor_char_boundary t i ≤ str_floor_char_boundary t j.
Proof.
  intros Hij. destruct (floor_spec t i) as (Hi & Hbi & _). destruct (floor_spec t j) as (Hj & _ & Hmax).
  destruct (N.le_gt_cases (str_floor_char_boundary t i) (str_floor_char_boundary t j)) as [|Hgt]; [done|].
  rewrite Hmax in Hbi; [done|lia].
Qed.

Lemma normalized_ok ps edits : ∀ o,
  ordered (len (vis_text ps)) o edits → edits_ok ps (str_floor_char_boundary (vis_text ps) o) (normalized (vis_text ps) edits).
Proof.
  induction edits as [|[range text] edits IH]; intros o Hok; [done|].
  destruct Hok as ([Ho Hse] & He & Hu & Hok). cbn [normalized fmap list_fmap edits_ok floor_range Patch.start Patch.end_].
  destruct (floor_spec (vis_text ps) (Patch.start range)) as (_ & Hb1 & _).
  destruct (floor_spec (vis_text ps) (Patch.end_ range)) as (He2 & Hb2 & _).
  split_and!; [by apply floor_mono|by apply floor_mono| | | |by apply normalize_utf8|by apply IH].
  - rewrite base_visible. lia.
  - unfold aligned. by rewrite view_visible.
  - unfold aligned. by rewrite view_visible.
Qed.

Lemma to_offset_spec s t o : rope_inv (visible_text s) t → len t < 2 ^ 32 → o ≤ len t →
  to_offset s o = str_floor_char_boundary t o.
Proof.
  intros [Hr _] Hlen Ho. unfold to_offset. rewrite (rope_is_char_boundary_spec _ _ _ Hr) by lia.
  rewrite (rope_floor_char_boundary_spec _ _ _ Hr) by lia.
  destruct (str_is_char_boundary t o) eqn:Hb; [|done]. symmetry. apply floor_unique; [lia|done|lia].
Qed.

Lemma normalized_eq s t edits : ∀ o, rope_inv (visible_text s) t → len t < 2 ^ 32 → ordered (len t) o edits →
  (λ '(range, new_text), (range_to_offset s range, normalize new_text)) <$> edits = normalized t edits.
Proof.
  induction edits as [|[range text] edits IH]; intros o Hr Hlen Hok; [done|].
  destruct Hok as ([Ho Hse] & He & Hu & Hok). cbn [normalized fmap list_fmap]. f_equal; [|by eapply IH].
  unfold range_to_offset, floor_range. by rewrite !(to_offset_spec s t) by (done || lia).
Qed.

(** What comes before the first edit. *)
Lemma performs_prefix counts alive o q kept edits fulls els :
  Forall quiet kept → performs counts alive (o + counted_len counts kept) (q + full_len kept) edits fulls els →
  edits ≠ [] → performs counts alive o q edits fulls (kept ++ els).
Proof.
  intros Hk Hp. inversion Hp as [|o' q' range text edits' fulls' kept' added gone els' Hk' Ha Hg Hs He Hp']; subst; [done|].
  intros _. rewrite (assoc_L (++)).
  assert (full_len (kept ++ kept') = full_len kept + full_len kept') as Hfl by (unfold full_len; by rewrite src_bytes_app, len_app).
  assert (counted_len counts (kept ++ kept') = counted_len counts kept + counted_len counts kept') as Hcl
    by (unfold counted_len; by rewrite src_bytes_app, view_app, len_app).
  replace (q + full_len kept + full_len kept') with (q + full_len (kept ++ kept')) in * by lia.
  constructor; [by apply Forall_app|done|done|lia|done|done].
Qed.

Lemma local_edit_ok b ps ts edits :
  let t := vis_text ps in let v := version (snapshot b) in
  buffer_ok b ps → roomy (snapshot b) ps → Global.observed v ts = false →
  edits ≠ [] → ordered (len t) 0 edits → len (concat (normalized t edits).*2) < U32 →
  ∃ b' op els rest, apply_local_edit b edits ts = Some (b', op) ∧ same_but_text b b' ∧
    snapshot_ok (Global.observe v ts) (snapshot b') (el_piece <$> els ++ rest) ∧
    observers_ok (subscriptions b') (vis_text (el_piece <$> els ++ rest)) ∧
    tracing ts ps [] 0 (els ++ rest) ∧ src_bytes (els ++ rest) = tagged ps ∧
    performs visible visible 0 0 (normalized t edits) (ranges op) els ∧ Forall quiet rest ∧
    Forall (whole visible) (els ++ rest) ∧ edit_timestamp op = ts ∧ edit_version op = v ∧ new_text op = (normalized t edits).*2 ∧
    Forall (λ r, lively ps (Patch.start r) ∧ lively ps (Patch.end_ r)) (ranges op).
Proof.
  intros t v Hok Hroomy Hts Hne Hord Hlen. pose proof Hok as [Hs _].
  destruct (roomy_visible _ _ Hroomy) as (Hrv & Hlv & _). destruct (roomy_deleted _ _ Hroomy) as (_ & Hld & _).
  assert (len (tagged ps) < 2 ^ 63) as Hsize by (rewrite len_tagged; lia).
  pose proof (fresh_pieces _ _ _ _ Hs Hts) as Hps.
  pose proof (local_positions ts ps Hps Hsize) as HP.
  unfold apply_local_edit. rewrite (normalized_eq _ t edits 0 Hrv Hlv Hord).
  pose proof (normalized_ok ps edits 0 Hord) as Hedits. fold t in Hedits.
  destruct (builder_new_spec _ _ _ _ (roomy_visible _ _ Hroomy) (roomy_deleted _ _ Hroomy)) as (cv & cd & -> & -> & Hb).
  cbn [mbind option_bind].
  destruct (normalized t edits) as [|[range text] edits'] eqn:Heq.
  { by destruct edits. }
  cbn [head mbind option_bind].
  destruct (ok_fragments _ _ _ Hs) as (h & Hwf & Hl).
  pose proof Hedits as ([_ Hse] & Hend & _).
  destruct (begin_spec cv cd (fragments (snapshot b)) h (Patch.start range) Hwf) as (st & A & rest0 & els0 & Hst & Hd & Hfs & Hbase & Hq0 & Hn0 & Hstrict);
    [by apply (low_wf h (fragments (snapshot b))); [apply Hroomy|]|done|done|apply Hs|apply Hs|lia|].
  destruct (append_slice _ _ _) as [st0|]; [|done]. cbn [mbind option_bind] in Hst |- *.
  destruct (start_offset local_at st0) as [o|]; [|done]. cbn [mbind option_bind] in Hst |- *. injection Hst as ->.
  destruct (doing_source _ _ _ _ _ Hd) as [Hc0 Hf0].
  destruct (local_edits_spec ts ps Hps Hsize ((range, text) :: edits') st A rest0 0 els0 (base visible A) Hd)
    as (st1 & A1 & rest1 & k1 & els & fulls & -> & Hd1 & Hfs1 & Hperf & Hlive); [done|lia| |lia|by eapply strictly_near, Hbase|].
  { destruct Hedits as (_ & Hedits). split; [lia|done]. }
  cbn [mbind option_bind].
  destruct (finish_spec st1 A1 rest1 k1 _ Hd1 Hfs1) as (st2 & els2 & frs & vt & dt & -> & Hq2 & Hfin & Hwhole).
  cbn [mbind option_bind].
  destruct (commit_ok b ps ts _ st2 frs vt dt Hok Hroomy Hts Hfin) as (b' & -> & Hsame & Hsnap & Hobs).
  cbn [mbind option_bind]. eexists b', _, (els0 ++ els), els2. split; [done|].
  split_and!; try done; [apply Hfin|apply Hfin|].
  apply performs_prefix; [done| |done]. unfold counted_len, full_len. rewrite Hc0, !N.add_0_l, N.add_0_r. done.
Qed.
