(* ===== verification/BufferUndo.v ===== *)
(** * BufferUndo: what [undo] and [redo] do

    [apply_undo] of [crates/text/src/text.rs] turns the fragments of some edits: each is as
    visible as the recorded counts say, and nothing else changes. *)

From Stdlib Require Import Sorted.
From S2P Require Import Prelude Clock Locator UndoMap OperationQueue Patch Subscription History Bits Utf8.
From S2P Require Import LineEnding PatchFacts TextSummary Chunk ChunkFacts Rope RopeFacts RopeConvert RopeEdit.
From S2P Require Import RopeSlice Keyed TreeMap TreeMapFacts SumTree SumTreeSpec SumTreeFind Cursor CursorSpec.
From S2P Require Import CursorFacts Fragment RopeBuilder Buffer BufferFacts BufferSteps BufferLocal BufferSeen.
From S2P Require Import BufferInv BufferCommit.
#[local] Open Scope N_scope.

(** ** Positions by locator *)

Abbreviation undo_position := (option Locator.t * N)%type.

Lemma undo_pos (l : list piece) : Forall sized l →
  pos (D:=undo_position) dim_zero l.*1 = ((id ∘ fst) <$> last l, len (vis_text l)).
Proof.
  induction l as [|p l IH] using rev_ind; intros Hl; [done|]. apply Forall_app in Hl as [Hl Hp].
  rewrite fmap_app. change ([p].*1) with [p.1]. rewrite (pos_snoc (D:=undo_position)), (IH Hl), last_snoc, vis_text_app, len_app, vis_text_singleton.
  rewrite Forall_singleton in Hp. destruct Hp as (Hlen & _). unfold dim_add; cbn. rewrite item_max_id, item_fs_text. unfold fragment_text, vis.
  destruct (visible p.1); cbn; by rewrite ?Hlen.
Qed.

Definition seek_id (i : Locator.t) : SeekTarget undo_position := seek_fst (seek_key (Some i)).

Lemma ends_ids (d : undo_position) (fs : list Fragment) : fst <$> ends d fs = (Some ∘ id) <$> fs.
Proof.
  revert d. induction fs as [|f fs IH]; intros d; [done|]. cbn [ends fmap list_fmap]. rewrite IH.
  unfold dim_add at 1; cbn. by rewrite item_max_id.
Qed.

Lemma seek_id_ascending i d (fs : list Fragment) : StronglySorted olt (id <$> fs) → ascending (seek_id i) d fs.
Proof.
  intros Hs. unfold ascending. pose proof (ends_ids d fs) as He. revert He. generalize (ends d fs) as es. 
  induction fs as [|f fs IH]; intros [|e es] He; try done; [constructor|]. injection He as He1 He2. change (fst <$> es = (Some ∘ id) <$> fs) in He2.
  apply StronglySorted_inv in Hs as [Hs Hf]. constructor; [by apply IH|]. apply Forall_forall. intros e' He'.
  assert (e'.1 ∈ (Some ∘ id) <$> fs) as Hin by (rewrite <- He2; by apply list_elem_of_fmap_2).
  apply list_elem_of_fmap in Hin as (g & Hg & Hgin). rewrite Forall_forall in Hf. specialize (Hf (id g) (list_elem_of_fmap_2 id _ _ Hgin)).
  unfold seek_id, seek_fst, seek_key. rewrite He1, Hg. cbn. change (cmp (Some i) (Some ?x)) with (cmp i x).
  destruct (cmp i (id f)) eqn:E1, (cmp i (id g)) eqn:E2; cbn; try lia; exfalso.
  - apply cmp_eq_iff in E1 as ->. unfold olt in Hf. congruence.
  - apply cmp_eq_iff in E2 as ->. by apply (olt_irrefl (id f)), olt_trans with (id g).
  - apply cmp_gt_lt in E2. apply (olt_irrefl (id g)). apply olt_trans with i; [done|]. by apply olt_trans with (id f).
Qed.

(** A seek to the identifier of a fragment stops before it. *)
Lemma split_id i (rest : list piece) : ∀ d : undo_position, StronglySorted olt (id <$> rest.*1) → i ∈ id <$> rest.*1 →
  ∃ sk p B, rest = sk ++ p :: B ∧ id p.1 = i ∧ split_at (seek_enter (seek_id i) Left) d rest.*1 = (sk.*1, p.1 :: B.*1).
Proof.
  induction rest as [|q rest IH]; intros d Hs Hi; [by apply elem_of_nil in Hi|]. cbn in Hs, Hi.
  apply StronglySorted_inv in Hs as [Hs Hq].
  assert (seek_enter (seek_id i) Left d (item_summary q.1) = negb (skips (cmp i (id q.1)) Left)) as He.
  { unfold seek_enter, seek_id, seek_fst, seek_key, dim_add; cbn. by rewrite item_max_id. }
  rewrite fmap_cons. cbn [split_at]. rewrite He. apply elem_of_cons in Hi as [->|Hi].
  - rewrite cmp_refl. by exists [], q, rest.
  - rewrite Forall_forall in Hq. pose proof (Hq i Hi) as Hlt. apply cmp_gt_lt in Hlt. rewrite Hlt. cbn [skips negb].
    destruct (IH (dim_add d (item_summary q.1)) Hs Hi) as (sk & p & B & -> & <- & E). exists (q :: sk), p, B.
    split_and!; [done|done|]. by rewrite E.
Qed.

(** ** The loop *)

Section undoing.
Context (ts : Lamport.t) (ps : list piece) (Hsized : Forall sized ps) (Hsorted : StronglySorted olt (id <$> ps.*1)).
Context (t : Fragments) (h : nat) (Hwf : wf h t) (Hlow : (h < 16)%nat) (Ht : to_list t = ps.*1).
Context (undos : UndoMap) (log : list UndoMapEntry) (Hlog : undo_map_of undos log) (ids : list Locator.t).
Implicit Types (st : undo_editing) (A B rest : list piece) (todo : list Locator.t) (p : piece).

(** A fragment as the counts say. *)
Definition toggled (f : Fragment) : Fragment :=
  mk_fragment (id f) (timestamp f) (insertion_offset f) (flen f) (shown_under log f) (deletions f)
    (Global.observe (max_undos f) ts).

Definition turned (p : piece) : el := mk_el (Kept p.1) (toggled p.1) p.2.
Definition turn (p : piece) : el := if decide (id p.1 ∈ ids) then turned p else keep p.

Record undoing st A rest todo : Prop := {
  un_held : ∃ c0, holding ts (with_cursor st c0) A rest 0 (turn <$> A) ∧
    (old_fragments st = c0 ∨ old_fragments st = cursor_new t ∧ A = []);
  un_patch : patch_ok (edits_patch st) (turn <$> A);
  un_split : ps = A ++ rest;
  un_sorted : StronglySorted olt todo;
  un_todo i : i ∈ todo → i ∈ ids ∧ i ∈ id <$> rest.*1;
  un_left i : i ∈ ids → i ∈ id <$> rest.*1 → i ∈ todo
}.

Lemma turned_sized p : sized p → sized (el_piece (turned p)).
Proof. intros (? & ? & ? & ? & ?). split_and!; cbn; try done. by apply Global.canonical_observe. Qed.

Lemma turn_keep A : (∀ p, p ∈ A → id p.1 ∉ ids) → turn <$> A = keep <$> A.
Proof.
  intros Hn. apply list_fmap_ext. intros j p Hp. unfold turn. rewrite decide_False; [done|]. apply Hn. by eapply list_elem_of_lookup_2.
Qed.

Lemma turn_old_len st A rest tr : holding ts st A rest 0 tr → old_len tr = len (vis_text A).
Proof.
  intros Hh. unfold old_len. by rewrite (held_source _ _ _ _ _ _ Hh), tagged_app, consumed_0, app_nil_r, view_visible.
Qed.

Lemma undo_target A B p : ps = A ++ B → p ∈ B → seek_id (id p.1) (pos dim_zero A.*1) ≠ Lt.
Proof.
  intros Hps Hp. pose proof Hsized as Hsz. pose proof Hsorted as Hs. rewrite Hps in Hsz, Hs. apply Forall_app in Hsz as [Hsz _].
  rewrite (undo_pos A Hsz). destruct (last A) as [q|] eqn:Hq; [|done]. apply last_Some in Hq as [A' ->].
  change (cmp (id p.1) (id q.1) ≠ Lt). rewrite !fmap_app in Hs. apply StronglySorted_app in Hs as (Hlt & _ & _). intros E.
  apply (olt_irrefl (id p.1)), (olt_trans _ (id q.1)); [done|]. apply Hlt.
  - apply elem_of_app. right. by left.
  - by apply list_elem_of_fmap_2, list_elem_of_fmap_2.
Qed.

(** The position of a cursor that slices. *)
Lemma undo_slice st A rest i todo : undoing st A rest (i :: todo) →
  ∃ sk p B st', rest = sk ++ p :: B ∧ id p.1 = i ∧ append_slice st (seek_id i) Left = Some st' ∧
    holding ts st' (A ++ sk) (p :: B) 0 (turn <$> A ++ sk) ∧ patch_ok (edits_patch st') (turn <$> A ++ sk).
Proof.
  intros [(c0 & Hh & Hc) Hp Hps Hs Htodo Hleft].
  assert (StronglySorted olt (id <$> rest.*1)) as Hrest.
  { rewrite Hps, !fmap_app in Hsorted. by apply StronglySorted_app in Hsorted as (_ & _ & ?). }
  destruct (split_id i rest (pos dim_zero A.*1) Hrest) as (sk & p & B & -> & Hi & Hsplit); [apply Htodo; by left|].
  assert (∃ c u hu, Cursor.slice (seek_id i) Left (old_fragments st) = Some (c, u) ∧ cursor_tree c = cursor_tree (old_fragments st) ∧
    cursor_at c (A ++ sk).*1 (p :: B).*1 ∧ wf hu u ∧ to_list u = sk.*1) as (c & u & hu & Hsl & Htree & Hcat & Hu & Hul).
  { assert (seek_id i (pos dim_zero A.*1) ≠ Lt) as Hlt.
    { rewrite <- Hi. eapply undo_target; [exact Hps|]. apply elem_of_app. right. by left. }
    destruct Hc as [Hc|[Hc ->]].
    - pose proof (held_cursor _ _ _ _ _ _ Hh) as Hat. cbn in Hat. rewrite <- Hc in Hat.
      destruct (slice_at (seek_id i) Left _ _ _ Hat Hlt) as (sk' & r' & c & u & hu & E & ?); [by apply seek_id_ascending|].
      rewrite E in Hsplit. injection Hsplit as -> ->. exists c, u, hu. by rewrite fmap_app.
    - rewrite Hc. cbn in Hps. destruct (slice_new (seek_id i) Left h t Hwf Hlow Hlt) as (sk' & r' & c & u & hu & E & ?).
      { apply seek_id_ascending. by rewrite Ht. }
      rewrite Ht, Hps in E. cbn [fmap list_fmap pos foldl] in Hsplit. rewrite E in Hsplit. injection Hsplit as -> ->. by exists c, u, hu. }
  pose proof Hsized as Hsz. rewrite Hps in Hsz. apply Forall_app in Hsz as [_ Hsz].
  destruct (append_slice_held ts st c0 A (sk ++ p :: B) (turn <$> A) (seek_id i) Left sk (p :: B) c u hu) as (st' & Hst & Hh' & _ & Hpatch & _); try done.
  assert (turn <$> sk = keep <$> sk) as Hsk.
  { apply turn_keep. intros q Hq Hin. rewrite !fmap_app in Hrest. apply StronglySorted_app in Hrest as (Hlt & _ & _).
    assert (id q.1 ≺ id p.1) as Hqp by (apply Hlt; [by apply list_elem_of_fmap_2, list_elem_of_fmap_2|by left]).
    apply StronglySorted_inv in Hs as [_ Hs]. rewrite Forall_forall in Hs.
    assert (id q.1 ∈ i :: todo) as [E|Hq']%elem_of_cons.
    - apply Hleft; [done|]. apply list_elem_of_fmap_2, list_elem_of_fmap_2, elem_of_app. by left.
    - rewrite E, Hi in Hqp. by apply olt_irrefl in Hqp.
    - apply (olt_irrefl (id q.1)), (olt_trans _ i); [by rewrite <- Hi|by apply Hs]. }
  exists sk, p, B, st'. rewrite fmap_app, Hsk. split_and!; try done. rewrite Hpatch. apply patch_ok_same; [done|].
  by rewrite src_bytes_keep, keep_pieces, view_visible.
Qed.

(** The patch of a fragment that is turned. *)
Lemma turned_patch pa tr p : patch_ok pa tr → flen p.1 = len p.2 →
  patch_ok (let old_start := old_len tr in let new_start := new_len tr in
    if visible p.1 && negb (shown_under log p.1) then Patch.push pa (patch_edit old_start (old_start + flen p.1) new_start new_start)
    else if negb (visible p.1) && shown_under log p.1 then Patch.push pa (patch_edit old_start old_start new_start (new_start + flen p.1))
    else pa) (tr ++ [turned p]).
Proof.
  intros Hp Hlen. cbn zeta. rewrite Hlen.
  assert (old_len (tr ++ [turned p]) = old_len tr + (if visible p.1 then len p.2 else 0)) as Ho.
  { unfold old_len. rewrite src_bytes_app, view_app, len_app, view_el. cbn. by destruct (visible p.1). }
  assert (new_len (tr ++ [turned p]) = new_len tr + (if shown_under log p.1 then len p.2 else 0)) as Hn.
  { unfold new_len. rewrite fmap_app, vis_text_app, len_app. cbn [fmap list_fmap]. rewrite vis_text_singleton.
    unfold vis; cbn. by destruct (shown_under log p.1). }
  destruct (visible p.1) eqn:Hv, (shown_under log p.1) eqn:Hs; cbn [andb negb].
  - apply patch_ok_same; [done|]. rewrite view_el. cbn [fmap list_fmap]. rewrite vis_text_singleton. unfold vis; cbn. by rewrite Hv, Hs.
  - pose proof (patch_ok_push pa tr [turned p] Hp) as H. rewrite Ho, Hn, N.add_0_r in H. exact H.
  - pose proof (patch_ok_push pa tr [turned p] Hp) as H. rewrite Ho, Hn, N.add_0_r in H. exact H.
  - apply patch_ok_same; [done|]. rewrite view_el. cbn [fmap list_fmap]. rewrite vis_text_singleton. unfold vis; cbn. by rewrite Hv, Hs.
Qed.

Lemma undo_start st A p B tr : ps = A ++ p :: B → holding ts st A (p :: B) 0 tr → (Cursor.start (old_fragments st)).2 = old_len tr.
Proof.
  intros Hps Hh. unfold Cursor.start. rewrite (turn_old_len _ _ _ _ Hh), (at_position _ _ _ (held_cursor _ _ _ _ _ _ Hh)).
  pose proof Hsized as Hsz. rewrite Hps in Hsz. apply Forall_app in Hsz as [Hsz _]. by rewrite (undo_pos A Hsz).
Qed.

(** Identifiers around a fragment. *)
Lemma undo_order A p B : ps = A ++ p :: B →
  (∀ j, j ∈ id <$> A.*1 → j ≺ id p.1) ∧ (∀ j, j ∈ id <$> B.*1 → id p.1 ≺ j).
Proof.
  intros Hps. pose proof Hsorted as Hs. rewrite Hps, !fmap_app in Hs. apply StronglySorted_app in Hs as (Hlt & _ & Hs).
  apply StronglySorted_inv in Hs as [_ Hs]. rewrite Forall_forall in Hs. split; [|done]. intros j Hj. apply Hlt; [done|by left].
Qed.

Lemma undo_step_spec st A rest i todo : undoing st A rest (i :: todo) →
  ∃ st' A' rest', undo_step undos ts st i = Some st' ∧ undoing st' A' rest' todo.
Proof.
  intros Hun. destruct (undo_slice _ _ _ _ _ Hun) as (sk & p & B & st1 & -> & Hi & Happ & Hh & Hpatch).
  destruct Hun as [_ _ Hps Hs Htodo Hleft]. rewrite (assoc_L (++)) in Hps.
  assert (sized p) as Hp. { pose proof Hsized as Hsz. rewrite Hps in Hsz. apply Forall_app in Hsz as [_ Hsz]. by apply Forall_cons in Hsz as [? _]. }
  destruct (undo_order _ _ _ Hps) as [Hbefore Hafter].
  unfold undo_step. unfold seek_id in Happ. rewrite Happ. cbn [mbind option_bind].
  rewrite (item_held _ _ _ _ _ _ Hh). cbn [mbind option_bind head fmap option_fmap option_map].
  rewrite (is_visible_eq _ _ _ Hlog). cbn [mbind option_bind].
  rewrite (undo_start _ _ _ _ _ Hps Hh), (new_visible_len_held _ _ _ _ _ _ Hh).
  match goal with |- context [push_kept ?x _ _] => set (st2 := x) end.
  destruct (push_kept_held ts st1 st2 (A ++ sk) p B 0 (flen p.1) (turn <$> A ++ sk) (turned p)) as (st3 & Hpush & Hh3 & Hsame); try done.
  - split; unfold st2; cbn; repeat case_match; cbn; by rewrite ?app_nil_r.
  - by apply turned_sized.
  - destruct Hp as (<- & _). lia.
  - cbn. destruct Hp as (Hlen & _). rewrite ?Hlen. by rewrite ldrop_0, ltake_ge.
  - cbn [turned el_fragment toggled] in Hpush. unfold toggled in Hpush. rewrite Hpush. cbn [mbind option_bind].
    rewrite N.add_0_l in Hh3.
    destruct (advance_held ts st3 (A ++ sk) p B _ Hh3 Hp) as (st4 & Hadv & Hh4 & Hsame4). rewrite Hadv.
    assert (turn p = turned p) as Et. { unfold turn. rewrite decide_True; [done|]. rewrite Hi. by apply Htodo; left. }
    exists st4, ((A ++ sk) ++ [p]), B. split; [done|]. 
    assert (turn <$> (A ++ sk) ++ [p] = (turn <$> A ++ sk) ++ [turned p]) as Ew by (rewrite fmap_app; cbn; by rewrite Et).
    split.
    + exists (old_fragments st4). rewrite Ew. split; [by destruct st4|by left].
    + rewrite Ew. destruct Hsame4 as (_ & -> & _), Hsame as (_ & -> & _). unfold st2. destruct Hp as (Hlen & _).
      pose proof (turned_patch _ _ p Hpatch Hlen) as H. cbn zeta in H |- *.
      destruct (visible p.1), (shown_under log p.1); exact H.
    + by rewrite <- (assoc_L (++)).
    + by apply StronglySorted_inv in Hs as [? _].
    + intros j Hj. destruct (Htodo j ltac:(by right)) as [Hjids Hj']. split; [done|].
      apply StronglySorted_inv in Hs as [_ Hs]. rewrite Forall_forall in Hs. pose proof (Hs j Hj) as Hij. cbn in Hij.
      rewrite !fmap_app in Hj'. apply elem_of_app in Hj' as [Hj'|[->|Hj']%elem_of_cons]; [exfalso|exfalso|done].
      * apply (olt_irrefl j), (olt_trans _ i); [|done]. rewrite <- Hi. apply Hbefore. rewrite !fmap_app. apply elem_of_app. by right.
      * rewrite Hi in Hij. by apply olt_irrefl in Hij.
    + intros j Hj HjB. assert (j ∈ i :: todo) as [->|?]%elem_of_cons; [|exfalso|done].
      * apply Hleft; [done|]. rewrite !fmap_app. apply elem_of_app. right. by right.
      * apply Hafter in HjB. rewrite Hi in HjB. by apply olt_irrefl in HjB.
Qed.

Lemma undo_steps_spec todo : ∀ st A rest, undoing st A rest todo →
  ∃ st' A' rest', undo_steps undos ts st todo = Some st' ∧ undoing st' A' rest' [].
Proof.
  induction todo as [|i todo IH]; intros st A rest Hun; [by exists st, A, rest|].
  destruct (undo_step_spec _ _ _ _ _ Hun) as (st1 & A1 & rest1 & E & Hun1). cbn [undo_steps]. rewrite E. cbn [mbind option_bind].
  by eapply IH.
Qed.

Lemma undoing_start cv cd : builds (builder_new cv cd) (vis_text ps) (del_text ps) [] [] →
  StronglySorted olt ids → (∀ i, i ∈ ids → i ∈ id <$> ps.*1) →
  undoing (mk_editing (cursor_new t) tree_new (builder_new cv cd) [] [] 0 [] 0) [] ps ids.
Proof.
  intros Hb Hs Hin.
  destruct (next_start (cursor_new t : Cursor Fragment FragmentSummary undo_position) (cursor_new_start _ _ Hwf Hlow)) as (c0 & _ & _ & Hc0).
  cbn [cursor_tree cursor_new] in Hc0. rewrite Ht in Hc0. split; [|apply patch_ok_nil|done..|intros i Hi; split; auto|auto].
  exists c0. split; [|by right]. split; try done; cbn.
  - exists 0%nat. split; [apply wf_new|done].
  - by rewrite rest_pieces_0.
  - by rewrite consumed_0.
Qed.

Lemma undo_finish st A rest : undoing st A rest [] →
  ∃ fragments hf v d, 
    ('(_, suffix) ← Cursor.suffix (old_fragments st);
     ropes ← builder_append (new_ropes st) (fs_text (tree_summary suffix));
     fragments ← append (new_fragments st) suffix;
     '(v, d) ← builder_finish ropes;
     Some (fragments, v, d)) = Some (fragments, v, d) ∧
    wf hf fragments ∧ to_list fragments = el_fragment <$> (turn <$> ps) ∧
    rope_inv v (vis_text (el_piece <$> (turn <$> ps))) ∧ rope_inv d (del_text (el_piece <$> (turn <$> ps))) ∧
    patch_ok (edits_patch st) (turn <$> ps) ∧ src_bytes (turn <$> ps) = tagged ps.
Proof.
  intros [(c0 & Hh & Hc) Hp Hps _ _ Hleft].
  assert (turn <$> ps = (turn <$> A) ++ (keep <$> rest)) as Hturn.
  { rewrite Hps, fmap_app. f_equal. apply turn_keep. intros q Hq Hin.
    apply (not_elem_of_nil (id q.1)), Hleft; [done|]. by apply list_elem_of_fmap_2, list_elem_of_fmap_2. }
  assert (∃ c u hu, Cursor.slice seek_end Right (old_fragments st) = Some (c, u) ∧ cursor_tree c = cursor_tree (old_fragments st) ∧
    cursor_at c (A ++ rest).*1 [] ∧ wf hu u ∧ to_list u = rest.*1) as (c & u & hu & Hsl & Htree & Hcat & Hu & Hul).
  { destruct Hc as [Hc|[Hc ->]].
    - pose proof (held_cursor _ _ _ _ _ _ Hh) as Hat. cbn in Hat. rewrite <- Hc in Hat.
      destruct (slice_at seek_end Right _ _ _ Hat) as (sk' & r' & c & u & hu & E & ?); [done|apply ascending_end|].
      rewrite split_end in E. injection E as <- <-. exists c, u, hu. by rewrite fmap_app.
    - rewrite Hc. cbn in Hps. destruct (slice_new (D:=undo_position) seek_end Right h t Hwf Hlow) as (sk' & r' & c & u & hu & E & ?); [done|apply ascending_end|].
      rewrite split_end in E. injection E as <- <-. rewrite Ht, Hps in *. by exists c, u, hu. }
  pose proof Hsized as Hsz. rewrite Hps in Hsz. apply Forall_app in Hsz as [_ Hsz].
  destruct (append_slice_held ts st c0 A rest (turn <$> A) seek_end Right rest [] c u hu) as (st' & Hst & Hh' & Hrest); try done.
  { by rewrite app_nil_r. }
  rewrite <- Hturn in Hh'. unfold append_slice in Hst. unfold Cursor.suffix. rewrite Hsl in Hst |- *. cbn [mbind option_bind] in Hst |- *.
  destruct (builder_append _ _) as [ropes|]; [|done]. cbn [mbind option_bind] in Hst |- *.
  destruct (append _ _) as [fs|]; [|done]. cbn [mbind option_bind] in Hst |- *. injection Hst as <-.
  destruct Hh' as [_ (hf & Hwf' & Hl') Hr _ _ Hsrc _]. cbn [new_ropes new_fragments rest_pieces] in *.
  destruct (builder_finish_spec _ _ _ _ _ Hr) as (rv & rd & -> & Hrv & Hrd). cbn [mbind option_bind].
  exists fs, hf, rv, rd. rewrite !app_nil_r in *. split_and!; try done.
  - rewrite Hturn. apply patch_ok_same; [done|]. by rewrite src_bytes_keep, keep_pieces, view_visible.
  - rewrite Hsrc. by rewrite Hps, !tagged_app.
Qed.
End undoing.

(** ** The whole undo *)

(** The piece with the visibility that the counts give it. *)
Definition reshown (log : list UndoMapEntry) (p q : piece) : Prop :=
  ∃ m, q = (mk_fragment (id p.1) (timestamp p.1) (insertion_offset p.1) (flen p.1) (shown_under log p.1) (deletions p.1) m, p.2) ∧
    Global.canonical m.

Lemma reshown_fmap {A} (g : Fragment → A) log (ps qs : list piece) :
  (∀ f b m, g (mk_fragment (id f) (timestamp f) (insertion_offset f) (flen f) b (deletions f) m) = g f) →
  Forall2 (reshown log) ps qs → g <$> qs.*1 = g <$> ps.*1.
Proof. intros Hg. induction 1 as [|p q ps qs (m & -> & _) _ IH]; [done|]. rewrite !fmap_cons, IH. cbn. by rewrite Hg. Qed.

Lemma reshown_Forall log (P Q : piece → Prop) ps qs : (∀ p q, P p → reshown log p q → Q q) →
  Forall2 (reshown log) ps qs → Forall P ps → Forall Q qs.
Proof. intros HP. induction 1 as [|p q ps qs Hpq _ IH]; intros Hps; [constructor|]. apply Forall_cons in Hps as [? ?]. constructor; eauto. Qed.

Lemma reshown_order log ps qs : Forall2 (reshown log) ps qs → StronglySorted follows ps.*1 → StronglySorted follows qs.*1.
Proof.
  induction 1 as [|p q ps qs (m & -> & _) Hqs IH]; intros Hs; [constructor|]. apply StronglySorted_inv in Hs as [Hs Hp].
  constructor; [by apply IH|]. clear IH Hs. induction Hqs as [|p' q' ps qs (m' & -> & _) _ IH]; [constructor|].
  apply Forall_cons in Hp as [Hp' Hp]. constructor; [exact Hp'|by apply IH].
Qed.

Lemma reshown_text log ps qs : Forall2 (reshown log) ps qs →
  vis_text qs = view (shown_under log) (tagged ps).
Proof.
  induction 1 as [|p q ps qs (m & -> & _) _ IH]; [done|].
  change (p :: ps) with ([p] ++ ps). change (?q :: qs) with ([q] ++ qs). 
  rewrite vis_text_app, tagged_app, view_app, IH, tagged_singleton, view_tag, vis_text_singleton. by unfold vis; cbn.
Qed.

(** Counts of other edits do not matter. *)
Lemma undone_ext l l' e : (∀ u n, UndoMap.recorded e u n l ↔ UndoMap.recorded e u n l') → undone l e = undone l' e.
Proof. intros He. unfold undone. f_equal. apply max_count_ext. auto. Qed.

Lemma shown_ext l l' f : (∀ e, e = timestamp f ∨ e ∈ deletions f → undone l e = undone l' e) → shown_under l f = shown_under l' f.
Proof.
  intros He. unfold shown_under. rewrite (He (timestamp f)) by by left. f_equal.
  assert (∀ d, d ∈ deletions f → undone l d = undone l' d) as Hd by auto. clear He.
  induction (deletions f) as [|d ds IH]; [done|]. cbn. rewrite (Hd d) by by left. rewrite IH; [done|]. intros x Hx. apply Hd. by right.
Qed.

Lemma reshown_snapshot v v' s ps log' qs m fs hf vt dt :
  snapshot_ok v s ps → Forall2 (reshown log') ps qs → (∀ x, Global.observed v x = true → Global.observed v' x = true) →
  undo_map_of m log' → (∀ e u n, UndoMap.recorded e u n log' → Global.observed v' e = true ∧ Global.observed v' u = true) →
  wf hf fs → to_list fs = qs.*1 → rope_inv vt (vis_text qs) → rope_inv dt (del_text qs) → Forall (undos_seen log') qs.*1 →
  snapshot_ok v' (mk_snapshot vt dt fs (insertions s) (insertion_slices s) m (version s) (remote_id s) (snapshot_replica_id s) (line_ending s)) qs.
Proof.
  intros Hs Hq Hmono (hm & Hwm & Hhm & Hlm & Hsm) Hlog Hwf Hfs Hvt Hdt Hun.
  assert (undo_map_of m log') as Hm by (by exists hm).
  split; cbn; [by exists hf|done|done|..].
  - eapply reshown_Forall; [|exact Hq|exact (ok_sized _ _ _ Hs)]. intros p q (H1 & H2 & H3 & H4 & _) (mm & -> & Hc). by split_and!.
  - eapply reshown_Forall; [|exact Hq|exact (ok_located _ _ _ Hs)]. by intros p q Hp (mm & -> & _).
  - rewrite (reshown_fmap id log' ps qs); [apply Hs|done|done].
  - eapply reshown_order; [done|apply Hs].
  - destruct (ok_insertions _ _ _ Hs) as (H1 & H2 & H3). split_and!; [done..|]. intros i. rewrite H3.
    by rewrite (reshown_fmap insertion_fragment_new log' ps qs).
  - destruct (ok_slices _ _ _ Hs) as (l & H1 & H2 & H3). exists l. split_and!; [done| |].
    + apply Forall_fmap. rewrite Forall_fmap in H2. eapply reshown_Forall; [|exact Hq|exact H2].
      intros p q Hp (mm & -> & _) e He. destruct (Hp e He) as (x & Hx & [C1 C2 C3 C4]). by exists x.
    + intros x Hx. destruct (H3 x Hx). auto.
  - by exists hm, log'.
  - apply Forall_forall. intros q Hqin. apply list_elem_of_lookup in Hqin as [i Hi].
    destruct (Forall2_lookup_r _ _ _ _ _ Hq Hi) as (p & _ & mm & -> & _).
    by rewrite (is_visible_eq _ _ _ Hm).
  - pose proof (ok_known _ _ _ Hs) as Hk. apply Forall_fmap. rewrite Forall_fmap in Hk. eapply reshown_Forall; [|exact Hq|exact Hk].
    intros p q (H1 & H2 & H3) (mm & -> & _). split_and!; cbn; [done|auto|]. eapply Forall_impl; [exact H3|]. auto.
  - eapply tiled_ext; [|apply Hs]. by rewrite (reshown_fmap (λ f, (timestamp f, insertion_offset f, flen f)) log' ps qs).
  - by rewrite Hlm.
Qed.

(** Who touched the fragments that are turned has been undone by [ts]. *)
Lemma turn_undos ts log log' ids (es : list Lamport.t) (ps : list piece) : Forall (undos_seen log) ps.*1 →
  (∀ e u n, UndoMap.recorded e u n log' → u = ts ∧ e ∈ es ∨ UndoMap.recorded e u n log) →
  (∀ e f, e ∈ es → f ∈ ps.*1 → touched e f → id f ∈ ids) → base_timestamp ∉ es →
  Forall (undos_seen log') (el_piece <$> (turn ts log' ids <$> ps)).*1.
Proof.
  intros Hps Hrec Hall Hbase. rewrite Forall_forall in Hps. rewrite <- !list_fmap_compose. apply Forall_fmap, Forall_forall.
  intros p Hp e u n He Hr. cbn -[touched] in *. assert (p.1 ∈ ps.*1) as Hpf by by apply list_elem_of_fmap_2.
  assert (e = timestamp p.1 ∨ e ∈ deletions p.1) as He' by (unfold turn in He; by case_decide).
  unfold turn. case_decide as Hid; cbn.
  - apply Global.observed_iff. rewrite Global.get_observe. destruct (Hrec e u n Hr) as [[-> _]|Hold].
    + rewrite decide_True by done. lia.
    + specialize (Hps _ Hpf e u n He' Hold). apply Global.observed_iff in Hps. case_decide; lia.
  - destruct (Hrec e u n Hr) as [[-> Hes]|Hold]; [|by apply (Hps _ Hpf e u n)]. destruct Hid. apply (Hall e); [done..|].
    destruct He' as [->|He']; [left|by right]. split; [done|]. by intros E; rewrite E in Hes.
Qed.

Lemma flags_shown v s ps log : snapshot_ok v s ps → undo_map_of (undo_map s) log →
  Forall (λ p, shown_under log p.1 = visible p.1) ps.
Proof.
  intros Hs Hlog. eapply Forall_impl; [apply (ok_flags _ _ _ Hs)|]. intros p Hp. cbn in Hp.
  rewrite (is_visible_eq _ _ _ Hlog) in Hp. by injection Hp.
Qed.

(** The fragments that are not turned are as the counts say already. *)
Lemma turn_reshown ts log log' ids (ps : list piece) : Forall sized ps →
  Forall (λ p, shown_under log p.1 = visible p.1) ps →
  (∀ p, p ∈ ps → id p.1 ∉ ids → shown_under log' p.1 = shown_under log p.1) →
  Forall2 (reshown log') ps (el_piece <$> (turn ts log' ids <$> ps)).
Proof.
  intros Hsz Hshown Hsame. rewrite <- list_fmap_compose. apply Forall2_fmap_r, Forall_Forall2_diag, Forall_forall.
  intros p Hp. rewrite Forall_forall in Hsz, Hshown. specialize (Hsz p Hp). specialize (Hshown p Hp). cbn in Hshown.
  destruct Hsz as (_ & _ & _ & _ & Hc). unfold turn. cbn. case_decide as Hd.
  - eexists. split; [done|]. by apply Global.canonical_observe.
  - exists (max_undos p.1). split; [|done]. rewrite (Hsame p Hp Hd), Hshown. by destruct p as [[] ?].
Qed.

(** From the fragments' identifiers on. *)
Lemma undo_run v s ps m log' ts ids cv cd :
  snapshot_ok v s ps → low (fragments s) → undo_map_of m log' →
  builds (builder_new cv cd) (vis_text ps) (del_text ps) [] [] →
  StronglySorted olt ids → (∀ i, i ∈ ids → i ∈ id <$> ps.*1) →
  let qs := el_piece <$> (turn ts log' ids <$> ps) in
  ∃ st fs hf vt dt,
    undo_steps m ts (mk_editing (cursor_new (fragments s)) tree_new (builder_new cv cd) [] [] 0 [] 0) ids = Some st ∧
    ('(_, suffix) ← Cursor.suffix (old_fragments st);
     ropes ← builder_append (new_ropes st) (fs_text (tree_summary suffix));
     fragments ← append (new_fragments st) suffix;
     '(v, d) ← builder_finish ropes;
     Some (fragments, v, d)) = Some (fs, vt, dt) ∧
    wf hf fs ∧ to_list fs = qs.*1 ∧ rope_inv vt (vis_text qs) ∧ rope_inv dt (del_text qs) ∧
    transforms (edits_patch st) 0 0 (vis_text ps) (vis_text qs).
Proof.
  intros Hs Hlow Hlog' Hb Hsorted Hin qs. destruct (ok_fragments _ _ _ Hs) as (h & Hwf & Hl).
  pose proof (low_wf h (fragments s) Hlow Hwf) as Hh.
  pose proof (undoing_start ts ps (fragments s) h Hwf Hh Hl log' ids cv cd Hb Hsorted Hin) as Hun.
  destruct (undo_steps_spec ts ps (ok_sized _ _ _ Hs) (ok_ids _ _ _ Hs) (fragments s) h Hwf Hh Hl m log' Hlog' ids ids _ _ _ Hun)
    as (st & A & rest & Hst & Hun').
  destruct (undo_finish ts ps (ok_sized _ _ _ Hs) (ok_ids _ _ _ Hs) (fragments s) h Hwf Hh Hl log' ids _ _ _ Hun')
    as (fs & hf & vt & dt & Hfin & Hfs & Hfl & Hvt & Hdt & Hpatch & Hsrc).
  exists st, fs, hf, vt, dt. split_and!; try done.
  - rewrite Hfl. symmetry. apply el_fragments.
  - destruct (patch_ok_transforms _ _ Hpatch) as [H _]. by rewrite Hsrc, view_visible in H.
Qed.

Lemma sorted_NoDup (l : list Locator.t) : StronglySorted olt l → NoDup l.
Proof.
  induction 1 as [|i l Hs IH Hi]; [constructor|]. apply NoDup_cons. split; [|done]. intros Hin. rewrite Forall_forall in Hi.
  by apply (olt_irrefl i), Hi.
Qed.

Lemma apply_undo_ok b ps v log undo :
  let ts := undo_timestamp undo in
  snapshot_ok v (snapshot b) ps → observers_ok (subscriptions b) (vis_text ps) → roomy (snapshot b) ps →
  undo_map_of (undo_map (snapshot b)) log → NoDup (counts undo).*1 → base_timestamp ∉ (counts undo).*1 →
  (∀ e, e ∈ (counts undo).*1 → Global.observed v e = true) →
  (∀ m, UndoMap.insert (undo_map (snapshot b)) undo = Some m → low m) →
  ∃ b' ps' log', apply_undo b undo = Some b' ∧ snapshot_ok (Global.observe v ts) (snapshot b') ps' ∧
    observers_ok (subscriptions b') (vis_text ps') ∧ undo_map_of (undo_map (snapshot b')) log' ∧
    Forall2 (reshown log') ps ps' ∧
    (∀ e u n, UndoMap.recorded e u n log' ↔
      if decide (u = ts ∧ e ∈ (counts undo).*1) then (e, n) ∈ counts undo else UndoMap.recorded e u n log) ∧
    version (snapshot b') = version (snapshot b) ∧ history b' = history b ∧ lamport_clock b' = lamport_clock b ∧
    deferred_ops b' = deferred_ops b ∧ deferred_replicas b' = deferred_replicas b.
Proof.
  intros ts Hs Hobs Hroomy Hlog Hnd Hbase Hseen Hlow.
  destruct (insert_spec _ _ _ Hlog Hnd) as (m & log' & Hm & [hm Hwm] & Hlm & Hsm & Hrec).
  assert (∀ x, Global.observed v x = true → Global.observed (Global.observe v ts) x = true) as Hmono.
  { intros x. rewrite !Global.observed_iff, Global.get_observe. case_decide; lia. }
  assert (undo_map_of m log') as Hlog' by (exists hm; split_and!; try done; by apply (low_wf hm m (Hlow m Hm))).
  unfold apply_undo. rewrite Hm. cbn [mbind option_bind]. 
  destruct (builder_new_spec _ _ _ _ (roomy_visible _ _ Hroomy) (roomy_deleted _ _ Hroomy)) as (cv & cd & Hcv & Hcd & Hb).
  cbn [visible_text deleted_text with_undo_map fragments]. rewrite Hcv. cbn [mbind option_bind]. rewrite Hcd. cbn [mbind option_bind].
  destruct (ok_slices _ _ _ Hs) as (l & Hsl & Hcov & Hstamp).
  pose proof (sorted_NoDup _ (ok_ids _ _ _ Hs)) as Hndids. pose proof (sized_flen _ (ok_sized _ _ _ Hs)) as Hflen.
  destruct (fragment_ids_spec (with_undo_map (snapshot b) m) l ps.*1) with (edits := (counts undo).*1) as (ids & Hids & Hsorted & Hin & Hall);
    try done; [apply Hroomy|apply Hroomy|apply Hs|intros x Hx; by apply Hstamp|].
  rewrite Hids. cbn [mbind option_bind].
  destruct (undo_run v (snapshot b) ps m log' ts ids cv cd Hs (roomy_fragments _ _ Hroomy) Hlog' Hb Hsorted Hin)
    as (st & fs & hf & vt & dt & Hst & Hfin & Hwf & Hfl & Hvt & Hdt & Htrans).
  fold ts. rewrite Hst. cbn [mbind option_bind].
  destruct (Cursor.suffix (old_fragments st)) as [[c u]|]; [|done]. cbn [mbind option_bind] in Hfin |- *.
  destruct (builder_append _ _) as [ropes|]; [|done]. cbn [mbind option_bind] in Hfin |- *.
  destruct (append _ _) as [fs0|]; [|done]. cbn [mbind option_bind] in Hfin |- *.
  destruct (builder_finish ropes) as [[vt0 dt0]|]; [|done]. cbn [mbind option_bind] in Hfin |- *. injection Hfin as -> -> ->.
  destruct (publish_ok _ _ _ _ Hobs Htrans) as (t' & -> & Hobs'). cbn [mbind option_bind].
  assert (Forall2 (reshown log') ps (el_piece <$> (turn ts log' ids <$> ps))) as Hq.
  { apply (turn_reshown ts log); [apply Hs|by apply (flags_shown v (snapshot b))|]. intros p Hp Hid.
    apply shown_ext. intros e He. apply undone_ext. intros u' n. rewrite Hrec. rewrite decide_False; [done|]. intros [-> Hc].
    destruct Hid. apply (Hall e); [done|by apply list_elem_of_fmap_2|]. destruct He as [->|He]; [left|by right]. split; [done|].
    intros E. by rewrite E in Hc. }
  eexists _, _, log'. split; [done|]. split_and!; try done.
  refine (reshown_snapshot v _ (snapshot b) ps log' _ m fs hf vt dt Hs Hq Hmono Hlog' _ Hwf Hfl Hvt Hdt _).
  2:{ apply (turn_undos ts log log' ids (counts undo).*1); [|intros e u' n Hr; rewrite Hrec in Hr; case_decide; tauto|done|done].
      destruct Hlog as (_ & _ & _ & <- & _). apply Hs. }
  intros e u' n Hr. rewrite Hrec in Hr. case_decide as Hd.
  - destruct Hd as [-> Hc]. split; [by apply Hmono, Hseen|apply Global.observed_observe].
  - destruct (ok_undos _ _ _ Hs) as (hu & lu & _ & Hlu & _ & Hru). destruct Hlog as (_ & _ & _ & Hll & _).
    destruct (Hru e u' n) as [H1 H2]; [by rewrite <- Hlu, Hll|]. split; by apply Hmono.
Qed.
