(* ===== verification/BufferRemote.v ===== *)
(** * BufferRemote: a remote edit does what its author saw

    [apply_remote_edit] of [crates/text/src/text.rs]: its ranges are positions in the text that
    its version has observed, deleted parts included, and it removes what was visible
    there.  Each round of its loop extends the trace as [performs] asks. *)

From S2P Require Import Prelude Clock Locator UndoMap OperationQueue Patch Subscription History Bits Utf8.
From S2P Require Import LineEnding PatchFacts TextSummary Chunk ChunkFacts Rope RopeFacts RopeEdit RopeSlice.
From S2P Require Import Keyed TreeMap SumTree SumTreeSpec SumTreeFind Cursor CursorSpec CursorFacts Fragment.
From S2P Require Import RopeBuilder Buffer BufferFacts BufferSteps BufferLocal BufferInv BufferCommit.
From S2P Require Import BufferSeen.
#[local] Open Scope N_scope.

(** ** What was visible *)

Definition undone_at (v : Global.t) (l : list UndoMapEntry) (e : Lamport.t) : bool :=
  N.odd (max_count (λ u, Global.observed v u) e l).
Definition was_alive (v : Global.t) (l : list UndoMapEntry) (f : Fragment) : bool :=
  counted v f && negb (undone_at v l (timestamp f)) &&
  forallb (λ d, negb (Global.observed v d) || undone_at v l d) (deletions f).

Lemma was_visible_eq m l v f : undo_map_of m l → was_visible f v m = Some (was_alive v l f).
Proof.
  intros Hm. unfold was_visible, was_alive, counted.
  assert (∀ e, was_undone m e v = Some (undone_at v l e)) as Hu.
  { intros e. unfold was_undone. by rewrite (count_from_spec _ m l e Hm). }
  rewrite Hu. destruct (Global.observed v (timestamp f)); [|done]. cbn [mbind option_bind andb].
  destruct (undone_at v l (timestamp f)); [done|]. cbn [negb andb].
  apply all_opt_eq. intros d. rewrite Hu. by destruct (Global.observed v d).
Qed.

Lemma alive_counted v l f : was_alive v l f = true → counted v f = true.
Proof. unfold was_alive. by rewrite !andb_true_iff; intros [[? _] _]. Qed.

Section remote.
Context (v : Global.t) (ts : Lamport.t) (ps : list piece) (undos : UndoMap) (log : list UndoMapEntry).
Context (Hps : Forall (piece_ok ts) ps) (Hsize : len (tagged ps) < 2 ^ 63) (Hlog : undo_map_of undos log).
Context (Hstamped : Forall (λ p, 0 < Lamport.value (timestamp p.1)) ps).
(** The author's clock was ahead of what the author had seen. *)
Context (Hcausal : Forall (λ p, counted v p.1 = true → timestamp p.1 ≺ ts) ps).
Implicit Types (st : editing (VersionedFullOffset * N)) (A B rest : list piece) (k n : N) (tr els : list el) (p : piece).

Abbreviation counts := (counted v).
Abbreviation alive := (was_alive v log).
#[local] Instance remote_dim : Dimension (VersionedFullOffset * N) FragmentSummary := remote_dimension v.
Abbreviation doing := (doing ts ps counts).
Abbreviation base := (base counts).
Abbreviation width := (width counts).

Lemma stamped_prefix A rest : ps = A ++ rest → Forall stamped A.*1 ∧ Forall stamped rest.*1.
Proof.
  intros Hall. rewrite <- Forall_app, <- fmap_app, <- Hall. apply Forall_fmap, Forall_forall. intros p Hp. split.
  - rewrite Forall_forall in Hstamped. by apply Hstamped.
  - rewrite Forall_forall in Hps. destruct (Hps p Hp) as (Hs & _). by apply Hs.
Qed.

Lemma prefix_total A rest : ps = A ++ rest → total width A.*1 = base A.
Proof.
  intros Hall. pose proof (prefix_sized ts ps Hps A rest Hall) as Hs. clear -Hs.
  induction A as [|p A IH]; [done|]. apply Forall_cons in Hs as [Hp Hs].
  change (p :: A) with ([p] ++ A). rewrite base_app, base_singleton by done. cbn. by rewrite IH.
Qed.

Lemma remote_prefix A rest : ps = A ++ rest → ∃ n, pos dim_zero A.*1 = (Offset (base A), n).
Proof.
  intros Hall. destruct (stamped_prefix A rest Hall) as [HA _].
  change (dim_zero : VersionedFullOffset * N) with (Offset 0, 0). rewrite (remote_pos v _ HA).
  rewrite (prefix_total _ _ Hall). eexists. done.
Qed.

#[local] Instance remote_positions : Positions ts ps counts remote_at seek_full Left.
Proof.
  split; [..|done|done].
  - intros A rest Hall. by destruct (remote_prefix A rest Hall) as [n ->].
  - intros A rest o Hall. by destruct (remote_prefix A rest Hall) as [n ->].
  - intros A rest o Hall. destruct (stamped_prefix A rest Hall). by apply remote_coherent_items.
Qed.

Lemma remote_jump_eq : remote_jump v = jump remote_at seek_full Left.
Proof. done. Qed.

(** ** Before the insertion *)

(** The cursor is within its fragment, and only within one that was visible. *)
Definition steady (rest : list piece) (k : N) : Prop :=
  match rest with p :: _ => k < flen p.1 ∧ (0 < k → alive p.1 = true) | [] => k = 0 end.
Definition head_width (rest : list piece) : N := match rest with p :: _ => width p.1 | [] => 0 end.

Lemma steady_0 st A rest tr : doing st A rest 0 tr → steady rest 0.
Proof.
  intros Hd. destruct rest as [|p B]; [done|]. destruct (doing_piece _ _ _ _ _ _ Hd) as (Hs & _).
  split; [by apply sized_pos|lia].
Qed.

(** [remote_step_over] *)
Lemma remote_step_over_spec st A rest k tr o :
  doing st A rest k tr → fragment_start st = base A + k → steady rest k → base A + k ≤ o ≤ base A + head_width rest →
  ∃ st' A' rest' k' els, remote_step_over v st o = Some st' ∧ doing st' A' rest' k' (tr ++ els) ∧ Forall quiet els ∧
    fragment_start st' = base A' + k' ∧ steady rest' k' ∧ next_offset st' = next_offset st ∧
    (o = base A' + k' ∨ base A' + k' < o < base A' + head_width rest').
Proof.
  intros Hd Hfs Hst Ho. unfold remote_step_over. change (remote_dimension v) with remote_dim. rewrite (doing_end _ _ _ _ _ Hd). cbn [mbind option_bind].
  fold (head_width rest). rewrite Hfs. destruct (_ && _) eqn:E.
  2:{ exists st, A, rest, k, []. rewrite app_nil_r. split_and!; try done.
      destruct (N.eqb_spec (base A + head_width rest) o), (N.ltb_spec (base A + k) (base A + head_width rest)); try done; lia. }
  apply andb_true_iff in E as [<-%N.eqb_eq E%N.ltb_lt]. destruct rest as [|p B]; [cbn in *; lia|]. cbn [head_width] in *.
  rewrite (current_held _ _ _ _ _ _ _ (do_held _ _ _ _ _ Hd)), (doing_start _ _ _ _ _ Hd). cbn [mbind option_bind].
  destruct (doing_piece _ _ _ _ _ _ Hd) as (Hs & Hkf & Hkw & Hb).
  assert (counts p.1 = true) as Hc by (unfold BufferSteps.width in *; destruct (counts p.1); [done|lia]).
  assert (width p.1 = flen p.1) as Hw by (unfold BufferSteps.width; by rewrite Hc). rewrite Hw in *.
  rewrite !usub_small by lia.
  replace (base A + flen p.1 - (base A + k)) with (flen p.1 - k) by lia. replace (base A + k - base A) with k by lia.
  destruct (rest_spec _ _ _ _ _ _ Hd Hc) as (st' & st'' & e & Hst' & Ha & Hd' & Hq & Hn'); [lia|].
  change (visible (cut _ _ _)) with (visible p.1). rewrite Hst'. cbn [mbind option_bind]. rewrite Ha. cbn [mbind option_bind].
  rewrite (doing_start _ _ _ _ _ Hd'). cbn [mbind option_bind].
  assert (base (A ++ [p]) = base A + flen p.1) as Hbase by (by rewrite base_app, base_singleton, Hw).
  exists (with_start st'' (base (A ++ [p]))), (A ++ [p]), B, 0, [e].
  split_and!; [done|by apply doing_with_start|by constructor|cbn; lia|by eapply steady_0|done|left; lia].
Qed.

(** [remote_skip] *)
Lemma remote_skip_spec fuel o : ∀ st A rest k tr,
  doing st A rest k tr → (length rest < fuel)%nat → fragment_start st = base A + k → steady rest k →
  (o = base A + k ∨ base A + k < o < base A + head_width rest) →
  ∃ st' A' rest' k' els, remote_skip v fuel st o ts = Some st' ∧ doing st' A' rest' k' (tr ++ els) ∧ Forall quiet els ∧
    fragment_start st' = base A' + k' ∧ steady rest' k' ∧ next_offset st' = next_offset st ∧
    (o = base A' + k' ∨ base A' + k' < o < base A' + head_width rest').
Proof.
  induction fuel as [|fuel IH]; intros st A rest k tr Hd Hfuel Hfs Hst Ho; [lia|]. cbn [remote_skip]. change (remote_dimension v) with remote_dim.
  rewrite (item_held _ _ _ _ _ _ (do_held _ _ _ _ _ Hd)). cbn [mbind option_bind].
  destruct rest as [|p B]; cbn [fmap option_fmap option_map head].
  { exists st, A, [], k, []. rewrite app_nil_r. by split_and!. }
  destruct (_ && _) eqn:E.
  2:{ exists st, A, (p :: B), k, []. rewrite app_nil_r. by split_and!. }
  apply andb_true_iff in E as [E%N.eqb_eq Hlt%ltb_ord_spec]. rewrite Hfs in E. subst o.
  assert (counts p.1 = false) as Hc.
  { apply not_true_iff_false. intros Hc. rewrite Forall_forall in Hcausal.
    apply (olt_irrefl ts). eapply olt_trans; [exact Hlt|]. apply Hcausal; [|done]. rewrite (do_all _ _ _ _ _ Hd). apply elem_of_app. right. by left. }
  assert (k = 0) as ->.
  { destruct (N.eq_dec k 0); [done|]. destruct (do_counts _ _ _ _ _ Hd) as (? & ? & [= <- <-] & ?); [lia|congruence]. }
  destruct (keeping_spec _ _ _ _ _ Hd) as (st1 & st2 & -> & Ha & Hd2 & Hfs2 & Hn2). cbn [mbind option_bind]. rewrite Ha. cbn [mbind option_bind].
  assert (base (A ++ [p]) = base A) as Hbase.
  { destruct (doing_piece _ _ _ _ _ _ Hd) as (Hs & _). rewrite base_app, base_singleton by done. unfold BufferSteps.width. rewrite Hc. lia. }
  destruct (IH st2 (A ++ [p]) B 0 (tr ++ [keep p]) Hd2) as (st' & A' & rest' & k' & els & Hst' & Hd' & Hq & Hfs' & Hst'' & Hn' & Ho').
  { cbn in Hfuel. lia. } { lia. } { by eapply steady_0. } { left; lia. }
  exists st', A', rest', k', (keep p :: els). split_and!; try done.
  - by rewrite <- (assoc_L (++)) in Hd'.
  - constructor; [by destruct p|done].
  - by rewrite Hn'.
Qed.
(** ** The insertion *)

Lemma prefix_shown A : Forall sized A → total shown_len A.*1 = len (vis_text A).
Proof.
  induction 1 as [|p A Hp _ IH]; [done|]. change (p :: A) with ([p] ++ A) at 2. rewrite vis_text_app, vis_text_singleton, len_app.
  cbn. rewrite IH. unfold shown_len, vis. destruct Hp as (-> & _). by destruct (visible p.1).
Qed.

Lemma visible_start st A rest k tr : doing st A rest k tr → (Cursor.start (old_fragments st)).2 = len (vis_text A).
Proof.
  intros Hd. unfold Cursor.start. rewrite (at_position _ _ _ (held_cursor _ _ _ _ _ _ (do_held _ _ _ _ _ Hd))).
  pose proof (do_all _ _ _ _ _ Hd) as Hall. destruct (stamped_prefix A rest Hall) as [HA _].
  change (dim_zero : VersionedFullOffset * N) with (Offset 0, 0). rewrite (remote_pos v _ HA). cbn [snd].
  rewrite prefix_shown; [done|]. by eapply prefix_sized.
Qed.

(** The visible text before the position. *)
Lemma visible_position st A rest k tr : doing st A rest k tr →
  old_len tr = len (vis_text A) + match rest with p :: _ => if visible p.1 then k else 0 | [] => 0 end.
Proof.
  intros Hd. unfold old_len. rewrite (held_source _ _ _ _ _ _ (do_held _ _ _ _ _ Hd)).
  rewrite tagged_app, view_app, len_app, view_visible. destruct rest as [|p B]; [done|]. cbn [consumed].
  rewrite tagged_singleton, view_tag. cbn [fst snd]. destruct (doing_piece _ _ _ _ _ _ Hd) as ((Hl & _) & Hk & _).
  destruct (visible p.1); [rewrite len_ltake; lia|done].
Qed.

Lemma remote_insert_nonempty st (text : str) : text ≠ [] →
  remote_insert st text ts =
  (let old_start := (Cursor.start (old_fragments st)).2 in
   i ← Cursor.item (old_fragments st);
   start ← start_offset remote_at st;
   let old_start := match i with
                    | Some f => if visible f then old_start + usub (fragment_start st) start else old_start
                    | None => old_start
                    end in
   let new_start := new_visible_len st in
   next_id ← next_fragment_id st;
   st ← push_fragments_for_insertion st text ts next_id;
   Some (with_patch st (patch_edit old_start old_start new_start (new_start + len text)))).
Proof. by destruct text. Qed.

Lemma remote_insert_spec st A rest k tr text :
  doing st A rest k tr → fragment_start st = base A + k → utf8 text → next_offset st + len text < U32 →
  ∃ st' els, remote_insert st text ts = Some st' ∧ doing st' A rest k (tr ++ els) ∧ adds text els ∧
    fragment_start st' = fragment_start st ∧ next_offset st' = next_offset st + len text.
Proof.
  intros Hd Hfs Hu Hn. destruct (decide (text = [])) as [->|Hne].
  { exists st, []. rewrite app_nil_r, len_nil, N.add_0_r. split_and!; [done|done|by split|done|done]. }
  destruct (insertion_spec st A rest k tr text Hd Hne Hu Hn) as (st' & els & Hst' & Hadds & Hfs' & Hn' & Hd').
  rewrite (remote_insert_nonempty st text Hne). cbn zeta.
  rewrite (visible_start _ _ _ _ _ Hd), (item_held _ _ _ _ _ _ (do_held _ _ _ _ _ Hd)), (doing_start _ _ _ _ _ Hd).
  cbn [mbind option_bind]. rewrite (next_fragment_id_spec _ _ _ _ _ Hd). cbn [mbind option_bind]. rewrite Hst'. cbn [mbind option_bind].
  assert (match fst <$> head rest with
    | Some f => if visible f then len (vis_text A) + usub (fragment_start st) (base A) else len (vis_text A)
    | None => len (vis_text A) end = old_len tr) as ->.
  { rewrite (visible_position _ _ _ _ _ Hd), Hfs. destruct rest as [|p B]; cbn; [lia|].
    destruct (doing_piece _ _ _ _ _ _ Hd) as (_ & Hk & _ & Hb).
    rewrite usub_small by lia. destruct (visible p.1); lia. }
  rewrite (new_visible_len_held _ _ _ _ _ _ (do_held _ _ _ _ _ Hd)).
  eexists (with_patch st' _), els. split; [reflexivity|]. split; [exact Hd'|]. split; [exact Hadds|]. by split.
Qed.

(** ** The deletion *)

(** A position that no author could have meant lies within what was already deleted. *)
Definition stands (o : N) : Prop :=
  ∀ A p B, ps = A ++ p :: B → counts p.1 = true → base A < o < base A + flen p.1 → alive p.1 = true.

Lemma remote_delete_alive st A p B k tr o :
  doing st A (p :: B) k tr → fragment_start st = base A + k → k < flen p.1 → base A + k < o → aligned ps counts o →
  alive p.1 = true →
  ∃ st' A' rest' k' e, remote_delete_step v undos st o ts = Some st' ∧ doing st' A' rest' k' (tr ++ [e]) ∧
    fragment_start st' = base A' + k' ∧ steady rest' k' ∧ erasing alive e ∧ next_offset st' = next_offset st ∧
    base A' + k' ≤ o ∧ (base A' + k' = o ∨ rest' = B).
Proof.
  intros Hd Hfs Hk Ho Hal Ha. pose proof (alive_counted _ _ _ Ha) as Hc.
  destruct (doing_piece _ _ _ _ _ _ Hd) as (Hs & _ & _ & Hb).
  assert (width p.1 = flen p.1) as Hw by (unfold BufferSteps.width; by rewrite Hc).
  unfold remote_delete_step. change (remote_dimension v) with remote_dim.
  rewrite (current_held _ _ _ _ _ _ _ (do_held _ _ _ _ _ Hd)).
  rewrite (doing_end _ _ _ _ _ Hd), (doing_start _ _ _ _ _ Hd), Hw. cbn [mbind option_bind].
  rewrite (was_visible_eq _ _ _ _ Hlog), Ha, Hfs. cbn [mbind option_bind].
  pose (n := N.min o (base A + flen p.1) - (base A + k)).
  rewrite !usub_small by lia. fold n. replace (base A + k - base A) with k by lia.
  assert (flen (cut p.1 n k) = n) as Hflen by (rewrite cut_small; [done|by apply Hs|lia]).
  change (id (cut p.1 n k)) with (id p.1). change (fragment_start (with_slice st _)) with (fragment_start st).
  change (old_fragments (with_slice st _)) with (old_fragments st). change (last_id (with_slice st _)) with (last_id st).
  change (new_visible_len (with_slice st _)) with (new_visible_len st).
  rewrite Hfs, (visible_start _ _ _ _ _ Hd), usub_small by lia. replace (base A + k - base A) with k by lia.
  cbn [negb mark_deleted visible flen with_id]. rewrite Hflen, andb_true_r, (proj2 (N.ltb_lt _ _)) by lia.
  set (e := removed ts p k n (Locator.between (last_id st) (id p.1))). fold (mark_deleted (with_id (cut p.1 n k) (Locator.between (last_id st) (id p.1))) ts).
  change (mark_deleted (with_id (cut p.1 n k) (Locator.between (last_id st) (id p.1))) ts) with (el_fragment e).
  match goal with |- context [push_piece ?x _ _] => set (st1 := x) end.
  destruct (removal_spec st st1 A p B k n tr Hd) as (st' & Hst' & Hd' & Hfs' & Hn');
    [unfold st1; by destruct (visible p.1)|done|lia|lia| | |].
  - eapply cut_boundary; [exact Hd|done|exact Hal|done|lia].
  - unfold st1. pose proof (visible_position _ _ _ _ _ Hd) as Hold. cbn [old_len] in Hold.
    rewrite (new_visible_len_held _ _ _ _ _ _ (do_held _ _ _ _ _ Hd)). destruct (visible p.1); [|done].
    cbn in Hold |- *. by rewrite Hold.
  - fold e in Hst'. rewrite Hst'. cbn [mbind option_bind].
    destruct (round_end (with_start st' (N.min o (base A + flen p.1))) A p B (k + n) (tr ++ [e]) o)
      as (st'' & A' & rest' & k' & -> & Hd'' & Hfs'' & Hn'' & Hle & Hor & Hst'');
      [by apply doing_with_start|done|done|lia|].
    exists st'', A', rest', k', e. split_and!; try done.
    + destruct Hst'' as [[-> _]|(-> & -> & Hlt)]; [by eapply steady_0|]. by split.
    + by rewrite Hn''.
Qed.

Lemma remote_delete_gone st A p B k tr o :
  doing st A (p :: B) k tr → fragment_start st = base A + k → steady (p :: B) k → base A + k < o → stands o →
  alive p.1 = false →
  ∃ st', remote_delete_step v undos st o ts = Some st' ∧ doing st' (A ++ [p]) B 0 (tr ++ [passed p]) ∧
    fragment_start st' = base (A ++ [p]) ∧ next_offset st' = next_offset st ∧ base (A ++ [p]) ≤ o.
Proof.
  intros Hd Hfs [Hk Halive] Ho Hst Ha. destruct (doing_piece _ _ _ _ _ _ Hd) as (Hs & _).
  assert (k = 0) as ->. { destruct (N.eq_dec k 0); [done|]. rewrite Halive in Ha by lia. done. }
  rewrite N.add_0_r in *.
  assert (base (A ++ [p]) = base A + width p.1) as Hbase by (by rewrite base_app, base_singleton).
  assert (base A + width p.1 ≤ o) as Hend.
  { unfold BufferSteps.width. destruct (counts p.1) eqn:Hc; [|lia]. destruct (N.le_gt_cases (base A + flen p.1) o); [done|].
    rewrite (Hst A p B (do_all _ _ _ _ _ Hd) Hc) in Ha by lia. done. }
  unfold remote_delete_step. change (remote_dimension v) with remote_dim.
  rewrite (current_held _ _ _ _ _ _ _ (do_held _ _ _ _ _ Hd)).
  rewrite (doing_end _ _ _ _ _ Hd), (doing_start _ _ _ _ _ Hd). cbn [mbind option_bind].
  rewrite (was_visible_eq _ _ _ _ Hlog), Ha. cbn [mbind option_bind].
  rewrite andb_negb_r, (proj2 (N.ltb_lt _ _)) by lia.
  destruct (passing_spec _ _ _ _ _ Hd) as (st' & -> & _ & Hadv). cbn [mbind option_bind].
  rewrite (proj2 (N.leb_le _ _)), N.min_r by lia.
  destruct (Hadv (base A + width p.1)) as (st'' & -> & Hd'' & Hfs'' & Hn'').
  exists st''. split_and!; [done|done|by rewrite Hbase|done|lia].
Qed.

Lemma remote_delete_step_spec st A p B k tr o :
  doing st A (p :: B) k tr → fragment_start st = base A + k → steady (p :: B) k → base A + k < o →
  aligned ps counts o → stands o →
  ∃ st' A' rest' k' e, remote_delete_step v undos st o ts = Some st' ∧ doing st' A' rest' k' (tr ++ [e]) ∧
    fragment_start st' = base A' + k' ∧ steady rest' k' ∧ erasing alive e ∧ next_offset st' = next_offset st ∧
    base A' + k' ≤ o ∧ (base A' + k' = o ∨ rest' = B).
Proof.
  intros Hd Hfs Hk Ho Hal Hst. destruct (alive p.1) eqn:Ha; [exact (remote_delete_alive st A p B k tr o Hd Hfs (proj1 Hk) Ho Hal Ha)|].
  destruct (remote_delete_gone st A p B k tr o Hd Hfs Hk Ho Hst Ha) as (st' & -> & Hd' & Hfs' & Hn' & Hle).
  exists st', (A ++ [p]), B, 0, (passed p). rewrite N.add_0_r. split_and!; try done; [by eapply steady_0|by right].
Qed.

(** The whole loop. *)
Lemma remote_delete_spec fuel o : ∀ st A rest k tr,
  doing st A rest k tr → (length rest < fuel)%nat → fragment_start st = base A + k → steady rest k →
  base A + k ≤ o ≤ base ps → aligned ps counts o → stands o →
  ∃ st' A' rest' k' els, remote_delete v fuel undos st o ts = Some st' ∧ doing st' A' rest' k' (tr ++ els) ∧
    fragment_start st' = o ∧ base A' + k' = o ∧ steady rest' k' ∧ Forall (erasing alive) els ∧
    next_offset st' = next_offset st.
Proof.
  induction fuel as [|fuel IH]; intros st A rest k tr Hd Hfuel Hfs Hk Ho Hal Hst; [lia|].
  cbn [remote_delete]. rewrite Hfs. destruct (N.ltb_spec (base A + k) o) as [Hlt|Hge].
  2:{ exists st, A, rest, k, []. rewrite app_nil_r. split_and!; try done; lia. }
  destruct rest as [|p B].
  { exfalso. cbn in Hk. rewrite (do_all _ _ _ _ _ Hd), app_nil_r in Ho. lia. }
  destruct (remote_delete_step_spec st A p B k tr o Hd Hfs Hk Hlt Hal Hst)
    as (st1 & A1 & rest1 & k1 & e & -> & Hd1 & Hfs1 & Hk1 & He1 & Hn1 & Hle & Hor).
  cbn [mbind option_bind length] in *.
  destruct (decide (base A1 + k1 = o)) as [E|E].
  { exists st1, A1, rest1, k1, [e]. split_and!; try done; [|lia|by constructor].
    destruct fuel; cbn [remote_delete]; rewrite Hfs1, (proj2 (N.ltb_ge _ _)) by lia; done. }
  destruct Hor as [?| ->]; [done|].
  destruct (IH st1 A1 B k1 (tr ++ [e])) as (st2 & A2 & rest2 & k2 & els2 & -> & Hd2 & Hfs2 & Hb2 & Hk2 & He2 & Hn2); try done; [lia..|].
  exists st2, A2, rest2, k2, (e :: els2). split_and!; try done; [by rewrite <- (assoc_L (++)) in Hd2|by constructor|].
  by rewrite Hn2.
Qed.

(** ** The edits *)

Lemma remote_edit_step_spec st A rest k tr range text :
  doing st A rest k tr → fragment_start st = base A + k → steady rest k →
  base A + k ≤ Patch.start range ≤ Patch.end_ range → Patch.end_ range ≤ base ps →
  aligned ps counts (Patch.start range) → aligned ps counts (Patch.end_ range) →
  stands (Patch.start range) → stands (Patch.end_ range) →
  utf8 text → next_offset st + len text < U32 →
  ∃ st' A' rest' k' kept added gone, let els := kept ++ added ++ gone in
    remote_edit_step v undos st range text ts = Some st' ∧
    doing st' A' rest' k' (tr ++ els) ∧ fragment_start st' = Patch.end_ range ∧ base A' + k' = Patch.end_ range ∧
    steady rest' k' ∧ next_offset st' = next_offset st + len text ∧
    Forall quiet kept ∧ adds text added ∧ Forall (erasing alive) gone ∧
    Patch.start range = base A + k + counted_len counts kept ∧
    Patch.end_ range = Patch.start range + counted_len counts gone.
Proof.
  intros Hd Hfs Hk Ho Hend Hal1 Hal2 Hst1 Hst2 Hu Hn. unfold remote_edit_step. rewrite remote_jump_eq.
  destruct (jump_spec st A rest k tr (Patch.start range) Hd Hfs)
    as (st1 & A1 & rest1 & k1 & els1 & -> & Hd1 & Hfs1 & Hb1 & Hq1 & Hn1 & Hk1 & _); [lia|].
  assert (steady rest1 k1) as Hsteady1 by (destruct Hk1 as [->|(-> & -> & ->)]; [by eapply steady_0|done]).
  cbn [mbind option_bind]. fold (head_width rest1) in Hb1.
  destruct (remote_step_over_spec st1 _ _ _ _ _ Hd1 Hfs1 Hsteady1 Hb1)
    as (st2 & A2 & rest2 & k2 & els2 & -> & Hd2 & Hq2 & Hfs2 & Hsteady2 & Hn2 & Ho2). cbn [mbind option_bind].
  destruct (remote_skip_spec (cost (cursor_tree (old_fragments st))) (Patch.start range) st2 _ _ _ _ Hd2)
    as (st3 & A3 & rest3 & k3 & els3 & -> & Hd3 & Hq3 & Hfs3 & Hsteady3 & Hn3 & Ho3); [eapply cost_spec; [exact Hd|apply Hd2]|done|done|done|].
  cbn [mbind option_bind].
  assert (k3 ≤ head_width rest3) as Hk3.
  { destruct rest3 as [|p B]; [cbn in *; lia|]. by destruct (doing_piece _ _ _ _ _ _ Hd3) as (_ & _ & ? & _). }
  destruct (push_prefix_spec st3 A3 rest3 k3 _ (Patch.start range) Hd3 Hfs3) as (st4 & els4 & -> & Hd4 & Hfs4 & Hq4 & Hn4);
    [fold (head_width rest3); lia|done|].
  cbn [mbind option_bind].
  destruct (remote_insert_spec st4 _ _ _ _ text Hd4) as (st5 & added & -> & Hd5 & Hadd & Hfs5 & Hn5); [lia|done|lia|].
  cbn [mbind option_bind].
  assert (steady rest3 (Patch.start range - base A3)) as Hsteady5.
  { destruct Ho3 as [->|Ho3]; [by replace (base A3 + k3 - base A3) with k3 by lia|].
    destruct rest3 as [|p B]; cbn [head_width] in *; [lia|].
    assert (counts p.1 = true) as Hc by (unfold BufferSteps.width in Ho3; destruct (counts p.1); [done|lia]).
    unfold BufferSteps.width in Ho3. rewrite Hc in Ho3. split; [lia|]. intros Hpos.
    apply (Hst1 A3 p B); [apply Hd3|done|lia]. }
  destruct (remote_delete_spec (cost (cursor_tree (old_fragments st))) (Patch.end_ range) st5 _ _ _ _ Hd5)
    as (st6 & A6 & rest6 & k6 & gone & -> & Hd6 & Hfs6 & Hb6 & Hsteady6 & Hg & Hn6); [eapply cost_spec; [exact Hd|apply Hd5]|lia|done|lia|done|done|].
  destruct (doing_source _ _ _ _ _ Hd) as [Hc0 _]. destruct (doing_source _ _ _ _ _ Hd4) as [Hc4 _].
  destruct (doing_source _ _ _ _ _ Hd6) as [Hc6 _]. destruct (adds_src _ _ Hadd) as [Hadd0 _].
  rewrite !src_bytes_app, !view_app, !len_app in Hc4. rewrite !src_bytes_app, Hadd0, app_nil_r, !view_app, !len_app in Hc6.
  exists st6, A6, rest6, k6, (els1 ++ els2 ++ els3 ++ els4), added, gone. cbn zeta. unfold counted_len.
  rewrite !src_bytes_app, ?view_app, !len_app.
  split_and!; try done; try lia.
  - by rewrite !(assoc_L (++)).
  - by rewrite !Forall_app.
Qed.

(** The edits of some author: positions in the text as the version has seen it, in order. *)
Fixpoint ranges_ok (o : N) (edits : edits_of) : Prop :=
  match edits with
  | [] => True
  | (range, text) :: edits =>
      o ≤ Patch.start range ≤ Patch.end_ range ∧ Patch.end_ range ≤ base ps ∧
      aligned ps counts (Patch.start range) ∧ aligned ps counts (Patch.end_ range) ∧
      stands (Patch.start range) ∧ stands (Patch.end_ range) ∧ utf8 text ∧
      ranges_ok (Patch.end_ range) edits
  end.

Lemma remote_edits_spec edits : ∀ st A rest k tr o,
  doing st A rest k tr → fragment_start st = base A + k → steady rest k → base A + k ≤ o →
  ranges_ok o edits → next_offset st + len (concat edits.*2) < U32 →
  ∃ st' A' rest' k' els fulls, remote_edits v undos st edits ts = Some st' ∧
    doing st' A' rest' k' (tr ++ els) ∧ fragment_start st' = base A' + k' ∧
    performs counts alive (base A + k) (full_len tr) edits fulls els.
Proof.
  induction edits as [|[range text] edits IH]; intros st A rest k tr o Hd Hfs Hk Hb Hok Hn.
  { exists st, A, rest, k, [], []. rewrite app_nil_r. split_and!; [done|done|done|constructor]. }
  destruct Hok as (Ho & Hend & Hal1 & Hal2 & Hst1 & Hst2 & Hu & Hok). cbn [fmap list_fmap concat snd] in Hn. rewrite len_app in Hn.
  destruct (remote_edit_step_spec st A rest k tr range text Hd)
    as (st1 & A1 & rest1 & k1 & kept & added & gone & Hst & Hd1 & Hfs1 & Hb1 & Hk1 & Hn1 & Hq & Ha & Hg & Hs & He);
    [done|done|lia|done|done|done|done|done|done|lia|].
  cbn [remote_edits]. rewrite Hst. cbn [mbind option_bind].
  destruct (IH st1 A1 rest1 k1 _ (Patch.end_ range) Hd1) as (st2 & A2 & rest2 & k2 & els & fulls & -> & Hd2 & Hfs2 & Hp);
    [lia|done|lia|done|lia|].
  eexists st2, A2, rest2, k2, (kept ++ added ++ gone ++ els), _. split; [done|].
  split; [by rewrite <- !(assoc_L (++)) in Hd2|]. split; [done|].
  constructor; [done..|]. rewrite Hb1 in Hp.
  replace (full_len tr + full_len kept + full_len gone) with (full_len (tr ++ kept ++ added ++ gone)); [done|].
  unfold full_len. destruct (adds_src _ _ Ha) as [Ha0 _]. rewrite !src_bytes_app, Ha0, !len_app, len_nil. lia.
Qed.
End remote.

(** ** The whole edit *)

Lemma remote_edit_ok v b ps ts log ranges texts :
  buffer_ok b ps → roomy (snapshot b) ps → Global.observed (version (snapshot b)) ts = false →
  undo_map_of (undo_map (snapshot b)) log →
  Forall (λ p, counted v p.1 = true → timestamp p.1 ≺ ts) ps →
  ranges ≠ [] → length ranges = length texts → ranges_ok v ps log 0 (zip ranges texts) → len (concat texts) < U32 →
  ∃ b' els rest fulls, apply_remote_edit v b ranges texts ts = Some b' ∧ same_but_text b b' ∧
    snapshot_ok (Global.observe (version (snapshot b)) ts) (snapshot b') (el_piece <$> els ++ rest) ∧
    observers_ok (subscriptions b') (vis_text (el_piece <$> els ++ rest)) ∧
    tracing ts ps [] 0 (els ++ rest) ∧ src_bytes (els ++ rest) = tagged ps ∧
    performs (counted v) (was_alive v log) 0 0 (zip ranges texts) fulls els ∧ Forall quiet rest.
Proof.
  intros Hok Hroomy Hts Hlog Hcausal Hne Hlen Hedits Hsum. pose proof Hok as [Hs _].
  destruct (roomy_visible _ _ Hroomy) as (Hrv & Hlv & _). destruct (roomy_deleted _ _ Hroomy) as (_ & Hld & _).
  assert (len (tagged ps) < 2 ^ 63) as Hsize by (rewrite len_tagged; lia).
  pose proof (fresh_pieces _ _ _ _ Hs Hts) as Hps.
  assert (Forall (λ p, 0 < Lamport.value (timestamp p.1)) ps) as Hstamped.
  { pose proof (ok_known _ _ _ Hs) as Hk. rewrite Forall_fmap in Hk. eapply Forall_impl; [exact Hk|]. by intros p (? & _). }
  pose proof (remote_positions v ts ps Hps Hsize Hstamped) as HP.
  destruct ranges as [|range ranges]; [done|]. destruct texts as [|text texts]; [done|].
  unfold apply_remote_edit. change (remote_dimension v) with (remote_dim v).
  destruct (builder_new_spec _ _ _ _ (roomy_visible _ _ Hroomy) (roomy_deleted _ _ Hroomy)) as (cv & cd & -> & -> & Hb).
  cbn [mbind option_bind].
  destruct (ok_fragments _ _ _ Hs) as (h & Hwf & Hl).
  pose proof Hedits as ([_ Hse] & Hend & _).
  destruct (begin_spec (HP:=HP) cv cd (fragments (snapshot b)) h (Patch.start range) Hwf)
    as (st & A & rest0 & els0 & Hst & Hd & Hfs & Hbase & Hq0 & Hn0 & _);
    [by apply (low_wf h (fragments (snapshot b))); [apply Hroomy|]|done|done|apply Hs|apply Hs|lia|].
  destruct (append_slice _ _ _) as [st0|]; [|done]. cbn [mbind option_bind] in Hst |- *.
  destruct (start_offset remote_at st0) as [o|]; [|done]. cbn [mbind option_bind] in Hst |- *. injection Hst as ->.
  destruct (doing_source (HP:=HP) _ _ _ _ _ Hd) as [Hc0 Hf0].
  destruct (remote_edits_spec v ts ps (undo_map (snapshot b)) log Hps Hsize Hlog Hstamped Hcausal (zip (range :: ranges) (text :: texts))
    st A rest0 0 els0 (Patch.start range) Hd)
    as (st1 & A1 & rest1 & k1 & els & fulls & -> & Hd1 & Hfs1 & Hperf);
    [lia|by eapply steady_0|lia| | |].
  { destruct Hedits as (_ & Hedits). split; [lia|done]. }
  { rewrite snd_zip by (rewrite Hlen; lia). lia. }
  cbn [mbind option_bind].
  destruct (finish_spec (HP:=HP) st1 A1 rest1 k1 _ Hd1 Hfs1) as (st2 & els2 & frs & vt & dt & -> & Hq2 & Hfin & _).
  cbn [mbind option_bind].
  destruct (@commit_ok _ (remote_dim v) b ps ts _ st2 frs vt dt Hok Hroomy Hts Hfin) as (b' & -> & Hsame & Hsnap & Hobs).
  exists b', (els0 ++ els), els2, fulls. split_and!; try done; [apply Hfin|apply Hfin|].
  apply performs_prefix; [done| |done]. unfold counted_len, full_len. rewrite Hc0, !N.add_0_l, N.add_0_r in *.
  unfold full_len in Hperf. done.
Qed.
