(* ===== verification/BufferNew.v ===== *)
(** * BufferNew: the buffer of a text

    What [Buffer::new] of [crates/text/src/text.rs] makes: one fragment with the whole
    text, and a buffer that satisfies the invariant. *)

From Stdlib Require Import Sorted.
From S2P Require Import Prelude Clock Locator UndoMap OperationQueue Patch Subscription History Bits Utf8.
From S2P Require Import LineEnding PatchFacts TextSummary Chunk ChunkFacts Rope RopeFacts RopeConvert RopeEdit.
From S2P Require Import RopeSlice Keyed TreeMap TreeMapFacts SumTree SumTreeSpec SumTreeFind Cursor CursorSpec.
From S2P Require Import CursorFacts Fragment RopeBuilder Buffer BufferFacts BufferSteps BufferLocal BufferSeen.
From S2P Require Import BufferInv BufferCommit.
#[local] Open Scope N_scope.

(** ** Ropes of one chunk *)

Lemma wf_empty_height {T S} `{SummaryLaws S, !Item T S} h (t : SumTree T S) : wf h t → to_list t = [] → h = 0%nat.
Proof.
  destruct h as [|h], t; try done. intros (_ & _ & _ & _ & Hne & Hc) Hl. by edestruct (concat_nonempty (T:=T) h).
Qed.

Lemma push_chunk_new s r : rope_push_chunk rope_new s = Some r → node_height r = 0%nat.
Proof.
  unfold rope_push_chunk. cbn. destruct (slice_is_empty s); [by intros [= <-]|].
  destruct (slice_into s); [|done]. cbn. by intros [= <-].
Qed.

Lemma append_empty r m h r' : wf h m → to_list m = [] → rope_append r m = Some r' → node_height r' = node_height r.
Proof.
  intros Hw Hl. pose proof (wf_empty_height _ _ Hw Hl) as ->. unfold rope_append.
  rewrite (tree_first_spec _ _ Hw), Hl. cbn [mbind option_bind head]. destruct m as [s items sums|]; [|done].
  cbn in Hl. subst items. unfold append. destruct (is_empty r) eqn:E.
  - intros [= <-]. destruct r as [? []|]; done.
  - cbn. by intros [= <-].
Qed.

(** The cursor is behind the only chunk. *)
Lemma slice_behind (c c' : Cursor Chunk ChunkSummary N) b e m : cursor_at c b [] → Forall chunk_ok b → len (texts b) < 2 ^ 32 →
  e ≤ len (texts b) → Cursor.slice (at_offset e) Right c = Some (c', m) →
  cursor_at c' b [] ∧ ∃ h, wf h m ∧ to_list m = [].
Proof.
  intros Hat Hb Hlen He. destruct (N.eq_dec e (len (texts b))) as [->|Hne].
  - destruct (slice_to_offset c b [] (len (texts b)) Hat) as (sk & rest & c1 & m1 & h & E & -> & _ & Hat' & Hw & Hl & _);
      rewrite ?app_nil_r; [done|done|lia|].
    symmetry in E. apply app_nil in E as [-> ->]. intros [= <- <-]. rewrite app_nil_r in Hat'. eauto.
  - unfold Cursor.slice, seek_internal. rewrite (at_position _ _ _ Hat), pos_len by done.
    unfold at_offset, seek_key. change (cmp e (len (texts b))) with (N.compare e (len (texts b))).
    by rewrite (proj2 (N.compare_lt_iff _ _)) by lia.
Qed.

Lemma middle_single c r t o e : rc_at c r t o → (length (to_list r) ≤ 1)%nat → len t < 2 ^ 32 → rope_inv r t → shallow r → e ≤ len t →
  ∃ ch, next (rc_chunks c) = Some ch ∧ ∀ c' m, Cursor.slice (at_offset e) Right ch = Some (c', m) →
    cursor_at c' (to_list r) [] ∧ ∃ h, wf h m ∧ to_list m = [].
Proof.
  intros Hc Hone Hlen Hr Hsh He. destruct (rc_at_texts r t Hr c o Hc) as (b & a & Hat & -> & Hb & Ha & _ & El & _).
  rewrite El in *. rewrite <- texts_app in *.
  assert (∃ ch, next (rc_chunks c) = Some ch ∧ cursor_at ch (b ++ a) []) as (ch & -> & Hat').
  { destruct a as [|x a].
    - exists (rc_chunks c). split; [by apply search_forward_end with b|by rewrite app_nil_r].
    - assert (a = []) as -> by (destruct a; [done|]; rewrite length_app in Hone; cbn in Hone; lia).
      destruct (next_at _ _ _ _ Hat) as (ch & ? & _ & ?). eauto. }
  exists ch. split; [done|]. intros c' m Hs. eapply slice_behind; [done| |done|done|done]. by rewrite Forall_app.
Qed.

Lemma single_sliceable r t : rope_inv r t → (length (to_list r) ≤ 1)%nat → shallow r → len t < 2 ^ 32 → sliceable r t.
Proof.
  intros Hr Hone Hsh Hlen. split_and!; [done..|]. intros c o e Hc He.
  destruct (middle_single c r t o e) as (ch & Hn & Hm); [done..|lia|].
  unfold rc_shallow, rc_middle, rc_slice. rewrite Hn. cbn [mbind option_bind]. split.
  - destruct (Cursor.slice _ _ ch) as [[c' m]|] eqn:E; [|done]. destruct (Hm _ _ eq_refl) as (_ & h & Hw & Hl).
    cbn. unfold shallow. rewrite (wf_height h m Hw), (wf_empty_height _ _ Hw Hl). lia.
  - intros c' s. destruct (_ <? _); [done|]. destruct (item (rc_chunks c)) as [i|]; [|done]. cbn [mbind option_bind].
    destruct (end_ (rc_chunks c)) as [d|]; [|done]. cbn [mbind option_bind].
    match goal with |- (x ← ?y; _) = _ → _ => destruct y as [s1|] eqn:E1; [|done] end. cbn [mbind option_bind].
    assert (node_height s1 = 0)%nat as Hh.
    { destruct i as [x|]; [|by injection E1 as <-]. destruct (chunk_slice_range _ _ _); [|done]. by eapply push_chunk_new. }
    destruct (d <? e); [|intros [= <- <-]; unfold shallow; lia].
    destruct (Cursor.slice _ _ ch) as [[c1 m]|] eqn:E2; [|done]. cbn [mbind option_bind].
    destruct (Hm _ _ eq_refl) as (Hat & h & Hw & Hl). destruct (rope_append s1 m) as [s2|] eqn:E3; [|done].
    rewrite (item_at _ _ _ Hat). cbn. intros [= <- <-]. unfold shallow. rewrite (append_empty _ _ _ _ Hw Hl E3). lia.
Qed.

(** A buffer of few bytes, with no tree too high. *)
Definition small (s : BufferSnapshot) : bool :=
  bool_decide (node_height (fragments s) < 16)%nat && bool_decide (node_height (insertions s) < 16)%nat &&
  bool_decide (node_height (insertion_slices s) < 16)%nat && bool_decide (node_height (undo_map s) < 16)%nat &&
  forallb (λ r, bool_decide (length (to_list r) ≤ 1)%nat && bool_decide (node_height r < 16)%nat &&
                (len (texts (to_list r)) <? 2 ^ 32)) [visible_text s; deleted_text s].

Lemma roomy_small v s ps : snapshot_ok v s ps → small s = true → roomy s ps.
Proof.
  intros Hs. unfold small. cbn [forallb]. rewrite !andb_true_iff, !bool_decide_eq_true, !N.ltb_lt.
  intros ((((? & ?) & ?) & ?) & ((? & ?) & Hv) & ((? & ?) & Hd) & _).
  pose proof (ok_visible _ _ _ Hs) as Hrv. pose proof (ok_deleted _ _ _ Hs) as Hrd.
  split; try done; apply single_sliceable; try done.
  - by destruct Hrv as [(_ & _ & <-) _].
  - by destruct Hrd as [(_ & _ & <-) _].
Qed.

(** ** A new buffer *)

Definition base_fragment (t : str) : Fragment :=
  mk_fragment (Locator.between Locator.min Locator.max) base_timestamp 0 (len t) true [] Global.new.
Definition base_pieces (t : str) : list piece := match t with [] => [] | _ => [(base_fragment t, t)] end.

Definition base_version (t : str) : Global.t :=
  match t with [] => Global.new | _ => Global.observe Global.new base_timestamp end.

Lemma len_positive (t : str) : t ≠ [] → 0 < len t.
Proof. destruct t; [done|len]. Qed.

Lemma wrap32_small n : n < U32 → wrap32 n = n.
Proof. apply N.mod_small. Qed.

Lemma base_fragments_spec r t : rope_inv r t → t ≠ [] → len t < U32 →
  ∃ ins fs h1 h2, base_fragments (N.to_nat (rope_len r)) r base_timestamp 0 0 Locator.min tree_new tree_new = Some (ins, fs) ∧
    wf h1 ins ∧ to_list ins = [insertion_fragment_new (base_fragment t)] ∧ wf h2 fs ∧ to_list fs = [base_fragment t].
Proof.
  intros [Hr _] Hne Hlen. assert (0 < len t) as Hpos by by apply len_positive.
  destruct (N.to_nat (rope_len r)) as [|fuel] eqn:E; rewrite (rope_len_spec _ _ Hr) in E; [lia|]. clear E.
  cbn [base_fragments]. rewrite (rope_len_spec _ _ Hr). rewrite (proj2 (N.ltb_lt _ _)) by done.
  unfold MAX_INSERTION_LEN in *. change (2 ^ 32) with U32. rewrite N.min_l by lia. rewrite N.eqb_refl.
  rewrite usub_small, N.sub_0_r by (unfold U32 in *; lia). rewrite (wrap32_small (len t)) by done.
  rewrite N.add_0_l, (wrap32_small (len t)) by done.
  destruct (push_spec 0 tree_new (insertion_fragment_new (base_fragment t)) wf_new) as (ins & h1 & Hi & ? & Hil); [done|].
  destruct (push_spec 0 tree_new (base_fragment t) wf_new) as (fs & h2 & Hf & ? & Hfl); [by apply fragment_valid|].
  fold base_timestamp. fold (base_fragment t). rewrite Hi. cbn [mbind option_bind]. rewrite Hf. cbn [mbind option_bind].
  exists ins, fs, h1, h2. split_and!; [|done..]. destruct fuel; cbn [base_fragments]; rewrite (rope_len_spec _ _ Hr), N.ltb_irrefl; done.
Qed.

Lemma between_min_max : loc_ok (Locator.between Locator.min Locator.max).
Proof. apply between_ok; [by left|by right|done]. Qed.

Lemma base_snapshot_ok r t ins fs h1 h2 rid replica e : rope_inv r t → t ≠ [] → len t < U32 →
  wf h1 ins → to_list ins = [insertion_fragment_new (base_fragment t)] → wf h2 fs → to_list fs = [base_fragment t] →
  snapshot_ok (base_version t)
    (mk_snapshot r rope_new fs ins tree_new empty_undo_map (base_version t) rid replica e) (base_pieces t).
Proof.
  intros Hr Hne Hlen Hw1 Hl1 Hw2 Hl2. pose proof (repr_utf8 _ _ (proj1 Hr)) as Hu.
  assert (Hb : base_pieces t = [(base_fragment t, t)]) by by destruct t.
  assert (Hv : base_version t = Global.observe Global.new base_timestamp) by by destruct t.
  rewrite Hb, Hv. split; cbn.
  - eauto.
  - unfold vis; cbn. by rewrite app_nil_r.
  - apply rope_inv_new.
  - apply Forall_singleton. split_and!; [done..|by rewrite N.add_0_l|apply Global.canonical_new].
  - apply Forall_singleton, between_min_max.
  - repeat constructor.
  - repeat constructor.
  - split_and!; [eauto|rewrite Hl1; repeat constructor|by rewrite Hl1].
  - exists []. split_and!; [|apply Forall_singleton; intros x [[-> ?]|?%elem_of_nil]; done|intros x; discriminate].
    split_and!; [exists 0%nat; apply wf_new|done|constructor].
  - exists 0%nat, []. split_and!; [apply wf_new|done|constructor|]. intros e' u n (x & ?%elem_of_nil & _). done.
  - apply Forall_singleton. exact (is_visible_eq _ [] (base_fragment t) empty_of).
  - apply Forall_singleton. split_and!; [done|done|constructor].
  - intros [|? A] g B; [by intros [= <- _]|]. intros [= _ E]. by destruct A.
  - apply Forall_singleton. intros e' u n _ (x & ?%elem_of_nil & _). done.
Qed.

Lemma empty_snapshot_ok r rid replica e : rope_inv r [] →
  snapshot_ok Global.new (mk_snapshot r rope_new tree_new tree_new tree_new empty_undo_map Global.new rid replica e) [].
Proof.
  intros Hr. split; cbn [fragments visible_text deleted_text insertions insertion_slices undo_map fmap list_fmap].
  - exists 0%nat. split; [apply wf_new|done].
  - done.
  - apply rope_inv_new.
  - constructor.
  - constructor.
  - constructor.
  - constructor.
  - split_and!; [exists 0%nat; apply wf_new|constructor|]. intros i. split; by intros ?%elem_of_nil.
  - exists []. split_and!; [|constructor|intros x; discriminate]. split_and!; [exists 0%nat; apply wf_new|done|constructor].
  - exists 0%nat, []. split_and!; [apply wf_new|done|constructor|]. intros e' u n (x & ?%elem_of_nil & _). done.
  - constructor.
  - constructor.
  - apply tiled_nil.
  - constructor.
Qed.

Lemma buffer_new_ok replica rid text :
  let t := normalize text in utf8 text → len t < U32 →
  ∃ b, buffer_new replica rid text = Some b ∧ buffer_ok b (base_pieces t) ∧
    version (snapshot b) = base_version t ∧ line_ending (snapshot b) = detect text ∧
    deferred_ops b = queue_new ∧ deferred_replicas b = [] ∧
    rope_inv (base_text (history b)) t ∧ history b = History.new (base_text (history b)) ∧
    lamport_clock b = (match t with [] => Lamport.new replica | _ => Lamport.observe (Lamport.new replica) base_timestamp end).
Proof.
  intros t Hu Hlen. destruct (rope_from_str_spec t) as (r & Hr & Hinv); [by apply normalize_utf8|].
  unfold buffer_new. fold t. rewrite Hr. cbn [mbind option_bind]. unfold buffer_new_normalized.
  assert (observers_ok topic_default t) as Ho by (exists ∅; apply tracks_init).
  unfold rope_is_empty. rewrite (rope_len_spec _ _ (proj1 Hinv)).
  destruct t as [|c u] eqn:Et.
  - eexists. split; [done|]. cbn. split_and!; try done. split; [|done]. by apply empty_snapshot_ok.
  - rewrite (proj2 (N.eqb_neq _ _)) by (apply N.neq_0_lt_0; by apply len_positive).
    destruct (base_fragments_spec r (c :: u) Hinv) as (ins & fs & h1 & h2 & Hb & Hw1 & Hl1 & Hw2 & Hl2); [done..|].
    rewrite (rope_len_spec _ _ (proj1 Hinv)) in Hb. unfold base_timestamp in Hb. cbn zeta. rewrite Hb. cbn [mbind option_bind].
    eexists. split; [done|]. cbn -[len]. split_and!; try done. split; [|cbn; by rewrite app_nil_r].
    by apply (base_snapshot_ok r (c :: u) ins fs h1 h2).
Qed.

(** ** A small buffer

    Two lines, the first with a Windows ending. *)

Lemma ascii_utf8 t : Forall (λ c, c < 128) t → utf8 t.
Proof.
  intros Ht. exists t. split.
  - eapply Forall_impl; [exact Ht|]. intros c Hc. cbn in Hc. unfold is_scalar. apply orb_true_iff. left. apply N.ltb_lt. lia.
  - unfold encode_all. induction Ht as [|c t Hc _ IH]; [done|]. cbn. rewrite <- IH. unfold encode.
    by rewrite (proj2 (N.ltb_lt _ _) Hc).
Qed.

Definition demo_input : str := [104; 101; 108; 108; 111; 13; 10; 119; 111; 114; 108; 100].
Definition demo_text : str := normalize demo_input.
Definition empty_buffer : Buffer :=
  mk_buffer (mk_snapshot rope_new rope_new tree_new tree_new tree_new empty_undo_map Global.new 1 LOCAL Unix)
    (History.new rope_new) queue_new [] (Lamport.new LOCAL) topic_default.
Definition demo_buffer (r : ReplicaId) : Buffer := default empty_buffer (buffer_new r 1 demo_input).
Definition demo_pieces : list piece := base_pieces demo_text.

Lemma demo_input_utf8 : utf8 demo_input.
Proof. exists demo_input. split; [|done]. by repeat constructor. Qed.

Lemma demo_ok r : buffer_ok (demo_buffer r) demo_pieces.
Proof.
  destruct (buffer_new_ok r 1 demo_input demo_input_utf8) as (b & E & Hok & _); [by vm_compute|].
  unfold demo_buffer. by rewrite E.
Qed.

Lemma demo_roomy r : roomy (snapshot (demo_buffer r)) demo_pieces.
Proof. eapply roomy_small; [apply demo_ok|]. by vm_compute. Qed.
