(* ===== verification/BufferTheorems.v ===== *)
(** * BufferTheorems: a new buffer, and what [edit] does

    [Buffer::new] and [Buffer::edit] of [crates/text/src/text.rs], with everything they change. *)

From Stdlib Require Import Sorted.
From S2P Require Import Prelude Clock Locator UndoMap OperationQueue Patch Subscription History HistoryTheorems.
From S2P Require Import Bits Utf8 LineEnding PatchFacts TextSummary Chunk ChunkFacts Rope RopeFacts RopeConvert.
From S2P Require Import RopeEdit RopeSlice Keyed TreeMap TreeMapFacts SumTree SumTreeSpec SumTreeFind Cursor.
From S2P Require Import CursorSpec CursorFacts Fragment RopeBuilder Buffer BufferFacts BufferSteps BufferLocal.
From S2P Require Import BufferInv BufferCommit BufferNew.
#[local] Open Scope N_scope.

(** ** The invariant *)

Record buffer_wf (b : Buffer) (ps : list piece) : Prop := {
  wf_text : buffer_ok b ps;
  wf_version : Global.canonical (version (snapshot b));
  wf_clock r : Global.get (version (snapshot b)) r < Lamport.value (lamport_clock b);
  wf_operations : ∃ l, becomes l (operations (history b))
}.

Lemma snapshot_ok_version v v' s ps : snapshot_ok v s ps → snapshot_ok v (with_version s v') ps.
Proof. by intros []. Qed.

Lemma unobserved v c : Global.get v (Lamport.replica_id c) < Lamport.value c → Global.observed v c = false.
Proof. intros. apply not_true_iff_false. rewrite Global.observed_iff. lia. Qed.

(** ** The history of an edit *)

Lemma app_nonempty_snoc {A} (l : list A) x : l ++ [x] ≠ [].
Proof. by destruct l. Qed.

Section history.
Context (h : History Rope) (l : list (MapEntry Lamport.t Operation)).
Context (Hl : becomes l (operations h)) (Hlow : low (operations h)) (Hdepth : transaction_depth h = 0%nat).

(** One more entry, and what could be redone is forgotten. *)
Definition with_entry (ops : map_tree Lamport.t Operation) (e : HistoryEntry) : History Rope :=
  mk_history (base_text h) ops (undo_stack h ++ [e]) [] 0 (group_interval h).

Lemma edit_history op start now now' clock :
  let ts := edit_timestamp op in
  let '(h1, _, _) := History.start_transaction h start now clock in
  ∃ ops l' h2 h3 h4 t, TreeMap.insert (operations h) ts (Op_Edit op) = Some ops ∧ becomes l' ops ∧
    (∀ k, lookup k l' = if eqb_ord ts k then Some (Op_Edit op) else lookup k l) ∧
    History.push h1 (Op_Edit op) = Some h2 ∧ push_undo h2 ts = Some h3 ∧
    end_transaction_at h3 now' = Some (h4, Some (t, start)) ∧
    group (with_entry ops (History.mk_entry (mk_transaction clock [ts] start) now now' false)) = Some (h4, Some t) ∧
    operations h4 = ops ∧ transaction_depth h4 = 0%nat.
Proof.
  intros ts. destruct Hl as [(hh & Hw) [<- Hs]].
  destruct (insert_map (operations h) (to_list (operations h)) ts (Op_Edit op)) as (ops & l' & _ & Hi & Hops & Hl').
  { exists hh. split_and!; [done| |done|done]. by apply (low_wf hh (operations h)). }
  unfold History.start_transaction. rewrite Hdepth. cbn [Nat.add with_depth transaction_depth Nat.eqb].
  destruct (Lamport.tick clock) as [id c] eqn:Ec. injection Ec as <- _.
  set (entry := History.mk_entry (mk_transaction clock [ts] start) now now' false).
  destruct (group_spec (with_entry ops entry)) as (pre & first & rest & Hst & _ & _ & Hg); [apply app_nonempty_snoc|].
  exists ops, l'. do 4 eexists. split_and!; [done|done|done| | | |exact Hg|done|done].
  - unfold History.push. cbn -[TreeMap.insert]. unfold ts in Hi. by rewrite Hi.
  - unfold push_undo. cbn -[TreeMap.get]. rewrite (get_becomes _ _ _ Hops), Hl', (proj2 (eqb_ord_spec ts ts) eq_refl).
    destruct (undo_stack h ++ _) eqn:E; [by apply app_nonempty_snoc in E|]. rewrite <- E, update_top_snoc. done.
  - unfold end_transaction_at, end_transaction. cbn. rewrite pop_snoc. cbn.
    unfold with_stacks. cbn. fold entry. unfold with_entry in Hg. rewrite Hg. done.
Qed.
End history.

(** ** A new buffer *)

Lemma base_pieces_text t : vis_text (base_pieces t) = t ∧ del_text (base_pieces t) = [].
Proof. destruct t; [done|]. split; [apply app_nil_r|done]. Qed.

Lemma buffer_new_wf replica rid text :
  let t := normalize text in utf8 text → len t < U32 →
  ∃ b, buffer_new replica rid text = Some b ∧ buffer_wf b (base_pieces t) ∧
    line_ending (snapshot b) = detect text ∧ rope_inv (base_text (history b)) t ∧
    history b = History.new (base_text (history b)) ∧ has_deferred_ops b = false ∧
    Lamport.replica_id (lamport_clock b) = replica.
Proof.
  intros t Hu Hlen. destruct (buffer_new_ok replica rid text Hu Hlen)
    as (b & -> & Hok & Hv & He & Hd & Hr & Hbase & Hh & Hc). fold t in Hok, Hv, Hbase, Hc.
  exists b. split_and!; try done.
  - split; [done| | |exists []; split_and!; [|by rewrite Hh|constructor]].
    + rewrite Hv. destruct t; [apply Global.canonical_new|apply Global.canonical_observe, Global.canonical_new].
    + intros r. rewrite Hv, Hc. destruct t; [done|]. unfold base_version. rewrite Global.get_observe, Global.get_new.
      change (Lamport.value (Lamport.observe _ _)) with 2. destruct (decide _); unfold base_timestamp; cbn; lia.
    + rewrite Hh. exists 0%nat. apply wf_new.
  - unfold has_deferred_ops. by rewrite Hd.
  - rewrite Hc. by destruct t.
Qed.

(** C40: for a text of less than 2^32 bytes [Buffer::new] returns a buffer that satisfies
    the invariant: it shows the text with Unix line endings, remembers what the
    endings were, and has an empty history and no deferred operations. *)
Theorem buffer_new_shows replica rid text :
  let t := normalize text in utf8 text → len t < U32 →
  ∃ b ps, buffer_new replica rid text = Some b ∧ buffer_wf b ps ∧ vis_text ps = t ∧ del_text ps = [] ∧
    rope_inv (visible_text (snapshot b)) t ∧ rope_inv (deleted_text (snapshot b)) [] ∧
    line_ending (snapshot b) = detect text ∧ rope_inv (base_text (history b)) t ∧
    history b = History.new (base_text (history b)) ∧ has_deferred_ops b = false ∧
    Lamport.replica_id (lamport_clock b) = replica.
Proof.
  intros t Hu Hlen. destruct (buffer_new_wf replica rid text Hu Hlen) as (b & -> & Hwf & ? & ? & ? & ? & ?).
  fold t in Hwf. destruct (base_pieces_text t) as [Hvis Hdel]. exists b, (base_pieces t).
  split_and!; try done; [rewrite <- Hvis|rewrite <- Hdel]; apply Hwf.
Qed.

(** ** Edits *)

Lemma performed_text (edits : edits_of) t ps els rest fulls ts :
  t = vis_text ps → performs visible visible 0 0 edits fulls els → Forall quiet rest → tracing ts ps [] 0 (els ++ rest) →
  src_bytes (els ++ rest) = tagged ps → vis_text (el_piece <$> els ++ rest) = edited 0 t edits.
Proof.
  intros -> Hp Hq Htr Hsrc. rewrite <- (marks_visible visible _ (λ _ Hv, Hv)) by (eapply el_ok_honest, Htr).
  by rewrite (performs_marks _ _ _ _ _ _ _ _ Hp Hq), Hsrc, seen_visible, splice_edited.
Qed.

Lemma edit_ok b ps edits started ended :
  let t := vis_text ps in let v := version (snapshot b) in let id := lamport_clock b in
  let ts := (Lamport.tick id).2 in
  buffer_wf b ps → roomy (snapshot b) ps → low (operations (history b)) → transaction_depth (history b) = 0%nat →
  Lamport.value id + 2 < U32 →
  edits ≠ [] → ordered (len t) 0 edits → len (concat (normalized t edits).*2) < U32 →
  ∃ b' op els rest ops h', edit b edits started ended = Some (b', Op_Edit op) ∧
    buffer_wf b' (el_piece <$> els ++ rest) ∧ tracing ts ps [] 0 (els ++ rest) ∧ src_bytes (els ++ rest) = tagged ps ∧
    performs visible visible 0 0 (normalized t edits) (ranges op) els ∧ Forall quiet rest ∧
    Forall (whole visible) (els ++ rest) ∧
    edit_timestamp op = ts ∧ edit_version op = v ∧ new_text op = (normalized t edits).*2 ∧
    version (snapshot b') = Global.observe v ts ∧ lamport_clock b' = (Lamport.tick ts).2 ∧
    deferred_ops b' = deferred_ops b ∧
    TreeMap.insert (operations (history b)) ts (Op_Edit op) = Some ops ∧
    group (with_entry (history b) ops (History.mk_entry (mk_transaction id [ts] v) started ended false)) = Some (history b', Some h') ∧
    undo_map (snapshot b') = undo_map (snapshot b) ∧
    Forall (λ r, lively ps (Patch.start r) ∧ lively ps (Patch.end_ r)) (ranges op).
Proof.
  intros t v id ts [Hok Hcanon Hclock [l Hl]] Hroomy Hlow Hdepth Hfits Hne Hord Hlen.
  set (b2 := with_clock (with_history b (History.start_transaction (history b) v started id).1.1) (Lamport.tick ts).2).
  assert (Hts : Lamport.value ts = Lamport.value id + 1) by (apply Lamport.value_tick; lia).
  assert (Hunseen : Global.observed v ts = false) by (apply unobserved; specialize (Hclock (Lamport.replica_id ts)); rewrite Hts; fold id v in Hclock; lia).
  destruct (local_edit_ok b2 ps ts edits Hok Hroomy Hunseen Hne Hord Hlen)
    as (b3 & op & els & rest & Hlocal & Hsame & Hsnap & Hobs & Htr & Hsrc & Hperf & Hquiet & Hwhole & Hop1 & Hop2 & Hop3 & Hlive).
  destruct Hsame as (Hh3 & Hd3 & Hr3 & Hc3 & Hv3 & Hu3 & _).
  pose proof (edit_history (history b) l Hl Hlow Hdepth op v started ended id) as Hhist. rewrite Hop1 in Hhist.
  unfold edit, start_transaction. fold v id.
  assert (Hstart : (History.start_transaction (history b) v started id) =
    ((History.start_transaction (history b) v started id).1.1, ts, Some id)).
  { unfold History.start_transaction. rewrite Hdepth. done. }
  rewrite Hstart in Hhist |- *. destruct Hhist as (ops & l' & h2 & h3 & h4 & t' & Hins & Hops & _ & Hp & Hpu & Hend & Hg & Hop4 & Hdep4).
  change (lamport_clock (with_clock _ ts)) with ts. rewrite (surjective_pairing (Lamport.tick ts)).
  change ((Lamport.tick ts).1) with ts. fold b2 in Hlocal |- *.
  match goal with |- context [apply_local_edit ?x edits ts] => change x with b2 end.
  rewrite Hlocal. cbn [mbind option_bind]. change (History.timestamp (Op_Edit op)) with (edit_timestamp op).
  rewrite Hh3. change (history b2) with (History.start_transaction (history b) v started id).1.1. rewrite Hp. cbn [mbind option_bind].
  rewrite Hop1, Hpu. cbn [mbind option_bind]. unfold end_transaction.
  match goal with |- context [end_transaction_at ?x ended] => change x with h3 end. rewrite Hend. cbn [mbind option_bind].
  eexists _, op, els, rest, ops, t'. split; [done|].
  cbn [with_history observe_version with_version with_snapshot snapshot version lamport_clock history deferred_ops visible_text].
  rewrite Hv3, Hc3. change (version (snapshot b2)) with v. change (lamport_clock b2) with (Lamport.tick ts).2. split_and!; try done.
  - split; cbn [history lamport_clock snapshot].
    + split; [|done]. cbn. rewrite Hv3. by apply snapshot_ok_version.
    + change (Global.canonical (Global.observe (version (snapshot b3)) ts)). rewrite Hv3. by apply Global.canonical_observe.
    + intros r. specialize (Hclock r). fold v id in Hclock.
      change (Global.get (Global.observe (version (snapshot b3)) ts) r < Lamport.value (lamport_clock b3)).
      rewrite Hv3, Hc3, Global.get_observe. change (lamport_clock b2) with (Lamport.tick ts).2.
      rewrite Lamport.value_tick by lia. change (version (snapshot b2)) with v. destruct (decide _); lia.
    + change (∃ l, becomes l (operations h4)). rewrite Hop4. eauto.
Qed.

(** C12: [edit] of a buffer with the invariant never panics: the text becomes the
    old one with the ranges, moved down to character boundaries, replaced by the
    new texts with Unix line endings, the invariant holds again, the operation tells the
    version it was made at, the version includes it, and the history has one more entry. *)
Theorem buffer_edit b ps edits started ended :
  let t := vis_text ps in let v := version (snapshot b) in let id := lamport_clock b in
  let ts := (Lamport.tick id).2 in
  buffer_wf b ps → roomy (snapshot b) ps → low (operations (history b)) → transaction_depth (history b) = 0%nat →
  Lamport.value id + 2 < U32 →
  edits ≠ [] → ordered (len t) 0 edits → len (concat (normalized t edits).*2) < U32 →
  ∃ b' op ps' ops h', edit b edits started ended = Some (b', Op_Edit op) ∧ buffer_wf b' ps' ∧
    vis_text ps' = edited 0 t (normalized t edits) ∧ rope_inv (visible_text (snapshot b')) (vis_text ps') ∧
    edit_timestamp op = ts ∧ edit_version op = v ∧ new_text op = (normalized t edits).*2 ∧
    version (snapshot b') = Global.observe v ts ∧ lamport_clock b' = (Lamport.tick ts).2 ∧
    deferred_ops b' = deferred_ops b ∧
    TreeMap.insert (operations (history b)) ts (Op_Edit op) = Some ops ∧
    group (with_entry (history b) ops (History.mk_entry (mk_transaction id [ts] v) started ended false)) = Some (history b', Some h').
Proof.
  intros t v id ts Hwf Hroomy Hlow Hdepth Hfits Hne Hord Hlen.
  destruct (edit_ok b ps edits started ended Hwf Hroomy Hlow Hdepth Hfits Hne Hord Hlen)
    as (b' & op & els & rest & ops & h' & Hedit & Hwf' & Htr & Hsrc & Hp & Hq & _ & Hrest).
  exists b', op, (el_piece <$> els ++ rest), ops, h'. split_and!; try apply Hrest; [done|done|by eapply performed_text|apply Hwf'].
Qed.

(** ** Concrete inputs *)

Lemma demo_wf r : buffer_wf (demo_buffer r) demo_pieces.
Proof.
  destruct (buffer_new_wf r 1 demo_input demo_input_utf8) as (b & E & Hwf & _); [by vm_compute|].
  unfold demo_buffer. by rewrite E.
Qed.

(** Replacing, inserting and deleting at once. *)
Definition demo_edits : edits_of :=
  [(mk_range 0 1, [72]); (mk_range 5 5, [33; 13; 10]); (mk_range 8 10, [])].

Lemma demo_ordered : ordered (len (vis_text demo_pieces)) 0 demo_edits.
Proof.
  assert (len (vis_text demo_pieces) = 11) as -> by by vm_compute. unfold demo_edits.
  cbn [ordered demo_edits Patch.start Patch.end_]. split_and!; try lia; try done; apply ascii_utf8; repeat constructor.
Qed.

Lemma buffer_new_shows_witness : ∃ b ps, buffer_new AGENT 1 demo_input = Some b ∧ buffer_wf b ps ∧
  vis_text ps = [104; 101; 108; 108; 111; 10; 119; 111; 114; 108; 100] ∧ line_ending (snapshot b) = Windows.
Proof.
  destruct (buffer_new_shows AGENT 1 demo_input demo_input_utf8) as (b & ps & ? & ? & ? & _ & _ & _ & ? & _); [by vm_compute|].
  exists b, ps. split_and!; assumption.
Defined.

Lemma buffer_edit_witness : ∃ b' op ps', edit (demo_buffer AGENT) demo_edits 0 1 = Some (b', Op_Edit op) ∧ buffer_wf b' ps' ∧
  vis_text ps' = [72; 101; 108; 108; 111; 33; 10; 10; 119; 111; 100].
Proof.
  destruct (buffer_edit (demo_buffer AGENT) demo_pieces demo_edits 0 1 (demo_wf AGENT) (demo_roomy AGENT))
    as (b' & op & ps' & _ & _ & ? & ? & E & _);
    [vm_compute; lia|done|by vm_compute|done|apply demo_ordered|by vm_compute|].
  exists b', op, ps'. split_and!; [assumption..|]. rewrite E. by vm_compute.
Defined.
