(* ===== verification/BufferReplicas.v ===== *)
(** * BufferReplicas: edits of other replicas

    [apply_op] of an edit keeps the intention of its author, and an edit has the same
    effect on its author's buffer and on a replica in the same state.  The operation that [edit] returns can be
    applied wherever the author's text is, and makes the same text of it: the ranges that it
    carries are positions in the text with its deleted parts. *)

From Stdlib Require Import Sorted.
From S2P Require Import Prelude Clock Locator UndoMap OperationQueue Patch Subscription History HistoryTheorems.
From S2P Require Import Bits Utf8 LineEnding PatchFacts TextSummary Chunk ChunkFacts Rope RopeFacts RopeConvert.
From S2P Require Import RopeEdit RopeSlice Keyed TreeMap TreeMapFacts SumTree SumTreeSpec SumTreeFind Cursor.
From S2P Require Import CursorSpec CursorFacts Fragment RopeBuilder Buffer BufferFacts BufferSteps BufferLocal.
From S2P Require Import BufferInv BufferCommit BufferSeen BufferRemote BufferNew BufferTheorems.
#[local] Open Scope N_scope.

(** ** The text as its author would see it *)

(** After the edit [ts], to somebody who has seen [v] besides. *)
Definition counted_with (v : Global.t) (ts : Lamport.t) (f : Fragment) : bool :=
  counted v f || bool_decide (timestamp f = ts).
Definition alive_with (v : Global.t) (log : list UndoMapEntry) (ts : Lamport.t) (f : Fragment) : bool :=
  bool_decide (timestamp f = ts) || was_alive v log f && negb (bool_decide (ts ∈ deletions f)).

(** What is visible of what [counts] leaves out. *)
Definition concurrent (counts : Fragment → bool) (f : Fragment) : bool := negb (counts f) && visible f.

Section author.
Context (v : Global.t) (log : list UndoMapEntry) (ts : Lamport.t) (ps : list piece).
Context (Hfresh : ∀ f, f ∈ ps.*1 → timestamp f ≠ ts ∧ ts ∉ deletions f).
Implicit Types (e : el) (els : list el).

Lemma was_alive_same f g : timestamp g = timestamp f → deletions g = deletions f → was_alive v log g = was_alive v log f.
Proof. intros H1 H2. unfold was_alive, counted. by rewrite H1, H2. Qed.

Lemma counted_with_old f : timestamp f ≠ ts → counted_with v ts f = counted v f.
Proof. intros Hf. unfold counted_with. by rewrite bool_decide_false, orb_false_r. Qed.

(** The fragment of an element, and what it was made of. *)
Lemma author_element e : el_ok ts e → (∀ f, source e = Some f → f ∈ ps.*1) →
  seen (counted_with v ts) (alive_with v log ts) (tag (el_fragment e) (el_text e)) =
  marks (counted v) (was_alive v log) [e].
Proof.
  intros (_ & _ & He) Hsrc. rewrite marks_el, seen_tag. unfold source in Hsrc. destruct (el_origin e) as [|f|f|f].
  - destruct He as (He & _). unfold counted_with, alive_with. by rewrite He, bool_decide_true, orb_true_r.
  - destruct (Hfresh f) as [H1 H2]; [by apply Hsrc|]. rewrite He, counted_with_old by done.
    unfold alive_with. by rewrite !bool_decide_false, andb_true_r by done.
  - destruct (Hfresh f) as [H1 H2]; [by apply Hsrc|]. destruct He as ((Ht & _) & _ & Hd).
    rewrite counted_with_old by congruence. unfold alive_with. rewrite Hd, !bool_decide_false by congruence.
    rewrite (was_alive_same f) by done. unfold counted. by rewrite Ht, andb_true_r.
  - destruct (Hfresh f) as [H1 H2]; [by apply Hsrc|]. destruct He as ((Ht & _) & _ & Hd).
    rewrite counted_with_old by congruence. unfold alive_with. rewrite Hd, bool_decide_false by congruence.
    rewrite bool_decide_true by (apply elem_of_app; right; by left).
    unfold counted. by rewrite Ht, andb_false_r.
Qed.

Lemma author_view els : Forall (el_ok ts) els → (∀ e f, e ∈ els → source e = Some f → f ∈ ps.*1) →
  seen (counted_with v ts) (alive_with v log ts) (tagged (el_piece <$> els)) = marks (counted v) (was_alive v log) els.
Proof.
  induction 1 as [|e els He _ IH]; intros Hsrc; [done|].
  change (e :: els) with ([e] ++ els). rewrite fmap_app, tagged_app, seen_app, marks_app, IH.
  - cbn [fmap list_fmap]. rewrite tagged_singleton, <- author_element; [done|done|]. intros f. apply Hsrc. by left.
  - intros e' f He'. apply Hsrc. by right.
Qed.

(** What the author could not see stays as it is. *)
Lemma concurrent_element e : el_ok ts e → (∀ f, source e = Some f → f ∈ ps.*1) →
  (quiet e ∨ (el_origin e = Added) ∨ erasing (was_alive v log) e) →
  view (concurrent (counted_with v ts)) (tag (el_fragment e) (el_text e)) =
  view (concurrent (counted v)) (src_bytes [e]).
Proof.
  intros (_ & _ & He) Hsrc Hkind. rewrite view_el, view_tag. unfold source in *. unfold quiet, erasing in Hkind.
  destruct (el_origin e) as [|f|f|f]; unfold concurrent, counted_with.
  - destruct He as (-> & _). by rewrite bool_decide_true, orb_true_r.
  - destruct (Hfresh f) as [H1 _]; [by apply Hsrc|]. by rewrite He, bool_decide_false, orb_false_r.
  - destruct (Hfresh f) as [H1 _]; [by apply Hsrc|]. destruct He as ((Ht & _) & Hv & _).
    unfold counted. by rewrite Ht, bool_decide_false, orb_false_r, Hv by done.
  - destruct (Hfresh f) as [H1 _]; [by apply Hsrc|]. destruct He as ((Ht & _) & _).
    destruct Hkind as [?|[?|[Ha _]]]; [done..|]. pose proof (alive_counted _ _ _ Ha) as Hc.
    unfold counted in *. by rewrite Ht, Hc.
Qed.

Lemma concurrent_view els : Forall (el_ok ts) els → (∀ e f, e ∈ els → source e = Some f → f ∈ ps.*1) →
  Forall (λ e, quiet e ∨ el_origin e = Added ∨ erasing (was_alive v log) e) els →
  view (concurrent (counted_with v ts)) (tagged (el_piece <$> els)) = view (concurrent (counted v)) (src_bytes els).
Proof.
  induction 1 as [|e els He _ IH]; intros Hsrc Hk; [done|]. apply Forall_cons in Hk as [Hke Hk].
  change (e :: els) with ([e] ++ els). rewrite fmap_app, tagged_app, src_bytes_app, !view_app, IH; [|by intros; eapply Hsrc; [by right|]|done].
  cbn [fmap list_fmap]. rewrite tagged_singleton. f_equal. apply concurrent_element; [done| |done]. intros f. apply Hsrc. by left.
Qed.
End author.

Lemma performs_kinds counts alive o q edits fulls els : performs counts alive o q edits fulls els →
  Forall (λ e, quiet e ∨ el_origin e = Added ∨ erasing alive e) els.
Proof.
  induction 1 as [|? ? ? ? ? ? ? ? ? ? Hk [Ha _] Hg _ _ _ IH]; [constructor|]. rewrite !Forall_app. split_and!; [..|done].
  - eapply Forall_impl; [exact Hk|]. auto.
  - eapply Forall_impl; [exact Ha|]. intros e [? _]. auto.
  - eapply Forall_impl; [exact Hg|]. auto.
Qed.

(** ** Applying an edit of another replica *)

(** Somebody could have made the edit: the author's clock was ahead of what the author had
    seen, and the ranges are places of the text that the author saw. *)
Record authored (op : EditOperation) (ps : list piece) (log : list UndoMapEntry) : Prop := {
  authored_clock : Forall (λ p, counted (edit_version op) p.1 = true → timestamp p.1 ≺ edit_timestamp op) ps;
  authored_some : ranges op ≠ [];
  authored_texts : length (ranges op) = length (new_text op);
  authored_ranges : ranges_ok (edit_version op) ps log 0 (zip (ranges op) (new_text op));
  authored_size : len (concat (new_text op)) < U32
}.

Lemma apply_edit_ok b ps log op :
  let ts := edit_timestamp op in let v := edit_version op in
  buffer_wf b ps → roomy (snapshot b) ps → undo_map_of (undo_map (snapshot b)) log →
  Global.observed (version (snapshot b)) ts = false →
  N.max (Lamport.value (lamport_clock b)) (Lamport.value ts) + 1 < U32 → authored op ps log →
  ∃ b' els rest fulls, apply_op b (Op_Edit op) = Some b' ∧ buffer_wf b' (el_piece <$> els ++ rest) ∧
    tracing ts ps [] 0 (els ++ rest) ∧ src_bytes (els ++ rest) = tagged ps ∧
    performs (counted v) (was_alive v log) 0 0 (zip (ranges op) (new_text op)) fulls els ∧ Forall quiet rest ∧
    version (snapshot b') = Global.observe (version (snapshot b)) ts ∧ undo_map (snapshot b') = undo_map (snapshot b) ∧
    lamport_clock b' = Lamport.observe (lamport_clock b) ts ∧ history b' = history b ∧
    deferred_ops b' = deferred_ops b ∧ deferred_replicas b' = deferred_replicas b.
Proof.
  intros ts v [Hok Hcanon Hclock Hops] Hroomy Hlog Hts Hfits [Hc Hne Hlen Hr Hsize].
  destruct (remote_edit_ok v b ps ts log (ranges op) (new_text op) Hok Hroomy Hts Hlog Hc Hne Hlen Hr Hsize)
    as (b1 & els & rest & fulls & Happly & Hsame & Hsnap & Hobs & Htr & Hsrc & Hp & Hq).
  destruct Hsame as (Hh1 & Hd1 & Hr1 & Hc1 & Hv1 & Hu1 & _).
  unfold apply_op. fold ts v. rewrite Hts, Happly. cbn [mbind option_bind].
  eexists _, els, rest, fulls. split; [done|].
  cbn [observe_clock observe_version with_clock with_version with_snapshot snapshot version undo_map lamport_clock history
       deferred_ops deferred_replicas].
  rewrite Hv1, Hc1. split_and!; try done. split.
  - split; [|done]. cbn [observe_clock observe_version with_clock with_version with_snapshot snapshot version subscriptions].
    rewrite Hv1. by apply snapshot_ok_version.
  - change (Global.canonical (Global.observe (version (snapshot b1)) ts)). rewrite Hv1. by apply Global.canonical_observe.
  - intros r. specialize (Hclock r). change (Global.get (Global.observe (version (snapshot b1)) ts) r <
      Lamport.value (Lamport.observe (lamport_clock b1) ts)).
    rewrite Hv1, Hc1, Lamport.value_observe, Global.get_observe by done. destruct (decide _); lia.
  - change (∃ l, becomes l (operations (history b1))). by rewrite Hh1.
Qed.

(** C6: applying an edit of another replica never panics and keeps the author's
    intention: to somebody who has seen what the author had seen and this edit, the text
    with its deleted parts becomes the author's text with the ranges deleted and the
    new texts before them, and what the author could not see is as visible as it was.
    The invariant holds again, version and clock have observed the edit, and the history and the
    deferred operations are as they were. *)
Theorem remote_edit_intention b ps log op :
  let ts := edit_timestamp op in let v := edit_version op in
  buffer_wf b ps → roomy (snapshot b) ps → undo_map_of (undo_map (snapshot b)) log →
  Global.observed (version (snapshot b)) ts = false →
  N.max (Lamport.value (lamport_clock b)) (Lamport.value ts) + 1 < U32 → authored op ps log →
  ∃ b' ps', apply_op b (Op_Edit op) = Some b' ∧ buffer_wf b' ps' ∧
    rope_inv (visible_text (snapshot b')) (vis_text ps') ∧
    seen (counted_with v ts) (alive_with v log ts) (tagged ps') =
      splice 0 (seen (counted v) (was_alive v log) (tagged ps)) (zip (ranges op) (new_text op)) ∧
    view (concurrent (counted_with v ts)) (tagged ps') = view (concurrent (counted v)) (tagged ps) ∧
    version (snapshot b') = Global.observe (version (snapshot b)) ts ∧
    lamport_clock b' = Lamport.observe (lamport_clock b) ts ∧ history b' = history b ∧
    deferred_ops b' = deferred_ops b ∧ deferred_replicas b' = deferred_replicas b.
Proof.
  intros ts v Hwf Hroomy Hlog Hts Hfits Hop.
  destruct (apply_edit_ok b ps log op Hwf Hroomy Hlog Hts Hfits Hop)
    as (b' & els & rest & fulls & Happly & Hwf' & Htr & Hsrc & Hp & Hq & Hv & _ & Hc & Hh & Hd & Hr).
  fold ts v in Hp, Htr.
  assert (∀ f, f ∈ ps.*1 → timestamp f ≠ ts ∧ ts ∉ deletions f) as Hfresh.
  { eapply fresh_fragments; [|exact Hts]. apply Hwf. }
  assert (∀ e f, e ∈ els ++ rest → source e = Some f → f ∈ ps.*1) as Hsources by (intros e f; eapply traced_source, Htr).
  exists b', (el_piece <$> els ++ rest). split_and!; try done.
  - apply Hwf'.
  - rewrite (author_view v log ts ps Hfresh) by (done || apply Htr).
    by rewrite (performs_marks _ _ _ _ _ _ _ _ Hp Hq), Hsrc.
  - rewrite (concurrent_view v log ts ps Hfresh) by (done || apply Htr ||
      (apply Forall_app; split; [by eapply performs_kinds|eapply Forall_impl; [exact Hq|auto]])).
    by rewrite Hsrc.
Qed.

(** ** The places that an operation names *)

Lemma src_head post x more0 : Forall (λ e, el_text e ≠ []) post → src_bytes post = x :: more0 →
  ∃ e more, e ∈ post ∧ source e = Some x.1 ∧ src_bytes post = tag x.1 (el_text e) ++ more.
Proof.
  induction 1 as [|e post Hne _ IH]; [done|]. intros E. unfold src_bytes in *. cbn in *.
  destruct (source e) as [f|] eqn:Hs.
  - destruct (el_text e) as [|c t] eqn:Ht; [done|]. cbn in E. injection E as <- _. exists e, (post ≫= λ e, match source e with Some f => tag f (el_text e) | None => [] end).
    split_and!; [by left|done|by rewrite Ht].
  - destruct (IH E) as (e' & more & ? & ? & ?). exists e', more. split_and!; [by right|done|done].
Qed.

Lemma tagged_elem x ps : x ∈ tagged ps → x.1 ∈ ps.*1.
Proof.
  induction ps as [|p ps IH]; [by intros ?%elem_of_nil|]. cbn. rewrite elem_of_cons. intros [Hx|Hx]%elem_of_app; [left|right; by apply IH].
  unfold tag in Hx. by apply list_elem_of_fmap in Hx as (c & -> & _).
Qed.

Lemma tag_snd f t : (tag f t).*2 = t.
Proof. unfold tag. induction t as [|c t IH]; [done|]. cbn. by rewrite IH. Qed.

(** A place between two elements of a trace. *)
Section place.
Context (v : Global.t) (log : list UndoMapEntry) (ts : Lamport.t) (ps : list piece) (pre post : list el).
Context (Hsrc : src_bytes (pre ++ post) = tagged ps) (Hok : Forall (el_ok ts) (pre ++ post)).
Context (Hwhole : Forall (whole visible) (pre ++ post)) (Hsized : Forall sized ps) (Hnodup : NoDup ps.*1).
Context (Hall : Forall (λ p, counted v p.1 = true ∧ was_alive v log p.1 = visible p.1) ps).

Lemma all_view l : Forall (λ p, counted v p.1 = true ∧ was_alive v log p.1 = visible p.1) l → view (counted v) (tagged l) = snd <$> tagged l.
Proof.
  induction 1 as [|p l [Hp _] _ IH]; [done|]. change (p :: l) with ([p] ++ l).
  rewrite tagged_app, view_app, fmap_app, IH, tagged_singleton, view_tag, Hp. by rewrite tag_snd.
Qed.

Lemma all_base A rest : ps = A ++ rest → base (counted v) A = len (tagged A).
Proof.
  intros Hps. unfold base. rewrite all_view; [by rewrite len_fmap|]. rewrite Hps in Hall. by apply Forall_app in Hall as [? _].
Qed.

Lemma src_utf8 els : Forall (el_ok ts) els → utf8 (snd <$> src_bytes els).
Proof.
  induction 1 as [|e els (Hs & _) _ IH]; [apply utf8_nil|]. change (e :: els) with ([e] ++ els).
  rewrite src_bytes_app, fmap_app. apply utf8_app; [|done]. unfold src_bytes. cbn. rewrite app_nil_r.
  destruct (source e) as [f|]; [|apply utf8_nil]. rewrite tag_snd. apply Hs.
Qed.

Lemma place_aligned : aligned ps (counted v) (full_len pre).
Proof.
  unfold aligned. rewrite (all_view _ Hall), <- Hsrc, src_bytes_app, fmap_app. unfold full_len.
  apply Forall_app in Hok as [_ Hpost].
  replace (len (src_bytes pre)) with (len (snd <$> src_bytes pre)) by apply len_fmap. by apply boundary_app, src_utf8.
Qed.

Lemma place_stands : stands v ps log (full_len pre).
Proof.
  intros A p B Hps Hc Ho. rewrite (all_base A (p :: B) Hps) in Ho.
  assert (p ∈ ps) as Hp by (rewrite Hps; apply elem_of_app; right; by left).
  rewrite Forall_forall in Hall. destruct (Hall p Hp) as [_ ->]. apply not_false_iff_true. intros Hv.
  rewrite Forall_forall in Hsized. destruct (Hsized p Hp) as (Hlen & _).
  pose proof Hsrc as E. rewrite Hps, tagged_app, src_bytes_app in E. change (p :: B) with ([p] ++ B) in E.
  rewrite tagged_app, tagged_singleton in E. unfold full_len in Ho. set (k := len (src_bytes pre) - len (tagged A)) in *.
  assert (src_bytes post = tag p.1 (ldrop k p.2) ++ tagged B) as Epost.
  { apply (f_equal (ldrop (len (src_bytes pre)))) in E. rewrite ldrop_app_r, N.sub_diag, ldrop_0 in E by lia.
    rewrite E, ldrop_app_r by lia. fold k. rewrite ldrop_app_l by (unfold tag; rewrite len_fmap; lia).
    f_equal. unfold tag, ldrop. by rewrite fmap_drop. }
  assert (len (ldrop k p.2) = flen p.1 - k) as Hk by (rewrite len_ldrop; lia).
  destruct (ldrop k p.2) as [|c t] eqn:Edrop; [rewrite len_nil in Hk; lia|].
  apply Forall_app in Hok as [_ Hpost]. apply Forall_app in Hwhole as [_ Hw].
  destruct (src_head post (p.1, c) (tag p.1 t ++ tagged B)) as (e & more & He & Hse & Epost').
  { eapply Forall_impl; [exact Hpost|]. intros e (Hs & _). apply Hs. } { by rewrite Epost. }
  rewrite Forall_forall in Hpost. destruct (Hpost e He) as ((Hfe & _) & _). cbn [el_piece fst snd] in Hfe.
  rewrite Forall_forall in Hw. specialize (Hw e He). unfold whole in Hw. rewrite Hse in Hw. cbn [fst] in *.
  destruct Hw as [?|Hw]; [congruence|]. rewrite Epost' in Epost.
  assert (p.1 ∈ B.*1) as Hin.
  { apply app_eq_inv in Epost as [(z & Ez & EB)|(z & Ez & _)].
    - destruct z as [|x z].
      + exfalso. apply (f_equal len) in Ez. rewrite app_nil_r in Ez. unfold tag in Ez. rewrite !len_fmap in Ez. lia.
      + assert (x ∈ tag p.1 (el_text e)) as Hx by (rewrite Ez; apply elem_of_app; right; by left).
        unfold tag in Hx. apply list_elem_of_fmap in Hx as (c' & -> & _).
        apply (tagged_elem (p.1, c')). rewrite EB. by left.
    - exfalso. apply (f_equal len) in Ez. rewrite len_app in Ez. unfold tag in Ez. rewrite !len_fmap in Ez. lia. }
  rewrite Hps, fmap_app in Hnodup. apply NoDup_app in Hnodup as (_ & _ & Hnodup). cbn in Hnodup.
  by apply NoDup_cons in Hnodup as [? _].
Qed.
End place.

Section ranges.
Context (v : Global.t) (log : list UndoMapEntry) (ts : Lamport.t) (ps : list piece) (tr : list el).
Context (Hsrc : src_bytes tr = tagged ps) (Hok : Forall (el_ok ts) tr) (Hwhole : Forall (whole visible) tr).
Context (Hsized : Forall sized ps) (Hnodup : NoDup ps.*1).
Context (Hall : Forall (λ p, counted v p.1 = true ∧ was_alive v log p.1 = visible p.1) ps).

Lemma place_ok pre post : tr = pre ++ post →
  aligned ps (counted v) (full_len pre) ∧ stands v ps log (full_len pre) ∧ full_len pre ≤ base (counted v) ps.
Proof.
  intros Htr. rewrite Htr in *. split_and!; [by eapply place_aligned|by eapply place_stands|].
  rewrite (all_base v log ps Hall ps []) by by rewrite app_nil_r. rewrite <- Hsrc, src_bytes_app, len_app. unfold full_len. lia.
Qed.

Lemma performs_ranges counts alive o q edits fulls els : performs counts alive o q edits fulls els → Forall utf8 edits.*2 →
  ∀ pre rest, tr = pre ++ els ++ rest → q = full_len pre → ranges_ok v ps log q (zip fulls edits.*2).
Proof.
  induction 1 as [|o q range text edits fulls kept added gone els Hk Ha Hg _ _ _ IH]; intros Hu pre rest Htr Hq; [done|].
  cbn [fmap list_fmap zip zip_with] in *. apply Forall_cons in Hu as [Hu Hus].
  destruct (place_ok (pre ++ kept) ((added ++ gone ++ els) ++ rest)) as (H1 & H2 & _); [by rewrite Htr, <- !(assoc_L (++))|].
  destruct (place_ok (pre ++ kept ++ added ++ gone) (els ++ rest)) as (H3 & H4 & H5); [by rewrite Htr, <- !(assoc_L (++))|].
  destruct (adds_src _ _ Ha) as [Ha0 _].
  assert (full_len (pre ++ kept) = q + full_len kept) as E1 by (unfold full_len in *; rewrite src_bytes_app, len_app; lia).
  assert (full_len (pre ++ kept ++ added ++ gone) = q + full_len kept + full_len gone) as E2.
  { unfold full_len in *. rewrite !src_bytes_app, Ha0, !len_app, len_nil. lia. }
  rewrite E1 in *. rewrite E2 in *. cbn [ranges_ok Patch.start Patch.end_]. split_and!; try done; [lia..|].
  apply (IH Hus (pre ++ kept ++ added ++ gone) rest); [by rewrite Htr, <- !(assoc_L (++))|done].
Qed.
End ranges.

(** ** A version that has seen everything *)

Lemma undone_everywhere v log e : (∀ e u n, UndoMap.recorded e u n log → Global.observed v u = true) → undone_at v log e = undone log e.
Proof.
  intros Hall. unfold undone_at, undone. f_equal. apply N.le_antisymm; apply max_count_le; intros u c Hrec Hu.
  - by apply (proj1 (max_count_le (λ _, true) e log _) (N.le_refl _) u c).
  - apply (proj1 (max_count_le (λ u, Global.observed v u) e log _) (N.le_refl _) u c); eauto.
Qed.

Lemma all_alive v s ps log : snapshot_ok v s ps → undo_map_of (undo_map s) log →
  Forall (λ p, counted v p.1 = true ∧ was_alive v log p.1 = visible p.1) ps.
Proof.
  intros Hs Hlog. pose proof Hlog as (_ & _ & _ & Hl & _). destruct (ok_undos _ _ _ Hs) as (_ & l & _ & Hl' & _ & Hrec).
  rewrite Hl in Hl'. subst l. pose proof (ok_flags _ _ _ Hs) as Hflags. pose proof (ok_known _ _ _ Hs) as Hknown.
  rewrite Forall_fmap in Hknown. rewrite Forall_forall in *. intros p Hp. specialize (Hflags p Hp). destruct (Hknown p Hp) as (_ & Hts & Hdel).
  rewrite (is_visible_eq _ _ _ Hlog) in Hflags. injection Hflags as <-. unfold counted. split; [done|].
  unfold was_alive, shown_under, counted. rewrite Hts. cbn [andb].
  rewrite undone_everywhere by (intros e u n Hr; by destruct (Hrec e u n Hr)). f_equal.
  assert (∀ d, d ∈ deletions p.1 → negb (Global.observed v d) || undone_at v log d = undone log d) as Hd.
  { intros d Hd. rewrite Forall_forall in Hdel. specialize (Hdel d Hd). cbn in Hdel. rewrite Hdel. cbn.
    apply undone_everywhere. intros e u n Hr. by destruct (Hrec e u n Hr). }
  induction (deletions p.1) as [|d l IH]; [done|]. cbn. rewrite Hd by by left. f_equal. apply IH.
  - apply Forall_forall. intros x Hx. rewrite Forall_forall in Hdel. apply Hdel. by right.
  - intros x Hx. apply Hd. by right.
Qed.

Lemma marks_ext counts counts' alive alive' els :
  (∀ e f, e ∈ els → source e = Some f → counts f = counts' f ∧ alive f = alive' f) → marks counts alive els = marks counts' alive' els.
Proof.
  induction els as [|e els IH]; intros H; [done|]. change (e :: els) with ([e] ++ els).
  rewrite !marks_app, IH by (intros e' f He'; apply H; by right). f_equal. rewrite !marks_el.
  specialize (H e). unfold source in H. destruct (el_origin e) as [|f|f|f]; [done|..];
    (destruct (H f) as [Hc Ha]; [by left|done|]; rewrite Hc; by try rewrite Ha).
Qed.

Lemma seen_ext counts counts' alive alive' ps :
  Forall (λ p, counts p.1 = counts' p.1 ∧ alive p.1 = alive' p.1) ps → seen counts alive (tagged ps) = seen counts' alive' (tagged ps).
Proof.
  induction 1 as [|p ps [Hc Ha] _ IH]; [done|]. change (p :: ps) with ([p] ++ ps).
  by rewrite tagged_app, !seen_app, IH, tagged_singleton, !seen_tag, Hc, Ha.
Qed.

Lemma fragments_NoDup v s ps : snapshot_ok v s ps → NoDup ps.*1.
Proof.
  intros Hs. apply (NoDup_fmap_1 id). pose proof (ok_ids _ _ _ Hs) as Hids.
  induction Hids as [|i l _ IH Hi]; constructor; [|done]. intros Hin. rewrite Forall_forall in Hi. by apply (olt_irrefl i), Hi.
Qed.

Lemma normalized_utf8 n t edits : ∀ o, ordered n o edits → Forall utf8 (normalized t edits).*2.
Proof.
  induction edits as [|[r text] edits IH]; intros o; [constructor|]. intros (_ & _ & Hu & Hord).
  constructor; [by apply normalize_utf8|by eapply IH].
Qed.

(** What a local edit returns could be an operation of somebody. *)
Lemma edit_authored v log ts ps t edits els rest op :
  tracing ts ps [] 0 (els ++ rest) → src_bytes (els ++ rest) = tagged ps →
  performs visible visible 0 0 (normalized t edits) (ranges op) els → Forall (whole visible) (els ++ rest) →
  edit_timestamp op = ts → edit_version op = v → new_text op = (normalized t edits).*2 →
  Forall sized ps → NoDup ps.*1 → Forall (λ p, counted v p.1 = true ∧ was_alive v log p.1 = visible p.1) ps →
  (∀ r, Global.get v r < Lamport.value ts) → edits ≠ [] → ordered (len t) 0 edits →
  len (concat (normalized t edits).*2) < U32 → authored op ps log.
Proof.
  intros Htr Hsrc Hp Hwhole Hts Hov Hnt Hsized Hnodup Hall Hclk Hne Hord Hlen. split.
  - apply Forall_forall. intros p _ Hc. rewrite Hts. unfold counted in Hc. rewrite Hov, Global.observed_iff in Hc.
    apply Lamport.olt_iff. left. specialize (Hclk (Lamport.replica_id (timestamp p.1))). lia.
  - intros E. rewrite E in Hp. inversion Hp as [Hnil|]. by destruct edits.
  - rewrite Hnt, length_fmap. clear -Hp. induction Hp as [|? ? ? ? ? ? ? ? ? ? _ _ _ _ _ _ IH]; [done|]. cbn. by rewrite IH.
  - rewrite Hov, Hnt. eapply (performs_ranges v log ts ps (els ++ rest)); try done.
    + apply Htr.
    + by eapply normalized_utf8.
    + by rewrite app_nil_l.
    + done.
  - by rewrite Hnt.
Qed.

(** ** Concrete inputs *)

Definition demo_op : EditOperation :=
  {| edit_timestamp := Lamport.Mk 5 AGENT; edit_version := base_version demo_text;
     ranges := [mk_range 0 1; mk_range 5 6]; new_text := [[72]; []] |}.

Lemma demo_authored : authored demo_op demo_pieces [].
Proof.
  assert (∀ o, stands (base_version demo_text) demo_pieces [] o) as Hstands.
  { intros o A p B E _ _. assert (p ∈ demo_pieces) as Hp by (rewrite E; apply elem_of_app; right; by left).
    assert (p = (base_fragment demo_text, demo_text)) as -> by (by apply list_elem_of_singleton in Hp). by vm_compute. }
  assert (base (counted (base_version demo_text)) demo_pieces = 11) as Hbase by by vm_compute.
  split; [|done|done| |by vm_compute].
  - apply Forall_singleton. intros _. by vm_compute.
  - cbn [zip zip_with ranges new_text demo_op ranges_ok Patch.start Patch.end_ edit_version]. rewrite Hbase.
    split_and!; try lia; try apply Hstands; try (apply ascii_utf8; repeat constructor); by vm_compute.
Qed.

Lemma demo_log r : undo_map_of (undo_map (snapshot (demo_buffer r))) [].
Proof.
  assert (undo_map (snapshot (demo_buffer r)) = empty_undo_map) as -> by by vm_compute. apply empty_of.
Qed.

Lemma remote_edit_intention_witness : ∃ b' ps', apply_op (demo_buffer LOCAL) (Op_Edit demo_op) = Some b' ∧ buffer_wf b' ps' ∧
  shown (seen (counted_with (base_version demo_text) (Lamport.Mk 5 AGENT))
    (alive_with (base_version demo_text) [] (Lamport.Mk 5 AGENT)) (tagged ps')) =
  [72; 101; 108; 108; 111; 119; 111; 114; 108; 100].
Proof.
  destruct (remote_edit_intention (demo_buffer LOCAL) demo_pieces [] demo_op (demo_wf LOCAL) (demo_roomy LOCAL) (demo_log LOCAL))
    as (b' & ps' & Happly & Hwf & _ & Hseen & _); [by vm_compute|by vm_compute|apply demo_authored|].
  exists b', ps'. split_and!; [done|done|]. cbn [edit_version edit_timestamp demo_op] in Hseen. rewrite Hseen. by vm_compute.
Defined.
