(* ===== verification/BufferRestores.v ===== *)
(** * BufferRestores: undo and redo take text away and bring it back

    [Buffer::undo] and [Buffer::redo] of [crates/text/src/text.rs], and the undo operations of
    other replicas.  The edits of a transaction are undone when an odd number of undo
    operations has named them ([undone]); the text shows a fragment when its insertion
    is not undone and all its deletions are ([shown_under]). *)

From Stdlib Require Import Sorted.
From S2P Require Import Prelude Clock Locator UndoMap OperationQueue Patch Subscription History HistoryTheorems.
From S2P Require Import Bits Utf8 LineEnding PatchFacts TextSummary Chunk ChunkFacts Rope RopeFacts RopeConvert.
From S2P Require Import RopeEdit RopeSlice Keyed TreeMap TreeMapFacts SumTree SumTreeSpec SumTreeFind Cursor.
From S2P Require Import CursorSpec CursorFacts Fragment RopeBuilder Buffer BufferFacts BufferSteps BufferLocal.
From S2P Require Import BufferInv BufferCommit BufferUndo BufferNew BufferTheorems BufferReplicas.
#[local] Open Scope N_scope.

(** ** Counting *)

Definition count_in (l : list UndoMapEntry) (e : Lamport.t) : N := max_count (λ _, true) e l.

(** The counts of an undo of the edits [es], as [log] stands. *)
Record counts_for (log : list UndoMapEntry) (es : list Lamport.t) (counts : list (Lamport.t * N)) : Prop := {
  counts_NoDup : NoDup counts.*1;
  counts_keys e : e ∈ counts.*1 ↔ e ∈ es;
  counts_next e n : (e, n) ∈ counts → n = N.min (count_in log e + 1) (U32 - 1)
}.

Lemma counts_insert_keys m k n : NoDup m.*1 →
  NoDup (counts_insert m k n).*1 ∧ (∀ e, e ∈ (counts_insert m k n).*1 ↔ e = k ∨ e ∈ m.*1) ∧
  (∀ e c, (e, c) ∈ counts_insert m k n → e = k ∧ c = n ∨ (e, c) ∈ m).
Proof.
  intros Hnd. unfold counts_insert. case_decide as Hk.
  - assert (((λ '(k', n'), if decide (k' = k) then (k', n) else (k', n')) <$> m).*1 = m.*1) as ->.
    { rewrite <- list_fmap_compose. apply list_fmap_ext. intros i [k' n'] _. cbn. by case_decide. }
    split_and!; [done| |].
    + intros e. split; [by right|]. by intros [->|?].
    + intros e c ([k' n'] & E & Hin)%list_elem_of_fmap. case_decide as Hk'; injection E as -> ->; [by left|by right].
  - rewrite fmap_app. change ([(k, n)].*1) with [k]. split_and!.
    + apply NoDup_app. split_and!; [done| |apply NoDup_singleton]. intros x Hx ->%list_elem_of_singleton. done.
    + intros e. rewrite elem_of_app, list_elem_of_singleton. naive_solver.
    + intros e c [?|E%list_elem_of_singleton]%elem_of_app; [by right|left]. by injection E as -> ->.
Qed.

Lemma undo_counts_spec m log es : undo_map_of m log → ∃ counts, undo_counts m es [] = Some counts ∧ counts_for log es counts.
Proof.
  intros Hm.
  assert (∀ es done acc, counts_for log done acc → ∃ counts, undo_counts m es acc = Some counts ∧ counts_for log (done ++ es) counts) as H.
  { clear es. induction es as [|e es IH]; intros dn acc Hacc.
    { exists acc. by rewrite app_nil_r. }
    cbn [undo_counts]. unfold undo_count. rewrite (count_from_spec _ _ _ _ Hm). cbn [mbind option_bind]. fold (count_in log e).
    destruct (IH (dn ++ [e]) (counts_insert acc e (N.min (count_in log e + 1) (U32 - 1)))) as (counts & -> & Hc).
    - destruct Hacc as [H1 H2 H3]. destruct (counts_insert_keys acc e (N.min (count_in log e + 1) (U32 - 1)) H1) as (K1 & K2 & K3).
      split; [done| |].
      + intros x. rewrite K2, H2, elem_of_app, list_elem_of_singleton. naive_solver.
      + intros x n [[-> ->]|Hx]%K3; [done|by apply H3].
    - exists counts. by rewrite <- (assoc_L (++)) in Hc. }
  destruct (H es [] []) as (counts & E & Hc); [|by exists counts].
  split; [constructor|done|by intros e n ?%elem_of_nil].
Qed.

(** One more undo of an edit changes whether it is undone. *)
Lemma count_raised log log' ts es counts : counts_for log es counts → (∀ e n, ¬ UndoMap.recorded e ts n log) →
  (∀ e u n, UndoMap.recorded e u n log' ↔
    if decide (u = ts ∧ e ∈ counts.*1) then (e, n) ∈ counts else UndoMap.recorded e u n log) →
  ∀ e, (e ∈ es → count_in log e + 1 < U32) → count_in log' e = if decide (e ∈ es) then count_in log e + 1 else count_in log e.
Proof.
  intros [Hnd Hkeys Hnext] Hfresh Hrec e Hfits. case_decide as He.
  - specialize (Hfits He). assert (e ∈ counts.*1) as Hin by by apply Hkeys. pose proof Hin as ([e' n] & Ee & Hen)%list_elem_of_fmap. cbn in Ee. subst e'.
    assert (n = count_in log e + 1) as -> by (rewrite (Hnext _ _ Hen); lia).
    apply N.le_antisymm.
    + apply max_count_le. intros u c Hr _. rewrite Hrec in Hr. case_decide as Hd.
      * rewrite (Hnext _ _ Hr). lia.
      * etransitivity; [|apply N.le_add_r]. by apply (proj1 (max_count_le (λ _, true) e log _) (N.le_refl _) u c).
    + apply (proj1 (max_count_le (λ _, true) e log' _) (N.le_refl _) ts); [|done]. rewrite Hrec. by rewrite decide_True.
  - apply max_count_ext. intros u c _. rewrite Hrec, decide_False; [done|]. intros [_ Hc%Hkeys]. done.
Qed.

(** ** Undoing a transaction *)

(** The edits of [t] are known and none of the counters is exhausted. *)
Record undoable (b : Buffer) (t : Transaction) : Prop := {
  undoable_edits e : e ∈ edit_ids t → Global.observed (version (snapshot b)) e = true ∧ e ≠ base_timestamp ∧
    ∃ n, undo_count (undo_map (snapshot b)) e = Some n ∧ n + 1 < U32;
  undoable_low counts m : undo_counts (undo_map (snapshot b)) (edit_ids t) [] = Some counts →
    UndoMap.insert (undo_map (snapshot b)) {| undo_timestamp := lamport_clock b; undo_version := version (snapshot b); counts := counts |} = Some m →
    low m;
  undoable_operations : low (operations (history b));
  undoable_clock : Lamport.value (lamport_clock b) + 1 < U32
}.

Definition with_operations (h : History Rope) (ops : map_tree Lamport.t Operation) : History Rope :=
  mk_history (base_text h) ops (undo_stack h) (redo_stack h) (transaction_depth h) (group_interval h).

(** What recording [u] does to the log. *)
Definition records (u : UndoOperation) (log log' : list UndoMapEntry) : Prop :=
  ∀ e w n, UndoMap.recorded e w n log' ↔
    if decide (w = undo_timestamp u ∧ e ∈ (counts u).*1) then (e, n) ∈ counts u else UndoMap.recorded e w n log.

(** What an undo of the edits [es] does to what is undone. *)
Definition flips (es : list Lamport.t) (log log' : list UndoMapEntry) : Prop :=
  ∀ e, undone log' e = if decide (e ∈ es) then negb (undone log e) else undone log e.

Lemma flips_of log log' ts es counts : counts_for log es counts → (∀ e n, ¬ UndoMap.recorded e ts n log) →
  (∀ e u n, UndoMap.recorded e u n log' ↔
    if decide (u = ts ∧ e ∈ counts.*1) then (e, n) ∈ counts else UndoMap.recorded e u n log) →
  (∀ e, e ∈ es → count_in log e + 1 < U32) → flips es log log'.
Proof.
  intros Hc Hfresh Hrec Hfits e. unfold undone. fold (count_in log' e) (count_in log e).
  rewrite (count_raised log log' ts es counts Hc Hfresh Hrec e (Hfits e)). case_decide; [|done].
  by rewrite N.add_1_r, N.odd_succ, N.negb_odd.
Qed.

(** Nobody has undone anything with an operation that nobody has seen. *)
Lemma unrecorded v s ps log ts e n : snapshot_ok v s ps → undo_map_of (undo_map s) log →
  Global.get v (Lamport.replica_id ts) < Lamport.value ts → ¬ UndoMap.recorded e ts n log.
Proof.
  intros Hs (_ & _ & _ & Hl & _) Hts Hr. destruct (ok_undos _ _ _ Hs) as (h & l & _ & Hl' & _ & Hrec).
  rewrite <- Hl, Hl' in Hr. destruct (Hrec _ _ _ Hr) as [_ H]. rewrite (unobserved v ts Hts) in H. done.
Qed.

Lemma undo_or_redo_ok b ps log t :
  let v := version (snapshot b) in let ts := lamport_clock b in
  buffer_wf b ps → roomy (snapshot b) ps → undo_map_of (undo_map (snapshot b)) log → undoable b t →
  ∃ b' u ps' log' ops, undo_or_redo b t = Some (b', Op_Undo u) ∧ buffer_wf b' ps' ∧
    undo_map_of (undo_map (snapshot b')) log' ∧ Forall2 (reshown log') ps ps' ∧ flips (edit_ids t) log log' ∧
    records u log log' ∧ counts_for log (edit_ids t) (counts u) ∧ undo_timestamp u = ts ∧ undo_version u = v ∧
    version (snapshot b') = Global.observe v ts ∧ lamport_clock b' = (Lamport.tick ts).2 ∧ deferred_ops b' = deferred_ops b ∧
    TreeMap.insert (operations (history b)) ts (Op_Undo u) = Some ops ∧ history b' = with_operations (history b) ops.
Proof.
  intros v ts [[Hs Hobs] Hcanon Hclock [l Hl]] Hroomy Hlog [Hedits Hlow Hops Hfits].
  destruct (undo_counts_spec _ _ (edit_ids t) Hlog) as (counts & Hcounts & Hfor).
  assert (∀ e, e ∈ edit_ids t → count_in log e + 1 < U32) as Hsmall.
  { intros e He. destruct (Hedits e He) as (_ & _ & n & Hn & Hlt). unfold undo_count in Hn.
    rewrite (count_from_spec _ _ _ _ Hlog) in Hn. by injection Hn as <-. }
  set (u := {| undo_timestamp := ts; undo_version := v; UndoMap.counts := counts |}).
  set (b1 := observe_version (with_clock b (Lamport.tick ts).2) ts).
  destruct (apply_undo_ok b1 ps v log u) as (b2 & ps' & log' & Happly & Hs2 & Hobs2 & Hlog2 & Hre & Hrec & Hv2 & Hh2 & Hc2 & Hd2 & _);
    [by apply snapshot_ok_version|done|by destruct Hroomy|done|apply Hfor| | |intros m Hm; by apply (Hlow counts m)|].
  { cbn. rewrite (counts_keys _ _ _ Hfor). intros He. by destruct (Hedits _ He) as (_ & ? & _). }
  { cbn. intros e He. apply (counts_keys _ _ _ Hfor) in He. by destruct (Hedits e He). }
  destruct (insert_map (operations (history b)) l ts (Op_Undo u)) as (ops & l' & _ & Hins & Hbec & _).
  { destruct Hl as ([h Hw] & Hl & Hsl). exists h. split_and!; try done. by apply (low_wf h (operations (history b))). }
  unfold undo_or_redo. rewrite Hcounts. cbn [mbind option_bind]. unfold undo_operations. fold ts v.
  rewrite (surjective_pairing (Lamport.tick ts)). change ((Lamport.tick ts).1) with ts. fold b1 u. rewrite Happly. cbn [mbind option_bind].
  rewrite Hh2. unfold History.push. change (History.timestamp (Op_Undo u)) with ts. change (history b1) with (history b). rewrite Hins. cbn [mbind option_bind].
  eexists _, u, ps', log', ops. split; [done|].
  cbn [with_history snapshot version lamport_clock history deferred_ops]. rewrite Hv2, Hc2. split_and!; try done.
  - split; cbn [with_history history lamport_clock snapshot].
    + split; [|done]. cbn. rewrite Hv2. exact Hs2.
    + rewrite Hv2. change (Global.canonical (Global.observe v ts)). by apply Global.canonical_observe.
    + intros r. specialize (Hclock r). fold v ts in Hclock. rewrite Hv2, Hc2.
      change (Global.get (Global.observe v ts) r < Lamport.value (Lamport.tick ts).2).
      rewrite Lamport.value_tick, Global.get_observe by done. destruct (decide _); lia.
    + by exists l'.
  - eapply flips_of; [exact Hfor| |exact Hrec|exact Hsmall]. intros e' n. eapply unrecorded; [exact Hs|exact Hlog|apply Hclock].
Qed.

(** ** What is shown *)

Lemma view_ext (P Q : Fragment → bool) l : (∀ f n, (f, n) ∈ l → P f = Q f) → view P l = view Q l.
Proof.
  induction l as [|[f n] l IH]; intros HPQ; [done|]. change ((f, n) :: l) with ([(f, n)] ++ l). rewrite !view_app, IH.
  - f_equal. unfold view. rewrite !filter_cons. cbn. by rewrite (HPQ f n) by by left.
  - intros g m Hg. apply (HPQ g m). by right.
Qed.

Lemma reshown_view l log ps qs : Forall2 (reshown log) ps qs → view (shown_under l) (tagged qs) = view (shown_under l) (tagged ps).
Proof.
  induction 1 as [|p q ps qs (m & -> & _) _ IH]; [done|]. change (p :: ps) with ([p] ++ ps). change (?q :: qs) with ([q] ++ qs).
  rewrite !tagged_app, !view_app, IH, !tagged_singleton, !view_tag. done.
Qed.

Lemma flags_view v s ps log : snapshot_ok v s ps → undo_map_of (undo_map s) log → view (shown_under log) (tagged ps) = vis_text ps.
Proof.
  intros Hs Hlog. rewrite <- view_visible. apply view_ext. intros f n Hf%tagged_elem. cbn [fst] in Hf.
  apply list_elem_of_fmap in Hf as (p & -> & Hp). pose proof (flags_shown _ _ _ _ Hs Hlog) as H. rewrite Forall_forall in H. by apply H.
Qed.

(** ** Undo and redo *)

Lemma wf_with_history b ps h : buffer_wf b ps → operations h = operations (history b) → buffer_wf (with_history b h) ps.
Proof. intros [H1 H2 H3 H4] Hh. split; [done..|]. cbn. by rewrite Hh. Qed.

Lemma undoable_history b h t : undoable b t → operations h = operations (history b) → undoable (with_history b h) t.
Proof. intros [H1 H2 H3 H4] Hh. split; [done..| |done]. cbn. by rewrite Hh. Qed.

(** What [undo] and [redo] of the newest transaction come to. *)
Record turned_over (b b' : Buffer) (ps : list piece) (log : list UndoMapEntry) (t : Transaction) (u : UndoOperation) (ps' : list piece)
    (log' : list UndoMapEntry) : Prop := {
  over_wf : buffer_wf b' ps';
  over_log : undo_map_of (undo_map (snapshot b')) log';
  over_pieces : Forall2 (reshown log') ps ps';
  over_flips : flips (edit_ids t) log log';
  over_records : records u log log';
  over_text : vis_text ps' = view (shown_under log') (tagged ps);
  over_timestamp : undo_timestamp u = lamport_clock b;
  over_undo_version : undo_version u = version (snapshot b);
  over_version : version (snapshot b') = Global.observe (version (snapshot b)) (lamport_clock b);
  over_counts : counts_for log (edit_ids t) (counts u)
}.

(** The transaction of [entry] is undone, or redone, after the history has become [h]. *)
Lemma moved_ok b ps log h t :
  buffer_wf b ps → roomy (snapshot b) ps → undo_map_of (undo_map (snapshot b)) log → undoable b t →
  operations h = operations (history b) →
  ∃ b' u ps' log' ops, undo_or_redo (with_history b h) t = Some (b', Op_Undo u) ∧ turned_over b b' ps log t u ps' log' ∧
    history b' = with_operations h ops.
Proof.
  intros Hwf Hroomy Hlog Hun Hh.
  destruct (undo_or_redo_ok (with_history b h) ps log t) as (b' & u & ps' & log' & ops & E & Hwf' & Hlog' & Hre & Hfl & Hrec & Hc & Hu1 & Hu2 & Hv & _ & _ & _ & Hh');
    [by apply wf_with_history|done|done|by apply undoable_history|].
  exists b', u, ps', log', ops. split_and!; try done. split; try done. by eapply reshown_text.
Qed.

Lemma undo_ok b ps log pre entry :
  let t := transaction entry in let h := history b in
  buffer_wf b ps → roomy (snapshot b) ps → undo_map_of (undo_map (snapshot b)) log → undoable b t →
  transaction_depth h = 0%nat → undo_stack h = pre ++ [entry] →
  ∃ b' u ps' log', undo b = Some (b', Some (entry_id entry, Op_Undo u)) ∧ turned_over b b' ps log t u ps' log' ∧
    undo_stack (history b') = pre ∧ redo_stack (history b') = redo_stack h ++ [entry] ∧ transaction_depth (history b') = 0%nat.
Proof.
  intros t h Hwf Hroomy Hlog Hun Hdepth Hstack. unfold undo, pop_undo. fold h. rewrite Hdepth, Hstack, pop_snoc. cbn [Nat.eqb mbind option_bind].
  destruct (moved_ok b ps log (with_stacks h pre (redo_stack h ++ [entry])) t Hwf Hroomy Hlog Hun)
    as (b' & u & ps' & log' & ops & E & Hover & Hh'); [done|].
  fold t. rewrite E. cbn [mbind option_bind]. exists b', u, ps', log'. rewrite Hh'. by split_and!.
Qed.

Lemma redo_ok b ps log post entry :
  let t := transaction entry in let h := history b in
  buffer_wf b ps → roomy (snapshot b) ps → undo_map_of (undo_map (snapshot b)) log → undoable b t →
  transaction_depth h = 0%nat → redo_stack h = post ++ [entry] →
  ∃ b' u ps' log', redo b = Some (b', Some (entry_id entry, Op_Undo u)) ∧ turned_over b b' ps log t u ps' log' ∧
    undo_stack (history b') = undo_stack h ++ [entry] ∧ redo_stack (history b') = post ∧ transaction_depth (history b') = 0%nat.
Proof.
  intros t h Hwf Hroomy Hlog Hun Hdepth Hstack. unfold redo, pop_redo. fold h. rewrite Hdepth, Hstack, pop_snoc. cbn [Nat.eqb mbind option_bind].
  destruct (moved_ok b ps log (with_stacks h (undo_stack h ++ [entry]) post) t Hwf Hroomy Hlog Hun)
    as (b' & u & ps' & log' & ops & E & Hover & Hh'); [done|].
  fold t. rewrite E. cbn [mbind option_bind]. exists b', u, ps', log'. rewrite Hh'. by split_and!.
Qed.

(** C13: [undo] takes the newest transaction off the undo stack, and each of its edits that was
    done is undone and the other way round: the text shows exactly the fragments whose
    insertion is not undone and whose deletions all are.  The operation tells the
    version that it was made at and the raised counts. *)
Theorem buffer_undo b ps log pre entry :
  let t := transaction entry in let v := version (snapshot b) in let h := history b in
  buffer_wf b ps → roomy (snapshot b) ps → undo_map_of (undo_map (snapshot b)) log → undoable b t →
  transaction_depth h = 0%nat → undo_stack h = pre ++ [entry] →
  ∃ b' u ps' log', undo b = Some (b', Some (entry_id entry, Op_Undo u)) ∧ buffer_wf b' ps' ∧
    undo_map_of (undo_map (snapshot b')) log' ∧ flips (edit_ids t) log log' ∧
    rope_inv (visible_text (snapshot b')) (view (shown_under log') (tagged ps)) ∧ Forall2 (reshown log') ps ps' ∧
    undo_timestamp u = lamport_clock b ∧ undo_version u = v ∧ counts_for log (edit_ids t) (counts u) ∧
    version (snapshot b') = Global.observe v (lamport_clock b) ∧
    undo_stack (history b') = pre ∧ redo_stack (history b') = redo_stack h ++ [entry] ∧ transaction_depth (history b') = 0%nat.
Proof.
  intros t v h Hwf Hroomy Hlog Hun Hdepth Hstack.
  destruct (undo_ok b ps log pre entry Hwf Hroomy Hlog Hun Hdepth Hstack) as (b' & u & ps' & log' & E & [] & Hu & Hr & Hd).
  exists b', u, ps', log'. rewrite <- over_text0. split_and!; try done. destruct (wf_text _ _ over_wf0) as [Hs _]. apply Hs.
Qed.


Lemma flips_twice es log log1 log2 : flips es log log1 → flips es log1 log2 → ∀ e, undone log2 e = undone log e.
Proof. intros H1 H2 e. rewrite (H2 e), (H1 e). case_decide; [|done]. apply negb_involutive. Qed.

Lemma shown_undone l l' f : (∀ e, undone l e = undone l' e) → shown_under l f = shown_under l' f.
Proof. intros He. apply shown_ext. auto. Qed.

Lemma wf_log b ps : buffer_wf b ps → roomy (snapshot b) ps → ∃ log, undo_map_of (undo_map (snapshot b)) log.
Proof.
  intros [[Hs _] _ _ _] Hroomy. destruct (ok_undos _ _ _ Hs) as (h & log & Hw & Hl & Hsl & _). exists log, h.
  split_and!; [done|by apply (low_wf h (undo_map (snapshot b))); [apply Hroomy|]|done|done].
Qed.

(** [redo] after [undo] brings the text and the two stacks back. *)
Theorem undo_redo_text b ps pre entry :
  let t := transaction entry in let h := history b in
  buffer_wf b ps → roomy (snapshot b) ps → undoable b t → transaction_depth h = 0%nat → undo_stack h = pre ++ [entry] →
  ∃ b1 u1 ps1, undo b = Some (b1, Some (entry_id entry, Op_Undo u1)) ∧ buffer_wf b1 ps1 ∧
    (roomy (snapshot b1) ps1 → undoable b1 t →
     ∃ b2 u2 ps2, redo b1 = Some (b2, Some (entry_id entry, Op_Undo u2)) ∧ buffer_wf b2 ps2 ∧
       vis_text ps2 = vis_text ps ∧ rope_inv (visible_text (snapshot b2)) (vis_text ps) ∧
       undo_stack (history b2) = undo_stack h ∧ redo_stack (history b2) = redo_stack h).
Proof.
  intros t h Hwf Hroomy Hun Hdepth Hstack. destruct (wf_log b ps Hwf Hroomy) as [log Hlog].
  destruct (undo_ok b ps log pre entry Hwf Hroomy Hlog Hun Hdepth Hstack)
    as (b1 & u1 & ps1 & log1 & E1 & [Hwf1 Hlog1 Hre Hf1 _ _ _ _ _ _] & Hu1 & Hr1 & Hd1).
  exists b1, u1, ps1. split_and!; [done..|]. intros Hroomy1 Hun1.
  destruct (redo_ok b1 ps1 log1 (redo_stack h) entry Hwf1 Hroomy1 Hlog1 Hun1 Hd1 Hr1)
    as (b2 & u2 & ps2 & log2 & E2 & [Hwf2 Hlog2 _ Hf2 _ Ht _ _ _ _] & Hu2 & Hr2 & _).
  assert (vis_text ps2 = vis_text ps) as Htext.
  { destruct (wf_text _ _ Hwf) as [Hs _]. rewrite Ht, (reshown_view _ _ _ _ Hre), <- (flags_view _ _ _ _ Hs Hlog). apply view_ext.
    intros f n _. apply shown_undone. by eapply flips_twice. }
  exists b2, u2, ps2. rewrite Hu2, Hr2, Hu1. split_and!; try done. rewrite <- Htext.
  destruct (wf_text _ _ Hwf2) as [Hs2 _]. apply Hs2.
Qed.

(** ** Undoing an edit *)

(** The texts before an edit, when the edit is undone. *)
Lemma undone_edit ts ps tr log log2 :
  tracing ts ps [] 0 tr → Forall (λ p, shown_under log p.1 = visible p.1) ps → (∀ f, f ∈ ps.*1 → timestamp f ≠ ts ∧ ts ∉ deletions f) →
  undone log2 ts = true → (∀ e, e ≠ ts → undone log2 e = undone log e) →
  view (shown_under log2) (tagged (el_piece <$> tr)) = view visible (src_bytes tr).
Proof.
  intros Htr Hshown Hfresh Hts Hother.
  assert (∀ f, f ∈ ps.*1 → shown_under log2 f = visible f) as Hold.
  { intros f Hf. pose proof (Hfresh f Hf) as [Hft Hfd]. apply list_elem_of_fmap in Hf as (p & -> & Hp). rewrite Forall_forall in Hshown.
    rewrite <- (Hshown p Hp). apply shown_ext. intros e [->|He]; apply Hother; [done|]. by intros ->. }
  assert (∀ e, e ∈ tr → view (shown_under log2) (tagged [el_piece e]) = view visible (src_bytes [e])) as Hel.
  { intros e He. rewrite tagged_singleton, view_tag, view_el. pose proof (traced_source ts ps tr Htr e) as Hsrc.
    destruct (traced_ok ts ps tr Htr e He) as (_ & _ & Ho). unfold source in *. unfold shown_under in *. cbn [el_piece fst snd].
    destruct (el_origin e) as [|f|f|f].
    - destruct Ho as (-> & _ & _). by rewrite Hts.
    - rewrite Ho. by rewrite Hold by by apply Hsrc.
    - destruct Ho as ((-> & _) & _ & ->). by rewrite Hold by by apply Hsrc.
    - destruct Ho as ((-> & _) & _ & ->). rewrite forallb_app. cbn. rewrite Hts, !andb_true_r. by rewrite Hold by by apply Hsrc. }
  clear Htr. induction tr as [|e tr IH]; [done|]. change (e :: tr) with ([e] ++ tr). rewrite fmap_app, tagged_app, src_bytes_app, !view_app.
  change (el_piece <$> [e]) with [el_piece e]. rewrite Hel by by left. f_equal. apply IH. intros x Hx. apply Hel. by right.
Qed.

(** Nothing that came before is near enough to be grouped with an edit at this time. *)
Definition stands_alone (h : History Rope) (started : Duration) : bool :=
  match last (undo_stack h) with
  | Some prev => suppress_grouping prev || (group_interval h <=? started - last_edit_at prev)%nat
  | None => true
  end.

Lemma group_alone h ops e : stands_alone h (first_edit_at e) = true →
  group (with_entry h ops e) = Some (with_entry h ops e, Some (entry_id e)).
Proof.
  intros Hal. unfold group. cbn [undo_stack with_entry group_interval]. rewrite reverse_snoc.
  assert (group_count (group_interval h) e (reverse (undo_stack h)) = 0%nat) as ->.
  { unfold stands_alone in Hal. destruct (snoc_cases (undo_stack h)) as [->|(l & prev & E)]; [done|]. rewrite E in Hal |- *.
    rewrite last_snoc in Hal. rewrite reverse_snoc. cbn [group_count]. destruct (suppress_grouping prev); [done|].
    cbn [negb andb orb] in Hal |- *. apply Nat.leb_le in Hal. by rewrite (proj2 (Nat.ltb_ge _ _) Hal). }
  unfold group_trailing. cbn [Nat.leb undo_stack with_entry]. rewrite Nat.sub_0_r, take_ge, drop_ge by lia.
  rewrite update_top_snoc, last_snoc. cbn. rewrite app_nil_r. destruct e as [[] ? ? ?]. done.
Qed.

Lemma unseen_not_undone v s ps log ts : snapshot_ok v s ps → undo_map_of (undo_map s) log →
  Global.get v (Lamport.replica_id ts) < Lamport.value ts → undone log ts = false.
Proof.
  intros Hs (_ & _ & _ & Hl & _) Hts. apply not_undone. intros e u n Hr ->. destruct (ok_undos _ _ _ Hs) as (h & l & _ & Hl' & _ & Hrec).
  rewrite <- Hl, Hl' in Hr. destruct (Hrec _ _ _ Hr) as [H _]. rewrite (unobserved v ts Hts) in H. done.
Qed.

(** C11: After an edit that is not grouped with one before it ([stands_alone]), [undo] brings the old text back, and [redo] the edited text; the undo
    stack is what it was before the edit. *)
Theorem edit_undo_restores b ps edits started ended :
  let t := vis_text ps in let v := version (snapshot b) in let id := lamport_clock b in
  let ts := (Lamport.tick id).2 in let tr := mk_transaction id [ts] v in
  buffer_wf b ps → roomy (snapshot b) ps → low (operations (history b)) → transaction_depth (history b) = 0%nat →
  Lamport.value id + 2 < U32 → stands_alone (history b) started = true →
  edits ≠ [] → ordered (len t) 0 edits → len (concat (normalized t edits).*2) < U32 →
  ∃ b1 op ps1, edit b edits started ended = Some (b1, Op_Edit op) ∧ buffer_wf b1 ps1 ∧
    vis_text ps1 = edited 0 t (normalized t edits) ∧
    (roomy (snapshot b1) ps1 → undoable b1 tr →
     ∃ b2 u2 ps2, undo b1 = Some (b2, Some (id, Op_Undo u2)) ∧ buffer_wf b2 ps2 ∧
       vis_text ps2 = t ∧ rope_inv (visible_text (snapshot b2)) t ∧ undo_stack (history b2) = undo_stack (history b) ∧
       (roomy (snapshot b2) ps2 → undoable b2 tr →
        ∃ b3 u3 ps3, redo b2 = Some (b3, Some (id, Op_Undo u3)) ∧ buffer_wf b3 ps3 ∧
          vis_text ps3 = vis_text ps1 ∧ rope_inv (visible_text (snapshot b3)) (vis_text ps1))).
Proof.
  intros t v id ts tr Hwf Hroomy Hlow Hdepth Hfits Halone Hne Hord Hlen.
  destruct (edit_ok b ps edits started ended Hwf Hroomy Hlow Hdepth Hfits Hne Hord Hlen)
    as (b1 & op & els & rest & ops & h' & Hedit & Hwf1 & Htr & Hsrc & Hp & Hq & _ & _ & _ & _ & _ & _ & _ & _ & Hg & Hundo & _).
  set (entry := History.mk_entry tr started ended false). fold v id ts in Htr.
  match type of Hg with group (with_entry _ _ ?x) = _ => change x with entry in Hg end.
  rewrite (group_alone (history b) ops entry Halone) in Hg. injection Hg as Hh _.
  exists b1, op, (el_piece <$> els ++ rest). split_and!; [done|done|by eapply performed_text|]. intros Hroomy1 Hun1.
  destruct (wf_log b ps Hwf Hroomy) as [log Hlog]. assert (undo_map_of (undo_map (snapshot b1)) log) as Hlog1 by by rewrite Hundo.
  assert (undo_stack (history b1) = undo_stack (history b) ++ [entry]) as Hst1 by by rewrite <- Hh.
  destruct (undo_ok b1 _ log (undo_stack (history b)) entry Hwf1 Hroomy1 Hlog1 Hun1)
    as (b2 & u2 & ps2 & log2 & E2 & [Hwf2 Hlog2 Hre Hf2 _ Ht2 _ _ _ _] & Hu2 & Hr2 & Hd2); [by rewrite <- Hh|done|].
  destruct (wf_text _ _ Hwf) as [Hs _].
  assert (Global.get v (Lamport.replica_id ts) < Lamport.value ts) as Hclk.
  { assert (Lamport.value ts = Lamport.value id + 1) as -> by (apply Lamport.value_tick; lia).
    pose proof (wf_clock _ _ Hwf (Lamport.replica_id ts)) as H. fold v id in H. lia. }
  assert (view (shown_under log2) (tagged (el_piece <$> els ++ rest)) = t) as Ht.
  { rewrite (undone_edit ts ps _ log log2 Htr (flags_shown _ _ _ _ Hs Hlog)), Hsrc; [apply view_visible|..].
    - apply (fresh_fragments v); [apply Hs|by apply unobserved].
    - rewrite (Hf2 ts), decide_True by by left. by rewrite (unseen_not_undone v _ _ _ ts Hs Hlog Hclk).
    - intros e He. rewrite (Hf2 e), decide_False; [done|]. by intros ?%list_elem_of_singleton. }
  exists b2, u2, ps2. rewrite Ht in Ht2. split_and!; [done|done|done| |done|].
  { destruct (wf_text _ _ Hwf2) as [Hs2 _]. rewrite <- Ht2. apply Hs2. }
  intros Hroomy2 Hun2.
  destruct (redo_ok b2 ps2 log2 [] entry Hwf2 Hroomy2 Hlog2 Hun2 Hd2) as (b3 & u3 & ps3 & log3 & E3 & [Hwf3 Hlog3 _ Hf3 _ Ht3 _ _ _ _] & _);
    [by rewrite Hr2, <- Hh|].
  assert (vis_text ps3 = vis_text (el_piece <$> els ++ rest)) as Htext.
  { destruct (wf_text _ _ Hwf1) as [Hs1 _]. rewrite Ht3, (reshown_view _ _ _ _ Hre), <- (flags_view _ _ _ _ Hs1 Hlog1). apply view_ext.
    intros f n _. apply shown_undone. by eapply flips_twice. }
  exists b3, u3, ps3. split_and!; [done..|]. rewrite <- Htext. destruct (wf_text _ _ Hwf3) as [Hs3 _]. apply Hs3.
Qed.

(** ** The undo operations of other replicas *)

Lemma apply_undo_op_ok b ps log u :
  let ts := undo_timestamp u in let v := version (snapshot b) in
  buffer_wf b ps → roomy (snapshot b) ps → undo_map_of (undo_map (snapshot b)) log →
  Global.observed v ts = false → N.max (Lamport.value (lamport_clock b)) (Lamport.value ts) + 1 < U32 →
  NoDup (counts u).*1 → base_timestamp ∉ (counts u).*1 → (∀ e, e ∈ (counts u).*1 → Global.observed v e = true) →
  (∀ m, UndoMap.insert (undo_map (snapshot b)) u = Some m → low m) →
  ∃ b' ps' log', apply_op b (Op_Undo u) = Some b' ∧ buffer_wf b' ps' ∧ undo_map_of (undo_map (snapshot b')) log' ∧
    Forall2 (reshown log') ps ps' ∧
    (∀ e w n, UndoMap.recorded e w n log' ↔
      if decide (w = ts ∧ e ∈ (counts u).*1) then (e, n) ∈ counts u else UndoMap.recorded e w n log) ∧
    version (snapshot b') = Global.observe v ts ∧ lamport_clock b' = Lamport.observe (lamport_clock b) ts ∧
    history b' = history b ∧ deferred_ops b' = deferred_ops b ∧ deferred_replicas b' = deferred_replicas b.
Proof.
  intros ts v [[Hs Hobs] Hcanon Hclock Hops] Hroomy Hlog Hts Hfits Hnd Hbase Hseen Hlow.
  destruct (apply_undo_ok b ps v log u Hs Hobs Hroomy Hlog Hnd Hbase Hseen Hlow)
    as (b1 & ps' & log' & Happly & Hs1 & Hobs1 & Hlog1 & Hre & Hrec & Hv1 & Hh1 & Hc1 & Hd1 & Hr1).
  unfold apply_op. fold ts v. rewrite Hts, Happly. cbn [mbind option_bind]. eexists _, ps', log'. split; [done|].
  cbn [observe_clock observe_version with_clock with_version with_snapshot snapshot version undo_map lamport_clock history
       deferred_ops deferred_replicas].
  rewrite Hv1, Hc1. split_and!; try done. split.
  - split; [|done]. cbn [observe_clock observe_version with_clock with_version with_snapshot snapshot version subscriptions].
    rewrite Hv1. by apply snapshot_ok_version.
  - change (Global.canonical (Global.observe (version (snapshot b1)) ts)). rewrite Hv1. by apply Global.canonical_observe.
  - intros r. specialize (Hclock r). change (Global.get (Global.observe (version (snapshot b1)) ts) r <
      Lamport.value (Lamport.observe (lamport_clock b1) ts)).
    rewrite Hv1, Hc1, Lamport.value_observe, Global.get_observe by done. destruct (decide _); lia.
  - change (∃ l, becomes l (operations (history b1))). by rewrite Hh1.
Qed.

(** Equal records count equally. *)
Definition same_records (l l' : list UndoMapEntry) : Prop := ∀ e u n, UndoMap.recorded e u n l ↔ UndoMap.recorded e u n l'.

Lemma same_counts l l' e : same_records l l' → count_in l e = count_in l' e.
Proof. intros H. apply max_count_ext. auto. Qed.

(** Replicas may cut their fragments differently, and delete in another order. *)
Definition same_byte (x y : Fragment * N) : Prop :=
  timestamp x.1 = timestamp y.1 ∧ (∀ d, d ∈ deletions x.1 ↔ d ∈ deletions y.1) ∧ x.2 = y.2.
Definition same_bytes (ps qs : list piece) : Prop := Forall2 same_byte (tagged ps) (tagged qs).

Lemma forallb_elem {A} (f g : A → bool) l l' : (∀ x, x ∈ l ↔ x ∈ l') → (∀ x, f x = g x) → forallb f l = forallb g l'.
Proof.
  intros Hl Hfg. apply eq_true_iff_eq. rewrite !List.forallb_forall. setoid_rewrite <- list_elem_of_In.
  split; intros H x Hx; [rewrite <- Hfg|rewrite Hfg]; apply H, Hl, Hx.
Qed.

Lemma same_view l l' xs ys : Forall2 same_byte xs ys → (∀ e, undone l e = undone l' e) →
  view (shown_under l) xs = view (shown_under l') ys.
Proof.
  intros Hxy Hl. induction Hxy as [|x y xs ys (Ht & Hd & Hn) _ IH]; [done|].
  change (x :: xs) with ([x] ++ xs). change (y :: ys) with ([y] ++ ys). rewrite !view_app, IH. f_equal.
  unfold view. rewrite !filter_cons. unfold shown_under. rewrite Ht, (Hl (timestamp y.1)), (forallb_elem _ (undone l') _ _ Hd Hl).
  destruct (_ && _); [|done]. rewrite !decide_True by done. cbn. by rewrite Hn.
Qed.

(** ** Concrete inputs *)

(** [undoable], computed. *)
Definition can_undo (b : Buffer) (t : Transaction) : bool :=
  let s := snapshot b in
  forallb (λ e, Global.observed (version s) e && negb (bool_decide (e = base_timestamp)) &&
    match undo_count (undo_map s) e with Some n => n + 1 <? U32 | None => false end) (edit_ids t) &&
  match undo_counts (undo_map s) (edit_ids t) [] with
  | Some counts =>
      match UndoMap.insert (undo_map s) {| undo_timestamp := lamport_clock b; undo_version := version s; counts := counts |} with
      | Some m => bool_decide (node_height m < 16)%nat
      | None => true
      end
  | None => true
  end &&
  bool_decide (node_height (operations (history b)) < 16)%nat && (Lamport.value (lamport_clock b) + 1 <? U32).

Lemma can_undo_undoable b t : can_undo b t = true → undoable b t.
Proof.
  unfold can_undo. rewrite !andb_true_iff, !bool_decide_eq_true, N.ltb_lt. intros [[[He Hm] Ho] Hc]. split; [|clear He|done|done].
  - intros e Hin. apply list_elem_of_In in Hin. pose proof (proj1 (List.forallb_forall _ _) He e Hin) as H. cbn beta in H.
    rewrite !andb_true_iff, negb_true_iff, bool_decide_eq_false in H. destruct H as [[H1 H2] H3]. split_and!; [done..|].
    destruct (undo_count _ e) as [n|]; [|done]. exists n. split; [done|]. by apply N.ltb_lt.
  - intros counts m E1 E2. rewrite E1, E2 in Hm. by apply bool_decide_eq_true in Hm.
Qed.

Definition demo_edited : Buffer :=
  match edit (demo_buffer AGENT) demo_edits 0 1 with Some (b, _) => b | None => demo_buffer AGENT end.
Definition demo_undone : Buffer := match undo demo_edited with Some (b, _) => b | None => demo_edited end.
Definition demo_transaction : Transaction :=
  mk_transaction (lamport_clock (demo_buffer AGENT)) [(Lamport.tick (lamport_clock (demo_buffer AGENT))).2] (version (snapshot (demo_buffer AGENT))).
Definition demo_entry : HistoryEntry := History.mk_entry demo_transaction 0 1 false.

Lemma roomy_of b ps : buffer_wf b ps → small (snapshot b) = true → roomy (snapshot b) ps.
Proof. intros [[Hs _] _ _ _]. by eapply roomy_small. Qed.

Lemma demo_edited_wf : ∃ ps, buffer_wf demo_edited ps ∧ vis_text ps = [72; 101; 108; 108; 111; 33; 10; 10; 119; 111; 100].
Proof.
  destruct (edit_ok (demo_buffer AGENT) demo_pieces demo_edits 0 1 (demo_wf AGENT) (demo_roomy AGENT))
    as (b' & op & els & rest & _ & _ & E & Hwf & Htr & Hsrc & Hp & Hq & _);
    [vm_compute; lia|done|by vm_compute|done|apply demo_ordered|by vm_compute|].
  exists (el_piece <$> els ++ rest). unfold demo_edited. rewrite E. split; [exact Hwf|].
  erewrite performed_text by done. by vm_compute.
Qed.

Lemma demo_edited_log : undo_map_of (undo_map (snapshot demo_edited)) [].
Proof. assert (undo_map (snapshot demo_edited) = empty_undo_map) as -> by by vm_compute. apply empty_of. Qed.

Lemma demo_edited_stack : undo_stack (history demo_edited) = [] ++ [demo_entry].
Proof. by vm_compute. Qed.

Lemma buffer_undo_witness : ∃ b' u ps' log', undo demo_edited = Some (b', Some (entry_id demo_entry, Op_Undo u)) ∧ buffer_wf b' ps' ∧
  flips (edit_ids demo_transaction) [] log' ∧ redo_stack (history b') = [demo_entry].
Proof.
  destruct demo_edited_wf as (ps & Hwf & _).
  destruct (buffer_undo demo_edited ps [] [] demo_entry Hwf)
    as (b' & u & ps' & log' & ? & ? & _ & ? & _ & _ & _ & _ & _ & _ & _ & Hr & _);
    [by apply (roomy_of _ _ Hwf); vm_compute|apply demo_edited_log|by apply can_undo_undoable; vm_compute|by vm_compute|apply demo_edited_stack|].
  exists b', u, ps', log'. split_and!; [assumption..|]. rewrite Hr. by vm_compute.
Defined.

Lemma undo_redo_text_witness : ∃ ps, buffer_wf demo_edited ps ∧ ∃ b2 u2 ps2, redo demo_undone = Some (b2, Some (entry_id demo_entry, Op_Undo u2)) ∧
  buffer_wf b2 ps2 ∧ vis_text ps2 = vis_text ps.
Proof.
  destruct demo_edited_wf as (ps & Hwf & _). exists ps. split; [exact Hwf|].
  destruct (undo_redo_text demo_edited ps [] demo_entry Hwf) as (b1 & u1 & ps1 & E & Hwf1 & H);
    [by apply (roomy_of _ _ Hwf); vm_compute|by apply can_undo_undoable; vm_compute|by vm_compute|apply demo_edited_stack|].
  assert (b1 = demo_undone) as -> by (unfold demo_undone; by rewrite E).
  destruct H as (b2 & u2 & ps2 & ? & ? & ? & _); [by apply (roomy_of _ _ Hwf1); vm_compute|by apply can_undo_undoable; vm_compute|].
  exists b2, u2, ps2. split_and!; assumption.
Defined.

Lemma edit_undo_restores_witness : ∃ b2 u2 ps2, undo demo_edited = Some (b2, Some (lamport_clock (demo_buffer AGENT), Op_Undo u2)) ∧
  buffer_wf b2 ps2 ∧ vis_text ps2 = demo_text.
Proof.
  destruct (edit_undo_restores (demo_buffer AGENT) demo_pieces demo_edits 0 1 (demo_wf AGENT) (demo_roomy AGENT))
    as (b1 & op & ps1 & E & Hwf1 & _ & H);
    [vm_compute; lia|done|by vm_compute|by vm_compute|done|apply demo_ordered|by vm_compute|].
  assert (b1 = demo_edited) as -> by (unfold demo_edited; by rewrite E).
  destruct H as (b2 & u2 & ps2 & ? & ? & Ht & _); [by apply (roomy_of _ _ Hwf1); vm_compute|by apply can_undo_undoable; vm_compute|].
  exists b2, u2, ps2. split_and!; [assumption..|]. rewrite Ht. by vm_compute.
Defined.

Lemma same_bytes_refl ps : same_bytes ps ps.
Proof. apply Forall_Forall2_diag, Forall_true. by intros x. Qed.
