(* ===== verification/BufferSync.v ===== *)
(** * BufferSync: a replica that follows another one

    [in_sync]: two buffers hold the same bytes, each with the edit that inserted it and
    those that deleted it, the same undo records and the same version, whatever
    fragments they are cut into.  An operation that one of them makes, an edit, an undo or
    a redo, brings the other one along. *)

From Stdlib Require Import Sorted.
From S2P Require Import Prelude Clock Locator UndoMap OperationQueue Patch Subscription History HistoryTheorems.
From S2P Require Import Bits Utf8 LineEnding PatchFacts TextSummary Chunk ChunkFacts Rope RopeFacts RopeConvert.
From S2P Require Import RopeEdit RopeSlice Keyed TreeMap TreeMapFacts SumTree SumTreeSpec SumTreeFind Cursor.
From S2P Require Import CursorSpec CursorFacts Fragment RopeBuilder Buffer BufferFacts BufferSteps BufferLocal.
From S2P Require Import BufferInv BufferCommit BufferUndo BufferSeen BufferRemote BufferNew BufferTheorems.
From S2P Require Import BufferReplicas BufferRestores.
#[local] Open Scope N_scope.

(** ** Bytes with their history *)

Record abyte : Type := mk_abyte { inserted_by : Lamport.t; deleted_by : list Lamport.t; byte : N }.

Definition annotate (x : Fragment * N) : abyte := mk_abyte (timestamp x.1) (deletions x.1) x.2.
Definition abytes (ps : list piece) : list abyte := annotate <$> tagged ps.

(** The same up to the order of the deletions. *)
Definition same_abyte (x y : abyte) : Prop :=
  inserted_by x = inserted_by y ∧ (∀ d, d ∈ deleted_by x ↔ d ∈ deleted_by y) ∧ byte x = byte y.

Lemma same_bytes_abytes ps qs : same_bytes ps qs ↔ Forall2 same_abyte (abytes ps) (abytes qs).
Proof. unfold same_bytes, abytes. by rewrite Forall2_fmap. Qed.

Lemma abytes_app ps qs : abytes (ps ++ qs) = abytes ps ++ abytes qs.
Proof. unfold abytes. by rewrite tagged_app, fmap_app. Qed.

(** What the edit [ts] should do to bytes with flags that tell which are alive. *)
Section splice.
Context (ts : Lamport.t).

Definition fresh (c : N) : abyte := mk_abyte ts [] c.
Definition bury (x : bool * abyte) : abyte :=
  if x.1 then mk_abyte (inserted_by x.2) (deleted_by x.2 ++ [ts]) (byte x.2) else x.2.

Fixpoint asplice (o : N) (l : list (bool * abyte)) (edits : edits_of) : list abyte :=
  match edits with
  | [] => l.*2
  | (range, text) :: edits =>
      (ltake (Patch.start range - o) l).*2 ++ (fresh <$> text) ++
      (bury <$> ltake (Patch.end_ range - Patch.start range) (ldrop (Patch.start range - o) l)) ++
      asplice (Patch.end_ range) (ldrop (Patch.end_ range - o) l) edits
  end.

Definition flags (alive : Fragment → bool) (l : list (Fragment * N)) : list (bool * abyte) :=
  (λ x, (alive x.1, annotate x)) <$> l.

Lemma flags_app alive l1 l2 : flags alive (l1 ++ l2) = flags alive l1 ++ flags alive l2.
Proof. apply fmap_app. Qed.

Lemma flags_snd alive l : (flags alive l).*2 = annotate <$> l.
Proof. unfold flags. by rewrite <- list_fmap_compose. Qed.

Lemma annotate_tag f t : annotate <$> tag f t = mk_abyte (timestamp f) (deletions f) <$> t.
Proof. unfold tag. by rewrite <- list_fmap_compose. Qed.

Lemma abytes_els e els : abytes (el_piece <$> e :: els) = (annotate <$> tag (el_fragment e) (el_text e)) ++ abytes (el_piece <$> els).
Proof. change (el_piece <$> e :: els) with ([el_piece e] ++ (el_piece <$> els)). rewrite abytes_app. unfold abytes at 1. by rewrite tagged_singleton. Qed.

Lemma src_els e els : src_bytes (e :: els) = match source e with Some f => tag f (el_text e) | None => [] end ++ src_bytes els.
Proof. done. Qed.

Lemma quiet_abytes els : Forall quiet els → Forall (el_ok ts) els → abytes (el_piece <$> els) = annotate <$> src_bytes els.
Proof.
  induction els as [|e els IH]; intros Hq Hok; [done|]. apply Forall_cons in Hq as [Hq Hqs], Hok as [(_ & _ & Ho) Hoks].
  rewrite abytes_els, src_els, fmap_app, IH by done. f_equal. unfold quiet, source in *. rewrite !annotate_tag.
  destruct (el_origin e) as [|f|f|f]; try done; rewrite annotate_tag; [by rewrite Ho|]. by destruct Ho as ((-> & _) & _ & ->).
Qed.

Lemma adds_abytes text els : adds text els → Forall (el_ok ts) els → abytes (el_piece <$> els) = fresh <$> text.
Proof.
  intros [Ha <-] Hok. induction els as [|e els IH]; [done|]. apply Forall_cons in Ha as [[Ha _] Has], Hok as [(_ & _ & Ho) Hoks].
  rewrite abytes_els, IH by done. change ((e :: els) ≫= el_text) with (el_text e ++ (els ≫= el_text)). rewrite fmap_app. f_equal.
  rewrite Ha in Ho. destruct Ho as (Ht & _ & Hd). by rewrite annotate_tag, Ht, Hd.
Qed.

Lemma erasing_abytes alive els : Forall (erasing alive) els → Forall (el_ok ts) els →
  abytes (el_piece <$> els) = bury <$> flags alive (src_bytes els).
Proof.
  induction els as [|e els IH]; intros Hq Hok; [done|]. apply Forall_cons in Hq as [Hq Hqs], Hok as [(_ & _ & Ho) Hoks].
  rewrite abytes_els, src_els, flags_app, fmap_app, IH by done. f_equal. unfold erasing, source in *. rewrite annotate_tag.
  destruct (el_origin e) as [|f|f|f]; try done; unfold flags, tag; rewrite <- !list_fmap_compose; apply list_fmap_ext; intros i c _; cbn;
    unfold bury; cbn; destruct Hq as [-> _]; by destruct Ho as ((-> & _) & _ & ->).
Qed.

(** A trace that performs edits splices the bytes. *)
Lemma performs_abytes alive o q edits fulls els rest :
  performs everything alive o q edits fulls els → Forall quiet rest → Forall (el_ok ts) (els ++ rest) →
  abytes (el_piece <$> els ++ rest) = asplice o (flags alive (src_bytes (els ++ rest))) edits.
Proof.
  intros Hp Hrest. induction Hp as [|o q range text edits fulls kept added gone els Hk Ha Hg Hs He Hp IH]; intros Hok.
  { cbn [asplice]. rewrite flags_snd. by apply quiet_abytes. }
  cbn [asplice]. rewrite <- !(assoc_L (++)) in *. set (r := els ++ rest) in *.
  apply Forall_app in Hok as [Hok1 Hok]. apply Forall_app in Hok as [Hok2 Hok]. apply Forall_app in Hok as [Hok3 Hok4].
  rewrite !fmap_app, !abytes_app, !src_bytes_app, !flags_app. destruct (adds_src _ _ Ha) as [-> _].
  rewrite (adds_abytes _ _ Ha Hok2), (quiet_abytes _ Hk Hok1), (erasing_abytes _ _ Hg Hok3), IH by done.
  change (flags alive []) with ([] : list (bool * abyte)). rewrite (app_nil_l (A:=bool * abyte)).
  unfold counted_len in *. rewrite view_everything, len_fmap in *. rewrite <- (flags_snd alive (src_bytes kept)).
  assert (∀ l, len (flags alive l) = len l) as Hlen by (intros l; apply len_fmap). rewrite <- !Hlen in *.
  set (a := flags alive (src_bytes kept)) in *. set (b := flags alive (src_bytes gone)) in *.
  replace (Patch.start range - o) with (len a) by lia. replace (Patch.end_ range - Patch.start range) with (len b) by lia.
  replace (Patch.end_ range - o) with (len (a ++ b)) by (rewrite len_app; lia).
  rewrite ltake_app_len, ldrop_app_len, ltake_app_len. by rewrite (assoc_L (++) a b), ldrop_app_len.
Qed.
End splice.

(** Related bytes are spliced to related bytes. *)
Definition same_flagged (x y : bool * abyte) : Prop := x.1 = y.1 ∧ same_abyte x.2 y.2.

Lemma Forall2_ltake {A B} (R : A → B → Prop) n l l' : Forall2 R l l' → Forall2 R (ltake n l) (ltake n l').
Proof. apply Forall2_take. Qed.

Lemma Forall2_ldrop {A B} (R : A → B → Prop) n l l' : Forall2 R l l' → Forall2 R (ldrop n l) (ldrop n l').
Proof. apply Forall2_drop. Qed.

Lemma same_abyte_refl x : same_abyte x x.
Proof. done. Qed.

Lemma asplice_same ts edits : ∀ o l l', Forall2 same_flagged l l' → Forall2 same_abyte (asplice ts o l edits) (asplice ts o l' edits).
Proof.
  induction edits as [|[range text] edits IH]; intros o l l' Hl; cbn [asplice].
  - apply Forall2_fmap. eapply Forall2_impl; [exact Hl|]. by intros x y [_ H].
  - repeat apply Forall2_app.
    + apply Forall2_fmap. eapply Forall2_impl; [by apply Forall2_ltake|]. by intros x y [_ H].
    + apply Forall2_fmap, Forall_Forall2_diag, Forall_true. intros c. apply same_abyte_refl.
    + apply Forall2_fmap. eapply Forall2_impl; [by apply Forall2_ltake, Forall2_ldrop|].
      intros [a x] [a' y] [E (H1 & H2 & H3)]. cbn in E. subst a'. unfold bury. cbn. destruct a; [|by split_and!].
      split_and!; cbn; [done| |done]. intros d. by rewrite !elem_of_app, H2.
    + by apply IH, Forall2_ldrop.
Qed.

(** ** Two replicas *)

Section replicas.
Context (v : Global.t) (s s2 : BufferSnapshot) (ps qs : list piece) (log log2 : list UndoMapEntry).
Context (Hs : snapshot_ok v s ps) (Hs2 : snapshot_ok v s2 qs).
Context (Hlog : undo_map_of (undo_map s) log) (Hlog2 : undo_map_of (undo_map s2) log2).
Context (Hbytes : same_bytes qs ps) (Hrecords : same_records log log2).

Lemma same_undone e : undone log2 e = undone log e.
Proof. unfold undone. fold (count_in log2 e) (count_in log e). by rewrite (same_counts log log2). Qed.

Lemma shown_visible v' s' rs l f n : snapshot_ok v' s' rs → undo_map_of (undo_map s') l → (f, n) ∈ tagged rs → visible f = shown_under l f.
Proof.
  intros H1 H2 Hf%tagged_elem. cbn [fst] in Hf. apply list_elem_of_fmap in Hf as (p & -> & Hp).
  pose proof (flags_shown _ _ _ _ H1 H2) as H. rewrite Forall_forall in H. symmetry. by apply H.
Qed.

Lemma same_byte_visible x y : x ∈ tagged qs → y ∈ tagged ps → same_byte x y → visible x.1 = visible y.1.
Proof.
  intros Hx Hy (Ht & Hd & _). destruct x as [f n], y as [g m].
  cbn [fst] in *. rewrite (shown_visible _ _ _ _ _ _ Hs2 Hlog2 Hx), (shown_visible _ _ _ _ _ _ Hs Hlog Hy).
  unfold shown_under. rewrite Ht, same_undone. f_equal. apply forallb_elem; [done|]. apply same_undone.
Qed.

Lemma same_length : len (tagged qs) = len (tagged ps).
Proof. unfold len. f_equal. by apply (Forall2_length same_byte). Qed.

Lemma same_snd : snd <$> tagged qs = snd <$> tagged ps.
Proof.
  pose proof Hbytes as H. unfold same_bytes in H. induction H as [|x y l l' (_ & _ & E) _ IH]; [done|]. cbn. by rewrite E, IH.
Qed.

(** The flags of the two traces. *)
Lemma same_flags : Forall2 same_flagged (flags visible (tagged qs)) (flags visible (tagged ps)).
Proof.
  unfold flags. apply Forall2_fmap. apply Forall2_same_length_lookup_2; [by apply (Forall2_length same_byte)|].
  intros i x y Hx Hy. pose proof (Forall2_lookup_lr _ _ _ _ _ _ Hbytes Hx Hy) as H. split.
  - cbn. apply same_byte_visible; [by eapply list_elem_of_lookup_2..|done].
  - exact H.
Qed.

(** A place that the author can mean is one here. *)
Lemma lively_stands o : lively ps o → stands v qs log2 o.
Proof.
  intros Hlive A p B Hqs Hc Ho. pose proof (all_alive _ _ _ _ Hs2 Hlog2) as Hall.
  rewrite (all_base v log2 qs Hall A (p :: B) Hqs) in Ho.
  assert (p ∈ qs) as Hp by (rewrite Hqs; apply elem_of_app; right; by left).
  rewrite Forall_forall in Hall. destruct (Hall p Hp) as [_ ->]. apply not_false_iff_true. intros Hv.
  pose proof (ok_sized _ _ _ Hs2) as Hsz. rewrite Forall_forall in Hsz. destruct (Hsz p Hp) as (Hlen & _).
  assert (len (tagged qs) = len (tagged A) + len p.2 + len (tagged B)) as Hlenq.
  { rewrite Hqs. change (p :: B) with ([p] ++ B). rewrite !tagged_app, !len_app, tagged_singleton. unfold tag. rewrite len_fmap. lia. }
  assert (∃ l1 x y l2, tagged qs = l1 ++ x :: y :: l2 ∧ len l1 + 1 = o) as (l1 & x & y & l2 & E & Ho1).
  { pose proof (ltake_ldrop (o - 1) (tagged qs)) as E. pose proof (len_ldrop (o - 1) (tagged qs)) as Hd.
    pose proof (len_ltake (o - 1) (tagged qs)) as Ht.
    destruct (ldrop (o - 1) (tagged qs)) as [|x [|y l2]]; rewrite ?len_cons, ?len_nil in Hd; [lia..|].
    exists (ltake (o - 1) (tagged qs)), x, y, l2. split; [done|]. lia. }
  pose proof Hbytes as H. unfold same_bytes in H. rewrite E in H.
  apply Forall2_app_inv_l in H as (m1 & m' & Hm1 & Hm' & Em).
  apply Forall2_cons_inv_l in Hm' as (x' & m'' & Hx & Hm'' & ->). apply Forall2_cons_inv_l in Hm'' as (y' & m2 & Hy & Hm2 & ->).
  assert (len m1 = len l1) as Hlm by (unfold len; f_equal; symmetry; by apply (Forall2_length same_byte)).
  assert (x.1 = p.1 ∧ y.1 = p.1) as [Ex Ey].
  { rewrite Hqs in E. split; [apply (tagged_at A p B l1 x (y :: l2) E); lia|].
    change (x :: y :: l2) with ([x] ++ y :: l2) in E. rewrite (assoc_L (++)) in E. apply (tagged_at A p B _ y l2 E).
    rewrite len_app, len_cons, len_nil. lia. }
  assert (∀ a b, a ∈ tagged qs → b ∈ tagged ps → same_byte a b → a.1 = p.1 → visible b.1 = false) as Hdead.
  { intros a b Ha Hb Hab E'. by rewrite <- (same_byte_visible a b Ha Hb Hab), E'. }
  destruct (Hlive m1 x' y' m2) as [H|H]; [done|lia|..].
  - rewrite (Hdead x x') in H; [done|rewrite E|rewrite Em|done|done]; apply elem_of_app; right; by left.
  - rewrite (Hdead y y') in H; [done|rewrite E|rewrite Em|done|done]; apply elem_of_app; right; right; by left.
Qed.

Lemma counted_view rs s' l : snapshot_ok v s' rs → undo_map_of (undo_map s') l → view (counted v) (tagged rs) = snd <$> tagged rs.
Proof. intros H1 H2. apply (all_view v l). by eapply all_alive. Qed.

Lemma same_view_counted : view (counted v) (tagged qs) = view (counted v) (tagged ps).
Proof. rewrite (counted_view _ _ _ Hs Hlog), (counted_view _ _ _ Hs2 Hlog2). apply same_snd. Qed.

Lemma ranges_follow edits : ∀ o, ranges_ok v ps log o edits →
  Forall (λ r, lively ps (Patch.start r) ∧ lively ps (Patch.end_ r)) edits.*1 → ranges_ok v qs log2 o edits.
Proof.
  induction edits as [|[range text] edits IH]; intros o; [done|]. cbn [ranges_ok fmap list_fmap fst].
  intros (Ho & He & Ha1 & Ha2 & _ & _ & Hu & Hr) [[Hl1 Hl2] Hl]%Forall_cons.
  unfold aligned, base in *. rewrite same_view_counted. split_and!; try done; [apply Ho|apply Ho|by apply lively_stands|by apply lively_stands|by apply IH].
Qed.

Lemma authored_follows op : edit_version op = v → (∀ r, Global.get v r < Lamport.value (edit_timestamp op)) → authored op ps log →
  Forall (λ r, lively ps (Patch.start r) ∧ lively ps (Patch.end_ r)) (ranges op) → authored op qs log2.
Proof.
  intros Hv Hclk [_ Hne Hlen Hr Hsize] Hlive. split; [|done|done| |done].
  - apply Forall_forall. intros p _ Hc. unfold counted in Hc. rewrite Hv, Global.observed_iff in Hc.
    apply Lamport.olt_iff. left. specialize (Hclk (Lamport.replica_id (timestamp p.1))). lia.
  - rewrite Hv in *. apply ranges_follow; [done|]. by rewrite fst_zip by lia.
Qed.
End replicas.

(** ** Two replicas in step *)

Record in_sync (b b2 : Buffer) (ps qs : list piece) : Prop := {
  sync_leader : buffer_wf b ps;
  sync_follower : buffer_wf b2 qs;
  sync_bytes : same_bytes qs ps;
  sync_records : same_records (to_list (undo_map (snapshot b))) (to_list (undo_map (snapshot b2)));
  sync_version : version (snapshot b2) = version (snapshot b);
  sync_text : vis_text qs = vis_text ps
}.

(** The same bytes and the same undo records show the same text. *)
Lemma in_sync_intro b b2 ps qs log log2 : buffer_wf b ps → buffer_wf b2 qs → same_bytes qs ps →
  undo_map_of (undo_map (snapshot b)) log → undo_map_of (undo_map (snapshot b2)) log2 → same_records log log2 →
  version (snapshot b2) = version (snapshot b) → in_sync b b2 ps qs.
Proof.
  intros Hwf Hwf2 Hbytes Hlog Hlog2 Hsame Hv. pose proof Hlog as (_ & _ & _ & El & _). pose proof Hlog2 as (_ & _ & _ & El2 & _).
  split; try done; [by rewrite El, El2|]. destruct (wf_text _ _ Hwf) as [Hs _], (wf_text _ _ Hwf2) as [Hs2 _].
  rewrite <- (flags_view _ _ _ _ Hs Hlog), <- (flags_view _ _ _ _ Hs2 Hlog2). apply same_view; [done|]. intros e.
  by eapply same_undone.
Qed.

(** The room that an operation needs, [roomy] without the pieces. *)
Record spacious (s : BufferSnapshot) : Prop := {
  spacious_fragments : low (fragments s);
  spacious_insertions : low (insertions s);
  spacious_slices : low (insertion_slices s);
  spacious_undos : low (undo_map s);
  spacious_visible : sliceable (visible_text s) (texts (to_list (visible_text s)));
  spacious_deleted : sliceable (deleted_text s) (texts (to_list (deleted_text s)))
}.

Lemma wf_visible b ps : buffer_wf b ps → texts (to_list (visible_text (snapshot b))) = vis_text ps.
Proof. intros [[Hs _] _ _ _]. by destruct (ok_visible _ _ _ Hs) as [(_ & _ & <-) _]. Qed.

Lemma wf_deleted b ps : buffer_wf b ps → texts (to_list (deleted_text (snapshot b))) = del_text ps.
Proof. intros [[Hs _] _ _ _]. by destruct (ok_deleted _ _ _ Hs) as [(_ & _ & <-) _]. Qed.

Lemma spacious_roomy b ps : buffer_wf b ps → spacious (snapshot b) ↔ roomy (snapshot b) ps.
Proof. intros Hwf. split; intros []; split; try done; by rewrite ?(wf_visible b ps Hwf), ?(wf_deleted b ps Hwf) in *. Qed.

(** [b] has room for the operation [op] of another replica. *)
Record accepts (b : Buffer) (op : Operation) : Prop := {
  accepts_spacious : spacious (snapshot b);
  accepts_clock : N.max (Lamport.value (lamport_clock b)) (Lamport.value (History.timestamp op)) + 1 < U32;
  accepts_undo u m : op = Op_Undo u → UndoMap.insert (undo_map (snapshot b)) u = Some m → low m
}.

Lemma log_of b ps : buffer_wf b ps → spacious (snapshot b) → undo_map_of (undo_map (snapshot b)) (to_list (undo_map (snapshot b))).
Proof.
  intros Hwf Hroomy%(spacious_roomy _ _ Hwf). destruct (wf_log b ps Hwf Hroomy) as [log Hlog]. pose proof Hlog as (_ & _ & _ & -> & _). done.
Qed.

(** ** Following an edit *)

Lemma src_elem f n els : (f, n) ∈ src_bytes els → ∃ e, e ∈ els ∧ source e = Some f.
Proof.
  induction els as [|e els IH]; [by intros ?%elem_of_nil|]. rewrite src_els. intros [Hf|Hf]%elem_of_app.
  - exists e. split; [by left|]. destruct (source e) as [g|]; [|by apply elem_of_nil in Hf].
    unfold tag in Hf. by apply list_elem_of_fmap in Hf as (c & [= -> _] & _).
  - destruct (IH Hf) as (e' & He' & Hse). exists e'. split; [by right|done].
Qed.

Lemma performs_ext counts counts' alive alive' o q edits fulls els : performs counts alive o q edits fulls els →
  (∀ e f, e ∈ els → source e = Some f → counts f = counts' f ∧ alive f = alive' f) → performs counts' alive' o q edits fulls els.
Proof.
  induction 1 as [|o q range text edits fulls kept added gone els Hk Ha Hg Hs He Hp IH]; intros Hext; [constructor|].
  assert (∀ l, (∀ e, e ∈ l → e ∈ kept ++ added ++ gone ++ els) → counted_len counts l = counted_len counts' l) as Hlen.
  { intros l Hl. unfold counted_len. f_equal. apply view_ext. intros f n (e & He' & Hse)%src_elem. by destruct (Hext e f (Hl e He') Hse). }
  constructor; [done|done| | | |].
  - apply Forall_forall. intros e Hin. rewrite Forall_forall in Hg. specialize (Hg e Hin). unfold erasing in *.
    destruct (el_origin e) as [|f|f|f] eqn:Eo; try done; destruct (Hext e f) as [_ <-];
      [rewrite !elem_of_app; auto|unfold source; by rewrite Eo|done|rewrite !elem_of_app; auto|unfold source; by rewrite Eo|done].
  - rewrite <- Hlen; [done|]. intros e Hin. apply elem_of_app. by left.
  - rewrite <- Hlen; [done|]. intros e Hin. rewrite !elem_of_app. auto.
  - apply IH. intros e f Hin. apply Hext. rewrite !elem_of_app. auto.
Qed.

(** The bytes that both have after the traces of an edit. *)
Lemma edit_bytes ts counts counts2 alive2 edits fulls fulls2 els els2 rest rest2 (ps qs : list piece) :
  performs counts visible 0 0 edits fulls els → performs counts2 alive2 0 0 (zip fulls edits.*2) fulls2 els2 →
  Forall quiet rest → Forall quiet rest2 → tracing ts ps [] 0 (els ++ rest) → tracing ts qs [] 0 (els2 ++ rest2) →
  src_bytes (els ++ rest) = tagged ps → src_bytes (els2 ++ rest2) = tagged qs →
  (∀ f, f ∈ qs.*1 → counts2 f = true ∧ alive2 f = visible f) →
  Forall2 same_flagged (flags visible (tagged qs)) (flags visible (tagged ps)) →
  same_bytes (el_piece <$> els2 ++ rest2) (el_piece <$> els ++ rest).
Proof.
  intros Hp Hp2 Hq Hq2 Htr Htr2 Hsrc Hsrc2 Hsame Hflags. apply same_bytes_abytes.
  rewrite (performs_abytes ts visible 0 0 _ _ _ _ (performs_full _ _ _ _ _ _ _ Hp) Hq) by apply Htr.
  rewrite (performs_abytes ts visible 0 0 (zip fulls edits.*2) fulls2 els2 rest2); [|eapply performs_ext; [exact Hp2|]|done|apply Htr2].
  - rewrite Hsrc, Hsrc2. by apply asplice_same.
  - intros e f He Hf. apply Hsame. eapply traced_source; [exact Htr2| |exact Hf]. apply elem_of_app. by left.
Qed.

(** What the operation [op], made by the buffer [b] that becomes [b'], does to a replica [b2]. *)
Record made (b b' : Buffer) (ps ps' : list piece) (op : Operation) : Prop := {
  made_wf : buffer_wf b' ps';
  made_version : operation_version op = version (snapshot b);
  made_later r : Global.get (version (snapshot b)) r < Lamport.value (History.timestamp op);
  made_replica : operation_replica op = Lamport.replica_id (lamport_clock b);
  made_observed : version (snapshot b') = Global.observe (version (snapshot b)) (History.timestamp op);
  made_follows b2 qs : in_sync b b2 ps qs → accepts b2 op → ∃ b2' qs', apply_op b2 op = Some b2' ∧ in_sync b' b2' ps' qs'
}.

(** Where a local edit goes, another replica can follow. *)
Lemma edit_made b ps edits started ended :
  let t := vis_text ps in let id := lamport_clock b in
  buffer_wf b ps → roomy (snapshot b) ps → low (operations (history b)) → transaction_depth (history b) = 0%nat →
  Lamport.value id + 2 < U32 →
  edits ≠ [] → ordered (len t) 0 edits → len (concat (normalized t edits).*2) < U32 →
  ∃ b' op ps', edit b edits started ended = Some (b', Op_Edit op) ∧ made b b' ps ps' (Op_Edit op).
Proof.
  intros t id Hwf Hroomy Hlow Hdepth Hfits Hne Hord Hlen. set (ts := (Lamport.tick id).2).
  destruct (edit_ok b ps edits started ended Hwf Hroomy Hlow Hdepth Hfits Hne Hord Hlen)
    as (b' & op & els & rest & ops & h' & Hedit & Hwf' & Htr & Hsrc & Hp & Hq & Hwhole & Hts & Hov & Hnt & Hver & _ & _ & _ & _ & Hum & Hlive).
  fold id ts in Hts, Htr, Hver. set (v := version (snapshot b)) in *.
  assert (Lamport.value ts = Lamport.value id + 1) as Hval by (apply Lamport.value_tick; lia).
  assert (∀ r, Global.get v r < Lamport.value ts) as Hclk.
  { intros r. pose proof (wf_clock _ _ Hwf r) as H. fold v id in H. lia. }
  exists b', op, (el_piece <$> els ++ rest). split; [done|]. cbn [History.timestamp operation_version].
  split; try done; cbn [History.timestamp]; [by rewrite Hts|unfold operation_replica; cbn; by rewrite Hts|by rewrite Hts|].
  intros b2 qs [_ Hwf2 Hbytes Hrecords Hv2 _] [Hsp2 Hfits2 _]. fold v in Hv2. cbn [History.timestamp] in Hfits2.
  pose proof (log_of _ _ Hwf (proj2 (spacious_roomy _ _ Hwf) Hroomy)) as Hlog. pose proof (log_of _ _ Hwf2 Hsp2) as Hlog2.
  destruct (wf_text _ _ Hwf) as [Hs _]. destruct (wf_text _ _ Hwf2) as [Hs2 _]. rewrite Hv2 in Hs2. fold v in Hs.
  assert (authored op ps (to_list (undo_map (snapshot b)))) as Hop.
  { eapply (edit_authored v _ ts ps t edits els rest op); try done; [apply Hs|by eapply fragments_NoDup|by eapply all_alive]. }
  assert (authored op qs (to_list (undo_map (snapshot b2)))) as Hop2.
  { eapply (authored_follows v (snapshot b) (snapshot b2) ps qs); try done. by rewrite Hts. }
  apply (spacious_roomy _ _ Hwf2) in Hsp2.
  destruct (apply_edit_ok b2 qs _ op Hwf2 Hsp2 Hlog2) as (b2' & els2 & rest2 & fulls2 & Happly & Hwf2' & Htr2 & Hsrc2 & Hp2 & Hq2 & Hver2 & Hum2 & _);
    [rewrite Hts, Hv2; by apply unobserved|done|done|].
  exists b2', (el_piece <$> els2 ++ rest2). split; [done|].
  eapply in_sync_intro; [done|done| |by rewrite Hum|by rewrite Hum2|done|by rewrite Hver2, Hver, Hv2, Hts].
  rewrite Hnt in Hp2. rewrite Hts in Htr2.
  eapply (edit_bytes ts visible _ _ (normalized t edits) (ranges op) fulls2 els els2 rest rest2 ps qs); try done; [|by eapply same_flags].
  intros f (p & -> & Hin)%list_elem_of_fmap. pose proof (all_alive _ _ _ _ Hs2 Hlog2) as Hall. rewrite Forall_forall in Hall.
  rewrite Hov. by destruct (Hall p Hin).
Qed.

(** ** Following an undo *)

Lemma reshown_bytes log ps ps' : Forall2 (reshown log) ps ps' → same_bytes ps' ps.
Proof.
  intros H. apply same_bytes_abytes. assert (abytes ps' = abytes ps) as ->.
  { induction H as [|p q ps qs (m & -> & _) _ IH]; [done|].
    change (abytes ([(mk_fragment (id p.1) (timestamp p.1) (insertion_offset p.1) (flen p.1) (shown_under log p.1) (deletions p.1) m, p.2)] ++ qs) =
      abytes ([p] ++ ps)). rewrite !abytes_app, IH. f_equal. unfold abytes. rewrite !tagged_singleton, !annotate_tag. done. }
  apply Forall_Forall2_diag, Forall_true, same_abyte_refl.
Qed.

Lemma same_bytes_sym ps qs : same_bytes ps qs → same_bytes qs ps.
Proof.
  unfold same_bytes. intros H. apply Forall2_flip. eapply Forall2_impl; [exact H|]. intros x y (H1 & H2 & H3). by split_and!.
Qed.

Lemma same_bytes_trans ps qs rs : same_bytes ps qs → same_bytes qs rs → same_bytes ps rs.
Proof.
  unfold same_bytes. intros H1 H2. revert H2. generalize (tagged rs). induction H1 as [|x y l l' (E1 & E2 & E3) _ IH]; intros l2 H2.
  - by apply Forall2_nil_inv_l in H2 as ->.
  - apply Forall2_cons_inv_l in H2 as (z & l3 & (F1 & F2 & F3) & Hl & ->). constructor; [|by apply IH].
    split_and!; [congruence| |congruence]. intros d. by rewrite E2.
Qed.

(** Where an undo or a redo goes, another replica can follow. *)
Lemma turned_made b b' ps t u ps' log' :
  buffer_wf b ps → roomy (snapshot b) ps → undoable b t →
  turned_over b b' ps (to_list (undo_map (snapshot b))) t u ps' log' → made b b' ps ps' (Op_Undo u).
Proof.
  intros Hwf Hroomy Hun [Hwf' Hlog' Hre Hf Hrec _ Hu1 Hu2 Hv Hc].
  assert (Global.observed (version (snapshot b)) (lamport_clock b) = false) as Hts by (apply unobserved; apply (wf_clock _ _ Hwf)).
  split; try done; cbn [History.timestamp operation_version]; [intros r; rewrite Hu1; apply (wf_clock _ _ Hwf)|unfold operation_replica; cbn; by rewrite Hu1|by rewrite Hu1|].
  intros b2 qs [_ Hwf2 Hbytes Hrecords Hv2 _] [Hsp2 Hfits2 Hlow]. cbn [History.timestamp] in Hfits2.
  pose proof (log_of _ _ Hwf2 Hsp2) as Hlog2. apply (spacious_roomy _ _ Hwf2) in Hsp2.
  destruct (apply_undo_op_ok b2 qs _ u Hwf2 Hsp2 Hlog2) as (b2' & ps2' & log2' & E2 & Hwf2' & Hlog2' & Hre2 & Hrec2 & Hver2 & _);
    [by rewrite Hv2, Hu1|done|apply Hc| | |intros m; by apply Hlow|].
  { rewrite (counts_keys _ _ _ Hc). intros He. by destruct (undoable_edits _ _ Hun _ He) as (_ & ? & _). }
  { intros e He. rewrite (counts_keys _ _ _ Hc) in He. rewrite Hv2. by destruct (undoable_edits _ _ Hun _ He). }
  exists b2', ps2'. split; [done|]. eapply in_sync_intro; [done|done| |done|done| |by rewrite Hver2, Hv, Hv2, Hu1].
  - eapply same_bytes_trans; [by eapply reshown_bytes|]. eapply same_bytes_trans; [done|]. by eapply same_bytes_sym, reshown_bytes.
  - intros e w n. rewrite (Hrec e w n), (Hrec2 e w n). by case_decide.
Qed.
