(* ===== verification/BufferFollow.v ===== *)
(** * BufferFollow: replicas that follow a run of another one

    A user edits, undoes and redoes ([command]); the operations that [Buffer::edit],
    [Buffer::undo] and [Buffer::redo] return are applied elsewhere with [apply_op]
    ([follow]). *)

From Stdlib Require Import Sorted.
From S2P Require Import Prelude Clock Locator UndoMap OperationQueue Patch Subscription History HistoryTheorems.
From S2P Require Import Bits Utf8 LineEnding PatchFacts TextSummary Chunk ChunkFacts Rope RopeFacts RopeConvert.
From S2P Require Import RopeEdit RopeSlice Keyed TreeMap TreeMapFacts SumTree SumTreeSpec SumTreeFind Cursor.
From S2P Require Import CursorSpec CursorFacts Fragment RopeBuilder Buffer BufferFacts BufferSteps BufferLocal.
From S2P Require Import BufferInv BufferCommit BufferUndo BufferSeen BufferRemote BufferNew BufferTheorems.
From S2P Require Import BufferReplicas BufferRestores BufferSync.
#[local] Open Scope N_scope.

(** ** A run of the leader *)

(** What a user does to a buffer. *)
Inductive command : Type :=
| Do_Edit (edits : edits_of) (started ended : Instant)
| Do_Undo
| Do_Redo.

Definition perform (b : Buffer) (c : command) : option (Buffer * option Operation) :=
  match c with
  | Do_Edit edits started ended => '(b, op) ← edit b edits started ended; Some (b, Some op)
  | Do_Undo => '(b, r) ← undo b; Some (b, option_map snd r)
  | Do_Redo => '(b, r) ← redo b; Some (b, option_map snd r)
  end.

(** The command fits the buffer: ranges in order within the text, and room for what it does. *)
Definition able (b : Buffer) (c : command) : Prop :=
  spacious (snapshot b) ∧ transaction_depth (history b) = 0%nat ∧
  match c with
  | Do_Edit edits _ _ =>
      let t := texts (to_list (visible_text (snapshot b))) in
      low (operations (history b)) ∧ Lamport.value (lamport_clock b) + 2 < U32 ∧
      edits ≠ [] ∧ ordered (len t) 0 edits ∧ len (concat (normalized t edits).*2) < U32
  | Do_Undo => ∀ pre entry, undo_stack (history b) = pre ++ [entry] → undoable b (transaction entry)
  | Do_Redo => ∀ post entry, redo_stack (history b) = post ++ [entry] → undoable b (transaction entry)
  end.

(** The operations of a run, and a replica that applies them in turn. *)
Fixpoint perform_all (b : Buffer) (cs : list command) : option (Buffer * list Operation) :=
  match cs with
  | [] => Some (b, [])
  | c :: cs =>
      '(b, op) ← perform b c;
      '(b, ops) ← perform_all b cs;
      Some (b, option_list op ++ ops)
  end.

Fixpoint follow (b : Buffer) (ops : list Operation) : option Buffer :=
  match ops with [] => Some b | op :: ops => b ← apply_op b op; follow b ops end.

(** Each command fits the buffer that it meets, and the replica has room for each operation. *)
Fixpoint all_able (b : Buffer) (cs : list command) : Prop :=
  match cs with
  | [] => True
  | c :: cs => able b c ∧ ∀ b' op, perform b c = Some (b', op) → all_able b' cs
  end.

Fixpoint all_accepted (b : Buffer) (ops : list Operation) : Prop :=
  match ops with
  | [] => True
  | op :: ops => accepts b op ∧ ∀ b', apply_op b op = Some b' → all_accepted b' ops
  end.

Lemma with_own_history b : with_history b (history b) = b.
Proof. by destruct b. Qed.

Lemma perform_made b ps c : buffer_wf b ps → able b c →
  ∃ b' r ps', perform b c = Some (b', r) ∧ match r with Some op => made b b' ps ps' op | None => b' = b ∧ ps' = ps end.
Proof.
  intros Hwf (Hsp & Hdepth & Hc). pose proof (log_of _ _ Hwf Hsp) as Hlog. apply (spacious_roomy _ _ Hwf) in Hsp. destruct c as [edits started ended| |].
  - rewrite (wf_visible _ _ Hwf) in Hc. destruct Hc as (H1 & H2 & H3 & H4 & H5).
    destruct (edit_made b ps edits started ended) as (b' & op & ps' & E & Hmade); [done..|].
    exists b', (Some (Op_Edit op)), ps'. cbn [perform]. by rewrite E.
  - destruct (undo_stack (history b)) as [|entry pre _] eqn:Estack using rev_ind.
    + exists b, None, ps. cbn [perform]. unfold undo, pop_undo. rewrite Hdepth, Estack. cbn. by rewrite with_own_history.
    + destruct (undo_ok b ps _ pre entry Hwf Hsp Hlog) as (b' & u & ps' & log' & E & Hover & _); [by eapply Hc|done|done|].
      exists b', (Some (Op_Undo u)), ps'. cbn [perform]. rewrite E. split; [done|]. eapply turned_made; [done|done|by eapply Hc|done].
  - destruct (redo_stack (history b)) as [|entry post _] eqn:Estack using rev_ind.
    + exists b, None, ps. cbn [perform]. unfold redo, pop_redo. rewrite Hdepth, Estack. cbn. by rewrite with_own_history.
    + destruct (redo_ok b ps _ post entry Hwf Hsp Hlog) as (b' & u & ps' & log' & E & Hover & _); [by eapply Hc|done|done|].
      exists b', (Some (Op_Undo u)), ps'. cbn [perform]. rewrite E. split; [done|]. eapply turned_made; [done|done|by eapply Hc|done].
Qed.

(** Operations that were made one after the other, each with the knowledge of the ones before. *)
Fixpoint successive (b : Buffer) (ops : list Operation) : Prop :=
  match ops with
  | [] => True
  | op :: ops =>
      Global.canonical (version (snapshot b)) ∧ operation_version op = version (snapshot b) ∧
      (∀ r, Global.get (version (snapshot b)) r < Lamport.value (History.timestamp op)) ∧
      ∃ b', apply_op b op = Some b' ∧ version (snapshot b') = Global.observe (version (snapshot b)) (History.timestamp op) ∧ successive b' ops
  end.

Lemma run_follows cs : ∀ b ps, buffer_wf b ps → all_able b cs →
  ∃ b' ops ps', perform_all b cs = Some (b', ops) ∧ buffer_wf b' ps' ∧
    ∀ b2 qs, in_sync b b2 ps qs → all_accepted b2 ops →
      ∃ b2' qs', follow b2 ops = Some b2' ∧ in_sync b' b2' ps' qs' ∧ successive b2 ops.
Proof.
  induction cs as [|c cs IH]; intros b ps Hwf.
  { intros _. exists b, [], ps. split_and!; [done|done|]. intros b2 qs Hsync _. by exists b2, qs. }
  cbn [all_able perform_all]. intros [Hable Hall]. destruct (perform_made b ps c Hwf Hable) as (b1 & r & ps1 & E & Hr).
  rewrite E. cbn [mbind option_bind]. specialize (Hall _ _ E). destruct r as [op|].
  - destruct (IH b1 ps1) as (b' & ops & ps' & E' & Hwf' & Hf); [apply Hr|done|]. rewrite E'. cbn [mbind option_bind option_list app].
    exists b', (op :: ops), ps'. split_and!; [done|done|]. intros b2 qs Hsync [Hacc Haccs]. cbn [follow].
    destruct (made_follows _ _ _ _ _ Hr b2 qs Hsync Hacc) as (b21 & qs1 & E2 & Hsync1). rewrite E2. cbn [mbind option_bind].
    destruct (Hf b21 qs1 Hsync1 (Haccs _ E2)) as (b2' & qs' & E2' & Hsync' & Hsucc). exists b2', qs'. split_and!; [done|done|].
    cbn [successive]. rewrite (sync_version _ _ _ _ Hsync). split_and!; [apply (wf_version _ _ Hwf)|apply Hr|apply Hr|].
    exists b21. split_and!; [done| |done]. rewrite (sync_version _ _ _ _ Hsync1). apply Hr.
  - destruct Hr as [-> ->]. destruct (IH b ps) as (b' & ops & ps' & E' & Hwf' & Hf); [done..|]. rewrite E'. cbn [mbind option_bind option_list app].
    by exists b', ops, ps'.
Qed.

(** C2: The operations of a run of a replica, of edits, undos and redos as they fit the buffer, bring
    every replica that is in step with it along when they are applied in turn: the two have the same bytes, each
    inserted and deleted by the same edits, the same undo records, version and text. *)
Theorem replica_follows b b2 ps qs cs : in_sync b b2 ps qs → all_able b cs →
  ∃ b' ops, perform_all b cs = Some (b', ops) ∧
    (all_accepted b2 ops →
     ∃ b2' ps' qs', follow b2 ops = Some b2' ∧ in_sync b' b2' ps' qs' ∧
       rope_inv (visible_text (snapshot b')) (vis_text ps') ∧ rope_inv (visible_text (snapshot b2')) (vis_text ps')).
Proof.
  intros Hsync Hable. destruct (run_follows cs b ps (sync_leader _ _ _ _ Hsync) Hable) as (b' & ops & ps' & E & Hwf' & Hf).
  exists b', ops. split; [done|]. intros Hacc. destruct (Hf b2 qs Hsync Hacc) as (b2' & qs' & E2 & Hsync' & _).
  exists b2', ps', qs'. split_and!; [done|done|apply Hsync'|]. rewrite <- (sync_text _ _ _ _ Hsync'). apply Hsync'.
Qed.

(** ** The conditions, computed *)

Fixpoint in_order (n o : N) (edits : edits_of) : bool :=
  match edits with
  | [] => true
  | (range, text) :: edits =>
      (o <=? Patch.start range) && (Patch.start range <=? Patch.end_ range) && (Patch.end_ range <=? n) &&
      forallb (λ c, c <? 128) text && in_order n (Patch.end_ range) edits
  end.

Lemma in_order_ordered n edits : ∀ o, in_order n o edits = true → ordered n o edits.
Proof.
  induction edits as [|[range text] edits IH]; intros o; cbn [in_order ordered]; [done|].
  rewrite !andb_true_iff, !N.leb_le. intros ((((? & ?) & ?) & Ht) & ?). split_and!; [done..| |by apply IH].
  apply ascii_utf8, Forall_forall. intros c Hc. apply N.ltb_lt. by apply (proj1 (List.forallb_forall _ _) Ht), list_elem_of_In.
Qed.

Definition last_undoable (b : Buffer) (stack : list HistoryEntry) : bool :=
  match last stack with Some entry => can_undo b (transaction entry) | None => true end.

Definition check_able (b : Buffer) (c : command) : bool :=
  small (snapshot b) && (transaction_depth (history b) =? 0)%nat &&
  match c with
  | Do_Edit edits _ _ =>
      let t := texts (to_list (visible_text (snapshot b))) in
      bool_decide (node_height (operations (history b)) < 16)%nat && (Lamport.value (lamport_clock b) + 2 <? U32) &&
      negb (bool_decide (length edits = 0)%nat) && in_order (len t) 0 edits && (len (concat (normalized t edits).*2) <? U32)
  | Do_Undo => last_undoable b (undo_stack (history b))
  | Do_Redo => last_undoable b (redo_stack (history b))
  end.

Fixpoint check_all_able (b : Buffer) (cs : list command) : bool :=
  match cs with
  | [] => true
  | c :: cs => check_able b c && match perform b c with Some (b, _) => check_all_able b cs | None => true end
  end.

Definition check_accepts (b : Buffer) (op : Operation) : bool :=
  small (snapshot b) && (N.max (Lamport.value (lamport_clock b)) (Lamport.value (History.timestamp op)) + 1 <? U32) &&
  match op with
  | Op_Edit _ => true
  | Op_Undo u => match UndoMap.insert (undo_map (snapshot b)) u with Some m => bool_decide (node_height m < 16)%nat | None => true end
  end.

Fixpoint check_all_accepted (b : Buffer) (ops : list Operation) : bool :=
  match ops with
  | [] => true
  | op :: ops => check_accepts b op && match apply_op b op with Some b => check_all_accepted b ops | None => true end
  end.

Lemma last_undoable_spec b stack : last_undoable b stack = true → ∀ pre entry, stack = pre ++ [entry] → undoable b (transaction entry).
Proof. unfold last_undoable. intros H pre entry ->. rewrite last_snoc in H. by apply can_undo_undoable. Qed.

Lemma check_able_spec b ps c : buffer_wf b ps → check_able b c = true → able b c.
Proof.
  intros Hwf. unfold check_able, able. rewrite !andb_true_iff. intros ((Hs & Hd%Nat.eqb_eq) & Hc).
  split_and!; [by apply (spacious_roomy _ _ Hwf), roomy_of|done|]. destruct c as [edits ? ?| |]; [|by apply last_undoable_spec..].
  rewrite !andb_true_iff, !N.ltb_lt, negb_true_iff, bool_decide_eq_true, bool_decide_eq_false in Hc.
  destruct Hc as ((((H1 & H2) & H3) & H4%in_order_ordered) & H5). split_and!; [done|done| |done|done]. by intros ->.
Qed.

Lemma check_all_able_spec cs : ∀ b ps, buffer_wf b ps → check_all_able b cs = true → all_able b cs.
Proof.
  induction cs as [|c cs IH]; intros b ps Hwf; cbn [check_all_able all_able]; [done|]. rewrite andb_true_iff. intros [Hc Hcs].
  pose proof (check_able_spec _ _ _ Hwf Hc) as Hable. split; [done|]. intros b' r E.
  destruct (perform_made b ps c Hwf Hable) as (b1 & r1 & ps1 & E1 & Hr). rewrite E1 in E. injection E as <- <-. rewrite E1 in Hcs.
  destruct r1 as [op|]; [by eapply IH; [apply Hr|]|]. destruct Hr as [-> ->]. by eapply IH.
Qed.

Lemma check_accepts_spec b ps op : buffer_wf b ps → check_accepts b op = true → accepts b op.
Proof.
  intros Hwf. unfold check_accepts. rewrite !andb_true_iff, N.ltb_lt. intros ((Hs & Hc) & Hu).
  split; [by apply (spacious_roomy _ _ Hwf), roomy_of|done|]. intros u m -> E. rewrite E in Hu. by apply bool_decide_eq_true in Hu.
Qed.

Lemma check_all_accepted_spec cs : ∀ b b2 ps qs b' ops, in_sync b b2 ps qs → all_able b cs → perform_all b cs = Some (b', ops) →
  check_all_accepted b2 ops = true → all_accepted b2 ops.
Proof.
  induction cs as [|c cs IH]; intros b b2 ps qs b' ops Hsync; cbn [all_able perform_all]; [by intros _ [= <- <-]|].
  intros [Hable Hall]. destruct (perform_made b ps c (sync_leader _ _ _ _ Hsync) Hable) as (b1 & r & ps1 & E & Hr).
  rewrite E. cbn [mbind option_bind]. specialize (Hall _ _ E). destruct (perform_all b1 cs) as [[b1' ops1]|] eqn:E1; [|done].
  cbn [mbind option_bind]. intros [= -> <-]. destruct r as [op|].
  - change (option_list (Some op) ++ ops1) with (op :: ops1). cbn [check_all_accepted all_accepted]. rewrite andb_true_iff. intros [Hc Hcs].
    pose proof (check_accepts_spec _ _ _ (sync_follower _ _ _ _ Hsync) Hc) as Hacc. split; [done|]. intros b2' E2.
    destruct (made_follows _ _ _ _ _ Hr b2 qs Hsync Hacc) as (b21 & qs1 & E21 & Hsync1). rewrite E21 in E2, Hcs. injection E2 as <-.
    by eapply IH.
  - destruct Hr as [-> ->]. change (option_list None ++ ops1) with ops1. by eapply IH.
Qed.

(** ** A concrete run *)

Lemma Some_pair_inj {A B} (a a' : A) (b b' : B) : Some (a, b) = Some (a', b') → a = a' ∧ b = b'.
Proof. by intros [= -> ->]. Qed.

Definition demo_run : list command := [Do_Edit demo_edits 0 1; Do_Undo; Do_Redo; Do_Edit [(mk_range 0 5, [33])] 2 3].
Definition demo_ops : list Operation := match perform_all (demo_buffer AGENT) demo_run with Some (_, ops) => ops | None => [] end.

Lemma demo_in_sync r r' : in_sync (demo_buffer r) (demo_buffer r') demo_pieces demo_pieces.
Proof.
  eapply in_sync_intro; [apply demo_wf|apply demo_wf|apply same_bytes_refl|apply demo_log|apply demo_log|done|by vm_compute].
Qed.

Lemma demo_able : all_able (demo_buffer AGENT) demo_run.
Proof. eapply check_all_able_spec; [apply demo_wf|by vm_compute]. Qed.

Lemma demo_performed : ∃ b', perform_all (demo_buffer AGENT) demo_run = Some (b', demo_ops) ∧ length demo_ops = 4%nat.
Proof.
  unfold demo_ops. assert (∃ b ops, perform_all (demo_buffer AGENT) demo_run = Some (b, ops) ∧ length ops = 4%nat) as (b & ops & E & Hl).
  { assert (match perform_all (demo_buffer AGENT) demo_run with Some (_, ops) => length ops | None => 0%nat end = 4%nat) as H by by vm_compute.
    destruct (perform_all (demo_buffer AGENT) demo_run) as [[b ops]|]; [by exists b, ops|done]. }
  rewrite E. exists b. split; [reflexivity|exact Hl].
Qed.

Lemma demo_accepted : all_accepted (demo_buffer FIRST_COLLAB_ID) demo_ops.
Proof.
  destruct demo_performed as (b' & E & _). eapply check_all_accepted_spec; [apply (demo_in_sync AGENT)|apply demo_able|exact E|by vm_compute].
Qed.

Lemma replica_follows_witness : ∃ b' b2' ps' qs', perform_all (demo_buffer AGENT) demo_run = Some (b', demo_ops) ∧
  follow (demo_buffer FIRST_COLLAB_ID) demo_ops = Some b2' ∧ in_sync b' b2' ps' qs'.
Proof.
  destruct (replica_follows (demo_buffer AGENT) (demo_buffer FIRST_COLLAB_ID) demo_pieces demo_pieces demo_run (demo_in_sync _ _) demo_able)
    as (b' & ops & E & H). destruct demo_performed as (b1 & E1 & _).
  pose proof (Some_pair_inj _ _ _ _ (eq_trans (eq_sym E1) E)) as [-> <-].
  destruct (H demo_accepted) as (b2' & ps' & qs' & E3 & Hsync & _). exists b', b2', ps', qs'.
  split; [exact E1|split; [exact E3|exact Hsync]].
Defined.
