(* ===== verification/BufferDelivery.v ===== *)
(** * BufferDelivery: operations that arrive in any order

    [Buffer::apply_ops] of [crates/text/src/text.rs] defers an operation whose version has not
    been observed yet and tries again after each batch ([flush_deferred_ops]).  Operations
    that were made one after the other may therefore arrive in any order, in any batches
    and more than once: when all have arrived, none is deferred and the buffer is the one
    that applied them in turn. *)

From Stdlib Require Import Sorted.
From S2P Require Import Prelude Clock Locator UndoMap OperationQueue Patch Subscription History HistoryTheorems.
From S2P Require Import Bits Utf8 LineEnding PatchFacts TextSummary Chunk ChunkFacts Rope RopeFacts RopeConvert.
From S2P Require Import RopeEdit RopeSlice Keyed TreeMap TreeMapFacts SumTree SumTreeSpec SumTreeFind Cursor.
From S2P Require Import CursorSpec CursorFacts Fragment RopeBuilder Buffer BufferFacts BufferSteps BufferLocal.
From S2P Require Import BufferInv BufferCommit BufferUndo BufferSeen BufferRemote BufferNew BufferTheorems.
From S2P Require Import BufferReplicas BufferRestores BufferSync BufferFollow.
#[local] Open Scope N_scope.

(** ** What an operation leaves alone *)

(** The text of [b] with the history and the deferred operations of [f]. *)
Definition framed (b f : Buffer) : Buffer :=
  mk_buffer (snapshot b) (history f) (deferred_ops f) (deferred_replicas f) (lamport_clock b) (subscriptions b).

Lemma framed_self b : framed b b = b.
Proof. by destruct b. Qed.

Lemma framed_framed b f g : framed (framed b f) g = framed b g.
Proof. done. Qed.



Lemma commit_edit_framed {D} b f (parts : editing D * Fragments * Rope * Rope) :
  commit_edit (framed b f) parts = (λ b', framed b' f) <$> commit_edit b parts.
Proof.
  destruct parts as [[[st fs] vt] dt]. unfold commit_edit. cbn [snapshot framed subscriptions].
  destruct (Keyed.edit _ _) as [[? ?]|]; [|done]. cbn [mbind option_bind].
  destruct (publish _ _); [|done]. cbn [mbind option_bind]. by destruct (TreeSet.extend _ _).
Qed.

Lemma apply_remote_edit_framed v b f ranges text ts :
  apply_remote_edit v (framed b f) ranges text ts = (λ b', framed b' f) <$> apply_remote_edit v b ranges text ts.
Proof.
  unfold apply_remote_edit. destruct ranges as [|first ranges]; [done|]. cbn [snapshot framed].
  destruct (rope_cursor_at (visible_text (snapshot b)) 0); [|done]. cbn [mbind option_bind].
  destruct (rope_cursor_at (deleted_text (snapshot b)) 0); [|done]. cbn [mbind option_bind].
  destruct (append_slice _ _ _); [|done]. cbn [mbind option_bind].
  destruct (start_offset _ _); [|done]. cbn [mbind option_bind].
  destruct (remote_edits _ _ _ _); [|done]. cbn [mbind option_bind].
  destruct (finish_editing _ _); [|done]. cbn [mbind option_bind]. apply commit_edit_framed.
Qed.

Lemma apply_undo_framed b f u : apply_undo (framed b f) u = (λ b', framed b' f) <$> apply_undo b u.
Proof.
  unfold apply_undo. cbn [snapshot framed subscriptions].
  destruct (UndoMap.insert _ _) as [m|]; [|done]. cbn [mbind option_bind]. unfold with_undo_map. cbn [visible_text deleted_text].
  destruct (rope_cursor_at (visible_text (snapshot b)) 0); [|done]. cbn [mbind option_bind].
  destruct (rope_cursor_at (deleted_text (snapshot b)) 0); [|done]. cbn [mbind option_bind].
  destruct (fragment_ids_for_edits _ _); [|done]. cbn [mbind option_bind].
  destruct (undo_steps _ _ _ _) as [st|]; [|done]. cbn [mbind option_bind].
  destruct (Cursor.suffix _) as [[? suffix]|]; [|done]. cbn [mbind option_bind].
  destruct (builder_append _ _); [|done]. cbn [mbind option_bind].
  destruct (append _ _); [|done]. cbn [mbind option_bind].
  destruct (builder_finish _) as [[? ?]|]; [|done]. cbn [mbind option_bind].
  by destruct (publish _ _).
Qed.

Lemma apply_op_framed b f op : apply_op (framed b f) op = (λ b', framed b' f) <$> apply_op b op.
Proof.
  destruct op as [e|u]; cbn [apply_op snapshot framed]; (case_match; [done|]).
  - rewrite apply_remote_edit_framed. by destruct (apply_remote_edit _ _ _ _ _).
  - rewrite apply_undo_framed. by destruct (apply_undo _ _).
Qed.

(** ** Successive operations *)

(** ** Successive operations *)

Lemma follow_app b l1 l2 : follow b (l1 ++ l2) = follow b l1 ≫= λ s, follow s l2.
Proof. revert b. induction l1 as [|op l1 IH]; intros b; [done|]. cbn [app follow]. by destruct (apply_op b op); cbn [mbind option_bind]. Qed.

Lemma successive_follow l : ∀ b k, successive b l →
  ∃ s, follow b (take k l) = Some s ∧ successive s (drop k l) ∧ ∀ r, Global.get (version (snapshot b)) r ≤ Global.get (version (snapshot s)) r.
Proof.
  induction l as [|op l IH]; intros b k Hs; [exists b; by destruct k|]. destruct k as [|k]; [by exists b|].
  destruct Hs as (_ & _ & _ & b' & E & Hv & Hs). destruct (IH b' k Hs) as (s & Es & Hs' & Hle). exists s. cbn [take follow drop]. rewrite E.
  split_and!; [done|done|]. intros r. etrans; [|apply Hle]. rewrite Hv, Global.get_observe. case_decide; lia.
Qed.

Definition same_rest (b b' : Buffer) : Prop :=
  history b' = history b ∧ deferred_ops b' = deferred_ops b ∧ deferred_replicas b' = deferred_replicas b.

Section delivery.
Context (b0 : Buffer) (ops : list Operation) (Hsucc : successive b0 ops).

(** [b] has applied the first [k] operations. *)
Definition reached (k : nat) (b : Buffer) : Prop :=
  ∃ s, follow b0 (take k ops) = Some s ∧ snapshot b = snapshot s ∧ lamport_clock b = lamport_clock s ∧ subscriptions b = subscriptions s.

Lemma op_at k op : ops !! k = Some op → ∃ s s', follow b0 (take k ops) = Some s ∧ follow b0 (take (S k) ops) = Some s' ∧
  apply_op s op = Some s' ∧ Global.canonical (version (snapshot s)) ∧ operation_version op = version (snapshot s) ∧
  (∀ r, Global.get (version (snapshot s)) r < Lamport.value (History.timestamp op)) ∧
  version (snapshot s') = Global.observe (version (snapshot s)) (History.timestamp op).
Proof.
  intros Hk. destruct (successive_follow ops b0 k Hsucc) as (s & Es & Hs & _). rewrite (drop_S _ _ _ Hk) in Hs.
  destruct Hs as (H1 & H2 & H3 & s' & E & Hv & _). exists s, s'. split_and!; try done.
  rewrite (take_S_r _ _ _ Hk), follow_app, Es. cbn [mbind option_bind follow]. by rewrite E.
Qed.

Lemma versions_grow j k s s' : (j ≤ k)%nat → follow b0 (take j ops) = Some s → follow b0 (take k ops) = Some s' →
  ∀ r, Global.get (version (snapshot s)) r ≤ Global.get (version (snapshot s')) r.
Proof.
  intros Hjk Hs Hs'. destruct (successive_follow ops b0 j Hsucc) as (s1 & E & Hrest & _). rewrite Hs in E. injection E as <-.
  destruct (successive_follow (drop j ops) s (k - j) Hrest) as (s2 & E2 & _ & Hle).
  assert (take k ops = take j ops ++ take (k - j) (drop j ops)) as Ek.
  { rewrite <- (take_drop j ops) at 1. rewrite take_app_ge, length_take; rewrite ?length_take; [|lia].
    destruct (decide (j ≤ length ops)%nat); [by rewrite Nat.min_l by lia|]. by rewrite (drop_ge ops j), !take_nil by lia. }
  rewrite Ek, follow_app, Hs in Hs'. cbn [mbind option_bind] in Hs'. rewrite Hs' in E2. by injection E2 as ->.
Qed.

(** An operation is observed as soon as it has been applied, and not before. *)
Lemma observed_at k s j op : follow b0 (take k ops) = Some s → ops !! j = Some op →
  Global.observed (version (snapshot s)) (History.timestamp op) = true ↔ (j < k)%nat.
Proof.
  intros Hs Hj. destruct (op_at j op Hj) as (sj & sj' & E & E' & _ & _ & _ & Hlater & Hv). rewrite Global.observed_iff. split.
  - intros Hle. destruct (decide (j < k)%nat); [done|]. exfalso.
    pose proof (versions_grow k j s sj ltac:(lia) Hs E (Lamport.replica_id (History.timestamp op))) as H1.
    specialize (Hlater (Lamport.replica_id (History.timestamp op))). lia.
  - intros Hlt. pose proof (versions_grow (S j) k sj' s ltac:(lia) E' Hs (Lamport.replica_id (History.timestamp op))) as H1.
    rewrite Hv, Global.get_observe, decide_True in H1 by done. lia.
Qed.

Lemma timestamps_grow j k op op' : ops !! j = Some op → ops !! k = Some op' → (j < k)%nat → History.timestamp op ≺ History.timestamp op'.
Proof.
  intros Hj Hk Hlt. destruct (op_at k op' Hk) as (s & _ & E & _ & _ & _ & _ & Hlater & _).
  pose proof (proj2 (observed_at k s j op E Hj) Hlt) as Hobs. rewrite Global.observed_iff in Hobs.
  apply Lamport.olt_iff. left. specialize (Hlater (Lamport.replica_id (History.timestamp op))). lia.
Qed.

Lemma can_apply_at k b j op : reached k b → (k ≤ length ops)%nat → ops !! j = Some op → operation_replica op ∉ deferred_replicas b →
  can_apply_op b op = true ↔ (j ≤ k)%nat.
Proof.
  intros (s & Hs & Hsnap & _) Hk Hj Hr. unfold can_apply_op. rewrite bool_decide_false, Hsnap by done.
  destruct (op_at j op Hj) as (sj & _ & E & _ & _ & Hcan & -> & _ & _). rewrite Global.observed_all_iff by done. split.
  - intros Hle. destruct (decide (j ≤ k)%nat); [done|]. exfalso. destruct (lookup_lt_is_Some_2 ops k) as [opk Hopk].
    { apply lookup_lt_Some in Hj. lia. }
    pose proof (proj2 (observed_at j sj k opk E Hopk) ltac:(lia)) as H1. rewrite Global.observed_iff in H1.
    apply (Nat.lt_irrefl k), (observed_at k s k opk Hs Hopk). rewrite Global.observed_iff. etrans; [exact H1|apply Hle].
  - intros Hle r. by apply (versions_grow j k).
Qed.

Lemma apply_at k b j op : reached k b → ops !! j = Some op → (j ≤ k)%nat →
  ∃ b', apply_op b op = Some b' ∧ reached (max k (S j)) b' ∧ same_rest b b'.
Proof.
  intros Hb Hj Hle. pose proof Hb as (s & Hs & Hsnap & Hclk & Hsub). destruct (decide (j < k)%nat) as [Hlt|Hge].
  - exists b. rewrite Nat.max_l by lia. split_and!; [|done|done]. pose proof (proj2 (observed_at k s j op Hs Hj) Hlt) as Hobs.
    rewrite <- Hsnap in Hobs. destruct op; cbn [apply_op History.timestamp] in *; by rewrite Hobs.
  - assert (j = k) as -> by lia. rewrite Nat.max_r by lia.
    destruct (op_at k op Hj) as (s1 & s' & E & E' & Happ & _). rewrite Hs in E. injection E as <-.
    exists (framed s' b). split_and!; [|by exists s'|done].
    replace b with (framed s b) at 1; [by rewrite apply_op_framed, Happ|]. unfold framed. rewrite <- Hsnap, <- Hclk, <- Hsub. by destruct b.
Qed.


(** ** The queue of deferred operations *)

Lemma timestamps_inj op op' : op ∈ ops → op' ∈ ops → History.timestamp op = History.timestamp op' → op = op'.
Proof.
  intros [j Hj]%list_elem_of_lookup_1 [k Hk]%list_elem_of_lookup_1 E. destruct (lt_eq_lt_dec j k) as [[Hlt|<-]|Hlt]; [|congruence|].
  - pose proof (timestamps_grow j k op op' Hj Hk Hlt) as H. rewrite E in H. by apply olt_irrefl in H.
  - pose proof (timestamps_grow k j op' op Hk Hj Hlt) as H. rewrite E in H. by apply olt_irrefl in H.
Qed.

Lemma ops_timed l : (∀ op, op ∈ l → op ∈ ops) → timed l.
Proof.
  intros Hl. apply Forall_forall. intros op Hop. destruct (list_elem_of_lookup_1 _ _ (Hl op Hop)) as [j Hj].
  destruct (op_at j op Hj) as (s & _ & _ & _ & _ & _ & _ & Hlater & _). apply Lamport.olt_iff. left.
  specialize (Hlater (Lamport.replica_id (History.timestamp op))). unfold Lamport.MIN. cbn. unfold lamport_timestamp, operation_timestamp. lia.
Qed.

Lemma queue_insert_ops q waiting added : queue_of q waiting → (∀ op, op ∈ waiting → op ∈ ops) → (∀ op, op ∈ added → op ∈ ops) →
  ∃ q' waiting', queue_insert q added = Some q' ∧ (low q' → queue_of q' waiting') ∧ (∀ op, op ∈ waiting' ↔ op ∈ waiting ∨ op ∈ added).
Proof.
  intros Hq Hin Hadd. destruct (queue_insert_spec q waiting added Hq (ops_timed _ Hadd)) as (q' & w' & E & (h & Hh) & Hw & Hsort & Htime & Hget).
  exists q', w'. split_and!; [done|intros Hlow; exists h; split_and!; try done; by apply (low_wf h q')|].
  destruct Hq as (_ & _ & _ & _ & Hqs & _). intros op. specialize (Hget (lamport_timestamp op)). split.
  - intros Hop. rewrite (first_with_sorted lamport_timestamp _ _ Hsort Hop) in Hget.
    destruct (OperationQueue.first_with lamport_timestamp (lamport_timestamp op) added) as [x|] eqn:Ea.
    + injection Hget as ->. right. by apply first_with_elem in Ea as [? _].
    + left. symmetry in Hget. by apply first_with_elem in Hget as [? _].
  - intros Hop. enough (OperationQueue.first_with lamport_timestamp (lamport_timestamp op) w' = Some op) as H by by apply first_with_elem in H as [? _].
    rewrite Hget. destruct (OperationQueue.first_with lamport_timestamp (lamport_timestamp op) added) as [x|] eqn:Ea.
    + apply first_with_elem in Ea as [Hx Et]. f_equal. apply timestamps_inj; [by apply Hadd|destruct Hop; auto|done].
    + destruct Hop as [Hop|Hop]; [by apply first_with_sorted|]. by destruct (proj1 (first_with_None lamport_timestamp _ added) Ea op Hop).
Qed.

(** ** A batch *)

(** The history has room for the operations. *)
Definition recorded (b : Buffer) : Prop := ∃ l, becomes l (operations (history b)).

Fixpoint recordable (h : History Rope) (l : list Operation) : Prop :=
  match l with
  | [] => True
  | op :: l => low (operations h) ∧ ∀ h', History.push h op = Some h' → recordable h' l
  end.

Lemma push_recorded b op : recorded b → low (operations (history b)) →
  ∃ h', History.push (history b) op = Some h' ∧ recorded (with_history b h').
Proof.
  intros (l & (h & Hwf) & Hl & Hs) Hlow.
  destruct (insert_map (operations (history b)) l (History.timestamp op) op) as (t & l' & _ & E & Hb & _).
  { exists h. split_and!; try done. by apply (low_wf h (operations (history b))). }
  unfold History.push. rewrite E. cbn [mbind option_bind]. eexists. split; [done|]. by exists l'.
Qed.

Lemma receive_at batch : ∀ k b acc, reached k b → (k ≤ length ops)%nat → recorded b → recordable (history b) batch →
  (∀ op, op ∈ batch → op ∈ ops) →
  ∃ b' k' waiting, receive_ops b batch acc = Some (b', acc ++ waiting) ∧ reached k' b' ∧ (k ≤ k' ≤ length ops)%nat ∧ recorded b' ∧
    deferred_ops b' = deferred_ops b ∧ (∀ op, op ∈ waiting → op ∈ batch) ∧
    (∀ j op, op ∈ batch → ops !! j = Some op → (j < k')%nat ∨ op ∈ waiting).
Proof.
  induction batch as [|op batch IH]; intros k b acc Hb Hk Hrec Hfit Hin.
  { exists b, k, []. rewrite app_nil_r. split_and!; try done. by intros ? ? ?%elem_of_nil. }
  destruct Hfit as [Hlow Hfit]. cbn [receive_ops]. destruct (push_recorded b op Hrec Hlow) as (h' & E & Hrec'). rewrite E. cbn [mbind option_bind].
  specialize (Hfit _ E). set (b1 := with_history b h') in *. assert (reached k b1) as Hb1 by exact Hb.
  destruct (list_elem_of_lookup_1 _ _ (Hin op ltac:(by left))) as [j Hj]. pose proof (lookup_lt_Some _ _ _ Hj) as Hjlen.
  assert (∀ x, x ∈ batch → x ∈ ops) as Hin' by (intros x Hx; apply Hin; by right).
  assert (∀ i x, ops !! i = Some x → x = op → i = j) as Hij.
  { intros i x Hi ->. destruct (lt_eq_lt_dec i j) as [[Hlt|?]|Hlt]; [|done|].
    - pose proof (timestamps_grow i j op op Hi Hj Hlt) as H. by apply olt_irrefl in H.
    - pose proof (timestamps_grow j i op op Hj Hi Hlt) as H. by apply olt_irrefl in H. }
  destruct (can_apply_op b1 op) eqn:Ecan.
  - assert (j ≤ k)%nat as Hjk.
    { apply (can_apply_at k b1 j op Hb1 Hk Hj); [|done]. unfold can_apply_op in Ecan. intros Hd. by rewrite bool_decide_true in Ecan. }
    destruct (apply_at k b1 j op Hb1 Hj Hjk) as (b2 & E2 & Hb2 & Hh2 & Hq2 & _). rewrite E2. cbn [mbind option_bind].
    destruct (IH (max k (S j)) b2 acc Hb2 ltac:(lia)) as (b' & k' & waiting & E' & Hb' & Hk' & Hrec2 & Hq' & Hw & Hall); [|by rewrite Hh2|done|].
    { unfold recorded. by rewrite Hh2. }
    exists b', k', waiting. split_and!; try done; [lia|lia|by rewrite Hq', Hq2|intros x Hx; right; by apply Hw|].
    intros i x [->|Hx]%elem_of_cons Hi; [left; rewrite (Hij _ _ Hi eq_refl); lia|by apply Hall].
  - set (b2 := with_deferred b1 _ _).
    destruct (IH k b2 (acc ++ [op]) Hb1 Hk Hrec' Hfit Hin') as (b' & k' & waiting & E' & Hb' & Hk' & Hrec2 & Hq' & Hw & Hall).
    exists b', k', (op :: waiting). rewrite E'. rewrite <- (assoc_L (++)). split_and!; try done; [lia|lia| |].
    + intros x [->|Hx]%elem_of_cons; [by left|right; by apply Hw].
    + intros i x [->|Hx]%elem_of_cons Hi; [right; by left|]. destruct (Hall i x Hx Hi); [by left|right; by right].
Qed.
(** ** The deferred operations, tried again *)

Lemma lookup_unique i j op : ops !! i = Some op → ops !! j = Some op → i = j.
Proof.
  intros Hi Hj. destruct (lt_eq_lt_dec i j) as [[Hlt|?]|Hlt]; [|done|].
  - pose proof (timestamps_grow i j op op Hi Hj Hlt) as H. by apply olt_irrefl in H.
  - pose proof (timestamps_grow j i op op Hj Hi Hlt) as H. by apply olt_irrefl in H.
Qed.

(** Nothing that comes after an operation that has to wait can be applied. *)
Lemma defer_rest l : ∀ k b acc, reached k b → (k ≤ length ops)%nat → (∀ op, op ∈ l → ∃ j, ops !! j = Some op ∧ (k < j)%nat) →
  ∃ b', apply_or_defer b l acc = Some (b', acc ++ l) ∧ reached k b' ∧ history b' = history b ∧ deferred_ops b' = deferred_ops b.
Proof.
  induction l as [|op l IH]; intros k b acc Hb Hk Hl; [exists b; by rewrite app_nil_r|].
  destruct (Hl op ltac:(by left)) as (j & Hj & Hlt). cbn [apply_or_defer]. destruct (can_apply_op b op) eqn:Ecan.
  { exfalso. assert (j ≤ k)%nat; [|lia]. apply (can_apply_at k b j op Hb Hk Hj); [|done].
    unfold can_apply_op in Ecan. intros Hd. by rewrite bool_decide_true in Ecan. }
  destruct (IH k (with_deferred b (deferred_ops b) (operation_replica op :: deferred_replicas b)) (acc ++ [op]) Hb Hk)
    as (b' & E & Hb' & Hh & Hq); [intros x Hx; apply Hl; by right|].
  exists b'. rewrite E, <- (assoc_L (++)). by split_and!.
Qed.

Lemma flush_at l : ∀ k b, reached k b → (k ≤ length ops)%nat → deferred_replicas b = [] →
  StronglySorted (λ x y, History.timestamp x ≺ History.timestamp y) l → (∀ op, op ∈ l → op ∈ ops) →
  ∃ b' k' rest, apply_or_defer b l [] = Some (b', rest) ∧ reached k' b' ∧ (k ≤ k' ≤ length ops)%nat ∧
    history b' = history b ∧ deferred_ops b' = deferred_ops b ∧
    (∀ j op, op ∈ l → ops !! j = Some op → (j < k')%nat ∨ op ∈ rest) ∧
    (∀ op, op ∈ rest → ∃ j, ops !! j = Some op ∧ (k' < j)%nat).
Proof.
  induction l as [|op l IH]; intros k b Hb Hk Hr Hs Hin.
  { exists b, k, []. split_and!; try done; [by intros ? ? ?%elem_of_nil|by intros ? ?%elem_of_nil]. }
  apply StronglySorted_inv in Hs as [Hs Hop]. destruct (list_elem_of_lookup_1 _ _ (Hin op ltac:(by left))) as [j Hj].
  assert (∀ x, x ∈ l → x ∈ ops) as Hin' by (intros x Hx; apply Hin; by right). pose proof (lookup_lt_Some _ _ _ Hj) as Hjlen.
  assert (operation_replica op ∉ deferred_replicas b) as Hnr by (rewrite Hr; by intros ?%elem_of_nil).
  pose proof (can_apply_at k b j op Hb Hk Hj Hnr) as Hcan. cbn [apply_or_defer]. destruct (can_apply_op b op) eqn:Ecan.
  - destruct (apply_at k b j op Hb Hj (proj1 Hcan eq_refl)) as (b1 & E & Hb1 & Hh1 & Hq1 & Hr1). rewrite E. cbn [mbind option_bind].
    destruct (IH (max k (S j)) b1 Hb1 ltac:(lia)) as (b' & k' & rest & E' & Hb' & Hk' & Hh & Hq & Hall & Hrest); [by rewrite Hr1|done|done|].
    exists b', k', rest. split_and!; try done; [lia|lia|by rewrite Hh, Hh1|by rewrite Hq, Hq1|].
    intros i x [->|Hx]%elem_of_cons Hi; [left; rewrite (lookup_unique _ _ _ Hi Hj); lia|by apply Hall].
  - assert (k < j)%nat as Hlt by (apply Nat.nle_gt; intros H; by apply Hcan in H).
    assert (∀ x, x ∈ op :: l → ∃ i, ops !! i = Some x ∧ (k < i)%nat) as Hlater.
    { intros x [->|Hx]%elem_of_cons; [by exists j|]. destruct (list_elem_of_lookup_1 _ _ (Hin' x Hx)) as [i Hi]. exists i. split; [done|].
      rewrite Forall_forall in Hop. specialize (Hop x Hx). destruct (lt_eq_lt_dec i j) as [[Hij| ->]|?]; [|congruence|lia].
      exfalso. apply (olt_irrefl (History.timestamp op)). eapply olt_trans; [exact Hop|]. by apply (timestamps_grow i j). }
    destruct (defer_rest l k (with_deferred b (deferred_ops b) (operation_replica op :: deferred_replicas b)) [op] Hb Hk) as (b' & E & Hb' & Hh & Hq).
    { intros x Hx. apply Hlater. by right. }
    exists b', k, (op :: l). cbn [app]. rewrite E. split_and!; try done. intros i x Hx _. by right.
Qed.

(** ** Batches *)

(** [b] has applied the first [k] operations, and those of [waiting] wait for the next. *)
Record standing (k : nat) (b : Buffer) (waiting : list Operation) : Prop := {
  standing_reached : reached k b;
  standing_within : (k ≤ length ops)%nat;
  standing_recorded : recorded b;
  standing_queue : queue_of (deferred_ops b) waiting;
  standing_later op : op ∈ waiting → ∃ j, ops !! j = Some op ∧ (k < j)%nat
}.

(** The history and the queue have room for a batch. *)
Record storable (b : Buffer) (batch : list Operation) : Prop := {
  storable_history : recordable (history b) batch;
  storable_queue b1 waiting q : receive_ops b batch [] = Some (b1, waiting) → queue_insert (deferred_ops b1) waiting = Some q → low q;
  storable_rest b' : apply_ops b batch = Some b' → low (deferred_ops b')
}.

Lemma apply_ops_at k b waiting batch : standing k b waiting → storable b batch → (∀ op, op ∈ batch → op ∈ ops) →
  ∃ b' k' waiting', apply_ops b batch = Some b' ∧ standing k' b' waiting' ∧ (k ≤ k')%nat ∧
    ∀ j op, op ∈ waiting ∨ op ∈ batch → ops !! j = Some op → (j < k')%nat ∨ op ∈ waiting'.
Proof.
  intros [Hb Hk Hrec Hq Hlater] [Hfit Hfitq Hfitr] Hin.
  destruct (receive_at batch k b [] Hb Hk Hrec Hfit Hin) as (b1 & k1 & w1 & E1 & Hb1 & Hk1 & Hrec1 & Hq1 & Hw1 & Hall1).
  rewrite app_nil_l in E1. assert (∀ op, op ∈ waiting → op ∈ ops) as Hwin.
  { intros op Hop. destruct (Hlater op Hop) as (j & Hj & _). by eapply list_elem_of_lookup_2. }
  rewrite <- Hq1 in Hq. destruct (queue_insert_ops _ _ w1 Hq Hwin) as (q & w & Eq & Hlow & Hw); [intros op Hop; by apply Hin, Hw1|].
  specialize (Hlow (Hfitq _ _ _ E1 Eq)). assert (∀ op, op ∈ w → op ∈ ops) as Hwops.
  { intros op [Hop|Hop]%Hw; [by apply Hwin|by apply Hin, Hw1]. }
  pose proof Hlow as (_ & _ & _ & _ & Hsort & _).
  destruct (flush_at w k1 (with_deferred b1 tree_new []) Hb1 ltac:(lia) eq_refl Hsort Hwops)
    as (b2 & k2 & rest & E2 & Hb2 & Hk2 & Hh2 & Hq2 & Hall2 & Hrest).
  assert (∀ op, op ∈ rest → op ∈ ops) as Hrops.
  { intros op Hop. destruct (Hrest op Hop) as (j & Hj & _). by eapply list_elem_of_lookup_2. }
  destruct (queue_insert_ops tree_new [] rest queue_new_of) as (q' & w' & Eq' & Hlow' & Hw'); [by intros ? ?%elem_of_nil|done|].
  assert (apply_ops b batch = Some (with_deferred b2 q' (deferred_replicas b2))) as E.
  { unfold apply_ops. rewrite E1. cbn [mbind option_bind]. rewrite Eq. cbn [mbind option_bind].
    unfold flush_deferred_ops, queue_drain. cbn [with_deferred deferred_ops deferred_replicas].
    rewrite (queue_iter_of _ _ Hlow). cbn [mbind option_bind].
    change (with_deferred (with_deferred (with_deferred b1 q _) _ _) _ _) with (with_deferred b1 tree_new []). rewrite E2.
    cbn [mbind option_bind]. rewrite Hq2. cbn [with_deferred deferred_ops]. rewrite Eq'. done. }
  specialize (Hlow' (Hfitr _ E)). exists (with_deferred b2 q' (deferred_replicas b2)), k2, w'. split_and!; [done| |lia|].
  - split; [done|lia| |done|intros op [?%elem_of_nil|Hop]%Hw'; [done|by apply Hrest]].
    unfold recorded. cbn [with_deferred history]. rewrite Hh2. apply Hrec1.
  - assert (∀ j op, op ∈ w → ops !! j = Some op → (j < k2)%nat ∨ op ∈ w') as Hfin.
    { intros j op Hop Hj. destruct (Hall2 j op Hop Hj); [by left|]. right. apply Hw'. by right. }
    intros j op [Hop|Hop] Hj; [apply Hfin; [apply Hw; by left|done]|]. destruct (Hall1 j op Hop Hj) as [Hlt|Hop'].
    + left. lia.
    + apply Hfin; [apply Hw; by right|done].
Qed.

Fixpoint deliver (b : Buffer) (batches : list (list Operation)) : option Buffer :=
  match batches with [] => Some b | batch :: batches => b ← apply_ops b batch; deliver b batches end.

Fixpoint all_storable (b : Buffer) (batches : list (list Operation)) : Prop :=
  match batches with
  | [] => True
  | batch :: batches => storable b batch ∧ ∀ b', apply_ops b batch = Some b' → all_storable b' batches
  end.

Lemma deliver_at batches : ∀ k b waiting, standing k b waiting → all_storable b batches → (∀ op, op ∈ concat batches → op ∈ ops) →
  ∃ b' k' waiting', deliver b batches = Some b' ∧ standing k' b' waiting' ∧ (k ≤ k')%nat ∧
    ∀ j op, op ∈ waiting ∨ op ∈ concat batches → ops !! j = Some op → (j < k')%nat ∨ op ∈ waiting'.
Proof.
  induction batches as [|batch batches IH]; intros k b waiting Hst Hfit Hin.
  { exists b, k, waiting. split_and!; [done..|]. intros j op [?|[]%elem_of_nil]; by right. }
  destruct Hfit as [Hfit Hfits]. cbn [concat] in *.
  destruct (apply_ops_at k b waiting batch Hst Hfit) as (b1 & k1 & w1 & E1 & Hst1 & Hk1 & Hall1).
  { intros op Hop. apply Hin, elem_of_app. by left. }
  destruct (IH k1 b1 w1 Hst1 (Hfits _ E1)) as (b' & k' & w' & E' & Hst' & Hk' & Hall').
  { intros op Hop. apply Hin, elem_of_app. by right. }
  exists b', k', w'. cbn [deliver]. rewrite E1. split_and!; [done|done|lia|].
  intros j op Hop Hj. rewrite elem_of_app in Hop. assert ((j < k1)%nat ∨ op ∈ w1 ∨ op ∈ concat batches) as [Hlt|Hop'].
  { destruct Hop as [Hop|[Hop|Hop]]; [|destruct (Hall1 j op (or_intror Hop) Hj); auto|auto].
    destruct (Hall1 j op (or_introl Hop) Hj); auto. }
  - left. lia.
  - by apply Hall'.
Qed.

(** When all have arrived, none waits. *)
Lemma all_delivered k b waiting : standing k b waiting → (∀ j op, ops !! j = Some op → (j < k)%nat ∨ op ∈ waiting) →
  k = length ops ∧ waiting = [].
Proof.
  intros [_ Hk _ _ Hlater] Hall. assert (k = length ops) as ->.
  { destruct (decide (k = length ops)); [done|]. destruct (lookup_lt_is_Some_2 ops k ltac:(lia)) as [op Hop].
    destruct (Hall k op Hop) as [?|(j & Hj & ?)%Hlater]; [lia|]. rewrite (lookup_unique _ _ _ Hop Hj) in *. lia. }
  split; [done|]. destruct waiting as [|op w]; [done|]. destruct (Hlater op ltac:(by left)) as (j & Hj & Hlt).
  apply lookup_lt_Some in Hj. lia.
Qed.
End delivery.

Lemma queue_empty q : queue_of q ([] : list Operation) → queue_is_empty q = true.
Proof.
  intros (h & Hwf & _ & Hl & _). unfold queue_is_empty. rewrite (queue_len_items _ _ Hwf). by destruct (to_list q).
Qed.

Lemma delivered b0 ops batches : successive b0 ops → recorded b0 → queue_of (deferred_ops b0) [] → all_storable b0 batches →
  (∀ op, op ∈ concat batches ↔ op ∈ ops) →
  ∃ b' b1, deliver b0 batches = Some b' ∧ follow b0 ops = Some b1 ∧ snapshot b' = snapshot b1 ∧ lamport_clock b' = lamport_clock b1 ∧
    subscriptions b' = subscriptions b1 ∧ recorded b' ∧ has_deferred_ops b' = false.
Proof.
  intros Hsucc Hrec Hq Hfit Hall.
  destruct (deliver_at b0 ops Hsucc batches 0 b0 []) as (b' & k & w & E & Hst & _ & Hrecv); [|done|intros op; by rewrite Hall|].
  { split; [by exists b0|lia|done|done|by intros ? ?%elem_of_nil]. }
  destruct (all_delivered b0 ops Hsucc k b' w Hst) as [-> ->].
  { intros j op Hj. apply Hrecv; [|done]. right. rewrite Hall. by eapply list_elem_of_lookup_2. }
  destruct Hst as [(b1 & E1 & H1 & H2 & H3) _ Hrec' Hq' _]. rewrite firstn_all in E1. exists b', b1. split_and!; try done.
  unfold has_deferred_ops. by rewrite (queue_empty _ Hq').
Qed.

(** C10: Operations that were made one after the other may arrive in any order, in any batches and more
    than once: when all have arrived, no operation is deferred, and the text, the
    undo records, the version, the clock and what observers are told are as if they had
    been applied in turn. *)
Theorem delivery_in_any_order b0 ops batches : successive b0 ops → recorded b0 → queue_of (deferred_ops b0) [] → all_storable b0 batches →
  (∀ op, op ∈ concat batches ↔ op ∈ ops) →
  ∃ b' b1, deliver b0 batches = Some b' ∧ follow b0 ops = Some b1 ∧ snapshot b' = snapshot b1 ∧ lamport_clock b' = lamport_clock b1 ∧
    subscriptions b' = subscriptions b1 ∧ has_deferred_ops b' = false.
Proof.
  intros Hsucc Hrec Hq Hfit Hall. destruct (delivered b0 ops batches Hsucc Hrec Hq Hfit Hall) as (b' & b1 & ? & ? & ? & ? & ? & _ & ?).
  by exists b', b1.
Qed.

Lemma wf_same b b' ps : buffer_wf b ps → snapshot b' = snapshot b → lamport_clock b' = lamport_clock b →
  subscriptions b' = subscriptions b → recorded b' → buffer_wf b' ps.
Proof. intros [Hok Hv Hc _] E1 E2 E3 Hrec. split; [unfold buffer_ok|..]; by rewrite ?E1, ?E2, ?E3. Qed.

(** C1: A replica that is in step with another one and receives all the operations of a run of it, in
    whatever order, batches and repetition, ends in step with it: the same bytes and
    undo records, the same version and text, and nothing deferred. *)
Theorem eventually_in_sync b b2 ps qs cs : in_sync b b2 ps qs → all_able b cs → queue_of (deferred_ops b2) [] →
  ∃ b' ops, perform_all b cs = Some (b', ops) ∧
    ∀ batches, all_accepted b2 ops → all_storable b2 batches → (∀ op, op ∈ concat batches ↔ op ∈ ops) →
      ∃ b2' ps' qs', deliver b2 batches = Some b2' ∧ in_sync b' b2' ps' qs' ∧ has_deferred_ops b2' = false ∧
        rope_inv (visible_text (snapshot b')) (vis_text ps') ∧ rope_inv (visible_text (snapshot b2')) (vis_text ps').
Proof.
  intros Hsync Hable Hq. destruct (run_follows cs b ps (sync_leader _ _ _ _ Hsync) Hable) as (b' & ops & ps' & E & Hwf' & Hf).
  exists b', ops. split; [done|]. intros batches Hacc Hfit Hall.
  destruct (Hf b2 qs Hsync Hacc) as (b3 & qs' & E3 & [_ Hwf3 Hbytes Hrecords Hv Htext] & Hsucc).
  destruct (delivered b2 ops batches Hsucc) as (b2' & b1 & E2 & E1 & H1 & H2 & H3 & Hrec & Hdef); [apply Hsync|done|done|done|].
  rewrite E3 in E1. injection E1 as <-. pose proof (wf_same _ _ _ Hwf3 H1 H2 H3 Hrec) as Hwf2.
  exists b2', ps', qs'. split_and!; [done| |done|apply Hwf'|rewrite <- Htext; apply Hwf2]. split; try done; by rewrite H1.
Qed.

(** ** The conditions, computed *)

Fixpoint check_recordable (h : History Rope) (l : list Operation) : bool :=
  match l with
  | [] => true
  | op :: l => bool_decide (node_height (operations h) < 16)%nat &&
      match History.push h op with Some h => check_recordable h l | None => true end
  end.

Definition check_storable (b : Buffer) (batch : list Operation) : bool :=
  check_recordable (history b) batch &&
  match receive_ops b batch [] with
  | Some (b1, waiting) =>
      match queue_insert (deferred_ops b1) waiting with Some q => bool_decide (node_height q < 16)%nat | None => true end
  | None => true
  end &&
  match apply_ops b batch with Some b' => bool_decide (node_height (deferred_ops b') < 16)%nat | None => true end.

Fixpoint check_all_storable (b : Buffer) (batches : list (list Operation)) : bool :=
  match batches with
  | [] => true
  | batch :: batches => check_storable b batch && match apply_ops b batch with Some b => check_all_storable b batches | None => true end
  end.

Lemma check_recordable_spec l : ∀ h, check_recordable h l = true → recordable h l.
Proof.
  induction l as [|op l IH]; intros h; cbn [check_recordable recordable]; [done|]. rewrite andb_true_iff, bool_decide_eq_true.
  intros [Hlow Hl]. split; [done|]. intros h' E. rewrite E in Hl. by apply IH.
Qed.

Lemma check_storable_spec b batch : check_storable b batch = true → storable b batch.
Proof.
  unfold check_storable. rewrite !andb_true_iff. intros ((H1 & H2) & H3). split; [by apply check_recordable_spec|..].
  - intros b1 w q E E'. rewrite E, E' in H2. by apply bool_decide_eq_true in H2.
  - intros b' E. rewrite E in H3. by apply bool_decide_eq_true in H3.
Qed.

Lemma check_all_storable_spec batches : ∀ b, check_all_storable b batches = true → all_storable b batches.
Proof.
  induction batches as [|batch batches IH]; intros b; cbn [check_all_storable all_storable]; [done|]. rewrite andb_true_iff.
  intros [H1 H2]. split; [by apply check_storable_spec|]. intros b' E. rewrite E in H2. by apply IH.
Qed.

(** ** A concrete delivery *)

(** The operations of [demo_run], out of order, the second one twice. *)
Definition demo_batches : list (list Operation) :=
  match demo_ops with [e1; u; r; e2] => [[e2; u]; [e1]; [r; u]] | _ => [] end.

Lemma demo_batches_all op : op ∈ concat demo_batches ↔ op ∈ demo_ops.
Proof.
  destruct demo_performed as (_ & _ & Hlen). unfold demo_batches. revert Hlen. generalize demo_ops. intros l Hlen.
  destruct l as [|e1 [|u [|r [|e2 [|]]]]]; try done. cbn [concat app]. rewrite !elem_of_cons, elem_of_nil. tauto.
Qed.

Lemma demo_storable : all_storable (demo_buffer FIRST_COLLAB_ID) demo_batches.
Proof. apply check_all_storable_spec. by vm_compute. Qed.

Lemma demo_queue r : queue_of (deferred_ops (demo_buffer r)) [].
Proof. assert (deferred_ops (demo_buffer r) = tree_new) as -> by by vm_compute. apply queue_new_of. Qed.

Lemma demo_successive : successive (demo_buffer FIRST_COLLAB_ID) demo_ops.
Proof.
  destruct (run_follows demo_run _ _ (demo_wf AGENT) demo_able) as (b' & ops & ps' & E & _ & Hf). destruct demo_performed as (b1 & E1 & _).
  pose proof (Some_pair_inj _ _ _ _ (eq_trans (eq_sym E1) E)) as [_ <-].
  destruct (Hf _ _ (demo_in_sync _ _) demo_accepted) as (b2 & qs & _ & _ & Hs). exact Hs.
Qed.

Lemma delivery_in_any_order_witness : ∃ b' b1, deliver (demo_buffer FIRST_COLLAB_ID) demo_batches = Some b' ∧
  follow (demo_buffer FIRST_COLLAB_ID) demo_ops = Some b1 ∧ snapshot b' = snapshot b1 ∧ has_deferred_ops b' = false.
Proof.
  destruct (delivery_in_any_order (demo_buffer FIRST_COLLAB_ID) demo_ops demo_batches demo_successive
    (wf_operations _ _ (demo_wf FIRST_COLLAB_ID)) (demo_queue _) demo_storable demo_batches_all) as (b' & b1 & H1 & H2 & H3 & _ & _ & H4).
  exists b', b1. split; [exact H1|split; [exact H2|split; [exact H3|exact H4]]].
Defined.

Lemma eventually_in_sync_witness : ∃ b' b2' ps' qs', perform_all (demo_buffer AGENT) demo_run = Some (b', demo_ops) ∧
  deliver (demo_buffer FIRST_COLLAB_ID) demo_batches = Some b2' ∧ in_sync b' b2' ps' qs' ∧ has_deferred_ops b2' = false.
Proof.
  destruct (eventually_in_sync (demo_buffer AGENT) (demo_buffer FIRST_COLLAB_ID) demo_pieces demo_pieces demo_run (demo_in_sync _ _) demo_able
    (demo_queue _)) as (b' & ops & E & H). destruct demo_performed as (b1 & E1 & _).
  pose proof (Some_pair_inj _ _ _ _ (eq_trans (eq_sym E1) E)) as [-> <-].
  destruct (H demo_batches demo_accepted demo_storable demo_batches_all) as (b2' & ps' & qs' & E3 & Hsync & Hdef & _).
  exists b', b2', ps', qs'. split; [exact E1|split; [exact E3|split; [exact Hsync|exact Hdef]]].
Defined.
