(* ===== verification/Anchor.v ===== *)
(** * Anchor: positions that stay with the text

    Models [crates/text/src/anchor.rs] and the functions of [crates/text/src/text.rs] that make
    and resolve anchors, with the conversion traits ([ToOffset], [ToPoint] and the like).  An
    anchor names a byte of an insertion and the side of it that it sticks to.
    [None] is a panic.  As in the release profile, [assert_char_boundary::<false>] only tells
    whether there is a boundary. *)

From S2P Require Import Prelude Clock Locator Bits Utf8 TextSummary Chunk Rope SumTree Cursor Keyed Fragment Buffer.
#[local] Open Scope N_scope.

(** ** Anchors *)

Record Anchor : Type := mk_anchor {
  timestamp_replica_id : ReplicaId;
  timestamp_value : Seq;
  anchor_offset : N;
  anchor_bias : Bias;
  anchor_buffer_id : option N
}.

Definition anchor_timestamp (a : Anchor) : Lamport.t := Lamport.Mk (timestamp_value a) (timestamp_replica_id a).

Definition anchor_new (timestamp : Lamport.t) (offset : N) (bias : Bias) (buffer_id : option N) : Anchor :=
  mk_anchor (Lamport.replica_id timestamp) (Lamport.value timestamp) offset bias buffer_id.

Definition anchor_MIN : Anchor := anchor_new Lamport.MIN 0 Left None.
Definition anchor_MAX : Anchor := anchor_new Lamport.MAX (U32 - 1) Right None.

Definition min_for_buffer (buffer_id : N) : Anchor := anchor_new Lamport.MIN 0 Left (Some buffer_id).
Definition max_for_buffer (buffer_id : N) : Anchor := anchor_new Lamport.MAX (U32 - 1) Right (Some buffer_id).

Definition min_min_range_for_buffer (buffer_id : N) : Anchor * Anchor := (min_for_buffer buffer_id, min_for_buffer buffer_id).
Definition max_max_range_for_buffer (buffer_id : N) : Anchor * Anchor := (max_for_buffer buffer_id, max_for_buffer buffer_id).
Definition min_max_range_for_buffer (buffer_id : N) : Anchor * Anchor := (min_for_buffer buffer_id, max_for_buffer buffer_id).

Definition is_left (bias : Bias) : bool := match bias with Left => true | Right => false end.

Definition is_min (a : Anchor) : bool :=
  bool_decide (anchor_timestamp a = Lamport.MIN) && (anchor_offset a =? 0) && is_left (anchor_bias a).
Definition is_max (a : Anchor) : bool :=
  bool_decide (anchor_timestamp a = Lamport.MAX) && (anchor_offset a =? U32 - 1) && negb (is_left (anchor_bias a)).

(** Subtraction of [u32] that wraps around. *)
Definition sub32 (a b : N) : N := wrap32 (a + U32 - b).

(** ** Conversions without anchors *)

Definition snapshot_len (s : BufferSnapshot) : N := rope_len (visible_text s).

Definition text_summary_between {D} `{TextDimension D} (s : BufferSnapshot) (start end_ : N) : option D :=
  cursor ← rope_cursor_at (visible_text s) (to_offset s start);
  '(_, d) ← rc_summary (D:=D) cursor (to_offset s end_);
  Some d.

(** ** Resolving an anchor *)

Section snapshot.
Context (s : BufferSnapshot).

(** The inner option is the result, the outer one guards the panics of the tree. *)
Definition try_find_fragment (anchor : Anchor) : option (option InsertionFragment) :=
  let anchor_key := insertion_key (anchor_timestamp anchor) (anchor_offset anchor) in
  '(_, _, found) ← find_with_prev (insertions s) (seek_key anchor_key) (anchor_bias anchor);
  match found with
  | Some (prev, insertion) =>
      let comparison := cmp (key (KeyedItem:=insertion_fragment_keyed) insertion) anchor_key in
      if bool_decide (comparison = Gt) ||
         (is_left (anchor_bias anchor) && bool_decide (comparison = Eq) && (0 <? anchor_offset anchor))
      then Some prev else Some (Some insertion)
  | None => tree_last (insertions s)
  end.

Definition try_fragment_id_for_anchor (anchor : Anchor) : option (option Locator.t) :=
  if is_min anchor then Some (Some Locator.min)
  else if is_max anchor then Some (Some Locator.max)
  else item ← try_find_fragment anchor; Some (option_map if_fragment_id item).

Definition fragment_id_for_anchor (anchor : Anchor) : option Locator.t :=
  fragment_id ← try_fragment_id_for_anchor anchor; fragment_id.

Definition offset_for_anchor (anchor : Anchor) : option N :=
  if is_min anchor then Some 0
  else if is_max anchor then Some (rope_len (visible_text s))
  else
    item ← try_find_fragment anchor;
    insertion ← item;
    if negb (bool_decide (if_timestamp insertion = anchor_timestamp anchor)) then None
    else
      let '(start, _, item) :=
        find (D:=option Locator.t * N) (fragments s) (seek_fst (seek_key (Some (if_fragment_id insertion)))) Left in
      fragment ← item;
      Some (if visible fragment then start.2 + sub32 (anchor_offset anchor) (if_split_offset insertion) else start.2).

Definition summary_for_anchor {D} `{TextDimension D} (anchor : Anchor) : option D :=
  o ← offset_for_anchor anchor; text_summary_between s 0 o.

(** The closure of [summaries_for_anchors_with_payload]: the two cursors and the position are its state. *)
Definition summaries_state (D : Type) : Type := Cursor Fragment FragmentSummary (option Locator.t * N) * RopeCursor * D.

Definition summaries_step {D} `{TextDimension D} (st : summaries_state D) (anchor : Anchor) : option (summaries_state D * D) :=
  let '(fragment_cursor, text_cursor, position) := st in
  if is_min anchor then Some (st, dim_zero)
  else if is_max anchor then Some (st, from_text_summary (rope_summary (visible_text s)))
  else
    item ← try_find_fragment anchor;
    insertion ← item;
    if negb (bool_decide (if_timestamp insertion = anchor_timestamp anchor)) then None
    else
      '(fragment_cursor, _) ← seek_forward (seek_fst (seek_key (Some (if_fragment_id insertion)))) Left fragment_cursor;
      fragment ← Cursor.item fragment_cursor;
      fragment ← fragment;
      let start := (Cursor.start fragment_cursor).2 in
      let fragment_offset := if visible fragment then start + sub32 (anchor_offset anchor) (if_split_offset insertion) else start in
      '(text_cursor, d) ← rc_summary (D:=D) text_cursor fragment_offset;
      let position := add_assign position d in
      Some ((fragment_cursor, text_cursor, position), position).

Fixpoint summaries_loop {D T} `{TextDimension D} (st : summaries_state D) (anchors : list (Anchor * T)) : option (list (D * T)) :=
  match anchors with
  | [] => Some []
  | (anchor, payload) :: anchors =>
      '(st, d) ← summaries_step st anchor;
      rest ← summaries_loop st anchors;
      Some ((d, payload) :: rest)
  end.

Definition summaries_for_anchors_with_payload {D T} `{TextDimension D} (anchors : list (Anchor * T)) : option (list (D * T)) :=
  text_cursor ← rope_cursor_at (visible_text s) 0;
  summaries_loop (cursor_new (fragments s), text_cursor, dim_zero) anchors.

Definition summaries_for_anchors {D} `{TextDimension D} (anchors : list Anchor) : option (list D) :=
  l ← summaries_for_anchors_with_payload (D:=D) (T:=unit) (List.map (λ a, (a, ())) anchors); Some (List.map fst l).

Definition can_resolve (anchor : Anchor) : bool :=
  is_min anchor || is_max anchor ||
  (bool_decide (Some (remote_id s) = anchor_buffer_id anchor) && Global.observed (version s) (anchor_timestamp anchor)).

(** ** Making an anchor *)

Definition anchor_at_offset (offset : N) (bias : Bias) : Anchor :=
  if is_left bias && (offset =? 0) then min_for_buffer (remote_id s)
  else if negb (is_left bias) && (snapshot_len s <=? offset) then max_for_buffer (remote_id s)
  else
    let offset :=
      if negb (rope_is_char_boundary (visible_text s) offset) then
        match bias with
        | Left => rope_floor_char_boundary (visible_text s) offset
        | Right => rope_ceil_char_boundary (visible_text s) offset
        end
      else offset in
    let '(start, _, item) := find (D:=N) (fragments s) (seek_key offset) bias in
    match item with
    | None => max_for_buffer (remote_id s)
    | Some fragment =>
        let overshoot := usub offset start in
        anchor_new (timestamp fragment) (wrap32 (insertion_offset fragment + wrap32 overshoot)) bias (Some (remote_id s))
    end.

(** ** Comparing anchors *)

Definition anchor_cmp (a other : Anchor) : option comparison :=
  fragment_id_comparison ←
    (if bool_decide (anchor_timestamp a = anchor_timestamp other) then Some Eq
     else x ← fragment_id_for_anchor a; y ← fragment_id_for_anchor other; Some (cmp x y));
  Some (then_with fragment_id_comparison
    (then_with (cmp (anchor_offset a) (anchor_offset other)) (cmp (anchor_bias a) (anchor_bias other)))).

Definition anchor_min (a other : Anchor) : option Anchor :=
  c ← anchor_cmp a other; Some (if bool_decide (c = Gt) then other else a).
Definition anchor_max (a other : Anchor) : option Anchor :=
  c ← anchor_cmp a other; Some (if bool_decide (c = Lt) then other else a).

(** The ranges in the order of their starts, the longer one of two with the same start first. *)
Definition range_cmp (r other : Anchor * Anchor) : option comparison :=
  c ← anchor_cmp r.1 other.1;
  match c with Eq => anchor_cmp other.2 r.2 | c => Some c end.
Definition overlaps (r other : Anchor * Anchor) : option bool :=
  c ← anchor_cmp r.1 other.2;
  if bool_decide (c = Lt) then c ← anchor_cmp other.1 r.2; Some (bool_decide (c = Lt)) else Some false.

Definition is_valid (a : Anchor) : option bool :=
  if is_min a || is_max a then Some true
  else if negb (bool_decide (anchor_buffer_id a = Some (remote_id s))) then Some false
  else
    fragment_id ← try_fragment_id_for_anchor a;
    match fragment_id with
    | None => Some false
    | Some fragment_id =>
        let '(_, _, item) := find (D:=option Locator.t * N) (fragments s) (seek_fst (seek_key (Some fragment_id))) Left in
        Some (match item with Some fragment => visible fragment | None => false end)
    end.
End snapshot.

(** ** The conversion traits *)

Class ToOffset (T : Type) : Type := offset_of : BufferSnapshot → T → option N.

#[export] Instance point_to_offset : ToOffset Point := λ s p, Some (rope_point_to_offset (visible_text s) p).
#[export] Instance offset_to_offset : ToOffset N := λ s o, Some (to_offset s o).
#[export] Instance anchor_to_offset : ToOffset Anchor := λ s a, summary_for_anchor (D:=N) s a.
#[export] Instance point_utf16_to_offset : ToOffset PointUtf16 := λ s p, rope_point_utf16_to_offset (visible_text s) p.
#[export] Instance unclipped_to_offset : ToOffset (Unclipped PointUtf16) := λ s p, rope_point_utf16_to_offset (visible_text s) (unclip p).

(** The default methods. *)
Definition to_next_offset {T} `{ToOffset T} (s : BufferSnapshot) (x : T) : option N :=
  o ← offset_of s x; Some (rope_ceil_char_boundary (visible_text s) (o + 1)).
Definition to_previous_offset {T} `{ToOffset T} (s : BufferSnapshot) (x : T) : option N :=
  o ← offset_of s x; Some (rope_floor_char_boundary (visible_text s) (o - 1)).

Class ToPoint (T : Type) : Type := to_point : BufferSnapshot → T → option Point.

#[export] Instance anchor_to_point : ToPoint Anchor := λ s a, summary_for_anchor (D:=Point) s a.
#[export] Instance offset_to_point : ToPoint N := λ s o, Some (rope_offset_to_point (visible_text s) o).
#[export] Instance point_to_point : ToPoint Point := λ _ p, Some p.
#[export] Instance unclipped_to_point : ToPoint (Unclipped PointUtf16) := λ s p, rope_unclipped_point_utf16_to_point (visible_text s) p.

Class ToPointUtf16 (T : Type) : Type := to_point_utf16 : BufferSnapshot → T → option PointUtf16.

#[export] Instance anchor_to_point_utf16 : ToPointUtf16 Anchor := λ s a, summary_for_anchor (D:=PointUtf16) s a.
#[export] Instance offset_to_point_utf16 : ToPointUtf16 N := λ s o, Some (rope_offset_to_point_utf16 (visible_text s) o).
#[export] Instance point_utf16_to_point_utf16 : ToPointUtf16 PointUtf16 := λ _ p, Some p.
#[export] Instance point_to_point_utf16 : ToPointUtf16 Point := λ s p, Some (rope_point_to_point_utf16 (visible_text s) p).

Class ToOffsetUtf16 (T : Type) : Type := to_offset_utf16 : BufferSnapshot → T → option OffsetUtf16.

#[export] Instance anchor_to_offset_utf16 : ToOffsetUtf16 Anchor := λ s a, summary_for_anchor (D:=OffsetUtf16) s a.
#[export] Instance offset_to_offset_utf16 : ToOffsetUtf16 N := λ s o, Some (rope_offset_to_offset_utf16 (visible_text s) o).
#[export] Instance offset_utf16_to_offset_utf16 : ToOffsetUtf16 OffsetUtf16 := λ _ o, Some o.

Definition text_summary_for_range {D T} `{TextDimension D, ToOffset T} (s : BufferSnapshot) (start end_ : T) : option D :=
  start ← offset_of s start;
  cursor ← rope_cursor_at (visible_text s) start;
  end_ ← offset_of s end_;
  '(_, d) ← rc_summary (D:=D) cursor end_;
  Some d.

Definition anchor_at {T} `{ToOffset T} (s : BufferSnapshot) (position : T) (bias : Bias) : option Anchor :=
  o ← offset_of s position; Some (anchor_at_offset s o bias).
Definition anchor_before {T} `{ToOffset T} (s : BufferSnapshot) (position : T) : option Anchor := anchor_at s position Left.
Definition anchor_after {T} `{ToOffset T} (s : BufferSnapshot) (position : T) : option Anchor := anchor_at s position Right.

Definition anchor_range_around {T} `{ToOffset T} (s : BufferSnapshot) (start end_ : T) : option (Anchor * Anchor) :=
  a ← anchor_after s start; b ← anchor_before s end_; Some (a, b).
Definition anchor_range_between {T} `{ToOffset T} (s : BufferSnapshot) (start end_ : T) : option (Anchor * Anchor) :=
  a ← anchor_before s start; b ← anchor_after s end_; Some (a, b).

Definition bias_left (s : BufferSnapshot) (a : Anchor) : option Anchor :=
  match anchor_bias a with Left => Some a | Right => anchor_before s a end.
Definition bias_right (s : BufferSnapshot) (a : Anchor) : option Anchor :=
  match anchor_bias a with Left => anchor_after s a | Right => Some a end.
Definition with_bias (s : BufferSnapshot) (a : Anchor) (bias : Bias) : option Anchor :=
  match bias with Left => bias_left s a | Right => bias_right s a end.

(** [OffsetRangeExt] *)
Definition range_offsets {T} `{ToOffset T} (s : BufferSnapshot) (start end_ : T) : option (N * N) :=
  a ← offset_of s start; b ← offset_of s end_; Some (a, b).
Definition range_points {T} `{ToOffset T} (s : BufferSnapshot) (start end_ : T) : option (Point * Point) :=
  a ← offset_of s start; b ← offset_of s end_; a ← to_point s a; b ← to_point s b; Some (a, b).
Definition range_points_utf16 {T} `{ToOffset T} (s : BufferSnapshot) (start end_ : T) : option (PointUtf16 * PointUtf16) :=
  a ← offset_of s start; b ← offset_of s end_; a ← to_point_utf16 s a; b ← to_point_utf16 s b; Some (a, b).

(** ** Queries of a snapshot *)

Definition snapshot_is_empty (s : BufferSnapshot) : bool := snapshot_len s =? 0.
Definition max_point (s : BufferSnapshot) : Point := rope_max_point (visible_text s).
Definition row_count (s : BufferSnapshot) : N := wrap32 (row (max_point s) + 1).

Definition line_len (s : BufferSnapshot) (r : N) : option N :=
  row_start_offset ← offset_of s (point r 0);
  row_end_offset ← (if row (max_point s) <=? r then Some (snapshot_len s) else to_previous_offset s (point (wrap32 (r + 1)) 0));
  Some (wrap32 (usub row_end_offset row_start_offset)).
