(* ===== verification/AnchorFacts.v ===== *)
(** * AnchorFacts: where anchors resolve to

    An anchor names the byte at an offset of an insertion, or the one before it.  [marks] says which,
    and [place] what the anchor should resolve to: the number of visible bytes up to it.  The
    index of insertions finds the fragment that holds the byte, and [offset_for_anchor] does
    resolve to that number. *)

From Stdlib Require Import Sorted.
From S2P Require Import Prelude Clock Locator UndoMap Bits Utf8 TextSummary Chunk ChunkFacts Rope RopeFacts.
From S2P Require Import RopeConvert Keyed SumTree SumTreeSpec SumTreeFind SumTreeTheorems Cursor CursorFacts.
From S2P Require Import Fragment RopeBuilder Buffer BufferFacts BufferSeen BufferSteps BufferLocal BufferInv.
From S2P Require Import BufferCommit BufferUndo BufferNew Anchor.
#[local] Open Scope N_scope.

(** ** Bytes with their insertions *)

(** A byte: the insertion that it belongs to, and whether it is visible. *)
Abbreviation stamp := (Lamport.t * bool)%type.
Definition stamps_of (l : list (Fragment * N)) : list stamp := (λ x, (timestamp x.1, visible x.1)) <$> l.
Definition stamps (ps : list piece) : list stamp := stamps_of (tagged ps).

(** How many bytes belong to [t], and how many are visible. *)
Definition of_insertion (t : Lamport.t) (l : list stamp) : N := len (filter (λ x, x.1 = t) l).
Definition live_len (l : list stamp) : N := len (filter (λ x, x.2 = true) l).

Lemma of_insertion_app t a b : of_insertion t (a ++ b) = of_insertion t a + of_insertion t b.
Proof. unfold of_insertion. by rewrite filter_app, len_app. Qed.

Lemma live_len_app a b : live_len (a ++ b) = live_len a + live_len b.
Proof. unfold live_len. by rewrite filter_app, len_app. Qed.

Lemma stamps_app a b : stamps_of (a ++ b) = stamps_of a ++ stamps_of b.
Proof. apply fmap_app. Qed.

Lemma of_insertion_same t (l : list stamp) : Forall (λ x, x.1 = t) l → of_insertion t l = len l.
Proof. unfold of_insertion. induction 1 as [|x l Hx _ IH]; [done|]. by rewrite filter_cons_True, !len_cons, IH by done. Qed.

Lemma of_insertion_other t (l : list stamp) : Forall (λ x, x.1 ≠ t) l → of_insertion t l = 0.
Proof. unfold of_insertion. induction 1 as [|x l Hx _ IH]; [done|]. by rewrite filter_cons_False by done. Qed.

Lemma stamps_tag f u : stamps_of (tag f u) = replicate (length u) (timestamp f, visible f).
Proof. unfold stamps_of, tag. induction u as [|c u IH]; [done|]. cbn. by f_equal. Qed.

Lemma of_insertion_replicate t t' b n : of_insertion t (replicate n (t', b)) = if bool_decide (t' = t) then N.of_nat n else 0.
Proof.
  case_bool_decide as H.
  - rewrite of_insertion_same by (by apply Forall_replicate). unfold len. by rewrite length_replicate.
  - apply of_insertion_other. by apply Forall_replicate.
Qed.

Lemma live_len_replicate (t : Lamport.t) b n : live_len (replicate n (t, b)) = if b then N.of_nat n else 0.
Proof. unfold live_len. induction n as [|n IH]; [by destruct b|]. cbn [replicate]. destruct b; [rewrite filter_cons_True, len_cons, IH by done; lia|by rewrite filter_cons_False by done]. Qed.

Lemma stamps_span t (ps : list piece) : Forall (λ p, flen p.1 = len p.2) ps → of_insertion t (stamps ps) = span t ps.*1.
Proof.
  induction 1 as [|p ps Hp _ IH]; [done|]. unfold stamps in *. change (p :: ps) with ([p] ++ ps).
  rewrite tagged_app, stamps_app, of_insertion_app, IH, tagged_singleton, stamps_tag, of_insertion_replicate.
  rewrite fmap_app, span_app. cbn [fmap list_fmap span]. rewrite N.add_0_r, Hp. done.
Qed.

Lemma stamps_visible (ps : list piece) : live_len (stamps ps) = len (vis_text ps).
Proof.
  induction ps as [|p ps IH]; [done|]. unfold stamps in *. change (p :: ps) with ([p] ++ ps).
  rewrite tagged_app, stamps_app, live_len_app, IH, tagged_singleton, stamps_tag, live_len_replicate.
  rewrite vis_text_app, len_app, vis_text_singleton. unfold vis. by destruct (visible p.1).
Qed.

(** The byte at the offset of the anchor, or before it with a bias to the left: [X] comes before
    it, and [b] tells whether it is visible. *)
Definition marks (l : list stamp) (a : Anchor) (X : list stamp) (b : bool) : Prop :=
  (∃ Y, l = X ++ (anchor_timestamp a, b) :: Y) ∧
  anchor_offset a = of_insertion (anchor_timestamp a) X + if is_left (anchor_bias a) then 1 else 0.

(** The visible bytes up to the anchor. *)
Definition place (bias : Bias) (X : list stamp) (b : bool) : N := live_len X + if is_left bias && b then 1 else 0.

(** A byte lies in a piece. *)
Lemma stamps_split (ps : list piece) X x Y : stamps ps = X ++ x :: Y →
  ∃ A p B i, ps = A ++ p :: B ∧ (i < length p.2)%nat ∧ x = (timestamp p.1, visible p.1) ∧
    X = stamps A ++ replicate i x.
Proof.
  revert X. induction ps as [|p ps IH]; intros X E; [by destruct X|]. unfold stamps in *.
  change (p :: ps) with ([p] ++ ps) in E. rewrite tagged_app, stamps_app, tagged_singleton, stamps_tag in E.
  apply app_eq_inv in E as [(k & E & E')|(k & -> & E)]; [|
    destruct (IH k E) as (A & q & B & i & -> & Hi & Hx & ->); exists (p :: A), q, B, i; split_and!; [done..|];
    change (p :: A) with ([p] ++ A); by rewrite tagged_app, stamps_app, tagged_singleton, stamps_tag, (assoc_L (++))].
  destruct k as [|y k].
  - rewrite app_nil_r in E. destruct (IH [] (eq_sym E')) as (A & q & B & i & -> & Hi & Hx & HX).
    exists (p :: A), q, B, i. split_and!; [done..|]. change (p :: A) with ([p] ++ A).
    by rewrite tagged_app, stamps_app, tagged_singleton, stamps_tag, E, <- (assoc_L (++)), <- HX, app_nil_r.
  - injection E' as <- _. symmetry in E.
      exists [], p, ps, (length X). split; [done|]. pose proof (f_equal length E) as Hl. rewrite length_app, length_replicate in Hl. cbn in Hl.
      split; [lia|]. pose proof (Forall_replicate (λ z, z = (timestamp p.1, visible p.1)) (length p.2) (timestamp p.1, visible p.1) eq_refl) as Hall.
      rewrite <- E in Hall. apply Forall_app in Hall as [HX [Hx _]%Forall_cons]. split; [done|]. rewrite Hx.
      cbn. clear -HX. induction HX as [|z X -> _ IH]; [done|]. cbn. by f_equal.
Qed.

(** ** Finding the fragment *)

(** The fragment that holds the byte of the anchor. *)
Definition owns (f : Fragment) (a : Anchor) : Prop :=
  timestamp f = anchor_timestamp a ∧
  match anchor_bias a with
  | Left => insertion_offset f < anchor_offset a ≤ insertion_offset f + flen f
  | Right => insertion_offset f ≤ anchor_offset a < insertion_offset f + flen f
  end.

Lemma entry_key f : key (KeyedItem:=insertion_fragment_keyed) (insertion_fragment_new f) = fragment_key f.
Proof. done. Qed.

Section index.
Context (s : BufferSnapshot) (fs : list Fragment).
Context (Hindex : indexed (insertions s) fs) (Horder : StronglySorted follows fs) (Hlen : Forall (λ f, 0 < flen f) fs).

(** No other fragment lies between the start of [f] and the anchor. *)
Lemma owner_next f g a : f ∈ fs → g ∈ fs → owns f a → fragment_key f ≺ fragment_key g →
  let k := insertion_key (anchor_timestamp a) (anchor_offset a) in
  match anchor_bias a with Left => k ≼ fragment_key g | Right => k ≺ fragment_key g end.
Proof.
  intros Hf Hg [Ht Ho] Hlt k. unfold fragment_key in *. apply key_lt_iff in Hlt. rewrite Ht in Hlt. unfold k.
  destruct Hlt as [Hlt|[Heq Hlt]].
  - assert (insertion_key (anchor_timestamp a) (anchor_offset a) ≺ insertion_key (timestamp g) (insertion_offset g)) as H
      by (apply key_lt_iff; by left). destruct (anchor_bias a); [by apply olt_le|done].
  - assert (insertion_offset f + flen f ≤ insertion_offset g) as Hle.
    { apply list_elem_of_split in Hf as (A & B & E). rewrite E in Hg, Horder, Hlen. apply elem_of_app in Hg as [Hg|[->|Hg]%elem_of_cons].
      - pose proof (StronglySorted_before _ _ _ _ _ Horder Hg) as Hgf. specialize (Hgf (eq_trans (eq_sym Heq) (eq_sym Ht))).
        apply Forall_app in Hlen as [Hl _]. rewrite Forall_forall in Hl. specialize (Hl g Hg). lia.
      - lia.
      - apply (StronglySorted_after _ _ _ _ _ Horder Hg). congruence. }
    rewrite <- Heq. destruct (anchor_bias a); [apply key_le_of; [apply ole_refl|lia]|apply key_lt_iff; right; split; [done|lia]].
Qed.

Lemma find_owner f a : f ∈ fs → owns f a → try_find_fragment s a = Some (Some (insertion_fragment_new f)).
Proof.
  intros Hf Hown. destruct Hindex as ((h & Hwf) & Hsorted & Hin). pose proof Hown as [Ht Ho].
  set (k := insertion_key (anchor_timestamp a) (anchor_offset a)).
  assert (insertion_fragment_new f ∈ to_list (insertions s)) as Hi by (apply Hin; by apply list_elem_of_fmap_2).
  apply list_elem_of_split in Hi as (l1 & l2 & El).
  assert (∀ j, j ∈ l2 → match anchor_bias a with Left => k ≼ key j | Right => k ≺ key j end) as Hafter.
  { intros j Hj. assert (j ∈ to_list (insertions s)) as Hj' by (rewrite El, elem_of_app, elem_of_cons; auto).
    apply Hin, list_elem_of_fmap in Hj' as (g & -> & Hg). apply (owner_next f g a); [done..|].
    rewrite El in Hsorted. by apply (StronglySorted_after _ _ _ _ _ Hsorted) in Hj. }
  assert (∀ j, j ∈ l1 ++ [insertion_fragment_new f] → match anchor_bias a with Left => key j ≺ k | Right => key j ≼ k end) as Hbefore.
  { assert (match anchor_bias a with Left => fragment_key f ≺ k | Right => fragment_key f ≼ k end) as Hfk.
    { unfold fragment_key, k. rewrite Ht. destruct (anchor_bias a); [apply key_lt_iff; right; split; [done|lia]|apply key_le_of; [apply ole_refl|lia]]. }
    intros j [Hj| ->%list_elem_of_singleton]%elem_of_app; [|by rewrite entry_key].
    rewrite El in Hsorted. apply (StronglySorted_before _ _ _ _ _ Hsorted) in Hj. rewrite entry_key in Hj.
    destruct (anchor_bias a); [by eapply olt_trans|]. apply olt_le. by eapply olt_le_trans. }
  assert (ends (D:=InsertionFragmentKey) dim_zero (to_list (insertions s)) = key <$> to_list (insertions s)) as Hends
    by (apply ends_key; [done|apply zero_below]).
  destruct (sumtree_find h (insertions s) (seek_key k) (anchor_bias a)) as (p & e & r & Hr & _ & Hloc);
    [done|rewrite El; by destruct l1|apply ascending_keys; [done|apply zero_below]|].
  unfold try_find_fragment. fold k. rewrite Hr. cbn [mbind option_bind]. rewrite El in Hends.
  assert (∀ j, j ∈ l1 ++ [insertion_fragment_new f] → behind (seek_key k) (anchor_bias a) (key j)) as Hskipped.
  { intros j Hj. specialize (Hbefore j Hj). unfold behind, seek_key. destruct (anchor_bias a).
    - left. by apply cmp_gt_lt.
    - unfold ole in Hbefore. rewrite (cmp_opp k (key j)) in Hbefore. destruct (cmp k (key j)); auto. by destruct Hbefore. }
  assert (∀ j, j ∈ l2 → ¬ behind (seek_key k) (anchor_bias a) (key j)) as Hfound.
  { intros j Hj. specialize (Hafter j Hj). unfold behind, seek_key, ole, olt in *. destruct (anchor_bias a); intros [E|[E ?]]; congruence. }
  destruct r as [[prev j]|].
  - destruct Hloc as (m1 & m2 & El' & -> & -> & -> & Hskip & Hj). apply bool_decide_eq_true in Hj. change (¬ behind (seek_key k) (anchor_bias a) (key j)) in Hj.
    assert (∀ x, x ∈ m1 → behind (seek_key k) (anchor_bias a) (key x)) as Hm1.
    { intros x Hx. rewrite El' in Hsorted. apply sorted_app in Hsorted as (_ & Hs1 & _). rewrite ends_key in Hskip by (done || apply zero_below).
      rewrite Forall_fmap, Forall_forall in Hskip. specialize (Hskip x Hx). apply bool_decide_eq_false in Hskip. by apply dec_stable. }
    rewrite El in El'. replace (l1 ++ insertion_fragment_new f :: l2) with ((l1 ++ [insertion_fragment_new f]) ++ l2) in El' by (by rewrite <- (assoc_L (++))).
    assert (m1 = l1 ++ [insertion_fragment_new f] ∧ j :: m2 = l2) as [-> <-].
    { apply app_eq_inv in El' as [(x & E1 & E2)|(x & E1 & E2)]; destruct x as [|y x]; rewrite ?app_nil_r in E1; try done.
      - injection E2 as -> ->. destruct Hj. apply Hskipped. rewrite E1, elem_of_app, elem_of_cons. auto.
      - destruct (Hfound y); [rewrite E2; by left|]. apply Hm1. rewrite E1, elem_of_app, elem_of_cons. auto. }
    rewrite last_snoc. specialize (Hafter j ltac:(by left)). fold k. 
    unfold behind, seek_key in Hj. rewrite (cmp_opp k (key j)).
    unfold owns in Hown. destruct (anchor_bias a); cbn [is_left andb orb].
    + rewrite (proj2 (N.ltb_lt 0 _)) by lia. destruct (cmp k (key j)); [done|done|tauto].
    + destruct (cmp k (key j)); [tauto|done|tauto].
  - destruct Hloc as [Hskip _]. rewrite ends_key in Hskip by (done || apply zero_below). destruct l2 as [|j l2].
    + rewrite (tree_last_spec h) by done. by rewrite El, last_snoc.
    + exfalso. rewrite El, Forall_fmap, Forall_forall in Hskip. specialize (Hskip j). cbn in Hskip. apply (Hfound j); [by left|].
      apply dec_stable. intros Hn. rewrite bool_decide_true in Hskip by done. discriminate Hskip. rewrite elem_of_app, !elem_of_cons. auto.
Qed.
End index.

(** ** Resolving *)

Section snapshot.
Context (v : Global.t) (s : BufferSnapshot) (ps : list piece) (Hs : snapshot_ok v s ps).

Lemma sized_lengths : Forall (λ p, flen p.1 = len p.2) ps.
Proof. eapply Forall_impl; [apply (ok_sized _ _ _ Hs)|]. by intros p [? _]. Qed.

(** Looking a fragment up by its identifier. *)
Lemma find_fragment A p B : ps = A ++ p :: B →
  ∃ st e, find (D:=option Locator.t * N) (fragments s) (seek_fst (seek_key (Some (id p.1)))) Left = (st, e, Some p.1) ∧ st.2 = len (vis_text A).
Proof.
  intros Hps. destruct (ok_fragments _ _ _ Hs) as (h & Hwf & Hl). pose proof (ok_ids _ _ _ Hs) as Hids.
  pose proof (ok_sized _ _ _ Hs) as Hsz.
  destruct (sumtree_find (D:=option Locator.t * N) h (fragments s) (seek_id (id p.1)) Left) as (st & e & r & _ & Hf & Hloc);
    [done|rewrite Hl, Hps, fmap_app; by destruct (A.*1)|rewrite Hl; by apply seek_id_ascending|].
  change (seek_fst (seek_key (Some (id p.1)))) with (seek_id (id p.1)). rewrite Hf. clear Hf.
  assert (∀ d f, behind (seek_id (id p.1)) Left (dim_add (D:=option Locator.t * N) d (item_summary f)) ↔ id f ≺ id p.1) as Hbehind.
  { intros d f. unfold behind, seek_id, seek_fst, seek_key, dim_add; cbn. rewrite item_max_id.
    change (cmp (Some (id p.1)) (Some (id f))) with (cmp (id p.1) (id f)). rewrite cmp_gt_lt.
    unfold olt. split; [intros [H|[_ H]]; [done|discriminate H]|by left]. }
  assert (∀ l d, Forall (λ e, bool_decide (¬ behind (seek_id (id p.1)) Left e) = false) (ends d l) → Forall (λ f, id f ≺ id p.1) l) as Hends.
  { induction l as [|f l IH]; intros d; [done|]. cbn [ends]. intros [Hf Hr]%Forall_cons. constructor; [|by eapply IH].
    apply bool_decide_eq_false, dec_stable in Hf. by apply Hbehind in Hf. }
  rewrite Hl in Hloc. destruct r as [[prev f]|].
  - destruct Hloc as (m1 & m2 & El & -> & -> & -> & Hskip & Hfound). apply bool_decide_eq_true in Hfound. rewrite Hbehind in Hfound.
    specialize (Hends _ _ Hskip). rewrite Hps, fmap_app, fmap_cons in El. rewrite Hps, fmap_app, fmap_cons, fmap_app, fmap_cons in Hids.
    assert (A.*1 = m1 ∧ p.1 = f) as [<- <-].
    { apply app_eq_inv in El as [(x & E1 & E2)|(x & E1 & E2)]; destruct x as [|y x]; rewrite ?app_nil_r in E1.
      - by injection E2 as -> _.
      - injection E2 as <- _. destruct Hfound. apply (StronglySorted_before _ _ _ _ (id f) Hids). rewrite E1.
        apply list_elem_of_fmap_2. rewrite elem_of_app, elem_of_cons. auto.
      - by injection E2 as -> _.
      - injection E2 as <- _. exfalso. rewrite E1, Forall_app, Forall_cons in Hends. destruct Hends as (_ & Hy & _). by apply olt_irrefl in Hy. }
    eexists _, _. split; [done|]. rewrite Hps in Hsz. apply Forall_app in Hsz as [HA _]. by rewrite undo_pos.
  - destruct Hloc as [Hskip _]. specialize (Hends _ _ Hskip). rewrite Hps, fmap_app, fmap_cons, Forall_app, Forall_cons in Hends.
    destruct Hends as (_ & Hp & _). by apply olt_irrefl in Hp.
Qed.

Lemma owner_inside A p B a : ps = A ++ p :: B → owns p.1 a → is_min a = false ∧ is_max a = false.
Proof.
  intros Hps [Ht Ho]. assert (p ∈ ps) as Hp by (rewrite Hps, elem_of_app, elem_of_cons; auto). split.
  - pose proof (ok_known _ _ _ Hs) as Hk. rewrite Forall_fmap, Forall_forall in Hk. destruct (Hk p Hp) as [Hv _].
    unfold is_min. rewrite bool_decide_false; [done|]. rewrite <- Ht. intros E. rewrite E in Hv. by cbn in Hv.
  - pose proof (ok_sized _ _ _ Hs) as Hsz. rewrite Forall_forall in Hsz. destruct (Hsz p Hp) as (_ & _ & _ & Hb & _).
    unfold is_max. destruct (anchor_bias a); [by rewrite andb_false_r|]. rewrite (proj2 (N.eqb_neq _ _)) by lia. by rewrite andb_false_r.
Qed.

Lemma sub32_le a b : b ≤ a → a < U32 → sub32 a b = a - b.
Proof. intros Hb Ha. unfold sub32, wrap32. replace (a + U32 - b) with (a - b + 1 * U32) by lia. rewrite N.Div0.mod_add. apply N.mod_small. lia. Qed.

Lemma offset_of_owner A p B a : ps = A ++ p :: B → owns p.1 a →
  offset_for_anchor s a = Some (len (vis_text A) + if visible p.1 then anchor_offset a - insertion_offset p.1 else 0).
Proof.
  intros Hps Hown. destruct (owner_inside _ _ _ _ Hps Hown) as [Hmin Hmax]. unfold offset_for_anchor. rewrite Hmin, Hmax.
  assert (p ∈ ps) as Hp by (rewrite Hps, elem_of_app, elem_of_cons; auto).
  rewrite (find_owner s ps.*1 (ok_insertions _ _ _ Hs) (ok_order _ _ _ Hs) (sized_flen _ (ok_sized _ _ _ Hs)) p.1 a);
    [|by apply list_elem_of_fmap_2|done]. cbn [mbind option_bind].
  destruct Hown as [Ht Ho]. cbn [if_timestamp insertion_fragment_new if_fragment_id if_split_offset]. rewrite bool_decide_true by done. cbn [negb].
  destruct (find_fragment A p B Hps) as (st & e & -> & Hst). cbn [mbind option_bind].
  pose proof (ok_sized _ _ _ Hs) as Hsz. rewrite Forall_forall in Hsz. destruct (Hsz p Hp) as (_ & _ & _ & Hb & _).
  rewrite sub32_le by (destruct (anchor_bias a); lia). rewrite Hst. f_equal. destruct (visible p.1); lia.
Qed.

(** Counting up to a byte of a piece. *)
Lemma before_byte A p B i : ps = A ++ p :: B → (i ≤ length p.2)%nat →
  let X := stamps A ++ replicate i (timestamp p.1, visible p.1) in
  of_insertion (timestamp p.1) X = insertion_offset p.1 + N.of_nat i ∧
  live_len X = len (vis_text A) + if visible p.1 then N.of_nat i else 0.
Proof.
  intros Hps Hi X. unfold X. pose proof sized_lengths as Hl. rewrite Hps in Hl. apply Forall_app in Hl as [HA _]. split.
  - rewrite of_insertion_app, stamps_span, of_insertion_replicate, bool_decide_true by done. f_equal. symmetry.
    apply (ok_tiled _ _ _ Hs _ _ B.*1). by rewrite Hps, fmap_app.
  - by rewrite live_len_app, stamps_visible, live_len_replicate.
Qed.

(** The place that an anchor marks lies in the fragment that owns it. *)
Lemma place_owner a X b : marks (stamps ps) a X b → ∃ A p B, ps = A ++ p :: B ∧ owns p.1 a ∧
  place (anchor_bias a) X b = len (vis_text A) + if visible p.1 then anchor_offset a - insertion_offset p.1 else 0.
Proof.
  intros ((Y & E) & Hplace). destruct (stamps_split ps X _ Y E) as (A & p & B & i & Hps & Hi & Hx & HX).
  exists A, p, B. split; [done|]. pose proof sized_lengths as Hp. rewrite Hps in Hp. apply Forall_app in Hp as [_ [Hp _]%Forall_cons].
  destruct (before_byte A p B i Hps ltac:(lia)) as [Hoff Hvis]. rewrite <- Hx, <- HX in Hoff, Hvis. injection Hx as Ht ->.
  unfold owns, place. rewrite Ht. rewrite Ht in Hplace. rewrite Hoff in Hplace. unfold len in Hp. rewrite Hvis.
  destruct (anchor_bias a); cbn [is_left andb] in *; (split; [split; [done|lia]|]); destruct (visible p.1); lia.
Qed.

(** The other way round: a byte of a visible piece, and an anchor at it. *)
Lemma owner_place A p B i : ps = A ++ p :: B → (i < length p.2)%nat → visible p.1 = true →
  ∃ X Y, stamps ps = X ++ (timestamp p.1, true) :: Y ∧
    of_insertion (timestamp p.1) X = insertion_offset p.1 + N.of_nat i ∧ live_len X = len (vis_text A) + N.of_nat i.
Proof.
  intros Hps Hi Hv. destruct (before_byte A p B i Hps ltac:(lia)) as [Hoff Hvis]. rewrite Hv in *.
  eexists _, (replicate (length p.2 - S i) (timestamp p.1, true) ++ stamps B). split; [|done].
  rewrite Hps. unfold stamps. change (p :: B) with ([p] ++ B). rewrite !tagged_app, !stamps_app, tagged_singleton, stamps_tag, Hv.
  rewrite <- (assoc_L (++)). f_equal. change (?x :: ?l ++ ?m) with ((x :: l) ++ m). rewrite (assoc_L (++)). f_equal.
  replace (length p.2) with (i + S (length p.2 - S i))%nat at 1 by lia. by rewrite replicate_add.
Qed.

Lemma place_resolves a X b : marks (stamps ps) a X b →
  is_min a = false ∧ is_max a = false ∧ offset_for_anchor s a = Some (place (anchor_bias a) X b).
Proof.
  intros (A & p & B & Hps & Hown & ->)%place_owner. destruct (owner_inside _ _ _ _ Hps Hown). split_and!; [done..|]. by apply (offset_of_owner A p B).
Qed.

(** ** Making an anchor *)

Lemma visible_pos (l : list piece) : Forall sized l → pos (D:=N) dim_zero l.*1 = len (vis_text l).
Proof.
  induction l as [|p l IH] using rev_ind; intros Hl; [done|]. apply Forall_app in Hl as [Hl Hp].
  rewrite fmap_app. change ([p].*1) with [p.1]. rewrite (pos_snoc (D:=N)), (IH Hl), vis_text_app, len_app, vis_text_singleton.
  rewrite Forall_singleton in Hp. destruct Hp as (Hlen & _). unfold dim_add; cbn. rewrite item_fs_text. unfold fragment_text, vis.
  destruct (visible p.1); cbn; by rewrite ?Hlen.
Qed.

(** What the search for an offset finds. *)
Lemma find_offset o bias : let t := vis_text ps in
  match bias with Left => 0 < o ≤ len t | Right => o < len t end →
  ∃ A p B e, ps = A ++ p :: B ∧ find (D:=N) (fragments s) (seek_key o) bias = (len (vis_text A), e, Some p.1) ∧ visible p.1 = true ∧
    match bias with
    | Left => len (vis_text A) < o ≤ len (vis_text A) + len p.2
    | Right => len (vis_text A) ≤ o < len (vis_text A) + len p.2
    end.
Proof.
  intros t Ho. destruct (ok_fragments _ _ _ Hs) as (h & Hwf & Hl). pose proof (ok_sized _ _ _ Hs) as Hsz.
  assert (∀ d, behind (seek_key o) bias d ↔ match bias with Left => d < o | Right => d ≤ o end) as Hbehind.
  { intros d. unfold behind, seek_key, cmp, ord_N. rewrite N.compare_gt_iff, N.compare_eq_iff. destruct bias; [|rewrite N.lt_eq_cases; naive_solver].
    split; [intros [?|[_ H]]; [done|discriminate H]|by left]. }
  assert (∀ l, Forall sized l → l ≠ [] → Forall (λ e, bool_decide (¬ behind (seek_key o) bias e) = false) (ends dim_zero l.*1) →
    behind (seek_key o) bias (len (vis_text l))) as Hends.
  { intros l Hsl Hne Hf. destruct (ends_last (D:=N) dim_zero l.*1) as (es & E); [by destruct l|]. rewrite E, visible_pos in Hf by done.
    apply Forall_app in Hf as [_ [Hf _]%Forall_cons]. by apply bool_decide_eq_false, dec_stable in Hf. }
  assert (ps ≠ []) as Hne by (intros E; unfold t in Ho; rewrite E in Ho; change (len (vis_text [])) with 0 in Ho; destruct bias; lia).
  destruct (sumtree_find (D:=N) h (fragments s) (seek_key o) bias) as (st & e & r & _ & Hf & Hloc);
    [done|rewrite Hl; by destruct ps|apply (cmp_ascending (λ d, d)); intros; cbn; lia|].
  rewrite Hl in Hloc. rewrite Hf. clear Hf. destruct r as [[prev f]|].
  - destruct Hloc as (m1 & m2 & El & -> & -> & -> & Hskip & Hfound). apply bool_decide_eq_true in Hfound.
    apply fmap_app_inv in El as (A & r & -> & Hr & ->). symmetry in Hr. apply fmap_cons_inv in Hr as (p & B & -> & _ & ->).
    exists A, p, B. rewrite Hbehind in Hfound. pose proof Hsz as [HA [Hp _]%Forall_cons]%Forall_app.
    rewrite visible_pos in * by done. eexists. split; [done|]. split; [done|]. destruct Hp as (Hlen & _).
    unfold dim_add in Hfound; cbn in Hfound. rewrite item_fs_text in Hfound. unfold fragment_text in Hfound.
    assert (match bias with Left => len (vis_text A) < o | Right => len (vis_text A) ≤ o end) as HAo.
    { destruct A as [|a A]; [change (len (vis_text [])) with 0; destruct bias; lia|]. by apply Hbehind, Hends. }
    destruct (visible p.1); cbn in Hfound; (split; [done|]) || exfalso; destruct bias; lia.
  - destruct Hloc as [Hskip _]. apply Hends in Hskip; [|done..]. apply Hbehind in Hskip. fold t in Hskip. destruct bias; lia.
Qed.

Lemma rope_len_text : rope_len (visible_text s) = len (vis_text ps).
Proof. destruct (ok_visible _ _ _ Hs) as [Hr _]. by apply rope_len_spec. Qed.

(** The offset that an anchor is made at. *)
Definition clipped (o : N) (bias : Bias) : N :=
  match bias with Left => str_floor_char_boundary (vis_text ps) o | Right => str_ceil_char_boundary (vis_text ps) o end.

Lemma clipped_boundary o bias : str_is_char_boundary (vis_text ps) o = true → clipped o bias = o.
Proof. intros Hb. destruct bias; [apply floor_unique|apply ceil_unique]; done || lia. Qed.

Lemma anchor_new_timestamp ts o bias i : anchor_timestamp (anchor_new ts o bias i) = ts.
Proof. by destruct ts. Qed.

Lemma anchor_at_marks o bias : let t := vis_text ps in len t < 2 ^ 32 → o ≤ len t →
  match bias with Left => 0 < clipped o Left | Right => clipped o Right < len t end →
  match bias with Left => 0 < o | Right => o < len t end →
  let a := anchor_at_offset s o bias in
  anchor_bias a = bias ∧ ∃ X, marks (stamps ps) a X true ∧ place bias X true = clipped o bias.
Proof.
  intros t Hlen Ho Hc Hend a. destruct (ok_visible _ _ _ Hs) as [Hr _]. fold t in Hr.
  unfold a, anchor_at_offset. rewrite rope_is_char_boundary_spec with (t:=t), rope_floor_char_boundary_spec with (t:=t),
    rope_ceil_char_boundary_spec with (t:=t) by (done || lia).
  unfold snapshot_len. rewrite rope_len_text. fold t.
  assert ((if negb (str_is_char_boundary t o) then
      match bias with Left => str_floor_char_boundary t o | Right => str_ceil_char_boundary t o end else o) = clipped o bias) as ->
    by (destruct (str_is_char_boundary t o) eqn:Hb; [symmetry; by apply clipped_boundary|done]).
  assert (clipped o Left ≤ len t) as Hle by (destruct (floor_spec t o) as (? & _); unfold clipped; fold t; lia).
  destruct (find_offset (clipped o bias) bias) as (A & p & B & e & Hps & Hf & Hv & Hin); [destruct bias; done|]. rewrite Hf.
  assert (sized p) as (Hpl & _ & _ & Hbound & _).
  { pose proof (ok_sized _ _ _ Hs) as Hsz. rewrite Hps in Hsz. by apply Forall_app in Hsz as [_ [Hsz _]%Forall_cons]. }
  assert (usub (clipped o bias) (len (vis_text A)) = clipped o bias - len (vis_text A)) as ->.
  { apply usub_small; destruct bias; lia. }
  rewrite (wrap32_small (clipped o bias - _)) by (destruct bias; lia). rewrite wrap32_small by (destruct bias; lia).
  assert (len p.2 = N.of_nat (length p.2)) as Hnat by done. set (c := clipped o) in *.
  destruct bias; cbn [is_left andb negb].
  - rewrite (proj2 (N.eqb_neq _ _)) by lia. split; [done|].
    destruct (owner_place A p B (N.to_nat (c Left - len (vis_text A) - 1)) Hps) as (X & Y & E & Hoff & Hlive); [lia|done|].
    exists X. unfold marks, place. rewrite anchor_new_timestamp. cbn [anchor_bias anchor_new anchor_offset is_left andb].
    split; [split; [by exists Y|lia]|lia].
  - rewrite (proj2 (N.leb_gt _ _)) by lia. split; [done|].
    destruct (owner_place A p B (N.to_nat (c Right - len (vis_text A))) Hps) as (X & Y & E & Hoff & Hlive); [lia|done|].
    exists X. unfold marks, place. rewrite anchor_new_timestamp. cbn [anchor_bias anchor_new anchor_offset is_left andb].
    split; [split; [by exists Y|lia]|lia].
Qed.
End snapshot.
