(* ===== verification/AnchorTheorems.v ===== *)
(** * AnchorTheorems: anchors stay with their text

    An anchor resolves to the offset it was made at; it moves with the bytes around it when the
    buffer is edited; and it means the same place to every replica in step. *)

From S2P Require Import Prelude Clock Locator UndoMap OperationQueue Patch Subscription History Bits Utf8.
From S2P Require Import LineEnding PatchFacts TextSummary Chunk ChunkFacts Rope RopeFacts RopeConvert RopeEdit.
From S2P Require Import RopeSlice Keyed TreeMap SumTree SumTreeSpec SumTreeFind Cursor Fragment RopeBuilder.
From S2P Require Import Buffer BufferFacts BufferSteps BufferLocal BufferInv BufferCommit BufferNew.
From S2P Require Import BufferTheorems BufferReplicas BufferRestores BufferSync BufferFollow Anchor AnchorFacts.
#[local] Open Scope N_scope.

(** ** Where an anchor made at an offset is *)

Lemma min_resolves s i : offset_for_anchor s (min_for_buffer i) = Some 0.
Proof. done. Qed.

Lemma max_resolves s i : offset_for_anchor s (max_for_buffer i) = Some (rope_len (visible_text s)).
Proof. done. Qed.

(** At the ends of the text, and between them. *)
Lemma anchor_at_cases v s ps o bias : let t := vis_text ps in let a := anchor_at_offset s o bias in
  snapshot_ok v s ps → len t < 2 ^ 32 → o ≤ len t → str_is_char_boundary t o = true →
  (bias = Left ∧ o = 0 ∧ a = min_for_buffer (remote_id s)) ∨ (bias = Right ∧ o = len t ∧ a = max_for_buffer (remote_id s)) ∨
  (anchor_bias a = bias ∧ (bias = Left → 0 < o) ∧ (bias = Right → o < len t) ∧
   ∃ X, marks (stamps ps) a X true ∧ place bias X true = o).
Proof.
  intros t a Hs Hlen Ho Hb. pose proof (anchor_at_marks v s ps Hs o bias Hlen Ho) as H. fold a t in H.
  rewrite (clipped_boundary ps o bias Hb) in H. unfold a, anchor_at_offset in *. unfold snapshot_len in *.
  rewrite (rope_len_text v s ps Hs) in *. fold t in H |- *. destruct bias; cbn [is_left andb negb] in *.
  - destruct (N.eqb_spec o 0) as [->|Hne]; [by left|]. right; right. destruct H as [H1 H2]; [rewrite ?clipped_boundary by done; lia..|]. 
    split_and!; [done|lia|done|done].
  - right. destruct (N.leb_spec (len t) o); [left; split_and!; [done|lia|done]|right].
    destruct H as [H1 H2]; [rewrite ?clipped_boundary by done; lia..|]. split_and!; [done|done|lia|done].
Qed.

(** C23: an anchor that is made at a character boundary of a buffer's text, with either bias, resolves to
    the offset it was made at; [offset_for_anchor] finds its fragment and never panics. *)
Theorem anchor_round_trip b ps o bias : let t := vis_text ps in
  buffer_wf b ps → len t < 2 ^ 32 → o ≤ len t → str_is_char_boundary t o = true →
  offset_for_anchor (snapshot b) (anchor_at_offset (snapshot b) o bias) = Some o.
Proof.
  intros t [[Hs _] _ _ _] Hlen Ho Hb.
  destruct (anchor_at_cases _ _ _ o bias Hs Hlen Ho Hb) as [(_ & -> & ->)|[(_ & -> & ->)|(Hbias & _ & _ & X & Hm & Hp)]];
    [done|rewrite max_resolves; by rewrite (rope_len_text _ _ _ Hs)|].
  destruct (place_resolves _ _ _ Hs _ _ _ Hm) as (_ & _ & ->). by rewrite Hbias, Hp.
Qed.

(** ** Bytes in the course of an edit *)

Definition old_stamps (els : list el) : list stamp := stamps_of (src_bytes els).
Definition new_stamps (els : list el) : list stamp := stamps (el_piece <$> els).

Lemma old_stamps_app l1 l2 : old_stamps (l1 ++ l2) = old_stamps l1 ++ old_stamps l2.
Proof. unfold old_stamps. by rewrite src_bytes_app, stamps_app. Qed.

Lemma new_stamps_app l1 l2 : new_stamps (l1 ++ l2) = new_stamps l1 ++ new_stamps l2.
Proof. unfold new_stamps, stamps. by rewrite fmap_app, tagged_app, stamps_app. Qed.

Lemma old_stamps_el e : old_stamps [e] =
  match source e with Some f => replicate (length (el_text e)) (timestamp f, visible f) | None => [] end.
Proof. unfold old_stamps, src_bytes. cbn [mbind list_bind]. rewrite app_nil_r. destruct (source e); [apply stamps_tag|done]. Qed.

Lemma new_stamps_el e : new_stamps [e] = replicate (length (el_text e)) (timestamp (el_fragment e), visible (el_fragment e)).
Proof. unfold new_stamps, stamps. cbn [fmap list_fmap]. rewrite tagged_singleton. apply stamps_tag. Qed.

Lemma old_stamps_live els : live_len (old_stamps els) = counted_len visible els.
Proof.
  unfold counted_len. induction els as [|e els IH]; [done|]. change (e :: els) with ([e] ++ els).
  rewrite old_stamps_app, live_len_app, IH, src_bytes_app, view_app, len_app, old_stamps_el. f_equal.
  unfold src_bytes. cbn [mbind list_bind]. rewrite app_nil_r. destruct (source e) as [f|]; [|done].
  rewrite view_tag, live_len_replicate. by destruct (visible f).
Qed.

Definition deleted (x : stamp) : stamp := (x.1, false).

Lemma live_len_deleted l : live_len (deleted <$> l) = 0.
Proof. unfold live_len. by induction l. Qed.

Lemma of_insertion_deleted t l : of_insertion t (deleted <$> l) = of_insertion t l.
Proof.
  unfold of_insertion. induction l as [|x l IH]; [done|]. rewrite fmap_cons, !filter_cons. cbn [deleted fst].
  destruct (decide (x.1 = t)); by rewrite ?len_cons, IH.
Qed.

Lemma app_elem_cases {A} (l1 l2 X Y : list A) x : l1 ++ l2 = X ++ x :: Y →
  (∃ Y', l1 = X ++ x :: Y') ∨ ∃ X', X = l1 ++ X' ∧ l2 = X' ++ x :: Y.
Proof.
  intros [(k & -> & E)|(k & -> & E)]%app_eq_inv; [|right; by exists k]. destruct k as [|y k].
  - right. exists []. by rewrite !app_nil_r.
  - left. injection E as <- _. by exists k.
Qed.

Section course.
Context (ts : Lamport.t).

Lemma quiet_stamps els : Forall (el_ok ts) els → Forall quiet els → new_stamps els = old_stamps els.
Proof.
  induction 1 as [|e els He _ IH]; [done|]. intros [Hq Hr]%Forall_cons. change (e :: els) with ([e] ++ els).
  rewrite new_stamps_app, old_stamps_app, IH, new_stamps_el, old_stamps_el by done. f_equal. unfold quiet, source in *.
  destruct He as (_ & _ & He), (el_origin e) as [|f|f|f]; [done| | |done]; rewrite Hq; [by rewrite He|]. by destruct He as ((-> & _) & _).
Qed.

Lemma erasing_stamps els : Forall (el_ok ts) els → Forall (erasing visible) els → new_stamps els = deleted <$> old_stamps els.
Proof.
  induction 1 as [|e els He _ IH]; [done|]. intros [Hq Hr]%Forall_cons. change (e :: els) with ([e] ++ els).
  rewrite new_stamps_app, old_stamps_app, fmap_app, IH, new_stamps_el, old_stamps_el by done. f_equal. unfold erasing, source in *.
  destruct He as (_ & _ & He), (el_origin e) as [|f|f|f]; [done|done|..]; destruct Hq as [Hf Hv], He as ((-> & _) & _);
    rewrite fmap_replicate; unfold deleted; cbn; congruence.
Qed.

Lemma adds_stamps text els : Forall (el_ok ts) els → adds text els →
  old_stamps els = [] ∧ new_stamps els = replicate (length text) (ts, true).
Proof.
  intros Hok [Hall <-]. induction Hok as [|e els He _ IH]; [done|]. apply Forall_cons in Hall as [[Ho Hv] Hall]. destruct (IH Hall) as [IH1 IH2].
  change (e :: els) with ([e] ++ els). rewrite old_stamps_app, new_stamps_app, IH1, IH2, old_stamps_el, new_stamps_el.
  unfold source. rewrite Ho. split; [done|]. destruct He as (_ & _ & He). rewrite Ho in He. destruct He as (-> & -> & _).
  cbn [app mbind list_bind]. by rewrite length_app, replicate_add.
Qed.

(** Where the visible byte at [j] goes, and whether it is still visible: [o] bytes before the edits become [n]. *)
Fixpoint byte_place (n o : N) (edits : edits_of) (j : N) : N * bool :=
  match edits with
  | [] => (n + (j - o), true)
  | (range, text) :: edits =>
      let start := n + (Patch.start range - o) in
      if j <? Patch.start range then (n + (j - o), true)
      else if j <? Patch.end_ range then (start + len text, false)
      else byte_place (start + len text) (Patch.end_ range) edits j
  end.

Lemma byte_moves o q edits fulls els : performs visible visible o q edits fulls els → ∀ rest n X t Y,
  Forall (el_ok ts) (els ++ rest) → Forall quiet rest → t ≠ ts → old_stamps (els ++ rest) = X ++ (t, true) :: Y →
  ∃ X' b Y', new_stamps (els ++ rest) = X' ++ (t, b) :: Y' ∧ of_insertion t X' = of_insertion t X ∧
    byte_place n o edits (o + live_len X) = (n + live_len X', b).
Proof.
  assert (∀ X t Y l, l = X ++ (t, true) :: Y → live_len X < live_len l) as Hbelow.
  { intros X t Y l ->. rewrite live_len_app. unfold live_len at 3. rewrite filter_cons_True, len_cons by done. lia. }
  induction 1 as [o q|o q range text edits fulls kept added gone els Hk Ha Hg Hs He Hp IH]; intros rest n X t Y Hok Hq Ht E.
  - exists X, true, Y. rewrite (quiet_stamps _ Hok Hq). split_and!; [done..|]. cbn. f_equal. lia.
  - rewrite <- !(assoc_L (++)) in Hok, E |- *. apply Forall_app in Hok as [Hokk Hok]. apply Forall_app in Hok as [Hoka Hok].
    apply Forall_app in Hok as [Hokg Hok].
    destruct (adds_stamps _ _ Hoka Ha) as [Ea1 Ea2]. pose proof (quiet_stamps _ Hokk Hk) as Ek. pose proof (erasing_stamps _ Hokg Hg) as Eg.
    rewrite !old_stamps_app, Ea1 in E. cbn [app] in E. rewrite !new_stamps_app, Ea2, Ek, Eg.
    rewrite <- old_stamps_live in Hs, He. cbn [byte_place].
    assert (of_insertion t (replicate (length text) (ts, true)) = 0) as Hnone by (rewrite of_insertion_replicate; by rewrite bool_decide_false).
    assert (live_len (replicate (length text) (ts, true)) = len text) as Hlive by (by rewrite live_len_replicate).
    apply app_elem_cases in E as [(Y' & EK)|(X1 & -> & [(Y' & EG)|(X2 & -> & ER)]%app_elem_cases)].
    + exists X, true, (Y' ++ replicate (length text) (ts, true) ++ (deleted <$> old_stamps gone) ++ new_stamps (els ++ rest)).
      pose proof (Hbelow _ _ _ _ EK) as Hl. rewrite new_stamps_app, EK, <- (assoc_L (++)). split_and!; [done..|].
      rewrite (proj2 (N.ltb_lt _ _)) by lia. f_equal. lia.
    + eexists (old_stamps kept ++ replicate (length text) (ts, true) ++ (deleted <$> X1)), false, _.
      pose proof (Hbelow _ _ _ _ EG) as Hl. rewrite EG, fmap_app, fmap_cons, <- !(assoc_L (++)). split; [done|].
      rewrite !of_insertion_app, !live_len_app, of_insertion_deleted, live_len_deleted, Hnone, Hlive.
      split; [lia|]. rewrite (proj2 (N.ltb_ge _ _)), (proj2 (N.ltb_lt _ _)) by lia. f_equal. lia.
    + rewrite <- old_stamps_app in ER.
      destruct (IH rest (n + live_len (old_stamps kept) + len text) X2 t Y Hok Hq Ht ER) as (X' & b & Y' & EX & Ho & Hb).
      eexists (old_stamps kept ++ replicate (length text) (ts, true) ++ (deleted <$> old_stamps gone) ++ X'), b, Y'.
      rewrite <- new_stamps_app, EX, <- !(assoc_L (++)). split; [done|].
      rewrite !of_insertion_app, !live_len_app, of_insertion_deleted, live_len_deleted, Hnone, Hlive.
      split; [lia|]. rewrite !(proj2 (N.ltb_ge _ _)) by lia.
      replace (n + (Patch.start range - o)) with (n + live_len (old_stamps kept)) by lia.
      replace (o + (live_len (old_stamps kept) + (live_len (old_stamps gone) + live_len X2))) with (Patch.end_ range + live_len X2) by lia.
      rewrite Hb. f_equal. lia.
Qed.
End course.

(** ** Anchors and edits *)

(** Where an anchor at the offset [o] of the text [t] goes: it sticks to the byte before it, or to the one behind it. *)
Definition anchor_moved (bias : Bias) (t : str) (edits : edits_of) (o : N) : N :=
  match bias with
  | Left => if o =? 0 then 0 else let '(n, alive) := byte_place 0 0 edits (o - 1) in if alive then n + 1 else n
  | Right => if o =? len t then len (edited 0 t edits) else (byte_place 0 0 edits o).1
  end.

Lemma marks_old v s ps a X c : snapshot_ok v s ps → marks (stamps ps) a X c →
  0 < Lamport.value (anchor_timestamp a) ∧ Global.observed v (anchor_timestamp a) = true.
Proof.
  intros Hs ((Y & E) & _). destruct (stamps_split ps X _ Y E) as (A & p & B & i & Hps & _ & Hx & _). injection Hx as -> _.
  pose proof (ok_known _ _ _ Hs) as Hk. rewrite Hps, fmap_app, fmap_cons in Hk. apply Forall_app in Hk as [_ [Hk _]%Forall_cons].
  split; apply Hk.
Qed.

(** C4: after an [edit] an anchor that was made before it resolves to where its byte went: with a bias to
    the left it follows the byte before it, with a bias to the right the one behind it, and
    when that byte was replaced it stands at the end of the text that replaced it; the
    anchors at the ends of the text stay there. *)
Theorem anchor_follows_edit b ps edits started ended o bias :
  let t := vis_text ps in buffer_wf b ps → roomy (snapshot b) ps → low (operations (history b)) →
  transaction_depth (history b) = 0%nat → Lamport.value (lamport_clock b) + 2 < U32 →
  edits ≠ [] → ordered (len t) 0 edits → len (concat (normalized t edits).*2) < U32 →
  len t < 2 ^ 32 → o ≤ len t → str_is_char_boundary t o = true →
  ∃ b' op, edit b edits started ended = Some (b', Op_Edit op) ∧
    offset_for_anchor (snapshot b') (anchor_at_offset (snapshot b) o bias) = Some (anchor_moved bias t (normalized t edits) o).
Proof.
  intros t Hwf Hroomy Hlow Hdepth Hfits Hne Hord Hlen Ht Ho Hb.
  destruct (edit_ok b ps edits started ended Hwf Hroomy Hlow Hdepth Hfits Hne Hord Hlen)
    as (b' & op & els & rest & ops & h' & Hedit & [[Hs' _] _ _ _] & Htr & Hsrc & Hp & Hq & _).
  exists b', op. split; [done|]. destruct Hwf as [[Hs _] _ Hclock _].
  destruct (anchor_at_cases _ _ _ o bias Hs Ht Ho Hb) as [(-> & -> & ->)|[(-> & -> & ->)|(Hbias & Hl & Hr & X & Hm & Hplace)]]; [done| |].
  - rewrite max_resolves, (rope_len_text _ _ _ Hs'). cbn [anchor_moved]. rewrite N.eqb_refl. f_equal. f_equal.
    eapply performed_text; done.
  - destruct (marks_old _ _ _ _ _ _ Hs Hm) as [_ Hold]. set (a := anchor_at_offset (snapshot b) o bias) in *. destruct Hm as ((Y & E) & Hoff).
    assert (anchor_timestamp a ≠ (Lamport.tick (lamport_clock b)).2) as Hnew.
    { intros Hts. rewrite Hts, unobserved in Hold; [done|]. cbn [Lamport.tick snd Lamport.value Lamport.replica_id].
      rewrite wrap32_small by lia. specialize (Hclock (Lamport.replica_id (lamport_clock b))). lia. }
    unfold stamps in E. rewrite <- Hsrc in E.
    destruct (byte_moves _ _ _ _ _ _ Hp rest 0 X _ Y (tr_ok _ _ _ _ _ Htr) Hq Hnew E) as (X' & c & Y' & E' & Hi & Hbyte).
    rewrite N.add_0_l in Hbyte. fold t in Hbyte.
    destruct (place_resolves _ _ _ Hs' a X' c) as (_ & _ & ->); [split; [by exists Y'|by rewrite Hoff, Hi]|].
    unfold place in *. rewrite Hbias. f_equal. destruct bias; cbn [is_left andb anchor_moved] in *.
    + rewrite (proj2 (N.eqb_neq _ _)) by (specialize (Hl eq_refl); lia). replace (o - 1) with (live_len X) by lia.
      rewrite Hbyte. destruct c; lia.
    + rewrite (proj2 (N.eqb_neq _ _)) by (specialize (Hr eq_refl); fold t in Hr; lia). replace o with (live_len X) by lia. rewrite Hbyte. cbn. lia.
Qed.

(** ** Anchors of other replicas *)

Lemma same_stamps b b2 ps qs : in_sync b b2 ps qs → spacious (snapshot b) → spacious (snapshot b2) → stamps qs = stamps ps.
Proof.
  intros [Hwf Hwf2 Hbytes Hrecords Hv _] Hroom Hroom2.
  pose proof (log_of _ _ Hwf Hroom) as Hlog. pose proof (log_of _ _ Hwf2 Hroom2) as Hlog2.
  destruct (wf_text _ _ Hwf) as [Hs _]. destruct (wf_text _ _ Hwf2) as [Hs2 _].
  unfold stamps, stamps_of. apply list_eq_Forall2, Forall2_fmap.
  apply Forall2_same_length_lookup_2; [by apply (Forall2_length same_byte)|].
  intros i x y Hx Hy. pose proof (Forall2_lookup_lr _ _ _ _ _ _ Hbytes Hx Hy) as H. f_equal; [apply H|].
  rewrite Hv in Hs2. eapply (same_byte_visible _ _ _ ps qs); try done; by eapply list_elem_of_lookup_2.
Qed.

(** C8: two replicas that are in step resolve the same anchors alike, though they cut their fragments
    differently: an anchor that one of them made at a character boundary of its text resolves
    to the same offset in the other one's. *)
Theorem anchor_shared b b2 ps qs o bias : let t := vis_text ps in
  in_sync b b2 ps qs → spacious (snapshot b) → spacious (snapshot b2) → len t < 2 ^ 32 → o ≤ len t → str_is_char_boundary t o = true →
  let a := anchor_at_offset (snapshot b) o bias in
  offset_for_anchor (snapshot b) a = Some o ∧ offset_for_anchor (snapshot b2) a = Some o.
Proof.
  intros t Hsync Hroom Hroom2 Hlen Ho Hb a. pose proof (same_stamps _ _ _ _ Hsync Hroom Hroom2) as Hst.
  destruct Hsync as [[[Hs _] _ _ _] [[Hs2 _] _ _ _] _ _ _ Htext].
  destruct (anchor_at_cases _ _ _ o bias Hs Hlen Ho Hb) as [(_ & -> & Ha)|[(_ & -> & Ha)|(Hbias & _ & _ & X & Hm & Hp)]];
    unfold a; [by rewrite Ha|rewrite Ha, !max_resolves, (rope_len_text _ _ _ Hs), (rope_len_text _ _ _ Hs2), Htext; done|].
  destruct (place_resolves _ _ _ Hs _ _ _ Hm) as (_ & _ & ->). rewrite <- Hst in Hm.
  destruct (place_resolves _ _ _ Hs2 _ _ _ Hm) as (_ & _ & ->). by rewrite Hbias, Hp.
Qed.

(** ** The order of anchors *)

Lemma live_len_prefix X Y : live_len X ≤ live_len (X ++ Y).
Proof. rewrite live_len_app. lia. Qed.

Lemma place_bounds bias X t b : live_len X ≤ place bias X b ≤ live_len (X ++ [(t, b)]).
Proof.
  unfold place. rewrite live_len_app. unfold live_len at 5. destruct b; [rewrite filter_cons_True by done|rewrite filter_cons_False by done];
    rewrite ?len_cons; destruct bias; cbn [is_left andb]; lia.
Qed.

(** Anchors in the same insertion. *)
Lemma same_insertion_order l a1 a2 X1 X2 b1 b2 : marks l a1 X1 b1 → marks l a2 X2 b2 → anchor_timestamp a1 = anchor_timestamp a2 →
  anchor_offset a1 < anchor_offset a2 ∨ anchor_offset a1 = anchor_offset a2 ∧ (anchor_bias a1 = Left ∨ anchor_bias a2 = Right) →
  place (anchor_bias a1) X1 b1 ≤ place (anchor_bias a2) X2 b2.
Proof.
  intros ((Y1 & E1) & H1) ((Y2 & E2) & H2) Ht Hle. rewrite Ht in *. rewrite E1 in E2.
  pose proof (place_bounds (anchor_bias a1) X1 (anchor_timestamp a2) b1) as P1. pose proof (place_bounds (anchor_bias a2) X2 (anchor_timestamp a2) b2) as P2.
  assert (∀ X b, of_insertion (anchor_timestamp a2) (X ++ [(anchor_timestamp a2, b)]) = of_insertion (anchor_timestamp a2) X + 1) as Hone.
  { intros X b. rewrite of_insertion_app, (of_insertion_same _ [_]) by (constructor; done). done. }
  apply app_elem_cases in E2 as [(Y' & ->)|(k & -> & E)].
  - change (?x :: ?y) with ([x] ++ y) in H1. rewrite (assoc_L (++)), of_insertion_app, Hone in H1.
    destruct (anchor_bias a1), (anchor_bias a2); cbn [is_left] in *; try lia; naive_solver lia.
  - destruct k as [|x k].
    + injection E as <- _. rewrite app_nil_r in *. unfold place. destruct (anchor_bias a1), (anchor_bias a2); cbn [is_left andb] in *; destruct b1; lia.
    + injection E as <- _. pose proof (live_len_prefix (X1 ++ [(anchor_timestamp a2, b1)]) k) as Hp. rewrite <- (assoc_L (++)) in Hp. cbn [app] in Hp. lia.
Qed.

(** An anchor that belongs to the text, and what it resolves to. *)
Definition anchored (ps : list piece) (a : Anchor) (n : N) : Prop :=
  (is_min a = true ∧ n = 0) ∨ (is_max a = true ∧ n = len (vis_text ps)) ∨ ∃ X b, marks (stamps ps) a X b ∧ n = place (anchor_bias a) X b.

Lemma min_timestamp a : is_min a = true → anchor_timestamp a = Lamport.MIN.
Proof. by intros [[Ht%bool_decide_eq_true _]%andb_prop _]%andb_prop. Qed.

Lemma max_timestamp a : is_max a = true → anchor_timestamp a = Lamport.MAX ∧ is_min a = false.
Proof.
  intros [[Ht%bool_decide_eq_true _]%andb_prop _]%andb_prop. split; [done|]. unfold is_min. by rewrite Ht.
Qed.

Section order.
Context (v : Global.t) (s : BufferSnapshot) (ps : list piece) (Hs : snapshot_ok v s ps).

Lemma anchored_resolves a n : anchored ps a n → offset_for_anchor s a = Some n.
Proof.
  intros [[Hm ->]|[[Hm ->]|(X & b & Hm & ->)]]; [..|by apply (place_resolves v s ps Hs)]; unfold offset_for_anchor.
  - by rewrite Hm.
  - destruct (max_timestamp a Hm) as [_ ->]. by rewrite Hm, (rope_len_text v s ps Hs).
Qed.

(** The identifier of a fragment that holds the byte of the anchor. *)
Lemma owner_id A p B a : ps = A ++ p :: B → owns p.1 a → fragment_id_for_anchor s a = Some (id p.1).
Proof.
  intros Hps Hown. destruct (owner_inside v s ps Hs _ _ _ _ Hps Hown) as [Hmin Hmax]. unfold fragment_id_for_anchor, try_fragment_id_for_anchor.
  assert (p ∈ ps) as Hp by (rewrite Hps, elem_of_app, elem_of_cons; auto).
  rewrite Hmin, Hmax, (find_owner s ps.*1 (ok_insertions _ _ _ Hs) (ok_order _ _ _ Hs) (sized_flen _ (ok_sized _ _ _ Hs)) p.1 a);
    [done|by apply list_elem_of_fmap_2|done].
Qed.

(** The place of an anchor lies in its fragment. *)
Lemma owner_bounds A p B a : ps = A ++ p :: B → owns p.1 a → let n := len (vis_text A) + (if visible p.1 then anchor_offset a - insertion_offset p.1 else 0) in
  len (vis_text A) ≤ n ≤ len (vis_text (A ++ [p])).
Proof.
  intros Hps [_ Ho] n. pose proof (sized_lengths v s ps Hs) as Hl. rewrite Hps in Hl. apply Forall_app in Hl as [_ [Hl _]%Forall_cons].
  unfold n. rewrite vis_text_app, len_app, vis_text_singleton. unfold vis. destruct (visible p.1); [|change (len ([] : str)) with 0]; destruct (anchor_bias a); lia.
Qed.

Lemma pieces_in_order A1 p1 B1 A2 p2 B2 : ps = A1 ++ p1 :: B1 → ps = A2 ++ p2 :: B2 → id p1.1 ≺ id p2.1 →
  len (vis_text (A1 ++ [p1])) ≤ len (vis_text A2).
Proof.
  intros E1 E2 Hlt. pose proof (ok_ids _ _ _ Hs) as Hids. rewrite E1 in E2. apply app_elem_cases in E2 as [(Y & ->)|(k & -> & E)].
  - exfalso. rewrite E1, fmap_app, fmap_cons, fmap_app, fmap_cons in Hids.
    assert (id p2.1 ≺ id p1.1) as Hgt.
    { apply (StronglySorted_before _ _ _ _ (id p2.1) Hids). rewrite fmap_app, fmap_cons, fmap_app, fmap_cons, elem_of_app, elem_of_cons. auto. }
    by apply (olt_irrefl (id p1.1)), (olt_trans _ (id p2.1)).
  - destruct k as [|x k]; [injection E as -> _; by apply olt_irrefl in Hlt|]. injection E as <- _.
    change (A1 ++ p1 :: k) with (A1 ++ [p1] ++ k). rewrite (assoc_L (++)), (vis_text_app (A1 ++ [p1]) k), len_app. lia.
Qed.

(** What the comparison knows of an anchor: the identifier, and bounds of the place. *)
Definition sited (a : Anchor) (n : N) (i : Locator.t) : Prop :=
  (anchor_timestamp a = Lamport.MIN ∧ i = Locator.min ∧ n = 0) ∨ (anchor_timestamp a = Lamport.MAX ∧ i = Locator.max ∧ n = len (vis_text ps)) ∨
  ∃ A p B, ps = A ++ p :: B ∧ anchor_timestamp a = timestamp p.1 ∧ i = id p.1 ∧ len (vis_text A) ≤ n ≤ len (vis_text (A ++ [p])).

Lemma anchored_sited a n : anchored ps a n → ∃ i, fragment_id_for_anchor s a = Some i ∧ sited a n i.
Proof.
  unfold fragment_id_for_anchor, try_fragment_id_for_anchor. intros [[Hm ->]|[[Hm ->]|(X & b & Hm & ->)]].
  - rewrite Hm. exists Locator.min. split; [done|left]. by rewrite min_timestamp.
  - destruct (max_timestamp a Hm) as [Ht ->]. rewrite Hm. exists Locator.max. split; [done|right; by left].
  - destruct (place_owner v s ps Hs a X b Hm) as (A & p & B & Hps & Hown & Hp). exists (id p.1). split; [by eapply owner_id|right; right].
    exists A, p, B. split_and!; [done|symmetry; apply Hown|done|..]; rewrite Hp; by eapply owner_bounds.
Qed.

Lemma sited_order a1 a2 n1 n2 i1 i2 : sited a1 n1 i1 → sited a2 n2 i2 → i1 ≺ i2 → n1 ≤ n2.
Proof.
  assert (∀ A p B, ps = A ++ p :: B → loc_ok (id p.1) ∧ len (vis_text (A ++ [p])) ≤ len (vis_text ps)) as Hpiece.
  { intros A p B E. pose proof (ok_located _ _ _ Hs) as Hl. rewrite E in *. apply Forall_app in Hl as [_ [Hl _]%Forall_cons]. split; [done|].
    change (p :: B) with ([p] ++ B). rewrite (assoc_L (++)), (vis_text_app _ B), len_app. lia. }
  intros [(_ & -> & ->)|[(_ & -> & ->)|(A1 & p1 & B1 & E1 & _ & -> & H1)]] [(_ & -> & ->)|[(_ & -> & ->)|(A2 & p2 & B2 & E2 & _ & -> & H2)]] Hlt;
    try lia.
  - exfalso. by vm_compute in Hlt.
  - exfalso. destruct (Hpiece _ _ _ E2) as [[_ Hm] _]. by apply (olt_irrefl Locator.max), (olt_trans _ (id p2.1)).
  - exfalso. destruct (Hpiece _ _ _ E1) as [[Hm _] _]. apply (olt_irrefl (id p1.1)), (olt_trans _ Locator.min); [done|]. apply min_lt, Hm.
  - destruct (Hpiece _ _ _ E1). lia.
  - pose proof (pieces_in_order _ _ _ _ _ _ E1 E2 Hlt). lia.
Qed.

Lemma sited_same a1 a2 n1 n2 i : sited a1 n1 i → sited a2 n2 i → anchor_timestamp a1 = anchor_timestamp a2.
Proof.
  assert (∀ A p B, ps = A ++ p :: B → loc_ok (id p.1)) as Hpiece.
  { intros A p B E. pose proof (ok_located _ _ _ Hs) as Hl. rewrite E in *. by apply Forall_app in Hl as [_ [Hl _]%Forall_cons]. }
  assert (∀ A p B, ps = A ++ p :: B → id p.1 ≠ Locator.min ∧ id p.1 ≠ Locator.max) as Hproper.
  { intros A p B E. destruct (Hpiece A p B E) as [[_ Hz] Hm]. apply min_lt in Hz.
    split; intros H; rewrite H in *; [by apply olt_irrefl in Hz|by apply olt_irrefl in Hm]. }
  intros [(-> & -> & ->)|[(-> & -> & ->)|(A1 & p1 & B1 & E1 & -> & -> & H1)]] [(-> & Hi & ->)|[(-> & Hi & ->)|(A2 & p2 & B2 & E2 & -> & Hi & H2)]];
    try done; try (destruct (Hproper _ _ _ E2); congruence); try (destruct (Hproper _ _ _ E1); congruence).
  pose proof (ok_ids _ _ _ Hs) as Hids. rewrite E1 in E2. apply app_elem_cases in E2 as [(Y & ->)|(k & -> & E)].
  - exfalso. rewrite E1, fmap_app, fmap_cons, fmap_app, fmap_cons in Hids. apply (olt_irrefl (id p1.1)).
    apply (StronglySorted_before _ _ _ _ (id p1.1) Hids). rewrite Hi, fmap_app, fmap_cons, fmap_app, fmap_cons, elem_of_app, elem_of_cons. auto.
  - destruct k as [|x k]; [by injection E as -> _|]. injection E as <- E.
    exfalso. rewrite E1, fmap_app, fmap_cons, fmap_app, fmap_cons in Hids. apply (olt_irrefl (id p1.1)).
    apply (StronglySorted_after _ _ _ _ (id p1.1) Hids). rewrite Hi, E, fmap_app, fmap_cons, fmap_app, fmap_cons, elem_of_app, elem_of_cons. auto.
Qed.

(** In the same insertion, or both at the same end. *)
Lemma anchored_order a1 a2 n1 n2 : anchored ps a1 n1 → anchored ps a2 n2 → anchor_timestamp a1 = anchor_timestamp a2 →
  anchor_offset a1 < anchor_offset a2 ∨ anchor_offset a1 = anchor_offset a2 ∧ (anchor_bias a1 = Left ∨ anchor_bias a2 = Right) → n1 ≤ n2.
Proof.
  assert (∀ a X b, marks (stamps ps) a X b → anchor_timestamp a ≠ Lamport.MIN ∧ (anchor_timestamp a = Lamport.MAX → place (anchor_bias a) X b ≤ len (vis_text ps))) as Hmarks.
  { intros a X b Hm. destruct (marks_old _ _ _ _ _ _ Hs Hm) as [Hv _]. split; [intros E; rewrite E in Hv; by cbn in Hv|intros _].
    destruct Hm as ((Y & E) & _). rewrite <- stamps_visible. destruct (place_bounds (anchor_bias a) X (anchor_timestamp a) b) as [_ Hp]. rewrite E.
    change (?x :: Y) with ([x] ++ Y). rewrite (assoc_L (++)). etransitivity; [exact Hp|apply live_len_prefix]. }
  intros H1 H2 Ht Hle. destruct H1 as [[Hm1 ->]|[[Hm1 ->]|(X1 & b1 & Hm1 & ->)]]; [lia| |].
  - destruct (max_timestamp _ Hm1) as [Ht1 _]. destruct H2 as [[Hm2 ->]|[[Hm2 ->]|(X2 & b2 & Hm2 & ->)]]; [|done|].
    + rewrite Ht1, (min_timestamp _ Hm2) in Ht. discriminate Ht.
    + exfalso. apply andb_prop in Hm1 as [[_ Ho%N.eqb_eq]%andb_prop Hb]. destruct (place_owner v s ps Hs _ _ _ Hm2) as (A & p & B & E & [_ Hown] & _).
      pose proof (ok_sized _ _ _ Hs) as Hsz. rewrite E in Hsz. apply Forall_app in Hsz as [_ [(_ & _ & _ & Hsz & _) _]%Forall_cons].
      destruct (anchor_bias a1), (anchor_bias a2); try discriminate Hb; destruct Hle as [|[? [|]]]; try discriminate; lia.
  - destruct H2 as [[Hm2 ->]|[[Hm2 ->]|(X2 & b2 & Hm2 & ->)]]; destruct (Hmarks _ _ _ Hm1) as [Hmin Hmax].
    + destruct Hmin. by rewrite Ht, min_timestamp.
    + apply Hmax. rewrite Ht. by apply max_timestamp.
    + by eapply same_insertion_order.
Qed.


Lemma anchor_at_anchored o bias : len (vis_text ps) < 2 ^ 32 → o ≤ len (vis_text ps) → str_is_char_boundary (vis_text ps) o = true →
  anchored ps (anchor_at_offset s o bias) o.
Proof.
  intros Hlen Ho Hb. destruct (anchor_at_cases v s ps o bias Hs Hlen Ho Hb) as [(_ & -> & ->)|[(_ & -> & ->)|(Hbias & _ & _ & X & Hm & Hp)]];
    [by left|by right; left|right; right]. exists X, true. by rewrite Hbias, Hp.
Qed.

Lemma compare_offsets a1 a2 n1 n2 : anchored ps a1 n1 → anchored ps a2 n2 → anchor_timestamp a1 = anchor_timestamp a2 →
  match then_with (cmp (anchor_offset a1) (anchor_offset a2)) (cmp (anchor_bias a1) (anchor_bias a2)) with
  | Lt => n1 ≤ n2 | Eq => n1 = n2 | Gt => n2 ≤ n1 end.
Proof.
  intros H1 H2 Ht. pose proof (anchored_order _ _ _ _ H1 H2 Ht) as H12. pose proof (anchored_order _ _ _ _ H2 H1 (eq_sym Ht)) as H21.
  unfold then_with. change (cmp (anchor_offset a1) (anchor_offset a2)) with (anchor_offset a1 ?= anchor_offset a2).
  destruct (N.compare_spec (anchor_offset a1) (anchor_offset a2)) as [E|E|E]; [|apply H12; by left|apply H21; by left].
  destruct (anchor_bias a1), (anchor_bias a2); cbn; [apply N.le_antisymm|..|apply N.le_antisymm]; auto.
Qed.
End order.

(** C22: comparing two anchors of a buffer never fails, and it is the order of the places that they
    resolve to: the lesser one never resolves to a greater offset, and equal ones resolve to
    the same. *)
Theorem anchor_cmp_order b ps a1 a2 n1 n2 : let s := snapshot b in
  buffer_wf b ps → anchored ps a1 n1 → anchored ps a2 n2 →
  offset_for_anchor s a1 = Some n1 ∧ offset_for_anchor s a2 = Some n2 ∧
  ∃ c, anchor_cmp s a1 a2 = Some c ∧ match c with Lt => n1 ≤ n2 | Eq => n1 = n2 | Gt => n2 ≤ n1 end.
Proof.
  intros s [[Hs _] _ _ _] H1 H2. split; [by eapply anchored_resolves|]. split; [by eapply anchored_resolves|].
  unfold anchor_cmp. case_bool_decide as Ht; [eexists; split; [done|by eapply compare_offsets]|].
  destruct (anchored_sited _ _ _ Hs _ _ H1) as (i1 & Hi1 & S1). destruct (anchored_sited _ _ _ Hs _ _ H2) as (i2 & Hi2 & S2).
  fold s in Hi1, Hi2. rewrite Hi1, Hi2. cbn [mbind option_bind]. eexists. split; [done|]. destruct (cmp i1 i2) eqn:E; cbn [then_with].
  - apply cmp_eq_iff in E as ->. destruct Ht. by eapply sited_same.
  - by eapply (sited_order _ _ _ Hs a1 a2).
  - apply cmp_gt_lt in E. by eapply (sited_order _ _ _ Hs a2 a1).
Qed.

(** ** Concrete inputs *)

Lemma anchor_round_trip_witness :
  offset_for_anchor (snapshot (demo_buffer AGENT)) (anchor_at_offset (snapshot (demo_buffer AGENT)) 5 Left) = Some 5 ∧
  offset_for_anchor (snapshot (demo_buffer AGENT)) (anchor_at_offset (snapshot (demo_buffer AGENT)) 5 Right) = Some 5.
Proof.
  split; apply (anchor_round_trip (demo_buffer AGENT) demo_pieces); try by vm_compute. all: apply (demo_wf AGENT).
Defined.

(** The place 5 is between [hello] and what was inserted there: one anchor stays, the other one moves. *)
Lemma anchor_follows_edit_witness : ∃ b', edit (demo_buffer AGENT) demo_edits 0 1 = Some b' ∧
  offset_for_anchor (snapshot b'.1) (anchor_at_offset (snapshot (demo_buffer AGENT)) 5 Left) = Some 5 ∧
  offset_for_anchor (snapshot b'.1) (anchor_at_offset (snapshot (demo_buffer AGENT)) 5 Right) = Some 7.
Proof.
  destruct (anchor_follows_edit (demo_buffer AGENT) demo_pieces demo_edits 0 1 5 Left (demo_wf AGENT) (demo_roomy AGENT))
    as (b' & op & E & Hl); [vm_compute; lia|done|by vm_compute|done|apply demo_ordered|by vm_compute..|].
  destruct (anchor_follows_edit (demo_buffer AGENT) demo_pieces demo_edits 0 1 5 Right (demo_wf AGENT) (demo_roomy AGENT))
    as (b2 & op2 & E2 & Hr); [vm_compute; lia|done|by vm_compute|done|apply demo_ordered|by vm_compute..|].
  rewrite E in E2. injection E2 as <- <-. exists (b', Op_Edit op). split; [exact E|]. cbn [fst]. rewrite Hl, Hr.
  clear. by vm_compute.
Defined.

Lemma demo_spacious r : spacious (snapshot (demo_buffer r)).
Proof. apply (spacious_roomy _ demo_pieces (demo_wf r)). apply demo_roomy. Qed.

Lemma anchor_shared_witness :
  offset_for_anchor (snapshot (demo_buffer FIRST_COLLAB_ID)) (anchor_at_offset (snapshot (demo_buffer AGENT)) 5 Left) = Some 5.
Proof.
  apply (anchor_shared (demo_buffer AGENT) (demo_buffer FIRST_COLLAB_ID) demo_pieces demo_pieces 5 Left (demo_in_sync _ _)
    (demo_spacious _) (demo_spacious _)); by vm_compute.
Defined.

Lemma anchor_cmp_order_witness : anchor_cmp (snapshot (demo_buffer AGENT)) (anchor_at_offset (snapshot (demo_buffer AGENT)) 5 Left)
    (anchor_at_offset (snapshot (demo_buffer AGENT)) 7 Right) = Some Lt ∧ 5 ≤ 7.
Proof.
  assert (anchored demo_pieces (anchor_at_offset (snapshot (demo_buffer AGENT)) 5 Left) 5) as H1
    by (eapply anchor_at_anchored; [apply (demo_wf AGENT)|by vm_compute..]).
  assert (anchored demo_pieces (anchor_at_offset (snapshot (demo_buffer AGENT)) 7 Right) 7) as H2
    by (eapply anchor_at_anchored; [apply (demo_wf AGENT)|by vm_compute..]).
  assert (anchor_cmp (snapshot (demo_buffer AGENT)) (anchor_at_offset (snapshot (demo_buffer AGENT)) 5 Left)
    (anchor_at_offset (snapshot (demo_buffer AGENT)) 7 Right) = Some Lt) as E by (clear; by vm_compute).
  destruct (anchor_cmp_order (demo_buffer AGENT) demo_pieces _ _ 5 7 (demo_wf AGENT) H1 H2) as (_ & _ & c & Hc & Hle).
  rewrite E in Hc. injection Hc as <-. by split.
Defined.
