(* ===== verification/EditsSince.v ===== *)
(** * EditsSince: what happened since a version

    Models the queries of [crates/text/src/text.rs] over older versions of a buffer: the iterator
    [Edits] behind [edits_since], [has_edits_since], [rope_for_version] and [offsets_to_version].
    [None] is a panic, or fuel that ran out: each loop has one round for each fragment that it
    visits. *)

From S2P Require Import Prelude Clock Locator UndoMap Patch Bits Utf8 TextSummary Chunk Rope SumTree.
From S2P Require Import SumTreeSpec Cursor Fragment Buffer Anchor.
#[local] Open Scope N_scope.

Abbreviation fragment_filter := (FilterCursor Fragment FragmentSummary FragmentTextSummary).

(** The fragments that [since] has not seen all of. *)
Definition unobserved_by (since : Global.t) (summary : FragmentSummary) : bool :=
  negb (Global.observed_all since (max_version summary)).

Definition fragments_since (s : BufferSnapshot) (since : Global.t) : option fragment_filter :=
  filter_next (filter_new (fragments s) (unobserved_by since)).

(** One round for each fragment, and one to see that there are no more. *)
Definition rounds (s : BufferSnapshot) : nat := S (length (to_list (fragments s))).

(** ** [Edits] *)

Record Edits (D : Type) : Type := mk_edits {
  visible_cursor : RopeCursor;
  deleted_cursor : RopeCursor;
  fragments_cursor : fragment_filter;
  edits_undos : UndoMap;
  edits_since_version : Global.t;
  edits_old_end : D;
  edits_new_end : D;
  range_start : Locator.t * N;
  range_end : Locator.t * N;
  edits_buffer_id : N
}.
Arguments mk_edits {D}. Arguments visible_cursor {D}. Arguments deleted_cursor {D}. Arguments fragments_cursor {D}.
Arguments edits_undos {D}. Arguments edits_since_version {D}. Arguments edits_old_end {D}. Arguments edits_new_end {D}.
Arguments range_start {D}. Arguments range_end {D}. Arguments edits_buffer_id {D}.

Section edits.
Context {D : Type} `{TextDimension D, !Ord D}.

Abbreviation anchored_edit := (Edit D * (Anchor * Anchor))%type.
Implicit Types (e : Edits D) (pending : option anchored_edit).

Definition with_fragments e c : Edits D :=
  mk_edits (visible_cursor e) (deleted_cursor e) c (edits_undos e) (edits_since_version e) (edits_old_end e) (edits_new_end e)
    (range_start e) (range_end e) (edits_buffer_id e).
Definition with_visible e c (old_end new_end : D) : Edits D :=
  mk_edits c (deleted_cursor e) (fragments_cursor e) (edits_undos e) (edits_since_version e) old_end new_end
    (range_start e) (range_end e) (edits_buffer_id e).
Definition with_deleted e c (old_end : D) : Edits D :=
  mk_edits (visible_cursor e) c (fragments_cursor e) (edits_undos e) (edits_since_version e) old_end (edits_new_end e)
    (range_start e) (range_end e) (edits_buffer_id e).

(** The text that did not change before the fragment. *)
Definition skip_unchanged e : option (Edits D) :=
  let visible_start := sum_visible (filter_start (fragments_cursor e)) in
  if rc_offset (visible_cursor e) <? visible_start then
    '(c, summary) ← rc_summary (D:=D) (visible_cursor e) visible_start;
    Some (with_visible e c (add_assign (edits_old_end e) summary) (add_assign (edits_new_end e) summary))
  else Some e.

Definition extend_new pending e (new_end : D) (start_anchor end_anchor : Anchor) : anchored_edit :=
  match pending with
  | Some (edit, range) => (mk_edit (old edit) (mk_range (Patch.start (new edit)) new_end), (range.1, end_anchor))
  | None => (mk_edit (mk_range (edits_old_end e) (edits_old_end e)) (mk_range (edits_new_end e) new_end), (start_anchor, end_anchor))
  end.
Definition extend_old pending e (old_end : D) (start_anchor end_anchor : Anchor) : anchored_edit :=
  match pending with
  | Some (edit, range) => (mk_edit (mk_range (Patch.start (old edit)) old_end) (new edit), (range.1, end_anchor))
  | None => (mk_edit (mk_range (edits_old_end e) old_end) (mk_range (edits_new_end e) (edits_new_end e)), (start_anchor, end_anchor))
  end.

(** The end of a fragment, or of the range in it. *)
Definition limit e (fragment : Fragment) (fragment_start fragment_end : N) : N :=
  if bool_decide (id fragment = (range_end e).1)
  then N.min fragment_end (fragment_start + sub32 (range_end e).2 (insertion_offset fragment))
  else fragment_end.

(** The fragment appeared or disappeared, or neither. *)
Definition change e pending (fragment : Fragment) : option (Edits D * option anchored_edit) :=
  let start_anchor := anchor_new (timestamp fragment) (insertion_offset fragment) Right (Some (edits_buffer_id e)) in
  let end_anchor := anchor_new (timestamp fragment) (wrap32 (insertion_offset fragment + flen fragment)) Left (Some (edits_buffer_id e)) in
  let start := filter_start (fragments_cursor e) in
  end_ ← filter_end (fragments_cursor e);
  was ← was_visible fragment (edits_since_version e) (edits_undos e);
  if negb was && visible fragment then
    '(c, summary) ← rc_summary (D:=D) (visible_cursor e) (limit e fragment (sum_visible start) (sum_visible end_));
    let new_end := add_assign (edits_new_end e) summary in
    Some (with_visible e c (edits_old_end e) new_end, Some (extend_new pending e new_end start_anchor end_anchor))
  else if was && negb (visible fragment) then
    let deleted_end := limit e fragment (sum_deleted start) (sum_deleted end_) in
    c ← (if rc_offset (deleted_cursor e) <? sum_deleted start then rc_seek_forward (deleted_cursor e) (sum_deleted start)
         else Some (deleted_cursor e));
    '(c, summary) ← rc_summary (D:=D) c deleted_end;
    let old_end := add_assign (edits_old_end e) summary in
    Some (with_deleted e c old_end, Some (extend_old pending e old_end start_anchor end_anchor))
  else Some (e, pending).

Definition advance e : option (Edits D) := c ← filter_next (fragments_cursor e); Some (with_fragments e c).

Fixpoint edits_next (fuel : nat) e pending : option (Edits D * option anchored_edit) :=
  match fuel with
  | O => None
  | S fuel =>
      item ← filter_item (fragments_cursor e);
      match item with
      | None => Some (e, pending)
      | Some fragment =>
          if ltb_ord (id fragment) (range_start e).1 then e ← advance e; edits_next fuel e pending
          else if ltb_ord (range_end e).1 (id fragment) then Some (e, pending)
          else
            e ← skip_unchanged e;
            if match pending with Some (c, _) => ltb_ord (Patch.end_ (new c)) (edits_new_end e) | None => false end
            then Some (e, pending)
            else
              '(e, pending) ← change e pending fragment;
              e ← advance e;
              edits_next fuel e pending
      end
  end.

(** Every [next] looks at the fragments that are left. *)
Fixpoint edits_collect (fuel inner : nat) e : option (list anchored_edit) :=
  match fuel with
  | O => None
  | S fuel =>
      '(e, found) ← edits_next inner e None;
      match found with
      | None => Some []
      | Some edit => rest ← edits_collect fuel inner e; Some (edit :: rest)
      end
  end.

(** ** The queries *)

Section snapshot.
Context (s : BufferSnapshot) (since : Global.t).

(** Where the range starts in the two texts. *)
Definition edits_start (start : Anchor) (found : FragmentTextSummary) (item : option Fragment) : N * N :=
  match item with
  | Some fragment =>
      let overshoot := sub32 (anchor_offset start) (insertion_offset fragment) in
      if visible fragment then (sum_visible found + overshoot, sum_deleted found)
      else (sum_visible found, sum_deleted found + overshoot)
  | None => (sum_visible found, sum_deleted found)
  end.

Definition edits_new (start end_ : Anchor) : option (Edits D) :=
  cursor ← fragments_since s since;
  start_fragment_id ← fragment_id_for_anchor s start;
  let '(found, _, item) :=
    find (D:=option Locator.t * FragmentTextSummary) (fragments s) (seek_fst (seek_key (Some start_fragment_id))) Left in
  let '(visible_start, deleted_start) := edits_start start found.2 item in
  end_fragment_id ← fragment_id_for_anchor s end_;
  visible_cursor ← rope_cursor_at (visible_text s) visible_start;
  deleted_cursor ← rope_cursor_at (deleted_text s) deleted_start;
  Some (mk_edits visible_cursor deleted_cursor cursor (undo_map s) since dim_zero dim_zero
    (start_fragment_id, anchor_offset start) (end_fragment_id, anchor_offset end_) (remote_id s)).

Definition anchored_edits_since_in_range (start end_ : Anchor) : option (list anchored_edit) :=
  if bool_decide (since = version s) then Some []
  else e ← edits_new start end_; edits_collect (rounds s) (rounds s) e.

Definition edits_since_in_range (start end_ : Anchor) : option (list (Edit D)) :=
  l ← anchored_edits_since_in_range start end_; Some (List.map fst l).

Definition anchored_edits_since : option (list anchored_edit) := anchored_edits_since_in_range anchor_MIN anchor_MAX.
Definition edits_since : option (list (Edit D)) := edits_since_in_range anchor_MIN anchor_MAX.
End snapshot.
End edits.

Section versions.
Context (s : BufferSnapshot) (since : Global.t).

Fixpoint any_edit (fuel : nat) (c : fragment_filter) : option bool :=
  match fuel with
  | O => None
  | S fuel =>
      item ← filter_item c;
      match item with
      | None => Some false
      | Some fragment =>
          was ← was_visible fragment since (undo_map s);
          if negb (eqb was (visible fragment)) then Some true else c ← filter_next c; any_edit fuel c
      end
  end.

Definition has_edits_since : option bool :=
  if bool_decide (since = version s) then Some false
  else c ← fragments_since s since; any_edit (rounds s) c.

Fixpoint any_edit_in_range (fuel : nat) (start_id end_id : Locator.t) (c : fragment_filter) : option bool :=
  match fuel with
  | O => None
  | S fuel =>
      item ← filter_item c;
      match item with
      | None => Some false
      | Some fragment =>
          if ltb_ord end_id (id fragment) then Some false
          else
            found ← (if ltb_ord start_id (id fragment) then was ← was_visible fragment since (undo_map s); Some (negb (eqb was (visible fragment)))
                     else Some false);
            if found : bool then Some true else c ← filter_next c; any_edit_in_range fuel start_id end_id c
      end
  end.

Definition has_edits_since_in_range (start end_ : Anchor) : option bool :=
  if bool_decide (since = version s) then Some false
  else
    start_id ← fragment_id_for_anchor s start;
    end_id ← fragment_id_for_anchor s end_;
    c ← fragments_since s since;
    any_edit_in_range (rounds s) start_id end_id c.

(** [rope_for_version]: the text of the fragments that were visible. *)
Definition append_unchanged (rope : Rope) (visible_cursor : RopeCursor) (visible_start : N) : option (Rope * RopeCursor) :=
  if rc_offset visible_cursor <? visible_start then
    '(visible_cursor, text) ← rc_slice visible_cursor visible_start;
    rope ← rope_append rope text;
    Some (rope, visible_cursor)
  else Some (rope, visible_cursor).

Definition version_step (fragment : Fragment) (c : fragment_filter) (rope : Rope) (visible_cursor deleted_cursor : RopeCursor) :
    option (Rope * RopeCursor * RopeCursor) :=
  end_ ← filter_end c;
  was ← was_visible fragment since (undo_map s);
  if was : bool then
    if visible fragment then
      '(visible_cursor, text) ← rc_slice visible_cursor (sum_visible end_);
      rope ← rope_append rope text;
      Some (rope, visible_cursor, deleted_cursor)
    else
      deleted_cursor ← rc_seek_forward deleted_cursor (sum_deleted (filter_start c));
      '(deleted_cursor, text) ← rc_slice deleted_cursor (sum_deleted end_);
      rope ← rope_append rope text;
      Some (rope, visible_cursor, deleted_cursor)
  else if visible fragment then
    visible_cursor ← rc_seek_forward visible_cursor (sum_visible end_);
    Some (rope, visible_cursor, deleted_cursor)
  else Some (rope, visible_cursor, deleted_cursor).

Fixpoint version_loop (fuel : nat) (c : fragment_filter) (rope : Rope) (visible_cursor deleted_cursor : RopeCursor) : option Rope :=
  match fuel with
  | O => None
  | S fuel =>
      item ← filter_item c;
      '(rope, visible_cursor) ← append_unchanged rope visible_cursor (sum_visible (filter_start c));
      match item with
      | None => Some rope
      | Some fragment =>
          '(rope, visible_cursor, deleted_cursor) ← version_step fragment c rope visible_cursor deleted_cursor;
          c ← filter_next c;
          version_loop fuel c rope visible_cursor deleted_cursor
      end
  end.

Definition rope_for_version : option Rope :=
  c ← fragments_since s since;
  visible_cursor ← rope_cursor_at (visible_text s) 0;
  deleted_cursor ← rope_cursor_at (deleted_text s) 0;
  version_loop (rounds s) c rope_new visible_cursor deleted_cursor.

(** The closure of [offsets_to_version], for the offset [new_offset]: the edits that are left and the last ends. *)
Fixpoint offset_to_version (edits : list (Edit N)) (last_old_end last_new_end new_offset : N) : list (Edit N) * N * N * N :=
  match edits with
  | [] => (edits, last_old_end, last_new_end, last_old_end + (new_offset - last_new_end))
  | edit :: rest =>
      if new_offset <? Patch.start (new edit) then (edits, last_old_end, last_new_end, last_old_end + (new_offset - last_new_end))
      else if Patch.end_ (new edit) <=? new_offset then offset_to_version rest (Patch.end_ (old edit)) (Patch.end_ (new edit)) new_offset
      else (edits, last_old_end, last_new_end,
            N.min (Patch.start (old edit) + usub new_offset (Patch.start (new edit))) (Patch.end_ (old edit)))
  end.

Fixpoint offsets_loop (edits : list (Edit N)) (last_old_end last_new_end : N) (offsets : list N) : list N :=
  match offsets with
  | [] => []
  | o :: offsets =>
      let '(edits, last_old_end, last_new_end, r) := offset_to_version edits last_old_end last_new_end o in
      r :: offsets_loop edits last_old_end last_new_end offsets
  end.

(** The edits are all taken at once; the code takes them when it needs them. *)
Definition offsets_to_version (offsets : list N) : option (list N) :=
  edits ← edits_since (D:=N) s since; Some (offsets_loop edits 0 0 offsets).

Definition range_to_version (start end_ : N) : option (N * N) :=
  l ← offsets_to_version [start; end_];
  match l with a :: b :: _ => Some (a, b) | _ => None end.
End versions.
