(* ===== verification/EditsFacts.v ===== *)
(** * EditsFacts: what a version saw

    The fragments that a version has seen all of look as they did then ([settled_visible]), so that the
    filter of [Edits] passes over no change.  An edit or an undo, of this replica or another one, changes nothing
    of the text as a version saw it that has not observed the operation ([edit_past], [undo_past]).
    [happens] is one such step of a buffer, and [later] a run of them. *)

From S2P Require Import Prelude Clock Locator UndoMap OperationQueue Patch Subscription History Bits Utf8.
From S2P Require Import LineEnding PatchFacts TextSummary Chunk ChunkFacts Rope RopeFacts RopeConvert RopeEdit.
From S2P Require Import RopeSlice Keyed TreeMap SumTree SumTreeSpec SumTreeFind Cursor CursorSpec CursorFacts.
From S2P Require Import Fragment RopeBuilder Buffer BufferFacts BufferSteps BufferLocal BufferInv BufferCommit.
From S2P Require Import BufferUndo BufferSeen BufferRemote BufferNew BufferTheorems BufferReplicas.
From S2P Require Import BufferRestores BufferSync BufferFollow Anchor AnchorFacts AnchorTheorems EditsSince.
#[local] Open Scope N_scope.

(** ** What a version has seen all of *)

Section seen.
Context (v : Global.t).
Implicit Types (f : Fragment) (l : list Fragment).

(** The version has seen everything that happened to the fragment. *)
Definition settled f : bool := negb (unobserved_by v (item_summary f)).

Lemma observe_below g t : (∀ r, Global.get (Global.observe g t) r ≤ Global.get v r) ↔
  (∀ r, Global.get g r ≤ Global.get v r) ∧ Global.observed v t = true.
Proof.
  rewrite Global.observed_iff. split.
  - intros H. split; [intros r|specialize (H (Lamport.replica_id t))]; [specialize (H r)|];
      rewrite Global.get_observe in H; destruct (decide _); try done; lia.
  - intros [H Ht] r. rewrite Global.get_observe. specialize (H r). destruct (decide _) as [->|]; lia.
Qed.

Lemma observes_below (l : list Lamport.t) : ∀ g, (∀ r, Global.get (foldl Global.observe g l) r ≤ Global.get v r) ↔
  (∀ r, Global.get g r ≤ Global.get v r) ∧ Forall (λ t, Global.observed v t = true) l.
Proof.
  induction l as [|t l IH]; intros g; cbn [foldl]; [rewrite Forall_nil; tauto|].
  rewrite IH, observe_below, Forall_cons. tauto.
Qed.

Lemma join_below g h : (∀ r, Global.get (Global.join g h) r ≤ Global.get v r) ↔
  (∀ r, Global.get g r ≤ Global.get v r) ∧ (∀ r, Global.get h r ≤ Global.get v r).
Proof.
  split; [intros H; split; intros r; specialize (H r); rewrite Global.get_join in H; lia|].
  intros [H1 H2] r. specialize (H1 r). specialize (H2 r). rewrite Global.get_join. lia.
Qed.

Lemma item_max_version f : max_version (item_summary f) =
  Global.join (foldl Global.observe (Global.observe Global.new (timestamp f)) (deletions f)) (max_undos f).
Proof. unfold item_summary, fragment_item. by destruct (visible f). Qed.

Lemma settled_iff f : Global.canonical (max_undos f) → settled f = true ↔
  Global.observed v (timestamp f) = true ∧ Forall (λ d, Global.observed v d = true) (deletions f) ∧
  ∀ r, Global.get (max_undos f) r ≤ Global.get v r.
Proof.
  intros Hc. unfold settled, unobserved_by. rewrite negb_involutive, item_max_version, Global.observed_all_iff.
  - rewrite join_below, observes_below, observe_below. split; [tauto|]. intros (H1 & H2 & H3). split_and!; try done.
    intros r. rewrite Global.get_new. lia.
  - apply Global.canonical_join; [|done]. apply Global.canonical_from_iter_acc, Global.canonical_observe, Global.canonical_new.
Qed.

Lemma sum_settled l : valid_items l → negb (unobserved_by v (sum_items l)) = forallb settled l.
Proof.
  intros Hl. apply Bool.eq_iff_eq_true. unfold settled, unobserved_by. rewrite negb_involutive.
  rewrite Global.observed_all_iff by apply (sum_items_valid l Hl).
  induction l as [|f l IH] using rev_ind.
  { split; [done|]. intros _ r. cbn. rewrite Global.get_new. lia. }
  apply Forall_app in Hl as [Hl [Hf _]%Forall_cons]. rewrite sum_snoc. cbn [max_version add_summary fragment_summary_summary].
  rewrite join_below, (IH Hl), List.forallb_app, andb_true_iff. cbn. rewrite andb_true_r, negb_involutive.
  by rewrite <- (Global.observed_all_iff v (max_version (item_summary f))) by apply Hf.
Qed.

Lemma since_sound l : valid_items l → sound_filter (unobserved_by v) l.
Proof.
  intros Hl l1 l2 l3 -> _ Hf. apply Forall_app in Hl as [_ [Hl _]%Forall_app].
  apply (f_equal negb) in Hf. rewrite (sum_settled l2 Hl) in Hf. cbn in Hf. rewrite List.forallb_forall in Hf.
  apply Forall_forall. intros f Hin%list_elem_of_In%Hf. unfold settled in Hin. by apply negb_true_iff in Hin.
Qed.
End seen.

(** ** The text as it was *)

Lemma undone_known v log e : (∀ u n, UndoMap.recorded e u n log → Global.observed v u = true) → undone_at v log e = undone log e.
Proof.
  intros Hall. unfold undone_at, undone. f_equal. apply N.le_antisymm; apply max_count_le; intros u c Hrec Hu.
  - by apply (proj1 (max_count_le (λ _, true) e log _) (N.le_refl _) u c).
  - apply (proj1 (max_count_le (λ u, Global.observed v u) e log _) (N.le_refl _) u c); eauto.
Qed.

(** What a version saw of some pieces. *)
Definition seen_text (v : Global.t) (log : list UndoMapEntry) (ps : list piece) : str := view (was_alive v log) (tagged ps).

Lemma seen_text_app v log l1 l2 : seen_text v log (l1 ++ l2) = seen_text v log l1 ++ seen_text v log l2.
Proof. unfold seen_text. by rewrite tagged_app, view_app. Qed.

Lemma seen_text_singleton v log p : seen_text v log [p] = if was_alive v log p.1 then p.2 else [].
Proof. unfold seen_text. by rewrite tagged_singleton, view_tag. Qed.

Section snapshot.
Context (v since : Global.t) (s : BufferSnapshot) (ps : list piece) (log : list UndoMapEntry).
Context (Hs : snapshot_ok v s ps) (Hlog : undo_map_of (undo_map s) log).

Lemma settled_visible p : p ∈ ps → settled since p.1 = true → was_alive since log p.1 = visible p.1.
Proof.
  intros Hp Hset. pose proof (ok_sized _ _ _ Hs) as Hsz. rewrite Forall_forall in Hsz. destruct (Hsz p Hp) as (_ & _ & _ & _ & Hc).
  apply (settled_iff since p.1 Hc) in Hset as (Ht & Hd & Hu).
  pose proof (flags_shown v s ps log Hs Hlog) as Hflags. rewrite Forall_forall in Hflags. rewrite <- (Hflags p Hp).
  pose proof Hlog as (_ & _ & _ & El & _). pose proof (ok_undone _ _ _ Hs) as Hundone. rewrite El, Forall_fmap, Forall_forall in Hundone.
  assert (∀ e, e = timestamp p.1 ∨ e ∈ deletions p.1 → undone_at since log e = undone log e) as Hsame.
  { intros e He. apply undone_known. intros u n Hrec. pose proof (Hundone p Hp e u n He Hrec) as Hobs. rewrite Global.observed_iff in *.
    specialize (Hu (Lamport.replica_id u)). cbn in Hobs. lia. }
  unfold was_alive, shown_under, counted. rewrite Ht, (Hsame (timestamp p.1)) by by left. cbn [andb]. f_equal.
  assert (∀ d, d ∈ deletions p.1 → negb (Global.observed since d) || undone_at since log d = undone log d) as Hdel.
  { intros d Hin. rewrite Forall_forall in Hd. rewrite (Hd d Hin), (Hsame d) by by right. done. }
  clear -Hdel. induction (deletions p.1) as [|d l IH]; [done|]. cbn. rewrite Hdel by by left. f_equal. apply IH. intros x Hx. apply Hdel. by right.
Qed.

Lemma settled_text l : (∀ p, p ∈ l → p ∈ ps) → Forall (λ p, settled since p.1 = true) l → seen_text since log l = vis_text l.
Proof.
  intros Hin Hl. induction Hl as [|p l Hp _ IH]; [done|]. change (p :: l) with ([p] ++ l).
  rewrite seen_text_app, vis_text_app, IH, seen_text_singleton, vis_text_singleton by (intros q Hq; apply Hin; by right).
  unfold vis. by rewrite settled_visible by (done || apply Hin; by left).
Qed.
End snapshot.

Section past.
Context (v0 : Global.t) (ts : Lamport.t) (Hts : Global.observed v0 ts = false).

Lemma element_past log e : el_ok ts e → view (was_alive v0 log) (tag (el_fragment e) (el_text e)) = view (was_alive v0 log) (src_bytes [e]).
Proof.
  intros (_ & _ & He). unfold src_bytes, source. cbn [mbind list_bind]. rewrite app_nil_r. destruct (el_origin e) as [|f|f|f].
  - destruct He as (He & _). rewrite view_tag. unfold was_alive, counted. by rewrite He, Hts.
  - by rewrite He.
  - destruct He as ((Ht & _) & _ & Hd). rewrite !view_tag. by rewrite (was_alive_same v0 log f) by done.
  - destruct He as ((Ht & _) & _ & Hd). rewrite !view_tag. unfold was_alive, counted. rewrite Ht, Hd, List.forallb_app. cbn.
    by rewrite Hts, !andb_true_r.
Qed.

Lemma edit_past log ps tr : Forall (el_ok ts) tr → src_bytes tr = tagged ps →
  seen_text v0 log (el_piece <$> tr) = seen_text v0 log ps.
Proof.
  intros Hok Hsrc. unfold seen_text. rewrite <- Hsrc. clear Hsrc. induction Hok as [|e tr He _ IH]; [done|].
  change (e :: tr) with ([e] ++ tr). rewrite fmap_app, tagged_app, src_bytes_app, !view_app, IH. f_equal.
  cbn [fmap list_fmap]. rewrite tagged_singleton. by apply element_past.
Qed.

Lemma undone_past log log' e : (∀ e u n, u ≠ ts → UndoMap.recorded e u n log' ↔ UndoMap.recorded e u n log) →
  undone_at v0 log' e = undone_at v0 log e.
Proof.
  intros Hrec. unfold undone_at. f_equal. apply max_count_ext. intros u c Hu. apply Hrec. intros ->. congruence.
Qed.

Lemma undo_past log log' ps ps' : Forall2 (reshown log') ps ps' →
  (∀ e u n, u ≠ ts → UndoMap.recorded e u n log' ↔ UndoMap.recorded e u n log) → seen_text v0 log' ps' = seen_text v0 log ps.
Proof.
  intros Hre Hrec. induction Hre as [|p q ps ps' (m & -> & _) _ IH]; [done|]. change (?x :: ?l) with ([x] ++ l).
  rewrite !seen_text_app, IH, !seen_text_singleton. f_equal. cbn [fst snd]. unfold was_alive, counted. cbn [timestamp deletions].
  rewrite (undone_past log log') by done. repeat f_equal.
  assert (forallb (λ d, negb (Global.observed v0 d) || undone_at v0 log' d) (deletions p.1) =
    forallb (λ d, negb (Global.observed v0 d) || undone_at v0 log d) (deletions p.1)) as ->; [|done].
  induction (deletions p.1) as [|d l IHd]; [done|]. cbn. by rewrite IHd, (undone_past log log').
Qed.
End past.

(** ** A buffer's pieces *)

Lemma pieces_same ps : ∀ qs, Forall sized ps → Forall sized qs → ps.*1 = qs.*1 → vis_text ps = vis_text qs → del_text ps = del_text qs → ps = qs.
Proof.
  induction ps as [|[f t] ps IH]; intros [|[g u] qs] Hps Hqs Hf Hv Hd; try done. injection Hf as <- Hf.
  apply Forall_cons in Hps as [(Ht & _) Hps]. apply Forall_cons in Hqs as [(Hu & _) Hqs]. cbn in Ht, Hu.
  change (?x :: ?l) with ([x] ++ l) in Hv, Hd. rewrite !vis_text_app, !vis_text_singleton in Hv. rewrite !del_text_app, !del_text_singleton in Hd.
  unfold vis, del in *. cbn [fst snd] in *.
  assert (t = u ∧ vis_text ps = vis_text qs ∧ del_text ps = del_text qs) as (-> & Hv' & Hd').
  { assert (length t = length u) as Hl by (unfold len in *; lia).
    destruct (visible f); [apply app_inj_1 in Hv as [-> ?]|apply app_inj_1 in Hd as [-> ?]]; done. }
  f_equal. by apply IH.
Qed.

Lemma pieces_unique b ps qs : buffer_wf b ps → buffer_wf b qs → ps = qs.
Proof.
  intros H1 H2. pose proof H1 as [[Hs1 _] _ _ _]. pose proof H2 as [[Hs2 _] _ _ _].
  apply pieces_same; [apply Hs1|apply Hs2|..].
  - destruct (ok_fragments _ _ _ Hs1) as (h & _ & <-). by destruct (ok_fragments _ _ _ Hs2) as (h2 & _ & <-).
  - by rewrite <- (wf_visible b ps), <- (wf_visible b qs).
  - by rewrite <- (wf_deleted b ps), <- (wf_deleted b qs).
Qed.

(** ** Whatever happens to a buffer *)

(** An edit, an undo or a redo of the user, or an operation of another replica that fits the buffer. *)
Inductive happens (b b' : Buffer) : Prop :=
  | happens_command c r : able b c → perform b c = Some (b', r) → happens b b'
  | happens_edit op ps : buffer_wf b ps → spacious (snapshot b) → authored op ps (to_list (undo_map (snapshot b))) →
      Global.observed (version (snapshot b)) (edit_timestamp op) = false →
      N.max (Lamport.value (lamport_clock b)) (Lamport.value (edit_timestamp op)) + 1 < U32 → apply_op b (Op_Edit op) = Some b' → happens b b'
  | happens_undo u : spacious (snapshot b) → Global.observed (version (snapshot b)) (undo_timestamp u) = false →
      N.max (Lamport.value (lamport_clock b)) (Lamport.value (undo_timestamp u)) + 1 < U32 →
      NoDup (counts u).*1 → base_timestamp ∉ (counts u).*1 → (∀ e, e ∈ (counts u).*1 → Global.observed (version (snapshot b)) e = true) →
      (∀ m, UndoMap.insert (undo_map (snapshot b)) u = Some m → low m) → apply_op b (Op_Undo u) = Some b' → happens b b'.

Inductive later (b : Buffer) : Buffer → Prop :=
  | later_same : later b b
  | later_step b1 b2 : later b b1 → happens b1 b2 → later b b2.

(** What has been seen so far. *)
Definition below (v0 v : Global.t) : Prop := ∀ r, Global.get v0 r ≤ Global.get v r.
Definition now_text (v0 : Global.t) (b : Buffer) (ps : list piece) : str := seen_text v0 (to_list (undo_map (snapshot b))) ps.

Lemma below_unobserved v0 v t : below v0 v → Global.observed v t = false → Global.observed v0 t = false.
Proof. intros Hb. rewrite <- !not_true_iff_false, !Global.observed_iff. specialize (Hb (Lamport.replica_id t)). lia. Qed.

Lemma below_observe v t : below v (Global.observe v t).
Proof. intros r. rewrite Global.get_observe. destruct (decide _) as [->|]; lia. Qed.

Lemma undo_log_of b log : undo_map_of (undo_map (snapshot b)) log → to_list (undo_map (snapshot b)) = log.
Proof. by intros (_ & _ & _ & -> & _). Qed.

(** An undo or a redo of the user. *)
Lemma turned_past b b' ps t u ps' log' v0 : buffer_wf b ps → turned_over b b' ps (to_list (undo_map (snapshot b))) t u ps' log' →
  below v0 (version (snapshot b)) → now_text v0 b' ps' = now_text v0 b ps.
Proof.
  intros Hwf [Hwf' Hlog' Hre Hf Hrec _ Hu1 Hu2 Hv Hc] Hb. unfold now_text. rewrite (undo_log_of _ _ Hlog').
  apply (undo_past v0 (lamport_clock b)); [|done|].
  - apply (below_unobserved _ _ _ Hb), unobserved, Hwf.
  - intros e w n Hw. rewrite (Hrec e w n), decide_False; [done|]. rewrite Hu1. by intros [-> _].
Qed.

Lemma happens_past b b' ps : buffer_wf b ps → happens b b' → ∃ ps', buffer_wf b' ps' ∧ below (version (snapshot b)) (version (snapshot b')) ∧
  ∀ v0, below v0 (version (snapshot b)) → now_text v0 b' ps' = now_text v0 b ps.
Proof.
  intros Hwf [c r (Hsp & Hdepth & Hc) Hp|op qs Hwfq Hsp Hauth Hobs Hclk Hp|u Hsp Hobs Hclk Hnd Hbase Hall Hlow Hp].
  - pose proof (log_of _ _ Hwf Hsp) as Hlog. pose proof Hsp as Hsp'. apply (spacious_roomy _ _ Hwf) in Hsp'. destruct c as [edits started ended| |]; cbn [perform] in Hp.
    + destruct (edit b edits started ended) as [[b1 op]|] eqn:E; [|done]. injection Hp as -> _.
      rewrite (wf_visible _ _ Hwf) in Hc. destruct Hc as (H1 & H2 & H3 & H4 & H5).
      destruct (edit_ok b ps edits started ended) as (b2 & op2 & els & rest & ops & h' & E2 & Hwf2 & Htr & Hsrc & _ & _ & _ & _ & _ & _ & Hv & _ & _ & _ & _ & Hum & _);
        [done..|]. rewrite E in E2. injection E2 as -> _.
      eexists. split; [done|]. split; [rewrite Hv; apply below_observe|]. intros v0 Hb. unfold now_text. rewrite Hum.
      apply (edit_past v0 (Lamport.tick (lamport_clock b)).2); [|apply Htr|done]. apply (below_unobserved _ _ _ Hb), unobserved.
      pose proof (wf_clock _ _ Hwf (Lamport.replica_id (lamport_clock b))). cbn [Lamport.tick snd Lamport.value Lamport.replica_id].
      rewrite wrap32_small by lia. lia.
    + destruct (undo_stack (history b)) as [|entry pre _] eqn:Estack using rev_ind.
      * unfold undo, pop_undo in Hp. rewrite Hdepth, Estack in Hp. cbn in Hp. rewrite with_own_history in Hp. injection Hp as <- _.
        exists ps. split; [done|]. by split; [intros ?|].
      * destruct (undo_ok b ps _ pre entry Hwf Hsp' Hlog) as (b2 & u & ps' & log' & E & Hover & _); [by eapply Hc|done|done|].
        rewrite E in Hp. injection Hp as <- _. exists ps'. split; [apply Hover|]. split; [rewrite (over_version _ _ _ _ _ _ _ _ Hover); apply below_observe|].
        intros v0. by eapply turned_past.
    + destruct (redo_stack (history b)) as [|entry pre _] eqn:Estack using rev_ind.
      * unfold redo, pop_redo in Hp. rewrite Hdepth, Estack in Hp. cbn in Hp. rewrite with_own_history in Hp. injection Hp as <- _.
        exists ps. split; [done|]. by split; [intros ?|].
      * destruct (redo_ok b ps _ pre entry Hwf Hsp' Hlog) as (b2 & u & ps' & log' & E & Hover & _); [by eapply Hc|done|done|].
        rewrite E in Hp. injection Hp as <- _. exists ps'. split; [apply Hover|]. split; [rewrite (over_version _ _ _ _ _ _ _ _ Hover); apply below_observe|].
        intros v0. by eapply turned_past.
  - rewrite (pieces_unique _ _ _ Hwfq Hwf) in *. pose proof (log_of _ _ Hwf Hsp) as Hlog. apply (spacious_roomy _ _ Hwf) in Hsp.
    destruct (apply_edit_ok b ps _ op Hwf Hsp Hlog Hobs Hclk Hauth) as (b2 & els & rest & fulls & E & Hwf2 & Htr & Hsrc & _ & _ & Hv & Hum & _).
    rewrite E in Hp. injection Hp as <-. eexists. split; [done|]. split; [rewrite Hv; apply below_observe|]. intros v0 Hb. unfold now_text. rewrite Hum.
    apply (edit_past v0 (edit_timestamp op)); [by eapply below_unobserved|apply Htr|done].
  - pose proof (log_of _ _ Hwf Hsp) as Hlog. apply (spacious_roomy _ _ Hwf) in Hsp.
    destruct (apply_undo_op_ok b ps _ u Hwf Hsp Hlog Hobs Hclk Hnd Hbase Hall Hlow) as (b2 & ps2 & log2 & E & Hwf2 & Hlog2 & Hre & Hrec & Hv & _).
    rewrite E in Hp. injection Hp as <-. exists ps2. split; [done|]. split; [rewrite Hv; apply below_observe|]. intros v0 Hb. unfold now_text.
    rewrite (undo_log_of _ _ Hlog2). apply (undo_past v0 (undo_timestamp u)); [by eapply below_unobserved|done|].
    intros e w n Hw. rewrite (Hrec e w n), decide_False; [done|]. by intros [? _].
Qed.

(** What a version saw of a buffer, it still sees of what became of it. *)
Lemma later_past b b' ps : buffer_wf b ps → later b b' → ∃ ps', buffer_wf b' ps' ∧ below (version (snapshot b)) (version (snapshot b')) ∧
  ∀ v0, below v0 (version (snapshot b)) → now_text v0 b' ps' = now_text v0 b ps.
Proof.
  intros Hwf. induction 1 as [|b1 b2 _ IH Hh]; [exists ps; split; [done|]; by split; [intros ?|]|].
  destruct IH as (ps1 & Hwf1 & Hb1 & Hp1). destruct (happens_past b1 b2 ps1 Hwf1 Hh) as (ps2 & Hwf2 & Hb2 & Hp2).
  exists ps2. split; [done|]. split; [intros r; specialize (Hb1 r); specialize (Hb2 r); lia|].
  intros v0 Hb. rewrite Hp2, (Hp1 v0 Hb); [done|]. intros r. specialize (Hb r). specialize (Hb1 r). lia.
Qed.
