(* ===== verification/EditsLoop.v ===== *)
(** * EditsLoop: the rounds of [Edits]

    [at_texts] ties the iterator to what it has passed of the two texts; each round, and so each
    [next], goes on in both as [describes] asks. *)

From S2P Require Import Prelude Clock Locator UndoMap OperationQueue Patch Subscription History Bits Utf8.
From S2P Require Import LineEnding PatchFacts TextSummary Chunk ChunkFacts Rope RopeFacts RopeConvert RopeEdit.
From S2P Require Import RopeSlice Keyed TreeMap SumTree SumTreeSpec SumTreeFind Cursor CursorSpec CursorFacts.
From S2P Require Import Fragment RopeBuilder Buffer BufferFacts BufferSteps BufferLocal BufferInv BufferCommit.
From S2P Require Import BufferUndo BufferSeen BufferRemote BufferNew BufferTheorems BufferReplicas.
From S2P Require Import BufferRestores BufferSync Anchor AnchorFacts AnchorTheorems EditsSince EditsFacts.
#[local] Open Scope N_scope.

(** ** Cursors before the rest of a text *)

Lemma before_seek c p rest : before c (p ++ rest) → utf8 p → ∃ c', rc_seek_forward c (rc_offset c + len p) = Some c' ∧
  before c' rest ∧ rc_offset c' = rc_offset c + len p.
Proof.
  intros (r & a & Hc & Hs & Ha & Hrest) Hp. pose proof (utf8_app_inv _ _ Hp Hrest) as Hrest'.
  pose proof Hs as (Hr & Hl & Hsh & _). rewrite (rc_at_offset _ _ _ _ Hc).
  destruct (rc_seek_forward_spec r (a ++ p ++ rest) Hr Hl c (len a) (len a + len p) Hc) as (c' & E & Hc'); [rewrite !len_app; lia|].
  exists c'. split; [done|]. split; [|by apply (rc_at_offset _ _ _ _ Hc')].
  exists r, (a ++ p). rewrite <- (assoc_L (++)), len_app. split_and!; [done|done|by apply utf8_app|done].
Qed.

Lemma before_summary {D} `{TextMeasure D, !DimensionLaws D ChunkSummary, !TextDimension D, !TextDimensionLaws D} c p rest :
  before c (p ++ rest) → utf8 p → ∃ c', rc_summary (D:=D) c (rc_offset c + len p) = Some (c', measure p) ∧
  before c' rest ∧ rc_offset c' = rc_offset c + len p.
Proof.
  intros (r & a & Hc & Hs & Ha & Hrest) Hp. pose proof (utf8_app_inv _ _ Hp Hrest) as Hrest'.
  pose proof Hs as (Hr & Hl & Hsh & _). rewrite (rc_at_offset _ _ _ _ Hc).
  destruct (rc_summary_spec (D:=D) r (a ++ p ++ rest) c (len a) (len a + len p) Hl Hc) as (c' & E & Hc'); [rewrite !len_app; lia|..].
  { by apply boundary_app. }
  { rewrite (assoc_L (++)), <- len_app. by apply boundary_app. }
  exists c'. split; [|split; [|by apply (rc_at_offset _ _ _ _ Hc')]].
  - rewrite E. repeat f_equal. replace (len a + len p - len a) with (len p) by lia. rewrite ldrop_app_len, ltake_app_l, ltake_ge by lia. done.
  - exists r, (a ++ p). rewrite <- (assoc_L (++)), len_app. split_and!; [done|done|by apply utf8_app|done].
Qed.

(** ** What is between two texts *)

(** More text measures more. *)
Class MeasureOrder (D : Type) `{TextMeasure D, !Ord D} : Prop := {
  measure_same (a : str) : ltb_ord (measure a : D) (measure a) = false;
  measure_grows (a u : str) : utf8 a → utf8 u → u ≠ [] → len (a ++ u) < 2 ^ 32 → ltb_ord (measure a : D) (measure (a ++ u)) = true
}.

#[export] Instance measure_order_usize : MeasureOrder N.
Proof.
  split; intros; [by apply not_true_iff_false; rewrite ltb_ord_spec; apply olt_irrefl|]. rewrite ltb_ord_spec. unfold olt. cbn.
  apply N.compare_lt_iff. rewrite len_app. destruct u; [done|]. rewrite len_cons. lia.
Qed.

#[export] Instance measure_order_point : MeasureOrder Point.
Proof.
  split; [intros a; unfold ltb_ord, cmp, ord_point; by rewrite N.compare_refl|]. intros a u _ _ Hu Hlen. rewrite ltb_ord_spec. unfold olt.
  change (measure a : Point) with (point_of a). change (measure (a ++ u) : Point) with (point_of (a ++ u)).
  rewrite cmp_point by (apply point_of_u32; rewrite ?len_app in *; lia). rewrite cmp_pair, point_of_app. unfold then_with, cmp, ord_N.
  unfold point_of, point_add; cbn [row column]. destruct (N.eqb_spec (rows u) 0) as [E|E]; cbn [row column].
  - rewrite N.compare_refl, N.compare_lt_iff, (last_line_0 u E). destruct u; [done|]. rewrite len_cons. lia.
  - assert (rows a < rows a + rows u) as Hlt by lia. by rewrite (proj2 (N.compare_lt_iff _ _) Hlt).
Qed.

Section describes.
Context {D : Type} `{TextMeasure D} (s : BufferSnapshot).

(** The edits lead from a text to another one, behind the prefixes [a] and [b]; the anchors are where
    the edits are in the text of [s]. *)
Inductive describes : str → str → list (Patch.Edit D * (Anchor * Anchor)) → str → str → Prop :=
  | describes_nil a b t : describes a b [] t t
  | describes_cons a b k o n sa ea es old new :
      a = [] ∧ b = [] ∨ k ≠ [] → o ≠ [] ∨ n ≠ [] →
      offset_for_anchor s sa = Some (len (b ++ k)) → offset_for_anchor s ea = Some (len (b ++ k ++ n)) →
      describes (a ++ k ++ o) (b ++ k ++ n) es old new →
      describes a b ((Patch.mk_edit (mk_range (measure (a ++ k)) (measure (a ++ k ++ o))) (mk_range (measure (b ++ k)) (measure (b ++ k ++ n))),
        (sa, ea)) :: es) (k ++ o ++ old) (k ++ n ++ new).
End describes.

(** ** The state of the iterator *)

Section rounds.
Context {D : Type} `{TextMeasure D, !DimensionLaws D ChunkSummary, !TextDimension D, !TextDimensionLaws D, !Ord D, !MeasureOrder D}.
Context (v since : Global.t) (s : BufferSnapshot) (ps : list piece) (log : list UndoMapEntry).
Context (Hs : snapshot_ok v s ps) (Hlog : undo_map_of (undo_map s) log).
Implicit Types (e : Edits D) (B R : list piece) (O Nw gap dgap : str).

Abbreviation was := (was_alive since log).
Abbreviation seen := (seen_text since log).

(** [O] and [Nw] are passed of the old text and of the new one, then [gap] of both, then come the fragments [R]. *)
Record at_texts e B R O Nw gap dgap : Prop := {
  at_pieces : ps = B ++ R;
  at_visible : before (visible_cursor e) (gap ++ vis_text R);
  at_visible_offset : rc_offset (visible_cursor e) = len Nw;
  at_deleted : before (deleted_cursor e) (dgap ++ del_text R);
  at_deleted_offset : rc_offset (deleted_cursor e) + len dgap = len (del_text B);
  at_new : Nw ++ gap = vis_text B;
  at_old : O ++ gap = seen B;
  at_utf8 : utf8 O ∧ utf8 Nw ∧ utf8 gap ∧ utf8 dgap;
  at_old_end : edits_old_end e = measure O;
  at_new_end : edits_new_end e = measure Nw;
  at_undo_map : edits_undos e = undo_map s;
  at_since : edits_since_version e = since;
  at_range : (range_start e).1 = Locator.min ∧ (range_end e).1 = Locator.max
}.

Record at_fragment e B R : Prop := {
  at_filter : filter_node (fragments_cursor e) = unobserved_by since;
  at_tree : cursor_tree (filter_cursor (fragments_cursor e)) = fragments s;
  at_items : cursor_at (filter_cursor (fragments_cursor e)) B.*1 R.*1
}.

Lemma prefix_ok B R : ps = B ++ R → Forall sized B ∧ Forall sized R ∧ Forall (λ p, loc_ok (id p.1)) R.
Proof.
  intros E. pose proof (ok_sized _ _ _ Hs) as Hsz. pose proof (ok_located _ _ _ Hs) as Hl. rewrite E in *.
  apply Forall_app in Hsz as [? ?]. apply Forall_app in Hl as [_ ?]. done.
Qed.

Lemma cursor_start_at e B R : at_fragment e B R → ps = B ++ R →
  filter_start (fragments_cursor e) = text_summary (len (vis_text B)) (len (del_text B)).
Proof.
  intros [_ _ Hc] E. destruct (prefix_ok B R E) as (HB & _). unfold filter_start, start. rewrite (at_position _ _ _ Hc). by apply pos_text.
Qed.

Lemma cursor_end_at e B p R : at_fragment e B (p :: R) → ps = B ++ p :: R →
  filter_end (fragments_cursor e) = Some (text_summary (len (vis_text (B ++ [p]))) (len (del_text (B ++ [p])))).
Proof.
  intros [_ _ Hc] E. destruct (prefix_ok B (p :: R) E) as (HB & [Hp _]%Forall_cons & _). unfold filter_end. rewrite (end_at _ _ _ Hc). cbn [fmap list_fmap].
  rewrite <- pos_text by (apply Forall_app; split; [done|by constructor]). by rewrite fmap_app.
Qed.

Lemma passed_short e B R O Nw gap dgap : at_texts e B R O Nw gap dgap → len (Nw ++ gap) < 2 ^ 32.
Proof.
  intros Ht. destruct (at_visible _ _ _ _ _ _ _ Ht) as (r & a & Hc & (_ & Hl & _) & _).
  pose proof (at_visible_offset _ _ _ _ _ _ _ Ht) as Ho. rewrite (rc_at_offset _ _ _ _ Hc) in Ho. rewrite !len_app in *. lia.
Qed.

(** ** The parts of a round *)

Lemma skip_unchanged_spec e B R O Nw gap dgap : at_fragment e B R → at_texts e B R O Nw gap dgap →
  ∃ e', skip_unchanged e = Some e' ∧ at_fragment e' B R ∧ at_texts e' B R (O ++ gap) (Nw ++ gap) [] dgap.
Proof.
  intros Hf [Hps Hv Hvo Hd Hdo Hn Ho (HuO & HuN & Hug & Hud) Heo Hen Hum Hsi Hr]. unfold skip_unchanged.
  rewrite (cursor_start_at e B R Hf Hps), Hvo, <- Hn, len_app. cbn [sum_visible].
  assert (utf8 (O ++ gap) ∧ utf8 (Nw ++ gap) ∧ utf8 [] ∧ utf8 dgap) as Hu by (split_and!; auto using utf8_app, utf8_nil).
  destruct (N.ltb_spec (len Nw) (len Nw + len gap)) as [Hlt|Hge].
  - destruct (before_summary (D:=D) _ _ _ Hv Hug) as (c & E & Hc & Hco). rewrite Hvo in E, Hco. rewrite E. cbn [mbind option_bind].
    eexists. split; [done|]. split; [by destruct Hf|]. split; try done; cbn [visible_cursor deleted_cursor with_visible edits_old_end edits_new_end].
    + by rewrite Hco, len_app.
    + by rewrite app_nil_r.
    + by rewrite app_nil_r.
    + rewrite Heo. by apply add_assign_measure.
    + rewrite Hen. by apply add_assign_measure.
  - destruct gap as [|x gap]; [|rewrite len_cons in Hge; lia]. rewrite !app_nil_r in *. exists e. split; [done|]. split; [exact Hf|].
    split; try done; by rewrite app_nil_r. 
Qed.

Lemma limit_spec e B p R O Nw gap dgap a b : at_texts e B (p :: R) O Nw gap dgap → limit e p.1 a b = b.
Proof.
  intros Ht. destruct (prefix_ok B (p :: R) (at_pieces _ _ _ _ _ _ _ Ht)) as (_ & _ & [[_ Hl] _]%Forall_cons). unfold limit.
  rewrite (proj2 (at_range _ _ _ _ _ _ _ Ht)), bool_decide_false; [done|]. intros E. rewrite E in Hl. by apply olt_irrefl in Hl.
Qed.

(** The anchors of a fragment stand at its ends. *)
Lemma fragment_anchors B p R i : ps = B ++ p :: R →
  offset_for_anchor s (anchor_new (timestamp p.1) (insertion_offset p.1) Right i) = Some (len (vis_text B)) ∧
  offset_for_anchor s (anchor_new (timestamp p.1) (wrap32 (insertion_offset p.1 + flen p.1)) Left i) = Some (len (vis_text (B ++ [p]))).
Proof.
  intros E. destruct (prefix_ok B (p :: R) E) as (_ & [(Hl & Hne & _ & Hb & _) _]%Forall_cons & _).
  assert (0 < flen p.1) as Hpos by (rewrite Hl; destruct p.2; [done|rewrite len_cons; lia]).
  rewrite wrap32_small by lia. split.
  - rewrite (offset_of_owner v s ps Hs B p R) by (done || (split; [by rewrite anchor_new_timestamp|cbn; lia])). cbn [anchor_offset anchor_new].
    f_equal. destruct (visible p.1); lia.
  - rewrite (offset_of_owner v s ps Hs B p R) by (done || (split; [by rewrite anchor_new_timestamp|cbn; lia])). cbn [anchor_offset anchor_new].
    f_equal. rewrite vis_text_app, len_app, vis_text_singleton. unfold vis. destruct (visible p.1); [lia|]. by change (len ([] : str)) with 0.
Qed.

(** The edit that is not finished leads from [O0] and [N0] to here. *)
Definition is_pending (pending : option (Patch.Edit D * (Anchor * Anchor))) (O0 N0 O Nw : str) : Prop :=
  match pending with
  | None => O = O0 ∧ Nw = N0
  | Some (c, (sa, ea)) => c = Patch.mk_edit (mk_range (measure O0) (measure O)) (mk_range (measure N0) (measure Nw)) ∧
      offset_for_anchor s sa = Some (len N0) ∧ offset_for_anchor s ea = Some (len Nw)
  end.

Lemma at_texts_next e e' B p R O Nw gap dgap O' Nw' gap' dgap' : at_texts e B (p :: R) O Nw gap dgap →
  edits_undos e' = edits_undos e → edits_since_version e' = edits_since_version e → range_start e' = range_start e → range_end e' = range_end e →
  before (visible_cursor e') (gap' ++ vis_text R) → rc_offset (visible_cursor e') = len Nw' →
  before (deleted_cursor e') (dgap' ++ del_text R) → rc_offset (deleted_cursor e') + len dgap' = len (del_text (B ++ [p])) →
  Nw' ++ gap' = vis_text (B ++ [p]) → O' ++ gap' = seen (B ++ [p]) → utf8 O' → utf8 Nw' → utf8 gap' → utf8 dgap' →
  edits_old_end e' = measure O' → edits_new_end e' = measure Nw' → at_texts e' (B ++ [p]) R O' Nw' gap' dgap'.
Proof.
  intros [Hps _ _ _ _ _ _ _ _ _ Hum Hsi Hr] Eu Es Ers Ere ????????????. split; try done; rewrite ?Eu, ?Es, ?Ers, ?Ere; try done. by rewrite <- (assoc_L (++)).
Qed.

Lemma change_spec e pending B p R O0 N0 O Nw dgap :
  at_fragment e B (p :: R) → at_texts e B (p :: R) O Nw [] dgap → is_pending pending O0 N0 O Nw →
  ∃ e' pending' o n gap' dgap', change e pending p.1 = Some (e', pending') ∧ fragments_cursor e' = fragments_cursor e ∧
    at_texts e' (B ++ [p]) R (O ++ o) (Nw ++ n) gap' dgap' ∧ is_pending pending' O0 N0 (O ++ o) (Nw ++ n) ∧
    seen [p] = o ++ gap' ∧ vis_text [p] = n ++ gap' ∧
    (pending' = pending ∧ o = [] ∧ n = [] ∨ is_Some pending' ∧ gap' = [] ∧ (o ≠ [] ∨ n ≠ [])).
Proof.
  intros Hf Ht Hpend. pose proof Ht as [Hps Hv Hvo Hd Hdo Hn Ho (HuO & HuN & Hug & Hud) Heo Hen Hum Hsi Hr].
  destruct (prefix_ok B (p :: R) Hps) as (HB & [Hp HR]%Forall_cons & _). pose proof Hp as (Hlen & Hne & Hup & _ & _).
  unfold change. rewrite (cursor_end_at e B p R Hf Hps), (cursor_start_at e B (p :: R) Hf Hps), Hum, Hsi, (was_visible_eq _ _ _ _ Hlog).
  cbn [mbind option_bind sum_visible sum_deleted]. rewrite !(limit_spec e B p R O Nw [] dgap) by done.
  destruct (fragment_anchors B p R (Some (edits_buffer_id e)) Hps) as [Hsa Hea]. rewrite app_nil_r in Hn, Ho.
  rewrite seen_text_singleton, vis_text_singleton. cbn [app] in Hv.
  change (p :: R) with ([p] ++ R) in Hv, Hd. rewrite vis_text_app, vis_text_singleton in Hv. rewrite del_text_app, del_text_singleton in Hd.
  assert (vis_text (B ++ [p]) = Nw ++ vis p) as HnB by (by rewrite vis_text_app, vis_text_singleton, Hn).
  assert (del_text (B ++ [p]) = del_text B ++ del p) as HdB by (by rewrite del_text_app, del_text_singleton).
  assert (seen (B ++ [p]) = O ++ if was p.1 then p.2 else []) as HoB by (by rewrite seen_text_app, seen_text_singleton, Ho).
  rewrite HnB, HdB, !len_app in *. unfold vis, del in *.
  destruct (was p.1) eqn:Hw, (visible p.1) eqn:Hvis; cbn [negb andb app] in *.
  - exists e, pending, [], [], p.2, dgap. rewrite !app_nil_r. split_and!; try done; [|by left].
    apply (at_texts_next e e B p R O Nw [] dgap O Nw p.2 dgap Ht); try done. by rewrite HdB, app_nil_r.
  - assert (∃ c, (if rc_offset (deleted_cursor e) <? len (del_text B) then rc_seek_forward (deleted_cursor e) (len (del_text B)) else Some (deleted_cursor e)) = Some c ∧
      before c (p.2 ++ del_text R) ∧ rc_offset c = len (del_text B)) as (c0 & -> & Hc0 & Hoff0).
    { destruct (N.ltb_spec (rc_offset (deleted_cursor e)) (len (del_text B))) as [Hlt|Hge].
      - rewrite <- Hdo. by apply before_seek.
      - destruct dgap as [|x dgap]; [|rewrite len_cons in Hdo; lia]. exists (deleted_cursor e). split_and!; [done|done|]. rewrite <- Hdo. cbn. lia. }
    cbn [mbind option_bind]. destruct (before_summary (D:=D) c0 p.2 (del_text R) Hc0 Hup) as (c & E & Hc & Hoff). rewrite Hoff0 in E, Hoff.
    rewrite E. cbn [mbind option_bind]. rewrite Heo, add_assign_measure by done.
    eexists _, _, p.2, [], [], []. rewrite !app_nil_r. split; [done|]. split; [done|]. split_and!; try done.
    + apply (at_texts_next e _ B p R O Nw [] dgap (O ++ p.2) Nw [] [] Ht); try done; cbn [visible_cursor deleted_cursor with_deleted edits_old_end edits_new_end];
        rewrite ?app_nil_r; try done; [by rewrite HdB, len_app, Hoff, N.add_0_r|by apply utf8_app].
    + unfold extend_old, is_pending in *. change (len ([] : str)) with 0 in Hea. rewrite N.add_0_r in Hea. destruct pending as [[c1 [sa ea]]|].
      * destruct Hpend as (-> & Hp1 & Hp2). done.
      * destruct Hpend as [-> ->]. rewrite <- Hn in Hsa. by rewrite Heo, Hen.
    + right. split_and!; [by eexists|done|by left].
  - destruct (before_summary (D:=D) _ p.2 (vis_text R) Hv Hup) as (c & E & Hc & Hoff). rewrite Hvo in E, Hoff.
    rewrite E. cbn [mbind option_bind]. rewrite Hen, add_assign_measure by done.
    eexists _, _, [], p.2, [], dgap. rewrite !app_nil_r. split; [done|]. split; [done|]. split_and!; try done.
    + apply (at_texts_next e _ B p R O Nw [] dgap O (Nw ++ p.2) [] dgap Ht); try done; cbn [visible_cursor deleted_cursor with_visible edits_old_end edits_new_end];
        rewrite ?app_nil_r; try done; [by rewrite len_app, Hoff|by rewrite HdB, app_nil_r|by apply utf8_app].
    + unfold extend_new, is_pending in *. rewrite len_app. destruct pending as [[c1 [sa ea]]|].
      * by destruct Hpend as (-> & Hp1 & Hp2).
      * destruct Hpend as [-> ->]. rewrite <- Hn in Hsa. by rewrite Heo, Hen.
    + right. split_and!; [by eexists|done|by right].
  - exists e, pending, [], [], [], (dgap ++ p.2). rewrite !app_nil_r. split_and!; try done; [|by left].
    apply (at_texts_next e e B p R O Nw [] dgap O Nw [] (dgap ++ p.2) Ht); try done; rewrite ?app_nil_r; try done.
    + by rewrite <- (assoc_L (++)).
    + rewrite HdB, !len_app. lia.
    + by apply utf8_app.
Qed.

(** What the filter passes over did not change. *)
Lemma break_settled (R : list piece) : ∃ sk rest, R = sk ++ rest ∧ break_at (unobserved_by since) R.*1 = (sk.*1, rest.*1) ∧
  Forall (λ p, settled since p.1 = true) sk.
Proof.
  induction R as [|p R (sk & rest & -> & E & Hsk)]; [by exists [], []|]. rewrite fmap_cons. cbn [break_at].
  destruct (unobserved_by since (item_summary p.1)) eqn:Hp; [by exists [], (p :: sk ++ rest)|].
  exists (p :: sk), rest. rewrite E. split_and!; [done|done|]. constructor; [|done]. unfold settled. by rewrite Hp.
Qed.

Lemma texts_settled e B sk rest O Nw gap dgap : at_texts e B (sk ++ rest) O Nw gap dgap → Forall (λ p, settled since p.1 = true) sk →
  seen sk = vis_text sk ∧ at_texts e (B ++ sk) rest O Nw (gap ++ vis_text sk) (dgap ++ del_text sk).
Proof.
  intros [Hps Hv Hvo Hd Hdo Hn Ho (HuO & HuN & Hug & Hud) Heo Hen Hum Hsi Hr] Hsk.
  destruct (prefix_ok B (sk ++ rest) Hps) as (_ & [Hsz _]%Forall_app & _).
  assert (seen sk = vis_text sk) as Hsame.
  { apply (settled_text v since s ps log Hs Hlog); [|done]. intros p Hp. rewrite Hps, !elem_of_app. auto. }
  split; [done|]. split; try done.
  - by rewrite <- (assoc_L (++)).
  - by rewrite <- (assoc_L (++)), <- vis_text_app.
  - by rewrite <- (assoc_L (++)), <- del_text_app.
  - rewrite del_text_app, !len_app. lia.
  - by rewrite vis_text_app, (assoc_L (++)), Hn.
  - by rewrite seen_text_app, (assoc_L (++)), Ho, Hsame.
  - split_and!; [done|done|apply utf8_app; [done|by apply vis_text_utf8]|apply utf8_app; [done|by apply del_text_utf8]].
Qed.

Lemma advance_spec e B p R O Nw gap dgap : at_fragment e B (p :: R) → at_texts e (B ++ [p]) R O Nw gap dgap →
  ∃ e' sk rest, advance e = Some e' ∧ R = sk ++ rest ∧ seen sk = vis_text sk ∧ at_fragment e' ((B ++ [p]) ++ sk) rest ∧
    at_texts e' ((B ++ [p]) ++ sk) rest O Nw (gap ++ vis_text sk) (dgap ++ del_text sk).
Proof.
  intros [Hf Htr Hc] Ht. destruct (break_settled R) as (sk & rest & -> & Eb & Hsk).
  destruct (prefix_ok (B ++ [p]) (sk ++ rest) (at_pieces _ _ _ _ _ _ _ Ht)) as (_ & Hsz & _).
  rewrite fmap_cons in Hc. destruct (search_forward_at (unobserved_by since) _ _ _ _ Hc) as (c' & E & Htr' & Hc').
  { by apply since_sound, sized_valid. }
  rewrite Eb in Hc'. cbn [fst snd] in Hc'. unfold advance, filter_next. rewrite Hf, E. cbn [mbind option_bind].
  destruct (texts_settled e _ _ _ _ _ _ _ Ht Hsk) as [Hsame Ht'].
  eexists _, sk, rest. split; [done|]. split; [done|]. split; [done|]. split.
  - split; [done|by rewrite <- Htr|]. by rewrite !fmap_app.
  - destruct Ht'. by split.
Qed.

(** ** The rounds *)

Lemma unfinished fuel e pending B p R O Nw gap dgap : at_fragment e B (p :: R) → at_texts e B (p :: R) O Nw gap dgap →
  edits_next (S fuel) e pending =
  (e ← skip_unchanged e;
   if match pending with Some (c, _) => ltb_ord (Patch.end_ (Patch.new c)) (edits_new_end e) | None => false end
   then Some (e, pending)
   else '(e, pending) ← change e pending p.1; e ← advance e; edits_next fuel e pending).
Proof.
  intros [_ _ Hc] Ht. destruct (prefix_ok B (p :: R) (at_pieces _ _ _ _ _ _ _ Ht)) as (_ & _ & [[Hwf Hl] _]%Forall_cons).
  cbn [edits_next]. unfold filter_item. rewrite (item_at _ _ _ Hc). cbn [fmap list_fmap head mbind option_bind].
  destruct (at_range _ _ _ _ _ _ _ Ht) as [-> ->].
  assert (∀ a b : Locator.t, a ≺ b → ltb_ord b a = false) as Hge.
  { intros a b Hab. apply not_true_iff_false. rewrite ltb_ord_spec. intros Hba. by apply (olt_irrefl a), (olt_trans _ b). }
  rewrite (Hge Locator.min), (Hge (id p.1)); [done|done|apply min_lt, Hwf].
Qed.

Lemma no_fragment fuel e pending B O Nw gap dgap : at_fragment e B [] → at_texts e B [] O Nw gap dgap →
  edits_next (S fuel) e pending = Some (e, pending).
Proof. intros [_ _ Hc] _. cbn [edits_next]. unfold filter_item. by rewrite (item_at _ _ _ Hc). Qed.

(** An edit goes on until text that did not change, or to the end. *)
Lemma finish_edit_spec fuel : ∀ e B R x O0 N0 o n gap dgap,
  at_fragment e B R → at_texts e B R (O0 ++ o) (N0 ++ n) gap dgap → is_pending (Some x) O0 N0 (O0 ++ o) (N0 ++ n) → (length R < fuel)%nat →
  o ≠ [] ∨ n ≠ [] →
  ∃ e' x' o' n' k B' R' gap' dgap', edits_next fuel e (Some x) = Some (e', Some x') ∧ is_pending (Some x') O0 N0 (O0 ++ o') (N0 ++ n') ∧
    at_fragment e' B' R' ∧ at_texts e' B' R' (O0 ++ o' ++ k) (N0 ++ n' ++ k) gap' dgap' ∧
    o ++ gap ++ seen R = o' ++ k ++ gap' ++ seen R' ∧ n ++ gap ++ vis_text R = n' ++ k ++ gap' ++ vis_text R' ∧
    (R' = [] ∨ k ≠ []) ∧ (o' ≠ [] ∨ n' ≠ []) ∧ (length R' ≤ length R)%nat.
Proof.
  induction fuel as [|fuel IH]; intros e B R x O0 N0 o n gap dgap Hf Ht Hp Hl Hon; [lia|]. destruct R as [|p R].
  - rewrite (no_fragment fuel e (Some x) B _ _ gap dgap Hf Ht).
    exists e, x, o, n, [], B, [], gap, dgap. rewrite !app_nil_r. split_and!; try done. by left.
  - rewrite (unfinished fuel e _ B p R _ _ gap dgap Hf Ht).
    destruct (skip_unchanged_spec e B _ _ _ gap dgap Hf Ht) as (e1 & -> & Hf1 & Ht1). cbn [mbind option_bind].
    pose proof (at_utf8 _ _ _ _ _ _ _ Ht) as (HuO & HuN & Hug & _).
    destruct x as [c [sa ea]]. pose proof Hp as (Hc & _). rewrite (at_new_end _ _ _ _ _ _ _ Ht1), Hc. cbn [Patch.new Patch.end_].
    destruct (decide (gap = [])) as [->|Hgap].
    + rewrite !app_nil_r in *. rewrite measure_same. 
      destruct (change_spec e1 (Some (c, (sa, ea))) B p R O0 N0 _ _ dgap Hf1 Ht1 Hp)
        as (e2 & pending2 & o1 & n1 & gap1 & dgap1 & Ech & Ecur & Ht2 & Hp2 & Ho1 & Hn1 & Hcase).
      rewrite <- Hc, Ech. cbn [mbind option_bind].
      assert (∃ x2, pending2 = Some x2) as [x2 ->] by (destruct Hcase as [[-> _]|[[x2 ->] _]]; eauto).
      assert (at_fragment e2 B (p :: R)) as Hf2 by (destruct Hf1; split; by rewrite Ecur).
      destruct (advance_spec e2 B p R _ _ _ _ Hf2 Ht2) as (e3 & sk & rest & -> & -> & Hsk & Hf3 & Ht3). cbn [mbind option_bind].
      rewrite <- !(assoc_L (++) _ o), <- !(assoc_L (++) _ n) in Hp2, Ht3.
      destruct (IH e3 _ rest x2 O0 N0 (o ++ o1) (n ++ n1) _ _ Hf3 Ht3 Hp2)
        as (e' & x' & o' & n' & k & B' & R' & gap' & dgap' & E & Hp' & Hf' & Ht' & Eo & En & Hk & Hon' & Hl');
        [rewrite length_cons, length_app in Hl; lia|destruct Hon; [left|right]; by destruct o, n|].
      exists e', x', o', n', k, B', R', gap', dgap'. split_and!; try done.
      * rewrite <- Eo. change (p :: sk ++ rest) with ([p] ++ sk ++ rest). rewrite !seen_text_app, Ho1, Hsk. by rewrite <- !(assoc_L (++)).
      * rewrite <- En. change (p :: sk ++ rest) with ([p] ++ sk ++ rest). rewrite !vis_text_app, Hn1. by rewrite <- !(assoc_L (++)).
      * rewrite length_cons, length_app. lia.
    + rewrite measure_grows by (done || by eapply passed_short). rewrite <- Hc. exists e1, (c, (sa, ea)), o, n, gap, B, (p :: R), [], dgap.
      rewrite <- !(assoc_L (++)) in Ht1. split_and!; try done. by right.
Qed.

Ltac flat H := repeat rewrite <- app_assoc in H.

(** One [next]. *)
Lemma next_spec fuel : ∀ e B R O Nw gap dgap,
  at_fragment e B R → at_texts e B R O Nw gap dgap → (length R < fuel)%nat →
  ∃ e' res, edits_next fuel e None = Some (e', res) ∧
    match res with
    | None => gap ++ seen R = gap ++ vis_text R
    | Some x => ∃ k o n k' B' R' gap' dgap', is_pending (Some x) (O ++ k) (Nw ++ k) (O ++ k ++ o) (Nw ++ k ++ n) ∧ (o ≠ [] ∨ n ≠ []) ∧
        at_fragment e' B' R' ∧ at_texts e' B' R' (O ++ k ++ o ++ k') (Nw ++ k ++ n ++ k') gap' dgap' ∧
        gap ++ seen R = k ++ o ++ k' ++ gap' ++ seen R' ∧ gap ++ vis_text R = k ++ n ++ k' ++ gap' ++ vis_text R' ∧
        (R' = [] ∨ k' ≠ []) ∧ (length R' < length R)%nat
    end.
Proof.
  induction fuel as [|fuel IH]; intros e B R O Nw gap dgap Hf Ht Hl; [lia|]. destruct R as [|p R].
  - rewrite (no_fragment fuel e None B _ _ gap dgap Hf Ht). by exists e, None.
  - rewrite (unfinished fuel e _ B p R _ _ gap dgap Hf Ht).
    destruct (skip_unchanged_spec e B _ _ _ gap dgap Hf Ht) as (e1 & -> & Hf1 & Ht1). cbn [mbind option_bind].
    destruct (change_spec e1 None B p R (O ++ gap) (Nw ++ gap) _ _ dgap Hf1 Ht1 (conj eq_refl eq_refl))
      as (e2 & pending2 & o1 & n1 & gap1 & dgap1 & -> & Ecur & Ht2 & Hp2 & Ho1 & Hn1 & Hcase). cbn [mbind option_bind].
    assert (at_fragment e2 B (p :: R)) as Hf2 by (destruct Hf1; split; by rewrite Ecur).
    destruct (advance_spec e2 B p R _ _ _ _ Hf2 Ht2) as (e3 & sk & rest & -> & -> & Hsk & Hf3 & Ht3). cbn [mbind option_bind].
    change (p :: sk ++ rest) with ([p] ++ sk ++ rest). rewrite !seen_text_app, !vis_text_app, Ho1, Hn1, Hsk.
    assert (length rest < fuel)%nat as Hlen by (rewrite length_cons, length_app in Hl; lia).
    destruct Hcase as [(-> & -> & ->)|((x2 & ->) & -> & Hon)].
    + rewrite !app_nil_r in Ht3. cbn [app] in *. destruct (IH e3 _ rest _ _ _ _ Hf3 Ht3 Hlen) as (e' & res & E & Hres). exists e', res. split; [done|].
      destruct res as [x|].
      * destruct Hres as (k & o & n & k' & B' & R' & gap' & dgap' & Hp' & Hon & Hf' & Ht' & Eo & En & Hk & Hl').
        exists (gap ++ k), o, n, k', B', R', gap', dgap'. flat Hp'. flat Ht'. flat Eo. flat En.
        split_and!; rewrite <- ?app_assoc; try done.
        -- by rewrite Eo.
        -- by rewrite En.
        -- rewrite length_cons, length_app. lia.
      * flat Hres. by rewrite Hres.
    + destruct (finish_edit_spec fuel e3 _ rest x2 (O ++ gap) (Nw ++ gap) o1 n1 _ _ Hf3 Ht3 Hp2 Hlen Hon)
        as (e' & x' & o' & n' & k & B' & R' & gap' & dgap' & E & Hp' & Hf' & Ht' & Eo & En & Hk & Hon' & Hl').
      exists e', (Some x'). split; [done|]. exists gap, o', n', k, B', R', gap', dgap'.
      flat Hp'. flat Ht'. cbn [app] in Eo, En. rewrite !app_nil_r. split_and!; try done.
      * flat Eo. by rewrite <- ?app_assoc, Eo.
      * flat En. by rewrite <- ?app_assoc, En.
      * rewrite !length_app. cbn. lia.
Qed.

(** All of them. *)
Lemma collect_spec inner fuel : ∀ e B R a b k0 gap dgap,
  at_fragment e B R → at_texts e B R (a ++ k0) (b ++ k0) gap dgap → (length R < fuel)%nat → (length R < inner)%nat →
  R = [] ∨ k0 ≠ [] ∨ a = [] ∧ b = [] →
  ∃ es, edits_collect fuel inner e = Some es ∧ describes s a b es (k0 ++ gap ++ seen R) (k0 ++ gap ++ vis_text R).
Proof.
  induction fuel as [|fuel IH]; intros e B R a b k0 gap dgap Hf Ht Hl Hi Hk0; [lia|]. cbn [edits_collect].
  destruct (next_spec inner e B R _ _ gap dgap Hf Ht Hi) as (e' & res & -> & Hres). cbn [mbind option_bind]. destruct res as [[c [sa ea]]|].
  - destruct Hres as (k & o & n & k' & B' & R' & gap' & dgap' & (-> & Hsa & Hea) & Hon & Hf' & Ht' & Eo & En & Hk & Hl').
    assert ((a ++ k0) ++ k ++ o ++ k' = (a ++ (k0 ++ k) ++ o) ++ k') as E1 by by rewrite <- !app_assoc.
    assert ((b ++ k0) ++ k ++ n ++ k' = (b ++ (k0 ++ k) ++ n) ++ k') as E2 by by rewrite <- !app_assoc.
    rewrite E1, E2 in Ht'. destruct (IH e' B' R' _ _ k' gap' dgap' Hf' Ht') as (es & -> & Hes); [lia|lia|destruct Hk; [by left|by right; left]|].
    cbn [mbind option_bind]. eexists. split; [done|]. rewrite Eo, En. flat Hsa. flat Hea. rewrite <- !app_assoc.
    rewrite (app_assoc k0 k (o ++ _)), (app_assoc k0 k (n ++ _)).
    rewrite (app_assoc k0 k o), (app_assoc k0 k n).
    apply describes_cons; [|done| | |done].
    + destruct Hk0 as [->|[Hk0|Hab]]; [cbn in Hl'; lia|right; by destruct k0|by left].
    + exact Hsa.
    + by rewrite <- !app_assoc.
  - exists []. split; [done|]. rewrite Hres. constructor.
Qed.
End rounds.
