(* ===== verification/VersionTheorems.v ===== *)
(** * VersionTheorems: a buffer remembers its past

    Whatever happened to a buffer since, the queries of [EditsSince] at a version that it had lead
    back to the text that it showed then: the edits since the version, the rope of the version and the
    offsets in it.  The first parts are about a snapshot and any version: [edits_since_spec] and
    [rope_for_version_spec] say it with the text that the version saw of the fragments. *)

From S2P Require Import Prelude Clock Locator UndoMap OperationQueue Patch Subscription History Bits Utf8.
From S2P Require Import LineEnding PatchFacts TextSummary Chunk ChunkFacts Rope RopeFacts RopeConvert RopeEdit.
From S2P Require Import RopeSlice Keyed TreeMap SumTree SumTreeSpec SumTreeFind SumTreeTheorems Cursor.
From S2P Require Import CursorSpec CursorFacts Fragment RopeBuilder Buffer BufferFacts BufferSteps BufferSeen.
From S2P Require Import BufferLocal BufferInv BufferCommit BufferUndo BufferRemote BufferNew BufferTheorems.
From S2P Require Import BufferReplicas BufferRestores BufferSync BufferFollow Anchor AnchorFacts AnchorTheorems.
From S2P Require Import EditsSince EditsFacts EditsLoop.
#[local] Open Scope N_scope.

(** ** The start *)

Lemma before_offset r t : sliceable r t → ∃ c, rope_cursor_at r 0 = Some c ∧ before c t ∧ rc_offset c = 0.
Proof.
  intros Hs. pose proof Hs as (Hr & Hl & Hsh & _).
  destruct (rope_cursor_at_spec r t Hr Hsh Hl 0) as (c & Hc & Hat); [lia|].
  exists c. split; [done|]. split; [|by apply (rc_at_offset _ _ _ _ Hat)].
  exists r, []. split_and!; [done|done|apply utf8_nil|by eapply sliceable_utf8].
Qed.

Section start.
Context (v since : Global.t) (s : BufferSnapshot) (ps : list piece) (log : list UndoMapEntry).
Context (Hs : snapshot_ok v s ps) (Hlog : undo_map_of (undo_map s) log) (Hroomy : roomy s ps).

(** The first fragment that the version has not seen all of. *)
Lemma fragments_since_spec : ∃ c sk rest, fragments_since s since = Some c ∧ ps = sk ++ rest ∧ Forall (λ p, settled since p.1 = true) sk ∧
  filter_node c = unobserved_by since ∧ cursor_tree (filter_cursor c) = fragments s ∧ cursor_at (filter_cursor c) sk.*1 rest.*1.
Proof.
  destruct (ok_fragments _ _ _ Hs) as (h & Hwf & Hl). destruct (break_settled since ps) as (sk & rest & Hps & Eb & Hsk).
  destruct (search_forward_start (unobserved_by since) (cursor_new (D:=FragmentTextSummary) (fragments s))) as (c & E & Htr & Hc).
  { apply (cursor_new_start h); [done|]. apply (low_wf h _ (roomy_fragments _ _ Hroomy) Hwf). }
  { cbn. rewrite Hl. apply since_sound, sized_valid, Hs. }
  cbn [cursor_new cursor_tree] in Hc, Htr. rewrite Hl, Eb in Hc. unfold fragments_since, filter_next. cbn [filter_new filter_cursor filter_node]. rewrite E.
  eexists _, sk, rest. split; [done|]. by split_and!.
Qed.

(** The start of the range is the start of the text. *)
Lemma find_min : ∃ e item, find (D:=option Locator.t * FragmentTextSummary) (fragments s) (seek_fst (seek_key (Some Locator.min))) Left =
  (dim_zero, e, item) ∧ match item with Some f => insertion_offset f = 0 | None => True end.
Proof.
  destruct (ok_fragments _ _ _ Hs) as (h & Hwf & Hl). destruct ps as [|p ps'] eqn:Eps.
  - pose proof (wf_is_empty _ _ Hwf) as He. rewrite Hl, bool_decide_true in He by done.
    destruct h as [|h]; destruct (fragments s) as [|? items ?]; try done; cbn in Hwf.
    destruct Hwf as (-> & -> & _). destruct items; [|done]. eexists _, None. split; [by cbn|done].
  - set (target := seek_fst (seek_key (Some Locator.min)) : SeekTarget (option Locator.t * FragmentTextSummary)).
    assert (∀ l d x, Forall (λ f, loc_ok (id f)) l → x ∈ ends d l → target x = Lt) as Hends.
    { induction l as [|f l IH]; intros d x Hok Hx; [by apply elem_of_nil in Hx|]. apply Forall_cons in Hok as [[[_ Hf] _] Hok].
      cbn [ends] in Hx. apply elem_of_cons in Hx as [->|Hx]; [|by eapply IH]. unfold target, seek_fst, seek_key, dim_add; cbn.
      rewrite item_max_id. by apply min_lt. }
    assert (Forall (λ f, loc_ok (id f)) (p :: ps').*1) as Hok by (apply Forall_fmap; apply (ok_located _ _ _ Hs)).
    destruct (sumtree_find (D:=option Locator.t * FragmentTextSummary) h (fragments s) target Left) as (st & e & r & _ & Hf & Hloc);
      [done|by rewrite Hl| |].
    { rewrite Hl. pose proof (λ x, Hends (p :: ps').*1 dim_zero x Hok) as H. unfold ascending. revert H. generalize (ends (D:=option Locator.t * FragmentTextSummary) dim_zero (p :: ps').*1) as es.
      induction es as [|x es IH]; intros H; [constructor|]. constructor; [apply IH; intros y Hy; apply H; by right|].
      apply Forall_forall. intros y Hy. rewrite (H x), (H y) by (by right + by left). done. }
    fold target. rewrite Hf. rewrite Hl in Hloc. destruct r as [[prev f]|].
    + destruct Hloc as (m1 & m2 & El & _ & -> & -> & Hskip & _). destruct m1 as [|f1 m1].
      * eexists _, (Some f). split; [done|]. rewrite (ok_tiled _ _ _ Hs [] f m2 El). done.
      * exfalso. cbn [ends] in Hskip. apply Forall_cons in Hskip as [Hskip _]. apply bool_decide_eq_false, dec_stable in Hskip.
        unfold behind in Hskip. rewrite (Hends (f1 :: m1) dim_zero) in Hskip; [by destruct Hskip as [|[? _]]| |by left].
        rewrite El in Hok. by apply Forall_app in Hok as [? _].
    + exfalso. destruct Hloc as [Hskip _]. cbn [fmap list_fmap ends] in Hskip. apply Forall_cons in Hskip as [Hskip _].
      apply bool_decide_eq_false, dec_stable in Hskip. unfold behind in Hskip.
      rewrite (Hends (p :: ps').*1 dim_zero) in Hskip; [by destruct Hskip as [|[? _]]|done|by left].
Qed.

Section dimension.
Context {D : Type} `{TextMeasure D, !DimensionLaws D ChunkSummary, !TextDimension D, !TextDimensionLaws D, !Ord D, !MeasureOrder D}.

Lemma edits_new_spec : ∃ e sk rest, edits_new (D:=D) s since anchor_MIN anchor_MAX = Some e ∧ ps = sk ++ rest ∧
  seen_text since log sk = vis_text sk ∧ at_fragment since s e sk rest ∧
  at_texts since s ps log e sk rest [] [] (vis_text sk) (del_text sk).
Proof.
  destruct fragments_since_spec as (c & sk & rest & Ec & Hps & Hsk & Hf & Htr & Hc).
  destruct find_min as (e & item & Efind & Hitem). destruct Hroomy as [_ _ _ _ Hv Hd].
  destruct (before_offset _ _ Hv) as (vc & Ev & Hvc & Hvo). destruct (before_offset _ _ Hd) as (dc & Ed & Hdc & Hdo).
  unfold edits_new. rewrite Ec. cbn [mbind option_bind].
  change (fragment_id_for_anchor s anchor_MIN) with (Some Locator.min). change (fragment_id_for_anchor s anchor_MAX) with (Some Locator.max).
  cbn [mbind option_bind]. rewrite Efind.
  assert (edits_start anchor_MIN (dim_zero (D:=option Locator.t * FragmentTextSummary)).2 item = (0, 0)) as ->.
  { unfold edits_start. destruct item as [f|]; [|done]. rewrite Hitem. by destruct (visible f). }
  rewrite Ev, Ed. cbn [mbind option_bind]. eexists _, sk, rest. split; [done|]. split; [done|].
  assert (at_texts since s ps log (mk_edits vc dc c (undo_map s) since (dim_zero (D:=D)) dim_zero (Locator.min, anchor_offset anchor_MIN)
    (Locator.max, anchor_offset anchor_MAX) (remote_id s)) [] (sk ++ rest) [] [] [] []) as Ht.
  { rewrite Hps in Hvc, Hdc. split; try done; try (cbn; by rewrite measure_nil); [cbn; by rewrite Hdo|].
    split_and!; apply utf8_nil. }
  apply (texts_settled v since s ps log Hs Hlog) in Ht as [Hsame Ht]; [|done]. split; [done|]. split; [by split|exact Ht].
Qed.
End dimension.
End start.

(** ** The edits since a version *)

Lemma wf_snapshot b ps : buffer_wf b ps → snapshot_ok (version (snapshot b)) (snapshot b) ps.
Proof. intros [[Hs _] _ _ _]. exact Hs. Qed.

Lemma seen_now b ps log : buffer_wf b ps → undo_map_of (undo_map (snapshot b)) log → seen_text (version (snapshot b)) log ps = vis_text ps.
Proof.
  intros Hwf Hlog. pose proof (all_alive _ _ _ _ (wf_snapshot b ps Hwf) Hlog) as Hall. unfold seen_text. rewrite <- view_visible. clear Hwf.
  induction Hall as [|p l [_ Hp] _ IH]; [done|]. change (p :: l) with ([p] ++ l). rewrite tagged_app, !view_app, IH, tagged_singleton, !view_tag.
  by rewrite Hp.
Qed.

Lemma edits_since_spec {D} `{TextMeasure D, !DimensionLaws D ChunkSummary, !TextDimension D, !TextDimensionLaws D, !Ord D, !MeasureOrder D}
    b ps log since : buffer_wf b ps → roomy (snapshot b) ps → undo_map_of (undo_map (snapshot b)) log →
  ∃ es, anchored_edits_since (D:=D) (snapshot b) since = Some es ∧ edits_since (D:=D) (snapshot b) since = Some (List.map fst es) ∧
    describes (snapshot b) [] [] es (seen_text since log ps) (vis_text ps).
Proof.
  intros Hwf Hroomy Hlog. pose proof (wf_snapshot b ps Hwf) as Hs.
  assert (∃ es, anchored_edits_since (D:=D) (snapshot b) since = Some es ∧ describes (snapshot b) [] [] es (seen_text since log ps) (vis_text ps)) as (es & E & Hd).
  { unfold anchored_edits_since, anchored_edits_since_in_range. case_bool_decide as Hv.
    - exists []. split; [done|]. rewrite Hv, (seen_now b ps log Hwf Hlog). constructor.
    - destruct (edits_new_spec _ since _ ps log Hs Hlog Hroomy (D:=D)) as (e & sk & rest & -> & Hps & Hsk & Hf & Ht). cbn [mbind option_bind].
      destruct (ok_fragments _ _ _ Hs) as (h & Hwft & Hl).
      assert (length rest < rounds (snapshot b))%nat as Hlen by (unfold rounds; rewrite Hl, length_fmap, Hps, length_app; lia).
      destruct (collect_spec _ since _ ps log Hs Hlog (rounds (snapshot b)) (rounds (snapshot b)) e sk rest [] [] [] _ _ Hf Ht Hlen Hlen)
        as (es & -> & Hd); [by right; right|]. exists es. split; [done|]. cbn [app] in Hd.
      rewrite Hps, seen_text_app, vis_text_app, Hsk. exact Hd. }
  exists es. split; [done|]. split; [|done]. unfold edits_since, edits_since_in_range. unfold anchored_edits_since in E. by rewrite E.
Qed.

Lemma rc_slice_offset c e c' r : rc_slice c e = Some (c', r) → rc_offset c' = e.
Proof.
  unfold rc_slice. intros H.
  repeat match type of H with
  | (if ?b then _ else _) = _ => destruct b; try done
  | mbind _ ?m = _ => destruct m as [?|]; cbn [mbind option_bind] in H; [|done]
  | (let '(_, _) := ?x in _) = _ => destruct x
  end; by injection H as <- _.
Qed.

Section version.
Context (v since : Global.t) (s : BufferSnapshot) (ps : list piece) (log : list UndoMapEntry).
Context (Hs : snapshot_ok v s ps) (Hlog : undo_map_of (undo_map s) log) (Hroomy : roomy s ps).

Abbreviation was := (was_alive since log).
Abbreviation seen := (seen_text since log).

Record filter_at (c : fragment_filter) (B R : list piece) : Prop := {
  filter_at_pieces : ps = B ++ R;
  filter_at_node : filter_node c = unobserved_by since;
  filter_at_items : cursor_at (filter_cursor c) B.*1 R.*1
}.

Lemma first_fragment : ∃ c sk rest, fragments_since s since = Some c ∧ filter_at c sk rest ∧ Forall (λ p, settled since p.1 = true) sk.
Proof.
  destruct (fragments_since_spec v since s ps Hs Hroomy) as (c & sk & rest & E & Hps & Hsk & Hf & _ & Hc).
  exists c, sk, rest. by split_and!.
Qed.

Lemma next_fragment c B p R : filter_at c B (p :: R) → ∃ c' sk rest, filter_next c = Some c' ∧ R = sk ++ rest ∧
  filter_at c' ((B ++ [p]) ++ sk) rest ∧ Forall (λ p, settled since p.1 = true) sk.
Proof.
  intros [Hps Hf Hc]. destruct (break_settled since R) as (sk & rest & -> & Eb & Hsk).
  rewrite fmap_cons in Hc. pose proof (ok_sized _ _ _ Hs) as Hsz. rewrite Hps in Hsz. apply Forall_app in Hsz as [_ [_ Hsz]%Forall_cons].
  destruct (search_forward_at (unobserved_by since) _ _ _ _ Hc) as (c' & E & Htr & Hc').
  { by apply since_sound, sized_valid. }
  rewrite Eb in Hc'. cbn [fst snd] in Hc'. unfold filter_next. rewrite Hf, E. cbn [mbind option_bind].
  eexists _, sk, rest. split; [done|]. split; [done|]. split; [|done]. split; [by rewrite Hps, <- !app_assoc|done|]. by rewrite !fmap_app.
Qed.

Lemma filter_item_at c B R : filter_at c B R → filter_item c = Some (fst <$> head R).
Proof. intros [_ _ Hc]. unfold filter_item. rewrite (item_at _ _ _ Hc). by destruct R. Qed.

(** ** Is there an edit? *)

Definition same_look (p : piece) : bool := eqb (was p.1) (visible p.1).

Lemma settled_same sk B R : ps = B ++ sk ++ R → Forall (λ p, settled since p.1 = true) sk → forallb same_look sk = true.
Proof.
  intros Hps Hsk. apply List.forallb_forall. intros p Hp%list_elem_of_In. rewrite Forall_forall in Hsk. unfold same_look.
  rewrite (settled_visible v since s ps log Hs Hlog); [by destruct (visible p.1)|rewrite Hps, !elem_of_app; auto|by apply Hsk].
Qed.

Lemma any_edit_spec fuel : ∀ c B R, filter_at c B R → (length R < fuel)%nat → any_edit s since fuel c = Some (negb (forallb same_look R)).
Proof.
  induction fuel as [|fuel IH]; intros c B R Hc Hl; [lia|]. cbn [any_edit]. rewrite (filter_item_at c B R Hc). destruct R as [|p R]; [done|].
  cbn [fmap option_fmap option_map head mbind option_bind]. rewrite (was_visible_eq _ _ _ _ Hlog). cbn [mbind option_bind forallb].
  change (eqb (was p.1) (visible p.1)) with (same_look p). destruct (same_look p) eqn:Hp; [|done]. cbn [negb andb].
  destruct (next_fragment c B p R Hc) as (c' & sk & rest & -> & -> & Hc' & Hsk). cbn [mbind option_bind].
  rewrite (IH c' _ rest Hc') by (rewrite length_cons, length_app in Hl; lia). f_equal. f_equal.
  pose proof (settled_same sk (B ++ [p]) rest) as Hsame. rewrite List.forallb_app, Hsame; [done| |done]. by rewrite (filter_at_pieces _ _ _ Hc), <- app_assoc.
Qed.

Lemma same_text l : forallb same_look l = true → seen l = vis_text l.
Proof.
  induction l as [|p l IH]; [done|]. cbn [forallb]. intros [Hp Hl]%andb_true_iff. change (p :: l) with ([p] ++ l).
  rewrite seen_text_app, vis_text_app, seen_text_singleton, vis_text_singleton, IH by done. apply eqb_prop in Hp. unfold vis. by rewrite Hp.
Qed.

Lemma has_edits_since_spec : has_edits_since s since =
  Some (if bool_decide (since = version s) then false else negb (forallb same_look ps)).
Proof.
  unfold has_edits_since. case_bool_decide; [done|]. destruct first_fragment as (c & sk & rest & -> & Hc & Hsk). cbn [mbind option_bind].
  pose proof (filter_at_pieces _ _ _ Hc) as Hps. destruct (ok_fragments _ _ _ Hs) as (h & Hwft & Hl).
  rewrite (any_edit_spec _ c sk rest Hc) by (unfold rounds; rewrite Hl, length_fmap, Hps, length_app; lia).
  pose proof (settled_same sk [] rest Hps Hsk) as Hsame. by rewrite Hps, List.forallb_app, Hsame.
Qed.

(** ** The rope of the version *)

Lemma filter_start_at c B R : filter_at c B R → filter_start c = text_summary (len (vis_text B)) (len (del_text B)).
Proof.
  intros [Hps _ Hc]. pose proof (ok_sized _ _ _ Hs) as Hsz. rewrite Hps in Hsz. apply Forall_app in Hsz as [HB _].
  unfold filter_start, start. rewrite (at_position _ _ _ Hc). by apply pos_text.
Qed.

Lemma filter_end_at c B p R : filter_at c B (p :: R) →
  filter_end c = Some (text_summary (len (vis_text (B ++ [p]))) (len (del_text (B ++ [p])))).
Proof.
  intros [Hps _ Hc]. pose proof (ok_sized _ _ _ Hs) as Hsz. rewrite Hps in Hsz. apply Forall_app in Hsz as [HB [Hp _]%Forall_cons].
  unfold filter_end. rewrite (end_at _ _ _ Hc). cbn [fmap list_fmap].
  rewrite <- pos_text by (apply Forall_app; split; [done|by constructor]). by rewrite fmap_app.
Qed.

(** The rope holds what the version saw of [B], less [gap] of the text that did not change; [dgap] is not passed of the deleted text. *)
Record roped_to (rope : Rope) (vc dc : RopeCursor) (B R : list piece) (O gap dgap : str) : Prop := {
  roped_rope : rope_inv rope O;
  roped_visible : before vc (gap ++ vis_text R);
  roped_visible_offset : rc_offset vc + len gap = len (vis_text B);
  roped_deleted : before dc (dgap ++ del_text R);
  roped_deleted_offset : rc_offset dc + len dgap = len (del_text B);
  roped_seen : O ++ gap = seen B;
  roped_utf8 : utf8 gap ∧ utf8 dgap
}.

Lemma append_slice rope O c p rest : rope_inv rope O → before c (p ++ rest) → utf8 p →
  ∃ c' t rope', rc_slice c (rc_offset c + len p) = Some (c', t) ∧ rope_append rope t = Some rope' ∧ rope_inv rope' (O ++ p) ∧
    before c' rest ∧ rc_offset c' = rc_offset c + len p.
Proof.
  intros Hr Hc Hp. destruct (before_slice c p rest Hc Hp) as (c' & t & E & Hc' & Ht & Hsh).
  destruct (rope_append_spec rope O t p Hr Ht Hsh) as (rope' & Er & Hr'). exists c', t, rope'. split_and!; try done. by eapply rc_slice_offset.
Qed.

Lemma append_unchanged_spec rope vc dc B R O gap dgap : roped_to rope vc dc B R O gap dgap →
  ∃ rope' vc', append_unchanged rope vc (len (vis_text B)) = Some (rope', vc') ∧ roped_to rope' vc' dc B R (O ++ gap) [] dgap.
Proof.
  intros [Hr Hv Hvo Hd Hdo Ho [Hug Hud]]. unfold append_unchanged. rewrite <- Hvo. destruct (N.ltb_spec (rc_offset vc) (rc_offset vc + len gap)) as [Hlt|Hge].
  - destruct (append_slice rope O vc gap _ Hr Hv Hug) as (c' & t & rope' & -> & Er & Hr' & Hc' & Hoff). cbn [mbind option_bind]. rewrite Er.
    eexists _, _. split; [done|]. split; try done; [change (len ([] : str)) with 0; lia|by rewrite app_nil_r|split; [apply utf8_nil|done]].
  - destruct gap as [|x gap]; [|rewrite len_cons in Hge; lia]. exists rope, vc. split; [done|]. rewrite app_nil_r. by split.
Qed.

Lemma roped_next rope vc dc B p R O gap dgap : rope_inv rope O → before vc (gap ++ vis_text R) → rc_offset vc + len gap = len (vis_text B ++ vis p) →
  before dc (dgap ++ del_text R) → rc_offset dc + len dgap = len (del_text B ++ del p) →
  O ++ gap = seen B ++ (if was p.1 then p.2 else []) → utf8 gap → utf8 dgap → roped_to rope vc dc (B ++ [p]) R O gap dgap.
Proof.
  intros Hr Hv Hvo Hd Hdo Ho Hug Hud. split; try done.
  - by rewrite vis_text_app, vis_text_singleton.
  - by rewrite del_text_app, del_text_singleton.
  - by rewrite seen_text_app, seen_text_singleton.
Qed.

Lemma version_step_spec c rope vc dc B p R O dgap : filter_at c B (p :: R) → roped_to rope vc dc B (p :: R) O [] dgap →
  ∃ rope' vc' dc' O' gap' dgap', version_step s since p.1 c rope vc dc = Some (rope', vc', dc') ∧ roped_to rope' vc' dc' (B ++ [p]) R O' gap' dgap'.
Proof.
  intros Hc [Hr Hv Hvo Hd Hdo Ho [_ Hud]]. pose proof (filter_at_pieces _ _ _ Hc) as Hps. pose proof (ok_sized _ _ _ Hs) as Hsz. rewrite Hps in Hsz.
  apply Forall_app in Hsz as [_ [(_ & _ & Hup & _) _]%Forall_cons].
  unfold version_step. rewrite (filter_end_at c B p R Hc), (filter_start_at c B _ Hc), (was_visible_eq _ _ _ _ Hlog).
  cbn [mbind option_bind sum_visible sum_deleted]. cbn [app] in Hv. change (p :: R) with ([p] ++ R) in Hv, Hd.
  assert (len ([] : str) = 0) as E0 by done. rewrite E0, N.add_0_r in Hvo. rewrite app_nil_r in Ho.
  rewrite vis_text_app, vis_text_singleton in Hv. rewrite del_text_app, del_text_singleton in Hd.
  rewrite vis_text_app, vis_text_singleton, del_text_app, del_text_singleton. pose proof (roped_next) as Hnext. unfold vis, del in *.
  destruct (was p.1) eqn:Hw, (visible p.1) eqn:Hvis; cbn [app] in Hv, Hd.
  - destruct (append_slice rope O vc p.2 _ Hr Hv Hup) as (c' & t & rope' & E & Er & Hr' & Hc' & Hoff). rewrite len_app, <- Hvo, E.
    cbn [mbind option_bind]. rewrite Er. eexists _, _, _, (O ++ p.2), [], dgap. split; [done|].
    apply Hnext; rewrite ?Hw, ?Hvis, ?app_nil_r, ?len_app, ?E0; try done; [lia|by rewrite Ho|apply utf8_nil].
  - destruct (before_seek dc dgap _ Hd Hud) as (c1 & E1 & Hc1 & Ho1). rewrite <- Hdo, E1. cbn [mbind option_bind].
    destruct (append_slice rope O c1 p.2 _ Hr Hc1 Hup) as (c' & t & rope' & E & Er & Hr' & Hc' & Hoff). rewrite len_app, <- Hdo, <- Ho1, E.
    cbn [mbind option_bind]. rewrite Er. eexists _, _, _, (O ++ p.2), [], []. split; [done|].
    apply Hnext; rewrite ?Hw, ?Hvis, ?app_nil_r, ?len_app, ?E0; try done; try lia; [by rewrite Ho|apply utf8_nil..].
  - destruct (before_seek vc p.2 _ Hv Hup) as (c' & E & Hc' & Hoff). rewrite len_app, <- Hvo, E. cbn [mbind option_bind].
    eexists _, _, _, O, [], dgap. split; [done|].
    apply Hnext; rewrite ?Hw, ?Hvis, ?app_nil_r, ?len_app, ?E0; try done; [lia|apply utf8_nil].
  - eexists _, _, _, O, [], (dgap ++ p.2). split; [done|].
    apply Hnext; rewrite ?Hw, ?Hvis, ?app_nil_r, ?len_app, ?E0; try done; [lia|by rewrite <- app_assoc|lia|apply utf8_nil|by apply utf8_app].
Qed.

(** The text of the fragments that the filter passes over is not passed by the cursors. *)
Lemma roped_settled rope vc dc B sk R O gap dgap : ps = B ++ sk ++ R → Forall (λ p, settled since p.1 = true) sk →
  roped_to rope vc dc B (sk ++ R) O gap dgap → roped_to rope vc dc (B ++ sk) R O (gap ++ vis_text sk) (dgap ++ del_text sk).
Proof.
  intros Hps Hsk [Hr Hv Hvo Hd Hdo Ho [Hug Hud]]. pose proof (ok_sized _ _ _ Hs) as Hsz. rewrite Hps in Hsz. apply Forall_app in Hsz as [_ [Hsz _]%Forall_app].
  assert (seen sk = vis_text sk) as Hsame by (apply (settled_text v since s ps log Hs Hlog); [intros p Hp; rewrite Hps, !elem_of_app; auto|done]).
  rewrite vis_text_app in Hv. rewrite del_text_app in Hd.
  split; rewrite ?vis_text_app, ?del_text_app, ?len_app; try lia; try (by rewrite <- app_assoc); [done| |].
  - by rewrite app_assoc, Ho, seen_text_app, Hsame.
  - split; apply utf8_app; [done|by apply vis_text_utf8|done|by apply del_text_utf8].
Qed.

Lemma version_loop_spec fuel : ∀ c rope vc dc B R O gap dgap, filter_at c B R → roped_to rope vc dc B R O gap dgap → (length R < fuel)%nat →
  ∃ r, version_loop s since fuel c rope vc dc = Some r ∧ rope_inv r (seen ps).
Proof.
  induction fuel as [|fuel IH]; intros c rope vc dc B R O gap dgap Hc Ht Hl; [lia|]. cbn [version_loop].
  rewrite (filter_item_at c B R Hc), (filter_start_at c B R Hc). cbn [mbind option_bind sum_visible].
  destruct (append_unchanged_spec _ _ _ _ _ _ _ _ Ht) as (rope1 & vc1 & -> & Ht1). cbn [mbind option_bind]. destruct R as [|p R].
  - cbn [head fmap option_fmap option_map]. eexists. split; [done|]. pose proof (roped_seen _ _ _ _ _ _ _ _ Ht1) as Ho.
    rewrite (filter_at_pieces _ _ _ Hc), !app_nil_r in *. rewrite <- Ho. apply Ht1.
  - cbn [head fmap option_fmap option_map]. destruct (version_step_spec c _ _ _ _ _ _ _ _ Hc Ht1) as (rope2 & vc2 & dc2 & O2 & gap2 & dgap2 & -> & Ht2).
    cbn [mbind option_bind]. destruct (next_fragment c B p R Hc) as (c' & sk & rest & -> & -> & Hc' & Hsk). cbn [mbind option_bind].
    eapply IH; [exact Hc'| |rewrite length_cons, length_app in Hl; lia]. apply roped_settled; [|done|exact Ht2].
    by rewrite (filter_at_pieces _ _ _ Hc), <- app_assoc.
Qed.

Lemma rope_for_version_spec : ∃ r, rope_for_version s since = Some r ∧ rope_inv r (seen ps).
Proof.
  destruct first_fragment as (c & sk & rest & E & Hc & Hsk). destruct Hroomy as [_ _ _ _ Hv Hd].
  destruct (before_offset _ _ Hv) as (vc & Ev & Hvc & Hvo). destruct (before_offset _ _ Hd) as (dc & Ed & Hdc & Hdo).
  unfold rope_for_version. rewrite E, Ev, Ed. cbn [mbind option_bind]. pose proof (filter_at_pieces _ _ _ Hc) as Hps.
  destruct (ok_fragments _ _ _ Hs) as (h & Hwft & Hl). rewrite Hps in Hvc, Hdc.
  eapply version_loop_spec; [exact Hc| |unfold rounds; rewrite Hl, length_fmap, Hps, length_app; lia].
  apply (roped_settled rope_new vc dc [] sk rest [] [] []); [done|done|]. split; try done; [by apply rope_inv_new|by rewrite Hvo|by rewrite Hdo|].
  split; apply utf8_nil.
Qed.
End version.

(** ** What became of a buffer *)

Lemma later_text b b' ps : buffer_wf b ps → spacious (snapshot b) → later b b' → spacious (snapshot b') →
  ∃ ps' log, buffer_wf b' ps' ∧ roomy (snapshot b') ps' ∧ undo_map_of (undo_map (snapshot b')) log ∧
    seen_text (version (snapshot b)) log ps' = vis_text ps.
Proof.
  intros Hwf Hsp Hlater Hsp'. destruct (later_past b b' ps Hwf Hlater) as (ps' & Hwf' & _ & Hpast).
  pose proof (log_of _ _ Hwf Hsp) as Hlog. pose proof (log_of _ _ Hwf' Hsp') as Hlog'. apply (spacious_roomy _ _ Hwf') in Hsp'.
  exists ps', (to_list (undo_map (snapshot b'))). split_and!; [done..|]. specialize (Hpast (version (snapshot b))). unfold now_text in Hpast.
  rewrite Hpast by (by intros ?). by apply seen_now.
Qed.

(** ** The edits since a version *)

(** C3: after whatever happened to a buffer, its own edits, undos and redos and those of other replicas,
    [edits_since] its version from before returns the edits that lead from the text of then to the text of now,
    in bytes and in points alike; they are not empty, there is text between them that did not change, and their
    anchors resolve to where they are in the text of now. *)
Theorem edits_since_describe b b' ps : buffer_wf b ps → spacious (snapshot b) → later b b' → spacious (snapshot b') →
  ∃ ps' es points, buffer_wf b' ps' ∧
    anchored_edits_since (D:=N) (snapshot b') (version (snapshot b)) = Some es ∧
    edits_since (D:=N) (snapshot b') (version (snapshot b)) = Some (List.map fst es) ∧
    describes (snapshot b') [] [] es (vis_text ps) (vis_text ps') ∧
    anchored_edits_since (D:=Point) (snapshot b') (version (snapshot b)) = Some points ∧
    edits_since (D:=Point) (snapshot b') (version (snapshot b)) = Some (List.map fst points) ∧
    describes (snapshot b') [] [] points (vis_text ps) (vis_text ps').
Proof.
  intros Hwf Hsp Hlater Hsp'. destruct (later_text b b' ps Hwf Hsp Hlater Hsp') as (ps' & log & Hwf' & Hroomy & Hlog & Ht).
  destruct (edits_since_spec (D:=N) b' ps' log (version (snapshot b)) Hwf' Hroomy Hlog) as (es & Ea & Ee & Hd).
  destruct (edits_since_spec (D:=Point) b' ps' log (version (snapshot b)) Hwf' Hroomy Hlog) as (points & Pa & Pe & Hp).
  rewrite Ht in Hd, Hp. exists ps', es, points. by split_and!.
Qed.

(** C7: [rope_for_version] of a version that a buffer had is the rope of the text that it showed then,
    whatever happened to it since, and if [has_edits_since] finds nothing then its text is still the same. *)
Theorem rope_for_version_past b b' ps : buffer_wf b ps → spacious (snapshot b) → later b b' → spacious (snapshot b') →
  ∃ ps' r changed, buffer_wf b' ps' ∧ rope_for_version (snapshot b') (version (snapshot b)) = Some r ∧ rope_inv r (vis_text ps) ∧
    has_edits_since (snapshot b') (version (snapshot b)) = Some changed ∧ (changed = false → vis_text ps' = vis_text ps).
Proof.
  intros Hwf Hsp Hlater Hsp'. destruct (later_text b b' ps Hwf Hsp Hlater Hsp') as (ps' & log & Hwf' & Hroomy & Hlog & Ht).
  pose proof (wf_snapshot _ _ Hwf') as Hs. destruct (rope_for_version_spec _ (version (snapshot b)) _ _ _ Hs Hlog Hroomy) as (r & Er & Hr).
  rewrite Ht in Hr. eexists ps', r, _. split_and!; [done..|by eapply has_edits_since_spec|].
  case_bool_decide as Hv; [intros _; by rewrite <- Ht, Hv, (seen_now b' ps' log Hwf' Hlog)|].
  intros Hsame%negb_false_iff. rewrite <- Ht. symmetry. by apply same_text.
Qed.

(** ** Offsets in an older version *)

Section offsets.
Context (s : BufferSnapshot).
Implicit Types (x r : N) (edits : list (Patch.Edit N)).

Definition apart edits x : Prop := Forall (λ e, x < Patch.start (Patch.new e) ∨ Patch.end_ (Patch.new e) ≤ x) edits.

(** The place [r] of the old text belongs to [x] of the new one: the same byte follows it, or [x] is in new text and [r] in what it replaced. *)
Definition belongs edits (old new : str) x r : Prop :=
  r ≤ len old ∧ (apart edits x ∧ old !! N.to_nat r = new !! N.to_nat x ∨
    ∃ e, e ∈ edits ∧ Patch.start (Patch.new e) ≤ x < Patch.end_ (Patch.new e) ∧ Patch.start (Patch.old e) ≤ r ≤ Patch.end_ (Patch.old e)).

Lemma describes_behind a b es old new : describes (D:=N) s a b es old new → ∀ x, x < len b → apart (List.map fst es) x.
Proof.
  induction 1 as [|a b k o n sa ea es old new _ _ _ _ _ IH]; intros x Hx; cbn [List.map fst]; constructor.
  - left. cbn. rewrite len_app. lia.
  - apply IH. rewrite !len_app. lia.
Qed.

(** The bytes behind [a] and [b] are the same as far as [k] goes. *)
Lemma same_place (a b k t u : str) x : len b ≤ x → x < len (b ++ k) →
  (a ++ k ++ t) !! N.to_nat (len a + (x - len b)) = (b ++ k ++ u) !! N.to_nat x ∧ len a + (x - len b) ≤ len (a ++ k ++ t).
Proof.
  intros Hb Hx. rewrite len_app in Hx. split; [|rewrite !len_app; lia]. unfold len in *.
  rewrite (lookup_app_r a), (lookup_app_r b) by lia.
  replace (N.to_nat (N.of_nat (length a) + (x - N.of_nat (length b))) - length a)%nat with (N.to_nat x - length b)%nat by lia.
  rewrite !lookup_app_l by lia. done.
Qed.

(** Every offset is looked up behind the one before it. *)
Lemma offset_to_version_spec a b es old new x : describes (D:=N) s a b es old new → len b ≤ x → x ≤ len (b ++ new) → x < 2 ^ 64 →
  ∃ passed es' a' b' old' new' r, offset_to_version (List.map fst es) (len a) (len b) x = (List.map fst es', len a', len b', r) ∧
    es = passed ++ es' ∧ Forall (λ e, Patch.end_ (Patch.new e.1) ≤ x) passed ∧ describes s a' b' es' old' new' ∧
    a' ++ old' = a ++ old ∧ b' ++ new' = b ++ new ∧ len b' ≤ x ∧ belongs (List.map fst es) (a ++ old) (b ++ new) x r.
Proof.
  intros Hd. induction Hd as [a b t|a b k o n sa ea es old new Hk Hon Hsa Hea Hd IH]; intros Hb Hx Hx64.
  - exists [], [], a, b, t, t, (len a + (x - len b)). split; [done|]. split; [done|]. split; [constructor|]. split; [constructor|].
    split_and!; [done..|]. rewrite len_app in Hx. split; [rewrite len_app; lia|].
    left. split; [constructor|]. unfold len in *. rewrite (lookup_app_r a), (lookup_app_r b) by lia. f_equal. lia.
  - pose proof (describes_cons s a b k o n sa ea es old new Hk Hon Hsa Hea Hd) as Hfull.
    cbn [List.map fst offset_to_version Patch.new Patch.old Patch.start Patch.end_ measure measure_usize].
    destruct (N.ltb_spec x (len (b ++ k))) as [Hlt|Hge].
    + eexists [], _, a, b, _, _, _. split; [|split; [reflexivity|split; [constructor|split; [exact Hfull|]]]]; [done|].
      split_and!; [done..|]. destruct (same_place a b k (o ++ old) (n ++ new) x Hb Hlt) as [E Hle]. split; [done|]. left. split; [|done].
      constructor; [by left|]. apply (describes_behind _ _ _ _ _ Hd). rewrite !len_app in *. lia.
    + destruct (N.leb_spec (len (b ++ k ++ n)) x) as [Hle|Hgt].
      * destruct IH as (passed & es' & a' & b' & old' & new' & r & E & -> & Hp & Hd' & Ha & Hb' & Hx' & Hbel); [done|by repeat rewrite <- app_assoc in *|done|].
        repeat rewrite <- app_assoc in Ha; repeat rewrite <- app_assoc in Hb'; repeat rewrite <- app_assoc in Hbel. destruct Hbel as [Hr Hbel].
        eexists (_ :: passed), es', a', b', old', new', r.
        split; [exact E|]. split; [done|]. split; [by constructor|]. split_and!; [done..|]. split; [done|].
        destruct Hbel as [[Hap Hl]|(e & He & H)]; [left; split; [constructor; [by right|done]|done]|right; exists e; split; [by right|done]].
      * eexists [], _, a, b, _, _, _. split; [|split; [reflexivity|split; [constructor|split; [exact Hfull|]]]]; [done|].
        split_and!; [done..|]. rewrite usub_small by lia.
        split; [rewrite !len_app in *; lia|]. right. eexists. split; [by left|]. cbn. rewrite !len_app in *. lia.
Qed.

Lemma belongs_behind passed edits old new x r : belongs edits old new x r → Forall (λ e, Patch.end_ (Patch.new e) ≤ x) passed →
  belongs (passed ++ edits) old new x r.
Proof.
  intros [Hr Hb] Hp. split; [done|]. destruct Hb as [[Ha He]|(e & He & H)].
  - left. split; [|done]. apply Forall_app. split; [|done]. by eapply Forall_impl; [exact Hp|auto].
  - right. exists e. rewrite elem_of_app. auto.
Qed.

Lemma offsets_loop_spec offsets : ∀ a b es old new passed, describes (D:=N) s a b es old new → StronglySorted N.le offsets →
  Forall (λ x, len b ≤ x ≤ len (b ++ new) ∧ x < 2 ^ 64 ∧ Forall (λ e, Patch.end_ (Patch.new e) ≤ x) passed) offsets →
  Forall2 (belongs (passed ++ List.map fst es) (a ++ old) (b ++ new)) offsets (offsets_loop (List.map fst es) (len a) (len b) offsets).
Proof.
  induction offsets as [|x offsets IH]; intros a b es old new passed Hd Hsort Hin; [constructor|].
  apply StronglySorted_inv in Hsort as [Hsort Hle]. apply Forall_cons in Hin as [((Hb & Hx) & Hx64 & Hp) Hin]. cbn [offsets_loop].
  destruct (offset_to_version_spec a b es old new x Hd Hb Hx Hx64) as (more & es' & a' & b' & old' & new' & r & -> & -> & Hm & Hd' & Ea & Eb & Hx' & Hbel).
  constructor; [by apply belongs_behind|]. rewrite List.map_app, (app_assoc passed), <- Ea, <- Eb. apply IH; [done..|].
  rewrite Eb. apply Forall_forall. intros y Hy. rewrite Forall_forall in Hin, Hle. specialize (Hin y Hy). specialize (Hle y Hy).
  split; [lia|]. split; [lia|]. apply Forall_app. split; [apply Hin|]. apply Forall_fmap. eapply Forall_impl; [exact Hm|]. cbn. lia.
Qed.
End offsets.

(** C20: [offsets_to_version] leads each of some ascending offsets of the text of now back to the place
    in the text of then that belongs to it: the same byte follows, or the offset is in text that came since
    and the place is in the text that was there instead. *)
Theorem offsets_to_version_belong b b' ps offsets : buffer_wf b ps → spacious (snapshot b) → later b b' → spacious (snapshot b') →
  StronglySorted N.le offsets → Forall (λ x, x ≤ rope_len (visible_text (snapshot b'))) offsets →
  ∃ ps' edits rs, buffer_wf b' ps' ∧ edits_since (D:=N) (snapshot b') (version (snapshot b)) = Some edits ∧
    offsets_to_version (snapshot b') (version (snapshot b)) offsets = Some rs ∧
    Forall2 (belongs edits (vis_text ps) (vis_text ps')) offsets rs.
Proof.
  intros Hwf Hsp Hlater Hsp' Hsort Hle. destruct (later_text b b' ps Hwf Hsp Hlater Hsp') as (ps' & log & Hwf' & Hroomy & Hlog & Ht).
  destruct (edits_since_spec (D:=N) b' ps' log (version (snapshot b)) Hwf' Hroomy Hlog) as (es & _ & E & Hd). rewrite Ht in Hd.
  pose proof (wf_snapshot _ _ Hwf') as Hs. rewrite (rope_len_text _ _ _ Hs) in Hle. destruct Hroomy as [_ _ _ _ (_ & Hlen & _) _].
  exists ps', (List.map fst es), (offsets_loop (List.map fst es) 0 0 offsets). split; [done|]. split; [done|].
  split; [unfold offsets_to_version; by rewrite E|]. apply (offsets_loop_spec _ offsets [] [] es _ _ [] Hd Hsort).
  eapply Forall_impl; [exact Hle|]. cbn. intros x Hx. split; [split; [apply N.le_0_l|exact Hx]|].
  split; [|constructor]. eapply N.le_lt_trans; [exact Hx|]. by eapply N.lt_trans; [exact Hlen|].
Qed.

(** ** Concrete inputs *)

Lemma performed_later cs : ∀ b0 b ops b', later b0 b → all_able b cs → perform_all b cs = Some (b', ops) → later b0 b'.
Proof.
  induction cs as [|c cs IH]; intros b0 b ops b' Hl; cbn [all_able perform_all]; [by intros _ [= <- _]|]. intros [Hable Hall].
  destruct (perform b c) as [[b1 r]|] eqn:E; [|done]. cbn [mbind option_bind].
  destruct (perform_all b1 cs) as [[b2 ops1]|] eqn:E1; [|done]. cbn [mbind option_bind]. intros [= -> _].
  eapply (IH b0 b1); [|by eapply Hall|done]. eapply later_step; [exact Hl|by eapply happens_command].
Qed.

Definition demo_later : Buffer := match perform_all (demo_buffer AGENT) demo_run with Some (b, _) => b | None => demo_buffer AGENT end.
Definition demo_version : Global.t := version (snapshot (demo_buffer AGENT)).

Lemma demo_happened : later (demo_buffer AGENT) demo_later ∧ spacious (snapshot demo_later).
Proof.
  assert (later (demo_buffer AGENT) demo_later) as Hl.
  { destruct demo_performed as (b & E & _). unfold demo_later. rewrite E. eapply performed_later; [apply later_same|apply demo_able|exact E]. }
  split; [exact Hl|]. destruct (later_past _ _ _ (demo_wf AGENT) Hl) as (ps' & Hwf & _).
  eapply (check_able_spec _ ps' Do_Redo Hwf). clear. by vm_compute.
Qed.

Lemma edits_since_describe_witness : ∃ es ps', anchored_edits_since (D:=N) (snapshot demo_later) demo_version = Some es ∧ length es = 2%nat ∧
  describes (snapshot demo_later) [] [] es (vis_text demo_pieces) (vis_text ps').
Proof.
  destruct (edits_since_describe (demo_buffer AGENT) demo_later demo_pieces (demo_wf _) (demo_spacious _) (proj1 demo_happened) (proj2 demo_happened))
    as (ps' & es & _ & _ & E & _ & Hd & _). exists es, ps'. split; [exact E|]. split; [|exact Hd].
  assert (length <$> anchored_edits_since (D:=N) (snapshot demo_later) demo_version = Some 2%nat) as E3 by (clear; by vm_compute).
  change (version (snapshot (demo_buffer AGENT))) with demo_version in E. rewrite E in E3. by injection E3.
Defined.

Lemma rope_for_version_past_witness : ∃ r, rope_for_version (snapshot demo_later) demo_version = Some r ∧ rope_inv r (vis_text demo_pieces) ∧
  has_edits_since (snapshot demo_later) demo_version = Some true.
Proof.
  destruct (rope_for_version_past (demo_buffer AGENT) demo_later demo_pieces (demo_wf _) (demo_spacious _) (proj1 demo_happened) (proj2 demo_happened))
    as (ps' & r & changed & _ & E & Hr & _ & _). exists r. split; [exact E|]. split; [exact Hr|]. clear. by vm_compute.
Defined.

Lemma offsets_to_version_belong_witness : offsets_to_version (snapshot demo_later) demo_version [0; 4; 6] = Some [0; 6; 10] ∧
  ∃ ps' edits, Forall2 (belongs edits (vis_text demo_pieces) (vis_text ps')) [0; 4; 6] [0; 6; 10].
Proof.
  destruct (offsets_to_version_belong (demo_buffer AGENT) demo_later demo_pieces [0; 4; 6] (demo_wf _) (demo_spacious _) (proj1 demo_happened)
    (proj2 demo_happened)) as (ps' & edits & rs & _ & _ & E & H).
  - repeat constructor; clear; by vm_compute.
  - repeat constructor; clear; by vm_compute.
  - assert (offsets_to_version (snapshot demo_later) demo_version [0; 4; 6] = Some [0; 6; 10]) as E2 by (clear; by vm_compute).
    change (version (snapshot (demo_buffer AGENT))) with demo_version in E. rewrite E2 in E. injection E as <-.
    split; [exact E2|]. exists ps', edits. exact H.
Defined.
