(* ===== verification/StoreData.v ===== *)
(** * StoreData: the data of the Superzent store

    Models the types of [crates/superzent_model/src/lib.rs] and its functions on
    text.  A [String] is its list of Unicode scalar values; a [PathBuf] its list of
    components, which is what [==] and [starts_with] of the standard library go by;
    a [BTreeMap] its entries in the order of their keys; a [DateTime] a number of
    milliseconds.  The file system, the clock and [Uuid::new_v4] are arguments of
    the operations that ask them. *)

From Stdlib Require Import String Ascii.
From stdpp Require Import gmap pretty.
From S2P Require Import Prelude.
#[local] Open Scope N_scope.

(** ** Text *)

Abbreviation Str := (list N).

(** A literal of the source. *)
Definition lit (s : string) : Str := N_of_ascii <$> list_ascii_of_string s.

(** [char::is_whitespace]: the Unicode property [White_Space]. *)
Definition is_whitespace (c : N) : bool :=
  (9 <=? c) && (c <=? 13) || (c =? 32) || (c =? 0x85) || (c =? 0xA0) || (c =? 0x1680) ||
  (0x2000 <=? c) && (c <=? 0x200A) || (c =? 0x2028) || (c =? 0x2029) || (c =? 0x202F) ||
  (c =? 0x205F) || (c =? 0x3000).

Fixpoint drop_while {A} (p : A → bool) (l : list A) : list A :=
  match l with [] => [] | x :: l' => if p x then drop_while p l' else l end.

(** [str::trim] and [str::trim_matches]. *)
Definition trim_by {A} (p : A → bool) (s : list A) : list A := reverse (drop_while p (reverse (drop_while p s))).
Definition trim (s : Str) : Str := trim_by is_whitespace s.

Definition is_empty_str (s : Str) : bool := match s with [] => true | _ => false end.

Definition is_ascii_alphanumeric (c : N) : bool :=
  (48 <=? c) && (c <=? 57) || (65 <=? c) && (c <=? 90) || (97 <=? c) && (c <=? 122).

Definition to_ascii_lowercase (c : N) : N := if (65 <=? c) && (c <=? 90) then c + 32 else c.

Definition dash : N := 45.

(** The loop of [preset_slug]: [slug] and [previous_was_separator]. *)
Fixpoint slug_loop (chars slug : Str) (previous_was_separator : bool) : Str :=
  match chars with
  | [] => slug
  | character :: chars =>
      if is_ascii_alphanumeric character then slug_loop chars (slug ++ [to_ascii_lowercase character]) false
      else if previous_was_separator || is_empty_str slug then slug_loop chars slug previous_was_separator
      else slug_loop chars (slug ++ [dash]) true
  end.

Definition preset_slug (value : Str) : Str :=
  let slug := trim_by (λ c, c =? dash) (slug_loop value [] false) in
  if is_empty_str slug then lit "preset" else slug.

(** [format!("{base_id}-{suffix}")]. *)
Definition with_suffix (base_id : Str) (suffix : N) : Str := base_id ++ [dash] ++ lit (pretty suffix).

(** [while used_ids.contains(&next_id)]. *)
Fixpoint unique_loop (fuel : nat) (base_id next_id : Str) (suffix : N) (used_ids : gset Str) : option Str :=
  if decide (next_id ∈ used_ids) then
    match fuel with
    | O => None
    | S fuel => unique_loop fuel base_id (with_suffix base_id suffix) (suffix + 1) used_ids
    end
  else Some next_id.

(** A candidate is taken at most once for each used identifier. *)
Definition unique_slug (base_id : Str) (used_ids : gset Str) : option (Str * gset Str) :=
  let base_id := preset_slug base_id in
  next_id ← unique_loop (size used_ids) base_id base_id 2 used_ids;
  Some (next_id, {[next_id]} ∪ used_ids).

Definition normalize_optional_text (value : option Str) : option Str :=
  match value with
  | Some value => if is_empty_str (trim value) then None else Some (trim value)
  | None => None
  end.

Definition suggested_acp_agent_name (command : Str) : option Str :=
  let command := trim command in
  if decide (command = lit "codex" ∨ command = lit "codex-acp") then Some (lit "codex-acp")
  else if decide (command = lit "claude" ∨ command = lit "claude-code" ∨ command = lit "claude-acp")
  then Some (lit "claude-acp")
  else if decide (command = lit "gemini") then Some (lit "gemini")
  else None.

(** ** Paths *)

Inductive Component : Type := RootDir | CurDir | ParentDir | Normal (name : Str).

#[export] Instance component_eq_dec : EqDecision Component.
Proof. solve_decision. Defined.

Abbreviation Path := (list Component).

Fixpoint starts_with (path base : Path) : bool :=
  match base, path with
  | [], _ => true
  | c :: base, d :: path => bool_decide (c = d) && starts_with path base
  | _ :: _, [] => false
  end.

Definition file_name (path : Path) : option Str :=
  match last path with Some (Normal name) => Some name | _ => None end.

(** ** Entries *)

Abbreviation DateTime := N.

Inductive TaskStatus : Type := TaskIdle | Starting | Running | NeedsAttention | Completed | Failed.
Inductive WorkspaceKind : Type := Primary | Worktree.
Inductive WorkspaceAttentionStatus : Type := Idle | Working | Permission | Review.
Inductive PresetLaunchMode : Type := Terminal | Acp.
Inductive WorkspaceGitStatus : Type := Available | Unavailable.

#[export] Instance task_status_eq_dec : EqDecision TaskStatus. Proof. solve_decision. Defined.
#[export] Instance workspace_kind_eq_dec : EqDecision WorkspaceKind. Proof. solve_decision. Defined.
#[export] Instance attention_eq_dec : EqDecision WorkspaceAttentionStatus. Proof. solve_decision. Defined.
#[export] Instance launch_mode_eq_dec : EqDecision PresetLaunchMode. Proof. solve_decision. Defined.
#[export] Instance git_status_eq_dec : EqDecision WorkspaceGitStatus. Proof. solve_decision. Defined.

Record GitChangeSummary : Type := {
  changed_files : N; staged_files : N; untracked_files : N;
  added_lines : N; deleted_lines : N; ahead_commits : N; behind_commits : N
}.
#[export] Instance git_summary_eq_dec : EqDecision GitChangeSummary. Proof. solve_decision. Defined.

(** [BTreeMap<String, String>] and its [insert]. *)
Abbreviation Env := (list (Str * Str)).

Fixpoint env_insert (key value : Str) (env : Env) : Env :=
  match env with
  | [] => [(key, value)]
  | (k, v) :: env' =>
      match cmp key k with
      | Lt => (key, value) :: env
      | Eq => (key, value) :: env'
      | Gt => (k, v) :: env_insert key value env'
      end
  end.

Record AgentPreset : Type := mk_preset {
  preset_id : Str;
  label : Str;
  launch_mode : PresetLaunchMode;
  command : Str;
  args : list Str;
  env : Env;
  acp_agent_name : option Str;
  attention_patterns : list Str
}.

Record AgentPresetDraft : Type := mk_draft {
  draft_label : Str;
  draft_launch_mode : PresetLaunchMode;
  draft_command : Str;
  draft_args : list Str;
  draft_env : Env;
  draft_acp_agent_name : option Str;
  draft_attention_patterns : list Str
}.

(** [impl From<&AgentPreset> for AgentPresetDraft]. *)
Definition draft_of (p : AgentPreset) : AgentPresetDraft :=
  mk_draft (label p) (launch_mode p) (command p) (args p) (env p) (acp_agent_name p) (attention_patterns p).

Definition resolved_acp_agent_name (p : AgentPreset) : option Str :=
  match normalize_optional_text (acp_agent_name p) with
  | Some name => Some name
  | None => suggested_acp_agent_name (command p)
  end.

Record StoredSshPortForward : Type := {
  local_host : option Str; local_port : N; remote_host : option Str; remote_port : N
}.
#[export] Instance port_forward_eq_dec : EqDecision StoredSshPortForward. Proof. solve_decision. Defined.

Record StoredSshConnection : Type := {
  host : Str;
  username : option Str;
  port : option N;
  ssh_args : list Str;
  nickname : option Str;
  upload_binary_over_ssh : bool;
  port_forwards : list StoredSshPortForward;
  connection_timeout : option N
}.

(** [StoredSshConnection::matches]. *)
Definition connection_matches (a b : StoredSshConnection) : bool :=
  bool_decide (host a = host b) && bool_decide (username a = username b) &&
  bool_decide (port a = port b) && bool_decide (ssh_args a = ssh_args b) &&
  bool_decide (nickname a = nickname b) &&
  bool_decide (upload_binary_over_ssh a = upload_binary_over_ssh b) &&
  bool_decide (port_forwards a = port_forwards b) &&
  bool_decide (connection_timeout a = connection_timeout b).

Definition display_target (c : StoredSshConnection) : Str :=
  match username c with Some username => username ++ lit "@" | None => [] end ++ host c ++
  match port c with Some port => lit ":" ++ lit (pretty port) | None => [] end.

Definition format_remote_path (connection : StoredSshConnection) (remote_path : Str) : Str :=
  let separator := match remote_path with c :: _ => if c =? 47 then [] else lit "/" | [] => lit "/" end in
  lit "ssh://" ++ display_target connection ++ separator ++ remote_path.

Inductive ProjectLocation : Type :=
  | ProjectLocal (repo_root : Path)
  | ProjectSsh (connection : StoredSshConnection) (repo_root : Str).

Inductive WorkspaceLocation : Type :=
  | WorkspaceLocal (worktree_path : Path)
  | WorkspaceSsh (connection : StoredSshConnection) (worktree_path : Str).

(** The borrowed [ProjectLocator] and [WorkspaceLocator] have the same cases. *)
Abbreviation ProjectLocator := ProjectLocation.
Abbreviation WorkspaceLocator := WorkspaceLocation.

Record ProjectEntry : Type := mk_project {
  project_entry_id : Str;
  project_name : Str;
  project_location : ProjectLocation;
  collapsed : bool;
  project_created_at : DateTime;
  project_last_opened_at : DateTime
}.

Definition local_repo_root (p : ProjectEntry) : option Path :=
  match project_location p with ProjectLocal repo_root => Some repo_root | ProjectSsh _ _ => None end.

Definition project_ssh_connection (p : ProjectEntry) : option StoredSshConnection :=
  match project_location p with ProjectLocal _ => None | ProjectSsh connection _ => Some connection end.

Definition ssh_repo_root (p : ProjectEntry) : option Str :=
  match project_location p with ProjectLocal _ => None | ProjectSsh _ repo_root => Some repo_root end.

Definition project_locator (p : ProjectEntry) : ProjectLocator := project_location p.

Definition project_matches_locator (p : ProjectEntry) (locator : ProjectLocator) : bool :=
  match project_location p, locator with
  | ProjectLocal repo_root, ProjectLocal target => bool_decide (repo_root = target)
  | ProjectSsh connection repo_root, ProjectSsh target_connection target_repo_root =>
      connection_matches connection target_connection && bool_decide (repo_root = target_repo_root)
  | _, _ => false
  end.

Record WorkspaceEntry : Type := mk_workspace {
  workspace_entry_id : Str;
  workspace_project_id : Str;
  kind : WorkspaceKind;
  workspace_name : Str;
  display_name_override : option Str;
  branch : Str;
  workspace_location : WorkspaceLocation;
  agent_preset_id : Str;
  managed : bool;
  git_status : WorkspaceGitStatus;
  git_summary : option GitChangeSummary;
  attention_status : WorkspaceAttentionStatus;
  review_pending : bool;
  workspace_last_attention_reason : option Str;
  teardown_script_override : option Str;
  workspace_created_at : DateTime;
  workspace_last_opened_at : DateTime
}.

(** [exists] is [Path::exists] of the file system. *)
Definition is_existing_path (exists_ : Path → bool) (w : WorkspaceEntry) : bool :=
  match workspace_location w with WorkspaceLocal worktree_path => exists_ worktree_path | WorkspaceSsh _ _ => true end.

Definition is_primary (w : WorkspaceEntry) : bool := bool_decide (kind w = Primary).
Definition has_git (w : WorkspaceEntry) : bool := bool_decide (git_status w = Available).

Definition local_worktree_path (w : WorkspaceEntry) : option Path :=
  match workspace_location w with WorkspaceLocal worktree_path => Some worktree_path | WorkspaceSsh _ _ => None end.

Definition workspace_ssh_connection (w : WorkspaceEntry) : option StoredSshConnection :=
  match workspace_location w with WorkspaceLocal _ => None | WorkspaceSsh connection _ => Some connection end.

Definition ssh_worktree_path (w : WorkspaceEntry) : option Str :=
  match workspace_location w with WorkspaceLocal _ => None | WorkspaceSsh _ worktree_path => Some worktree_path end.

Definition workspace_locator (w : WorkspaceEntry) : WorkspaceLocator := workspace_location w.

Definition workspace_matches_locator (w : WorkspaceEntry) (locator : WorkspaceLocator) : bool :=
  match workspace_location w, locator with
  | WorkspaceLocal worktree_path, WorkspaceLocal target => bool_decide (worktree_path = target)
  | WorkspaceSsh connection worktree_path, WorkspaceSsh target_connection target_worktree_path =>
      connection_matches connection target_connection && bool_decide (worktree_path = target_worktree_path)
  | _, _ => false
  end.

Definition display_name (w : WorkspaceEntry) : Str :=
  match display_name_override w with
  | Some name => name
  | None =>
      match kind w with
      | Primary => match workspace_location w with
                   | WorkspaceLocal _ => lit "local"
                   | WorkspaceSsh _ _ => lit "remote"
                   end
      | Worktree => workspace_name w
      end
  end.

Record AgentSession : Type := mk_session {
  session_id : Str;
  session_workspace_id : Str;
  session_preset_id : Str;
  session_label : Str;
  status : TaskStatus;
  started_at : DateTime;
  exited_at : option DateTime;
  session_last_attention_reason : option Str
}.

Record SuperzentState : Type := mk_state {
  active_project_id : option Str;
  active_workspace_id : option Str;
  projects : list ProjectEntry;
  workspaces : list WorkspaceEntry;
  sessions : list AgentSession;
  presets : list AgentPreset
}.

Definition default_presets : list AgentPreset :=
  [mk_preset (lit "codex") (lit "Codex") Terminal (lit "codex") [] [] (Some (lit "codex-acp"))
     [lit "needs attention"; lit "blocked"];
   mk_preset (lit "claude-code") (lit "Claude Code") Terminal (lit "claude") [] [] (Some (lit "claude-acp"))
     [lit "waiting for input"];
   mk_preset (lit "gemini") (lit "Gemini CLI") Terminal (lit "gemini") [] [] (Some (lit "gemini"))
     [lit "press enter"]].

Definition default_state : SuperzentState := mk_state None None [] [] [] default_presets.

Definition aggregate_workspace_attention_status (live : option WorkspaceAttentionStatus) (review_pending : bool) :
    WorkspaceAttentionStatus :=
  match live with
  | Some Permission => Permission
  | Some Working => Working
  | Some Review => Review
  | Some Idle | None => if review_pending then Review else Idle
  end.
