(* ===== verification/Store.v ===== *)
(** * Store: the Superzent store

    Models [SuperzentStore] of [crates/superzent_model/src/lib.rs]: every query and
    every operation, and [normalize].  A store is its state and the trace of what it did to the
    outside: [persist_and_notify] appends the state it tries to write and the
    notification.  Operations that go through [normalize] or make an identifier
    return [option], with [None] for the loop of [unique_slug] running out of fuel;
    [StoreTheorems] shows that it never does. *)

From Stdlib Require Import String.
From stdpp Require Import gmap.
From S2P Require Import Prelude StoreData.
#[local] Open Scope N_scope.

Inductive result (A : Type) : Type := Ok (a : A) | Err (message : Str).
Arguments Ok {A}. Arguments Err {A}.

(** ** Vectors *)

(** [iter_mut().find(p)] and a change of what it finds. *)
Fixpoint update_found {A} (p : A → bool) (f : A → A) (l : list A) : list A :=
  match l with
  | [] => []
  | x :: l => if p x then f x :: l else x :: update_found p f l
  end.

(** [iter().find(p)], [iter().position(p)]. *)
Fixpoint find_first {A} (p : A → bool) (l : list A) : option A :=
  match l with [] => None | x :: l => if p x then Some x else find_first p l end.

Fixpoint position {A} (p : A → bool) (l : list A) : option nat :=
  match l with
  | [] => None
  | x :: l => if p x then Some 0%nat else option_map S (position p l)
  end.

(** [iter().max_by_key(key)] returns the last of the greatest. *)
Fixpoint max_by_key {A} (key : A → N) (l : list A) : option A :=
  match l with
  | [] => None
  | x :: l => match max_by_key key l with
              | Some y => if key x <=? key y then Some y else Some x
              | None => Some x
              end
  end.

(** [Vec::remove] and [Vec::insert] at indices that exist. *)
Definition remove_at {A} (i : nat) (l : list A) : list A := take i l ++ drop (S i) l.
Definition insert_at {A} (i : nat) (x : A) (l : list A) : list A := take i l ++ x :: drop i l.

(** ** Changes of entries *)

Definition set_workspace_preset (id : Str) (w : WorkspaceEntry) : WorkspaceEntry :=
  mk_workspace (workspace_entry_id w) (workspace_project_id w) (kind w) (workspace_name w) (display_name_override w)
    (branch w) (workspace_location w) id (managed w) (git_status w) (git_summary w) (attention_status w)
    (review_pending w) (workspace_last_attention_reason w) (teardown_script_override w) (workspace_created_at w)
    (workspace_last_opened_at w).

Definition set_attention (status : WorkspaceAttentionStatus) (pending : bool) (reason : option Str)
    (w : WorkspaceEntry) : WorkspaceEntry :=
  mk_workspace (workspace_entry_id w) (workspace_project_id w) (kind w) (workspace_name w) (display_name_override w)
    (branch w) (workspace_location w) (agent_preset_id w) (managed w) (git_status w) (git_summary w) status
    pending reason (teardown_script_override w) (workspace_created_at w) (workspace_last_opened_at w).

Definition set_opened_at (now : DateTime) (w : WorkspaceEntry) : WorkspaceEntry :=
  mk_workspace (workspace_entry_id w) (workspace_project_id w) (kind w) (workspace_name w) (display_name_override w)
    (branch w) (workspace_location w) (agent_preset_id w) (managed w) (git_status w) (git_summary w)
    (attention_status w) (review_pending w) (workspace_last_attention_reason w) (teardown_script_override w)
    (workspace_created_at w) now.

Definition set_display_name (name : option Str) (w : WorkspaceEntry) : WorkspaceEntry :=
  mk_workspace (workspace_entry_id w) (workspace_project_id w) (kind w) (workspace_name w) name
    (branch w) (workspace_location w) (agent_preset_id w) (managed w) (git_status w) (git_summary w)
    (attention_status w) (review_pending w) (workspace_last_attention_reason w) (teardown_script_override w)
    (workspace_created_at w) (workspace_last_opened_at w).

Definition set_metadata (b : Str) (status : WorkspaceGitStatus) (summary : option GitChangeSummary)
    (w : WorkspaceEntry) : WorkspaceEntry :=
  mk_workspace (workspace_entry_id w) (workspace_project_id w) (kind w) (workspace_name w) (display_name_override w)
    b (workspace_location w) (agent_preset_id w) (managed w) status summary
    (attention_status w) (review_pending w) (workspace_last_attention_reason w) (teardown_script_override w)
    (workspace_created_at w) (workspace_last_opened_at w).

(** A reviewed workspace goes idle. *)
Definition clear_review (w : WorkspaceEntry) : WorkspaceEntry :=
  if decide (attention_status w = Review)
  then set_attention Idle false None w
  else set_attention (attention_status w) false (workspace_last_attention_reason w) w.

Definition update_workspace_metadata (w : WorkspaceEntry) (new_branch : option Str) (status : WorkspaceGitStatus)
    (summary : option GitChangeSummary) : WorkspaceEntry * bool :=
  let '(b, changed) := match new_branch with
                       | Some new_branch => if decide (branch w ≠ new_branch) then (new_branch, true) else (branch w, false)
                       | None => (branch w, false)
                       end in
  (set_metadata b status summary w,
   changed || bool_decide (git_status w ≠ status) || bool_decide (git_summary w ≠ summary)).

Definition set_project (collapsed : bool) (name : Str) (opened : DateTime) (p : ProjectEntry) : ProjectEntry :=
  mk_project (project_entry_id p) name (project_location p) collapsed (project_created_at p) opened.

(** ** The state *)

Implicit Types s : SuperzentState.

Definition with_projects s l := mk_state (active_project_id s) (active_workspace_id s) l (workspaces s) (sessions s) (presets s).
Definition with_workspaces s l := mk_state (active_project_id s) (active_workspace_id s) (projects s) l (sessions s) (presets s).
Definition with_sessions s l := mk_state (active_project_id s) (active_workspace_id s) (projects s) (workspaces s) l (presets s).
Definition with_presets s l := mk_state (active_project_id s) (active_workspace_id s) (projects s) (workspaces s) (sessions s) l.
Definition with_active s p w := mk_state p w (projects s) (workspaces s) (sessions s) (presets s).

Definition has_project_id (id : Str) (p : ProjectEntry) : bool := bool_decide (project_entry_id p = id).
Definition has_workspace_id (id : Str) (w : WorkspaceEntry) : bool := bool_decide (workspace_entry_id w = id).
Definition has_preset_id (id : Str) (p : AgentPreset) : bool := bool_decide (preset_id p = id).
Definition has_session_id (id : Str) (x : AgentSession) : bool := bool_decide (session_id x = id).
Definition in_project (id : Str) (w : WorkspaceEntry) : bool := bool_decide (workspace_project_id w = id).

(** *** Queries *)

Definition project s (id : Str) : option ProjectEntry := find_first (has_project_id id) (projects s).
Definition workspace s (id : Str) : option WorkspaceEntry := find_first (has_workspace_id id) (workspaces s).
Definition preset s (id : Str) : option AgentPreset := find_first (has_preset_id id) (presets s).

Definition active_project s : option ProjectEntry := id ← active_project_id s; project s id.
Definition active_workspace s : option WorkspaceEntry := id ← active_workspace_id s; workspace s id.

Definition workspace_for_path s (path : Path) : option WorkspaceEntry :=
  find_first (λ w, match local_worktree_path w with
                   | Some worktree_path => bool_decide (worktree_path = path)
                   | None => false
                   end) (workspaces s).

(** The workspaces whose worktree contains the path, with the depth of the worktree. *)
Definition ancestor_depth (path : Path) (w : WorkspaceEntry) : option (WorkspaceEntry * N) :=
  match local_worktree_path w with
  | Some worktree_path => if starts_with path worktree_path then Some (w, N.of_nat (length worktree_path)) else None
  | None => None
  end.

Definition workspace_for_path_or_ancestor s (path : Path) : option WorkspaceEntry :=
  option_map fst (max_by_key snd (omap (ancestor_depth path) (workspaces s))).

Definition workspace_for_locator s (locator : WorkspaceLocator) : option WorkspaceEntry :=
  find_first (λ w, workspace_matches_locator w locator) (workspaces s).

Definition workspace_for_location s (location : WorkspaceLocation) : option WorkspaceEntry :=
  match location with
  | WorkspaceLocal worktree_path => workspace_for_path s worktree_path
  | WorkspaceSsh connection worktree_path => workspace_for_locator s (WorkspaceSsh connection worktree_path)
  end.

Definition project_for_workspace s (workspace_id : Str) : option ProjectEntry :=
  w ← workspace s workspace_id; project s (workspace_project_id w).

Definition project_for_repo_root s (repo_root : Path) : option ProjectEntry :=
  find_first (λ p, bool_decide (local_repo_root p = Some repo_root)) (projects s).

Definition project_for_locator s (locator : ProjectLocator) : option ProjectEntry :=
  find_first (λ p, project_matches_locator p locator) (projects s).

Definition project_for_location s (location : ProjectLocation) : option ProjectEntry :=
  match location with
  | ProjectLocal repo_root => project_for_repo_root s repo_root
  | ProjectSsh connection repo_root => project_for_locator s (ProjectSsh connection repo_root)
  end.

Definition or_else {A} (a b : option A) : option A := match a with Some _ => a | None => b end.

Definition project_for_workspace_sync s (existing_workspace : option WorkspaceEntry) (location : ProjectLocation) :
    option ProjectEntry :=
  or_else (w ← existing_workspace; project s (workspace_project_id w)) (project_for_location s location).

Definition primary_workspace_for_project s (id : Str) : option WorkspaceEntry :=
  find_first (λ w, in_project id w && is_primary w) (workspaces s).

Definition default_startup_workspace s : option WorkspaceEntry :=
  or_else (p ← head (projects s); primary_workspace_for_project s (project_entry_id p)) (head (workspaces s)).

Definition startup_workspace s : option WorkspaceEntry := or_else (active_workspace s) (default_startup_workspace s).

Definition workspaces_for_project s (id : Str) : list WorkspaceEntry :=
  filter (λ w, in_project id w = true) (workspaces s).

(** [None] is the panic of [expect]. *)
Definition default_preset s : option AgentPreset := head (presets s).

Definition latest_session_for_workspace s (workspace_id : Str) : option AgentSession :=
  max_by_key started_at (filter (λ x, session_workspace_id x = workspace_id) (sessions s)).

Definition aggregate_status_for_workspace s (workspace_id : Str) : TaskStatus :=
  match latest_session_for_workspace s workspace_id with Some x => status x | None => TaskIdle end.

(** *** [normalize] *)

Definition drop_orphans s : SuperzentState :=
  let project_ids := list_to_set (C:=gset Str) (project_entry_id <$> projects s) in
  with_workspaces s (filter (λ w, workspace_project_id w ∈ project_ids) (workspaces s)).

(** The new [active_workspace_id]. *)
Definition normalized_active s : option Str :=
  let existing_workspace_ids := list_to_set (C:=gset Str) (workspace_entry_id <$> workspaces s) in
  let fallback_workspace_id := option_map workspace_entry_id (default_startup_workspace s) in
  let active := match active_workspace_id s with
                | Some id => if decide (id ∈ existing_workspace_ids) then Some id else fallback_workspace_id
                | None => None
                end in
  match active with Some _ => active | None => fallback_workspace_id end.

Definition normalize_active s : SuperzentState :=
  let active := normalized_active s in
  let existing_project_ids := list_to_set (C:=gset Str) (project_entry_id <$> projects s) in
  let active_project :=
    or_else (id ← active; w ← workspace s id; Some (workspace_project_id w))
      (or_else
         (match active_project_id s with
          | Some id => if decide (id ∈ existing_project_ids) then Some id else None
          | None => None
          end)
         (option_map project_entry_id (head (projects s)))) in
  with_active s active_project active.

Definition normalize_preset (p : AgentPreset) (preset_ids : gset Str) : option (AgentPreset * gset Str) :=
  let label := if is_empty_str (trim (label p)) then lit "Preset" else label p in
  let acp_agent_name := or_else (normalize_optional_text (acp_agent_name p)) (suggested_acp_agent_name (command p)) in
  let desired_id := if is_empty_str (trim (preset_id p)) then preset_slug label else preset_slug (preset_id p) in
  '(id, preset_ids) ← unique_slug desired_id preset_ids;
  Some (mk_preset id label (launch_mode p) (command p) (args p) (env p) acp_agent_name (attention_patterns p), preset_ids).

Fixpoint normalize_presets (l : list AgentPreset) (preset_ids : gset Str) : option (list AgentPreset) :=
  match l with
  | [] => Some []
  | p :: l =>
      '(p, preset_ids) ← normalize_preset p preset_ids;
      l ← normalize_presets l preset_ids;
      Some (p :: l)
  end.

Definition normalize_workspace (valid_preset_ids : gset Str) (fallback_preset_id : Str) (w : WorkspaceEntry) :
    WorkspaceEntry :=
  let w := if decide (agent_preset_id w ∈ valid_preset_ids) then w else set_workspace_preset fallback_preset_id w in
  if decide (attention_status w = Review)
  then set_attention Review true (workspace_last_attention_reason w) w
  else if review_pending w && bool_decide (attention_status w = Idle)
  then set_attention Review true (workspace_last_attention_reason w) w
  else w.

Definition normalize s : option SuperzentState :=
  let s := normalize_active (drop_orphans s) in
  l ← normalize_presets (presets s) ∅;
  let l := match l with [] => default_presets | _ => l end in
  let valid_preset_ids := list_to_set (C:=gset Str) (preset_id <$> l) in
  let fallback_preset_id := match l with p :: _ => preset_id p | [] => lit "codex" end in
  let s := with_presets s l in
  Some (with_workspaces s (normalize_workspace valid_preset_ids fallback_preset_id <$> workspaces s)).

Definition clear_transient (w : WorkspaceEntry) : WorkspaceEntry :=
  match attention_status w with
  | Review => set_attention Review true (workspace_last_attention_reason w) w
  | Working | Permission =>
      set_attention (if review_pending w then Review else Idle) (review_pending w) (workspace_last_attention_reason w) w
  | Idle => w
  end.

Definition clear_transient_workspace_attention s : SuperzentState :=
  with_workspaces s (clear_transient <$> workspaces s).

(** *** Drafts *)

Definition trim_list (l : list Str) : list Str := filter (λ x, is_empty_str x = false) (trim <$> l).

Definition trim_env (e : Env) : Env :=
  foldl (λ e '(k, v), if is_empty_str (trim k) then e else env_insert (trim k) (trim v) e) [] e.

Definition into_preset (d : AgentPresetDraft) (id : Str) : result AgentPreset :=
  let label := trim (draft_label d) in
  let command := trim (draft_command d) in
  let acp_agent_name := or_else (normalize_optional_text (draft_acp_agent_name d)) (suggested_acp_agent_name command) in
  let preset := mk_preset id label (draft_launch_mode d) command (trim_list (draft_args d)) (trim_env (draft_env d))
                  acp_agent_name (trim_list (draft_attention_patterns d)) in
  if is_empty_str label then Err (lit "preset label is required")
  else match draft_launch_mode d with
       | Terminal => if is_empty_str command then Err (lit "preset command is required") else Ok preset
       | Acp => match acp_agent_name with None => Err (lit "ACP agent name is required") | Some _ => Ok preset end
       end.

(** ** The store *)

(** What reaches the outside: a write of the state file, a notification. *)
Inductive effect : Type := Persist (written : SuperzentState) | Notify.

Record SuperzentStore : Type := mk_store { state : SuperzentState; effects : list effect }.
Implicit Types st : SuperzentStore.

Definition persist_and_notify (s : SuperzentState) st : SuperzentStore :=
  mk_store s (effects st ++ [Persist s; Notify]).

(** *** Presets *)

Definition unique_preset_id s (base_id : Str) : option Str :=
  '(id, _) ← unique_slug base_id (list_to_set (preset_id <$> presets s)); Some id.

Definition create_preset st (draft : AgentPresetDraft) : option (SuperzentStore * result AgentPreset) :=
  id ← unique_preset_id (state st) (preset_slug (draft_label draft));
  match into_preset draft id with
  | Err message => Some (st, Err message)
  | Ok preset => Some (persist_and_notify (with_presets (state st) (presets (state st) ++ [preset])) st, Ok preset)
  end.

Definition unknown_preset (id : Str) : Str := lit "unknown preset `" ++ id ++ lit "`".

Definition update_preset st (id : Str) (draft : AgentPresetDraft) : SuperzentStore * result unit :=
  match position (has_preset_id id) (presets (state st)) with
  | None => (st, Err (unknown_preset id))
  | Some preset_index =>
      match into_preset draft id with
      | Err message => (st, Err message)
      | Ok preset => (persist_and_notify (with_presets (state st) (<[preset_index:=preset]> (presets (state st)))) st, Ok ())
      end
  end.

Definition delete_preset st (id : Str) : SuperzentStore * result unit :=
  if decide (length (presets (state st)) ≤ 1)%nat then (st, Err (lit "at least one preset is required"))
  else match position (has_preset_id id) (presets (state st)) with
  | None => (st, Err (unknown_preset id))
  | Some preset_index =>
      let s := with_presets (state st) (remove_at preset_index (presets (state st))) in
      match presets s with
      | [] => (mk_store s (effects st), Err (lit "missing fallback preset"))
      | fallback :: _ =>
          let f w := if decide (agent_preset_id w = id) then set_workspace_preset (preset_id fallback) w else w in
          (persist_and_notify (with_workspaces s (f <$> workspaces s)) st, Ok ())
      end
  end.

(** Moving the element at [source] before the one that [target] finds, or to the
    end; [None] when nothing is to be done. *)
Definition move_before {A} (source : nat) (target : option (A → bool)) (l : list A) : option (list A) :=
  x ← l !! source;
  match target with
  | Some target =>
      target_index ← position target l;
      if decide (source = target_index) then None
      else
        let rest := remove_at source l in
        insert_index ← position target rest;
        Some (insert_at insert_index x rest)
  | None => Some (remove_at source l ++ [x])
  end.

Definition reorder_preset st (dragged : Str) (target : option Str) : SuperzentStore :=
  match position (has_preset_id dragged) (presets (state st)) with
  | None => st
  | Some source_index =>
      match move_before source_index (option_map has_preset_id target) (presets (state st)) with
      | Some l => persist_and_notify (with_presets (state st) l) st
      | None => st
      end
  end.

(** *** Activation *)

Definition clear_workspace_review_pending s (id : Str) : SuperzentState :=
  with_workspaces s (update_found (has_workspace_id id) clear_review (workspaces s)).

Definition set_active_workspace st (id : option Str) : SuperzentStore :=
  let s := with_active (state st) (active_project_id (state st)) id in
  let s := match id with Some id => clear_workspace_review_pending s id | None => s end in
  let active_project :=
    or_else (id ← id; w ← workspace s id; Some (workspace_project_id w))
      (option_map project_entry_id (head (projects s))) in
  persist_and_notify (with_active s active_project id) st.

Definition set_active_workspace_by_path st (path : Path) : SuperzentStore :=
  set_active_workspace st (option_map workspace_entry_id (workspace_for_path_or_ancestor (state st) path)).

Definition record_workspace_opened st (id : Str) (now : DateTime) : SuperzentStore :=
  match workspace (state st) id with
  | None => st
  | Some w =>
      let s := with_workspaces (state st)
                 (update_found (has_workspace_id id) (λ w, clear_review (set_opened_at now w)) (workspaces (state st))) in
      let project_id := workspace_project_id w in
      let s := with_projects s
                 (update_found (has_project_id project_id)
                    (λ p, set_project (collapsed p) (project_name p) now p) (projects s)) in
      persist_and_notify (with_active s (Some project_id) (Some id)) st
  end.

(** *** Projects and workspaces *)

Definition set_project_collapsed st (id : Str) (c : bool) : SuperzentStore :=
  match project (state st) id with
  | None => st
  | Some _ =>
      persist_and_notify (with_projects (state st)
        (update_found (has_project_id id) (λ p, set_project c (project_name p) (project_last_opened_at p) p)
           (projects (state st)))) st
  end.

Definition set_project_name st (id : Str) (name : Str) : SuperzentStore :=
  match project (state st) id with
  | None => st
  | Some p =>
      let name := trim name in
      if is_empty_str name || bool_decide (project_name p = name) then st
      else persist_and_notify (with_projects (state st)
             (update_found (has_project_id id) (λ p, set_project (collapsed p) name (project_last_opened_at p) p)
                (projects (state st)))) st
  end.

(** Replace the entry found by its identifier, or add it at the end. *)
Definition upsert {A} (p : A → bool) (x : A) (l : list A) : list A :=
  match find_first p l with Some _ => update_found p (λ _, x) l | None => l ++ [x] end.

Definition upsert_workspaces (ws l : list WorkspaceEntry) : list WorkspaceEntry :=
  foldl (λ l w, upsert (has_workspace_id (workspace_entry_id w)) w l) l ws.

Definition normalize_and_persist (s : SuperzentState) st : option SuperzentStore :=
  s ← normalize s; Some (persist_and_notify s st).

Definition upsert_project st (p : ProjectEntry) : option SuperzentStore :=
  normalize_and_persist
    (with_projects (state st) (upsert (has_project_id (project_entry_id p)) p (projects (state st)))) st.

Definition upsert_workspace st (w : WorkspaceEntry) : option SuperzentStore :=
  normalize_and_persist
    (with_workspaces (state st) (upsert (has_workspace_id (workspace_entry_id w)) w (workspaces (state st)))) st.

(** All entries with the identifier are replaced, not only the first. *)
Definition upsert_all {A} (p : A → bool) (x : A) (l : list A) : list A :=
  match find_first p l with Some _ => (λ y, if p y then x else y) <$> l | None => l ++ [x] end.

Definition upsert_project_bundle st (p : ProjectEntry) (w : WorkspaceEntry) : option SuperzentStore :=
  let s := with_projects (state st) (upsert_all (has_project_id (project_entry_id p)) p (projects (state st))) in
  let s := with_workspaces s (upsert_all (has_workspace_id (workspace_entry_id w)) w (workspaces s)) in
  s ← normalize s;
  let s := match active_workspace_id s with
           | None => with_active s (Some (project_entry_id p)) (Some (workspace_entry_id w))
           | Some _ => s
           end in
  Some (persist_and_notify s st).

Definition sync_workspaces st (upserts : list WorkspaceEntry) (removed : list Str) : option SuperzentStore :=
  let removed := list_to_set (C:=gset Str) removed in
  let s := state st in
  let s := with_workspaces s (filter (λ w, workspace_entry_id w ∉ removed) (workspaces s)) in
  let s := with_sessions s (filter (λ x, session_workspace_id x ∉ removed) (sessions s)) in
  normalize_and_persist (with_workspaces s (upsert_workspaces upserts (workspaces s))) st.

Definition refresh_workspace_metadata st (id : Str) (new_branch : option Str) (new_status : WorkspaceGitStatus)
    (summary : option GitChangeSummary) (persist : bool) : SuperzentStore :=
  match workspace (state st) id with
  | None => st
  | Some w =>
      if negb (update_workspace_metadata w new_branch new_status summary).2 then st
      else
        let s := with_workspaces (state st)
                   (update_found (has_workspace_id id)
                      (λ w, (update_workspace_metadata w new_branch new_status summary).1) (workspaces (state st))) in
        if persist then persist_and_notify s st else mk_store s (effects st ++ [Notify])
  end.

Definition set_workspace_display_name st (id : Str) (name : option Str) : SuperzentStore :=
  match workspace (state st) id with
  | None => st
  | Some w =>
      let name := match name with
                  | Some name => let name := trim name in
                                 if is_empty_str name || bool_decide (name = workspace_name w) then None else Some name
                  | None => None
                  end in
      if decide (display_name_override w = name) then st
      else persist_and_notify (with_workspaces (state st)
             (update_found (has_workspace_id id) (set_display_name name) (workspaces (state st)))) st
  end.

Definition set_workspace_agent_preset st (id preset_id : Str) : SuperzentStore :=
  match preset (state st) preset_id, workspace (state st) id with
  | Some _, Some w =>
      if decide (agent_preset_id w = preset_id) then st
      else persist_and_notify (with_workspaces (state st)
             (update_found (has_workspace_id id) (set_workspace_preset preset_id) (workspaces (state st)))) st
  | _, _ => st
  end.

Definition remove_workspace st (id : Str) : option (SuperzentStore * option WorkspaceEntry) :=
  match position (has_workspace_id id) (workspaces (state st)) with
  | None => Some (st, None)
  | Some ix =>
      removed ← workspaces (state st) !! ix;
      let s := with_workspaces (state st) (remove_at ix (workspaces (state st))) in
      let s := with_sessions s (filter (λ x, session_workspace_id x ≠ workspace_entry_id removed) (sessions s)) in
      st ← normalize_and_persist s st;
      Some (st, Some removed)
  end.

Definition remove_project st (id : Str) : option (SuperzentStore * option (ProjectEntry * list WorkspaceEntry)) :=
  match position (has_project_id id) (projects (state st)) with
  | None => Some (st, None)
  | Some ix =>
      removed_project ← projects (state st) !! ix;
      let s := with_projects (state st) (remove_at ix (projects (state st))) in
      let removed_workspaces := filter (λ w, workspace_project_id w = id) (workspaces s) in
      let s := with_workspaces s (filter (λ w, workspace_project_id w ≠ id) (workspaces s)) in
      let removed_ids := list_to_set (C:=gset Str) (workspace_entry_id <$> removed_workspaces) in
      let s := with_sessions s (filter (λ x, session_workspace_id x ∉ removed_ids) (sessions s)) in
      st ← normalize_and_persist s st;
      Some (st, Some (removed_project, removed_workspaces))
  end.

(** One past the last workspace of a project. *)
Fixpoint end_of_project (id : Str) (ix : nat) (l : list WorkspaceEntry) : option nat :=
  match l with
  | [] => None
  | w :: l => or_else (end_of_project id (S ix) l) (if in_project id w then Some (S ix) else None)
  end.

Definition reorder_workspace st (dragged : Str) (target : option Str) : SuperzentStore :=
  match position (has_workspace_id dragged) (workspaces (state st)) with
  | None => st
  | Some source_ix =>
      match workspaces (state st) !! source_ix with
      | None => st
      | Some w =>
          let moved :=
            match target with
            | Some target =>
                target_ix ← position (has_workspace_id target) (workspaces (state st));
                target_workspace ← workspaces (state st) !! target_ix;
                if decide (workspace_project_id target_workspace ≠ workspace_project_id w) then None
                else move_before source_ix (Some (has_workspace_id target)) (workspaces (state st))
            | None =>
                let rest := remove_at source_ix (workspaces (state st)) in
                Some (insert_at (default (length rest) (end_of_project (workspace_project_id w) 0 rest)) w rest)
            end in
          match moved with
          | Some l => persist_and_notify (with_workspaces (state st) l) st
          | None => st
          end
      end
  end.

Definition reorder_project st (dragged : Str) (target : option Str) : SuperzentStore :=
  match position (has_project_id dragged) (projects (state st)) with
  | None => st
  | Some source_ix =>
      match move_before source_ix (option_map has_project_id target) (projects (state st)) with
      | Some l => persist_and_notify (with_projects (state st) l) st
      | None => st
      end
  end.

(** *** Sessions and attention *)

(** [uuid] is the new identifier, [now] the time of the call. *)
Definition start_session st (workspace_id : Str) (p : AgentPreset) (label : Str) (uuid : Str) (now : DateTime) :
    SuperzentStore * AgentSession :=
  let session := mk_session uuid workspace_id (preset_id p) label Starting now None None in
  (persist_and_notify (with_sessions (state st) (sessions (state st) ++ [session])) st, session).

Definition finished (status : TaskStatus) : bool :=
  match status with TaskIdle | NeedsAttention | Completed | Failed => true | Starting | Running => false end.

Definition set_session_status (new_status : TaskStatus) (reason : option Str) (now : DateTime) (x : AgentSession) :
    AgentSession :=
  mk_session (session_id x) (session_workspace_id x) (session_preset_id x) (session_label x) new_status (started_at x)
    (if finished new_status then Some now else exited_at x) reason.

Definition update_session_status st (id : Str) (new_status : TaskStatus) (reason : option Str)
    (exited_now opened_now : DateTime) : SuperzentStore :=
  match find_first (has_session_id id) (sessions (state st)) with
  | None => st
  | Some x =>
      let s := with_sessions (state st)
                 (update_found (has_session_id id) (set_session_status new_status reason exited_now) (sessions (state st))) in
      let s := with_workspaces s
                 (update_found (has_workspace_id (session_workspace_id x))
                    (λ w, set_opened_at opened_now (set_attention (attention_status w) (review_pending w) reason w))
                    (workspaces s)) in
      persist_and_notify s st
  end.

Definition set_workspace_attention st (id : Str) (new_status : WorkspaceAttentionStatus) (pending : bool)
    (reason : option Str) : SuperzentStore :=
  match workspace (state st) id with
  | None => st
  | Some w =>
      if decide (attention_status w = new_status ∧ review_pending w = pending ∧
                 workspace_last_attention_reason w = reason) then st
      else persist_and_notify (with_workspaces (state st)
             (update_found (has_workspace_id id) (set_attention new_status pending reason) (workspaces (state st)))) st
  end.

Definition acknowledge_workspace_review st (id : Str) : SuperzentStore :=
  match workspace (state st) id with
  | None => st
  | Some w =>
      if review_pending w || bool_decide (attention_status w = Review)
      then persist_and_notify (with_workspaces (state st)
             (update_found (has_workspace_id id) clear_review (workspaces (state st)))) st
      else st
  end.
