(* ===== verification/StoreLoad.v ===== *)
(** * StoreLoad: loading and migrating the store

    [SuperzentStore::load], [From<LegacySuperzentState>] and [load_legacy_state] of
    [crates/superzent_model/src/lib.rs].  Reading and parsing the files is left to
    the file system and to serde: what the three parsers found is an argument. *)

From Stdlib Require Import String.
From stdpp Require Import gmap.
From S2P Require Import Prelude StoreData Store.
#[local] Open Scope N_scope.

(** ** The previous format *)

Record LegacyProjectEntry : Type := {
  lp_id : Str; lp_name : Str; lp_repo_root : Path; lp_collapsed : bool;
  lp_created_at : DateTime; lp_last_opened_at : DateTime
}.

Record LegacyWorkspaceEntry : Type := {
  lw_id : Str; lw_project_id : Str; lw_kind : WorkspaceKind; lw_name : Str; lw_display_name : option Str;
  lw_branch : Str; lw_worktree_path : Path; lw_agent_preset_id : Str; lw_managed : bool;
  lw_git_summary : option GitChangeSummary; lw_attention_status : WorkspaceAttentionStatus;
  lw_review_pending : bool; lw_last_attention_reason : option Str; lw_teardown_script_override : option Str;
  lw_created_at : DateTime; lw_last_opened_at : DateTime
}.

Record LegacySuperzentState : Type := {
  ls_active_project_id : option Str; ls_active_workspace_id : option Str;
  ls_projects : list LegacyProjectEntry; ls_workspaces : list LegacyWorkspaceEntry;
  ls_sessions : list AgentSession; ls_presets : list AgentPreset
}.

Definition or_default_presets (l : list AgentPreset) : list AgentPreset :=
  match l with [] => default_presets | _ => l end.

Definition migrate_project (p : LegacyProjectEntry) : ProjectEntry :=
  mk_project (lp_id p) (lp_name p) (ProjectLocal (lp_repo_root p)) (lp_collapsed p) (lp_created_at p) (lp_last_opened_at p).

Definition migrate_workspace (w : LegacyWorkspaceEntry) : WorkspaceEntry :=
  mk_workspace (lw_id w) (lw_project_id w) (lw_kind w) (lw_name w) (lw_display_name w) (lw_branch w)
    (WorkspaceLocal (lw_worktree_path w)) (lw_agent_preset_id w) (lw_managed w) Available (lw_git_summary w)
    (lw_attention_status w) (lw_review_pending w) (lw_last_attention_reason w) (lw_teardown_script_override w)
    (lw_created_at w) (lw_last_opened_at w).

(** [impl From<LegacySuperzentState> for SuperzentState]. *)
Definition from_legacy (s : LegacySuperzentState) : SuperzentState :=
  mk_state (ls_active_project_id s) (ls_active_workspace_id s) (migrate_project <$> ls_projects s)
    (migrate_workspace <$> ls_workspaces s) (ls_sessions s) (or_default_presets (ls_presets s)).

(** ** The oldest format, a list of tasks *)

Record LegacyTaskWorkspace : Type := {
  task_id : Str; task_name : Str; task_repo_root : Path; task_worktree_path : Path; task_branch : Str;
  task_agent_preset_id : Str; task_status : TaskStatus; task_managed : bool;
  task_last_attention_reason : option Str; task_created_at : DateTime; task_last_event_at : DateTime
}.

Record LegacyState : Type := {
  active_task_id : option Str; tasks : list LegacyTaskWorkspace; legacy_presets : list AgentPreset
}.

Section load.
(** [Path::exists] and the identifiers that [Uuid::new_v4] hands out one after the other. *)
Context (exists_ : Path → bool) (uuid : nat → Str).

Definition task_reviewed (status : TaskStatus) : bool :=
  match status with Completed | Failed | NeedsAttention => true | _ => false end.

Definition task_has_session (status : TaskStatus) : bool :=
  match status with Running | NeedsAttention | Completed | Failed => true | _ => false end.

(** The project of a repository, made when there is none: with the next identifier. *)
Definition task_project (s : SuperzentState) (next : nat) (task : LegacyTaskWorkspace) (repo_name : Str) :
    SuperzentState * nat * Str :=
  match find_first (λ p, bool_decide (local_repo_root p = Some (task_repo_root task))) (projects s) with
  | Some p => (s, next, project_entry_id p)
  | None =>
      let p := mk_project (uuid next) repo_name (ProjectLocal (task_repo_root task)) false
                 (task_created_at task) (task_last_event_at task) in
      (with_projects s (projects s ++ [p]), S next, uuid next)
  end.

Definition task_primary (s : SuperzentState) (next : nat) (task : LegacyTaskWorkspace)
    (repo_name project_id default_preset_id : Str) : SuperzentState * nat :=
  if forallb (λ w, negb (in_project project_id w) || negb (is_primary w)) (workspaces s) then
    let w := mk_workspace (uuid next) project_id Primary repo_name None (lit "HEAD")
               (WorkspaceLocal (task_repo_root task)) default_preset_id false Available None Idle false None None
               (task_created_at task) (task_last_event_at task) in
    (with_workspaces s (workspaces s ++ [w]), S next)
  else (s, next).

Definition task_workspace (task : LegacyTaskWorkspace) (project_id : Str) : WorkspaceEntry :=
  mk_workspace (task_id task) project_id Worktree (task_name task) None (task_branch task)
    (WorkspaceLocal (task_worktree_path task)) (task_agent_preset_id task) (task_managed task) Available None
    (if task_reviewed (task_status task) then Review else Idle) (task_reviewed (task_status task))
    (task_last_attention_reason task) None (task_created_at task) (task_last_event_at task).

Definition task_session (s : SuperzentState) (next : nat) (task : LegacyTaskWorkspace) (default_preset_id : Str) :
    SuperzentState * nat :=
  if task_has_session (task_status task) then
    let x := mk_session (uuid next) (task_id task) default_preset_id (lit "Migrated session") (task_status task)
               (task_created_at task) (Some (task_last_event_at task)) (task_last_attention_reason task) in
    (with_sessions s (sessions s ++ [x]), S next)
  else (s, next).

(** The body of [for task in legacy.tasks]. *)
Definition migrate_task (default_preset_id : Str) (acc : SuperzentState * nat) (task : LegacyTaskWorkspace) :
    SuperzentState * nat :=
  let '(s, next) := acc in
  if negb (exists_ (task_worktree_path task)) then (s, next) else
  let repo_name := default (lit "Project") (file_name (task_repo_root task)) in
  let '(s, next, project_id) := task_project s next task repo_name in
  let '(s, next) := task_primary s next task repo_name project_id default_preset_id in
  let s := with_workspaces s (workspaces s ++ [task_workspace task project_id]) in
  task_session s next task default_preset_id.

Definition load_legacy_state (legacy : LegacyState) : SuperzentState :=
  let presets := or_default_presets (legacy_presets legacy) in
  let default_preset_id := match presets with p :: _ => preset_id p | [] => lit "codex" end in
  (foldl (migrate_task default_preset_id) (mk_state None (active_task_id legacy) [] [] [] presets, 0%nat)
     (tasks legacy)).1.

(** [load], from what [state.json] parses to in the two formats and what [tasks.json] parses to. *)
Definition load (current : option SuperzentState) (previous : option LegacySuperzentState)
    (legacy : option LegacyState) : option SuperzentStore :=
  let s := default default_state
             (or_else current (or_else (option_map from_legacy previous) (option_map load_legacy_state legacy))) in
  let s := with_projects s (filter (λ p, match local_repo_root p with Some root => exists_ root | None => true end = true)
                              (projects s)) in
  let s := with_workspaces s (filter (λ w, is_existing_path exists_ w = true) (workspaces s)) in
  let workspace_ids := list_to_set (C:=gset Str) (workspace_entry_id <$> workspaces s) in
  let s := with_sessions s (filter (λ x, session_workspace_id x ∈ workspace_ids) (sessions s)) in
  let s := with_presets s (or_default_presets (presets s)) in
  s ← normalize s;
  Some (mk_store (clear_transient_workspace_attention s) []).
End load.
