(* ===== verification/StoreFacts.v ===== *)
(** * StoreFacts: the invariant of the store and [normalize]

    First trimming, slugs and unique identifiers, then the invariant that every operation keeps. *)

From Stdlib Require Import String Ascii.
From stdpp Require Import gmap pretty.
From Stdlib Require Import String.
From stdpp Require Import gmap.
From S2P Require Import Prelude StoreData Store.
#[local] Open Scope N_scope.

(** ** Trimming *)

Section trimming.
Context {A : Type} (p : A → bool).
Implicit Types (l : list A) (x : A).

Lemma drop_while_head l x : head (drop_while p l) = Some x → p x = false.
Proof. induction l as [|y l IH]; simpl; [done|]. destruct (p y) eqn:Hy; [done|]. by intros [= <-]. Qed.

Lemma drop_while_suffix l : ∃ k, l = k ++ drop_while p l.
Proof.
  induction l as [|y l [k Hk]]; simpl; [by exists []|]. destruct (p y); [|by exists []].
  exists (y :: k). simpl. by f_equal.
Qed.

Lemma drop_while_id l : (∀ x, head l = Some x → p x = false) → drop_while p l = l.
Proof. destruct l as [|x l]; simpl; [done|]. intros Hl. by rewrite (Hl x). Qed.

Lemma trim_by_id l :
  (∀ x, head l = Some x → p x = false) → (∀ x, last l = Some x → p x = false) → trim_by p l = l.
Proof.
  intros Hh Hl. unfold trim_by. rewrite (drop_while_id l Hh), drop_while_id; [apply reverse_involutive|].
  intros x Hx. apply Hl. by rewrite last_reverse in Hx || rewrite head_reverse in Hx.
Qed.

Lemma trim_by_ends l :
  (∀ x, head (trim_by p l) = Some x → p x = false) ∧ (∀ x, last (trim_by p l) = Some x → p x = false).
Proof.
  unfold trim_by. set (d := drop_while p l). split; intros x Hx.
  - destruct (drop_while_suffix (reverse d)) as [k Hk].
    assert (d = reverse (drop_while p (reverse d)) ++ reverse k) as Hd.
    { by rewrite <- reverse_app, <- Hk, reverse_involutive. }
    apply (drop_while_head l). fold d. rewrite Hd. by destruct (reverse (drop_while p (reverse d))).
  - rewrite last_reverse in Hx. by apply drop_while_head in Hx.
Qed.

Lemma trim_by_idempotent l : trim_by p (trim_by p l) = trim_by p l.
Proof. apply trim_by_id; apply trim_by_ends. Qed.
End trimming.

Lemma is_empty_str_true s : is_empty_str s = true ↔ s = [].
Proof. by destruct s. Qed.

Lemma normalize_optional_text_idempotent o :
  normalize_optional_text (normalize_optional_text o) = normalize_optional_text o.
Proof.
  destruct o as [s|]; simpl; [|done]. destruct (is_empty_str (trim s)) eqn:E; [done|]. simpl.
  unfold trim. rewrite trim_by_idempotent. fold (trim s). by rewrite E.
Qed.

(** ** Slugs *)

Definition slug_char (c : N) : Prop := 48 ≤ c ≤ 57 ∨ 97 ≤ c ≤ 122 ∨ c = dash.

(** No two adjacent dashes. *)
Fixpoint no_double (s : Str) : Prop :=
  match s with
  | a :: (b :: _) as s' => ¬ (a = dash ∧ b = dash) ∧ no_double s'
  | _ => True
  end.

(** Lower case letters and digits in words that single dashes separate. *)
Definition is_slug (s : Str) : Prop :=
  s ≠ [] ∧ Forall slug_char s ∧ head s ≠ Some dash ∧ last s ≠ Some dash ∧ no_double s.

Lemma no_double_snoc s c : no_double s → ¬ (last s = Some dash ∧ c = dash) → no_double (s ++ [c]).
Proof.
  induction s as [|a [|b s] IH]; simpl; [done|naive_solver|]. intros [? ?] ?. split; [done|]. by apply IH.
Qed.

Lemma no_double_app s1 s2 : no_double (s1 ++ s2) → no_double s1 ∧ no_double s2.
Proof.
  induction s1 as [|a [|b s1] IH]; [done| |].
  - simpl. destruct s2; [done|]. intros [_ ?]. done.
  - intros [? Hs]. destruct (IH Hs). done.
Qed.

Lemma no_double_middle s a : no_double (s ++ [a; a]) → a ≠ dash.
Proof. intros [_ Hs]%no_double_app. simpl in Hs. naive_solver. Qed.

(** The loop builds a slug that may still end in a dash. *)
Definition building (slug : Str) (previous : bool) : Prop :=
  Forall slug_char slug ∧ head slug ≠ Some dash ∧ no_double slug ∧ (previous = true ↔ last slug = Some dash).

Lemma lower_slug c :
  is_ascii_alphanumeric c = true → slug_char (to_ascii_lowercase c) ∧ to_ascii_lowercase c ≠ dash.
Proof.
  unfold is_ascii_alphanumeric, to_ascii_lowercase, slug_char, dash. intros Hc.
  rewrite !orb_true_iff, !andb_true_iff, !N.leb_le in Hc.
  destruct (65 <=? c) eqn:E1, (c <=? 90) eqn:E2; simpl; rewrite ?N.leb_le, ?N.leb_gt in *; lia.
Qed.

Lemma slug_loop_building chars : ∀ slug previous,
  building slug previous → ∃ previous', building (slug_loop chars slug previous) previous'.
Proof.
  induction chars as [|c chars IH]; intros slug previous Hs; simpl; [by eexists|].
  destruct (is_ascii_alphanumeric c) eqn:Hc.
  - apply lower_slug in Hc as [Hc Hd]. apply IH. destruct Hs as (Hf & Hh & Hn & Hl). split_and!.
    + apply Forall_app. split; [done|]. by apply Forall_singleton.
    + destruct slug; [simpl; congruence|done].
    + apply no_double_snoc; [done|]. naive_solver.
    + rewrite last_snoc. split; [done|congruence].
  - destruct (previous || is_empty_str slug) eqn:Hp; [by apply IH|]. apply orb_false_iff in Hp as [-> Hne].
    apply IH. destruct Hs as (Hf & Hh & Hn & Hl). split_and!.
    + apply Forall_app. split; [done|]. apply Forall_singleton. by right; right.
    + by destruct slug.
    + apply no_double_snoc; [done|]. intros [Hlast _]. by apply Hl in Hlast.
    + by rewrite last_snoc.
Qed.

Lemma trim_dashes slug previous :
  building slug previous →
  trim_by (λ c, c =? dash) slug = [] ∨ is_slug (trim_by (λ c, c =? dash) slug).
Proof.
  intros (Hf & Hh & Hn & Hl).
  assert (∀ c, (c =? dash) = false ↔ c ≠ dash) as Hneq by (intros c; apply N.eqb_neq).
  destruct (list_eq_nil_dec slug) as [->|Hne]; [by left|]. right.
  destruct (exists_last Hne) as (l & c & ->). destruct (decide (c = dash)) as [->|Hc].
  - assert (trim_by (λ c, c =? dash) (l ++ [dash]) = l) as ->.
    { unfold trim_by. rewrite (drop_while_id _ (l ++ [dash])) by (intros x Hx; apply Hneq; intros ->; done).
      rewrite reverse_snoc. simpl. rewrite drop_while_id; [apply reverse_involutive|].
      intros x Hx. apply Hneq. intros ->. rewrite head_reverse in Hx.
      destruct (exists_last (l:=l)) as (l' & y & ->); [by intros ->|]. rewrite last_snoc in Hx. injection Hx as ->.
      rewrite <- (assoc_L (++)) in Hn. by apply no_double_middle in Hn. }
    assert (l ≠ []) as Hl0 by (by intros ->). split_and!; [done|by apply Forall_app in Hf as [? _]| | |by apply no_double_app in Hn as [? _]].
    + by destruct l.
    + intros Hlast. destruct (exists_last Hl0) as (l' & y & ->). rewrite last_snoc in Hlast. injection Hlast as ->.
      rewrite <- (assoc_L (++)) in Hn. by apply no_double_middle in Hn.
  - rewrite trim_by_id; [split_and!; [done|done|done|rewrite last_snoc; congruence|done]| |].
    + intros x Hx. apply Hneq. intros ->. done.
    + intros x. rewrite last_snoc. intros [= <-]. by apply Hneq.
Qed.

Lemma is_slug_preset : is_slug (lit "preset").
Proof. split_and!; [done| |done|done|by simpl; naive_solver]. repeat constructor; unfold slug_char; simpl; lia. Qed.

Lemma preset_slug_is_slug s : is_slug (preset_slug s).
Proof.
  unfold preset_slug. destruct (slug_loop_building s [] false) as (previous & Hb).
  { split_and!; [constructor|done|done|done]. }
  destruct (trim_dashes _ _ Hb) as [->|Hs]; [apply is_slug_preset|].
  destruct (is_empty_str _) eqn:E; [apply is_slug_preset|done].
Qed.

Lemma slug_loop_id s : ∀ slug previous,
  Forall slug_char s → no_double (slug ++ s) → head (slug ++ s) ≠ Some dash →
  (previous = true ↔ last slug = Some dash) → slug_loop s slug previous = slug ++ s.
Proof.
  induction s as [|c s IH]; intros slug previous Hf Hn Hh Hp; simpl; [by rewrite app_nil_r|].
  apply Forall_cons in Hf as [Hc Hf]. rewrite (cons_middle c slug s), (assoc_L (++) slug [c] s) in Hn, Hh |- *.
  assert (is_ascii_alphanumeric c = true ∧ to_ascii_lowercase c = c ∧ c ≠ dash ∨
    is_ascii_alphanumeric c = false ∧ c = dash) as [(-> & -> & Hd)|[-> ->]].
  { unfold slug_char, is_ascii_alphanumeric, to_ascii_lowercase, dash in *.
    destruct (48 <=? c) eqn:E1, (c <=? 57) eqn:E2, (65 <=? c) eqn:E3, (c <=? 90) eqn:E4, (97 <=? c) eqn:E5,
      (c <=? 122) eqn:E6; simpl; rewrite ?N.leb_le, ?N.leb_gt in *; lia. }
  - apply IH; [done|done|done|]. rewrite last_snoc. split; [done|congruence].
  - assert (previous = false) as ->.
    { destruct previous; [|done]. pose proof (proj1 Hp eq_refl) as Hlast.
      destruct (exists_last (l:=slug)) as (l & x & ->); [by intros ->|]. rewrite last_snoc in Hlast. injection Hlast as ->.
      apply no_double_app in Hn as [Hn _]. rewrite <- (assoc_L (++)) in Hn. by apply no_double_middle in Hn. }
    assert (is_empty_str slug = false) as -> by (by destruct slug). simpl. apply IH; [done|done|done|].
    by rewrite last_snoc.
Qed.

Lemma preset_slug_id s : is_slug s → preset_slug s = s.
Proof.
  intros (Hne & Hf & Hh & Hl & Hn). unfold preset_slug. rewrite slug_loop_id by done. rewrite app_nil_l, trim_by_id.
  - by destruct s.
  - intros x Hx. apply N.eqb_neq. intros ->. done.
  - intros x Hx. apply N.eqb_neq. intros ->. done.
Qed.

(** ** Unique identifiers *)

Definition digit (c : N) : Prop := 48 ≤ c ≤ 57.

Lemma lit_cons c s : lit (String c s) = N_of_ascii c :: lit s.
Proof. done. Qed.

Lemma pretty_digit x : digit (N_of_ascii (pretty_N_char x)).
Proof.
  unfold digit, pretty_N_char.
  repeat match goal with |- context [match ?p with _ => _ end] => destruct p end; simpl; lia.
Qed.

Lemma pretty_go_digits x : ∀ s, Forall digit (lit s) → Forall digit (lit (pretty_N_go x s)).
Proof.
  induction (N.lt_wf_0 x) as [x _ IH]. intros s Hs.
  assert (x = 0 ∨ 0 < x) as [->|Hx] by lia; [by rewrite pretty_N_go_0|].
  rewrite pretty_N_go_step by done. apply IH; [by apply N.div_lt|].
  rewrite lit_cons. constructor; [apply pretty_digit|done].
Qed.

Lemma pretty_go_nonempty x : ∀ s, lit s ≠ [] → lit (pretty_N_go x s) ≠ [].
Proof.
  induction (N.lt_wf_0 x) as [x _ IH]. intros s Hs.
  assert (x = 0 ∨ 0 < x) as [->|Hx] by lia; [by rewrite pretty_N_go_0|].
  rewrite pretty_N_go_step by done. apply IH; [by apply N.div_lt|done].
Qed.

Lemma pretty_digits (n : N) : Forall digit (lit (pretty n)) ∧ lit (pretty n) ≠ [].
Proof.
  unfold pretty, pretty_N. case_decide as Hn.
  { split; [|done]. repeat constructor; unfold digit; simpl; lia. }
  split; [apply pretty_go_digits; constructor|]. rewrite pretty_N_go_step by lia. by apply pretty_go_nonempty.
Qed.

Lemma lit_inj s t : lit s = lit t → s = t.
Proof.
  revert t. induction s as [|c s IH]; intros [|d t]; try done. rewrite !lit_cons. intros [= Hc Hs].
  f_equal; [|by apply IH]. rewrite <- (ascii_N_embedding c), <- (ascii_N_embedding d). by f_equal.
Qed.

Lemma with_suffix_inj base m n : with_suffix base m = with_suffix base n → m = n.
Proof. unfold with_suffix. intros [= Hs]%app_inv_head. by apply lit_inj, (inj pretty) in Hs. Qed.

Lemma with_suffix_ne base n : with_suffix base n ≠ base.
Proof. intros Hs%(f_equal length). unfold with_suffix in Hs. rewrite length_app in Hs. simpl in Hs. lia. Qed.

Lemma no_double_digits s : Forall (λ c, c ≠ dash) s → no_double s.
Proof.
  induction s as [|a [|b s] IH]; [done|done|]. intros [Ha Hs]%Forall_cons. split; [naive_solver|by apply IH].
Qed.

Lemma no_double_join s1 s2 :
  no_double s1 → no_double s2 → last s1 ≠ Some dash → no_double (s1 ++ s2).
Proof.
  induction s1 as [|a [|b s1] IH]; intros H1 H2 Hl; [done| |].
  - simpl in *. destruct s2; [done|]. split; [|done]. naive_solver.
  - destruct H1 as [? H1]. split; [done|]. by apply IH.
Qed.

Lemma with_suffix_slug base n : is_slug base → is_slug (with_suffix base n).
Proof.
  intros (Hne & Hf & Hh & Hl & Hn). destruct (pretty_digits n) as [Hd Hdn]. unfold with_suffix.
  assert (Forall (λ c, c ≠ dash) (lit (pretty n))) as Hnd.
  { eapply Forall_impl; [exact Hd|]. intros c. unfold digit, dash. simpl. lia. }
  split_and!.
  - by destruct base.
  - apply Forall_app. split; [done|]. constructor; [by right; right|].
    eapply Forall_impl; [exact Hd|]. intros c ?. by left.
  - by destruct base.
  - rewrite (assoc_L (++)). destruct (exists_last Hdn) as (l & c & Hc). rewrite Hc, (assoc_L (++)), last_snoc.
    rewrite Hc, Forall_app, Forall_singleton in Hnd. naive_solver.
  - apply no_double_join; [done| |done]. destruct (lit (pretty n)) as [|c s] eqn:E; [done|].
    split; [apply Forall_cons in Hnd; naive_solver|by apply no_double_digits].
Qed.

(** The fuel of [unique_slug] is enough: the candidates found taken are different
    members of [used_ids]. *)
Lemma unique_loop_spec fuel : ∀ base next suffix used tried,
  tried ⊆ used → (size used ≤ fuel + size tried)%nat → next ∉ tried →
  (∀ id, id ∈ tried → ∀ k, suffix ≤ k → id ≠ with_suffix base k) →
  (∀ k, suffix ≤ k → next ≠ with_suffix base k) →
  ∃ id, unique_loop fuel base next suffix used = Some id ∧ (id ∉ used) ∧
    (id = next ∨
     (next ∈ used ∧ ∃ k, suffix ≤ k ∧ id = with_suffix base k ∧ ∀ j, suffix ≤ j < k → with_suffix base j ∈ used)).
Proof.
  induction fuel as [|fuel IH]; intros base next suffix used tried Hsub Hsize Hnext Htried Hk; simpl.
  - case_decide as Hin; [|exists next; naive_solver]. exfalso.
    assert ({[next]} ∪ tried ⊆ used) as Hs by set_solver. apply subseteq_size in Hs.
    rewrite size_union, size_singleton in Hs by set_solver. lia.
  - case_decide as Hin; [|exists next; naive_solver].
    destruct (IH base (with_suffix base suffix) (suffix + 1) used ({[next]} ∪ tried)) as (id & Hid & Hnew & Hcase).
    + set_solver.
    + rewrite size_union, size_singleton by set_solver. lia.
    + intros [Heq%elem_of_singleton|Ht]%elem_of_union; [by apply (Hk suffix); [lia|]|].
      by apply (Htried _ Ht suffix); [lia|].
    + intros id [->%elem_of_singleton|Ht]%elem_of_union k Hle; [apply Hk; lia|apply Htried; [done|lia]].
    + intros k Hle Heq%with_suffix_inj. lia.
    + exists id. split_and!; [done|done|]. right. split; [done|]. destruct Hcase as [->|(Hused & k & Hle & -> & Hall)].
      * exists suffix. split_and!; [lia|done|]. intros j ?. lia.
      * exists k. split_and!; [lia|done|]. intros j Hj. destruct (decide (j = suffix)) as [->|]; [done|]. apply Hall. lia.
Qed.

Lemma unique_slug_spec base_id used_ids :
  let base := preset_slug base_id in
  ∃ id, unique_slug base_id used_ids = Some (id, {[id]} ∪ used_ids) ∧ (id ∉ used_ids) ∧ is_slug id ∧
    (base ∉ used_ids → id = base) ∧
    (base ∈ used_ids → ∃ k, 2 ≤ k ∧ id = with_suffix base k ∧ ∀ j, 2 ≤ j < k → with_suffix base j ∈ used_ids).
Proof.
  cbv zeta. unfold unique_slug.
  destruct (unique_loop_spec (size used_ids) (preset_slug base_id) (preset_slug base_id) 2 used_ids ∅)
    as (id & -> & Hnew & Hcase).
  - set_solver.
  - lia.
  - set_solver.
  - set_solver.
  - intros k _ Heq. by apply (with_suffix_ne (preset_slug base_id) k).
  - exists id. split_and!; [done|done| | |].
    + destruct Hcase as [->|(_ & k & _ & -> & _)]; [|apply with_suffix_slug]; apply preset_slug_is_slug.
    + intros Hb. by destruct Hcase as [?|[? _]].
    + intros Hb. destruct Hcase as [->|[_ ?]]; done.
Qed.

Implicit Types (s : SuperzentState) (st : SuperzentStore).

Abbreviation project_ids s := (project_entry_id <$> projects s).
Abbreviation workspace_ids s := (workspace_entry_id <$> workspaces s).
Abbreviation preset_ids s := (preset_id <$> presets s).

(** Every workspace has its project and its preset; the presets are there, with
    different slugs for identifiers. *)
Record state_ok s : Prop := {
  ok_projects w : w ∈ workspaces s → workspace_project_id w ∈ project_ids s;
  ok_presets : presets s ≠ [];
  ok_slugs : Forall is_slug (preset_ids s);
  ok_distinct : NoDup (preset_ids s);
  ok_agents w : w ∈ workspaces s → agent_preset_id w ∈ preset_ids s
}.

(** The active workspace is one of the workspaces. *)
Definition active_ok s : Prop := ∀ id, active_workspace_id s = Some id → id ∈ workspace_ids s.

(** A review is pending exactly on the workspaces that show one, the live ones apart. *)
Definition attention_ok s : Prop :=
  ∀ w, w ∈ workspaces s →
    (attention_status w = Review → review_pending w = true) ∧
    (review_pending w = true → attention_status w ≠ Idle).

(** ** Lists *)

Section lists.
Context {A : Type}.
Implicit Types (p : A → bool) (f : A → A) (l : list A).

Lemma filter_all_in (P : A → Prop) `{!∀ x, Decision (P x)} l : (∀ x, x ∈ l → P x) → filter P l = l.
Proof.
  induction l as [|x l IH]; intros Hl; [done|]. rewrite filter_cons, decide_True by (apply Hl; left).
  f_equal. apply IH. intros y Hy. apply Hl. by right.
Qed.

Lemma find_first_Some p l x : find_first p l = Some x → x ∈ l ∧ p x = true.
Proof.
  induction l as [|y l IH]; simpl; [done|]. destruct (p y) eqn:Hy.
  - intros [= ->]. by split; [left|].
  - intros [? ?]%IH. by split; [right|].
Qed.

Lemma find_first_None p l : find_first p l = None ↔ ∀ x, x ∈ l → p x = false.
Proof.
  induction l as [|y l IH]; simpl; [split; [by intros _ x ?%elem_of_nil|done]|]. destruct (p y) eqn:Hy.
  - split; [done|]. intros Hall. rewrite (Hall y) in Hy by left. done.
  - rewrite IH. split; [intros Hall x [->|?]%elem_of_cons; auto|intros Hall x ?; apply Hall; by right].
Qed.

Lemma find_first_fmap p f l : (∀ x, p (f x) = p x) → find_first p (f <$> l) = f <$> find_first p l.
Proof. intros Hp. induction l as [|x l IH]; simpl; [done|]. rewrite Hp. by destruct (p x). Qed.

Lemma elem_of_update_found p f l x : x ∈ update_found p f l → x ∈ l ∨ ∃ y, y ∈ l ∧ p y = true ∧ x = f y.
Proof.
  induction l as [|y l IH]; simpl; [by intros ?%elem_of_nil|]. destruct (p y) eqn:Hy.
  - intros [->|?]%elem_of_cons; [right; exists y; by split_and!; [left|..]|left; by right].
  - intros [->|Hx]%elem_of_cons; [left; by left|]. destruct (IH Hx) as [?|(z & ? & ? & ->)]; [left; by right|].
    right. exists z. by split_and!; [right|..].
Qed.

Lemma fmap_update_found {B} (g : A → B) p f l : (∀ x, g (f x) = g x) → g <$> update_found p f l = g <$> l.
Proof.
  intros Hg. induction l as [|x l IH]; simpl; [done|]. destruct (p x); simpl; [by rewrite Hg|by f_equal].
Qed.

Lemma position_Some p l i :
  position p l = Some i → ∃ l1 x l2, l = l1 ++ x :: l2 ∧ length l1 = i ∧ p x = true ∧ Forall (λ y, p y = false) l1.
Proof.
  revert i. induction l as [|y l IH]; simpl; [done|]. intros i. destruct (p y) eqn:Hy.
  - intros [= <-]. by exists [], y, l.
  - destruct (position p l) as [j|]; [|done]. intros [= <-].
    destruct (IH j eq_refl) as (l1 & x & l2 & -> & <- & ? & ?). exists (y :: l1), x, l2. by split_and!; [| | |constructor].
Qed.

Lemma remove_at_app l1 x l2 : remove_at (length l1) (l1 ++ x :: l2) = l1 ++ l2.
Proof.
  unfold remove_at. rewrite take_app_length. f_equal. rewrite drop_app_ge by lia.
  by replace (S (length l1) - length l1)%nat with 1%nat by lia.
Qed.

Lemma remove_at_permutation i l x : l !! i = Some x → x :: remove_at i l ≡ₚ l.
Proof.
  intros Hi. unfold remove_at. rewrite <- (take_drop_middle l i x Hi) at 3. apply Permutation_middle.
Qed.

Lemma insert_at_permutation i (x : A) l : insert_at i x l ≡ₚ x :: l.
Proof. unfold insert_at. rewrite <- Permutation_middle. by rewrite take_drop. Qed.

Lemma move_before_permutation i target l l' : move_before i target l = Some l' → l' ≡ₚ l.
Proof.
  unfold move_before. destruct (l !! i) as [x|] eqn:Hi; [|done]. simpl.
  pose proof (remove_at_permutation _ _ _ Hi) as Hp. destruct target as [p|].
  - destruct (position p l) as [j|]; [|done]. simpl. case_decide; [done|].
    destruct (position p (remove_at i l)); [|done]. intros [= <-]. by rewrite insert_at_permutation.
  - intros [= <-]. by rewrite <- Permutation_cons_append.
Qed.
End lists.

(** ** Normalized presets *)

Definition preset_normal (p : AgentPreset) : Prop :=
  is_slug (preset_id p) ∧ is_empty_str (trim (label p)) = false ∧
  or_else (normalize_optional_text (acp_agent_name p)) (suggested_acp_agent_name (command p)) = acp_agent_name p.

Lemma suggested_normal c :
  normalize_optional_text (suggested_acp_agent_name c) = suggested_acp_agent_name c.
Proof. unfold suggested_acp_agent_name. by repeat case_decide. Qed.

Lemma acp_normal a c :
  let name := or_else (normalize_optional_text a) (suggested_acp_agent_name c) in
  or_else (normalize_optional_text name) (suggested_acp_agent_name c) = name.
Proof.
  cbv zeta. pose proof (normalize_optional_text_idempotent a) as Hi.
  destruct (normalize_optional_text a) as [x|]; cbn [or_else]; [by rewrite Hi|].
  rewrite suggested_normal. by destruct (suggested_acp_agent_name c).
Qed.

Lemma slug_not_blank id : is_slug id → is_empty_str (trim id) = false.
Proof.
  intros (Hne & Hf & _).
  assert (∀ c, c ∈ id → is_whitespace c = false) as Hw.
  { intros c Hc. rewrite Forall_forall in Hf. specialize (Hf c Hc). unfold slug_char, dash in Hf.
    unfold is_whitespace. rewrite !orb_false_iff, !andb_false_iff, !N.leb_gt, !N.eqb_neq. lia. }
  unfold trim. rewrite trim_by_id; [by destruct id| |].
  - intros c Hc. apply Hw. destruct id; [done|]. injection Hc as ->. left.
  - intros c Hc. apply Hw. by apply last_Some_elem_of.
Qed.

Lemma normalize_preset_spec p used :
  ∃ p', normalize_preset p used = Some (p', {[preset_id p']} ∪ used) ∧ (preset_id p' ∉ used) ∧ preset_normal p'.
Proof.
  unfold normalize_preset.
  set (desired := if is_empty_str (trim (preset_id p)) then _ else _).
  destruct (unique_slug_spec desired used) as (id & -> & Hnew & Hslug & _). simpl.
  match goal with |- context [Some (?q, _)] => exists q end. split; [reflexivity|]. split; [exact Hnew|]. split_and!; [done| |apply acp_normal].
  cbn [label]. destruct (is_empty_str (trim (label p))) eqn:E; [vm_compute; done|exact E].
Qed.

Lemma normalize_presets_spec l : ∀ used,
  ∃ l', normalize_presets l used = Some l' ∧ length l' = length l ∧ NoDup (preset_id <$> l') ∧
    Forall preset_normal l' ∧ Forall (λ p, preset_id p ∉ used) l'.
Proof.
  induction l as [|p l IH]; intros used; simpl; [exists []; by repeat constructor|].
  destruct (normalize_preset_spec p used) as (p' & -> & Hnew & Hp). simpl.
  destruct (IH ({[preset_id p']} ∪ used)) as (l' & -> & Hlen & Hnd & Hn & Hf). simpl.
  exists (p' :: l'). split_and!; [done|simpl; lia| |by constructor|].
  - constructor; [|done]. intros (q & Hq & Hin)%list_elem_of_fmap. rewrite Forall_forall in Hf.
    specialize (Hf q Hin). set_solver.
  - constructor; [done|]. eapply Forall_impl; [exact Hf|]. intros q. set_solver.
Qed.

(** Presets that are normal are left alone. *)
Lemma normalize_presets_id l : ∀ used,
  NoDup (preset_id <$> l) → Forall preset_normal l → Forall (λ p, preset_id p ∉ used) l →
  normalize_presets l used = Some l.
Proof.
  induction l as [|p l IH]; intros used Hnd Hn Hf; simpl; [done|].
  apply NoDup_cons in Hnd as [Hp Hnd]. apply Forall_cons in Hn as [(Hs & Hl & Ha) Hn]. apply Forall_cons in Hf as [Hu Hf].
  unfold normalize_preset. rewrite (slug_not_blank _ Hs), (preset_slug_id _ Hs), Hl, Ha.
  destruct (unique_slug_spec (preset_id p) used) as (id & -> & _ & _ & Hid & _).
  rewrite (preset_slug_id _ Hs) in Hid. rewrite (Hid Hu). simpl.
  rewrite IH; [by destruct p|done|done|]. rewrite Forall_forall in Hf |- *. intros q Hq.
  specialize (Hf q Hq). intros [Heq%elem_of_singleton|?]%elem_of_union; [|done].
  apply Hp. rewrite <- Heq. by apply list_elem_of_fmap_2.
Qed.

Lemma slug_lit (s : Str) : preset_slug s = s → is_slug s.
Proof. intros <-. apply preset_slug_is_slug. Qed.

Lemma default_presets_normal : NoDup (preset_id <$> default_presets) ∧ Forall preset_normal default_presets.
Proof.
  split; [apply (bool_decide_unpack _); vm_compute; done|].
  repeat (constructor; [split; [apply slug_lit|split]; vm_compute; done|]). constructor.
Qed.

(** ** [normalize] *)

Lemma normalize_workspace_keeps valid fallback w :
  let w' := normalize_workspace valid fallback w in
  workspace_entry_id w' = workspace_entry_id w ∧ workspace_project_id w' = workspace_project_id w ∧
  kind w' = kind w ∧
  agent_preset_id w' = (if decide (agent_preset_id w ∈ valid) then agent_preset_id w else fallback) ∧
  (attention_status w' = Review → review_pending w' = true) ∧
  (review_pending w' = true → attention_status w' ≠ Idle).
Proof.
  cbv zeta. unfold normalize_workspace.
  set (w1 := if decide (agent_preset_id w ∈ valid) then w else set_workspace_preset fallback w).
  assert (workspace_entry_id w1 = workspace_entry_id w ∧ workspace_project_id w1 = workspace_project_id w ∧
    kind w1 = kind w ∧
    agent_preset_id w1 = if decide (agent_preset_id w ∈ valid) then agent_preset_id w else fallback) as Hw1.
  { unfold w1. by destruct (decide (agent_preset_id w ∈ valid)). }
  destruct Hw1 as (H1 & H2 & H3 & H4). clearbody w1. destruct (decide (attention_status w1 = Review)) as [Hr|Hr].
  { by split_and!. }
  destruct (review_pending w1 && bool_decide (attention_status w1 = Idle)) eqn:E; [by split_and!|].
  apply andb_false_iff in E. rewrite bool_decide_eq_false in E. split_and!; try done. intros Hp. destruct E as [E|E]; [congruence|done].
Qed.

(** The second run changes nothing. *)
Lemma normalize_workspace_id valid fallback w :
  agent_preset_id w ∈ valid → (attention_status w = Review → review_pending w = true) →
  (review_pending w = true → attention_status w ≠ Idle) → normalize_workspace valid fallback w = w.
Proof.
  intros Ha Hr Hp. unfold normalize_workspace. destruct (decide (agent_preset_id w ∈ valid)); [|done]. case_decide as Hs.
  - specialize (Hr Hs). destruct w. simpl in *. by subst.
  - destruct (review_pending w && _) eqn:E; [|done]. apply andb_true_iff in E as [E1 E2].
    apply bool_decide_eq_true in E2. by destruct (Hp E1).
Qed.

Lemma elem_of_ids {A} (f : A → Str) (l : list A) id : id ∈ list_to_set (C:=gset Str) (f <$> l) ↔ ∃ x, x ∈ l ∧ f x = id.
Proof. rewrite elem_of_list_to_set, list_elem_of_fmap. naive_solver. Qed.

(** What the first two steps establish. *)
Record active_normal s : Prop := {
  normal_projects w : w ∈ workspaces s → workspace_project_id w ∈ project_ids s;
  normal_active : match active_workspace_id s with
                  | Some id => ∃ w, workspace s id = Some w ∧ active_project_id s = Some (workspace_project_id w)
                  | None => workspaces s = [] ∧
                      match active_project_id s with
                      | Some id => id ∈ project_ids s
                      | None => projects s = []
                      end
                  end
}.

Lemma workspace_exists s id : id ∈ workspace_ids s → ∃ w, workspace s id = Some w.
Proof.
  intros (w & -> & Hw)%list_elem_of_fmap. destruct (workspace s (workspace_entry_id w)) as [w'|] eqn:E; [by eexists|].
  unfold workspace in E. rewrite find_first_None in E. specialize (E w Hw).
  apply bool_decide_eq_false in E. done.
Qed.

Lemma workspace_Some s id w : workspace s id = Some w → w ∈ workspaces s ∧ workspace_entry_id w = id.
Proof. intros [? ?%bool_decide_eq_true]%find_first_Some. done. Qed.

Lemma default_startup_elem s w : default_startup_workspace s = Some w → w ∈ workspaces s.
Proof.
  unfold default_startup_workspace, primary_workspace_for_project.
  destruct (projects s) as [|p ps]; simpl; [destruct (workspaces s); [done|intros [= ->]; left]|].
  destruct (find_first _ _) eqn:E; simpl.
  - intros [= ->]. by apply find_first_Some in E as [? _].
  - destruct (workspaces s); [done|intros [= ->]; left].
Qed.

Lemma default_startup_None s : default_startup_workspace s = None → workspaces s = [].
Proof. unfold default_startup_workspace. destruct (head _ ≫= _); [done|]. by destruct (workspaces s). Qed.

Lemma normalized_active_spec s :
  match normalized_active s with Some id => id ∈ workspace_ids s | None => workspaces s = [] end.
Proof.
  unfold normalized_active. set (fallback := option_map workspace_entry_id (default_startup_workspace s)).
  assert (match fallback with Some id => id ∈ workspace_ids s | None => workspaces s = [] end) as Hfb.
  { unfold fallback. destruct (default_startup_workspace s) as [w|] eqn:E; simpl.
    - apply list_elem_of_fmap_2. by apply default_startup_elem.
    - by apply default_startup_None. }
  destruct (active_workspace_id s) as [id|]; [|by destruct fallback]. case_decide as Hin; [|by destruct fallback].
  by apply elem_of_list_to_set in Hin.
Qed.

Lemma normalize_active_normal s :
  (∀ w, w ∈ workspaces s → workspace_project_id w ∈ project_ids s) → active_normal (normalize_active s).
Proof.
  intros Hp. unfold normalize_active. pose proof (normalized_active_spec s) as Hactive.
  set (active := normalized_active s) in *.
  clearbody active. split; [done|]. simpl. destruct active as [id|].
  - destruct (workspace_exists s id Hactive) as (w & Hw). exists w. split; [done|]. simpl. by rewrite Hw.
  - split; [done|]. simpl. destruct (active_project_id s) as [id|]; [case_decide as Hin; [by apply elem_of_list_to_set in Hin|]|];
      simpl; destruct (projects s); try done; simpl; left.
Qed.

(** On a state in this form the first two steps change nothing. *)
Lemma normalize_active_id s : active_normal s → normalize_active (drop_orphans s) = s.
Proof.
  intros [Hp Ha].
  assert (drop_orphans s = s) as ->.
  { unfold drop_orphans, with_workspaces. rewrite filter_all_in; [by destruct s|].
    intros w Hw. apply elem_of_list_to_set. by apply Hp. }
  unfold normalize_active, normalized_active, with_active. destruct (active_workspace_id s) as [id|] eqn:Hid.
  - destruct Ha as (w & Hw & Hproj). rewrite decide_True.
    2:{ apply elem_of_ids. apply workspace_Some in Hw. eauto. }
    simpl. rewrite Hw. simpl. rewrite <- Hproj, <- Hid. by destruct s.
  - destruct Ha as [Hws Hproj]. unfold default_startup_workspace, primary_workspace_for_project. rewrite Hws. simpl.
    assert (or_else (p ← head (projects s); (None : option WorkspaceEntry)) None = None) as ->.
    { by destruct (head (projects s)). }
    simpl. destruct (active_project_id s) as [pid|] eqn:Hpid.
    + rewrite decide_True by (by apply elem_of_list_to_set). simpl. rewrite <- Hid, <- Hpid, <- Hws. by destruct s.
    + rewrite Hproj. simpl. rewrite <- Hproj, <- Hpid, <- Hid at 1. destruct s. simpl in *. by subst.
Qed.

(** What [normalize] establishes, and all it looks at. *)
Record normal s : Prop := {
  normal_active_part : active_normal s;
  normal_nonempty : presets s ≠ [];
  normal_distinct : NoDup (preset_ids s);
  normal_presets : Forall preset_normal (presets s);
  normal_agents w : w ∈ workspaces s → agent_preset_id w ∈ preset_ids s;
  normal_attention : attention_ok s
}.

Lemma find_normalize_workspace valid fallback s id :
  find_first (has_workspace_id id) (normalize_workspace valid fallback <$> workspaces s) =
  normalize_workspace valid fallback <$> workspace s id.
Proof.
  unfold workspace. apply find_first_fmap. intros w. unfold has_workspace_id.
  by destruct (normalize_workspace_keeps valid fallback w) as [-> _].
Qed.

(** The presets after [normalize]. *)
Lemma normalize_presets_result l :
  ∃ l', normalize_presets l ∅ = Some l' ∧
    let l' := match l' with [] => default_presets | _ => l' end in
    l' ≠ [] ∧ NoDup (preset_id <$> l') ∧ Forall preset_normal l' ∧ (l ≠ [] → length l' = length l).
Proof.
  destruct (normalize_presets_spec l ∅) as (l' & Hl & Hlen & Hnd & Hn & _). exists l'. split; [done|]. destruct l' as [|p l'].
  - destruct default_presets_normal. cbv zeta. split_and!; [done..|]. by destruct l.
  - by split_and!.
Qed.

Lemma normalize_normal s :
  ∃ s', normalize s = Some s' ∧ normal s' ∧ projects s' = projects s ∧ sessions s' = sessions s ∧
    workspace_ids s' = workspace_entry_id <$> filter (λ w, workspace_project_id w ∈ project_ids s) (workspaces s) ∧
    (presets s ≠ [] → length (presets s') = length (presets s)).
Proof.
  unfold normalize. cbv zeta. set (s1 := normalize_active (drop_orphans s)).
  assert (∀ w, w ∈ workspaces (drop_orphans s) → workspace_project_id w ∈ project_ids (drop_orphans s)) as Horphan.
  { intros w Hw. unfold drop_orphans in Hw. simpl in Hw. apply list_elem_of_filter in Hw as [Hw _].
    by apply elem_of_list_to_set in Hw. }
  pose proof (normalize_active_normal _ Horphan) as Hs1. fold s1 in Hs1.
  assert (projects s1 = projects s ∧ sessions s1 = sessions s ∧ presets s1 = presets s ∧
    workspaces s1 = workspaces (drop_orphans s)) as (Hs1p & Hs1s & Hs1r & Hs1w) by done.
  clearbody s1. destruct (normalize_presets_result (presets s1)) as (l & -> & Hne & Hnd & Hn & Hlen). simpl.
  set (l' := match l with [] => default_presets | _ => l end) in *.
  set (fallback := match l' with p :: _ => preset_id p | [] => _ end).
  set (valid := list_to_set (preset_id <$> l')).
  eexists. split; [reflexivity|]. split; [split|]; simpl.
  - destruct Hs1 as [Hp Ha]. split; simpl.
    + intros w (v & -> & Hv)%list_elem_of_fmap.
      destruct (normalize_workspace_keeps valid fallback v) as (_ & -> & _). by apply Hp.
    + destruct (active_workspace_id s1) as [id|] eqn:Hid.
      * destruct Ha as (w & Hw & Hproj). exists (normalize_workspace valid fallback w).
        destruct (normalize_workspace_keeps valid fallback w) as (_ & -> & _). split; [|done].
        unfold workspace. simpl. by rewrite find_normalize_workspace, Hw.
      * destruct Ha as [-> Ha]. by split.
  - done.
  - done.
  - done.
  - intros w (v & -> & Hv)%list_elem_of_fmap.
    destruct (normalize_workspace_keeps valid fallback v) as (_ & _ & _ & -> & _). case_decide as Hin.
    + by apply elem_of_list_to_set in Hin.
    + unfold fallback. destruct l'; [done|]. left.
  - intros w (v & -> & Hv)%list_elem_of_fmap. apply (normalize_workspace_keeps valid fallback v).
  - split_and!; [done|done| |by rewrite <- Hs1r].
    + rewrite <- list_fmap_compose, Hs1w.
      rewrite (list_fmap_ext (workspace_entry_id ∘ normalize_workspace valid fallback) workspace_entry_id).
      * f_equal. apply list_filter_iff. intros w. apply elem_of_list_to_set.
      * intros i w _. apply (normalize_workspace_keeps valid fallback w).
Qed.

Lemma normalize_id s : normal s → normalize s = Some s.
Proof.
  intros [Ha Hne Hnd Hn Hag Hatt]. unfold normalize. rewrite (normalize_active_id s Ha).
  rewrite normalize_presets_id; [|done|done|]. 2:{ apply Forall_forall. intros p _. apply not_elem_of_empty. }
  simpl. assert (match presets s with [] => default_presets | _ => presets s end = presets s) as -> by (by destruct (presets s)).
  f_equal. unfold with_workspaces, with_presets. simpl.
  set (valid := list_to_set _). set (fallback := match presets s with [] => _ | _ => _ end).
  assert (normalize_workspace valid fallback <$> workspaces s = workspaces s) as ->; [|by destruct s].
  rewrite <- list_fmap_id. apply Forall_fmap_ext_1, Forall_forall. intros w Hw. destruct (Hatt w Hw).
  apply normalize_workspace_id; [|done..]. apply elem_of_list_to_set. by apply Hag.
Qed.

Lemma normal_state_ok s : normal s → state_ok s ∧ active_ok s.
Proof.
  intros [[Hp Ha] Hne Hnd Hn Hag _]. split.
  - split; [done|done| |done|done]. apply Forall_fmap. eapply Forall_impl; [exact Hn|]. by intros p [? _].
  - intros id Hid. rewrite Hid in Ha. destruct Ha as (w & [Hw <-]%workspace_Some & _). by apply list_elem_of_fmap_2.
Qed.

(** ** Paths *)

(** [max_by_key] takes the last of the greatest. *)
Lemma max_by_key_spec {A} (key : A → N) l :
  match max_by_key key l with
  | Some y => ∃ l1 l2, l = l1 ++ y :: l2 ∧ (∀ x, x ∈ l1 → key x ≤ key y) ∧ (∀ x, x ∈ l2 → key x < key y)
  | None => l = []
  end.
Proof.
  induction l as [|x l IH]; [done|]. cbn [max_by_key]. destruct (max_by_key key l) as [y|].
  - destruct IH as (l1 & l2 & -> & H1 & H2). destruct (N.leb_spec (key x) (key y)) as [Hle|Hlt].
    + exists (x :: l1), l2. split_and!; [done| |done]. intros z [->|Hz]%elem_of_cons; [done|by apply H1].
    + exists [], (l1 ++ y :: l2). split_and!; [done|by intros z ?%elem_of_nil|].
      intros z [Hz|[->|Hz]%elem_of_cons]%elem_of_app; [|lia|]; [apply H1 in Hz|apply H2 in Hz]; lia.
  - subst. exists [], []. split_and!; [done|by intros z ?%elem_of_nil..].
Qed.

Lemma starts_with_prefix path base : starts_with path base = true ↔ ∃ rest, path = base ++ rest.
Proof.
  revert path. induction base as [|c base IH]; intros path; [destruct path; (split; [by eexists|done])|].
  destruct path as [|d path]; simpl; [split; [done|by intros [rest ?]]|].
  rewrite andb_true_iff, bool_decide_eq_true, IH. split.
  - intros [-> [rest ->]]. by exists rest.
  - intros [rest [= -> ->]]. eauto.
Qed.

Lemma ancestor_depth_Some path w v n :
  ancestor_depth path w = Some (v, n) ↔
  ∃ root rest, v = w ∧ local_worktree_path w = Some root ∧ path = root ++ rest ∧ n = N.of_nat (length root).
Proof.
  unfold ancestor_depth. destruct (local_worktree_path w) as [root|]; [|split; [done|naive_solver]].
  destruct (starts_with path root) eqn:Hs.
  - apply starts_with_prefix in Hs as [rest Hs]. split; [intros [= <- <-]; by exists root, rest|].
    by intros (? & ? & -> & [= <-] & _ & ->).
  - split; [done|]. intros (? & rest & -> & [= <-] & Hp & ->). by rewrite (proj2 (starts_with_prefix path root)) in Hs by eauto.
Qed.

(** The result is one of the workspaces that contain the path. *)
Lemma ancestor_elem s path w :
  workspace_for_path_or_ancestor s path = Some w →
  w ∈ workspaces s ∧ ∃ root rest, local_worktree_path w = Some root ∧ path = root ++ rest.
Proof.
  unfold workspace_for_path_or_ancestor. set (l := omap _ _). pose proof (max_by_key_spec snd l) as Hm.
  destruct (max_by_key snd l) as [[v n]|]; [|done]. intros [= <-]. destruct Hm as (l1 & l2 & Hl & _).
  assert ((v, n) ∈ l) as Hin by (rewrite Hl, elem_of_app; right; left). unfold l in Hin.
  apply list_elem_of_omap in Hin as (u & Hu & (root & rest & -> & ? & ? & _)%ancestor_depth_Some). eauto.
Qed.
