(* ===== verification/StoreOps.v ===== *)
(** * StoreOps: the operations of the store as one type, and what each keeps

    Every public operation that changes [SuperzentStore] is a constructor of
    [store_op]; [apply_op] runs it and keeps the store, [run_ops] runs a sequence.
    The lemmas say which parts of the state an operation leaves in place. *)

From stdpp Require Import gmap.
From S2P Require Import Prelude StoreData Store StoreFacts.
#[local] Open Scope N_scope.

Implicit Types (s : SuperzentState) (st : SuperzentStore).

Inductive store_op : Type :=
  | CreatePreset (draft : AgentPresetDraft)
  | UpdatePreset (id : Str) (draft : AgentPresetDraft)
  | DeletePreset (id : Str)
  | ReorderPreset (dragged : Str) (target : option Str)
  | SetActiveWorkspace (id : option Str)
  | SetActiveWorkspaceByPath (path : Path)
  | RecordWorkspaceOpened (id : Str) (now : DateTime)
  | SetProjectCollapsed (id : Str) (c : bool)
  | SetProjectName (id name : Str)
  | UpsertProject (p : ProjectEntry)
  | UpsertWorkspace (w : WorkspaceEntry)
  | UpsertProjectBundle (p : ProjectEntry) (w : WorkspaceEntry)
  | SyncWorkspaces (upserts : list WorkspaceEntry) (removed : list Str)
  | RefreshWorkspaceMetadata (id : Str) (b : option Str) (g : WorkspaceGitStatus) (summary : option GitChangeSummary)
      (persist : bool)
  | SetWorkspaceDisplayName (id : Str) (name : option Str)
  | SetWorkspaceAgentPreset (id preset_id : Str)
  | RemoveWorkspace (id : Str)
  | RemoveProject (id : Str)
  | ReorderWorkspace (dragged : Str) (target : option Str)
  | ReorderProject (dragged : Str) (target : option Str)
  | StartSession (workspace_id : Str) (p : AgentPreset) (label uuid : Str) (now : DateTime)
  | UpdateSessionStatus (id : Str) (new_status : TaskStatus) (reason : option Str) (exited_now opened_now : DateTime)
  | SetWorkspaceAttention (id : Str) (new_status : WorkspaceAttentionStatus) (pending : bool) (reason : option Str)
  | AcknowledgeWorkspaceReview (id : Str).

Definition apply_op st (op : store_op) : option SuperzentStore :=
  match op with
  | CreatePreset draft => option_map fst (create_preset st draft)
  | UpdatePreset id draft => Some (update_preset st id draft).1
  | DeletePreset id => Some (delete_preset st id).1
  | ReorderPreset dragged target => Some (reorder_preset st dragged target)
  | SetActiveWorkspace id => Some (set_active_workspace st id)
  | SetActiveWorkspaceByPath path => Some (set_active_workspace_by_path st path)
  | RecordWorkspaceOpened id now => Some (record_workspace_opened st id now)
  | SetProjectCollapsed id c => Some (set_project_collapsed st id c)
  | SetProjectName id name => Some (set_project_name st id name)
  | UpsertProject p => upsert_project st p
  | UpsertWorkspace w => upsert_workspace st w
  | UpsertProjectBundle p w => upsert_project_bundle st p w
  | SyncWorkspaces upserts removed => sync_workspaces st upserts removed
  | RefreshWorkspaceMetadata id b g summary persist => Some (refresh_workspace_metadata st id b g summary persist)
  | SetWorkspaceDisplayName id name => Some (set_workspace_display_name st id name)
  | SetWorkspaceAgentPreset id preset_id => Some (set_workspace_agent_preset st id preset_id)
  | RemoveWorkspace id => option_map fst (remove_workspace st id)
  | RemoveProject id => option_map fst (remove_project st id)
  | ReorderWorkspace dragged target => Some (reorder_workspace st dragged target)
  | ReorderProject dragged target => Some (reorder_project st dragged target)
  | StartSession workspace_id p label uuid now => Some (start_session st workspace_id p label uuid now).1
  | UpdateSessionStatus id new_status reason exited_now opened_now =>
      Some (update_session_status st id new_status reason exited_now opened_now)
  | SetWorkspaceAttention id new_status pending reason => Some (set_workspace_attention st id new_status pending reason)
  | AcknowledgeWorkspaceReview id => Some (acknowledge_workspace_review st id)
  end.

Fixpoint run_ops st (ops : list store_op) : option SuperzentStore :=
  match ops with [] => Some st | op :: ops => st ← apply_op st op; run_ops st ops end.

(** ** What an operation that does not normalize keeps *)

(** The workspaces stay, with their projects and presets. *)
Record kept s s' : Prop := {
  kept_projects : project_ids s' ≡ₚ project_ids s;
  kept_ids : workspace_ids s' ≡ₚ workspace_ids s;
  kept_workspaces w : w ∈ workspaces s' →
    ∃ v, v ∈ workspaces s ∧ workspace_project_id w = workspace_project_id v ∧ agent_preset_id w = agent_preset_id v;
  kept_presets : preset_ids s' ≡ₚ preset_ids s
}.

Lemma kept_refl s : kept s s.
Proof. split; eauto. Qed.

Lemma kept_trans s1 s2 s3 : kept s1 s2 → kept s2 s3 → kept s1 s3.
Proof.
  intros [P1 I1 W1 R1] [P2 I2 W2 R2]. split.
  - by rewrite P2.
  - by rewrite I2.
  - intros w (v & Hv & -> & ->)%W2. apply W1, Hv.
  - by rewrite R2.
Qed.

Lemma kept_ok s s' : kept s s' → state_ok s → state_ok s'.
Proof.
  intros [P I W R] [Hp Hne Hs Hd Ha]. split.
  - intros w (v & Hv & -> & _)%W. rewrite P. by apply Hp.
  - intros He. apply Hne. apply (fmap_nil_inv preset_id). apply Permutation_nil_r. by rewrite <- R, He.
  - by rewrite R.
  - by rewrite R.
  - intros w (v & Hv & _ & ->)%W. rewrite R. by apply Ha.
Qed.

Lemma kept_active s s' : kept s s' → active_workspace_id s' = active_workspace_id s → active_ok s → active_ok s'.
Proof. intros [_ I _ _] Heq Ha id Hid. rewrite I. apply Ha. by rewrite <- Heq. Qed.

Lemma kept_with_active s p w : kept s (with_active s p w).
Proof. split; simpl; eauto. Qed.

Lemma kept_with_sessions s l : kept s (with_sessions s l).
Proof. split; simpl; eauto. Qed.

Lemma kept_with_presets s l : preset_id <$> l ≡ₚ preset_ids s → kept s (with_presets s l).
Proof. intros Hl. split; simpl; eauto. Qed.

Lemma kept_with_projects s l : project_entry_id <$> l ≡ₚ project_ids s → kept s (with_projects s l).
Proof. intros Hl. split; simpl; eauto. Qed.

Lemma kept_reordered s l : l ≡ₚ workspaces s → kept s (with_workspaces s l).
Proof. intros Hl. split; simpl; [done|by rewrite Hl| |done]. intros w Hw. exists w. by rewrite <- Hl. Qed.

(** A change of a workspace that leaves its identifiers. *)
Definition keeps_ids (f : WorkspaceEntry → WorkspaceEntry) : Prop := ∀ w,
  workspace_entry_id (f w) = workspace_entry_id w ∧ workspace_project_id (f w) = workspace_project_id w ∧
  agent_preset_id (f w) = agent_preset_id w.

Lemma keeps_clear_review : keeps_ids clear_review.
Proof. intros w. unfold clear_review. by case_decide. Qed.

Lemma keeps_metadata b g summary : keeps_ids (λ w, (update_workspace_metadata w b g summary).1).
Proof. intros w. unfold update_workspace_metadata. destruct b; [case_decide|]; done. Qed.

Lemma kept_updated s id f : keeps_ids f → kept s (with_workspaces s (update_found (has_workspace_id id) f (workspaces s))).
Proof.
  intros Hf. split; simpl; [done| | |done].
  - rewrite fmap_update_found; [done|]. intros w. by destruct (Hf w).
  - intros w [Hw|(v & Hv & _ & ->)]%elem_of_update_found; [by exists w|]. exists v. destruct (Hf v) as (_ & ? & ?). done.
Qed.

Lemma kept_project_updated s id f :
  (∀ p, project_entry_id (f p) = project_entry_id p) →
  kept s (with_projects s (update_found (has_project_id id) f (projects s))).
Proof. intros Hf. apply kept_with_projects. by rewrite fmap_update_found. Qed.

Lemma into_preset_id draft id p : into_preset draft id = Ok p → preset_id p = id.
Proof.
  unfold into_preset. destruct (is_empty_str _); [done|].
  destruct (draft_launch_mode draft); [destruct (is_empty_str _)|destruct (or_else _ _)]; try done; by intros [= <-].
Qed.

(** ** The steps of the store *)

(** What an operation does to the outside: a write and a notification, or nothing
    when it changes nothing; [refresh_workspace_metadata] may leave out the write. *)
Inductive outcome st : store_op → SuperzentStore → Prop :=
  | unchanged op : outcome st op st
  | committed op s : outcome st op (persist_and_notify s st)
  | notified id b g summary s : outcome st (RefreshWorkspaceMetadata id b g summary false) (mk_store s (effects st ++ [Notify])).

(** The operations that take an active workspace on trust are called with one that
    is there: an identifier of the store, a bundle whose workspace is its project's. *)
Definition active_target_ok s op : Prop :=
  match op with
  | SetActiveWorkspace (Some id) => id ∈ workspace_ids s
  | UpsertProjectBundle p w => workspace_project_id w = project_entry_id p
  | _ => True
  end.

(** What it does to the state. *)
Inductive evolves s op : SuperzentState → Prop :=
  | evolves_kept s' : kept s s' → active_workspace_id s' = active_workspace_id s → evolves s op s'
  | evolves_active s' : kept s s' → (active_target_ok s op → active_ok s') → evolves s op s'
  | evolves_normal s' : normal s' → evolves s op s'
  | evolves_bundle s' p w : normal s' → ¬ active_target_ok s op → evolves s op (with_active s' p w)
  | evolves_created p : is_slug (preset_id p) → (preset_id p ∉ preset_ids s) → evolves s op (with_presets s (presets s ++ [p]))
  | evolves_deleted i id fallback l :
      (λ p, preset_id p) <$> presets s !! i = Some id → remove_at i (presets s) = fallback :: l →
      evolves s op (with_workspaces (with_presets s (fallback :: l))
                   ((λ w, if decide (agent_preset_id w = id) then set_workspace_preset (preset_id fallback) w else w) <$>
                    workspaces s))
  | evolves_assigned id preset_id : preset_id ∈ preset_ids s →
      evolves s op (with_workspaces s (update_found (has_workspace_id id) (set_workspace_preset preset_id) (workspaces s))).

(** One operation, to the outside and on the state. *)
Definition step st op st' : Prop := outcome st op st' ∧ evolves (state st) op (state st').

Lemma step_commit s st op : evolves (state st) op s → step st op (persist_and_notify s st).
Proof. intros He. split; [constructor|exact He]. Qed.

Lemma step_none st op : step st op st.
Proof. split; [constructor|]. apply evolves_kept; [apply kept_refl|done]. Qed.

(** A branch that does nothing, or commits a state that keeps the active workspace. *)
Ltac commit := first
  [ apply step_none
  | apply step_commit, evolves_kept; [|done] ].

Lemma presets_steps st :
  (∀ draft, ∃ r, create_preset st draft = Some r ∧ step st (CreatePreset draft) r.1) ∧
  (∀ id draft, step st (UpdatePreset id draft) (update_preset st id draft).1) ∧
  (∀ id, step st (DeletePreset id) (delete_preset st id).1) ∧
  (∀ d t, step st (ReorderPreset d t) (reorder_preset st d t)).
Proof.
  split_and!.
  - intros draft. unfold create_preset, unique_preset_id.
    destruct (unique_slug_spec (preset_slug (draft_label draft)) (list_to_set (preset_ids (state st))))
      as (id & -> & Hnew & Hslug & _). simpl. destruct (into_preset draft id) as [p|message] eqn:Hp.
    + eexists. split; [done|]. apply step_commit. apply into_preset_id in Hp as <-.
      apply evolves_created; [done|]. by rewrite elem_of_list_to_set in Hnew.
    + eexists. split; [done|]. apply step_none.
  - intros id draft. unfold update_preset. destruct (position _ _) as [i|] eqn:Hi; [|apply step_none].
    destruct (into_preset draft id) as [p|message] eqn:Hp; [|apply step_none].
    commit. apply kept_with_presets. rewrite list_fmap_insert, list_insert_id; [done|].
    apply position_Some in Hi as (l1 & q & l2 & -> & <- & Hq%bool_decide_eq_true & _).
    rewrite (into_preset_id _ _ _ Hp), fmap_app. simpl. by rewrite list_lookup_middle, Hq by (by rewrite length_fmap).
  - intros id. unfold delete_preset. case_decide as Hlen; [apply step_none|].
    destruct (position _ _) as [i|] eqn:Hi; [|apply step_none].
    apply position_Some in Hi as (l1 & q & l2 & Heq & <- & Hq%bool_decide_eq_true & _). simpl.
    destruct (remove_at (length l1) (presets (state st))) as [|fallback l] eqn:Hr.
    + rewrite Heq in Hr, Hlen. rewrite remove_at_app in Hr. rewrite length_app in Hlen.
      apply app_eq_nil in Hr as [-> ->]. simpl in Hlen. lia.
    + apply step_commit. apply (evolves_deleted _ _ (length l1)); [|done]. rewrite Heq, list_lookup_middle by done. simpl. by f_equal.
  - intros d t. unfold reorder_preset. destruct (position _ _) as [i|]; [|apply step_none].
    destruct (move_before _ _ _) as [l|] eqn:Hm; [|apply step_none].
    commit. apply kept_with_presets. by rewrite (move_before_permutation _ _ _ _ Hm).
Qed.

Lemma active_steps st :
  (∀ id, step st (SetActiveWorkspace id) (set_active_workspace st id)) ∧
  (∀ path, step st (SetActiveWorkspaceByPath path) (set_active_workspace_by_path st path)) ∧
  (∀ id now, step st (RecordWorkspaceOpened id now) (record_workspace_opened st id now)).
Proof.
  assert (∀ op id, (active_target_ok (state st) op → match id with Some id => id ∈ workspace_ids (state st) | None => True end) →
    step st op (set_active_workspace st id)) as Hset.
  { intros op id Hid. unfold set_active_workspace. apply step_commit. cbv zeta.
    set (s1 := match id with Some _ => _ | None => _ end).
    assert (kept (state st) s1) as Hs1.
    { unfold s1. destruct id; [|apply kept_with_active].
      eapply kept_trans; [|apply kept_updated, keeps_clear_review]. apply kept_with_active. }
    apply evolves_active; [eapply kept_trans; [exact Hs1|apply kept_with_active]|].
    intros Hop id' Hid'. simpl in *. rewrite Hid' in Hid. simpl in Hid. rewrite (kept_ids _ _ Hs1). by apply Hid. }
  split_and!.
  - intros id. apply Hset. by destruct id.
  - intros path. apply Hset. intros _.
    destruct (workspace_for_path_or_ancestor (state st) path) as [w|] eqn:Hw; [|done].
    apply ancestor_elem in Hw as [Hw _]. by apply list_elem_of_fmap_2.
  - intros id now. unfold record_workspace_opened. destruct (workspace (state st) id) as [w|] eqn:Hw; [|apply step_none].
    apply step_commit. cbv zeta. match goal with |- evolves _ _ (with_active ?s _ _) => set (s1 := s) end.
    assert (kept (state st) s1) as Hs1.
    { eapply kept_trans; [|by apply kept_project_updated]. apply kept_updated.
      intros v. apply (keeps_clear_review (set_opened_at now v)). }
    apply evolves_active; [eapply kept_trans; [exact Hs1|apply kept_with_active]|].
    intros _ id'. simpl. intros [= <-]. change (id ∈ workspace_ids s1). rewrite (kept_ids _ _ Hs1).
    apply workspace_Some in Hw as [Hw <-]. by apply list_elem_of_fmap_2.
Qed.

Lemma entry_steps st :
  (∀ id c, step st (SetProjectCollapsed id c) (set_project_collapsed st id c)) ∧
  (∀ id name, step st (SetProjectName id name) (set_project_name st id name)) ∧
  (∀ id b g m persist, let st' := refresh_workspace_metadata st id b g m persist in
     step st (RefreshWorkspaceMetadata id b g m persist) st') ∧
  (∀ id name, step st (SetWorkspaceDisplayName id name) (set_workspace_display_name st id name)) ∧
  (∀ id pid, step st (SetWorkspaceAgentPreset id pid) (set_workspace_agent_preset st id pid)).
Proof.
  split_and!.
  - intros id c. unfold set_project_collapsed. destruct (project _ id); commit. by apply kept_project_updated.
  - intros id name. unfold set_project_name. destruct (project _ id); [|commit]. simpl.
    destruct (is_empty_str _ || _); commit. by apply kept_project_updated.
  - intros id b g m persist. cbv zeta. unfold refresh_workspace_metadata. destruct (workspace _ id) as [w|]; [|commit].
    destruct (negb _); [commit|]. pose proof (kept_updated (state st) id _ (keeps_metadata b g m)) as Hk.
    destruct persist; [by commit|]. split; [constructor|by apply evolves_kept].
  - intros id name. unfold set_workspace_display_name. destruct (workspace _ id) as [w|]; [|commit]. cbv zeta.
    set (name' := match name with Some _ => _ | None => _ end). case_decide; commit. by apply kept_updated.
  - intros id pid. unfold set_workspace_agent_preset. destruct (preset _ pid) as [p|] eqn:Hp; [|commit].
    destruct (workspace _ id); [|commit]. case_decide; [commit|]. apply step_commit, evolves_assigned.
    apply find_first_Some in Hp as [Hp <-%bool_decide_eq_true]. by apply list_elem_of_fmap_2.
Qed.

(** [normalize] and a write. *)
Lemma normalize_step s st op : ∃ st', normalize_and_persist s st = Some st' ∧ step st op st'.
Proof.
  unfold normalize_and_persist. destruct (normalize_normal s) as (s' & -> & Hn & _). simpl.
  eexists. split; [done|]. by apply step_commit, evolves_normal.
Qed.

Lemma elem_of_upsert_all {A} (p : A → bool) x l : x ∈ upsert_all p x l.
Proof.
  unfold upsert_all. destruct (find_first p l) as [y|] eqn:Hy; [|apply elem_of_app; right; left].
  apply find_first_Some in Hy as [Hy Hp]. apply list_elem_of_fmap. exists y. by rewrite Hp.
Qed.

Lemma normalizing_steps st :
  (∀ p, ∃ st', upsert_project st p = Some st' ∧ step st (UpsertProject p) st') ∧
  (∀ w, ∃ st', upsert_workspace st w = Some st' ∧ step st (UpsertWorkspace w) st') ∧
  (∀ p w, ∃ st', upsert_project_bundle st p w = Some st' ∧ step st (UpsertProjectBundle p w) st') ∧
  (∀ ws ids, ∃ st', sync_workspaces st ws ids = Some st' ∧ step st (SyncWorkspaces ws ids) st') ∧
  (∀ id, ∃ r, remove_workspace st id = Some r ∧ step st (RemoveWorkspace id) r.1) ∧
  (∀ id, ∃ r, remove_project st id = Some r ∧ step st (RemoveProject id) r.1).
Proof.
  pose proof (λ s op, normalize_step s st op) as Hn. split_and!; try (intros; apply Hn).
  - intros p w. unfold upsert_project_bundle. cbv zeta.
    match goal with |- context [normalize ?s] =>
      destruct (normalize_normal s) as (s' & -> & Hs' & _ & _ & Hids & _) end. simpl.
    eexists. split; [done|]. apply step_commit.
    destruct (active_workspace_id s') eqn:Ha; [by apply evolves_normal|]. apply evolves_bundle; [done|].
    destruct Hs' as [[_ Hact] _ _ _ _ _]. rewrite Ha in Hact. destruct Hact as [Hact _]. rewrite Hact in Hids.
    simpl. intros Hw. symmetry in Hids. apply fmap_nil_inv in Hids.
    apply (not_elem_of_nil w). rewrite <- Hids. apply list_elem_of_filter. simpl. split; [|apply elem_of_upsert_all].
    rewrite Hw. apply list_elem_of_fmap_2, elem_of_upsert_all.
  - intros id. unfold remove_workspace. destruct (position _ _) as [i|] eqn:Hi; [|eexists; split; [done|apply step_none]].
    apply position_Some in Hi as (l1 & w & l2 & Heq & <- & _). rewrite Heq, list_lookup_middle by done. simpl.
    match goal with |- context [normalize_and_persist ?s st] => destruct (Hn s (RemoveWorkspace id)) as (st' & -> & ?) end.
    simpl. by eexists.
  - intros id. unfold remove_project. destruct (position _ _) as [i|] eqn:Hi; [|eexists; split; [done|apply step_none]].
    apply position_Some in Hi as (l1 & w & l2 & Heq & <- & _). rewrite Heq, list_lookup_middle by done. simpl.
    match goal with |- context [normalize_and_persist ?s st] => destruct (Hn s (RemoveProject id)) as (st' & -> & ?) end.
    simpl. by eexists.
Qed.

Lemma reorder_steps st :
  (∀ d t, step st (ReorderWorkspace d t) (reorder_workspace st d t)) ∧
  (∀ d t, step st (ReorderProject d t) (reorder_project st d t)).
Proof.
  split; intros d t.
  - unfold reorder_workspace. destruct (position _ _) as [i|]; [|commit].
    destruct (workspaces (state st) !! i) as [w|] eqn:Hw; [|commit]. destruct t as [t|]; cbv zeta.
    + destruct (position _ _) as [j|]; [|commit]. simpl. destruct (workspaces (state st) !! j) as [v|]; [|commit]. simpl.
      case_decide; [commit|]. destruct (move_before _ _ _) as [l|] eqn:Hm; commit.
      apply kept_reordered. by apply move_before_permutation in Hm.
    + commit. apply kept_reordered. rewrite insert_at_permutation. by apply remove_at_permutation.
  - unfold reorder_project. destruct (position _ _) as [i|]; [|commit].
    destruct (move_before _ _ _) as [l|] eqn:Hm; commit.
    apply kept_with_projects. by rewrite (move_before_permutation _ _ _ _ Hm).
Qed.

Lemma session_steps st :
  (∀ wid p l uuid now, let st' := (start_session st wid p l uuid now).1 in
     step st (StartSession wid p l uuid now) st') ∧
  (∀ id t r n1 n2, let st' := update_session_status st id t r n1 n2 in
     step st (UpdateSessionStatus id t r n1 n2) st') ∧
  (∀ id t b r, let st' := set_workspace_attention st id t b r in
     step st (SetWorkspaceAttention id t b r) st') ∧
  (∀ id, step st (AcknowledgeWorkspaceReview id) (acknowledge_workspace_review st id)).
Proof.
  split_and!.
  - intros. commit. apply kept_with_sessions.
  - intros. subst st'. unfold update_session_status.
    destruct (find_first (has_session_id id) (sessions (state st))) as [x|]; commit.
    eapply kept_trans; [apply kept_with_sessions|]. by apply kept_updated.
  - intros. subst st'. unfold set_workspace_attention. destruct (workspace (state st) id) as [w|]; [|commit].
    case_decide; commit. by apply kept_updated.
  - intros id. unfold acknowledge_workspace_review. destruct (workspace _ id) as [w|]; [|commit].
    destruct (review_pending w || _); commit. apply kept_updated, keeps_clear_review.
Qed.

(** Every operation, one step. *)
Lemma apply_op_step st op :
  ∃ st', apply_op st op = Some st' ∧ step st op st'.
Proof.
  destruct (presets_steps st) as (H1 & H2 & H3 & H4), (active_steps st) as (A1 & A2 & A3),
    (entry_steps st) as (E1 & E2 & E3 & E4 & E5), (normalizing_steps st) as (N1 & N2 & N3 & N4 & N5 & N6),
    (reorder_steps st) as (R1 & R2), (session_steps st) as (S1 & S2 & S3 & S4).
  destruct op; simpl;
    first [ match goal with
            | |- context [create_preset st ?d] => destruct (H1 d) as (r & -> & ?)
            | |- context [remove_workspace st ?id] => destruct (N5 id) as (r & -> & ?)
            | |- context [remove_project st ?id] => destruct (N6 id) as (r & -> & ?)
            end; by exists r.1
          | done
          | eexists; split; [reflexivity|eauto] ].
Qed.

(** ** The invariant *)

Lemma evolves_ok s op s' : evolves s op s' → state_ok s → state_ok s'.
Proof.
  intros He Hok. destruct He as [s' Hk _|s' Hk _|s' Hn|s' p w Hn _|p Hslug Hnew|i id fallback l Hi Hr|id pid Hpid].
  - by eapply kept_ok.
  - by eapply kept_ok.
  - by apply normal_state_ok.
  - apply (kept_ok s'); [apply kept_with_active|by apply normal_state_ok].
  - destruct Hok as [Hp Hne Hs Hd Ha]. split; simpl; [done|by destruct (presets s)| | |].
    + rewrite fmap_app. apply Forall_app_2; [done|]. by constructor.
    + rewrite fmap_app. apply NoDup_app. split_and!; [done| |by apply NoDup_singleton].
      intros x Hx Hin. apply list_elem_of_singleton in Hin as ->. done.
    + intros w Hw. rewrite fmap_app. apply elem_of_app. left. by apply Ha.
  - destruct (presets s !! i) as [q|] eqn:Hq; [|done]. injection Hi as <-.
    pose proof (remove_at_permutation _ _ _ Hq) as Hperm. rewrite Hr in Hperm.
    destruct Hok as [Hp Hne Hs Hd Ha]. rewrite <- Hperm in Hs, Hd. simpl in Hs, Hd.
    assert (∀ w, w ∈ workspaces s → agent_preset_id w ∈ preset_id <$> q :: fallback :: l) as Ha'.
    { intros w Hw. rewrite Hperm. by apply Ha. }
    simpl in Ha'.
    apply Forall_cons in Hs as [_ Hs]. apply NoDup_cons in Hd as [Hnq Hd]. split; simpl; [|done|done|done|].
    + intros w (v & -> & Hv)%list_elem_of_fmap. specialize (Hp v Hv). by case_decide.
    + intros w (v & -> & Hv)%list_elem_of_fmap. specialize (Ha' v Hv). case_decide as Hd'; simpl; [left|].
      apply elem_of_cons in Ha' as [?|?]; [done|]. done.
  - destruct Hok as [Hp Hne Hs Hd Ha]. split; simpl; [|done..|].
    + intros w [Hw|(v & Hv & _ & ->)]%elem_of_update_found; [by apply Hp|apply (Hp v Hv)].
    + intros w [Hw|(v & Hv & _ & ->)]%elem_of_update_found; [by apply Ha|done].
Qed.

Lemma evolves_active_ok s op s' : evolves s op s' → active_target_ok s op → active_ok s → active_ok s'.
Proof.
  intros He Hop Ha. destruct He as [s' Hk Heq|s' _ Hact|s' Hn|s' p w _ Hno|p _ _|i id fallback l _ _|id pid _].
  - by eapply kept_active.
  - by apply Hact.
  - by apply normal_state_ok.
  - by destruct Hno.
  - exact Ha.
  - intros id' Hid'. simpl. rewrite <- list_fmap_compose. erewrite list_fmap_ext; [by apply Ha|].
    intros ? w _. simpl. by case_decide.
  - intros id' Hid'. simpl. rewrite fmap_update_found by done. by apply Ha.
Qed.

Lemma run_ops_step ops : ∀ st, state_ok (state st) →
  ∃ st', run_ops st ops = Some st' ∧ state_ok (state st').
Proof.
  induction ops as [|op ops IH]; intros st Hok; simpl; [by exists st|].
  destruct (apply_op_step st op) as (st1 & -> & [_ He]). simpl. apply IH. by eapply evolves_ok.
Qed.

(** ** Moving an entry *)

Section moving.
Context {A : Type} (key : A → Str).
Implicit Types (l k : list A) (x y : A).

Let has (id : Str) (x : A) : bool := bool_decide (key x = id).

Lemma position_first k1 x k2 : (key x ∉ key <$> k1) → position (has (key x)) (k1 ++ x :: k2) = Some (length k1).
Proof.
  induction k1 as [|y k1 IH]; simpl; unfold has; intros Hx; [by rewrite bool_decide_eq_true_2|].
  rewrite not_elem_of_cons in Hx. destruct Hx as [Hy Hx]. rewrite bool_decide_eq_false_2 by done.
  unfold has in IH. by rewrite IH.
Qed.

Lemma split_first id l : id ∈ key <$> l → ∃ l1 y l2, l = l1 ++ y :: l2 ∧ key y = id ∧ (id ∉ key <$> l1).
Proof.
  induction l as [|z l IH]; simpl; [by intros ?%elem_of_nil|]. destruct (decide (key z = id)) as [<-|Hz].
  - intros _. exists [], z, l. by split_and!; [..|apply not_elem_of_nil].
  - intros [?|Hin]%elem_of_cons; [congruence|]. destruct (IH Hin) as (l1 & y & l2 & -> & <- & Hn).
    exists (z :: l1), y, l2. split_and!; [done..|]. simpl. by apply not_elem_of_cons.
Qed.

(** The moved entry ends right before the target. *)
Lemma move_before_target k1 x k2 id :
  (key x ∉ key <$> k1) → id ≠ key x → id ∈ key <$> k1 ++ k2 →
  ∃ l1 y l2, k1 ++ k2 = l1 ++ y :: l2 ∧ key y = id ∧ (id ∉ key <$> l1) ∧
    move_before (length k1) (Some (has id)) (k1 ++ x :: k2) = Some (l1 ++ x :: y :: l2).
Proof.
  intros Hx Hid Hin. destruct (split_first _ _ Hin) as (l1 & y & l2 & Heq & <- & Hn). exists l1, y, l2. split_and!; try done.
  unfold move_before. rewrite list_lookup_middle by done. simpl.
  assert (∃ j, position (has (key y)) (k1 ++ x :: k2) = Some j ∧ length k1 ≠ j) as (j & -> & Hj).
  { assert (key y ∈ key <$> k1 ++ x :: k2) as Hy by (rewrite fmap_app in Hin |- *; set_solver).
    destruct (split_first _ _ Hy) as (m1 & z & m2 & Heq' & Hz & Hm). exists (length m1). rewrite Heq', <- Hz.
    split; [apply position_first; by rewrite Hz|]. intros Hlen.
    apply app_inj_1 in Heq' as [_ [= -> _]]; [by apply Hid|done]. }
  simpl. rewrite decide_False by done. rewrite remove_at_app, Heq, position_first by done. simpl.
  unfold insert_at. by rewrite take_app_length, drop_app_length.
Qed.

Lemma move_before_end k1 x k2 : move_before (length k1) None (k1 ++ x :: k2) = Some ((k1 ++ k2) ++ [x]).
Proof. unfold move_before. rewrite list_lookup_middle by done. simpl. by rewrite remove_at_app. Qed.
End moving.

(** The index after the last workspace of a project. *)
Lemma end_of_project_spec id l : ∀ ix,
  match end_of_project id ix l with
  | Some j => ∃ l1 w l2, l = l1 ++ w :: l2 ∧ (j = ix + S (length l1))%nat ∧ workspace_project_id w = id ∧
                (∀ v, v ∈ l2 → workspace_project_id v ≠ id)
  | None => ∀ v, v ∈ l → workspace_project_id v ≠ id
  end.
Proof.
  induction l as [|w l IH]; intros ix; simpl; [by intros v ?%elem_of_nil|]. specialize (IH (S ix)).
  destruct (end_of_project id (S ix) l) as [j|]; simpl.
  - destruct IH as (l1 & v & l2 & -> & -> & ? & ?). exists (w :: l1), v, l2. split_and!; [done|simpl; lia|done..].
  - unfold in_project. case_bool_decide as Hw.
    + exists [], w, l. split_and!; [done|simpl; lia|done..].
    + intros v [->|Hv]%elem_of_cons; [done|by apply IH].
Qed.
