(* ===== verification/StoreTheorems.v ===== *)
(** * StoreTheorems: the properties of the Superzent store *)

From Stdlib Require Import String.
From stdpp Require Import gmap.
From S2P Require Import Prelude StoreData Store StoreLoad StoreFacts StoreOps.
#[local] Open Scope N_scope.

Implicit Types (s : SuperzentState) (st : SuperzentStore).

(** ** What the theorems speak of *)

Fixpoint targets_ok st (ops : list store_op) : Prop :=
  match ops with
  | [] => True
  | op :: ops => active_target_ok (state st) op ∧ ∀ st', apply_op st op = Some st' → targets_ok st' ops
  end.

(** The state file after a trace. *)
Fixpoint last_write (l : list effect) : option SuperzentState :=
  match l with
  | [] => None
  | Persist s :: l => or_else (last_write l) (Some s)
  | Notify :: l => last_write l
  end.

Definition writes_through (op : store_op) : bool :=
  match op with RefreshWorkspaceMetadata _ _ _ _ persist => persist | _ => true end.

(** The sessions of workspaces that are there. *)
Definition live_sessions s : list AgentSession :=
  filter (λ x, session_workspace_id x ∈ list_to_set (C:=gset Str) (workspace_ids s)) (sessions s).

Definition project_exists (exists_ : Path → bool) (p : ProjectEntry) : bool :=
  match local_repo_root p with Some root => exists_ root | None => true end.

(** ** Lemmas *)

Lemma last_write_app l1 l2 : last_write (l1 ++ l2) = or_else (last_write l2) (last_write l1).
Proof. induction l1 as [|[s|] l1 IH]; simpl; [by destruct (last_write l2)| |done]. rewrite IH. by destruct (last_write l2). Qed.

Lemma outcome_effects st op st' :
  outcome st op st' → ∃ new, effects st' = effects st ++ new ∧
    (new = [] ∧ state st' = state st ∨ last new = Some Notify) ∧
    (writes_through op = true → new = [] ∨ last_write new = Some (state st')).
Proof.
  intros [op'|op' s|id b g summary s]; simpl.
  - exists []. rewrite app_nil_r. naive_solver.
  - exists [Persist s; Notify]. split_and!; [done|by right|by right].
  - exists [Notify]. split_and!; [done|by right|done].
Qed.

Lemma normalize_workspaces_from s s' w' :
  normalize s = Some s' → w' ∈ workspaces s' →
  ∃ valid fallback w, w ∈ workspaces s ∧ w' = normalize_workspace valid fallback w.
Proof.
  unfold normalize. cbv zeta. destruct (normalize_presets _ _) as [l|]; [|done]. simpl. intros [= <-]. simpl.
  intros (w & -> & Hw)%list_elem_of_fmap. apply list_elem_of_filter in Hw as [_ Hw]. by eexists _, _, w.
Qed.

Lemma normalize_workspace_location valid fallback w :
  workspace_location (normalize_workspace valid fallback w) = workspace_location w.
Proof. unfold normalize_workspace. by repeat match goal with |- context [if ?b then _ else _] => destruct b end. Qed.

Lemma clear_transient_keeps w :
  workspace_entry_id (clear_transient w) = workspace_entry_id w ∧
  workspace_project_id (clear_transient w) = workspace_project_id w ∧
  agent_preset_id (clear_transient w) = agent_preset_id w ∧
  workspace_location (clear_transient w) = workspace_location w.
Proof. unfold clear_transient. by destruct (attention_status w). Qed.

(** Idle, or waiting for a review. *)
Definition settled (w : WorkspaceEntry) : Prop :=
  attention_status w = (if review_pending w then Review else Idle).

Lemma clear_transient_settled w :
  (review_pending w = true → attention_status w ≠ Idle) → settled (clear_transient w).
Proof.
  unfold clear_transient, settled. destruct (attention_status w) eqn:E; simpl; [|done..].
  rewrite E. destruct (review_pending w); [|done]. intros H. by destruct (H eq_refl).
Qed.

Lemma settled_clear_transient w : settled w → clear_transient w = w.
Proof.
  unfold settled, clear_transient. destruct w as [? ? ? ? ? ? ? ? ? ? ? a r ? ? ? ?]. simpl. by destruct r; intros ->.
Qed.

Lemma clear_transient_normal s :
  normal s → normal (clear_transient_workspace_attention s).
Proof.
  intros [[Hp Ha] Hne Hnd Hn Hag Hatt]. split; simpl; [split; simpl| | | | |]; try done.
  - intros w (v & -> & Hv)%list_elem_of_fmap. destruct (clear_transient_keeps v) as (_ & -> & _). by apply Hp.
  - destruct (active_workspace_id s) as [id|].
    + destruct Ha as (w & Hw & Hproj). exists (clear_transient w).
      destruct (clear_transient_keeps w) as (_ & -> & _). split; [|done]. unfold workspace. simpl.
      rewrite find_first_fmap; [by unfold workspace in Hw; rewrite Hw|].
      intros v. unfold has_workspace_id. by destruct (clear_transient_keeps v) as (-> & _).
    + by destruct Ha as [-> ?].
  - intros w (v & -> & Hv)%list_elem_of_fmap. destruct (clear_transient_keeps v) as (_ & _ & -> & _). by apply Hag.
  - intros w (v & -> & Hv)%list_elem_of_fmap. pose proof (clear_transient_settled v (proj2 (Hatt v Hv))) as Hs.
    unfold settled in Hs. rewrite Hs. by destruct (review_pending (clear_transient v)).
Qed.

(** What [load] hands to [normalize]. *)
Lemma load_state exists_ uuid current previous legacy :
  ∃ s0 s1, load exists_ uuid current previous legacy = Some (mk_store (clear_transient_workspace_attention s1) []) ∧
    normalize s0 = Some s1 ∧ normal s1 ∧ projects s1 = projects s0 ∧
    (∀ p, p ∈ projects s0 → project_exists exists_ p = true) ∧
    (∀ w, w ∈ workspaces s0 → is_existing_path exists_ w = true).
Proof.
  unfold load. cbv zeta. match goal with |- context [normalize ?s] => set (s0 := s) end.
  destruct (normalize_normal s0) as (s1 & Hs1 & Hn & Hp & _). exists s0, s1. rewrite Hs1. split_and!; try done.
  - intros p Hin. unfold s0 in Hin. simpl in Hin. by apply list_elem_of_filter in Hin as [? _].
  - intros w Hin. unfold s0 in Hin. simpl in Hin. by apply list_elem_of_filter in Hin as [? _].
Qed.

(** Loading a normalized state whose paths are there drops stale sessions only. *)
Lemma load_normal exists_ uuid previous legacy s :
  normal s → (∀ w, w ∈ workspaces s → settled w) →
  (∀ p, p ∈ projects s → project_exists exists_ p = true) →
  (∀ w, w ∈ workspaces s → is_existing_path exists_ w = true) →
  load exists_ uuid (Some s) previous legacy = Some (mk_store (with_sessions s (live_sessions s)) []).
Proof.
  intros Hn Hset Hpe Hwe. unfold load. cbv zeta. simpl.
  rewrite (filter_all_in _ (projects s)) by exact Hpe. rewrite (filter_all_in _ (workspaces s)) by exact Hwe.
  assert (or_default_presets (presets s) = presets s) as ->.
  { destruct Hn as [_ Hne _ _ _ _]. unfold or_default_presets. by destruct (presets s). }
  match goal with |- context [normalize ?s0] => change s0 with (with_sessions s (live_sessions s)) end.
  rewrite normalize_id. 2:{ destruct Hn as [[? ?] ? ? ? ? ?]. split; [by split|done..]. }
  simpl. do 2 f_equal. unfold clear_transient_workspace_attention, with_workspaces, with_sessions. simpl. f_equal.
  rewrite <- list_fmap_id. apply Forall_fmap_ext_1, Forall_forall. intros w Hw. by apply settled_clear_transient, Hset.
Qed.

Lemma position_workspace k1 x k2 :
  (workspace_entry_id x ∉ workspace_entry_id <$> k1) →
  position (has_workspace_id (workspace_entry_id x)) (k1 ++ x :: k2) = Some (length k1).
Proof. apply (position_first workspace_entry_id). Qed.

Lemma reorder_workspace_end st k1 x k2 :
  workspaces (state st) = k1 ++ x :: k2 → (workspace_entry_id x ∉ workspace_entry_id <$> k1) →
  ∃ l1 l2, k1 ++ k2 = l1 ++ l2 ∧
    workspaces (state (reorder_workspace st (workspace_entry_id x) None)) = l1 ++ x :: l2 ∧
    (∀ v, v ∈ l2 → workspace_project_id v ≠ workspace_project_id x) ∧
    (last (workspace_project_id <$> l1) = Some (workspace_project_id x) ∨ l2 = []).
Proof.
  intros Heq Hx. unfold reorder_workspace. rewrite Heq, (position_workspace k1 x k2 Hx), list_lookup_middle by done.
  cbv zeta. rewrite remove_at_app. simpl. pose proof (end_of_project_spec (workspace_project_id x) (k1 ++ k2) 0) as He.
  destruct (end_of_project _ 0 (k1 ++ k2)) as [j|]; simpl.
  * destruct He as (l1 & v & l2 & -> & -> & Hv & Hl2). exists (l1 ++ [v]), l2. split_and!.
    -- by rewrite <- app_assoc.
    -- unfold insert_at. replace (l1 ++ v :: l2) with ((l1 ++ [v]) ++ l2) by (by rewrite <- app_assoc).
       replace (0 + S (length l1))%nat with (length (l1 ++ [v])) by (rewrite length_app; simpl; lia).
       by rewrite take_app_length, drop_app_length.
    -- done.
    -- left. rewrite fmap_app. simpl. by rewrite last_snoc, Hv.
  * exists (k1 ++ k2), []. split_and!; [by rewrite app_nil_r| |by intros v ?%elem_of_nil|by right].
    unfold insert_at. by rewrite firstn_all, drop_all.
Qed.

Lemma reorder_workspace_onto st k1 x k2 w :
  workspaces (state st) = k1 ++ x :: k2 → (workspace_entry_id x ∉ workspace_entry_id <$> k1) →
  workspace (state st) (workspace_entry_id w) = Some w → workspace_entry_id w ≠ workspace_entry_id x →
  let st' := reorder_workspace st (workspace_entry_id x) (Some (workspace_entry_id w)) in
  if decide (workspace_project_id w = workspace_project_id x)
  then ∃ l1 y l2, k1 ++ k2 = l1 ++ y :: l2 ∧ workspace_entry_id y = workspace_entry_id w ∧
         workspaces (state st') = l1 ++ x :: y :: l2
  else st' = st.
Proof.
  intros Heq Hx Hw Hne. cbv zeta. unfold reorder_workspace. rewrite Heq, (position_workspace k1 x k2 Hx), list_lookup_middle by done.
  pose proof Hw as Hpos. unfold workspace in Hpos. rewrite Heq in Hpos.
  apply workspace_Some in Hw as [Hw _]. rewrite Heq in Hw.
  assert (∃ j, position (has_workspace_id (workspace_entry_id w)) (k1 ++ x :: k2) = Some j ∧
               (k1 ++ x :: k2) !! j = Some w) as (j & -> & Hj).
  { clear - Hpos. revert Hpos. generalize (k1 ++ x :: k2). intros l. induction l as [|v l IH]; simpl; [done|].
    destruct (has_workspace_id _ v); [intros [= ->]; by exists 0%nat|]. intros (j & -> & ?)%IH. by exists (S j). }
  simpl. rewrite Hj. simpl. destruct (decide (workspace_project_id w = workspace_project_id x)) as [Hp|Hp].
  * rewrite decide_False by (by intros []).
    destruct (move_before_target workspace_entry_id k1 x k2 (workspace_entry_id w)) as (l1 & y & l2 & -> & Hy & Hn & Hm);
      [done..| |].
    { apply list_elem_of_fmap_2. apply elem_of_app in Hw as [?|[->|?]%elem_of_cons]; [..|done|]; set_solver. }
    exists l1, y, l2. split_and!; [done..|]. unfold has_workspace_id. by rewrite Hm.
  * by rewrite decide_True.
Qed.

Lemma omap_middle {A B} (f : A → option B) l l1 y l2 :
  omap f l = l1 ++ y :: l2 → ∃ k1 x k2, l = k1 ++ x :: k2 ∧ f x = Some y ∧ omap f k1 = l1 ∧ omap f k2 = l2.
Proof.
  revert l1. induction l as [|x l IH]; intros l1; simpl; [by destruct l1|]. destruct (f x) as [z|] eqn:Hz.
  - destruct l1 as [|z' l1]; simpl; [intros [= -> <-]; by exists [], x, l|]. intros [= <- Heq].
    destruct (IH l1 Heq) as (k1 & w & k2 & -> & ? & <- & <-). exists (x :: k1), w, k2. split_and!; [done..| |done].
    simpl. by rewrite Hz.
  - intros Heq. destruct (IH l1 Heq) as (k1 & w & k2 & -> & ? & <- & <-). exists (x :: k1), w, k2. split_and!; [done..| |done].
    simpl. by rewrite Hz.
Qed.

(** The worktree of a workspace contains a path. *)
Definition contains (path : Path) (w : WorkspaceEntry) (root : Path) : Prop :=
  local_worktree_path w = Some root ∧ root `prefix_of` path.

Lemma contains_depth path w root :
  contains path w root → ancestor_depth path w = Some (w, N.of_nat (length root)).
Proof. intros [? [rest ?]]. apply ancestor_depth_Some. by exists root, rest. Qed.

Lemma elem_of_depths path (l : list WorkspaceEntry) w root :
  w ∈ l → contains path w root → (w, N.of_nat (length root)) ∈ omap (ancestor_depth path) l.
Proof. intros Hw Hc. apply list_elem_of_omap. exists w. split; [done|by apply contains_depth]. Qed.

(** What [into_preset] asks of a draft. *)
Definition draft_valid (d : AgentPresetDraft) : Prop :=
  trim (draft_label d) ≠ [] ∧
  match draft_launch_mode d with
  | Terminal => trim (draft_command d) ≠ []
  | Acp => or_else (normalize_optional_text (draft_acp_agent_name d)) (suggested_acp_agent_name (trim (draft_command d))) ≠ None
  end.

Lemma resolved_normal p :
  or_else (normalize_optional_text (acp_agent_name p)) (suggested_acp_agent_name (command p)) = acp_agent_name p →
  resolved_acp_agent_name p = acp_agent_name p.
Proof. unfold resolved_acp_agent_name. by destruct (normalize_optional_text (acp_agent_name p)). Qed.

Lemma into_preset_cases d id :
  match into_preset d id with
  | Ok p => draft_valid d ∧ preset_id p = id ∧ label p = trim (draft_label d) ∧ command p = trim (draft_command d) ∧
      launch_mode p = draft_launch_mode d ∧ resolved_acp_agent_name p = acp_agent_name p
  | Err _ => ¬ draft_valid d
  end.
Proof.
  unfold into_preset, draft_valid. cbv zeta. destruct (is_empty_str (trim (draft_label d))) eqn:Hl.
  { apply is_empty_str_true in Hl. rewrite Hl. naive_solver. }
  assert (trim (draft_label d) ≠ []) as Hne by (intros H; by rewrite H in Hl).
  destruct (draft_launch_mode d).
  - destruct (is_empty_str (trim (draft_command d))) eqn:Hc.
    { apply is_empty_str_true in Hc. rewrite Hc. naive_solver. }
    assert (trim (draft_command d) ≠ []) by (intros H; by rewrite H in Hc). split_and!; try done.
    apply resolved_normal, acp_normal.
  - destruct (or_else _ _) as [n|] eqn:En; [|naive_solver]. split_and!; try done.
    apply resolved_normal. cbn [acp_agent_name command]. rewrite <- En. apply acp_normal.
Qed.

(** ** Properties *)

(** C14: From a state that satisfies the invariant (every workspace has its project
    and its preset; there is a preset; the preset identifiers are distinct slugs)
    any sequence of the store's operations runs to the end, never stuck in the loop
    of [unique_slug], and leaves the invariant true; the active workspace stays one
    of the workspaces as long as it is set to a workspace of the store and bundles
    are made of a project and one of its workspaces. *)
Theorem store_invariant st (ops : list store_op) :
  state_ok (state st) →
  ∃ st', run_ops st ops = Some st' ∧ state_ok (state st') ∧
    (active_ok (state st) → targets_ok st ops → active_ok (state st')).
Proof.
  revert st. induction ops as [|op ops IH]; intros st Hok; simpl; [by exists st|].
  destruct (apply_op_step st op) as (st1 & -> & _ & He). simpl.
  destruct (IH st1) as (st' & -> & Hok' & Hact); [by eapply evolves_ok|]. exists st'. split_and!; [done..|].
  intros Ha [Ht Hts]. apply Hact; [by eapply evolves_active_ok|by apply Hts].
Qed.

(** [normalize] always returns. Its result satisfies the invariant, has an
    active workspace that exists (none only when there is no workspace), shows a
    review exactly where one is pending, and is left alone by a second run. The
    projects, the sessions and the number of presets are as before, and the workspaces are
    those that had a project, in their order. *)
Theorem store_normalize s :
  ∃ s', normalize s = Some s' ∧ normalize s' = Some s' ∧ state_ok s' ∧ active_ok s' ∧ attention_ok s' ∧
    (active_workspace_id s' = None → workspaces s' = []) ∧
    projects s' = projects s ∧ sessions s' = sessions s ∧
    workspace_ids s' = workspace_entry_id <$> filter (λ w, workspace_project_id w ∈ project_ids s) (workspaces s) ∧
    (presets s ≠ [] → length (presets s') = length (presets s)).
Proof.
  destruct (normalize_normal s) as (s' & Hs & Hn & Hp & Hx & Hw & Hr). exists s'. destruct (normal_state_ok s' Hn).
  split_and!; try done; [by apply normalize_id|by destruct Hn|].
  intros Ha. destruct Hn as [[_ Hact] _ _ _ _ _]. rewrite Ha in Hact. by destruct Hact.
Qed.

(** What a sequence of operations does to the outside: it only adds to the trace;
    when it adds nothing the state is as before; when it adds something it ends with a
    notification; and when every [refresh_workspace_metadata] of it is asked to persist,
    the state file holds the final state. *)
Theorem store_writes st (ops : list store_op) st' :
  run_ops st ops = Some st' →
  ∃ new, effects st' = effects st ++ new ∧
    (new = [] ∧ state st' = state st ∨ last new = Some Notify) ∧
    (forallb writes_through ops = true → new = [] ∨ last_write new = Some (state st')).
Proof.
  revert st. induction ops as [|op ops IH]; intros st; simpl.
  { intros [= ->]. exists []. rewrite app_nil_r. naive_solver. }
  destruct (apply_op_step st op) as (st1 & -> & Hout & _). simpl. intros Hrun.
  destruct (outcome_effects _ _ _ Hout) as (n1 & E1 & L1 & W1), (IH st1 Hrun) as (n2 & E2 & L2 & W2).
  exists (n1 ++ n2). split_and!.
  - by rewrite E2, E1, app_assoc.
  - destruct L2 as [[-> ->]|L2].
    + rewrite app_nil_r. destruct L1 as [[-> ->]|L1]; [by left|by right].
    + right. rewrite last_app, L2. done.
  - rewrite andb_true_iff. intros [Ho Hos]. destruct (W2 Hos) as [->|Hw].
    + rewrite app_nil_r. destruct L2 as [[_ ->]|L2]; [by apply W1|done].
    + right. by rewrite last_write_app, Hw.
Qed.

(** [preset_slug] always makes a slug (lower-case letters, digits and single
    inner dashes) and leaves exactly the slugs alone; [unique_slug] returns for every set of used
    identifiers: the slug itself when it is free, else the slug with the least suffix
    from 2 on that is free, and records it as used. *)
Theorem store_slugs (value : Str) (used : gset Str) :
  let base := preset_slug value in
  is_slug base ∧ (is_slug value ↔ base = value) ∧
  ∃ id, unique_slug value used = Some (id, {[id]} ∪ used) ∧ (id ∉ used) ∧ is_slug id ∧
    (base ∉ used → id = base) ∧
    (base ∈ used → ∃ k, 2 ≤ k ∧ id = with_suffix base k ∧ ∀ j, 2 ≤ j < k → with_suffix base j ∈ used).
Proof.
  cbv zeta. split_and!; [apply preset_slug_is_slug|split; [apply preset_slug_id|apply slug_lit]|].
  apply (unique_slug_spec value used).
Qed.

(** C37: Loading always returns, from any of the three formats or none, and writes
    nothing. The loaded state satisfies the invariant, its local projects and worktrees
    exist, no workspace is left working or asking for permission, and a review shows exactly where one is
    pending. Loading it again, with the same paths there, changes nothing but the sessions of
    workspaces that the first [normalize] dropped. *)
Theorem store_load exists_ uuid current previous legacy :
  ∃ st, load exists_ uuid current previous legacy = Some st ∧ effects st = [] ∧
    state_ok (state st) ∧ active_ok (state st) ∧
    (∀ p, p ∈ projects (state st) → project_exists exists_ p = true) ∧
    (∀ w, w ∈ workspaces (state st) → is_existing_path exists_ w = true ∧ settled w) ∧
    ∀ previous' legacy', load exists_ uuid (Some (state st)) previous' legacy' =
      Some (mk_store (with_sessions (state st) (live_sessions (state st))) []).
Proof.
  destruct (load_state exists_ uuid current previous legacy) as (s0 & s1 & -> & Hnorm & Hn & Hp & Hpe & Hwe).
  eexists. split; [done|]. cbn [state effects]. set (s := clear_transient_workspace_attention s1).
  assert (normal s) as Hs by (by apply clear_transient_normal). destruct (normal_state_ok s Hs).
  assert (∀ p, p ∈ projects s → project_exists exists_ p = true) as Hpe'.
  { intros p. unfold s. simpl. rewrite Hp. apply Hpe. }
  assert (∀ w, w ∈ workspaces s → is_existing_path exists_ w = true ∧ settled w) as Hw.
  { intros w (v & -> & Hv)%list_elem_of_fmap. split.
    - unfold is_existing_path. destruct (clear_transient_keeps v) as (_ & _ & _ & ->).
      destruct (normalize_workspaces_from _ _ _ Hnorm Hv) as (valid & fallback & w & Hin & ->).
      rewrite normalize_workspace_location. by apply Hwe.
    - apply clear_transient_settled. by destruct Hn as [_ _ _ _ _ Hatt]; apply Hatt. }
  split_and!; try done. intros previous' legacy'. apply load_normal; [done| |done|]; intros w Hin; by apply Hw.
Qed.

(** Where a dragged entry ends up. A project dragged onto another one goes right
    before it, dragged onto nothing it goes last, and the others keep their order; so
    for presets. A workspace dragged onto a workspace of its project goes right before
    it; onto a workspace of another project nothing happens; onto nothing it goes after the last other workspace of its
    project, or last when there is none. *)
Theorem store_reorder st :
  (∀ k1 x k2, projects (state st) = k1 ++ x :: k2 → (project_entry_id x ∉ project_entry_id <$> k1) →
     projects (state (reorder_project st (project_entry_id x) None)) = (k1 ++ k2) ++ [x] ∧
     ∀ id, id ≠ project_entry_id x → id ∈ project_entry_id <$> k1 ++ k2 →
       ∃ l1 y l2, k1 ++ k2 = l1 ++ y :: l2 ∧ project_entry_id y = id ∧ (id ∉ project_entry_id <$> l1) ∧
         projects (state (reorder_project st (project_entry_id x) (Some id))) = l1 ++ x :: y :: l2) ∧
  (∀ k1 x k2, presets (state st) = k1 ++ x :: k2 → (preset_id x ∉ preset_id <$> k1) →
     presets (state (reorder_preset st (preset_id x) None)) = (k1 ++ k2) ++ [x] ∧
     ∀ id, id ≠ preset_id x → id ∈ preset_id <$> k1 ++ k2 →
       ∃ l1 y l2, k1 ++ k2 = l1 ++ y :: l2 ∧ preset_id y = id ∧ (id ∉ preset_id <$> l1) ∧
         presets (state (reorder_preset st (preset_id x) (Some id))) = l1 ++ x :: y :: l2) ∧
  (∀ k1 x k2, workspaces (state st) = k1 ++ x :: k2 → (workspace_entry_id x ∉ workspace_entry_id <$> k1) →
     (∃ l1 l2, k1 ++ k2 = l1 ++ l2 ∧
        workspaces (state (reorder_workspace st (workspace_entry_id x) None)) = l1 ++ x :: l2 ∧
        (∀ v, v ∈ l2 → workspace_project_id v ≠ workspace_project_id x) ∧
        (last (workspace_project_id <$> l1) = Some (workspace_project_id x) ∨ l2 = [])) ∧
     ∀ w, workspace (state st) (workspace_entry_id w) = Some w → workspace_entry_id w ≠ workspace_entry_id x →
       let st' := reorder_workspace st (workspace_entry_id x) (Some (workspace_entry_id w)) in
       if decide (workspace_project_id w = workspace_project_id x)
       then ∃ l1 y l2, k1 ++ k2 = l1 ++ y :: l2 ∧ workspace_entry_id y = workspace_entry_id w ∧
              workspaces (state st') = l1 ++ x :: y :: l2
       else st' = st).
Proof.
  split_and!.
  - intros k1 x k2 Heq Hx. unfold reorder_project. rewrite Heq.
    assert (position (has_project_id (project_entry_id x)) (k1 ++ x :: k2) = Some (length k1)) as ->
      by (by apply (position_first project_entry_id)).
    split; [by simpl; rewrite (move_before_end k1 x k2)|]. intros id Hid Hin.
    destruct (move_before_target project_entry_id k1 x k2 id Hx Hid Hin) as (l1 & y & l2 & -> & <- & Hn & Hm).
    exists l1, y, l2. simpl. unfold has_project_id. by rewrite Hm.
  - intros k1 x k2 Heq Hx. unfold reorder_preset. rewrite Heq.
    assert (position (has_preset_id (preset_id x)) (k1 ++ x :: k2) = Some (length k1)) as ->
      by (by apply (position_first preset_id)).
    split; [by simpl; rewrite (move_before_end k1 x k2)|]. intros id Hid Hin.
    destruct (move_before_target preset_id k1 x k2 id Hx Hid Hin) as (l1 & y & l2 & -> & <- & Hn & Hm).
    exists l1, y, l2. simpl. unfold has_preset_id. by rewrite Hm.
  - intros k1 x k2 Heq Hx. split; [by apply (reorder_workspace_end st k1 x k2)|].
    intros w. by apply reorder_workspace_onto.
Qed.

(** A preset is created exactly from a valid draft (a label, and a command or the
    name of an agent), last, under an identifier that no other preset has: the slug of its label when it is free.
    It is updated in place, and keeps its identifier. It is deleted unless it is the
    only one or unknown, and its workspaces go to the first one left. A call that fails changes nothing. *)
Theorem store_presets st :
  (∀ draft, ∃ st' r, create_preset st draft = Some (st', r) ∧
     match r with
     | Ok p => draft_valid draft ∧ presets (state st') = presets (state st) ++ [p] ∧ label p = trim (draft_label draft) ∧
         is_slug (preset_id p) ∧ (preset_id p ∉ preset_ids (state st)) ∧
         (preset_slug (draft_label draft) ∉ preset_ids (state st) → preset_id p = preset_slug (draft_label draft))
     | Err _ => ¬ draft_valid draft ∧ st' = st
     end) ∧
  (∀ id draft, let '(st', r) := update_preset st id draft in
     match r with
     | Ok _ => draft_valid draft ∧ ∃ k1 p q k2, presets (state st) = k1 ++ p :: k2 ∧ presets (state st') = k1 ++ q :: k2 ∧
         preset_id p = id ∧ preset_id q = id ∧ label q = trim (draft_label draft)
     | Err _ => (preset (state st) id = None ∨ ¬ draft_valid draft) ∧ st' = st
     end) ∧
  (∀ id, let '(st', r) := delete_preset st id in
     match r with
     | Ok _ => ∃ k1 p k2 first, presets (state st) = k1 ++ p :: k2 ∧ preset_id p = id ∧
         presets (state st') = k1 ++ k2 ∧ head (k1 ++ k2) = Some first ∧
         agent_preset_id <$> workspaces (state st') =
           (λ w, if decide (agent_preset_id w = id) then preset_id first else agent_preset_id w) <$> workspaces (state st)
     | Err _ => (preset (state st) id = None ∨ (length (presets (state st)) ≤ 1)%nat) ∧ st' = st
     end).
Proof.
  assert (∀ id l, position (has_preset_id id) l = None → find_first (has_preset_id id) l = None) as Hnone.
  { intros id l. induction l as [|p l IH]; simpl; [done|]. destruct (has_preset_id id p); [done|].
    destruct (position _ l); [done|]. by intros _; apply IH. }
  split_and!.
  - intros draft. unfold create_preset, unique_preset_id.
    destruct (unique_slug_spec (preset_slug (draft_label draft)) (list_to_set (preset_ids (state st))))
      as (id & -> & Hnew & Hslug & Hfree & _). cbn [mbind option_bind].
    rewrite elem_of_list_to_set in Hnew. rewrite preset_slug_id in Hfree by apply preset_slug_is_slug.
    rewrite elem_of_list_to_set in Hfree. pose proof (into_preset_cases draft id) as Hd.
    destruct (into_preset draft id) as [p|m]; (eexists _, _; split; [done|]); [|done].
    destruct Hd as (? & -> & -> & _). by split_and!.
  - intros id draft. unfold update_preset. destruct (position _ _) as [i|] eqn:Hi; [|split; [left; by apply Hnone|done]].
    apply position_Some in Hi as (k1 & p & k2 & Heq & <- & Hp%bool_decide_eq_true & _).
    pose proof (into_preset_cases draft id) as Hd. destruct (into_preset draft id) as [q|m]; [|by split; [right|]].
    destruct Hd as (? & ? & ? & _). split; [done|]. exists k1, p, q, k2. split_and!; try done.
    simpl. rewrite Heq. by rewrite insert_app_r_alt, Nat.sub_diag by done.
  - intros id. unfold delete_preset. case_decide as Hlen; [by split; [right|]|].
    destruct (position _ _) as [i|] eqn:Hi; [|split; [left; by apply Hnone|done]].
    apply position_Some in Hi as (k1 & p & k2 & Heq & <- & Hp%bool_decide_eq_true & _). simpl.
    rewrite Heq in Hlen |- *. rewrite remove_at_app. destruct (k1 ++ k2) as [|first l] eqn:Hk.
    { apply app_eq_nil in Hk as [-> ->]. simpl in Hlen. lia. }
    exists k1, p, k2, first. split_and!; [done|done|by rewrite Hk|by rewrite Hk|]. simpl. rewrite <- list_fmap_compose.
    apply list_fmap_ext. intros ? w _. simpl. by case_decide.
Qed.

(** [workspace_for_path_or_ancestor] finds a workspace whenever some local worktree
    contains the path, and then the last of those with the deepest worktree. *)
Theorem store_paths s (path : Path) :
  match workspace_for_path_or_ancestor s path with
  | Some w => ∃ root l1 l2, workspaces s = l1 ++ w :: l2 ∧ contains path w root ∧
      (∀ v r, v ∈ l1 → contains path v r → (length r ≤ length root)%nat) ∧
      (∀ v r, v ∈ l2 → contains path v r → (length r < length root)%nat)
  | None => ∀ v r, v ∈ workspaces s → ¬ contains path v r
  end.
Proof.
  unfold workspace_for_path_or_ancestor. pose proof (max_by_key_spec snd (omap (ancestor_depth path) (workspaces s))) as Hm.
  destruct (max_by_key snd _) as [[w n]|]; simpl.
  - destruct Hm as (d1 & d2 & Heq & H1 & H2). apply omap_middle in Heq as (l1 & x & l2 & -> & Hx & <- & <-).
    apply ancestor_depth_Some in Hx as (root & rest & -> & Hr & Hp & ->). exists root, l1, l2. split_and!; [done|by split; [|exists rest]| |].
    + intros v r Hv Hc. specialize (H1 _ (elem_of_depths _ _ _ _ Hv Hc)). simpl in H1. lia.
    + intros v r Hv Hc. specialize (H2 _ (elem_of_depths _ _ _ _ Hv Hc)). simpl in H2. lia.
  - intros v r Hv Hc. apply (elem_of_depths path _ v r Hv) in Hc. rewrite Hm in Hc. by apply not_elem_of_nil in Hc.
Qed.

(** ** Concrete runs *)

Definition demo_project (id : string) (root : list Component) : ProjectEntry :=
  mk_project (lit id) (lit id) (ProjectLocal root) false 0 0.

Definition demo_workspace (id project_id preset_id : string) (root : list Component) (k : WorkspaceKind) : WorkspaceEntry :=
  mk_workspace (lit id) (lit project_id) k (lit id) None (lit "main") (WorkspaceLocal root) (lit preset_id) true Available
    None Idle false None None 0 0.

Definition demo_draft (l c : string) : AgentPresetDraft := mk_draft (lit l) Terminal (lit c) [] [] None [].

Definition demo_start : SuperzentStore := mk_store default_state [].

Definition demo_ops : list store_op :=
  [UpsertProject (demo_project "p" [RootDir; Normal (lit "p")]);
   UpsertWorkspace (demo_workspace "w" "p" "gone" [RootDir; Normal (lit "p")] Primary);
   UpsertWorkspace (demo_workspace "x" "p" "gemini" [RootDir; Normal (lit "p"); Normal (lit "x")] Worktree);
   UpsertWorkspace (demo_workspace "orphan" "q" "gemini" [RootDir] Worktree);
   CreatePreset (demo_draft " Claude  Code! " "claude ");
   SetWorkspaceAgentPreset (lit "x") (lit "claude-code-2");
   SetActiveWorkspaceByPath [RootDir; Normal (lit "p"); Normal (lit "x"); Normal (lit "src")];
   DeletePreset (lit "codex");
   ReorderWorkspace (lit "x") (Some (lit "w"))].

Definition demo_end : SuperzentStore := default demo_start (run_ops demo_start demo_ops).

Lemma default_state_ok : state_ok default_state.
Proof.
  destruct default_presets_normal as [Hnd Hn]. split; [by intros w ?%elem_of_nil|done| |done|by intros w ?%elem_of_nil].
  apply Forall_fmap. eapply Forall_impl; [exact Hn|]. by intros p [? _].
Qed.

Example demo_run :
  workspace_ids (state demo_end) = [lit "x"; lit "w"] ∧
  (agent_preset_id <$> workspaces (state demo_end)) = [lit "claude-code-2"; lit "claude-code"] ∧
  preset_ids (state demo_end) = [lit "claude-code"; lit "gemini"; lit "claude-code-2"] ∧
  active_workspace_id (state demo_end) = Some (lit "x") ∧ length (effects demo_end) = 18%nat.
Proof. split_and!; vm_compute; reflexivity. Qed.

Lemma store_invariant_witness :
  state_ok (state demo_start) ∧ ∃ st', run_ops demo_start demo_ops = Some st' ∧ state_ok (state st') ∧
    (active_ok (state demo_start) → targets_ok demo_start demo_ops → active_ok (state st')).
Proof. split; [apply default_state_ok|]. apply (store_invariant demo_start demo_ops), default_state_ok. Defined.

Lemma store_writes_witness :
  run_ops demo_start demo_ops = Some demo_end ∧
  ∃ new, effects demo_end = effects demo_start ++ new ∧
    (new = [] ∧ state demo_end = state demo_start ∨ last new = Some Notify) ∧
    (forallb writes_through demo_ops = true → new = [] ∨ last_write new = Some (state demo_end)).
Proof.
  assert (run_ops demo_start demo_ops = Some demo_end) as Hrun by (vm_compute; reflexivity).
  split; [exact Hrun|]. exact (store_writes demo_start demo_ops demo_end Hrun).
Defined.

Lemma store_reorder_witness :
  let ps := [demo_project "a" [RootDir]; demo_project "b" [RootDir]; demo_project "c" [RootDir]] in
  let st := mk_store (mk_state None None ps [] [] default_presets) [] in
  (project_entry_id <$> projects (state (reorder_project st (lit "a") None))) = [lit "b"; lit "c"; lit "a"].
Proof.
  cbv zeta. set (st := mk_store _ _).
  destruct (proj1 (store_reorder st) [] (demo_project "a" [RootDir])
              [demo_project "b" [RootDir]; demo_project "c" [RootDir]] eq_refl) as [H _]; [apply not_elem_of_nil|].
  change (lit "a") with (project_entry_id (demo_project "a" [RootDir])). rewrite H. reflexivity.
Defined.

(** The sessions are filtered before [normalize] drops the workspaces without a
    project: the session of a dropped workspace survives the load. *)
Example load_keeps_stale_session :
  let s := mk_state None None [] [demo_workspace "w" "gone" "codex" [RootDir] Primary]
             [mk_session (lit "s") (lit "w") (lit "codex") (lit "s") Running 0 None None] default_presets in
  match load (λ _, true) (λ _, []) (Some s) None None with
  | Some st => workspaces (state st) = [] ∧ length (sessions (state st)) = 1%nat
  | None => False
  end.
Proof. vm_compute. done. Qed.
