(* ===== verification/Os.v ===== *)
(** * Os: programs that run processes and use the file system

    [crates/superzent_git/src/lib.rs] is a sequence of [git] and shell processes, file system
    calls, fresh identifiers and readings of the clock.  What these answer is not
    in the program: a [prog] is a tree that asks ([Act]) and goes on with any answer.
    [runs] relates a program to the traces that it can leave and its result there;
    [wp] is the weakest precondition that the proofs work with, [exec] runs a program on a
    simulated system. *)

From Stdlib Require Import String Ascii ZArith.
From S2P Require Import Prelude StoreData.
#[local] Open Scope N_scope.

(** ** Results *)

Inductive result (A E : Type) : Type := Ok (a : A) | Err (e : E).
Arguments Ok {A E}. Arguments Err {A E}.

(** [anyhow::Error]: the messages of its chain, the outermost first. *)
Definition Error : Type := list Str.

(** [context] and [with_context]. *)
Definition context {A} (message : Str) (r : result A Error) : result A Error :=
  match r with Ok a => Ok a | Err e => Err (message :: e) end.

(** [error.to_string()] and the format [{error:#}]. *)
Definition to_string (e : Error) : Str := default [] (head e).

Fixpoint join (separator : Str) (l : list Str) : Str :=
  match l with [] => [] | [s] => s | s :: l => s ++ separator ++ join separator l end.

Definition to_string_chain (e : Error) : Str := join (lit ": ") e.

Definition ok {A E} (r : result A E) : option A := match r with Ok a => Some a | Err _ => None end.
Definition err {A E} (r : result A E) : option E := match r with Ok _ => None | Err e => Some e end.
Definition is_ok {A E} (r : result A E) : bool := match r with Ok _ => true | Err _ => false end.

(** ** Actions *)

Record Command : Type := mk_command {
  program : Str; command_args : list Str; current_dir : option Path; envs : list (Str * Str)
}.

(** The exit status and the two streams, decoded. *)
Record Output : Type := mk_output { success : bool; code : option Z; stdout : Str; stderr : Str }.

Inductive action : Type :=
| Run (c : Command)
| Exists (p : Path)
| Create_dir_all (p : Path)
| Read_to_string (p : Path)
| Write (p : Path) (contents : Str)
| Is_dir (p : Path) (* [fs::symlink_metadata] and [file_type().is_dir()] *)
| Remove_dir_all (p : Path)
| Remove_file (p : Path)
| Canonicalize (p : Path)
| New_uuid
| Now.

Definition answer (a : action) : Type :=
  match a with
  | Run _ => result Output Error
  | Exists _ => bool
  | Create_dir_all _ | Write _ _ | Remove_dir_all _ | Remove_file _ => result unit Error
  | Read_to_string _ => result Str Error
  | Is_dir _ => result bool Error
  | Canonicalize _ => result Path Error
  | New_uuid => Str
  | Now => DateTime
  end.

#[export] Instance command_eq_dec : EqDecision Command.
Proof. solve_decision. Defined.

#[export] Instance action_eq_dec : EqDecision action.
Proof. solve_decision. Defined.

(** ** Programs *)

Inductive prog (A : Type) : Type :=
| Ret (a : A)
| Act (a : action) (k : answer a → prog A).
Arguments Ret {A}. Arguments Act {A}.

Fixpoint bind {A B} (f : A → prog B) (p : prog A) : prog B :=
  match p with Ret a => f a | Act a k => Act a (λ x, bind f (k x)) end.

Definition ask (a : action) : prog (answer a) := Act a Ret.

(** The operator [?]. *)
Definition try {A B E} (f : A → prog (result B E)) (p : prog (result A E)) : prog (result B E) :=
  bind (λ r, match r with Ok a => f a | Err e => Ret (Err e) end) p.

Declare Scope prog_scope.
Delimit Scope prog_scope with prog.
Notation "x <- p ;; q" := (bind (λ x, q) p) (at level 100, p at next level, right associativity) : prog_scope.
Notation "x <-? p ;; q" := (try (λ x, q) p) (at level 100, p at next level, right associativity) : prog_scope.

(** ** What a program can do *)

(** An action and its answer. *)
Definition step : Type := {a : action & answer a}.
Definition did (a : action) (x : answer a) : step := existT a x.

Fixpoint runs {A} (p : prog A) (tr : list step) (r : A) : Prop :=
  match p with
  | Ret a => tr = [] ∧ r = a
  | Act a k => ∃ x tr', tr = did a x :: tr' ∧ runs (k x) tr' r
  end.

(** Whatever the answers, [Q] holds of the trace, after what [tr] holds already, and the result. *)
Fixpoint wp {A} (p : prog A) (tr : list step) (Q : list step → A → Prop) : Prop :=
  match p with
  | Ret a => Q tr a
  | Act a k => ∀ x, wp (k x) (tr ++ [did a x]) Q
  end.

(** A system in a state [W], and what a program leaves there. *)
Fixpoint exec {W A} (os : ∀ a, W → answer a * W) (p : prog A) (w : W) : list step * A * W :=
  match p with
  | Ret a => ([], a, w)
  | Act a k => let '(x, w) := os a w in let '(tr, r, w) := exec os (k x) w in (did a x :: tr, r, w)
  end.

(** A system that does not change and answers a question always alike. *)
Fixpoint still {A} (os : ∀ a, answer a) (p : prog A) : A :=
  match p with Ret a => a | Act a k => still os (k (os a)) end.

Lemma runs_bind {A B} (f : A → prog B) p tr r :
  runs (bind f p) tr r ↔ ∃ tr1 tr2 a, tr = tr1 ++ tr2 ∧ runs p tr1 a ∧ runs (f a) tr2 r.
Proof.
  revert tr. induction p as [a|a k IH]; intros tr; cbn [bind runs].
  - split; [intros H; by exists [], tr, a|]. by intros (tr1 & tr2 & a' & -> & (-> & ->) & H).
  - split.
    + intros (x & tr' & -> & H). apply IH in H as (tr1 & tr2 & b & -> & H1 & H2).
      exists (did a x :: tr1), tr2, b. split_and!; [done| |done]. by exists x, tr1.
    + intros (tr1 & tr2 & b & -> & (x & tr' & -> & H1) & H2). exists x, (tr' ++ tr2). split; [done|].
      apply IH. by exists tr', tr2, b.
Qed.

Lemma wp_bind {A B} (f : A → prog B) p tr Q : wp (bind f p) tr Q ↔ wp p tr (λ tr a, wp (f a) tr Q).
Proof. revert tr. induction p as [a|a k IH]; intros tr; cbn [bind wp]; [done|]. split; intros H x; apply IH, H. Qed.

Lemma wp_try {A B E} (f : A → prog (result B E)) p tr Q :
  wp (try f p) tr Q ↔ wp p tr (λ tr r, match r with Ok a => wp (f a) tr Q | Err e => Q tr (Err e) end).
Proof. unfold try. rewrite wp_bind. revert tr. induction p as [[a|e]|a k IH]; intros tr; cbn [wp]; [done..|]. split; intros H x; apply IH, H. Qed.

Lemma wp_mono {A} (p : prog A) (P Q : list step → A → Prop) : (∀ tr r, P tr r → Q tr r) → ∀ tr, wp p tr P → wp p tr Q.
Proof. intros HPQ. induction p as [a|a k IH]; intros tr; cbn [wp]; [apply HPQ|]. intros H x. apply IH, H. Qed.

Lemma wp_runs {A} (p : prog A) Q : ∀ tr, wp p tr Q ↔ ∀ tr' r, runs p tr' r → Q (tr ++ tr') r.
Proof.
  induction p as [a|a k IH]; intros tr; cbn [wp runs].
  - split; [intros H tr' r [-> ->]; by rewrite app_nil_r|]. intros H. specialize (H [] a). rewrite app_nil_r in H. by apply H.
  - split.
    + intros H tr' r (x & tr1 & -> & Hr). specialize (proj1 (IH x _) (H x) tr1 r Hr). by rewrite <- (assoc_L (++)).
    + intros H x. apply IH. intros tr' r Hr. rewrite <- (assoc_L (++)). apply H. by exists x, tr'.
Qed.

Lemma runs_wp {A} (p : prog A) Q tr r : runs p tr r → wp p [] Q → Q tr r.
Proof. intros Hr H. rewrite wp_runs in H. specialize (H tr r Hr). by rewrite app_nil_l in H. Qed.

Lemma exec_runs {W A} (os : ∀ a, W → answer a * W) (p : prog A) w :
  runs p (exec os p w).1.1 (exec os p w).1.2.
Proof.
  revert w. induction p as [a|a k IH]; intros w; cbn [exec runs]; [done|].
  destruct (os a w) as [x w1]. specialize (IH x w1). destruct (exec os (k x) w1) as [[tr r] w2]. by exists x, tr.
Qed.

Lemma still_bind {A B} (f : A → prog B) os p : still os (bind f p) = still os (f (still os p)).
Proof. induction p as [a|a k IH]; [done|]. apply IH. Qed.

Lemma still_try {A B E} (f : A → prog (result B E)) os p :
  still os (try f p) = match still os p with Ok a => still os (f a) | Err e => Err e end.
Proof. unfold try. rewrite still_bind. by destruct (still os p). Qed.

Create Rewrite HintDb wp.
Create Rewrite HintDb still.
#[export] Hint Rewrite @wp_bind @wp_try : wp.
#[export] Hint Rewrite @still_bind @still_try : still.
