(* ===== verification/GitText.v ===== *)
(** * GitText: the text functions of [superzent_git]

    What [crates/superzent_git/src/lib.rs] uses of the standard library's strings and
    paths, and its own small functions on text: normalising and splitting commands,
    slugs for directory names, and the parsers of what [git] prints. *)

From Stdlib Require Import String Ascii.
From stdpp Require Import pretty.
From S2P Require Import Prelude StoreData Os.
#[local] Open Scope N_scope.

(** ** Strings *)

Definition newline : N := 10.
Definition carriage_return : N := 13.

Definition strip_carriage_return (line : Str) : Str :=
  match last line with Some c => if c =? carriage_return then take (length line - 1) line else line | None => line end.

(** [str::lines]: the pieces that end in a newline, without it and a carriage return before it,
    and what follows the last newline if anything. *)
Fixpoint lines_from (line s : Str) : list Str :=
  match s with
  | [] => if is_empty_str line then [] else [line]
  | c :: s => if c =? newline then strip_carriage_return line :: lines_from [] s else lines_from (line ++ [c]) s
  end.
Definition lines (s : Str) : list Str := lines_from [] s.

(** [str::starts_with], [strip_prefix] and [contains]. *)
Fixpoint strip_prefix (prefix s : Str) : option Str :=
  match prefix, s with
  | [], _ => Some s
  | c :: prefix, d :: s => if c =? d then strip_prefix prefix s else None
  | _ :: _, [] => None
  end.
Definition has_prefix (prefix s : Str) : bool := bool_decide (is_Some (strip_prefix prefix s)).
Fixpoint contains (pattern s : Str) : bool :=
  has_prefix pattern s || match s with [] => false | _ :: s => contains pattern s end.

(** [splitn(n, c)] *)
Fixpoint split_at (c : N) (s : Str) : Str * option Str :=
  match s with
  | [] => ([], None)
  | d :: s => if d =? c then ([], Some s) else let '(p, rest) := split_at c s in (d :: p, rest)
  end.
Fixpoint splitn (n : nat) (c : N) (s : Str) : list Str :=
  match n with
  | O => []
  | S O => [s]
  | S n => match split_at c s with (p, Some rest) => p :: splitn n c rest | (p, None) => [p] end
  end.

(** [str::split_whitespace] *)
Fixpoint words_from (word s : Str) : list Str :=
  match s with
  | [] => if is_empty_str word then [] else [word]
  | c :: s =>
      if is_whitespace c then (if is_empty_str word then words_from [] s else word :: words_from [] s)
      else words_from (word ++ [c]) s
  end.
Definition split_whitespace (s : Str) : list Str := words_from [] s.

(** [parse::<usize>]: decimal digits after an optional plus, within 64 bits. *)
Definition USIZE : N := 2 ^ 64.
Fixpoint parse_digits (value : N) (s : Str) : option N :=
  match s with
  | [] => Some value
  | c :: s =>
      if (48 <=? c) && (c <=? 57) then
        let value := value * 10 + (c - 48) in if value <? USIZE then parse_digits value s else None
      else None
  end.
Definition parse_usize (s : Str) : option N :=
  let digits := match s with c :: rest => if c =? 43 then rest else s | [] => s end in
  if is_empty_str digits then None else parse_digits 0 digits.

(** ** Paths *)

(** [PathBuf::from]: repeated separators, and dots but for a leading one, do not count. *)
Definition slash : N := 47.
Fixpoint split_on (c : N) (piece s : Str) : list Str :=
  match s with
  | [] => [piece]
  | d :: s => if d =? c then piece :: split_on c [] s else split_on c (piece ++ [d]) s
  end.
Definition component_of (leading : bool) (piece : Str) : list Component :=
  if is_empty_str piece then []
  else if bool_decide (piece = lit ".") then (if leading then [CurDir] else [])
  else if bool_decide (piece = lit "..") then [ParentDir] else [Normal piece].
Definition path_of (s : Str) : Path :=
  match split_on slash [] s with
  | [] => []
  | first :: rest =>
      (if is_empty_str first then (match rest with [] => [] | _ :: _ => [RootDir] end) else component_of true first) ++
      (rest ≫= component_of false)
  end.

(** [to_string_lossy] *)
Definition component_str (c : Component) : Str :=
  match c with RootDir => [] | CurDir => lit "." | ParentDir => lit ".." | Normal name => name end.
Definition path_str (p : Path) : Str :=
  match p with [RootDir] => [slash] | _ => join [slash] (component_str <$> p) end.

(** [Path::join] of a relative path. *)
Definition path_join (p : Path) (s : Str) : Path :=
  match path_of s with
  | RootDir :: _ => path_of s
  | CurDir :: rest => match p with [] => CurDir :: rest | _ => p ++ rest end
  | rest => p ++ rest
  end.

(** [Path::parent] *)
Definition parent (p : Path) : option Path :=
  match last p with Some RootDir | None => None | Some _ => Some (take (length p - 1) p) end.

(** ** Functions of the crate *)

Definition normalize_branch_name (branch_name : option Str) : option Str :=
  branch_name ← trim <$> branch_name;
  if is_empty_str branch_name then None else Some branch_name.

Definition normalize_command (command : option Str) : option Str :=
  command ← trim <$> command;
  if is_empty_str command then None else Some command.

Definition commands_to_script (commands : list Str) : option Str :=
  match commands with [] => None | _ => Some (join [newline] commands) end.

Definition split_commands (command_text : Str) : list Str :=
  filter (λ command, is_empty_str command = false) (trim <$> lines command_text).

Definition slugify (input : Str) : Str :=
  let slug := (λ ch, if is_ascii_alphanumeric ch then ch else dash) <$> input in
  let slug := to_ascii_lowercase <$> trim_by (λ c, c =? dash) slug in
  if is_empty_str slug then lit "workspace" else slug.

Definition parse_worktree_paths (raw_worktrees : Str) : list Path :=
  omap (λ line, path_of <$> strip_prefix (lit "worktree ") line) (lines raw_worktrees).
