(* ===== verification/Git.v ===== *)
(** * Git: projects, worktrees and their life cycle

    Models [crates/superzent_git/src/lib.rs]: registering a project, creating and deleting
    managed worktrees with their setup and teardown commands, choosing the base branch,
    and reading what [git] reports.  Every function that talks to the system is a [prog];
    [Result] is a [result], the operator [?] is [<-?].  Warnings that are only logged are left
    out.  The JSON of [.superzent/config.json], read and printed by a library, is an argument. *)

From Stdlib Require Import String Ascii ZArith.
From stdpp Require Import pretty.
From S2P Require Import Prelude StoreData Os GitText.
#[local] Open Scope N_scope.
#[local] Open Scope prog_scope.

Definition NO_GIT_BRANCH_LABEL : Str := lit "No Git".

(** ** Data *)

Inductive WorkspaceLifecyclePhase : Type := Setup | Teardown.

Definition phase_label (p : WorkspaceLifecyclePhase) : Str :=
  match p with Setup => lit "Setup" | Teardown => lit "Teardown" end.

Record WorkspaceLifecycleFailure : Type := mk_failure {
  failure_phase : WorkspaceLifecyclePhase;
  failure_command : Str;
  exit_code : option Z;
  failure_stdout : Str;
  failure_stderr : Str
}.

Definition failure_summary (f : WorkspaceLifecycleFailure) : Str :=
  phase_label (failure_phase f) ++ lit " failed while running `" ++ failure_command f ++
  match exit_code f with
  | Some code => lit "` (exit code " ++ lit (pretty code) ++ lit ")."
  | None => lit "`."
  end.

Definition failure_details (f : WorkspaceLifecycleFailure) : Str :=
  join [newline; newline] ([failure_summary f] ++
    (if is_empty_str (trim (failure_stdout f)) then [] else [lit "Stdout:" ++ [newline] ++ trim (failure_stdout f)]) ++
    (if is_empty_str (trim (failure_stderr f)) then [] else [lit "Stderr:" ++ [newline] ++ trim (failure_stderr f)])).

Record ProjectRegistration : Type := mk_registration { project : ProjectEntry; primary_workspace : WorkspaceEntry }.

Record WorkspaceCreateOutcome : Type := mk_created {
  workspace : WorkspaceEntry; created_notice : option Str; setup_failure : option WorkspaceLifecycleFailure
}.

Record WorkspaceBaseBranchResolution : Type := mk_base { effective_base_branch : Str; notice : option Str }.

Record WorkspaceLifecycleDefaults : Type := mk_defaults { setup_default : option Str; teardown_default : option Str }.

Record SaveSelections : Type := mk_selections { save_setup : bool; save_teardown : bool }.
Definition any (s : SaveSelections) : bool := save_setup s || save_teardown s.

Inductive WorkspaceDeleteOutcome : Type := Deleted | BlockedByTeardown (f : WorkspaceLifecycleFailure).

Inductive WorkspaceDeleteResolution : Type :=
| RunTeardownScript (script : Str)
| SkipTeardown
| BlockedByConfig (f : WorkspaceLifecycleFailure).

Record WorkspaceRefresh : Type := mk_refresh {
  refresh_branch : Str; refresh_status : WorkspaceGitStatus; refresh_summary : option GitChangeSummary
}.

Record DiscoveredWorktree : Type := mk_discovered {
  discovered_path : Path; discovered_branch : Str;
  discovered_status : WorkspaceGitStatus; discovered_summary : option GitChangeSummary
}.

Record LocalProjectMetadata : Type := mk_metadata {
  project_root : Path; metadata_branch : Str;
  metadata_status : WorkspaceGitStatus; metadata_summary : option GitChangeSummary
}.

Record CreateWorkspaceOptions : Type := mk_options {
  branch_name : Str;
  base_branch_override : option Str;
  base_workspace_path : option Path;
  setup_script : option Str;
  teardown_script : option Str;
  save_lifecycle_defaults : SaveSelections;
  allow_dirty : bool
}.

Record SuperzentConfig : Type := mk_config {
  setup : list Str; teardown : list Str; base_branch : option Str; copy : list Str
}.
Definition default_config : SuperzentConfig := mk_config [] [] None [].

(** ** Processes *)

Definition run_command_output (command : Command) (failure_context : Str) : prog (result Output Error) :=
  r <- ask (Run command);; Ret (context failure_context r).

(** The command [git -C repo_root args]. *)
Definition git_command (repo_root : Path) (args : list Str) : Command :=
  mk_command (lit "git") ([lit "-C"; path_str repo_root] ++ args) None [].

Definition git_output (repo_root : Path) (args : list Str) : prog (result Str Error) :=
  output <-? run_command_output (git_command repo_root args) (lit "failed to run git " ++ join (lit " ") args);;
  if negb (success output) then
    Ret (Err [lit "git " ++ join (lit " ") args ++ lit " failed: " ++ trim (stderr output)])
  else Ret (Ok (trim (stdout output))).

Definition run_git (repo_root : Path) (args : list Str) : prog (result unit Error) :=
  r <-? git_output repo_root args;; Ret (Ok ()).

Definition shell_command (command : Str) (cwd : Path) (base : option Path) (workspace_name : Str) (repo_root : Path) : Command :=
  mk_command (lit "/bin/zsh") [lit "-lc"; command] (Some cwd)
    ([(lit "SUPERZENT_ROOT_PATH", path_str repo_root); (lit "SUPERZENT_WORKTREE_PATH", path_str cwd)] ++
     match base with Some base => [(lit "SUPERZENT_BASE_PATH", path_str base)] | None => [] end ++
     [(lit "SUPERZENT_WORKSPACE_NAME", workspace_name); (lit "SUPERSET_WORKSPACE_NAME", workspace_name);
      (lit "SUPERSET_ROOT_PATH", path_str repo_root)]).

Definition run_shell_command (command : Str) (cwd : Path) (base : option Path) (workspace_name : Str) (repo_root : Path)
    (phase : WorkspaceLifecyclePhase) : prog (result unit WorkspaceLifecycleFailure) :=
  r <- run_command_output (shell_command command cwd base workspace_name repo_root) (lit "failed to run hook command: " ++ command);;
  match r with
  | Err error => Ret (Err (mk_failure phase command None [] (to_string error)))
  | Ok output =>
      if negb (success output) then Ret (Err (mk_failure phase command (code output) (trim (stdout output)) (trim (stderr output))))
      else Ret (Ok ())
  end.

(** [for command in commands] *)
Fixpoint run_lifecycle_commands (commands : list Str) (repo_root worktree_path : Path) (base : option Path) (workspace_name : Str)
    (phase : WorkspaceLifecyclePhase) : prog (result unit WorkspaceLifecycleFailure) :=
  match commands with
  | [] => Ret (Ok ())
  | command :: commands =>
      r <-? run_shell_command command worktree_path base workspace_name repo_root phase;;
      run_lifecycle_commands commands repo_root worktree_path base workspace_name phase
  end.

Definition workspace_lifecycle_failure_from_error (phase : WorkspaceLifecyclePhase) (command : Str) (error : Error) :
    WorkspaceLifecycleFailure := mk_failure phase command None [] (to_string error).

(** ** What git says *)

Definition git_common_dir (repo_hint : Path) : prog (result Path Error) :=
  output <-? git_output repo_hint [lit "rev-parse"; lit "--path-format=absolute"; lit "--git-common-dir"];;
  Ret (Ok (path_of (trim output))).

Definition discover_repo_root (repo_hint : Path) : prog (result Path Error) :=
  common_dir <-? git_common_dir repo_hint;;
  match (if bool_decide (file_name common_dir = Some (lit ".git")) then parent common_dir else None) with
  | Some repo_root => Ret (Ok repo_root)
  | None =>
      output <-? git_output repo_hint [lit "rev-parse"; lit "--show-toplevel"];;
      Ret (Ok (path_of (trim output)))
  end.

Definition current_branch (repo_hint : Path) : prog (option Str) :=
  r <- git_output repo_hint [lit "branch"; lit "--show-current"];;
  Ret (branch ← trim <$> ok r; if is_empty_str branch then None else Some branch).

Definition branch_reference_exists (repo_hint : Path) (branch_name : Str) : prog bool :=
  r <- git_output repo_hint [lit "rev-parse"; lit "--verify"; branch_name];; Ret (is_ok r).

Definition git_has_head (repo_hint : Path) : prog bool :=
  r <- git_output repo_hint [lit "rev-parse"; lit "--verify"; lit "HEAD"];; Ret (is_ok r).

Definition ensure_clean_worktree (repo_hint : Path) : prog (result unit Error) :=
  status <-? git_output repo_hint [lit "status"; lit "--porcelain"];;
  if is_empty_str status then Ret (Ok ())
  else Ret (Err [lit "commit or stash local changes before creating a managed workspace"]).

(** The loop over the two symbolic references, and the one over [main] and [master]. *)
Fixpoint first_symbolic_ref (repo_hint : Path) (refs : list (Str * Str)) : prog (option Str) :=
  match refs with
  | [] => Ret None
  | (symbolic_ref, prefix) :: refs =>
      r <- git_output repo_hint [lit "symbolic-ref"; symbolic_ref];;
      match ok r ≫= strip_prefix prefix with
      | Some branch_name => Ret (Some branch_name)
      | None => first_symbolic_ref repo_hint refs
      end
  end.

Fixpoint first_existing_branch (repo_hint : Path) (names : list Str) : prog (option Str) :=
  match names with
  | [] => Ret None
  | branch_name :: names =>
      found <- branch_reference_exists repo_hint branch_name;;
      if found : bool then Ret (Some branch_name) else first_existing_branch repo_hint names
  end.

Definition symbolic_refs : list (Str * Str) :=
  [(lit "refs/remotes/upstream/HEAD", lit "refs/remotes/upstream/"); (lit "refs/remotes/origin/HEAD", lit "refs/remotes/origin/")].

Definition repository_default_branch (repo_hint : Path) : prog (option Str) :=
  r <- first_symbolic_ref repo_hint symbolic_refs;;
  match r with
  | Some branch_name => Ret (Some branch_name)
  | None =>
      configured <- git_output repo_hint [lit "config"; lit "init.defaultBranch"];;
      r <- match configured with
           | Ok configured_default_branch =>
               found <- branch_reference_exists repo_hint configured_default_branch;;
               Ret (if found : bool then Some configured_default_branch else None)
           | Err _ => Ret None
           end;;
      match r with
      | Some branch_name => Ret (Some branch_name)
      | None => first_existing_branch repo_hint [lit "main"; lit "master"]
      end
  end.

(** ** Choosing the base branch *)

Definition no_default_branch : Error :=
  [lit "could not determine the repository default branch; configure `.superzent/config.json` `base_branch` or choose an override"].

Definition resolve_workspace_base_branch_for_repo (repo_root : Path) (base_workspace_path : option Path) (config : SuperzentConfig)
    (override : option Str) : prog (result WorkspaceBaseBranchResolution Error) :=
  match normalize_branch_name override with
  | Some override =>
      found <- branch_reference_exists repo_root override;;
      if negb found then Ret (Err [lit "base branch `" ++ override ++ lit "` was not found"])
      else Ret (Ok (mk_base override None))
  | None =>
      current <- current_branch (default repo_root base_workspace_path);;
      repository_default <- repository_default_branch repo_root;;
      match normalize_branch_name (base_branch config) with
      | Some configured =>
          found <- branch_reference_exists repo_root configured;;
          if found : bool then Ret (Ok (mk_base configured None))
          else
            match current with
            | Some current =>
                Ret (Ok (mk_base current (Some (lit "Configured base branch `" ++ configured ++
                  lit "` was not found. Using the base workspace current branch `" ++ current ++ lit "`."))))
            | None =>
                match repository_default with
                | None => Ret (Err no_default_branch)
                | Some repository_default =>
                    Ret (Ok (mk_base repository_default (Some (lit "Configured base branch `" ++ configured ++
                      lit "` was not found. The base workspace has no current branch, so using repository default `" ++
                      repository_default ++ lit "`."))))
                end
            end
      | None =>
          match current with
          | Some current => Ret (Ok (mk_base current None))
          | None =>
              match repository_default with
              | None => Ret (Err no_default_branch)
              | Some repository_default => Ret (Ok (mk_base repository_default None))
              end
          end
      end
  end.

(** ** Summaries *)

(** The loop over the lines of [git status --porcelain]. *)
Definition count_status_line (s : GitChangeSummary) (line : Str) : GitChangeSummary :=
  if is_empty_str line then s
  else
    let stage := default 32 (head line) in
    {| changed_files := changed_files s + 1;
       staged_files := if negb (stage =? 32) && negb (stage =? 63) then staged_files s + 1 else staged_files s;
       untracked_files := if has_prefix (lit "??") line then untracked_files s + 1 else untracked_files s;
       added_lines := added_lines s; deleted_lines := deleted_lines s;
       ahead_commits := ahead_commits s; behind_commits := behind_commits s |}.

Definition empty_summary : GitChangeSummary :=
  {| changed_files := 0; staged_files := 0; untracked_files := 0; added_lines := 0; deleted_lines := 0;
     ahead_commits := 0; behind_commits := 0 |}.

Definition with_lines_and_commits (s : GitChangeSummary) (diff tracking : N * N) : GitChangeSummary :=
  {| changed_files := changed_files s; staged_files := staged_files s; untracked_files := untracked_files s;
     added_lines := diff.1; deleted_lines := diff.2; ahead_commits := tracking.1; behind_commits := tracking.2 |}.

(** The loop over the lines of [git diff --numstat]; the sums wrap around. *)
Definition count_diff_line (counts : N * N) (line : Str) : N * N :=
  match splitn 3 9 line with
  | [added; deleted; _] =>
      match parse_usize added, parse_usize deleted with
      | Some added, Some deleted => ((counts.1 + added) mod USIZE, (counts.2 + deleted) mod USIZE)
      | _, _ => counts
      end
  | _ => counts
  end.

Definition git_diff_line_summary (repo_hint : Path) : prog (result (N * N) Error) :=
  head <- git_has_head repo_hint;;
  if negb head then Ret (Ok (0, 0))
  else
    output <-? git_output repo_hint [lit "diff"; lit "--numstat"; lit "--no-renames"; lit "HEAD"];;
    Ret (Ok (foldl count_diff_line (0, 0) (lines output))).

Definition tracking_counts (output : Str) : N * N :=
  let counts := split_whitespace output in
  match head counts ≫= parse_usize with
  | Some behind =>
      match head (tail counts) ≫= parse_usize with
      | Some ahead => (ahead, behind)
      | None => (0, 0)
      end
  | None => (0, 0)
  end.

Definition git_tracking_summary (repo_hint : Path) : prog (N * N) :=
  r <- git_output repo_hint [lit "rev-list"; lit "--left-right"; lit "--count"; lit "@{upstream}...HEAD"];;
  Ret (match r with Ok output => tracking_counts output | Err _ => (0, 0) end).

Definition git_change_summary (repo_hint : Path) : prog (result GitChangeSummary Error) :=
  status <-? git_output repo_hint [lit "status"; lit "--porcelain"];;
  let summary := foldl count_status_line empty_summary (lines status) in
  diff <-? git_diff_line_summary repo_hint;;
  tracking <- git_tracking_summary repo_hint;;
  Ret (Ok (with_lines_and_commits summary diff tracking)).

Definition refresh_workspace_path (worktree_path : Path) : prog (result WorkspaceRefresh Error) :=
  root <- discover_repo_root worktree_path;;
  if is_ok root then
    branch <- current_branch worktree_path;;
    summary <- git_change_summary worktree_path;;
    Ret (Ok (mk_refresh (default (lit "HEAD") branch) Available (ok summary)))
  else Ret (Ok (mk_refresh NO_GIT_BRANCH_LABEL Unavailable None)).

(** ** Projects *)

Definition inspect_local_project (project_hint : Path) : prog (result LocalProjectMetadata Error) :=
  r <- ask (Canonicalize project_hint);;
  match context (lit "failed to resolve project path " ++ path_str project_hint) r with
  | Err e => Ret (Err e)
  | Ok canonical_path =>
      root <- discover_repo_root canonical_path;;
      match root with
      | Ok repo_root =>
          branch <- current_branch canonical_path;;
          summary <- git_change_summary canonical_path;;
          Ret (Ok (mk_metadata repo_root (default (lit "HEAD") branch) Available (ok summary)))
      | Err _ => Ret (Ok (mk_metadata canonical_path NO_GIT_BRANCH_LABEL Unavailable None))
      end
  end.

Definition register_project (repo_hint : Path) (preset_id : Str) : prog (result ProjectRegistration Error) :=
  metadata <-? inspect_local_project repo_hint;;
  let name := default (lit "Project") (file_name (project_root metadata)) in
  now <- ask Now;;
  id <- ask New_uuid;;
  project_id <- ask New_uuid;;
  let primary_workspace :=
    mk_workspace id project_id Primary name None (metadata_branch metadata) (WorkspaceLocal (project_root metadata)) preset_id
      false (metadata_status metadata) (metadata_summary metadata) Idle false None None now now in
  let project := mk_project project_id name (ProjectLocal (project_root metadata)) false now now in
  Ret (Ok (mk_registration project primary_workspace)).

Definition initialize_git_repository (project_root : Path) : prog (result WorkspaceRefresh Error) :=
  r <-? run_git project_root [lit "init"];;
  refresh_workspace_path project_root.

(** The iterator over the worktrees that exist. *)
Fixpoint inspect_worktrees (paths : list Path) : prog (list DiscoveredWorktree) :=
  match paths with
  | [] => Ret []
  | path :: paths =>
      found <- ask (Exists path);;
      if found : bool then
        r <- refresh_workspace_path path;;
        let refresh := default (mk_refresh NO_GIT_BRANCH_LABEL Unavailable None) (ok r) in
        rest <- inspect_worktrees paths;;
        Ret (mk_discovered path (refresh_branch refresh) (refresh_status refresh) (refresh_summary refresh) :: rest)
      else inspect_worktrees paths
  end.

Definition discover_worktrees (repo_hint : Path) : prog (result (list DiscoveredWorktree) Error) :=
  repo_root <-? discover_repo_root repo_hint;;
  output <-? git_output repo_root [lit "worktree"; lit "list"; lit "--porcelain"];;
  worktrees <- inspect_worktrees (parse_worktree_paths output);;
  Ret (Ok worktrees).

(** ** Removing *)

Definition remove_workspace_path (path : Path) : prog (result unit Error) :=
  r <- ask (Is_dir path);;
  match context (lit "failed to inspect workspace path " ++ path_str path) r with
  | Err e => Ret (Err e)
  | Ok is_dir =>
      if is_dir : bool then
        r <- ask (Remove_dir_all path);; Ret (context (lit "failed to remove workspace directory " ++ path_str path) r)
      else
        r <- ask (Remove_file path);; Ret (context (lit "failed to remove workspace path " ++ path_str path) r)
  end.

Definition cleanup_created_worktree (repo_root worktree_path : Path) (branch_name : Str) : prog unit :=
  r <- run_git repo_root [lit "worktree"; lit "remove"; lit "--force"; path_str worktree_path];;
  _r <- (if is_ok r then Ret (Ok ()) else remove_workspace_path worktree_path);;
  _b <- run_git repo_root [lit "branch"; lit "-D"; branch_name];;
  Ret ().

Definition should_remove_workspace_path_after_git_failure (error : Error) : bool :=
  existsb (λ message,
    contains (lit "not a git repository") message || contains (lit "is not a git repository") message ||
    contains (lit "not a repository") message) error.

Definition move_changes_to_workspace (source_repo_root target_worktree_path : Path) : prog (result unit Error) :=
  stash_output <-? git_output source_repo_root
    [lit "stash"; lit "push"; lit "--include-untracked"; lit "-m"; lit "superzent-move-changes"];;
  if contains (lit "No local changes to save") stash_output then Ret (Ok ())
  else
    r <- run_git target_worktree_path [lit "stash"; lit "pop"; lit "--index"; lit "stash@{0}"];;
    match r with
    | Err error =>
        Ret (Err [lit "created the workspace, but moving changes failed. Your changes were stashed as `stash@{0}` on the source workspace." ++
          [newline] ++ to_string error])
    | Ok _ => Ret (Ok ())
    end.

(** [for attempt in 1..100] *)
Fixpoint free_directory_name (worktree_root : Path) (base : Str) (attempts : list nat) : prog (option Str) :=
  match attempts with
  | [] => Ret None
  | attempt :: attempts =>
      let candidate := base ++ [dash] ++ lit (pretty (N.of_nat attempt)) in
      found <- ask (Exists (path_join worktree_root candidate));;
      if found : bool then free_directory_name worktree_root base attempts else Ret (Some candidate)
  end.

Definition unique_worktree_directory_name (worktree_root : Path) (branch_name : Str) : prog Str :=
  let base := slugify branch_name in
  found <- ask (Exists (path_join worktree_root base));;
  if negb found then Ret base
  else
    free <- free_directory_name worktree_root base (seq 1 99);;
    match free with
    | Some candidate => Ret candidate
    | None => id <- ask New_uuid;; Ret (base ++ [dash] ++ take 8 id)
    end.

(** ** The configuration *)

Definition lifecycle_commands (config : SuperzentConfig) (override : option Str) (phase : WorkspaceLifecyclePhase) : list Str :=
  match normalize_command override with
  | Some override => split_commands override
  | None => match phase with Setup => setup config | Teardown => teardown config end
  end.

Definition workspace_teardown_script_override_for_create (config : SuperzentConfig) (teardown_script : option Str)
    (save_teardown_script_as_repo_default : bool) : option Str :=
  if save_teardown_script_as_repo_default then None
  else
    let teardown_script := normalize_command teardown_script in
    if bool_decide (teardown_script = commands_to_script (teardown config)) then None else teardown_script.

Section configuration.
(** [serde_json::from_str] and [to_string_pretty]. *)
Context (parse_config : Str → result SuperzentConfig Error) (print_config : SuperzentConfig → result Str Error).

Definition superzent_directory (repo_root : Path) : Path := path_join repo_root (lit ".superzent").
Definition config_path (repo_root : Path) : Path := path_join (superzent_directory repo_root) (lit "config.json").

Definition load_superzent_config (repo_root : Path) : prog (result SuperzentConfig Error) :=
  let config_path := config_path repo_root in
  found <- ask (Exists config_path);;
  if negb found then Ret (Ok default_config)
  else
    r <- ask (Read_to_string config_path);;
    match context (lit "failed to read " ++ path_str config_path) r with
    | Err e => Ret (Err e)
    | Ok contents =>
        match context (lit "failed to parse " ++ path_str config_path) (parse_config contents) with
        | Err e => Ret (Err e)
        | Ok config =>
            if negb (bool_decide (length (copy config) = 0)%nat) then
              Ret (Err [lit "`.superzent/config.json` `copy` is no longer supported; move this logic into `setup` commands"])
            else Ret (Ok config)
        end
    end.

Definition write_superzent_config (repo_root : Path) (config : SuperzentConfig) : prog (result unit Error) :=
  let superzent_directory := superzent_directory repo_root in
  r <- ask (Create_dir_all superzent_directory);;
  match context (lit "failed to create " ++ path_str superzent_directory) r with
  | Err e => Ret (Err e)
  | Ok _ =>
      match context (lit "failed to serialize .superzent/config.json") (print_config config) with
      | Err e => Ret (Err e)
      | Ok contents =>
          r <- ask (Write (config_path repo_root) contents);;
          Ret (context (lit "failed to write " ++ path_str (config_path repo_root)) r)
      end
  end.

Definition prepare_superzent_config_for_create (repo_root : Path) (setup_script teardown_script : option Str) (save : SaveSelections) :
    prog (result SuperzentConfig Error) :=
  config <-? load_superzent_config repo_root;;
  let config := if save_setup save then
      mk_config (default [] (split_commands <$> setup_script)) (teardown config) (base_branch config) (copy config) else config in
  let config := if save_teardown save then
      mk_config (setup config) (default [] (split_commands <$> teardown_script)) (base_branch config) (copy config) else config in
  Ret (Ok config).

Definition initialize_git_first {A} (r : result A Error) : result A Error :=
  context (lit "initialize Git before creating a managed workspace") r.

Definition resolve_workspace_base_branch_from_workspace (project : ProjectEntry) (base_workspace_path : option Path)
    (override : option Str) : prog (result WorkspaceBaseBranchResolution Error) :=
  match local_repo_root project with
  | None => Ret (Err [lit "cannot resolve a local workspace base branch for a remote project"])
  | Some project_repo_root =>
      root <- discover_repo_root project_repo_root;;
      match initialize_git_first root with
      | Err e => Ret (Err e)
      | Ok repo_root =>
          config <-? load_superzent_config repo_root;;
          resolve_workspace_base_branch_for_repo repo_root base_workspace_path config override
      end
  end.

Definition resolve_workspace_base_branch (project : ProjectEntry) (override : option Str) :
    prog (result WorkspaceBaseBranchResolution Error) := resolve_workspace_base_branch_from_workspace project None override.

Definition workspace_lifecycle_defaults (project : ProjectEntry) : prog (result WorkspaceLifecycleDefaults Error) :=
  match local_repo_root project with
  | None => Ret (Err [lit "cannot resolve workspace lifecycle defaults for a remote project"])
  | Some project_repo_root =>
      root <- discover_repo_root project_repo_root;;
      match context (lit "initialize Git before reading workspace lifecycle defaults") root with
      | Err e => Ret (Err e)
      | Ok repo_root =>
          config <-? load_superzent_config repo_root;;
          Ret (Ok (mk_defaults (commands_to_script (setup config)) (commands_to_script (teardown config))))
      end
  end.

(** ** Creating a workspace *)

Definition worktree_root (repo_root : Path) (repo_name : Str) : Path :=
  path_join (path_join (default repo_root (parent repo_root)) (lit ".superzent-worktrees")) repo_name.

Definition worktree_add (repo_root worktree_path : Path) (branch_name base : Str) : list Str :=
  [lit "worktree"; lit "add"; lit "-b"; branch_name; path_str worktree_path; base].

(** The commands of the setup, when they are to run. *)
Definition run_setup (options : CreateWorkspaceOptions) (run_setup_now : bool) (repo_root worktree_path : Path) (config : SuperzentConfig)
    (branch_name : Str) : prog (option WorkspaceLifecycleFailure) :=
  let setup_commands := lifecycle_commands config (normalize_command (setup_script options)) Setup in
  if run_setup_now then
    r <- run_lifecycle_commands setup_commands repo_root worktree_path (base_workspace_path options) branch_name Setup;;
    Ret (err r)
  else Ret None.

(** The entry of the new workspace. *)
Definition enter_workspace (project : ProjectEntry) (preset_id : Str) (options : CreateWorkspaceOptions) (worktree_path : Path)
    (config : SuperzentConfig) (base : WorkspaceBaseBranchResolution) (branch_name : Str)
    (setup_failure : option WorkspaceLifecycleFailure) : prog WorkspaceCreateOutcome :=
  r <- refresh_workspace_path worktree_path;;
  let refresh := default (mk_refresh branch_name Available None) (ok r) in
  let teardown_script_override := workspace_teardown_script_override_for_create config
    (normalize_command (teardown_script options)) (save_teardown (save_lifecycle_defaults options)) in
  id <- ask New_uuid;;
  created_at <- ask Now;;
  last_opened_at <- ask Now;;
  Ret (mk_created
    (mk_workspace id (project_entry_id project) Worktree branch_name None (refresh_branch refresh) (WorkspaceLocal worktree_path)
       preset_id true (refresh_status refresh) (refresh_summary refresh) Idle false
       match setup_failure with Some f => Some (failure_summary f) | None => notice base end
       teardown_script_override created_at last_opened_at)
    (notice base) setup_failure).

(** From the new worktree on. *)
Definition finish_workspace (project : ProjectEntry) (preset_id : Str) (options : CreateWorkspaceOptions) (run_setup_now : bool)
    (repo_root worktree_path : Path) (config : SuperzentConfig) (base : WorkspaceBaseBranchResolution) (branch_name : Str) :
    prog (result WorkspaceCreateOutcome Error) :=
  saved <- (if any (save_lifecycle_defaults options) then write_superzent_config repo_root config else Ret (Ok ()));;
  match saved with
  | Err error =>
      _c <- cleanup_created_worktree repo_root worktree_path branch_name;;
      Ret (Err error)
  | Ok _ =>
      setup_failure <- run_setup options run_setup_now repo_root worktree_path config branch_name;;
      outcome <- enter_workspace project preset_id options worktree_path config base branch_name setup_failure;;
      Ret (Ok outcome)
  end.

(** [git worktree add] and what follows it, once the base branch is known. *)
Definition add_workspace (project : ProjectEntry) (preset_id : Str) (options : CreateWorkspaceOptions) (run_setup_now : bool)
    (repo_root : Path) (config : SuperzentConfig) (base : WorkspaceBaseBranchResolution) : prog (result WorkspaceCreateOutcome Error) :=
  let branch_name := trim (branch_name options) in
  if is_empty_str branch_name then Ret (Err [lit "branch name is required"])
  else
    let worktree_root := worktree_root repo_root (default (lit "project") (file_name repo_root)) in
    _d <-? ask (Create_dir_all worktree_root);;
    directory <- unique_worktree_directory_name worktree_root branch_name;;
    let worktree_path := path_join worktree_root directory in
    _a <-? run_git repo_root (worktree_add repo_root worktree_path branch_name (effective_base_branch base));;
    finish_workspace project preset_id options run_setup_now repo_root worktree_path config base branch_name.

Definition create_workspace_internal (project : ProjectEntry) (preset_id : Str) (options : CreateWorkspaceOptions) (run_setup_now : bool) :
    prog (result WorkspaceCreateOutcome Error) :=
  match local_repo_root project with
  | None => Ret (Err [lit "cannot create a local workspace for a remote project"])
  | Some project_repo_root =>
      root <- discover_repo_root project_repo_root;;
      match initialize_git_first root with
      | Err e => Ret (Err e)
      | Ok repo_root =>
          clean <-? (if negb (allow_dirty options) then ensure_clean_worktree (default project_repo_root (base_workspace_path options))
            else Ret (Ok ()));;
          config <-? prepare_superzent_config_for_create repo_root (normalize_command (setup_script options))
            (normalize_command (teardown_script options)) (save_lifecycle_defaults options);;
          base <-? resolve_workspace_base_branch_for_repo repo_root (base_workspace_path options) config (base_branch_override options);;
          add_workspace project preset_id options run_setup_now repo_root config base
      end
  end.

Definition create_workspace (project : ProjectEntry) (preset_id : Str) (options : CreateWorkspaceOptions) :
    prog (result WorkspaceCreateOutcome Error) := create_workspace_internal project preset_id options true.

Definition create_workspace_without_setup (project : ProjectEntry) (preset_id : Str) (options : CreateWorkspaceOptions) :
    prog (result WorkspaceCreateOutcome Error) := create_workspace_internal project preset_id options false.

Definition setup_error (command stderr : Str) : WorkspaceLifecycleFailure := mk_failure Setup command None [] stderr.

Definition run_workspace_setup (project : ProjectEntry) (workspace : WorkspaceEntry) (base_workspace_path : option Path)
    (setup_script : option Str) : prog (result unit WorkspaceLifecycleFailure) :=
  match local_repo_root project with
  | None => Ret (Err (setup_error (lit "resolve local project") (lit "cannot run local workspace setup for a remote project")))
  | Some project_repo_root =>
      root <- discover_repo_root project_repo_root;;
      match root with
      | Err error => Ret (Err (setup_error (lit "resolve repo root") (to_string error)))
      | Ok repo_root =>
          config <- load_superzent_config repo_root;;
          match config with
          | Err error => Ret (Err (setup_error (lit "load .superzent/config.json") (to_string error)))
          | Ok config =>
              let setup_commands := lifecycle_commands config setup_script Setup in
              if bool_decide (length setup_commands = 0)%nat then Ret (Ok ())
              else
                match local_worktree_path workspace with
                | None => Ret (Err (setup_error (lit "resolve local worktree") (lit "cannot run local workspace setup for a remote workspace")))
                | Some worktree_path =>
                    run_lifecycle_commands setup_commands repo_root worktree_path base_workspace_path (workspace_name workspace) Setup
                end
          end
      end
  end.

(** ** Deleting a workspace *)

Definition unmanaged (w : WorkspaceEntry) : bool := negb (managed w) || is_primary w.

Definition resolve_workspace_delete_resolution (workspace : WorkspaceEntry) (repo_root : Path) :
    prog (result WorkspaceDeleteResolution Error) :=
  if unmanaged workspace then Ret (Ok SkipTeardown)
  else
    match teardown_script_override workspace with
    | Some script => Ret (Ok (RunTeardownScript script))
    | None =>
        config <- load_superzent_config repo_root;;
        match config with
        | Err error => Ret (Ok (BlockedByConfig (workspace_lifecycle_failure_from_error Teardown (lit "load .superzent/config.json") error)))
        | Ok config =>
            match commands_to_script (teardown config) with
            | Some script => Ret (Ok (RunTeardownScript script))
            | None => Ret (Ok SkipTeardown)
            end
        end
    end.

(** The teardown: [None] when nothing blocks the deletion. *)
Definition run_teardown (workspace : WorkspaceEntry) (repo_root worktree_path : Path) (resolution : WorkspaceDeleteResolution) :
    prog (option WorkspaceLifecycleFailure) :=
  match resolution with
  | RunTeardownScript script =>
      r <- run_lifecycle_commands (split_commands script) repo_root worktree_path None (workspace_name workspace) Teardown;;
      Ret (err r)
  | SkipTeardown => Ret None
  | BlockedByConfig failure => Ret (Some failure)
  end.

Definition worktree_remove (force : bool) (worktree_path : Path) : list Str :=
  [lit "worktree"; lit "remove"] ++ (if force then [lit "--force"] else []) ++ [path_str worktree_path].

(** [git worktree remove], and what is done when it fails. *)
Definition remove_worktree (workspace : WorkspaceEntry) (repo_root worktree_path : Path) (force : bool) :
    prog (result WorkspaceDeleteOutcome Error) :=
  let unavailable := bool_decide (git_status workspace = Unavailable) in
  r <- run_git repo_root (worktree_remove (force || unavailable) worktree_path);;
  match r with
  | Ok _ => Ret (Ok Deleted)
  | Err error =>
      if unavailable || should_remove_workspace_path_after_git_failure error then
        r <- remove_workspace_path worktree_path;;
        Ret match context (lit "failed to remove workspace path after git worktree remove failed: " ++ to_string_chain error) r with
            | Ok _ => Ok Deleted
            | Err e => Err e
            end
      else Ret (Err error)
  end.

Definition delete_workspace_with_resolution (workspace : WorkspaceEntry) (repo_root : Path) (force : bool)
    (delete_resolution : option WorkspaceDeleteResolution) : prog (result WorkspaceDeleteOutcome Error) :=
  if unmanaged workspace then Ret (Ok Deleted)
  else
    match local_worktree_path workspace with
    | None => Ret (Err [lit "cannot delete a local workspace for a remote project"])
    | Some worktree_path =>
        found <- ask (Exists worktree_path);;
        if negb found then Ret (Ok Deleted)
        else if force then remove_worktree workspace repo_root worktree_path force
        else
          delete_resolution <-? match delete_resolution with
            | Some delete_resolution => Ret (Ok delete_resolution)
            | None => resolve_workspace_delete_resolution workspace repo_root
            end;;
          blocked <- run_teardown workspace repo_root worktree_path delete_resolution;;
          match blocked with
          | Some failure => Ret (Ok (BlockedByTeardown failure))
          | None => remove_worktree workspace repo_root worktree_path force
          end
    end.

Definition delete_workspace (workspace : WorkspaceEntry) (repo_root : Path) (force : bool) :
    prog (result WorkspaceDeleteOutcome Error) := delete_workspace_with_resolution workspace repo_root force None.
End configuration.
