(* ===== verification/GitDelete.v ===== *)
(** * GitDelete: what the programs of [Git] do, and that deleting a workspace is guarded

    First the weakest preconditions of the programs that talk to [git], the traces of the
    lists of commands, and the facts on text that the theorems on [Git] rest on.

    Then [delete_workspace_with_resolution] of [crates/superzent_git/src/lib.rs]: what must
    have happened before anything is removed, and what the outcomes mean, whatever [git], the
    shell and the file system answer. *)

From Stdlib Require Import String Ascii ZArith.
From stdpp Require Import pretty.
From S2P Require Import Prelude StoreData StoreFacts Os GitText Git.
#[local] Open Scope N_scope.

#[local] Open Scope prog_scope.

(** ** Processes *)

Definition succeeded (x : result Output Error) : bool := match x with Ok output => success output | Err _ => false end.

(** What [git_output] makes of the answer of the process. *)
Definition git_result (args : list Str) (x : result Output Error) : result Str Error :=
  match context (lit "failed to run git " ++ join (lit " ") args) x with
  | Err e => Err e
  | Ok output =>
      if success output then Ok (trim (stdout output))
      else Err [lit "git " ++ join (lit " ") args ++ lit " failed: " ++ trim (stderr output)]
  end.

Lemma git_result_ok args x : is_ok (git_result args x) = succeeded x.
Proof. destruct x as [output|e]; [|done]. unfold git_result. cbn. by destruct (success output). Qed.

Definition ran (dir : Path) (args : list Str) (x : result Output Error) : step := did (Run (git_command dir args)) x.

Lemma wp_git_output dir args tr Q : wp (git_output dir args) tr Q ↔ ∀ x, Q (tr ++ [ran dir args x]) (git_result args x).
Proof.
  unfold git_output, run_command_output. cbn [try bind ask wp]. unfold git_result, ran.
  split; intros H x; specialize (H x); destruct x as [output|e]; cbn [context bind wp] in *; [by destruct (success output)|done|by destruct (success output)|done].
Qed.

Lemma wp_run_git dir args tr Q : wp (run_git dir args) tr Q ↔
  ∀ x, Q (tr ++ [ran dir args x]) match git_result args x with Ok _ => Ok () | Err e => Err e end.
Proof. unfold run_git. rewrite wp_try, wp_git_output. split; intros H x; specialize (H x); by destruct (git_result args x). Qed.

Lemma still_git_output os dir args : still os (git_output dir args) = git_result args (os (Run (git_command dir args))).
Proof.
  unfold git_output, run_command_output. rewrite still_try, still_bind. cbn [ask still]. unfold git_result.
  destruct (os (Run _)) as [output|e]; cbn [context still]; [|done]. by destruct (success output).
Qed.

(** What a shell command answers. *)
Definition shell_result (phase : WorkspaceLifecyclePhase) (command : Str) (x : result Output Error) : result unit WorkspaceLifecycleFailure :=
  match context (lit "failed to run hook command: " ++ command) x with
  | Err error => Err (mk_failure phase command None [] (to_string error))
  | Ok output =>
      if success output then Ok ()
      else Err (mk_failure phase command (code output) (trim (stdout output)) (trim (stderr output)))
  end.

Lemma shell_result_ok phase command x : is_ok (shell_result phase command x) = succeeded x.
Proof. destruct x as [output|e]; [|done]. unfold shell_result. cbn. by destruct (success output). Qed.

Lemma wp_run_shell command cwd base name root phase tr Q : wp (run_shell_command command cwd base name root phase) tr Q ↔
  ∀ x, Q (tr ++ [did (Run (shell_command command cwd base name root)) x]) (shell_result phase command x).
Proof.
  unfold run_shell_command, run_command_output. cbn [bind ask wp]. unfold shell_result.
  split; intros H x; specialize (H x); destruct x as [output|e]; cbn [context wp] in *; [by destruct (success output)|done|by destruct (success output)|done].
Qed.

#[export] Hint Rewrite wp_git_output wp_run_git wp_run_shell : wp.
#[export] Hint Rewrite still_git_output : still.

(** ** Lists of commands *)

(** The steps of commands that succeed. *)
Definition completed (base : option Path) (root cwd : Path) (name : Str) (commands : list Str) (tr : list step) : Prop :=
  Forall2 (λ command s, ∃ x, s = did (Run (shell_command command cwd base name root)) x ∧ succeeded x = true) commands tr.

(** All commands run in turn and succeed, or the first that fails is the last to run. *)
Lemma wp_lifecycle commands root cwd base name phase : ∀ tr Q,
  (∀ tr', completed base root cwd name commands tr' → Q (tr ++ tr') (Ok ())) →
  (∀ done command rest tr' x failure, commands = done ++ command :: rest → completed base root cwd name done tr' → succeeded x = false →
     shell_result phase command x = Err failure →
     Q (tr ++ tr' ++ [did (Run (shell_command command cwd base name root)) x]) (Err failure)) →
  wp (run_lifecycle_commands commands root cwd base name phase) tr Q.
Proof.
  induction commands as [|command commands IH]; intros tr Q Hok Herr; cbn [run_lifecycle_commands].
  - cbn [wp]. rewrite <- (app_nil_r tr). apply Hok. constructor.
  - rewrite wp_try, wp_run_shell. intros x. pose proof (shell_result_ok phase command x) as Hx.
    destruct (shell_result phase command x) as [[]|failure] eqn:E; cbn in Hx.
    + apply IH.
      * intros tr' Htr'. rewrite <- (assoc_L (++)). apply Hok. constructor; [by exists x|done].
      * intros done command' rest tr' y failure -> Hdone Hy E'. rewrite <- (assoc_L (++)).
        apply (Herr (command :: done) command' rest (did _ x :: tr') y failure); [done| |done|done]. constructor; [by exists x|done].
    + apply (Herr [] command commands [] x failure); [done|constructor|done|done].
Qed.

(** ** Steps that a program is limited to *)

Fixpoint limited {A} (P : action → Prop) (p : prog A) : Prop :=
  match p with Ret _ => True | Act a k => P a ∧ ∀ x, limited P (k x) end.

Lemma limited_bind {A B} P (f : A → prog B) p : limited P p → (∀ a, limited P (f a)) → limited P (bind f p).
Proof. intros Hp Hf. induction p as [a|a k IH]; [apply Hf|]. destruct Hp as [Ha Hk]. split; [done|]. intros x. by apply IH. Qed.

Lemma limited_try {A B E} P (f : A → prog (result B E)) p : limited P p → (∀ a, limited P (f a)) → limited P (try f p).
Proof. intros Hp Hf. apply limited_bind; [done|]. intros [a|e]; [apply Hf|done]. Qed.

Lemma limited_mono {A} (P Q : action → Prop) (p : prog A) : (∀ a, P a → Q a) → limited P p → limited Q p.
Proof. intros HPQ. induction p as [a|a k IH]; [done|]. intros [Ha Hk]. split; [by apply HPQ|]. intros x. by apply IH. Qed.

Lemma limited_runs {A} P (p : prog A) tr r : limited P p → runs p tr r → Forall (λ s, P (projT1 s)) tr.
Proof.
  revert tr. induction p as [a|a k IH]; intros tr; cbn [limited runs]; [by intros _ [-> _]|].
  intros [Ha Hk] (x & tr' & -> & Hr). constructor; [done|]. by apply (IH x).
Qed.

Lemma wp_limited {A} P (p : prog A) tr (Q : list step → A → Prop) : limited P p →
  (∀ tr' r, Forall (λ s, P (projT1 s)) tr' → runs p tr' r → Q (tr ++ tr') r) → wp p tr Q.
Proof. intros Hp HQ. apply wp_runs. intros tr' r Hr. apply HQ; [by eapply limited_runs|done]. Qed.

(** ** Worktrees that are added and removed *)

Definition git_args (a : action) : option (list Str) :=
  match a with Run c => if bool_decide (program c = lit "git") then Some (drop 2 (command_args c)) else None | _ => None end.

Definition worktree_command (verb : Str) (a : action) : bool :=
  match git_args a with Some args => bool_decide (take 2 args = [lit "worktree"; verb]) | None => false end.

Definition adds (a : action) : bool := worktree_command (lit "add") a.
Definition removes (a : action) : bool :=
  match a with Remove_dir_all _ | Remove_file _ => true | _ => worktree_command (lit "remove") a end.

(** The command deletes a branch. *)
Definition drops (a : action) : bool :=
  match git_args a with Some args => bool_decide (take 2 args = [lit "branch"; lit "-D"]) | None => false end.

(** The action neither adds nor removes a worktree, and deletes no branch. *)
Definition quiet (a : action) : Prop := adds a = false ∧ removes a = false ∧ drops a = false.

Lemma git_args_command dir args : git_args (Run (git_command dir args)) = Some args.
Proof. done. Qed.

Lemma limited_git (P : action → Prop) dir args : P (Run (git_command dir args)) → limited P (git_output dir args).
Proof. intros H. unfold git_output, run_command_output. apply limited_try; [by split|]. intros output. by destruct (success output). Qed.

Lemma quiet_git dir args : bool_decide (take 2 args = [lit "worktree"; lit "add"]) = false →
  bool_decide (take 2 args = [lit "worktree"; lit "remove"]) = false → bool_decide (take 2 args = [lit "branch"; lit "-D"]) = false →
  limited quiet (git_output dir args).
Proof. intros H1 H2 H3. apply limited_git. split_and!; [exact H1|exact H2|exact H3]. Qed.

Lemma quiet_shell command cwd base name root phase : limited quiet (run_shell_command command cwd base name root phase).
Proof.
  unfold run_shell_command, run_command_output. cbn [bind ask limited]. split; [by split|].
  intros [output|e]; cbn [context limited]; [|done]. by destruct (success output).
Qed.

Lemma quiet_lifecycle commands root cwd base name phase : limited quiet (run_lifecycle_commands commands root cwd base name phase).
Proof. induction commands as [|command commands IH]; [done|]. cbn [run_lifecycle_commands]. apply limited_try; [apply quiet_shell|done]. Qed.

Lemma completed_quiet base root cwd name commands tr : completed base root cwd name commands tr → Forall (λ s, quiet (projT1 s)) tr.
Proof. induction 1 as [|c s cs tr (x & -> & _) _ IH]; [constructor|]. constructor; [by split|done]. Qed.

Lemma quiet_run_git dir args : limited quiet (git_output dir args) → limited quiet (run_git dir args).
Proof. intros H. by apply limited_try. Qed.

Create HintDb limited.
#[export] Hint Resolve limited_try limited_bind quiet_shell quiet_lifecycle quiet_run_git : limited.
#[export] Hint Extern 1 (limited quiet (git_output _ _)) => (apply quiet_git; vm_compute; reflexivity) : limited.
#[export] Hint Extern 1 (limited _ (Ret _)) => exact I : limited.
#[export] Hint Extern 1 (limited quiet (ask _)) => (split; [repeat split; reflexivity|intros ?; exact I]) : limited.

Ltac limit := repeat (intros; match goal with
  | |- limited _ (bind _ _) => apply limited_bind
  | |- limited _ (try _ _) => apply limited_try
  | |- limited _ (match ?x with _ => _ end) => destruct x
  | |- limited _ (if ?x then _ else _) => destruct x
  | |- limited _ _ => solve [eauto with limited]
  end).

Lemma quiet_discover p : limited quiet (discover_repo_root p).
Proof. unfold discover_repo_root, git_common_dir. limit. Qed.

Lemma quiet_current p : limited quiet (current_branch p).
Proof. unfold current_branch. limit. Qed.

Lemma quiet_reference p b : limited quiet (branch_reference_exists p b).
Proof. unfold branch_reference_exists. limit. Qed.
#[export] Hint Resolve quiet_discover quiet_current quiet_reference : limited.

Lemma quiet_symbolic p refs : limited quiet (first_symbolic_ref p refs).
Proof. induction refs as [|[r prefix] refs IH]; cbn [first_symbolic_ref]; limit. Qed.

Lemma quiet_existing p names : limited quiet (first_existing_branch p names).
Proof. induction names as [|n names IH]; cbn [first_existing_branch]; limit. Qed.
#[export] Hint Resolve quiet_symbolic quiet_existing : limited.

Lemma quiet_default p : limited quiet (repository_default_branch p).
Proof. unfold repository_default_branch. limit. Qed.

Lemma quiet_clean p : limited quiet (ensure_clean_worktree p).
Proof. unfold ensure_clean_worktree. limit. Qed.
#[export] Hint Resolve quiet_default quiet_clean : limited.

Lemma quiet_base root base config override : limited quiet (resolve_workspace_base_branch_for_repo root base config override).
Proof. unfold resolve_workspace_base_branch_for_repo. limit. Qed.

Lemma quiet_summary p : limited quiet (git_change_summary p).
Proof. unfold git_change_summary, git_diff_line_summary, git_has_head, git_tracking_summary. limit. Qed.
#[export] Hint Resolve quiet_base quiet_summary : limited.

Lemma quiet_refresh p : limited quiet (refresh_workspace_path p).
Proof. unfold refresh_workspace_path. limit. Qed.

Lemma quiet_free root base attempts : limited quiet (free_directory_name root base attempts).
Proof. induction attempts as [|n attempts IH]; cbn [free_directory_name]; limit. Qed.
#[export] Hint Resolve quiet_refresh quiet_free : limited.

Lemma quiet_unique root name : limited quiet (unique_worktree_directory_name root name).
Proof. unfold unique_worktree_directory_name. limit. Qed.
#[export] Hint Resolve quiet_unique : limited.

Section configuration.
Context (parse_config : Str → result SuperzentConfig Error) (print_config : SuperzentConfig → result Str Error).

Lemma quiet_load root : limited quiet (load_superzent_config parse_config root).
Proof. unfold load_superzent_config. limit. Qed.
#[local] Hint Resolve quiet_load : limited.

Lemma quiet_write root config : limited quiet (write_superzent_config print_config root config).
Proof. unfold write_superzent_config. limit. Qed.

Lemma quiet_prepare root s t save : limited quiet (prepare_superzent_config_for_create parse_config root s t save).
Proof. unfold prepare_superzent_config_for_create. limit. Qed.

Lemma quiet_resolution w root : limited quiet (resolve_workspace_delete_resolution parse_config w root).
Proof. unfold resolve_workspace_delete_resolution. limit. Qed.
End configuration.
#[export] Hint Resolve quiet_load quiet_write quiet_prepare quiet_resolution : limited.

#[local] Open Scope prog_scope.

(** The step succeeded. *)
Definition answered_ok (s : step) : bool :=
  match s with
  | existT a x =>
      match a return answer a → bool with
      | Run _ => succeeded
      | Remove_dir_all _ | Remove_file _ => is_ok
      | _ => λ _, false
      end x
  end.

Definition is_unavailable (w : WorkspaceEntry) : bool := bool_decide (git_status w = Unavailable).

(** What removes the path itself, a directory or anything else. *)
Definition by_hand (path : Path) (is_dir : bool) (y : result unit Error) : step :=
  if is_dir then did (Remove_dir_all path) y else did (Remove_file path) y.

(** The steps of a removal: [git worktree remove], and the path itself when that failed because
    there is no repository any more. *)
Record removal (w : WorkspaceEntry) (root path : Path) (force : bool) (x : result Output Error) (rest : list step)
    (r : result WorkspaceDeleteOutcome Error) : Prop := {
  removal_done : succeeded x = true → rest = [] ∧ r = Ok Deleted;
  removal_reason : rest ≠ [] → succeeded x = false ∧
    (is_unavailable w = true ∨
     ∃ e, git_result (worktree_remove (force || is_unavailable w) path) x = Err e ∧ should_remove_workspace_path_after_git_failure e = true);
  removal_steps : Forall (λ s, projT1 s ∈ [Is_dir path; Remove_dir_all path; Remove_file path]) rest;
  removal_deleted : r = Ok Deleted → succeeded x = true ∨ ∃ d, rest = [did (Is_dir path) (Ok d); by_hand path d (Ok ())];
  removal_failed e : r = Err e → succeeded x = false ∧ Forall (λ s, answered_ok s = false) rest ∧
    (rest = [] → git_result (worktree_remove (force || is_unavailable w) path) x = Err e);
  removal_outcome : r = Ok Deleted ∨ ∃ e, r = Err e
}.

Lemma wp_remove_path path tr (Q : list step → result unit Error → Prop) :
  (∀ e, Q (tr ++ [did (Is_dir path) (Err e)]) (Err ((lit "failed to inspect workspace path " ++ path_str path) :: e))) →
  (∀ d y m, Q (tr ++ [did (Is_dir path) (Ok d); by_hand path d y]) (context m y)) →
  wp (remove_workspace_path path) tr Q.
Proof.
  intros He Hd. unfold remove_workspace_path. cbn [bind ask wp]. intros [[]|e]; cbn [context bind ask wp]; [|..|apply He].
  - intros y. rewrite <- (assoc_L (++)). apply (Hd true).
  - intros y. rewrite <- (assoc_L (++)). apply (Hd false).
Qed.

Lemma wp_remove_worktree w root path force tr Q :
  (∀ x rest r, removal w root path force x rest r → Q (tr ++ ran root (worktree_remove (force || is_unavailable w) path) x :: rest) r) →
  wp (remove_worktree w root path force) tr Q.
Proof.
  intros HQ. unfold remove_worktree. fold (is_unavailable w). rewrite wp_bind, wp_run_git. intros x.
  pose proof (git_result_ok (worktree_remove (force || is_unavailable w) path) x) as Hok.
  destruct (git_result _ x) as [out|e] eqn:E; cbn [is_ok] in Hok.
  { cbn [wp]. apply HQ. split; try done; [by left|by left]. }
  assert (succeeded x = false) as Hx by by rewrite <- Hok.
  destruct (is_unavailable w || should_remove_workspace_path_after_git_failure e) eqn:Ew.
  2:{ cbn [wp]. apply HQ. split; try done; [by rewrite Hx| |by right; exists e]. by intros e' [= ->]. }
  assert (is_unavailable w = true ∨ ∃ e', git_result (worktree_remove (force || is_unavailable w) path) x = Err e' ∧
    should_remove_workspace_path_after_git_failure e' = true) as Hwhy.
  { apply orb_true_iff in Ew as [?|?]; [by left|right; by exists e]. }
  rewrite wp_bind. apply wp_remove_path.
  - intros e'. cbn [wp context]. rewrite <- (assoc_L (++)). apply HQ.
    split; try done; [by rewrite Hx| |by intros ? _; split_and!; [|constructor|]|right; by eexists].
    constructor; [by left|constructor].
  - intros d y m. cbn [wp]. rewrite <- (assoc_L (++)). apply HQ. split; try done; [by rewrite Hx| | | |].
    + constructor; [by left|]. destruct d; repeat constructor.
    + intros H. right. exists d. by destruct y as [[]|].
    + intros e' H. split_and!; [done| |done]. destruct y; [done|]. constructor; [done|]. destruct d; by repeat constructor.
    + destruct y; [by left|right; by eexists].
Qed.

(** The commands of a teardown, unless the configuration blocks the deletion. *)
Definition teardown_of (r : WorkspaceDeleteResolution) : option (list Str) :=
  match r with RunTeardownScript script => Some (split_commands script) | SkipTeardown => Some [] | BlockedByConfig _ => None end.

Definition removing (tr : list step) : Prop := List.Exists (λ s, removes (projT1 s) = true) tr.

Lemma quiet_not_removing tr : Forall (λ s, quiet (projT1 s)) tr → ¬ removing tr.
Proof.
  intros Hq Hr. unfold removing in Hr. apply Exists_exists in Hr as (s & Hs & Hr). rewrite Forall_forall in Hq.
  destruct (Hq s Hs) as (_ & H & _). by rewrite H in Hr.
Qed.

Section deletion.
Context (parse_config : Str → result SuperzentConfig Error).

(** How the resolution of a deletion was found: given, or asked for. *)
Definition resolved (w : WorkspaceEntry) (root : Path) (given : option WorkspaceDeleteResolution) (tr : list step)
    (r : WorkspaceDeleteResolution) : Prop :=
  match given with
  | Some given => tr = [] ∧ r = given
  | None => runs (resolve_workspace_delete_resolution parse_config w root) tr (Ok r)
  end.

(** The traces of a deletion. *)
Inductive deletion (w : WorkspaceEntry) (root : Path) (force : bool) (given : option WorkspaceDeleteResolution) :
    list step → result WorkspaceDeleteOutcome Error → Prop :=
| deletion_unmanaged : unmanaged w = true → deletion w root force given [] (Ok Deleted)
| deletion_remote e : unmanaged w = false → local_worktree_path w = None → deletion w root force given [] (Err e)
| deletion_gone path : unmanaged w = false → local_worktree_path w = Some path →
    deletion w root force given [did (Exists path) false] (Ok Deleted)
| deletion_forced path x rest r : unmanaged w = false → local_worktree_path w = Some path → force = true →
    removal w root path true x rest r →
    deletion w root force given (did (Exists path) true :: ran root (worktree_remove true path) x :: rest) r
| deletion_config path tr f : force = false → unmanaged w = false → local_worktree_path w = Some path → resolved w root given tr (BlockedByConfig f) →
    Forall (λ s, quiet (projT1 s)) tr → deletion w root force given (did (Exists path) true :: tr) (Ok (BlockedByTeardown f))
| deletion_blocked path tr told commands ran_ command rest tr' x f : force = false → unmanaged w = false → local_worktree_path w = Some path →
    resolved w root given tr told → Forall (λ s, quiet (projT1 s)) tr → teardown_of told = Some commands →
    commands = ran_ ++ command :: rest → completed None root path (workspace_name w) ran_ tr' → succeeded x = false →
    shell_result Teardown command x = Err f →
    deletion w root force given
      (did (Exists path) true :: tr ++ tr' ++ [did (Run (shell_command command path None (workspace_name w) root)) x]) (Ok (BlockedByTeardown f))
| deletion_removed path tr told commands tr' x rest r : force = false → unmanaged w = false → local_worktree_path w = Some path →
    resolved w root given tr told → Forall (λ s, quiet (projT1 s)) tr → teardown_of told = Some commands →
    completed None root path (workspace_name w) commands tr' → removal w root path false x rest r →
    deletion w root force given (did (Exists path) true :: tr ++ tr' ++ ran root (worktree_remove (is_unavailable w) path) x :: rest) r.

Lemma resolution_result w root tr r : runs (resolve_workspace_delete_resolution parse_config w root) tr r → ∃ res, r = Ok res.
Proof.
  intros H. apply (runs_wp _ (λ _ r, ∃ res, r = Ok res) _ _ H). unfold resolve_workspace_delete_resolution.
  destruct (unmanaged w); cbn [wp]; [by eexists|]. destruct (teardown_script_override w); cbn [wp]; [by eexists|].
  rewrite wp_bind. apply wp_runs. intros tr' [config|e] _; cbn [wp]; [|by eexists].
  destruct (commands_to_script _); cbn [wp]; by eexists.
Qed.

Lemma delete_traces w root force given tr r :
  runs (delete_workspace_with_resolution parse_config w root force given) tr r → deletion w root force given tr r.
Proof.
  intros H. apply (runs_wp _ (deletion w root force given) _ _ H). clear H tr r. unfold delete_workspace_with_resolution.
  destruct (unmanaged w) eqn:Hm; [by constructor|]. destruct (local_worktree_path w) as [path|] eqn:Hp; [|by constructor].
  cbn [bind ask wp app]. intros [|]; cbn [negb wp]; [|by eapply deletion_gone].
  destruct force; [apply wp_remove_worktree; intros x rest r Hr; by eapply deletion_forced|]. rewrite wp_try.
  assert (∀ told tr, resolved w root given tr told → Forall (λ s, quiet (projT1 s)) tr →
    wp (blocked <- run_teardown w root path told;;
        match blocked with Some failure => Ret (Ok (BlockedByTeardown failure)) | None => remove_worktree w root path false end)
      (did (Exists path) true :: tr) (deletion w root false given)) as Hrun.
  { intros told tr Htold Hq. rewrite wp_bind. destruct told as [script| |f]; cbn [run_teardown wp]; [| |by eapply deletion_config].
    - rewrite wp_bind. apply wp_lifecycle.
      + intros tr' Hc. cbn [err wp]. apply wp_remove_worktree. intros x rest r Hr. cbn [app orb]. rewrite <- (assoc_L (++)).
        by eapply deletion_removed.
      + intros ran_ command rest tr' x f E Hc Hx Hf. cbn [err wp app]. by eapply deletion_blocked.
    - apply wp_remove_worktree. intros x rest r Hr. cbn [app orb]. eapply (deletion_removed w root false given path tr SkipTeardown [] []); try done.
      constructor. }
  destruct given as [told|]; cbn [wp]; [by apply Hrun|]. apply (wp_limited quiet); [apply quiet_resolution|].
  intros tr' r Hq Hr. destruct (resolution_result _ _ _ _ Hr) as [told ->]. by apply Hrun.
Qed.

(** C5: Nothing is removed before its time: when a deletion that is not forced runs [git worktree remove] or
    removes a path, the workspace is a managed worktree, its path was found to exist, the teardown was
    decided and every command of it has succeeded in the worktree, in order; the only thing removed
    is that path, by [git] first, and by hand only when that failed because the
    repository is gone. *)
Theorem git_delete_guarded w root given tr r :
  runs (delete_workspace_with_resolution parse_config w root false given) tr r → removing tr →
  managed w = true ∧ kind w = Worktree ∧
  ∃ path told commands tr1 tr2 x tr3, local_worktree_path w = Some path ∧
    tr = did (Exists path) true :: tr1 ++ tr2 ++ ran root (worktree_remove (is_unavailable w) path) x :: tr3 ∧
    resolved w root given tr1 told ∧ Forall (λ s, quiet (projT1 s)) tr1 ∧
    teardown_of told = Some commands ∧ completed None root path (workspace_name w) commands tr2 ∧
    Forall (λ s, projT1 s ∈ [Is_dir path; Remove_dir_all path; Remove_file path]) tr3 ∧
    (tr3 ≠ [] → succeeded x = false ∧
       (is_unavailable w = true ∨
        ∃ e, git_result (worktree_remove (is_unavailable w) path) x = Err e ∧ should_remove_workspace_path_after_git_failure e = true)).
Proof.
  intros Hruns Hrem. pose proof (delete_traces _ _ _ _ _ _ Hruns) as H.
  assert (unmanaged w = false → managed w = true ∧ kind w = Worktree) as Hm.
  { unfold unmanaged, is_primary. rewrite orb_false_iff, negb_false_iff, bool_decide_eq_false. intros [? ?]. split; [done|]. by destruct (kind w). }
  destruct H as [| |path| |path tr f _ Hu Hp Hres Hq|path tr told commands ran_ command rest tr' x f _ Hu Hp Hres Hq Ht -> Hc Hx Hf
    |path tr told commands tr' x rest r _ Hu Hp Hres Hq Ht Hc Hr].
  - by apply Exists_nil in Hrem.
  - by apply Exists_nil in Hrem.
  - unfold removing in Hrem. rewrite Exists_cons, Exists_nil in Hrem. by destruct Hrem.
  - done.
  - unfold removing in Hrem. rewrite Exists_cons in Hrem. destruct Hrem as [|Hrem]; [done|]. by apply quiet_not_removing in Hrem.
  - exfalso. refine (quiet_not_removing _ _ Hrem). constructor; [by split|]. apply Forall_app. split; [done|]. apply Forall_app.
    split; [by eapply completed_quiet|]. repeat constructor.
  - destruct (Hm Hu) as [? ?]. split_and!; [done..|]. destruct Hr as [_ Hwhy Hsteps _ _ _].
    by exists path, told, commands, tr, tr', x, rest.
Qed.

Lemma not_ok_quiet tr : Forall (λ s, quiet (projT1 s)) tr → ∀ s, s ∈ tr → removes (projT1 s) = true → answered_ok s = false.
Proof. rewrite Forall_forall. intros Hq s Hs Hr. destruct (Hq s Hs) as (_ & H & _). by rewrite H in Hr. Qed.

(** How a removal ends: by [git], or by hand after [git] failed. *)
Lemma removal_shown w root path force x rest : removal w root path force x rest (Ok Deleted) →
  succeeded x = true ∧ rest = [] ∨ succeeded x = false ∧ ∃ d, rest = [did (Is_dir path) (Ok d); by_hand path d (Ok ())].
Proof.
  intros H. destruct (removal_deleted _ _ _ _ _ _ _ H eq_refl) as [Hx|(d & ->)].
  - left. split; [done|]. by apply (removal_done _ _ _ _ _ _ _ H).
  - right. split; [by apply (removal_reason _ _ _ _ _ _ _ H)|by exists d].
Qed.

(** Nothing is removed by a removal that fails. *)
Lemma removal_shown_failed w root path force x rest e pre : removal w root path force x rest (Err e) → Forall (λ s, quiet (projT1 s)) pre →
  succeeded x = false ∧
  (∀ s, s ∈ pre ++ ran root (worktree_remove (force || is_unavailable w) path) x :: rest → removes (projT1 s) = true → answered_ok s = false) ∧
  (rest = [] → git_result (worktree_remove (force || is_unavailable w) path) x = Err e).
Proof.
  intros H Hq. destruct (removal_failed _ _ _ _ _ _ _ H e eq_refl) as (Hx & Hrest & He). split_and!; [done| |done].
  intros s Hs Hr. rewrite elem_of_app, elem_of_cons in Hs. destruct Hs as [Hs|[->|Hs]]; [by eapply not_ok_quiet|done|].
  rewrite Forall_forall in Hrest. by apply Hrest.
Qed.

(** C28: What a deletion, forced or not, reports is what happened.  [Deleted] means that there was nothing of ours to
    delete, that the path was found missing, or that this path was removed: by [git worktree remove], or,
    after that failed, by hand as the directory or the file that it was found to be.  A
    forced deletion runs nothing before that.  A blocked deletion was not forced, has left everything in place,
    and names the unusable configuration or the failed command of the teardown.  An error means that the workspace
    is a managed worktree without a local path, or that [git worktree remove] of its path failed and so did all that was
    tried after it: nothing that removes has succeeded, and when [git] was the last to be tried the error is its own. *)
Theorem git_delete_outcome w root force given tr r :
  runs (delete_workspace_with_resolution parse_config w root force given) tr r →
  let remove := λ path, ran root (worktree_remove (force || is_unavailable w) path) in
  match r with
  | Ok Deleted => unmanaged w = true ∧ tr = [] ∨
      unmanaged w = false ∧ ∃ path, local_worktree_path w = Some path ∧
        (tr = [did (Exists path) false] ∨
         ∃ pre x rest, tr = did (Exists path) true :: pre ++ remove path x :: rest ∧ (¬ removing pre) ∧ (force = true → pre = []) ∧
           (succeeded x = true ∧ rest = [] ∨
            succeeded x = false ∧ ∃ d, rest = [did (Is_dir path) (Ok d); by_hand path d (Ok ())]))
  | Ok (BlockedByTeardown f) => force = false ∧ unmanaged w = false ∧ (¬ removing tr) ∧ ∃ path tr1, local_worktree_path w = Some path ∧
      (tr = did (Exists path) true :: tr1 ∧ resolved w root given tr1 (BlockedByConfig f) ∨
       ∃ told commands before command after tr2 x, resolved w root given tr1 told ∧ teardown_of told = Some commands ∧
         commands = before ++ command :: after ∧ completed None root path (workspace_name w) before tr2 ∧
         tr = did (Exists path) true :: tr1 ++ tr2 ++ [did (Run (shell_command command path None (workspace_name w) root)) x] ∧
         succeeded x = false ∧ shell_result Teardown command x = Err f ∧ failure_command f = command)
  | Err e => unmanaged w = false ∧
      (local_worktree_path w = None ∧ tr = [] ∨
       ∃ path pre x rest, local_worktree_path w = Some path ∧ tr = did (Exists path) true :: pre ++ remove path x :: rest ∧
         succeeded x = false ∧ (∀ s, s ∈ tr → removes (projT1 s) = true → answered_ok s = false) ∧
         (rest = [] → git_result (worktree_remove (force || is_unavailable w) path) x = Err e))
  end.
Proof.
  intros Hruns remove. pose proof (delete_traces _ _ _ _ _ _ Hruns) as H.
  destruct H as [| |path|path x rest r Hu Hp -> Hr|path tr f -> Hu Hp Hres Hq
    |path tr told commands ran_ command rest tr' x f -> Hu Hp Hres Hq Ht -> Hc Hx Hf|path tr told commands tr' x rest r -> Hu Hp Hres Hq Ht Hc Hr].
  - by left.
  - split; [done|]. by left.
  - right. split; [done|]. exists path. split; [done|]. by left.
  - destruct (removal_outcome _ _ _ _ _ _ _ Hr) as [->|[e ->]].
    + right. split; [done|]. exists path. split; [done|]. right. exists [], x, rest.
      split_and!; [done|by intros ?%Exists_nil|done|by eapply removal_shown].
    + split; [done|]. right. destruct (removal_shown_failed _ root _ _ _ _ _ [did (Exists path) true] Hr) as (? & ? & ?); [by repeat constructor|].
      exists path, [], x, rest. by split_and!.
  - split_and!; [done..| |exists path, tr; split; [done|by left]]. apply quiet_not_removing. by constructor.
  - split_and!; [done..| |].
    + apply quiet_not_removing. constructor; [by split|]. apply Forall_app. split; [done|]. apply Forall_app.
      split; [by eapply completed_quiet|]. repeat constructor.
    + exists path, tr. split; [done|]. right. exists told, (ran_ ++ command :: rest), ran_, command, rest, tr', x.
      split_and!; [done..|]. unfold shell_result in Hf. destruct x as [out|e]; cbn in Hf; [destruct (success out)|]; by simplify_eq.
  - assert (Forall (λ s, quiet (projT1 s)) (tr ++ tr')) as Hquiet by (apply Forall_app; split; [done|by eapply completed_quiet]).
    rewrite (assoc_L (++)). destruct (removal_outcome _ _ _ _ _ _ _ Hr) as [->|[e ->]].
    + right. split; [done|]. exists path. split; [done|]. right. exists (tr ++ tr'), x, rest.
      split_and!; [done|by apply quiet_not_removing|done|by eapply removal_shown].
    + split; [done|]. right. destruct (removal_shown_failed _ root _ _ _ _ _ (did (Exists path) true :: tr ++ tr') Hr) as (? & ? & ?); [by constructor|].
      exists path, (tr ++ tr'), x, rest. by split_and!.
Qed.
End deletion.

(** ** A concrete deletion *)

(** A system where everything exists and every process succeeds. *)
Definition agreeable (a : action) : answer a :=
  match a with
  | Run _ => Ok (mk_output true (Some 0%Z) [] [])
  | Exists _ => true
  | Create_dir_all _ | Write _ _ | Remove_dir_all _ | Remove_file _ => Ok ()
  | Read_to_string _ => Ok []
  | Is_dir _ => Ok true
  | Canonicalize p => Ok p
  | New_uuid => lit "0b6a6f0c"
  | Now => 0
  end.

Definition demo_root : Path := [RootDir; Normal (lit "src"); Normal (lit "zent")].
Definition demo_path : Path := [RootDir; Normal (lit "src"); Normal (lit ".superzent-worktrees"); Normal (lit "zent"); Normal (lit "fix")].
Definition demo_workspace : WorkspaceEntry :=
  mk_workspace (lit "w") (lit "p") Worktree (lit "fix") None (lit "fix") (WorkspaceLocal demo_path) (lit "codex") true Available None
    Idle false None (Some (lit "make clean")) 0 0.

Lemma git_delete_guarded_witness : ∃ path told commands tr2, local_worktree_path demo_workspace = Some path ∧
  teardown_of told = Some commands ∧ completed None demo_root path (workspace_name demo_workspace) commands tr2.
Proof.
  destruct (git_delete_guarded (λ _, Ok default_config) demo_workspace demo_root None _ _ (exec_runs (λ a w, (agreeable a, w)) _ tt))
    as (_ & _ & path & told & commands & tr1 & tr2 & x & tr3 & ? & _ & _ & _ & ? & ? & _).
  - vm_compute. do 2 apply List.Exists_cons_tl. by apply List.Exists_cons_hd.
  - by exists path, told, commands, tr2.
Defined.

Lemma git_delete_outcome_witness : ∃ tr, runs (delete_workspace_with_resolution (λ _, Ok default_config) demo_workspace demo_root false None) tr (Ok Deleted) ∧
  ∃ pre x, tr = did (Exists demo_path) true :: pre ++ [ran demo_root (worktree_remove false demo_path) x] ∧ succeeded x = true.
Proof.
  pose proof (exec_runs (λ a w, (agreeable a, w)) (delete_workspace_with_resolution (λ _, Ok default_config) demo_workspace demo_root false None) tt) as H.
  pose proof (git_delete_outcome _ _ _ _ _ _ _ H) as Ho. exists (exec (λ a w, (agreeable a, w))
    (delete_workspace_with_resolution (λ _, Ok default_config) demo_workspace demo_root false None) tt).1.1.
  split; [exact H|]. vm_compute in Ho. destruct Ho as [[Hu _]|(_ & path & Hp & [Hu|(pre & x & rest & Hs & _ & _ & [[Hx Hrest]|(_ & d & Hrest)])])].
  - discriminate Hu.
  - by apply (f_equal length) in Hu.
  - injection Hp as <-. rewrite Hrest in Hs. by exists pre, x.
  - exfalso. rewrite Hrest in Hs. apply (f_equal last) in Hs. rewrite app_comm_cons, last_app in Hs. cbn in Hs. by destruct d.
Defined.
