(* ===== verification/GitCreate.v ===== *)
(** * GitCreate: what creating a workspace does, and what it leaves

    [create_workspace_internal] of [crates/superzent_git/src/lib.rs]: the steps before a worktree is added, where it
    goes, what has run when the entry is made, and, when the defaults cannot be saved, what the
    clean-up removes and what its failures leave.  [worktree_left] and [branch_left] read off a trace what is there at its end, as
    far as the answers of the system tell. *)

From Stdlib Require Import String Ascii ZArith.
From stdpp Require Import pretty.
From S2P Require Import Prelude StoreData StoreFacts Os GitText Git GitDelete.
#[local] Open Scope N_scope.
#[local] Open Scope prog_scope.

(** ** The directory *)

Definition numbered (base : Str) (k : nat) : Str := base ++ [dash] ++ lit (pretty (N.of_nat k)).
Definition candidates (base : Str) : list Str := base :: (numbered base <$> seq 1 99).

Definition looked (root : Path) (found : bool) (name : Str) : step := did (Exists (path_join root name)) found.

(** The steps that choose a directory: the first candidate that does not exist, or when all do a fresh
    name. *)
Inductive choosing (root : Path) (base : Str) : list step → Str → Prop :=
| choosing_first taken name rest : candidates base = taken ++ name :: rest →
    choosing root base ((looked root true <$> taken) ++ [looked root false name]) name
| choosing_fresh id : choosing root base ((looked root true <$> candidates base) ++ [did New_uuid id]) (base ++ [dash] ++ take 8 id).

Lemma wp_free root base attempts : ∀ tr (Q : list step → option Str → Prop),
  (∀ taken k rest, attempts = taken ++ k :: rest →
     Q (tr ++ (looked root true <$> (numbered base <$> taken)) ++ [looked root false (numbered base k)]) (Some (numbered base k))) →
  Q (tr ++ (looked root true <$> (numbered base <$> attempts))) None →
  wp (free_directory_name root base attempts) tr Q.
Proof.
  induction attempts as [|k attempts IH]; intros tr Q Hsome Hnone; cbn [free_directory_name].
  { cbn [wp]. rewrite <- (app_nil_r tr). exact Hnone. }
  cbn [bind ask wp]. intros [|].
  - apply IH.
    + intros taken k' rest ->. rewrite <- (assoc_L (++)). by apply (Hsome (k :: taken) k' rest).
    + rewrite <- (assoc_L (++)). exact Hnone.
  - cbn [wp]. by apply (Hsome [] k attempts).
Qed.

Lemma wp_unique root branch tr (Q : list step → Str → Prop) :
  (∀ tr' d, choosing root (slugify branch) tr' d → Q (tr ++ tr') d) → wp (unique_worktree_directory_name root branch) tr Q.
Proof.
  intros HQ. unfold unique_worktree_directory_name. cbn [bind ask wp]. intros [|]; cbn [negb wp].
  - rewrite wp_bind. apply wp_free.
    + intros taken k rest E. cbn [wp]. rewrite <- (assoc_L (++)). eapply HQ.
      apply (choosing_first root (slugify branch) (slugify branch :: _) _ (numbered (slugify branch) <$> rest)).
      unfold candidates. by rewrite E, fmap_app.
    + cbn [bind ask wp]. intros id. rewrite <- !(assoc_L (++)). apply HQ. apply (choosing_fresh root (slugify branch) id).
  - apply HQ. by apply (choosing_first root (slugify branch) [] (slugify branch) (numbered (slugify branch) <$> seq 1 99)).
Qed.

(** *** Slugs *)

Lemma slugify_chars s : slugify s ≠ [] ∧ Forall slug_char (slugify s).
Proof.
  unfold slugify. set (f := λ ch, if is_ascii_alphanumeric ch then ch else dash).
  assert (Forall (λ c, is_ascii_alphanumeric c = true ∨ c = dash) (trim_by (λ c, c =? dash) (f <$> s))) as Hf.
  { assert (∀ l : Str, Forall (λ c, is_ascii_alphanumeric c = true ∨ c = dash) l →
      Forall (λ c, is_ascii_alphanumeric c = true ∨ c = dash) (drop_while (λ c, c =? dash) l)) as Hdrop.
    { intros l Hl. destruct (drop_while_suffix (λ c, c =? dash) l) as [k Hk]. rewrite Hk in Hl. by apply Forall_app in Hl as [_ ?]. }
    unfold trim_by. apply Forall_reverse, Hdrop, Forall_reverse, Hdrop, Forall_fmap, Forall_true. intros c. unfold compose, f.
    destruct (is_ascii_alphanumeric c) eqn:E; auto. }
  assert (Forall slug_char (to_ascii_lowercase <$> trim_by (λ c, c =? dash) (f <$> s))) as Hs.
  { apply Forall_fmap. eapply Forall_impl; [exact Hf|]. intros c [Hc| ->]; [by apply lower_slug|]. right. by right. }
  destruct (is_empty_str _) eqn:E; [|split; [by intros H; rewrite H in E|done]]. split; [done|].
  change (Forall slug_char [119; 111; 114; 107; 115; 112; 97; 99; 101]). repeat (apply Forall_cons; split; [unfold slug_char; lia|]). constructor.
Qed.

Lemma candidate_chars base d : base ≠ [] → Forall slug_char base → d ∈ candidates base → d ≠ [] ∧ Forall slug_char d.
Proof.
  intros Hne Hb [->|(k & -> & _)%list_elem_of_fmap]%elem_of_cons; [done|]. split; [by destruct base|].
  apply Forall_app. split; [done|]. constructor; [right; by right|]. eapply Forall_impl; [apply pretty_digits|]. intros c Hc. by left.
Qed.

Lemma slug_piece piece : Forall slug_char piece → ∀ acc, split_on slash acc piece = [acc ++ piece].
Proof.
  induction 1 as [|c piece Hc _ IH]; intros acc; [by rewrite app_nil_r|]. cbn [split_on].
  destruct (c =? slash) eqn:E; [apply N.eqb_eq in E as ->; unfold slug_char, slash, dash in Hc; lia|].
  by rewrite IH, <- (assoc_L (++)).
Qed.

(** A slug names an entry of the directory that it is joined to. *)
Lemma path_join_slug root d : d ≠ [] → Forall slug_char d → path_join root d = root ++ [Normal d].
Proof.
  intros Hne Hd. unfold path_join, path_of. rewrite (slug_piece d Hd []), app_nil_l. destruct d as [|c d]; [done|].
  cbn [is_empty_str mbind list_bind app]. unfold component_of. cbn [is_empty_str].
  assert (∀ s, head (lit s) = Some 46 → c :: d ≠ lit s) as Hdot.
  { intros s Hs E. rewrite <- E in Hs. injection Hs as ->. apply Forall_cons in Hd as [Hc _]. unfold slug_char, dash in Hc. lia. }
  rewrite !bool_decide_false by (by apply Hdot). done.
Qed.

(** ** What a creation does *)

Abbreviation still_quiet := (Forall (λ s : step, quiet (projT1 s))).

Lemma choosing_quiet root base tr d : choosing root base tr d → still_quiet tr.
Proof. intros []; apply Forall_app; (split; [apply Forall_fmap, Forall_true; intros n; by split|by repeat constructor]). Qed.

(** *** What is left *)

Definition git_arg (k : nat) (a : action) : option Str := args ← git_args a; args !! k.

(** The action adds or removes the worktree at a path, makes or deletes a branch. *)
Definition makes_worktree (path : Path) (a : action) : bool := adds a && bool_decide (git_arg 4 a = Some (path_str path)).
Definition makes_branch (name : Str) (a : action) : bool := adds a && bool_decide (git_arg 3 a = Some name).
Definition undoes_worktree (path : Path) (a : action) : bool :=
  match a with
  | Remove_dir_all p | Remove_file p => bool_decide (p = path)
  | _ => removes a && bool_decide (git_args a ≫= last = Some (path_str path))
  end.
Definition undoes_branch (name : Str) (a : action) : bool := drops a && bool_decide (git_arg 2 a = Some name).

(** What the answers say is there after the steps: made by the last step that succeeded in making or undoing it. *)
Definition left_after (makes undoes : action → bool) (there : bool) (s : step) : bool :=
  if answered_ok s then makes (projT1 s) || there && negb (undoes (projT1 s)) else there.

Definition worktree_left (path : Path) (tr : list step) : bool := foldl (left_after (makes_worktree path) (undoes_worktree path)) false tr.
Definition branch_left (name : Str) (tr : list step) : bool := foldl (left_after (makes_branch name) (undoes_branch name)) false tr.

Lemma left_idle makes undoes tr : Forall (λ s, answered_ok s = true → makes (projT1 s) = false ∧ undoes (projT1 s) = false) tr →
  ∀ there, foldl (left_after makes undoes) there tr = there.
Proof.
  induction 1 as [|s tr Hs _ IH]; intros there; [done|]. cbn [foldl]. rewrite IH. unfold left_after. destruct (answered_ok s); [|done].
  destruct (Hs eq_refl) as [-> ->]. by rewrite andb_true_r.
Qed.

Lemma removes_undoes path a : removes a = false → undoes_worktree path a = false.
Proof. intros H. destruct a; cbn [removes] in H; try done; cbn [undoes_worktree removes]; by rewrite H. Qed.

(** A step that is quiet, or that fails to add a worktree, leaves things as they are. *)
Lemma left_quiet tr path name there : Forall (λ s, quiet (projT1 s) ∨ answered_ok s = false) tr →
  foldl (left_after (makes_worktree path) (undoes_worktree path)) there tr = there ∧
  foldl (left_after (makes_branch name) (undoes_branch name)) there tr = there.
Proof.
  intros H. split; apply left_idle; (eapply Forall_impl; [exact H|]); intros s [(Ha & Hr & Hd)|Hno] Hok; try by rewrite Hno in Hok.
  - split; [unfold makes_worktree; by rewrite Ha|by apply removes_undoes].
  - unfold makes_branch, undoes_branch. by rewrite Ha, Hd.
Qed.

(** *** The clean-up *)

(** Removing a path does nothing, or removes it as the last step. *)
Lemma remove_path_runs path tr r : runs (remove_workspace_path path) tr r →
  (∃ d, r = Ok () ∧ tr = [did (Is_dir path) (Ok d); by_hand path d (Ok ())]) ∨
  is_ok r = false ∧ Forall (λ s, answered_ok s = false) tr.
Proof.
  intros H. apply (runs_wp _ (λ tr r, (∃ d, r = Ok () ∧ tr = [did (Is_dir path) (Ok d); by_hand path d (Ok ())]) ∨
    is_ok r = false ∧ Forall (λ s, answered_ok s = false) tr) _ _ H).
  apply wp_remove_path.
  - intros e. right. split; [done|]. by repeat constructor.
  - intros d [[]|e] m; [left; by exists d|]. right. split; [done|]. destruct d; by repeat constructor.
Qed.

Lemma remove_path_not_adding path tr r : runs (remove_workspace_path path) tr r → Forall (λ s, adds (projT1 s) = false ∧ drops (projT1 s) = false) tr.
Proof.
  apply (limited_runs (λ a, adds a = false ∧ drops a = false) (remove_workspace_path path)).
  unfold remove_workspace_path. cbn [bind ask limited]. split; [done|]. intros [[]|e]; cbn [context bind ask limited]; by repeat split.
Qed.

(** The worktree, or when [git] cannot remove it its path, with the result [r], and then the branch, with the answer
    [b]. *)
Definition cleaned (root path : Path) (name : Str) (r : result unit Error) (b : result Output Error) (tr : list step) : Prop :=
  ∃ y rest, tr = ran root [lit "worktree"; lit "remove"; lit "--force"; path_str path] y :: rest ++ [ran root [lit "branch"; lit "-D"; name] b] ∧
    if succeeded y then rest = [] ∧ r = Ok () else runs (remove_workspace_path path) rest r.

Lemma wp_cleanup root path name tr (Q : list step → () → Prop) : (∀ tr' r b, cleaned root path name r b tr' → Q (tr ++ tr') ()) →
  wp (cleanup_created_worktree root path name) tr Q.
Proof.
  intros HQ. unfold cleanup_created_worktree. rewrite wp_bind, wp_run_git. intros y.
  set (args := [lit "worktree"; lit "remove"; lit "--force"; path_str path]). pose proof (git_result_ok args y) as Hy.
  assert (∀ rest r, (if succeeded y then rest = [] ∧ r = Ok () else runs (remove_workspace_path path) rest r) →
    wp (_b <- run_git root [lit "branch"; lit "-D"; name];; Ret ()) ((tr ++ [ran root args y]) ++ rest) Q) as Hbranch.
  { intros rest r H. rewrite wp_bind, wp_run_git. intros b. cbn [wp]. rewrite <- !(assoc_L (++)). apply (HQ _ r b). by exists y, rest. }
  rewrite wp_bind. destruct (git_result args y) as [out|e]; cbn [is_ok wp] in *; rewrite <- Hy in Hbranch.
  - specialize (Hbranch [] (Ok ())). rewrite app_nil_r in Hbranch. by apply Hbranch.
  - apply wp_runs. intros rest r Hr. by apply (Hbranch rest r).
Qed.

Lemma left_undo root path name there y : let s := ran root [lit "worktree"; lit "remove"; lit "--force"; path_str path] y in
  left_after (makes_worktree path) (undoes_worktree path) there s = there && negb (succeeded y) ∧
  left_after (makes_branch name) (undoes_branch name) there s = there.
Proof.
  intros s. unfold left_after. change (answered_ok s) with (succeeded y).
  assert (makes_worktree path (projT1 s) = false) as -> by (vm_compute; reflexivity).
  assert (makes_branch name (projT1 s) = false) as -> by (vm_compute; reflexivity).
  assert (undoes_branch name (projT1 s) = false) as -> by (vm_compute; reflexivity).
  change (undoes_worktree path (projT1 s)) with (removes (projT1 s) && bool_decide (Some (path_str path) = Some (path_str path))).
  rewrite bool_decide_eq_true_2 by done. assert (removes (projT1 s) = true) as -> by (vm_compute; reflexivity).
  destruct (succeeded y), there; by split.
Qed.

Lemma left_drop root path name there b : let s := ran root [lit "branch"; lit "-D"; name] b in
  left_after (makes_worktree path) (undoes_worktree path) there s = there ∧
  left_after (makes_branch name) (undoes_branch name) there s = there && negb (succeeded b).
Proof.
  intros s. unfold left_after. change (answered_ok s) with (succeeded b).
  assert (makes_worktree path (projT1 s) = false) as -> by (vm_compute; reflexivity).
  assert (makes_branch name (projT1 s) = false) as -> by (vm_compute; reflexivity).
  assert (undoes_worktree path (projT1 s) = false) as -> by (vm_compute; reflexivity).
  change (undoes_branch name (projT1 s)) with (drops (projT1 s) && bool_decide (Some name = Some name)).
  rewrite bool_decide_eq_true_2 by done. assert (drops (projT1 s) = true) as -> by (vm_compute; reflexivity).
  destruct (succeeded b), there; by split.
Qed.

Lemma left_add root path name base there x : let s := ran root (worktree_add root path name base) x in
  left_after (makes_worktree path) (undoes_worktree path) there s = succeeded x || there ∧
  left_after (makes_branch name) (undoes_branch name) there s = succeeded x || there.
Proof.
  intros s. unfold left_after. change (answered_ok s) with (succeeded x).
  change (makes_worktree path (projT1 s)) with (adds (projT1 s) && bool_decide (Some (path_str path) = Some (path_str path))).
  change (makes_branch name (projT1 s)) with (adds (projT1 s) && bool_decide (Some name = Some name)).
  rewrite !(bool_decide_eq_true_2 (_ = _)) by done. assert (adds (projT1 s) = true) as -> by (vm_compute; reflexivity).
  by destruct (succeeded x).
Qed.

(** What the clean-up leaves is what it failed to remove. *)
Lemma cleaned_left root path name r b tr : cleaned root path name r b tr →
  foldl (left_after (makes_worktree path) (undoes_worktree path)) true tr = negb (is_ok r) ∧
  foldl (left_after (makes_branch name) (undoes_branch name)) true tr = negb (succeeded b).
Proof.
  intros (y & rest & -> & H). cbn [foldl]. rewrite !foldl_app. cbn [foldl].
  rewrite (proj1 (left_undo root path name true y)), (proj2 (left_undo root path name true y)),
    (proj1 (left_drop root path name _ b)), (proj2 (left_drop root path name _ b)). destruct (succeeded y); cbn [andb negb].
  { by destruct H as [-> ->]. }
  split.
  - destruct (remove_path_runs _ _ _ H) as [(d & -> & ->)|[Hr Hno]].
    + destruct d; cbn; by rewrite bool_decide_eq_true_2.
    + rewrite Hr. apply left_idle. eapply Forall_impl; [exact Hno|]. by intros s -> ?.
  - rewrite left_idle; [done|]. eapply Forall_impl; [by eapply remove_path_not_adding|].
    intros s [Ha Hd] _. unfold makes_branch, undoes_branch. by rewrite Ha, Hd.
Qed.

Section creation.
Context (parse_config : Str → result SuperzentConfig Error) (print_config : SuperzentConfig → result Str Error).
Context (entry : ProjectEntry) (preset_id : Str) (options : CreateWorkspaceOptions) (run_setup_now : bool).

Definition name : Str := trim (branch_name options).

(** The directory of the repository's worktrees. *)
Definition worktrees (root : Path) : Path := worktree_root root (default (lit "project") (file_name root)).

(** The base worktree was found clean, or need not be. *)
Definition checked (project_root : Path) (tr : list step) : Prop :=
  if allow_dirty options then tr = [] else
  ∃ x, tr = [ran (default project_root (base_workspace_path options)) [lit "status"; lit "--porcelain"] x] ∧
    git_result [lit "status"; lit "--porcelain"] x = Ok [].

(** What was found out first, and the steps that found it, one after the other: the repository, that the base
    worktree is clean, the configuration, the base branch. *)
Definition decided (tr : list step) (root : Path) (config : SuperzentConfig) (base : WorkspaceBaseBranchResolution) : Prop :=
  ∃ project_root tr1 tr2 tr3 tr4, local_repo_root entry = Some project_root ∧ tr = tr1 ++ tr2 ++ tr3 ++ tr4 ∧
    runs (discover_repo_root project_root) tr1 (Ok root) ∧ checked project_root tr2 ∧
    runs (prepare_superzent_config_for_create parse_config root (normalize_command (setup_script options))
      (normalize_command (teardown_script options)) (save_lifecycle_defaults options)) tr3 (Ok config) ∧
    runs (resolve_workspace_base_branch_for_repo root (base_workspace_path options) config (base_branch_override options)) tr4 (Ok base).

(** The steps before the worktree is added. *)
Definition prepared (tr : list step) (root path : Path) (config : SuperzentConfig) (base : WorkspaceBaseBranchResolution) : Prop :=
  name ≠ [] ∧ ∃ tr1 tr2 d, tr = tr1 ++ did (Create_dir_all (worktrees root)) (Ok ()) :: tr2 ∧ decided tr1 root config base ∧
    choosing (worktrees root) (slugify name) tr2 d ∧ path = path_join (worktrees root) d.

Lemma checked_quiet project_root tr : checked project_root tr → still_quiet tr.
Proof. unfold checked. destruct (allow_dirty options); [by intros ->|]. intros (x & -> & _). by repeat constructor. Qed.

Lemma decided_quiet tr root config base : decided tr root config base → still_quiet tr.
Proof.
  intros (p & tr1 & tr2 & tr3 & tr4 & _ & -> & H1 & H2 & H3 & H4). repeat (apply Forall_app; split).
  - by eapply limited_runs; [apply quiet_discover|].
  - by eapply checked_quiet.
  - by eapply limited_runs; [apply quiet_prepare|].
  - by eapply limited_runs; [apply quiet_base|].
Qed.

Lemma prepared_quiet tr root path config base : prepared tr root path config base → still_quiet tr.
Proof.
  intros (_ & tr1 & tr2 & d & -> & Hd & Hc & _). apply Forall_app. split; [by eapply decided_quiet|].
  constructor; [by split|by eapply choosing_quiet].
Qed.

(** How the commands of the setup went. *)
Definition setup_went (root path : Path) (config : SuperzentConfig) (tr : list step) (failure : option WorkspaceLifecycleFailure) : Prop :=
  let commands := lifecycle_commands config (normalize_command (setup_script options)) Setup in
  let run command := did (Run (shell_command command path (base_workspace_path options) name root)) in
  if run_setup_now then
    match failure with
    | None => completed (base_workspace_path options) root path name commands tr
    | Some f => ∃ done command rest tr' x, commands = done ++ command :: rest ∧ completed (base_workspace_path options) root path name done tr' ∧
        tr = tr' ++ [run command x] ∧ succeeded x = false ∧ shell_result Setup command x = Err f
    end
  else failure = None ∧ tr = [].

(** The entry of the new workspace. *)
Record entered (path : Path) (config : SuperzentConfig) (base : WorkspaceBaseBranchResolution) (o : WorkspaceCreateOutcome) : Prop := {
  entered_project : workspace_project_id (workspace o) = project_entry_id entry;
  entered_kind : kind (workspace o) = Worktree ∧ managed (workspace o) = true;
  entered_name : workspace_name (workspace o) = name;
  entered_path : local_worktree_path (workspace o) = Some path;
  entered_preset : agent_preset_id (workspace o) = preset_id;
  entered_attention : attention_status (workspace o) = Idle ∧ review_pending (workspace o) = false;
  entered_reason : workspace_last_attention_reason (workspace o) =
    match setup_failure o with Some f => Some (failure_summary f) | None => notice base end;
  entered_teardown : teardown_script_override (workspace o) = workspace_teardown_script_override_for_create config
    (normalize_command (teardown_script options)) (save_teardown (save_lifecycle_defaults options));
  entered_notice : created_notice o = notice base
}.

Definition add_worktree (root path : Path) (base : WorkspaceBaseBranchResolution) : result Output Error → step :=
  ran root (worktree_add root path name (effective_base_branch base)).

(** The traces of a creation. *)
Inductive creation : list step → result WorkspaceCreateOutcome Error → Prop :=
| creation_refused tr e : still_quiet tr → creation tr (Err e)
| creation_not_added tr root path config base x e : prepared tr root path config base → succeeded x = false →
    git_result (worktree_add root path name (effective_base_branch base)) x = Err e →
    creation (tr ++ [add_worktree root path base x]) (Err e)
| creation_undone tr root path config base x tr1 tr2 r b e : prepared tr root path config base → succeeded x = true →
    any (save_lifecycle_defaults options) = true → runs (write_superzent_config print_config root config) tr1 (Err e) →
    still_quiet tr1 → cleaned root path name r b tr2 → creation (tr ++ add_worktree root path base x :: tr1 ++ tr2) (Err e)
| creation_done tr root path config base x tr1 tr2 tr3 o : prepared tr root path config base → succeeded x = true →
    (any (save_lifecycle_defaults options) = true → runs (write_superzent_config print_config root config) tr1 (Ok ())) →
    still_quiet tr1 → still_quiet tr2 → still_quiet tr3 → setup_went root path config tr2 (setup_failure o) → entered path config base o →
    creation (tr ++ add_worktree root path base x :: tr1 ++ tr2 ++ tr3) (Ok o).

Lemma wp_run_setup root path config tr Q :
  (∀ tr' failure, still_quiet tr' → setup_went root path config tr' failure → Q (tr ++ tr') failure) →
  wp (run_setup options run_setup_now root path config name) tr Q.
Proof.
  intros HQ. unfold run_setup. unfold setup_went in HQ. destruct run_setup_now.
  - rewrite wp_bind. apply wp_lifecycle; cbn [err wp].
    + intros tr' Hc. apply (HQ tr' None); [by eapply completed_quiet|done].
    + intros done_ command rest tr' x f E Hc Hx Hf. apply (HQ _ (Some f)); [|by exists done_, command, rest, tr', x].
      apply Forall_app. split; [by eapply completed_quiet|by repeat constructor].
  - cbn [wp]. rewrite <- (app_nil_r tr). by apply (HQ [] None).
Qed.

Lemma wp_enter path config base failure tr Q :
  (∀ tr' o, still_quiet tr' → setup_failure o = failure → entered path config base o → Q (tr ++ tr') o) →
  wp (enter_workspace entry preset_id options path config base name failure) tr Q.
Proof.
  intros HQ. unfold enter_workspace. rewrite wp_bind. apply (wp_limited quiet); [apply quiet_refresh|]. intros tr' r Hq _.
  cbn [bind ask wp]. intros id created opened. rewrite <- !(assoc_L (++)). apply HQ; [|done|done].
  apply Forall_app. split; [done|]. by repeat constructor.
Qed.

Lemma wp_finish root path config base tr Q :
  (∀ tr1 tr2 r b e, any (save_lifecycle_defaults options) = true → runs (write_superzent_config print_config root config) tr1 (Err e) →
     still_quiet tr1 → cleaned root path name r b tr2 → Q (tr ++ tr1 ++ tr2) (Err e)) →
  (∀ tr1 tr2 tr3 o, (any (save_lifecycle_defaults options) = true → runs (write_superzent_config print_config root config) tr1 (Ok ())) →
     still_quiet tr1 → still_quiet tr2 → still_quiet tr3 → setup_went root path config tr2 (setup_failure o) → entered path config base o →
     Q (tr ++ tr1 ++ tr2 ++ tr3) (Ok o)) →
  wp (finish_workspace print_config entry preset_id options run_setup_now root path config base name) tr Q.
Proof.
  intros Hundone Hdone. unfold finish_workspace. rewrite wp_bind.
  assert (∀ tr1, (any (save_lifecycle_defaults options) = true → runs (write_superzent_config print_config root config) tr1 (Ok ())) → still_quiet tr1 →
    wp (setup_failure <- run_setup options run_setup_now root path config name;;
        outcome <- enter_workspace entry preset_id options path config base name setup_failure;;
        Ret (Ok outcome)) (tr ++ tr1) Q) as Hsetup.
  { intros tr1 Hsave Hq1. rewrite wp_bind. apply wp_run_setup. intros tr2 failure Hq2 Hwent. rewrite wp_bind. apply wp_enter.
    intros tr3 o Hq3 <- Ho. cbn [wp]. rewrite <- !(assoc_L (++)). by apply Hdone. }
  destruct (any (save_lifecycle_defaults options)) eqn:Eany.
  - apply (wp_limited quiet); [apply quiet_write|]. intros tr1 [[]|e] Hq1 Hr1.
    + by apply Hsetup.
    + rewrite wp_bind. apply wp_cleanup. intros tr2 r b Hc. cbn [wp]. rewrite <- (assoc_L (++)). by eapply Hundone.
  - cbn [wp]. rewrite <- (app_nil_r tr). by apply Hsetup.
Qed.

Lemma wp_clean p tr (Q : list step → result unit Error → Prop) :
  (∀ x, git_result [lit "status"; lit "--porcelain"] x = Ok [] → Q (tr ++ [ran p [lit "status"; lit "--porcelain"] x]) (Ok ())) →
  (∀ x e, Q (tr ++ [ran p [lit "status"; lit "--porcelain"] x]) (Err e)) → wp (ensure_clean_worktree p) tr Q.
Proof.
  intros Hok Herr. unfold ensure_clean_worktree. rewrite wp_try, wp_git_output. intros x.
  destruct (git_result _ x) as [[|c s]|e] eqn:E; cbn [is_empty_str wp]; [by apply Hok|apply Herr|apply Herr].
Qed.

Lemma wp_add tr root config base : decided tr root config base →
  wp (add_workspace print_config entry preset_id options run_setup_now root config base) tr creation.
Proof.
  intros Hdecided. pose proof (decided_quiet _ _ _ _ Hdecided) as Hq.
  unfold add_workspace. cbv zeta. fold name. destruct (is_empty_str name) eqn:Ename; cbn [wp]; [by apply creation_refused|].
  assert (name ≠ []) as Hname by (intros E; by rewrite E in Ename).
  fold (worktrees root). rewrite wp_try. cbn [ask wp]. intros [[]|e].
  2:{ apply creation_refused, Forall_app. split; [done|by repeat constructor]. }
  rewrite wp_bind. apply wp_unique. intros tr' d Hd. rewrite wp_try, wp_run_git. intros x.
  set (path := path_join (worktrees root) d). set (args := worktree_add root path name (effective_base_branch base)).
  assert (prepared ((tr ++ [did (Create_dir_all (worktrees root)) (Ok ())]) ++ tr') root path config base) as Hprep.
  { split; [done|]. exists tr, tr', d. by rewrite <- (assoc_L (++)). }
  pose proof (git_result_ok args x) as Hx. destruct (git_result args x) as [out|e] eqn:E; cbn [is_ok] in Hx.
  - apply wp_finish.
    + intros tr6 tr7 r b e Hany Hr6 Hq6 Hc. rewrite <- (assoc_L (++)). by apply (creation_undone _ root path config base x tr6 tr7 r b).
    + intros tr6 tr7 tr8 o Hany Hq6 Hq7 Hq8 Hwent Ho. rewrite <- (assoc_L (++)). by apply (creation_done _ root path config base x tr6 tr7 tr8).
  - by apply (creation_not_added _ root path config base x).
Qed.

Lemma wp_checked project_root tr (Q : list step → result unit Error → Prop) :
  (∀ tr', checked project_root tr' → Q (tr ++ tr') (Ok ())) → (∀ tr' e, still_quiet tr' → Q (tr ++ tr') (Err e)) →
  wp (if negb (allow_dirty options) then ensure_clean_worktree (default project_root (base_workspace_path options)) else Ret (Ok ())) tr Q.
Proof.
  unfold checked. intros Hok Herr. destruct (allow_dirty options); cbn [negb wp].
  - rewrite <- (app_nil_r tr). by apply Hok.
  - apply wp_clean; [intros x Hx; apply Hok; by exists x|]. intros x e. apply Herr. by repeat constructor.
Qed.

Lemma create_traces tr r : runs (create_workspace_internal parse_config print_config entry preset_id options run_setup_now) tr r → creation tr r.
Proof.
  intros H. apply (runs_wp _ creation _ _ H). clear H tr r. unfold create_workspace_internal.
  destruct (local_repo_root entry) as [project_root|] eqn:Eroot; [|by apply creation_refused].
  rewrite wp_bind. apply (wp_limited quiet); [apply quiet_discover|]. intros tr1 [root|e] Hq1 Hr1; [|by apply creation_refused].
  cbn [initialize_git_first context wp app]. rewrite wp_try. apply wp_checked.
  2:{ intros tr2 e Hq2. apply creation_refused, Forall_app. by split. }
  intros tr2 Hr2. pose proof (checked_quiet _ _ Hr2) as Hq2. rewrite wp_try. apply (wp_limited quiet); [apply quiet_prepare|].
  intros tr3 [config|e] Hq3 Hr3; [|apply creation_refused; repeat (apply Forall_app; split); done].
  rewrite wp_try. apply (wp_limited quiet); [apply quiet_base|].
  intros tr4 [base|e] Hq4 Hr4; [|apply creation_refused; repeat (apply Forall_app; split); done].
  apply wp_add. exists project_root, tr1, tr2, tr3, tr4. by rewrite <- !(assoc_L (++)).
Qed.
End creation.

(** ** Theorems *)

Lemma quiet_not_adding tr : still_quiet tr → Forall (λ s, adds (projT1 s) = false) tr.
Proof. intros H. eapply Forall_impl; [exact H|]. by intros s []. Qed.

Lemma cleaned_not_adding root path n r b tr : cleaned root path n r b tr → Forall (λ s, adds (projT1 s) = false) tr.
Proof.
  intros (y & rest & -> & H). constructor; [done|]. apply Forall_app. split; [|by repeat constructor].
  destruct (succeeded y); [by destruct H as [-> _]|]. eapply Forall_impl; [by eapply remove_path_not_adding|]. by intros s [].
Qed.

(** The only step of a trace that can add is the one that does. *)
Lemma adding_step pre a post s : still_quiet pre → Forall (λ s, adds (projT1 s) = false) post → s ∈ pre ++ a :: post →
  adds (projT1 s) = true → s = a.
Proof.
  intros Hpre Hpost Hs Ha. rewrite elem_of_app, elem_of_cons in Hs. apply quiet_not_adding in Hpre. rewrite Forall_forall in Hpre, Hpost.
  destruct Hs as [Hs|[->|Hs]]; [by rewrite Hpre in Ha|done|by rewrite Hpost in Ha].
Qed.

Section theorems.
Context (parse_config : Str → result SuperzentConfig Error) (print_config : SuperzentConfig → result Str Error).

Lemma creation_adds entry preset_id options now tr r s : creation parse_config print_config entry preset_id options now tr r →
  s ∈ tr → adds (projT1 s) = true →
  ∃ pre root path config base x post, prepared parse_config entry options pre root path config base ∧
    s = add_worktree options root path base x ∧ tr = pre ++ s :: post ∧ Forall (λ s, adds (projT1 s) = false) post.
Proof.
  assert (∀ pre root path config base x post, prepared parse_config entry options pre root path config base →
    Forall (λ s, adds (projT1 s) = false) post → s ∈ pre ++ add_worktree options root path base x :: post → adds (projT1 s) = true →
    ∃ pre' root' path' config' base' x' post', prepared parse_config entry options pre' root' path' config' base' ∧
      s = add_worktree options root' path' base' x' ∧ pre ++ add_worktree options root path base x :: post = pre' ++ s :: post' ∧
      Forall (λ s, adds (projT1 s) = false) post') as Hsplit.
  { intros pre root path config base x post Hp Hpost Hs Ha. exists pre, root, path, config, base, x, post.
    pose proof (adding_step _ _ _ _ (prepared_quiet _ _ _ _ _ _ _ _ Hp) Hpost Hs Ha) as ->. done. }
  intros [tr' e Hq|tr' root path config base x e Hp _ _|tr' root path config base x tr1 tr2 r' b e Hp _ _ _ Hq Hc
    |tr' root path config base x tr1 tr2 tr3 o Hp _ _ Hq1 Hq2 Hq3 _ _] Hs Ha.
  - apply quiet_not_adding in Hq. rewrite Forall_forall in Hq. by rewrite Hq in Ha.
  - by eapply Hsplit.
  - eapply Hsplit; try done. apply Forall_app. split; [by apply quiet_not_adding|by eapply cleaned_not_adding].
  - eapply Hsplit; try done. apply quiet_not_adding. repeat (apply Forall_app; split); done.
Qed.

(** What is there once the worktree was added, and after steps that go on from it. *)
Lemma left_added options pre root path base x post : still_quiet pre → succeeded x = true →
  worktree_left path (pre ++ add_worktree options root path base x :: post) =
    foldl (left_after (makes_worktree path) (undoes_worktree path)) true post ∧
  branch_left (name options) (pre ++ add_worktree options root path base x :: post) =
    foldl (left_after (makes_branch (name options)) (undoes_branch (name options))) true post.
Proof.
  intros Hq Hx. destruct (left_quiet pre path (name options) false) as [H1 H2]; [eapply Forall_impl; [exact Hq|]; by left|].
  unfold worktree_left, branch_left, add_worktree. rewrite !foldl_app, H1, H2. cbn [foldl].
  destruct (left_add root path (name options) (effective_base_branch base) false x) as [-> ->]. by rewrite Hx.
Qed.

Lemma left_not_added options tr root path base x : still_quiet tr → succeeded x = false →
  Forall (λ s, quiet (projT1 s) ∨ answered_ok s = false) (tr ++ [add_worktree options root path base x]) ∧
  ¬ removing (tr ++ [add_worktree options root path base x]).
Proof.
  intros Hq Hx. split.
  - apply Forall_app. split; [eapply Forall_impl; [exact Hq|]; by left|]. constructor; [by right|done].
  - unfold removing. rewrite Exists_app, Exists_cons, Exists_nil. intros [H|[H|[]]]; [by eapply quiet_not_removing|].
    assert (removes (projT1 (add_worktree options root path base x)) = false) as H' by (vm_compute; reflexivity). by rewrite H' in H.
Qed.

(** C9: What a creation has done is what it reports, and what it leaves is known from the answers of the system, whatever
    they are.  Success means that exactly one worktree was added with its branch, both are there at the end, none
    was removed, the defaults were saved if asked, the setup commands ran in order until the first failure,
    which is reported, and the entry is that of the new worktree.  An error means one of two things.  No worktree was added, and
    nothing was removed.  Or the worktree was added and saving the defaults then failed with this very error: the
    clean-up has then asked [git] to remove the worktree, removed its path by hand if [git] could not, and asked [git] to delete the
    branch.  The clean-up is not tried again and what it fails to do is not part of the error: the worktree is left
    exactly when its removal failed both ways, and the branch exactly when [git branch -D] failed. *)
Theorem git_create_outcome entry preset_id options now tr r :
  runs (create_workspace_internal parse_config print_config entry preset_id options now) tr r →
  match r with
  | Ok o => ∃ pre root path config base x saving setting refreshing,
      tr = pre ++ add_worktree options root path base x :: saving ++ setting ++ refreshing ∧ succeeded x = true ∧
      still_quiet (pre ++ saving ++ setting ++ refreshing) ∧
      (any (save_lifecycle_defaults options) = true → runs (write_superzent_config print_config root config) saving (Ok ())) ∧
      setup_went options now root path config setting (setup_failure o) ∧ entered entry preset_id options path config base o ∧
      worktree_left path tr = true ∧ branch_left (name options) tr = true
  | Err e =>
      ((¬ removing tr) ∧ (∀ s, s ∈ tr → adds (projT1 s) = true → answered_ok s = false) ∧
       ∀ path n, worktree_left path tr = false ∧ branch_left n tr = false) ∨
      ∃ pre root path config base x saving undoing undone b,
        tr = pre ++ add_worktree options root path base x :: saving ++ undoing ∧ succeeded x = true ∧ still_quiet (pre ++ saving) ∧
        any (save_lifecycle_defaults options) = true ∧ runs (write_superzent_config print_config root config) saving (Err e) ∧
        cleaned root path (name options) undone b undoing ∧
        worktree_left path tr = negb (is_ok undone) ∧ branch_left (name options) tr = negb (succeeded b)
  end.
Proof.
  intros Hruns. pose proof (create_traces _ _ _ _ _ _ _ _ Hruns) as H.
  destruct H as [tr e Hq|tr root path config base x e Hp Hx _|tr root path config base x tr1 tr2 undone b e Hp Hx Hany Hr Hq Hc
    |tr root path config base x tr1 tr2 tr3 o Hp Hx Hany Hq1 Hq2 Hq3 Hwent Ho].
  - left. split_and!; [by apply quiet_not_removing| |].
    + intros s Hs Ha. apply quiet_not_adding in Hq. rewrite Forall_forall in Hq. by rewrite Hq in Ha.
    + intros path n. apply left_quiet. eapply Forall_impl; [exact Hq|]. by left.
  - left. pose proof (prepared_quiet _ _ _ _ _ _ _ _ Hp) as Hq. destruct (left_not_added options tr root path base x Hq Hx) as [Hno Hrem].
    split_and!; [done| |by intros ? ?; apply left_quiet].
    intros s Hs Ha. by rewrite (adding_step tr _ [] s Hq (Forall_nil_2 _) Hs Ha).
  - right. pose proof (prepared_quiet _ _ _ _ _ _ _ _ Hp) as Hq'. exists tr, root, path, config, base, x, tr1, tr2, undone, b.
    destruct (left_added options tr root path base x (tr1 ++ tr2) Hq' Hx) as [-> ->]. rewrite !foldl_app.
    destruct (left_quiet tr1 path (name options) true) as [-> ->]; [eapply Forall_impl; [exact Hq|]; by left|].
    destruct (cleaned_left _ _ _ _ _ _ Hc) as [-> ->]. split_and!; try done. apply Forall_app. by split.
  - pose proof (prepared_quiet _ _ _ _ _ _ _ _ Hp) as Hq'. exists tr, root, path, config, base, x, tr1, tr2, tr3.
    destruct (left_added options tr root path base x (tr1 ++ tr2 ++ tr3) Hq' Hx) as [-> ->].
    assert (still_quiet (tr1 ++ tr2 ++ tr3)) as Hq by (repeat (apply Forall_app; split); done).
    destruct (left_quiet (tr1 ++ tr2 ++ tr3) path (name options) true) as [-> ->]; [eapply Forall_impl; [exact Hq|]; by left|].
    split_and!; try done. apply Forall_app. by split.
Qed.

(** C29: A worktree is added only where and when it may be, and only one.  The steps before it are, in this order and with
    these answers: the repository of the project was found; unless dirty worktrees are allowed [git status] of the base
    worktree was empty; the configuration was prepared; the base branch was resolved in that repository; the
    directory of the repository's worktrees was made; and the candidates for a name in it, made from the slug of the branch name, were looked up in turn.
    The worktree goes to the first candidate that was found free, as one entry of that directory; when all hundred are taken,
    to the slug with eight characters of a new identifier, which is not looked up: it is fresh if identifiers are. *)
Theorem git_create_guarded entry preset_id options now tr r s :
  runs (create_workspace_internal parse_config print_config entry preset_id options now) tr r → s ∈ tr → adds (projT1 s) = true →
  ∃ root path config base x deciding looking post d, s = add_worktree options root path base x ∧ name options ≠ [] ∧
    tr = deciding ++ did (Create_dir_all (worktrees root)) (Ok ()) :: looking ++ s :: post ∧
    still_quiet deciding ∧ Forall (λ s, adds (projT1 s) = false) post ∧
    (∃ project_root finding checking preparing basing, local_repo_root entry = Some project_root ∧
       deciding = finding ++ checking ++ preparing ++ basing ∧ runs (discover_repo_root project_root) finding (Ok root) ∧
       (if allow_dirty options then checking = [] else
        ∃ y, checking = [ran (default project_root (base_workspace_path options)) [lit "status"; lit "--porcelain"] y] ∧
          git_result [lit "status"; lit "--porcelain"] y = Ok []) ∧
       runs (prepare_superzent_config_for_create parse_config root (normalize_command (setup_script options))
         (normalize_command (teardown_script options)) (save_lifecycle_defaults options)) preparing (Ok config) ∧
       runs (resolve_workspace_base_branch_for_repo root (base_workspace_path options) config (base_branch_override options)) basing (Ok base)) ∧
    path = path_join (worktrees root) d ∧
    ((∃ taken rest, candidates (slugify (name options)) = taken ++ d :: rest ∧
        looking = (looked (worktrees root) true <$> taken) ++ [looked (worktrees root) false d] ∧
        d ≠ [] ∧ Forall slug_char d ∧ path = worktrees root ++ [Normal d]) ∨
     (∃ id, looking = (looked (worktrees root) true <$> candidates (slugify (name options))) ++ [did New_uuid id] ∧
        d = slugify (name options) ++ [dash] ++ take 8 id ∧ (Forall slug_char id → path = worktrees root ++ [Normal d]))).
Proof.
  intros Hruns Hs Ha. pose proof (create_traces _ _ _ _ _ _ _ _ Hruns) as H.
  destruct (creation_adds _ _ _ _ _ _ _ H Hs Ha) as (pre & root & path & config & base & x & post & Hp & Es & Etr & Hpost).
  destruct Hp as (Hname & deciding & looking & d & -> & Hdec & Hd & ->).
  exists root, (path_join (worktrees root) d), config, base, x, deciding, looking, post, d.
  split_and!; try done; [by rewrite Etr, <- (assoc_L (++))|by eapply decided_quiet|].
  destruct (slugify_chars (name options)) as [Hne Hchars]. destruct Hd as [taken d rest E|id]; [left|right].
  - destruct (candidate_chars (slugify (name options)) d Hne Hchars) as [Hd1 Hd2]; [rewrite E; apply elem_of_app; right; by left|].
    exists taken, rest. split_and!; try done. by apply path_join_slug.
  - exists id. split_and!; try done. intros Hid. apply path_join_slug; [by destruct (slugify (name options))|].
    apply Forall_app. split; [done|]. constructor; [right; by right|]. by apply Forall_take.
Qed.
End theorems.

(** ** Concrete creations *)

(** [agreeable], with branches, and with no files but those of [demo_files]. *)
Definition demo_os (saves : bool) (a : action) : answer a :=
  match a as a return answer a with
  | Run c => if bool_decide (drop 2 (command_args c) = [lit "status"; lit "--porcelain"]) then Ok (mk_output true (Some 0%Z) [] [])
             else Ok (mk_output true (Some 0%Z) (lit "/src/zent/.git") [])
  | Exists _ => false
  | Write p s => if saves then Ok () else Err [lit "read-only file system"]
  | a => agreeable a
  end.

Definition demo_project : ProjectEntry := mk_project (lit "p") (lit "zent") (ProjectLocal demo_root) false 0 0.
Definition demo_options : CreateWorkspaceOptions :=
  mk_options (lit " Fix it! ") None None (Some (lit "make")) (Some (lit "make clean")) (mk_selections true false) false.
Definition demo_creation : prog (result WorkspaceCreateOutcome Error) :=
  create_workspace_internal (λ _, Ok default_config) (λ _, Ok []) demo_project (lit "codex") demo_options true.
Definition demo_run (saves : bool) := exec (λ a w, (demo_os saves a, w)) demo_creation tt.

Example creation_example : match (demo_run true).1.2 with
  | Ok o => workspace_name (workspace o) = lit "Fix it!" ∧ setup_failure o = None ∧
      local_worktree_path (workspace o) = Some [RootDir; Normal (lit "src"); Normal (lit ".superzent-worktrees"); Normal (lit "zent"); Normal (lit "fix-it")]
  | Err _ => False
  end.
Proof. by vm_compute. Qed.

Example undone_example : match (demo_run false).1.2 with Ok _ => False | Err e => last e = Some (lit "read-only file system") end.
Proof. by vm_compute. Qed.

Lemma git_create_outcome_witness : runs demo_creation (demo_run false).1.1 (demo_run false).1.2 ∧
  ∃ pre root path config base x saving undoing undone b e,
    (demo_run false).1.1 = pre ++ add_worktree demo_options root path base x :: saving ++ undoing ∧
    runs (write_superzent_config (λ _, Ok []) root config) saving (Err e) ∧ cleaned root path (name demo_options) undone b undoing ∧
    worktree_left path (demo_run false).1.1 = negb (is_ok undone).
Proof.
  pose proof (exec_runs (λ a w, (demo_os false a, w)) demo_creation tt) as H. split; [exact H|].
  pose proof (git_create_outcome _ _ _ _ _ _ _ _ H) as Hc. fold (demo_run false) in Hc.
  assert (∃ e, (demo_run false).1.2 = Err e) as [e E] by (vm_compute; by eexists). rewrite E in Hc.
  assert (∃ s, s ∈ (demo_run false).1.1 ∧ adds (projT1 s) && answered_ok s = true) as (s & Hs & Hok).
  { assert (existsb (λ s, adds (projT1 s) && answered_ok s) (demo_run false).1.1 = true) as Hex by by vm_compute.
    apply existsb_exists in Hex as (s & Hs & Hok). exists s. split; [by apply list_elem_of_In|done]. }
  apply andb_true_iff in Hok as [Ha Hok].
  destruct Hc as [(_ & Hc & _)|(pre & root & path & config & base & x & saving & undoing & undone & b & H1 & _ & _ & _ & H2 & H3 & H4 & _)].
  - rewrite (Hc s Hs Ha) in Hok. discriminate Hok.
  - exists pre, root, path, config, base, x, saving, undoing, undone, b, e. split_and!; [exact H1|exact H2|exact H3|exact H4].
Defined.

Lemma git_create_guarded_witness : ∃ s, s ∈ (demo_run true).1.1 ∧ adds (projT1 s) = true ∧
  ∃ root path base x deciding looking post, s = add_worktree demo_options root path base x ∧ name demo_options ≠ [] ∧
    (demo_run true).1.1 = deciding ++ did (Create_dir_all (worktrees root)) (Ok ()) :: looking ++ s :: post.
Proof.
  pose proof (exec_runs (λ a w, (demo_os true a, w)) demo_creation tt) as H. fold (demo_run true) in H.
  assert (∃ s, s ∈ (demo_run true).1.1 ∧ adds (projT1 s) = true) as (s & Hs & Ha).
  { assert (existsb (λ s, adds (projT1 s)) (demo_run true).1.1 = true) as Hex by by vm_compute.
    apply existsb_exists in Hex as (s & Hs & Ha). exists s. split; [by apply list_elem_of_In|done]. }
  exists s. split; [exact Hs|split; [exact Ha|]].
  destruct (git_create_guarded _ _ _ _ _ _ _ _ s H Hs Ha)
    as (root & path & config & base & x & deciding & looking & post & d & E & Hn & Etr & _).
  exists root, path, base, x, deciding, looking, post. split_and!; [exact E|exact Hn|exact Etr].
Defined.
