(* ===== verification/GitTheorems.v ===== *)
(** * GitTheorems: base branches, summaries and scripts

    The choice of the base branch against a list of candidates, the counts of a summary
    against the lines that [git] prints, and the teardown script from the form where it is
    typed to the deletion where it runs. *)

From Stdlib Require Import String Ascii ZArith.
From S2P Require Import Prelude StoreData StoreFacts Os GitText Git GitDelete.
#[local] Open Scope N_scope.
#[local] Open Scope prog_scope.

(** ** The base branch *)

Section base.
Context (os : ∀ a, answer a) (root : Path).

Definition says (dir : Path) (args : list Str) : result Str Error := git_result args (os (Run (git_command dir args))).

Definition existing (branch : Str) : option Str := if is_ok (says root [lit "rev-parse"; lit "--verify"; branch]) then Some branch else None.

Definition current_of (dir : Path) : option Str :=
  branch ← trim <$> ok (says dir [lit "branch"; lit "--show-current"]); if is_empty_str branch then None else Some branch.

Definition remote_head (r : Str * Str) : option Str := ok (says root [lit "symbolic-ref"; r.1]) ≫= strip_prefix r.2.

(** Where the default branch of a repository may be told, the best place first. *)
Definition default_candidates : list (option Str) :=
  [remote_head (lit "refs/remotes/upstream/HEAD", lit "refs/remotes/upstream/"); remote_head (lit "refs/remotes/origin/HEAD", lit "refs/remotes/origin/");
   ok (says root [lit "config"; lit "init.defaultBranch"]) ≫= existing; existing (lit "main"); existing (lit "master")].

Definition first_some (l : list (option Str)) : option Str := head (omap (M:=list) (λ o, o) l).

Lemma first_some_cons o l : first_some (o :: l) = match o with Some x => Some x | None => first_some l end.
Proof. by destruct o. Qed.

Lemma still_reference branch : still os (branch_reference_exists root branch) = is_ok (says root [lit "rev-parse"; lit "--verify"; branch]).
Proof. unfold branch_reference_exists. rewrite still_bind, still_git_output. done. Qed.

Lemma still_current dir : still os (current_branch dir) = current_of dir.
Proof. unfold current_branch. by rewrite still_bind, still_git_output. Qed.

Lemma still_default : still os (repository_default_branch root) = first_some default_candidates.
Proof.
  assert (∀ refs, still os (first_symbolic_ref root refs) = first_some (remote_head <$> refs)) as Hrefs.
  { induction refs as [|[r prefix] refs IH]; [done|]. cbn [first_symbolic_ref fmap list_fmap]. rewrite first_some_cons, still_bind, still_git_output.
    unfold remote_head at 1, says. cbn [fst snd]. by destruct (ok _ ≫= _). }
  assert (∀ names, still os (first_existing_branch root names) = first_some (existing <$> names)) as Hnames.
  { induction names as [|n names IH]; [done|]. cbn [first_existing_branch fmap list_fmap]. rewrite first_some_cons, still_bind, still_reference.
    unfold existing at 1. by destruct (is_ok _). }
  unfold repository_default_branch. rewrite still_bind, Hrefs. unfold symbolic_refs, default_candidates. cbn [fmap list_fmap].
  rewrite !first_some_cons. destruct (remote_head _); [done|]. destruct (remote_head _); [done|].
  change (first_some []) with (@None Str). cbn iota. rewrite still_bind, still_git_output. fold (says root [lit "config"; lit "init.defaultBranch"]).
  destruct (says root [lit "config"; lit "init.defaultBranch"]) as [b|e]; rewrite still_bind; cbn [ok mbind option_bind].
  - rewrite still_bind, still_reference. unfold existing at 1. destruct (is_ok _); [done|]. cbn [still]. rewrite Hnames. cbn [fmap list_fmap].
    by rewrite !first_some_cons.
  - cbn [still]. rewrite Hnames. cbn [fmap list_fmap]. by rewrite !first_some_cons.
Qed.

(** The base branch is the override, which must exist; else the first that there is of the configured branch, if it
    exists, the branch of the base workspace, and the default branch of the repository, which [upstream], then [origin], then
    the configuration of [git], then [main] and [master] tell.  A notice says so exactly when a configured
    branch was passed over. *)
Theorem git_base_branch_choice base_path config override :
  let configured := normalize_branch_name (base_branch config) in
  let r := still os (resolve_workspace_base_branch_for_repo root base_path config override) in
  match normalize_branch_name override with
  | Some branch => r = match existing branch with Some branch => Ok (mk_base branch None) | None => Err [lit "base branch `" ++ branch ++ lit "` was not found"] end
  | None =>
      match first_some ((configured ≫= existing) :: current_of (default root base_path) :: default_candidates) with
      | Some branch => ∃ n, r = Ok (mk_base branch n) ∧ (is_Some n ↔ configured ≠ (configured ≫= existing))
      | None => r = Err no_default_branch
      end
  end.
Proof.
  intros configured r. subst r. unfold resolve_workspace_base_branch_for_repo.
  destruct (normalize_branch_name override) as [branch|].
  { rewrite still_bind, still_reference. unfold existing. by destruct (is_ok _). }
  rewrite still_bind, still_current, still_bind, still_default. fold configured. rewrite !first_some_cons.
  assert (∀ n : Str, is_Some (Some n) ↔ True) as Hsome by (intros n; split; [done|by eexists]).
  assert (is_Some (@None Str) ↔ False) as Hnone by (split; [by intros [? ?]|done]).
  destruct configured as [branch|]; cbn [mbind option_bind].
  - rewrite still_bind, still_reference. unfold existing. destruct (is_ok _); cbn [still].
    { exists None. split; [done|]. rewrite Hnone. split; [done|]. by intros []. }
    destruct (current_of _) as [c|]; cbn [still].
    { eexists. split; [done|]. rewrite Hsome. done. }
    destruct (first_some default_candidates) as [d|]; cbn [still]; [|done]. eexists. split; [done|]. rewrite Hsome. done.
  - destruct (current_of _) as [c|]; cbn [still].
    { exists None. split; [done|]. rewrite Hnone. split; [done|]. by intros []. }
    destruct (first_some default_candidates) as [d|]; cbn [still]; [|done]. exists None. split; [done|]. rewrite Hnone. split; [done|]. by intros [].
Qed.
End base.

(** ** Summaries *)

Definition nonempty (line : Str) : bool := negb (is_empty_str line).
Definition staged (line : Str) : bool := match head line with Some c => negb (c =? 32) && negb (c =? 63) | None => false end.
Definition untracked (line : Str) : bool := has_prefix (lit "??") line.
Definition count (p : Str → bool) (l : list Str) : N := N.of_nat (length (List.filter p l)).

(** The lines of [git diff --numstat] that count: two numbers and a path. *)
Definition numbers (line : Str) : option (N * N) :=
  match splitn 3 9 line with
  | [added; deleted; _] => a ← parse_usize added; d ← parse_usize deleted; Some (a, d)
  | _ => None
  end.

Lemma count_cons p x l : count p (x :: l) = (if p x then 1 else 0) + count p l.
Proof. unfold count. cbn [List.filter]. destruct (p x); cbn [length]; lia. Qed.

Lemma status_counts l : ∀ s, let t := foldl count_status_line s l in
  changed_files t = changed_files s + count nonempty l ∧ staged_files t = staged_files s + count staged l ∧
  untracked_files t = untracked_files s + count untracked l.
Proof.
  induction l as [|line l IH]; intros s; cbn [foldl]; [unfold count; cbn; lia|]. specialize (IH (count_status_line s line)). cbv zeta in IH.
  destruct IH as (-> & -> & ->). rewrite !count_cons. unfold count_status_line. destruct line as [|c line]; cbn [is_empty_str].
  - change (nonempty []) with false. change (staged []) with false. change (untracked []) with false. cbn iota. lia.
  - fold (untracked (c :: line)). change (default 32 (head (c :: line))) with c. cbn [changed_files staged_files untracked_files].
    change (has_prefix (lit "??") (c :: line)) with (untracked (c :: line)). change (nonempty (c :: line)) with true.
    change (staged (c :: line)) with (negb (c =? 32) && negb (c =? 63)). cbn iota. destruct (negb (c =? 32) && negb (c =? 63)), (untracked (c :: line)); lia.
Qed.

Lemma diff_counts l : ∀ s, s.1 < USIZE → s.2 < USIZE →
  foldl count_diff_line s l = ((s.1 + foldr N.add 0 (fst <$> omap numbers l)) mod USIZE, (s.2 + foldr N.add 0 (snd <$> omap numbers l)) mod USIZE).
Proof.
  induction l as [|line l IH]; intros s H1 H2; cbn [foldl omap list_omap].
  { cbn. rewrite !N.add_0_r, !N.mod_small by done. by destruct s. }
  assert (count_diff_line s line = match numbers line with Some (a, d) => ((s.1 + a) mod USIZE, (s.2 + d) mod USIZE) | None => s end) as ->.
  { unfold count_diff_line, numbers. destruct (splitn 3 9 line) as [|x [|y [|z [|]]]]; try done.
    by destruct (parse_usize x) as [a|], (parse_usize y) as [d|]. }
  destruct (numbers line) as [[a d]|]; [|by apply IH]. rewrite IH by (apply N.mod_lt; done). cbn [fmap list_fmap foldr fst snd].
  rewrite !N.Div0.add_mod_idemp_l. by rewrite <- !N.add_assoc.
Qed.

(** The summary of a worktree counts the non-empty lines of the trimmed [git status --porcelain], those that do not start with a space or a
    question mark, and those that start with two question marks; the sums of the lines of [git diff --numstat] that hold two
    numbers and a path, modulo 2^64, or zero without a first commit; and the commits that [git rev-list] tells, or zero. *)
Theorem git_change_summary_counts os p :
  let status := says os p [lit "status"; lit "--porcelain"] in
  let diff := says os p [lit "diff"; lit "--numstat"; lit "--no-renames"; lit "HEAD"] in
  let head := is_ok (says os p [lit "rev-parse"; lit "--verify"; lit "HEAD"]) in
  match still os (git_change_summary p) with
  | Ok s => ∃ text, status = Ok text ∧
      changed_files s = count nonempty (lines text) ∧ staged_files s = count staged (lines text) ∧ untracked_files s = count untracked (lines text) ∧
      (head = false ∧ added_lines s = 0 ∧ deleted_lines s = 0 ∨
       head = true ∧ ∃ text', diff = Ok text' ∧ added_lines s = foldr N.add 0 (fst <$> omap numbers (lines text')) mod USIZE ∧
         deleted_lines s = foldr N.add 0 (snd <$> omap numbers (lines text')) mod USIZE) ∧
      (ahead_commits s, behind_commits s) =
        default (0, 0) (tracking_counts <$> ok (says os p [lit "rev-list"; lit "--left-right"; lit "--count"; lit "@{upstream}...HEAD"]))
  | Err e => status = Err e ∨ head = true ∧ diff = Err e
  end.
Proof.
  intros status diff head. unfold git_change_summary, git_diff_line_summary, git_has_head, git_tracking_summary.
  rewrite still_try, still_git_output. fold (says os p [lit "status"; lit "--porcelain"]). fold status.
  destruct status as [text|e]; [|by left]. rewrite still_try, !still_bind, still_git_output.
  fold (says os p [lit "rev-parse"; lit "--verify"; lit "HEAD"]). cbn [still]. fold head.
  destruct (status_counts (lines text) empty_summary) as (Hc & Hs & Hu). cbn [empty_summary changed_files staged_files untracked_files] in Hc, Hs, Hu.
  rewrite N.add_0_l in Hc, Hs, Hu.
  assert (∀ d, still os (tracking <- (r <- git_output p [lit "rev-list"; lit "--left-right"; lit "--count"; lit "@{upstream}...HEAD"];;
      Ret match r with Ok output => tracking_counts output | Err _ => (0, 0) end);;
      Ret (@Ok GitChangeSummary Error (with_lines_and_commits (foldl count_status_line empty_summary (lines text)) d tracking))) =
    Ok (with_lines_and_commits (foldl count_status_line empty_summary (lines text)) d
      (default (0, 0) (tracking_counts <$> ok (says os p [lit "rev-list"; lit "--left-right"; lit "--count"; lit "@{upstream}...HEAD"]))))) as Htr.
  { intros d. rewrite !still_bind, still_git_output. fold (says os p [lit "rev-list"; lit "--left-right"; lit "--count"; lit "@{upstream}...HEAD"]).
    cbn [still].
    by destruct (says os p [lit "rev-list"; lit "--left-right"; lit "--count"; lit "@{upstream}...HEAD"]). }
  destruct head; cbn [negb].
  - rewrite still_try, still_git_output. fold (says os p [lit "diff"; lit "--numstat"; lit "--no-renames"; lit "HEAD"]). fold diff.
    destruct diff as [text'|e]; [|by right]. cbn [still]. rewrite Htr. exists text. cbn [with_lines_and_commits changed_files staged_files untracked_files].
    split_and!; try done; [|by destruct (default _ _)]. right. split; [done|]. exists text'. split; [done|].
    cbn [added_lines deleted_lines with_lines_and_commits]. by rewrite diff_counts.
  - cbn [still]. rewrite Htr. exists text. split_and!; try done; [by left|by destruct (default _ _)].
Qed.

Lemma strip_cr_cons c l : (l = [] → c ≠ carriage_return) → strip_carriage_return (c :: l) = c :: strip_carriage_return l.
Proof.
  intros Hc. unfold strip_carriage_return. destruct l as [|d l]; cbn [last].
  - by rewrite (proj2 (N.eqb_neq c _) (Hc eq_refl)).
  - change (last (c :: d :: l)) with (last (d :: l)). destruct (last (d :: l)) as [x|]; [|done]. destruct (x =? carriage_return); [|done].
    cbn [length]. by rewrite !Nat.sub_succ, !Nat.sub_0_r.
Qed.

(** A space before the text changes its first line only. *)
Lemma lines_from_space c l s : c ≠ carriage_return → ∃ f ls,
  lines_from (c :: l) s = (c :: f) :: ls ∧ lines_from (32 :: c :: l) s = (32 :: c :: f) :: ls.
Proof.
  intros Hc. revert l. induction s as [|d s IH]; intros l; cbn [lines_from]; [by exists l, []|].
  destruct (d =? newline); [|apply (IH (l ++ [d]))]. exists (strip_carriage_return l), (lines_from [] s).
  rewrite !strip_cr_cons by (done || by intros _). done.
Qed.

(** The newline after the last line does not matter. *)
Lemma lines_from_newline l s : (∀ c, last (l ++ s) = Some c → is_whitespace c = false) → l ++ s ≠ [] → lines_from l (s ++ [newline]) = lines_from l s.
Proof.
  revert l. induction s as [|d s IH]; intros l Hlast Hne; cbn [app lines_from].
  - rewrite app_nil_r in *. rewrite N.eqb_refl. destruct l as [|c l]; [done|]. cbn [is_empty_str]. f_equal.
    unfold strip_carriage_return. destruct (last (c :: l)) as [x|] eqn:E; [|done]. specialize (Hlast x eq_refl).
    destruct (N.eqb_spec x carriage_return) as [->|]; done.
  - destruct (N.eqb_spec d newline) as [->|Hd]; [f_equal|]; apply IH.
    + intros c Hc. apply Hlast. rewrite last_app. rewrite app_nil_l in Hc. destruct s as [|d s]; [done|].
      change (last (newline :: d :: s)) with (last (d :: s)). by rewrite Hc.
    + intros Hs. rewrite app_nil_l in Hs. subst s. specialize (Hlast newline). rewrite last_snoc in Hlast. by specialize (Hlast eq_refl).
    + intros c Hc. apply Hlast. by rewrite <- (assoc_L (++)) in Hc.
    + by rewrite <- (assoc_L (++)).
Qed.

(** The code trims what [git] prints, also the space that starts the line of a file that
    is changed but not staged: as the first of the list it is counted as staged. *)
Theorem git_summary_counts_first_file_as_staged c rest :
  c ≠ 63 → trim (c :: rest) = c :: rest → let text := 32 :: c :: rest ++ [newline] in
  count staged (lines (trim text)) = count staged (lines text) + 1 ∧ count nonempty (lines (trim text)) = count nonempty (lines text).
Proof.
  intros Hc Ht text. destruct (trim_by_ends is_whitespace (c :: rest)) as [Hh Hl]. fold (trim (c :: rest)) in Hh, Hl. rewrite Ht in Hh, Hl.
  specialize (Hh c eq_refl). assert (c ≠ 32 ∧ c ≠ carriage_return ∧ c ≠ newline) as (H1 & H2 & H3) by (split_and!; intros ->; done).
  assert (trim text = c :: rest) as ->.
  { unfold trim, trim_by, text. cbn [drop_while]. change (is_whitespace 32) with true. cbn iota. rewrite Hh, app_comm_cons, reverse_app, reverse_singleton.
    cbn [app drop_while]. change (is_whitespace newline) with true. cbn iota. rewrite drop_while_id; [apply reverse_involutive|].
    intros x Hx. apply Hl. by rewrite head_reverse in Hx. }
  unfold lines, text. rewrite app_comm_cons, app_comm_cons. rewrite lines_from_newline by done.
  cbn [lines_from app]. change (32 =? newline) with false. rewrite (proj2 (N.eqb_neq c _) H3). cbn iota.
  destruct (lines_from_space c [] rest H2) as (f & ls & -> & ->). rewrite !count_cons. cbn [staged head].
  rewrite (proj2 (N.eqb_neq c _) H1), (proj2 (N.eqb_neq c _) Hc). cbn. lia.
Qed.

(** ** Teardown scripts *)

(** A command as [split_commands] leaves it. *)
Definition is_command (c : Str) : Prop := trim c = c ∧ c ≠ [] ∧ newline ∉ c.

Lemma lines_from_app l c s : newline ∉ c → lines_from l (c ++ s) = lines_from (l ++ c) s.
Proof.
  revert l. induction c as [|d c IH]; intros l Hn; cbn [app lines_from]; [by rewrite app_nil_r|].
  apply not_elem_of_cons in Hn as [Hd Hc]. rewrite (proj2 (N.eqb_neq d newline)) by done. by rewrite IH, <- (assoc_L (++)).
Qed.

Lemma lines_no_newline s : ∀ l, newline ∉ l → Forall (λ line, newline ∉ line) (lines_from l s).
Proof.
  induction s as [|c s IH]; intros l Hl; cbn [lines_from].
  - destruct (is_empty_str l); repeat constructor; done.
  - destruct (N.eqb_spec c newline) as [->|Hc]; [|by apply IH; intros [?|?%list_elem_of_singleton]%elem_of_app]. constructor; [|apply IH, not_elem_of_nil].
    unfold strip_carriage_return. destruct (last l) as [x|]; [|done]. destruct (x =? carriage_return); [|done].
    intros Hx. by apply Hl, (subseteq_take (length l - 1) l).
Qed.

Lemma drop_while_elem {A} (p : A → bool) l x : x ∈ drop_while p l → x ∈ l.
Proof. destruct (drop_while_suffix p l) as [k Hk]. rewrite Hk at 2. rewrite elem_of_app. by right. Qed.

Lemma trim_elem s c : c ∈ trim s → c ∈ s.
Proof. unfold trim, trim_by. rewrite elem_of_reverse. intros H%drop_while_elem. rewrite elem_of_reverse in H. by apply drop_while_elem in H. Qed.

Lemma split_commands_good s : Forall is_command (split_commands s).
Proof.
  unfold split_commands. apply Forall_forall. intros c Hc. apply list_elem_of_filter in Hc as [He Hc].
  apply list_elem_of_fmap in Hc as (line & -> & Hline). split_and!.
  - apply trim_by_idempotent.
  - intros Ht. by rewrite Ht in He.
  - intros Hn%trim_elem. by apply (proj1 (Forall_forall _ _) (lines_no_newline s [] (not_elem_of_nil _)) line).
Qed.

Lemma strip_command c : is_command c → strip_carriage_return c = c.
Proof.
  intros (Ht & _ & _). destruct (trim_by_ends is_whitespace c) as [_ Hl]. fold (trim c) in Hl. rewrite Ht in Hl.
  unfold strip_carriage_return. destruct (last c) as [x|]; [|done]. specialize (Hl x eq_refl).
  by destruct (N.eqb_spec x carriage_return) as [->|].
Qed.

Lemma lines_join cs : Forall is_command cs → lines (join [newline] cs) = cs.
Proof.
  induction 1 as [|c cs Hc Hcs IH]; [done|]. unfold lines in *. destruct cs as [|d cs]; cbn [join].
  - rewrite <- (app_nil_r c) at 1. rewrite lines_from_app by apply Hc. cbn. destruct Hc as (_ & Hne & _). by destruct c.
  - rewrite lines_from_app by apply Hc. cbn [app lines_from]. rewrite N.eqb_refl, strip_command by done. by f_equal.
Qed.

(** Commands come back from the script that is made of them. *)
Lemma split_script cs : Forall is_command cs → default [] (split_commands <$> commands_to_script cs) = cs.
Proof.
  intros Hcs. assert (split_commands (join [newline] cs) = cs) as H.
  { unfold split_commands. rewrite lines_join by done. induction Hcs as [|c cs (Ht & Hne & _) _ IH]; [done|].
    cbn [fmap list_fmap]. rewrite Ht, filter_cons_True by (by destruct c). by f_equal. }
  destruct cs; [done|]. exact H.
Qed.

Lemma normalize_command_idempotent o : normalize_command (normalize_command o) = normalize_command o.
Proof.
  destruct o as [s|]; [|done]. cbn. destruct (is_empty_str (trim s)) eqn:E; [done|]. cbn. unfold trim.
  rewrite trim_by_idempotent. fold (trim s). by rewrite E.
Qed.

(** C27: A teardown script that is typed when a workspace is created is what a deletion runs, line by line: saved
    as the default of the repository it replaces the commands there, also by none; not saved it is kept with
    the workspace if it is another one than the default; and with nothing typed the default runs.  The
    configuration at the deletion is that of the creation. *)
Theorem git_teardown_kept parse_config os0 os1 os2 root options config project preset_id path base name failure :
  let typed := normalize_command (teardown_script options) in
  let save := save_teardown (save_lifecycle_defaults options) in
  let w := workspace (still os1 (enter_workspace project preset_id options path config base name failure)) in
  still os0 (prepare_superzent_config_for_create parse_config root (normalize_command (setup_script options)) typed (save_lifecycle_defaults options)) = Ok config →
  still os2 (load_superzent_config parse_config root) = Ok config →
  ∃ res, still os2 (resolve_workspace_delete_resolution parse_config w root) = Ok res ∧
    teardown_of res = Some (default [] (split_commands <$>
      (if save then typed else match typed with Some script => Some script | None => commands_to_script (teardown config) end))).
Proof.
  intros typed save w Hprepare Hload.
  assert (unmanaged w = false ∧ teardown_script_override w = workspace_teardown_script_override_for_create config typed save) as [Hm Hover].
  { subst w. unfold enter_workspace. rewrite still_bind. cbn [ask bind still workspace]. done. }
  unfold resolve_workspace_delete_resolution. rewrite Hm, Hover. unfold workspace_teardown_script_override_for_create.
  assert (∃ res, still os2 (config <- load_superzent_config parse_config root;;
      match config with
      | Err error => Ret (Ok (BlockedByConfig (workspace_lifecycle_failure_from_error Teardown (lit "load .superzent/config.json") error)))
      | Ok config => match commands_to_script (teardown config) with Some script => Ret (Ok (RunTeardownScript script)) | None => Ret (Ok SkipTeardown) end
      end) = @Ok _ Error res ∧ teardown_of res = Some (default [] (split_commands <$> commands_to_script (teardown config)))) as Hconfig.
  { rewrite still_bind, Hload. destruct (commands_to_script (teardown config)) as [script|]; eexists; done. }
  subst typed. rewrite normalize_command_idempotent. destruct save eqn:Hsave.
  - assert (teardown config = default [] (split_commands <$> normalize_command (teardown_script options))) as Ht.
    { revert Hprepare. unfold prepare_superzent_config_for_create. rewrite still_try. fold save. rewrite Hsave.
      destruct (still os0 _) as [c|e]; [|done]. by intros [= <-]. }
    destruct Hconfig as (res & Hr & Hres). exists res. split; [exact Hr|]. rewrite Hres, Ht. f_equal. apply split_script.
    destruct (normalize_command (teardown_script options)); [apply split_commands_good|constructor].
  - destruct (normalize_command (teardown_script options)) as [script|]; [|by case_bool_decide].
    case_bool_decide as E; [|by eexists]. destruct Hconfig as (res & Hr & Hres). exists res. split; [exact Hr|]. by rewrite Hres, <- E.
Qed.

(** *** A script of two commands, saved and not *)

Definition demo_script : Str := lit " make clean" ++ [newline; newline] ++ lit "rm -r out ".
Definition scripted_options (save : bool) : CreateWorkspaceOptions := mk_options (lit "fix") None None None (Some demo_script) (mk_selections false save) true.
Definition scripted_config (save : bool) : SuperzentConfig :=
  mk_config [] (if save then [lit "make clean"; lit "rm -r out"] else [lit "true"]) None [].
Definition scripted_project : ProjectEntry := mk_project (lit "p") (lit "zent") (ProjectLocal demo_root) false 0 0.

Lemma git_teardown_kept_witness : Forall (λ save, ∃ res,
  still agreeable (resolve_workspace_delete_resolution (λ _, Ok (scripted_config save))
    (workspace (still agreeable (enter_workspace scripted_project (lit "codex") (scripted_options save) demo_path (scripted_config save)
       (mk_base (lit "main") None) (lit "fix") None))) demo_root) = Ok res ∧
  teardown_of res = Some [lit "make clean"; lit "rm -r out"]) [true; false].
Proof.
  apply Forall_forall. intros save _. destruct (git_teardown_kept (λ _, Ok (scripted_config save)) agreeable agreeable agreeable demo_root (scripted_options save)
    (scripted_config save) scripted_project (lit "codex") demo_path (mk_base (lit "main") None) (lit "fix") None) as (res & Hr & Hres).
  - by destruct save.
  - by destruct save.
  - exists res. split; [exact Hr|]. rewrite Hres. destruct save; vm_compute; reflexivity.
Defined.
