(* ===== verification/StreamingDiff.v ===== *)
(** * StreamingDiff: the difference between an old text and a new one that arrives in pieces

    Models [StreamingDiff] of [crates/streaming_diff/src/streaming_diff.rs] with its [Matrix].  A score is an
    IEEE 754 number of 64 bits, computed as [SpecFloat] does; the order of [OrderedFloat], from a third-party
    crate, is a parameter.  [None] is a panic, or fuel that ran out: a round of [backtrack] makes one of
    its two indices smaller. *)

From Stdlib Require Import SpecFloat.
From stdpp Require Import gmap.
From S2P Require Import Prelude Clock Bits Utf8.
#[local] Open Scope N_scope.

(** ** Numbers of type [f64] *)

Abbreviation f64 := spec_float.
Definition f64_add : f64 → f64 → f64 := SFadd 53 1024.
Definition f64_mul : f64 → f64 → f64 := SFmul 53 1024.
Definition f64_div : f64 → f64 → f64 := SFdiv 53 1024.
Definition f64_of (n : Z) : f64 := binary_normalize 53 1024 n 0 false.
Definition f64_zero : f64 := S754_zero false.
Definition NEG_INFINITY : f64 := S754_infinity true.
Definition f64_is_nan (x : f64) : bool := match x with S754_nan => true | _ => false end.
(** [f64::max] ignores what is not a number. *)
Definition f64_max (x y : f64) : f64 := if SFltb x y || f64_is_nan x then y else x.

(** [f64::powi], as the compiler's runtime computes it: by repeated squaring. *)
Fixpoint powi_loop (fuel : nat) (a r : f64) (b : Z) : f64 :=
  match fuel with
  | O => r
  | S fuel =>
      let r := if Z.odd b then f64_mul r a else r in
      let b := Z.quot b 2 in
      if (b =? 0)%Z then r else powi_loop fuel (f64_mul a a) r b
  end.
Definition powi (a : f64) (b : Z) : f64 :=
  let r := powi_loop 32 a (f64_of 1) b in
  if (b <? 0)%Z then f64_div (f64_of 1) r else r.

(** ** [Matrix] *)

(** [Vec::resize]. *)
Definition vec_resize {A} (l : list A) (n : N) (x : A) : list A := ltake n l ++ replicate (N.to_nat (n - len l)) x.

Record Matrix : Type := mk_matrix { cells : list f64; rows : N; cols : N }.

Definition matrix_new : Matrix := mk_matrix [] 0 0.

Definition matrix_resize (m : Matrix) (r c : N) : Matrix := mk_matrix (vec_resize (cells m) (r * c) f64_zero) r c.

(** The cells of a column are side by side. *)
Definition column (m : Matrix) (c : N) : list f64 := ltake (rows m) (ldrop (c * rows m) (cells m)).
Definition write_column (m : Matrix) (c : N) (l : list f64) : Matrix :=
  mk_matrix (ltake (c * rows m) (cells m) ++ l ++ ldrop (c * rows m + len l) (cells m)) (rows m) (cols m).

Definition swap_columns (m : Matrix) (col1 col2 : N) : option Matrix :=
  if col1 =? col2 then Some m
  else if cols m <=? col1 then None
  else if cols m <=? col2 then None
  else Some (write_column (write_column m col1 (column m col2)) col2 (column m col1)).

Definition matrix_get (m : Matrix) (row col : N) : option f64 :=
  if rows m <=? row then None
  else if cols m <=? col then None
  else lget (cells m) (col * rows m + row).

Definition matrix_set (m : Matrix) (row col : N) (value : f64) : option Matrix :=
  if rows m <=? row then None
  else if cols m <=? col then None
  else if len (cells m) <=? col * rows m + row then None
  else Some (mk_matrix (<[N.to_nat (col * rows m + row) := value]> (cells m)) (rows m) (cols m)).

(** ** [StreamingDiff] *)

Inductive CharOperation : Type :=
| Insert (text : str)
| Delete (bytes : N)
| Keep (bytes : N).

Record StreamingDiff : Type := mk_diff {
  old : list N;
  new : list N;
  scores : Matrix;
  old_text_ix : N;
  new_text_ix : N;
  equal_runs : gmap (N * N) N
}.

Definition INSERTION_SCORE : f64 := f64_of (-1).
Definition DELETION_SCORE : f64 := f64_of (-20).
(** The number nearest to 1.8. *)
Definition EQUALITY_BASE : f64 := S754_finite false 8106479329266893 (-52).
Definition MAX_EQUALITY_EXPONENT : Z := 16.

Definition with_scores (d : StreamingDiff) (m : Matrix) : StreamingDiff :=
  mk_diff (old d) (new d) m (old_text_ix d) (new_text_ix d) (equal_runs d).
Definition with_runs (d : StreamingDiff) (runs : gmap (N * N) N) : StreamingDiff :=
  mk_diff (old d) (new d) (scores d) (old_text_ix d) (new_text_ix d) runs.

(** The loop [for i in 0..=old.len()] of [new]. *)
Fixpoint set_first_column (n : nat) (i : N) (m : Matrix) : option Matrix :=
  match n with
  | O => Some m
  | S n => m ← matrix_set m i 0 (f64_mul (f64_of (Z.of_N i)) DELETION_SCORE); set_first_column n (i + 1) m
  end.

Definition diff_new (text : str) : option StreamingDiff :=
  let old := chars text in
  scores ← set_first_column (S (length old)) 0 (matrix_resize matrix_new (len old + 1) 1);
  Some (mk_diff old [] scores 0 0 ∅).

Definition as_i32 (n : N) : Z := if n <? 2 ^ 31 then Z.of_N n else (Z.of_N n - 2 ^ 32)%Z.

(** What a run of [equal_run] equal characters adds. *)
Definition equality_bonus (equal_run : N) : f64 :=
  powi EQUALITY_BASE (Z.min (Z.quot (as_i32 equal_run) 4) MAX_EQUALITY_EXPONENT).

Definition equality (d : StreamingDiff) (i j relative_j : N) : option (StreamingDiff * f64) :=
  a ← lget (old d) (i - 1);
  b ← lget (new d) (j - 1);
  if a =? b then
    let equal_run := wrap32 (default 0 (equal_runs d !! (i - 1, j - 1)) + 1) in
    score ← matrix_get (scores d) (i - 1) (relative_j - 1);
    Some (with_runs d (<[(i, j) := equal_run]> (equal_runs d)), f64_add score (equality_bonus equal_run))
  else Some (d, NEG_INFINITY).

Definition score_cell (d : StreamingDiff) (i j relative_j : N) : option StreamingDiff :=
  left ← matrix_get (scores d) i (relative_j - 1);
  above ← matrix_get (scores d) (i - 1) relative_j;
  '(d, equality_score) ← equality d i j relative_j;
  let score := f64_max (f64_max (f64_add left INSERTION_SCORE) (f64_add above DELETION_SCORE)) equality_score in
  m ← matrix_set (scores d) i relative_j score;
  Some (with_scores d m).

(** The loops of [push_new] over [i] and [j]. *)
Fixpoint score_rows (n : nat) (i j relative_j : N) (d : StreamingDiff) : option StreamingDiff :=
  match n with
  | O => Some d
  | S n => d ← score_cell d i j relative_j; score_rows n (i + 1) j relative_j d
  end.

Definition score_column (d : StreamingDiff) (j : N) : option StreamingDiff :=
  let relative_j := j - new_text_ix d in
  m ← matrix_set (scores d) 0 relative_j (f64_mul (f64_of (Z.of_N j)) INSERTION_SCORE);
  score_rows (length (old d)) 1 j relative_j (with_scores d m).

Fixpoint score_columns (n : nat) (j : N) (d : StreamingDiff) : option StreamingDiff :=
  match n with
  | O => Some d
  | S n => d ← score_column d j; score_columns n (j + 1) d
  end.

(** The first row of the last column with the greatest score. *)
Fixpoint best_row (n : nat) (i : N) (d : StreamingDiff) (col : N) (max_score : f64) (next_old_text_ix : N) : option N :=
  match n with
  | O => Some next_old_text_ix
  | S n =>
      score ← matrix_get (scores d) i col;
      if SFltb max_score score then best_row n (i + 1) d col score i else best_row n (i + 1) d col max_score next_old_text_ix
  end.

(** *** [backtrack] *)

Section backtrack.
Context (ordered_float_cmp : f64 → f64 → comparison).

(** [Option] of [OrderedFloat] in order. *)
Definition option_cmp (x y : option f64) : comparison :=
  match x, y with
  | None, None => Eq
  | None, Some _ => Lt
  | Some _, None => Gt
  | Some x, Some y => ordered_float_cmp x y
  end.

(** [max_by_key] keeps the last of the greatest. *)
Definition last_max {A} (x y : option f64 * A) : option f64 * A :=
  match option_cmp x.1 y.1 with Gt => x | _ => y end.

Definition cell_key (d : StreamingDiff) (cell : option (N * N)) : option (option f64 * option (N * N)) :=
  match cell with
  | None => Some (None, None)
  | Some (i, j) => score ← matrix_get (scores d) i (j - new_text_ix d); Some (Some score, Some (i, j))
  end.

(** The cell to go back to. *)
Definition previous (d : StreamingDiff) (i j : N) : option (N * N) :=
  let insertion := if new_text_ix d <? j then Some (i, j - 1) else None in
  let deletion := if old_text_ix d <? i then Some (i - 1, j) else None in
  equality ← (if (old_text_ix d <? i) && (new_text_ix d <? j) then
                a ← lget (old d) (i - 1); b ← lget (new d) (j - 1);
                Some (if a =? b then Some (i - 1, j - 1) else None)
              else Some None);
  a ← cell_key d insertion;
  b ← cell_key d deletion;
  c ← cell_key d equality;
  (last_max (last_max a b) c).2.

Definition slice_chars (l : list N) (a b : N) : option (list N) :=
  if (a <=? b) && (b <=? len l) then Some (ltake (b - a) (ldrop a l)) else None.

(** [pending_insert.take()], and what it leaves behind. *)
Definition flush_pending (d : StreamingDiff) (pending : option (N * N)) (hunks : list CharOperation) : option (list CharOperation) :=
  match pending with
  | None => Some hunks
  | Some (a, b) => cs ← slice_chars (new d) a b; Some (hunks ++ [Insert (encode_all cs)])
  end.

Definition push_delete (hunks : list CharOperation) (n : N) : list CharOperation :=
  match last hunks with Some (Delete bytes) => removelast hunks ++ [Delete (bytes + n)] | _ => hunks ++ [Delete n] end.
Definition push_keep (hunks : list CharOperation) (n : N) : list CharOperation :=
  match last hunks with Some (Keep bytes) => removelast hunks ++ [Keep (bytes + n)] | _ => hunks ++ [Keep n] end.

(** One round: what is pending and the hunks, after the step from [(i, j)] to [(prev_i, prev_j)]. *)
Definition backtrack_step (d : StreamingDiff) (i j prev_i prev_j : N) (pending : option (N * N)) (hunks : list CharOperation) :
    option (option (N * N) * list CharOperation) :=
  if (prev_i =? i) && (prev_j =? j - 1) then
    Some (match pending with Some (_, b) => Some (prev_j, b) | None => Some (prev_j, j) end, hunks)
  else
    hunks ← flush_pending d pending hunks;
    c ← lget (old d) (i - 1);
    Some (None, if (prev_i =? i - 1) && (prev_j =? j) then push_delete hunks (len_utf8 c) else push_keep hunks (len_utf8 c)).

Fixpoint backtrack_loop (fuel : nat) (d : StreamingDiff) (i j : N) (pending : option (N * N)) (hunks : list CharOperation) :
    option (list CharOperation) :=
  match fuel with
  | O => None
  | S fuel =>
      if (i =? old_text_ix d) && (j =? new_text_ix d) then hunks ← flush_pending d pending hunks; Some (rev hunks)
      else
        '(prev_i, prev_j) ← previous d i j;
        '(pending, hunks) ← backtrack_step d i j prev_i prev_j pending hunks;
        backtrack_loop fuel d prev_i prev_j pending hunks
  end.

Definition backtrack (d : StreamingDiff) (old_ix new_ix : N) : option (list CharOperation) :=
  backtrack_loop (S (N.to_nat (old_ix + new_ix))) d old_ix new_ix None [].

(** *** The interface *)

(** The matrix keeps the last column as its first one, and has one more for each new character. *)
Definition extend_new (d : StreamingDiff) (text : str) : option StreamingDiff :=
  let new := new d ++ chars text in
  if cols (scores d) =? 0 then None
  else
    m ← swap_columns (scores d) 0 (cols (scores d) - 1);
    Some (mk_diff (old d) new (matrix_resize m (len (old d) + 1) (len new - new_text_ix d + 1)) (old_text_ix d) (new_text_ix d)
            (filter (λ x, x.1.2 = new_text_ix d) (equal_runs d))).

Definition push_new (d : StreamingDiff) (text : str) : option (StreamingDiff * list CharOperation) :=
  d ← extend_new d text;
  d ← score_columns (N.to_nat (len (new d) - new_text_ix d)) (new_text_ix d + 1) d;
  next_old_text_ix ← best_row (N.to_nat (len (old d) + 1 - old_text_ix d)) (old_text_ix d) d (len (new d) - new_text_ix d)
                       NEG_INFINITY (old_text_ix d);
  hunks ← backtrack d next_old_text_ix (len (new d));
  Some (mk_diff (old d) (new d) (scores d) next_old_text_ix (len (new d)) (equal_runs d), hunks).

Definition finish (d : StreamingDiff) : option (list CharOperation) := backtrack d (len (old d)) (len (new d)).
End backtrack.
