(* ===== verification/StreamingDiffTheorems.v ===== *)
(** * StreamingDiffTheorems: the hunks lead from the old text to the new one

    Whatever the scores are, [backtrack] goes along a path of cells, and the hunks that it returns spell
    the path: applied to the old text they make the new one.  The scores are those of one pass over
    the whole new text, however it was cut into pieces. *)

From Stdlib Require Import SpecFloat.
From stdpp Require Import gmap.
From S2P Require Import Prelude Clock Bits Utf8 StreamingDiff.
#[local] Open Scope N_scope.

(** ** Matrices *)

Section matrix.
Implicit Types (m : Matrix) (row col : N).

Definition matrix_ok m : Prop := len (cells m) = rows m * cols m.

Lemma cell_lt m row col : row < rows m → col < cols m → col * rows m + row < rows m * cols m.
Proof. nia. Qed.

Lemma cell_inj m row col row' col' : row < rows m → row' < rows m → col * rows m + row = col' * rows m + row' → col = col' ∧ row = row'.
Proof. intros Hr Hr' E. assert (col = col') as ->; [|lia]. destruct (N.lt_trichotomy col col') as [|[|]]; [nia|done|nia]. Qed.

Lemma matrix_get_in m row col : row < rows m → col < cols m → matrix_get m row col = lget (cells m) (col * rows m + row).
Proof. intros Hr Hc. unfold matrix_get. by rewrite (proj2 (N.leb_gt _ _) Hr), (proj2 (N.leb_gt _ _) Hc). Qed.

Lemma matrix_get_some m row col : matrix_ok m → row < rows m → col < cols m → ∃ x, matrix_get m row col = Some x.
Proof. intros Hm Hr Hc. rewrite matrix_get_in by done. apply lget_lt. rewrite Hm. by apply cell_lt. Qed.

Lemma matrix_set_spec m row col x : matrix_ok m → row < rows m → col < cols m →
  ∃ m', matrix_set m row col x = Some m' ∧ matrix_ok m' ∧ rows m' = rows m ∧ cols m' = cols m ∧
    matrix_get m' row col = Some x ∧
    ∀ row' col', row' ≠ row ∨ col' ≠ col → matrix_get m' row' col' = matrix_get m row' col'.
Proof.
  intros Hm Hr Hc. unfold matrix_set. rewrite (proj2 (N.leb_gt _ _) Hr), (proj2 (N.leb_gt _ _) Hc).
  pose proof (cell_lt m row col Hr Hc) as Hlt. rewrite <- Hm in Hlt. rewrite (proj2 (N.leb_gt _ _) Hlt).
  eexists. split; [done|]. split_and!; [unfold matrix_ok, len in *; cbn; by rewrite length_insert|done|done| |].
  - rewrite matrix_get_in by done. unfold lget. cbn [cells rows cols]. apply list_lookup_insert_eq. unfold len in Hlt. lia.
  - intros row' col' Hne. unfold matrix_get. cbn [rows cols cells].
    destruct (N.leb_spec (rows m) row'); [done|]. destruct (N.leb_spec (cols m) col'); [done|].
    unfold lget. apply list_lookup_insert_ne. intros E. destruct (cell_inj m row col row' col') as [-> ->]; [done|done|lia|]. by destruct Hne.
Qed.

(** The columns that are kept hold what they held. *)
Lemma resize_ok m r c : matrix_ok (matrix_resize m r c).
Proof.
  unfold matrix_ok, matrix_resize, vec_resize. cbn [cells rows cols]. rewrite len_app, len_ltake. unfold len at 2. rewrite length_replicate. lia.
Qed.

Lemma resize_get m c row col : matrix_ok m → row < rows m → col < cols m → col < c → matrix_get (matrix_resize m (rows m) c) row col = matrix_get m row col.
Proof.
  intros Hm Hr Hc Hc'. rewrite !matrix_get_in by done. unfold matrix_resize, vec_resize. cbn [cells rows].
  pose proof (cell_lt m row col Hr Hc) as Hlt. rewrite <- Hm in Hlt. assert (col * rows m + row < rows m * c) by nia.
  rewrite lget_app_l by (rewrite len_ltake; lia). unfold lget, ltake. apply lookup_take_lt. lia.
Qed.

Lemma write_column_ok m c l : matrix_ok m → c < cols m → len l = rows m → matrix_ok (write_column m c l).
Proof. intros Hm Hc Hl. unfold matrix_ok, write_column in *. cbn [cells rows cols]. rewrite !len_app, len_ltake, len_ldrop, Hm, Hl. nia. Qed.

Lemma write_column_get m c l row col : matrix_ok m → c < cols m → len l = rows m → row < rows m → col < cols m →
  matrix_get (write_column m c l) row col = if col =? c then lget l row else matrix_get m row col.
Proof.
  intros Hm Hc Hl Hr Hcol. rewrite !matrix_get_in by done. unfold write_column. cbn [cells rows].
  assert (len (ltake (c * rows m) (cells m)) = c * rows m) as Ht by (rewrite len_ltake, Hm; nia). destruct (N.eqb_spec col c) as [->|Hne].
  - rewrite lget_app_r by (rewrite Ht; lia). rewrite Ht, lget_app_l by (rewrite Hl; lia). f_equal. lia.
  - destruct (N.lt_ge_cases col c) as [Hlt|Hge].
    + assert (col * rows m + row < c * rows m) by nia. rewrite lget_app_l by (rewrite Ht; lia). unfold lget, ltake. apply lookup_take_lt. lia.
    + assert (c * rows m + rows m ≤ col * rows m + row) by nia.
      rewrite lget_app_r by (rewrite Ht; lia). rewrite lget_app_r by (rewrite Ht, Hl; lia). rewrite Ht, Hl. unfold lget, ldrop.
      rewrite lookup_drop. f_equal. lia.
Qed.

Lemma column_get m c row : matrix_ok m → c < cols m → row < rows m → lget (column m c) row = matrix_get m row c.
Proof.
  intros Hm Hc Hr. rewrite matrix_get_in by done. unfold column, lget, ltake, ldrop. rewrite lookup_take_lt by lia. rewrite lookup_drop. f_equal. lia.
Qed.

Lemma len_column m c : matrix_ok m → c < cols m → len (column m c) = rows m.
Proof. intros Hm Hc. unfold column. rewrite len_ltake, len_ldrop, Hm. nia. Qed.

Lemma swap_columns_spec m c1 c2 : matrix_ok m → c1 < cols m → c2 < cols m →
  ∃ m', swap_columns m c1 c2 = Some m' ∧ matrix_ok m' ∧ rows m' = rows m ∧ cols m' = cols m ∧
    ∀ row col, row < rows m → col < cols m →
      matrix_get m' row col = matrix_get m row (if col =? c1 then c2 else if col =? c2 then c1 else col).
Proof.
  intros Hm H1 H2. unfold swap_columns. destruct (N.eqb_spec c1 c2) as [->|Hne].
  - exists m. split_and!; [done..|]. intros row col _ _. by destruct (N.eqb_spec col c2) as [->|].
  - rewrite (proj2 (N.leb_gt _ _) H1), (proj2 (N.leb_gt _ _) H2). eexists. split; [done|].
    pose proof (len_column m c1 Hm H1) as L1. pose proof (len_column m c2 Hm H2) as L2.
    pose proof (write_column_ok m c1 _ Hm H1 L2) as Hm1. split; [by apply write_column_ok|]. split; [done|]. split; [done|].
    intros row col Hr Hc. rewrite write_column_get, write_column_get by done. rewrite !column_get by done.
    destruct (N.eqb_spec col c2) as [->|]; [|by destruct (N.eqb_spec col c1)]. by rewrite (proj2 (N.eqb_neq _ _)) by congruence.
Qed.
End matrix.

(** ** Applying hunks *)

(** The text that they make, and what is left of the old one. *)
Fixpoint apply_ops (ops : list CharOperation) (t : str) : option (str * str) :=
  match ops with
  | [] => Some ([], t)
  | Insert text :: ops => '(made, rest) ← apply_ops ops t; Some (text ++ made, rest)
  | Delete n :: ops => if n <=? len t then apply_ops ops (ldrop n t) else None
  | Keep n :: ops => if n <=? len t then '(made, rest) ← apply_ops ops (ldrop n t); Some (ltake n t ++ made, rest) else None
  end.

(** They make [n] of [o]. *)
Definition turns (ops : list CharOperation) (o n : str) : Prop := ∀ rest, apply_ops ops (o ++ rest) = Some (n, rest).

Lemma turns_nil : turns [] [] [].
Proof. done. Qed.

Lemma turns_insert ops o n t : turns ops o n → turns (Insert t :: ops) o (t ++ n).
Proof. intros H rest. cbn. by rewrite H. Qed.

Lemma turns_delete ops o n d : turns ops o n → turns (Delete (len d) :: ops) (d ++ o) n.
Proof.
  intros H rest. cbn. rewrite <- app_assoc, ldrop_app_len, H. by rewrite (proj2 (N.leb_le _ _)) by (rewrite len_app; lia).
Qed.

Lemma turns_keep ops o n d : turns ops o n → turns (Keep (len d) :: ops) (d ++ o) (d ++ n).
Proof.
  intros H rest. cbn. rewrite <- app_assoc, ldrop_app_len, ltake_app_len, H. by rewrite (proj2 (N.leb_le _ _)) by (rewrite len_app; lia).
Qed.

Lemma ldrop_more k (d t : str) : ldrop (k + len d) (d ++ t) = ldrop k t.
Proof. rewrite ldrop_app_r by lia. f_equal. lia. Qed.

Lemma turns_more_deleted ops o n k d : turns (Delete k :: ops) o n → turns (Delete (k + len d) :: ops) (d ++ o) n.
Proof.
  intros H rest. specialize (H rest). cbn in *. rewrite <- app_assoc, ldrop_more.
  destruct (N.leb_spec k (len (o ++ rest))); [|done]. by rewrite (proj2 (N.leb_le _ _)) by (rewrite len_app; lia).
Qed.

Lemma turns_more_kept ops o n k d : turns (Keep k :: ops) o n → turns (Keep (k + len d) :: ops) (d ++ o) (d ++ n).
Proof.
  intros H rest. specialize (H rest). cbn in *. rewrite <- app_assoc, ldrop_more.
  destruct (N.leb_spec k (len (o ++ rest))) as [Hk|]; [|done]. rewrite (proj2 (N.leb_le _ _)) by (rewrite len_app; lia).
  rewrite ltake_app_r by lia. replace (k + len d - len d) with k by lia. destruct (apply_ops ops _) as [[m r]|]; [|done].
  cbn in *. injection H as <- ->. by rewrite app_assoc.
Qed.

Lemma turns_app a b o1 n1 o2 n2 : turns a o1 n1 → turns b o2 n2 → turns (a ++ b) (o1 ++ o2) (n1 ++ n2).
Proof.
  intros Ha Hb rest. rewrite <- app_assoc. specialize (Ha (o2 ++ rest)). revert Ha. generalize (o1 ++ o2 ++ rest) as t. revert n1.
  induction a as [|op a IH]; intros n1 t Ha; [cbn in *; injection Ha as <- ->; by rewrite Hb|].
  destruct op as [s|k|k]; cbn in *.
  - destruct (apply_ops a t) as [[m r]|] eqn:E; [|done]. cbn in Ha. injection Ha as <- ->. by rewrite (IH m t E), <- app_assoc.
  - destruct (k <=? len t); [|done]. by apply IH.
  - destruct (k <=? len t); [|done]. destruct (apply_ops a (ldrop k t)) as [[m r]|] eqn:E; [|done]. cbn in Ha. injection Ha as <- ->.
    by rewrite (IH m _ E), <- app_assoc.
Qed.

(** *** What the rounds of [backtrack] push *)

Lemma last_case (h : list CharOperation) : h = [] ∨ ∃ l x, h = l ++ [x].
Proof. destruct h as [|x l _] using rev_ind; [by left|right; by exists l, x]. Qed.

Lemma push_delete_turns hunks o n d : turns (rev hunks) o n → turns (rev (push_delete hunks (len d))) (d ++ o) n.
Proof.
  intros H. unfold push_delete. assert (turns (rev (hunks ++ [Delete (len d)])) (d ++ o) n) as Hnew by (rewrite rev_unit; by apply turns_delete).
  destruct (last_case hunks) as [->|(l & x & ->)]; [done|]. rewrite last_snoc, removelast_last. destruct x as [|k|]; try done.
  rewrite rev_unit in *. by apply turns_more_deleted.
Qed.

Lemma push_keep_turns hunks o n d : turns (rev hunks) o n → turns (rev (push_keep hunks (len d))) (d ++ o) (d ++ n).
Proof.
  intros H. unfold push_keep. assert (turns (rev (hunks ++ [Keep (len d)])) (d ++ o) (d ++ n)) as Hnew by (rewrite rev_unit; by apply turns_keep).
  destruct (last_case hunks) as [->|(l & x & ->)]; [done|]. rewrite last_snoc, removelast_last. destruct x as [| |k]; try done.
  rewrite rev_unit in *. by apply turns_more_kept.
Qed.

(** ** The way back *)

(** The characters from [a] to [b]. *)
Definition part (l : list N) (a b : N) : list N := ltake (b - a) (ldrop a l).

Lemma part_nil l a : part l a a = [].
Proof. unfold part. by rewrite N.sub_diag, ltake_0. Qed.

Lemma part_cons l a b : a < b → b ≤ len l → ∃ x, lget l a = Some x ∧ part l a b = x :: part l (a + 1) b.
Proof.
  intros Hab Hb. destruct (lget_lt l a) as [x Hx]; [lia|]. exists x. split; [done|]. unfold part.
  destruct (lget_Some l a x Hx) as (l1 & l2 & -> & Hl). rewrite <- Hl. rewrite ldrop_app_len. rewrite ltake_cons by lia. f_equal.
  replace (len l1 + 1) with (len (l1 ++ [x])) by (by rewrite len_app). change (l1 ++ x :: l2) with (l1 ++ [x] ++ l2).
  rewrite app_assoc, ldrop_app_len. f_equal. rewrite len_app. change (len [x]) with 1. lia.
Qed.

Lemma part_app l a b c : a ≤ b → b ≤ c → c ≤ len l → part l a b ++ part l b c = part l a c.
Proof.
  intros Hab Hbc Hc. unfold part. rewrite <- (ltake_ldrop (b - a) (ltake (c - a) (ldrop a l))). f_equal.
  - rewrite ltake_ltake. f_equal. lia.
  - rewrite ldrop_ltake, ldrop_ldrop. f_equal; [lia|f_equal; lia].
Qed.

Lemma part_all l : part l 0 (len l) = l.
Proof. unfold part. rewrite ldrop_0. apply ltake_ge. lia. Qed.

Lemma slice_part l a b : a ≤ b → b ≤ len l → slice_chars l a b = Some (part l a b).
Proof. intros H1 H2. unfold slice_chars. by rewrite (proj2 (N.leb_le _ _) H1), (proj2 (N.leb_le _ _) H2). Qed.

Definition scalars (l : list N) : Prop := Forall (λ c, is_scalar c = true) l.

Lemma len_char l i c : scalars l → lget l i = Some c → len (encode c) = len_utf8 c.
Proof. intros Hl Hc. apply len_encode, scalar_lt. unfold scalars in Hl. rewrite Forall_forall in Hl. apply Hl. by eapply list_elem_of_lookup_2. Qed.

Record diff_ok (d : StreamingDiff) : Prop := {
  ok_old : scalars (old d);
  ok_matrix : matrix_ok (scores d);
  ok_rows : rows (scores d) = len (old d) + 1;
  ok_cols : len (new d) - new_text_ix d < cols (scores d);
  ok_old_ix : old_text_ix d ≤ len (old d);
  ok_new_ix : new_text_ix d ≤ len (new d)
}.

Section backtrack.
Context (ordered_float_cmp : f64 → f64 → comparison).
Context (d : StreamingDiff) (Hok : diff_ok d).

(** A step goes back by a character of one text, or by one that both have. *)
Inductive steps_back (i j : N) : N * N → Prop :=
  | back_insert : new_text_ix d < j → steps_back i j (i, j - 1)
  | back_delete : old_text_ix d < i → steps_back i j (i - 1, j)
  | back_keep c : old_text_ix d < i → new_text_ix d < j → lget (old d) (i - 1) = Some c → lget (new d) (j - 1) = Some c →
      steps_back i j (i - 1, j - 1).

Lemma last_max_cases {A} (x y : option f64 * option A) : is_Some x.1 ↔ is_Some x.2 → is_Some y.1 ↔ is_Some y.2 →
  (last_max ordered_float_cmp x y = x ∨ last_max ordered_float_cmp x y = y) ∧
  (is_Some x.2 ∨ is_Some y.2 → is_Some (last_max ordered_float_cmp x y).2).
Proof.
  intros Hx Hy. unfold last_max. destruct x as [[a|] xa], y as [[b|] yb]; cbn in *; try (destruct (ordered_float_cmp a b));
    (split; [by auto|]); first [by intros _; apply Hx; eexists|by intros _; apply Hy; eexists|by intros [[? H]%Hx|[? H]%Hy]].
Qed.

Lemma cell_key_some cell : match cell with Some (i, j) => i ≤ len (old d) ∧ new_text_ix d ≤ j ∧ j ≤ len (new d) | None => True end →
  ∃ k, cell_key d cell = Some (k, cell) ∧ (is_Some k ↔ is_Some cell).
Proof.
  destruct Hok as [_ Hm Hr Hc _ _]. destruct cell as [[i j]|]; intros Hcell; cbn [cell_key]; [|by exists None].
  destruct Hcell as (Hi & Hj & Hj').
  destruct (matrix_get_some (scores d) i (j - new_text_ix d) Hm) as (x & ->); [lia|lia|]. exists (Some x). by split; [|split; intros _; eexists].
Qed.

Lemma previous_spec i j : old_text_ix d ≤ i → i ≤ len (old d) → new_text_ix d ≤ j → j ≤ len (new d) → (i, j) ≠ (old_text_ix d, new_text_ix d) →
  ∃ p, previous ordered_float_cmp d i j = Some p ∧ steps_back i j p.
Proof.
  intros Hi Hi' Hj Hj' Hne. unfold previous.
  set (ins := if new_text_ix d <? j then Some (i, j - 1) else None). set (del := if old_text_ix d <? i then Some (i - 1, j) else None).
  assert (∃ eq, (if (old_text_ix d <? i) && (new_text_ix d <? j) then
                a ← lget (old d) (i - 1); b ← lget (new d) (j - 1); Some (if a =? b then Some (i - 1, j - 1) else None)
              else Some None) = Some eq ∧ ∀ p, eq = Some p → p = (i - 1, j - 1) ∧ steps_back i j p) as (eq & -> & Heq).
  { destruct (N.ltb_spec (old_text_ix d) i), (N.ltb_spec (new_text_ix d) j); cbn [andb]; try (by exists None).
    destruct (lget_lt (old d) (i - 1)) as [a Ha]; [lia|]. destruct (lget_lt (new d) (j - 1)) as [b Hb]; [lia|]. rewrite Ha, Hb. cbn [mbind option_bind].
    eexists. split; [done|]. destruct (N.eqb_spec a b) as [->|]; [|done]. intros p [= <-]. split; [done|]. by eapply back_keep. }
  assert (∀ p, ins = Some p → p = (i, j - 1) ∧ steps_back i j p) as Hins.
  { unfold ins. destruct (N.ltb_spec (new_text_ix d) j); [|done]. intros p [= <-]. split; [done|]. by constructor. }
  assert (∀ p, del = Some p → p = (i - 1, j) ∧ steps_back i j p) as Hdel.
  { unfold del. destruct (N.ltb_spec (old_text_ix d) i); [|done]. intros p [= <-]. split; [done|]. by constructor. }
  assert (is_Some ins ∨ is_Some del) as Hsome.
  { unfold ins, del. destruct (N.ltb_spec (new_text_ix d) j); [left; by eexists|]. destruct (N.ltb_spec (old_text_ix d) i); [right; by eexists|].
    destruct Hne. f_equal; lia. }
  cbn [mbind option_bind].
  destruct (cell_key_some ins) as (ki & -> & Hki).
  { destruct ins as [p|]; [|done]. destruct (Hins p eq_refl) as [-> Hs]. inversion Hs; subst; lia. }
  destruct (cell_key_some del) as (kd & -> & Hkd).
  { destruct del as [p|]; [|done]. destruct (Hdel p eq_refl) as [-> Hs]. inversion Hs; subst; lia. }
  destruct (cell_key_some eq) as (ke & -> & Hke).
  { destruct eq as [p|]; [|done]. destruct (Heq p eq_refl) as [-> Hs]. inversion Hs; subst; lia. }
  cbn [mbind option_bind].
  destruct (last_max_cases (ki, ins) (kd, del) Hki Hkd) as [Hab Hab'].
  assert (is_Some (last_max ordered_float_cmp (ki, ins) (kd, del)).1 ↔ is_Some (last_max ordered_float_cmp (ki, ins) (kd, del)).2) as Hk
    by (destruct Hab as [-> | ->]; done).
  destruct (last_max_cases _ (ke, eq) Hk Hke) as [Habc Habc']. destruct Habc' as [p Hp]; [left; by apply Hab'|]. exists p. split; [done|].
  destruct Habc as [E|E]; rewrite E in Hp; [destruct Hab as [E2|E2]; rewrite E2 in Hp|]; cbn in Hp; [by apply Hins|by apply Hdel|by apply Heq].
Qed.

(** What is pending is an insertion that ends the way so far. *)
Definition pending_op (pending : option (N * N)) : list CharOperation :=
  match pending with None => [] | Some (a, b) => [Insert (encode_all (part (new d) a b))] end.
Definition pending_ok (pending : option (N * N)) (j : N) : Prop :=
  match pending with None => True | Some (a, b) => a = j ∧ j ≤ b ∧ b ≤ len (new d) end.

Lemma flush_turns pending hunks j o n : pending_ok pending j → turns (pending_op pending ++ rev hunks) o n →
  ∃ hunks', flush_pending d pending hunks = Some hunks' ∧ turns (rev hunks') o n.
Proof.
  intros Hp H. destruct pending as [[a b]|]; cbn [flush_pending]; [|by exists hunks]. destruct Hp as (-> & Hj & Hb).
  rewrite slice_part by done. eexists. split; [done|]. by rewrite rev_unit.
Qed.

Lemma step_turns i j p pending hunks o n : old_text_ix d ≤ i → i ≤ len (old d) → j ≤ len (new d) → steps_back i j p → pending_ok pending j →
  turns (pending_op pending ++ rev hunks) o n →
  ∃ pending' hunks', backtrack_step d i j p.1 p.2 pending hunks = Some (pending', hunks') ∧ pending_ok pending' p.2 ∧
    turns (pending_op pending' ++ rev hunks') (encode_all (part (old d) p.1 i) ++ o) (encode_all (part (new d) p.2 j) ++ n).
Proof.
  intros Hi Hi' Hj Hs Hp H. unfold backtrack_step. destruct Hs as [Hlt|Hlt|c Hlt Hlt' Hc Hc']; cbn [fst snd].
  - rewrite !N.eqb_refl. cbn [andb]. destruct (part_cons (new d) (j - 1) j) as (x & Hx & E); [lia|done|]. replace (j - 1 + 1) with j in E by lia.
    rewrite part_nil in *. eexists _, hunks. split; [done|]. destruct pending as [[a b]|]; cbn [pending_ok pending_op app] in *.
    + destruct Hp as (-> & Hj1 & Hb). split; [lia|]. intros rest. specialize (H rest). cbn in H |- *.
      destruct (apply_ops (rev hunks) (o ++ rest)) as [[m r]|]; [|done]. cbn in *. injection H as <- ->.
      by rewrite <- (part_app (new d) (j - 1) j b), encode_all_app, <- app_assoc by lia.
    + split; [lia|]. by apply turns_insert.
  - rewrite (proj2 (N.eqb_neq (i - 1) i)) by lia. cbn [andb]. destruct (flush_turns pending hunks j o n Hp H) as (hunks1 & -> & H1).
    destruct (part_cons (old d) (i - 1) i) as (c & Hc & E); [lia|done|]. replace (i - 1 + 1) with i in E by lia.
    rewrite Hc. cbn [mbind option_bind]. rewrite !N.eqb_refl. cbn [andb]. eexists None, _. split; [done|]. split; [done|]. cbn [pending_op app].
    rewrite E, !part_nil, encode_all_cons, app_nil_r, <- (len_char (old d) (i - 1) c) by (done || apply Hok). by apply push_delete_turns.
  - rewrite (proj2 (N.eqb_neq (i - 1) i)) by lia. cbn [andb]. destruct (flush_turns pending hunks j o n Hp H) as (hunks1 & -> & H1).
    destruct (part_cons (old d) (i - 1) i) as (x & Hx & E); [lia|done|]. replace (i - 1 + 1) with i in E by lia.
    destruct (part_cons (new d) (j - 1) j) as (y & Hy & E'); [lia|done|]. replace (j - 1 + 1) with j in E' by lia.
    rewrite Hc in Hx. injection Hx as <-. rewrite Hc' in Hy. injection Hy as <-.
    rewrite Hc. cbn [mbind option_bind]. rewrite (proj2 (N.eqb_neq (j - 1) j)), andb_false_r by lia.
    eexists None, _. split; [done|]. split; [done|]. cbn [pending_op app].
    rewrite E, E', !part_nil, !encode_all_cons, !app_nil_r, <- (len_char (old d) (i - 1) c) by (done || apply Hok). by apply push_keep_turns.
Qed.

Lemma backtrack_loop_spec I J fuel : ∀ i j pending hunks, I ≤ len (old d) → J ≤ len (new d) →
  old_text_ix d ≤ i ≤ I → new_text_ix d ≤ j ≤ J → (N.to_nat (i + j) < fuel)%nat → pending_ok pending j →
  turns (pending_op pending ++ rev hunks) (encode_all (part (old d) i I)) (encode_all (part (new d) j J)) →
  ∃ ops, backtrack_loop ordered_float_cmp fuel d i j pending hunks = Some ops ∧
    turns ops (encode_all (part (old d) (old_text_ix d) I)) (encode_all (part (new d) (new_text_ix d) J)).
Proof.
  induction fuel as [|fuel IH]; intros i j pending hunks HI HJ Hi Hj Hf Hp H; [lia|]. cbn [backtrack_loop].
  destruct (N.eqb_spec i (old_text_ix d)) as [Ei|Ei], (N.eqb_spec j (new_text_ix d)) as [Ej|Ej]; cbn [andb].
  { destruct (flush_turns pending hunks j _ _ Hp H) as (hunks' & -> & H'). subst i j. by eexists. }
  all: destruct (previous_spec i j) as (p & -> & Hs); [lia..|congruence|]; cbn [mbind option_bind];
    destruct (step_turns i j p pending hunks _ _ ltac:(lia) ltac:(lia) ltac:(lia) Hs Hp H) as (pending' & hunks' & E & Hp' & H');
    destruct p as [pi pj]; cbn [fst snd] in *; rewrite E; cbn [mbind option_bind];
    (apply (IH pi pj pending' hunks'); [done|done|inversion Hs; subst; lia|inversion Hs; subst; lia|inversion Hs; subst; lia|done|]);
    rewrite <- !encode_all_app in H'; rewrite !part_app in H' by (inversion Hs; subst; lia); exact H'.
Qed.

(** The hunks make of the old text up to [I] the new one up to [J]. *)
Lemma backtrack_spec I J : old_text_ix d ≤ I ≤ len (old d) → new_text_ix d ≤ J ≤ len (new d) →
  ∃ ops, backtrack ordered_float_cmp d I J = Some ops ∧
    turns ops (encode_all (part (old d) (old_text_ix d) I)) (encode_all (part (new d) (new_text_ix d) J)).
Proof.
  intros HI HJ. apply (backtrack_loop_spec I J); try lia; [done|]. rewrite !part_nil. apply turns_nil.
Qed.
End backtrack.

(** ** The scores *)

(** A column holds the score and the run of equal characters of each row; these are its rows, given the column before. *)
Definition reference_cell (a c : N) (diag beside : f64 * N) (above : f64) : f64 * N :=
  let run := if a =? c then wrap32 (diag.2 + 1) else 0 in
  (f64_max (f64_max (f64_add beside.1 INSERTION_SCORE) (f64_add above DELETION_SCORE))
     (if a =? c then f64_add diag.1 (equality_bonus run) else NEG_INFINITY), run).

Fixpoint reference_rows (c : N) (old : list N) (diag : f64 * N) (prev : list (f64 * N)) (above : f64) : list (f64 * N) :=
  match old, prev with
  | a :: old, beside :: prev =>
      let x := reference_cell a c diag beside above in
      x :: reference_rows c old beside prev x.1
  | _, _ => []
  end.

Definition reference_next (old : list N) (j c : N) (prev : list (f64 * N)) : list (f64 * N) :=
  let top := f64_mul (f64_of (Z.of_N j)) INSERTION_SCORE in
  (top, 0) :: match prev with diag :: prev => reference_rows c old diag prev top | [] => [] end.

Definition reference_first (old : list N) : list (f64 * N) :=
  (λ i, (f64_mul (f64_of (Z.of_nat i)) DELETION_SCORE, 0)) <$> seq 0 (S (length old)).

Fixpoint reference_columns (old : list N) (j : N) (new : list N) (prev : list (f64 * N)) : list (f64 * N) :=
  match new with
  | [] => prev
  | c :: new => reference_columns old (j + 1) new (reference_next old (j + 1) c prev)
  end.

(** The last column, for the whole new text at once. *)
Definition reference (old new : list N) : list (f64 * N) := reference_columns old 0 new (reference_first old).

Lemma reference_rows_length c old : ∀ diag prev above, length prev = length old → length (reference_rows c old diag prev above) = length old.
Proof. induction old as [|a old IH]; intros diag [|beside prev] above H; try done. cbn in *. f_equal. apply IH. lia. Qed.

Lemma reference_next_length old j c prev : length prev = S (length old) → length (reference_next old j c prev) = S (length old).
Proof. intros H. destruct prev as [|diag prev]; [done|]. cbn in *. f_equal. apply reference_rows_length. lia. Qed.

Lemma reference_columns_length old new : ∀ j prev, length prev = S (length old) → length (reference_columns old j new prev) = S (length old).
Proof. induction new as [|c new IH]; intros j prev H; [done|]. cbn. by apply IH, reference_next_length. Qed.

Lemma reference_columns_app old n1 n2 : ∀ j prev,
  reference_columns old j (n1 ++ n2) prev = reference_columns old (j + len n1) n2 (reference_columns old j n1 prev).
Proof.
  induction n1 as [|c n1 IH]; intros j prev; [cbn; by rewrite N.add_0_r|]. cbn [app reference_columns]. rewrite IH, len_cons. f_equal. lia.
Qed.

(** *** What a column of the matrix holds *)

Section scores.
Implicit Types (d : StreamingDiff) (l prev : list (f64 * N)).

Definition holds d (col j : N) l : Prop :=
  ∀ k x, lget l k = Some x → matrix_get (scores d) k col = Some x.1 ∧ default 0 (equal_runs d !! (k, j)) = x.2.

(** Only the column [col] of the scores has changed, and the runs that end at the character [j]. *)
Record frame (col j : N) d d' : Prop := {
  frame_old : old d' = old d;
  frame_new : new d' = new d;
  frame_old_ix : old_text_ix d' = old_text_ix d;
  frame_new_ix : new_text_ix d' = new_text_ix d;
  frame_matrix : matrix_ok (scores d) → matrix_ok (scores d');
  frame_rows : rows (scores d') = rows (scores d);
  frame_cols : cols (scores d') = cols (scores d);
  frame_get r c : c ≠ col → matrix_get (scores d') r c = matrix_get (scores d) r c;
  frame_runs k j' : j' ≠ j → equal_runs d' !! (k, j') = equal_runs d !! (k, j')
}.

Lemma frame_trans col j d1 d2 d3 : frame col j d1 d2 → frame col j d2 d3 → frame col j d1 d3.
Proof.
  intros [] []. split; try congruence; [auto| |].
  - intros r c Hc. by rewrite frame_get1, frame_get0.
  - intros k j' Hj. by rewrite frame_runs1, frame_runs0.
Qed.

Lemma frame_holds col j d d' col' j' l : frame col j d d' → col' ≠ col → j' ≠ j → holds d col' j' l → holds d' col' j' l.
Proof. intros Hf Hc Hj H k x Hx. rewrite (frame_get _ _ _ _ Hf), (frame_runs _ _ _ _ Hf) by done. by apply H. Qed.

Lemma score_cell_spec d i j col a c diag beside above : matrix_ok (scores d) → 0 < i → i < rows (scores d) → 0 < col → col < cols (scores d) →
  0 < j → lget (old d) (i - 1) = Some a → lget (new d) (j - 1) = Some c →
  matrix_get (scores d) (i - 1) (col - 1) = Some diag.1 → default 0 (equal_runs d !! (i - 1, j - 1)) = diag.2 →
  matrix_get (scores d) i (col - 1) = Some beside.1 → matrix_get (scores d) (i - 1) col = Some above → equal_runs d !! (i, j) = None →
  ∃ d', score_cell d i j col = Some d' ∧ frame col j d d' ∧
    matrix_get (scores d') i col = Some (reference_cell a c diag beside above).1 ∧
    default 0 (equal_runs d' !! (i, j)) = (reference_cell a c diag beside above).2 ∧
    ∀ k, k ≠ i → matrix_get (scores d') k col = matrix_get (scores d) k col ∧ equal_runs d' !! (k, j) = equal_runs d !! (k, j).
Proof.
  intros Hm Hi Hi' Hc Hc' Hj Ha Hb Hdiag Hrun Hleft Habove Hnone.
  assert (∃ d1 eq, equality d i j col = Some (d1, eq) ∧ scores d1 = scores d ∧ frame col j d d1 ∧
      eq = (if a =? c then f64_add diag.1 (equality_bonus (wrap32 (diag.2 + 1))) else NEG_INFINITY) ∧
      default 0 (equal_runs d1 !! (i, j)) = (reference_cell a c diag beside above).2 ∧
      ∀ k, k ≠ i → equal_runs d1 !! (k, j) = equal_runs d !! (k, j)) as (d1 & eq & E & Es & Hf1 & -> & Hr & Hr').
  { unfold equality, reference_cell. rewrite Ha, Hb. cbn [mbind option_bind snd]. destruct (a =? c).
    - rewrite Hdiag, Hrun. cbn [mbind option_bind]. eexists _, _. split; [done|]. split; [done|]. split.
      + split; try done. intros k j' Hne. cbn. by rewrite lookup_insert_ne by congruence.
      + split; [done|]. cbn. rewrite lookup_insert_eq. split; [done|]. intros k Hk. by rewrite lookup_insert_ne by congruence.
    - exists d, NEG_INFINITY. split_and!; try done. by rewrite Hnone. }
  unfold score_cell. rewrite Hleft, Habove. cbn [mbind option_bind]. rewrite E.
  cbn [mbind option_bind]. rewrite Es.
  destruct (matrix_set_spec (scores d) i col (f64_max (f64_max (f64_add beside.1 INSERTION_SCORE) (f64_add above DELETION_SCORE))
    (if a =? c then f64_add diag.1 (equality_bonus (wrap32 (diag.2 + 1))) else NEG_INFINITY)) Hm Hi' Hc') as (m & -> & Hm' & Er & Ec & Hg & Hg').
  cbn [mbind option_bind]. eexists. split; [done|]. split.
  { apply (frame_trans col j d d1); [done|]. split; try done; cbn; [by rewrite Es|by rewrite Es|]. intros r c' Hne. rewrite Es. apply Hg'. by right. }
  split; [cbn [scores with_scores]; rewrite Hg; unfold reference_cell; cbn [fst]; by destruct (a =? c)|]. split; [done|].
  intros k Hk. split; [apply Hg'; by left|by apply Hr'].
Qed.

(** The rows from [i] on; [done] holds those before it. *)
Lemma score_rows_spec c old' : ∀ i j col d done prev diag above, matrix_ok (scores d) → rows (scores d) = i + len old' → 0 < i → i = len done →
  0 < col → col < cols (scores d) → 0 < j → (∀ k, lget old' k = lget (old d) (i - 1 + k)) → lget (new d) (j - 1) = Some c → length prev = length old' →
  (∀ k x, lget (diag :: prev) k = Some x → matrix_get (scores d) (i - 1 + k) (col - 1) = Some x.1 ∧ default 0 (equal_runs d !! (i - 1 + k, j - 1)) = x.2) →
  matrix_get (scores d) (i - 1) col = Some above → holds d col j done → (∀ k, i ≤ k → equal_runs d !! (k, j) = None) →
  ∃ d', score_rows (length old') i j col d = Some d' ∧ frame col j d d' ∧ holds d' col j (done ++ reference_rows c old' diag prev above).
Proof.
  induction old' as [|a old' IH]; intros i j col d don prev diag above Hm Hrows Hi Hdone Hcol Hcol' Hj Hold Hc Hl Hprev Habove Hh Hnone; cbn [length score_rows].
  - exists d. destruct prev; [|done]. cbn [reference_rows]. rewrite app_nil_r. split; [done|]. split; [by split|done].
  - destruct prev as [|beside prev]; [done|]. rewrite len_cons in Hrows.
    destruct (Hprev 0 diag eq_refl) as [Hd1 Hd2]. destruct (Hprev 1 beside eq_refl) as [Hl1 Hl2]. rewrite N.add_0_r in Hd1, Hd2.
    replace (i - 1 + 1) with i in Hl1, Hl2 by lia.
    pose proof (Hold 0) as Ha. cbn in Ha. rewrite N.add_0_r in Ha.
    destruct (score_cell_spec d i j col a c diag beside above) as (d1 & -> & Hf & Hg & Hr & Hother); [done|lia|lia|done|done|done|by rewrite <- Ha|done|done|done|done|done|apply Hnone; lia|].
    cbn [mbind option_bind reference_rows]. set (x := reference_cell a c diag beside above) in *.
    destruct (IH (i + 1) j col d1 (don ++ [x]) prev beside x.1) as (d2 & E & Hf2 & Hh2).
    + by apply Hf.
    + rewrite (frame_rows _ _ _ _ Hf). lia.
    + lia.
    + rewrite len_app. change (len [x]) with 1. lia.
    + done.
    + by rewrite (frame_cols _ _ _ _ Hf).
    + done.
    + intros k. rewrite (frame_old _ _ _ _ Hf). specialize (Hold (k + 1)). replace (i + 1 - 1 + k) with (i - 1 + (k + 1)) by lia. rewrite <- Hold.
      unfold lget. by replace (N.to_nat (k + 1)) with (S (N.to_nat k)) by lia.
    + by rewrite (frame_new _ _ _ _ Hf).
    + cbn in Hl. lia.
    + intros k y Hy. rewrite (frame_get _ _ _ _ Hf), (frame_runs _ _ _ _ Hf) by lia. replace (i + 1 - 1 + k) with (i - 1 + (k + 1)) by lia. apply Hprev.
      unfold lget in *. by replace (N.to_nat (k + 1)) with (S (N.to_nat k)) by lia.
    + by replace (i + 1 - 1) with i by lia.
    + intros k y Hy. destruct (N.lt_ge_cases k i) as [Hlt|Hge].
      * rewrite lget_app_l in Hy by lia. destruct (Hother k) as [-> ->]; [lia|]. by apply Hh.
      * assert (k = i) as ->; [|rewrite lget_app_r in Hy by lia; rewrite <- Hdone, N.sub_diag in Hy; injection Hy as <-; done].
        apply lookup_lt_Some in Hy. rewrite length_app in Hy. cbn in Hy. unfold len in Hdone. lia.
    + intros k Hk. destruct (Hother k) as [_ ->]; [lia|]. apply Hnone. lia.
    + exists d2. split; [done|]. split; [by eapply frame_trans|]. by rewrite <- app_assoc in Hh2.
Qed.
End scores.

(** *** Columns *)

Record same_base (d d' : StreamingDiff) : Prop := {
  base_old : old d' = old d;
  base_new : new d' = new d;
  base_old_ix : old_text_ix d' = old_text_ix d;
  base_new_ix : new_text_ix d' = new_text_ix d;
  base_matrix : matrix_ok (scores d) → matrix_ok (scores d');
  base_rows : rows (scores d') = rows (scores d);
  base_cols : cols (scores d') = cols (scores d)
}.

Lemma frame_base col j d d' : frame col j d d' → same_base d d'.
Proof. by intros []. Qed.

Lemma base_trans d1 d2 d3 : same_base d1 d2 → same_base d2 d3 → same_base d1 d3.
Proof. intros [] []. split; try congruence. auto. Qed.

Lemma score_column_spec d j c prev : matrix_ok (scores d) → rows (scores d) = len (old d) + 1 → new_text_ix d < j → j - new_text_ix d < cols (scores d) →
  lget (new d) (j - 1) = Some c → length prev = S (length (old d)) → holds d (j - 1 - new_text_ix d) (j - 1) prev →
  (∀ k j', j ≤ j' → equal_runs d !! (k, j') = None) →
  ∃ d', score_column d j = Some d' ∧ frame (j - new_text_ix d) j d d' ∧ holds d' (j - new_text_ix d) j (reference_next (old d) j c prev).
Proof.
  intros Hm Hr Hj Hcol Hc Hl Hprev Hfresh. unfold score_column. set (col := j - new_text_ix d) in *. set (top := f64_mul (f64_of (Z.of_N j)) INSERTION_SCORE).
  destruct (matrix_set_spec (scores d) 0 col top Hm) as (m & -> & Hm' & Er & Ec & Hg & Hg'); [lia|done|]. cbn [mbind option_bind].
  assert (frame col j d (with_scores d m)) as Hf by (split; try done; intros r c' Hne; apply Hg'; by right).
  destruct prev as [|diag prev]; [done|]. unfold reference_next. fold top.
  destruct (score_rows_spec c (old d) 1 j col (with_scores d m) [(top, 0)] prev diag top) as (d' & E & Hf' & Hh); cbn [scores with_scores new old equal_runs].
  - done.
  - rewrite Er, Hr. lia.
  - lia.
  - done.
  - unfold col. lia.
  - by rewrite Ec.
  - lia.
  - intros k. by replace (1 - 1 + k) with k by lia.
  - done.
  - cbn in Hl. lia.
  - intros k x Hx. replace (1 - 1 + k) with k by lia. rewrite Hg' by (right; unfold col; lia). replace (col - 1) with (j - 1 - new_text_ix d) by (unfold col; lia).
    by apply Hprev.
  - done.
  - intros k x Hx. unfold lget in Hx. destruct (N.to_nat k) as [|k'] eqn:Ek; [|done]. injection Hx as <-. cbn [scores with_scores equal_runs fst snd].
    assert (k = 0) as -> by lia. split; [done|]. by rewrite Hfresh.
  - intros k Hk. by apply Hfresh.
  - exists d'. split; [exact E|]. split; [by eapply frame_trans|]. exact Hh.
Qed.

Lemma score_columns_spec cs : ∀ j d prev, matrix_ok (scores d) → rows (scores d) = len (old d) + 1 → new_text_ix d < j →
  j + len cs - new_text_ix d ≤ cols (scores d) → (∀ k, lget cs k = lget (new d) (j - 1 + k)) → length prev = S (length (old d)) →
  holds d (j - 1 - new_text_ix d) (j - 1) prev → (∀ k j', j ≤ j' → equal_runs d !! (k, j') = None) →
  ∃ d', score_columns (length cs) j d = Some d' ∧ same_base d d' ∧
    holds d' (j + len cs - 1 - new_text_ix d) (j + len cs - 1) (reference_columns (old d) (j - 1) cs prev) ∧
    ∀ k j', j + len cs ≤ j' → equal_runs d' !! (k, j') = None.
Proof.
  induction cs as [|c cs IH]; intros j d prev Hm Hr Hj Hcol Hcs Hl Hprev Hfresh; cbn [length score_columns].
  - exists d. change (len ([] : list N)) with 0. rewrite !N.add_0_r. by split_and!.
  - rewrite len_cons in *. pose proof (Hcs 0) as Hc. cbn in Hc. rewrite N.add_0_r in Hc.
    destruct (score_column_spec d j c prev) as (d1 & -> & Hf & Hh); [done|done|done|lia|done|done|done|done|]. cbn [mbind option_bind reference_columns].
    pose proof (frame_base _ _ _ _ Hf) as Hb. destruct Hb as [Eo En Eoi Eni HM Er Ec].
    destruct (IH (j + 1) d1 (reference_next (old d) j c prev)) as (d2 & E & Hb2 & Hh2 & Hfresh2); rewrite ?Eo, ?En, ?Eni, ?Er, ?Ec.
    + by apply HM.
    + done.
    + lia.
    + lia.
    + intros k. specialize (Hcs (k + 1)). replace (j + 1 - 1 + k) with (j - 1 + (k + 1)) by lia. rewrite <- Hcs.
      unfold lget. by replace (N.to_nat (k + 1)) with (S (N.to_nat k)) by lia.
    + by apply reference_next_length.
    + by replace (j + 1 - 1) with j by lia.
    + intros k j' Hj'. rewrite (frame_runs _ _ _ _ Hf) by lia. apply Hfresh. lia.
    + exists d2. split; [done|]. split; [by eapply base_trans; [by eapply frame_base|]|]. rewrite Eo, Eni in Hh2.
      replace (j + (1 + len cs)) with (j + 1 + len cs) by lia. replace (j - 1 + 1) with j by lia. replace (j + 1 - 1) with j in Hh2 by lia. by split.
Qed.

(** ** The operations *)

(** Between two pushes. *)
Record stream_ok (d : StreamingDiff) : Prop := {
  stream_diff : diff_ok d;
  stream_new : scalars (new d);
  stream_ix : new_text_ix d = len (new d);
  stream_column : holds d (cols (scores d) - 1) (len (new d)) (reference (old d) (new d));
  stream_fresh k j : len (new d) < j → equal_runs d !! (k, j) = None
}.

Lemma set_first_column_spec n : ∀ i m, matrix_ok m → 0 < cols m → i + N.of_nat n ≤ rows m →
  ∃ m', set_first_column n i m = Some m' ∧ matrix_ok m' ∧ rows m' = rows m ∧ cols m' = cols m ∧
    (∀ k, i ≤ k → k < i + N.of_nat n → matrix_get m' k 0 = Some (f64_mul (f64_of (Z.of_N k)) DELETION_SCORE)) ∧
    ∀ k, k < i → matrix_get m' k 0 = matrix_get m k 0.
Proof.
  induction n as [|n IH]; intros i m Hm Hc Hr; cbn [set_first_column]; [exists m; split_and!; [done..|lia|done]|].
  destruct (matrix_set_spec m i 0 (f64_mul (f64_of (Z.of_N i)) DELETION_SCORE) Hm) as (m1 & -> & Hm1 & Er & Ec & Hg & Hg'); [lia|done|].
  cbn [mbind option_bind]. destruct (IH (i + 1) m1 Hm1) as (m2 & E & Hm2 & Er2 & Ec2 & Hin & Hout); [lia|lia|].
  exists m2. split; [done|]. split; [done|]. split; [congruence|]. split; [congruence|]. split.
  - intros k Hk Hk'. destruct (N.eq_dec k i) as [->|]; [by rewrite Hout by lia|]. apply Hin; lia.
  - intros k Hk. rewrite Hout by lia. apply Hg'. left. lia.
Qed.

Lemma chars_scalars t : utf8 t → scalars (chars t).
Proof. intros (cs & Hcs & ->). by rewrite chars_encode_all. Qed.

Lemma chars_inverse t : utf8 t → encode_all (chars t) = t.
Proof. intros (cs & Hcs & ->). by rewrite chars_encode_all. Qed.

Lemma diff_new_spec text : utf8 text → ∃ d, diff_new text = Some d ∧ stream_ok d ∧ old d = chars text ∧ new d = [] ∧ old_text_ix d = 0.
Proof.
  intros Ht. unfold diff_new. set (o := chars text).
  destruct (set_first_column_spec (S (length o)) 0 (matrix_resize matrix_new (len o + 1) 1)) as (m & -> & Hm & Er & Ec & Hg & _);
    [apply resize_ok|cbn; lia|cbn; unfold len; lia|]. cbn [rows cols matrix_resize] in *.
  eexists. split; [done|]. split_and!; [|done..]. split; cbn [scores old new old_text_ix new_text_ix equal_runs]; try done.
  - split; cbn; [by apply chars_scalars|done|by rewrite Er|by rewrite Ec|lia|lia].
  - by constructor.
  - rewrite Ec. intros k x Hx. change (lget (reference_first o) k = Some x) in Hx. unfold reference_first, lget in Hx.
    apply list_lookup_fmap_Some in Hx as (n & -> & Hn). apply lookup_seq in Hn as [-> Hn]. cbn [fst snd]. split; [|done].
    cbn [scores]. change (1 - 1) with 0. rewrite Hg by (unfold len; lia). do 3 f_equal. lia.
Qed.

Lemma extend_new_spec d text : stream_ok d → ∃ d1, extend_new d text = Some d1 ∧ old d1 = old d ∧ new d1 = new d ++ chars text ∧
  old_text_ix d1 = old_text_ix d ∧ new_text_ix d1 = len (new d) ∧ matrix_ok (scores d1) ∧ rows (scores d1) = len (old d) + 1 ∧
  cols (scores d1) = len (chars text) + 1 ∧ holds d1 0 (len (new d)) (reference (old d) (new d)) ∧
  ∀ k j, len (new d) < j → equal_runs d1 !! (k, j) = None.
Proof.
  intros [[_ Hm Hr Hc _ _] _ Hix Hcol Hfresh]. unfold extend_new. destruct (N.eqb_spec (cols (scores d)) 0); [lia|].
  destruct (swap_columns_spec (scores d) 0 (cols (scores d) - 1) Hm) as (m & -> & Hm' & Er & Ec & Hg); [lia|lia|]. cbn [mbind option_bind].
  eexists. split; [done|]. cbn [old new old_text_ix new_text_ix scores equal_runs rows cols matrix_resize]. split_and!; [done|done|done|done|apply resize_ok|done| | |].
  - rewrite len_app, Hix. lia.
  - intros k x Hx. destruct (Hcol k x Hx) as [Hx1 Hx2]. cbn [scores equal_runs]. rewrite <- Hr, <- Er.
    assert (k < rows (scores d)) as Hk.
    { apply lookup_lt_Some in Hx. unfold reference in Hx. rewrite reference_columns_length in Hx by (unfold reference_first; by rewrite length_fmap, length_seq).
      unfold len in Hr. lia. }
    rewrite resize_get by (done || lia). rewrite Hg by lia. rewrite N.eqb_refl. split; [done|]. rewrite <- Hx2. f_equal. rewrite map_lookup_filter.
    destruct (equal_runs d !! (k, len (new d))); [|done]. cbn. by rewrite option_guard_True by (by rewrite Hix).
  - intros k j Hj. apply map_lookup_filter_None. left. by apply Hfresh.
Qed.

Lemma best_row_spec n : ∀ i d col m best, matrix_ok (scores d) → col < cols (scores d) → i + N.of_nat n ≤ rows (scores d) →
  old_text_ix d ≤ best → best < rows (scores d) → old_text_ix d ≤ i →
  ∃ r, best_row n i d col m best = Some r ∧ old_text_ix d ≤ r ∧ r < rows (scores d).
Proof.
  induction n as [|n IH]; intros i d col m best Hm Hc Hi Hb Hb' Hi'; cbn [best_row]; [by exists best|].
  destruct (matrix_get_some (scores d) i col Hm) as (x & ->); [lia|done|]. cbn [mbind option_bind]. destruct (SFltb m x); apply IH; (done || lia).
Qed.

Section stream.
Context (ordered_float_cmp : f64 → f64 → comparison).

(** The hunks of a push make the text that was pushed of some of the old text. *)
Lemma push_new_spec d text : stream_ok d → utf8 text → ∃ d' ops, push_new ordered_float_cmp d text = Some (d', ops) ∧ stream_ok d' ∧
  old d' = old d ∧ new d' = new d ++ chars text ∧ old_text_ix d ≤ old_text_ix d' ∧
  turns ops (encode_all (part (old d) (old_text_ix d) (old_text_ix d'))) text.
Proof.
  intros Hd Ht. destruct (extend_new_spec d text Hd) as (d1 & E1 & Eo & En & Eoi & Eni & Hm & Hr & Hc & Hh & Hfresh).
  unfold push_new. rewrite E1. cbn [mbind option_bind]. rewrite Eni, En, len_app. replace (N.to_nat (len (new d) + len (chars text) - len (new d))) with (length (chars text)) by (unfold len; lia).
  destruct (score_columns_spec (chars text) (len (new d) + 1) d1 (reference (old d) (new d))) as (d2 & -> & Hb & Hh2 & Hfresh2).
  { done. } { by rewrite Eo. } { lia. } { lia. }
  { intros k. rewrite En. replace (len (new d) + 1 - 1 + k) with (len (new d) + k) by lia. rewrite lget_app_r by lia. f_equal. lia. }
  { rewrite Eo. apply reference_columns_length. unfold reference_first. by rewrite length_fmap, length_seq. }
  { rewrite Eni. by replace (len (new d) + 1 - 1 - len (new d)) with 0 by lia; replace (len (new d) + 1 - 1) with (len (new d)) by lia. }
  { intros k j Hj. apply Hfresh. lia. }
  cbn [mbind option_bind]. destruct Hb as [Eo2 En2 Eoi2 Eni2 HM Er2 Ec2]. rewrite Eo in Eo2. rewrite En in En2. rewrite Eoi in Eoi2. rewrite Eni in Eni2.
  pose proof (stream_diff _ Hd) as [Hold _ _ _ Hoix _].
  destruct (best_row_spec (N.to_nat (len (old d2) + 1 - old_text_ix d2)) (old_text_ix d2) d2 (len (new d2) - new_text_ix d2) NEG_INFINITY (old_text_ix d2))
    as (r & Ebest & Hbest & Hbest'); [by apply HM|rewrite Ec2, Hc, En2, Eni2, len_app; lia|rewrite Er2, Hr, Eo2; lia|lia|rewrite Er2, Hr, Eoi2; lia|lia|].
  rewrite Ebest. cbn [mbind option_bind].
  assert (diff_ok d2) as Hd2.
  { split; [by rewrite Eo2|by apply HM|by rewrite Er2, Hr, Eo2|rewrite Ec2, Hc, En2, Eni2, len_app; lia|by rewrite Eoi2, Eo2|rewrite En2, Eni2, len_app; lia]. }
  rewrite Er2, Hr in Hbest'. rewrite Eoi2 in Hbest.
  destruct (backtrack_spec ordered_float_cmp d2 Hd2 r (len (new d2))) as (ops & -> & Hops); [rewrite Eoi2, Eo2; lia|rewrite En2, Eni2, len_app; lia|].
  cbn [mbind option_bind]. eexists _, ops. split; [done|]. rewrite Eoi2, Eo2, Eni2, En2 in Hops. cbn [old new old_text_ix new_text_ix scores equal_runs].
  split; [|split; [done|split; [done|split; [done|]]]].
  - split; cbn [old new old_text_ix new_text_ix scores equal_runs].
    + split; cbn [old new old_text_ix new_text_ix scores equal_runs]; [by rewrite Eo2|by apply HM|by rewrite Er2, Hr, Eo2|rewrite Ec2, Hc; lia|rewrite Eo2; lia|lia].
    + rewrite En2. apply Forall_app. split; [apply Hd|by apply chars_scalars].
    + done.
    + rewrite Ec2, Hc, En2, Eo2, len_app. rewrite Eni, Eo in Hh2. replace (len (new d) + 1 - 1) with (len (new d)) in Hh2 by lia.
      replace (len (chars text) + 1 - 1) with (len (new d) + 1 + len (chars text) - 1 - len (new d)) by lia.
      replace (len (new d) + len (chars text)) with (len (new d) + 1 + len (chars text) - 1) by lia.
      unfold reference. rewrite reference_columns_app. exact Hh2.
    + intros k j Hj. rewrite En2, len_app in Hj. apply Hfresh2. lia.
  - assert (part (new d ++ chars text) (len (new d)) (len (new d ++ chars text)) = chars text) as E.
    { unfold part. rewrite ldrop_app_len. apply ltake_ge. rewrite len_app. lia. }
    by rewrite E, chars_inverse in Hops.
Qed.

(** The pieces of a new text one after the other. *)
Fixpoint push_all (d : StreamingDiff) (texts : list str) : option (StreamingDiff * list CharOperation) :=
  match texts with
  | [] => Some (d, [])
  | text :: texts => '(d, ops) ← push_new ordered_float_cmp d text; '(d, more) ← push_all d texts; Some (d, ops ++ more)
  end.

Lemma push_all_spec texts : ∀ d, stream_ok d → Forall utf8 texts → ∃ d' ops, push_all d texts = Some (d', ops) ∧ stream_ok d' ∧
  old d' = old d ∧ new d' = new d ++ (texts ≫= chars) ∧ old_text_ix d ≤ old_text_ix d' ∧
  turns ops (encode_all (part (old d) (old_text_ix d) (old_text_ix d'))) (concat texts).
Proof.
  induction texts as [|text texts IH]; intros d Hd Hu; cbn [push_all].
  - exists d, []. rewrite app_nil_r, part_nil. by split_and!.
  - apply Forall_cons in Hu as [Hu Hus]. destruct (push_new_spec d text Hd Hu) as (d1 & ops1 & -> & Hd1 & Eo1 & En1 & Hix1 & H1).
    cbn [mbind option_bind]. destruct (IH d1 Hd1 Hus) as (d2 & ops2 & -> & Hd2 & Eo2 & En2 & Hix2 & H2). cbn [mbind option_bind].
    exists d2, (ops1 ++ ops2). split; [done|]. split; [done|]. split; [congruence|]. split; [by rewrite En2, En1, <- app_assoc|]. split; [lia|].
    pose proof (ok_old_ix _ (stream_diff _ Hd2)) as Hle. rewrite Eo2 in Hle. rewrite Eo1 in H2, Hle.
    rewrite <- (part_app (old d) (old_text_ix d) (old_text_ix d1)), encode_all_app by lia. by apply turns_app.
Qed.

(** C17: [StreamingDiff] turns the old text into the new one: whatever the pieces in which the new text arrives,
    no push panics and the loops of [backtrack] end, and the hunks of all pushes and of [finish], applied
    to the old text, use all of it and make the new text. *)
Theorem streaming_diff_applies (text : str) (texts : list str) : utf8 text → Forall utf8 texts →
  ∃ d d' ops rest, diff_new text = Some d ∧ push_all d texts = Some (d', ops) ∧ finish ordered_float_cmp d' = Some rest ∧
    apply_ops (ops ++ rest) text = Some (concat texts, []).
Proof.
  intros Ht Hts. destruct (diff_new_spec text Ht) as (d & E & Hd & Eo & En & Eix). destruct (push_all_spec texts d Hd Hts) as (d' & ops & E' & Hd' & Eo' & En' & Hix & H).
  pose proof (stream_diff _ Hd') as Hok. pose proof (stream_ix _ Hd') as Hnix.
  destruct (backtrack_spec ordered_float_cmp d' Hok (len (old d')) (len (new d'))) as (rest & Er & Hr); [split; [apply Hok|done]|rewrite Hnix; lia|].
  exists d, d', ops, rest. split; [done|]. split; [done|]. split; [exact Er|].
  rewrite Hnix, part_nil, Eo', Eo in Hr. rewrite Eix, Eo in H. pose proof (ok_old_ix _ Hok) as Hle. rewrite Eo', Eo in Hle.
  pose proof (turns_app _ _ _ _ _ _ H Hr []) as Happ. rewrite <- encode_all_app, part_app, part_all, chars_inverse in Happ by (done || lia).
  by rewrite !app_nil_r in Happ.
Qed.

(** C21: the scores that the pushes leave in the last column, and the runs of equal characters behind them, are those
    of one pass over the whole new text: they do not depend on how the text was cut. *)
Theorem streaming_scores_whole (text : str) (texts : list str) : utf8 text → Forall utf8 texts →
  ∃ d d' ops, diff_new text = Some d ∧ push_all d texts = Some (d', ops) ∧
    ∀ i, i ≤ len (chars text) → ∃ score run, lget (reference (chars text) (texts ≫= chars)) i = Some (score, run) ∧
      matrix_get (scores d') i (cols (scores d') - 1) = Some score ∧ default 0 (equal_runs d' !! (i, len (new d'))) = run.
Proof.
  intros Ht Hts. destruct (diff_new_spec text Ht) as (d & E & Hd & Eo & En & Eix). destruct (push_all_spec texts d Hd Hts) as (d' & ops & E' & Hd' & Eo' & En' & _).
  exists d, d', ops. split; [done|]. split; [done|]. intros i Hi. pose proof (stream_column _ Hd') as Hcol. rewrite Eo', Eo, En', En in Hcol. cbn [app] in Hcol.
  destruct (lget_lt (reference (chars text) (texts ≫= chars)) i) as [[score run] Hx].
  { unfold len, reference in *. rewrite reference_columns_length; [lia|]. unfold reference_first. by rewrite length_fmap, length_seq. }
  exists score, run. split; [done|]. rewrite En', En. by destruct (Hcol i _ Hx).
Qed.
End stream.

(** ** Concrete inputs *)

Definition demo_cmp (x y : f64) : comparison := default Eq (SFcompare x y).
Definition demo_old : str := [104; 101; 108; 108; 111; 10; 119; 111].
Definition demo_texts : list str := [[104; 101]; [195; 169; 108]; [108; 111; 10; 119]].

Lemma diff_demo_utf8 : utf8 demo_old ∧ Forall utf8 demo_texts.
Proof.
  split; [by exists demo_old; split; [repeat constructor|]|].
  repeat constructor; [exists [104; 101]|exists [233; 108]|exists [108; 111; 10; 119]]; (split; [repeat constructor|done]).
Qed.

Lemma streaming_diff_applies_witness : ∃ d d' ops rest, diff_new demo_old = Some d ∧ push_all demo_cmp d demo_texts = Some (d', ops) ∧
  finish demo_cmp d' = Some rest ∧ apply_ops (ops ++ rest) demo_old = Some ([104; 101; 195; 169; 108; 108; 111; 10; 119], []).
Proof. exact (streaming_diff_applies demo_cmp demo_old demo_texts (proj1 diff_demo_utf8) (proj2 diff_demo_utf8)). Defined.

Lemma streaming_scores_whole_witness : ∃ d d' ops, diff_new demo_old = Some d ∧ push_all demo_cmp d demo_texts = Some (d', ops) ∧
  ∃ score run, lget (reference (chars demo_old) (demo_texts ≫= chars)) 8 = Some (score, run) ∧ matrix_get (scores d') 8 (cols (scores d') - 1) = Some score.
Proof.
  destruct (streaming_scores_whole demo_cmp demo_old demo_texts (proj1 diff_demo_utf8) (proj2 diff_demo_utf8)) as (d & d' & ops & E & E' & H).
  exists d, d', ops. split; [exact E|]. split; [exact E'|]. destruct (H 8) as (score & run & H1 & H2 & _); [by vm_compute|].
  exists score, run. split; [exact H1|exact H2].
Defined.
