(* ===== verification/LineDiff.v ===== *)
(** * LineDiff: from operations on characters to operations on lines

    Models [LineDiff] of [crates/streaming_diff/src/streaming_diff.rs]: it follows the operations that [StreamingDiff]
    yields on a rope of the old text, and notes the rows that go and the rows that come.  The boundaries of grapheme
    clusters, as in [Rope], are a parameter.  [None] is a panic, or fuel that ran out: in
    [line_operations] each round takes a row away or keeps some, so that two rounds for each row are enough.

    The examples at the end run tests of the repository, and two cases in which the operations on lines
    do not make the text that the operations on characters make. *)

From S2P Require Import Prelude StreamingDiff Bits Utf8 SumTree Cursor TextSummary Chunk Rope RopeChunks.

(** A [BTreeSet] of rows: a list in order. *)
Fixpoint rows_insert (x : N) (l : list N) : list N :=
  match l with
  | [] => [x]
  | y :: l' => if x <? y then x :: l else if x =? y then l else y :: rows_insert x l'
  end.
Definition rows_extend (l : list N) (rows : list N) : list N := foldl (λ l x, rows_insert x l) l rows.
(** The rows from [a] to before [b], and to [b]. *)
Definition row_range (a b : N) : list N := (λ i, a + N.of_nat i) <$> seq 0 (N.to_nat (b - a)).
Definition row_range_inclusive (a b : N) : list N := row_range a (b + 1).

Inductive LineOperation : Type :=
| InsertLines (lines : N)
| DeleteLines (lines : N)
| KeepLines (lines : N).

Record LineDiff : Type := mk_line_diff {
  inserted_newline_at_end : bool;
  old_end : Point;
  new_end : Point;
  deleted_rows : list N;
  inserted_rows : list N;
  buffered_insert : str;
  buffered_delete : N
}.

Definition line_diff_default : LineDiff := mk_line_diff false point_zero point_zero [] [] [] 0.

Definition is_line_start (p : Point) : bool := column p =? 0.
Section grapheme.
Context (is_grapheme_boundary : str → N → bool).

Definition is_line_end (p : Point) (text : Rope) : option bool := n ← rope_line_len is_grapheme_boundary text (row p); Some (n =? column p).

(** The fields that each step changes. *)
Definition with_ends (d : LineDiff) o n : LineDiff :=
  mk_line_diff (inserted_newline_at_end d) o n (deleted_rows d) (inserted_rows d) (buffered_insert d) (buffered_delete d).
Definition with_newline (d : LineDiff) b : LineDiff :=
  mk_line_diff b (old_end d) (new_end d) (deleted_rows d) (inserted_rows d) (buffered_insert d) (buffered_delete d).
Definition add_deleted (d : LineDiff) (rows : list N) : LineDiff :=
  mk_line_diff (inserted_newline_at_end d) (old_end d) (new_end d) (rows_extend (deleted_rows d) rows) (inserted_rows d) (buffered_insert d) (buffered_delete d).
Definition add_inserted (d : LineDiff) (rows : list N) : LineDiff :=
  mk_line_diff (inserted_newline_at_end d) (old_end d) (new_end d) (deleted_rows d) (rows_extend (inserted_rows d) rows) (buffered_insert d) (buffered_delete d).
Definition with_insert (d : LineDiff) (text : str) : LineDiff :=
  mk_line_diff (inserted_newline_at_end d) (old_end d) (new_end d) (deleted_rows d) (inserted_rows d) text (buffered_delete d).
Definition with_delete (d : LineDiff) (n : N) : LineDiff :=
  mk_line_diff (inserted_newline_at_end d) (old_end d) (new_end d) (deleted_rows d) (inserted_rows d) (buffered_insert d) n.

Definition flush_insert (d : LineDiff) (old_text : Rope) : option LineDiff :=
  if bool_decide (buffered_insert d = []) then Some d
  else
    let new_start := new_end d in
    let d := with_ends d (old_end d) (point_add (new_end d) (ts_lines (ts_from_str (buffered_insert d)))) in
    d ← (if is_line_start (old_end d) then
           Some (if column (new_end d) =? 0 then add_inserted d (row_range (row new_start) (row (new_end d)))
                 else add_inserted (add_deleted d [row (old_end d)]) (row_range_inclusive (row new_start) (row (new_end d))))
         else
           line_end ← is_line_end (old_end d) old_text;
           Some (if line_end : bool then
                   if str_starts_with (buffered_insert d) [newline] then
                     with_newline (add_inserted d (row_range_inclusive (row new_start + 1) (row (new_end d)))) true
                   else
                     add_inserted (if inserted_newline_at_end d then d else add_deleted d [row (old_end d)])
                       (row_range_inclusive (row new_start) (row (new_end d)))
                 else add_inserted (add_deleted d [row (old_end d)]) (row_range_inclusive (row new_start) (row (new_end d)))));
    Some (with_insert d []).

Definition flush_delete (d : LineDiff) (old_text : Rope) : option LineDiff :=
  if buffered_delete d =? 0 then Some d
  else
    let old_start := old_end d in
    let d := with_ends d (rope_offset_to_point old_text (rope_point_to_offset old_text (old_end d) + buffered_delete d)) (new_end d) in
    start_at_end ← is_line_end old_start old_text;
    both ← (if start_at_end : bool then is_line_end (old_end d) old_text else Some false);
    let d :=
      if both : bool then add_deleted d (row_range_inclusive (row old_start + 1) (row (old_end d)))
      else if is_line_start old_start && (is_line_start (old_end d) && ltb_ord (old_end d) (rope_max_point old_text)) && (column (new_end d) =? 0)
      then add_deleted d (row_range (row old_start) (row (old_end d)))
      else add_deleted (add_inserted d [row (new_end d)]) (row_range_inclusive (row old_start) (row (old_end d))) in
    Some (with_delete (with_newline d false) 0).

Definition keep (d : LineDiff) (bytes : N) (old_text : Rope) : LineDiff :=
  if bytes =? 0 then d
  else
    let lines := point_sub (rope_offset_to_point old_text (rope_point_to_offset old_text (old_end d) + bytes)) (old_end d) in
    with_newline (with_ends d (point_add (old_end d) lines) (point_add (new_end d) lines)) false.

(** How many bytes the two sequences of characters have in common. *)
Fixpoint common_len (a b : list N) : N :=
  match a, b with
  | x :: a, y :: b => if x =? y then len_utf8 x + common_len a b else 0
  | _, _ => 0
  end.

Definition trim_buffered_end (d : LineDiff) (old_text : Rope) : option (LineDiff * N) :=
  let old_start_offset := rope_point_to_offset old_text (old_end d) in
  let old_end_offset := old_start_offset + buffered_delete d in
  pieces ← pieces_in_range old_text old_start_offset old_end_offset;
  let common_suffix_len := common_len (rev (chars (buffered_insert d))) (pieces ≫= (λ chunk, rev (chars chunk))) in
  if buffered_delete d <? common_suffix_len then None
  else
    insert ← str_slice (buffered_insert d) 0 (len (buffered_insert d) - common_suffix_len);
    Some (with_insert (with_delete d (buffered_delete d - common_suffix_len)) insert, common_suffix_len).

Definition push_char_operation (d : LineDiff) (operation : CharOperation) (old_text : Rope) : option LineDiff :=
  match operation with
  | Insert text =>
      d ← flush_delete d old_text;
      if is_line_start (old_end d) then
        match rfind_newline text with
        | Some newline_ix =>
            prefix ← str_slice text 0 (newline_ix + 1);
            suffix ← str_slice text (newline_ix + 1) (len text);
            d ← flush_insert (with_insert d (buffered_insert d ++ prefix)) old_text;
            Some (with_insert d (buffered_insert d ++ suffix))
        | None => Some (with_insert d (buffered_insert d ++ text))
        end
      else
        let d := with_insert d (buffered_insert d ++ text) in
        if str_ends_with text [newline] then Some d else flush_insert d old_text
  | Delete bytes =>
      '(d, common_suffix_len) ← trim_buffered_end (with_delete d (buffered_delete d + bytes)) old_text;
      d ← flush_insert d old_text;
      line_end ← is_line_end (old_end d) old_text;
      if (0 <? common_suffix_len) || negb line_end then
        d ← flush_delete d old_text;
        Some (keep d common_suffix_len old_text)
      else Some d
  | Keep bytes =>
      d ← flush_delete d old_text;
      d ← flush_insert d old_text;
      Some (keep d bytes old_text)
  end.

Fixpoint push_char_operations (d : LineDiff) (operations : list CharOperation) (old_text : Rope) : option LineDiff :=
  match operations with
  | [] => Some d
  | operation :: operations => d ← push_char_operation d operation old_text; push_char_operations d operations old_text
  end.

Definition line_diff_finish (d : LineDiff) (old_text : Rope) : option LineDiff :=
  d ← flush_insert d old_text;
  d ← flush_delete d old_text;
  let old_start := old_end d in
  Some (with_ends d (rope_max_point old_text) (point_add (new_end d) (point_sub (rope_max_point old_text) old_start))).

End grapheme.

(** The last operation grows, or a new one comes. *)
Definition push_deleted (ops : list LineOperation) : list LineOperation :=
  match last ops with Some (DeleteLines lines) => removelast ops ++ [DeleteLines (lines + 1)] | _ => ops ++ [DeleteLines 1] end.
Definition push_inserted (ops : list LineOperation) : list LineOperation :=
  match last ops with Some (InsertLines lines) => removelast ops ++ [InsertLines (lines + 1)] | _ => ops ++ [InsertLines 1] end.

Definition checked_sub (a b : N) : option N := if a <? b then None else Some (a - b).

Fixpoint line_operations_loop (fuel : nat) (d : LineDiff) (deleted inserted : list N) (old_row new_row : N) (ops : list LineOperation) :
    option (list LineOperation * N) :=
  match fuel with
  | O => None
  | S fuel =>
      if bool_decide (deleted = []) && bool_decide (inserted = []) then Some (ops, old_row)
      else if bool_decide (head deleted = Some old_row) then line_operations_loop fuel d (tail deleted) inserted (old_row + 1) new_row (push_deleted ops)
      else if bool_decide (head inserted = Some new_row) then line_operations_loop fuel d deleted (tail inserted) old_row (new_row + 1) (push_inserted ops)
      else
        lines_to_next_deletion ← checked_sub (default (row (new_end d) + 1) (head inserted)) new_row;
        lines_to_next_insertion ← checked_sub (default (row (old_end d) + 1) (head deleted)) old_row;
        let kept_lines := N.max 1 (N.min lines_to_next_insertion lines_to_next_deletion) in
        line_operations_loop fuel d deleted inserted (old_row + kept_lines) (new_row + kept_lines) (ops ++ [KeepLines kept_lines])
  end.

Definition line_operations (d : LineDiff) : option (list LineOperation) :=
  '(ops, old_row) ← line_operations_loop (2 * (length (deleted_rows d) + length (inserted_rows d)) + 3) d (deleted_rows d) (inserted_rows d) 0 0 [];
  Some (if old_row <? row (old_end d) + 1 then ops ++ [KeepLines (row (old_end d) + 1 - old_row)] else ops).

(** ** What the operations make

    [char_ops_to_line_ops], [apply_line_operations] and [apply_char_operations] of the tests. *)

Definition char_ops_to_line_ops (old_text : str) (operations : list CharOperation) : option (list LineOperation) :=
  r ← rope_from_str old_text;
  d ← push_char_operations (λ _ _, true) line_diff_default operations r;
  d ← line_diff_finish (λ _ _, true) d r;
  line_operations d.

(** The lines of the result. *)
Fixpoint apply_line_operations (old_lines new_lines : list str) (operations : list LineOperation) : list str :=
  match operations with
  | [] => []
  | KeepLines n :: operations => ltake n old_lines ++ apply_line_operations (ldrop n old_lines) (ldrop n new_lines) operations
  | DeleteLines n :: operations => apply_line_operations (ldrop n old_lines) new_lines operations
  | InsertLines n :: operations => ltake n new_lines ++ apply_line_operations old_lines (ldrop n new_lines) operations
  end.

Fixpoint apply_char_operations (old_text : str) (operations : list CharOperation) : str :=
  match operations with
  | [] => []
  | Keep n :: operations => ltake n old_text ++ apply_char_operations (ldrop n old_text) operations
  | Delete n :: operations => apply_char_operations (ldrop n old_text) operations
  | Insert text :: operations => text ++ apply_char_operations old_text operations
  end.

(** Whether the operations on lines make the text that those on characters make. *)
Definition lines_agree (old_text : str) (operations : list CharOperation) : option bool :=
  let new_text := apply_char_operations old_text operations in
  line_operations ← char_ops_to_line_ops old_text operations;
  Some (bool_decide (apply_line_operations (split_lines old_text) (split_lines new_text) line_operations = split_lines new_text)).

(** Tests of the repository. *)
Example test_delete_first_of_two_lines : let old_text := [97; 97; 97; 97; 10; 98; 98; 98; 98] in let operations := [Delete 5; Keep 4] in
  char_ops_to_line_ops old_text operations = Some [DeleteLines 1; KeepLines 1] ∧ lines_agree old_text operations = Some true.
Proof. by vm_compute. Qed.

Example test_delete_second_of_two_lines : let old_text := [97; 97; 97; 97; 10; 98; 98; 98; 98] in let operations := [Keep 5; Delete 4] in
  char_ops_to_line_ops old_text operations = Some [KeepLines 1; DeleteLines 1; InsertLines 1] ∧ lines_agree old_text operations = Some true.
Proof. by vm_compute. Qed.

Example test_edit_at_end_of_line : let old_text := [97; 97; 97; 97; 10; 98; 98; 98; 98; 10; 99; 99; 99; 99] in let operations := [Keep 4; Insert [65]; Keep 10] in
  char_ops_to_line_ops old_text operations = Some [DeleteLines 1; InsertLines 1; KeepLines 2] ∧ lines_agree old_text operations = Some true.
Proof. by vm_compute. Qed.

Example test_complex_scenario : let old_text := [108; 105; 110; 101; 49; 10; 108; 105; 110; 101; 50; 10; 108; 105; 110; 101; 51; 10; 108; 105; 110; 101; 52] in let operations := [Keep 6; Insert [105; 110; 115; 101; 114; 116; 101; 100; 10]; Delete 6; Keep 5; Insert [10; 110; 101; 119; 108; 105; 110; 101]; Keep 6] in
  char_ops_to_line_ops old_text operations = Some [KeepLines 1; DeleteLines 1; InsertLines 1; KeepLines 1; InsertLines 1; KeepLines 1] ∧ lines_agree old_text operations = Some true.
Proof. by vm_compute. Qed.

(** Inserting where a deletion from the end of a line to the end of another one is still buffered notes
    the row as new, but not the old row as gone. *)
Example line_diff_insert_behind_delete : let old_text := [97; 10; 98; 10; 99] in let operations := [Keep 1; Delete 2; Insert [120]; Keep 2] in
  char_ops_to_line_ops old_text operations = Some [InsertLines 1; KeepLines 1; DeleteLines 1; KeepLines 1] ∧ lines_agree old_text operations = Some false.
Proof. by vm_compute. Qed.

(** [trim_buffered_end] reads the chunks of the deleted text from the first one on, so that
    the end of the inserted text is compared with the end of the first chunk: here with the newline there. *)
Example line_diff_trims_first_chunk : let old_text := replicate 127 120 ++ [newline] ++ replicate 22 121 in
  let operations := [Keep 4; Insert [90; newline]; Delete 126; Keep 20] in
  char_ops_to_line_ops old_text operations = Some [DeleteLines 2; InsertLines 1] ∧ lines_agree old_text operations = Some false.
Proof. by vm_compute. Qed.
